(* ===== verification/_CoqProject ===== *)
-Q . S2P
Prelude.v
Utf8.v
Text.v
Wire.v
Cost.v
Turn.v
Json.v
Project.v
Journal.v
PathLib.v
PermPath.v
PermBash.v
PermRules.v
AgentSink.v
AgentBatch.v
AgentWp.v
AgentExec.v
Agent.v
AgentRun.v
Stream.v
DlrCodec.v
DlrStore.v
DlrGf.v
DlrFountain.v
DlrReceiver.v
DlrFilter.v
DlrCompress.v
DlrShim.v
DlrSync.v
DlrRs.v
DlrMmr.v
AlgMultiset.v
AlgSeq.v
AlgCrdt.v
AlgRewrite.v
AlgBurnside.v
Clock.v
Ctx.v
EditText.v
Tools.v
ToolsRead.v
Registry.v
Client.v
Config.v
ConfigEdit.v
ConfigSave.v
ChatModel.v
Sidecar.v
SidecarSync.v
DlrChat.v
Session.v
Menu.v
SessionLog.v
RtEvents.v
RtDriver.v
RtPump.v
TuiComposer.v
TuiView.v
TuiApp.v
TuiSafe.v
TuiPaste.v
