(* ===== verification/Prelude.v ===== *)
(** * Verification development for Subconscious Code

    Subconscious Code is a coding agent written in Rust: a loop that sends the
    conversation to a model, runs the tool calls the model asks for, and keeps
    the log.  This development models the agent (src/crates/rc-core, rc-perm,
    rc-ctx, rc-algebra, rc-tools, rc-session, rc-rt, rc-config and rc-proto,
    and rc-tui but for its drawing) and the
    replication protocol it can use to avoid re-sending the conversation
    (src/integrations/dlr), from the client's transport to the sidecar that
    rebuilds the request.

    ** Parts, files and sources

    - [Prelude] (this file): outcomes of fallible code ([res], with [Panic] for a
      run-time panic), machine integers, bytes, UTF-8, strings as lists of
      characters, list searches, tactics and the hint database [sc].
    - [Utf8], [Text]: decoding of bytes and the string operations (lines, find,
      replace, trim, split) as the standard library has them.
    - [Wire], [Cost], [Turn]: the data.  Wire messages, token usage and finish
      reasons (rc-proto/src/wire.rs, stream.rs), integer cost accounting
      (rc-core/src/cost.rs), conversation turns, tool results and the byte cap
      of a result (rc-core/src/turn.rs, tool.rs).
    - [Json]: what the code uses of serde_json, as the class [JsonApi] with its
      laws [JsonLaws]; its module [Tree] is an instance, used by the witnesses.
    - [Project] (rc-core/src/project.rs): the projection of a log of turns to the
      messages of a request ([project_with]), the splitting of oversized
      contents ([chunk_by_escaped_len]) and the check that every tool call is
      answered ([verify_invariant]).
    - [Journal] (rc-core/src/state.rs, rc-session/src/rewind.rs): the read
      registry, the change journal with its durable form, and /rewind, over a
      file system that may refuse writes.
    - [PathLib], [PermPath] (rc-perm/src/path.rs): paths as the standard library
      sees them, and the two resolvers that keep a path below the allowed roots.
    - [PermBash] (rc-perm/src/bash.rs): splitting and parsing of shell commands,
      the catastrophic and always-ask lists, rule matching; with the shell's own
      quoting rules as the reference for the splitter.
    - [PermRules] (rc-perm/src/rules.rs): modes, rules, the permission engine and
      the bypass checker.
    - [AgentSink], [AgentBatch], [Agent] (rc-core/src/agent.rs, with the types of
      model.rs, prompt.rs and rc-proto/src/error.rs): the observer of a streamed
      response, the batch executor, and the loop.  The code is a program in the
      monad [M W] over the session, the batch bookkeeping, the world and the
      trace of effects; the class [AgentEnv] is the world's interface (clock,
      shell, model, permission checker, prompter, tools, cancellation, deadline),
      and every [await] may be cut off there.
    - [AgentWp], [AgentExec], [AgentRun]: weakest preconditions for [M W], the
      contract of the batch executor, and the theorems about whole runs, which
      use the batch only through that contract.
    - [Stream] (rc-proto/src/stream.rs): server-sent events from bytes in any
      pieces, tool calls from fragments, the repair of broken JSON, events from
      chunks.
    - [EditText], [Tools], [ToolsRead], [Registry] (rc-tools/src, rc-core/src/
      tool.rs): the replacement of one string in a file, the editing tools over
      a file system that others change too, the reading tools with their pages
      and limits, and the registry that offers tools to the model.
    - [Client], [ChatModel] (rc-proto/src/client.rs, rc-core/src/model.rs): bodies
      and their spool, retries, delays and the fallback from gzip; the event
      stream, the assembly of a response and the replay of a request that
      produced nothing.
    - [Config], [ConfigEdit], [ConfigSave] (rc-config/src/{lib,edit}.rs): what the
      readers of the two settings files make of a syntax tree, the layers, the
      environment and what they resolve to; the fields that can be edited and
      the write of one value; what a save means for the next load.  The classes
      [SettingsJson], [ConfigOs] and [ConfigDisk] are what they use of
      serde_json, of the environment and of the disk.
    - [Menu] (rc-tui/src/menu.rs, app.rs): the menu over projects, sessions and
      settings, with its editor and its keys.
    - [TuiComposer], [TuiView], [TuiApp] (rc-tui/src/{app,view,complete}.rs): the
      composer with its completion and history; the transcript with the blocks
      that expand in place; the interface as a state machine over keys, pastes,
      the mouse, ticks and the runtime's events.  The classes [Listing],
      [Screen] and [TuiHost] are what they use of the disk, of the terminal
      library and of the rendering of differences and markdown; what a frame
      leaves behind (its click targets, the rows of the answer so far) is an
      argument of the step that draws it.
    - [TuiSafe], [TuiPaste]: what every sequence of inputs keeps; pastes that
      arrive as keys, prompts that are lost, the history file.
    - [Session], [SessionLog] (rc-session/src): the session file, its header and
      entries, what a crash leaves of it, and the session that loading replays.
    - [RtEvents], [RtDriver], [RtPump] (rc-rt/src): the bounded queue of
      events, the driver that owns the agent and its session file, and the pump
      between user interface and driver, as a transition system.
    - [AlgMultiset], [AlgSeq], [AlgCrdt], [AlgRewrite], [AlgBurnside]
      (rc-algebra/src): the group hash of a multiset of blocks with the kernels of
      each target, the polynomial hash of a sequence, the replicated prefix set,
      the string rewriting engine with its confluence check, and the counting of
      orbits.
    - [Clock] (rc-tokenize/src/time.rs): civil dates and sortable timestamps.
    - [Ctx] (rc-ctx/src/lib.rs, rc-core/src/context.rs): the system prompt,
      [@file] mentions, result caps, the assembly of a request, and the two keys
      of an assembled context.
    - [DlrCodec] (integrations/dlr/crates/core/src/{block,canonical,merkle,session,
      frame}.rs): blocks, their canonical bytes and addresses, the Merkle root,
      the wire frames and their decoder, session shards.
    - [DlrStore] (core/src/{store,wal}.rs): the content store and its write-ahead
      log, with replay and reopening.
    - [DlrGf], [DlrFountain] (coding/src/{gf256,fountain}.rs): arithmetic in
      GF(256) with its table, shuffle and scalar kernels; the fountain code, its
      elimination decoder and the framing of bulk transfers.
    - [DlrReceiver] (receiver/src/lib.rs): the handlers of APPEND, RESYNC and
      BULK; the class [Codec] is what they use of the compressor and of the
      fountain decoder.
    - [DlrFilter] (core/src/filter.rs), [DlrCompress] (compress/src): the cuckoo
      filter of known blocks; compression with its thread-local contexts.
    - [DlrShim] (shim/src/lib.rs): the sender: sessions, turns,
      acknowledgements, cold-start frames, and the coordinator.
    - [DlrRs], [DlrMmr] (coding/src/rs.rs, core/src/mmr.rs): the Reed-Solomon code
      and the Merkle mountain range.
    - [DlrSync]: sender and receiver together.  The receiver's [Codec] is
      instantiated with the compressor and the fountain decoder, and the two
      run against each other over a channel that repeats and reorders.
    - [Sidecar] (sidecar/src/lib.rs): the envelope of a chat request, the client's
      session, the server's endpoints, its cache of projections and the request
      it sends to the gateway.  The classes [JsonWire] and [SidecarNet] are what
      it uses of serde_json and of the network.
    - [SidecarSync]: the server over every sequence of requests, and a client's
      session connected to it.
    - [DlrChat] (rc-proto/src/dlr.rs): the transport of the chat client, on top
      of [Sidecar].

    The loop calls the projection for every request and checks it, asks the
    permission engine before every tool, and appends the turns that the
    projection reads next; the context engine expands and caps those turns and
    projects them; tools record their changes in the journal, which /rewind
    restores from.  The sender turns new blocks into frames, inline or by
    reference according to its filter and store; the receiver decodes frames,
    resolves their blocks and keeps them in the store, whose log a restart
    replays; after a loss of state the sender's cold-start frames rebuild it.

    Definitions keep the names of the source; a struct field carries a prefix of
    its record.  A loop of the source that is not structural is a [Fixpoint] with
    fuel, a [for] loop over a list is structural.

    ** What is shown

    - Runs of the agent ([AgentRun], [AgentExec]): a run ends within its budget
      and does not panic; however it ends, every tool call of the log has its
      result; every request passes [verify_invariant]; no tool starts without an
      approval of that very call; calls of a response that did not finish with
      tool calls are refused; the recoveries are bounded.  A batch cut off
      anywhere yields one result per call, in call order, and one end event.
    - The observer and the projection: bounds on what is kept of a broken stream;
      the projection of an answered log is answered; oversized contents are cut
      without loss and fit; compaction hides everything before it but the goal;
      replayed arguments are JSON objects.
    - The journal: /rewind restores every file, and a durable journal reloads.
    - Permissions: catastrophic commands are always denied; what an allowed
      command, path or ReadMany must have matched; plan and ask mode; the rule
      syntax; the splitter against the shell's quoting, with the commands on
      which they differ; containment of resolved paths and totality of the
      resolver.
    - Cost and truncation: independence of sharding, the error of merging
      usages, the cut of a tool result.
    - The stream decoder: independence of how the transport cuts the body, and
      the tool calls that come out of any fragmentation.
    - The client of the model: what is sent is what was to be sent, compressed or
      not; retries are bounded and wait no longer than they may; a response does
      not depend on the cuts of its body, and a request is replayed only if
      nothing but white space of its response was shown.
    - The tools: an edit replaces the one place it found, with CRLF line endings
      too; a file changed by others is not overwritten; every reported change
      was made and, over text files, can be rewound; pages cover the file.
    - Sessions: a file round trip, loading after a crash at any byte, appending
      after it; a resumed session is the one in memory, through the driver too.
      The file keeps times in whole milliseconds ([stored_turn], turn.rs): what
      comes back is the turns with their times cut to these.
    - The runtime: no event that matters is lost from the bounded queue, prompts
      run one at a time in order, a cancel reaches the turn and its questions.
    - The settings: a value that is saved is the one the next load resolves
      unless the project's file or the environment speaks about its field, and
      nothing else changes; unknown keys and siblings survive it; the host of the
      base address decides whether the default replication endpoint is used; a project cannot
      declare itself trusted; a key of the menu writes one file, and the key that
      is typed goes to its own; the projects of the menu partition the sessions.
    - The interface: after any inputs each thought, failed call and running call
      has rows of its own that show it; a question is answered by its keys only;
      a paste of inert text delivered as keys is one prompt; what the end of a call leaves;
      which prompts come back from the history file.
    - The context engine: mention expansion against a one-pass reference, what
      files it may read (links are followed), when a request extends the one
      before and when it does not; an assembled request passes [verify_invariant].
    - The algebra: a context is a multiset and its key a function of it on every
      target; the sequence hash is a homomorphism that order changes; replicas
      converge under any gossip, provided an epoch determines the entry; the
      confluence check is right when no left side contains another, and wrong
      otherwise.  Dates are the Gregorian calendar's, timestamps sort.
    - Replication: block and frame round trips, where the decoder panics, the
      root as a commitment to the log, shard bounds; recovery of the store from
      whatever a crash leaves of its log, content addressing; APPEND is atomic
      and can be retried, a cold start is acknowledged once, when it is complete;
      the field laws and the equality of the kernels; what the fountain decoder
      recovers, exactly; the filter's negatives; compression round trips; and,
      for sender and receiver together, that the turns of any sessions arrive
      and that a cold start completes; any [k] shards of Reed-Solomon decode.
    - The sidecar: over every sequence of requests the gateway is sent the whole
      session of an acknowledged request and nothing of a refused one
      ([gateway_request]); the cache is bounded and never changes what is sent;
      a turn sent as a delta has the effect of the full JSON request
      ([delta_is_transparent], [conversation_turn]); preparing is atomic; the two
      transports are not mixed ([one_transport]).
    - Where the code does not do what it says, a theorem gives the input
      ([lost_turn_diverges], [grow_loses_entries], [stale_dictionary],
      [sent_message_changes], [equal_epochs_diverge], [nested_overlaps_missed],
      [copies_cancel], [edit_spreads_crlf], [binary_overwrite_lost],
      [mode_flood_wedges], [failed_request_blocks], [conflict_asks_twice],
      [wide_number_drops_the_file], [active_model_stays],
      [query_passes_for_provider], [staged_prompt_lost], [pasted_tab_sends],
      [pasted_command_runs], [mention_follows_link], [blank_text_shown_twice],
      [overlapping_occurrences_pass], [leading_newline_leaves_cr]).

    ** Fuel and bounds

    - [run_fuel] is [max_iters + 1]: the loop tests its counter before every
      iteration; [run_ends_answered] proves that the fuel is enough.
    - [batch_loop] has one unit per call of the batch: every step consumes one or
      more calls ([run_batch_answers] proves that it finishes).
    - [walk_fuel] is the number of path components plus one: the ancestor walk
      drops one per step ([resolve_within_loose_total]).
    - [verify_loop] has the number of messages: every step consumes one or more.
    - [replay_loop] has the file's length plus one: a record takes 21 bytes or
      more ([wal_recovery] covers the whole file); [split_frames] has the length
      of the stream plus one: a piece takes four bytes or more.
    - The filter's [kick] has the constant KICKS of the code (500), after which
      the code gives up too; [normalize_bounded] has the step bound of the code;
      the fountain's elimination loop has the number of symbols.
    - [coeff_loop] has 64 units, one per bit of a [usize]; [mentions_loop] has the
      length of the line plus one, and every round consumes a character;
      [neon_loop] has one unit per limb and uses one per 32.
    - [attempts_fuel] of the client is one more than its retries; the replays of
      [complete_loop] have the constant of the code plus one; [strip_loop] has the
      length of the text plus one, and every round consumes a tag.
    - Integers are [Z] with the width written at the operation ([wrap],
      [sat_add], [in_u]); lengths of Rust collections are below 2^63 and not
      wrapped, except where a cast cuts them ([put_u32_le]).

    ** What is not modelled

    Operating-system I/O (child processes, sandboxing, terminals, sockets), the
    HTTP library, MCP, hooks and skills, the drawing of the user interface and
    its clipboard, the command line, the shell and search tools (processes),
    the network codes and the transports of the replication library that the
    sidecar does not use, floating-point estimates (tokens, relevance,
    congestion), and the Windows branches.  Third-party code is an interface or a
    parameter: serde_json, shlex, globset, [canonicalize], BLAKE3, SHA-256, xxh3,
    zstd, flate2, reqwest, the random choice of fountain degrees.  The mutexes of
    the receiver, of the store and of the sidecar's cache make each handler one
    step; the calls of a parallel phase are spawned into the environment, which
    runs them, and joined in call order; a tool that is called in place, not
    spawned, is taken not to panic. *)

From Stdlib Require Export ZArith Lia Bool.
From stdpp Require Export base tactics option list gmap strings numbers.

#[global] Set Default Goal Selector "!".
#[global] Open Scope Z_scope.

(** ** Tactics *)

Ltac deex :=
  repeat match goal with
         | H : exists _, _ |- _ => destruct H
         | H : _ /\ _ |- _ => destruct H
         end.

(** ** Outcomes of fallible code

    [Err] is a value of the error type of a Rust [Result]; [Panic] is a
    run-time panic (an index out of range, an [expect] on [None]). *)

Inductive res (E A : Type) : Type :=
| Ok (a : A)
| Err (e : E)
| Panic.
Arguments Ok {E A} a.
Arguments Err {E A} e.
Arguments Panic {E A}.

Definition res_bind {E A B} (m : res E A) (f : A -> res E B) : res E B :=
  match m with
  | Ok a => f a
  | Err e => Err e
  | Panic => Panic
  end.

Definition res_of_option {E A} (o : option A) (e : E) : res E A :=
  match o with Some a => Ok a | None => Err e end.

Declare Scope rust_scope.
Delimit Scope rust_scope with rust.
Notation "'let?' x ':=' m 'in' k" := (res_bind m (fun x => k))
  (at level 10, x pattern, m at level 100, k at level 200) : rust_scope.
#[global] Open Scope rust_scope.

Lemma res_bind_ok {E A B} (m : res E A) (f : A -> res E B) b :
  res_bind m f = Ok b <-> exists a, m = Ok a /\ f a = Ok b.
Proof. destruct m; simpl; split; intros; deex; naive_solver. Qed.

Lemma res_bind_no_panic {E A B} (m : res E A) (f : A -> res E B) :
  m <> Panic -> (forall a, m = Ok a -> f a <> Panic) -> res_bind m f <> Panic.
Proof. destruct m; naive_solver. Qed.

(** [lia] on goals with [/] and [mod]. *)
Ltac zlia := Z.to_euclidean_division_equations; lia.

(** ** Machine integers

    An unsigned integer of [w] bits is a [Z] in [0, 2^w). *)

Definition umax (w : Z) : Z := 2 ^ w - 1.
Definition in_u (w x : Z) : Prop := 0 <= x < 2 ^ w.
Definition wrap (w x : Z) : Z := x mod 2 ^ w.
Definition sat_add (w a b : Z) : Z := Z.min (a + b) (umax w).
Definition sat_sub (a b : Z) : Z := Z.max 0 (a - b).
Definition div_ceil (a b : Z) : Z := (a + b - 1) / b.

#[global] Instance in_u_dec w x : Decision (in_u w x).
Proof. unfold in_u. apply _. Defined.

Lemma wrap_small w x : in_u w x -> wrap w x = x.
Proof. unfold in_u, wrap. intros. by apply Z.mod_small. Qed.

Lemma wrap_range w x : 0 <= w -> in_u w (wrap w x).
Proof. intros. unfold in_u, wrap. apply Z.mod_pos_bound. lia. Qed.

Lemma sat_add_range w a b : 0 <= w -> in_u w a -> in_u w b -> in_u w (sat_add w a b).
Proof. unfold in_u, sat_add, umax. lia. Qed.

(** ** Bytes and little-endian integers *)

(** [is_byte b] says that [b] is a value of a Rust [u8]. *)
Definition is_byte (b : Z) : Prop := 0 <= b < 256.
#[global] Instance is_byte_dec b : Decision (is_byte b).
Proof. unfold is_byte. apply _. Defined.

Definition bytes_ok (l : list Z) : Prop := Forall is_byte l.

(** [u{8n}::to_le_bytes]. *)
Fixpoint le_bytes (n : nat) (v : Z) : list Z :=
  match n with
  | O => []
  | S n' => v mod 256 :: le_bytes n' (v / 256)
  end.

(** [u{8n}::from_le_bytes]. *)
Fixpoint le_val (l : list Z) : Z :=
  match l with
  | [] => 0
  | b :: t => b + 256 * le_val t
  end.

Lemma length_le_bytes n v : length (le_bytes n v) = n.
Proof. revert v. induction n; intros; simpl; auto. Qed.

Lemma le_bytes_ok n v : bytes_ok (le_bytes n v).
Proof.
  revert v. induction n; intros; simpl; constructor; [|by apply IHn].
  unfold is_byte. zlia.
Qed.

Lemma pow_byte_S n : 2 ^ (8 * Z.of_nat (S n)) = 256 * 2 ^ (8 * Z.of_nat n).
Proof.
  replace (8 * Z.of_nat (S n)) with (8 + 8 * Z.of_nat n) by lia.
  rewrite Z.pow_add_r by lia. done.
Qed.

Lemma le_val_bytes n v :
  0 <= v < 2 ^ (8 * Z.of_nat n) -> le_val (le_bytes n v) = v.
Proof.
  revert v. induction n as [|n IH]; intros v Hv.
  - simpl in *. lia.
  - rewrite pow_byte_S in Hv. simpl. rewrite IH; zlia.
Qed.

Lemma le_val_range l : bytes_ok l -> 0 <= le_val l < 2 ^ (8 * Z.of_nat (length l)).
Proof.
  induction 1 as [|b l Hb _ IH].
  - simpl. lia.
  - cbn [length le_val]. rewrite pow_byte_S. unfold is_byte in Hb. lia.
Qed.

Lemma le_bytes_val l n : bytes_ok l -> length l = n -> le_bytes n (le_val l) = l.
Proof.
  intros Hl <-. induction Hl as [|b l Hb Hl IH]; [done|].
  cbn [length le_bytes le_val]. unfold is_byte in Hb.
  replace ((b + 256 * le_val l) mod 256) with b by zlia.
  replace ((b + 256 * le_val l) / 256) with (le_val l) by zlia.
  by rewrite IH.
Qed.

Lemma le_bytes_inj n a b :
  0 <= a < 2 ^ (8 * Z.of_nat n) -> 0 <= b < 2 ^ (8 * Z.of_nat n) ->
  le_bytes n a = le_bytes n b -> a = b.
Proof.
  intros Ha Hb H. rewrite <- (le_val_bytes n a Ha), <- (le_val_bytes n b Hb).
  by rewrite H.
Qed.

(** ** Strings

    A Rust [str] is the list of its Unicode scalar values ([char]s); its
    UTF-8 bytes are recomputed from them where the code counts bytes. *)

Abbreviation char := Z (only parsing).
Abbreviation str := (list Z) (only parsing).

(** A string literal: the characters of a Rocq string (ASCII). *)
Fixpoint lit (s : string) : str :=
  match s with
  | EmptyString => []
  | String a s' => Z.of_N (Ascii.N_of_ascii a) :: lit s'
  end.

(** [char::len_utf8] and the UTF-8 encoding of one scalar value. *)
Definition len_utf8 (c : char) : Z :=
  if c <? 128 then 1 else if c <? 2048 then 2 else if c <? 65536 then 3 else 4.

Definition utf8_char (c : char) : list Z :=
  if c <? 128 then [c]
  else if c <? 2048 then [192 + c / 64; 128 + c mod 64]
  else if c <? 65536 then [224 + c / 4096; 128 + (c / 64) mod 64; 128 + c mod 64]
  else [240 + c / 262144; 128 + (c / 4096) mod 64; 128 + (c / 64) mod 64; 128 + c mod 64].

Definition utf8 (s : str) : list Z := concat (map utf8_char s).

(** [str::len]: the number of UTF-8 bytes. *)
Fixpoint byte_len (s : str) : Z :=
  match s with
  | [] => 0
  | c :: s' => len_utf8 c + byte_len s'
  end.

(** The characters a Rust [char] can hold. *)
Definition is_char (c : char) : Prop := 0 <= c < 55296 \/ 57344 <= c < 1114112.

(** [char::is_whitespace] (the Unicode White_Space property). *)
Definition is_ws (c : char) : bool :=
  ((9 <=? c) && (c <=? 13)) || (c =? 32) || (c =? 133) || (c =? 160)
  || (c =? 5760) || ((8192 <=? c) && (c <=? 8202)) || (c =? 8232) || (c =? 8233)
  || (c =? 8239) || (c =? 8287) || (c =? 12288).

Fixpoint drop_ws (s : str) : str :=
  match s with
  | c :: s' => if is_ws c then drop_ws s' else s
  | [] => []
  end.

(** [str::trim_start], [trim_end], [trim]. *)
Definition trim_start (s : str) : str := drop_ws s.
Definition trim_end (s : str) : str := rev (drop_ws (rev s)).
Definition trim (s : str) : str := trim_end (trim_start s).

Definition is_nil {A} (l : list A) : bool := match l with [] => true | _ => false end.

(** [str::starts_with], [strip_prefix], [ends_with], [strip_suffix], [contains], [find]. *)
Fixpoint strip_prefix (p s : str) : option str :=
  match p, s with
  | [], _ => Some s
  | c :: p', d :: s' => if c =? d then strip_prefix p' s' else None
  | _ :: _, [] => None
  end.

Definition starts_with (s p : str) : bool :=
  match strip_prefix p s with Some _ => true | None => false end.

Definition strip_suffix (p s : str) : option str :=
  match strip_prefix (rev p) (rev s) with
  | Some r => Some (rev r)
  | None => None
  end.

Fixpoint find_sub (s p : str) : option nat :=
  if starts_with s p then Some 0%nat
  else match s with
       | [] => None
       | _ :: s' => match find_sub s' p with Some n => Some (S n) | None => None end
       end.

Definition contains (s p : str) : bool :=
  match find_sub s p with Some _ => true | None => false end.

Definition contains_char (s : str) (c : char) : bool := existsb (Z.eqb c) s.

Fixpoint find_char (s : str) (c : char) : option nat :=
  match s with
  | [] => None
  | d :: s' => if d =? c then Some 0%nat
               else match find_char s' c with Some n => Some (S n) | None => None end
  end.

Definition str_eqb (a b : str) : bool := bool_decide (a = b).

Lemma str_eqb_eq a b : str_eqb a b = true <-> a = b.
Proof. unfold str_eqb. apply bool_decide_eq_true. Qed.

Lemma str_eqb_refl a : str_eqb a a = true.
Proof. by apply str_eqb_eq. Qed.

Lemma str_eqb_ne a b : a <> b -> str_eqb a b = false.
Proof. intros H. apply not_true_iff_false. by rewrite str_eqb_eq. Qed.

Lemma strip_prefix_Some p s r : strip_prefix p s = Some r <-> s = p ++ r.
Proof.
  revert s. induction p as [|c p IH]; intros [|d s]; simpl; try naive_solver.
  destruct (Z.eqb_spec c d); naive_solver.
Qed.

Lemma starts_with_spec s p : starts_with s p = true <-> exists r, s = p ++ r.
Proof.
  unfold starts_with. destruct (strip_prefix p s) eqn:E.
  - apply strip_prefix_Some in E. naive_solver.
  - split; [done|]. intros [r Hr]. apply strip_prefix_Some in Hr. congruence.
Qed.

Lemma find_sub_Some s p n :
  find_sub s p = Some n -> exists r, s = take n s ++ p ++ r.
Proof.
  revert n. induction s as [|c s IH]; intros n; simpl.
  - destruct (starts_with [] p) eqn:E; [|done]. intros [= <-].
    apply starts_with_spec in E as [r Hr]. exists r. done.
  - destruct (starts_with (c :: s) p) eqn:E.
    + intros [= <-]. apply starts_with_spec in E as [r Hr]. exists r. done.
    + destruct (find_sub s p) as [m|] eqn:F; [|done]. intros [= <-].
      destruct (IH m eq_refl) as [r Hr]. exists r. simpl. by f_equal.
Qed.

Lemma contains_spec s p : contains s p = true <-> exists a b, s = a ++ p ++ b.
Proof.
  unfold contains. split.
  - destruct (find_sub s p) as [n|] eqn:E; [|done]. intros _.
    apply find_sub_Some in E as [r Hr]. by exists (take n s), r.
  - intros (a & b & ->). revert b. induction a as [|c a IH]; intros b; simpl.
    + assert (starts_with (p ++ b) p = true) as H by (apply starts_with_spec; eauto).
      destruct (p ++ b); simpl; by rewrite H.
    + destruct (starts_with _ _); [done|]. specialize (IH b).
      by destruct (find_sub (a ++ p ++ b) p).
Qed.

(** *** White space *)

Definition blank (s : str) : Prop := Forall (fun c => is_ws c = true) s.

Lemma blank_nil : blank [].
Proof. constructor. Qed.
#[export] Hint Resolve blank_nil : core.

Lemma drop_ws_blank_app b s : blank b -> drop_ws (b ++ s) = drop_ws s.
Proof. induction 1 as [|c b Hc Hb IH]; simpl; [done|]. by rewrite Hc. Qed.

Lemma drop_ws_nil s : drop_ws s = [] <-> blank s.
Proof.
  unfold blank. induction s as [|c s IH]; simpl; [done|]. rewrite list.Forall_cons.
  destruct (is_ws c) eqn:E; [naive_solver|]. split; [done|]. intros [? _]. congruence.
Qed.

Lemma drop_ws_suffix s : exists b, blank b /\ s = b ++ drop_ws s.
Proof.
  induction s as [|c s (b & Hb & IH)]; simpl; [by exists []|].
  destruct (is_ws c) eqn:E; [|by exists []].
  exists (c :: b). split; [by apply list.Forall_cons|]. simpl. by f_equal.
Qed.

Lemma blank_rev s : blank (rev s) <-> blank s.
Proof.
  unfold blank. rewrite !list.Forall_forall.
  setoid_rewrite list_elem_of_In. setoid_rewrite <- in_rev. done.
Qed.

Lemma trim_nil s : trim s = [] <-> blank s.
Proof.
  unfold trim, trim_end, trim_start. split.
  - intros H. apply (f_equal (@rev Z)) in H. rewrite rev_involutive in H. simpl in H.
    apply drop_ws_nil in H. rewrite blank_rev in H. apply drop_ws_nil.
    destruct (drop_ws s) as [|c r] eqn:E; [done|]. exfalso.
    unfold blank in H. apply list.Forall_cons in H as [Hc _]. clear -E Hc. revert c r E Hc.
    induction s as [|d s IH]; intros c r; simpl; [done|].
    destruct (is_ws d) eqn:Ed; [eauto|]. intros [= -> ->]. congruence.
  - intros H. by rewrite (proj2 (drop_ws_nil s) H).
Qed.

Lemma trim_blank_app b s : blank b -> trim (b ++ s) = trim s.
Proof. intros H. unfold trim, trim_start. by rewrite drop_ws_blank_app. Qed.

Lemma trim_end_prefix s : exists b, s = trim_end s ++ b.
Proof.
  unfold trim_end. destruct (drop_ws_suffix (rev s)) as (b & _ & H). exists (rev b).
  rewrite <- rev_app_distr, <- H. by rewrite rev_involutive.
Qed.

Lemma is_nil_true {A} (l : list A) : is_nil l = true <-> l = [].
Proof. by destruct l. Qed.

(** [p] occurs in [s] as a contiguous piece. *)
Definition infix_of (p s : str) : Prop := exists a b, s = a ++ p ++ b.

Lemma infix_of_trans p q s : infix_of p q -> infix_of q s -> infix_of p s.
Proof.
  intros (a & b & ->) (c & d & ->). exists (c ++ a), (b ++ d). by rewrite <- !app_assoc.
Qed.

Lemma trim_infix s : infix_of (trim s) s.
Proof.
  destruct (drop_ws_suffix s) as (a & _ & Ha).
  destruct (trim_end_prefix (drop_ws s)) as (b & Hb).
  exists a, b. unfold trim, trim_start. by rewrite <- Hb.
Qed.

Lemma len_utf8_char c : length (utf8_char c) = Z.to_nat (len_utf8 c).
Proof.
  unfold utf8_char, len_utf8.
  destruct (c <? 128), (c <? 2048), (c <? 65536); done.
Qed.

Lemma len_utf8_pos c : 1 <= len_utf8 c <= 4.
Proof. unfold len_utf8. destruct (c <? 128), (c <? 2048), (c <? 65536); lia. Qed.

Lemma byte_len_nonneg s : 0 <= byte_len s.
Proof. induction s as [|c s IH]; simpl; [lia|]. pose proof (len_utf8_pos c). lia. Qed.

Lemma byte_len_utf8 s : byte_len s = Z.of_nat (length (utf8 s)).
Proof.
  unfold utf8. induction s as [|c s IH]; [done|].
  simpl. rewrite length_app, len_utf8_char, IH.
  pose proof (len_utf8_pos c). lia.
Qed.

Lemma byte_len_app a b : byte_len (a ++ b) = byte_len a + byte_len b.
Proof. induction a as [|c a IH]; simpl; lia. Qed.

(** [str::floor_char_boundary]-style cut: the longest prefix of whole
    characters whose UTF-8 length is at most [n]. *)
Fixpoint take_bytes (n : Z) (s : str) : str :=
  match s with
  | [] => []
  | c :: s' => if len_utf8 c <=? n then c :: take_bytes (n - len_utf8 c) s' else []
  end.

Lemma take_bytes_prefix n s : exists r, s = take_bytes n s ++ r.
Proof.
  revert n. induction s as [|c s IH]; intros n; simpl; [by exists []|].
  destruct (len_utf8 c <=? n); [|by eexists].
  destruct (IH (n - len_utf8 c)) as [r Hr]. exists r. simpl. by f_equal.
Qed.

Lemma take_bytes_len n s : 0 <= n -> byte_len (take_bytes n s) <= n.
Proof.
  revert n. induction s as [|c s IH]; intros n Hn; simpl; [lia|].
  destruct (Z.leb_spec (len_utf8 c) n); simpl; [|lia].
  specialize (IH (n - len_utf8 c)). lia.
Qed.

Lemma take_bytes_all n s : byte_len s <= n -> take_bytes n s = s.
Proof.
  revert n. induction s as [|c s IH]; intros n Hn; simpl in *; [done|].
  pose proof (byte_len_nonneg s).
  destruct (Z.leb_spec (len_utf8 c) n); [|lia]. rewrite IH; [done|lia].
Qed.

(** The decimal digits of a natural number ([Display] of an unsigned integer). *)
Fixpoint dec_digits (fuel : nat) (n : Z) (acc : str) : str :=
  match fuel with
  | O => acc
  | S f => let acc' := 48 + n mod 10 :: acc in
           if n / 10 =? 0 then acc' else dec_digits f (n / 10) acc'
  end.
Definition show_z (n : Z) : str := dec_digits (S (Z.to_nat (Z.log2 n))) n [].

(** ** Lists *)

Definition length_z {A} (l : list A) : Z := Z.of_nat (length l).

(** [Iterator::rposition]: the last index whose element satisfies [p]. *)
Fixpoint rposition {A} (p : A -> bool) (l : list A) : option nat :=
  match l with
  | [] => None
  | x :: l' => match rposition p l' with
               | Some n => Some (S n)
               | None => if p x then Some 0%nat else None
               end
  end.

Lemma rposition_Some {A} (p : A -> bool) l n :
  rposition p l = Some n ->
  exists a x b, l = a ++ x :: b /\ length a = n /\ p x = true /\ Forall (fun y => p y = false) b.
Proof.
  revert n. induction l as [|y l IH]; intros n; simpl; [done|].
  destruct (rposition p l) as [m|] eqn:E.
  - intros [= <-]. destruct (IH m eq_refl) as (a & x & b & -> & Hl & Hp & Hb).
    exists (y :: a), x, b. simpl. auto.
  - destruct (p y) eqn:Hy; [|done]. intros [= <-]. exists [], y, l.
    repeat split; auto. clear -E. induction l as [|z l IH]; constructor; simpl in E.
    + destruct (rposition p l); [done|]. by destruct (p z).
    + apply IH. by destruct (rposition p l).
Qed.

Lemma rposition_None {A} (p : A -> bool) l :
  rposition p l = None <-> Forall (fun y => p y = false) l.
Proof.
  induction l as [|y l IH]; simpl; [done|]. rewrite list.Forall_cons.
  destruct (rposition p l) as [m|].
  - split; [done|]. intros [_ H]. by apply IH in H.
  - destruct (p y); naive_solver.
Qed.

(** ** Automation *)

Create HintDb sc.
#[export] Hint Resolve length_le_bytes le_bytes_ok byte_len_nonneg : sc.

(** Case analysis on the innermost boolean test of the goal or a hypothesis. *)
Ltac case_test :=
  match goal with
  | |- context [if ?b then _ else _] => destruct b eqn:?
  | H : context [if ?b then _ else _] |- _ => destruct b eqn:?
  end.

(** Prove a decidable proposition by evaluating its decision. *)
Ltac by_decide :=
  match goal with
  | |- ?P => refine (bool_decide_eq_true_1 P _); vm_compute; reflexivity
  end.

(** Invert a successful bind. *)
Ltac inv_bind H :=
  let a := fresh "a" in let Ha := fresh "Ha" in
  apply res_bind_ok in H; destruct H as (a & Ha & H).
