(* ===== verification/Utf8.v ===== *)
(** Bytes to text: the decoding of UTF-8 as the standard library does it. *)

From S2P Require Import Prelude.

(** ** Bytes to text *)

(** [String::from_utf8_lossy]: one U+FFFD for every maximal ill-formed prefix. *)
Definition is_cont (b : Z) : bool := (128 <=? b) && (b <=? 191).
Definition second3 (a b : Z) : bool :=
  if a =? 224 then (160 <=? b) && (b <=? 191)
  else if a =? 237 then (128 <=? b) && (b <=? 159) else is_cont b.
Definition second4 (a b : Z) : bool :=
  if a =? 240 then (144 <=? b) && (b <=? 191)
  else if a =? 244 then (128 <=? b) && (b <=? 143) else is_cont b.
Definition REPLACEMENT : char := 65533.

Fixpoint utf8_lossy (l : list Z) : str :=
  match l with
  | [] => []
  | a :: l1 =>
      if a <? 128 then a :: utf8_lossy l1
      else if (194 <=? a) && (a <=? 223) then
        match l1 with
        | b :: l2 => if is_cont b then (a - 192) * 64 + (b - 128) :: utf8_lossy l2
                     else REPLACEMENT :: utf8_lossy l1
        | [] => [REPLACEMENT]
        end
      else if (224 <=? a) && (a <=? 239) then
        match l1 with
        | b :: l2 =>
            if second3 a b then
              match l2 with
              | c :: l3 => if is_cont c
                           then (a - 224) * 4096 + (b - 128) * 64 + (c - 128) :: utf8_lossy l3
                           else REPLACEMENT :: utf8_lossy l2
              | [] => [REPLACEMENT]
              end
            else REPLACEMENT :: utf8_lossy l1
        | [] => [REPLACEMENT]
        end
      else if (240 <=? a) && (a <=? 244) then
        match l1 with
        | b :: l2 =>
            if second4 a b then
              match l2 with
              | c :: l3 =>
                  if is_cont c then
                    match l3 with
                    | d :: l4 =>
                        if is_cont d
                        then (a - 240) * 262144 + (b - 128) * 4096 + (c - 128) * 64 + (d - 128)
                             :: utf8_lossy l4
                        else REPLACEMENT :: utf8_lossy l3
                    | [] => [REPLACEMENT]
                    end
                  else REPLACEMENT :: utf8_lossy l2
              | [] => [REPLACEMENT]
              end
            else REPLACEMENT :: utf8_lossy l1
        | [] => [REPLACEMENT]
        end
      else REPLACEMENT :: utf8_lossy l1
  end.

(** [str::from_utf8]: the bytes are well formed when decoding replaces
    nothing, which encoding again tells. *)
Definition from_utf8 (l : list Z) : option str :=
  let s := utf8_lossy l in
  if bool_decide (utf8 s = l) then Some s else None.

(** ** Lemmas *)

Ltac decide_tests :=
  repeat (first [rewrite (proj2 (Z.ltb_lt _ _)) by lia | rewrite (proj2 (Z.ltb_ge _ _)) by lia
                | rewrite (proj2 (Z.leb_le _ _)) by lia | rewrite (proj2 (Z.leb_gt _ _)) by lia];
          cbn [andb]).

Lemma cont_byte x : is_cont (128 + x mod 64) = true.
Proof. unfold is_cont. pose proof (Z.mod_pos_bound x 64 ltac:(lia)). by decide_tests. Qed.

Lemma utf8_lossy_char c rest : is_char c -> utf8_lossy (utf8_char c ++ rest) = c :: utf8_lossy rest.
Proof.
  intros Hc. unfold is_char in Hc. unfold utf8_char.
  destruct (Z.ltb_spec c 128) as [|H1]; [cbn [app utf8_lossy]; by decide_tests|].
  destruct (Z.ltb_spec c 2048) as [H2|H2].
  { assert (2 <= c / 64 < 32) by (split; [apply Z.div_le_lower_bound|apply Z.div_lt_upper_bound]; lia).
    cbn [app utf8_lossy]. decide_tests. rewrite cont_byte. f_equal.
    pose proof (Z.div_mod c 64 ltac:(lia)). lia. }
  assert (forall n, 0 <= n mod 64 < 64) as Hm by (intros n; apply Z.mod_pos_bound; lia).
  destruct (Z.ltb_spec c 65536) as [H3|H3].
  { assert (0 <= c / 4096 < 16) by (split; [apply Z.div_le_lower_bound|apply Z.div_lt_upper_bound]; lia).
    assert (c / 64 / 64 = c / 4096) as E by (rewrite Z.div_div by lia; done).
    pose proof (Z.div_mod c 64 ltac:(lia)) as E1. pose proof (Z.div_mod (c / 64) 64 ltac:(lia)) as E2.
    pose proof (Hm c). pose proof (Hm (c / 64)). rewrite E in E2.
    assert (second3 (224 + c / 4096) (128 + (c / 64) mod 64) = true) as S3.
    { unfold second3. destruct (Z.eqb_spec (224 + c / 4096) 224); [by decide_tests|].
      destruct (Z.eqb_spec (224 + c / 4096) 237); [by decide_tests|apply cont_byte]. }
    cbn [app utf8_lossy]. decide_tests. rewrite S3, cont_byte. f_equal. lia. }
  assert (0 <= c / 262144 < 5) by (split; [apply Z.div_le_lower_bound|apply Z.div_lt_upper_bound]; lia).
  assert (c / 64 / 64 = c / 4096) as E by (rewrite Z.div_div by lia; done).
  assert (c / 4096 / 64 = c / 262144) as E' by (rewrite Z.div_div by lia; done).
  pose proof (Z.div_mod c 64 ltac:(lia)) as E1. pose proof (Z.div_mod (c / 64) 64 ltac:(lia)) as E2.
  pose proof (Z.div_mod (c / 4096) 64 ltac:(lia)) as E3. rewrite E in E2. rewrite E' in E3.
  pose proof (Hm c). pose proof (Hm (c / 64)). pose proof (Hm (c / 4096)).
  assert (second4 (240 + c / 262144) (128 + (c / 4096) mod 64) = true) as S4.
  { unfold second4. destruct (Z.eqb_spec (240 + c / 262144) 240); [by decide_tests|].
    destruct (Z.eqb_spec (240 + c / 262144) 244); [by decide_tests|apply cont_byte]. }
  cbn [app utf8_lossy]. decide_tests. rewrite S4, !cont_byte. f_equal. lia.
Qed.

Lemma utf8_lossy_utf8 s : Forall is_char s -> utf8_lossy (utf8 s) = s.
Proof.
  unfold utf8. induction 1 as [|c s Hc _ IH]; [done|]. cbn [map concat].
  by rewrite utf8_lossy_char, IH.
Qed.

Lemma from_utf8_utf8 s : Forall is_char s -> from_utf8 (utf8 s) = Some s.
Proof. intros H. unfold from_utf8. cbv zeta. by rewrite utf8_lossy_utf8, bool_decide_true. Qed.

Lemma from_utf8_Some l s : from_utf8 l = Some s -> utf8 s = l.
Proof. unfold from_utf8. cbv zeta. case_bool_decide; [by intros [= <-]|done]. Qed.

Lemma not_cont x : x < 128 -> is_cont x = false /\ forall a, second3 a x = false /\ second4 a x = false.
Proof.
  intros Hx. assert (forall lo, 128 <= lo -> (lo <=? x) = false) as H by (intros; apply Z.leb_gt; lia).
  assert (is_cont x = false) as Hc by (unfold is_cont; by rewrite H by lia). split; [done|].
  intros a. unfold second3, second4. rewrite Hc, !H by lia.
  split; [by destruct (a =? 224), (a =? 237)|by destruct (a =? 240), (a =? 244)].
Qed.

(** A cut inside a character leaves bytes that are not UTF-8, whatever ASCII
    text follows. *)
Lemma utf8_lossy_truncated c r q rest : is_char c -> utf8_char c = r ++ q -> r <> [] -> q <> [] ->
  (forall x, head rest = Some x -> x < 128) -> exists s, utf8_lossy (r ++ rest) = REPLACEMENT :: s.
Proof.
  intros Hc E Hr Hq Hrest. unfold is_char in Hc. unfold utf8_char in E.
  assert (forall n, 0 <= n mod 64 < 64) as Hm by (intros n; apply Z.mod_pos_bound; lia).
  assert (rest = [] \/ exists x l, rest = x :: l /\ is_cont x = false /\ forall a, second3 a x = false /\ second4 a x = false) as Hx.
  { destruct rest as [|x l]; [by left|]. right. exists x, l. split; [done|]. apply not_cont. by apply Hrest. }
  clear Hrest.
  destruct (Z.ltb_spec c 128) as [|H1]; [by destruct r as [|? [|? ?]], q|].
  destruct (Z.ltb_spec c 2048) as [H2|H2].
  { assert (2 <= c / 64 < 32) by (split; [apply Z.div_le_lower_bound|apply Z.div_lt_upper_bound]; lia).
    destruct r as [|r1 [|r2 r]]; [done| |destruct r; [by destruct q|done]]. injection E as <- _.
    destruct Hx as [->|(x & l & -> & X1 & X2)]; cbn [app utf8_lossy]; decide_tests; rewrite ?X1; by eexists. }
  destruct (Z.ltb_spec c 65536) as [H3|H3].
  { assert (0 <= c / 4096 < 16) by (split; [apply Z.div_le_lower_bound|apply Z.div_lt_upper_bound]; lia).
    destruct r as [|r1 [|r2 [|r3 r]]]; [done| | |destruct r; [by destruct q|done]].
    - injection E as <- _. destruct Hx as [->|(x & l & -> & X1 & X2)]; cbn [app utf8_lossy]; decide_tests; rewrite ?(proj1 (X2 _)); by eexists.
    - injection E as <- <- _. destruct Hx as [->|(x & l & -> & X1 & X2)]; cbn [app utf8_lossy]; decide_tests; case_match; rewrite ?X1; by eexists. }
  assert (0 <= c / 262144 < 5) by (split; [apply Z.div_le_lower_bound|apply Z.div_lt_upper_bound]; lia).
  destruct r as [|r1 [|r2 [|r3 [|r4 r]]]]; [done| | | |destruct r; [by destruct q|done]].
  - injection E as <- _. destruct Hx as [->|(x & l & -> & X1 & X2)]; cbn [app utf8_lossy]; decide_tests; rewrite ?(proj2 (X2 _)); by eexists.
  - injection E as <- <- _. destruct Hx as [->|(x & l & -> & X1 & X2)]; cbn [app utf8_lossy]; decide_tests; case_match; rewrite ?X1; by eexists.
  - injection E as <- <- <- _. destruct Hx as [->|(x & l & -> & X1 & X2)]; cbn [app utf8_lossy]; decide_tests; rewrite cont_byte; case_match; rewrite ?X1; by eexists.
Qed.

Lemma utf8_lossy_app s l : Forall is_char s -> utf8_lossy (utf8 s ++ l) = s ++ utf8_lossy l.
Proof.
  induction 1 as [|c s Hc _ IH]; [done|]. cbn [app]. rewrite <- IH, <- utf8_lossy_char by done. f_equal.
  unfold utf8. cbn [map concat]. by rewrite app_assoc.
Qed.
Lemma utf8_app a b : utf8 (a ++ b) = utf8 a ++ utf8 b.
Proof. unfold utf8. by rewrite map_app, concat_app. Qed.

Lemma from_utf8_truncated s c r q rest : Forall is_char s -> is_char c -> utf8_char c = r ++ q -> r <> [] -> q <> [] ->
  (forall x, head rest = Some x -> x < 128) -> from_utf8 (utf8 s ++ r ++ rest) = None.
Proof.
  intros Hs Hc E Hr Hq Hrest. unfold from_utf8. cbv zeta. rewrite utf8_lossy_app by done.
  destruct (utf8_lossy_truncated c r q rest Hc E Hr Hq Hrest) as [s' E'].
  rewrite bool_decide_false; [done|]. rewrite E', utf8_app. intros Heq%app_inv_head.
  change (utf8 (REPLACEMENT :: s')) with ([239; 191; 189] ++ utf8 s') in Heq.
  (* the character would start with the bytes of U+FFFD *)
  destruct r as [|r1 r]; [done|]. cbn [app] in Heq. injection Heq as H1 Heq. symmetry in H1. subst r1.
  assert (r = [] \/ exists r2, r = [r2]) as Hlen.
  { unfold utf8_char in E. unfold is_char in Hc. repeat case_match; cbn [app] in E; injection E as E1 E; destruct r as [|? [|? r]]; eauto;
      destruct r, q; try done; exfalso.
    all: assert (0 <= c / 262144) by (apply Z.div_pos; lia); lia. }
  destruct Hlen as [->|[r2 ->]]; cbn [app] in Heq.
  - destruct rest as [|x rest]; [done|]. injection Heq as <- _. specialize (Hrest _ eq_refl). lia.
  - injection Heq as <- Heq. destruct rest as [|x rest]; [done|]. injection Heq as <- _. specialize (Hrest _ eq_refl). lia.
Qed.

(** Every prefix of encoded text is whole characters and a proper part of the
    next one. *)
Lemma utf8_prefix s : forall n, exists s1 s2 r, s = s1 ++ s2 /\ take n (utf8 s) = utf8 s1 ++ r
  /\ (r = [] \/ exists c s3 q, s2 = c :: s3 /\ utf8_char c = r ++ q /\ r <> [] /\ q <> []).
Proof.
  induction s as [|c s IH]; intros n; [exists [], [], []; split; [done|split; [by destruct n|by left]]|].
  change (utf8 (c :: s)) with (utf8_char c ++ utf8 s). rewrite take_app.
  destruct (decide (length (utf8_char c) <= n)%nat) as [Hle|Hgt].
  - destruct (IH (n - length (utf8_char c))%nat) as (s1 & s2 & r & -> & E & H). exists (c :: s1), s2, r.
    split; [done|]. split; [|done]. rewrite E, take_ge by done. unfold utf8. cbn [map concat]. by rewrite <- app_assoc.
  - exists [], (c :: s), (take n (utf8_char c)). split; [done|]. replace (n - length (utf8_char c))%nat with 0%nat by lia.
    split; [by rewrite app_nil_r|]. destruct n as [|n]; [by left|]. right. exists c, s, (drop (S n) (utf8_char c)).
    split; [done|]. split; [by rewrite take_drop|]. split.
    + destruct (utf8_char c); [cbn in Hgt; lia|done].
    + intros Hd. apply (f_equal length) in Hd. rewrite length_drop in Hd. cbn in Hd. lia.
Qed.
