(* ===== verification/Text.v ===== *)
(** Operations of the standard library on strings that several components
    use: lines, replacement, searching, words, padding. *)

From S2P Require Import Prelude.

(** ** Lines *)

(** [str::split_inclusive] at line feeds; [cur] is the line read so far. *)
Fixpoint split_inclusive (s cur : str) : list str :=
  match s with
  | [] => if is_nil cur then [] else [cur]
  | c :: s' => if c =? 10 then (cur ++ [10]) :: split_inclusive s' [] else split_inclusive s' (cur ++ [c])
  end.

Definition ends_with (s p : str) : bool := bool_decide (is_Some (strip_suffix p s)).

(** [str::lines]: a line feed, with a carriage return before it if there is
    one, ends a line; the last line needs none. *)
Definition line_text (line : str) : str :=
  match strip_suffix [10] line with
  | None => line
  | Some l => default l (strip_suffix [13] l)
  end.
Definition lines (s : str) : list str := map line_text (split_inclusive s []).

(** ** Searching and replacing *)

(** [str::match_indices] (indices of characters): leftmost, without overlap;
    the empty pattern matches between all characters. [skip] counts the
    characters of a match that are still to pass. *)
Fixpoint match_from (p s : str) (skip i : nat) : list nat :=
  match s with
  | [] => if is_nil p then [i] else []
  | _ :: s' =>
      match skip with
      | S k => match_from p s' k (S i)
      | O => if starts_with s p then i :: match_from p s' (length p - 1) (S i) else match_from p s' 0 (S i)
      end
  end.
Definition match_indices (s p : str) : list nat := match_from p s 0 0.

(** [str::matches(..).count()] *)
Definition count_matches (s p : str) : nat := length (match_indices s p).

(** [str::replace] *)
Fixpoint replace_from (p r s : str) (skip : nat) : str :=
  match s with
  | [] => if is_nil p then r else []
  | c :: s' =>
      match skip with
      | S k => replace_from p r s' k
      | O => if starts_with s p
             then r ++ (if is_nil p then c :: replace_from p r s' 0 else replace_from p r s' (length p - 1))
             else c :: replace_from p r s' 0
      end
  end.
Definition replace (s p r : str) : str := replace_from p r s 0.

(** [str::replacen] with a count of one. *)
Definition replace_first (s p r : str) : str :=
  match find_sub s p with
  | Some n => take n s ++ r ++ drop (n + length p) s
  | None => s
  end.

(** ** Words and columns *)

(** [split_whitespace().collect().join(" ")]; [word] is the word being read. *)
Fixpoint words_from (s word : str) : list str :=
  match s with
  | [] => if is_nil word then [] else [word]
  | c :: s' =>
      if is_ws c then (if is_nil word then [] else [word]) ++ words_from s' []
      else words_from s' (word ++ [c])
  end.
Fixpoint join (sep : str) (l : list str) : str :=
  match l with [] => [] | [x] => x | x :: l' => x ++ sep ++ join sep l' end.
Definition normalize_whitespace (s : str) : str := join [32] (words_from s []).

(** [{:>w$}] *)
Definition pad_left (w : nat) (s : str) : str := repeat 32 (w - length s) ++ s.

(** ** Order *)

(** [str::cmp] (characters are ordered as their UTF-8 encodings are), and the
    order of byte arrays. *)
Fixpoint str_le (a b : str) : Prop :=
  match a, b with
  | [], _ => True
  | _ :: _, [] => False
  | x :: a', y :: b' => x < y \/ (x = y /\ str_le a' b')
  end.
#[export] Instance str_le_dec : RelDecision str_le.
Proof.
  intros a. induction a as [|x a IH]; intros [|y b]; cbn; unfold Decision; [left; exact I|left; exact I|right; intros []|].
  destruct (Z_lt_dec x y); [left; tauto|]. destruct (Z.eq_dec x y); [|right; tauto].
  destruct (IH b); [left; tauto|right; tauto].
Defined.

(** ** Lemmas *)

Lemma strip_suffix_Some p s r : strip_suffix p s = Some r <-> s = r ++ p.
Proof.
  unfold strip_suffix. destruct (strip_prefix (rev p) (rev s)) as [q|] eqn:E.
  - apply strip_prefix_Some in E. apply (f_equal (@rev Z)) in E.
    rewrite rev_involutive, rev_app_distr, rev_involutive in E. split.
    + by intros [= <-].
    + intros ->. apply app_inv_tail in E. by rewrite <- E.
  - split; [done|]. intros ->. exfalso.
    assert (strip_prefix (rev p) (rev (r ++ p)) = Some (rev r)) as H; [|congruence].
    apply strip_prefix_Some. by rewrite rev_app_distr.
Qed.

Lemma ends_with_spec s p : ends_with s p = true <-> exists r, s = r ++ p.
Proof.
  unfold ends_with. rewrite bool_decide_eq_true. split.
  - intros [r Hr]. apply strip_suffix_Some in Hr. eauto.
  - intros [r Hr]. exists r. by apply strip_suffix_Some.
Qed.

Lemma split_inclusive_concat s : forall cur, concat (split_inclusive s cur) = cur ++ s.
Proof.
  induction s as [|c s IH]; intros cur; cbn.
  - destruct cur; cbn; by rewrite ?app_nil_r.
  - destruct (Z.eqb_spec c 10) as [->|]; cbn; rewrite IH; by rewrite <- app_assoc.
Qed.

(** *** Matches of a non-empty pattern *)

Lemma match_from_skip p a : forall s k i, length a = k -> match_from p (a ++ s) k i = match_from p s 0 (i + k).
Proof.
  induction a as [|c a IH]; intros s k i Hk; cbn in Hk; subst k; cbn [app match_from].
  - by rewrite Nat.add_0_r.
  - rewrite (IH s (length a) (S i) eq_refl). f_equal. lia.
Qed.

Lemma replace_from_skip p r a : forall s k, length a = k -> replace_from p r (a ++ s) k = replace_from p r s 0.
Proof.
  induction a as [|c a IH]; intros s k Hk; cbn in Hk; subst k; [done|]. cbn [app replace_from]. by apply IH.
Qed.

(** The leftmost match and what follows it. *)
Lemma find_sub_first s p n :
  find_sub s p = Some n -> exists a b, s = a ++ p ++ b /\ length a = n /\ forall a' b', s = a' ++ p ++ b' -> (n <= length a')%nat.
Proof.
  revert n. induction s as [|c s IH]; intros n; cbn [find_sub].
  - destruct (starts_with [] p) eqn:E; [|done]. intros [= <-]. apply starts_with_spec in E as [b Hb].
    exists [], b. split_and!; [done|done|lia].
  - destruct (starts_with (c :: s) p) eqn:E.
    + intros [= <-]. apply starts_with_spec in E as [b Hb]. exists [], b. split_and!; [done|done|lia].
    + destruct (find_sub s p) as [m|] eqn:F; [|done]. intros [= <-].
      destruct (IH m eq_refl) as (a & b & Hs & Hl & Hm). exists (c :: a), b. split_and!; [by rewrite Hs|cbn; lia|].
      intros [|x a'] b' H; cbn in *.
      * assert (starts_with (c :: s) p = true) by (apply starts_with_spec; eauto). congruence.
      * injection H as -> H. specialize (Hm a' b' H). lia.
Qed.

Lemma find_sub_None s p : find_sub s p = None -> forall a b, s <> a ++ p ++ b.
Proof.
  intros H a b E. assert (contains s p = true) as Hc by (apply contains_spec; eauto).
  unfold contains in Hc. by rewrite H in Hc.
Qed.

(** The matches of a pattern that does not occur, and of one that does. *)
Lemma match_from_none p s : p <> [] -> forall i, find_sub s p = None -> match_from p s 0 i = [].
Proof.
  intros Hp. induction s as [|c s IH]; intros i; cbn [find_sub match_from]; [by destruct p|].
  destruct (starts_with (c :: s) p); [done|]. destruct (find_sub s p); [done|]. auto.
Qed.

Lemma match_from_some p s : p <> [] -> forall i n, find_sub s p = Some n ->
  match_from p s 0 i = (i + n)%nat :: match_from p (drop (n + length p) s) 0 (i + n + length p).
Proof.
  intros Hp. induction s as [|c s IH]; intros i n; cbn [find_sub].
  - destruct (starts_with [] p) eqn:E; [|done]. apply starts_with_spec in E as [r Hr]. destruct p; [done|discriminate].
  - cbn [match_from]. destruct (starts_with (c :: s) p) eqn:E.
    + intros [= <-]. rewrite Nat.add_0_r. f_equal. apply starts_with_spec in E as [r Hr].
      destruct p as [|d p]; [done|]. injection Hr as -> ->. cbn [length Nat.sub]. rewrite Nat.sub_0_r.
      rewrite (match_from_skip _ p) by done. cbn [Nat.add drop length]. rewrite drop_app_length by done. f_equal. lia.
    + destruct (find_sub s p) as [m|] eqn:F; [|done]. intros [= <-]. rewrite (IH (S i) m eq_refl).
      f_equal; [lia|]. cbn [Nat.add drop]. f_equal. lia.
Qed.

Lemma replace_none p r s : p <> [] -> find_sub s p = None -> replace s p r = s.
Proof.
  intros Hp. unfold replace. induction s as [|c s IH]; cbn [find_sub replace_from]; [by destruct p|].
  destruct (starts_with (c :: s) p); [done|]. destruct (find_sub s p); [done|]. intros _. by rewrite IH.
Qed.

Lemma replace_some p r s n : p <> [] -> find_sub s p = Some n ->
  replace s p r = take n s ++ r ++ replace (drop (n + length p) s) p r.
Proof.
  intros Hp. unfold replace. revert n. induction s as [|c s IH]; intros n; cbn [find_sub].
  - destruct (starts_with [] p) eqn:E; [|done]. apply starts_with_spec in E as [x Hx]. destruct p; [done|discriminate].
  - cbn [replace_from]. destruct (starts_with (c :: s) p) eqn:E.
    + intros [= <-]. destruct (is_nil p) eqn:En; [by apply is_nil_true in En|]. cbn [take app]. f_equal.
      apply starts_with_spec in E as [x Hx]. destruct p as [|d p]; [done|]. injection Hx as -> ->. cbn [length Nat.sub].
      rewrite Nat.sub_0_r, (replace_from_skip _ _ p) by done. cbn [Nat.add drop length]. by rewrite drop_app_length.
    + destruct (find_sub s p) as [m|] eqn:F; [|done]. intros [= <-]. rewrite (IH m eq_refl). done.
Qed.

Lemma count_zero p s : p <> [] -> count_matches s p = 0%nat <-> find_sub s p = None.
Proof.
  intros Hp. unfold count_matches, match_indices. destruct (find_sub s p) as [n|] eqn:E.
  - rewrite (match_from_some _ _ Hp 0 n E). done.
  - by rewrite (match_from_none _ _ Hp 0 E).
Qed.

(** One match: the text around it, in which the pattern does not occur again
    to its right, and not before it. *)
Lemma count_one p s : p <> [] -> count_matches s p = 1%nat ->
  exists a b, s = a ++ p ++ b /\ find_sub s p = Some (length a) /\ find_sub b p = None.
Proof.
  intros Hp. unfold count_matches, match_indices. destruct (find_sub s p) as [n|] eqn:E.
  2:{ by rewrite (match_from_none _ _ Hp 0 E). }
  rewrite (match_from_some _ _ Hp 0 n E). cbn [length]. intros [= H].
  destruct (find_sub_first s p n E) as (a & b & Hs & Hl & _). exists a, b. split_and!; [done|by rewrite Hl|].
  destruct (find_sub b p) as [m|] eqn:Eb; [|done]. rewrite Hs, <- Hl, app_assoc, drop_app_length' in H by (rewrite length_app; done).
  by rewrite (match_from_some _ _ Hp _ m Eb) in H.
Qed.

Lemma replace_first_app p r a b : find_sub (a ++ p ++ b) p = Some (length a) -> replace_first (a ++ p ++ b) p r = a ++ r ++ b.
Proof.
  intros E. unfold replace_first. rewrite E, take_app_length. do 2 f_equal.
  rewrite app_assoc. apply drop_app_length'. by rewrite length_app.
Qed.

(** *** Counting and replacing from one match to the next *)

Lemma match_from_length p s : forall k i, length (match_from p s k i) = length (match_from p s k 0).
Proof.
  induction s as [|c s IH]; intros k i; cbn [match_from]; [by destruct (is_nil p)|].
  destruct k as [|k]; [|by rewrite IH, (IH k 1%nat)].
  destruct (starts_with (c :: s) p); cbn [length]; rewrite IH, (IH _ 1%nat); done.
Qed.

Lemma count_step p s : p <> [] ->
  count_matches s p = match find_sub s p with
                      | None => 0%nat
                      | Some n => S (count_matches (drop (n + length p) s) p)
                      end.
Proof.
  intros Hp. unfold count_matches, match_indices. destruct (find_sub s p) as [n|] eqn:E.
  - rewrite (match_from_some _ _ Hp 0 n E). cbn [length]. by rewrite match_from_length.
  - by rewrite (match_from_none _ _ Hp 0 E).
Qed.

Lemma replace_step p r s : p <> [] ->
  replace s p r = match find_sub s p with
                  | None => s
                  | Some n => take n s ++ r ++ replace (drop (n + length p) s) p r
                  end.
Proof.
  intros Hp. destruct (find_sub s p) as [n|] eqn:E; [by apply replace_some|by apply replace_none].
Qed.

Lemma find_sub_split s p n : find_sub s p = Some n -> exists a b, s = a ++ p ++ b /\ length a = n.
Proof. intros (a & b & Hs & Hl & _)%find_sub_first. eauto. Qed.

Lemma drop_match {A} (a p b : list A) : drop (length a + length p) (a ++ p ++ b) = b.
Proof. rewrite app_assoc. apply drop_app_length'. by rewrite length_app. Qed.

(** Induction from match to match. *)
Lemma matches_ind p (P : str -> Prop) : p <> [] ->
  (forall s, find_sub s p = None -> P s) ->
  (forall a b, find_sub (a ++ p ++ b) p = Some (length a) -> P b -> P (a ++ p ++ b)) ->
  forall s, P s.
Proof.
  intros Hp Hn Hs s. induction s as [s IH] using (induction_ltof1 _ (@length char)). unfold ltof in IH.
  destruct (find_sub s p) as [n|] eqn:E; [|auto]. destruct (find_sub_split _ _ _ E) as (a & b & -> & <-).
  apply Hs; [done|]. apply IH. rewrite !length_app. destruct p; [done|cbn; lia].
Qed.
Ltac induct_matches Hp :=
  match goal with |- forall s, @?P s => apply (matches_ind _ P Hp) end.

(** *** The order of strings *)

#[export] Instance str_le_total : Total str_le.
Proof.
  intros a. induction a as [|x a IH]; intros [|y b]; cbn; auto.
  destruct (IH b), (Z.lt_total x y) as [?|[->|?]]; auto 10.
Qed.
#[export] Instance str_le_trans : Transitive str_le.
Proof.
  intros a. induction a as [|x a IH]; intros [|y b] [|z c]; cbn; try done.
  intros [H1|[-> H1]] [H2|[-> H2]]; [left; lia|auto|auto|right; eauto].
Qed.
#[export] Instance str_le_antisym : AntiSymm (=) str_le.
Proof.
  intros a. induction a as [|x a IH]; intros [|y b]; cbn; try done.
  intros [?|[-> H1]] [?|[? H2]]; [lia|lia|lia|]. f_equal. auto.
Qed.
