(* ===== verification/Wire.v ===== *)
(** Wire data of [rc-proto] (src/crates/rc-proto/src/wire.rs, stream.rs):
    the messages of a chat-completions request, the finish reasons and the
    token usage with its saturating accumulation. *)

From S2P Require Import Prelude.

(** ** Messages *)

(** [FunctionCall] and [ToolCall]; [ToolCallType] has the single value
    [Function] and carries no information. *)
Record FunctionCall := mk_function_call {
  fc_name : str;
  fc_arguments : str
}.

Record WireToolCall := mk_wire_tool_call {
  wtc_id : str;
  wtc_function : FunctionCall
}.

Inductive UserContent :=
| UserText (t : str).

Inductive WireMessage :=
| WSystem (content : str)
| WUser (content : UserContent)
| WAssistant (content : option str) (reasoning_content : option str)
             (tool_calls : list WireToolCall)
| WTool (tool_call_id : str) (content : str).

#[export] Instance function_call_eq_dec : EqDecision FunctionCall.
Proof. solve_decision. Defined.
#[export] Instance wire_tool_call_eq_dec : EqDecision WireToolCall.
Proof. solve_decision. Defined.
#[export] Instance user_content_eq_dec : EqDecision UserContent.
Proof. solve_decision. Defined.
#[export] Instance wire_message_eq_dec : EqDecision WireMessage.
Proof. solve_decision. Defined.

Definition is_tool_msg (m : WireMessage) : bool :=
  match m with WTool _ _ => true | _ => false end.

(** ** Finish reasons *)

Inductive FinishReason :=
| FStop | FLength | FToolCalls | FContentFilter | FOther (reason : str).

#[export] Instance finish_reason_eq_dec : EqDecision FinishReason.
Proof. solve_decision. Defined.

(** [FinishReason::parse]. *)
Definition finish_reason_parse (s : str) : FinishReason :=
  if str_eqb s (lit "stop") then FStop
  else if str_eqb s (lit "length") then FLength
  else if str_eqb s (lit "tool_calls") then FToolCalls
  else if str_eqb s (lit "content_filter") then FContentFilter
  else FOther s.

(** ** Usage *)

Record PromptTokensDetails := mk_details { ptd_cached : Z }.

Record Usage := mk_usage {
  prompt_tokens : Z;
  completion_tokens : Z;
  total_tokens : Z;
  prompt_tokens_details : option PromptTokensDetails
}.

Definition usage_default : Usage := mk_usage 0 0 0 None.

(** [Usage::cached_tokens]: the reported count, when it is positive. *)
Definition cached_tokens (u : Usage) : option Z :=
  match prompt_tokens_details u with
  | Some d => if 0 <? ptd_cached d then Some (ptd_cached d) else None
  | None => None
  end.

Definition cached_or_zero (u : Usage) : Z := default 0 (cached_tokens u).

(** [Usage::add]. *)
Definition usage_add (u other : Usage) : Usage :=
  let cached := sat_add 64 (cached_or_zero u) (cached_or_zero other) in
  mk_usage (sat_add 64 (prompt_tokens u) (prompt_tokens other))
           (sat_add 64 (completion_tokens u) (completion_tokens other))
           (sat_add 64 (total_tokens u) (total_tokens other))
           (if 0 <? cached then Some (mk_details cached) else prompt_tokens_details u).

(** The fields of a [Usage] are [u64]s. *)
Definition usage_ok (u : Usage) : Prop :=
  in_u 64 (prompt_tokens u) /\ in_u 64 (completion_tokens u)
  /\ in_u 64 (total_tokens u)
  /\ match prompt_tokens_details u with Some d => in_u 64 (ptd_cached d) | None => True end.

Lemma cached_or_zero_range u : usage_ok u -> in_u 64 (cached_or_zero u).
Proof.
  intros (_ & _ & _ & H). unfold cached_or_zero, cached_tokens, in_u in *.
  destruct (prompt_tokens_details u) as [d|]; simpl; [|lia].
  destruct (Z.ltb_spec 0 (ptd_cached d)); simpl; lia.
Qed.

Lemma usage_add_cached u v :
  usage_ok u -> usage_ok v ->
  cached_or_zero (usage_add u v) = sat_add 64 (cached_or_zero u) (cached_or_zero v).
Proof.
  intros Hu Hv. pose proof (cached_or_zero_range u Hu). pose proof (cached_or_zero_range v Hv).
  pose proof (sat_add_range 64 _ _ ltac:(lia) H H0) as Hs.
  unfold cached_or_zero at 1, cached_tokens, usage_add; simpl.
  set (s := sat_add 64 _ _) in *. destruct (Z.ltb_spec 0 s) as [Hp|Hp]; simpl.
  - destruct (Z.ltb_spec 0 s); simpl; lia.
  - fold (cached_tokens u). fold (cached_or_zero u).
    unfold in_u, sat_add, umax in *. lia.
Qed.

Lemma usage_add_ok u v : usage_ok u -> usage_ok v -> usage_ok (usage_add u v).
Proof.
  intros Hu Hv. pose proof (cached_or_zero_range u Hu). pose proof (cached_or_zero_range v Hv).
  destruct Hu as (? & ? & ? & Hd). destruct Hv as (? & ? & ? & _).
  repeat split; cbn -[sat_add]; try (apply sat_add_range; auto; lia).
  destruct (0 <? _); [|done]. simpl. apply sat_add_range; auto; lia.
Qed.
#[export] Hint Resolve usage_add_ok cached_or_zero_range : sc.
