(* ===== verification/Cost.v ===== *)
(** Integer micro-USD accounting (src/crates/rc-core/src/cost.rs): the cost of
    one response and the saturating running total. *)

From S2P Require Import Prelude Wire.

Definition PER_MILLION : Z := 1000000.

(** [Cost], a [u64] of micro-USD. *)
Record Cost := mk_cost { micro_usd : Z }.

#[export] Instance cost_eq_dec : EqDecision Cost.
Proof. solve_decision. Defined.

Definition cost_zero : Cost := mk_cost 0.
Definition from_micro_usd (n : Z) : Cost := mk_cost n.
Definition cost_add (a b : Cost) : Cost := mk_cost (sat_add 64 (micro_usd a) (micro_usd b)).
Definition cost_ok (c : Cost) : Prop := in_u 64 (micro_usd c).

Record Pricing := mk_pricing { p_prompt : Z; p_cached : Z; p_completion : Z }.
Definition pricing_zero : Pricing := mk_pricing 0 0 0.

(** Token·micro-USD of a response, before the division: the exact integer and
    the [u128] accumulator the code computes ([+=] wraps in a release build;
    [cost_total_eq] shows that it does not for prices below 2^63). *)
Definition cost_total_exact (p : Pricing) (u : Usage) : Z :=
  let cached := Z.min (cached_or_zero u) (prompt_tokens u) in
  let prompt_billable := sat_sub (prompt_tokens u) cached in
  prompt_billable * p_prompt p + cached * p_cached p + completion_tokens u * p_completion p.

Definition cost_total (p : Pricing) (u : Usage) : Z :=
  let cached := Z.min (cached_or_zero u) (prompt_tokens u) in
  let prompt_billable := sat_sub (prompt_tokens u) cached in
  let total := wrap 128 (0 + prompt_billable * p_prompt p) in
  let total := wrap 128 (total + cached * p_cached p) in
  wrap 128 (total + completion_tokens u * p_completion p).

(** [Pricing::cost_of]. *)
Definition cost_of (p : Pricing) (u : Usage) : Cost :=
  mk_cost (Z.min (cost_total p u / PER_MILLION) (umax 64)).

(** ** Lemmas *)

(** Prices low enough for the [u128] accumulator. *)
Definition pricing_small (p : Pricing) : Prop :=
  in_u 63 (p_prompt p) /\ in_u 63 (p_cached p) /\ in_u 63 (p_completion p).

Lemma cost_total_range p u : in_u 128 (cost_total p u).
Proof. unfold cost_total. apply wrap_range. lia. Qed.

Lemma cost_total_eq p u :
  pricing_small p -> usage_ok u -> cost_total p u = cost_total_exact p u.
Proof.
  intros (? & ? & ?) Hu. pose proof (cached_or_zero_range u Hu) as Hc.
  destruct Hu as (? & ? & ? & _). unfold cost_total, cost_total_exact, sat_sub.
  set (c := Z.min _ _). unfold in_u in *.
  assert (0 <= c <= prompt_tokens u) by lia.
  rewrite Z.max_r by lia. rewrite Z.add_0_l. set (b := prompt_tokens u - c).
  assert (0 <= b) by lia. assert (b + c = prompt_tokens u) by lia.
  assert (0 <= b * p_prompt p /\ 0 <= c * p_cached p
          /\ b * p_prompt p + c * p_cached p < 2 ^ 127).
  { change (2 ^ 127) with (2 ^ 64 * 2 ^ 63). nia. }
  assert (0 <= completion_tokens u * p_completion p < 2 ^ 127).
  { change (2 ^ 127) with (2 ^ 64 * 2 ^ 63). nia. }
  rewrite (wrap_small 128 (b * p_prompt p)), (wrap_small 128 (_ + c * _)), wrap_small
    by (unfold in_u; change (2 ^ 128) with (2 ^ 127 * 2); lia). done.
Qed.

Lemma cost_total_exact_nonneg p u : pricing_small p -> usage_ok u -> 0 <= cost_total_exact p u.
Proof. intros Hp Hu. rewrite <- cost_total_eq by done. apply cost_total_range. Qed.

Lemma cost_of_ok p u : cost_ok (cost_of p u).
Proof.
  pose proof (cost_total_range p u) as [H _].
  unfold cost_ok, cost_of, in_u, umax, PER_MILLION; cbn [micro_usd]. zlia.
Qed.

Lemma cost_add_ok a b : cost_ok a -> cost_ok b -> cost_ok (cost_add a b).
Proof. intros. apply sat_add_range; auto; lia. Qed.

Lemma cost_add_comm a b : cost_add a b = cost_add b a.
Proof. unfold cost_add, sat_add. f_equal. lia. Qed.

Lemma cost_add_assoc a b c :
  cost_ok a -> cost_ok b -> cost_ok c ->
  cost_add a (cost_add b c) = cost_add (cost_add a b) c.
Proof. unfold cost_add, cost_ok, sat_add, in_u, umax. simpl. intros. f_equal. lia. Qed.

Lemma cost_zero_ok : cost_ok cost_zero.
Proof. unfold cost_ok, in_u. simpl. lia. Qed.
#[export] Hint Resolve cost_of_ok cost_add_ok cost_zero_ok : sc.

(** The running total over a list of costs, in list order. *)
Definition cost_sum (l : list Cost) : Cost := foldr cost_add cost_zero l.

Lemma cost_sum_ok l : Forall cost_ok l -> cost_ok (cost_sum l).
Proof. induction 1; simpl; auto with sc. Qed.

Lemma cost_sum_micro l :
  Forall cost_ok l ->
  micro_usd (cost_sum l) = Z.min (foldr Z.add 0 (map micro_usd l)) (umax 64).
Proof.
  induction 1 as [|c l Hc Hl IH]; [done|]. cbn [cost_sum foldr map].
  fold (cost_sum l). unfold cost_add; cbn [micro_usd]. rewrite IH.
  assert (0 <= foldr Z.add 0 (map micro_usd l)).
  { clear IH. induction Hl; simpl; unfold cost_ok, in_u in *; lia. }
  unfold sat_add, cost_ok, in_u, umax in *. lia.
Qed.

Lemma sat_add_exact w a b : a + b < 2 ^ w -> sat_add w a b = a + b.
Proof. unfold sat_add, umax. lia. Qed.

(** A usage as providers report it: cached tokens are a subset of the prompt. *)
Definition usage_sane (u : Usage) : Prop :=
  usage_ok u /\ cached_or_zero u <= prompt_tokens u.

(** Two usages whose sum does not saturate. *)
Definition usage_fits (u v : Usage) : Prop :=
  prompt_tokens u + prompt_tokens v < 2 ^ 64
  /\ completion_tokens u + completion_tokens v < 2 ^ 64.

Lemma cost_total_exact_add p u v :
  usage_sane u -> usage_sane v -> usage_fits u v ->
  cost_total_exact p (usage_add u v) = cost_total_exact p u + cost_total_exact p v.
Proof.
  intros [Hu Hcu] [Hv Hcv] [Hp Hc]. unfold cost_total_exact.
  rewrite usage_add_cached by done.
  pose proof (cached_or_zero_range u Hu). pose proof (cached_or_zero_range v Hv).
  destruct Hu as ((?&?) & (?&?) & _). destruct Hv as ((?&?) & (?&?) & _).
  unfold in_u in *. cbn [usage_add prompt_tokens completion_tokens].
  rewrite !sat_add_exact by lia. unfold sat_sub.
  replace (Z.min (cached_or_zero u + cached_or_zero v) (prompt_tokens u + prompt_tokens v))
    with (cached_or_zero u + cached_or_zero v) by lia.
  replace (Z.min (cached_or_zero u) (prompt_tokens u)) with (cached_or_zero u) by lia.
  replace (Z.min (cached_or_zero v) (prompt_tokens v)) with (cached_or_zero v) by lia.
  rewrite !Z.max_r by lia. ring.
Qed.

Lemma cost_sum_app l k :
  Forall cost_ok l -> Forall cost_ok k ->
  cost_sum (l ++ k) = cost_add (cost_sum l) (cost_sum k).
Proof.
  intros Hl Hk. induction Hl as [|c l Hc Hl IH]; simpl.
  - unfold cost_add, sat_add. destruct (cost_sum k) eqn:E. simpl. f_equal.
    pose proof (cost_sum_ok _ Hk) as Hok. rewrite E in Hok.
    unfold cost_ok, in_u, umax in *. simpl in Hok. lia.
  - change (foldr cost_add cost_zero (l ++ k)) with (cost_sum (l ++ k)).
    change (foldr cost_add cost_zero l) with (cost_sum l).
    rewrite IH, cost_add_assoc; auto using cost_sum_ok.
Qed.

Lemma cost_sum_perm l k : Forall cost_ok l -> Permutation l k -> cost_sum l = cost_sum k.
Proof.
  intros Hl Hp. induction Hp as [|c l k Hp IH|c d l|l k m H1 IH1 H2 IH2].
  - done.
  - apply list.Forall_cons in Hl as [? ?]. simpl. by rewrite IH.
  - repeat (apply list.Forall_cons in Hl as [? Hl]). simpl.
    rewrite !cost_add_assoc by auto using cost_sum_ok. by rewrite (cost_add_comm d c).
  - rewrite IH1 by done. apply IH2. by rewrite <- H1.
Qed.

(** ** Properties *)

(** the session total does not depend on how the per-turn costs are
    sharded or in which order shards are merged: summing any permutation of
    the costs, or summing the sums of the shards of any split, gives the
    same [Cost]. *)
Theorem cost_sum_shards (shards : list (list Cost)) (l : list Cost) :
  Forall cost_ok l -> Permutation l (concat shards) ->
  cost_sum (map cost_sum shards) = cost_sum l.
Proof.
  intros Hl Hp. rewrite (cost_sum_perm _ _ Hl Hp). rewrite Hp in Hl. clear Hp.
  induction shards as [|s shards IH]; [done|].
  simpl in Hl |- *. apply list.Forall_app in Hl as [Hs Hr].
  rewrite cost_sum_app by done. by rewrite IH.
Qed.

(** pricing a merged usage instead of its two parts changes the
    total by at most one micro-USD, and never downwards: the per-response
    truncation of [cost_of] is the only difference between summing costs and
    pricing the sum. *)
Theorem cost_of_merge p u v :
  pricing_small p -> usage_sane u -> usage_sane v -> usage_fits u v ->
  cost_total_exact p (usage_add u v) / PER_MILLION <= umax 64 ->
  micro_usd (cost_of p u) + micro_usd (cost_of p v)
    <= micro_usd (cost_of p (usage_add u v))
    <= micro_usd (cost_of p u) + micro_usd (cost_of p v) + 1.
Proof.
  intros Hp Hu Hv Hf. pose proof (proj1 Hu) as Hu'. pose proof (proj1 Hv) as Hv'.
  unfold cost_of; cbn [micro_usd]. rewrite !cost_total_eq by auto with sc.
  rewrite cost_total_exact_add by done.
  pose proof (cost_total_exact_nonneg p u Hp Hu').
  pose proof (cost_total_exact_nonneg p v Hp Hv').
  unfold PER_MILLION. intros Hb. zlia.
Qed.

Lemma cost_sum_shards_witness :
  cost_sum (map cost_sum [[mk_cost 3; mk_cost 4]; [mk_cost 5]])
  = cost_sum [mk_cost 5; mk_cost 3; mk_cost 4].
Proof.
  apply (cost_sum_shards [[mk_cost 3; mk_cost 4]; [mk_cost 5]]).
  - repeat constructor; cbn; lia.
  - simpl. apply (Permutation_app_comm [mk_cost 5] [mk_cost 3; mk_cost 4]).
Defined.

(** Two responses of half a million tokens at one micro-USD per million cost
    nothing each, and one micro-USD priced together. *)
Lemma cost_of_merge_witness :
  let p := mk_pricing 1 0 0 in let u := mk_usage 500000 0 500000 None in
  micro_usd (cost_of p u) + micro_usd (cost_of p u) = 0
  /\ micro_usd (cost_of p (usage_add u u)) = 1
  /\ micro_usd (cost_of p (usage_add u u)) <= micro_usd (cost_of p u) + micro_usd (cost_of p u) + 1.
Proof.
  split; [reflexivity|]. split; [reflexivity|].
  apply (cost_of_merge (mk_pricing 1 0 0) (mk_usage 500000 0 500000 None)
           (mk_usage 500000 0 500000 None)).
  - unfold pricing_small, in_u; simpl; lia.
  - unfold usage_sane, usage_ok, in_u; cbn; lia.
  - unfold usage_sane, usage_ok, in_u; cbn; lia.
  - unfold usage_fits; simpl; lia.
  - vm_compute. discriminate.
Defined.
