(* ===== verification/Turn.v ===== *)
(** Conversation turns (src/crates/rc-core/src/turn.rs): the domain model the
    agent loop appends to and the projection reads, tool results with their
    rendering and their byte cap, and the two mode enumerations. *)

From S2P Require Import Prelude Wire Cost.

(** ** Data *)

Record ToolCall := mk_tool_call {
  tc_id : str;
  tc_name : str;
  tc_arguments : str
}.

Record ModelTrace := mk_trace {
  tr_started_ms : Z;
  tr_completed_ms : Z;
  tr_total_ms : Z;
  tr_response_headers_ms : option Z;
  tr_ttft_ms : option Z;
  tr_stream_ms : option Z;
  tr_request_bytes : Z;
  tr_wire_bytes : Z;
  tr_context_chars : Z;
  tr_context_tokens_estimate : Z;
  tr_retries : Z;
  tr_reported_finish_reason : str;
  tr_effective_finish_reason : str;
  tr_implicit_length : bool;
  tr_transport_events : Z;
  tr_semantic_events : Z;
  tr_last_transport_activity_ms : option Z;
  tr_last_semantic_activity_ms : option Z;
  tr_partial_text_chars : Z;
  tr_partial_reasoning_chars : Z;
  tr_partial_tool_argument_chars : Z
}.

Record PartialToolCall := mk_partial_tool_call {
  ptc_index : Z;
  ptc_id : option str;
  ptc_name : option str;
  ptc_arguments : str;
  ptc_truncated : bool
}.

Record PartialStreamResponse := mk_partial_response {
  psr_text : str;
  psr_reasoning : str;
  psr_tool_calls : list PartialToolCall;
  psr_truncated : bool
}.

Inductive ToolResultBody :=
| ROk (content : str) (truncated : bool)
| RError (message : str) (retryable : bool)
| RDenied (reason : str)
| RInterrupted.

Inductive NoteKind := NCompaction | NGoal | NRecovery | NModeChange | NNotice.

(** Times and durations are nanoseconds. *)
Inductive Turn :=
| TUser (content : str) (ts : Z)
| TAssistant (text : str) (reasoning : option str) (calls : list ToolCall)
             (usage : option Usage) (cost : option Cost) (trace : option ModelTrace)
| TToolResult (call_id tool : str) (result : ToolResultBody) (duration : Z)
| TSystemNote (kind : NoteKind) (text : str)
| TError (message : str) (retryable : option bool) (retries : option Z)
         (trace : option ModelTrace) (partial : option PartialStreamResponse) (ts : Z)
| TCancelled (ts : Z).

#[export] Instance tool_call_eq_dec : EqDecision ToolCall.
Proof. solve_decision. Defined.
#[export] Instance tool_result_body_eq_dec : EqDecision ToolResultBody.
Proof. solve_decision. Defined.
#[export] Instance note_kind_eq_dec : EqDecision NoteKind.
Proof. solve_decision. Defined.

(** ** Times in the session file *)

(** The file holds whole milliseconds: [epoch_millis], 64 bits of them after
    the epoch and zero for an earlier time, and [duration_millis], which
    writes 128 bits and reads 64. *)
Definition NANOS_PER_MILLI : Z := 1000000.
Definition epoch_millis_serialize (t : Z) : Z := (if t <? 0 then 0 else t / NANOS_PER_MILLI) mod 2 ^ 64.
Definition epoch_millis_deserialize (ms : Z) : Z := ms * NANOS_PER_MILLI.
Definition duration_millis_serialize (d : Z) : Z := d / NANOS_PER_MILLI.
Definition duration_millis_deserialize (ms : Z) : option Z :=
  if ms <? 2 ^ 64 then Some (ms * NANOS_PER_MILLI) else None.

(** A turn as it is read back from what was written of it. *)
Definition stored_time (t : Z) : Z := epoch_millis_deserialize (epoch_millis_serialize t).
Definition stored_duration (d : Z) : option Z := duration_millis_deserialize (duration_millis_serialize d).
Definition stored_turn (t : Turn) : option Turn :=
  match t with
  | TUser content ts => Some (TUser content (stored_time ts))
  | TToolResult call_id tool result duration => TToolResult call_id tool result <$> stored_duration duration
  | TError message retryable retries trace partial ts =>
      Some (TError message retryable retries trace partial (stored_time ts))
  | TCancelled ts => Some (TCancelled (stored_time ts))
  | TAssistant _ _ _ _ _ _ | TSystemNote _ _ => Some t
  end.

(** A turn with its times cut to whole milliseconds, and the turns whose times
    fit the file. *)
Definition whole_millis (x : Z) : Z := x / NANOS_PER_MILLI * NANOS_PER_MILLI.
Definition cut_times (t : Turn) : Turn :=
  match t with
  | TUser content ts => TUser content (whole_millis ts)
  | TToolResult call_id tool result duration => TToolResult call_id tool result (whole_millis duration)
  | TError message retryable retries trace partial ts => TError message retryable retries trace partial (whole_millis ts)
  | TCancelled ts => TCancelled (whole_millis ts)
  | TAssistant _ _ _ _ _ _ | TSystemNote _ _ => t
  end.
Definition millis_fit (x : Z) : bool := (0 <=? x) && (x <? 2 ^ 64 * NANOS_PER_MILLI).
Definition times_fit (t : Turn) : bool :=
  match t with
  | TUser _ ts | TError _ _ _ _ _ ts | TCancelled ts => millis_fit ts
  | TToolResult _ _ _ duration => millis_fit duration
  | TAssistant _ _ _ _ _ _ | TSystemNote _ _ => true
  end.

Lemma millis_fit_range x : millis_fit x = true -> 0 <= x / NANOS_PER_MILLI < 2 ^ 64.
Proof.
  unfold millis_fit, NANOS_PER_MILLI. intros [H0 H1]%andb_true_iff. split; [apply Z.div_pos; lia|].
  apply Z.div_lt_upper_bound; lia.
Qed.
Lemma whole_millis_fit x : millis_fit x = true -> stored_time x = whole_millis x /\ stored_duration x = Some (whole_millis x).
Proof.
  intros Hx. pose proof (millis_fit_range x Hx) as Hr. unfold millis_fit in Hx. apply andb_true_iff in Hx as [H0 _].
  unfold stored_time, epoch_millis_serialize, epoch_millis_deserialize, stored_duration, duration_millis_deserialize,
    duration_millis_serialize, whole_millis.
  rewrite (proj2 (Z.ltb_ge x 0)) by lia. rewrite Z.mod_small by done. split; [done|]. by rewrite (proj2 (Z.ltb_lt _ _)) by lia.
Qed.
Lemma stored_cut t : times_fit t = true -> stored_turn t = Some (cut_times t).
Proof. destruct t; cbn; try done; intros [E1 E2]%whole_millis_fit; by rewrite ?E1, ?E2. Qed.
Lemma omap_stored_cut (ts : list Turn) : Forall (fun t => times_fit t = true) ts -> omap stored_turn ts = map cut_times ts.
Proof. induction 1 as [|t ts Ht _ IH]; [done|]. cbn [omap list_omap map]. rewrite (stored_cut t Ht). f_equal. exact IH. Qed.

Lemma stored_time_twice t : stored_time (stored_time t) = stored_time t.
Proof.
  unfold stored_time, epoch_millis_deserialize, NANOS_PER_MILLI. set (m := epoch_millis_serialize t).
  assert (0 <= m < 2 ^ 64) as Hm by (apply Z.mod_pos_bound; lia).
  unfold epoch_millis_serialize at 1, NANOS_PER_MILLI. rewrite (proj2 (Z.ltb_ge _ 0)) by lia.
  rewrite Z.div_mul, Z.mod_small by lia. done.
Qed.
Lemma stored_duration_twice d d' : stored_duration d = Some d' -> stored_duration d' = Some d'.
Proof.
  unfold stored_duration, duration_millis_deserialize, duration_millis_serialize, NANOS_PER_MILLI.
  destruct (Z.ltb_spec (d / 1000000) (2 ^ 64)) as [Hd|]; [|done]. intros [= <-].
  rewrite Z.div_mul by lia. by rewrite (proj2 (Z.ltb_lt _ _)) by lia.
Qed.
(** Storing what was read back changes nothing. *)
Lemma stored_turn_twice t t' : stored_turn t = Some t' -> stored_turn t' = Some t'.
Proof.
  destruct t; cbn; try (intros [= <-]; cbn; by rewrite ?stored_time_twice).
  intros (d' & Hd & ->)%fmap_Some. cbn. by rewrite (stored_duration_twice _ _ Hd).
Qed.
Lemma omap_stored_twice (ts : list Turn) : omap stored_turn (omap stored_turn ts) = omap stored_turn ts.
Proof.
  induction ts as [|t ts IH]; [done|]. cbn [omap list_omap]. destruct (stored_turn t) as [t'|] eqn:E; [|exact IH].
  cbn [omap list_omap]. rewrite (stored_turn_twice t t' E). f_equal. exact IH.
Qed.

(** ** Tool results *)

(** [floor_char_boundary]: the byte index of the last character boundary at
    or below [cap], computed by walking down from [min cap len]. *)
Definition is_char_boundary (s : str) (i : Z) : bool :=
  existsb (fun k => byte_len (take k s) =? i) (seq 0 (S (length s))).

Fixpoint floor_walk (fuel : nat) (s : str) (i : Z) : Z :=
  match fuel with
  | O => i
  | S f => if is_char_boundary s i then i else floor_walk f s (i - 1)
  end.

Definition floor_char_boundary (s : str) (cap : Z) : Z :=
  let i := Z.min cap (byte_len s) in floor_walk (S (Z.to_nat i)) s i.

(** [&content[..head]] for a character boundary [head]. *)
Definition str_upto (s : str) (head : Z) : str := take_bytes head s.

(** [ToolResultBody::render]. *)
Definition render (r : ToolResultBody) : str :=
  match r with
  | ROk content true => content ++ [10] ++ lit "[output truncated]"
  | ROk content false => content
  | RError message _ => lit "[tool error: " ++ message ++ lit "]"
  | RDenied reason => lit "[denied: " ++ reason ++ lit "]"
  | RInterrupted => lit "[tool call interrupted before execution]"
  end.

(** The sentinel a cap appends: a newline, [[… n bytes truncated]]. *)
Definition truncation_sentinel (elided : Z) : str :=
  [10; 91; 8230; 32] ++ show_z elided ++ lit " bytes truncated]".

(** [ToolResultBody::truncate_body]. *)
Definition truncate_body (r : ToolResultBody) (cap : Z) : ToolResultBody :=
  match r with
  | ROk content _ =>
      if byte_len content <=? cap then r
      else
        let head := str_upto content (floor_char_boundary content cap) in
        let elided := byte_len content - byte_len head in
        ROk (head ++ truncation_sentinel elided) true
  | other => other
  end.

(** [ToolOutcome] (src/crates/rc-core/src/tool.rs) and its conversion;
    artifacts carry file contents before and after a change. *)
Inductive Artifact :=
| FileChange (path : str) (before after : option (list Z)).

Inductive ToolOutcome :=
| OOk (content : str) (truncated : bool) (artifacts : list Artifact)
| ODenied (reason : str)
| OError (message : str) (retryable : bool)
| OInterrupted.

Definition body_of_outcome (o : ToolOutcome) : ToolResultBody :=
  match o with
  | OOk content truncated _ => ROk content truncated
  | OError message retryable => RError message retryable
  | ODenied reason => RDenied reason
  | OInterrupted => RInterrupted
  end.

(** ** Modes *)

(** [AgentMode] and [rc_perm::Mode], bridged variant by variant. *)
Inductive AgentMode := AmDefault | AmAcceptEdits | AmPlan | AmAsk | AmAuto.

(** ** Lemmas *)

Lemma byte_len_take_le s k : byte_len (take k s) <= byte_len s.
Proof. rewrite <- (take_drop k s) at 2. rewrite byte_len_app. pose proof (byte_len_nonneg (drop k s)). lia. Qed.

Lemma is_char_boundary_spec s i :
  is_char_boundary s i = true <-> exists a b, s = a ++ b /\ byte_len a = i.
Proof.
  unfold is_char_boundary. rewrite existsb_exists. split.
  - intros (k & _ & Hk). apply Z.eqb_eq in Hk. exists (take k s), (drop k s).
    by rewrite take_drop.
  - intros (a & b & -> & <-). exists (length a). split.
    + apply in_seq. rewrite length_app. lia.
    + apply Z.eqb_eq. by rewrite take_app_length.
Qed.

Lemma take_bytes_boundary n s :
  0 <= n -> exists r, s = take_bytes n s ++ r /\ byte_len (take_bytes n s) <= n
   /\ (forall c r', r = c :: r' -> n < byte_len (take_bytes n s) + len_utf8 c).
Proof.
  revert n. induction s as [|c s IH]; intros n Hn; simpl.
  - exists []. repeat split; [simpl; lia|]. intros ? ? [=].
  - destruct (Z.leb_spec (len_utf8 c) n) as [Hc|Hc].
    + destruct (IH (n - len_utf8 c)) as (r & Hr & Hl & Hm); [lia|].
      exists r. cbn [app byte_len]. split; [by f_equal|]. split; [lia|].
      intros d r' ->. specialize (Hm d r' eq_refl). lia.
    + exists (c :: s). simpl. repeat split; [lia|]. intros d r' [= -> ->]. lia.
Qed.

Lemma take_bytes_max n s a b :
  0 <= n -> s = a ++ b -> byte_len a <= n -> byte_len a <= byte_len (take_bytes n s).
Proof.
  revert n s. induction a as [|c a IH]; intros n s Hn -> Ha; simpl in *; [apply byte_len_nonneg|].
  pose proof (byte_len_nonneg a). destruct (Z.leb_spec (len_utf8 c) n); simpl; [|lia].
  specialize (IH (n - len_utf8 c) (a ++ b) ltac:(lia) eq_refl ltac:(lia)). lia.
Qed.

Lemma floor_walk_spec fuel s n i :
  0 <= n <= byte_len s -> byte_len (take_bytes n s) <= i <= n ->
  (Z.to_nat i < fuel)%nat -> floor_walk fuel s i = byte_len (take_bytes n s).
Proof.
  intros Hn. revert i. induction fuel as [|f IH]; intros i Hi Hf; [lia|]. simpl.
  destruct (take_bytes_prefix n s) as [r Hr].
  destruct (is_char_boundary s i) eqn:E.
  - apply is_char_boundary_spec in E as (a & b & Hab & Ha).
    pose proof (take_bytes_max n s a b ltac:(lia) Hab ltac:(lia)). lia.
  - assert (i <> byte_len (take_bytes n s)).
    { intros ->. assert (is_char_boundary s (byte_len (take_bytes n s)) = true) as H; [|congruence].
      apply is_char_boundary_spec. eauto. }
    pose proof (byte_len_nonneg (take_bytes n s)). apply IH; lia.
Qed.

(** The walk stops at the longest whole-character prefix within the cap. *)
Lemma floor_char_boundary_spec s cap :
  0 <= cap -> floor_char_boundary s cap = byte_len (take_bytes (Z.min cap (byte_len s)) s).
Proof.
  intros Hc. pose proof (byte_len_nonneg s). unfold floor_char_boundary.
  pose proof (take_bytes_len (Z.min cap (byte_len s)) s).
  apply floor_walk_spec; lia.
Qed.

Lemma take_bytes_self n s :
  0 <= n -> take_bytes (byte_len (take_bytes n s)) s = take_bytes n s.
Proof.
  revert n. induction s as [|c s IH]; intros n Hn; simpl; [done|].
  destruct (Z.leb_spec (len_utf8 c) n) as [Hc|Hc]; simpl.
  - pose proof (byte_len_nonneg (take_bytes (n - len_utf8 c) s)).
    destruct (Z.leb_spec (len_utf8 c) (len_utf8 c + byte_len (take_bytes (n - len_utf8 c) s))); [|lia].
    f_equal. replace (_ + _ - _) with (byte_len (take_bytes (n - len_utf8 c) s)) by lia.
    apply IH. lia.
  - pose proof (len_utf8_pos c). destruct (Z.leb_spec (len_utf8 c) 0); [lia|done].
Qed.

Lemma str_upto_floor s cap :
  0 <= cap -> cap < byte_len s -> str_upto s (floor_char_boundary s cap) = take_bytes cap s.
Proof.
  intros. rewrite floor_char_boundary_spec, Z.min_l by lia. by apply take_bytes_self.
Qed.

(** ** Properties *)

(** [truncate_body] on a successful result either leaves it alone (it is
    within the byte cap) or cuts it at a character boundary: the kept head is
    a prefix of at most [cap] bytes, it is the longest such prefix, the
    sentinel reports exactly the number of bytes dropped and the result is
    flagged as truncated.  No other kind of result is changed. *)
Theorem truncate_body_spec content tr cap :
  0 <= cap ->
  match truncate_body (ROk content tr) cap with
  | ROk out tr' =>
      (byte_len content <= cap /\ out = content /\ tr' = tr)
      \/ (cap < byte_len content /\ tr' = true
          /\ exists head rest,
               content = head ++ rest
               /\ out = head ++ truncation_sentinel (byte_len rest)
               /\ byte_len head <= cap
               /\ forall c rest', rest = c :: rest' -> cap < byte_len head + len_utf8 c)
  | _ => False
  end.
Proof.
  intros Hc. unfold truncate_body. destruct (Z.leb_spec (byte_len content) cap); [by left|].
  right. rewrite str_upto_floor by lia. repeat split; [done|].
  destruct (take_bytes_boundary cap content Hc) as (rest & Hr & Hl & Hm).
  exists (take_bytes cap content), rest. repeat split; auto.
  f_equal. f_equal. rewrite Hr at 1. rewrite byte_len_app. lia.
Qed.

(** A cap of four bytes falls inside the second euro sign. *)
Lemma truncate_body_spec_witness :
  truncate_body (ROk [8364; 8364; 97] false) 4 = ROk ([8364] ++ truncation_sentinel 4) true
  /\ match truncate_body (ROk [8364; 8364; 97] false) 4 with
     | ROk out _ => exists head rest, [8364; 8364; 97] = head ++ rest
                      /\ out = head ++ truncation_sentinel (byte_len rest)
     | _ => False end.
Proof.
  split; [reflexivity|].
  destruct (truncate_body_spec [8364; 8364; 97] false 4 ltac:(lia)) as [(H & _)|H].
  - exfalso. vm_compute in H. by apply H.
  - destruct H as (_ & _ & head & rest & ? & ? & _). exists head, rest. auto.
Defined.
