(* ===== verification/Json.v ===== *)
(** The JSON library seen through an interface.  [serde_json] is a
    third-party crate: the components below use it through the operations of
    [JsonApi] and rely on the laws of [JsonLaws] only. *)

From S2P Require Import Prelude.

Class JsonApi := {
  Value : Type;
  (** [serde_json::from_str::<Value>] *)
  j_parse : str -> option Value;
  (** [Value::to_string] *)
  j_to_string : Value -> str;
  (** [Value::Null] and [matches!(_, Value::Object(_))] *)
  j_null : Value;
  j_is_object : Value -> bool;
  (** [Value::get], [as_str], [as_array] *)
  j_get : Value -> str -> option Value;
  j_as_str : Value -> option str;
  j_as_array : Value -> option (list Value);
  (** [json!] literals: objects, strings and booleans *)
  j_obj : list (str * Value) -> Value;
  j_str : str -> Value;
  j_bool : bool -> Value
}.

(** What the code relies on: printing then parsing an object literal gives the
    literal back, [as_str] reads a string literal, [get] a field of an object
    literal with a single field. *)
Class JsonLaws `{JsonApi} := {
  j_parse_print v : j_parse (j_to_string v) = Some v;
  j_obj_is_object l : j_is_object (j_obj l) = true;
  j_as_str_str s : j_as_str (j_str s) = Some s;
  j_get_one k v : j_get (j_obj [(k, v)]) k = Some v;
  j_get_one_ne k k' v : k <> k' -> j_get (j_obj [(k, v)]) k' = None
}.

(** ** A concrete instance, used by the witnesses *)

Module Tree.

Inductive tree :=
| Null
| Boolean (b : bool)
| Str (s : str)
| Arr (l : list tree)
| Obj (l : list (str * tree)).

Fixpoint to_gen (t : tree) : gen_tree (str + bool) :=
  match t with
  | Null => GenNode 0 []
  | Boolean b => GenLeaf (inr b)
  | Str s => GenLeaf (inl s)
  | Arr l => GenNode 1 (map to_gen l)
  | Obj l => GenNode 2 (map (fun p => GenNode 3 [GenLeaf (inl p.1); to_gen p.2]) l)
  end.

(** Values are compared and encoded through [gen_tree]; the "text" of a value
    is its code as a single number. *)
Fixpoint of_gen (g : gen_tree (str + bool)) : tree :=
  match g with
  | GenLeaf (inr b) => Boolean b
  | GenLeaf (inl s) => Str s
  | GenNode 0 _ => Null
  | GenNode 1 l => Arr (map of_gen l)
  | GenNode 2 l =>
      Obj (map (fun p => match p with
                         | GenNode _ [GenLeaf (inl k); v] => (k, of_gen v)
                         | _ => ([], Null)
                         end) l)
  | GenNode _ _ => Null
  end.

Fixpoint of_to (t : tree) : of_gen (to_gen t) = t.
Proof.
  destruct t as [| |s|l|l]; simpl; try done.
  - f_equal. induction l as [|x l IH]; simpl; [done|]. by rewrite of_to, IH.
  - f_equal. induction l as [|[k v] l IH]; simpl; [done|]. by rewrite of_to, IH.
Qed.

Definition print (t : tree) : str := [Zpos (encode (to_gen t))].
Definition parse (s : str) : option tree :=
  match s with
  | [Zpos p] => match decode p with Some g => Some (of_gen g) | None => None end
  | _ => None
  end.

Fixpoint assoc (l : list (str * tree)) (k : str) : option tree :=
  match l with
  | [] => None
  | (k', v) :: l' => if bool_decide (k' = k) then Some v else assoc l' k
  end.

#[export] Instance tree_json : JsonApi := {|
  Value := tree;
  j_parse := parse;
  j_to_string := print;
  j_null := Null;
  j_is_object t := match t with Obj _ => true | _ => false end;
  j_get t k := match t with Obj l => assoc l k | _ => None end;
  j_as_str t := match t with Str s => Some s | _ => None end;
  j_as_array t := match t with Arr l => Some l | _ => None end;
  j_obj := Obj;
  j_str := Str;
  j_bool := Boolean
|}.

#[export] Instance tree_json_laws : JsonLaws.
Proof.
  split; simpl; intros; auto.
  - unfold print, parse. by rewrite decode_encode, of_to.
  - by rewrite bool_decide_true.
  - by rewrite bool_decide_false.
Qed.

End Tree.
