(* ===== verification/Project.v ===== *)
(** Projection of turns to wire messages and the tool-answer invariant
    (src/crates/rc-core/src/project.rs).  [project_with] is the projection,
    [verify_invariant] the check the agent loop runs on every request. *)

From S2P Require Import Prelude Wire Cost Turn Json.

(** ** Escaped length and chunking *)

Definition MAX_STRING_ESCAPED : Z := 1000000.

(** [escaped_len]: bytes a string occupies inside a JSON literal, counted on
    its UTF-8 bytes. *)
Definition escape_extra (b : Z) : Z :=
  if (b =? 34) || (b =? 92) || (b =? 8) || (b =? 9) || (b =? 10) || (b =? 12) || (b =? 13)
  then 1
  else if (0 <=? b) && (b <=? 31) then 5 else 0.

Definition escaped_len (s : str) : Z :=
  fold_left (fun len b => len + escape_extra b) (utf8 s) (byte_len s).

Definition escape_len_char (c : char) : Z :=
  if (c =? 34) || (c =? 92) then 2
  else if (c =? 8) || (c =? 9) || (c =? 10) || (c =? 12) || (c =? 13) then 2
  else if c <? 32 then 6
  else len_utf8 c.

(** [chunk_by_escaped_len]: the loop state is the list of finished chunks, the
    buffer and its escaped length. *)
Fixpoint chunk_loop (s : str) (max : Z) (chunks : list str) (buf : str) (cur : Z) : list str :=
  match s with
  | [] => if is_nil buf then chunks else chunks ++ [buf]
  | c :: s' =>
      let e := escape_len_char c in
      if (max <? cur + e) && negb (is_nil buf)
      then chunk_loop s' max (chunks ++ [buf]) [c] (0 + e)
      else chunk_loop s' max chunks (buf ++ [c]) (cur + e)
  end.

Definition chunk_by_escaped_len (s : str) (max : Z) : list str := chunk_loop s max [] [] 0.

(** The pieces a user or tool content is sent as. *)
Definition pieces (s : str) : list str :=
  if escaped_len s <=? MAX_STRING_ESCAPED then [s]
  else chunk_by_escaped_len s MAX_STRING_ESCAPED.

Definition push_user (out : list WireMessage) (content : str) : list WireMessage :=
  out ++ map (fun p => WUser (UserText p)) (pieces content).

Section WithJson.
Context `{JsonApi}.

(** ** Tool arguments *)

(** [safe_tool_arguments]: a JSON object is kept byte for byte, anything else
    is replaced by a small valid envelope holding a preview. *)
Definition safe_tool_arguments (arguments : str) : str :=
  if match j_parse arguments with Some v => j_is_object v | None => false end
  then arguments
  else j_to_string
         (j_obj [(lit "_sc_invalid_tool_arguments", j_bool true);
                 (lit "raw_preview", j_str (take 2048 arguments))]).

(** ** Projection *)

Definition is_compaction (t : Turn) : bool :=
  match t with TSystemNote NCompaction _ => true | _ => false end.
Definition is_goal (t : Turn) : bool :=
  match t with TSystemNote NGoal _ => true | _ => false end.

Definition note_text (t : Turn) : str :=
  match t with TSystemNote _ text => text | _ => [] end.

Definition active_start (messages : list Turn) : nat :=
  default 0%nat (rposition is_compaction messages).

(** The newest goal note: its index and text. *)
Definition last_goal (messages : list Turn) : option (nat * str) :=
  match rposition is_goal messages with
  | Some i => match messages !! i with Some t => Some (i, note_text t) | None => None end
  | None => None
  end.

Definition wire_call (c : ToolCall) : WireToolCall :=
  mk_wire_tool_call (tc_id c)
    (mk_function_call (tc_name c) (safe_tool_arguments (tc_arguments c))).

Definition render_note (kind : NoteKind) (text : str) : str :=
  match kind with
  | NCompaction => lit "<session-summary>" ++ text ++ lit "</session-summary>"
  | NGoal => lit "<session-goal>" ++ text ++ lit "</session-goal>"
  | NRecovery => text
  | NModeChange | NNotice => lit "[note] " ++ text
  end.

(** One iteration of the projection loop. *)
Definition project_turn (out : list WireMessage) (t : Turn) : list WireMessage :=
  match t with
  | TUser content _ => push_user out content
  | TAssistant text reasoning calls _ _ _ =>
      let tool_calls := map wire_call calls in
      let reasoning_content :=
        match reasoning with
        | Some r => if is_nil (trim r) then None else Some r
        | None => None
        end in
      let content :=
        if is_nil text && (negb (is_nil tool_calls) || bool_decide (is_Some reasoning_content))
        then None else Some text in
      out ++ [WAssistant content reasoning_content tool_calls]
  | TToolResult call_id _ result _ =>
      let body := render result in
      if escaped_len body <=? MAX_STRING_ESCAPED
      then out ++ [WTool call_id body]
      else out ++ map (WTool call_id) (chunk_by_escaped_len body MAX_STRING_ESCAPED)
  | TSystemNote kind text => push_user out (render_note kind text)
  | TError _ _ _ _ _ _ | TCancelled _ => out
  end.

Definition project_with (messages : list Turn) (system_prompt : str) : list WireMessage :=
  let out := [WSystem system_prompt] in
  let start := active_start messages in
  let out :=
    match last_goal messages with
    | Some (goal_index, goal) =>
        if (goal_index <? start)%nat && negb (is_nil (trim goal))
        then push_user out (lit "<session-goal>" ++ goal ++ lit "</session-goal>")
        else out
    | None => out
    end in
  fold_left project_turn (drop start messages) out.

(** The default prompt is a constant string of the code; its text does not matter. *)
Definition SYSTEM_PROMPT : str := lit
  "You are `marathon` (Subconscious Code), an agent that helps with software engineering tasks in the user's repository. Use the provided tools to inspect and edit files. Be concise and direct. When you have enough information, answer in plain text.".

Definition project (messages : list Turn) : list WireMessage :=
  project_with messages SYSTEM_PROMPT.

(** ** The tool-answer invariant *)

Inductive InvariantError :=
| NoContiguousAnswers
| IdMismatch (missing extra : gset str).

(** The contiguous run of tool messages at the head of [l]: the ids it answers
    and what follows it. *)
Fixpoint tool_run (l : list WireMessage) : gset str * list WireMessage :=
  match l with
  | WTool id _ :: l' => let '(got, rest) := tool_run l' in ({[id]} ∪ got, rest)
  | _ => (∅, l)
  end.

Definition expected_ids (calls : list WireToolCall) : gset str :=
  list_to_set (map wtc_id calls).

(** [verify_invariant]; the index [i] of the code is the suffix left to scan,
    and every iteration shortens it, so its length is enough fuel. *)
Fixpoint verify_loop (fuel : nat) (l : list WireMessage) : res InvariantError unit :=
  match fuel, l with
  | _, [] => Ok tt
  | O, _ => Ok tt
  | S f, m :: l' =>
      match m with
      | WAssistant _ _ (c :: cs) =>
          let expected := expected_ids (c :: cs) in
          let '(got, rest) := tool_run l' in
          if bool_decide (length rest = length l') then Err NoContiguousAnswers
          else if bool_decide (got = expected) then verify_loop f rest
          else Err (IdMismatch (expected ∖ got) (got ∖ expected))
      | _ => verify_loop f l'
      end
  end.

Definition verify_invariant (msgs : list WireMessage) : res InvariantError unit :=
  verify_loop (length msgs) msgs.

(** ** When a turn log answers its tool calls *)

Definition calls_of (t : Turn) : list ToolCall :=
  match t with TAssistant _ _ calls _ _ _ => calls | _ => [] end.
Definition is_result (t : Turn) : bool :=
  match t with TToolResult _ _ _ _ => true | _ => false end.
Definition result_id (t : Turn) : str :=
  match t with TToolResult id _ _ _ => id | _ => [] end.

(** A log is a sequence of plain turns and of assistant turns with calls, each
    of the latter followed by results for exactly its call ids. *)
Inductive answered : list Turn -> Prop :=
| answered_nil : answered []
| answered_plain t l :
    calls_of t = [] -> is_result t = false -> answered l -> answered (t :: l)
| answered_batch t results l :
    calls_of t <> [] ->
    Forall (fun r => is_result r = true) results ->
    list_to_set (map result_id results) =@{gset str} list_to_set (map tc_id (calls_of t)) ->
    answered l -> answered (t :: results ++ l).

End WithJson.

#[export] Hint Constructors answered : sc.

(** ** Lemmas: escaped length *)

Fixpoint escaped_chars (s : str) : Z :=
  match s with
  | [] => 0
  | c :: s' => escape_len_char c + escaped_chars s'
  end.

Lemma fold_extra_shift l a b :
  fold_left (fun len b => len + escape_extra b) l (a + b)
  = a + fold_left (fun len b => len + escape_extra b) l b.
Proof.
  revert b. induction l as [|x l IH]; intros b; simpl; [done|].
  rewrite <- IH. f_equal. lia.
Qed.

Lemma escape_extra_high b : 128 <= b -> escape_extra b = 0.
Proof.
  intros. unfold escape_extra.
  repeat match goal with |- context [?x =? ?y] => destruct (Z.eqb_spec x y); [lia|] end.
  destruct (Z.leb_spec b 31); [lia|]. simpl. by rewrite andb_false_r.
Qed.

Lemma utf8_char_escape c :
  is_char c ->
  fold_left (fun len b => len + escape_extra b) (utf8_char c) (len_utf8 c) = escape_len_char c.
Proof.
  intros Hc. assert (0 <= c < 1114112) as Hr by (unfold is_char in Hc; lia). clear Hc.
  unfold escape_len_char, utf8_char, len_utf8.
  destruct (Z.ltb_spec c 128).
  - cbn [fold_left]. unfold escape_extra.
    destruct (Z.eqb_spec c 34), (Z.eqb_spec c 92); simpl; try done.
    destruct (Z.eqb_spec c 8), (Z.eqb_spec c 9), (Z.eqb_spec c 10), (Z.eqb_spec c 12),
      (Z.eqb_spec c 13); simpl; try done.
    destruct (Z.leb_spec 0 c), (Z.leb_spec c 31), (Z.ltb_spec c 32); cbn [andb]; lia.
  - replace (c =? 34) with false by lia. replace (c =? 92) with false by lia.
    replace (c =? 8) with false by lia. replace (c =? 9) with false by lia.
    replace (c =? 10) with false by lia. replace (c =? 12) with false by lia.
    replace (c =? 13) with false by lia. replace (c <? 32) with false by lia.
    replace (c <? 128) with false by lia. simpl orb. cbv iota.
    destruct (Z.ltb_spec c 2048); [|destruct (Z.ltb_spec c 65536)]; cbn [fold_left];
      rewrite !escape_extra_high by zlia; lia.
Qed.

Lemma escaped_len_cons c s :
  is_char c -> escaped_len (c :: s) = escape_len_char c + escaped_len s.
Proof.
  intros Hc. unfold escaped_len, utf8. cbn [map concat byte_len].
  rewrite fold_left_app.
  rewrite (Z.add_comm (len_utf8 c)), fold_extra_shift, utf8_char_escape by done.
  rewrite (Z.add_comm (byte_len s)). by rewrite fold_extra_shift.
Qed.

(** The per-character count used by the splitter is the byte count used by
    the test. *)
Lemma escaped_len_chars s : Forall is_char s -> escaped_len s = escaped_chars s.
Proof.
  induction 1 as [|c s Hc Hs IH]; [done|]. rewrite escaped_len_cons by done. simpl. by rewrite IH.
Qed.

Lemma escape_len_char_bound c : 1 <= escape_len_char c <= 6.
Proof.
  unfold escape_len_char. pose proof (len_utf8_pos c).
  repeat case_test; lia.
Qed.

Lemma escaped_chars_app a b : escaped_chars (a ++ b) = escaped_chars a + escaped_chars b.
Proof. induction a as [|c a IH]; simpl; lia. Qed.

(** ** Lemmas: chunking *)

Lemma chunk_loop_concat s max chunks buf cur :
  concat (chunk_loop s max chunks buf cur) = concat chunks ++ buf ++ s.
Proof.
  revert chunks buf cur. induction s as [|c s IH]; intros chunks buf cur; simpl.
  - destruct buf; simpl; [by rewrite !app_nil_r|]. rewrite concat_app. simpl. by rewrite !app_nil_r.
  - destruct (_ && _); rewrite IH.
    + rewrite concat_app. simpl. by rewrite app_nil_r, <- app_assoc.
    + by rewrite <- !app_assoc.
Qed.

Lemma chunk_loop_bound s max chunks buf cur :
  6 <= max -> cur = escaped_chars buf -> cur <= max ->
  Forall (fun k => k <> [] /\ escaped_chars k <= max) chunks ->
  Forall (fun k => k <> [] /\ escaped_chars k <= max) (chunk_loop s max chunks buf cur).
Proof.
  intros Hm. revert chunks buf cur. induction s as [|c s IH]; intros chunks buf cur Hc Hb Hk; simpl.
  - destruct buf as [|d buf]; simpl; [done|]. apply list.Forall_app. split; [done|].
    constructor; [|constructor]. split; [done|]. simpl in *. lia.
  - pose proof (escape_len_char_bound c).
    destruct (Z.ltb_spec max (cur + escape_len_char c)); simpl.
    + destruct buf as [|d buf]; simpl.
      * simpl in *. lia.
      * apply IH; simpl in *; try lia. apply list.Forall_app. split; [done|].
        constructor; [|constructor]. split; [done|]. simpl in *. lia.
    + apply IH; try done. rewrite escaped_chars_app. simpl. lia.
Qed.

Lemma pieces_concat s : concat (pieces s) = s.
Proof.
  unfold pieces. destruct (_ <=? _); simpl; [by rewrite app_nil_r|].
  unfold chunk_by_escaped_len. by rewrite chunk_loop_concat.
Qed.

Lemma chunk_nonempty s max : s <> [] -> chunk_by_escaped_len s max <> [].
Proof.
  intros Hs Hn. apply Hs. unfold chunk_by_escaped_len in Hn.
  pose proof (chunk_loop_concat s max [] [] 0) as H. by rewrite Hn in H.
Qed.

(** ** Lemmas: projection of one turn *)

Section ProjectLemmas.
Context `{JsonApi}.

Lemma project_turn_app out t : project_turn out t = out ++ project_turn [] t.
Proof.
  destruct t; simpl; unfold push_user; simpl; try done.
  - by destruct (_ <=? _).
  - by rewrite app_nil_r.
  - by rewrite app_nil_r.
Qed.

Definition msgs_of (l : list Turn) : list WireMessage := concat (map (project_turn []) l).

Lemma fold_project l out : fold_left project_turn l out = out ++ msgs_of l.
Proof.
  revert out. induction l as [|t l IH]; intros out; simpl; [by rewrite app_nil_r|].
  rewrite IH, project_turn_app. unfold msgs_of. simpl. by rewrite app_assoc.
Qed.

Lemma msgs_of_app a b : msgs_of (a ++ b) = msgs_of a ++ msgs_of b.
Proof. unfold msgs_of. by rewrite map_app, concat_app. Qed.

(** Messages outside a batch: neither tool answers nor calls to answer. *)
Definition plain_msg (m : WireMessage) : Prop :=
  match m with
  | WTool _ _ => False
  | WAssistant _ _ calls => calls = []
  | _ => True
  end.

Inductive wire_answered : list WireMessage -> Prop :=
| wa_nil : wire_answered []
| wa_plain m l : plain_msg m -> wire_answered l -> wire_answered (m :: l)
| wa_batch content rc calls tools l :
    calls <> [] -> tools <> [] ->
    Forall (fun m => is_tool_msg m = true) tools ->
    (tool_run tools).1 = expected_ids calls ->
    wire_answered l -> wire_answered (WAssistant content rc calls :: tools ++ l).

Lemma wire_answered_head l : wire_answered l -> forall m l', l = m :: l' -> is_tool_msg m = false.
Proof.
  destruct 1 as [|m l Hm _|]; intros m' l' Heq; simplify_eq; try done.
  by destruct m'.
Qed.

Lemma tool_run_app tools l :
  Forall (fun m => is_tool_msg m = true) tools ->
  (forall m l', l = m :: l' -> is_tool_msg m = false) ->
  tool_run (tools ++ l) = ((tool_run tools).1, l).
Proof.
  intros Ht Hl. induction Ht as [|m tools Hm Ht IH]; simpl.
  - destruct l as [|m l]; [done|]. specialize (Hl m l eq_refl). by destruct m.
  - destruct m; try done. rewrite IH. by destruct (tool_run tools).
Qed.

Lemma verify_loop_ok l : wire_answered l -> forall fuel, (length l <= fuel)%nat ->
  verify_loop fuel l = Ok tt.
Proof.
  induction 1 as [|m l Hm Hl IH|content rc calls tools l Hc Hne Ht Hids Hl IH];
    intros fuel Hf.
  - by destruct fuel.
  - destruct fuel; simpl in Hf; [lia|]. simpl.
    destruct m as [| |? ? cs|]; simpl in Hm; try (apply IH; lia).
    rewrite Hm. apply IH. lia.
  - destruct fuel; simpl in Hf; [lia|]. simpl. destruct calls as [|c cs]; [done|].
    rewrite tool_run_app by eauto using wire_answered_head. rewrite Hids. simpl.
    rewrite length_app in *. destruct tools; [done|]. simpl in *.
    rewrite bool_decide_false by lia. rewrite bool_decide_true by done. apply IH. lia.
Qed.

Lemma wire_answered_plain_app a l :
  Forall plain_msg a -> wire_answered l -> wire_answered (a ++ l).
Proof. induction 1; simpl; auto using wire_answered. Qed.

Lemma users_plain ps : Forall plain_msg (map (fun p => WUser (UserText p)) ps).
Proof. induction ps; constructor; simpl; auto. Qed.

Lemma project_plain t :
  calls_of t = [] -> is_result t = false -> Forall plain_msg (project_turn [] t).
Proof.
  destruct t as [|text rs calls u c tr| | | |]; simpl; intros Hc Hr; try done;
    try apply users_plain; try (by constructor).
  subst. constructor; [|constructor]. done.
Qed.

Lemma project_result t :
  is_result t = true ->
  project_turn [] t <> [] /\ Forall (fun m => is_tool_msg m = true) (project_turn [] t)
  /\ (tool_run (project_turn [] t)).1 = {[result_id t]}.
Proof.
  destruct t as [| |id tool r d| | |]; simpl; try done. intros _.
  destruct (Z.leb_spec (escaped_len (render r)) MAX_STRING_ESCAPED) as [Hle|Hgt].
  - split; [done|]. split; [by repeat constructor|]. simpl. set_solver.
  - assert (chunk_by_escaped_len (render r) MAX_STRING_ESCAPED <> []) as Hne.
    { apply chunk_nonempty. intros E. rewrite E in Hgt. done. }
    destruct (chunk_by_escaped_len _ _) as [|k ks]; [done|]. clear Hne Hgt.
    split; [done|]. split.
    + simpl. constructor; [done|]. induction ks; constructor; simpl; auto.
    + simpl. destruct (tool_run (map (WTool id) ks)) as [g rest] eqn:E. simpl.
      assert (g ⊆ {[id]}); [|set_solver]. revert g rest E.
      induction ks as [|k' ks IH]; simpl; intros g rest E.
      * simplify_eq. set_solver.
      * destruct (tool_run (map (WTool id) ks)) as [g' rest'] eqn:E'. simplify_eq.
        specialize (IH _ _ eq_refl). set_solver.
Qed.

Lemma tool_run_app_fst a b :
  Forall (fun m => is_tool_msg m = true) a ->
  (tool_run (a ++ b)).1 = (tool_run a).1 ∪ (tool_run b).1.
Proof.
  induction 1 as [|m a Hm Ha IH]; simpl; [set_solver|]. destruct m; try done.
  destruct (tool_run (a ++ b)) eqn:E1, (tool_run a) eqn:E2. simpl in *. set_solver.
Qed.

Lemma project_results rs :
  Forall (fun r => is_result r = true) rs ->
  Forall (fun m => is_tool_msg m = true) (msgs_of rs)
  /\ (tool_run (msgs_of rs)).1 = list_to_set (map result_id rs)
  /\ (rs <> [] -> msgs_of rs <> []).
Proof.
  induction 1 as [|r rs Hr Hrs (IH1 & IH2 & _)]; [done|].
  destruct (project_result r Hr) as (Hne & Ht & Hid).
  unfold msgs_of in *. cbn [map concat list_to_set foldr]. repeat split.
  - apply list.Forall_app. auto.
  - rewrite tool_run_app_fst by done. rewrite IH2, Hid. done.
  - intros _ E. apply Hne. by apply app_eq_nil in E as [? ?].
Qed.

Lemma expected_wire_calls calls :
  expected_ids (map wire_call calls) = list_to_set (map tc_id calls).
Proof. unfold expected_ids. by rewrite map_map. Qed.

Lemma answered_wire l : answered l -> wire_answered (msgs_of l).
Proof.
  induction 1 as [|t l Hc Hr Hl IH|t rs l Hc Hrs Hids Hl IH].
  - constructor.
  - unfold msgs_of; simpl. apply wire_answered_plain_app; auto using project_plain.
  - change (t :: rs ++ l) with ([t] ++ rs ++ l). rewrite !msgs_of_app.
    destruct (project_results rs Hrs) as (Ht & Hrun & Hne).
    destruct t as [|text r calls u c tr| | | |]; try done. simpl in Hc, Hids |- *.
    apply wa_batch; auto.
    + intros E. by apply map_eq_nil in E.
    + apply Hne. intros ->. destruct calls as [|c0 cs]; [done|]. simpl in Hids. set_solver.
    + by rewrite Hrun, expected_wire_calls.
Qed.

Lemma answered_app a b : answered a -> answered b -> answered (a ++ b).
Proof.
  induction 1 as [|t l Hc Hr Hl IH|t rs l Hc Hrs Hids Hl IH]; intros Hb; simpl;
    [done|auto with sc|]. rewrite <- app_assoc. auto with sc.
Qed.

Lemma answered_drop l n t :
  answered l -> l !! n = Some t -> calls_of t = [] -> is_result t = false -> answered (drop n l).
Proof.
  intros Hl. revert n. induction Hl as [|u l Hc Hr Hl IH|u rs l Hc Hrs Hids Hl IH];
    intros n Hn Ht Htr.
  - done.
  - destruct n as [|n]; simpl in *; auto with sc.
  - destruct n as [|n]; simpl in *; [simplify_eq; congruence|].
    destruct (decide (n < length rs)%nat) as [Hlt|Hge].
    + rewrite lookup_app_l in Hn by done. rewrite list.Forall_lookup in Hrs.
      apply Hrs in Hn. congruence.
    + rewrite lookup_app_r in Hn by lia. rewrite drop_app_ge by lia. by apply IH.
Qed.

Lemma rposition_lookup {A} (p : A -> bool) l n :
  rposition p l = Some n -> exists x, l !! n = Some x /\ p x = true.
Proof.
  intros (a & x & b & -> & <- & Hp & _)%rposition_Some. exists x.
  rewrite list_lookup_middle; auto.
Qed.

Lemma answered_active l : answered l -> answered (drop (active_start l) l).
Proof.
  intros Hl. unfold active_start. destruct (rposition is_compaction l) as [n|] eqn:E; [|done].
  apply rposition_lookup in E as (t & Ht & Hc). simpl.
  apply (answered_drop _ _ t); auto; by destruct t.
Qed.

(** The projection of an answered log is answered on the wire. *)
Lemma project_wire messages sp : answered messages -> wire_answered (project_with messages sp).
Proof.
  intros Ha. apply answered_active, answered_wire in Ha.
  unfold project_with. rewrite fold_project. apply wire_answered_plain_app; [|done].
  destruct (last_goal messages) as [[i g]|]; [|by repeat constructor].
  destruct (_ && _); [|by repeat constructor].
  unfold push_user. apply list.Forall_app. split; [by repeat constructor|apply users_plain].
Qed.

Lemma wire_answered_app a b : wire_answered a -> wire_answered b -> wire_answered (a ++ b).
Proof.
  induction 1 as [|m l Hm Hl IH|content rc calls tools l Hc Hne Ht Hids Hl IH]; intros Hb; simpl;
    [done|by apply wa_plain, IH|]. rewrite <- app_assoc. apply wa_batch; auto.
Qed.

Lemma wire_answered_verify l : wire_answered l -> verify_invariant l = Ok tt.
Proof. intros Hl. by apply verify_loop_ok. Qed.

End ProjectLemmas.
#[export] Hint Resolve answered_app : sc.

(** ** Lemmas: goals and compaction *)

Section CompactionLemmas.
Context `{JsonApi}.

Lemma rposition_app {A} (p : A -> bool) a b :
  rposition p (a ++ b) =
  match rposition p b with
  | Some n => Some (length a + n)%nat
  | None => rposition p a
  end.
Proof.
  induction a as [|x a IH]; simpl; [by destruct (rposition p b)|].
  rewrite IH. by destruct (rposition p b).
Qed.

Lemma active_start_boundary pre text post :
  Forall (fun t => is_compaction t = false) post ->
  active_start (pre ++ TSystemNote NCompaction text :: post) = length pre.
Proof.
  intros Hp. unfold active_start. rewrite rposition_app. simpl.
  apply rposition_None in Hp. rewrite Hp. simpl. lia.
Qed.

Definition goal_text (l : list Turn) : option str :=
  match last_goal l with Some (_, g) => Some g | None => None end.

Lemma last_goal_app pre text post :
  last_goal (pre ++ TSystemNote NCompaction text :: post) =
  match last_goal post with
  | Some (i, g) => Some (length pre + S i, g)%nat
  | None => last_goal pre
  end.
Proof.
  unfold last_goal. rewrite rposition_app. simpl.
  destruct (rposition is_goal post) as [n|] eqn:E; simpl.
  - destruct (rposition_lookup _ _ _ E) as (t & Ht & _). rewrite Ht.
    rewrite lookup_app_r by lia. replace (_ - _)%nat with (S n) by lia. simpl. by rewrite Ht.
  - destruct (rposition is_goal pre) as [n|] eqn:E'; [|done].
    destruct (rposition_lookup _ _ _ E') as (t & Ht & _). rewrite Ht.
    rewrite lookup_app_l; [by rewrite Ht|]. by eapply lookup_lt_Some.
Qed.

Lemma last_goal_index l i g : last_goal l = Some (i, g) -> (i < length l)%nat.
Proof.
  unfold last_goal. destruct (rposition is_goal l) as [n|] eqn:E; [|done].
  destruct (l !! n) eqn:Hn; [|done]. intros [= <- _]. by eapply lookup_lt_Some.
Qed.

(** The messages of a log whose newest compaction marker is in the middle. *)
Lemma project_boundary pre text post sp :
  Forall (fun t => is_compaction t = false) post ->
  project_with (pre ++ TSystemNote NCompaction text :: post) sp =
  (match last_goal post, goal_text pre with
   | None, Some g => if is_nil (trim g) then [WSystem sp]
                     else push_user [WSystem sp] (render_note NGoal g)
   | _, _ => [WSystem sp]
   end) ++ msgs_of (TSystemNote NCompaction text :: post).
Proof.
  intros Hp. unfold project_with. rewrite active_start_boundary, last_goal_app by done.
  rewrite drop_app_length, fold_project. f_equal. unfold goal_text.
  destruct (last_goal post) as [[i g]|]; simpl.
  - by rewrite (proj2 (Nat.ltb_ge _ _)) by lia.
  - destruct (last_goal pre) as [[i g]|] eqn:E; [|done]. apply last_goal_index in E.
    rewrite (proj2 (Nat.ltb_lt _ _)) by done. simpl. by destruct (is_nil (trim g)).
Qed.

(** ** Lemmas: message sizes *)

Definition turn_text (t : Turn) : str :=
  match t with
  | TUser c _ => c
  | TToolResult _ _ r _ => render r
  | TSystemNote k text => render_note k text
  | _ => []
  end.

Definition fits (m : WireMessage) : Prop :=
  match m with
  | WUser (UserText c) => escaped_len c <= MAX_STRING_ESCAPED
  | WTool _ c => escaped_len c <= MAX_STRING_ESCAPED
  | _ => True
  end.

Lemma chunk_fits s max :
  6 <= max -> Forall is_char s ->
  Forall (fun k => k <> [] /\ escaped_len k <= max) (chunk_by_escaped_len s max).
Proof.
  intros Hm Hs. assert (Forall (Forall is_char) (chunk_by_escaped_len s max)) as Hc.
  { apply Forall_concat. unfold chunk_by_escaped_len. by rewrite chunk_loop_concat. }
  pose proof (chunk_loop_bound s max [] [] 0 Hm eq_refl ltac:(lia) ltac:(constructor)) as Hb.
  fold (chunk_by_escaped_len s max) in Hb. revert Hc Hb. generalize (chunk_by_escaped_len s max).
  intros l. induction l as [|k l IH]; intros Hc Hb; constructor.
  - apply list.Forall_cons in Hc as [Hk _], Hb as [[? ?] _]. by rewrite escaped_len_chars.
  - apply list.Forall_cons in Hc as [_ ?], Hb as [_ ?]. auto.
Qed.

Lemma pieces_fit s : Forall is_char s -> Forall (fun k => escaped_len k <= MAX_STRING_ESCAPED) (pieces s).
Proof.
  intros Hs. unfold pieces. destruct (Z.leb_spec (escaped_len s) MAX_STRING_ESCAPED).
  - by repeat constructor.
  - eapply Forall_impl; [|apply chunk_fits; [done|exact Hs]]. by intros k [_ ?].
Qed.

Lemma push_user_fits out s : Forall is_char s -> Forall fits out -> Forall fits (push_user out s).
Proof.
  intros Hs Ho. unfold push_user. apply list.Forall_app. split; [done|].
  apply Forall_map. by apply pieces_fit.
Qed.

Lemma project_turn_fits t : Forall is_char (turn_text t) -> Forall fits (project_turn [] t).
Proof.
  destruct t as [| |id tool r d| | |]; simpl; intros Ht; try (by repeat constructor);
    try (by apply push_user_fits).
  destruct (Z.leb_spec (escaped_len (render r)) MAX_STRING_ESCAPED); [by repeat constructor|].
  apply Forall_map. eapply Forall_impl; [|apply chunk_fits; [done|exact Ht]]. by intros k [_ ?].
Qed.

Lemma msgs_of_fits l : Forall (fun t => Forall is_char (turn_text t)) l -> Forall fits (msgs_of l).
Proof.
  induction 1; [constructor|]. unfold msgs_of; simpl. apply list.Forall_app.
  auto using project_turn_fits.
Qed.

Lemma last_goal_text l i g : last_goal l = Some (i, g) -> exists t, t ∈ l /\ turn_text t = render_note NGoal g.
Proof.
  unfold last_goal. destruct (rposition is_goal l) as [n|] eqn:E; [|done].
  apply rposition_lookup in E as (t & Ht & Hg). rewrite Ht. intros [= <- <-].
  exists t. split; [by eapply list_elem_of_lookup_2|]. destruct t as [| | |k tx| |]; try done.
  by destruct k.
Qed.

End CompactionLemmas.

(** ** Properties *)

Section ProjectProperties.
Context `{JsonApi}.

(** C30: the tool-answer invariant holds for every request built from a log in
    which each assistant turn with tool calls is followed by results for
    exactly its call ids: [verify_invariant] accepts the projection, whatever
    the compaction boundary, the goal re-injection, the splitting of large
    results into several tool messages and the skipped error turns do. *)
Theorem project_answers messages sp :
  answered messages -> verify_invariant (project_with messages sp) = Ok tt.
Proof. intros Ha. by apply wire_answered_verify, project_wire. Qed.

(** the splitter of oversized contents loses nothing and respects the
    gateway's per-message limit: the chunks concatenate to the input, none is
    empty, and each one's escaped length, counted on its UTF-8 bytes, is at
    most [max]. *)
Theorem chunk_by_escaped_len_spec s max :
  6 <= max -> Forall is_char s ->
  concat (chunk_by_escaped_len s max) = s
  /\ Forall (fun k => k <> [] /\ escaped_len k <= max) (chunk_by_escaped_len s max).
Proof.
  intros. split; [|by apply chunk_fits].
  unfold chunk_by_escaped_len. by rewrite chunk_loop_concat.
Qed.

(** every user and tool message of a projected request fits the
    per-message limit. *)
Theorem project_fits messages sp :
  Forall (fun t => Forall is_char (turn_text t)) messages ->
  Forall fits (project_with messages sp).
Proof.
  intros Hm. unfold project_with. rewrite fold_project. apply list.Forall_app. split.
  - destruct (last_goal messages) as [[i g]|] eqn:E; [|by repeat constructor].
    destruct (_ && _); [|by repeat constructor].
    apply last_goal_text in E as (t & Ht & Hg). rewrite list.Forall_forall in Hm.
    apply Hm in Ht. rewrite Hg in Ht. apply push_user_fits; [exact Ht|by repeat constructor].
  - apply msgs_of_fits. by apply Forall_drop.
Qed.

(** a compaction marker is a projection boundary: two histories that agree
    on the newest goal are indistinguishable to the model once the same
    marker and the same later turns follow them. *)
Theorem compaction_forgets pre1 pre2 text post sp :
  Forall (fun t => is_compaction t = false) post ->
  goal_text pre1 = goal_text pre2 ->
  project_with (pre1 ++ TSystemNote NCompaction text :: post) sp
  = project_with (pre2 ++ TSystemNote NCompaction text :: post) sp.
Proof. intros Hp Hg. rewrite !project_boundary by done. by rewrite Hg. Qed.

(** C38: replayed tool-call arguments are always a JSON object: a valid object
    is kept byte for byte and anything else (a truncated stream, a scalar) is
    replaced by an object. *)
Theorem safe_tool_arguments_object `{!JsonLaws} (arguments : str) :
  exists v, j_parse (safe_tool_arguments arguments) = Some v /\ j_is_object v = true
  /\ (safe_tool_arguments arguments = arguments
      \/ forall w, j_parse arguments = Some w -> j_is_object w = false).
Proof.
  unfold safe_tool_arguments. destruct (j_parse arguments) as [w|] eqn:E.
  - destruct (j_is_object w) eqn:Ho; [by exists w; eauto|].
    eexists. rewrite j_parse_print. split; [done|]. split; [apply j_obj_is_object|].
    right. intros ? [= <-]. done.
  - eexists. rewrite j_parse_print. split; [done|]. split; [apply j_obj_is_object|]. by right.
Qed.

End ProjectProperties.

(** ** Witnesses *)

Definition sample_call : ToolCall := mk_tool_call (lit "c1") (lit "Read") (lit "{}").
Definition sample_log : list Turn :=
  [ TUser (lit "hi") 0;
    TAssistant (lit "") None [sample_call] None None None;
    TToolResult (lit "c1") (lit "Read") (ROk (lit "data") false) 3;
    TAssistant (lit "done") None [] None None None ].

Lemma sample_log_answered : answered sample_log.
Proof.
  apply answered_plain; [done|done|].
  apply (answered_batch _ [TToolResult (lit "c1") (lit "Read") (ROk (lit "data") false) 3]
           [TAssistant (lit "done") None [] None None None]); [done|by repeat constructor|done|].
  apply answered_plain; [done|done|constructor].
Defined.

Lemma project_answers_witness :
  verify_invariant (project_with (H := Tree.tree_json) sample_log (lit "p")) = Ok tt.
Proof. exact (@project_answers Tree.tree_json sample_log (lit "p") sample_log_answered). Defined.

Lemma chunk_by_escaped_len_spec_witness :
  concat (chunk_by_escaped_len (lit "abcdefgh") 6) = lit "abcdefgh"
  /\ length (chunk_by_escaped_len (lit "abcdefgh") 6) = 2%nat.
Proof.
  split; [|reflexivity].
  apply (chunk_by_escaped_len_spec (lit "abcdefgh") 6).
  - lia.
  - repeat constructor; unfold is_char; lia.
Defined.

Lemma project_fits_witness :
  Forall fits (project_with (H := Tree.tree_json) sample_log (lit "p")).
Proof.
  apply (@project_fits Tree.tree_json sample_log (lit "p")).
  repeat constructor; cbn; unfold is_char; lia.
Defined.

Lemma compaction_forgets_witness :
  let post := [TUser (lit "next") 0] in
  project_with (H := Tree.tree_json) (sample_log ++ TSystemNote NCompaction (lit "s") :: post) (lit "p")
  = project_with (H := Tree.tree_json) ([] ++ TSystemNote NCompaction (lit "s") :: post) (lit "p").
Proof.
  apply (@compaction_forgets Tree.tree_json sample_log [] (lit "s") [TUser (lit "next") 0] (lit "p")).
  - by repeat constructor.
  - reflexivity.
Defined.

Lemma safe_tool_arguments_object_witness :
  exists v, @j_parse Tree.tree_json (safe_tool_arguments (H := Tree.tree_json) (lit "{cut")) = Some v
            /\ @j_is_object Tree.tree_json v = true.
Proof.
  destruct (@safe_tool_arguments_object Tree.tree_json Tree.tree_json_laws (lit "{cut"))
    as (v & Hp & Ho & _). by exists v.
Defined.
