(* ===== verification/Journal.v ===== *)
(** Read registry, rewind journal and [/rewind]
    (src/crates/rc-core/src/state.rs, src/crates/rc-session/src/rewind.rs).

    The file system is a map from paths to contents plus a predicate saying
    which paths the process may write; directories are not modelled.  The
    JSONL journal file is the list of its lines, a malformed line being
    [None].  BLAKE3 is a parameter. *)

From S2P Require Import Prelude.

(** ** Read registry *)

Record ReadRegistry := mk_registry { rr_entries : gmap str (Z * str) }.

Definition registry_new : ReadRegistry := mk_registry ∅.
Definition registry_record (r : ReadRegistry) (path : str) (mtime : Z) (hash : str) : ReadRegistry :=
  mk_registry (<[path := (mtime, hash)]> (rr_entries r)).
Definition has_read (r : ReadRegistry) (path : str) : bool :=
  bool_decide (is_Some (rr_entries r !! path)).
Definition registry_get (r : ReadRegistry) (path : str) : option (Z * str) := rr_entries r !! path.

(** ** Journal data *)

Inductive FileSnapshot :=
| Cas (path : str) (len : Z)
| Inline (bytes : list Z).

Record ChangeRecord := mk_record {
  cr_path : str;
  cr_prior : option FileSnapshot;
  cr_turn : Z
}.

Inductive DurableJournalEntry :=
| ETurn (turn : Z)
| EChange (path : str) (prior_exists : bool) (digest : option str) (len : option Z) (turn : Z).

Inductive ChangeStorage :=
| Temporary (dir : option str)
| Durable (root journal : str).

Record ChangeJournal := mk_journal {
  cj_records : list ChangeRecord;
  cj_turn : Z;
  cj_storage : ChangeStorage
}.

(** The host: file contents, the lines of the journal file, and which paths
    can be written. *)
Record Host := mk_host {
  h_files : gmap str (list Z);
  h_lines : list (option DurableJournalEntry);
  h_writable : str -> bool
}.

(** [Path::join] of a relative name, and [Path::file_name]. *)
Definition path_join (dir name : str) : str := dir ++ lit "/" ++ name.
Fixpoint after_last_slash (p acc : str) : str :=
  match p with
  | [] => acc
  | c :: p' => if c =? 47 then after_last_slash p' [] else after_last_slash p' (acc ++ [c])
  end.
Definition file_name (p : str) : str := after_last_slash p [].

Section Journal.
(** [blake3::hash(..).to_hex()]. *)
Variable digest_hex : list Z -> str.

(** ** Journal operations *)

Definition write_file (h : Host) (p : str) (b : list Z) : option Host :=
  if h_writable h p then Some (mk_host (<[p := b]> (h_files h)) (h_lines h) (h_writable h))
  else None.

Definition storage_dir (s : ChangeStorage) : option str :=
  match s with
  | Temporary d => d
  | Durable root _ => Some (path_join root (lit "blobs"))
  end.

(** [store_snapshot]: an existing blob is trusted, then its length is checked;
    any failure falls back to an inline copy. *)
Definition store_snapshot (j : ChangeJournal) (h : Host) (bytes : list Z) : FileSnapshot * Host :=
  match storage_dir (cj_storage j) with
  | None => (Inline bytes, h)
  | Some directory =>
      let path := path_join directory (digest_hex bytes) in
      let '(ok, h) :=
        match h_files h !! path with
        | Some _ => (true, h)
        | None => match write_file h path bytes with
                  | Some h' => (true, h')
                  | None => (false, h)
                  end
        end in
      let ok := ok && match h_files h !! path with
                      | Some b => length_z b =? length_z bytes
                      | None => false
                      end in
      (if ok then Cas path (length_z bytes) else Inline bytes, h)
  end.

(** [append_durable]: a failed append is only logged. *)
Definition append_durable (j : ChangeJournal) (h : Host) (e : DurableJournalEntry) : Host :=
  match cj_storage j with
  | Durable _ journal =>
      if h_writable h journal
      then mk_host (h_files h) (h_lines h ++ [Some e]) (h_writable h) else h
  | Temporary _ => h
  end.

Definition snapshot_reference (s : option FileSnapshot) : option str * option Z :=
  match s with
  | Some (Cas path len) => (Some (file_name path), Some len)
  | _ => (None, None)
  end.

Definition entry_of_record (r : ChangeRecord) : DurableJournalEntry :=
  let '(digest, len) := snapshot_reference (cr_prior r) in
  EChange (cr_path r) (bool_decide (is_Some (cr_prior r))) digest len (cr_turn r).

(** [rewrite_durable]: the file becomes the current turn followed by the
    remaining records (written to a temporary file and renamed). *)
Definition rewrite_durable (j : ChangeJournal) (h : Host) : Host :=
  match cj_storage j with
  | Durable _ journal =>
      if h_writable h journal
      then mk_host (h_files h)
             (Some (ETurn (cj_turn j)) :: map (fun r => Some (entry_of_record r)) (cj_records j))
             (h_writable h)
      else h
  | Temporary _ => h
  end.

(** [advance_turn]. *)
Definition advance_turn (j : ChangeJournal) (h : Host) : ChangeJournal * Host :=
  let j := mk_journal (cj_records j) (cj_turn j + 1) (cj_storage j) in
  (j, append_durable j h (ETurn (cj_turn j))).

(** [record]. *)
Definition record (j : ChangeJournal) (h : Host) (path : str) (prior : option (list Z))
  : ChangeJournal * Host :=
  let prior_exists := bool_decide (is_Some prior) in
  let '(prior, h) := match prior with
                     | Some bytes => let '(s, h) := store_snapshot j h bytes in (Some s, h)
                     | None => (None, h)
                     end in
  let r := mk_record path prior (cj_turn j) in
  let '(digest, len) := snapshot_reference (cr_prior r) in
  let h := append_durable j h (EChange path prior_exists digest len (cj_turn j)) in
  (mk_journal (cj_records j ++ [r]) (cj_turn j) (cj_storage j), h).

(** [rewind]; the journal turn is a [u64]. *)
Definition rewind (j : ChangeJournal) (h : Host) (n : Z) : list ChangeRecord * ChangeJournal * Host :=
  if (n =? 0) || is_nil (cj_records j) then ([], j, h)
  else
    let earliest := sat_sub (cj_turn j) n + 1 in
    let taken := filter (fun r => earliest <= cr_turn r) (cj_records j) in
    let keep := filter (fun r => ~ earliest <= cr_turn r) (cj_records j) in
    let j' := mk_journal keep (sat_sub (cj_turn j) n) (cj_storage j) in
    (rev taken, j', rewrite_durable j' h).

(** [durable]: reload.  The loop state is the records and the turn; a
    malformed line ends the scan. *)
Fixpoint load_lines (blobs : str) (lines : list (option DurableJournalEntry))
  (records : list ChangeRecord) (turn : Z) : list ChangeRecord * Z :=
  match lines with
  | [] => (records, turn)
  | None :: _ => (records, turn)
  | Some (ETurn saved) :: rest => load_lines blobs rest records saved
  | Some (EChange path prior_exists digest len record_turn) :: rest =>
      let turn := Z.max turn record_turn in
      let prior := match digest, len with
                   | Some d, Some n => Some (Cas (path_join blobs d) n)
                   | _, _ => None
                   end in
      if prior_exists && negb (bool_decide (is_Some prior))
      then load_lines blobs rest records turn
      else load_lines blobs rest (records ++ [mk_record path prior record_turn]) turn
  end.

Definition durable (root : str) (h : Host) : ChangeJournal :=
  let '(records, turn) := load_lines (path_join root (lit "blobs")) (h_lines h) [] 0 in
  mk_journal records turn (Durable root (path_join root (lit "rewind.jsonl"))).

(** ** Restoring files *)

(** [FileSnapshot::read]. *)
Definition snapshot_read (h : Host) (s : FileSnapshot) : option (list Z) :=
  match s with
  | Cas path len =>
      match h_files h !! path with
      | Some b => if length_z b =? len then Some b else None
      | None => None
      end
  | Inline bytes => Some bytes
  end.

Definition remove_file (h : Host) (p : str) : option Host :=
  match h_files h !! p with
  | Some _ => if h_writable h p
              then Some (mk_host (delete p (h_files h)) (h_lines h) (h_writable h)) else None
  | None => None
  end.

Definition restore_one (h : Host) (r : ChangeRecord) : Host * list str :=
  match cr_prior r with
  | Some snapshot =>
      match snapshot_read h snapshot with
      | Some bytes => match write_file h (cr_path r) bytes with
                      | Some h' => (h', [cr_path r])
                      | None => (h, [])
                      end
      | None => (h, [])
      end
  | None =>
      match remove_file h (cr_path r) with
      | Some h' => (h', [cr_path r])
      | None => match h_files h !! cr_path r with
                | None => (h, [cr_path r])
                | Some _ => (h, [])
                end
      end
  end.

(** [restore_files]: failures are skipped, the restored paths collected. *)
Fixpoint restore_files (h : Host) (records : list ChangeRecord) : Host * list str :=
  match records with
  | [] => (h, [])
  | r :: rest =>
      let '(h, p) := restore_one h r in
      let '(h, ps) := restore_files h rest in
      (h, p ++ ps)
  end.

(** [rewind_session]: the journal, the host and the report. *)
Definition rewind_session (j : ChangeJournal) (h : Host) (n : Z)
  : ChangeJournal * Host * (list str * Z) :=
  let '(records, j, h) := rewind j h n in
  if is_nil records then (j, h, ([], n))
  else let '(h, restored) := restore_files h records in (j, h, (restored, n)).

End Journal.

(** ** Lemmas: undoing recorded writes *)

(** What the agent's file tools do between two points: start a turn, or write
    a file after journaling its prior contents. *)
Inductive FileOp := OpTurn | OpWrite (p : str) (b : list Z).

Section Undo.
Variable digest_hex : list Z -> str.
(** The paths the agent edits, and the contents that occur. *)
Variable user : str -> Prop.
Variable K : list Z -> Prop.

Definition exec_op (s : ChangeJournal * Host) (op : FileOp) : ChangeJournal * Host :=
  let '(j, h) := s in
  match op with
  | OpTurn => advance_turn j h
  | OpWrite p b =>
      let '(j, h) := record digest_hex j h p (h_files h !! p) in
      (j, default h (write_file h p b))
  end.
Definition exec (s : ChangeJournal * Host) (ops : list FileOp) : ChangeJournal * Host :=
  fold_left exec_op ops s.

Definition op_ok (op : FileOp) : Prop :=
  match op with OpTurn => True | OpWrite p b => user p /\ K b end.
Definition turns_of (ops : list FileOp) : Z :=
  foldr (fun op n => match op with OpTurn => n + 1 | _ => n end) 0 ops.

(** [blob s b] is where a snapshot of [b] is stored. *)
Definition blob (s : ChangeStorage) (b : list Z) : option str :=
  match storage_dir s with Some d => Some (path_join d (digest_hex b)) | None => None end.

(** The digest separates the contents that occur, and blob files are not
    user files. *)
Definition digests_ok (s : ChangeStorage) : Prop :=
  (forall a b, K a -> K b -> digest_hex a = digest_hex b -> a = b)
  /\ (forall b p, blob s b = Some p -> ~ user p).

Record good (s : ChangeStorage) (h : Host) : Prop := mk_good {
  good_writable : forall p, user p -> h_writable h p = true;
  good_contents : forall p c, user p -> h_files h !! p = Some c -> K c;
  good_blobs : forall b p c, K b -> blob s b = Some p -> h_files h !! p = Some c -> c = b
}.

Definition same_user (h g : Host) : Prop := forall p, user p -> h_files g !! p = h_files h !! p.
Definition blobs_kept (s : ChangeStorage) (h g : Host) : Prop :=
  forall b p c, K b -> blob s b = Some p -> h_files h !! p = Some c -> h_files g !! p = Some c.

Lemma store_snapshot_spec j h b s' h' :
  digests_ok (cj_storage j) -> good (cj_storage j) h -> K b ->
  store_snapshot digest_hex j h b = (s', h') ->
  good (cj_storage j) h' /\ same_user h h' /\ blobs_kept (cj_storage j) h h'
  /\ (forall g, blobs_kept (cj_storage j) h' g -> snapshot_read g s' = Some b).
Proof.
  intros [Hinj Hdis] Hg Hb. unfold store_snapshot.
  pose proof (fun p => Hdis b p) as Hdb. unfold blob in *.
  destruct (storage_dir (cj_storage j)) as [d|] eqn:Ed.
  2:{ intros [= <- <-]. repeat split; try apply Hg; by intros ????. }
  specialize (Hdb _ eq_refl). set (p := path_join d (digest_hex b)) in *.
  assert (forall g, blobs_kept (cj_storage j) h g -> h_files h !! p = Some b ->
            h_files g !! p = Some b) as Hkeep.
  { intros g Hk. apply (Hk b); auto. unfold blob. by rewrite Ed. }
  destruct (h_files h !! p) as [c|] eqn:Ep.
  { assert (c = b) as ->.
    { apply (good_blobs _ _ Hg b p); auto. unfold blob. by rewrite Ed. }
    rewrite Ep. unfold length_z. rewrite Z.eqb_refl. intros [= <- <-].
    split; [done|]. split; [by intros ??|]. split; [by intros ????|].
    intros g Hk. simpl. rewrite (Hkeep g Hk eq_refl). unfold length_z. by rewrite Z.eqb_refl. }
  unfold write_file. destruct (h_writable h p) eqn:Ew; simpl.
  - rewrite lookup_insert_eq. unfold length_z. rewrite Z.eqb_refl. intros [= <- <-].
    split; [|split; [|split]].
    + destruct Hg as [G1 G2 G3]. constructor; simpl; auto.
      * intros q c Hq Hl. rewrite lookup_insert_ne in Hl by (by intros <-). eauto.
      * intros b' q c Hb' Hq Hl. unfold blob in Hq. rewrite Ed in Hq. simplify_eq.
        destruct (decide (digest_hex b' = digest_hex b)) as [Heq|Hne].
        -- assert (b' = b) as -> by auto. fold p in Hl. rewrite lookup_insert_eq in Hl. by simplify_eq.
        -- rewrite lookup_insert_ne in Hl.
           2:{ unfold p, path_join. intros E. apply app_inv_head, app_inv_head in E. congruence. }
           eapply G3; eauto. unfold blob. by rewrite Ed.
    + intros q Hq. simpl. by rewrite lookup_insert_ne by (by intros <-).
    + intros b' q c Hb' Hq Hl. simpl. rewrite lookup_insert_ne by (intros <-; congruence). done.
    + intros g Hk. simpl.
      assert (h_files g !! p = Some b) as ->.
      { apply (Hk b); auto; [unfold blob; by rewrite Ed|]. simpl. apply lookup_insert_eq. }
      unfold length_z. by rewrite Z.eqb_refl.
  - intros [= <- <-]. split; [done|]. split; [by intros ??|]. split; [by intros ????|]. done.
Qed.

Lemma restore_app h a b :
  (restore_files h (a ++ b)).1 = (restore_files (restore_files h a).1 b).1.
Proof.
  revert h. induction a as [|r a IH]; intros h; simpl; [done|].
  destruct (restore_one h r) as [h1 p1]. specialize (IH h1).
  destruct (restore_files h1 (a ++ b)), (restore_files h1 a). done.
Qed.

Lemma same_user_trans a b c : same_user a b -> same_user b c -> same_user a c.
Proof. intros H1 H2 p Hp. by rewrite H2, H1. Qed.

Lemma append_durable_files j h e : h_files (append_durable j h e) = h_files h.
Proof. unfold append_durable. destruct (cj_storage j); [done|]. by destruct (h_writable h _). Qed.
Lemma append_durable_writable j h e : h_writable (append_durable j h e) = h_writable h.
Proof. unfold append_durable. destruct (cj_storage j); [done|]. by destruct (h_writable h _). Qed.

Lemma good_files s h g :
  h_files g = h_files h -> h_writable g = h_writable h -> good s h -> good s g.
Proof. intros Hf Hw [G1 G2 G3]. constructor; rewrite ?Hf, ?Hw; auto. Qed.

(** What a journaled prior remembers about a path of [h]. *)
Definition remembers (s : ChangeStorage) (h h1 : Host) (p : str) (prior : option FileSnapshot) : Prop :=
  match prior with
  | Some sn => exists c, h_files h !! p = Some c
                 /\ forall g, blobs_kept s h1 g -> snapshot_read g sn = Some c
  | None => h_files h !! p = None
  end.

Definition take_prior (j : ChangeJournal) (h : Host) (prior : option (list Z)) : option FileSnapshot * Host :=
  match prior with
  | Some bytes => let '(s, h) := store_snapshot digest_hex j h bytes in (Some s, h)
  | None => (None, h)
  end.

Lemma take_prior_spec j h p prior h1 :
  digests_ok (cj_storage j) -> good (cj_storage j) h -> user p ->
  take_prior j h (h_files h !! p) = (prior, h1) ->
  good (cj_storage j) h1 /\ same_user h h1 /\ blobs_kept (cj_storage j) h h1
  /\ remembers (cj_storage j) h h1 p prior.
Proof.
  intros Hd Hg Hp. unfold take_prior, remembers. destruct (h_files h !! p) as [c|] eqn:Ec.
  - destruct (store_snapshot digest_hex j h c) as [sn h0] eqn:Es. intros [= <- <-].
    apply store_snapshot_spec in Es as (? & ? & ? & ?); auto; [|by eapply good_contents].
    do 3 (split; [done|]). by exists c.
  - intros [= <- <-]. split; [done|]. split; [by intros ??|]. split; [by intros ????|done].
Qed.

(** Writing a user path changes no blob and keeps the host good. *)
Lemma put_user s h p b f :
  digests_ok s -> good s h -> user p -> K b ->
  f = <[p := b]> (h_files h) \/ f = delete p (h_files h) ->
  forall lines, let g := mk_host f lines (h_writable h) in
  good s g /\ blobs_kept s h g /\ (forall q, q <> p -> h_files g !! q = h_files h !! q).
Proof.
  intros Hd Hg Hp Hb Hf lines g.
  assert (forall q, q <> p -> f !! q = h_files h !! q) as Hq.
  { intros q Hne. destruct Hf as [->| ->]; [by rewrite lookup_insert_ne|by rewrite lookup_delete_ne]. }
  assert (forall b' q, blob s b' = Some q -> q <> p) as Hbl.
  { intros b' q E ->. by apply (proj2 Hd) in E. }
  split; [|split; [|done]].
  - destruct Hg as [G1 G2 G3]. constructor; cbn [h_files h_writable g]; auto.
    + intros q c Hu Hl. destruct (decide (q = p)) as [->|]; [|rewrite Hq in Hl by done; eauto].
      destruct Hf as [->| ->]; [rewrite lookup_insert_eq in Hl; congruence|].
      by rewrite lookup_delete_eq in Hl.
    + intros b' q c Hb' E Hl. rewrite Hq in Hl by eauto. eauto.
  - intros b' q c Hb' E Hl. cbn [h_files g]. rewrite Hq by eauto. done.
Qed.

(** Restoring the record of a write of [p] on a host that agrees with the one
    after the write brings the earlier contents back. *)
Lemma restore_one_undo s h h1 g r p :
  digests_ok s -> good s h -> good s g -> user p -> cr_path r = p ->
  remembers s h h1 p (cr_prior r) -> blobs_kept s h1 g ->
  (forall q, user q -> q <> p -> h_files g !! q = h_files h !! q) ->
  let g' := (restore_one g r).1 in
  same_user h g' /\ blobs_kept s g g' /\ good s g'.
Proof.
  intros Hd Hh Hg Hp Hr Hrem Hk Hother. unfold restore_one, remembers in *. rewrite Hr.
  assert (h_writable g p = true) as Hw by (by apply (good_writable _ _ Hg)).
  destruct (cr_prior r) as [sn|].
  - destruct Hrem as (c & Hc & Hread). rewrite (Hread g Hk). unfold write_file. rewrite Hw. simpl.
    destruct (put_user s g p c _ Hd Hg Hp (good_contents _ _ Hh _ _ Hp Hc) (or_introl eq_refl)
                (h_lines g)) as (H1 & H2 & H3).
    split; [|done]. intros q Hq. destruct (decide (q = p)) as [->|Hne].
    + simpl. by rewrite lookup_insert_eq.
    + rewrite H3 by done. auto.
  - unfold remove_file. destruct (h_files g !! p) as [c|] eqn:Ec.
    + rewrite Hw. simpl.
      destruct (put_user s g p c _ Hd Hg Hp (good_contents _ _ Hg _ _ Hp Ec) (or_intror eq_refl)
                  (h_lines g)) as (H1 & H2 & H3).
      split; [|done]. intros q Hq. destruct (decide (q = p)) as [->|Hne].
      * simpl. by rewrite lookup_delete_eq.
      * rewrite H3 by done. auto.
    + simpl. split; [|split; [by intros ????|done]]. intros q Hq.
      destruct (decide (q = p)) as [->|Hne]; [congruence|]. auto.
Qed.

(** One journaled write: the journal grows by one record of the current turn,
    and restoring that record undoes the write. *)
Lemma exec_write j h p b j' h' :
  digests_ok (cj_storage j) -> good (cj_storage j) h -> user p -> K b ->
  exec_op (j, h) (OpWrite p b) = (j', h') ->
  exists r, cj_records j' = cj_records j ++ [r] /\ cr_turn r = cj_turn j
   /\ cj_turn j' = cj_turn j /\ cj_storage j' = cj_storage j
   /\ good (cj_storage j) h' /\ blobs_kept (cj_storage j) h h'
   /\ forall g, good (cj_storage j) g -> same_user h' g -> blobs_kept (cj_storage j) h' g ->
        same_user h (restore_one g r).1 /\ blobs_kept (cj_storage j) g (restore_one g r).1
        /\ good (cj_storage j) (restore_one g r).1.
Proof.
  intros Hd Hg Hp Hb. unfold exec_op, record.
  fold (take_prior j h (h_files h !! p)).
  destruct (take_prior j h (h_files h !! p)) as [prior h1] eqn:E.
  destruct (take_prior_spec _ _ _ _ _ Hd Hg Hp E) as (Hg1 & Hs1 & Hk1 & Hrem).
  set (r := mk_record p prior (cj_turn j)). destruct (snapshot_reference (cr_prior r)) as [dg ln].
  set (h2 := append_durable j h1 _).
  assert (h_files h2 = h_files h1) as Hf2 by apply append_durable_files.
  assert (h_writable h2 = h_writable h1) as Hw2 by apply append_durable_writable.
  unfold write_file. rewrite Hw2, (good_writable _ _ Hg1 p Hp), Hf2. cbn [default].
  intros [= <- <-]. exists r. do 4 (split; [done|]).
  destruct (put_user _ h1 p b _ Hd Hg1 Hp Hb (or_introl eq_refl) (h_lines h2)) as (Hg3 & Hk3 & Ho3).
  split; [done|]. split; [intros b' q c ???; eauto|].
  intros g Hgg Hsg Hkg.
  eapply (restore_one_undo _ h h1 g r p); auto.
  - intros b' q c ???. eauto.
  - intros q Hq Hne. rewrite (Hsg q Hq), Ho3 by done. auto.
Qed.

(** Any run of journaled operations is undone by restoring its records newest
    first. *)
Lemma exec_undo ops : forall j h j' h',
  digests_ok (cj_storage j) -> good (cj_storage j) h -> Forall op_ok ops ->
  exec (j, h) ops = (j', h') ->
  exists rs, cj_records j' = cj_records j ++ rs
   /\ Forall (fun r => cj_turn j <= cr_turn r) rs
   /\ cj_turn j' = cj_turn j + turns_of ops /\ cj_storage j' = cj_storage j
   /\ good (cj_storage j) h' /\ blobs_kept (cj_storage j) h h'
   /\ forall g, good (cj_storage j) g -> same_user h' g -> blobs_kept (cj_storage j) h' g ->
        same_user h (restore_files g (rev rs)).1
        /\ blobs_kept (cj_storage j) g (restore_files g (rev rs)).1
        /\ good (cj_storage j) (restore_files g (rev rs)).1.
Proof.
  induction ops as [|op ops IH]; intros j h j' h' Hd Hg Hops.
  - intros [= <- <-]. exists []. rewrite app_nil_r. simpl. rewrite Z.add_0_r.
    do 5 (split; [done|]). split; [by intros ????|].
    intros g Hgg Hs Hk. split; [done|]. split; [by intros ????|done].
  - apply list.Forall_cons in Hops as [Hop Hops]. cbn [exec fold_left turns_of foldr].
    destruct op as [|p b].
    + simpl. unfold advance_turn. set (j1 := mk_journal _ _ _). set (h1 := append_durable _ _ _).
      assert (good (cj_storage j) h1) as Hg1.
      { eapply good_files; [apply append_durable_files|apply append_durable_writable|done]. }
      intros E. destruct (IH j1 h1 j' h' Hd Hg1 Hops E) as (rs & Hr & Ht & Hn & Hst & Hg' & Hk & Hu).
      exists rs. simpl in *. split; [done|]. split.
      { eapply Forall_impl; [|exact Ht]. simpl. intros; lia. }
      split; [unfold turns_of in *; lia|]. do 2 (split; [done|]).
      assert (h_files h1 = h_files h) as Hf by apply append_durable_files.
      split; [intros b q c ??; rewrite <- Hf; eauto|].
      intros g ???. destruct (Hu g) as (U1 & U2 & U3); auto. split; [|done].
      intros q Hq. rewrite <- Hf. auto.
    + destruct Hop as [Hp Hb]. destruct (exec_op (j, h) (OpWrite p b)) as [j1 h1] eqn:E1.
      destruct (exec_write _ _ _ _ _ _ Hd Hg Hp Hb E1)
        as (r & Hr1 & Htr & Ht1 & Hs1 & Hg1 & Hk1 & Hu1).
      intros E. rewrite <- Hs1 in Hd, Hg1.
      destruct (IH j1 h1 j' h' Hd Hg1 Hops E) as (rs & Hr & Ht & Hn & Hst & Hg' & Hk & Hu).
      rewrite Hs1 in *. exists (r :: rs). rewrite Hr, Hr1, <- app_assoc, Ht1 in *.
      split; [done|]. split; [constructor; [lia|done]|]. do 3 (split; [done|]).
      split; [intros b' q c ???; eauto|]. intros g Hgg Hsg Hkg.
      cbn [rev]. rewrite restore_app. destruct (Hu g) as (U1 & U2 & U3); auto.
      set (g1 := (restore_files g (rev rs)).1) in *.
      destruct (Hu1 g1) as (V1 & V2 & V3); auto; [intros b' q c ???; eauto|].
      simpl. destruct (restore_one g1 r) as [g2 ps]. simpl in *.
      split; [done|]. split; [intros b' q c ???; eauto|done].
Qed.

End Undo.

(** ** Lemmas: rewinding *)

Section RewindProperties.
Variable digest_hex : list Z -> str.
Variable user : str -> Prop.
Variable K : list Z -> Prop.

Lemma filter_window (old new : list ChangeRecord) t :
  Forall (fun r => cr_turn r <= t) old -> Forall (fun r => t + 1 <= cr_turn r) new ->
  filter (fun r => t + 1 <= cr_turn r) (old ++ new) = new
  /\ filter (fun r => ~ t + 1 <= cr_turn r) (old ++ new) = old.
Proof.
  intros Ho Hn. rewrite !list.filter_app. split.
  - replace (filter _ old) with (@nil ChangeRecord).
    + simpl. induction Hn; [done|]. rewrite filter_cons_True by done. by f_equal.
    + induction Ho; [done|]. rewrite filter_cons_False by lia. done.
  - replace (filter _ new) with (@nil ChangeRecord).
    + rewrite app_nil_r. induction Ho; [done|]. rewrite filter_cons_True by lia. by f_equal.
    + induction Hn; [done|]. rewrite filter_cons_False by lia. done.
Qed.

(** Rewinding as many turns as were run. *)
Lemma rewind_exec j0 h0 ops n :
  digests_ok digest_hex user K (cj_storage j0) -> good digest_hex user K (cj_storage j0) h0 ->
  Forall (op_ok user K) ops -> n = turns_of (OpTurn :: ops) ->
  0 <= cj_turn j0 -> Forall (fun r => cr_turn r <= cj_turn j0) (cj_records j0) ->
  let '(j2, h2) := exec digest_hex (j0, h0) (OpTurn :: ops) in
  let '(j3, h3, report) := rewind_session j2 h2 n in
  (forall p, user p -> h_files h3 !! p = h_files h0 !! p)
  /\ cj_records j3 = cj_records j0
  /\ (cj_records j2 <> [] -> cj_turn j3 = cj_turn j0).
Proof.
  intros Hd Hg Hops -> Ht Hold. destruct (exec digest_hex (j0, h0) (OpTurn :: ops)) as [j2 h2] eqn:E.
  cbn [exec fold_left] in E. unfold exec_op at 2, advance_turn in E.
  set (j1 := mk_journal _ _ _) in E. set (h1 := append_durable _ _ _) in E.
  assert (h_files h1 = h_files h0) as Hf by apply append_durable_files.
  assert (good digest_hex user K (cj_storage j1) h1) as Hg1.
  { eapply good_files; [exact Hf|apply append_durable_writable|exact Hg]. }
  destruct (exec_undo digest_hex user K ops j1 h1 j2 h2 Hd Hg1 Hops E)
    as (rs & Hr & Hrt & Htn & Hst & Hg2 & _ & Hu).
  assert (0 <= turns_of ops).
  { clear. induction ops as [|[|? ?] ops IH]; simpl; unfold turns_of in *; lia. }
  assert (turns_of (OpTurn :: ops) = turns_of ops + 1) as Hn by done.
  destruct (filter_window (cj_records j0) rs (cj_turn j0) Hold) as [F1 F2]; [done|].
  unfold rewind_session, rewind. rewrite Hn, Htn, Hr. simpl (cj_records j1). simpl (cj_turn j1) in *.
  replace (turns_of ops + 1 =? 0) with false by lia.
  unfold sat_sub. replace (Z.max 0 _) with (cj_turn j0) by lia. rewrite F1, F2.
  destruct (Hu h2 Hg2) as (Hu2 & _); [by intros ??|by intros ????|].
  simpl orb. destruct (is_nil (cj_records j0 ++ rs)) eqn:En.
  - destruct (cj_records j0 ++ rs) eqn:El; [|done]. apply app_eq_nil in El as [El ->].
    cbn [is_nil]. rewrite Hr. simpl. split; [|by rewrite El].
    intros p Hp. rewrite <- Hf. by apply Hu2.
  - cbn [h_files]. set (j3 := mk_journal _ _ _). set (h3 := rewrite_durable j3 h2).
    assert (h_files h3 = h_files h2) as Hf3.
    { unfold h3, rewrite_durable. destruct (cj_storage j3); [done|]. by destruct (h_writable _ _). }
    assert (h_writable h3 = h_writable h2) as Hw3.
    { unfold h3, rewrite_durable. destruct (cj_storage j3); [done|]. by destruct (h_writable _ _). }
    destruct (Hu h3) as (Hu3 & _).
    { eapply good_files; [exact Hf3|exact Hw3|exact Hg2]. }
    { intros q Hq. by rewrite Hf3. } { intros b q c ???. by rewrite Hf3. }
    destruct (is_nil (rev rs)) eqn:Er.
    + destruct (rev rs) as [|r0 rs0] eqn:Erev; [|done]. split; [|done].
      intros p Hp. rewrite Hf3, <- Hf. by apply Hu2.
    + destruct (restore_files h3 (rev rs)) as [h4 ps] eqn:E4. split; [|done].
      intros p Hp. rewrite <- Hf. by apply Hu3.
Qed.

(** [/rewind n] undoes the last [n] turns.  Take any journal and host, let
    the agent run [n] turns of journaled writes ([ops], starting with the
    turn marker), then rewind by [n]: every file the agent may edit has its
    contents from before those turns (created files are gone, overwritten
    ones are back, whatever number of times each was written), and the
    journal holds the same records as before them. *)
Theorem rewind_restores j0 h0 ops n :
  digests_ok digest_hex user K (cj_storage j0) -> good digest_hex user K (cj_storage j0) h0 ->
  Forall (op_ok user K) ops -> n = turns_of (OpTurn :: ops) ->
  0 <= cj_turn j0 -> Forall (fun r => cr_turn r <= cj_turn j0) (cj_records j0) ->
  let '(j2, h2) := exec digest_hex (j0, h0) (OpTurn :: ops) in
  let '(j3, h3, report) := rewind_session j2 h2 n in
  (forall p, user p -> h_files h3 !! p = h_files h0 !! p)
  /\ cj_records j3 = cj_records j0
  /\ (cj_records j2 <> [] -> cj_turn j3 = cj_turn j0).
Proof. apply rewind_exec. Qed.

End RewindProperties.

(** The journal in memory after a reload: what was persisted. *)
Definition persisted (r : ChangeRecord) : bool :=
  match cr_prior r with Some (Inline _) => false | _ => true end.

(** Operations on a durable journal. *)
Inductive JournalOp := JTurn | JRecord (p : str) (prior : option (list Z)) | JRewind (n : Z).

Section ReloadProperties.
Variable digest_hex : list Z -> str.

Definition journal_step (s : ChangeJournal * Host) (op : JournalOp) : ChangeJournal * Host :=
  let '(j, h) := s in
  match op with
  | JTurn => advance_turn j h
  | JRecord p prior => record digest_hex j h p prior
  | JRewind n => let '(_, j, h) := rewind j h n in (j, h)
  end.

(** A digest is a file name: no slash in it (hexadecimal in the code). *)
Definition is_name (d : str) : Prop := Forall (fun c => c <> 47) d.

Definition record_ok (root : str) (t : Z) (r : ChangeRecord) : Prop :=
  cr_turn r <= t
  /\ match cr_prior r with
     | Some (Cas path _) => exists d, is_name d /\ path = path_join (path_join root (lit "blobs")) d
     | _ => True
     end.

Record synced (root : str) (j : ChangeJournal) (h : Host) : Prop := mk_synced {
  sy_storage : cj_storage j = Durable root (path_join root (lit "rewind.jsonl"));
  sy_writable : h_writable h (path_join root (lit "rewind.jsonl")) = true;
  sy_turn : 0 <= cj_turn j;
  sy_records : Forall (record_ok root (cj_turn j)) (cj_records j);
  sy_lines : load_lines (path_join root (lit "blobs")) (h_lines h) [] 0
             = (filter (fun r => persisted r = true) (cj_records j), cj_turn j)
}.

Lemma after_slash_name d acc : is_name d -> after_last_slash d acc = acc ++ d.
Proof.
  intros Hd. revert acc. induction Hd as [|c d Hc Hd IH]; intros acc; simpl; [by rewrite app_nil_r|].
  destruct (Z.eqb_spec c 47); [done|]. rewrite IH. by rewrite <- app_assoc.
Qed.

Lemma file_name_join dir d : is_name d -> file_name (path_join dir d) = d.
Proof.
  intros Hd. unfold file_name, path_join. generalize (@nil Z) as acc.
  induction dir as [|c dir IH]; intros acc; simpl.
  - by rewrite after_slash_name.
  - destruct (c =? 47); apply IH.
Qed.

Lemma load_lines_app blobs a b recs t recs' t' :
  Forall (fun l => l <> None) a -> load_lines blobs a recs t = (recs', t') ->
  load_lines blobs (a ++ b) recs t = load_lines blobs b recs' t'.
Proof.
  intros Ha. revert recs t. induction Ha as [|l a Hl Ha IH]; intros recs t; simpl; [by intros [= <- <-]|].
  destruct l as [[saved|p pe dg ln rt]|]; [apply IH| |done].
  by destruct (_ && _); apply IH.
Qed.

(** Reading back the line of one record. *)
Lemma load_record root t r recs rest :
  record_ok root t r ->
  load_lines (path_join root (lit "blobs")) (Some (entry_of_record r) :: rest) recs t
  = load_lines (path_join root (lit "blobs")) rest
      (recs ++ filter (fun r => persisted r = true) [r]) t.
Proof.
  intros [Ht Hp]. destruct r as [p prior rt]. unfold entry_of_record. cbn [cr_prior cr_turn cr_path] in *.
  destruct prior as [[path len|bytes]|]; cbn [snapshot_reference load_lines];
    rewrite Z.max_l by done; cbn [filter list_filter persisted cr_prior].
  - destruct Hp as (d & Hd & ->). rewrite file_name_join by done. done.
  - simpl. by rewrite app_nil_r.
  - done.
Qed.

Lemma load_records root t rs recs :
  Forall (record_ok root t) rs ->
  load_lines (path_join root (lit "blobs")) (map (fun r => Some (entry_of_record r)) rs) recs t
  = (recs ++ filter (fun r => persisted r = true) rs, t).
Proof.
  intros Hrs. revert recs. induction Hrs as [|r rs Hr Hrs IH]; intros recs.
  - simpl. by rewrite app_nil_r.
  - cbn [map]. rewrite load_record by done. rewrite IH, <- app_assoc.
    by rewrite <- (list.filter_app _ [r] rs).
Qed.

Lemma lines_some_append lines e :
  Forall (fun l : option DurableJournalEntry => l <> None) lines ->
  Forall (fun l => l <> None) (lines ++ [Some e]).
Proof. intros. apply list.Forall_app. split; [done|]. by repeat constructor. Qed.

Definition well_lined (root : str) (j : ChangeJournal) (h : Host) : Prop :=
  synced root j h /\ Forall (fun l => l <> None) (h_lines h).

Lemma append_durable_lines root j h e :
  cj_storage j = Durable root (path_join root (lit "rewind.jsonl")) ->
  h_writable h (path_join root (lit "rewind.jsonl")) = true ->
  h_lines (append_durable j h e) = h_lines h ++ [Some e].
Proof. intros Hs Hw. unfold append_durable. by rewrite Hs, Hw. Qed.

Lemma advance_turn_synced root j h :
  well_lined root j h -> let '(j', h') := advance_turn j h in well_lined root j' h'.
Proof.
  intros [[Hs Hw Ht Hr Hl] Hn]. unfold advance_turn. split.
  - constructor; cbn [cj_storage cj_turn cj_records]; auto; try lia.
    + by rewrite append_durable_writable.
    + eapply Forall_impl; [|exact Hr]. intros r [? ?]. split; [lia|done].
    + rewrite (append_durable_lines root) by done.
      erewrite load_lines_app by (first [exact Hn | exact Hl]). done.
  - rewrite (append_durable_lines root) by done. by apply lines_some_append.
Qed.

Lemma store_snapshot_lines j h b s h' :
  store_snapshot digest_hex j h b = (s, h') -> h_lines h' = h_lines h /\ h_writable h' = h_writable h.
Proof.
  unfold store_snapshot, write_file. destruct (storage_dir _); [|by intros [= <- <-]].
  destruct (h_files h !! _) eqn:E; [|destruct (h_writable h _) eqn:Ew]; cbn [andb];
    repeat case_match; intros; simplify_eq; done.
Qed.

Lemma store_snapshot_cas root jr j h b path len h' :
  cj_storage j = Durable root jr ->
  store_snapshot digest_hex j h b = (Cas path len, h') ->
  path = path_join (path_join root (lit "blobs")) (digest_hex b).
Proof.
  intros Hs. unfold store_snapshot, write_file. rewrite Hs. cbn [storage_dir].
  repeat case_match; intros; simplify_eq; done.
Qed.

Lemma record_synced root j h p prior :
  (forall b, is_name (digest_hex b)) ->
  well_lined root j h -> let '(j', h') := record digest_hex j h p prior in well_lined root j' h'.
Proof.
  intros Hname [[Hs Hw Ht Hr Hl] Hn]. unfold record.
  fold (take_prior digest_hex j h prior).
  destruct (take_prior digest_hex j h prior) as [sn h1] eqn:E.
  assert (h_lines h1 = h_lines h /\ h_writable h1 = h_writable h
          /\ (is_Some prior <-> is_Some sn)
          /\ record_ok root (cj_turn j) (mk_record p sn (cj_turn j))) as (Hl1 & Hw1 & Hsome & Hok).
  { unfold take_prior in E. destruct prior as [b|].
    - destruct (store_snapshot digest_hex j h b) as [s h0] eqn:Es. simplify_eq.
      destruct (store_snapshot_lines _ _ _ _ _ Es). do 2 (split; [done|]).
      split; [by split; eauto|]. split; [simpl; lia|]. simpl. destruct s as [path len|]; [|done].
      apply store_snapshot_cas with (root := root) (jr := path_join root (lit "rewind.jsonl")) in Es; [|done].
      eauto.
    - simplify_eq. do 2 (split; [done|]). split; [by split; intros [? ?]|]. split; [simpl; lia|done]. }
  set (r := mk_record p sn (cj_turn j)) in *.
  assert (EChange p (bool_decide (is_Some prior)) (snapshot_reference (cr_prior r)).1
            (snapshot_reference (cr_prior r)).2 (cj_turn j) = entry_of_record r) as Hent.
  { unfold entry_of_record. destruct (snapshot_reference (cr_prior r)) as [dg ln]. simpl.
    f_equal. by apply bool_decide_ext. }
  destruct (snapshot_reference (cr_prior r)) as [dg ln]. simpl in Hent. rewrite Hent. split.
  - constructor; cbn [cj_storage cj_turn cj_records]; auto.
    + by rewrite append_durable_writable, Hw1.
    + apply list.Forall_app. split; [done|]. by apply list.Forall_singleton.
    + rewrite (append_durable_lines root), Hl1 by (rewrite ?Hw1; done).
      erewrite load_lines_app by (first [exact Hn | exact Hl]).
      rewrite load_record by done. by rewrite <- (list.filter_app _ _ [r]).
  - rewrite (append_durable_lines root), Hl1 by (rewrite ?Hw1; done). by apply lines_some_append.
Qed.

Lemma rewind_synced root j h n :
  0 <= n -> well_lined root j h -> let '(_, j', h') := rewind j h n in well_lined root j' h'.
Proof.
  intros Hn0 [[Hs Hw Ht Hr Hl] Hn]. unfold rewind. destruct (_ || _) eqn:E; [by split|].
  apply orb_false_elim in E as [Hn1 _]. apply Z.eqb_neq in Hn1.
  set (keep := filter (fun r => ~ _) (cj_records j)).
  unfold rewrite_durable. cbn [cj_storage cj_turn cj_records]. rewrite Hs, Hw.
  assert (Forall (record_ok root (sat_sub (cj_turn j) n)) keep) as Hk.
  { unfold keep. rewrite list.Forall_forall in *. intros r [Hlt Hin]%list_elem_of_filter.
    destruct (Hr r Hin). split; [|done]. unfold sat_sub in *. lia. }
  split.
  - constructor; cbn [cj_storage cj_turn cj_records h_lines h_writable]; auto.
    + unfold sat_sub. lia.
    + cbn [load_lines]. rewrite load_records by done. done.
  - cbn [h_lines]. constructor; [done|]. by apply Forall_map, Forall_true.
Qed.

Lemma journal_run_synced root ops : forall j h,
  (forall b, is_name (digest_hex b)) -> Forall (fun op => match op with JRewind n => 0 <= n | _ => True end) ops ->
  well_lined root j h ->
  let '(j', h') := fold_left journal_step ops (j, h) in well_lined root j' h'.
Proof.
  induction ops as [|op ops IH]; intros j h Hname Hops Hw; [done|].
  apply list.Forall_cons in Hops as [Hop Hops]. cbn [fold_left].
  destruct (journal_step (j, h) op) as [j1 h1] eqn:E. apply IH; auto.
  destruct op as [|p prior|n]; simpl in E.
  - pose proof (advance_turn_synced root j h Hw) as H. unfold advance_turn in *. by simplify_eq.
  - pose proof (record_synced root j h p prior Hname Hw) as H. by rewrite E in H.
  - pose proof (rewind_synced root j h n Hop Hw) as H. destruct (rewind j h n) as [[? j2] h2].
    by simplify_eq.
Qed.

(** the rewind journal is restart-safe.  Start a durable journal on an empty
    file and run any sequence of turns, recordings and rewinds; reopening it
    from the file gives the journal in memory back: the same turn, and the
    same records in the same order but for those whose snapshot could only be
    kept inline (these are dropped, never misread as created files). *)
Theorem durable_reload root h ops :
  (forall b, is_name (digest_hex b)) ->
  Forall (fun op => match op with JRewind n => 0 <= n | _ => True end) ops ->
  h_lines h = [] -> h_writable h (path_join root (lit "rewind.jsonl")) = true ->
  let '(j', h') := fold_left journal_step ops (durable root h, h) in
  durable root h'
  = mk_journal (filter (fun r => persisted r = true) (cj_records j')) (cj_turn j') (cj_storage j').
Proof.
  intros Hname Hops Hl Hw.
  assert (durable root h = mk_journal [] 0 (Durable root (path_join root (lit "rewind.jsonl")))) as Hd0.
  { unfold durable. by rewrite Hl. }
  pose proof (journal_run_synced root ops (durable root h) h Hname Hops) as H.
  destruct (fold_left journal_step ops (durable root h, h)) as [j' h'].
  destruct H as [[Hs _ _ _ Hlines] _].
  { rewrite Hd0. split; [|by rewrite Hl]. constructor; simpl; auto; try lia. by rewrite Hl. }
  unfold durable. by rewrite Hlines, Hs.
Qed.

End ReloadProperties.

(** ** Witnesses *)

(** A host where everything is writable, with one user file. *)
Definition sample_host : Host :=
  mk_host {[ lit "a" := [1; 2] ]} [] (fun _ => true).
Definition sample_journal : ChangeJournal := mk_journal [] 0 (Temporary (Some (lit "tmp"))).
Definition sample_ops : list FileOp :=
  [OpWrite (lit "a") [3]; OpWrite (lit "b") [4]; OpTurn; OpWrite (lit "a") [5]].

Lemma rewind_restores_witness :
  let '(j2, h2) := exec (fun b => b) (sample_journal, sample_host) (OpTurn :: sample_ops) in
  let '(j3, h3, report) := rewind_session j2 h2 2 in
  h_files h2 !! lit "a" = Some [5] /\ h_files h3 !! lit "a" = Some [1; 2] /\ h_files h3 !! lit "b" = None.
Proof.
  pose proof (rewind_restores (fun b => b) (fun p => p = lit "a" \/ p = lit "b") (fun _ => True)
                sample_journal sample_host sample_ops 2) as H.
  destruct (exec (fun b => b) (sample_journal, sample_host) (OpTurn :: sample_ops)) as [j2 h2] eqn:E2.
  destruct (rewind_session j2 h2 2) as [[j3 h3] rep] eqn:E3.
  destruct H as (Hf & _).
  - split; [by intros ????|]. intros b p Hb [->| ->]; vm_compute in Hb; discriminate.
  - constructor; [done|done|]. intros b p c _ Hb Hp. exfalso.
    unfold blob in Hb. simpl in Hb. injection Hb as <-.
    unfold sample_host in Hp. simpl in Hp. apply lookup_singleton_Some in Hp as [Hp _].
    vm_compute in Hp. discriminate.
  - unfold sample_ops. rewrite !list.Forall_cons. simpl. auto 10.
  - reflexivity.
  - simpl. lia.
  - constructor.
  - split; [vm_compute in E2; injection E2 as <- <-; reflexivity|].
    split; [rewrite (Hf (lit "a")) by auto; reflexivity|].
    rewrite (Hf (lit "b")) by auto. reflexivity.
Defined.

Lemma durable_reload_witness :
  let h := mk_host ∅ [] (fun _ => true) in
  let '(j', h') := fold_left (journal_step (fun _ => lit "d")) [JTurn; JRecord (lit "a") (Some [7]); JTurn;
                       JRecord (lit "b") None; JRewind 1] (durable (lit "r") h, h) in
  durable (lit "r") h'
  = mk_journal (filter (fun r => persisted r = true) (cj_records j')) (cj_turn j') (cj_storage j').
Proof.
  apply (durable_reload (fun _ => lit "d") (lit "r") (mk_host ∅ [] (fun _ => true))).
  - intros b. by apply list.Forall_singleton.
  - rewrite !list.Forall_cons, list.Forall_nil. auto with lia.
  - reflexivity.
  - reflexivity.
Defined.
