(* ===== verification/PathLib.v ===== *)
(** Unix paths as the standard library's [Path] sees them: components, join,
    prefix tests and prefix removal. *)

From S2P Require Import Prelude.

Inductive component := CRoot | CCur | CParent | CNormal (name : str).
#[export] Instance component_eq_dec : EqDecision component.
Proof. solve_decision. Defined.

(** The text split at the slashes. *)
Fixpoint split_slash (s cur : str) : list str :=
  match s with
  | [] => [cur]
  | c :: s' => if c =? 47 then cur :: split_slash s' [] else split_slash s' (cur ++ [c])
  end.

Definition segment (first : bool) (s : str) : list component :=
  if is_nil s then []
  else if str_eqb s (lit ".") then (if first then [CCur] else [])
  else if str_eqb s (lit "..") then [CParent]
  else [CNormal s].

Definition is_absolute (p : str) : bool := match p with c :: _ => c =? 47 | [] => false end.

(** [Path::components]: repeated slashes and inner [.] segments are skipped,
    a leading [.] of a relative path is kept. *)
Definition components (p : str) : list component :=
  match split_slash p [] with
  | [] => []
  | s :: rest =>
      (if is_absolute p then [CRoot] else segment true s)
      ++ concat (map (segment false) rest)
  end.

(** [PathBuf::push] / [Path::join]. *)
Definition ends_with_slash (p : str) : bool :=
  match rev p with c :: _ => c =? 47 | [] => false end.
Definition push_path (dir p : str) : str :=
  if is_absolute p then p
  else if is_nil dir || ends_with_slash dir then dir ++ p
  else dir ++ lit "/" ++ p.

(** [Path::starts_with]: component-wise prefix. *)
Fixpoint comp_prefix (a b : list component) : option (list component) :=
  match a, b with
  | [], _ => Some b
  | x :: a', y :: b' => if decide (x = y) then comp_prefix a' b' else None
  | _ :: _, [] => None
  end.
Definition path_starts_with (p base : str) : bool :=
  match comp_prefix (components base) (components p) with Some _ => true | None => false end.

(** The text of a component and of a relative list of them. *)
Definition comp_text (c : component) : str :=
  match c with CRoot => lit "/" | CCur => lit "." | CParent => lit ".." | CNormal s => s end.
Fixpoint comps_text (l : list component) : str :=
  match l with
  | [] => []
  | [c] => comp_text c
  | CRoot :: l' => lit "/" ++ comps_text l'
  | c :: l' => comp_text c ++ lit "/" ++ comps_text l'
  end.

(** [Path::strip_prefix], the remainder up to [Path] equality (redundant
    slashes of the remainder are normalised away). *)
Definition path_strip_prefix (p base : str) : option str :=
  match comp_prefix (components base) (components p) with
  | Some rest => Some (comps_text rest)
  | None => None
  end.

(** [Path::file_name] and [Path::parent]. *)
Definition path_file_name (p : str) : option str :=
  match list.last (components p) with Some (CNormal s) => Some s | _ => None end.
Definition path_parent (p : str) : option str :=
  match rev (components p) with
  | [] | CRoot :: _ => None
  | _ :: r => Some (comps_text (rev r))
  end.

(** ** Lemmas *)

Lemma comp_prefix_Some a b r : comp_prefix a b = Some r <-> b = a ++ r.
Proof.
  revert b. induction a as [|x a IH]; intros [|y b]; simpl; try naive_solver.
  destruct (decide (x = y)); naive_solver.
Qed.

Lemma path_starts_with_spec p base :
  path_starts_with p base = true <-> exists r, components p = components base ++ r.
Proof.
  unfold path_starts_with. destruct (comp_prefix _ _) eqn:E.
  - apply comp_prefix_Some in E. naive_solver.
  - split; [done|]. intros [r Hr]. apply comp_prefix_Some in Hr. congruence.
Qed.

Lemma split_slash_cons s cur : exists x l, split_slash s cur = x :: l.
Proof.
  revert cur. induction s as [|c s IH]; intros cur; simpl; [eauto|].
  destruct (c =? 47); eauto.
Qed.

(** Splitting a concatenation at a slash. *)
Lemma split_slash_app a b cur :
  split_slash (a ++ 47 :: b) cur = split_slash a cur ++ split_slash b [].
Proof.
  revert cur. induction a as [|c a IH]; intros cur; simpl; [done|].
  destruct (c =? 47); simpl; by rewrite IH.
Qed.

(** Components of a file name: one with no slash that is not a dot name. *)
Definition plain_name (n : str) : Prop :=
  n <> [] /\ Forall (fun c => c <> 47) n /\ n <> lit "." /\ n <> lit "..".

Lemma split_plain n cur : Forall (fun c => c <> 47) n -> split_slash n cur = [cur ++ n].
Proof.
  intros Hn. revert cur. induction Hn as [|c n Hc Hn IH]; intros cur; simpl; [by rewrite app_nil_r|].
  destruct (Z.eqb_spec c 47); [done|]. rewrite IH. by rewrite <- app_assoc.
Qed.

Lemma segment_plain n b : plain_name n -> segment b n = [CNormal n].
Proof.
  intros (Hn & _ & Hd & Hdd). unfold segment, str_eqb.
  rewrite !bool_decide_false by done. by destruct n.
Qed.

Lemma components_app_slash a n :
  a <> [] -> plain_name n -> components (a ++ 47 :: n) = components a ++ [CNormal n].
Proof.
  intros Ha Hn. unfold components. rewrite split_slash_app.
  destruct (split_slash_cons a []) as (x & l & E). rewrite E. simpl.
  rewrite (split_plain n []) by apply Hn. rewrite map_app, concat_app. cbn [map concat app].
  rewrite (segment_plain n false Hn). simpl. rewrite app_assoc.
  destruct a; done.
Qed.

Lemma components_push dir n :
  dir <> [] -> plain_name n -> components (push_path dir n) = components dir ++ [CNormal n].
Proof.
  intros Hd Hn. unfold push_path.
  assert (is_absolute n = false) as ->.
  { destruct Hn as (? & Hs & _). destruct n as [|c n]; [done|]. simpl.
    apply list.Forall_cons in Hs as [? _]. by apply Z.eqb_neq. }
  destruct (is_nil dir) eqn:Ed; [by destruct dir|]. simpl.
  destruct (ends_with_slash dir) eqn:Es.
  - unfold ends_with_slash in Es. destruct (rev dir) as [|c r] eqn:Er; [done|].
    apply Z.eqb_eq in Es as ->. apply (f_equal (@rev Z)) in Er. rewrite rev_involutive in Er.
    subst dir. simpl. rewrite <- app_assoc. simpl.
    destruct (rev r) as [|x y] eqn:Err.
    + unfold components. cbn [app split_slash Z.eqb Pos.eqb].
      rewrite (split_plain n []) by apply Hn. cbn [map concat app].
      rewrite (segment_plain n false Hn). done.
    + rewrite <- Err. rewrite components_app_slash by (rewrite ?Err; done). f_equal.
      unfold components. rewrite split_slash_app.
      destruct (split_slash_cons (rev r) []) as (u & l & E). rewrite E. simpl.
      rewrite map_app, concat_app. simpl. rewrite !app_nil_r. by rewrite Err.
  - simpl. by apply components_app_slash.
Qed.

(** ** Component lists that are the components of a path *)

Definition tail_comp (c : component) : Prop :=
  match c with CParent => True | CNormal s => plain_name s | _ => False end.
Definition comps_wf (l : list component) : Prop :=
  match l with
  | CRoot :: t | CCur :: t => Forall tail_comp t
  | t => Forall tail_comp t
  end.

Lemma split_slash_plain s cur :
  Forall (fun c => c <> 47) cur -> Forall (Forall (fun c => c <> 47)) (split_slash s cur).
Proof.
  revert cur. induction s as [|c s IH]; intros cur Hc; simpl; [by apply list.Forall_singleton|].
  destruct (Z.eqb_spec c 47).
  - apply list.Forall_cons. split; [done|]. by apply IH.
  - apply IH. apply list.Forall_app. split; [done|]. by apply list.Forall_singleton.
Qed.

Lemma segment_false_wf s :
  Forall (fun c => c <> 47) s -> Forall tail_comp (segment false s).
Proof.
  intros Hs. unfold segment, str_eqb. destruct s as [|c s]; [done|]. simpl is_nil.
  destruct (bool_decide_reflect (c :: s = lit ".")); [done|].
  destruct (bool_decide_reflect (c :: s = lit "..")); by apply list.Forall_singleton.
Qed.

Lemma segments_wf l :
  Forall (Forall (fun c => c <> 47)) l -> Forall tail_comp (concat (map (segment false) l)).
Proof.
  induction 1; simpl; [done|]. apply list.Forall_app. split; [by apply segment_false_wf|done].
Qed.

Lemma components_wf p : comps_wf (components p).
Proof.
  unfold components. pose proof (split_slash_plain p [] (list.Forall_nil_2 _)) as H.
  destruct (split_slash p []) as [|s l]; [constructor|].
  apply list.Forall_cons in H as [Hs Hl]. pose proof (segments_wf l Hl) as Ht.
  destruct (is_absolute p); [done|]. pose proof (segment_false_wf s Hs) as Hf.
  unfold segment in *. destruct (is_nil s).
  - simpl. destruct (concat _) as [|[] ?]; try done; by apply list.Forall_cons in Ht as [[] _].
  - destruct (str_eqb s (lit ".")); [done|].
    destruct (str_eqb s (lit "..")); cbn [app comps_wf]; apply list.Forall_cons; (split; [|done]);
      first [exact I | inversion Hf; done].
Qed.

Lemma comp_text_split c cur :
  tail_comp c -> split_slash (comp_text c) cur = [cur ++ comp_text c].
Proof.
  destruct c; simpl; try done. { intros _. by rewrite <- app_assoc. }
  intros (_ & H & _). by apply split_plain.
Qed.

Lemma comp_text_segment c b : tail_comp c -> segment b (comp_text c) = [c].
Proof. destruct c; simpl; try done. intros H. by apply segment_plain. Qed.

Lemma comp_text_not_abs c : tail_comp c -> is_absolute (comp_text c) = false.
Proof.
  destruct c; simpl; try done. intros (? & H & _). destruct name; [done|]. simpl.
  apply list.Forall_cons in H as [H _]. by apply Z.eqb_neq.
Qed.

Lemma tail_text_cons c l : l <> [] -> tail_comp c -> comps_text (c :: l) = comp_text c ++ 47 :: comps_text l.
Proof. destruct l; [done|]. by destruct c. Qed.

Lemma tail_text_segments l :
  Forall tail_comp l -> concat (map (segment false) (split_slash (comps_text l) [])) = l.
Proof.
  induction 1 as [|c l Hc Hl IH]; [done|].
  destruct (decide (l = [])) as [->|Hne].
  - replace (comps_text [c]) with (comp_text c) by by destruct c.
    rewrite comp_text_split by done. simpl. by rewrite comp_text_segment.
  - rewrite tail_text_cons by done. rewrite split_slash_app, comp_text_split by done.
    cbn [map concat app]. rewrite comp_text_segment by done. simpl. by rewrite IH.
Qed.

Lemma split_slash_head p : is_absolute p = true -> exists l, split_slash p [] = [] :: l.
Proof. destruct p; [done|]. simpl. intros ->. eauto. Qed.

Lemma is_absolute_app a b : a <> [] -> is_absolute (a ++ b) = is_absolute a.
Proof. by destruct a. Qed.

(** The text of a component list parses back to it. *)
Lemma components_comps_text l : comps_wf l -> components (comps_text l) = l.
Proof.
  assert (forall t, Forall tail_comp t -> is_absolute (comps_text t) = false ) as Hna.
  { intros [|c t] H; [done|]. apply list.Forall_cons in H as [Hc Ht].
    destruct (decide (t = [])) as [->|Hne].
    - replace (comps_text [c]) with (comp_text c) by by destruct c. by apply comp_text_not_abs.
    - rewrite tail_text_cons by done. rewrite is_absolute_app; [by apply comp_text_not_abs|].
      destruct c; try done. by destruct Hc. }
  assert (forall t, Forall tail_comp t -> components (comps_text t) = t) as Htail.
  { intros t H. unfold components. rewrite (Hna t H).
    pose proof (tail_text_segments t H) as Hs. destruct t as [|c t]; [done|].
    apply list.Forall_cons in H as [Hc Ht].
    destruct (decide (t = [])) as [->|Hne].
    - replace (comps_text [c]) with (comp_text c) in * by by destruct c.
      rewrite comp_text_split by done. simpl. by rewrite comp_text_segment.
    - rewrite tail_text_cons in * by done.
      rewrite split_slash_app, comp_text_split in * by done. cbn [map concat app] in *.
      rewrite comp_text_segment in * by done. done. }
  destruct l as [|[] t]; intros H; try (by apply Htail); simpl in H.
  - destruct t as [|c t]; [done|].
    change (comps_text (CRoot :: c :: t)) with (47 :: comps_text (c :: t)).
    unfold components. cbn [split_slash Z.eqb Pos.eqb is_absolute].
    rewrite tail_text_segments by done. done.
  - destruct t as [|c t]; [done|].
    change (comps_text (CCur :: c :: t)) with (46 :: 47 :: comps_text (c :: t)).
    unfold components. cbn [split_slash Z.eqb Pos.eqb is_absolute app].
    rewrite tail_text_segments by done. done.
Qed.

Lemma comps_wf_app a b : comps_wf (a ++ b) -> comps_wf a.
Proof.
  destruct a as [|[] t]; simpl; try done; rewrite ?list.Forall_cons, ?list.Forall_app; naive_solver.
Qed.

(** The parent of a path whose last component is a name. *)
Lemma path_parent_app p a n :
  components p = a ++ [CNormal n] ->
  exists q, path_parent p = Some q /\ components q = a.
Proof.
  intros H. unfold path_parent. rewrite H, rev_app_distr. simpl. rewrite rev_involutive.
  eexists. split; [done|]. apply components_comps_text.
  apply (comps_wf_app a [CNormal n]). rewrite <- H. apply components_wf.
Qed.

Lemma path_file_name_Some p n :
  path_file_name p = Some n -> exists a, components p = a ++ [CNormal n] /\ plain_name n.
Proof.
  unfold path_file_name. destruct (list.last (components p)) as [c|] eqn:E; [|done].
  destruct c; try done. intros [= ->]. apply last_Some in E as [a E]. exists a. split; [done|].
  pose proof (components_wf p) as H. rewrite E in H.
  assert (Forall tail_comp [CNormal n]) as Ht.
  { destruct a as [|[] t]; simpl in H; try done;
      rewrite ?list.Forall_cons, ?list.Forall_app in H; naive_solver. }
  by inversion Ht.
Qed.
