(* ===== verification/PermPath.v ===== *)
(** Path containment (src/crates/rc-perm/src/path.rs).  The operating system's
    [canonicalize] is a parameter: it resolves a path physically or fails. *)

From S2P Require Import Prelude PathLib.

Inductive IoKind := NotFound | OtherIo.
Inductive PathError :=
| Outside (canon : str) (allowed : list str)
| Traversal (abs : str)
| InvalidPath (abs : str)
| Io (path : str) (kind : IoKind).

Section Containment.
Variable canonicalize : str -> IoKind + str.

Definition root_canon (root : str) : str :=
  match canonicalize root with inr c => c | inl _ => root end.

Definition under_root (canon : str) (roots : list str) : bool :=
  existsb (fun r => path_starts_with canon (root_canon r)) roots.

(** [outside_err]: the error names the rejected path and the allowed roots. *)
Definition outside_err (canon : str) (roots : list str) : PathError :=
  Outside canon (map root_canon roots).

Definition absolutize (cwd candidate : str) : str :=
  if is_absolute candidate then candidate else push_path cwd candidate.

Definition scoped (roots : list str) (canon : str) : res PathError str :=
  if under_root canon roots then Ok canon else Err (outside_err canon roots).

Definition resolve_within (roots : list str) (cwd candidate : str) : res PathError str :=
  let abs := absolutize cwd candidate in
  match canonicalize abs with
  | inr canon => scoped roots canon
  | inl e => Err (Io abs e)
  end.

(** The walk to the nearest existing ancestor: the loop state is the ancestor
    and the missing components, innermost last pushed. *)
Fixpoint find_ancestor (fuel : nat) (abs ancestor : str) (missing : list str)
  : option (res PathError (str * list str)) :=
  match fuel with
  | O => None
  | S f =>
      match canonicalize ancestor with
      | inr canon => Some (Ok (canon, missing))
      | inl NotFound =>
          match path_file_name ancestor with
          | None => Some (Err (InvalidPath abs))
          | Some name =>
              match path_parent ancestor with
              | None => Some (Err (InvalidPath abs))
              | Some parent => find_ancestor f abs parent (missing ++ [name])
              end
          end
      | inl k => Some (Err (Io ancestor k))
      end
  end.

Definition has_parent_dir (p : str) : bool := existsb (fun c => bool_decide (c = CParent)) (components p).

(** Each step of the walk drops a component, so one more step than the
    components of the path is enough fuel. *)
Definition walk_fuel (p : str) : nat := S (length (components p)).

Definition resolve_within_loose (roots : list str) (cwd candidate : str)
  : option (res PathError str) :=
  let abs := absolutize cwd candidate in
  if has_parent_dir abs then Some (Err (Traversal abs))
  else
    match canonicalize abs with
    | inr canon => Some (scoped roots canon)
    | inl _ =>
        match find_ancestor (walk_fuel abs) abs abs [] with
        | None => None
        | Some (Ok (canon, missing)) => Some (scoped roots (fold_left push_path (rev missing) canon))
        | Some (Err e) => Some (Err e)
        | Some Panic => Some Panic
        end
    end.

End Containment.

(** ** What the resolvers promise *)

(** [c] lies, component by component, below the canonical form of an allowed root. *)
Definition below_root (canonicalize : str -> IoKind + str) (roots : list str) (c : str) : Prop :=
  exists r t, r ∈ roots /\ components c = components (root_canon canonicalize r) ++ t.

Section Props.
Context (canonicalize : str -> IoKind + str).
(** [fs::canonicalize] "returns the canonical, absolute form of a path". *)
Hypothesis canonical_absolute : forall p c, canonicalize p = inr c -> is_absolute c = true.

Lemma under_root_spec c roots :
  under_root canonicalize c roots = true <-> below_root canonicalize roots c.
Proof.
  unfold under_root, below_root. rewrite existsb_exists.
  setoid_rewrite path_starts_with_spec. setoid_rewrite list_elem_of_In. naive_solver.
Qed.

Lemma scoped_Ok roots p c :
  scoped canonicalize roots p = Ok c <-> c = p /\ below_root canonicalize roots p.
Proof.
  unfold scoped. rewrite <- under_root_spec.
  destruct (under_root canonicalize p roots); naive_solver.
Qed.

(** The walk keeps the path: ancestor plus missing names. *)
Lemma find_ancestor_Ok f abs anc miss canon out :
  find_ancestor canonicalize f abs anc miss = Some (Ok (canon, out)) ->
  exists anc' names, out = miss ++ names /\ Forall plain_name names /\
    canonicalize anc' = inr canon /\
    components anc = components anc' ++ map CNormal (rev names).
Proof.
  revert anc miss. induction f as [|f IH]; intros anc miss; simpl; [done|].
  destruct (canonicalize anc) as [[]|c] eqn:Ec; [|done|].
  - destruct (path_file_name anc) as [n|] eqn:En; [|done].
    apply path_file_name_Some in En as (a & Ha & Hn).
    destruct (path_parent_app _ _ _ Ha) as (q & -> & Hq). intros H.
    apply IH in H as (anc' & names & -> & Hns & Hc & Hq'). exists anc', (n :: names).
    rewrite Ha, <- Hq, Hq'. simpl. rewrite map_app, <- !app_assoc. simpl. auto.
  - intros [= -> ->]. exists anc, []. by rewrite !app_nil_r.
Qed.

(** Dropping one component per step, the walk ends within its fuel. *)
Lemma find_ancestor_total f abs anc miss :
  (length (components anc) < f)%nat ->
  exists r, find_ancestor canonicalize f abs anc miss = Some r /\ r <> Panic.
Proof.
  revert anc miss. induction f as [|f IH]; intros anc miss Hf; simpl; [lia|].
  destruct (canonicalize anc) as [[]|c]; [|by eexists|by eexists].
  destruct (path_file_name anc) as [n|] eqn:En; [|by eexists].
  apply path_file_name_Some in En as (a & Ha & Hn).
  destruct (path_parent_app _ _ _ Ha) as (q & -> & Hq). apply IH.
  rewrite Hq. rewrite Ha, length_app in Hf. simpl in Hf. lia.
Qed.

Lemma push_names names dir :
  is_absolute dir = true -> Forall plain_name names ->
  components (fold_left push_path names dir) = components dir ++ map CNormal names.
Proof.
  intros Hd Hn. revert dir Hd. induction Hn as [|n names Hn Hns IH]; intros dir Hd; simpl.
  - by rewrite app_nil_r.
  - assert (dir <> []) as Hne by by intros ->.
    rewrite IH.
    + rewrite components_push by done. by rewrite <- app_assoc.
    + unfold push_path. destruct (is_absolute n) eqn:E; [done|].
      destruct (is_nil dir || ends_with_slash dir); by rewrite is_absolute_app.
Qed.

Lemma has_parent_dir_false p :
  has_parent_dir p = false <-> Forall (fun c => c <> CParent) (components p).
Proof.
  unfold has_parent_dir. rewrite <- not_true_iff_false, existsb_exists, list.Forall_forall.
  setoid_rewrite bool_decide_eq_true. setoid_rewrite list_elem_of_In. naive_solver.
Qed.

(** C28: A path that the loose resolver returns lies below the canonical form
    of an allowed root; the requested path has no [..] component, and the
    result is the physical location of an existing ancestor of it followed by
    the names that do not exist yet, so a symlink cannot lead out of a root. *)
Theorem resolve_within_loose_contained roots cwd cand c
  (H : resolve_within_loose canonicalize roots cwd cand = Some (Ok c)) :
  below_root canonicalize roots c /\
  Forall (fun x => x <> CParent) (components (absolutize cwd cand)) /\
  exists anc names canon,
    components (absolutize cwd cand) = components anc ++ map CNormal names /\
    canonicalize anc = inr canon /\ components c = components canon ++ map CNormal names.
Proof.
  unfold resolve_within_loose in H. destruct (has_parent_dir _) eqn:Hp; [done|].
  apply has_parent_dir_false in Hp.
  destruct (canonicalize (absolutize cwd cand)) as [k|canon] eqn:Ec.
  - destruct (find_ancestor _ _ _ _ _) as [[[canon out]|e|]|] eqn:Ef; simplify_eq.
    apply find_ancestor_Ok in Ef as (anc & names & -> & Hns & Ha & Hc).
    simplify_eq. apply scoped_Ok in H as [-> Hb]. split; [done|]. split; [done|].
    exists anc, (rev names), canon. split; [done|]. split; [done|].
    rewrite push_names; [done|by eapply canonical_absolute|by apply Forall_rev].
  - simplify_eq. apply scoped_Ok in H as [-> Hb]. split; [done|]. split; [done|].
    exists (absolutize cwd cand), [], canon. by rewrite !app_nil_r.
Qed.

End Props.

(** The loose resolver always answers, and never panics: its walk to the
    nearest existing ancestor ends within one step per path component, whatever
    the file system says; and a path with a [..] component is refused before
    the file system is asked. *)
Theorem resolve_within_loose_total canonicalize roots cwd cand :
  exists r, resolve_within_loose canonicalize roots cwd cand = Some r /\ r <> Panic /\
    (CParent ∈ components (absolutize cwd cand) -> r = Err (Traversal (absolutize cwd cand))).
Proof.
  unfold resolve_within_loose. destruct (has_parent_dir _) eqn:Hp; [by eexists|].
  apply has_parent_dir_false in Hp. rewrite list.Forall_forall in Hp.
  assert (~ CParent ∈ components (absolutize cwd cand)) as Hn by (intros Hin; by apply Hp in Hin).
  destruct (canonicalize (absolutize cwd cand)) as [k|canon].
  - destruct (find_ancestor_total canonicalize (walk_fuel (absolutize cwd cand))
      (absolutize cwd cand) (absolutize cwd cand) [] (Nat.lt_succ_diag_r _)) as (r & -> & Hr).
    destruct r as [[canon out]|e|]; [|by eexists|done].
    eexists. split; [done|]. split; [|done].
    unfold scoped. by destruct (under_root _ _ _).
  - eexists. split; [done|]. split; [|done]. unfold scoped. by destruct (under_root _ _ _).
Qed.

(** The strict resolver succeeds exactly when the whole path exists and its
    physical location lies below an allowed root, and then returns it; its
    error names the rejected location and the allowed roots. *)
Theorem resolve_within_spec canonicalize roots cwd cand :
  match resolve_within canonicalize roots cwd cand with
  | Ok c => canonicalize (absolutize cwd cand) = inr c /\ below_root canonicalize roots c
  | Err (Io p k) => p = absolutize cwd cand /\ canonicalize p = inl k
  | Err (Outside c allowed) =>
      canonicalize (absolutize cwd cand) = inr c /\ ~ below_root canonicalize roots c /\
      allowed = map (root_canon canonicalize) roots
  | _ => False
  end.
Proof.
  unfold resolve_within, scoped, outside_err.
  destruct (canonicalize (absolutize cwd cand)) as [k|c] eqn:E; [done|].
  destruct (under_root canonicalize c roots) eqn:Eu.
  - by apply under_root_spec in Eu.
  - rewrite <- under_root_spec, Eu. done.
Qed.

(** A file system with one directory [/w] and a link [/w/l] to [/etc]. *)
Definition sample_fs (p : str) : IoKind + str :=
  if str_eqb p (lit "/w") then inr (lit "/w")
  else if str_eqb p (lit "/w/l") then inr (lit "/etc")
  else inl NotFound.

Lemma resolve_within_loose_contained_witness :
  resolve_within_loose sample_fs [lit "/w"] (lit "/w") (lit "new/a.txt") = Some (Ok (lit "/w/new/a.txt")) /\
  below_root sample_fs [lit "/w"] (lit "/w/new/a.txt") /\
  resolve_within_loose sample_fs [lit "/w"] (lit "/w") (lit "l/passwd")
    = Some (Err (Outside (lit "/etc/passwd") [lit "/w"])).
Proof.
  assert (resolve_within_loose sample_fs [lit "/w"] (lit "/w") (lit "new/a.txt")
    = Some (Ok (lit "/w/new/a.txt"))) as H by (vm_compute; reflexivity).
  split; [exact H|]. split; [|vm_compute; reflexivity].
  refine (proj1 (resolve_within_loose_contained sample_fs _ _ _ _ _ H)).
  intros p c. unfold sample_fs. repeat case_test; intros [= <-]; reflexivity.
Defined.
