(* ===== verification/PermBash.v ===== *)
(** Shell command parsing for permission matching (src/crates/rc-perm/src/bash.rs).
    The [shlex] crate's tokenizer is a parameter. *)

From S2P Require Import Prelude.

(** [shlex::split]: the tokens of a command, or [None] on an unclosed quote. *)
Class Shlex := shlex_split : str -> option (list str).

Record Sub := MkSub { raw : str; tokens : list str }.
#[export] Instance sub_eq_dec : EqDecision Sub.
Proof. solve_decision. Defined.
Record ParsedBash := MkParsed { subcommands : list Sub; unparseable : bool }.

Definition is_quote (c : char) : bool := (c =? 39) || (c =? 34).
Definition is_sep (c : char) : bool := (c =? 59) || (c =? 10) || (c =? 38) || (c =? 124).

(** The character loop of [split_subcommands]: [cur] is the piece being
    collected and [quote] the open quote.  Inside any quote a backslash takes
    the next character with it. *)
Fixpoint split_loop (chars cur : str) (quote : option char) : list str :=
  match chars with
  | [] => if is_nil (trim cur) then [] else [cur]
  | c :: rest =>
      match quote with
      | Some q =>
          if c =? 92 then
            match rest with
            | d :: rest' => split_loop rest' (cur ++ [c; d]) quote
            | [] => split_loop rest (cur ++ [c]) quote
            end
          else if c =? q then split_loop rest (cur ++ [c]) None
          else split_loop rest (cur ++ [c]) quote
      | None =>
          if is_quote c then split_loop rest (cur ++ [c]) (Some c)
          else if is_sep c then
            (if is_nil (trim cur) then [] else [cur]) ++
            let cur' := if is_nil (trim cur) then cur else [] in
            match rest with
            | d :: rest' =>
                if ((c =? 38) || (c =? 124)) && (d =? c) then split_loop rest' cur' None
                else split_loop rest cur' None
            | [] => split_loop rest cur' None
            end
          else split_loop rest (cur ++ [c]) None
      end
  end.
Definition split_subcommands (cmd : str) : list str := split_loop cmd [] None.

Definition REENTRY : list str := [lit "eval "; lit "exec "; lit "source "; lit ". "].
Definition is_reentry (trimmed : str) : bool := existsb (starts_with trimmed) REENTRY.

Section Parse.
Context `{Shlex}.

(** The loop of [parse_bash] over the pieces; [None] is the early return. *)
Fixpoint parse_subs (pieces : list str) (subs : list Sub) : option (list Sub) :=
  match pieces with
  | [] => Some subs
  | p :: pieces' =>
      let trimmed := trim p in
      if is_nil trimmed then parse_subs pieces' subs
      else if is_reentry trimmed then None
      else match shlex_split trimmed with
           | None => None
           | Some toks =>
               if is_nil toks then parse_subs pieces' subs
               else parse_subs pieces' (subs ++ [MkSub trimmed toks])
           end
  end.

Definition parse_bash (cmd : str) : ParsedBash :=
  if contains_char cmd 36 || contains_char cmd 96 then MkParsed [] true
  else match parse_subs (split_subcommands cmd) [] with
       | Some subs => MkParsed subs false
       | None => MkParsed [] true
       end.

(** [rule_matches]: an empty spec matches anything, [p:*] a token prefix,
    anything else the exact tokens. *)
Definition rule_matches (spec : str) (sub : Sub) : bool :=
  if is_nil spec then true
  else
    let '(prefix, wildcard) :=
      match strip_suffix (lit ":*") spec with Some s => (s, true) | None => (spec, false) end in
    match shlex_split prefix with
    | None => false
    | Some rule_tokens =>
        if wildcard then
          (length rule_tokens <=? length (tokens sub))%nat
          && bool_decide (take (length rule_tokens) (tokens sub) = rule_tokens)
        else bool_decide (tokens sub = rule_tokens)
    end.

End Parse.

Definition CATASTROPHIC : list str :=
  map lit ["rm -rf /"; "rm -rf ~"; "rm -rf /*"; "rm -fr /"; "rm -fr ~"; "rm -fr /*";
           "rm -rf $HOME"; "rm -rf $PWD"; "mkfs"; "dd of=/dev/"; "chmod -R 777 /";
           ":(){:|:&};:"; "shutdown"; "reboot"; "halt -p"; "init 0"]%string.
Definition is_catastrophic (sub : Sub) : bool := existsb (contains (raw sub)) CATASTROPHIC.
Definition is_catastrophic_cmd (cmd : str) : bool := existsb (contains cmd) CATASTROPHIC.

Definition ALWAYS_ASK_MARKERS : list str :=
  map lit ["sudo"; "--force"; "| sh"; "| bash"; "|sh"; "|bash"]%string.
Definition is_always_ask (cmd : str) : bool := existsb (contains cmd) ALWAYS_ASK_MARKERS.

(** ** The reference: segmentation by the shell's quoting rules

    Nothing is escaped in single quotes; a backslash escapes the next character
    in double quotes and outside quotes. *)

Fixpoint shell_segments (chars cur : str) (quote : option char) : list str :=
  match chars with
  | [] => [cur]
  | c :: rest =>
      if (c =? 92) && negb (bool_decide (quote = Some 39)) then
        match rest with
        | d :: rest' => shell_segments rest' (cur ++ [c; d]) quote
        | [] => [cur ++ [c]]
        end
      else
        match quote with
        | Some q => shell_segments rest (cur ++ [c]) (if c =? q then None else quote)
        | None =>
            if is_quote c then shell_segments rest (cur ++ [c]) (Some c)
            else if is_sep c then
              cur :: match rest with
                     | d :: rest' =>
                         if ((c =? 38) || (c =? 124)) && (d =? c) then shell_segments rest' [] None
                         else shell_segments rest [] None
                     | [] => shell_segments rest [] None
                     end
            else shell_segments rest (cur ++ [c]) None
        end
  end.
Definition shell_split (cmd : str) : list str := shell_segments cmd [] None.

(** Backslashes occur in [chars] only inside double quotes. *)
Fixpoint escapes_in_double (chars : str) (quote : option char) : bool :=
  match chars with
  | [] => true
  | c :: rest =>
      if c =? 92 then
        bool_decide (quote = Some 34) &&
        match rest with _ :: rest' => escapes_in_double rest' quote | [] => true end
      else
        match quote with
        | Some q => escapes_in_double rest (if c =? q then None else quote)
        | None => escapes_in_double rest (if is_quote c then Some c else None)
        end
  end.

(** The pieces of a command that are not blank, trimmed. *)
Definition nonblank (l : list str) : list str := base.filter (fun s => s <> []) (map trim l).

(** ** Segmentation *)

Lemma emit_trim cur : map trim (if is_nil (trim cur) then [] else [cur]) = nonblank [cur].
Proof.
  unfold nonblank. simpl. destruct (is_nil (trim cur)) eqn:E.
  - apply is_nil_true in E. rewrite filter_cons_False by naive_solver. done.
  - rewrite filter_cons_True; [done|]. intros H. by rewrite H in E.
Qed.

Lemma nonblank_app a b : nonblank (a ++ b) = nonblank a ++ nonblank b.
Proof. unfold nonblank. by rewrite map_app, list.filter_app. Qed.

Lemma nonblank_trim a b : map trim a = map trim b -> nonblank a = nonblank b.
Proof. unfold nonblank. by intros ->. Qed.

(** The two loops run in step; the code's [cur] may carry blanks that the
    reference dropped with an empty piece. *)
Lemma split_loop_reference n : forall s b cur q,
  (length s <= n)%nat -> blank b -> escapes_in_double s q = true ->
  map trim (split_loop s (b ++ cur) q) = nonblank (shell_segments s cur q).
Proof.
  induction n as [|n IH]; intros s b cur q Hn Hb He;
    (destruct s as [|c s];
     [simpl; rewrite emit_trim; apply nonblank_trim; simpl; by rewrite trim_blank_app|]);
    cbn [length] in Hn; [lia|].
  assert (forall s' cur' q', (length s' <= n)%nat -> escapes_in_double s' q' = true ->
    map trim (split_loop s' (b ++ cur') q') = nonblank (shell_segments s' cur' q')) as IH'
    by (intros; by apply IH).
  cbn [split_loop shell_segments escapes_in_double] in *. destruct (Z.eqb_spec c 92) as [->|Hc].
  - apply andb_prop in He as [Hq He]. apply bool_decide_eq_true in Hq as ->.
    cbn [andb negb bool_decide]. rewrite bool_decide_false by done. cbn [negb].
    destruct s as [|d s]; rewrite <- app_assoc.
    + change (nonblank [cur ++ [92]]) with (nonblank (shell_segments [] (cur ++ [92]) (Some 34))).
      apply IH'; [simpl; lia|done].
    + apply IH'; [simpl in Hn; lia|done].
  - cbn [andb]. destruct q as [q|].
    + destruct (c =? q); rewrite <- app_assoc; (apply IH'; [lia|done]).
    + destruct (is_quote c); [rewrite <- app_assoc; (apply IH'; [lia|done])|].
      destruct (is_sep c); [|rewrite <- app_assoc; (apply IH'; [lia|done])].
      rewrite map_app, emit_trim.
      change (cur :: ?l) with ([cur] ++ l). rewrite nonblank_app. f_equal.
      { apply nonblank_trim. simpl. by rewrite trim_blank_app. }
      set (cur1 := if is_nil (trim (b ++ cur)) then b ++ cur else []).
      assert (blank cur1) as Hcur1.
      { unfold cur1. destruct (is_nil _) eqn:E; [|done]. by apply trim_nil, is_nil_true. }
      replace cur1 with (cur1 ++ []) by apply app_nil_r.
      destruct s as [|d s]; [apply IH; [simpl; lia|done|done]|].
      destruct (((c =? 38) || (c =? 124)) && (d =? c)) eqn:Ed; [|apply IH; [lia|done|done]].
      apply andb_prop in Ed as [Ed1 Ed2]. apply Z.eqb_eq in Ed2 as ->.
      apply IH; [simpl in Hn; lia|done|].
      cbn [escapes_in_double] in He. destruct (Z.eqb_spec c 92); [done|].
      destruct (is_quote c) eqn:Eq; [|done]. unfold is_quote in Eq. lia.
Qed.

(** On a command whose backslashes all lie inside double quotes, the
    splitter finds exactly the sub-commands that the shell's own quoting rules
    give: the same pieces in the same order, up to surrounding blanks, with the
    blank ones dropped. *)
Theorem split_subcommands_reference cmd (H : escapes_in_double cmd None = true) :
  map trim (split_subcommands cmd) = nonblank (shell_split cmd).
Proof. by apply (split_loop_reference (length cmd) cmd [] [] None). Qed.

Lemma split_subcommands_reference_witness :
  let cmd := lit "git add . && echo 'a; b' | grep -v x ;; ls" in
  map trim (split_subcommands cmd) = nonblank (shell_split cmd) /\
  split_subcommands cmd <> [].
Proof.
  split; [apply split_subcommands_reference; vm_compute; reflexivity | vm_compute; discriminate].
Defined.

(** ** Every piece is a piece of the command *)

Lemma trim_drop_ws s : trim s = trim_end (drop_ws s).
Proof. done. Qed.

Lemma drop_ws_snoc cur c : drop_ws (cur ++ [c]) = drop_ws cur ++ [c] \/ drop_ws (cur ++ [c]) = [].
Proof.
  induction cur as [|d cur IH]; simpl; [destruct (is_ws c); auto|].
  destruct (is_ws d); [done|]. by left.
Qed.

Lemma drop_ws_app cur s : exists a, drop_ws cur ++ s = a ++ drop_ws (cur ++ s).
Proof.
  induction cur as [|c cur IH]; simpl.
  - destruct (drop_ws_suffix s) as (b & _ & Hb). by exists b.
  - destruct (is_ws c); [done|]. by exists [].
Qed.

Lemma infix_app_r p a s : infix_of p s -> infix_of p (a ++ s).
Proof. intros (x & y & ->). exists (a ++ x), y. by rewrite <- app_assoc. Qed.

Lemma infix_step p cur s t : infix_of p (drop_ws (cur ++ s) ++ t) -> infix_of p (drop_ws cur ++ s ++ t).
Proof.
  intros H. rewrite app_assoc. destruct (drop_ws_app cur s) as (a & ->).
  rewrite <- app_assoc. by apply infix_app_r.
Qed.

Lemma emit_infix p cur t :
  p ∈ map trim (if is_nil (trim cur) then [] else [cur]) -> infix_of p (drop_ws cur ++ t).
Proof.
  destruct (is_nil (trim cur)); simpl; [set_solver|]. rewrite list_elem_of_singleton. intros ->.
  rewrite trim_drop_ws. destruct (trim_end_prefix (drop_ws cur)) as (b & Hb).
  exists [], (b ++ t). rewrite Hb at 1. by rewrite <- app_assoc.
Qed.

Lemma split_loop_infix n : forall s cur q p,
  (length s <= n)%nat -> p ∈ map trim (split_loop s cur q) -> infix_of p (drop_ws cur ++ s).
Proof.
  induction n as [|n IH]; intros s cur q p Hn Hp;
    (destruct s as [|c s]; [by apply emit_infix|]); cbn [length] in Hn; [lia|].
  assert (forall q', p ∈ map trim (split_loop s (cur ++ [c]) q') -> infix_of p (drop_ws cur ++ c :: s))
    as IH1 by (intros q' H; apply (infix_step p cur [c] s), (IH _ _ q'); [lia|done]).
  cbn [split_loop] in Hp. destruct q as [q|].
  - destruct (c =? 92).
    + destruct s as [|d s]; [by eapply IH1|]. simpl in Hn.
      apply (infix_step p cur [c; d] s), (IH _ _ (Some q)); [lia|done].
    + destruct (c =? q); by eapply IH1.
  - destruct (is_quote c); [by eapply IH1|]. destruct (is_sep c); [|by eapply IH1].
    rewrite map_app, elem_of_app in Hp. destruct Hp as [Hp|Hp]; [by apply emit_infix|].
    set (cur1 := if is_nil (trim cur) then cur else []) in *.
    assert (drop_ws cur1 = []) as Hcur1.
    { unfold cur1. destruct (is_nil _) eqn:E; [|done]. apply drop_ws_nil. by apply trim_nil, is_nil_true. }
    apply infix_app_r.
    assert (forall s', (length s' <= n)%nat -> p ∈ map trim (split_loop s' cur1 None) -> infix_of p s') as IH2.
    { intros s' Hs' H'. apply IH in H'; [|done]. by rewrite Hcur1 in H'. }
    destruct s as [|d s]; [apply (infix_app_r p [c] []); apply IH2; [simpl; lia|done]|]. simpl in Hn.
    destruct (((c =? 38) || (c =? 124)) && (d =? c)).
    + apply (infix_app_r p [c; d] s). apply IH2; [lia|done].
    + apply (infix_app_r p [c] (d :: s)). apply IH2; [simpl; lia|done].
Qed.

Section ParseFacts.
Context `{Shlex}.

(** What a successful parse returns: the trimmed pieces that have tokens. *)
Lemma parse_subs_Some pieces acc subs :
  parse_subs pieces acc = Some subs ->
  exists new, subs = acc ++ new /\
    Forall (fun s => raw s ∈ map trim pieces /\ raw s <> [] /\ is_reentry (raw s) = false /\
                     shlex_split (raw s) = Some (tokens s) /\ tokens s <> []) new /\
    Forall (fun p => trim p <> [] -> shlex_split (trim p) = Some [] \/ trim p ∈ map raw new) pieces.
Proof.
  revert acc. induction pieces as [|p pieces IH]; intros acc; simpl.
  { intros [= ->]. exists []. by rewrite app_nil_r. }
  destruct (is_nil (trim p)) eqn:En.
  { intros (new & -> & Hn & Hp)%IH. apply is_nil_true in En. exists new. split; [done|]. split.
    - eapply Forall_impl; [|exact Hn]. simpl. set_solver.
    - by apply list.Forall_cons. }
  destruct (is_reentry (trim p)) eqn:Er; [done|].
  destruct (shlex_split (trim p)) as [toks|] eqn:Es; [|done].
  destruct (is_nil toks) eqn:Et.
  { intros (new & -> & Hn & Hp)%IH. apply is_nil_true in Et as ->. exists new. split; [done|]. split.
    - eapply Forall_impl; [|exact Hn]. simpl. set_solver.
    - apply list.Forall_cons. auto. }
  intros (new & -> & Hn & Hp)%IH. exists (MkSub (trim p) toks :: new).
  split; [by rewrite <- app_assoc|]. rewrite !list.Forall_cons. simpl.
  assert (trim p <> []) by (intros E; by rewrite E in En).
  assert (toks <> []) by (intros ->; done).
  split; [split; [set_solver|]|split].
  - eapply Forall_impl; [|exact Hn]. simpl. set_solver.
  - set_solver.
  - eapply Forall_impl; [|exact Hp]. simpl. set_solver.
Qed.

Lemma parse_bash_parsed cmd :
  unparseable (parse_bash cmd) = false ->
  contains_char cmd 36 = false /\ contains_char cmd 96 = false /\
  parse_subs (split_subcommands cmd) [] = Some (subcommands (parse_bash cmd)).
Proof.
  unfold parse_bash. destruct (contains_char cmd 36), (contains_char cmd 96); simpl; try done.
  by destruct (parse_subs _ _).
Qed.

Lemma parse_bash_infix cmd s :
  s ∈ subcommands (parse_bash cmd) -> infix_of (raw s) cmd.
Proof.
  intros Hs. destruct (unparseable (parse_bash cmd)) eqn:E.
  - unfold parse_bash in *. destruct (contains_char cmd 36 || contains_char cmd 96); [set_solver|].
    destruct (parse_subs _ _); [done|set_solver].
  - apply parse_bash_parsed in E as (_ & _ & E). apply parse_subs_Some in E as (new & E & Hn & _).
    simpl in E. rewrite E in Hs. rewrite list.Forall_forall in Hn.
    apply Hn in Hs as [Hr _]. apply (split_loop_infix (length cmd)) in Hr; done.
Qed.

(** A parsed command has no substitution, and every sub-command is a
    non-empty trimmed piece of the command text that is no re-entry builtin and
    carries its own [shlex] tokens; and no piece is lost: each non-blank piece
    is a sub-command unless [shlex] finds no word in it (a comment). *)
Theorem parse_bash_complete cmd (H0 : unparseable (parse_bash cmd) = false) :
  contains_char cmd 36 = false /\ contains_char cmd 96 = false /\
  Forall (fun s => infix_of (raw s) cmd /\ is_reentry (raw s) = false /\
                   shlex_split (raw s) = Some (tokens s) /\ tokens s <> [])
         (subcommands (parse_bash cmd)) /\
  Forall (fun p => shlex_split p = Some [] \/ p ∈ map raw (subcommands (parse_bash cmd)))
         (nonblank (split_subcommands cmd)).
Proof.
  apply parse_bash_parsed in H0 as (H1 & H2 & E). split; [done|]. split; [done|].
  pose proof (fun s => parse_bash_infix cmd s) as Hinf.
  apply parse_subs_Some in E as (new & E & Hn & Hp). simpl in E. rewrite E in *. split.
  - apply list.Forall_forall. intros s Hs. rewrite list.Forall_forall in Hn.
    destruct (Hn s Hs) as (_ & _ & ? & ? & ?). auto.
  - unfold nonblank. apply list.Forall_forall. intros p [Hne (q & -> & Hq)%list_elem_of_fmap]%list_elem_of_filter.
    rewrite list.Forall_forall in Hp. by apply Hp.
Qed.

(** The check of the raw command text covers the check of its parts: a
    command with a catastrophic sub-command is itself catastrophic. *)
Theorem catastrophic_sub_cmd cmd s
  (Hs : s ∈ subcommands (parse_bash cmd)) (Hc : is_catastrophic s = true) :
  is_catastrophic_cmd cmd = true.
Proof.
  apply parse_bash_infix in Hs. unfold is_catastrophic, is_catastrophic_cmd in *.
  apply existsb_exists in Hc as (p & Hp & Hc). apply existsb_exists. exists p. split; [done|].
  apply contains_spec. apply contains_spec in Hc. by eapply infix_of_trans.
Qed.

End ParseFacts.

(** ** A concrete tokenizer

    Words separated by blanks; single quotes keep everything, double quotes and
    unquoted text take a backslash-escaped character literally. *)

Definition flush (inword : bool) (w : str) (ws : list str) : list str := if inword then ws ++ [w] else ws.

Fixpoint words_loop (s : str) (q : option char) (inword : bool) (w : str) (ws : list str)
  : option (list str) :=
  match s with
  | [] => match q with Some _ => None | None => Some (flush inword w ws) end
  | c :: s1 =>
      match q with
      | None =>
          if (c =? 32) || (c =? 9) || (c =? 10) then words_loop s1 None false [] (flush inword w ws)
          else if is_quote c then words_loop s1 (Some c) true w ws
          else if c =? 92 then match s1 with [] => None | d :: s2 => words_loop s2 None true (w ++ [d]) ws end
          else words_loop s1 None true (w ++ [c]) ws
      | Some k =>
          if c =? k then words_loop s1 None true w ws
          else if (c =? 92) && (k =? 34) then
            match s1 with [] => None | d :: s2 => words_loop s2 q true (w ++ [d]) ws end
          else words_loop s1 q true (w ++ [c]) ws
      end
  end.
Definition words (s : str) : option (list str) := words_loop s None false [] [].

Lemma parse_bash_complete_witness :
  unparseable (@parse_bash words (lit "cargo test && git diff | cat")) = false /\
  map raw (subcommands (@parse_bash words (lit "cargo test && git diff | cat")))
    = map lit ["cargo test"; "git diff"; "cat"]%string /\
  Forall (fun p => words p = Some [] \/ p ∈ map raw (subcommands (@parse_bash words (lit "cargo test && git diff | cat"))))
         (nonblank (split_subcommands (lit "cargo test && git diff | cat"))).
Proof.
  assert (unparseable (@parse_bash words (lit "cargo test && git diff | cat")) = false) as H
    by (vm_compute; reflexivity).
  split; [exact H|]. split; [vm_compute; reflexivity|].
  exact (proj2 (proj2 (proj2 (@parse_bash_complete words _ H)))).
Defined.

Lemma catastrophic_sub_cmd_witness :
  is_catastrophic_cmd (lit "cd x && rm -rf /") = true.
Proof.
  apply (@catastrophic_sub_cmd words _ (MkSub (lit "rm -rf /") (map lit ["rm"; "-rf"; "/"]%string))).
  - by_decide.
  - vm_compute. reflexivity.
Defined.

(** ** Where the splitter departs from the shell

    In single quotes the shell takes a backslash literally, and outside quotes
    a backslash escapes a quote; the splitter does the opposite of both, and
    then hides separators from the rules. *)

(** The command [echo '\' ; rm notes ; echo '\']. *)
Definition hidden_single : str := lit "echo '\' ; rm notes ; echo '\'".
(** The command [echo \' ; rm notes ; echo \']. *)
Definition hidden_escape : str := lit "echo \' ; rm notes ; echo \'".

(** Two commands that the shell runs as three sub-commands, one of them
    [rm notes], are one sub-command for the code, so that the rule [echo:*]
    alone covers the whole line. *)
Theorem split_hides_separator :
  Forall (fun cmd =>
    nonblank (shell_split cmd) <> map trim (split_subcommands cmd) /\
    lit "rm notes" ∈ nonblank (shell_split cmd) /\
    unparseable (@parse_bash words cmd) = false /\
    length (subcommands (@parse_bash words cmd)) = 1%nat /\
    forallb (@rule_matches words (lit "echo:*")) (subcommands (@parse_bash words cmd)) = true)
    [hidden_single; hidden_escape].
Proof.
  rewrite !list.Forall_cons. split_and!; try done.
  all: try (vm_compute; reflexivity).
  all: try (intros H; vm_compute in H; discriminate H).
  all: by_decide.
Qed.
