(* ===== verification/PermRules.v ===== *)
(** The permission rule engine (src/crates/rc-perm/src/rules.rs).  JSON values,
    the [shlex] tokenizer and the [globset] matcher are interfaces. *)

From S2P Require Import Prelude Json PathLib PermBash.

Inductive Decision := Allow | Deny (why : str) | AskUser (why : str).
Inductive Mode := MDefault | MAcceptEdits | MPlan | MAsk | MAuto.

#[export] Instance decision_eq_dec : EqDecision Decision.
Proof. solve_decision. Defined.
#[export] Instance mode_eq_dec : EqDecision Mode.
Proof. solve_decision. Defined.

(** ** Modes and their two codecs *)

Definition mode_parse (s : str) : Mode :=
  if str_eqb s (lit "acceptEdits") then MAcceptEdits
  else if str_eqb s (lit "plan") then MPlan
  else if str_eqb s (lit "ask") then MAsk
  else if str_eqb s (lit "auto") || str_eqb s (lit "bypassPermissions") then MAuto
  else MDefault.

Definition mode_as_str (m : Mode) : str :=
  match m with
  | MDefault => lit "default" | MAcceptEdits => lit "acceptEdits" | MPlan => lit "plan"
  | MAsk => lit "ask" | MAuto => lit "auto"
  end.

Definition mode_to_u8 (m : Mode) : Z :=
  match m with MDefault => 0 | MAcceptEdits => 1 | MPlan => 2 | MAuto => 3 | MAsk => 4 end.

Definition mode_from_u8 (v : Z) : Mode :=
  if v =? 1 then MAcceptEdits else if v =? 2 then MPlan else if v =? 3 then MAuto
  else if v =? 4 then MAsk else MDefault.

(** ** Tools and rules *)

Definition is_mcp (tool : str) : bool := starts_with tool (lit "mcp__").
Definition is_mutating (tool : str) : bool :=
  bool_decide (tool ∈ map lit ["Edit"; "Write"; "Append"; "Bash"; "NotebookEdit"; "Task"]%string)
  || is_mcp tool.

Definition rule_covers (rule_tool tool : str) : bool :=
  str_eqb rule_tool tool
  || (is_mcp rule_tool
      && negb (contains (drop 5 rule_tool) (lit "__"))
      && match strip_prefix rule_tool tool with
         | Some rest => starts_with rest (lit "__")
         | None => false
         end).

Definition requires_confirmation (tool suffix : str) : Decision :=
  AskUser (tool ++ lit " requires confirmation" ++ suffix).

Definition mode_default (tool : str) (mode : Mode) : Decision :=
  match mode with
  | MDefault => if is_mutating tool then requires_confirmation tool [] else Allow
  | MAcceptEdits =>
      if str_eqb tool (lit "Bash") || is_mcp tool then requires_confirmation tool [] else Allow
  | MPlan => if is_mutating tool then Deny (lit "mutating tools are disabled in plan mode") else Allow
  | MAsk => requires_confirmation tool (lit " (ask mode)")
  | MAuto => Allow
  end.

Record Rule := MkRule { rule_tool : str; rule_spec : option str }.

Definition rule_parse (s0 : str) : option Rule :=
  let s := trim s0 in
  if is_nil s then None
  else
    match find_char s 40, rposition (Z.eqb 41) s with
    | Some open, Some close =>
        if (open <? close)%nat then
          Some (MkRule (trim (take open s)) (Some (take (close - S open) (drop (S open) s))))
        else Some (MkRule s None)
    | _, _ => Some (MkRule s None)
    end.

Definition parse_rules (l : list str) : list Rule := omap rule_parse l.

(** ** The engine *)

(** [GlobBuilder::new(spec).literal_separator(false).build()] and the matcher
    it compiles to; [None] is a glob that does not build. *)
Class Globset := glob_build : str -> option (str -> bool).

Record PermissionEngine := MkEngine {
  pe_mode : Z;
  pe_deny : list Rule;
  pe_allow : list Rule;
  pe_ask : list Rule
}.

Definition engine_new (mode : Mode) (deny allow ask : list str) : PermissionEngine :=
  MkEngine (mode_to_u8 mode) (parse_rules deny) (parse_rules allow) (parse_rules ask).
Definition engine_mode (e : PermissionEngine) : Mode := mode_from_u8 (pe_mode e).
Definition set_mode (e : PermissionEngine) (m : Mode) : PermissionEngine :=
  MkEngine (mode_to_u8 m) (pe_deny e) (pe_allow e) (pe_ask e).

Definition bash_specs (rules : list Rule) : list str :=
  omap rule_spec (base.filter (fun r => rule_tool r = lit "Bash") rules).
Definition bash_any (rules : list Rule) : bool :=
  existsb (fun r => str_eqb (rule_tool r) (lit "Bash") && match rule_spec r with None => true | _ => false end) rules.

Section Engine.
Context `{JsonApi} `{Shlex} `{Globset}.

Definition path_of_input (input : Value) : option str :=
  match (match j_get input (lit "file_path") with Some v => Some v | None => j_get input (lit "path") end) with
  | Some v => j_as_str v
  | None => None
  end.

Definition path_matches (rule : Rule) (input : Value) (cwd : str) : bool :=
  match rule_spec rule with
  | None => true
  | Some spec =>
      match path_of_input input with
      | None => false
      | Some p =>
          let abs := if is_absolute p then p else push_path cwd p in
          let rel := match path_strip_prefix abs cwd with Some r => r | None => abs end in
          let spec := match strip_prefix (lit "./") spec with Some s => s | None => spec end in
          match glob_build spec with Some m => m rel | None => false end
      end
  end.

(** The guard of the four rule loops of [check]. *)
Definition rule_applies (r : Rule) (tool : str) (input : Value) (cwd : str) : bool :=
  rule_covers (rule_tool r) tool
  && (match rule_spec r with None => true | Some _ => false end || path_matches r input cwd).

Definition all_match (any : bool) (specs : list str) (subs : list Sub) : bool :=
  negb (is_nil subs) && forallb (fun s => any || existsb (fun g => rule_matches g s) specs) subs.
Definition any_match (specs : list str) (subs : list Sub) : bool :=
  existsb (fun s => existsb (fun r => rule_matches r s) specs) subs.

Definition bash_check (e : PermissionEngine) (cmd : str) (grants : list Rule) (mode : Mode) : Decision :=
  if is_catastrophic_cmd cmd then Deny (lit "destructive command refused")
  else if decide (mode = MAuto) then Allow
  else
    let parsed := parse_bash cmd in
    let subs := subcommands parsed in
    if unparseable parsed then AskUser (lit "complex or unparseable command " ++ [8212] ++ lit " needs approval")
    else if all_match (bash_any grants) (bash_specs grants) subs then Allow
    else if is_always_ask cmd then AskUser (lit "always-ask command (e.g. sudo, force push)")
    else if any_match (bash_specs (pe_deny e)) subs then Deny (lit "denied by a rule")
    else if all_match (bash_any (pe_allow e)) (bash_specs (pe_allow e)) subs then Allow
    else if any_match (bash_specs (pe_ask e)) subs then AskUser (lit "asked by a rule")
    else mode_default (lit "Bash") mode.

(** The loop over the paths of a [ReadMany] call: the first decision that is
    not [Allow] is the answer. *)
Fixpoint first_refusal (l : list Decision) : option Decision :=
  match l with
  | [] => None
  | Allow :: l' => first_refusal l'
  | d :: _ => Some d
  end.

Definition read_input (path : str) : Value := j_obj [(lit "file_path", j_str path)].

(** [PermissionEngine::check]; [self] is the recursive call. *)
Definition check_body (self : str -> Value -> Decision) (e : PermissionEngine)
    (tool : str) (input : Value) (cwd : str) (grants : list str) : Decision :=
  let mode := engine_mode e in
  let grant_rules := parse_rules grants in
  let applies rules := existsb (fun r => rule_applies r tool input cwd) rules in
  if negb (str_eqb tool (lit "Bash")) && applies grant_rules then Allow
  else if str_eqb tool (lit "Bash") then
    match (match j_get input (lit "command") with Some v => j_as_str v | None => None end) with
    | Some cmd => bash_check e cmd grant_rules mode
    | None => AskUser (lit "Bash call without a command")
    end
  else if decide (mode = MAuto) then Allow
  else if applies (pe_deny e) then Deny (lit "denied by a rule")
  else if applies (pe_allow e) then Allow
  else if applies (pe_ask e) then AskUser (lit "asked by a rule")
  else
    match (if str_eqb tool (lit "ReadMany") then
             match j_get input (lit "file_paths") with Some v => j_as_array v | None => None end
           else None) with
    | Some paths =>
        match first_refusal (map (fun p => self (lit "Read") (read_input p)) (omap j_as_str paths)) with
        | Some d => d
        | None => Allow
        end
    | None => mode_default tool mode
    end.

(** The recursion is one level deep: a [Read] never reaches the recursive call. *)
Definition check (e : PermissionEngine) (tool : str) (input : Value) (cwd : str) (grants : list str) : Decision :=
  check_body (fun t i => check_body (fun _ _ => Allow) e t i cwd grants) e tool input cwd grants.

Definition allow_all_check (tool : str) (input : Value) : Decision := Allow.

Definition bypass_check_call (tool : str) (input : Value) : Decision :=
  if str_eqb tool (lit "Bash") then
    match (match j_get input (lit "command") with Some v => j_as_str v | None => None end) with
    | Some cmd =>
        if is_catastrophic_cmd cmd then Deny (lit "destructive command refused (even in bypass)") else Allow
    | None => Allow
    end
  else Allow.

End Engine.

(** ** Lemmas *)

#[local] Arguments lit : simpl never.
#[local] Arguments str_eqb : simpl never.

Lemma mode_u8_roundtrip m : mode_from_u8 (mode_to_u8 m) = m.
Proof. by destruct m. Qed.

Lemma engine_mode_set e m : engine_mode (set_mode e m) = m.
Proof. apply mode_u8_roundtrip. Qed.

Lemma first_refusal_None l : first_refusal l = None <-> Forall (fun d => d = Allow) l.
Proof.
  induction l as [|[] l IH]; simpl; rewrite ?list.Forall_cons; naive_solver.
Qed.

Lemma first_refusal_Some l d :
  first_refusal l = Some d ->
  exists a b, l = a ++ d :: b /\ Forall (fun x => x = Allow) a /\ d <> Allow.
Proof.
  induction l as [|x l IH]; simpl; [done|]. destruct x.
  - intros (a & b & -> & Ha & Hd)%IH. exists (Allow :: a), b. rewrite list.Forall_cons. auto.
  - intros [= <-]. by exists [], l.
  - intros [= <-]. by exists [], l.
Qed.

Section Facts.
Context `{JsonApi} `{Shlex} `{Globset}.

(** Some rule of the list covers the call. *)
Definition covered (rules : list Rule) (tool : str) (input : Value) (cwd : str) : bool :=
  existsb (fun r => rule_applies r tool input cwd) rules.

(** A [Bash] command line matched by a rule list: every sub-command by some rule. *)
Definition bash_covered (rules : list Rule) (cmd : str) : Prop :=
  subcommands (parse_bash cmd) <> [] /\
  Forall (fun s => exists r, r ∈ rules /\ rule_tool r = lit "Bash" /\
            match rule_spec r with None => True | Some sp => rule_matches sp s = true end)
         (subcommands (parse_bash cmd)).

Lemma bash_specs_elem rules sp :
  sp ∈ bash_specs rules <-> exists r, r ∈ rules /\ rule_tool r = lit "Bash" /\ rule_spec r = Some sp.
Proof.
  unfold bash_specs. rewrite list_elem_of_omap. setoid_rewrite list_elem_of_filter. naive_solver.
Qed.

Lemma bash_any_spec rules :
  bash_any rules = true <-> exists r, r ∈ rules /\ rule_tool r = lit "Bash" /\ rule_spec r = None.
Proof.
  unfold bash_any. rewrite existsb_exists. setoid_rewrite <- list_elem_of_In.
  setoid_rewrite andb_true_iff. setoid_rewrite str_eqb_eq.
  split; intros (r & ?); exists r; destruct (rule_spec r); naive_solver.
Qed.

Lemma all_match_covered rules cmd :
  all_match (bash_any rules) (bash_specs rules) (subcommands (parse_bash cmd)) = true ->
  bash_covered rules cmd.
Proof.
  unfold all_match, bash_covered. intros [Hn Hf]%andb_prop.
  split; [by destruct (subcommands (parse_bash cmd))|].
  rewrite forallb_forall in Hf. apply list.Forall_forall. intros s Hs.
  apply list_elem_of_In, Hf, orb_prop in Hs as [Ha|Hm].
  - apply bash_any_spec in Ha as (r & Hr & Ht & Hsp). exists r. by rewrite Hsp.
  - apply existsb_exists in Hm as (sp & Hsp & Hm). apply list_elem_of_In, bash_specs_elem in Hsp as (r & Hr & Ht & E).
    exists r. by rewrite E.
Qed.

Lemma mode_default_bash m : m <> MAuto -> mode_default (lit "Bash") m <> Allow.
Proof. destruct m; simpl; try done; unfold requires_confirmation; done. Qed.

Lemma check_bash e input cwd grants cmd :
  j_get input (lit "command") = Some (j_str cmd) -> j_as_str (j_str cmd) = Some cmd ->
  check e (lit "Bash") input cwd grants = bash_check e cmd (parse_rules grants) (engine_mode e).
Proof. intros Hg Hs. unfold check, check_body. by rewrite str_eqb_refl, Hg, Hs. Qed.


(** A call that is not a [ReadMany] does not use the recursive call. *)
Lemma check_body_self f g e tool input cwd grants :
  tool <> lit "ReadMany" ->
  check_body f e tool input cwd grants = check_body g e tool input cwd grants.
Proof.
  intros Hne. unfold check_body. by rewrite !(str_eqb_ne _ _ Hne).
Qed.

Lemma check_body_ext f g e tool input cwd grants :
  (forall i, f (lit "Read") i = g (lit "Read") i) ->
  check_body f e tool input cwd grants = check_body g e tool input cwd grants.
Proof.
  intros Hfg. unfold check_body.
  match goal with |- context [match ?x with Some _ => _ | None => mode_default _ _ end] =>
    destruct x as [paths|] end; [|done].
  by rewrite (map_ext (fun p => f (lit "Read") (read_input p)) (fun p => g (lit "Read") (read_input p)))
    by (intros; apply Hfg).
Qed.

Lemma read_ne : lit "Read" <> lit "ReadMany".
Proof. done. Qed.

Lemma check_body_rec e tool input cwd grants :
  check e tool input cwd grants =
  check_body (fun t i => check e t i cwd grants) e tool input cwd grants.
Proof.
  apply check_body_ext. intros i. unfold check. apply check_body_self, read_ne.
Qed.

(** The engine's [check] solves the recursive equation of the source: the
    members of a [ReadMany] call are checked by the same function. *)
Theorem check_equation e tool input cwd grants :
  check e tool input cwd grants =
  check_body (fun t i => check e t i cwd grants) e tool input cwd grants.
Proof. apply check_body_rec. Qed.

(** C29: A catastrophic command line is denied by the engine in every mode,
    whatever the rules and the session grants are, and by the bypass checker. *)
Theorem catastrophic_always_denied e input cwd grants cmd
  (Hcmd : j_get input (lit "command") = Some (j_str cmd)) (Hstr : j_as_str (j_str cmd) = Some cmd)
  (Hcat : is_catastrophic_cmd cmd = true) :
  (exists why, check e (lit "Bash") input cwd grants = Deny why) /\
  (exists why, bypass_check_call (lit "Bash") input = Deny why) /\
  (forall m, exists why, check (set_mode e m) (lit "Bash") input cwd grants = Deny why).
Proof.
  unfold bypass_check_call. rewrite str_eqb_refl, Hcmd, Hstr, Hcat.
  split; [|split; [eauto|intros m]]; rewrite (check_bash _ _ _ _ cmd) by done;
    unfold bash_check; rewrite Hcat; eauto.
Qed.

(** Outside the auto mode a [Bash] call is allowed only when the command
    parses, has at least one sub-command, is not catastrophic, and every
    sub-command is matched by a session grant, or by an allow rule while no
    sub-command matches a deny rule and no always-ask marker occurs. *)
Theorem bash_allow_sound e input cwd grants
  (Hmode : engine_mode e <> MAuto) (Hallow : check e (lit "Bash") input cwd grants = Allow) :
  exists cmd v,
    j_get input (lit "command") = Some v /\ j_as_str v = Some cmd /\
    is_catastrophic_cmd cmd = false /\ unparseable (parse_bash cmd) = false /\
    (bash_covered (parse_rules grants) cmd \/
     (bash_covered (pe_allow e) cmd /\ is_always_ask cmd = false /\
      any_match (bash_specs (pe_deny e)) (subcommands (parse_bash cmd)) = false)).
Proof.
  unfold check, check_body in Hallow. rewrite str_eqb_refl in Hallow. simpl in Hallow.
  destruct (j_get input (lit "command")) as [v|]; [|done].
  destruct (j_as_str v) as [cmd|] eqn:Ev; [|done]. exists cmd, v.
  unfold bash_check in Hallow. destruct (is_catastrophic_cmd cmd); [done|].
  rewrite decide_False in Hallow by done. destruct (unparseable (parse_bash cmd)); [done|].
  split_and!; try done.
  destruct (all_match (bash_any (parse_rules grants)) _ _) eqn:Eg; [left; by apply all_match_covered|].
  destruct (is_always_ask cmd); [done|]. destruct (any_match (bash_specs (pe_deny e)) _); [done|].
  destruct (all_match (bash_any (pe_allow e)) _ _) eqn:Ea; [right; split; [by apply all_match_covered|done]|].
  destruct (any_match (bash_specs (pe_ask e)) _); [done|]. by apply mode_default_bash in Hallow.
Qed.

(** The decision on a call of any tool but [Bash] and [ReadMany]: a session
    grant allows it, the auto mode allows it, else a covering deny rule beats an
    allow rule, which beats an ask rule, and the mode decides the rest. *)
Theorem path_tool_decision e tool input cwd grants
  (Hb : tool <> lit "Bash") (Hr : tool <> lit "ReadMany") :
  check e tool input cwd grants =
  if covered (parse_rules grants) tool input cwd then Allow
  else if decide (engine_mode e = MAuto) then Allow
  else if covered (pe_deny e) tool input cwd then Deny (lit "denied by a rule")
  else if covered (pe_allow e) tool input cwd then Allow
  else if covered (pe_ask e) tool input cwd then AskUser (lit "asked by a rule")
  else mode_default tool (engine_mode e).
Proof.
  unfold check, check_body, covered. rewrite (str_eqb_ne _ _ Hb), (str_eqb_ne _ _ Hr). done.
Qed.

(** In plan mode a mutating tool never runs without a rule or a grant that
    allows it: with neither, the engine denies it or asks. *)
Theorem plan_mode_blocks e tool input cwd grants
  (Hm : engine_mode e = MPlan) (Hmut : is_mutating tool = true)
  (Hg : covered (parse_rules grants) tool input cwd = false)
  (Ha : covered (pe_allow e) tool input cwd = false)
  (Hbash : tool = lit "Bash" -> forall cmd, ~ bash_covered (parse_rules grants) cmd /\ ~ bash_covered (pe_allow e) cmd) :
  check e tool input cwd grants <> Allow.
Proof.
  destruct (decide (tool = lit "Bash")) as [->|Hne].
  - unfold check, check_body. rewrite str_eqb_refl. cbn [negb andb].
    destruct (j_get input (lit "command")) as [v|]; [|done].
    destruct (j_as_str v) as [cmd|] eqn:Ev; [|done]. destruct (Hbash eq_refl cmd) as [Hbg Hba].
    unfold bash_check. rewrite Hm. destruct (is_catastrophic_cmd cmd); [done|].
    rewrite decide_False by done. destruct (unparseable (parse_bash cmd)); [done|].
    destruct (all_match (bash_any (parse_rules grants)) _ _) eqn:Eg; [by apply all_match_covered in Eg|].
    destruct (is_always_ask cmd); [done|]. destruct (any_match (bash_specs (pe_deny e)) _); [done|].
    destruct (all_match (bash_any (pe_allow e)) _ _) eqn:Ea; [by apply all_match_covered in Ea|].
    by destruct (any_match (bash_specs (pe_ask e)) _).
  - assert (tool <> lit "ReadMany") as Hr.
    { intros ->. vm_compute in Hmut. done. }
    unfold covered in *. unfold check, check_body.
    rewrite (str_eqb_ne _ _ Hne), (str_eqb_ne _ _ Hr), Hg, Ha, Hm, decide_False by done.
    cbn [negb andb mode_default]. rewrite Hmut. by repeat case_match.
Qed.

Lemma read_many_body e input cwd grants :
  engine_mode e <> MAuto ->
  covered (parse_rules grants) (lit "ReadMany") input cwd = false ->
  covered (pe_allow e) (lit "ReadMany") input cwd = false ->
  check e (lit "ReadMany") input cwd grants = Allow ->
  covered (pe_deny e) (lit "ReadMany") input cwd = false /\
  covered (pe_ask e) (lit "ReadMany") input cwd = false /\
  match (match j_get input (lit "file_paths") with Some v => j_as_array v | None => None end) with
  | Some paths => Forall (fun p => check e (lit "Read") (read_input p) cwd grants = Allow) (omap j_as_str paths)
  | None => mode_default (lit "ReadMany") (engine_mode e) = Allow
  end.
Proof.
  intros Hm Hg Ha. rewrite check_body_rec. unfold check_body. unfold covered in *.
  rewrite Hg, Ha, decide_False by done.
  rewrite (str_eqb_ne (lit "ReadMany") (lit "Bash")) by done. rewrite str_eqb_refl. cbn [negb andb].
  destruct (existsb _ (pe_deny e)); [done|]. destruct (existsb _ (pe_ask e)); [done|].
  destruct (j_get input (lit "file_paths")) as [v|]; [|done]. destruct (j_as_array v) as [paths|]; [|done].
  destruct (first_refusal _) eqn:Ef.
  - intros ->. apply first_refusal_Some in Ef as (? & ? & _ & _ & ?). done.
  - intros _. apply first_refusal_None in Ef. split; [done|]. split; [done|]. by rewrite Forall_map in Ef.
Qed.

(** A [ReadMany] call that no rule or grant names is allowed only if a
    plain [Read] of every path in it is allowed, so the batched tool cannot be
    used around the [Read] rules. *)
Theorem read_many_allow_sound e input cwd grants v paths
  (Hm : engine_mode e <> MAuto)
  (Hg : covered (parse_rules grants) (lit "ReadMany") input cwd = false)
  (Ha : covered (pe_allow e) (lit "ReadMany") input cwd = false)
  (Hv : j_get input (lit "file_paths") = Some v) (Hp : j_as_array v = Some paths)
  (Hallow : check e (lit "ReadMany") input cwd grants = Allow) :
  Forall (fun p => check e (lit "Read") (read_input p) cwd grants = Allow) (omap j_as_str paths).
Proof.
  apply read_many_body in Hallow as (_ & _ & H3); [|done..]. by rewrite Hv, Hp in H3.
Qed.

(** A bare [Bash] rule among the deny or the ask rules has no effect: every
    decision of the engine on a [Bash] call is the one without that rule. *)
Theorem bare_bash_rule_ignored mode deny allow ask input cwd grants :
  check (MkEngine mode (MkRule (lit "Bash") None :: deny) allow (MkRule (lit "Bash") None :: ask))
    (lit "Bash") input cwd grants =
  check (MkEngine mode deny allow ask) (lit "Bash") input cwd grants.
Proof.
  unfold check, check_body. rewrite str_eqb_refl. cbn [negb andb].
  destruct (j_get input (lit "command")) as [v|]; [|done]. by destruct (j_as_str v).
Qed.

(** In the ask mode with no rules and no grants every call is put to the
    user, except a [ReadMany] call with no path in its list, which is allowed. *)
Theorem ask_mode_asks e tool input cwd
  (Hm : engine_mode e = MAsk) (Hd : pe_deny e = []) (Ha : pe_allow e = []) (Hk : pe_ask e = []) :
  check e tool input cwd [] = Allow <->
  tool = lit "ReadMany" /\
  exists v paths, j_get input (lit "file_paths") = Some v /\ j_as_array v = Some paths /\
                  omap j_as_str paths = [].
Proof.
  destruct (decide (tool = lit "Bash")) as [->|Hne].
  { split; [|naive_solver]. intros Hc. exfalso. revert Hc. unfold check, check_body.
    rewrite str_eqb_refl. cbn [negb andb]. repeat case_match; try done. unfold bash_check.
    rewrite Hm, Hd, Ha, Hk, decide_False by done. repeat case_match; try done;
      match goal with Hc : all_match _ _ _ = true |- _ => apply all_match_covered in Hc as [? Hf] end;
      destruct (subcommands _); try done; apply list.Forall_cons in Hf as [(r & Hr & _) _]; set_solver. }
  destruct (decide (tool = lit "ReadMany")) as [->|Hr].
  2:{ split; [|naive_solver]. unfold check, check_body.
      rewrite (str_eqb_ne _ _ Hne), (str_eqb_ne _ _ Hr), Hm, Hd, Ha, Hk, decide_False by done. done. }
  assert (forall i, check e (lit "Read") i cwd [] <> Allow) as Hread.
  { intros i. unfold check, check_body.
    rewrite !(str_eqb_ne (lit "Read")) by done. rewrite Hm, Hd, Ha, Hk, decide_False by done. done. }
  split.
  - intros Hc. split; [done|]. apply read_many_body in Hc as (_ & _ & H3);
      [|by rewrite Hm|done|by rewrite Ha].
    rewrite Hm in H3. destruct (j_get input (lit "file_paths")) as [v|]; [|done].
    destruct (j_as_array v) as [paths|] eqn:Ep; [|done]. exists v, paths. split_and!; try done.
    destruct (omap j_as_str paths) as [|p ps]; [done|]. apply list.Forall_cons in H3 as [H3 _]. by apply Hread in H3.
  - intros (_ & v & paths & Hv & Hp & Ho). unfold check, check_body.
    rewrite (str_eqb_ne (lit "ReadMany") (lit "Bash")) by done.
    rewrite str_eqb_refl, Hm, Hd, Ha, Hk, decide_False, Hv, Hp, Ho by done. done.
Qed.

End Facts.

(** ** Codecs *)

(** Both codecs of the modes round-trip: the byte the engine stores and the
    name the settings file holds; the old name of the auto mode still reads. *)
Theorem mode_codecs m :
  mode_from_u8 (mode_to_u8 m) = m /\ mode_parse (mode_as_str m) = m /\ in_u 8 (mode_to_u8 m) /\
  mode_parse (lit "bypassPermissions") = MAuto /\ mode_to_u8 MAuto = 3 /\
  (forall e, engine_mode (set_mode e m) = m).
Proof.
  split_and!; try done; by destruct m.
Qed.

Lemma find_char_app a c s : Forall (fun x => x <> c) a -> find_char (a ++ c :: s) c = Some (length a).
Proof.
  induction 1 as [|x a Hx Ha IH]; simpl; [by rewrite Z.eqb_refl|].
  destruct (Z.eqb_spec x c); [done|]. by rewrite IH.
Qed.

Lemma rposition_last {A} (p : A -> bool) l x : p x = true -> rposition p (l ++ [x]) = Some (length l).
Proof. intros Hp. induction l as [|y l IH]; simpl; [by rewrite Hp|]. by rewrite IH. Qed.

Lemma trim_tight c s d : is_ws c = false -> is_ws d = false -> trim (c :: s ++ [d]) = c :: s ++ [d].
Proof.
  intros Hc Hd. unfold trim, trim_end, trim_start. cbn [drop_ws]. rewrite Hc.
  replace (rev (c :: s ++ [d])) with (d :: rev s ++ [c]) by (simpl; by rewrite rev_app_distr).
  cbn [drop_ws]. rewrite Hd. simpl. by rewrite rev_app_distr, rev_involutive.
Qed.

(** A tool name as the rules write it: no parenthesis, no blank at its ends. *)
Definition tool_name (t : str) : Prop :=
  trim t = t /\ Forall (fun x => x <> 40) t /\ match t with c :: _ => is_ws c = false | [] => False end.

(** A rule written [Tool(spec)] parses back to that tool and that
    specifier, whatever characters the specifier holds. *)
Theorem rule_parse_print t spec (Ht : tool_name t) :
  rule_parse (t ++ lit "(" ++ spec ++ lit ")") = Some (MkRule t (Some spec)).
Proof.
  destruct Ht as (Htrim & Hp & Hw). destruct t as [|c t]; [done|].
  change (lit "(") with [40]. change (lit ")") with [41].
  assert (trim ((c :: t) ++ [40] ++ spec ++ [41]) = (c :: t) ++ [40] ++ spec ++ [41]) as E.
  { replace ((c :: t) ++ [40] ++ spec ++ [41]) with (c :: (t ++ [40] ++ spec) ++ [41])
      by (simpl; by rewrite <- app_assoc).
    by apply trim_tight. }
  unfold rule_parse. rewrite E. cbn [is_nil app].
  change (c :: t ++ 40 :: spec ++ [41]) with ((c :: t) ++ 40 :: spec ++ [41]).
  rewrite find_char_app by done.
  replace ((c :: t) ++ 40 :: spec ++ [41]) with (((c :: t) ++ 40 :: spec) ++ [41])
    by (by rewrite <- app_assoc).
  rewrite rposition_last by done.
  rewrite length_app. cbn [length].
  destruct (Nat.ltb_spec (S (length t)) (S (length t) + S (length spec))); [|lia].
  rewrite <- app_assoc. cbn [app].
  change (c :: t ++ 40 :: spec ++ [41]) with ((c :: t) ++ 40 :: spec ++ [41]).
  rewrite take_app_length' by done. rewrite Htrim.
  replace (drop (S (S (length t))) ((c :: t) ++ 40 :: spec ++ [41])) with (spec ++ [41]).
  - rewrite take_app_length' by lia. done.
  - symmetry. rewrite drop_app. rewrite drop_ge by (simpl; lia). simpl length.
    replace (S (S (length t)) - S (length t))%nat with 1%nat by lia. done.
Qed.

(** ** Witnesses *)

(** A matcher for globs of the form [dir/**] and for literal paths. *)
Definition prefix_glob (spec : str) : option (str -> bool) :=
  Some (match strip_suffix (lit "**") spec with
        | Some dir => fun p => starts_with p dir
        | None => str_eqb spec
        end).

Module Sample.
#[local] Existing Instance Tree.tree_json.
#[local] Instance shlex : Shlex := words.
#[local] Instance globset : Globset := prefix_glob.

Definition engine : PermissionEngine :=
  engine_new MDefault [lit "Bash(git push:*)"; lit "Read(secrets/**)"]
    [lit "Bash(cargo test:*)"; lit "Bash(git status)"; lit "Edit(src/**)"] [].
Definition bash (cmd : str) : Value := j_obj [(lit "command", j_str cmd)].
Definition file (p : str) : Value := j_obj [(lit "file_path", j_str p)].
Definition files (l : list str) : Tree.tree := Tree.Obj [(lit "file_paths", Tree.Arr (map Tree.Str l))].

Lemma catastrophic_always_denied_witness :
  exists why, check (set_mode engine MAuto) (lit "Bash") (bash (lit "rm -rf $HOME")) (lit "/w") [lit "Bash"] = Deny why.
Proof.
  refine (proj2 (proj2 (catastrophic_always_denied engine (bash (lit "rm -rf $HOME")) (lit "/w") [lit "Bash"]
    (lit "rm -rf $HOME") _ _ _)) MAuto); vm_compute; reflexivity.
Defined.

Lemma bash_allow_sound_witness :
  check engine (lit "Bash") (bash (lit "cargo test -q; git status")) (lit "/w") [] = Allow /\
  exists cmd v, j_get (bash (lit "cargo test -q; git status")) (lit "command") = Some v /\ j_as_str v = Some cmd /\
    is_catastrophic_cmd cmd = false.
Proof.
  assert (check engine (lit "Bash") (bash (lit "cargo test -q; git status")) (lit "/w") [] = Allow) as Ha
    by (vm_compute; reflexivity).
  split; [exact Ha|].
  assert (engine_mode engine <> MAuto) as Hm by discriminate.
  destruct (bash_allow_sound engine _ _ _ Hm Ha) as (cmd & v & H1 & H2 & H3 & _).
  exists cmd, v. auto.
Defined.

Lemma path_tool_decision_witness :
  check engine (lit "Read") (file (lit "secrets/key")) (lit "/w") [] = Deny (lit "denied by a rule") /\
  check engine (lit "Edit") (file (lit "lib/a.rs")) (lit "/w") [] = mode_default (lit "Edit") MDefault /\
  check engine (lit "Edit") (file (lit "src/a.rs")) (lit "/w") [] = Allow.
Proof.
  split_and!; (rewrite path_tool_decision; [vm_compute; reflexivity|discriminate|discriminate]).
Defined.

Lemma plan_mode_blocks_witness :
  check (set_mode engine MPlan) (lit "Write") (file (lit "a")) (lit "/w") [] <> Allow.
Proof.
  apply plan_mode_blocks; try reflexivity. intros Hb. discriminate Hb.
Defined.

Lemma read_many_allow_sound_witness :
  Forall (fun p => check engine (lit "Read") (read_input p) (lit "/w") [] = Allow) [lit "a"; lit "b"].
Proof.
  apply (@read_many_allow_sound Tree.tree_json words prefix_glob engine (files [lit "a"; lit "b"]) (lit "/w") []
    (Tree.Arr (map Tree.Str [lit "a"; lit "b"])) (map Tree.Str [lit "a"; lit "b"]));
    try (vm_compute; reflexivity). discriminate.
Defined.

Lemma ask_mode_asks_witness :
  check (engine_new MAsk [] [] []) (lit "Read") (file (lit "a")) (lit "/w") [] <> Allow /\
  check (engine_new MAsk [] [] []) (lit "ReadMany") (files []) (lit "/w") [] = Allow.
Proof.
  split.
  - intros Ha. apply ask_mode_asks in Ha as [Ht _]; [discriminate Ht|reflexivity..].
  - apply ask_mode_asks; try reflexivity. split; [reflexivity|]. exists (Tree.Arr []), [].
    split_and!; reflexivity.
Defined.

End Sample.

Lemma rule_parse_print_witness :
  rule_parse (lit "Bash(echo (a) b)") = Some (MkRule (lit "Bash") (Some (lit "echo (a) b"))).
Proof.
  apply (rule_parse_print (lit "Bash") (lit "echo (a) b")). split; [reflexivity|].
  split; [|reflexivity]. by_decide.
Defined.
