(* ===== verification/AgentSink.v ===== *)
(** The per-request observer of the agent loop (src/crates/rc-core/src/agent.rs,
    [RequestTraceSink]) and the small functions the loop decides with: the
    completion-ceiling heuristic, the retryability of errors, message sizes.
    The request and response types are those of model.rs and rc-proto/error.rs. *)

From S2P Require Import Prelude Wire Cost Turn.

(** ** Errors (rc-proto/src/error.rs, model.rs) *)

(** Errors of third-party crates ([reqwest], [serde_json], I/O) are carried by
    their display text. *)
Inductive ProtoError :=
| PHttp (text : str)
| PStatus (status : Z) (body : str)
| PEmptyChoices
| PJson (text : str)
| PNoApiKey
| PInvalidSessionId
| PGzip (text : str)
| PIo (text : str)
| PDlr (text : str)
| PIdle (gap : Z).

Record ModelError := MkModelError { me_error : ProtoError; me_retries : Z }.

(** [Debug] of a [Duration]: the largest unit with a non-zero whole part and
    the fraction without trailing zeros. *)
Fixpoint frac_digits (fuel : nat) (frac scale : Z) : str :=
  match fuel with
  | O => []
  | S f => if frac =? 0 then [] else 48 + frac / scale :: frac_digits f (frac mod scale) (scale / 10)
  end.
Definition fmt_decimal (whole frac scale : Z) (unit : str) : str :=
  let ds := frac_digits 9 frac scale in
  show_z whole ++ (if is_nil ds then [] else lit "." ++ ds) ++ unit.
Definition debug_duration (ns : Z) : str :=
  if 1000000000 <=? ns then fmt_decimal (ns / 1000000000) (ns mod 1000000000) 100000000 (lit "s")
  else if 1000000 <=? ns then fmt_decimal (ns / 1000000) (ns mod 1000000) 100000 (lit "ms")
  else if 1000 <=? ns then fmt_decimal (ns / 1000) (ns mod 1000) 100 ([181] ++ lit "s")
  else show_z ns ++ lit "ns".

Definition proto_error_text (e : ProtoError) : str :=
  match e with
  | PHttp t => lit "http transport error: " ++ t
  | PStatus status body => lit "request failed: HTTP " ++ show_z status ++ lit " " ++ [8212] ++ lit " " ++ body
  | PEmptyChoices => lit "response had no choices"
  | PJson t => lit "json error: " ++ t
  | PNoApiKey => lit "no API key configured (set $SC_API_KEY or the var named by provider.api_key_env)"
  | PInvalidSessionId => lit "session id is not a valid correlation header value"
  | PGzip t => lit "gzip error: " ++ t
  | PIo t => lit "request spool I/O error: " ++ t
  | PDlr t => lit "DLR transport error: " ++ t
  | PIdle gap => lit "stream stalled: no chunk for " ++ debug_duration gap
  end.
Definition model_error_text (e : ModelError) : str := lit "proto: " ++ proto_error_text (me_error e).

Definition is_retryable (e : ModelError) : bool :=
  match me_error e with
  | PStatus status _ => (status =? 429) || ((500 <=? status) && (status <=? 599))
  | PHttp _ | PIdle _ => true
  | _ => false
  end.

(** ** Responses (model.rs) *)

Inductive FinalizedToolCall :=
| FCall (c : ToolCall)
| FParseError (id name : option str) (raw error : str).

Record ModelResponse := MkResponse {
  mr_text : str;
  mr_reasoning : option str;
  mr_tool_calls : list FinalizedToolCall;
  mr_finish_reason : FinishReason;
  mr_usage : option Usage;
  mr_retries : Z
}.

Definition finish_reason_name (r : FinishReason) : str :=
  match r with
  | FStop => lit "stop" | FLength => lit "length" | FToolCalls => lit "tool_calls"
  | FContentFilter => lit "content_filter" | FOther reason => lit "other:" ++ reason
  end.

(** [str::trim().is_empty()] of an optional text. *)
Definition blank_opt (o : option str) : bool :=
  match o with Some r => is_nil (trim r) | None => true end.

Definition looks_like_implicit_length (r : ModelResponse) (configured_max : option Z) : bool :=
  if negb (bool_decide (mr_finish_reason r = FStop)) || negb (is_nil (trim (mr_text r)))
     || negb (is_nil (mr_tool_calls r)) || blank_opt (mr_reasoning r)
  then false
  else
    match mr_usage r with
    | None => false
    | Some u =>
        match configured_max with
        | Some limit => limit <=? sat_add 64 (completion_tokens u) 8
        | None => 4096 <=? completion_tokens u
        end
    end.

(** [message_len]: characters of a message's payload; names count their bytes. *)
Definition message_len (m : WireMessage) : Z :=
  match m with
  | WSystem content => length_z content
  | WUser (UserText t) => length_z t
  | WAssistant content reasoning calls =>
      length_z (default [] content) + length_z (default [] reasoning)
      + fold_left Z.add (map (fun c => length_z (fc_arguments (wtc_function c))
                                        + byte_len (fc_name (wtc_function c))) calls) 0
  | WTool _ content => length_z content
  end.

(** ** The observation of one request *)

Definition PARTIAL_STREAM_FIELD_BYTES : Z := 16 * 1024.

Record RequestObservation := MkObs {
  ob_response_headers : option Z;
  ob_ttft : option Z;
  ob_request_bytes : Z;
  ob_wire_bytes : Z;
  ob_retries : Z;
  ob_transport_events : Z;
  ob_semantic_events : Z;
  ob_last_transport_activity : option Z;
  ob_last_semantic_activity : option Z;
  ob_partial_text_chars : Z;
  ob_partial_reasoning_chars : Z;
  ob_partial_tool_argument_chars : Z;
  ob_partial_text : str;
  ob_partial_reasoning : str;
  ob_partial_tools : list PartialToolCall;
  ob_partial_truncated : bool
}.
Definition observation_default : RequestObservation :=
  MkObs None None 0 0 0 0 0 None None 0 0 0 [] [] [] false.

(** [append_partial]: the new buffer and whether part of [delta] was dropped. *)
Definition append_partial (target delta : str) : str * bool :=
  let remaining := sat_sub PARTIAL_STREAM_FIELD_BYTES (byte_len target) in
  if remaining =? 0 then (target, negb (is_nil delta))
  else
    let take := floor_char_boundary delta remaining in
    (target ++ str_upto delta take, take <? byte_len delta).

(** What the model calls on the sink while it streams.  [se_first] is the clock
    reading of [mark_first_output], [se_at] the later one of the handler. *)
Inductive StreamEvent :=
| EvText (delta : str)
| EvReasoning (delta : str)
| EvTransport
| EvToolDelta (index : Z) (id name : option str) (arguments : str)
| EvToolStart (c : ToolCall)
| EvFinish (r : FinishReason)
| EvUsage (u : Usage)
| EvRetry (retries : Z)
| EvPayload (json_bytes wire_bytes : Z)
| EvHeaders (elapsed : Z).

Record StreamItem := MkItem { se_first : Z; se_at : Z; se_event : StreamEvent }.

Definition mark_first_output (o : RequestObservation) (t : Z) : RequestObservation :=
  match ob_ttft o with
  | Some _ => o
  | None =>
      MkObs (ob_response_headers o) (Some t) (ob_request_bytes o) (ob_wire_bytes o) (ob_retries o)
        (ob_transport_events o) (ob_semantic_events o) (ob_last_transport_activity o)
        (ob_last_semantic_activity o) (ob_partial_text_chars o) (ob_partial_reasoning_chars o)
        (ob_partial_tool_argument_chars o) (ob_partial_text o) (ob_partial_reasoning o)
        (ob_partial_tools o) (ob_partial_truncated o)
  end.

(** The part the three semantic handlers share: count the event, stamp both
    activity clocks, replace the buffers. *)
Definition semantic (o : RequestObservation) (t : Z) (dtext dreason dargs : Z)
    (text reasoning : str) (tools : list PartialToolCall) (truncated : bool) : RequestObservation :=
  MkObs (ob_response_headers o) (ob_ttft o) (ob_request_bytes o) (ob_wire_bytes o) (ob_retries o)
    (ob_transport_events o) (sat_add 64 (ob_semantic_events o) 1) (Some t) (Some t)
    (sat_add 64 (ob_partial_text_chars o) dtext) (sat_add 64 (ob_partial_reasoning_chars o) dreason)
    (sat_add 64 (ob_partial_tool_argument_chars o) dargs) text reasoning tools
    (ob_partial_truncated o || truncated).

(** The tool slot of index [index]: updated in place, or pushed first. *)
Definition update_tool (t : PartialToolCall) (id name : option str) (arguments : str) : PartialToolCall * bool :=
  let '(args, truncated) := append_partial (ptc_arguments t) arguments in
  (mk_partial_tool_call (ptc_index t)
     (match ptc_id t with None => id | some => some end)
     (match ptc_name t with None => name | some => some end)
     args (ptc_truncated t || truncated), truncated).

Fixpoint tool_delta (tools : list PartialToolCall) (index : Z) (id name : option str) (arguments : str)
  : list PartialToolCall * bool :=
  match tools with
  | [] =>
      let '(t, truncated) := update_tool (mk_partial_tool_call index None None [] false) id name arguments in
      ([t], truncated)
  | t :: tools' =>
      if ptc_index t =? index then
        let '(t', truncated) := update_tool t id name arguments in (t' :: tools', truncated)
      else
        let '(r, truncated) := tool_delta tools' index id name arguments in (t :: r, truncated)
  end.

(** The handlers of [impl EventSink for RequestTraceSink]. *)
Definition observe (o0 : RequestObservation) (it : StreamItem) : RequestObservation :=
  let o1 := mark_first_output o0 (se_first it) in
  match se_event it with
  | EvText delta =>
      if is_nil delta then o0
      else
        let '(text, tr) := append_partial (ob_partial_text o1) delta in
        semantic o1 (se_at it) (length_z delta) 0 0 text (ob_partial_reasoning o1) (ob_partial_tools o1) tr
  | EvReasoning delta =>
      if is_nil delta then o0
      else
        let '(reasoning, tr) := append_partial (ob_partial_reasoning o1) delta in
        semantic o1 (se_at it) 0 (length_z delta) 0 (ob_partial_text o1) reasoning (ob_partial_tools o1) tr
  | EvToolDelta index id name arguments =>
      let '(tools, tr) := tool_delta (ob_partial_tools o1) index id name arguments in
      semantic o1 (se_at it) 0 0 (length_z arguments) (ob_partial_text o1) (ob_partial_reasoning o1) tools tr
  | EvTransport =>
      MkObs (ob_response_headers o0) (ob_ttft o0) (ob_request_bytes o0) (ob_wire_bytes o0) (ob_retries o0)
        (sat_add 64 (ob_transport_events o0) 1) (ob_semantic_events o0) (Some (se_at it))
        (ob_last_semantic_activity o0) (ob_partial_text_chars o0) (ob_partial_reasoning_chars o0)
        (ob_partial_tool_argument_chars o0) (ob_partial_text o0) (ob_partial_reasoning o0)
        (ob_partial_tools o0) (ob_partial_truncated o0)
  | EvToolStart _ => o1
  | EvFinish _ | EvUsage _ => o0
  | EvRetry retries =>
      MkObs (ob_response_headers o0) (ob_ttft o0) (ob_request_bytes o0) (ob_wire_bytes o0)
        (Z.max (ob_retries o0) retries) (ob_transport_events o0) (ob_semantic_events o0)
        (ob_last_transport_activity o0) (ob_last_semantic_activity o0) (ob_partial_text_chars o0)
        (ob_partial_reasoning_chars o0) (ob_partial_tool_argument_chars o0) (ob_partial_text o0)
        (ob_partial_reasoning o0) (ob_partial_tools o0) (ob_partial_truncated o0)
  | EvPayload json_bytes wire_bytes =>
      MkObs (ob_response_headers o0) (ob_ttft o0) json_bytes wire_bytes (ob_retries o0)
        (ob_transport_events o0) (ob_semantic_events o0) (ob_last_transport_activity o0)
        (ob_last_semantic_activity o0) (ob_partial_text_chars o0) (ob_partial_reasoning_chars o0)
        (ob_partial_tool_argument_chars o0) (ob_partial_text o0) (ob_partial_reasoning o0)
        (ob_partial_tools o0) (ob_partial_truncated o0)
  | EvHeaders elapsed =>
      MkObs (Some elapsed) (ob_ttft o0) (ob_request_bytes o0) (ob_wire_bytes o0) (ob_retries o0)
        (ob_transport_events o0) (ob_semantic_events o0) (ob_last_transport_activity o0)
        (ob_last_semantic_activity o0) (ob_partial_text_chars o0) (ob_partial_reasoning_chars o0)
        (ob_partial_tool_argument_chars o0) (ob_partial_text o0) (ob_partial_reasoning o0)
        (ob_partial_tools o0) (ob_partial_truncated o0)
  end.

Definition observe_all (l : list StreamItem) : RequestObservation := fold_left observe l observation_default.

Definition partial_response (o : RequestObservation) : option PartialStreamResponse :=
  if is_nil (ob_partial_text o) && is_nil (ob_partial_reasoning o) && is_nil (ob_partial_tools o)
  then None
  else Some (mk_partial_response (ob_partial_text o) (ob_partial_reasoning o) (ob_partial_tools o)
               (ob_partial_truncated o)).

Definition duration_ms (ns : Z) : Z := Z.min (ns / 1000000) (umax 64).
(** [epoch_ms]: a time before the epoch is 0. *)
Definition epoch_ms (t : Z) : Z := if t <? 0 then 0 else Z.min (t / 1000000) (umax 64).

(** [RequestTraceSink::finish]; [total] and [completed] are the clock readings. *)
Definition finish (o : RequestObservation) (started completed total context_chars context_tokens : Z)
    (reported effective : str) (retries : Z) (implicit_length : bool) : ModelTrace :=
  mk_trace (epoch_ms started) (epoch_ms completed) (duration_ms total)
    (option_map duration_ms (ob_response_headers o)) (option_map duration_ms (ob_ttft o))
    (option_map (fun h => duration_ms (sat_sub total h)) (ob_response_headers o))
    (ob_request_bytes o) (ob_wire_bytes o) context_chars context_tokens
    (Z.max retries (ob_retries o)) reported effective implicit_length
    (ob_transport_events o) (ob_semantic_events o)
    (option_map duration_ms (ob_last_transport_activity o))
    (option_map duration_ms (ob_last_semantic_activity o))
    (ob_partial_text_chars o) (ob_partial_reasoning_chars o) (ob_partial_tool_argument_chars o).

(** ** What the buffers hold *)

Definition is_str (s : str) : Prop := Forall is_char s.

Lemma take_bytes_short n s : 0 <= n -> byte_len (take_bytes n s) = byte_len s -> take_bytes n s = s.
Proof.
  intros Hn H. destruct (take_bytes_prefix n s) as [r Hr]. rewrite Hr in H at 2.
  rewrite byte_len_app in H. destruct r as [|c r]; [by rewrite app_nil_r in Hr|].
  simpl in H. pose proof (len_utf8_pos c). pose proof (byte_len_nonneg r). lia.
Qed.

(** One append: the buffer stays within its limit, grows by a prefix of the
    delta, and the flag is down exactly when the whole delta went in. *)
Lemma append_partial_spec target delta out tr :
  byte_len target <= PARTIAL_STREAM_FIELD_BYTES -> append_partial target delta = (out, tr) ->
  byte_len out <= PARTIAL_STREAM_FIELD_BYTES /\
  exists d, out = target ++ d /\ (exists r, delta = d ++ r) /\ (tr = false <-> d = delta).
Proof.
  intros Ht. pose proof (byte_len_nonneg target). pose proof (byte_len_nonneg delta).
  unfold append_partial, sat_sub. rewrite Z.max_r by lia.
  destruct (Z.eqb_spec (PARTIAL_STREAM_FIELD_BYTES - byte_len target) 0) as [E|E].
  - intros [= <- <-]. split; [done|]. exists []. rewrite app_nil_r. split; [done|].
    split; [by exists delta|]. by destruct delta.
  - set (rem := PARTIAL_STREAM_FIELD_BYTES - byte_len target) in *.
    rewrite floor_char_boundary_spec by lia. unfold str_upto. rewrite take_bytes_self by lia.
    intros [= <- <-]. pose proof (take_bytes_len (Z.min rem (byte_len delta)) delta ltac:(lia)).
    split; [rewrite byte_len_app; lia|]. eexists. split; [done|].
    split; [apply take_bytes_prefix|]. split.
    + intros Hlt. apply take_bytes_short; lia.
    + intros ->. lia.
Qed.

(** The text the handlers were given, by field. *)
Definition text_of (it : StreamItem) : str := match se_event it with EvText d => d | _ => [] end.
Definition reasoning_of (it : StreamItem) : str := match se_event it with EvReasoning d => d | _ => [] end.
Definition args_of (i : Z) (it : StreamItem) : str :=
  match se_event it with EvToolDelta j _ _ a => if j =? i then a else [] | _ => [] end.
Definition streamed (f : StreamItem -> str) (l : list StreamItem) : str := concat (map f l).

Lemma streamed_snoc f l it : streamed f (l ++ [it]) = streamed f l ++ f it.
Proof. unfold streamed. rewrite map_app, concat_app. simpl. by rewrite app_nil_r. Qed.

(** The slots: bounded, and exact when nothing was dropped. *)
Definition slot_ok (l : list StreamItem) (t : PartialToolCall) : Prop :=
  byte_len (ptc_arguments t) <= PARTIAL_STREAM_FIELD_BYTES /\
  (ptc_truncated t = false -> ptc_arguments t = streamed (args_of (ptc_index t)) l).

Record obs_ok (l : list StreamItem) (o : RequestObservation) : Prop := {
  ok_text : byte_len (ob_partial_text o) <= PARTIAL_STREAM_FIELD_BYTES;
  ok_reasoning : byte_len (ob_partial_reasoning o) <= PARTIAL_STREAM_FIELD_BYTES;
  ok_slots : Forall (slot_ok l) (ob_partial_tools o);
  ok_nodup : NoDup (map ptc_index (ob_partial_tools o));
  ok_unseen : forall i, i ∉ map ptc_index (ob_partial_tools o) -> streamed (args_of i) l = [];
  ok_exact : ob_partial_truncated o = false ->
    ob_partial_text o = streamed text_of l /\ ob_partial_reasoning o = streamed reasoning_of l /\
    Forall (fun t => ptc_truncated t = false) (ob_partial_tools o)
}.

Lemma update_tool_spec t id name a t' tr l it :
  (forall i, args_of i it = if ptc_index t =? i then a else []) ->
  slot_ok l t -> update_tool t id name a = (t', tr) ->
  slot_ok (l ++ [it]) t' /\ ptc_index t' = ptc_index t /\
  (tr = false -> ptc_truncated t = false -> ptc_truncated t' = false).
Proof.
  intros Ha [Hb He]. unfold update_tool.
  destruct (append_partial (ptc_arguments t) a) as [args b] eqn:E. intros [= <- <-].
  apply append_partial_spec in E as (Hl & d & -> & (r & Hd) & Hflag); [|done].
  split; [|split; [done|intros -> ->; done]]. split; [done|]. simpl. intros [Ht Hb']%orb_false_elim.
  rewrite streamed_snoc, Ha, Z.eqb_refl, He by done. f_equal. by apply Hflag.
Qed.

Lemma slot_ok_other l it t : args_of (ptc_index t) it = [] -> slot_ok l t -> slot_ok (l ++ [it]) t.
Proof. intros Ha [Hb He]. split; [done|]. intros Ht. rewrite streamed_snoc, Ha, app_nil_r. auto. Qed.

Lemma tool_delta_spec tools index id name a tools' tr l it :
  (forall i, args_of i it = if index =? i then a else []) ->
  Forall (slot_ok l) tools -> NoDup (map ptc_index tools) ->
  (index ∉ map ptc_index tools -> streamed (args_of index) l = []) ->
  tool_delta tools index id name a = (tools', tr) ->
  Forall (slot_ok (l ++ [it])) tools' /\ NoDup (map ptc_index tools') /\
  (forall i, i ∈ map ptc_index tools' <-> i ∈ map ptc_index tools \/ i = index) /\
  (tr = false -> Forall (fun t => ptc_truncated t = false) tools ->
     Forall (fun t => ptc_truncated t = false) tools').
Proof.
  intros Ha. revert tools' tr. induction tools as [|t tools IH]; intros tools' tr Hok Hnd Hun; cbn [tool_delta].
  - destruct (update_tool _ _ _ _) as [t' b] eqn:E. intros [= <- <-].
    apply (update_tool_spec _ _ _ _ _ _ l it) in E as (H1 & H2 & H3); [|exact Ha|].
    2:{ split; [vm_compute; discriminate|]. intros _. simpl. symmetry. apply Hun. set_solver. }
    simpl in *. rewrite !list.Forall_singleton, H2. split; [done|]. split; [apply NoDup_singleton|].
    split; [set_solver|auto].
  - cbn [map] in *. apply list.NoDup_cons in Hnd as [Hnin Hnd]. apply list.Forall_cons in Hok as [Ht Hok].
    destruct (Z.eqb_spec (ptc_index t) index) as [Ei|Ei].
    + destruct (update_tool t id name a) as [t' b] eqn:E. intros [= <- <-].
      apply (update_tool_spec _ _ _ _ _ _ l it) in E as (H1 & H2 & H3); [|intros i; by rewrite Ei|done].
      cbn [map]. rewrite !list.Forall_cons, H2. split; [split; [done|]|].
      { rewrite list.Forall_forall in *. intros u Hu. apply slot_ok_other; [|by apply Hok].
        rewrite Ha. destruct (Z.eqb_spec index (ptc_index u)) as [Eu|]; [|done].
        exfalso. apply Hnin. rewrite Ei, Eu. by apply list_elem_of_fmap_2. }
      split; [by apply list.NoDup_cons|].
      split; [intros i; rewrite !elem_of_cons, Ei; tauto|]. intros Hb [Hc Hd]. auto.
    + destruct (tool_delta tools index id name a) as [r b] eqn:E. intros [= <- <-].
      destruct (IH r b Hok Hnd) as (H1 & H2 & H3 & H4); [intros Hn; apply Hun; rewrite elem_of_cons; intros [?|?]; [congruence|done]|done|].
      cbn [map]. rewrite !list.Forall_cons. split; [split; [|done]|].
      { apply slot_ok_other; [|done]. rewrite Ha. by destruct (Z.eqb_spec index (ptc_index t)). }
      split; [apply list.NoDup_cons; split; [rewrite H3; intros [?|?]; [done|congruence]|done]|].
      split; [intros i; rewrite !elem_of_cons, H3; tauto|]. intros Hb [Hc Hd]. auto.
Qed.

(** Events that touch neither the buffers nor the slots. *)
Lemma obs_ok_quiet l it o o' :
  text_of it = [] -> reasoning_of it = [] -> (forall i, args_of i it = []) ->
  ob_partial_text o' = ob_partial_text o -> ob_partial_reasoning o' = ob_partial_reasoning o ->
  ob_partial_tools o' = ob_partial_tools o -> ob_partial_truncated o' = ob_partial_truncated o ->
  obs_ok l o -> obs_ok (l ++ [it]) o'.
Proof.
  intros H1 H2 H3 E1 E2 E3 E4 [A B C D F G]. split; rewrite ?E1, ?E2, ?E3, ?E4; try done.
  - rewrite list.Forall_forall in *. intros t Ht. apply slot_ok_other; [done|by apply C].
  - intros i Hi. by rewrite streamed_snoc, H3, app_nil_r, F.
  - rewrite !streamed_snoc, H1, H2, !app_nil_r. done.
Qed.

Lemma obs_ok_first l o t : obs_ok l o -> obs_ok l (mark_first_output o t).
Proof. unfold mark_first_output. destruct (ob_ttft o); [done|]. intros []. by split. Qed.

Lemma obs_ok_slots_quiet l it tools :
  (forall i, args_of i it = []) -> Forall (slot_ok l) tools -> Forall (slot_ok (l ++ [it])) tools.
Proof.
  intros H3 C. rewrite list.Forall_forall in *. intros t Ht. apply slot_ok_other; [done|by apply C].
Qed.

Lemma fields_text it d : se_event it = EvText d -> text_of it = d.
Proof. unfold text_of. by intros ->. Qed.
Lemma fields_text' it d : se_event it = EvText d -> reasoning_of it = [].
Proof. unfold reasoning_of. by intros ->. Qed.
Lemma fields_reasoning it d : se_event it = EvReasoning d -> reasoning_of it = d.
Proof. unfold reasoning_of. by intros ->. Qed.
Lemma fields_reasoning' it d : se_event it = EvReasoning d -> text_of it = [].
Proof. unfold text_of. by intros ->. Qed.
Lemma fields_tool it i id n a : se_event it = EvToolDelta i id n a -> text_of it = [] /\ reasoning_of it = [].
Proof. unfold text_of, reasoning_of. by intros ->. Qed.

Lemma obs_ok_text l o it delta out tr t :
  se_event it = EvText delta -> append_partial (ob_partial_text o) delta = (out, tr) ->
  obs_ok l o ->
  obs_ok (l ++ [it]) (semantic o t (length_z delta) 0 0 out (ob_partial_reasoning o) (ob_partial_tools o) tr).
Proof.
  intros He E [A B C D F G]. apply append_partial_spec in E as (Hl & d & -> & _ & Hf); [|done].
  assert (forall i, args_of i it = []) as Ha by (intros; unfold args_of; by rewrite He).
  split; try done; simpl.
  - by apply obs_ok_slots_quiet.
  - intros i Hi. by rewrite streamed_snoc, Ha, app_nil_r, F.
  - intros [Ht Htr]%orb_false_elim. apply Hf in Htr as ->. destruct (G Ht) as (-> & -> & ?).
    rewrite !streamed_snoc, (fields_text it delta He), (fields_text' it delta He), app_nil_r. done.
Qed.

Lemma obs_ok_reasoning l o it delta out tr t :
  se_event it = EvReasoning delta -> append_partial (ob_partial_reasoning o) delta = (out, tr) ->
  obs_ok l o ->
  obs_ok (l ++ [it]) (semantic o t 0 (length_z delta) 0 (ob_partial_text o) out (ob_partial_tools o) tr).
Proof.
  intros He E [A B C D F G]. apply append_partial_spec in E as (Hl & d & -> & _ & Hf); [|done].
  assert (forall i, args_of i it = []) as Ha by (intros; unfold args_of; by rewrite He).
  split; try done; simpl.
  - by apply obs_ok_slots_quiet.
  - intros i Hi. by rewrite streamed_snoc, Ha, app_nil_r, F.
  - intros [Ht Htr]%orb_false_elim. apply Hf in Htr as ->. destruct (G Ht) as (-> & -> & ?).
    rewrite !streamed_snoc, (fields_reasoning it delta He), (fields_reasoning' it delta He), app_nil_r. done.
Qed.

Lemma obs_ok_tool l o it index id name a tools tr t :
  se_event it = EvToolDelta index id name a -> tool_delta (ob_partial_tools o) index id name a = (tools, tr) ->
  obs_ok l o ->
  obs_ok (l ++ [it]) (semantic o t 0 0 (length_z a) (ob_partial_text o) (ob_partial_reasoning o) tools tr).
Proof.
  intros He E [A B C D F G].
  assert (forall i, args_of i it = if index =? i then a else []) as Ha by (intros; unfold args_of; by rewrite He).
  destruct (tool_delta_spec _ _ _ _ _ _ _ l it Ha C D (F index) E) as (H1 & H2 & H3 & H4).
  split; try done; simpl.
  - intros i Hi. rewrite H3 in Hi. rewrite streamed_snoc, Ha, F by tauto.
    destruct (Z.eqb_spec index i); [|done]. exfalso. apply Hi. by right.
  - intros [Ht Htr]%orb_false_elim. destruct (G Ht) as (-> & -> & ?).
    rewrite !streamed_snoc, (proj1 (fields_tool it _ _ _ _ He)), (proj2 (fields_tool it _ _ _ _ He)), !app_nil_r. auto.
Qed.

Lemma observe_ok l o it : obs_ok l o -> obs_ok (l ++ [it]) (observe o it).
Proof.
  intros H. pose proof (obs_ok_first l o (se_first it) H) as H1. unfold observe.
  destruct (se_event it) eqn:He;
    try (eapply obs_ok_quiet; [..|exact H]; try done; intros; unfold text_of, reasoning_of, args_of; by rewrite He);
    try (eapply obs_ok_quiet; [..|exact H1]; try done; intros; unfold text_of, reasoning_of, args_of; by rewrite He).
  - destruct delta as [|c delta]; simpl is_nil; cbn iota.
    + eapply obs_ok_quiet; [..|exact H]; try done; intros; unfold text_of, reasoning_of, args_of; by rewrite He.
    + destruct (append_partial _ _) as [out tr] eqn:E. by eapply obs_ok_text.
  - destruct delta as [|c delta]; simpl is_nil; cbn iota.
    + eapply obs_ok_quiet; [..|exact H]; try done; intros; unfold text_of, reasoning_of, args_of; by rewrite He.
    + destruct (append_partial _ _) as [out tr] eqn:E. by eapply obs_ok_reasoning.
  - destruct (tool_delta _ _ _ _ _) as [tools tr] eqn:E. by eapply obs_ok_tool.
Qed.

Lemma observe_all_ok l : obs_ok l (observe_all l).
Proof.
  unfold observe_all. induction l as [|it l IH] using rev_ind.
  - split; simpl; try done. apply NoDup_nil_2.
  - rewrite fold_left_app. simpl. by apply observe_ok.
Qed.

(** What the observer keeps of a stream is bounded and honest: the text, the
    reasoning and the arguments of every tool slot hold at most 16 KiB each,
    the slots have distinct indices, and while the truncation flag is down they
    hold exactly what was streamed, field by field. *)
Theorem partial_response_bounded l p (H : partial_response (observe_all l) = Some p) :
  byte_len (psr_text p) <= PARTIAL_STREAM_FIELD_BYTES /\
  byte_len (psr_reasoning p) <= PARTIAL_STREAM_FIELD_BYTES /\
  Forall (fun t => byte_len (ptc_arguments t) <= PARTIAL_STREAM_FIELD_BYTES) (psr_tool_calls p) /\
  NoDup (map ptc_index (psr_tool_calls p)) /\
  (psr_truncated p = false ->
   psr_text p = streamed text_of l /\ psr_reasoning p = streamed reasoning_of l /\
   Forall (fun t => ptc_arguments t = streamed (args_of (ptc_index t)) l) (psr_tool_calls p)).
Proof.
  pose proof (observe_all_ok l) as [A B C D F G]. unfold partial_response in H.
  case_test; [done|]. injection H as <-. simpl. split_and!; try done.
  - eapply Forall_impl; [|exact C]. by intros t [].
  - intros Ht. destruct (G Ht) as (-> & -> & Hs). split_and!; try done.
    rewrite list.Forall_forall in *. intros t Hin. apply (C t Hin), Hs, Hin.
Qed.

Lemma partial_response_bounded_witness :
  let l := [MkItem 1 2 (EvText (lit "ab")); MkItem 3 4 (EvToolDelta 0 (Some (lit "c1")) None (lit "{"));
            MkItem 5 6 (EvText (lit "c")); MkItem 7 8 (EvToolDelta 0 None (Some (lit "Read")) (lit "}"))] in
  exists p, partial_response (observe_all l) = Some p /\ psr_text p = lit "abc" /\
            byte_len (psr_text p) <= PARTIAL_STREAM_FIELD_BYTES.
Proof.
  intros l. eexists. split; [vm_compute; reflexivity|]. split; [reflexivity|].
  refine (proj1 (partial_response_bounded l _ _)). vm_compute. reflexivity.
Defined.

(** A character that does not fit in the space left is dropped, but a later,
    shorter one still goes in: what the buffer holds is then not a prefix of the
    stream. *)
Lemma append_partial_gap target :
  byte_len target = PARTIAL_STREAM_FIELD_BYTES - 1 ->
  append_partial target [233] = (target, true) /\
  append_partial target [97] = (target ++ [97], false).
Proof.
  intros H. unfold append_partial, sat_sub. rewrite H.
  split; [|reflexivity].
  transitivity (target ++ [], true); [reflexivity|]. by rewrite app_nil_r.
Qed.
