(* ===== verification/AgentBatch.v ===== *)
(** Execution of one batch of tool calls (src/crates/rc-core/src/agent.rs:
    [execute_batch], [authorize_call], [run_parallel_phase], [run_one],
    [finish_partial_batch], [synthesize_*]).

    The outside of the loop (clock, shell, permission checker, prompter, tools,
    model, cancellation and deadline) is an environment; the code is a program
    over a state that holds the session, the batch bookkeeping, the world and
    the list of the effects in the order they happen.  Every [await] is a point
    where a cancellation or the deadline can cut the program off. *)

From S2P Require Import Prelude Wire Cost Turn Json PermRules AgentSink.

Inductive Concurrency := Parallel | SerialWrite | Exclusive.
#[export] Instance concurrency_eq_dec : EqDecision Concurrency.
Proof. solve_decision. Defined.

Inductive AskResponse :=
| Once | SessionRule (rule : str) | Always (rule : str) | DenyCall (reason : str).

(** The [Session] of turn.rs; the registries shared with the tools are part of
    the world. *)
Record Session := MkSession {
  s_id : str;
  s_cwd : str;
  s_extra_dirs : list str;
  s_model : str;
  s_messages : list Turn;
  s_mode : AgentMode;
  s_perm_grants : list str;
  s_total_usage : Usage;
  s_total_cost : Cost
}.

Record ToolExecResult := MkExec {
  x_id : str;
  x_tool : str;
  x_body : ToolResultBody;
  x_duration : Z;
  x_artifacts : list Artifact
}.

Inductive ExecItem :=
| ICall (c : ToolCall)
| IParseError (call_id tool_name error : str).

Inductive SinkEvent :=
| OnStream (it : StreamItem)
| OnToolEnd (call_id tool : str) (r : ToolResultBody)
| OnArtifact (call_id tool : str) (a : Artifact)
| OnIter (count max : Z)
| OnUsage (u : Usage)
| OnContext (chars tokens : Z)
| OnTurn (t : Turn).

(** What happens, in order: events for the host, permission decisions, answers
    of the user, tools started, model requests. *)
Inductive Effect :=
| Sink (e : SinkEvent)
| Checked (c : ToolCall) (d : Decision)
| Answered (c : ToolCall) (a : AskResponse)
| Started (c : ToolCall) (cwd : str)
| Request (messages : list WireMessage).

Inductive Cut := CutCancelled | CutTimeUp.

(** The environment of the loop. *)
Class AgentEnv (W : Type) `{JsonApi} := {
  env_now : W -> Z * W;
  (** at an await point: is the turn cancelled, has the deadline passed *)
  env_cancelled : W -> bool;
  env_deadline_passed : W -> bool;
  env_cancel : W -> W;
  (** [shell_state.cwd] *)
  env_cwd : W -> str;
  env_check : W -> str -> Value -> str -> list str -> list str -> Decision;
  env_ask : W -> str -> Value -> str -> AskResponse * W;
  (** [ToolRegistry::get] and [Tool::concurrency] *)
  env_tool : str -> option Concurrency;
  (** [Tool::call]: an error text or an outcome.  A tool that is called in
      place, not spawned, is taken not to panic. *)
  env_call : W -> str -> Value -> str -> (str + ToolOutcome) * W;
  (** [tokio::spawn] of a call and the join of the k-th task of the phase: a
      join error, or the outcome and the time the task measured *)
  env_spawn : W -> str -> Value -> str -> W;
  env_join : W -> nat -> (str + ((str + ToolOutcome) * Z)) * W;
  (** [Model::complete]: what it streams, then a cut or its result *)
  env_complete : W -> list WireMessage -> list StreamItem * (Cut + (ModelError + ModelResponse)) * W;
  (** the token estimator (rc-tokenize) *)
  env_estimate : W -> Z -> Z;
  env_observe : W -> Z -> Z -> W;
  (** [ChangeJournal::advance_turn] on the shared journal *)
  env_advance_turn : W -> W;
  (** the iteration order of a [HashMap] with these keys *)
  env_hash_order : W -> list nat -> list nat
}.

Class AgentEnvLaws (W : Type) `{AgentEnv W} := {
  hash_order_perm w l : env_hash_order w l ≡ₚ l
}.

(** ** The program monad *)

Record Batch := MkBatch {
  b_results : gmap nat ToolExecResult;
  b_emitted : gset nat;
  (** the shared checkpoint *)
  b_cp_results : list (option ToolExecResult);
  b_cp_emitted : gset nat
}.

Record AState (W : Type) := MkState {
  a_world : W;
  a_fx : list Effect;
  a_session : Session;
  a_batch : Batch
}.
Arguments MkState {W}.
Arguments a_world {W}.
Arguments a_fx {W}.
Arguments a_session {W}.
Arguments a_batch {W}.

Inductive Outcome (A : Type) := Done (a : A) | CutOff (c : Cut) | Panicked.
Arguments Done {A}.
Arguments CutOff {A}.
Arguments Panicked {A}.

Definition M (W A : Type) : Type := AState W -> Outcome A * AState W.

Definition ret {W A} (a : A) : M W A := fun s => (Done a, s).
Definition bind {W A B} (m : M W A) (f : A -> M W B) : M W B := fun s =>
  match m s with
  | (Done a, s') => f a s'
  | (CutOff c, s') => (CutOff c, s')
  | (Panicked, s') => (Panicked, s')
  end.
Declare Scope prog_scope.
Delimit Scope prog_scope with prog.
Notation "x <- m ;; k" := (bind m (fun x => k))
  (at level 100, m at next level, right associativity) : prog_scope.
Notation "m ;; k" := (bind m (fun _ => k)) (at level 100, right associativity) : prog_scope.
#[global] Open Scope prog_scope.

Definition panic {W A} : M W A := fun s => (Panicked, s).
Definition expect {W A} (o : option A) : M W A := match o with Some a => ret a | None => panic end.
Definition get_world {W} : M W W := fun s => (Done (a_world s), s).
Definition get_session {W} : M W Session := fun s => (Done (a_session s), s).
Definition get_batch {W} : M W Batch := fun s => (Done (a_batch s), s).
Definition set_world {W} (w : W) : M W unit := fun s =>
  (Done tt, MkState w (a_fx s) (a_session s) (a_batch s)).
Definition set_session {W} (x : Session) : M W unit := fun s =>
  (Done tt, MkState (a_world s) (a_fx s) x (a_batch s)).
Definition set_batch {W} (b : Batch) : M W unit := fun s =>
  (Done tt, MkState (a_world s) (a_fx s) (a_session s) b).
Definition tell {W} (e : Effect) : M W unit := fun s =>
  (Done tt, MkState (a_world s) (a_fx s ++ [e]) (a_session s) (a_batch s)).

Fixpoint iterM {W A} (f : A -> M W unit) (l : list A) : M W unit :=
  match l with [] => ret tt | x :: l' => f x ;; iterM f l' end.

Section Program.
Context {W : Type} `{AgentEnv W}.
(** The turn's deadline, [hard_tool_result_cap], and the roots of the [ToolCtx]. *)
Variable has_deadline : bool.
Variable hard_cap : Z.
Variable allowed_roots : list str.

(** The biased [select!] of [await_turn_budget]: cancellation first, then the
    deadline, then the future. *)
Definition poll : M W unit := fun s =>
  if env_cancelled (a_world s) then (CutOff CutCancelled, s)
  else if has_deadline && env_deadline_passed (a_world s) then (CutOff CutTimeUp, s)
  else (Done tt, s).

(** An operation of the outside that the program awaits. *)
Definition await {A} (f : W -> A * W) : M W A :=
  w <- get_world ;; let '(a, w') := f w in set_world w' ;; poll ;; ret a.
Definition now : M W Z := w <- get_world ;; let '(t, w') := env_now w in set_world w' ;; ret t.

Definition emit (e : SinkEvent) : M W unit := tell (Sink e).

Definition with_messages (x : Session) (l : list Turn) : Session :=
  MkSession (s_id x) (s_cwd x) (s_extra_dirs x) (s_model x) l (s_mode x) (s_perm_grants x)
    (s_total_usage x) (s_total_cost x).
Definition push_turn (t : Turn) : M W unit :=
  x <- get_session ;; set_session (with_messages x (s_messages x ++ [t])) ;; emit (OnTurn t).

Definition with_grants (x : Session) (l : list str) : Session :=
  MkSession (s_id x) (s_cwd x) (s_extra_dirs x) (s_model x) (s_messages x) (s_mode x) l
    (s_total_usage x) (s_total_cost x).

(** ** Results of calls *)

Definition call_input (c : ToolCall) : Value := default j_null (j_parse (tc_arguments c)).

Definition denied (c : ToolCall) (reason : str) : ToolExecResult :=
  MkExec (tc_id c) (tc_name c) (RDenied reason) 0 [].

(** The second half of [run_one]: the outcome mapped to a result. *)
Definition exec_result (c : ToolCall) (r : str + ToolOutcome) (dur : Z) : ToolExecResult :=
  let outcome := match r with inl text => OError text false | inr o => o end in
  MkExec (tc_id c) (tc_name c) (body_of_outcome outcome) dur
    (match outcome with OOk _ _ artifacts => artifacts | _ => [] end).

Definition run_one (c : ToolCall) (cwd : str) : M W ToolExecResult :=
  start <- now ;;
  tell (Started c cwd) ;;
  r <- await (fun w => env_call w (tc_name c) (call_input c) cwd) ;;
  stop <- now ;;
  ret (exec_result c r (Z.max 0 (stop - start))).

Definition emit_tool_completion (r : ToolExecResult) : M W unit :=
  iterM (fun a => emit (OnArtifact (x_id r) (x_tool r) a)) (x_artifacts r) ;;
  emit (OnToolEnd (x_id r) (x_tool r) (x_body r)).

Definition cap_tool_result (r : ToolExecResult) : ToolExecResult :=
  if 0 <? hard_cap
  then MkExec (x_id r) (x_tool r) (truncate_body (x_body r) hard_cap) (x_duration r) (x_artifacts r)
  else r.

(** [checkpoint.results[index] = ..] panics out of range. *)
Definition record_batch_result (index : nat) (r : ToolExecResult) : M W unit :=
  b <- get_batch ;;
  if (index <? length (b_cp_results b))%nat then
    set_batch (MkBatch (<[index := r]> (b_results b)) (b_emitted b)
                 (<[index := Some r]> (b_cp_results b)) (b_cp_emitted b))
  else panic.

(** [emitted.insert(index); mark_batch_emitted(checkpoint, index)]. *)
Definition mark_emitted (index : nat) : M W unit :=
  b <- get_batch ;;
  set_batch (MkBatch (b_results b) ({[index]} ∪ b_emitted b) (b_cp_results b) ({[index]} ∪ b_cp_emitted b)).
Definition mark_batch_emitted (index : nat) : M W unit :=
  b <- get_batch ;;
  set_batch (MkBatch (b_results b) (b_emitted b) (b_cp_results b) ({[index]} ∪ b_cp_emitted b)).

(** The sequence that ends a call: publish, mark, record. *)
Definition complete_call (index : nat) (r : ToolExecResult) : M W unit :=
  emit_tool_completion r ;; mark_emitted index ;; record_batch_result index r.

Definition live_cwd : M W str := w <- get_world ;; ret (env_cwd w).

(** ** Permission *)

Definition authorize_call (c : ToolCall) (cwd : str) : M W (option ToolExecResult) :=
  w <- get_world ;;
  x <- get_session ;;
  let input := call_input c in
  let d := env_check w (tc_name c) input cwd allowed_roots (s_perm_grants x) in
  tell (Checked c d) ;;
  match d with
  | Allow => ret None
  | Deny reason => ret (Some (denied c reason))
  | AskUser reason =>
      a <- await (fun w => env_ask w (tc_name c) input reason) ;;
      tell (Answered c a) ;;
      match a with
      | Once => ret None
      | SessionRule rule | Always rule =>
          x <- get_session ;; set_session (with_grants x (s_perm_grants x ++ [rule])) ;; ret None
      | DenyCall reason => ret (Some (denied c reason))
      end
  end.

(** ** A phase of parallel calls *)

Definition spawn (p : nat * ToolCall) (cwd : str) : M W unit :=
  poll ;;
  tell (Started (snd p) cwd) ;;
  w <- get_world ;; set_world (env_spawn w (tc_name (snd p)) (call_input (snd p)) cwd).

Definition join_result (c : ToolCall) (r : str + ((str + ToolOutcome) * Z)) : ToolExecResult :=
  match r with
  | inr (o, dur) => exec_result c o dur
  | inl text => MkExec (tc_id c) (tc_name c) (RError (lit "tool panicked: " ++ text) false) 0 []
  end.

Fixpoint join_all (k : nat) (phase : list (nat * ToolCall)) : M W unit :=
  match phase with
  | [] => ret tt
  | (i, c) :: phase' =>
      r <- await (fun w => env_join w k) ;;
      complete_call i (cap_tool_result (join_result c r)) ;;
      join_all (S k) phase'
  end.

Definition run_parallel_phase (phase : list (nat * ToolCall)) : M W unit :=
  cwd <- live_cwd ;;
  iterM (fun p => spawn p cwd) phase ;;
  join_all 0 phase.

(** Authorise the calls of a phase in order; the refused ones are completed. *)
Fixpoint authorize_phase (phase : list (nat * ToolCall)) (cwd : str) (allowed : list (nat * ToolCall))
  : M W (list (nat * ToolCall)) :=
  match phase with
  | [] => ret allowed
  | (i, c) :: phase' =>
      o <- authorize_call c cwd ;;
      match o with
      | Some r => complete_call i r ;; authorize_phase phase' cwd allowed
      | None => authorize_phase phase' cwd (allowed ++ [(i, c)])
      end
  end.

(** ** The batch *)

Record ScheduledCall := MkScheduled {
  sc_tool : bool;   (** is the tool registered *)
  sc_call : ToolCall;
  sc_concurrency : Concurrency
}.

Definition schedule (it : ExecItem) : option ScheduledCall :=
  match it with
  | ICall c =>
      Some match env_tool (tc_name c) with
           | Some k => MkScheduled true c k
           | None => MkScheduled false c Exclusive
           end
  | IParseError _ _ _ => None
  end.

Definition parse_error_result (call_id tool_name error : str) : ToolExecResult :=
  MkExec call_id tool_name (RError (lit "invalid tool arguments: " ++ error) true) 0 [].

Definition is_parallel (c : ScheduledCall) : bool := bool_decide (sc_concurrency c = Parallel).

(** The maximal run of parallel calls (and of parse errors between them) at the
    head of the schedule. *)
Fixpoint take_phase (l : list (nat * option ScheduledCall))
  : list (nat * ScheduledCall) * list (nat * option ScheduledCall) :=
  match l with
  | (i, Some c) :: l' =>
      if is_parallel c then let '(p, r) := take_phase l' in ((i, c) :: p, r) else ([], l)
  | (i, None) :: l' => take_phase l'
  | [] => ([], [])
  end.

(** [call.tool.expect(..)] for each call of a phase. *)
Fixpoint phase_tools (p : list (nat * ScheduledCall)) : M W (list (nat * ToolCall)) :=
  match p with
  | [] => ret []
  | (i, c) :: p' =>
      if sc_tool c then r <- phase_tools p' ;; ret ((i, sc_call c) :: r) else panic
  end.

Definition unknown_tool (c : ToolCall) : ToolExecResult :=
  MkExec (tc_id c) (tc_name c) (RError (lit "unknown tool: " ++ tc_name c) false) 0 [].

(** A write or an exclusive call: an ordered barrier. *)
Definition run_barrier (i : nat) (c : ScheduledCall) : M W unit :=
  cwd <- live_cwd ;;
  o <- authorize_call (sc_call c) cwd ;;
  match o with
  | Some r => complete_call i r
  | None =>
      if sc_tool c then
        r <- run_one (sc_call c) cwd ;; complete_call i (cap_tool_result r)
      else complete_call i (unknown_tool (sc_call c))
  end.

(** The cursor loop; [fuel] bounds the entries left. *)
Fixpoint batch_loop (fuel : nat) (l : list (nat * option ScheduledCall)) : M W unit :=
  match fuel with
  | O => ret tt
  | S f =>
      match l with
      | [] => ret tt
      | (_, None) :: l' => batch_loop f l'
      | (i, Some c) :: l' =>
          if is_parallel c then
            let '(p, rest) := take_phase l in
            phase <- phase_tools p ;;
            cwd <- live_cwd ;;
            allowed <- authorize_phase phase cwd [] ;;
            run_parallel_phase allowed ;;
            batch_loop f rest
          else run_barrier i c ;; batch_loop f l'
      end
  end.

Fixpoint record_parse_errors (i : nat) (items : list ExecItem) : M W unit :=
  match items with
  | [] => ret tt
  | IParseError call_id tool_name error :: items' =>
      record_batch_result i (parse_error_result call_id tool_name error) ;; record_parse_errors (S i) items'
  | ICall _ :: items' => record_parse_errors (S i) items'
  end.

(** The last loop: publish what has not been published. *)
Definition publish_rest : M W unit :=
  w <- get_world ;;
  b <- get_batch ;;
  iterM (fun i => if decide (i ∈ b_emitted b) then ret tt
                  else match b_results b !! i with
                       | Some r => emit_tool_completion r ;; mark_batch_emitted i
                       | None => ret tt
                       end)
    (env_hash_order w (map fst (map_to_list (b_results b)))).

Fixpoint collect (l : list nat) (results : gmap nat ToolExecResult) : M W (list ToolExecResult) :=
  match l with
  | [] => ret []
  | i :: l' =>
      r <- expect (results !! i) ;;
      rs <- collect l' (delete i results) ;;
      ret (r :: rs)
  end.

Definition enumerate {A} (l : list A) : list (nat * A) := zip (seq 0 (length l)) l.

(** [BatchCheckpoint::new] and the empty bookkeeping. *)
Definition batch_new (n : nat) : Batch := MkBatch ∅ ∅ (replicate n None) ∅.

Definition execute_batch (items : list ExecItem) : M W (list ToolExecResult) :=
  record_parse_errors 0 items ;;
  batch_loop (length items) (enumerate (map schedule items)) ;;
  publish_rest ;;
  b <- get_batch ;;
  collect (seq 0 (length items)) (b_results b).

(** [finish_partial_batch]: the recorded results, and an interruption for the
    calls that have none. *)
Fixpoint finish_partial (i : nat) (calls : list ToolCall) : M W unit :=
  match calls with
  | [] => ret tt
  | c :: calls' =>
      b <- get_batch ;;
      match b_cp_results b !! i with
      | Some (Some r) =>
          (if decide (i ∈ b_cp_emitted b) then ret tt else emit (OnToolEnd (x_id r) (x_tool r) (x_body r))) ;;
          push_turn (TToolResult (x_id r) (x_tool r) (x_body r) (x_duration r))
      | _ =>
          emit (OnToolEnd (tc_id c) (tc_name c) RInterrupted) ;;
          push_turn (TToolResult (tc_id c) (tc_name c) RInterrupted 0)
      end ;;
      finish_partial (S i) calls'
  end.
Definition finish_partial_batch (calls : list ToolCall) : M W unit := finish_partial 0 calls.

Definition answer_with (c : ToolCall) (r : ToolResultBody) : M W unit :=
  emit (OnToolEnd (tc_id c) (tc_name c) r) ;; push_turn (TToolResult (tc_id c) (tc_name c) r 0).

Definition synthesize_interrupted (calls : list ToolCall) : M W unit :=
  iterM (fun c => answer_with c RInterrupted) calls.

Definition unconfirmed_error (finish_reason : str) : ToolResultBody :=
  RError (lit "the model response ended with finish_reason=" ++ finish_reason
          ++ lit " before confirming this tool call; it was not executed. Retry the tool call with complete arguments")
    true.
Definition synthesize_retryable_unconfirmed (calls : list ToolCall) (finish_reason : str) : M W unit :=
  iterM (fun c => answer_with c (unconfirmed_error finish_reason)) calls.

Definition push_result (r : ToolExecResult) : M W unit :=
  push_turn (TToolResult (x_id r) (x_tool r) (x_body r) (x_duration r)).

(** [await_turn_budget]: a cut becomes a value. *)
Definition catch {A} (m : M W A) : M W (Cut + A) := fun s =>
  match m s with
  | (Done a, s') => (Done (inr a), s')
  | (CutOff c, s') => (Done (inl c), s')
  | (Panicked, s') => (Panicked, s')
  end.
Definition cancel_turn : M W unit := w <- get_world ;; set_world (env_cancel w).

(** The tail of an iteration of [run]: execute the batch within the budget and
    append its results, or those of the part that was reached. *)
Definition run_batch (items : list ExecItem) (calls : list ToolCall) : M W (option Cut) :=
  set_batch (batch_new (length items)) ;;
  r <- catch (poll ;; execute_batch items) ;;
  match r with
  | inr results => iterM push_result results ;; ret None
  | inl c => cancel_turn ;; finish_partial_batch calls ;; ret (Some c)
  end.

Definition is_investigation_batch (items : list ExecItem) : bool :=
  negb (is_nil items)
  && forallb (fun it => match it with
                        | ICall c => negb (bool_decide (tc_name c ∈ map lit ["Write"; "Append"; "Edit"]%string))
                        | IParseError _ _ _ => false
                        end) items.

End Program.
