(* ===== verification/AgentWp.v ===== *)
(** Reasoning about the programs of the agent loop: weakest preconditions, the
    effect trace, and the invariant of a batch. *)

From S2P Require Import Prelude Wire Cost Turn Json Project PermRules AgentSink AgentBatch.

(** ** Weakest preconditions

    [wp m Q I s]: started in [s], [m] does not panic, satisfies [Q] when it
    completes and [I] when it is cut off. *)

Definition wp {W A} (m : M W A) (Q : A -> AState W -> Prop) (I : AState W -> Prop) (s : AState W) : Prop :=
  match m s with
  | (Done a, s') => Q a s'
  | (CutOff _, s') => I s'
  | (Panicked, _) => False
  end.

Section Wp.
Context {W : Type}.
Implicit Types s : AState W.

Lemma wp_ret {A} (a : A) (Q : A -> AState W -> Prop) I s : Q a s -> wp (ret a) Q I s.
Proof. done. Qed.

Lemma wp_bind {A B} (m : M W A) (f : A -> M W B) Q I s :
  wp m (fun a => wp (f a) Q I) I s -> wp (bind m f) Q I s.
Proof. unfold wp, bind. destruct (m s) as [[] ?]; done. Qed.

Lemma wp_mono {A} (m : M W A) (Q Q' : A -> AState W -> Prop) (I I' : AState W -> Prop) s :
  wp m Q I s -> (forall a s', Q a s' -> Q' a s') -> (forall s', I s' -> I' s') -> wp m Q' I' s.
Proof. unfold wp. destruct (m s) as [[] ?]; auto. Qed.

Lemma wp_iterM {A} (f : A -> M W unit) l (P : list A -> AState W -> Prop) I s :
  P l s ->
  (forall x l' s', P (x :: l') s' -> wp (f x) (fun _ => P l') I s') ->
  wp (iterM f l) (fun _ => P []) I s.
Proof.
  revert s. induction l as [|x l IH]; intros s Hl Hf; simpl; [done|].
  apply wp_bind. eapply wp_mono; [by apply Hf| |done]. simpl. intros u s' Hs'. by apply IH.
Qed.

Lemma bind_done {A B} (m : M W A) (f : A -> M W B) s a s' :
  m s = (Done a, s') -> bind m f s = f a s'.
Proof. unfold bind. by intros ->. Qed.

Lemma iterM_app {A} (f : A -> M W unit) a b s s' :
  iterM f a s = (Done tt, s') -> iterM f (a ++ b) s = iterM f b s'.
Proof.
  revert s. induction a as [|x a IH]; intros s; simpl; [by intros [= ->]|].
  unfold bind. destruct (f x s) as [[] s1]; try done. apply IH.
Qed.

End Wp.

(** ** The trace *)

(** The terminal events of calls in a trace. *)
Definition tool_end (e : Effect) : option (str * str * ToolResultBody) :=
  match e with Sink (OnToolEnd id t b) => Some (id, t, b) | _ => None end.
Definition ends (fx : list Effect) : list (str * str * ToolResultBody) := omap tool_end fx.

(** The user or a rule has let the call run. *)
Definition approved (c : ToolCall) (fx : list Effect) : Prop :=
  Checked c Allow ∈ fx \/
  exists a, Answered c a ∈ fx /\ match a with DenyCall _ => False | _ => True end.

(** Every tool start comes after an approval of that call, and every request
    sent satisfies the tool-answer invariant. *)
Definition trace_ok (fx : list Effect) : Prop :=
  (forall pre c cwd post, fx = pre ++ Started c cwd :: post -> approved c pre) /\
  (forall ms, Request ms ∈ fx -> verify_invariant ms = Ok tt).

Definition no_request (e : Effect) : Prop := match e with Request _ => False | _ => True end.

(** Effects that [trace_ok] says nothing about. *)
Definition quiet_effect (e : Effect) : Prop :=
  match e with Started _ _ | Request _ => False | _ => True end.

Lemma approved_mono c fx l : approved c fx -> approved c (fx ++ l).
Proof.
  intros [H|(a & H & Ha)]; [left|right; exists a; split; [|done]]; apply elem_of_app; by left.
Qed.

Lemma ends_app a b : ends (a ++ b) = ends a ++ ends b.
Proof. apply omap_app. Qed.

Lemma quiet_no_request l : Forall quiet_effect l -> Forall no_request l.
Proof. intros Hl. eapply Forall_impl; [|exact Hl]. by intros []. Qed.

Lemma trace_ok_snoc fx e :
  trace_ok fx -> (forall c cwd, e = Started c cwd -> approved c fx) ->
  (forall ms, e = Request ms -> verify_invariant ms = Ok tt) -> trace_ok (fx ++ [e]).
Proof.
  intros [H1 H2] He Hr. split.
  - intros pre c cwd post E. destruct post as [|y post _] using rev_ind.
    + apply app_inj_tail in E as [<- ->]. by eapply He.
    + rewrite app_comm_cons, app_assoc in E. apply app_inj_tail in E as [E _]. by eapply H1.
  - intros ms [Hin|Hin]%elem_of_app; [auto|]. apply list_elem_of_singleton in Hin. by apply Hr.
Qed.

Lemma trace_ok_app fx l : trace_ok fx -> Forall quiet_effect l -> trace_ok (fx ++ l).
Proof.
  intros H Hl. revert fx H. induction Hl as [|e l He Hl IH]; intros fx H; [by rewrite app_nil_r|].
  replace (fx ++ e :: l) with ((fx ++ [e]) ++ l) by by rewrite <- app_assoc.
  apply IH, trace_ok_snoc; [done| |]; intros; by subst.
Qed.

(** ** Steps of the program *)

Section Steps.
Context {W : Type} `{AgentEnv W}.
Context (dl : bool) (cap : Z) (roots : list str).
Implicit Types s : AState W.

Definition with_world s (w : W) : AState W := MkState w (a_fx s) (a_session s) (a_batch s).
Definition with_fx s (l : list Effect) : AState W := MkState (a_world s) (a_fx s ++ l) (a_session s) (a_batch s).
Definition with_session s (x : Session) : AState W := MkState (a_world s) (a_fx s) x (a_batch s).

Lemma wp_poll (Q : unit -> AState W -> Prop) I s : Q tt s -> I s -> wp (poll dl) Q I s.
Proof. intros H1 H2. unfold wp, poll. destruct (env_cancelled _); [done|]. by destruct (dl && _). Qed.

Lemma wp_await {A} (f : W -> A * W) (Q : A -> AState W -> Prop) I s :
  (forall a w, f (a_world s) = (a, w) -> Q a (with_world s w) /\ I (with_world s w)) ->
  wp (await dl f) Q I s.
Proof.
  intros Hq. unfold await. unfold wp, bind, get_world, set_world.
  destruct (f (a_world s)) as [a w] eqn:E. destruct (Hq a w eq_refl) as [H1 H2].
  unfold poll. simpl. destruct (env_cancelled w); [exact H2|].
  destruct (dl && env_deadline_passed w); [exact H2|exact H1].
Qed.

Lemma wp_tell e (Q : unit -> AState W -> Prop) I s : Q tt (with_fx s [e]) -> wp (tell e) Q I s.
Proof. done. Qed.

Lemma wp_now (Q : Z -> AState W -> Prop) I s : (forall t w, Q t (with_world s w)) -> wp now Q I s.
Proof.
  intros Hq. unfold wp, now, bind, get_world, set_world. destruct (env_now (a_world s)). apply Hq.
Qed.

(** Publishing a completion adds its artifacts and then its terminal event. *)
Definition completion_fx (r : ToolExecResult) : list Effect :=
  map (fun a => Sink (OnArtifact (x_id r) (x_tool r) a)) (x_artifacts r)
  ++ [Sink (OnToolEnd (x_id r) (x_tool r) (x_body r))].

Lemma iterM_emit (es : list SinkEvent) s :
  iterM emit es s = (Done tt, with_fx s (map Sink es)).
Proof.
  revert s. induction es as [|e es IH]; intros s; simpl.
  - unfold with_fx. rewrite app_nil_r. by destruct s.
  - unfold bind at 1, emit at 1, tell. rewrite IH. unfold with_fx. simpl. by rewrite <- app_assoc.
Qed.

Lemma iterM_map {A B} (g : A -> B) (f : B -> M W unit) l s :
  iterM f (map g l) s = iterM (fun x => f (g x)) l s.
Proof.
  revert s. induction l as [|x l IH]; intros s; simpl; [done|].
  unfold bind. destruct (f (g x) s) as [[] ?]; auto.
Qed.

Lemma emit_completion_eq r s : emit_tool_completion r s = (Done tt, with_fx s (completion_fx r)).
Proof.
  pose proof (iterM_emit (map (OnArtifact (x_id r) (x_tool r)) (x_artifacts r)) s) as Ha.
  rewrite iterM_map, map_map in Ha. unfold emit_tool_completion. rewrite (bind_done _ _ _ _ _ Ha).
  unfold emit, tell, with_fx, completion_fx. simpl. by rewrite <- app_assoc.
Qed.

Definition end_of (r : ToolExecResult) : str * str * ToolResultBody := (x_id r, x_tool r, x_body r).

Lemma ends_completion r : ends (completion_fx r) = [end_of r].
Proof.
  unfold completion_fx. rewrite ends_app. unfold ends at 2. simpl.
  replace (ends (map _ (x_artifacts r))) with (@nil (str * str * ToolResultBody)); [done|].
  induction (x_artifacts r); done.
Qed.

Lemma completion_no_start r :
  Forall quiet_effect (completion_fx r).
Proof.
  unfold completion_fx. apply list.Forall_app. split; [|by apply list.Forall_singleton].
  apply Forall_map. by apply list.Forall_true.
Qed.

Lemma complete_call_eq i r s :
  (i < length (b_cp_results (a_batch s)))%nat ->
  complete_call i r s =
  (Done tt, MkState (a_world s) (a_fx s ++ completion_fx r) (a_session s)
     (MkBatch (<[i := r]> (b_results (a_batch s))) ({[i]} ∪ b_emitted (a_batch s))
        (<[i := Some r]> (b_cp_results (a_batch s))) ({[i]} ∪ b_cp_emitted (a_batch s)))).
Proof.
  intros Hi. unfold complete_call. rewrite (bind_done _ _ _ _ _ (emit_completion_eq r s)).
  unfold mark_emitted, record_batch_result, bind, get_batch, set_batch. simpl.
  destruct (Nat.ltb_spec i (length (b_cp_results (a_batch s)))); [done|lia].
Qed.

(** ** The invariant of a batch *)

Definition item_key (it : ExecItem) : str * str :=
  match it with ICall c => (tc_id c, tc_name c) | IParseError id name _ => (id, name) end.
Definition result_key (r : ToolExecResult) : str * str := (x_id r, x_tool r).

Definition is_call (it : ExecItem) : bool := match it with ICall _ => true | _ => false end.

(** [fx0] and [x0] are the trace and the session when the batch began; [em] is
    the order in which results have been published. *)
(** [full] says that the parse errors have been recorded. *)
Record batch_inv (full : bool) (items : list ExecItem) (fx0 : list Effect) (x0 : Session) (em : list nat) s : Prop := {
  bi_session : exists g, a_session s = with_grants x0 g;
  bi_fx : exists fx, a_fx s = fx0 ++ fx /\
            Forall no_request fx /\
            ends fx = omap (fun i => end_of <$> b_results (a_batch s) !! i) em;
  bi_started : trace_ok (a_fx s);
  bi_nodup : NoDup em;
  bi_emitted : forall i, i ∈ b_emitted (a_batch s) <-> i ∈ em;
  bi_cp_emitted : b_cp_emitted (a_batch s) = b_emitted (a_batch s);
  bi_cp : b_cp_results (a_batch s) = map (fun i => b_results (a_batch s) !! i) (seq 0 (length items));
  bi_dom : forall i r, b_results (a_batch s) !! i = Some r ->
             exists it, items !! i = Some it /\ result_key r = item_key it /\
                        (is_call it = true -> i ∈ em);
  bi_em : forall i, i ∈ em -> is_Some (b_results (a_batch s) !! i);
  bi_errors : full = true -> forall i it, items !! i = Some it -> is_call it = false -> is_Some (b_results (a_batch s) !! i)
}.

#[global] Arguments bi_session {_ _ _ _ _ _} _.
#[global] Arguments bi_fx {_ _ _ _ _ _} _.
#[global] Arguments bi_started {_ _ _ _ _ _} _.
#[global] Arguments bi_nodup {_ _ _ _ _ _} _.
#[global] Arguments bi_emitted {_ _ _ _ _ _} _.
#[global] Arguments bi_cp_emitted {_ _ _ _ _ _} _.
#[global] Arguments bi_cp {_ _ _ _ _ _} _.
#[global] Arguments bi_dom {_ _ _ _ _ _} _.
#[global] Arguments bi_em {_ _ _ _ _ _} _.
#[global] Arguments bi_errors {_ _ _ _ _ _} _.

Lemma batch_inv_world {full} items fx0 x0 em s w :
  batch_inv full items fx0 x0 em s -> batch_inv full items fx0 x0 em (with_world s w).
Proof. by intros []. Qed.

Lemma batch_inv_fx {full} items fx0 x0 em s e :
  tool_end e = None -> (forall c cwd, e = Started c cwd -> approved c (a_fx s)) ->
  no_request e ->
  batch_inv full items fx0 x0 em s -> batch_inv full items fx0 x0 em (with_fx s [e]).
Proof.
  intros He Hs Hr [H1 (fx & Hfx & Hnr & Hends) H3 H4 H5 H6 H7 H8 H9 H10]. split; try done.
  - exists (fx ++ [e]). simpl. rewrite Hfx, <- app_assoc. split; [done|].
    split; [apply list.Forall_app; split; [done|by apply list.Forall_singleton]|].
    rewrite ends_app. unfold ends at 2. simpl. rewrite He. simpl. by rewrite app_nil_r.
  - apply trace_ok_snoc; [done|done|]. by intros ms ->.
Qed.

Lemma batch_inv_grants {full} items fx0 x0 em s g :
  batch_inv full items fx0 x0 em s ->
  batch_inv full items fx0 x0 em (with_session s (with_grants (a_session s) g)).
Proof.
  intros [(g' & Hg) H2 H3 H4 H5 H6 H7 H8 H9 H10]. split; try done.
  exists g. simpl. by rewrite Hg.
Qed.

Lemma omap_ext_in {A B} (f g : A -> option B) (l : list A) : (forall x, x ∈ l -> f x = g x) -> omap f l = omap g l.
Proof.
  induction l as [|x l IH]; intros Hfg; [done|]. cbn. rewrite (Hfg x) by set_solver.
  rewrite IH by set_solver. done.
Qed.

Lemma map_lookup_insert (m : gmap nat ToolExecResult) i r n :
  (i < n)%nat ->
  map (fun j => <[i := r]> m !! j) (seq 0 n) = <[i := Some r]> (map (fun j => m !! j) (seq 0 n)).
Proof.
  intros Hi. apply list_eq. intros j. destruct (decide (i = j)) as [->|Hne].
  - rewrite list_lookup_insert_eq by (rewrite length_map, length_seq; lia).
    rewrite list_lookup_fmap, lookup_seq_lt by lia. simpl. by rewrite lookup_insert_eq.
  - rewrite list_lookup_insert_ne by done. rewrite !list_lookup_fmap.
    destruct (seq 0 n !! j) as [k|] eqn:E; [|done]. simpl.
    apply lookup_seq in E as [-> _]. by rewrite lookup_insert_ne.
Qed.

(** Completing a call that has not been published yet. *)
Lemma wp_complete {full} items fx0 x0 em s i r c (Q : unit -> AState W -> Prop) I :
  batch_inv full items fx0 x0 em s -> items !! i = Some (ICall c) -> result_key r = (tc_id c, tc_name c) ->
  i ∉ em ->
  (forall s', a_fx s' = a_fx s ++ completion_fx r -> batch_inv full items fx0 x0 (em ++ [i]) s' -> Q tt s') ->
  wp (complete_call i r) Q I s.
Proof.
  intros Hinv Hi Hk Hnin HQ. destruct Hinv as [H1 (fx & Hfx & Hnr & Hends) H3 H4 H5 H6 H7 H8 H9 H10].
  pose proof (lookup_lt_Some _ _ _ Hi) as Hlt.
  unfold wp. rewrite complete_call_eq by (by rewrite H7, length_map, length_seq).
  apply HQ; [done|]. split; simpl; try done.
  - exists (fx ++ completion_fx r). rewrite Hfx, <- app_assoc. split; [done|].
    split; [apply list.Forall_app; split; [done|apply quiet_no_request, completion_no_start]|].
    rewrite ends_app, Hends, ends_completion, omap_app. f_equal.
    + apply omap_ext_in. intros j Hj. rewrite lookup_insert_ne; [done|]. intros ->. done.
    + cbn. by rewrite lookup_insert_eq.
  - apply trace_ok_app; [done|]. apply completion_no_start.
  - apply list.NoDup_app. split_and!; [done| |apply NoDup_singleton]. intros j Hj ->%list_elem_of_singleton. done.
  - intros j. rewrite elem_of_union, elem_of_app, elem_of_singleton, list_elem_of_singleton, H5. tauto.
  - by rewrite H6.
  - by rewrite H7, map_lookup_insert.
  - intros j q [[<- <-]|[Hne Hq]]%lookup_insert_Some.
    + exists (ICall c). rewrite elem_of_app, list_elem_of_singleton. auto.
    + destruct (H8 j q Hq) as (it & Hit & Hkey & Hc). exists it. rewrite elem_of_app. auto.
  - intros j. rewrite elem_of_app, list_elem_of_singleton, lookup_insert_is_Some'. intros [Hj| ->]; auto.
  - intros Hfull j it Hj Hc. rewrite lookup_insert_is_Some'. right. eauto.
Qed.

End Steps.
