(* ===== verification/AgentExec.v ===== *)
(** The batch executor meets its contract: whatever the environment does, and
    wherever it is cut off, every call of the batch ends with one result turn
    in call order and one terminal event, and no tool starts unapproved. *)

From S2P Require Import Prelude Wire Cost Turn Json Project PermRules AgentSink AgentBatch AgentWp.

Section Exec.
Context {W : Type} `{AgentEnv W}.
Context (dl : bool) (cap : Z) (roots : list str).
Implicit Types s : AState W.
Context (items : list ExecItem) (fx0 : list Effect) (x0 : Session).

Local Abbreviation BI := (batch_inv true items fx0 x0).
Definition cut_inv s : Prop := exists full em, batch_inv full items fx0 x0 em s.

Definition extends s s' : Prop := exists l, a_fx s' = a_fx s ++ l.
Lemma extends_refl s : extends s s.
Proof. exists []. by rewrite app_nil_r. Qed.
Lemma extends_trans s1 s2 s3 : extends s1 s2 -> extends s2 s3 -> extends s1 s3.
Proof. intros [a Ha] [b Hb]. exists (a ++ b). by rewrite Hb, Ha, app_assoc. Qed.
Lemma approved_extends c s s' : extends s s' -> approved c (a_fx s) -> approved c (a_fx s').
Proof. intros [l ->]. apply approved_mono. Qed.

Lemma extends_fx s s1 s2 : extends s s1 -> a_fx s2 = a_fx s1 -> extends s s2.
Proof. intros [l Hl] E. exists l. congruence. Qed.

(** Recording a granted rule keeps the invariant. *)
Lemma wp_grant em s rule (Q : option ToolExecResult -> AState W -> Prop) I :
  BI em s -> (forall s', BI em s' -> a_fx s' = a_fx s -> Q None s') ->
  wp (x <- get_session ;; set_session (with_grants x (s_perm_grants x ++ [rule])) ;; ret None) Q I s.
Proof. intros Hi HQ. unfold wp. simpl. apply HQ; [by apply batch_inv_grants|done]. Qed.

Lemma wp_authorize c cwd em s (Q : option ToolExecResult -> AState W -> Prop) :
  BI em s ->
  (forall o s', BI em s' -> extends s s' ->
     match o with None => approved c (a_fx s') | Some r => result_key r = (tc_id c, tc_name c) end -> Q o s') ->
  wp (authorize_call dl roots c cwd) Q cut_inv s.
Proof.
  intros Hi HQ. unfold authorize_call. do 2 (apply wp_bind; unfold wp at 1; simpl).
  set (d := env_check _ _ _ _ _ _). apply wp_bind, wp_tell.
  assert (BI em (with_fx s [Checked c d])) as H1 by (by apply batch_inv_fx).
  assert (extends s (with_fx s [Checked c d])) as E1 by (by eexists).
  destruct d as [|reason|reason].
  - apply wp_ret, HQ; [done..|]. left. apply elem_of_app. right. by apply list_elem_of_singleton.
  - by apply wp_ret, HQ.
  - apply wp_bind, wp_await. intros a w Ha. split; [|exists true, em; by apply batch_inv_world].
    apply (batch_inv_world _ _ _ _ _ w) in H1. set (s1 := with_world _ w) in *.
    apply wp_bind, wp_tell. assert (BI em (with_fx s1 [Answered c a])) as H2 by (by apply batch_inv_fx).
    assert (extends s (with_fx s1 [Answered c a])) as E2.
    { eapply extends_trans; [exact E1|]. by eexists. }
    assert (forall s', extends (with_fx s1 [Answered c a]) s' ->
              match a with DenyCall _ => False | _ => True end -> approved c (a_fx s')) as Hap.
    { intros s' He Hpos. eapply approved_extends; [exact He|]. right. exists a. split; [|done].
      apply elem_of_app. right. by apply list_elem_of_singleton. }
    destruct a as [|rule|rule|reason'].
    + apply wp_ret, HQ; [done|done|]. by apply Hap; [apply extends_refl|].
    + eapply wp_grant; [exact H2|]. intros s' Hs' Hfx. apply HQ; [done|by eapply extends_fx|].
      by apply Hap; [by eapply extends_fx; [apply extends_refl|]|].
    + eapply wp_grant; [exact H2|]. intros s' Hs' Hfx. apply HQ; [done|by eapply extends_fx|].
      by apply Hap; [by eapply extends_fx; [apply extends_refl|]|].
    + by apply wp_ret, HQ.
Qed.

(** ** A parallel phase *)

Definition phase_ok (phase : list (nat * ToolCall)) : Prop :=
  Forall (fun p => items !! fst p = Some (ICall (snd p))) phase.

Lemma cap_key r : result_key (cap_tool_result cap r) = result_key r.
Proof. unfold cap_tool_result. by destruct (0 <? cap). Qed.

Lemma join_key c r : result_key (join_result c r) = (tc_id c, tc_name c).
Proof. by destruct r as [|[]]. Qed.

Lemma wp_join_all k phase em s (Q : unit -> AState W -> Prop) :
  phase_ok phase -> NoDup (em ++ map fst phase) -> BI em s ->
  (forall s', BI (em ++ map fst phase) s' -> extends s s' -> Q tt s') ->
  wp (join_all dl cap k phase) Q cut_inv s.
Proof.
  revert k em s. induction phase as [|[i c] phase IH]; intros k em s Hok Hnd Hi HQ; simpl.
  - apply wp_ret, HQ; [by rewrite app_nil_r|apply extends_refl].
  - apply list.Forall_cons in Hok as [Hic Hok]. cbn [map fst snd] in *.
    apply wp_bind, wp_await. intros r w _. split; [|exists true, em; by apply batch_inv_world].
    apply (batch_inv_world _ _ _ _ _ w) in Hi.
    apply wp_bind. eapply wp_complete; [exact Hi|exact Hic|by rewrite cap_key, join_key| |].
    { apply list.NoDup_app in Hnd as (_ & Hd & _). intros Hin. apply (Hd i Hin). by left. }
    intros s' Hfx Hs'. apply (IH _ (em ++ [i])); [done| |done|].
    + by rewrite <- app_assoc.
    + intros s'' Hs'' He. apply HQ.
      * by rewrite <- app_assoc in Hs''.
      * eapply extends_trans; [|exact He]. exists (completion_fx (cap_tool_result cap (join_result c r))).
        by rewrite Hfx.
Qed.

Lemma wp_spawn_all phase cwd em s (Q : unit -> AState W -> Prop) :
  Forall (fun p => approved (snd p) (a_fx s)) phase -> BI em s ->
  (forall s', BI em s' -> extends s s' -> Q tt s') ->
  wp (iterM (fun p => spawn dl p cwd) phase) Q cut_inv s.
Proof.
  intros Hap Hi HQ.
  eapply wp_mono with (I := cut_inv); [apply (wp_iterM _ phase
     (fun l s' => Forall (fun p => approved (snd p) (a_fx s)) l /\ BI em s' /\ extends s s'))| |done].
  - split; [done|]. split; [done|apply extends_refl].
  - intros [i c] l s' (Hf & Hs' & He). apply list.Forall_cons in Hf as [Hc Hf]. unfold spawn.
    apply wp_bind, wp_poll; [|by exists true, em]. apply wp_bind, wp_tell. apply wp_bind.
    unfold wp at 1. simpl. unfold wp. simpl. split; [done|]. split.
    + apply (batch_inv_world items fx0 x0 em (with_fx s' [Started c cwd])).
      apply batch_inv_fx; [done| |done|done]. intros c' cwd' [= <- <-]. by eapply approved_extends.
    + eapply extends_trans; [exact He|]. by eexists.
  - intros [] s' (_ & ? & ?). by apply HQ.
Qed.

Lemma wp_authorize_phase phase cwd allowed em s (Q : list (nat * ToolCall) -> AState W -> Prop) :
  phase_ok phase -> phase_ok allowed -> Forall (fun p => approved (snd p) (a_fx s)) allowed ->
  NoDup (em ++ map fst phase) -> BI em s ->
  (forall out em' s', BI em' s' -> extends s s' -> phase_ok out ->
     Forall (fun p => approved (snd p) (a_fx s')) out ->
     em' ++ map fst out ≡ₚ em ++ map fst phase ++ map fst allowed -> Q out s') ->
  wp (authorize_phase dl roots phase cwd allowed) Q cut_inv s.
Proof.
  revert allowed em s. induction phase as [|[i c] phase IH]; intros allowed em s Hok Ha Hap Hnd Hi HQ; simpl.
  - apply wp_ret. by apply (HQ allowed em s); [|apply extends_refl|..].
  - apply list.Forall_cons in Hok as [Hic Hok]. cbn [map fst snd] in *.
    apply wp_bind, (wp_authorize _ _ em); [done|]. intros o s1 H1 E1 Ho.
    assert (Forall (fun p => approved (snd p) (a_fx s1)) allowed) as Hap1.
    { eapply list.Forall_impl; [exact Hap|]. intros p. by apply approved_extends. }
    destruct o as [r|].
    + apply wp_bind. eapply wp_complete; [exact H1|exact Hic|done| |].
      { apply list.NoDup_app in Hnd as (_ & Hd & _). intros Hin. apply (Hd i Hin). by left. }
      intros s2 Hfx H2. assert (extends s s2) as E2.
      { eapply extends_trans; [exact E1|]. by eexists. }
      apply (IH allowed (em ++ [i])); [done|done| |by rewrite <- app_assoc|done|].
      { eapply list.Forall_impl; [exact Hap1|]. intros p. apply approved_extends. by eexists. }
      intros out em' s' Hs' E' Hout Hapo Hperm. apply (HQ out em'); try done.
      * by eapply extends_trans.
      * rewrite Hperm. by rewrite <- app_assoc.
    + apply (IH (allowed ++ [(i, c)]) em); [done| | | |done|].
      * apply list.Forall_app. split; [done|]. by apply list.Forall_singleton.
      * apply list.Forall_app. split; [done|]. by apply list.Forall_singleton.
      * apply list.NoDup_app in Hnd as (Hn1 & Hd & Hn2). apply list.NoDup_cons in Hn2 as [_ Hn2].
        apply list.NoDup_app. split; [done|]. split; [|done]. intros x Hx Hx'. apply (Hd x Hx). by right.
      * intros out em' s' Hs' E' Hout Hapo Hperm. apply (HQ out em'); try done.
        { by eapply extends_trans. }
        rewrite Hperm, map_app. simpl. by rewrite (Permutation_cons_append (map fst phase ++ map fst allowed)), !app_assoc.
Qed.

(** ** The schedule *)

Definition sched_ok (l : list (nat * option ScheduledCall)) : Prop :=
  Forall (fun p => exists it, items !! fst p = Some it /\ snd p = schedule it) l.
Definition pending (l : list (nat * option ScheduledCall)) : list nat :=
  omap (fun p => match snd p with Some _ => Some (fst p) | None => None end) l.

Lemma pending_cons p l :
  pending (p :: l) = match snd p with Some _ => fst p :: pending l | None => pending l end.
Proof. unfold pending. cbn. by destruct (snd p). Qed.

Lemma schedule_Some it c :
  schedule it = Some c -> it = ICall (sc_call c) /\ (is_parallel c = true -> sc_tool c = true).
Proof.
  destruct it as [c'|]; [|done]. simpl. intros [= <-].
  by destruct (env_tool (tc_name c')).
Qed.

(** What [take_phase] takes: the calls up to the next barrier. *)
Lemma take_phase_spec l p r :
  take_phase l = (p, r) -> sched_ok l ->
  map fst p ++ pending r = pending l /\ sched_ok r /\ (length r <= length l)%nat /\
  Forall (fun q => items !! fst q = Some (ICall (sc_call (snd q))) /\ sc_tool (snd q) = true) p.
Proof.
  revert p r. induction l as [|[i [c|]] l IH]; intros p r; cbn [take_phase].
  - intros [= <- <-] _. split_and!; [done|constructor|done|constructor].
  - intros E Hs. pose proof Hs as Hs0. apply list.Forall_cons in Hs as [(it & Hi & Hc) Hs]. cbn [fst snd] in *.
    destruct (is_parallel c) eqn:Ep.
    + destruct (take_phase l) as [p' r'] eqn:Et. injection E as <- <-.
      destruct (IH _ _ eq_refl Hs) as (H1 & H2 & H3 & H4). rewrite pending_cons. cbn [fst snd map app]. rewrite H1.
      split_and!; [done|done|simpl; lia|]. apply list.Forall_cons. split; [|done]. simpl.
      symmetry in Hc. apply schedule_Some in Hc as [-> Ht]. auto.
    + injection E as <- <-. split_and!; [done|done|done|constructor].
  - intros E Hs. apply list.Forall_cons in Hs as [_ Hs]. destruct (IH _ _ E Hs) as (H1 & H2 & H3 & H4).
    rewrite pending_cons. cbn [fst snd]. split_and!; try done. simpl. lia.
Qed.

Lemma wp_phase_tools p s (Q : list (nat * ToolCall) -> AState W -> Prop) I :
  Forall (fun q => items !! fst q = Some (ICall (sc_call (snd q))) /\ sc_tool (snd q) = true) p ->
  (forall phase, phase_ok phase -> map fst phase = map fst p -> Q phase s) ->
  wp (phase_tools p) Q I s.
Proof.
  revert Q. induction p as [|[i c] p IH]; intros Q Hp HQ; simpl.
  - apply wp_ret, HQ; [constructor|done].
  - apply list.Forall_cons in Hp as [[Hi Ht] Hp]. simpl in *. rewrite Ht. apply wp_bind, IH; [done|].
    intros phase Hok Hf. apply wp_ret, HQ; [by apply list.Forall_cons|simpl; by f_equal].
Qed.

Lemma wp_run_one c cwd em s (Q : ToolExecResult -> AState W -> Prop) :
  approved c (a_fx s) -> BI em s ->
  (forall r s', BI em s' -> extends s s' -> result_key r = (tc_id c, tc_name c) -> Q r s') ->
  wp (run_one dl c cwd) Q cut_inv s.
Proof.
  intros Hap Hi HQ. unfold run_one. apply wp_bind, wp_now. intros t w.
  apply (batch_inv_world _ _ _ _ _ w) in Hi. apply wp_bind, wp_tell.
  assert (BI em (with_fx (with_world s w) [Started c cwd])) as H1.
  { apply batch_inv_fx; [done| |done|done]. by intros c' cwd' [= <- <-]. }
  apply wp_bind, wp_await. intros r w' _. apply (batch_inv_world _ _ _ _ _ w') in H1.
  split; [|by exists true, em]. apply wp_bind, wp_now. intros t' w''.
  apply (batch_inv_world _ _ _ _ _ w'') in H1. apply wp_ret, HQ; [done| |done].
  by eexists.
Qed.

Lemma wp_barrier i c em s (Q : unit -> AState W -> Prop) :
  items !! i = Some (ICall (sc_call c)) -> i ∉ em -> BI em s ->
  (forall s', BI (em ++ [i]) s' -> extends s s' -> Q tt s') ->
  wp (run_barrier dl cap roots i c) Q cut_inv s.
Proof.
  intros Hi Hnin Hinv HQ. unfold run_barrier. apply wp_bind. unfold wp at 1. simpl.
  apply wp_bind, (wp_authorize _ _ em); [done|]. intros o s1 H1 E1 Ho.
  destruct o as [r|]; [|destruct (sc_tool c)].
  - eapply wp_complete; [done..|]. intros s' Hfx Hs'. apply HQ; [done|].
    eapply extends_trans; [exact E1|]. by eexists.
  - apply wp_bind, (wp_run_one _ _ em); [done|done|]. intros r s2 H2 E2 Hk.
    eapply wp_complete; [exact H2|done|by rewrite cap_key|done|]. intros s' Hfx Hs'. apply HQ; [done|].
    eapply extends_trans; [exact E1|]. eapply extends_trans; [exact E2|]. by eexists.
  - eapply wp_complete; [exact H1|done..|]. intros s' Hfx Hs'. apply HQ; [done|].
    eapply extends_trans; [exact E1|]. by eexists.
Qed.

Lemma wp_batch_loop f l em s (Q : unit -> AState W -> Prop) :
  (length l <= f)%nat -> sched_ok l -> NoDup (em ++ pending l) -> BI em s ->
  (forall em' s', BI em' s' -> extends s s' -> em' ≡ₚ em ++ pending l -> Q tt s') ->
  wp (batch_loop dl cap roots f l) Q cut_inv s.
Proof.
  revert l em s. induction f as [|f IH]; intros l em s Hf Hs Hnd Hi HQ.
  { destruct l; [|simpl in Hf; lia]. apply (HQ em); [done|apply extends_refl|].
    by rewrite app_nil_r. }
  destruct l as [|[i [c|]] l].
  - apply (HQ em); [done|apply extends_refl|]. by rewrite app_nil_r.
  - cbn [batch_loop]. destruct (is_parallel c) eqn:Ep.
    + destruct (take_phase ((i, Some c) :: l)) as [p r] eqn:Et.
      destruct (take_phase_spec _ _ _ Et Hs) as (Hpend & Hsr & Hlen & Hp).
      assert (length r <= f)%nat as Hlr.
      { clear Hpend Hlen. simpl in Et. rewrite Ep in Et. destruct (take_phase l) as [p' r'] eqn:E'.
        injection Et as _ <-. apply list.Forall_cons in Hs as [_ Hs].
        destruct (take_phase_spec _ _ _ E' Hs) as (_ & _ & Hl & _). simpl in Hf. lia. }
      rewrite <- Hpend in *. apply wp_bind, wp_phase_tools; [done|]. intros phase Hok Hfst.
      rewrite <- Hfst in *. apply wp_bind. unfold wp at 1. simpl.
      apply wp_bind, (wp_authorize_phase _ _ _ em); [done|constructor|constructor| |done|].
      { rewrite app_assoc in Hnd. by apply list.NoDup_app in Hnd as [? _]. }
      intros out em1 s1 H1 E1 Hout Hap Hperm. rewrite app_nil_r in Hperm.
      assert (NoDup (em1 ++ map fst out ++ pending r)) as Hnd1.
      { by rewrite app_assoc, Hperm, <- app_assoc. }
      apply wp_bind. unfold run_parallel_phase. apply wp_bind. unfold wp at 1. simpl.
      apply wp_bind, (wp_spawn_all _ _ em1); [done|done|]. intros s2 H2 E2.
      apply (wp_join_all _ _ em1); [done| |done|].
      { rewrite app_assoc in Hnd1. by apply list.NoDup_app in Hnd1 as [? _]. }
      intros s3 H3 E3. apply (IH _ (em1 ++ map fst out)); [done|done|by rewrite <- app_assoc|done|].
      intros em' s' H' E' Hperm'. apply (HQ em'); [done| |].
      * eauto using extends_trans.
      * by rewrite Hperm', Hperm, <- app_assoc.
    + apply list.Forall_cons in Hs as [(it & Hit & Hc) Hs]. simpl in Hit, Hc.
      symmetry in Hc. apply schedule_Some in Hc as [-> _]. rewrite pending_cons in *. cbn [snd fst] in *.
      apply wp_bind, (wp_barrier _ _ em); [done| |done|].
      { apply list.NoDup_app in Hnd as (_ & Hd & _). intros Hin. apply (Hd i Hin). by left. }
      intros s1 H1 E1. apply (IH _ (em ++ [i])); [simpl in Hf; lia|done|by rewrite <- app_assoc|done|].
      intros em' s' H' E' Hperm. apply (HQ em'); [done|eauto using extends_trans|].
      by rewrite Hperm, <- app_assoc.
  - cbn [batch_loop]. apply list.Forall_cons in Hs as [_ Hs]. rewrite pending_cons in *. cbn [snd fst] in *.
    apply (IH _ em); try done. simpl in Hf. lia.
Qed.

(** ** The start of a batch *)

Lemma with_grants_self x : with_grants x (s_perm_grants x) = x.
Proof. by destruct x. Qed.

(** After the parse errors among the first [k] items have been recorded. *)
Record start_inv (k : nat) s : Prop := {
  si_session : a_session s = x0;
  si_fx : a_fx s = fx0;
  si_emitted : b_emitted (a_batch s) = ∅;
  si_cp_emitted : b_cp_emitted (a_batch s) = ∅;
  si_cp : b_cp_results (a_batch s) = map (fun i => b_results (a_batch s) !! i) (seq 0 (length items));
  si_dom : forall i r, b_results (a_batch s) !! i = Some r ->
             exists it, items !! i = Some it /\ result_key r = item_key it /\ is_call it = false;
  si_errors : forall i it, (i < k)%nat -> items !! i = Some it -> is_call it = false ->
                is_Some (b_results (a_batch s) !! i)
}.

Lemma start_inv_new s :
  a_session s = x0 -> a_fx s = fx0 -> a_batch s = batch_new (length items) -> start_inv 0 s.
Proof.
  intros H1 H2 H3. split; rewrite ?H3; simpl; try done; [|intros; lia].
  clear H3. generalize 0%nat. induction (length items) as [|n IH]; intros k; simpl; [done|].
  rewrite <- (IH (S k)), lookup_empty. done.
Qed.

Lemma record_parse_errors_spec todo k s :
  items = take k items ++ todo -> length (take k items) = k -> start_inv k s ->
  exists s', record_parse_errors k todo s = (Done tt, s') /\ start_inv (length items) s'.
Proof.
  revert k s. induction todo as [|it todo IH]; intros k s Hsplit Hk Hs.
  { exists s. split; [done|]. rewrite app_nil_r in Hsplit. rewrite Hsplit, Hk. done. }
  assert (items !! k = Some it) as Hit.
  { rewrite Hsplit, lookup_app_r by lia. by rewrite Hk, Nat.sub_diag. }
  pose proof (lookup_lt_Some _ _ _ Hit) as Hlt.
  assert (items = take (S k) items ++ todo) as Hsplit'.
  { rewrite (take_S_r _ _ _ Hit), <- app_assoc. done. }
  assert (length (take (S k) items) = S k) as Hk' by (rewrite length_take; lia).
  destruct it as [c|id name err]; cbn [record_parse_errors].
  - apply IH; [done|done|]. destruct Hs as [H1 H2 H3 H4 H5 H6 H7]. split; try done.
    intros i it' Hi Hit' Hc. destruct (decide (i = k)) as [->|].
    { rewrite Hit in Hit'. injection Hit' as <-. done. }
    apply (H7 i it'); [lia|done..].
  - set (r := parse_error_result id name err).
    destruct Hs as [H1 H2 H3 H4 H5 H6 H7].
    unfold bind, record_batch_result at 1. unfold bind, get_batch at 1. cbn [fst snd].
    destruct (Nat.ltb_spec k (length (b_cp_results (a_batch s)))) as [_|Hge].
    2:{ rewrite H5, length_map, length_seq in Hge. lia. }
    unfold set_batch at 1. apply IH; [done|done|]. split; simpl; try done.
    + by rewrite H5, map_lookup_insert.
    + intros i q [[<- <-]|[Hne Hq]]%lookup_insert_Some; [|eauto].
      exists (IParseError id name err). done.
    + intros i it' Hi Hit' Hc. rewrite lookup_insert_is_Some'.
      destruct (decide (k = i)) as [->|]; [by left|]. right. apply (H7 i it'); [lia|done..].
Qed.

Lemma start_inv_batch s : trace_ok fx0 -> start_inv (length items) s -> BI [] s.
Proof.
  intros Hst [H1 H2 H3 H4 H5 H6 H7]. split.
  - exists (s_perm_grants x0). by rewrite with_grants_self.
  - exists []. by rewrite H2, app_nil_r.
  - by rewrite H2.
  - apply NoDup_nil_2.
  - intros i. rewrite H3. set_solver.
  - by rewrite H4, H3.
  - done.
  - intros i r Hr. destruct (H6 i r Hr) as (it & ? & ? & Hc). exists it. rewrite Hc. done.
  - intros i. set_solver.
  - intros _ i it Hi Hc. apply (H7 i it); [by eapply lookup_lt_Some|done..].
Qed.

(** ** The end of a batch *)

Definition entry (m : gmap nat ToolExecResult) (i : nat) : option (str * str * ToolResultBody) :=
  end_of <$> m !! i.

(** Results, grants and published events when the loop is over. *)
Definition final_inv (m : gmap nat ToolExecResult) (em : list nat) s : Prop :=
  (exists g, a_session s = with_grants x0 g) /\ trace_ok (a_fx s) /\ b_results (a_batch s) = m /\
  exists fx, a_fx s = fx0 ++ fx /\ Forall no_request fx /\ ends fx = omap (entry m) em.

Lemma wp_publish_loop E m keys em s I :
  final_inv m em s -> (forall i, i ∈ keys -> is_Some (m !! i)) ->
  wp (iterM (fun i => if decide (i ∈ E) then ret tt
                      else match m !! i with
                           | Some r => emit_tool_completion r ;; mark_batch_emitted i
                           | None => ret tt
                           end) keys)
    (fun _ s' => final_inv m (em ++ base.filter (fun i => i ∉ (E : gset nat)) keys) s') I s.
Proof.
  revert em s. induction keys as [|i keys IH]; intros em s Hs Hk; cbn [iterM].
  { apply wp_ret. by rewrite app_nil_r. }
  apply wp_bind. destruct (decide (i ∈ E)) as [Hi|Hi].
  { rewrite filter_cons_False by (intros Hn; by apply Hn). apply wp_ret, IH; [done|set_solver]. }
  rewrite filter_cons_True by done. destruct (Hk i) as [r Hr]; [set_solver|]. rewrite Hr.
  unfold wp at 1. rewrite (bind_done _ _ _ _ _ (emit_completion_eq r s)).
  unfold mark_batch_emitted, bind, get_batch, set_batch. simpl.
  replace (em ++ i :: base.filter (fun i => i ∉ E) keys)
    with ((em ++ [i]) ++ base.filter (fun i => i ∉ E) keys) by by rewrite <- app_assoc.
  apply IH; [|set_solver]. destruct Hs as (H1 & H2 & H3 & fx & Hfx & Hnr & He). split_and!; try done.
  - simpl. apply trace_ok_app; [done|apply completion_no_start].
  - exists (fx ++ completion_fx r). simpl. rewrite Hfx, <- app_assoc. split; [done|].
    split; [apply list.Forall_app; split; [done|apply quiet_no_request, completion_no_start]|].
    rewrite ends_app, He, ends_completion, omap_app. f_equal. cbn. unfold entry. by rewrite Hr.
Qed.

Lemma collect_done l m s :
  NoDup l -> (forall i, i ∈ l -> is_Some (m !! i)) -> collect l m s = (Done (omap (fun i => m !! i) l), s).
Proof.
  revert m. induction l as [|i l IH]; intros m Hnd Hm; cbn [collect]; [done|].
  apply list.NoDup_cons in Hnd as [Hi Hnd]. destruct (Hm i) as [r Hr]; [set_solver|].
  unfold expect. rewrite Hr. unfold bind at 1, ret at 1. unfold bind. rewrite IH; [|done|].
  - unfold ret. f_equal. f_equal. cbn. rewrite Hr. f_equal. apply omap_ext_in. intros j Hj.
    rewrite lookup_delete_ne; [done|]. intros ->. done.
  - intros j Hj. rewrite lookup_delete_ne; [apply Hm; set_solver|]. intros ->. done.
Qed.

Lemma pending_elem l i : i ∈ pending l <-> exists c, (i, Some c) ∈ l.
Proof.
  unfold pending. rewrite list_elem_of_omap. split.
  - intros ([j [c|]] & Hj & E); simplify_eq/=. eauto.
  - intros [c Hc]. by exists (i, Some c).
Qed.

Lemma enumerate_lookup {A} (l : list A) i x : (i, x) ∈ enumerate l <-> l !! i = Some x.
Proof.
  unfold enumerate. rewrite list_elem_of_lookup. split.
  - intros [k Hk]. apply lookup_zip_Some in Hk as [Hk1 Hk2]. apply lookup_seq in Hk1 as [-> _]. done.
  - intros Hx. exists i. apply lookup_zip_Some. split; [|done].
    apply lookup_seq. split; [done|]. by eapply lookup_lt_Some.
Qed.

Lemma sched_ok_all : sched_ok (enumerate (map schedule items)).
Proof.
  apply list.Forall_forall. intros [i o] Hin. apply enumerate_lookup in Hin. simpl.
  rewrite list_lookup_fmap in Hin. destruct (items !! i) as [it|]; [|done]. exists it. naive_solver.
Qed.

Lemma pending_sublist l : pending l `sublist_of` map fst l.
Proof.
  induction l as [|[i o] l IH]; [done|]. rewrite pending_cons. simpl.
  destruct o; by constructor.
Qed.

Lemma pending_all_nodup : NoDup (pending (enumerate (map schedule items))).
Proof.
  eapply sublist_NoDup; [|apply pending_sublist]. unfold enumerate.
  change (map fst) with (fmap (M := list) (@fst nat (option ScheduledCall))).
  rewrite fst_zip by (rewrite length_seq; done). apply NoDup_seq.
Qed.

Lemma entries_map m (l : list nat) : omap (entry m) l = map end_of (omap (fun i => m !! i) l).
Proof.
  induction l as [|i l IH]; [done|]. cbn. unfold entry at 1. destruct (m !! i); simpl; [f_equal|]; apply IH.
Qed.

Lemma results_keys (m : gmap nat ToolExecResult) (l : list ExecItem) k :
  (forall i it, l !! i = Some it -> exists r, m !! (k + i)%nat = Some r /\ result_key r = item_key it) ->
  map result_key (omap (fun i => m !! i) (seq k (length l))) = map item_key l.
Proof.
  revert k. induction l as [|it l IH]; intros k Hm; [done|]. cbn.
  destruct (Hm 0%nat it eq_refl) as (r & Hr & Hk). rewrite Nat.add_0_r in Hr. rewrite Hr. cbn. rewrite Hk.
  f_equal. apply IH. intros i it' Hi. rewrite Nat.add_succ_comm. by apply (Hm (S i)).
Qed.

Lemma batch_done_dom em s :
  BI em s -> em ≡ₚ pending (enumerate (map schedule items)) ->
  forall i, is_Some (b_results (a_batch s) !! i) <-> (i < length items)%nat.
Proof.
  intros B Hem i. split.
  - intros [r Hr]. destruct (bi_dom B i r Hr) as (it & Hit & _). by eapply lookup_lt_Some.
  - intros Hi. apply lookup_lt_is_Some in Hi as [it Hit]. destruct (is_call it) eqn:Ec.
    + apply (bi_em B). rewrite Hem. apply pending_elem. destruct it as [c|]; [|done].
      eexists. apply enumerate_lookup. rewrite list_lookup_fmap, Hit. done.
    + by eapply (bi_errors B eq_refl).
Qed.

(** The published order, completed by the rest, is a permutation of the batch. *)
Lemma publish_order em s keys :
  BI em s -> em ≡ₚ pending (enumerate (map schedule items)) ->
  keys ≡ₚ map fst (map_to_list (b_results (a_batch s))) ->
  em ++ base.filter (fun i => i ∉ b_emitted (a_batch s)) keys ≡ₚ seq 0 (length items).
Proof.
  intros B Hem Hkeys.
  assert (forall i, i ∈ keys <-> is_Some (b_results (a_batch s) !! i)) as Hk.
  { intros i. rewrite Hkeys, list_elem_of_fmap. split.
    - intros ([j r] & -> & Hin). apply elem_of_map_to_list in Hin. by exists r.
    - intros [r Hr]. exists (i, r). by rewrite elem_of_map_to_list. }
  apply NoDup_Permutation.
  - apply list.NoDup_app. split; [apply (bi_nodup B)|]. split.
    + intros i Hi [Hn _]%list_elem_of_filter. apply Hn. by apply (bi_emitted B).
    + apply list.NoDup_filter. rewrite Hkeys. apply NoDup_fst_map_to_list.
  - apply NoDup_seq.
  - intros i. rewrite elem_of_app, list_elem_of_filter, elem_of_seq, (bi_emitted B), Hk.
    pose proof (batch_done_dom em s B Hem i) as Hd. pose proof (bi_em B i).
    rewrite Hd in *. destruct (decide (i ∈ em)) as [Hin|Hin].
    + split; [intros _; specialize (H1 Hin); lia|by left].
    + split; [intros [?|[_ ?]]; [done|lia]|intros ?; right; split; [done|lia]].
Qed.

Lemma wp_execute_batch `{!AgentEnvLaws W} s (Q : list ToolExecResult -> AState W -> Prop) :
  trace_ok fx0 -> a_session s = x0 -> a_fx s = fx0 -> a_batch s = batch_new (length items) ->
  (forall rs s', map result_key rs = map item_key items ->
     (exists g, a_session s' = with_grants x0 g) -> trace_ok (a_fx s') ->
     (exists fx, a_fx s' = fx0 ++ fx /\ Forall no_request fx /\ ends fx ≡ₚ map end_of rs) -> Q rs s') ->
  wp (execute_batch dl cap roots items) Q cut_inv s.
Proof.
  intros Hst H1 H2 H3 HQ. unfold execute_batch. apply wp_bind.
  destruct (record_parse_errors_spec items 0 s eq_refl eq_refl (start_inv_new s H1 H2 H3)) as (s1 & E1 & S1).
  unfold wp at 1. rewrite E1. clear E1. apply start_inv_batch in S1; [|done].
  apply wp_bind, (wp_batch_loop _ _ [] s1); [|apply sched_ok_all|apply pending_all_nodup|done|].
  { unfold enumerate. rewrite length_zip_with, length_seq, length_map. lia. }
  intros em s2 B2 _ Hem. cbn [app] in Hem. apply wp_bind. unfold publish_rest.
  apply wp_bind. unfold wp at 1, get_world. apply wp_bind. unfold wp at 1, get_batch.
  set (m := b_results (a_batch s2)). set (E := b_emitted (a_batch s2)).
  set (keys := env_hash_order (a_world s2) (map fst (map_to_list m))).
  assert (keys ≡ₚ map fst (map_to_list m)) as Hkeys by apply hash_order_perm.
  eapply wp_mono; [apply (wp_publish_loop E m keys em s2)| |done].
  - destruct B2 as [G1 G2 G3 _ _ _ _ _ _ _]. by split_and!.
  - intros i. rewrite Hkeys, list_elem_of_fmap. intros ([j r] & -> & Hin).
    apply elem_of_map_to_list in Hin. by exists r.
  - intros [] s3 (G1 & G2 & G3 & fx & Hfx & Hnr & Hends). apply wp_bind. unfold wp at 1, get_batch. rewrite G3.
    pose proof (batch_done_dom em s2 B2 Hem) as Hdom. unfold wp. rewrite collect_done.
    + apply HQ; [|done|done|].
      * apply results_keys. intros i it Hit. simpl.
        destruct (proj2 (Hdom i)) as [r Hr]; [by eapply lookup_lt_Some|].
        exists r. split; [done|]. destruct (bi_dom B2 i r Hr) as (it' & Hit' & Hk & _). congruence.
      * exists fx. split; [done|]. split; [done|]. rewrite Hends, entries_map.
        pose proof (publish_order em s2 keys B2 Hem Hkeys) as Hord. fold E in Hord. by rewrite Hord.
    + apply NoDup_seq.
    + intros i Hi. apply Hdom. apply elem_of_seq in Hi. lia.
Qed.

End Exec.

(** ** Closing a batch that was cut off *)

Section Close.
Context {W : Type} `{AgentEnv W}.
Implicit Types s : AState W.

Definition turn_of (r : ToolExecResult) : Turn := TToolResult (x_id r) (x_tool r) (x_body r) (x_duration r).
Definition call_key (c : ToolCall) : str * str := (tc_id c, tc_name c).

(** The turns a piece of program appends, and the trace it adds. *)
Definition appended s s' (turns : list Turn) (fx : list Effect) : Prop :=
  a_session s' = with_messages (a_session s) (s_messages (a_session s) ++ turns) /\
  a_fx s' = a_fx s ++ fx.

Lemma appended_nil s : appended s s [] [].
Proof. split; rewrite ?app_nil_r; [by destruct (a_session s)|done]. Qed.

Lemma appended_trans s1 s2 s3 t1 t2 f1 f2 :
  appended s1 s2 t1 f1 -> appended s2 s3 t2 f2 -> appended s1 s3 (t1 ++ t2) (f1 ++ f2).
Proof.
  intros [H1 H2] [H3 H4]. split.
  - rewrite H3, H1. unfold with_messages. simpl. by rewrite app_assoc.
  - by rewrite H4, H2, app_assoc.
Qed.

Lemma push_turn_eq t s :
  exists s', push_turn t s = (Done tt, s') /\ appended s s' [t] [Sink (OnTurn t)] /\ a_batch s' = a_batch s.
Proof. eexists. split; [reflexivity|]. by split. Qed.

Lemma iterM_push (rs : list ToolExecResult) s :
  exists s', iterM push_result rs s = (Done tt, s') /\
    appended s s' (map turn_of rs) (map (fun r => Sink (OnTurn (turn_of r))) rs).
Proof.
  revert s. induction rs as [|r rs IH]; intros s; cbn [iterM map].
  - exists s. split; [done|apply appended_nil].
  - destruct (push_turn_eq (turn_of r) s) as (s1 & E1 & H1 & _). destruct (IH s1) as (s2 & E2 & H2).
    exists s2. split; [|by apply (appended_trans _ _ _ [_] _ [_] _ H1)].
    etransitivity; [exact (bind_done _ _ _ _ _ E1)|exact E2].
Qed.

(** The result a call of a cut batch ends with. *)
Definition final_result (b : Batch) (i : nat) (c : ToolCall) : ToolExecResult :=
  match b_cp_results b !! i with
  | Some (Some r) => r
  | _ => MkExec (tc_id c) (tc_name c) RInterrupted 0 []
  end.
Definition published (b : Batch) (i : nat) : bool :=
  match b_cp_results b !! i with Some (Some _) => bool_decide (i ∈ b_cp_emitted b) | _ => false end.

Fixpoint finals (b : Batch) (i : nat) (calls : list ToolCall) : list ToolExecResult :=
  match calls with [] => [] | c :: calls' => final_result b i c :: finals b (S i) calls' end.
Definition close_fx (b : Batch) (i : nat) (r : ToolExecResult) : list Effect :=
  (if published b i then [] else [Sink (OnToolEnd (x_id r) (x_tool r) (x_body r))])
  ++ [Sink (OnTurn (turn_of r))].
Fixpoint closing_fx (b : Batch) (i : nat) (calls : list ToolCall) : list Effect :=
  match calls with
  | [] => []
  | c :: calls' => close_fx b i (final_result b i c) ++ closing_fx b (S i) calls'
  end.

Lemma finish_partial_eq i calls s :
  exists s', finish_partial i calls s = (Done tt, s') /\
    appended s s' (map turn_of (finals (a_batch s) i calls)) (closing_fx (a_batch s) i calls).
Proof.
  revert i s. induction calls as [|c calls IH]; intros i s.
  - exists s. split; [done|apply appended_nil].
  - assert (exists s1, appended s s1 [turn_of (final_result (a_batch s) i c)]
              (close_fx (a_batch s) i (final_result (a_batch s) i c)) /\ a_batch s1 = a_batch s /\
              finish_partial i (c :: calls) s = finish_partial (S i) calls s1) as (s1 & H1 & Hb & E1).
    { cbn [finish_partial]. unfold final_result, close_fx, published.
      unfold bind at 1, get_batch. destruct (b_cp_results (a_batch s) !! i) as [[r|]|].
      - destruct (decide (i ∈ b_cp_emitted (a_batch s))) as [Hi|Hi].
        + rewrite bool_decide_true by done. eexists. split; [|split; [|reflexivity]]; [|done]. by split.
        + rewrite bool_decide_false by done. eexists. split; [|split; [|reflexivity]]; [|done].
          split; [done|]. simpl. by rewrite <- app_assoc.
      - eexists. split; [|split; [|reflexivity]]; [|done]. split; [done|]. simpl. by rewrite <- app_assoc.
      - eexists. split; [|split; [|reflexivity]]; [|done]. split; [done|]. simpl. by rewrite <- app_assoc. }
    destruct (IH (S i) s1) as (s2 & E2 & H2). exists s2. rewrite E1, E2. split; [done|].
    rewrite Hb in H2. by apply (appended_trans _ _ _ [_] _ _ _ H1).
Qed.

Lemma ends_closing b i calls (G : nat -> option (str * str * ToolResultBody)) :
  (forall j c, calls !! j = Some c -> G (i + j)%nat = Some (end_of (final_result b (i + j) c))) ->
  ends (closing_fx b i calls)
    = omap G (base.filter (fun j => published b j = false) (seq i (length calls))) /\
  map end_of (finals b i calls) = omap G (seq i (length calls)).
Proof.
  revert i. induction calls as [|c calls IH]; intros i HG; [done|]. cbn [closing_fx finals length seq map].
  destruct (IH (S i)) as [IH1 IH2].
  { intros j c' Hj. rewrite Nat.add_succ_comm. by apply (HG (S j)). }
  pose proof (HG 0%nat c eq_refl) as Hc. rewrite Nat.add_0_r in Hc.
  rewrite ends_app, IH1. split.
  - unfold close_fx. destruct (published b i) eqn:Ep.
    + rewrite filter_cons_False by congruence. done.
    + rewrite filter_cons_True by done. cbn. by rewrite Hc.
  - cbn. rewrite Hc, IH2. done.
Qed.

Lemma no_start_closing b i calls :
  Forall quiet_effect (closing_fx b i calls).
Proof.
  revert i. induction calls as [|c calls IH]; intros i; [constructor|]. cbn [closing_fx].
  apply list.Forall_app. split; [|apply IH]. unfold close_fx.
  apply list.Forall_app. split; [|by apply list.Forall_singleton].
  destruct (published b i); [constructor|by apply list.Forall_singleton].
Qed.

(** The final results carry the keys of the calls, entry by entry. *)
Lemma finals_keys b k calls items :
  (forall i it c, items !! i = Some it -> calls !! i = Some c -> call_key c = item_key it ->
     result_key (final_result b (k + i) c) = item_key it) ->
  map call_key calls = map item_key items -> map result_key (finals b k calls) = map item_key items.
Proof.
  revert k items. induction calls as [|c calls IH]; intros k [|it items] Hk Hm; simplify_eq/=; [done|].
  f_equal; [rewrite <- (Nat.add_0_r k) at 1; by apply (Hk 0%nat it c)|].
  apply IH; [|done]. intros i it' c' Hi Hc Hkey. rewrite Nat.add_succ_comm.
  by apply (Hk (S i) it' c').
Qed.

(** Closing from any cut point of a batch: the recorded results stand, the
    other calls are interrupted, and nothing is published twice. *)
Lemma finish_partial_spec {full} items fx0 x0 em calls s :
  batch_inv full items fx0 x0 em s -> map call_key calls = map item_key items ->
  exists s' rs fx,
    finish_partial_batch calls s = (Done tt, s') /\ appended s s' (map turn_of rs) fx /\
    map result_key rs = map item_key items /\ trace_ok (a_fx s') /\
    exists fx1, a_fx s' = fx0 ++ fx1 /\ Forall no_request fx1 /\ ends fx1 ≡ₚ map end_of rs.
Proof.
  intros B Hcalls. set (b := a_batch s).
  assert (length calls = length items) as Hlen by (apply (f_equal length) in Hcalls; by rewrite !length_map in Hcalls).
  assert (forall i, (i < length items)%nat -> b_cp_results b !! i = Some (b_results b !! i)) as Hcp.
  { intros i Hi. unfold b. rewrite (bi_cp B), list_lookup_fmap, lookup_seq_lt by done. done. }
  destruct (finish_partial_eq 0 calls s) as (s' & E & Happ). fold b in Happ.
  set (G := fun i => c ← calls !! i; Some (end_of (final_result b i c))).
  destruct (ends_closing b 0 calls G) as [He1 He2].
  { intros j c Hj. unfold G. simpl. by rewrite Hj. }
  destruct (bi_fx B) as (fx & Hfx & Hnr & Hends). fold b in Hends.
  exists s', (finals b 0 calls), (closing_fx b 0 calls). split; [done|]. split; [done|].
  assert (forall i, i ∈ em -> (i < length items)%nat) as Hem.
  { intros i Hi. destruct (bi_em B i Hi) as [r Hr].
    destruct (bi_dom B i r Hr) as (it & Hit & _). by eapply lookup_lt_Some. }
  assert (forall i, i ∈ em -> published b i = true) as Hpub.
  { intros i Hi. unfold published. rewrite Hcp by auto. destruct (bi_em B i Hi) as [r Hr].
    fold b in Hr. rewrite Hr. apply bool_decide_eq_true. unfold b.
    by rewrite (bi_cp_emitted B), (bi_emitted B). }
  assert (forall i, i ∉ em -> published b i = false) as Hnpub.
  { intros i Hi. unfold published. destruct (b_cp_results b !! i) as [[]|]; try done.
    apply bool_decide_eq_false. unfold b. by rewrite (bi_cp_emitted B), (bi_emitted B). }
  split; [|split].
  - apply finals_keys; [|done]. intros i it c Hi Hc Hkey. simpl. unfold final_result.
    rewrite Hcp by (by eapply lookup_lt_Some). destruct (b_results b !! i) as [r|] eqn:Er; [|done].
    destruct (bi_dom B i r Er) as (it' & Hit' & Hr & _). congruence.
  - destruct Happ as [_ ->]. apply trace_ok_app; [apply (bi_started B)|apply no_start_closing].
  - exists (fx ++ closing_fx b 0 calls). destruct Happ as [_ ->]. rewrite Hfx, <- app_assoc. split; [done|].
    split; [apply list.Forall_app; split; [done|apply quiet_no_request, no_start_closing]|].
    rewrite ends_app, He1, He2, Hends.
    assert (omap (fun i => end_of <$> b_results b !! i) em = omap G em) as ->.
    { apply omap_ext_in. intros i Hi. destruct (bi_em B i Hi) as [r Hr]. fold b in Hr.
      destruct (bi_dom B i r Hr) as (it & Hit & _).
      assert (i < length items)%nat as Hlt by by eapply lookup_lt_Some.
      destruct (lookup_lt_is_Some_2 calls i) as [c Hc]; [lia|].
      unfold G. rewrite Hr, Hc. simpl. unfold final_result. by rewrite Hcp, Hr. }
    rewrite <- omap_app, <- Hlen in *. apply omap_Permutation.
    apply NoDup_Permutation; [|apply NoDup_seq|].
    + apply list.NoDup_app. split; [apply (bi_nodup B)|].
      split; [|apply list.NoDup_filter, NoDup_seq].
      intros i Hi [Hp _]%list_elem_of_filter. by rewrite Hpub in Hp by done.
    + intros i. rewrite elem_of_app, list_elem_of_filter, elem_of_seq.
      destruct (decide (i ∈ em)) as [Hi|Hi].
      * split; [intros _; pose proof (Hem i Hi); lia|by left].
      * rewrite Hnpub by done. split; [intros [?|[_ ?]]; [done|lia]|]. intros. right. split; [done|lia].
Qed.

End Close.

(** ** The contract of a batch *)

Section Contract.
Context {W : Type} `{AgentEnvLaws W}.

Lemma appended_grants (s s' : AState W) x0 g turns fx :
  a_session s = with_grants x0 g -> appended s s' turns fx ->
  exists g', a_session s' = with_grants (with_messages x0 (s_messages x0 ++ turns)) g'.
Proof. intros Hg [-> _]. exists g. by rewrite Hg. Qed.

Lemma no_start_turns rs :
  Forall quiet_effect
    (map (fun r => Sink (OnTurn (turn_of r))) rs).
Proof. apply Forall_map. by apply list.Forall_true. Qed.

Lemma ends_turns rs : ends (map (fun r => Sink (OnTurn (turn_of r))) rs) = [].
Proof. by induction rs. Qed.

(** What [run_batch] leaves behind. *)
Definition batch_post (s s' : AState W) (items : list ExecItem) : Prop :=
  exists rs fx g,
    map result_key rs = map item_key items /\
    a_session s' = with_grants (with_messages (a_session s) (s_messages (a_session s) ++ map turn_of rs)) g /\
    a_fx s' = a_fx s ++ fx /\ Forall no_request fx /\ ends fx ≡ₚ map end_of rs /\ trace_ok (a_fx s').

Lemma batch_inv_new items (s : AState W) :
  trace_ok (a_fx s) -> a_batch s = batch_new (length items) ->
  batch_inv false items (a_fx s) (a_session s) [] s.
Proof.
  intros Hst Hb. pose proof (start_inv_new items (a_fx s) (a_session s) s eq_refl eq_refl Hb) as [].
  split; try done.
  - exists (s_perm_grants (a_session s)). by rewrite with_grants_self.
  - exists []. by rewrite app_nil_r.
  - apply NoDup_nil_2.
  - intros i. rewrite Hb. set_solver.
  - by rewrite Hb.
  - intros i r Hr. destruct (si_dom0 i r Hr) as (it & ? & ? & Hc). exists it. rewrite Hc. done.
  - intros i. set_solver.
Qed.

Lemma run_batch_post dl cap roots items calls (s : AState W) :
  trace_ok (a_fx s) -> map call_key calls = map item_key items ->
  exists o s', run_batch dl cap roots items calls s = (Done o, s') /\ batch_post s s' items.
Proof.
  intros Hst Hcalls. unfold run_batch.
  set (s1 := MkState (a_world s) (a_fx s) (a_session s) (batch_new (length items))).
  assert (wp (poll dl ;; execute_batch dl cap roots items)
    (fun rs s' => map result_key rs = map item_key items /\
       (exists g, a_session s' = with_grants (a_session s) g) /\ trace_ok (a_fx s') /\
       exists fx, a_fx s' = a_fx s ++ fx /\ Forall no_request fx /\ ends fx ≡ₚ map end_of rs)
    (cut_inv items (a_fx s) (a_session s)) s1) as Hwp.
  { apply wp_bind, wp_poll.
    - by apply (wp_execute_batch dl cap roots items (a_fx s) (a_session s)).
    - exists false, []. by apply (batch_inv_new items s1). }
  unfold bind at 1, set_batch. cbn [a_world a_fx a_session a_batch]. fold s1.
  unfold bind at 1, catch. unfold wp in Hwp.
  destruct ((poll dl ;; execute_batch dl cap roots items) s1) as [[rs|c|] s2]; [| |done].
  - destruct Hwp as (Hk & (g & Hg) & Hst2 & fx & Hfx & Hnr & Hends).
    destruct (iterM_push rs s2) as (s3 & E3 & Happ). exists None, s3.
    rewrite (bind_done _ _ _ _ _ E3). split; [done|]. destruct (appended_grants _ _ _ _ _ _ Hg Happ) as [g' Hg'].
    exists rs, (fx ++ map (fun r => Sink (OnTurn (turn_of r))) rs), g'. split_and!; try done.
    + destruct Happ as [_ ->]. by rewrite Hfx, <- app_assoc.
    + apply list.Forall_app. split; [done|apply quiet_no_request, no_start_turns].
    + rewrite ends_app, ends_turns, app_nil_r. done.
    + destruct Happ as [_ ->]. apply trace_ok_app; [done|apply no_start_turns].
  - destruct Hwp as (full & em & B). unfold bind at 1, cancel_turn, bind at 1, get_world, set_world.
    set (s2' := MkState _ _ _ _). assert (batch_inv full items (a_fx s) (a_session s) em s2') as B'
      by exact (batch_inv_world _ _ _ _ _ (env_cancel (a_world s2)) B).
    destruct (finish_partial_spec items _ _ em calls s2' B' Hcalls)
      as (s3 & rs & fx & E3 & Happ & Hk & Hst3 & fx1 & Hfx1 & Hnr1 & Hends).
    exists (Some c), s3. rewrite (bind_done _ _ _ _ _ E3). split; [done|].
    destruct (bi_session B') as [g Hg]. destruct (appended_grants _ _ _ _ _ _ Hg Happ) as [g' Hg'].
    by exists rs, fx1, g'.
Qed.

(** C2: A batch of tool calls is always answered: it never panics, and whether
    it runs to the end or is cut off anywhere by a cancellation or the deadline,
    it appends exactly one result turn per call, in call order and under the
    call's id and name; the host gets exactly one terminal event per call, with
    the same result; and no tool was started without an approval before it. *)
Theorem run_batch_answers dl cap roots items calls (s : AState W)
  (Hst : trace_ok (a_fx s)) (Hcalls : map call_key calls = map item_key items) :
  exists o s' rs fx,
    run_batch dl cap roots items calls s = (Done o, s') /\
    s_messages (a_session s') = s_messages (a_session s) ++ map turn_of rs /\
    map result_key rs = map item_key items /\
    a_fx s' = a_fx s ++ fx /\ ends fx ≡ₚ map end_of rs /\ trace_ok (a_fx s').
Proof.
  destruct (run_batch_post dl cap roots items calls s Hst Hcalls)
    as (o & s' & E & rs & fx & g & H2 & H3 & H4 & _ & H5 & H6).
  exists o, s', rs, fx. rewrite H3. by split_and!.
Qed.

End Contract.
