(* ===== verification/Agent.v ===== *)
(** The agent loop (src/crates/rc-core/src/agent.rs, [AgentLoop::run]): the
    iteration budget, the assembly of the request, the recoveries, the
    execution of the batch, and every way a turn can end.

    Panics are those of a debug build: an overflow of the iteration counter and
    a request that violates the tool-answer invariant ([debug_assert!]) both
    panic here. *)

From S2P Require Import Prelude Wire Cost Turn Json Project PermRules AgentSink AgentBatch AgentWp AgentExec.

Inductive LoopOutcome :=
| LStop | LLength | LItersExceeded | LNoProgress | LIncomplete | LTimeUp | LCancelled.

Definition MAX_ITERS : Z := 100.
Definition RESEARCH_NUDGE_AFTER : Z := 3.
Definition RESEARCH_NUDGE : str := lit "[agent guidance] You have spent three consecutive tool rounds on investigation. Before another round, consolidate what is already known and list every remaining unknown. If more evidence is truly required, fetch all independent paths and queries together in one parallel response (prefer ReadMany for files); otherwise edit or answer now.".
Definition FORCE_ACTION_RECOVERY : str := lit "[harness recovery] Your previous response exhausted the completion budget without producing visible answer text or a confirmed tool call. Do not restart or continue hidden analysis. Take the next observable action now: call the required tool or provide the answer.".
Definition PARTIAL_ANSWER_RECOVERY : str := lit "[harness recovery] Continue from the visible partial response above without repeating it. Complete the task now.".
Definition FINAL_REVIEW_RECOVERY : str := lit "[benchmark completion gate] Before finalizing, perform one independent completion audit. Inspect the final diff, map every acceptance requirement to the implementation, and run the broadest relevant verification that is available after the last edit. Do not treat self-authored tests alone as sufficient evidence. If verification fails or a requirement is uncovered, fix it and verify again; otherwise provide the final answer.".
Definition MAX_LENGTH_RECOVERIES_PER_TURN : Z := 1.
Definition MAX_UNCONFIRMED_TOOL_RECOVERIES_PER_TURN : Z := 1.
Definition HARD_TOOL_RESULT_CAP : Z := 1024 * 1024.

(** The settings of [AgentLoop]; the assembler maps a log and a directory to a
    request. *)
Record AgentLoop := MkLoop {
  al_max_iters : Z;
  al_assembler : option (list Turn -> str -> list WireMessage);
  al_turn_timeout : option Z;
  al_max_tokens : option Z;
  al_pricing : Pricing;
  al_hard_tool_result_cap : Z;
  al_completion_review : bool
}.

(** [with_max_iters]: zero means no limit. *)
Definition with_max_iters (a : AgentLoop) (n : Z) : AgentLoop :=
  MkLoop (if n =? 0 then umax 32 else n) (al_assembler a) (al_turn_timeout a) (al_max_tokens a)
    (al_pricing a) (al_hard_tool_result_cap a) (al_completion_review a).

(** The local variables of the loop. *)
Record LoopVars := MkVars {
  v_iters : Z;
  v_investigation : Z;
  v_length_recoveries : Z;
  v_unconfirmed_recoveries : Z;
  v_review_used : bool;
  v_work_observed : bool
}.
Definition vars0 : LoopVars := MkVars 0 0 0 0 false false.

Inductive Step :=
| Continue (v : LoopVars)
| Return (r : ModelError + LoopOutcome).

Section Run.
Context {W : Type} `{AgentEnv W}.
Variable a : AgentLoop.

Definition has_deadline : bool := match al_turn_timeout a with Some _ => true | None => false end.

(** [session.cwd = shell.cwd]. *)
Definition sync_cwd : M W unit :=
  cwd <- live_cwd ;;
  x <- get_session ;;
  set_session (MkSession (s_id x) cwd (s_extra_dirs x) (s_model x) (s_messages x) (s_mode x)
                 (s_perm_grants x) (s_total_usage x) (s_total_cost x)).

Definition allowed_roots_of (x : Session) : list str := s_cwd x :: s_extra_dirs x.

Definition push_cancelled : M W unit := t <- now ;; push_turn (TCancelled t).

(** The request of an iteration. *)
Definition nudge (investigation : Z) : list WireMessage :=
  if RESEARCH_NUDGE_AFTER <=? investigation then [WUser (UserText RESEARCH_NUDGE)] else [].
Definition assemble (x : Session) (investigation : Z) : list WireMessage :=
  (match al_assembler a with
   | Some f => f (s_messages x) (s_cwd x)
   | None => project (s_messages x)
   end) ++ nudge investigation.

Definition assert_invariant (messages : list WireMessage) : M W unit :=
  match verify_invariant messages with Ok _ => ret tt | _ => panic end.

(** The model's streaming goes through the observer to the host. *)
Definition complete (messages : list WireMessage) : M W (list StreamItem * (ModelError + ModelResponse)) :=
  w <- get_world ;;
  let '(items, r, w') := env_complete w messages in
  set_world w' ;;
  iterM (fun it => emit (OnStream it)) items ;;
  match r with
  | inl c => fun s => (CutOff c, s)
  | inr r => ret (items, r)
  end.

(** The calls of a response: what the log records and what is executed. *)
Fixpoint split_calls (l : list FinalizedToolCall) (calls : list ToolCall) (items : list ExecItem)
  : list ToolCall * list ExecItem :=
  match l with
  | [] => (calls, items)
  | FCall c :: l' => split_calls l' (calls ++ [c]) (items ++ [ICall c])
  | FParseError id name raw error :: l' =>
      let call_id := match id with Some i => i | None => lit "parseerr_" ++ show_z (length_z calls) end in
      let tool_name := match name with
                       | Some n => if is_nil n then lit "invalid_tool_call" else n
                       | None => lit "invalid_tool_call"
                       end in
      split_calls l' (calls ++ [mk_tool_call call_id tool_name (safe_tool_arguments raw)])
        (items ++ [IParseError call_id tool_name error])
  end.

Definition unconfirmed_reason (calls : list ToolCall) (r : FinishReason) : option str :=
  if is_nil calls then None
  else match r with
       | FToolCalls | FContentFilter => None
       | FStop => Some (lit "stop")
       | FLength => Some (lit "length")
       | FOther reason => Some (lit "other (" ++ reason ++ lit ")")
       end.

Definition account (u : Usage) (context_chars : Z) : M W unit :=
  emit (OnUsage u) ;;
  x <- get_session ;;
  set_session (MkSession (s_id x) (s_cwd x) (s_extra_dirs x) (s_model x) (s_messages x) (s_mode x)
                 (s_perm_grants x) (usage_add (s_total_usage x) u)
                 (cost_add (s_total_cost x) (cost_of (al_pricing a) u))) ;;
  w <- get_world ;;
  set_world (env_observe w (prompt_tokens u) context_chars).

Definition recovery_note (text : str) : M W unit := push_turn (TSystemNote NRecovery text).

(** [FinishReason::Stop]. *)
Definition on_stop (v : LoopVars) (assistant : Turn) (calls : list ToolCall) : M W Step :=
  push_turn assistant ;;
  synthesize_interrupted calls ;;
  if al_completion_review a && v_work_observed v && negb (v_review_used v) then
    recovery_note FINAL_REVIEW_RECOVERY ;;
    ret (Continue (MkVars (v_iters v) (v_investigation v) (v_length_recoveries v)
                     (v_unconfirmed_recoveries v) true (v_work_observed v)))
  else ret (Return (inr LStop)).

(** [FinishReason::Length]: one continuation of a visible partial answer, or
    one forced action. *)
Definition on_length (v : LoopVars) (assistant : Turn) (text : str) (calls : list ToolCall) : M W Step :=
  if is_nil calls then
    let no_progress := is_nil (trim text) in
    push_turn assistant ;;
    if MAX_LENGTH_RECOVERIES_PER_TURN <=? v_length_recoveries v then
      ret (Return (inr (if no_progress then LNoProgress else LLength)))
    else
      recovery_note (if no_progress then FORCE_ACTION_RECOVERY else PARTIAL_ANSWER_RECOVERY) ;;
      ret (Continue (MkVars (v_iters v) (v_investigation v) (v_length_recoveries v + 1)
                       (v_unconfirmed_recoveries v) (v_review_used v) (v_work_observed v)))
  else panic.

(** The unconfirmed calls of a response are answered with a retryable error. *)
Definition on_unconfirmed (v : LoopVars) (assistant : Turn) (calls : list ToolCall) (reason : str) : M W Step :=
  push_turn assistant ;;
  synthesize_retryable_unconfirmed calls reason ;;
  if MAX_UNCONFIRMED_TOOL_RECOVERIES_PER_TURN <=? v_unconfirmed_recoveries v then ret (Return (inr LIncomplete))
  else ret (Continue (MkVars (v_iters v) (v_investigation v) (v_length_recoveries v)
                        (v_unconfirmed_recoveries v + 1) (v_review_used v) (v_work_observed v))).

(** [FinishReason::ToolCalls]: execute the batch. *)
Definition on_tool_calls (v : LoopVars) (roots : list str) (assistant : Turn) (calls : list ToolCall)
    (items : list ExecItem) : M W Step :=
  push_turn assistant ;;
  cut <- run_batch has_deadline (al_hard_tool_result_cap a) roots items calls ;;
  match cut with
  | Some CutCancelled => push_cancelled ;; ret (Return (inr LCancelled))
  | Some CutTimeUp => ret (Return (inr LTimeUp))
  | None =>
      ret (Continue (MkVars (v_iters v)
             (if is_investigation_batch items then sat_add 32 (v_investigation v) 1 else 0)
             (v_length_recoveries v) (v_unconfirmed_recoveries v) (v_review_used v)
             (v_work_observed v || negb (is_nil items))))
  end.

(** What an iteration does with a response. *)
Definition on_response (v : LoopVars) (roots : list str) (context_chars : Z)
    (mk : str -> str -> Z -> bool -> ModelTrace) (r : ModelResponse) : M W Step :=
  let implicit_length := looks_like_implicit_length r (al_max_tokens a) in
  let effective := if implicit_length then FLength else mr_finish_reason r in
  let trace := mk (finish_reason_name (mr_finish_reason r)) (finish_reason_name effective)
                 (mr_retries r) implicit_length in
  let cost := option_map (cost_of (al_pricing a)) (mr_usage r) in
  (match mr_usage r with Some u => account u context_chars | None => ret tt end) ;;
  let '(calls, items) := split_calls (mr_tool_calls r) [] [] in
  let assistant := TAssistant (mr_text r) (mr_reasoning r) calls (mr_usage r) cost (Some trace) in
  match unconfirmed_reason calls effective with
  | Some reason => on_unconfirmed v assistant calls reason
  | None =>
      match effective with
      | FToolCalls => on_tool_calls v roots assistant calls items
      | FStop => on_stop v assistant calls
      | FLength => on_length v assistant (mr_text r) calls
      | FContentFilter | FOther _ =>
          push_turn assistant ;; synthesize_interrupted calls ;; ret (Return (inr LIncomplete))
      end
  end.

(** A failed request: a mark in the log, then the error. *)
Definition on_error (items : list StreamItem) (mk : str -> str -> Z -> bool -> ModelTrace) (e : ModelError) : M W Step :=
  let trace := mk (lit "error") (lit "error") (me_retries e) false in
  let partial := partial_response (observe_all items) in
  w <- get_world ;;
  if env_cancelled w then push_cancelled ;; ret (Return (inr LCancelled))
  else
    t <- now ;;
    push_turn (TError (model_error_text e) (Some (is_retryable e))
                 (if 0 <? me_retries e then Some (me_retries e) else None) (Some trace) partial t) ;;
    ret (Return (inl e)).

(** The turn budget at the top of an iteration. *)
Definition over_budget (turn_start : Z) : M W bool :=
  match al_turn_timeout a with
  | Some d => t <- now ;; ret (d <=? Z.max 0 (t - turn_start))
  | None => ret false
  end.

(** One request: assemble, check, send, and handle what comes back. *)
Definition request_step (v : LoopVars) (roots : list str) : M W Step :=
  sync_cwd ;;
  x <- get_session ;;
  let messages := assemble x (v_investigation v) in
  assert_invariant messages ;;
  let context_chars := fold_left Z.add (map message_len messages) 0 in
  w <- get_world ;;
  let context_tokens := env_estimate w context_chars in
  emit (OnContext context_chars context_tokens) ;;
  started <- now ;;
  tell (Request messages) ;;
  r <- catch (poll has_deadline ;; complete messages) ;;
  match r with
  | inl CutCancelled => push_cancelled ;; ret (Return (inr LCancelled))
  | inl CutTimeUp => cancel_turn ;; ret (Return (inr LTimeUp))
  | inr (items, result) =>
      completed <- now ;;
      let mk := finish (observe_all items) started completed (Z.max 0 (completed - started))
                  context_chars context_tokens in
      match result with
      | inl e => on_error items mk e
      | inr resp => on_response v roots context_chars mk resp
      end
  end.

Definition iteration (v0 : LoopVars) (turn_start : Z) (roots : list str) : M W Step :=
  let iters := v_iters v0 + 1 in
  let v := MkVars iters (v_investigation v0) (v_length_recoveries v0) (v_unconfirmed_recoveries v0)
             (v_review_used v0) (v_work_observed v0) in
  if umax 32 <? iters then panic
  else if al_max_iters a <? iters then ret (Return (inr LItersExceeded))
  else
    over <- over_budget turn_start ;;
    if over then ret (Return (inr LTimeUp))
    else emit (OnIter iters (al_max_iters a)) ;; request_step v roots.

(** The loop; [None] is out of fuel. *)
Fixpoint run_loop (fuel : nat) (v : LoopVars) (turn_start : Z) (roots : list str)
  : M W (option (ModelError + LoopOutcome)) :=
  match fuel with
  | O => ret None
  | S f =>
      st <- iteration v turn_start roots ;;
      match st with
      | Continue v' => run_loop f v' turn_start roots
      | Return r => ret (Some r)
      end
  end.

(** [AgentLoop::run]. *)
Definition run (fuel : nat) (user_input : str) : M W (option (ModelError + LoopOutcome)) :=
  t <- now ;;
  push_turn (TUser user_input t) ;;
  turn_start <- now ;;
  sync_cwd ;;
  w <- get_world ;;
  set_world (env_advance_turn w) ;;
  x <- get_session ;;
  run_loop fuel vars0 turn_start (allowed_roots_of x).

(** One iteration more than the limit, to return [ItersExceeded]. *)
Definition run_fuel : nat := Z.to_nat (al_max_iters a + 1).

End Run.
