(* ===== verification/AgentRun.v ===== *)
(** What a run of the agent loop guarantees: it ends within its budget, it never
    panics, every exit leaves a log in which all tool calls are answered, every
    request satisfies the tool-answer invariant, no tool starts unapproved, and
    the manufactured recoveries are bounded. *)

From S2P Require Import Prelude Wire Cost Turn Json Project PermRules AgentSink AgentBatch AgentWp AgentExec Agent.

Definition never {W} : AState W -> Prop := fun _ => False.

Definition is_request (e : Effect) : bool := match e with Request _ => true | _ => false end.
Definition requests (fx : list Effect) : nat := length (List.filter is_request fx).
Definition is_recovery (t : Turn) : bool := match t with TSystemNote NRecovery _ => true | _ => false end.
Definition recoveries (l : list Turn) : nat := length (List.filter is_recovery l).

Lemma requests_app a b : requests (a ++ b) = (requests a + requests b)%nat.
Proof. unfold requests. by rewrite List.filter_app, length_app. Qed.
Lemma recoveries_app a b : recoveries (a ++ b) = (recoveries a + recoveries b)%nat.
Proof. unfold recoveries. by rewrite List.filter_app, length_app. Qed.
Lemma requests_none fx : Forall no_request fx -> requests fx = 0%nat.
Proof. unfold requests. induction 1 as [|e fx He Hfx IH]; simpl; [done|]. by destruct e. Qed.
Lemma requests_quiet fx : Forall quiet_effect fx -> requests fx = 0%nat.
Proof. intros Hq. by apply requests_none, quiet_no_request. Qed.

Section Run.
Context {W : Type} `{AgentEnvLaws W}.
Context (a : AgentLoop).
(** A context assembler turns an answered log into an answered request. *)
Hypothesis assembler_answers : forall f, al_assembler a = Some f ->
  forall l cwd, answered l -> wire_answered (f l cwd).
Implicit Types s : AState W.

(** The log and the trace are sound, and they hold [q] requests and [n] recovery notes. *)
Record good (q n : nat) s : Prop := {
  g_log : answered (s_messages (a_session s));
  g_trace : trace_ok (a_fx s);
  g_requests : requests (a_fx s) = q;
  g_recoveries : recoveries (s_messages (a_session s)) = n
}.

Lemma good_world q n s w : good q n s -> good q n (with_world s w).
Proof. by intros []. Qed.

Lemma good_fx q n s fx : Forall quiet_effect fx -> good q n s -> good q n (with_fx s fx).
Proof.
  intros Hq [H1' H2 H3 H4]. split; simpl; [done| |by rewrite requests_app, (requests_quiet fx), Nat.add_0_r|done].
  by apply trace_ok_app.
Qed.

Lemma good_appended q n s s' turns fx :
  appended s s' turns fx -> Forall quiet_effect fx -> answered turns -> good q n s ->
  good q (n + recoveries turns) s'.
Proof.
  intros [Hs Hfx] Hq Ht [H1' H2 H3 H4]. split; rewrite ?Hs, ?Hfx; simpl.
  - by apply answered_app.
  - by apply trace_ok_app.
  - by rewrite requests_app, (requests_quiet fx), Nat.add_0_r.
  - by rewrite recoveries_app, H4.
Qed.

(** A change of the session that keeps the messages. *)
Lemma good_session q n s x :
  s_messages x = s_messages (a_session s) -> good q n s ->
  good q n (MkState (a_world s) (a_fx s) x (a_batch s)).
Proof. intros Hx []. split; simpl; rewrite ?Hx; done. Qed.

Lemma good_ext q n s s' fx :
  s_messages (a_session s') = s_messages (a_session s) -> a_fx s' = a_fx s ++ fx ->
  Forall quiet_effect fx -> good q n s -> good q n s'.
Proof.
  intros Hs Hfx Hq [H1' H2 H3 H4]. split; rewrite ?Hs, ?Hfx; try done.
  - by apply trace_ok_app.
  - by rewrite requests_app, (requests_quiet fx), Nat.add_0_r.
Qed.

Lemma wp_push t q n s (Q : unit -> AState W -> Prop) I :
  answered [t] -> good q n s -> (forall s', good q (n + recoveries [t]) s' -> Q tt s') -> wp (push_turn t) Q I s.
Proof.
  intros Ht Hg HQ. destruct (push_turn_eq t s) as (s' & E & Happ & _). unfold wp. rewrite E. apply HQ.
  eapply good_appended; [exact Happ|by repeat constructor|done|done].
Qed.

Lemma answered_one t : calls_of t = [] -> is_result t = false -> answered [t].
Proof. intros. apply answered_plain; auto with sc. Qed.

Lemma wp_emit e q n s (Q : unit -> AState W -> Prop) I :
  good q n s -> (forall s', good q n s' -> Q tt s') -> wp (emit e) Q I s.
Proof. intros Hg HQ. apply wp_tell, HQ. apply good_fx; [by repeat constructor|done]. Qed.

Lemma wp_good_now q n s (Q : Z -> AState W -> Prop) I :
  good q n s -> (forall t s', good q n s' -> Q t s') -> wp now Q I s.
Proof. intros Hg HQ. apply wp_now. intros t w. by apply HQ, good_world. Qed.

Lemma wp_push_cancelled q n s (Q : unit -> AState W -> Prop) I :
  good q n s -> (forall s', good q n s' -> Q tt s') -> wp push_cancelled Q I s.
Proof.
  intros Hg HQ. apply wp_bind, (wp_good_now q n); [done|]. intros t s1 H1'.
  apply (wp_push _ q n); [by apply answered_one|done|]. intros s2. rewrite Nat.add_0_r. apply HQ.
Qed.

Lemma wp_sync_cwd q n s (Q : unit -> AState W -> Prop) I :
  good q n s -> (forall s', good q n s' -> Q tt s') -> wp sync_cwd Q I s.
Proof. intros Hg HQ. unfold wp, sync_cwd. simpl. apply HQ. by apply good_session. Qed.

Lemma wp_account u chars q n s (Q : unit -> AState W -> Prop) I :
  good q n s -> (forall s', good q n s' -> Q tt s') -> wp (account a u chars) Q I s.
Proof.
  intros Hg HQ. unfold wp, account. simpl. apply HQ.
  apply (good_ext q n s _ [Sink (OnUsage u)]); [reflexivity|reflexivity|by repeat constructor|exact Hg].
Qed.

(** ** Answering the calls of an assistant turn *)

Lemma answer_all (r : ToolResultBody) calls s :
  exists s' fx, iterM (fun c => answer_with c r) calls s = (Done tt, s') /\
    appended s s' (map (fun c => TToolResult (tc_id c) (tc_name c) r 0) calls) fx /\ Forall quiet_effect fx.
Proof.
  revert s. induction calls as [|c calls IH]; intros s; cbn [iterM map].
  - exists s, []. split; [done|]. split; [apply appended_nil|constructor].
  - set (t := TToolResult (tc_id c) (tc_name c) r 0).
    assert (exists s1, answer_with c r s = (Done tt, s1) /\
      appended s s1 [t] ([Sink (OnToolEnd (tc_id c) (tc_name c) r)] ++ [Sink (OnTurn t)])) as (s1 & E1 & A1).
    { eexists. split; [reflexivity|]. split; [done|]. simpl. by rewrite <- app_assoc. }
    destruct (IH s1) as (s2 & fx & E2 & A2 & Hq). exists s2, (([Sink (OnToolEnd (tc_id c) (tc_name c) r)] ++ [Sink (OnTurn t)]) ++ fx). split.
    + etransitivity; [exact (bind_done _ _ _ _ _ E1)|exact E2].
    + split; [by apply (appended_trans _ _ _ [t] _ _ _ A1)|].
      by repeat constructor.
Qed.

Lemma answered_calls text rs calls u c tr (f : ToolCall -> Turn) :
  (forall x, is_result (f x) = true /\ result_id (f x) = tc_id x) ->
  answered (TAssistant text rs calls u c tr :: map f calls).
Proof.
  intros Hf. destruct (decide (calls = [])) as [->|Hne]; [apply answered_one; done|].
  rewrite <- (app_nil_r (map f calls)). apply answered_batch; simpl.
  - done.
  - apply Forall_map, list.Forall_true. intros x. apply Hf.
  - f_equal. rewrite map_map. apply map_ext. intros x. apply Hf.
  - constructor.
Qed.

Lemma recoveries_calls {A} (calls : list A) (f : A -> Turn) :
  (forall x, is_result (f x) = true) -> recoveries (map f calls) = 0%nat.
Proof.
  intros Hf. unfold recoveries. induction calls as [|c calls IH]; simpl; [done|].
  pose proof (Hf c). by destruct (f c).
Qed.

(** Push an assistant turn, answer each of its calls with [r], go on. *)
Lemma wp_answer {B} text rs calls u c tr (r : ToolResultBody) (k : M W B) q n s (Q : B -> AState W -> Prop) I :
  good q n s -> (forall s', good q n s' -> wp k Q I s') ->
  wp (push_turn (TAssistant text rs calls u c tr) ;; iterM (fun x => answer_with x r) calls ;; k) Q I s.
Proof.
  intros Hg Hk. set (t := TAssistant text rs calls u c tr).
  destruct (push_turn_eq t s) as (s1 & E1 & A1 & _). destruct (answer_all r calls s1) as (s2 & fx & E2 & A2 & Hq).
  unfold wp. rewrite (bind_done _ _ _ _ _ E1), (bind_done _ _ _ _ _ E2). apply Hk.
  pose proof (appended_trans _ _ _ _ _ _ _ A1 A2) as A.
  eapply good_appended in A; [|apply list.Forall_app; split; [by repeat constructor|done]|by apply answered_calls|exact Hg].
  rewrite recoveries_app, (recoveries_calls calls) in A by done. simpl in A.
  by rewrite !Nat.add_0_r in A.
Qed.

(** ** The branches of an iteration *)

Definition budgets (v : LoopVars) : Prop :=
  0 <= v_length_recoveries v <= 1 /\ 0 <= v_unconfirmed_recoveries v <= 1.

(** The notes that the counters stand for. *)
Definition noted (v : LoopVars) : nat := (Z.to_nat (v_length_recoveries v) + Nat.b2n (v_review_used v))%nat.

(** After a step: how many recovery notes there are, and the budgets. *)
Definition step_ok (q n0 : nat) (v : LoopVars) (st : Step) s : Prop :=
  match st with
  | Continue v' => v_iters v' = v_iters v /\ budgets v' /\ good q (n0 + noted v') s
  | Return _ => exists v', budgets v' /\ good q (n0 + noted v') s
  end.

Lemma step_return q n0 v r s : budgets v -> good q (n0 + noted v) s -> step_ok q n0 v (Return r) s.
Proof. intros Hb Hg. by exists v. Qed.

Lemma wp_recovery text q n s (Q : unit -> AState W -> Prop) I :
  good q n s -> (forall s', good q (S n) s' -> Q tt s') -> wp (recovery_note text) Q I s.
Proof.
  intros Hg HQ. apply (wp_push _ q n); [by apply answered_one|done|]. intros s'.
  unfold recoveries. simpl. rewrite Nat.add_1_r. apply HQ.
Qed.

Lemma wp_on_stop v text rs calls u c tr q n0 s :
  budgets v -> good q (n0 + noted v) s ->
  wp (on_stop a v (TAssistant text rs calls u c tr) calls) (step_ok q n0 v) never s.
Proof.
  intros Hb Hg. unfold on_stop. eapply wp_answer; [exact Hg|]. intros s1 G1.
  destruct (al_completion_review a && v_work_observed v && negb (v_review_used v)) eqn:E.
  - apply wp_bind, (wp_recovery _ q (n0 + noted v)); [done|]. intros s2 G2. apply wp_ret.
    split; [done|]. split; [done|]. apply andb_prop in E as [_ E]. unfold noted in *. simpl.
    destruct (v_review_used v); [done|]. simpl in *. by replace (_ + (_ + 1))%nat
      with (S (n0 + (Z.to_nat (v_length_recoveries v) + 0))) by lia.
  - by apply wp_ret, step_return.
Qed.

Lemma wp_on_length v text0 text rs u c tr q n0 s :
  budgets v -> good q (n0 + noted v) s ->
  wp (on_length v (TAssistant text rs [] u c tr) text0 []) (step_ok q n0 v) never s.
Proof.
  intros Hb Hg. unfold on_length. cbn [is_nil].
  apply wp_bind, (wp_push _ q (n0 + noted v)); [by apply answered_one|done|]. intros s1 G1.
  rewrite Nat.add_0_r in G1.
  destruct (Z.leb_spec MAX_LENGTH_RECOVERIES_PER_TURN (v_length_recoveries v)) as [Hle|Hlt].
  - by apply wp_ret, step_return.
  - apply wp_bind, (wp_recovery _ q (n0 + noted v)); [done|]. intros s2 G2. apply wp_ret.
    unfold MAX_LENGTH_RECOVERIES_PER_TURN in Hlt. destruct Hb as [Hb1 Hb2].
    split; [done|]. split; [split; simpl; lia|]. unfold noted in *. simpl.
    by replace (_ + (_ + _))%nat
      with (S (n0 + (Z.to_nat (v_length_recoveries v) + Nat.b2n (v_review_used v)))) by lia.
Qed.

Lemma wp_on_unconfirmed v text rs calls u c tr reason q n0 s :
  budgets v -> good q (n0 + noted v) s ->
  wp (on_unconfirmed v (TAssistant text rs calls u c tr) calls reason) (step_ok q n0 v) never s.
Proof.
  intros Hb Hg. unfold on_unconfirmed, synthesize_retryable_unconfirmed.
  eapply wp_answer; [exact Hg|]. intros s1 G1.
  destruct (Z.leb_spec MAX_UNCONFIRMED_TOOL_RECOVERIES_PER_TURN (v_unconfirmed_recoveries v)) as [Hle|Hlt].
  - by apply wp_ret, step_return.
  - apply wp_ret. unfold MAX_UNCONFIRMED_TOOL_RECOVERIES_PER_TURN in Hlt. destruct Hb as [Hb1 Hb2].
    split; [done|]. split; [split; simpl; lia|done].
Qed.

Lemma wp_on_tool_calls v roots text rs calls items u c tr q n0 s :
  map call_key calls = map item_key items -> budgets v -> good q (n0 + noted v) s ->
  wp (on_tool_calls a v roots (TAssistant text rs calls u c tr) calls items) (step_ok q n0 v) never s.
Proof.
  intros Hk Hb Hg. unfold on_tool_calls. set (t := TAssistant text rs calls u c tr).
  destruct (push_turn_eq t s) as (s1 & E1 & [A1 F1] & _). apply wp_bind. unfold wp at 1. rewrite E1.
  assert (trace_ok (a_fx s1)) as Ht1.
  { rewrite F1. apply trace_ok_app; [apply Hg|by repeat constructor]. }
  destruct (run_batch_post (has_deadline a) (al_hard_tool_result_cap a) roots items calls s1 Ht1 Hk)
    as (o & s2 & E2 & results & fx & g & K & S2 & F2 & Hnr & _ & Ht2).
  apply wp_bind. unfold wp at 1. rewrite E2.
  assert (good q (n0 + noted v) s2) as G2.
  { destruct Hg as [L T R N]. split; [| done| |].
    - rewrite S2, A1. simpl. rewrite <- app_assoc.
      apply (answered_app _ ([t] ++ map turn_of results)); [done|].
      assert (map result_id (map turn_of results) = map tc_id calls) as Hids.
      { rewrite map_map. transitivity (map fst (map result_key results)); [by rewrite map_map|].
        rewrite K, <- Hk, map_map. done. }
      destruct (decide (calls = [])) as [->|Hne].
      + destruct results; [|done]. by apply answered_one.
      + rewrite <- (app_nil_r (map turn_of results)). apply (answered_batch t (map turn_of results) []); [done| | |constructor].
        { by apply Forall_map, list.Forall_true. }
        change (calls_of t) with calls. by rewrite Hids.
    - by rewrite F2, F1, !requests_app, R, (requests_none fx), !Nat.add_0_r.
    - rewrite S2, A1. simpl. rewrite !recoveries_app, N.
      rewrite (recoveries_calls results) by done. unfold recoveries. simpl. lia. }
  destruct o as [[]|].
  - apply wp_bind, (wp_push_cancelled q (n0 + noted v)); [done|]. intros s3 G3. by apply wp_ret, step_return.
  - by apply wp_ret, step_return.
  - apply wp_ret. by split.
Qed.

Lemma split_calls_keys l calls items calls' items' :
  split_calls l calls items = (calls', items') ->
  map call_key calls = map item_key items -> map call_key calls' = map item_key items'.
Proof.
  revert calls items. induction l as [|[c|id name raw err] l IH]; intros calls items; cbn [split_calls].
  - by intros [= <- <-].
  - intros E Hk. apply (IH _ _ E). rewrite !map_app, Hk. done.
  - intros E Hk. apply (IH _ _ E). rewrite !map_app, Hk. done.
Qed.

Lemma wp_on_response v roots chars mk r q n0 s :
  budgets v -> good q (n0 + noted v) s ->
  wp (on_response a v roots chars mk r) (step_ok q n0 v) never s.
Proof.
  intros Hb Hg. unfold on_response. set (effective := if looks_like_implicit_length _ _ then _ else _).
  apply wp_bind.
  assert (forall (Q : unit -> AState W -> Prop), (forall s', good q (n0 + noted v) s' -> Q tt s') ->
    wp (match mr_usage r with Some u => account a u chars | None => ret tt end) Q never s) as Hacc.
  { intros Q HQ. destruct (mr_usage r); [by eapply wp_account|by apply wp_ret, HQ]. }
  apply Hacc. clear Hacc. intros s1 G1.
  destruct (split_calls (mr_tool_calls r) [] []) as [calls items] eqn:Es.
  pose proof (split_calls_keys _ _ _ _ _ Es eq_refl) as Hk.
  destruct (unconfirmed_reason calls effective) as [reason|] eqn:Eu; [by apply wp_on_unconfirmed|].
  destruct effective eqn:Ee.
  - by apply wp_on_stop.
  - assert (calls = []) as -> by (by destruct calls). by apply wp_on_length.
  - by apply wp_on_tool_calls.
  - eapply wp_answer; [exact G1|]. intros s2 G2. by apply wp_ret, step_return.
  - eapply wp_answer; [exact G1|]. intros s2 G2. by apply wp_ret, step_return.
Qed.

Lemma wp_on_error v items mk e q n0 s :
  budgets v -> good q (n0 + noted v) s -> wp (on_error items mk e) (step_ok q n0 v) never s.
Proof.
  intros Hb Hg. unfold on_error. apply wp_bind. unfold wp at 1, get_world.
  destruct (env_cancelled (a_world s)).
  - apply wp_bind, (wp_push_cancelled q (n0 + noted v)); [done|]. intros s1 G1. by apply wp_ret, step_return.
  - apply wp_bind, (wp_good_now q (n0 + noted v)); [done|]. intros t s1 G1.
    apply wp_bind, (wp_push _ q (n0 + noted v)); [by apply answered_one|done|]. intros s2 G2.
    rewrite Nat.add_0_r in G2. by apply wp_ret, step_return.
Qed.

(** The request that an iteration builds from an answered log verifies. *)
Lemma assemble_verifies x k : answered (s_messages x) -> verify_invariant (assemble a x k) = Ok tt.
Proof.
  intros Hl. apply wire_answered_verify. unfold assemble. apply wire_answered_app.
  - destruct (al_assembler a) as [f|] eqn:E; [by apply assembler_answers|]. by apply project_wire.
  - unfold nudge. destruct (_ <=? _); [|constructor]. by apply wa_plain; [|constructor].
Qed.

Lemma wp_complete_model ms q n s (Q : list StreamItem * (ModelError + ModelResponse) -> AState W -> Prop)
    (I : AState W -> Prop) :
  good q n s -> (forall r s', good q n s' -> Q r s') -> (forall s', good q n s' -> I s') ->
  wp (complete ms) Q I s.
Proof.
  intros Hg HQ HI. unfold complete. apply wp_bind. unfold wp at 1, get_world.
  destruct (env_complete (a_world s) ms) as [[items r] w]. apply wp_bind. unfold wp at 1, set_world.
  apply wp_bind. unfold wp at 1. rewrite <- (iterM_map OnStream emit), iterM_emit. set (s1 := with_fx _ _).
  assert (good q n s1) as G1.
  { apply good_fx; [|by apply (good_world q n s w)]. rewrite map_map. by apply Forall_map, list.Forall_true. }
  destruct r as [c|r]; [by apply HI|by apply HQ].
Qed.

Lemma wp_catch {A} (m : M W A) (Q : Cut + A -> AState W -> Prop) s I :
  wp m (fun x => Q (inr x)) (fun s' => forall c, Q (inl c) s') s -> wp (catch m) Q I s.
Proof. unfold wp, catch. by destruct (m s) as [[] ?]. Qed.

Lemma wp_request_step v roots q n0 s :
  budgets v -> good q (n0 + noted v) s ->
  wp (request_step a v roots) (fun st s' => exists q', (q' <= S q)%nat /\ step_ok q' n0 v st s') never s.
Proof.
  intros Hb Hg. unfold request_step. set (n := (n0 + noted v)%nat) in *.
  apply wp_bind, (wp_sync_cwd q n); [done|]. intros s1 G1.
  apply wp_bind. unfold wp at 1, get_session. set (ms := assemble a (a_session s1) (v_investigation v)).
  assert (verify_invariant ms = Ok tt) as Hms by apply assemble_verifies, G1.
  apply wp_bind. unfold assert_invariant. rewrite Hms. apply wp_ret.
  apply wp_bind. unfold wp at 1, get_world. apply wp_bind, (wp_emit _ q n); [done|]. intros s2 G2.
  apply wp_bind, (wp_good_now q n); [done|]. intros started s3 G3.
  apply wp_bind, wp_tell. set (s4 := with_fx s3 [Request ms]).
  assert (good (S q) n s4) as G4.
  { destruct G3 as [L T R N]. split; [done| | |done].
    - apply trace_ok_snoc; [done|done|]. by intros ms' [= <-].
    - simpl. rewrite requests_app, R. unfold requests. simpl. lia. }
  clearbody s4. apply wp_bind, wp_catch, wp_bind.
  assert (forall s', good (S q) n s' -> forall c,
    wp (match c with
        | CutCancelled => push_cancelled ;; ret (Return (inr LCancelled))
        | CutTimeUp => cancel_turn ;; ret (Return (inr LTimeUp))
        end) (fun st s'' => exists q', (q' <= S q)%nat /\ step_ok q' n0 v st s'') never s') as Hcut.
  { intros s' G' [].
    - apply wp_bind, (wp_push_cancelled (S q) n); [done|]. intros s5 G5. apply wp_ret.
      exists (S q). split; [done|]. by apply step_return.
    - apply wp_bind. unfold wp at 1, cancel_turn, bind, get_world, set_world. apply wp_ret.
      exists (S q). split; [done|]. apply step_return; [done|]. by apply (good_world (S q) n s'). }
  apply wp_poll; [|exact (Hcut s4 G4)].
  eapply wp_complete_model; [exact G4| |exact Hcut]. intros [items result] s5 G5.
  apply wp_bind, (wp_good_now (S q) n); [done|]. intros completed s6 G6.
  destruct result as [e|resp].
  - eapply wp_mono; [by apply (wp_on_error v _ _ _ (S q) n0)| |done]. eauto.
  - eapply wp_mono; [by apply (wp_on_response v _ _ _ _ (S q) n0)| |done]. eauto.
Qed.

Lemma wp_iteration v t0 roots q n0 s :
  budgets v -> 0 <= v_iters v < umax 32 -> good q (n0 + noted v) s ->
  wp (iteration a v t0 roots) (fun st s' => exists q',
    (q' <= (if (al_max_iters a <? v_iters v + 1)%Z then q else S q))%nat /\
    step_ok q' n0 (MkVars (v_iters v + 1) (v_investigation v) (v_length_recoveries v)
      (v_unconfirmed_recoveries v) (v_review_used v) (v_work_observed v)) st s' /\
    (al_max_iters a < v_iters v + 1 -> exists r, st = Return r)) never s.
Proof.
  intros Hb Hi Hg. unfold iteration. destruct (Z.ltb_spec (umax 32) (v_iters v + 1)); [lia|].
  set (v1 := MkVars _ _ _ _ _ _).
  destruct (Z.ltb_spec (al_max_iters a) (v_iters v + 1)) as [Hlt|Hge].
  { apply wp_ret. exists q. split; [done|]. split; [by apply step_return|eauto]. }
  assert (forall (Q : bool -> AState W -> Prop), (forall b s', good q (n0 + noted v) s' -> Q b s') ->
    wp (over_budget a t0) Q never s) as Hover.
  { intros Q HQ. unfold over_budget. destruct (al_turn_timeout a); [|by apply wp_ret, HQ].
    apply wp_bind, (wp_good_now q (n0 + noted v)); [done|]. intros t s1 G1. by apply wp_ret, HQ. }
  apply wp_bind, Hover. intros [] s1 G1.
  - apply wp_ret. exists q. split; [lia|]. split; [by apply step_return|eauto].
  - apply wp_bind, (wp_emit _ q (n0 + noted v)); [done|]. intros s2 G2.
    eapply wp_mono; [by apply (wp_request_step v1 roots q n0)| |done].
    simpl. intros st s' (q' & Hq & Hs). exists q'. split; [done|]. split; [done|lia].
Qed.

Lemma wp_run_loop f v t0 roots q n0 s :
  budgets v -> 0 <= v_iters v <= al_max_iters a -> al_max_iters a < umax 32 ->
  al_max_iters a < v_iters v + Z.of_nat f -> good q (n0 + noted v) s ->
  wp (run_loop a f v t0 roots)
    (fun o s' => exists r q' v', o = Some r /\ budgets v' /\ good q' (n0 + noted v') s' /\
                 Z.of_nat q' <= Z.of_nat q + (al_max_iters a - v_iters v)) never s.
Proof.
  revert v q s. induction f as [|f IH]; intros v q s Hb Hi Hmax Hf Hg; [lia|]. cbn [run_loop].
  apply wp_bind. eapply wp_mono; [by apply (wp_iteration v t0 roots q n0); [|lia|]| |done].
  intros st s' (q' & Hq & Hstep & Hend). destruct st as [v'|r]; cbn [step_ok] in Hstep.
  - destruct Hstep as (Hit & Hb' & G'). simpl in Hit.
    destruct (Z.ltb_spec (al_max_iters a) (v_iters v + 1)) as [Hlt|Hge].
    { destruct Hend as [r Hr]; done. }
    eapply wp_mono; [apply (IH v' q'); [done|lia|done|lia|done]| |done].
    intros o s2 (r & q2 & v2 & -> & Hb2 & G2 & Hle). exists r, q2, v2. split_and!; try done. lia.
  - apply wp_ret. destruct Hstep as (v' & Hb' & G'). exists r, q', v'. split_and!; try done.
    destruct (Z.ltb_spec (al_max_iters a) (v_iters v + 1)); lia.
Qed.

Lemma run_post input s :
  0 <= al_max_iters a < umax 32 ->
  answered (s_messages (a_session s)) -> trace_ok (a_fx s) ->
  exists r s' q n,
    run a (run_fuel a) input s = (Done (Some r), s') /\ good q n s' /\
    Z.of_nat q <= Z.of_nat (requests (a_fx s)) + al_max_iters a /\
    (n <= recoveries (s_messages (a_session s)) + 2)%nat.
Proof.
  intros Hmax Hlog Htr. set (q0 := requests (a_fx s)). set (n0 := recoveries (s_messages (a_session s))).
  assert (good q0 n0 s) as G0 by done.
  assert (wp (run a (run_fuel a) input)
    (fun o s' => exists r q' v', o = Some r /\ budgets v' /\ good q' (n0 + noted v') s' /\
                 Z.of_nat q' <= Z.of_nat q0 + al_max_iters a) never s) as Hwp.
  { unfold run. apply wp_bind, (wp_good_now q0 n0); [done|]. intros t s1 G1.
    apply wp_bind, (wp_push _ q0 n0); [by apply answered_one|done|]. intros s2 G2. rewrite Nat.add_0_r in G2.
    apply wp_bind, (wp_good_now q0 n0); [done|]. intros t' s3 G3.
    apply wp_bind, (wp_sync_cwd q0 n0); [done|]. intros s4 G4.
    apply wp_bind. unfold wp at 1, get_world. apply wp_bind. unfold wp at 1, set_world.
    apply wp_bind. unfold wp at 1, get_session. set (s5 := MkState _ _ _ _).
    assert (good q0 n0 s5) as G5 by exact (good_world q0 n0 s4 _ G4).
    eapply wp_mono; [apply (wp_run_loop (run_fuel a) vars0 t' _ q0 n0)| |done].
    - by split.
    - simpl. lia.
    - lia.
    - unfold run_fuel. simpl. lia.
    - by rewrite Nat.add_0_r.
    - simpl. intros o s' (r & q' & v' & ? & ? & ? & ?). exists r, q', v'. split_and!; try done. lia. }
  unfold wp in Hwp. destruct (run a (run_fuel a) input s) as [[o|c|] s']; [|done|done].
  destruct Hwp as (r & q' & v' & -> & Hb & G & Hq). exists r, s', q', (n0 + noted v')%nat.
  split_and!; try done. destruct Hb as [Hb _]. unfold noted.
  destruct (v_review_used v'); simpl; lia.
Qed.

(** C1: A run of the loop ends: with an iteration limit below 2^32 - 1 it
    returns an outcome or an error within that many iterations, it never
    panics (no counter overflow, no violated assertion, no missing batch
    result), and whichever of its exits it takes (stop, length, limits, time,
    cancellation in the middle of a batch, request failure) the log it leaves
    answers every tool call of every assistant turn. *)
Theorem run_ends_answered input s
  (Hmax : 0 <= al_max_iters a < umax 32) (Hlog : answered (s_messages (a_session s)))
  (Htr : trace_ok (a_fx s)) :
  exists r s', run a (run_fuel a) input s = (Done (Some r), s') /\ answered (s_messages (a_session s')).
Proof.
  destruct (run_post input s Hmax Hlog Htr) as (r & s' & q & n & E & [] & _). eauto.
Qed.

(** C3: Every request a run sends passes [verify_invariant], and a run sends at
    most [max_iters] of them. *)
Theorem run_requests_verify input s
  (Hmax : 0 <= al_max_iters a < umax 32) (Hlog : answered (s_messages (a_session s)))
  (Htr : trace_ok (a_fx s)) :
  (forall ms, Request ms ∈ a_fx (run a (run_fuel a) input s).2 -> verify_invariant ms = Ok tt) /\
  Z.of_nat (requests (a_fx (run a (run_fuel a) input s).2)) <= Z.of_nat (requests (a_fx s)) + al_max_iters a.
Proof.
  destruct (run_post input s Hmax Hlog Htr) as (r & s' & q & n & E & [_ G <- _] & Hq & _).
  rewrite E. split; [apply G|exact Hq].
Qed.

(** C5: No tool is started in a run unless the permission checker allowed that
    call or the user approved it before. *)
Theorem run_starts_approved input s pre c cwd post
  (Hmax : 0 <= al_max_iters a < umax 32) (Hlog : answered (s_messages (a_session s)))
  (Htr : trace_ok (a_fx s))
  (Hfx : a_fx (run a (run_fuel a) input s).2 = pre ++ Started c cwd :: post) :
  approved c pre.
Proof.
  destruct (run_post input s Hmax Hlog Htr) as (r & s' & q & n & E & [_ G _ _] & _).
  rewrite E in Hfx. by eapply G.
Qed.

(** A run manufactures at most two recovery notes: one continuation of a
    truncated answer and one completion review. *)
Theorem run_recoveries_bounded input s
  (Hmax : 0 <= al_max_iters a < umax 32) (Hlog : answered (s_messages (a_session s)))
  (Htr : trace_ok (a_fx s)) :
  (recoveries (s_messages (a_session (run a (run_fuel a) input s).2))
   <= recoveries (s_messages (a_session s)) + 2)%nat.
Proof.
  destruct (run_post input s Hmax Hlog Htr) as (r & s' & q & n & E & [_ _ _ <-] & _ & Hn). by rewrite E.
Qed.

End Run.

(** ** Calls that the model did not confirm *)

Section Unconfirmed.
Context {W : Type} `{AgentEnv W}.
Implicit Types s : AState W.

Lemma answer_assistant text rs calls u c tr (r : ToolResultBody) s :
  exists s' fx,
    (forall B (k : M W B), (push_turn (TAssistant text rs calls u c tr) ;;
       iterM (fun x => answer_with x r) calls ;; k) s = k s') /\
    appended s s' (TAssistant text rs calls u c tr :: map (fun c => TToolResult (tc_id c) (tc_name c) r 0) calls) fx /\
    Forall quiet_effect fx.
Proof.
  set (t := TAssistant text rs calls u c tr).
  destruct (push_turn_eq t s) as (s1 & E1 & A1 & _). destruct (answer_all r calls s1) as (s2 & fx & E2 & A2 & Hq).
  exists s2, ([Sink (OnTurn t)] ++ fx). split.
  - intros B k. by rewrite (bind_done _ _ _ _ _ E1), (bind_done _ _ _ _ _ E2).
  - split; [by apply (appended_trans _ _ _ [t] _ _ _ A1)|by repeat constructor].
Qed.

(** What a response that is not a confirmed batch leaves: the assistant turn,
    a refusal for each of its calls, at most one recovery note; quiet effects. *)
Definition refused s s' (calls : list ToolCall) : Prop :=
  exists t body notes fx,
    s_messages (a_session s') = s_messages (a_session s) ++
      t :: map (fun c => TToolResult (tc_id c) (tc_name c) body 0) calls ++ notes /\
    calls_of t = calls /\ (body = RInterrupted \/ exists m, body = RError m true) /\
    (length notes <= 1)%nat /\ a_fx s' = a_fx s ++ fx /\ Forall quiet_effect fx.

Lemma refused_note s s1 text calls tx rs u c tr body fx :
  appended s s1 (TAssistant tx rs calls u c tr :: map (fun c => TToolResult (tc_id c) (tc_name c) body 0) calls) fx ->
  Forall quiet_effect fx -> (body = RInterrupted \/ exists m, body = RError m true) ->
  refused s s1 calls /\
  exists s2, recovery_note text s1 = (Done tt, s2) /\ refused s s2 calls.
Proof.
  intros A Hq Hb. split.
  - destruct A as [S F]. exists (TAssistant tx rs calls u c tr), body, [], fx.
    rewrite S, app_nil_r. split_and!; [done|done|done|simpl; lia|done|done].
  - destruct (push_turn_eq (TSystemNote NRecovery text) s1) as (s2 & E & A2 & _).
    exists s2. split; [exact E|]. pose proof (appended_trans _ _ _ _ _ _ _ A A2) as [S F].
    exists (TAssistant tx rs calls u c tr), body, [TSystemNote NRecovery text], (fx ++ [Sink (OnTurn (TSystemNote NRecovery text))]).
    rewrite S, F. split_and!; [done|done|done|done|done|].
    apply list.Forall_app. split; [done|by repeat constructor].
Qed.

(** C10: Tool calls that the provider did not confirm are never executed: when a
    response ends with any finish reason but [tool_calls] (or only looks like a
    truncated one), no tool is started and no permission asked; each of its
    calls is recorded and answered with a refusal. *)
Theorem unconfirmed_not_executed a v roots chars mk r s calls items
  (Hr : mr_finish_reason r <> FToolCalls) (Hc : split_calls (mr_tool_calls r) [] [] = (calls, items)) :
  exists st s', on_response a v roots chars mk r s = (Done st, s') /\ refused s s' calls.
Proof.
  unfold on_response. rewrite Hc. set (effective := if looks_like_implicit_length _ _ then _ else _).
  assert (effective <> FToolCalls) as He by (unfold effective; by case_test).
  set (tr := Some _). set (cost := option_map _ _). clearbody effective tr cost.
  assert (exists s1 fx1, (match mr_usage r with Some u => account a u chars | None => ret tt end) s = (Done tt, s1) /\
    s_messages (a_session s1) = s_messages (a_session s) /\ a_fx s1 = a_fx s ++ fx1 /\ Forall quiet_effect fx1)
    as (s1 & fx1 & E1 & M1 & F1 & Q1).
  { destruct (mr_usage r) as [u|].
    - eexists _, [Sink (OnUsage u)]. split; [reflexivity|]. split_and!; try done. by repeat constructor.
    - exists s, []. rewrite app_nil_r. by split_and!. }
  rewrite (bind_done _ _ _ _ _ E1).
  assert (forall s2, refused s1 s2 calls -> refused s s2 calls) as Hlift.
  { intros s2 (t & body & notes & fx & R1 & R2 & R3 & R4 & R5 & R6).
    exists t, body, notes, (fx1 ++ fx). rewrite R1, R5, M1, F1, app_assoc. split_and!; try done.
    by apply list.Forall_app. }
  destruct (unconfirmed_reason calls effective) as [reason|] eqn:Eu.
  { destruct (answer_assistant (mr_text r) (mr_reasoning r) calls (mr_usage r) cost tr (unconfirmed_error reason) s1)
      as (s2 & fx2 & E2 & A2 & Q2).
    unfold on_unconfirmed, synthesize_retryable_unconfirmed. rewrite E2.
    assert (refused s1 s2 calls) as R by (apply (refused_note s1 s2 [] _ _ _ _ _ _ _ _ A2 Q2); unfold unconfirmed_error; eauto).
    case_test; eexists _, s2; (split; [reflexivity|auto]). }
  destruct (answer_assistant (mr_text r) (mr_reasoning r) calls (mr_usage r) cost tr RInterrupted s1)
    as (s2 & fx2 & E2 & A2 & Q2).
  destruct effective; [| |done| |].
  - unfold on_stop, synthesize_interrupted. rewrite E2.
    destruct (refused_note s1 s2 FINAL_REVIEW_RECOVERY _ _ _ _ _ _ _ _ A2 Q2 (or_introl eq_refl)) as (R & s3 & E3 & R3).
    case_test; [rewrite (bind_done _ _ _ _ _ E3); eexists _, s3|eexists _, s2]; (split; [reflexivity|auto]).
  - destruct calls as [|c calls]; [|done]. unfold on_length. cbn [is_nil].
    destruct (push_turn_eq (TAssistant (mr_text r) (mr_reasoning r) [] (mr_usage r) cost tr) s1) as (s3 & E3 & A3 & _).
    rewrite (bind_done _ _ _ _ _ E3).
    set (note := if is_nil (trim (mr_text r)) then FORCE_ACTION_RECOVERY else PARTIAL_ANSWER_RECOVERY).
    destruct (refused_note s1 s3 note [] _ _ _ _ _ RInterrupted _ A3) as (R & s4 & E4 & R4);
      [by repeat constructor|by left|].
    case_test; [eexists _, s3|rewrite (bind_done _ _ _ _ _ E4); eexists _, s4]; (split; [reflexivity|auto]).
  - unfold synthesize_interrupted. rewrite E2. eexists _, s2. split; [reflexivity|]. apply Hlift.
    by apply (refused_note s1 s2 [] _ _ _ _ _ _ _ _ A2 Q2 (or_introl eq_refl)).
  - unfold synthesize_interrupted. rewrite E2. eexists _, s2. split; [reflexivity|]. apply Hlift.
    by apply (refused_note s1 s2 [] _ _ _ _ _ _ _ _ A2 Q2 (or_introl eq_refl)).
Qed.

End Unconfirmed.

(** ** A concrete environment, for the witnesses *)

Module Sample.

#[local] Existing Instance Tree.tree_json.

Record world := MkWorld { clock : Z; script : list (ModelError + ModelResponse); cancelled : bool }.

Definition no_response : ModelError := MkModelError PEmptyChoices 0.

(** A model that plays a script, a permission checker that allows [Read] and
    asks for the rest, a user who says yes once. *)
#[local] Instance env : AgentEnv world := {|
  env_now w := (clock w, MkWorld (clock w + 1) (script w) (cancelled w));
  env_cancelled := cancelled;
  env_deadline_passed _ := false;
  env_cancel w := MkWorld (clock w) (script w) true;
  env_cwd _ := lit "/w";
  env_check _ tool _ _ _ _ := if str_eqb tool (lit "Read") then Allow else AskUser (lit "?");
  env_ask w _ _ _ := (Once, w);
  env_tool t := if str_eqb t (lit "Read") then Some Parallel
                else if str_eqb t (lit "Write") then Some SerialWrite else None;
  env_call w _ _ _ := (inr (OOk (lit "written") false []), w);
  env_spawn w _ _ _ := w;
  env_join w _ := (inr (inr (OOk (lit "contents") false []), 5), w);
  env_complete w _ :=
    match script w with
    | r :: l => ([MkItem 1 2 (EvText (lit "hi"))], inr r, MkWorld (clock w) l (cancelled w))
    | [] => ([], inr (inl no_response), w)
    end;
  env_estimate _ n := n / 4;
  env_observe w _ _ := w;
  env_advance_turn w := w;
  env_hash_order _ l := l
|}.
#[local] Instance env_laws : AgentEnvLaws world.
Proof. split. reflexivity. Qed.

Definition call (id name : string) : FinalizedToolCall := FCall (mk_tool_call (lit id) (lit name) (lit "{}")).
Definition respond (text : string) (calls : list FinalizedToolCall) (r : FinishReason) : ModelError + ModelResponse :=
  inr (MkResponse (lit text) None calls r None 0).

Definition loop : AgentLoop := MkLoop 5 None None None (mk_pricing 0 0 0) HARD_TOOL_RESULT_CAP false.
Definition session : Session :=
  MkSession (lit "s") (lit "/w") [] (lit "m") [] AmDefault [] usage_default cost_zero.
Definition start (l : list (ModelError + ModelResponse)) : AState world :=
  MkState (MkWorld 0 l false) [] session (batch_new 0).

(** Two reads, a write and a broken call; then an unconfirmed call, which is
    retried once; then an answer. *)
Definition play : AState world :=
  start [respond "" [call "1" "Read"; call "2" "Read"; call "3" "Write"; FParseError None None (lit "{") (lit "eof")] FToolCalls;
         respond "x" [call "4" "Write"] FStop;
         respond "done" [] FStop].

Lemma no_assembler : forall f, al_assembler loop = Some f -> forall l cwd, answered l -> wire_answered (f l cwd).
Proof. intros f Hf. discriminate Hf. Qed.
Lemma start_ok : trace_ok (a_fx play).
Proof. split; [by intros []|intros ms Hin; by apply not_elem_of_nil in Hin]. Qed.
Lemma start_answered : answered (s_messages (a_session play)).
Proof. constructor. Qed.
Lemma loop_bound : 0 <= al_max_iters loop < umax 32.
Proof. vm_compute. split; congruence. Qed.

Lemma run_ends_answered_witness :
  (exists s', run loop (run_fuel loop) (lit "go") play = (Done (Some (inr LStop)), s') /\
              length (s_messages (a_session s')) = 9%nat) /\
  exists r s', run loop (run_fuel loop) (lit "go") play = (Done (Some r), s') /\ answered (s_messages (a_session s')).
Proof.
  split; [eexists; split; vm_compute; reflexivity|].
  exact (run_ends_answered loop no_assembler (lit "go") play loop_bound start_answered start_ok).
Defined.

Lemma run_requests_verify_witness :
  requests (a_fx (run loop (run_fuel loop) (lit "go") play).2) = 3%nat /\
  Z.of_nat (requests (a_fx (run loop (run_fuel loop) (lit "go") play).2)) <= 5.
Proof.
  split; [vm_compute; reflexivity|].
  exact (proj2 (run_requests_verify loop no_assembler (lit "go") play loop_bound start_answered start_ok)).
Defined.

(** The prefix of the trace before the start of the write. *)
Definition is_write_start (e : Effect) : bool :=
  match e with Started c _ => str_eqb (tc_name c) (lit "Write") | _ => false end.
Fixpoint split_at (p : Effect -> bool) (l : list Effect) : list Effect * list Effect :=
  match l with
  | [] => ([], [])
  | e :: l' => if p e then ([], l) else let '(x, y) := split_at p l' in (e :: x, y)
  end.

Lemma run_starts_approved_witness :
  approved (mk_tool_call (lit "3") (lit "Write") (lit "{}"))
    (split_at is_write_start (a_fx (run loop (run_fuel loop) (lit "go") play).2)).1.
Proof.
  eapply (run_starts_approved loop no_assembler (lit "go") play _ _ (lit "/w")
    (tail (split_at is_write_start (a_fx (run loop (run_fuel loop) (lit "go") play).2)).2)
    loop_bound start_answered start_ok).
  vm_compute. reflexivity.
Defined.

Lemma run_recoveries_bounded_witness :
  (recoveries (s_messages (a_session (run loop (run_fuel loop) (lit "go") play).2)) <= 2)%nat.
Proof.
  exact (run_recoveries_bounded loop no_assembler (lit "go") play loop_bound start_answered start_ok).
Defined.

Definition cut_response : ModelResponse :=
  MkResponse (lit "x") None [call "4" "Write"] FStop None 0.
Definition no_trace (a b : str) (n : Z) (i : bool) : ModelTrace :=
  finish observation_default 0 0 0 0 0 a b n i.

Lemma unconfirmed_not_executed_witness :
  exists st s', on_response loop vars0 [] 0 no_trace cut_response play = (Done st, s') /\
    refused play s' [mk_tool_call (lit "4") (lit "Write") (lit "{}")].
Proof.
  apply (unconfirmed_not_executed loop vars0 [] 0 no_trace cut_response play
    [mk_tool_call (lit "4") (lit "Write") (lit "{}")] [ICall (mk_tool_call (lit "4") (lit "Write") (lit "{}"))]).
  - discriminate.
  - reflexivity.
Defined.

Lemma run_batch_answers_witness :
  exists o s' rs fx,
    run_batch false 0 [] [ICall (mk_tool_call (lit "3") (lit "Write") (lit "{}"))]
      [mk_tool_call (lit "3") (lit "Write") (lit "{}")] play = (Done o, s') /\
    s_messages (a_session s') = map turn_of rs /\ map result_key rs = [(lit "3", lit "Write")] /\
    a_fx s' = fx /\ ends fx ≡ₚ map end_of rs /\ trace_ok (a_fx s').
Proof.
  exact (run_batch_answers false 0 [] [ICall (mk_tool_call (lit "3") (lit "Write") (lit "{}"))]
    [mk_tool_call (lit "3") (lit "Write") (lit "{}")] play start_ok eq_refl).
Defined.

End Sample.
