(* ===== verification/Stream.v ===== *)
(** The streaming boundary (src/crates/rc-proto/src/stream.rs): server-sent
    events from bytes, tool calls from fragments, events from chunks.

    The derived deserialisers of serde_json are parameters: [parse_chunk] reads
    a [ChatCompletionChunk], [json_error] tells why a text is not JSON. *)

From S2P Require Import Prelude Utf8 Wire AgentSink.

(** ** Chunks *)

Record FunctionDelta := mk_function_delta { fd_name : option str; fd_arguments : option str }.
Record ToolCallDelta := mk_tool_call_delta {
  tcd_index : Z; tcd_id : option str; tcd_function : option FunctionDelta }.
Record Delta := mk_delta {
  d_role : option str; d_content : option str;
  d_reasoning_content : option str; d_reasoning : option str;
  d_tool_calls : list ToolCallDelta }.
Record ChunkChoice := mk_choice { ch_index : Z; ch_delta : Delta; ch_finish_reason : option str }.
Record ChatCompletionChunk := mk_chunk {
  ck_id : str; ck_model : str; ck_choices : list ChunkChoice; ck_usage : option Usage }.

Inductive AgentStreamEvent :=
| TransportActivity
| Text (t : str)
| Reasoning (t : str)
| ToolCallProgress (index : Z) (id name : option str) (arguments : str)
| ToolCallReady (id name arguments : str)
| ToolCallFailed (index : Z) (id name : option str) (raw_arguments error : str)
| Finish (reason : FinishReason)
| UsageEvent (u : Usage).

(** ** Tool-call accumulation *)

Record PartialToolCall := mk_partial {
  pt_id : option str; pt_name : option str; pt_args : str }.
Definition partial_default : PartialToolCall := mk_partial None None [].

Inductive FinalizedToolCall :=
| FinalOk (id name arguments : str)
| FinalParseError (index : Z) (id name : option str) (raw_arguments error : str).

(** The slots of a [ToolCallAccumulator]. *)
Abbreviation ToolCallAccumulator := (list PartialToolCall) (only parsing).

(** [Option::get_or_insert_with]. *)
Definition get_or_insert (o n : option str) : option str :=
  match o with Some _ => o | None => n end.

(** The updates of one slot by a delta. *)
Definition apply_slot (s : PartialToolCall) (d : ToolCallDelta) : PartialToolCall :=
  let s := mk_partial (get_or_insert (pt_id s) (tcd_id d)) (pt_name s) (pt_args s) in
  match tcd_function d with
  | None => s
  | Some f => mk_partial (pt_id s) (get_or_insert (pt_name s) (fd_name f))
                (pt_args s ++ default [] (fd_arguments f))
  end.

(** [ToolCallAccumulator::apply]. *)
Definition acc_apply (slots : ToolCallAccumulator) (d : ToolCallDelta) : ToolCallAccumulator :=
  let i := Z.to_nat (tcd_index d) in
  let slots := if (length slots <=? i)%nat
               then slots ++ replicate (S i - length slots) partial_default else slots in
  alter (fun s => apply_slot s d) i slots.

(** ** JSON repair *)

(** A comma is trailing before [}], [] ] or the end, white space aside. *)
Definition trailing (rest : str) : bool :=
  match drop_ws rest with
  | [] => true
  | c :: _ => (c =? 125) || (c =? 93)
  end.

Definition closer (open : char) : char :=
  if open =? 123 then 125 else if open =? 91 then 93 else open.

(** The scan of [repair]; [stack] has its top first. *)
Fixpoint repair_loop (chars : str) (in_string escape : bool) (stack : str) : str :=
  match chars with
  | [] => (if in_string then [34] else []) ++ map closer stack
  | c :: rest =>
      if in_string then
        c :: (if escape then repair_loop rest true false stack
              else if c =? 92 then repair_loop rest true true stack
              else if c =? 34 then repair_loop rest false false stack
              else repair_loop rest true false stack)
      else if c =? 34 then c :: repair_loop rest true escape stack
      else if (c =? 123) || (c =? 91) then c :: repair_loop rest false escape (c :: stack)
      else if (c =? 125) || (c =? 93) then c :: repair_loop rest false escape (tail stack)
      else if c =? 44 then
        if trailing rest then repair_loop rest false escape stack
        else c :: repair_loop rest false escape stack
      else c :: repair_loop rest false escape stack
  end.

Definition repair (input : str) : str := repair_loop input false false [].

(** ** Server-sent events *)

Record SseDecoder := mk_sse { sse_buf : list Z; sse_done : bool }.
Definition sse_new : SseDecoder := mk_sse [] false.

(** The loop that strips trailing line feeds and carriage returns. *)
Fixpoint drop_eol (l : list Z) : list Z :=
  match l with
  | b :: l' => if (b =? 10) || (b =? 13) then drop_eol l' else l
  | [] => []
  end.
Definition strip_eol (l : list Z) : list Z := rev (drop_eol (rev l)).

(** [memchr] of a line feed and [split_to]: the line with its feed, the rest. *)
Fixpoint split_line (b : list Z) : option (list Z * list Z) :=
  match b with
  | [] => None
  | x :: b' => if x =? 10 then Some ([x], b')
               else match split_line b' with
                    | Some (l, r) => Some (x :: l, r)
                    | None => None
                    end
  end.

Section Stream.
Variable parse_chunk : str -> str + ChatCompletionChunk.
Variable json_error : str -> option str.

Definition chunk_result : Type := ProtoError + ChatCompletionChunk.

(** [parse_line]: the parsed chunks and the new [done] flag. *)
Definition parse_line (done : bool) (line : list Z) : list chunk_result * bool :=
  let s := strip_eol line in
  if is_nil s then ([], done)
  else if bool_decide (head s = Some 58) then ([], done)
  else match strip_prefix (lit "data:") s with
  | None => ([], done)
  | Some rest =>
      let rest := default rest (strip_prefix (lit " ") rest) in
      let rest_str := trim (utf8_lossy rest) in
      if is_nil rest_str then ([], done)
      else if str_eqb rest_str (lit "[DONE]") then ([], true)
      else ([match parse_chunk rest_str with
             | inr c => inr c
             | inl e => inl (PJson e)
             end], done)
  end.

(** [drain_lines]; [fuel] bounds the lines, each of which takes a byte. *)
Fixpoint drain_lines (fuel : nat) (d : SseDecoder) : list chunk_result * SseDecoder :=
  match fuel with
  | O => ([], d)
  | S f =>
      match split_line (sse_buf d) with
      | None => ([], d)
      | Some (line, rest) =>
          let '(out, done) := parse_line (sse_done d) line in
          let '(outs, d') := drain_lines f (mk_sse rest done) in
          (out ++ outs, d')
      end
  end.

Definition sse_feed (d : SseDecoder) (b : list Z) : list chunk_result * SseDecoder :=
  let buf := sse_buf d ++ b in
  drain_lines (length buf) (mk_sse buf (sse_done d)).

Definition sse_finish (d : SseDecoder) : list chunk_result * SseDecoder :=
  if is_nil (sse_buf d) then ([], d)
  else let '(out, done) := parse_line (sse_done d) (sse_buf d) in (out, mk_sse [] done).

(** ** Finalisation *)

Definition finalize_one (index : Z) (id name raw : str) (confirmed : bool) : FinalizedToolCall :=
  match json_error raw with
  | None => FinalOk id name raw
  | Some _ =>
      let repaired := repair raw in
      match json_error repaired with
      | None =>
          if confirmed then FinalOk id name repaired
          else FinalParseError index (Some id) (Some name) raw
                 (lit "arguments incomplete (stream ended before tool_calls finish_reason)")
      | Some e => FinalParseError index (Some id) (Some name) raw
                    (lit "malformed tool arguments: " ++ e)
      end
  end.

Definition finish_slot (confirmed : bool) (i : nat) (s : PartialToolCall) : FinalizedToolCall :=
  let index := Z.of_nat i in
  let id := default (lit "call_" ++ show_z index) (pt_id s) in
  let name := default [] (pt_name s) in
  let raw := if is_nil (pt_args s) then lit "{}" else pt_args s in
  finalize_one index id name raw confirmed.

Definition finish_confirmed (slots : ToolCallAccumulator) (confirmed : bool) : list FinalizedToolCall :=
  imap (finish_slot confirmed) slots.

(** ** Fusion *)

Record StreamFuser := mk_fuser { fu_acc : ToolCallAccumulator; fu_finished : bool }.
Definition fuser_new : StreamFuser := mk_fuser [] false.

Definition event_of_call (c : FinalizedToolCall) : AgentStreamEvent :=
  match c with
  | FinalOk id name arguments => ToolCallReady id name arguments
  | FinalParseError index id name raw error => ToolCallFailed index id name raw error
  end.

Definition flush (f : StreamFuser) (reason : option str) : list AgentStreamEvent * StreamFuser :=
  if fu_finished f then ([], f)
  else
    let confirmed := bool_decide (reason = Some (lit "tool_calls")) in
    (map event_of_call (finish_confirmed (fu_acc f) confirmed)
     ++ [Finish (match reason with
                 | Some r => finish_reason_parse r
                 | None => FOther (lit "stream-ended")
                 end)],
     mk_fuser [] true).

(** [filter(|t| !t.is_empty())] of an optional text. *)
Definition text_event (mk : str -> AgentStreamEvent) (o : option str) : list AgentStreamEvent :=
  match o with
  | Some t => if is_nil t then [] else [mk t]
  | None => []
  end.

Definition progress_event (d : ToolCallDelta) : AgentStreamEvent :=
  match tcd_function d with
  | None => ToolCallProgress (tcd_index d) (tcd_id d) None []
  | Some f => ToolCallProgress (tcd_index d) (tcd_id d) (fd_name f) (default [] (fd_arguments f))
  end.

Definition choice_events (c : ChunkChoice) : list AgentStreamEvent :=
  let d := ch_delta c in
  text_event Text (d_content d)
  ++ text_event Reasoning (match d_reasoning_content d with Some r => Some r | None => d_reasoning d end)
  ++ map progress_event (d_tool_calls d).

Definition apply_choice (f : StreamFuser) (c : ChunkChoice) : list AgentStreamEvent * StreamFuser :=
  let f := mk_fuser (fold_left acc_apply (d_tool_calls (ch_delta c)) (fu_acc f)) (fu_finished f) in
  match ch_finish_reason c with
  | None => (choice_events c, f)
  | Some fr => let '(out, f) := flush f (Some fr) in (choice_events c ++ out, f)
  end.

Fixpoint apply_choices (f : StreamFuser) (l : list ChunkChoice) : list AgentStreamEvent * StreamFuser :=
  match l with
  | [] => ([], f)
  | c :: l' => let '(out, f) := apply_choice f c in
               let '(outs, f) := apply_choices f l' in (out ++ outs, f)
  end.

Definition fuser_apply (f : StreamFuser) (c : ChatCompletionChunk) : list AgentStreamEvent * StreamFuser :=
  let '(out, f) := apply_choices f (ck_choices c) in
  (match ck_usage c with Some u => [UsageEvent u] | None => [] end ++ out, f).

Definition fuser_finish (f : StreamFuser) : list AgentStreamEvent * StreamFuser := flush f None.

(** ** Whole streams *)

(** Feed the pieces one by one, then finish: everything parsed, and whether
    [[DONE]] was seen. *)
Fixpoint sse_feeds (d : SseDecoder) (pieces : list (list Z)) : list chunk_result * SseDecoder :=
  match pieces with
  | [] => ([], d)
  | b :: bs => let '(out, d) := sse_feed d b in
               let '(outs, d) := sse_feeds d bs in (out ++ outs, d)
  end.

Definition sse_run (pieces : list (list Z)) : list chunk_result * bool :=
  let '(out, d) := sse_feeds sse_new pieces in
  let '(outs, d) := sse_finish d in (out ++ outs, sse_done d).

(** The complete lines of a buffer that starts with [cur], and its tail. *)
Fixpoint lines_of (cur l : list Z) : list (list Z) * list Z :=
  match l with
  | [] => ([], cur)
  | b :: l' => if b =? 10 then let '(ls, r) := lines_of [] l' in ((cur ++ [b]) :: ls, r)
               else lines_of (cur ++ [b]) l'
  end.

(** Lines parsed in order. *)
Fixpoint parse_lines (done : bool) (ls : list (list Z)) : list chunk_result * bool :=
  match ls with
  | [] => ([], done)
  | l :: ls' => let '(out, done) := parse_line done l in
                let '(outs, done) := parse_lines done ls' in (out ++ outs, done)
  end.

Lemma lines_of_app cur a b :
  lines_of cur (a ++ b) = let '(ls, r) := lines_of cur a in
                          let '(ls', r') := lines_of r b in (ls ++ ls', r').
Proof.
  revert cur. induction a as [|x a IH]; intros cur; cbn [app lines_of].
  - by destruct (lines_of cur b).
  - destruct (x =? 10); [|apply IH]. rewrite IH. destruct (lines_of [] a) as [ls r].
    by destruct (lines_of r b).
Qed.

Lemma parse_lines_app done a b :
  parse_lines done (a ++ b) = let '(out, done) := parse_lines done a in
                              let '(outs, done) := parse_lines done b in (out ++ outs, done).
Proof.
  revert done. induction a as [|l a IH]; intros done; cbn [app parse_lines].
  - by destruct (parse_lines done b).
  - destruct (parse_line done l) as [o d]. rewrite IH. destruct (parse_lines d a) as [o1 d1].
    destruct (parse_lines d1 b) as [o2 d2]. by rewrite app_assoc.
Qed.

Lemma split_line_lines cur b :
  lines_of cur b = match split_line b with
                   | None => ([], cur ++ b)
                   | Some (l, r) => let '(ls, t) := lines_of [] r in ((cur ++ l) :: ls, t)
                   end.
Proof.
  revert cur. induction b as [|x b IH]; intros cur; cbn [split_line lines_of].
  - by rewrite app_nil_r.
  - destruct (x =? 10); [done|]. rewrite IH. destruct (split_line b) as [[l r]|].
    + destruct (lines_of [] r). by rewrite <- app_assoc.
    + by rewrite <- app_assoc.
Qed.

Lemma split_line_length b l r : split_line b = Some (l, r) -> (length r < length b)%nat.
Proof.
  revert l r. induction b as [|x b IH]; intros l r; cbn [split_line]; [done|].
  destruct (x =? 10); [intros [= _ <-]; simpl; lia|].
  destruct (split_line b) as [[l' r']|] eqn:E; [|done]. intros [= _ <-].
  specialize (IH _ _ eq_refl). simpl. lia.
Qed.

(** The draining loop, with enough fuel, parses the lines of the buffer. *)
Lemma drain_lines_spec f d :
  (length (sse_buf d) <= f)%nat ->
  drain_lines f d = let '(ls, r) := lines_of [] (sse_buf d) in
                    let '(out, done) := parse_lines (sse_done d) ls in (out, mk_sse r done).
Proof.
  revert d. induction f as [|f IH]; intros [b done] Hf; cbn [sse_buf sse_done drain_lines] in *.
  - destruct b; [done|simpl in Hf; lia].
  - rewrite split_line_lines. destruct (split_line b) as [[l r]|] eqn:E.
    + apply split_line_length in E. cbn [app]. destruct (parse_line done l) as [o d1] eqn:P.
      rewrite IH by (simpl; lia). cbn [sse_buf sse_done].
      destruct (lines_of [] r) as [ls t]. cbn [parse_lines]. rewrite P.
      by destruct (parse_lines d1 ls).
    + done.
Qed.

(** The tail of the lines of a text has no line feed. *)
Lemma lines_of_tail cur l : lines_of [] cur = ([], cur) -> forall ls r,
  lines_of cur l = (ls, r) -> lines_of [] r = ([], r).
Proof.
  revert cur. induction l as [|b l IH]; intros cur Hc ls r; cbn [lines_of].
  - by intros [= _ <-].
  - destruct (b =? 10) eqn:E.
    + destruct (lines_of [] l) as [ls' r'] eqn:F. intros [= _ <-]. by eapply (IH []).
    + apply IH. rewrite lines_of_app, Hc. cbn [lines_of]. by rewrite E.
Qed.

Lemma sse_feeds_spec pieces : forall d,
  lines_of [] (sse_buf d) = ([], sse_buf d) ->
  sse_feeds d pieces
  = let '(ls, r) := lines_of (sse_buf d) (concat pieces) in
    let '(out, done) := parse_lines (sse_done d) ls in (out, mk_sse r done).
Proof.
  induction pieces as [|b bs IH]; intros [buf done] Hd; cbn [sse_feeds concat sse_buf sse_done] in *.
  - done.
  - unfold sse_feed. cbn [sse_buf sse_done]. rewrite drain_lines_spec by done.
    cbn [sse_buf sse_done]. rewrite !lines_of_app, Hd.
    destruct (lines_of buf b) as [ls r] eqn:E. cbn [app].
    destruct (parse_lines done ls) as [o d1] eqn:P.
    rewrite IH by (cbn [sse_buf]; by eapply lines_of_tail). cbn [sse_buf sse_done].
    destruct (lines_of r (concat bs)) as [ls' r']. rewrite parse_lines_app, P.
    by destruct (parse_lines d1 ls').
Qed.

(** The result of a run, from the whole text. *)
Lemma sse_run_spec pieces :
  sse_run pieces
  = let '(ls, r) := lines_of [] (concat pieces) in
    parse_lines false (ls ++ if is_nil r then [] else [r]).
Proof.
  unfold sse_run. rewrite sse_feeds_spec by done. cbn [sse_buf sse_done sse_new].
  destruct (lines_of [] (concat pieces)) as [ls r]. rewrite parse_lines_app.
  destruct (parse_lines false ls) as [o d]. unfold sse_finish. cbn [sse_buf sse_done].
  destruct (is_nil r); cbn [parse_lines].
  - done.
  - destruct (parse_line d r) as [o' d']. by rewrite app_nil_r.
Qed.

(** the decoder does not depend on how the transport cuts the body.  Feeding
    the bytes in any pieces (empty ones, cuts inside a line, inside a UTF-8
    sequence or inside a line ending) and finishing gives the same parsed
    chunks and errors, in the same order, and the same end marker as feeding
    the whole body at once. *)
Theorem sse_split_invariant pieces pieces' :
  concat pieces = concat pieces' -> sse_run pieces = sse_run pieces'.
Proof. intros H. by rewrite !sse_run_spec, H. Qed.

(** ** Payloads *)

(** The characters a payload may have on its line. *)
Definition payload_ok (p : str) : Prop :=
  Forall is_char p /\ Forall (fun c => c <> 10) p /\ trim p = p /\ p <> [] /\ p <> lit "[DONE]".

(** An event of a server: [data: p], ended by an empty line. *)
Definition sse_event (p : str) : list Z := lit "data: " ++ utf8 p ++ [10; 10].

Lemma utf8_char_no c b : 0 <= b < 128 -> c <> b -> is_char c -> Forall (fun x => x <> b) (utf8_char c).
Proof.
  intros Hb Hne Hc. unfold is_char in Hc. unfold utf8_char.
  assert (forall n, 0 <= n mod 64) as Hm by (intros n; apply Z.mod_pos_bound; lia).
  pose proof (Hm c). pose proof (Hm (c / 64)). pose proof (Hm (c / 4096)).
  pose proof (Z.div_pos c 64). pose proof (Z.div_pos c 4096). pose proof (Z.div_pos c 262144).
  repeat case_test; repeat constructor; lia.
Qed.

Lemma utf8_no b s : 0 <= b < 128 -> Forall (fun c => c <> b) s -> Forall is_char s ->
  Forall (fun x => x <> b) (utf8 s).
Proof.
  intros Hb. unfold utf8. induction s as [|c s IH]; intros Hs Hc; [constructor|].
  apply list.Forall_cons in Hs as [H1 H2]. apply list.Forall_cons in Hc as [H3 H4].
  cbn [map concat]. apply list.Forall_app. split; [by apply utf8_char_no|by apply IH].
Qed.

Lemma split_line_first l rest : Forall (fun b => b <> 10) l ->
  split_line (l ++ 10 :: rest) = Some (l ++ [10], rest).
Proof.
  induction 1 as [|b l Hb _ IH]; cbn [app split_line]; [done|].
  rewrite (proj2 (Z.eqb_neq _ _) Hb). by rewrite IH.
Qed.

(** The last byte of a trimmed non-empty payload is not a line ending. *)
Lemma trimmed_last p : trim p = p -> p <> [] -> exists q c, p = q ++ [c] /\ is_ws c = false.
Proof.
  intros Ht Hp. unfold trim, trim_end in Ht.
  destruct (drop_ws (rev (trim_start p))) as [|c r] eqn:E; [by rewrite <- Ht in Hp|].
  exists (rev r), c. split; [by rewrite <- Ht|].
  destruct (is_ws c) eqn:W; [|done]. exfalso. clear -E W.
  induction (rev (trim_start p)) as [|d l IH]; cbn in E; [done|].
  destruct (is_ws d) eqn:D; [auto|]. congruence.
Qed.

Lemma utf8_char_last c : is_ws c = false -> is_char c ->
  exists l b, utf8_char c = l ++ [b] /\ b <> 10 /\ b <> 13.
Proof.
  intros Hw Hc. unfold is_char in Hc. unfold utf8_char.
  assert (forall n, 0 <= n mod 64) as Hm by (intros n; apply Z.mod_pos_bound; lia).
  pose proof (Hm c).
  case_test; [|case_test; [|case_test]].
  - exists [], c. split; [done|]. split; intros ->; done.
  - eexists [_], _. split; [done|]. lia.
  - eexists [_; _], _. split; [done|]. lia.
  - eexists [_; _; _], _. split; [done|]. lia.
Qed.

Lemma strip_eol_line l b : b <> 10 -> b <> 13 -> strip_eol (l ++ [b] ++ [10]) = l ++ [b].
Proof.
  intros H1 H2. unfold strip_eol. rewrite !rev_app_distr. cbn [rev app drop_eol Z.eqb Pos.eqb orb].
  rewrite (proj2 (Z.eqb_neq _ _) H1), (proj2 (Z.eqb_neq _ _) H2). cbn [orb].
  change (b :: rev l) with (rev [b] ++ rev l). by rewrite <- rev_app_distr, rev_involutive.
Qed.

Lemma utf8_nonempty p : p <> [] -> utf8 p <> [].
Proof.
  destruct p as [|c p]; [done|]. intros _. unfold utf8. cbn [map concat]. unfold utf8_char.
  by repeat case_test.
Qed.

(** The data line of a payload. *)
Lemma parse_data_line done p : Forall is_char p -> trim p = p -> p <> [] ->
  parse_line done (lit "data: " ++ utf8 p ++ [10])
  = if str_eqb p (lit "[DONE]") then ([], true)
    else ([match parse_chunk p with inr c => inr c | inl e => inl (PJson e) end], done).
Proof.
  intros Hc Ht Hp. unfold parse_line.
  assert (strip_eol (lit "data: " ++ utf8 p ++ [10]) = lit "data: " ++ utf8 p) as E.
  { destruct (trimmed_last p Ht Hp) as (q & c & -> & Hw). apply list.Forall_app in Hc as [_ Hc].
    apply list.Forall_cons in Hc as [Hc _]. destruct (utf8_char_last c Hw Hc) as (l & b & El & H1 & H2).
    assert (utf8 (q ++ [c]) = utf8 q ++ l ++ [b]) as ->.
    { rewrite utf8_app. unfold utf8 at 2. cbn [map concat]. by rewrite app_nil_r, El. }
    rewrite !app_assoc, <- (app_assoc _ [b] [10]). rewrite <- !app_assoc.
    rewrite (app_assoc (utf8 q)), (app_assoc (lit "data: ")).
    rewrite (app_assoc (utf8 q)) at 1. by rewrite (strip_eol_line _ b). }
  rewrite E. cbn [is_nil]. change (head (lit "data: " ++ utf8 p)) with (Some 100).
  change (bool_decide (Some 100 = Some 58)) with false. cbv iota.
  change (strip_prefix (lit "data:") (lit "data: " ++ utf8 p)) with (Some (lit " " ++ utf8 p)). cbv iota.
  change (strip_prefix (lit " ") (lit " " ++ utf8 p)) with (Some (utf8 p)).
  change (default (lit " " ++ utf8 p) (Some (utf8 p))) with (utf8 p).
  change (is_nil (lit "data: " ++ utf8 p)) with false. cbv iota.
  rewrite utf8_lossy_utf8, Ht by done. by destruct p.
Qed.

(** An empty line. *)
Lemma parse_blank_line done : parse_line done [10] = ([], done).
Proof. done. Qed.

Definition events_text (ps : list str) : list Z := concat (map sse_event ps).
Definition result_of (p : str) : chunk_result :=
  match parse_chunk p with inr c => inr c | inl e => inl (PJson e) end.

Lemma lines_of_line l rest : Forall (fun b => b <> 10) l ->
  lines_of [] (l ++ 10 :: rest)
  = let '(ls, r) := lines_of [] rest in ((l ++ [10]) :: ls, r).
Proof. intros H. by rewrite split_line_lines, split_line_first by done. Qed.

Lemma lines_of_event p rest : Forall is_char p -> Forall (fun c => c <> 10) p ->
  lines_of [] (sse_event p ++ rest)
  = let '(ls, r) := lines_of [] rest in ((lit "data: " ++ utf8 p ++ [10]) :: [10] :: ls, r).
Proof.
  intros Hc Hn. unfold sse_event.
  replace ((lit "data: " ++ utf8 p ++ [10; 10]) ++ rest) with ((lit "data: " ++ utf8 p) ++ 10 :: 10 :: rest)
    by by rewrite <- !app_assoc.
  rewrite lines_of_line.
  2: { apply list.Forall_app. split; [repeat constructor; discriminate|by apply utf8_no]. }
  pose proof (lines_of_line [] rest (List.Forall_nil _)) as E. cbn [app] in E. rewrite E.
  destruct (lines_of [] rest) as [ls r].
  cbn [app]. by rewrite <- app_assoc.
Qed.

Lemma done_text : Forall is_char (lit "[DONE]") /\ Forall (fun c => c <> 10) (lit "[DONE]")
  /\ trim (lit "[DONE]") = lit "[DONE]".
Proof. split_and!; [|repeat constructor; discriminate|done]. repeat constructor; unfold is_char; lia. Qed.

Lemma events_lines ps rest : Forall payload_ok ps ->
  exists ls, lines_of [] (events_text ps ++ rest)
             = (let '(ls', r) := lines_of [] rest in (ls ++ ls', r))
    /\ parse_lines false ls = (map result_of ps, false).
Proof.
  unfold events_text. induction 1 as [|p ps Hp _ (ls & E & P)]; cbn [map concat].
  - exists []. cbn [app]. by destruct (lines_of [] rest).
  - destruct Hp as (Hc & Hn & Ht & Hne & Hd). rewrite <- app_assoc, lines_of_event, E by done.
    destruct (lines_of [] rest) as [ls' r].
    exists ((lit "data: " ++ utf8 p ++ [10]) :: [10] :: ls). split; [done|].
    cbn [parse_lines]. rewrite parse_data_line, str_eqb_ne by done.
    rewrite parse_blank_line, P. done.
Qed.

(** what a server sends is what is decoded.  If the body is the events of
    some payloads (any texts of Unicode characters without a line feed, not
    blank at an end and other than the end marker), each on its [data:] line,
    followed by the end marker, then however the transport cuts it the decoder
    returns the parse of every payload, in order, nothing else, and is done. *)
Theorem sse_payloads ps pieces :
  Forall payload_ok ps -> concat pieces = events_text ps ++ sse_event (lit "[DONE]") ->
  sse_run pieces = (map result_of ps, true).
Proof.
  intros Hps E. rewrite sse_run_spec, E.
  destruct (events_lines ps (sse_event (lit "[DONE]")) Hps) as (ls & El & P). rewrite El.
  destruct done_text as (Hc & Hn & Ht). rewrite <- (app_nil_r (sse_event (lit "[DONE]"))).
  rewrite lines_of_event by done. cbn [lines_of is_nil]. rewrite app_nil_r, parse_lines_app, P.
  cbn [parse_lines]. rewrite parse_data_line, str_eqb_refl by done.
  rewrite parse_blank_line. by rewrite app_nil_r.
Qed.

(** ** Tool calls from fragments *)

Definition delta_index (d : ToolCallDelta) : nat := Z.to_nat (tcd_index d).
Definition delta_name (d : ToolCallDelta) : option str :=
  match tcd_function d with Some f => fd_name f | None => None end.
Definition delta_args (d : ToolCallDelta) : str :=
  match tcd_function d with Some f => default [] (fd_arguments f) | None => [] end.

(** The first value given, the fragments in order. *)
Fixpoint first_some (l : list (option str)) : option str :=
  match l with
  | [] => None
  | o :: l' => match o with Some _ => o | None => first_some l' end
  end.

Definition assembled (ds : list ToolCallDelta) : PartialToolCall :=
  mk_partial (first_some (map tcd_id ds)) (first_some (map delta_name ds)) (concat (map delta_args ds)).

Lemma apply_slot_eq s d :
  apply_slot s d = mk_partial (get_or_insert (pt_id s) (tcd_id d))
                     (get_or_insert (pt_name s) (delta_name d)) (pt_args s ++ delta_args d).
Proof.
  unfold apply_slot, delta_name, delta_args. destruct (tcd_function d); [done|]. cbn.
  rewrite app_nil_r. by destruct (pt_name s).
Qed.

Lemma first_some_snoc l o : first_some (l ++ [o]) = get_or_insert (first_some l) o.
Proof. induction l as [|[x|] l IH]; cbn; [by destruct o|done|done]. Qed.

Lemma assembled_snoc ds d : assembled (ds ++ [d]) = apply_slot (assembled ds) d.
Proof.
  rewrite apply_slot_eq. unfold assembled. rewrite !map_app. cbn [map].
  rewrite !first_some_snoc, concat_app. cbn. by rewrite app_nil_r.
Qed.

(** The fragments of one call. *)
Definition mine (i : nat) (ds : list ToolCallDelta) : list ToolCallDelta :=
  filter (fun d => delta_index d = i) ds.

(** The number of slots: one more than the largest index. *)
Definition slot_count (ds : list ToolCallDelta) : nat :=
  fold_left (fun n d => max n (S (delta_index d))) ds 0%nat.

Lemma acc_apply_spec acc d i :
  length (acc_apply acc d) = max (length acc) (S (delta_index d))
  /\ acc_apply acc d !! i
     = (if decide (i < max (length acc) (S (delta_index d)))%nat
        then Some (if decide (delta_index d = i) then apply_slot (default partial_default (acc !! i)) d
                   else default partial_default (acc !! i))
        else None).
Proof.
  unfold acc_apply. fold (delta_index d). set (k := delta_index d).
  set (acc' := if (length acc <=? k)%nat
               then acc ++ replicate (S k - length acc) partial_default else acc).
  assert (length acc' = max (length acc) (S k)) as Hl.
  { unfold acc'. destruct (Nat.leb_spec (length acc) k); rewrite ?length_app, ?length_replicate; lia. }
  assert (forall j, (j < max (length acc) (S k))%nat ->
            acc' !! j = Some (default partial_default (acc !! j))) as Hj.
  { intros j Hlt. unfold acc'. destruct (Nat.leb_spec (length acc) k) as [Hk|Hk].
    - destruct (decide (j < length acc)%nat) as [H|H].
      + rewrite lookup_app_l by done. destruct (lookup_lt_is_Some_2 acc j H) as [x E]. by rewrite E.
      + rewrite lookup_app_r, lookup_replicate_2 by lia.
        pose proof (lookup_ge_None_2 acc j ltac:(lia)) as E. by rewrite E.
    - destruct (lookup_lt_is_Some_2 acc j) as [x E]; [lia|]. by rewrite E. }
  split; [by rewrite length_alter|]. case_decide as Hlt.
  - case_decide as He.
    + subst i. by rewrite list_lookup_alter_eq, Hj.
    + by rewrite list_lookup_alter_ne, Hj.
  - apply lookup_ge_None_2. rewrite length_alter. lia.
Qed.

Lemma slot_count_bound ds d : d ∈ ds -> (delta_index d < slot_count ds)%nat.
Proof.
  unfold slot_count. induction ds as [|e ds IH] using rev_ind; [by intros ?%elem_of_nil|].
  rewrite elem_of_app, list_elem_of_singleton, fold_left_app. cbn [fold_left].
  intros [H%IH| ->]; lia.
Qed.

Lemma no_mine i ds : ~ (i < slot_count ds)%nat -> mine i ds = [].
Proof.
  intros H. destruct (mine i ds) as [|d l] eqn:E; [done|]. exfalso. apply H.
  assert (d ∈ mine i ds) as Hd by (rewrite E; by left).
  apply list_elem_of_filter in Hd as [<- Hd]. by apply slot_count_bound.
Qed.

Lemma acc_apply_all ds :
  length (fold_left acc_apply ds []) = slot_count ds
  /\ forall i, fold_left acc_apply ds [] !! i
     = if decide (i < slot_count ds)%nat then Some (assembled (mine i ds)) else None.
Proof.
  unfold slot_count. induction ds as [|d ds [IHl IH]] using rev_ind; [by split|].
  rewrite !fold_left_app. cbn [fold_left]. set (acc := fold_left acc_apply ds []) in *.
  split; [by rewrite (proj1 (acc_apply_spec acc d 0)), IHl|]. intros i.
  rewrite (proj2 (acc_apply_spec acc d i)), IHl. case_decide as Hlt; [|done]. f_equal.
  assert (default partial_default (acc !! i) = assembled (mine i ds)) as ->.
  { rewrite IH. case_decide as H; [done|].
    by rewrite no_mine. }
  unfold mine. rewrite list.filter_app. cbn [filter list_filter].
  case_decide as He; rewrite ?app_nil_r; [|done]. symmetry. apply assembled_snoc.
Qed.

(** reassembly of tool calls.  However the fragments of several calls are
    interleaved, the [i]-th finalised call has the first id and the first name
    given for index [i] (or [call_i] and the empty name) and, as its raw
    arguments, exactly the fragments of index [i] in order (or [{}] when there
    are none).  A ready call has valid JSON as its arguments: the raw bytes
    unchanged, or, only if the model confirmed the calls and the raw bytes are
    not JSON, their repair.  A failed call keeps the raw bytes and was either
    unconfirmed or beyond repair.  There is one call per index up to the largest. *)
Theorem tool_calls_reassembled ds confirmed :
  let calls := finish_confirmed (fold_left acc_apply ds []) confirmed in
  length calls = slot_count ds
  /\ forall i c, calls !! i = Some c ->
     let p := assembled (mine i ds) in
     let id := default (lit "call_" ++ show_z (Z.of_nat i)) (pt_id p) in
     let name := default [] (pt_name p) in
     let raw := if is_nil (pt_args p) then lit "{}" else pt_args p in
     match c with
     | FinalOk id' name' args =>
         id' = id /\ name' = name /\ json_error args = None
         /\ (args = raw \/ confirmed = true /\ is_Some (json_error raw) /\ args = repair raw)
     | FinalParseError i' id' name' raw' _ =>
         i' = Z.of_nat i /\ id' = Some id /\ name' = Some name /\ raw' = raw
         /\ is_Some (json_error raw) /\ (confirmed = false \/ is_Some (json_error (repair raw)))
     end.
Proof.
  cbv zeta. destruct (acc_apply_all ds) as [Hl Hi]. unfold finish_confirmed. split.
  - by rewrite length_imap.
  - intros i c. rewrite list_lookup_imap, Hi. case_decide as Hlt; [|done]. cbn [fmap option_fmap option_map].
    intros [= <-]. unfold finish_slot, finalize_one. set (raw := if is_nil _ then _ else _).
    destruct (json_error raw) as [e|] eqn:E.
    + destruct (json_error (repair raw)) as [e'|] eqn:E'; [|destruct confirmed]; rewrite ?E, ?E'; split_and!;
        try done; eauto 10.
    + rewrite E. split_and!; try done. by left.
Qed.

(** ** Events of a whole stream *)

Fixpoint fuser_applies (f : StreamFuser) (cs : list ChatCompletionChunk)
  : list AgentStreamEvent * StreamFuser :=
  match cs with
  | [] => ([], f)
  | c :: cs' => let '(out, f) := fuser_apply f c in
                let '(outs, f) := fuser_applies f cs' in (out ++ outs, f)
  end.

Definition fuser_run (cs : list ChatCompletionChunk) : list AgentStreamEvent :=
  let '(out, f) := fuser_applies fuser_new cs in out ++ fst (fuser_finish f).

(** The fragments up to the first finish reason, and that reason. *)
Fixpoint until_finish (l : list ChunkChoice) : list ToolCallDelta * option str :=
  match l with
  | [] => ([], None)
  | c :: l' => match ch_finish_reason c with
               | Some r => (d_tool_calls (ch_delta c), Some r)
               | None => let '(ds, r) := until_finish l' in (d_tool_calls (ch_delta c) ++ ds, r)
               end
  end.

(** Not a finished call and not the end. *)
Definition quiet_event (e : AgentStreamEvent) : Prop :=
  match e with ToolCallReady _ _ _ | ToolCallFailed _ _ _ _ _ | Finish _ => False | _ => True end.

(** What closes the stream: the calls, then the end. *)
Definition closing (acc : ToolCallAccumulator) (reason : option str) : list AgentStreamEvent :=
  fst (flush (mk_fuser acc false) reason).

(** The events of some choices, from an unfinished fuser. *)
Definition fused (acc : ToolCallAccumulator) (l : list ChunkChoice)
    (ev : list AgentStreamEvent) (f : StreamFuser) : Prop :=
  let '(ds, r) := until_finish l in
  match r with
  | None => Forall quiet_event ev /\ f = mk_fuser (fold_left acc_apply ds acc) false
  | Some _ => exists pre post, ev = pre ++ closing (fold_left acc_apply ds acc) r ++ post
                /\ Forall quiet_event pre /\ Forall quiet_event post /\ fu_finished f = true
  end.

Lemma quiet_choice c : Forall quiet_event (choice_events c).
Proof.
  unfold choice_events, text_event. rewrite !list.Forall_app. split_and!.
  - destruct (d_content _) as [t|]; [|constructor]. destruct (is_nil t); repeat constructor.
  - destruct (d_reasoning_content (ch_delta c)) as [t|]; [|destruct (d_reasoning (ch_delta c)) as [t|]];
      try destruct (is_nil t); repeat constructor.
  - apply list.Forall_fmap, list.Forall_true. intros d. unfold progress_event. cbn.
    by destruct (tcd_function d).
Qed.

(** A finished fuser stays finished and quiet. *)
Lemma choices_finished l : forall f ev f', fu_finished f = true -> apply_choices f l = (ev, f') ->
  Forall quiet_event ev /\ fu_finished f' = true.
Proof.
  induction l as [|c l IH]; intros f ev f' Hf; cbn [apply_choices].
  - intros [= <- <-]. by split.
  - unfold apply_choice, flush. cbn [fu_finished]. rewrite Hf.
    destruct (ch_finish_reason c); cbn [fst snd];
      destruct (apply_choices _ l) as [outs f2] eqn:E; intros [= <- <-];
      apply IH in E as [H1 H2]; try done; split; try done; rewrite !list.Forall_app;
      split_and!; try done; apply quiet_choice.
Qed.

Lemma choices_fused l : forall acc ev f', apply_choices (mk_fuser acc false) l = (ev, f') ->
  fused acc l ev f'.
Proof.
  unfold fused. induction l as [|c l IH]; intros acc ev f'; cbn [apply_choices until_finish].
  - intros [= <- <-]. by split.
  - unfold apply_choice. cbn [fu_acc fu_finished].
    set (acc1 := fold_left acc_apply (d_tool_calls (ch_delta c)) acc).
    destruct (ch_finish_reason c) as [r|].
    + destruct (flush (mk_fuser acc1 false) (Some r)) as [out f1] eqn:F.
      assert (fu_finished f1 = true) as Hf1 by (unfold flush in F; cbn in F; by injection F as _ <-).
      destruct (apply_choices f1 l) as [outs f2] eqn:E. intros [= <- <-].
      apply choices_finished in E as [H1 H2]; [|done].
      exists (choice_events c), outs. unfold closing. fold acc1. rewrite F. cbn [fst]. rewrite <- app_assoc.
      split_and!; try done. apply quiet_choice.
    + destruct (apply_choices (mk_fuser acc1 false) l) as [outs f2] eqn:E. intros [= <- <-].
      specialize (IH _ _ _ E). destruct (until_finish l) as [ds [r|]].
      * destruct IH as (pre & post & -> & H1 & H2 & H3).
        exists (choice_events c ++ pre), post. rewrite fold_left_app, <- app_assoc.
        split_and!; try done. apply list.Forall_app. split; [apply quiet_choice|done].
      * destruct IH as [H1 ->]. rewrite fold_left_app. split; [|done].
        apply list.Forall_app. split; [apply quiet_choice|done].
Qed.

Lemma quiet_usage u : Forall quiet_event (match u with Some u => [UsageEvent u] | None => [] end).
Proof. destruct u; repeat constructor. Qed.

Lemma chunks_finished cs : forall f ev f', fu_finished f = true -> fuser_applies f cs = (ev, f') ->
  Forall quiet_event ev /\ fu_finished f' = true.
Proof.
  induction cs as [|c cs IH]; intros f ev f' Hf; cbn [fuser_applies].
  - intros [= <- <-]. by split.
  - unfold fuser_apply. destruct (apply_choices f (ck_choices c)) as [out f1] eqn:E.
    apply choices_finished in E as [H1 H2]; [|done].
    destruct (fuser_applies f1 cs) as [outs f2] eqn:G. apply IH in G as [H3 H4]; [|done].
    intros [= <- <-]. split; [|done]. rewrite !list.Forall_app. split_and!; try done. apply quiet_usage.
Qed.

Lemma until_finish_app a b :
  until_finish (a ++ b) = match until_finish a with
                          | (ds, Some r) => (ds, Some r)
                          | (ds, None) => let '(ds', r) := until_finish b in (ds ++ ds', r)
                          end.
Proof.
  induction a as [|c a IH]; cbn [app until_finish]; [by destruct (until_finish b)|].
  destruct (ch_finish_reason c); [done|]. rewrite IH. destruct (until_finish a) as [ds [r|]]; [done|].
  destruct (until_finish b). by rewrite app_assoc.
Qed.

Lemma chunks_fused cs : forall acc ev f', fuser_applies (mk_fuser acc false) cs = (ev, f') ->
  fused acc (concat (map ck_choices cs)) ev f'.
Proof.
  induction cs as [|c cs IH]; intros acc ev f'; cbn [fuser_applies map concat].
  - intros [= <- <-]. by split.
  - unfold fuser_apply. destruct (apply_choices (mk_fuser acc false) (ck_choices c)) as [out f1] eqn:E.
    apply choices_fused in E. destruct (fuser_applies f1 cs) as [outs f2] eqn:G. intros [= <- <-].
    unfold fused in *. rewrite until_finish_app. pose proof (quiet_usage (ck_usage c)) as Hu.
    destruct (until_finish (ck_choices c)) as [ds [r|]].
    + destruct E as (pre & post & -> & H1 & H2 & H3). apply chunks_finished in G as [H4 H5]; [|done].
      exists (match ck_usage c with Some u => [UsageEvent u] | None => [] end ++ pre), (post ++ outs).
      rewrite <- !app_assoc. split_and!; try done; by apply list.Forall_app.
    + destruct E as [H1 ->]. apply IH in G.
      destruct (until_finish (concat (map ck_choices cs))) as [ds' [r|]].
      * destruct G as (pre & post & -> & H2 & H3 & H4).
        exists ((match ck_usage c with Some u => [UsageEvent u] | None => [] end ++ out) ++ pre), post.
        rewrite fold_left_app, <- !app_assoc. split_and!; try done. all: rewrite ?list.Forall_app; by split_and!.
      * destruct G as [H2 ->]. rewrite fold_left_app. split; [|done]. by rewrite !list.Forall_app.
Qed.

(** one end per stream.  Whatever chunks arrive, the events of the whole
    stream contain exactly one closing group: the finished calls, assembled
    from the fragments before the first finish reason, followed by the [Finish]
    event with that reason ([Other("stream-ended")] if none came), the calls
    confirmed exactly when the reason is [tool_calls].  Before and after it
    there are only deltas and usage: no call is reported twice or after the
    end. *)
Theorem fuser_closes_once cs :
  let '(ds, reason) := until_finish (concat (map ck_choices cs)) in
  exists pre post,
    fuser_run cs
    = pre ++ map event_of_call (finish_confirmed (fold_left acc_apply ds [])
                                  (bool_decide (reason = Some (lit "tool_calls"))))
      ++ [Finish (match reason with Some r => finish_reason_parse r
                               | None => FOther (lit "stream-ended") end)] ++ post
    /\ Forall quiet_event pre /\ Forall quiet_event post.
Proof.
  unfold fuser_run, fuser_new. destruct (fuser_applies (mk_fuser [] false) cs) as [out f] eqn:E.
  apply chunks_fused in E. unfold fused in E.
  destruct (until_finish (concat (map ck_choices cs))) as [ds [r|]].
  - destruct E as (pre & post & -> & H1 & H2 & H3). exists pre, post.
    unfold fuser_finish, flush. rewrite H3. cbn [fst]. rewrite app_nil_r. unfold closing, flush.
    cbn [fu_finished fst fu_acc]. rewrite <- app_assoc. by split_and!.
  - destruct E as [H1 ->]. exists out, []. split_and!; [|done|done]. by rewrite app_nil_r.
Qed.

End Stream.

(** ** Concrete streams *)

#[export] Instance payload_ok_dec p : Decision (payload_ok p).
Proof. unfold payload_ok, is_char. apply _. Defined.

Module Sample.
Definition parse (p : str) : str + ChatCompletionChunk := inr (mk_chunk p [] [] None).
(** Texts that end with a brace are JSON. *)
Definition error (s : str) : option str :=
  if bool_decide (list.last s = Some 125) then None else Some (lit "EOF").

Definition ps : list str := [lit "{a}"; [123; 8364; 125]].
Definition body : list Z := events_text ps ++ sse_event (lit "[DONE]").
(** The body byte by byte. *)
Definition bytewise : list (list Z) := map (fun b => [b]) body.

Definition frag (i : Z) (id : option str) (args : str) : ToolCallDelta :=
  mk_tool_call_delta i id (Some (mk_function_delta (Some (lit "Read")) (Some args))).
Definition deltas : list ToolCallDelta :=
  [frag 0 (Some (lit "a")) (lit "{x"); frag 1 None (lit "{y"); frag 0 (Some (lit "b")) (lit "}")].

(** The second call is cut: unconfirmed it fails, confirmed it is repaired. *)
Example unconfirmed_calls :
  finish_confirmed error (fold_left acc_apply deltas []) false
  = [FinalOk (lit "a") (lit "Read") (lit "{x}");
     FinalParseError 1 (Some (lit "call_1")) (Some (lit "Read")) (lit "{y")
       (lit "arguments incomplete (stream ended before tool_calls finish_reason)")].
Proof. vm_compute. reflexivity. Qed.
Example confirmed_calls :
  finish_confirmed error (fold_left acc_apply deltas []) true
  = [FinalOk (lit "a") (lit "Read") (lit "{x}"); FinalOk (lit "call_1") (lit "Read") (lit "{y}")].
Proof. vm_compute. reflexivity. Qed.
(** Commas inside strings stay, trailing commas go, brackets are closed. *)
Example repair_run : repair (lit "[1, {a:[2,], b: [3 ,") = lit "[1, {a:[2], b: [3 ]}]".
Proof. vm_compute. reflexivity. Qed.
End Sample.

Lemma sse_split_invariant_witness :
  sse_run Sample.parse Sample.bytewise = sse_run Sample.parse [Sample.body].
Proof. apply (sse_split_invariant Sample.parse). vm_compute. reflexivity. Defined.

Lemma sse_payloads_witness :
  sse_run Sample.parse Sample.bytewise = (map (result_of Sample.parse) Sample.ps, true).
Proof.
  apply (sse_payloads Sample.parse Sample.ps Sample.bytewise).
  - by_decide.
  - vm_compute. reflexivity.
Defined.

Lemma tool_calls_reassembled_witness :
  pt_args (assembled (mine 0 Sample.deltas)) = lit "{x}"
  /\ Sample.error (lit "{x}") = None.
Proof.
  pose proof (proj2 (tool_calls_reassembled Sample.error Sample.deltas false) 0%nat
    (FinalOk (lit "a") (lit "Read") (lit "{x}"))) as H.
  rewrite Sample.unconfirmed_calls in H. destruct (H eq_refl) as (_ & _ & E & _).
  split; [vm_compute; reflexivity|exact E].
Defined.
