(* ===== verification/DlrCodec.v ===== *)
(** The DLR wire and block formats
    (src/integrations/dlr/crates/core/src/{block,canonical,merkle,session,frame}.rs).

    A byte buffer is the list of its bytes; BLAKE3 is a parameter.  A decoder
    takes the unread window [r] and returns the value with the new window.  The
    zero-copy slices of the code are taken at the window's own offset, so they
    are prefixes of the window. *)

From S2P Require Import Prelude.

(** ** Blocks *)

Abbreviation bytes := (list Z) (only parsing).
Abbreviation BlockId := (list Z) (only parsing).
Abbreviation MerkleRoot := (list Z) (only parsing).

Inductive BlockKind := Message | ToolCall | ToolResult | System | Summary.

#[export] Instance block_kind_eq_dec : EqDecision BlockKind.
Proof. solve_decision. Defined.

Definition kind_to_byte (k : BlockKind) : Z :=
  match k with Message => 1 | ToolCall => 2 | ToolResult => 3 | System => 4 | Summary => 5 end.

Definition kind_from_byte (b : Z) : option BlockKind :=
  if b =? 1 then Some Message else if b =? 2 then Some ToolCall
  else if b =? 3 then Some ToolResult else if b =? 4 then Some System
  else if b =? 5 then Some Summary else None.

Record Block := mk_block { b_kind : BlockKind; b_seq : Z; b_payload : bytes }.

#[export] Instance block_eq_dec : EqDecision Block.
Proof. solve_decision. Defined.

(** The values a Rust [Block] can hold, with a payload the decoders accept. *)
Definition MAX_BLOCK_PAYLOAD_BYTES : Z := 2 ^ 30.
Definition block_ok (b : Block) : Prop :=
  in_u 64 (b_seq b) /\ bytes_ok (b_payload b) /\ length_z (b_payload b) <= MAX_BLOCK_PAYLOAD_BYTES.
(** A 32-byte array. *)
Definition id_ok (i : BlockId) : Prop := length i = 32%nat /\ bytes_ok i.

#[export] Instance block_ok_dec b : Decision (block_ok b).
Proof. unfold block_ok, bytes_ok. apply _. Defined.
#[export] Instance id_ok_dec i : Decision (id_ok i).
Proof. unfold id_ok, bytes_ok. apply _. Defined.

(** ** Canonical encoding *)

Definition canonical_bytes (b : Block) : bytes :=
  kind_to_byte (b_kind b) :: le_bytes 8 (b_seq b)
  ++ le_bytes 8 (wrap 64 (length_z (b_payload b))) ++ b_payload b.

Inductive CanonError := TooShort | UnknownBlockKind | ExceedsMaximum | PayloadTruncated.

(** [a..b] of a byte slice. *)
Definition slice (l : bytes) (a b : nat) : bytes := take (b - a) (drop a l).

Definition from_canonical (buf : bytes) : res CanonError Block :=
  if (length buf <? 17)%nat then Err TooShort
  else
    let? kind := res_of_option (kind_from_byte (hd 0 buf)) UnknownBlockKind in
    let seq := le_val (slice buf 1 9) in
    let len := le_val (slice buf 9 17) in
    if MAX_BLOCK_PAYLOAD_BYTES <? len then Err ExceedsMaximum
    else if length_z buf <? 17 + len then Err PayloadTruncated
    else Ok (mk_block kind seq (slice buf 17 (17 + Z.to_nat len))).

(** ** Sessions to shards *)

Definition PHI : Z := 0x9E3779B97F4A7C15.

(** [usize::is_power_of_two] and, for a power of two, [trailing_zeros]. *)
Definition is_power_of_two (n : Z) : bool := (0 <? n) && (n =? 2 ^ Z.log2 n).

(** [SessionId::shard]; [n = 0] fails the assertion, or the remainder. *)
Definition shard (sid n : Z) : res Empty_set Z :=
  if n =? 0 then Panic
  else if n =? 1 then Ok 0
  else
    let lo := Z.land sid 0xFFFFFFFFFFFFFFFF in
    let prod := wrap 64 (lo * PHI) in
    if is_power_of_two n then Ok (Z.shiftr prod (64 - Z.log2 n))
    else Ok (prod mod n).

(** ** Frames *)

Inductive FrameError :=
| Truncated
| UnknownTag (t : Z)
| UnknownKind (k : Z)
| TooLarge (n : Z)
| MissingRef.

Inductive FrameBlock :=
| Inline (b : Block)
| Ref (id : BlockId).

Record AppendFrame := mk_append { a_session : Z; a_base : MerkleRoot; a_blocks : list FrameBlock }.
Record ResyncFrame := mk_resync { r_session : Z; r_root : MerkleRoot; r_manifest : list BlockId }.
Record BulkFrame := mk_bulk {
  k_session : Z; k_generation : Z; k_k : Z; k_symbol_size : Z; k_symbols : list bytes }.
Record AckFrame := mk_ack { ack_session : Z; ack_root : MerkleRoot }.
Record MissingFrame := mk_missing { m_session : Z; m_missing : list BlockId }.

Inductive Frame :=
| FAppend (a : AppendFrame)
| FResync (r : ResyncFrame)
| FBulk (b : BulkFrame)
| FAck (a : AckFrame)
| FMissing (m : MissingFrame).

Definition TAG_APPEND : Z := 1.
Definition TAG_RESYNC : Z := 2.
Definition TAG_BULK : Z := 3.
Definition TAG_ACK : Z := 4.
Definition TAG_MISSING : Z := 5.
Definition REF_BIT : Z := 0x80.
Definition MAX_INLINE_PAYLOAD_BYTES : Z := 2 ^ 30.
Definition MAX_FRAME_COUNT : Z := 2 ^ 24.

(** [put_u128], [put_u32_le] (after an [as u32] cast). *)
Definition put_u128 (v : Z) : bytes := le_bytes 16 v.
Definition put_u32_le (v : Z) : bytes := le_bytes 4 (wrap 32 v).

Definition encode_frame_block (fb : FrameBlock) : bytes :=
  match fb with
  | Inline b =>
      put_u32_le (1 + 8 + 8 + length_z (b_payload b))
      ++ [Z.land (kind_to_byte (b_kind b)) (255 - REF_BIT)]
      ++ le_bytes 8 (b_seq b)
      ++ le_bytes 8 (wrap 64 (length_z (b_payload b))) ++ b_payload b
  | Ref id => put_u32_le 33 ++ [REF_BIT] ++ id
  end.

Definition encode_symbol (s : bytes) : bytes := put_u32_le (length_z s) ++ s.

Definition encode_frame (f : Frame) : bytes :=
  match f with
  | FAppend a =>
      [TAG_APPEND] ++ put_u128 (a_session a) ++ a_base a
      ++ put_u32_le (length_z (a_blocks a)) ++ concat (map encode_frame_block (a_blocks a))
  | FResync r =>
      [TAG_RESYNC] ++ put_u128 (r_session r) ++ r_root r
      ++ put_u32_le (length_z (r_manifest r)) ++ concat (r_manifest r)
  | FBulk b =>
      [TAG_BULK] ++ put_u128 (k_session b) ++ put_u32_le (k_generation b) ++ put_u32_le (k_k b)
      ++ put_u32_le (k_symbol_size b) ++ put_u32_le (length_z (k_symbols b))
      ++ concat (map encode_symbol (k_symbols b))
  | FAck a => [TAG_ACK] ++ put_u128 (ack_session a) ++ ack_root a
  | FMissing m =>
      [TAG_MISSING] ++ put_u128 (m_session m)
      ++ put_u32_le (length_z (m_missing m)) ++ concat (m_missing m)
  end.

(** A reader over the unread window. *)
Definition reader (A : Type) : Type := bytes -> res FrameError (A * bytes).

(** The first [n] bytes of the window, as the readers check and take them. *)
Definition take_exact (n : nat) : reader bytes := fun r =>
  if (length r <? n)%nat then Err Truncated else Ok (take n r, drop n r).

Definition take_u32 : reader Z := fun r =>
  let? (v, r) := take_exact 4 r in Ok (le_val v, r).
Definition take_u128 : reader Z := fun r =>
  let? (v, r) := take_exact 16 r in Ok (le_val v, r).
Definition take_block_id : reader BlockId := take_exact 32.
Definition take_root : reader MerkleRoot := take_block_id.

Definition take_count : reader Z := fun r =>
  let? (n, r) := take_u32 r in
  if MAX_FRAME_COUNT <? n then Err (TooLarge n) else Ok (n, r).

(** [for _ in 0..n { out.push(p(&mut r)?) }]. *)
Fixpoint take_many {A} (p : reader A) (n : nat) : reader (list A) := fun r =>
  match n with
  | O => Ok ([], r)
  | S n' => let? (x, r) := p r in let? (l, r) := take_many p n' r in Ok (x :: l, r)
  end.

(** The body of the symbol loop of [TAG_BULK]. *)
Definition take_symbol : reader bytes := fun r =>
  let? (len, r) := take_u32 r in
  if MAX_INLINE_PAYLOAD_BYTES <? len then Err (TooLarge len)
  else if length_z r <? len then Err Truncated
  else Ok (take (Z.to_nat len) r, drop (Z.to_nat len) r).

(** [decode_frame_block]: [r[0]] panics on an empty window. *)
Definition decode_frame_block : reader FrameBlock := fun r =>
  let? (len, r) := take_u32 r in
  if length_z r <? len then Err Truncated
  else match r with
  | [] => Panic
  | marker :: _ =>
      if negb (Z.land marker REF_BIT =? 0) then
        if negb (len =? 33) then Err Truncated
        else Ok (Ref (slice r 1 33), drop (Z.to_nat len) r)
      else
        let? kind := res_of_option (kind_from_byte (Z.land marker (255 - REF_BIT)))
                       (UnknownKind marker) in
        if len <? 1 + 16 then Err Truncated
        else
          let seq := le_val (slice r 1 9) in
          let plen := le_val (slice r 9 17) in
          if MAX_INLINE_PAYLOAD_BYTES <? plen then Err (TooLarge plen)
          else if len <? 1 + 16 + plen then Err Truncated
          else Ok (Inline (mk_block kind seq (slice r 17 (17 + Z.to_nat plen))),
                   drop (17 + Z.to_nat plen) r)
  end.

Definition decode_body (tag : Z) (r : bytes) : res FrameError Frame :=
  if tag =? TAG_APPEND then
    let? (sid, r) := take_u128 r in
    let? (base, r) := take_root r in
    let? (n, r) := take_count r in
    let? (blocks, r) := take_many decode_frame_block (Z.to_nat n) r in
    Ok (FAppend (mk_append sid base blocks))
  else if tag =? TAG_RESYNC then
    let? (sid, r) := take_u128 r in
    let? (root, r) := take_root r in
    let? (n, r) := take_count r in
    let? (manifest, r) := take_many take_block_id (Z.to_nat n) r in
    Ok (FResync (mk_resync sid root manifest))
  else if tag =? TAG_BULK then
    let? (sid, r) := take_u128 r in
    let? (generation, r) := take_u32 r in
    let? (k, r) := take_u32 r in
    let? (symbol_size, r) := take_u32 r in
    let? (n, r) := take_count r in
    let? (symbols, r) := take_many take_symbol (Z.to_nat n) r in
    Ok (FBulk (mk_bulk sid generation k symbol_size symbols))
  else if tag =? TAG_ACK then
    let? (sid, r) := take_u128 r in
    let? (root, r) := take_root r in
    Ok (FAck (mk_ack sid root))
  else if tag =? TAG_MISSING then
    let? (sid, r) := take_u128 r in
    let? (n, r) := take_count r in
    let? (missing, r) := take_many take_block_id (Z.to_nat n) r in
    Ok (FMissing (mk_missing sid missing))
  else Err (UnknownTag tag).

(** [decode_frame] and [decode_frame_bytes]. *)
Definition decode_frame (buf : bytes) : res FrameError Frame :=
  match buf with
  | [] => Err Truncated
  | tag :: body => decode_body tag body
  end.

(** The frames whose fields fit the format. *)
Definition frame_block_ok (fb : FrameBlock) : Prop :=
  match fb with Inline b => block_ok b | Ref id => id_ok id end.
Definition symbol_ok (s : bytes) : Prop := bytes_ok s /\ length_z s <= MAX_INLINE_PAYLOAD_BYTES.
Definition count_ok {A} (l : list A) : Prop := length_z l <= MAX_FRAME_COUNT.

Definition frame_ok (f : Frame) : Prop :=
  match f with
  | FAppend a => in_u 128 (a_session a) /\ id_ok (a_base a) /\ count_ok (a_blocks a)
                 /\ Forall frame_block_ok (a_blocks a)
  | FResync r => in_u 128 (r_session r) /\ id_ok (r_root r) /\ count_ok (r_manifest r)
                 /\ Forall id_ok (r_manifest r)
  | FBulk b => in_u 128 (k_session b) /\ in_u 32 (k_generation b) /\ in_u 32 (k_k b)
               /\ in_u 32 (k_symbol_size b) /\ count_ok (k_symbols b)
               /\ Forall symbol_ok (k_symbols b)
  | FAck a => in_u 128 (ack_session a) /\ id_ok (ack_root a)
  | FMissing m => in_u 128 (m_session m) /\ count_ok (m_missing m) /\ Forall id_ok (m_missing m)
  end.

#[export] Instance frame_block_ok_dec fb : Decision (frame_block_ok fb).
Proof. destruct fb; simpl; apply _. Defined.
#[export] Instance frame_ok_dec f : Decision (frame_ok f).
Proof. destruct f; unfold frame_ok, count_ok, symbol_ok, bytes_ok; apply _. Defined.

(** ** Content addresses and the Merkle root *)

Definition ROOT_ZERO : MerkleRoot := repeat 0 32.

Section Hash.
(** BLAKE3 of a byte string. *)
Variable blake3 : bytes -> bytes.

(** [Block::block_id]: the header and the payload go to the hasher as one
    stream. *)
Definition block_id (b : Block) : BlockId := blake3 (canonical_bytes b).

Definition canonical_bytes_and_id (b : Block) : bytes * BlockId :=
  let hdr := kind_to_byte (b_kind b) :: le_bytes 8 (b_seq b)
             ++ le_bytes 8 (wrap 64 (length_z (b_payload b))) in
  (hdr ++ b_payload b, blake3 (hdr ++ b_payload b)).

(** [from_canonical_owned]: the id is hashed over the bytes the block spans. *)
Definition from_canonical_owned (canon : bytes) : res CanonError (Block * BlockId) :=
  if (length canon <? 17)%nat then Err TooShort
  else
    let? kind := res_of_option (kind_from_byte (hd 0 canon)) UnknownBlockKind in
    let seq := le_val (slice canon 1 9) in
    let len := le_val (slice canon 9 17) in
    if MAX_BLOCK_PAYLOAD_BYTES <? len then Err ExceedsMaximum
    else if length_z canon <? 17 + len then Err PayloadTruncated
    else
      let e := (17 + Z.to_nat len)%nat in
      Ok (mk_block kind seq (slice canon 17 e), blake3 (slice canon 0 17 ++ slice canon 17 e)).

Definition append_root (prev : MerkleRoot) (id : BlockId) : MerkleRoot := blake3 (prev ++ id).

Fixpoint root_over (start : MerkleRoot) (ids : list BlockId) : MerkleRoot :=
  match ids with
  | [] => start
  | id :: ids' => root_over (append_root start id) ids'
  end.

End Hash.

(** ** Slices and readers *)

Lemma slice_mid (a b c : bytes) n m :
  length a = n -> length b = m -> slice (a ++ b ++ c) n (n + m) = b.
Proof.
  intros <- <-. unfold slice. rewrite drop_app_length.
  replace (length a + length b - length a)%nat with (length b) by lia. apply take_app_length.
Qed.

Lemma slice_head (a b : bytes) n : length a = n -> slice (a ++ b) 0 n = a.
Proof. intros <-. unfold slice. rewrite Nat.sub_0_r. apply take_app_length. Qed.

Lemma length_z_app {A} (a b : list A) : length_z (a ++ b) = length_z a + length_z b.
Proof. unfold length_z. rewrite length_app. lia. Qed.

Lemma length_z_nonneg {A} (l : list A) : 0 <= length_z l.
Proof. unfold length_z. lia. Qed.

Lemma length_z_cons {A} (x : A) l : length_z (x :: l) = 1 + length_z l.
Proof. unfold length_z. simpl. lia. Qed.

Lemma length_z_le_bytes n v : length_z (le_bytes n v) = Z.of_nat n.
Proof. unfold length_z. by rewrite length_le_bytes. Qed.

Lemma length_z_nil {A} : length_z (@nil A) = 0.
Proof. done. Qed.

#[local] Hint Rewrite @length_z_app @length_z_cons @length_z_nil length_z_le_bytes : lenz.

Lemma take_exact_app n a r : length a = n -> take_exact n (a ++ r) = Ok (a, r).
Proof.
  intros <-. unfold take_exact. rewrite length_app.
  destruct (Nat.ltb_spec (length a + length r) (length a)); [lia|].
  by rewrite take_app_length, drop_app_length.
Qed.

(** The readers answer [Ok] or [Truncated] on a short window, never a panic. *)
Lemma take_exact_no_panic n r : take_exact n r <> Panic.
Proof. unfold take_exact. by destruct (length r <? n)%nat. Qed.

Lemma take_u32_app v r : in_u 32 v -> take_u32 (put_u32_le v ++ r) = Ok (v, r).
Proof.
  intros H. unfold take_u32, put_u32_le. rewrite take_exact_app by apply length_le_bytes.
  cbn [res_bind]. rewrite wrap_small by done. rewrite le_val_bytes; [done|exact H].
Qed.

Lemma take_u128_app v r : in_u 128 v -> take_u128 (put_u128 v ++ r) = Ok (v, r).
Proof.
  intros H. unfold take_u128, put_u128. rewrite take_exact_app by apply length_le_bytes.
  cbn [res_bind]. rewrite le_val_bytes; [done|exact H].
Qed.

Lemma take_block_id_app i r : id_ok i -> take_block_id (i ++ r) = Ok (i, r).
Proof. intros [H _]. by apply take_exact_app. Qed.

Lemma count_u32 {A} (l : list A) : count_ok l -> in_u 32 (length_z l).
Proof. unfold count_ok, in_u, MAX_FRAME_COUNT, length_z. lia. Qed.

Lemma take_count_app {A} (l : list A) r :
  count_ok l -> take_count (put_u32_le (length_z l) ++ r) = Ok (length_z l, r).
Proof.
  intros H. unfold take_count. rewrite take_u32_app by by apply count_u32. cbn [res_bind].
  unfold count_ok in H. by destruct (Z.ltb_spec MAX_FRAME_COUNT (length_z l)); [lia|].
Qed.

(** A loop of readers reads back a concatenation of encodings. *)
Lemma take_many_app {A} (p : reader A) (enc : A -> bytes) (ok : A -> Prop) l r :
  (forall x r, ok x -> p (enc x ++ r) = Ok (x, r)) -> Forall ok l ->
  take_many p (length l) (concat (map enc l) ++ r) = Ok (l, r).
Proof.
  intros Hp Hl. induction Hl as [|x l Hx _ IH]; [done|].
  cbn [length take_many map concat]. rewrite <- app_assoc, Hp by done. cbn [res_bind].
  by rewrite IH.
Qed.

Lemma take_many_all {A} (p : reader A) (enc : A -> bytes) (ok : A -> Prop) l :
  (forall x r, ok x -> p (enc x ++ r) = Ok (x, r)) -> Forall ok l ->
  take_many p (Z.to_nat (length_z l)) (concat (map enc l)) = Ok (l, []).
Proof.
  intros Hp Hl. unfold length_z. rewrite Nat2Z.id.
  rewrite <- (app_nil_r (concat (map enc l))). by apply take_many_app with (ok := ok).
Qed.

Lemma payload_u64 b : block_ok b -> in_u 64 (length_z (b_payload b)).
Proof. unfold block_ok, in_u, MAX_BLOCK_PAYLOAD_BYTES, length_z. lia. Qed.

Lemma take_symbol_app s r : symbol_ok s -> take_symbol (encode_symbol s ++ r) = Ok (s, r).
Proof.
  intros [_ H]. unfold take_symbol, encode_symbol. rewrite <- app_assoc, take_u32_app.
  2: { unfold in_u, MAX_INLINE_PAYLOAD_BYTES, length_z in *. lia. }
  cbn [res_bind]. destruct (Z.ltb_spec MAX_INLINE_PAYLOAD_BYTES (length_z s)); [lia|].
  rewrite length_z_app. destruct (Z.ltb_spec (length_z s + length_z r) (length_z s)).
  { pose proof (length_z_nonneg r). lia. }
  unfold length_z. by rewrite Nat2Z.id, take_app_length, drop_app_length.
Qed.

Lemma kind_from_to k : kind_from_byte (kind_to_byte k) = Some k.
Proof. by destruct k. Qed.

(** The three fields of a block body, at their offsets. *)
Lemma body_fields k b rest (buf := k :: le_bytes 8 (b_seq b)
     ++ le_bytes 8 (wrap 64 (length_z (b_payload b))) ++ b_payload b ++ rest) :
  block_ok b ->
  le_val (slice buf 1 9) = b_seq b /\ le_val (slice buf 9 17) = length_z (b_payload b)
  /\ slice buf 17 (17 + Z.to_nat (length_z (b_payload b))) = b_payload b
  /\ drop (17 + Z.to_nat (length_z (b_payload b))) buf = rest.
Proof.
  intros Hb. pose proof (payload_u64 b Hb) as Hp. destruct Hb as (Hs & _ & _).
  assert (slice buf 1 9 = le_bytes 8 (b_seq b)) as ->.
  { apply (slice_mid [k] _ _ 1 8); [done|apply length_le_bytes]. }
  assert (slice buf 9 17 = le_bytes 8 (length_z (b_payload b))) as ->.
  { rewrite <- (wrap_small 64 (length_z _) Hp).
    apply (slice_mid (k :: le_bytes 8 (b_seq b)) _ _ 9 8); [|apply length_le_bytes].
    cbn [length]. by rewrite length_le_bytes. }
  rewrite !le_val_bytes by done.
  set (h := k :: le_bytes 8 (b_seq b) ++ le_bytes 8 (wrap 64 (length_z (b_payload b)))).
  assert (buf = h ++ b_payload b ++ rest) as ->.
  { unfold buf, h. cbn [app]. by rewrite <- !app_assoc. }
  assert (length h = 17%nat) as Hh.
  { unfold h. cbn [length]. by rewrite length_app, !length_le_bytes. }
  unfold length_z. rewrite Nat2Z.id. repeat split.
  - by apply slice_mid.
  - rewrite app_assoc. apply drop_app_length'. rewrite length_app. lia.
Qed.

(** ** Canonical round trip *)

(** The canonical buffer of a block, as one header and its payload. *)
Lemma canonical_app b rest :
  canonical_bytes b ++ rest
  = kind_to_byte (b_kind b) :: le_bytes 8 (b_seq b)
    ++ le_bytes 8 (wrap 64 (length_z (b_payload b))) ++ b_payload b ++ rest.
Proof. unfold canonical_bytes. cbn [app]. by rewrite <- !app_assoc. Qed.

Definition block_header (b : Block) : bytes :=
  kind_to_byte (b_kind b) :: le_bytes 8 (b_seq b) ++ le_bytes 8 (wrap 64 (length_z (b_payload b))).

Lemma length_header b : length (block_header b) = 17%nat.
Proof. unfold block_header. cbn [length]. by rewrite length_app, !length_le_bytes. Qed.

Lemma canonical_header b : canonical_bytes b = block_header b ++ b_payload b.
Proof. unfold canonical_bytes, block_header. cbn [app]. by rewrite <- !app_assoc. Qed.

Lemma length_canonical b : length_z (canonical_bytes b) = 17 + length_z (b_payload b).
Proof. unfold canonical_bytes. autorewrite with lenz. lia. Qed.

Lemma canonical_bytes_ok b : block_ok b -> bytes_ok (canonical_bytes b).
Proof.
  intros (_ & Hp & _). unfold canonical_bytes, bytes_ok.
  rewrite list.Forall_cons, !list.Forall_app. split_and!; try apply le_bytes_ok; [|done].
  by destruct (b_kind b).
Qed.

Lemma from_canonical_app b rest :
  block_ok b -> from_canonical (canonical_bytes b ++ rest) = Ok b.
Proof.
  intros Hb. pose proof (length_canonical b) as Hl. unfold length_z in Hl.
  unfold from_canonical. rewrite length_app.
  destruct (Nat.ltb_spec (length (canonical_bytes b) + length rest) 17); [lia|].
  rewrite length_z_app, length_canonical, canonical_app. cbn [hd].
  rewrite kind_from_to. cbn [res_of_option res_bind].
  destruct (body_fields (kind_to_byte (b_kind b)) b rest Hb) as (Hs & Hlen & Hpay & _).
  rewrite Hs, Hlen, Hpay. pose proof (length_z_nonneg rest). destruct Hb as (_ & _ & Hmax).
  destruct (Z.ltb_spec MAX_BLOCK_PAYLOAD_BYTES (length_z (b_payload b))); [lia|].
  case_test; [lia|]. by destruct b.
Qed.

(** [from_canonical_owned] parses what [from_canonical] parses. *)
Lemma from_canonical_owned_fst h buf :
  (let? (b, _) := from_canonical_owned h buf in Ok b) = from_canonical buf.
Proof.
  unfold from_canonical_owned, from_canonical.
  case_test; [done|]. destruct (kind_from_byte _); [|done]. cbn [res_of_option res_bind].
  by repeat case_test.
Qed.

Lemma from_canonical_owned_id h buf b i :
  from_canonical_owned h buf = Ok (b, i) -> i = h (slice buf 0 17 ++ b_payload b).
Proof.
  unfold from_canonical_owned. case_test; [done|].
  destruct (kind_from_byte _); [|done]. cbn [res_of_option res_bind].
  case_test; [done|]. case_test; [done|]. by intros [= <- <-].
Qed.

Lemma from_canonical_owned_app h b rest :
  block_ok b -> from_canonical_owned h (canonical_bytes b ++ rest) = Ok (b, block_id h b).
Proof.
  intros Hb. pose proof (from_canonical_owned_fst h (canonical_bytes b ++ rest)) as E.
  rewrite from_canonical_app in E by done.
  destruct (from_canonical_owned h _) as [[b' i]| |] eqn:F; [|done|done].
  injection E as ->. apply from_canonical_owned_id in F as ->.
  unfold block_id. rewrite canonical_header, <- app_assoc.
  by rewrite slice_head by apply length_header.
Qed.

(** canonical encoding and its inverse.  For a block the format can hold,
    [canonical_bytes] followed by any trailing bytes parses back to the block
    by [from_canonical] and, with the block's own content address, by the
    hashing parser [from_canonical_owned]; [canonical_bytes_and_id] returns the
    same buffer and the same address.  In particular two such blocks with the
    same canonical bytes are equal. *)
Theorem canonical_round_trip (h : bytes -> bytes) b rest :
  block_ok b ->
  from_canonical (canonical_bytes b ++ rest) = Ok b
  /\ from_canonical_owned h (canonical_bytes b ++ rest) = Ok (b, block_id h b)
  /\ canonical_bytes_and_id h b = (canonical_bytes b, block_id h b).
Proof.
  intros Hb. split_and!; [by apply from_canonical_app|by apply from_canonical_owned_app|].
  unfold canonical_bytes_and_id, block_id, canonical_bytes. cbn [app]. by rewrite <- !app_assoc.
Qed.

Lemma canonical_round_trip_witness :
  from_canonical (canonical_bytes (mk_block ToolCall 7 [1; 2; 3]) ++ [9])
  = Ok (mk_block ToolCall 7 [1; 2; 3]).
Proof.
  apply (canonical_round_trip (fun l => le_bytes 32 (le_val l)) (mk_block ToolCall 7 [1; 2; 3]) [9]).
  by_decide.
Defined.

(** ** Frame round trip *)

Lemma kind_marker k :
  Z.land (Z.land (kind_to_byte k) (255 - REF_BIT)) REF_BIT = 0
  /\ Z.land (Z.land (kind_to_byte k) (255 - REF_BIT)) (255 - REF_BIT) = kind_to_byte k
  /\ Z.land (kind_to_byte k) (255 - REF_BIT) = kind_to_byte k.
Proof. by destruct k. Qed.

Lemma decode_frame_block_app fb r :
  frame_block_ok fb -> decode_frame_block (encode_frame_block fb ++ r) = Ok (fb, r).
Proof.
  destruct fb as [b|id]; intros Hb; unfold decode_frame_block, encode_frame_block;
    rewrite <- ?app_assoc.
  - assert (0 <= length_z (b_payload b) <= 2 ^ 30) as Hp.
    { destruct Hb as (_ & _ & Hp). pose proof (length_z_nonneg (b_payload b)). done. }
    rewrite take_u32_app by (unfold in_u; lia). cbn [res_bind].
    autorewrite with lenz. pose proof (length_z_nonneg r). rewrite (proj2 (Z.ltb_ge _ _)) by lia.
    destruct (kind_marker (b_kind b)) as (E1 & E2 & E3). cbn [app]. rewrite E1. cbn [Z.eqb negb].
    rewrite E2, kind_from_to, E3. cbn [res_of_option res_bind].
    case_test; [lia|].
    destruct (body_fields (kind_to_byte (b_kind b)) b r Hb) as (Hs & Hlen & Hpay & Hrest).
    rewrite Hs, Hlen, Hpay, Hrest. unfold MAX_INLINE_PAYLOAD_BYTES.
    case_test; [lia|]. case_test; [lia|]. by destruct b.
  - destruct Hb as [Hl _]. rewrite take_u32_app by (unfold in_u; lia). cbn [res_bind].
    assert (length_z id = 32) as Hz by (unfold length_z; lia).
    autorewrite with lenz. rewrite Hz.
    pose proof (length_z_nonneg r). rewrite (proj2 (Z.ltb_ge _ _)) by lia.
    cbn [app]. change (negb (Z.land REF_BIT REF_BIT =? 0)) with true. cbn [negb Z.eqb].
    pose proof (slice_mid [REF_BIT] id r 1 32 eq_refl Hl) as S. cbn [app Nat.add] in S.
    cbn [Z.eqb Pos.eqb negb]. rewrite S.
    do 2 f_equal. change (Z.to_nat 33) with (1 + 32)%nat. cbn [Nat.add drop]. by apply drop_app_length'.
Qed.

Lemma concat_ids (l : list BlockId) : concat l = concat (map id l).
Proof. by rewrite map_id. Qed.

(** Read one field back. *)
#[local] Ltac read_field :=
  first [rewrite take_u128_app by assumption | rewrite take_u32_app by assumption
        | rewrite take_block_id_app by assumption | rewrite take_count_app by assumption];
  cbn [res_bind].

Lemma decode_encode_frame f : frame_ok f -> decode_frame (encode_frame f) = Ok f.
Proof.
  destruct f; unfold frame_ok; intros Hok; deex; unfold encode_frame; cbn [app decode_frame];
    unfold decode_body; cbn [Z.eqb Pos.eqb TAG_APPEND TAG_RESYNC TAG_BULK TAG_ACK TAG_MISSING];
    unfold take_root; repeat read_field.
  - rewrite (take_many_all _ _ frame_block_ok); [by destruct a|apply decode_frame_block_app|done].
  - rewrite concat_ids, (take_many_all _ id id_ok); [by destruct r|apply take_block_id_app|done].
  - rewrite (take_many_all _ _ symbol_ok); [by destruct b|apply take_symbol_app|done].
  - rewrite <- (app_nil_r (ack_root a)). read_field. by destruct a.
  - rewrite concat_ids, (take_many_all _ id id_ok); [by destruct m|apply take_block_id_app|done].
Qed.

(** every frame whose fields fit the wire format (a 128-bit session id,
    32-byte roots and ids, at most 2^24 entries, payloads of at most 1 GiB)
    decodes to itself after encoding: all integer fields are read back with the
    width and byte order they were written with, for each of the five frame
    kinds and for inline and reference entries alike. *)
Theorem frame_round_trip f : frame_ok f -> decode_frame (encode_frame f) = Ok f.
Proof. apply decode_encode_frame. Qed.

Lemma frame_round_trip_witness :
  decode_frame (encode_frame (FAppend (mk_append (2 ^ 127 + 5) (repeat 3 32)
    [Inline (mk_block Message 1 [104; 105]); Ref (repeat 255 32)])))
  = Ok (FAppend (mk_append (2 ^ 127 + 5) (repeat 3 32)
    [Inline (mk_block Message 1 [104; 105]); Ref (repeat 255 32)])).
Proof. apply frame_round_trip. by_decide. Defined.

(** ** Where the decoder panics *)

Lemma take_u32_zero r r' :
  bytes_ok r -> take_u32 r = Ok (0, r') -> r = [0; 0; 0; 0] ++ r'.
Proof.
  unfold take_u32, take_exact. intros Hr.
  destruct (Nat.ltb_spec (length r) 4) as [|Hl]; [done|]. cbn [res_bind]. intros [= H0 <-].
  rewrite <- (take_drop 4 r) at 1. f_equal.
  rewrite <- (le_bytes_val (take 4 r) 4).
  - by rewrite H0.
  - unfold bytes_ok. by apply Forall_take.
  - rewrite length_take. lia.
Qed.

Lemma take_u32_no_panic r : take_u32 r <> Panic.
Proof. apply res_bind_no_panic; [apply take_exact_no_panic|]. by intros [? ?]. Qed.

Lemma take_u32_nonneg r v r' : bytes_ok r -> take_u32 r = Ok (v, r') -> 0 <= v.
Proof.
  unfold take_u32. intros Hr. unfold take_exact.
  destruct (length r <? 4)%nat; [done|]. cbn [res_bind]. intros [= <- _].
  apply le_val_range. by apply Forall_take.
Qed.

(** A block entry panics exactly on a window that is a zero length and nothing
    more. *)
Lemma decode_frame_block_panic r :
  bytes_ok r -> (decode_frame_block r = Panic <-> r = [0; 0; 0; 0]).
Proof.
  intros Hr. split; [|by intros ->]. unfold decode_frame_block.
  destruct (take_u32 r) as [[len r']| |] eqn:E; [|done|by apply take_u32_no_panic in E].
  cbn [res_bind]. destruct (Z.ltb_spec (length_z r') len) as [|Hl]; [done|].
  destruct r' as [|m r'].
  - intros _. pose proof (take_u32_nonneg _ _ _ Hr E). rewrite length_z_nil in Hl.
    assert (len = 0) as -> by lia. by rewrite (take_u32_zero r [] Hr E).
  - destruct (negb _); [by destruct (negb _)|].
    destruct (kind_from_byte _); [|done]. cbn [res_of_option res_bind].
    by repeat case_test.
Qed.

(** Every reader leaves a suffix of the window it was given. *)
Definition suffixing {A} (p : reader A) : Prop :=
  forall r x r', p r = Ok (x, r') -> exists a, r = a ++ r'.

Lemma take_exact_suffix n : suffixing (take_exact n).
Proof.
  intros r x r'. unfold take_exact. case_test; [done|]. intros [= <- <-].
  exists (take n r). by rewrite take_drop.
Qed.

Lemma bind_suffix {A B} (p : reader A) (f : A -> bytes -> res FrameError (B * bytes)) :
  suffixing p -> (forall x, suffixing (f x)) ->
  suffixing (fun r => let? (x, r) := p r in f x r).
Proof.
  intros Hp Hf r y r'. destruct (p r) as [[x r1]| |] eqn:E; cbn [res_bind]; [|done|done].
  intros H. apply Hp in E as [a ->]. apply Hf in H as [b ->]. exists (a ++ b). by rewrite app_assoc.
Qed.

Lemma take_u32_suffix : suffixing take_u32.
Proof.
  apply (bind_suffix _ (fun v r => Ok (le_val v, r))); [apply take_exact_suffix|].
  intros x r v r' [= _ <-]. by exists [].
Qed.

Lemma decode_frame_block_suffix : suffixing decode_frame_block.
Proof.
  unfold decode_frame_block. apply bind_suffix; [apply take_u32_suffix|].
  intros len r x r'. case_test; [done|]. destruct r as [|m r]; [done|].
  assert (forall n, r' = drop n (m :: r) -> exists a, m :: r = a ++ r') as Hd.
  { intros n ->. exists (take n (m :: r)). by rewrite take_drop. }
  destruct (negb _); [destruct (negb _); [done|]; intros E; apply (Hd (Z.to_nat len)); congruence|].
  destruct (kind_from_byte _); [|done]. cbn [res_of_option res_bind].
  repeat (case_test; [done|]). intros E. apply (Hd (17 + Z.to_nat (le_val (slice (m :: r) 9 17)))%nat).
  congruence.
Qed.

Lemma take_many_no_panic {A} (p : reader A) n r :
  (forall r, p r <> Panic) -> take_many p n r <> Panic.
Proof.
  intros Hp. revert r. induction n as [|n IH]; intros r; [done|]. cbn [take_many].
  apply res_bind_no_panic; [apply Hp|]. intros [x r'] _.
  apply res_bind_no_panic; [apply IH|]. by intros [? ?].
Qed.

Lemma take_many_blocks_panic n r :
  bytes_ok r -> take_many decode_frame_block n r = Panic -> exists a, r = a ++ [0; 0; 0; 0].
Proof.
  revert r. induction n as [|n IH]; intros r Hr; [done|]. cbn [take_many].
  destruct (decode_frame_block r) as [[x r']| |] eqn:E; cbn [res_bind]; [|done|].
  - destruct (decode_frame_block_suffix _ _ _ E) as [a ->].
    apply list.Forall_app in Hr as [_ Hr].
    destruct (take_many decode_frame_block n r') as [[? ?]| |] eqn:F; [done|done|]. intros _.
    destruct (IH r' Hr F) as [b ->]. exists (a ++ b). by rewrite app_assoc.
  - intros _. apply decode_frame_block_panic in E as ->; [|done]. by exists [].
Qed.

Lemma take_count_no_panic r : take_count r <> Panic.
Proof.
  apply res_bind_no_panic; [apply take_u32_no_panic|]. intros [n r'] _. by case_test.
Qed.

Lemma take_count_suffix : suffixing take_count.
Proof.
  apply bind_suffix; [apply take_u32_suffix|]. intros n r x r'. case_test; [done|].
  intros [= _ <-]. by exists [].
Qed.

Lemma take_u128_no_panic r : take_u128 r <> Panic.
Proof. apply res_bind_no_panic; [apply take_exact_no_panic|]. by intros [? ?]. Qed.

Lemma take_u128_suffix : suffixing take_u128.
Proof.
  apply (bind_suffix _ (fun v r => Ok (le_val v, r))); [apply take_exact_suffix|].
  intros x r v r' [= _ <-]. by exists [].
Qed.

Lemma take_symbol_no_panic r : take_symbol r <> Panic.
Proof.
  apply res_bind_no_panic; [apply take_u32_no_panic|]. intros [n r'] _. by repeat case_test.
Qed.

#[local] Hint Resolve take_exact_no_panic take_u32_no_panic take_u128_no_panic
  take_count_no_panic take_symbol_no_panic : no_panic.

(** No panic in a sequence of readers that do not. *)
#[local] Ltac no_panic :=
  repeat (apply res_bind_no_panic;
          [first [solve [auto with no_panic]
                 | apply take_many_no_panic; auto with no_panic]
          |intros [? ?] _]);
  try done.

(** The header of an append frame with the claimed number of entries. *)
Definition append_header (sid : Z) (base : MerkleRoot) (n : Z) : bytes :=
  [TAG_APPEND] ++ put_u128 sid ++ base ++ put_u32_le n.

Lemma decode_body_append_panic r :
  bytes_ok r -> decode_body TAG_APPEND r = Panic -> exists p, r = p ++ [0; 0; 0; 0].
Proof.
  intros Hb. unfold decode_body. cbn [Z.eqb Pos.eqb TAG_APPEND].
  assert (forall a r', r = a ++ r' -> (exists p, r' = p ++ [0; 0; 0; 0]) ->
          exists p, r = p ++ [0; 0; 0; 0]) as Happ.
  { intros a r' -> [p ->]. exists (a ++ p). by rewrite app_assoc. }
  destruct (take_u128 r) as [[sid r1]| |] eqn:E1; cbn [res_bind]; [|done|].
  2: { by apply take_u128_no_panic in E1. }
  destruct (take_u128_suffix _ _ _ E1) as [a1 Ha1].
  unfold take_root, take_block_id.
  destruct (take_exact 32 r1) as [[base r2]| |] eqn:E2; cbn [res_bind]; [|done|].
  2: { by apply take_exact_no_panic in E2. }
  destruct (take_exact_suffix _ _ _ _ E2) as [a2 Ha2].
  destruct (take_count r2) as [[n r3]| |] eqn:E3; cbn [res_bind]; [|done|].
  2: { by apply take_count_no_panic in E3. }
  destruct (take_count_suffix _ _ _ E3) as [a3 Ha3].
  destruct (take_many _ _ r3) as [[? ?]| |] eqn:E4; [done|done|]. intros _.
  apply (Happ (a1 ++ a2 ++ a3) r3); [by rewrite Ha1, Ha2, Ha3, <- !app_assoc|].
  eapply take_many_blocks_panic; [|exact E4].
  rewrite Ha1, Ha2, Ha3 in Hb. unfold bytes_ok in *. rewrite !list.Forall_app in Hb. tauto.
Qed.

(** the decoder's only panic.  [decode_frame] answers every buffer of bytes
    with a frame or an error, except that an append frame may make it index an
    empty window: the panic happens only on a buffer with the append tag that
    ends in four zero bytes, and it does happen on every well-formed append
    frame whose count claims one more entry than it holds and whose last entry
    is a bare zero length. *)
Theorem decode_frame_panics :
  (forall buf, bytes_ok buf -> decode_frame buf = Panic ->
     exists p, buf = TAG_APPEND :: p ++ [0; 0; 0; 0])
  /\ (forall sid base l, in_u 128 sid -> id_ok base -> Forall frame_block_ok l ->
      length_z l < MAX_FRAME_COUNT ->
      decode_frame (append_header sid base (length_z l + 1)
                    ++ concat (map encode_frame_block l) ++ [0; 0; 0; 0]) = Panic).
Proof.
  split.
  - intros [|tag r] Hb; [done|]. unfold bytes_ok in Hb. apply list.Forall_cons in Hb as [_ Hb].
    cbn [decode_frame]. intros H. destruct (decide (tag = TAG_APPEND)) as [->|Hne].
    { destruct (decode_body_append_panic r Hb H) as [p ->]. by exists p. }
    exfalso. revert H. unfold decode_body. rewrite (proj2 (Z.eqb_neq _ _) Hne).
    unfold take_root, take_block_id.
    change (?a = Panic -> False) with (a <> Panic). repeat case_test; no_panic.
  - intros sid base l Hs Hbase Hl Hn. unfold append_header.
    rewrite <- !app_assoc. cbn [app decode_frame]. unfold decode_body.
    cbn [Z.eqb Pos.eqb TAG_APPEND]. rewrite take_u128_app by done. cbn [res_bind].
    unfold take_root. rewrite take_block_id_app by done. cbn [res_bind].
    pose proof (length_z_nonneg l).
    assert (in_u 32 (length_z l + 1)) as Hu by (unfold in_u, MAX_FRAME_COUNT in *; lia).
    unfold take_count. rewrite take_u32_app by done. cbn [res_bind].
    rewrite (proj2 (Z.ltb_ge _ _)) by lia. cbn [res_bind].
    unfold length_z. replace (Z.to_nat (Z.of_nat (length l) + 1)) with (length l + 1)%nat by lia.
    enough (take_many decode_frame_block (length l + 1)
              (concat (map encode_frame_block l) ++ [0; 0; 0; 0]) = Panic) as -> by done.
    clear Hn H Hu. induction Hl as [|x l Hx _ IH]; [done|].
    cbn [length Nat.add map concat take_many]. rewrite <- app_assoc.
    rewrite decode_frame_block_app by done. cbn [res_bind]. by rewrite IH.
Qed.

Lemma decode_frame_panics_witness :
  decode_frame (append_header 7 (repeat 1 32) 2
    ++ encode_frame_block (Inline (mk_block Message 1 [65])) ++ [0; 0; 0; 0]) = Panic.
Proof.
  apply (proj2 decode_frame_panics 7 (repeat 1 32) [Inline (mk_block Message 1 [65])]);
    by_decide.
Defined.

(** ** The root commits to the log *)

Lemma root_over_app h start a b :
  root_over h start (a ++ b) = root_over h (root_over h start a) b.
Proof. revert start. induction a as [|i a IH]; intros start; [done|]. apply IH. Qed.

Lemma root_over_snoc h start a i :
  root_over h start (a ++ [i]) = append_root h (root_over h start a) i.
Proof. by rewrite root_over_app. Qed.

Lemma length_root_over (h : bytes -> bytes) start ids :
  (forall x, length (h x) = 32%nat) -> length start = 32%nat ->
  length (root_over h start ids) = 32%nat.
Proof. intros Hh. revert start. induction ids as [|i ids IH]; intros start Hs; [done|]. apply IH, Hh. Qed.

(** the session root commits to the whole ordered log.  Two logs
    with the same root are the same log, unless they exhibit either
    a BLAKE3 collision (two different strings with one hash) or a string that
    hashes to [ROOT_ZERO]; BLAKE3 enters only through its output length. *)
Theorem root_commits (h : bytes -> bytes) (H32 : forall x, length (h x) = 32%nat) ids ids' :
  root_over h ROOT_ZERO ids = root_over h ROOT_ZERO ids' ->
  ids = ids' \/ (exists x y, x <> y /\ h x = h y) \/ (exists x, h x = ROOT_ZERO).
Proof.
  revert ids'. induction ids as [|i ids IH] using rev_ind; intros ids';
    destruct ids' as [|j ids' _] using rev_ind; [by left| | |]; rewrite ?root_over_snoc;
    unfold append_root; intros E.
  - right; right. eexists. symmetry. exact E.
  - right; right. eexists. exact E.
  - destruct (decide (root_over h ROOT_ZERO ids ++ i = root_over h ROOT_ZERO ids' ++ j)) as [Ej|Hne].
    + apply app_inj_1 in Ej as [Er Eq]; [|by rewrite !length_root_over by done].
      destruct (IH _ Er) as [->|H]; [left; congruence|by right].
    + right; left. by eexists _, _.
Qed.

Lemma root_commits_witness :
  root_over (fun x => le_bytes 32 (1 + le_val x)) ROOT_ZERO [repeat 1 32]
  = root_over (fun x => le_bytes 32 (1 + le_val x)) ROOT_ZERO [repeat 1 32]
  /\ ([repeat 1 32] = [repeat 1 32]
      \/ (exists x y, x <> y /\ le_bytes 32 (1 + le_val x) = le_bytes 32 (1 + le_val y))
      \/ (exists x, le_bytes 32 (1 + le_val x) = ROOT_ZERO)).
Proof.
  split; [reflexivity|].
  apply (root_commits (fun x => le_bytes 32 (1 + le_val x)) (fun x => length_le_bytes 32 _)
           [repeat 1 32] [repeat 1 32]).
  reflexivity.
Defined.

(** ** Shards *)

Lemma power_of_two_log n : is_power_of_two n = true -> n = 2 ^ Z.log2 n /\ 0 < n.
Proof. unfold is_power_of_two. rewrite andb_true_iff, Z.ltb_lt, Z.eqb_eq. tauto. Qed.

(** for every 128-bit session id and every non-zero 64-bit shard count,
    [shard] returns an index below the count; it depends only on the low 64
    bits of the id, and for a power of two it is the top [log2 n] bits of the
    64-bit golden-ratio product. *)
Theorem shard_bound sid n :
  0 < n < 2 ^ 64 ->
  exists s, shard sid n = Ok s /\ 0 <= s < n /\ shard (sid mod 2 ^ 64) n = Ok s
    /\ (is_power_of_two n = true -> s = ((sid mod 2 ^ 64) * PHI mod 2 ^ 64) / 2 ^ (64 - Z.log2 n)).
Proof.
  intros Hn. unfold shard. rewrite (proj2 (Z.eqb_neq n 0)) by lia.
  change 0xFFFFFFFFFFFFFFFF with (Z.ones 64). rewrite !Z.land_ones by lia.
  rewrite Z.mod_mod by lia. set (prod := wrap 64 _).
  assert (in_u 64 prod) as Hp by (apply wrap_range; lia). unfold in_u in Hp.
  destruct (Z.eqb_spec n 1) as [->|H1].
  - exists 0. split_and!; try done. intros _. change (Z.log2 1) with 0.
    rewrite Z.div_small; [done|exact Hp].
  - destruct (is_power_of_two n) eqn:E.
    + apply power_of_two_log in E as [E _].
      assert (0 < Z.log2 n <= 64) as Hl.
      { split; [apply Z.log2_pos; lia|].
        pose proof (Z.log2_lt_pow2 n 64 ltac:(lia)). lia. }
      exists (Z.shiftr prod (64 - Z.log2 n)). rewrite Z.shiftr_div_pow2 by lia.
      split_and!; try done; [apply Z.div_pos; lia|].
      apply Z.div_lt_upper_bound; [lia|]. rewrite E at 2. rewrite <- Z.pow_add_r by lia.
      replace (64 - Z.log2 n + Z.log2 n) with 64 by lia. lia.
    + exists (prod mod n). split_and!; try done; apply Z.mod_pos_bound; lia.
Qed.

Lemma shard_bound_witness :
  exists s, shard (2 ^ 100 + 12345) 16 = Ok s /\ 0 <= s < 16.
Proof.
  destruct (shard_bound (2 ^ 100 + 12345) 16) as (s & H & Hb & _); [lia|].
  exists s. split; assumption.
Defined.
