(* ===== verification/DlrStore.v ===== *)
(** The content-addressed store and its write-ahead log
    (src/integrations/dlr/crates/core/src/{store,wal}.rs).

    The sharded maps are finite maps: one operation at a time, as the
    receiver's mutation lock and the shard locks order them.  The log file is
    the list of the bytes written to it; the device accepts [wal_room] more
    bytes, so a write can fail half way.  BLAKE3 is a parameter. *)

From S2P Require Import Prelude DlrCodec.

(** ** State *)

Record StoreStats := mk_stats {
  blocks_stored : Z; bytes_stored : Z; blocks_deduped : Z; sessions_count : Z }.

Record SessionLog := mk_log { sl_ids : list BlockId; sl_root : MerkleRoot }.

(** [Wal]: what has been written, and how many bytes the device still takes. *)
Record Wal := mk_wal { wal_bytes : bytes; wal_room : Z }.

Inductive IoError := RecordTooLarge | SeedTooMany | DeviceFull.

Record ContentStore := mk_store {
  st_blocks : gmap BlockId Block;
  st_sessions : gmap Z SessionLog;
  st_stats : StoreStats;
  st_wal : option Wal;
  st_wal_error : option IoError
}.

Definition stats_zero : StoreStats := mk_stats 0 0 0 0.
Definition store_new : ContentStore := mk_store ∅ ∅ stats_zero None None.

(** ** Stats: relaxed 64-bit counters *)

Definition stat_stored (n : Z) (s : StoreStats) : StoreStats :=
  mk_stats (wrap 64 (blocks_stored s + 1)) (wrap 64 (bytes_stored s + n))
    (blocks_deduped s) (sessions_count s).
Definition stat_deduped (s : StoreStats) : StoreStats :=
  mk_stats (blocks_stored s) (bytes_stored s) (wrap 64 (blocks_deduped s + 1)) (sessions_count s).
Definition stat_session (s : StoreStats) : StoreStats :=
  mk_stats (blocks_stored s) (bytes_stored s) (blocks_deduped s) (wrap 64 (sessions_count s + 1)).

(** ** The log file *)

Definition VAR_INSERT : Z := 0.
Definition VAR_REFERENCE : Z := 1.
Definition VAR_SEED : Z := 2.
Definition VAR_CONTENT : Z := 3.
Definition HEADER : nat := 16 + 1 + 4.
Definition MAX_RECORD_BYTES : Z := 512 * 1024 * 1024.

(** [write_all]: on a full device a prefix is written and the call fails. *)
Definition write_all (w : Wal) (b : bytes) : Wal * res IoError unit :=
  if length_z b <=? wal_room w then
    (mk_wal (wal_bytes w ++ b) (wal_room w - length_z b), Ok ())
  else (mk_wal (wal_bytes w ++ take (Z.to_nat (wal_room w)) b) 0, Err DeviceFull).

(** Successive [write_all(..)?]. *)
Fixpoint write_each (w : Wal) (l : list bytes) : Wal * res IoError unit :=
  match l with
  | [] => (w, Ok ())
  | b :: l' => match write_all w b with
               | (w', Ok _) => write_each w' l'
               | (w', e) => (w', e)
               end
  end.

Definition record_len (len : Z) : res IoError Z :=
  if MAX_RECORD_BYTES <? len then Err RecordTooLarge
  else if umax 32 <? len then Err RecordTooLarge else Ok len.

Definition append_insert (w : Wal) (sid : Z) (canonical : bytes) : Wal * res IoError unit :=
  match record_len (length_z canonical) with
  | Ok len => write_each w [le_bytes 16 sid; [VAR_INSERT]; le_bytes 4 len; canonical]
  | Err e => (w, Err e)
  | Panic => (w, Panic)
  end.

Definition append_reference (w : Wal) (sid : Z) (id : BlockId) : Wal * res IoError unit :=
  write_each w [le_bytes 16 sid; [VAR_REFERENCE]; le_bytes 4 32; id].

(** [append_seed]; the [usize] length arithmetic overflows only past 2^64. *)
Definition append_seed (w : Wal) (sid : Z) (ids : list BlockId) (root : MerkleRoot)
  : Wal * res IoError unit :=
  let payload_len := length_z ids * 32 + 36 in
  if umax 64 <? payload_len then (w, Err SeedTooMany)
  else match record_len payload_len with
  | Ok len =>
      if umax 32 <? length_z ids then (w, Err SeedTooMany)
      else write_each w ([le_bytes 16 sid; [VAR_SEED]; le_bytes 4 len; le_bytes 4 (length_z ids)]
                         ++ ids ++ [root])
  | Err e => (w, Err e)
  | Panic => (w, Panic)
  end.

Definition append_content (w : Wal) (sid : Z) (canonical : bytes) : Wal * res IoError unit :=
  match record_len (length_z canonical) with
  | Ok len => write_each w [le_bytes 16 sid; [VAR_CONTENT]; le_bytes 4 len; canonical]
  | Err e => (w, Err e)
  | Panic => (w, Panic)
  end.

(** [latch_wal_error], [record_wal_result]: the first error stays. *)
Definition latch_wal_error (s : ContentStore) (e : IoError) : ContentStore :=
  match st_wal_error s with
  | None => mk_store (st_blocks s) (st_sessions s) (st_stats s) (st_wal s) (Some e)
  | Some _ => s
  end.

Definition set_wal (s : ContentStore) (w : Wal) : ContentStore :=
  match st_wal s with
  | None => mk_store (st_blocks s) (st_sessions s) (st_stats s) (Some w) (st_wal_error s)
  | Some _ => s
  end.

Definition record_wal_result (s : ContentStore) (r : Wal * res IoError unit) : ContentStore :=
  let '(w, r) := r in
  let s := mk_store (st_blocks s) (st_sessions s) (st_stats s) (Some w) (st_wal_error s) in
  match r with Err e => latch_wal_error s e | _ => s end.

(** [flush_wal]: a latched error is reported for ever; the flush itself and
    the [fsync] are the device's ([io]). *)
Definition flush_wal (s : ContentStore) (io : res IoError unit)
  : ContentStore * res IoError unit :=
  match st_wal_error s with
  | Some e => (s, Err e)
  | None => match st_wal s with
            | None => (s, Ok ())
            | Some _ => match io with
                        | Err e => (latch_wal_error s e, Err e)
                        | r => (s, r)
                        end
            end
  end.

Section Store.
Variable blake3 : bytes -> bytes.
#[local] Abbreviation append_root := (append_root blake3).
#[local] Abbreviation block_id := (block_id blake3).

(** ** Store operations *)

(** The [sessions] entry of [insert_with_canonical] and [reference]: append the
    id and advance the root; the flag tells a new session. *)
Definition push_id (m : gmap Z SessionLog) (sid : Z) (id : BlockId) : gmap Z SessionLog * bool :=
  match m !! sid with
  | Some log => (<[sid := mk_log (sl_ids log ++ [id]) (append_root (sl_root log) id)]> m, false)
  | None => (<[sid := mk_log [id] (append_root ROOT_ZERO id)]> m, true)
  end.

(** The [blocks] entry: store the block unless its id is taken. *)
Definition put_block (s : ContentStore) (block : Block) (id : BlockId) : ContentStore * bool :=
  match st_blocks s !! id with
  | Some _ => (mk_store (st_blocks s) (st_sessions s) (stat_deduped (st_stats s))
                 (st_wal s) (st_wal_error s), false)
  | None => (mk_store (<[id := block]> (st_blocks s)) (st_sessions s)
               (stat_stored (length_z (b_payload block)) (st_stats s))
               (st_wal s) (st_wal_error s), true)
  end.

Definition insert_with_canonical (s : ContentStore) (sid : Z) (block : Block) (id : BlockId)
    (canonical : option bytes) : ContentStore * bool :=
  let wal := st_wal s in
  let '(s, newly) := put_block s block id in
  let '(sessions, was_new) := push_id (st_sessions s) sid id in
  let stats := if was_new then stat_session (st_stats s) else st_stats s in
  let s := mk_store (st_blocks s) sessions stats (st_wal s) (st_wal_error s) in
  match wal with
  | None => (s, newly)
  | Some w =>
      if newly then
        (record_wal_result s
           (append_insert w sid (default (canonical_bytes block) canonical)), newly)
      else (record_wal_result s (append_reference w sid id), newly)
  end.

Definition insert_with_id (s : ContentStore) (sid : Z) (block : Block) (id : BlockId) :=
  insert_with_canonical s sid block id None.
Definition insert (s : ContentStore) (sid : Z) (block : Block) : ContentStore * bool :=
  insert_with_id s sid block (block_id block).

Definition reference (s : ContentStore) (sid : Z) (id : BlockId) : res unit ContentStore :=
  match st_blocks s !! id with
  | None => Err ()
  | Some _ =>
      let '(sessions, _) := push_id (st_sessions s) sid id in
      let s' := mk_store (st_blocks s) sessions (stat_deduped (st_stats s))
                  (st_wal s) (st_wal_error s) in
      match st_wal s with
      | None => Ok s'
      | Some w => Ok (record_wal_result s' (append_reference w sid id))
      end
  end.

Definition seed_session (s : ContentStore) (sid : Z) (ids : list BlockId) (root : MerkleRoot)
  : ContentStore :=
  let stats := match st_sessions s !! sid with
               | Some _ => st_stats s | None => stat_session (st_stats s) end in
  let s' := mk_store (st_blocks s) (<[sid := mk_log ids root]> (st_sessions s)) stats
              (st_wal s) (st_wal_error s) in
  match st_wal s with
  | None => s'
  | Some w => record_wal_result s' (append_seed w sid ids root)
  end.

Definition store_content_with_id (s : ContentStore) (sid : Z) (block : Block) (id : BlockId)
  : ContentStore * bool :=
  let wal := st_wal s in
  let '(s, newly) := put_block s block id in
  match wal with
  | Some w =>
      if newly then (record_wal_result s (append_content w sid (canonical_bytes block)), newly)
      else (s, newly)
  | None => (s, newly)
  end.

Definition store_content (s : ContentStore) (sid : Z) (block : Block) : ContentStore * bool :=
  store_content_with_id s sid block (block_id block).

(** ** Queries *)

Definition store_get (s : ContentStore) (id : BlockId) : option Block := st_blocks s !! id.
Definition store_contains (s : ContentStore) (id : BlockId) : bool :=
  bool_decide (is_Some (st_blocks s !! id)).
Definition session_root (s : ContentStore) (sid : Z) : MerkleRoot :=
  match st_sessions s !! sid with Some l => sl_root l | None => ROOT_ZERO end.
Definition session_ids (s : ContentStore) (sid : Z) : list BlockId :=
  match st_sessions s !! sid with Some l => sl_ids l | None => [] end.
Definition session_len (s : ContentStore) (sid : Z) : Z := length_z (session_ids s sid).

Definition reconstruct (s : ContentStore) (sid : Z) : list Block :=
  omap (fun id => st_blocks s !! id) (session_ids s sid).

(** [reconstruct_range]: the slice panics when [from > to] after clamping. *)
Definition reconstruct_range (s : ContentStore) (sid : Z) (from to : Z) : res unit (list Block) :=
  match st_sessions s !! sid with
  | None => Ok []
  | Some log =>
      let from := Z.min from (length_z (sl_ids log)) in
      let to := Z.min to (length_z (sl_ids log)) in
      if to <? from then Panic
      else Ok (omap (fun id => st_blocks s !! id)
                 (take (Z.to_nat (to - from)) (drop (Z.to_nat from) (sl_ids log))))
  end.

(** ** Replay *)

(** One record of the log applied to the store. *)
Definition replay_record (s : ContentStore) (sid variant : Z) (payload : bytes) : ContentStore :=
  if variant =? VAR_INSERT then
    match from_canonical payload with Ok b => fst (insert s sid b) | _ => s end
  else if variant =? VAR_REFERENCE then
    if (length payload =? 32)%nat then
      match reference s sid payload with Ok s' => s' | _ => s end
    else s
  else if variant =? VAR_SEED then
    if (length payload <? 4)%nat then s
    else
      let count := le_val (take 4 payload) in
      if count * 32 + 36 =? length_z payload then
        let ids := map (fun i => slice payload (4 + i * 32) (4 + i * 32 + 32))
                       (seq 0 (Z.to_nat count)) in
        let e := (4 + Z.to_nat count * 32)%nat in
        seed_session s sid ids (slice payload e (e + 32))
      else s
  else if variant =? VAR_CONTENT then
    match from_canonical payload with Ok b => fst (store_content s sid b) | _ => s end
  else s.

(** [replay]: the store and the length of the valid prefix.  [fuel] bounds the
    records read; every record takes [HEADER] bytes or more. *)
Fixpoint replay_loop (fuel : nat) (start : Z) (r : bytes) (s : ContentStore)
  : res IoError (ContentStore * Z) :=
  match fuel with
  | O => Ok (s, start)
  | S fuel' =>
      if (length r <? HEADER)%nat then Ok (s, start)
      else
        let sid := le_val (slice r 0 16) in
        let variant := hd 0 (drop 16 r) in
        let len := le_val (slice r 17 21) in
        if MAX_RECORD_BYTES <? len then Err RecordTooLarge
        else
          let r' := drop HEADER r in
          if length_z r' <? len then Ok (s, start)
          else
            let payload := take (Z.to_nat len) r' in
            replay_loop fuel' (start + Z.of_nat HEADER + len) (drop (Z.to_nat len) r')
              (replay_record s sid variant payload)
  end.

Definition replay (r : bytes) (s : ContentStore) : res IoError (ContentStore * Z) :=
  replay_loop (S (length r)) 0 r s.

(** [Wal::open] and [ContentStore::with_wal]: replay the file's bytes, cut the
    incomplete tail, append from there. *)
Definition with_wal (file : bytes) (room : Z) : res IoError ContentStore :=
  let? (s, valid_len) := replay file store_new in
  Ok (set_wal s (mk_wal (take (Z.to_nat valid_len) file) room)).

(** ** The log as records *)

(** A record of the log, and its bytes. *)
Inductive Rec :=
| RInsert (sid : Z) (b : Block)
| RReference (sid : Z) (id : BlockId)
| RSeed (sid : Z) (ids : list BlockId) (root : MerkleRoot)
| RContent (sid : Z) (b : Block).

Definition rec_sid (r : Rec) : Z :=
  match r with RInsert sid _ | RReference sid _ | RSeed sid _ _ | RContent sid _ => sid end.
Definition rec_variant (r : Rec) : Z :=
  match r with
  | RInsert _ _ => VAR_INSERT | RReference _ _ => VAR_REFERENCE
  | RSeed _ _ _ => VAR_SEED | RContent _ _ => VAR_CONTENT
  end.
Definition rec_payload (r : Rec) : bytes :=
  match r with
  | RInsert _ b | RContent _ b => canonical_bytes b
  | RReference _ id => id
  | RSeed _ ids root => le_bytes 4 (length_z ids) ++ concat ids ++ root
  end.
Definition rec_bytes (r : Rec) : bytes :=
  le_bytes 16 (rec_sid r) ++ [rec_variant r] ++ le_bytes 4 (length_z (rec_payload r))
  ++ rec_payload r.

Definition is_id (i : BlockId) : Prop := length i = 32%nat.

Definition rec_data_ok (r : Rec) : Prop :=
  match r with
  | RInsert _ b | RContent _ b => block_ok b
  | RReference _ id => is_id id
  | RSeed _ ids root => Forall is_id ids /\ is_id root
  end.

Definition rec_ok (r : Rec) : Prop :=
  in_u 128 (rec_sid r) /\ length_z (rec_payload r) <= MAX_RECORD_BYTES /\ rec_data_ok r.

(** What a record does to a store, as the operation it replays. *)
Definition apply_rec (s : ContentStore) (r : Rec) : ContentStore :=
  match r with
  | RInsert sid b => fst (insert s sid b)
  | RReference sid id => match reference s sid id with Ok s' => s' | _ => s end
  | RSeed sid ids root => seed_session s sid ids root
  | RContent sid b => fst (store_content s sid b)
  end.

Lemma length_concat_ids ids : Forall is_id ids -> length (concat ids) = (length ids * 32)%nat.
Proof. induction 1 as [|i ids Hi _ IH]; [done|]. simpl. rewrite length_app, IH, Hi. lia. Qed.

Lemma slice_ids ids pre post :
  Forall is_id ids ->
  map (fun i => slice (pre ++ concat ids ++ post) (length pre + i * 32) (length pre + i * 32 + 32))
    (seq 0 (length ids)) = ids.
Proof.
  intros H. revert pre. induction H as [|i ids Hi H IH]; intros pre; [done|].
  cbn [length seq map concat]. f_equal.
  - rewrite <- app_assoc, Nat.mul_0_l, Nat.add_0_r. by apply slice_mid.
  - rewrite <- seq_shift, map_map. etrans; [|apply (IH (pre ++ i))].
    apply map_ext. intros n. rewrite length_app, Hi, <- !app_assoc. f_equal; lia.
Qed.

(** Replaying the bytes of a record replays the record. *)
Lemma replay_record_rec s r :
  rec_ok r -> replay_record s (rec_sid r) (rec_variant r) (rec_payload r) = apply_rec s r.
Proof.
  intros (Hsid & Hlen & Hr). unfold replay_record.
  destruct r as [sid b|sid id|sid ids root|sid b]; cbn [rec_variant rec_payload rec_sid apply_rec].
  - cbn [Z.eqb VAR_INSERT]. rewrite <- (app_nil_r (canonical_bytes b)).
    by rewrite from_canonical_app.
  - cbn [Z.eqb VAR_INSERT VAR_REFERENCE]. rewrite Hr. reflexivity.
  - destruct Hr as [Hids Hroot]. cbn [rec_payload] in Hlen.
    change (VAR_SEED =? VAR_INSERT) with false. change (VAR_SEED =? VAR_REFERENCE) with false.
    change (VAR_SEED =? VAR_SEED) with true. cbv iota.
    set (pre := le_bytes 4 (length_z ids)) in *.
    assert (length pre = 4%nat) as Hpre by apply length_le_bytes.
    assert (length_z (pre ++ concat ids ++ root) = length_z ids * 32 + 36) as El.
    { unfold length_z. rewrite !length_app, length_concat_ids, Hroot, Hpre by done. lia. }
    rewrite El in Hlen |- *. unfold MAX_RECORD_BYTES in Hlen.
    pose proof (length_z_nonneg ids).
    rewrite (proj2 (Nat.ltb_ge _ _)) by (rewrite length_app, Hpre; lia).
    rewrite take_app_length' by done.
    assert (le_val pre = length_z ids) as -> by (apply le_val_bytes; simpl; lia).
    rewrite Z.eqb_refl. unfold length_z at 1 2 3. rewrite Nat2Z.id. f_equal.
    + rewrite <- Hpre. by apply slice_ids.
    + rewrite app_assoc. rewrite <- (app_nil_r root) at 1.
      apply slice_mid; [|done]. rewrite length_app, Hpre, length_concat_ids by done. lia.
  - change (VAR_CONTENT =? VAR_INSERT) with false. change (VAR_CONTENT =? VAR_REFERENCE) with false.
    change (VAR_CONTENT =? VAR_SEED) with false. change (VAR_CONTENT =? VAR_CONTENT) with true.
    cbv iota. rewrite <- (app_nil_r (canonical_bytes b)). by rewrite from_canonical_app.
Qed.

(** The header of a record, as the replay reads it. *)
Lemma rec_header r rest (buf := rec_bytes r ++ rest) :
  rec_ok r ->
  le_val (slice buf 0 16) = rec_sid r /\ hd 0 (drop 16 buf) = rec_variant r
  /\ le_val (slice buf 17 21) = length_z (rec_payload r)
  /\ drop HEADER buf = rec_payload r ++ rest.
Proof.
  intros (Hsid & Hlen & _). unfold MAX_RECORD_BYTES in Hlen.
  pose proof (length_z_nonneg (rec_payload r)).
  set (a := le_bytes 16 (rec_sid r)). set (l := le_bytes 4 (length_z (rec_payload r))).
  assert (length a = 16%nat) as Ha by apply length_le_bytes.
  assert (length l = 4%nat) as Hl by apply length_le_bytes.
  assert (buf = a ++ [rec_variant r] ++ l ++ rec_payload r ++ rest) as ->.
  { unfold buf, rec_bytes. by rewrite <- !app_assoc. }
  split_and!.
  - rewrite slice_head by done. by apply le_val_bytes.
  - by rewrite drop_app_length' by done.
  - rewrite app_assoc. rewrite (slice_mid (a ++ [rec_variant r]) l _ 17 4); [|by rewrite length_app, Ha|done].
    apply le_val_bytes. simpl. lia.
  - rewrite (app_assoc a), (app_assoc (a ++ _)). apply drop_app_length'.
    rewrite !length_app, Ha, Hl. done.
Qed.

Lemma length_rec r : length_z (rec_bytes r) = Z.of_nat HEADER + length_z (rec_payload r).
Proof.
  unfold rec_bytes. rewrite !length_z_app, !length_z_le_bytes. unfold HEADER.
  change (length_z [rec_variant r]) with 1. lia.
Qed.

(** ** Replay of a log, whole or cut *)

Definition log_bytes (rs : list Rec) : bytes := concat (map rec_bytes rs).
Definition apply_recs (s : ContentStore) (rs : list Rec) : ContentStore := fold_left apply_rec rs s.

Lemma log_bytes_app a b : log_bytes (a ++ b) = log_bytes a ++ log_bytes b.
Proof. unfold log_bytes. by rewrite map_app, concat_app. Qed.

Lemma replay_loop_step f start r rest s :
  rec_ok r ->
  replay_loop (S f) start (rec_bytes r ++ rest) s
  = replay_loop f (start + length_z (rec_bytes r)) rest (apply_rec s r).
Proof.
  intros Hr. cbn [replay_loop]. destruct (rec_header r rest Hr) as (E1 & E2 & E3 & E4).
  pose proof (length_rec r) as El. pose proof (length_z_nonneg (rec_payload r)) as Hp.
  pose proof (length_z_nonneg rest).
  rewrite (proj2 (Nat.ltb_ge _ _)).
  2: { rewrite length_app. unfold length_z in El. lia. }
  rewrite E1, E2, E3, E4, (proj2 (Z.ltb_ge _ _)) by apply Hr.
  rewrite length_z_app, (proj2 (Z.ltb_ge _ _)) by lia.
  rewrite El. unfold length_z at 2 3 4. rewrite Nat2Z.id, take_app_length, drop_app_length.
  rewrite replay_record_rec by done. f_equal. unfold length_z. lia.
Qed.

(** A cut record ends the replay where the record starts. *)
Lemma replay_loop_cut f start r n s :
  rec_ok r -> (n < length (rec_bytes r))%nat ->
  replay_loop (S f) start (take n (rec_bytes r)) s = Ok (s, start).
Proof.
  intros Hr Hn. cbn [replay_loop]. pose proof (length_rec r) as El. unfold length_z in El.
  rewrite length_take. destruct (Nat.ltb_spec (n `min` length (rec_bytes r)) HEADER) as [|Hh]; [done|].
  destruct (rec_header r [] Hr) as (_ & _ & E3 & E4). rewrite app_nil_r in E3, E4.
  assert (slice (take n (rec_bytes r)) 17 21 = slice (rec_bytes r) 17 21) as ->.
  { unfold slice. rewrite skipn_firstn_comm, take_take. f_equal. unfold HEADER in Hh. lia. }
  rewrite E3, (proj2 (Z.ltb_ge _ _)) by apply Hr.
  rewrite (proj2 (Z.ltb_lt _ _)); [done|].
  unfold length_z. rewrite length_drop, length_take. lia.
Qed.

Lemma replay_loop_log rs f start rest s :
  Forall rec_ok rs ->
  replay_loop (length rs + f) start (log_bytes rs ++ rest) s
  = replay_loop f (start + length_z (log_bytes rs)) rest (apply_recs s rs).
Proof.
  intros H. revert start s. induction H as [|r rs Hr _ IH]; intros start s.
  - cbn. by rewrite Z.add_0_r.
  - unfold log_bytes. cbn [length Nat.add map concat]. fold (log_bytes rs). rewrite <- app_assoc.
    rewrite replay_loop_step, IH by done. rewrite length_z_app, Z.add_assoc. done.
Qed.

Lemma length_log rs : (length rs <= length (log_bytes rs))%nat.
Proof.
  induction rs as [|r rs IH]; [done|]. unfold log_bytes in *. simpl. rewrite length_app.
  pose proof (length_rec r) as El. unfold length_z, HEADER in El. lia.
Qed.

Lemma length_log_take rs a b :
  (a <= b)%nat -> (length (log_bytes (take a rs)) <= length (log_bytes (take b rs)))%nat.
Proof.
  intros H. replace (take a rs) with (take a (take b rs)) by (rewrite take_take; f_equal; lia).
  rewrite <- (take_drop a (take b rs)) at 2. rewrite log_bytes_app, length_app. lia.
Qed.

(** A prefix of a log is some whole records and a strict prefix of the next. *)
Lemma log_prefix rs n :
  exists k tail, take n (log_bytes rs) = log_bytes (take k rs) ++ tail
    /\ ((n < length (log_bytes rs))%nat ->
        (k < length rs)%nat /\ (n < length (log_bytes (take (S k) rs)))%nat)
    /\ (tail = [] \/ exists r m, rs !! k = Some r /\ tail = take m (rec_bytes r)
                       /\ (m < length (rec_bytes r))%nat).
Proof.
  revert n. induction rs as [|r rs IH]; intros n.
  - exists 0%nat, []. split_and!; [by destruct n|simpl; lia|by left].
  - unfold log_bytes. cbn [map concat]. fold (log_bytes rs).
    destruct (decide (n < length (rec_bytes r))%nat) as [Hn|Hn].
    + exists 0%nat, (take n (rec_bytes r)). split_and!.
      { rewrite take_app_le by lia. done. }
      { intros _. cbn [take map concat length]. rewrite app_nil_r. lia. }
      right. by exists r, n.
    + destruct (IH (n - length (rec_bytes r))%nat) as (k & tail & E & Hk & Ht).
      exists (S k), tail. rewrite take_app_ge by lia. rewrite E. split_and!.
      * cbn [take map concat]. by rewrite <- app_assoc.
      * rewrite length_app. intros. cbn [length].
        change (take (S (S k)) (r :: rs)) with (r :: take (S k) rs). cbn [map concat].
        fold (log_bytes (take (S k) rs)). rewrite length_app.
        destruct Hk as [? ?]; [lia|]. split; lia.
      * destruct Ht as [->|(r' & m & ? & ? & ?)]; [by left|right; by exists r', m].
Qed.

Lemma replay_prefix rs n s :
  Forall rec_ok rs ->
  exists k, replay (take n (log_bytes rs)) s
            = Ok (apply_recs s (take k rs), length_z (log_bytes (take k rs)))
    /\ (k <= length rs)%nat /\ (length (log_bytes (take k rs)) <= n)%nat
    /\ (forall m, (m <= length rs)%nat -> (length (log_bytes (take m rs)) <= n)%nat -> (m <= k)%nat).
Proof.
  intros H. destruct (decide (length (log_bytes rs) <= n)%nat) as [Hn|Hn].
  - exists (length rs). rewrite take_ge by done. rewrite take_ge by lia.
    split_and!; try done. unfold replay.
    pose proof (length_log rs) as Hl. rewrite <- (app_nil_r (log_bytes rs)) at 2.
    replace (S (length (log_bytes rs)))
      with (length rs + S (length (log_bytes rs) - length rs))%nat by lia.
    rewrite replay_loop_log by done. reflexivity.
  - destruct (log_prefix rs n) as (k & tail & E & Hk & Ht). destruct (Hk ltac:(lia)) as [Hk' HSk].
    exists k. rewrite E. pose proof (f_equal length E) as El. rewrite length_take, length_app in El.
    split_and!; [|lia|lia|].
    2: { intros m _ Hlm. destruct (decide (m <= k)%nat) as [|Hmk]; [done|].
         pose proof (length_log_take rs (S k) m ltac:(lia)). lia. }
    unfold replay. set (l := log_bytes (take k rs)) in *.
    pose proof (length_log (take k rs)) as Hl. fold l in Hl.
    assert (Forall rec_ok (take k rs)) as Hok by by apply Forall_take.
    rewrite length_app.
    replace (S (length l + length tail))
      with (length (take k rs) + S (length l + length tail - length (take k rs)))%nat by lia.
    unfold l. rewrite replay_loop_log by done. rewrite Z.add_0_l.
    destruct Ht as [->|(r & m & Hr & -> & Hm)]; [reflexivity|].
    apply replay_loop_cut; [|done]. eapply (proj1 (list.Forall_lookup _ _) H); exact Hr.
Qed.

(** ** The log of a live store *)

(** What a restart must recover: the blocks and the session logs. *)
Definition view (s : ContentStore) : gmap BlockId Block * gmap Z SessionLog :=
  (st_blocks s, st_sessions s).

Definition view_put (v : gmap BlockId Block * gmap Z SessionLog) (b : Block) :=
  match v.1 !! block_id b with
  | Some _ => v | None => (<[block_id b := b]> v.1, v.2) end.
Definition view_push (v : gmap BlockId Block * gmap Z SessionLog) (sid : Z) (id : BlockId) :=
  (v.1, fst (push_id v.2 sid id)).

(** The effect of a record on the view. *)
Definition view_rec (v : gmap BlockId Block * gmap Z SessionLog) (r : Rec) :=
  match r with
  | RInsert sid b => view_push (view_put v b) sid (block_id b)
  | RReference sid id => match v.1 !! id with Some _ => view_push v sid id | None => v end
  | RSeed sid ids root => (v.1, <[sid := mk_log ids root]> v.2)
  | RContent sid b => view_put v b
  end.

Lemma view_record_wal_result s r : view (record_wal_result s r) = view s.
Proof.
  unfold record_wal_result, latch_wal_error. destruct r as [w [u|e|]]; try done. simpl.
  by destruct (st_wal_error s).
Qed.

Lemma view_put_block s b :
  view (fst (put_block s b (block_id b))) = view_put (view s) b
  /\ snd (put_block s b (block_id b)) = bool_decide (st_blocks s !! block_id b = None).
Proof. unfold put_block, view_put, view. simpl. by destruct (st_blocks s !! block_id b). Qed.

Lemma put_block_wal s b id :
  st_wal (fst (put_block s b id)) = st_wal s
  /\ st_wal_error (fst (put_block s b id)) = st_wal_error s.
Proof. unfold put_block. by destruct (st_blocks s !! id). Qed.

Lemma view_insert s sid b c :
  view (fst (insert_with_canonical s sid b (block_id b) c)) = view_rec (view s) (RInsert sid b).
Proof.
  unfold insert_with_canonical. destruct (view_put_block s b) as [E _].
  destruct (put_block s b (block_id b)) as [s1 newly] eqn:P. simpl in E. cbn [view_rec].
  rewrite <- E. unfold view_push.
  destruct (push_id (st_sessions s1) sid (block_id b)) as [m new] eqn:Q.
  destruct (st_wal s); [destruct newly|]; cbn [fst]; rewrite ?view_record_wal_result;
    unfold view; cbn [st_blocks st_sessions fst snd]; by rewrite Q.
Qed.

Lemma view_reference s sid id :
  match reference s sid id with
  | Ok s' => view s' = view_rec (view s) (RReference sid id) /\ is_Some (st_blocks s !! id)
  | Err _ => view_rec (view s) (RReference sid id) = view s /\ st_blocks s !! id = None
  | Panic => False
  end.
Proof.
  unfold reference, view_rec. change ((view s).1) with (st_blocks s).
  destruct (st_blocks s !! id); [|done]. unfold view_push.
  destruct (push_id (st_sessions s) sid id) as [m new] eqn:Q.
  destruct (st_wal s); (split; [|done]); rewrite ?view_record_wal_result; unfold view;
    cbn [st_blocks st_sessions fst snd]; by rewrite Q.
Qed.

Lemma view_seed s sid ids root :
  view (seed_session s sid ids root) = view_rec (view s) (RSeed sid ids root).
Proof. unfold seed_session. destruct (st_wal s); by rewrite ?view_record_wal_result. Qed.

Lemma view_content s sid b :
  view (fst (store_content s sid b)) = view_rec (view s) (RContent sid b).
Proof.
  unfold store_content, store_content_with_id. destruct (view_put_block s b) as [E _].
  destruct (put_block s b (block_id b)) as [s1 newly]. cbn [fst view_rec] in E |- *. rewrite <- E.
  destruct (st_wal s); [destruct newly|]; cbn [fst]; by rewrite ?view_record_wal_result.
Qed.

Lemma view_apply_rec s r : view (apply_rec s r) = view_rec (view s) r.
Proof.
  destruct r as [sid b|sid id|sid ids root|sid b]; cbn [apply_rec].
  - apply view_insert.
  - pose proof (view_reference s sid id) as H. destruct (reference s sid id); [apply H|symmetry; apply H|done].
  - apply view_seed.
  - apply view_content.
Qed.

Lemma view_apply_recs rs s : view (apply_recs s rs) = fold_left view_rec rs (view s).
Proof.
  unfold apply_recs. revert s. induction rs as [|r rs IH]; intros s; [done|]. cbn [fold_left].
  by rewrite IH, view_apply_rec.
Qed.

(** An operation of a live store, through the API. *)
Inductive Op :=
| OInsert (sid : Z) (b : Block)
| OReference (sid : Z) (id : BlockId)
| OSeed (sid : Z) (ids : list BlockId) (root : MerkleRoot)
| OContent (sid : Z) (b : Block).

Definition op_rec (o : Op) : Rec :=
  match o with
  | OInsert sid b => RInsert sid b | OReference sid id => RReference sid id
  | OSeed sid ids root => RSeed sid ids root | OContent sid b => RContent sid b
  end.
Definition run_op (s : ContentStore) (o : Op) : ContentStore := apply_rec s (op_rec o).
Definition run_ops (s : ContentStore) (os : list Op) : ContentStore := fold_left run_op os s.

Definition store_op_ok (o : Op) : Prop := in_u 128 (rec_sid (op_rec o)) /\ rec_data_ok (op_rec o).

(** The record the operation logs, in a store with view [v]. *)
Definition op_log (v : gmap BlockId Block * gmap Z SessionLog) (o : Op) : list Rec :=
  match o with
  | OInsert sid b =>
      match v.1 !! block_id b with
      | None => [RInsert sid b] | Some _ => [RReference sid (block_id b)] end
  | OReference sid id => match v.1 !! id with Some _ => [RReference sid id] | None => [] end
  | OSeed sid ids root => [RSeed sid ids root]
  | OContent sid b => match v.1 !! block_id b with None => [RContent sid b] | Some _ => [] end
  end.

(** The logged record has the operation's effect. *)
Lemma op_log_view v o : fold_left view_rec (op_log v o) v = view_rec v (op_rec o).
Proof.
  destruct o as [sid b|sid id|sid ids root|sid b]; cbn [op_log op_rec]; try done.
  - destruct (v.1 !! block_id b) eqn:E; [|done]. cbn. unfold view_put. by rewrite !E.
  - destruct (v.1 !! id) eqn:E; cbn; by rewrite ?E.
  - destruct (v.1 !! block_id b) eqn:E; [|done]. cbn. unfold view_put. by rewrite E.
Qed.

(** A write to the log either appends the whole record or fails. *)
Definition wrote (w : Wal) (out : Wal * res IoError unit) (b : bytes) (P : Prop) : Prop :=
  (exists w', out = (w', Ok tt) /\ wal_bytes w' = wal_bytes w ++ b /\ P)
  \/ (exists w' e, out = (w', Err e)).

Lemma write_each_wrote w l : wrote w (write_each w l) (concat l) True.
Proof.
  revert w. induction l as [|b l IH]; intros w.
  - left. exists w. by rewrite app_nil_r.
  - cbn [write_each concat]. unfold write_all. case_test.
    + destruct (IH (mk_wal (wal_bytes w ++ b) (wal_room w - length_z b)))
        as [(w' & -> & E & _)|(w' & e & ->)]; [left|right; by eexists _, _].
      exists w'. split_and!; [done| |done]. rewrite E. cbn. by rewrite <- app_assoc.
    + right. by eexists _, _.
Qed.

Lemma record_len_ok n : record_len n = Ok n /\ n <= MAX_RECORD_BYTES \/ record_len n = Err RecordTooLarge.
Proof.
  unfold record_len. destruct (Z.ltb_spec MAX_RECORD_BYTES n); [by right|].
  case_test; [by right|by left].
Qed.

Lemma wrote_rec w l r (P : Prop) :
  concat l = rec_bytes r -> P -> wrote w (write_each w l) (rec_bytes r) P.
Proof.
  intros <- HP. destruct (write_each_wrote w l) as [(w' & -> & E & _)|H]; [left|by right].
  by exists w'.
Qed.

Lemma append_insert_wrote w sid b :
  wrote w (append_insert w sid (canonical_bytes b)) (rec_bytes (RInsert sid b))
    (length_z (canonical_bytes b) <= MAX_RECORD_BYTES).
Proof.
  unfold append_insert. destruct (record_len_ok (length_z (canonical_bytes b))) as [[-> H]| ->].
  - apply wrote_rec; [|done]. unfold rec_bytes. cbn [concat]. by rewrite app_nil_r.
  - right. by eexists _, _.
Qed.

Lemma append_content_wrote w sid b :
  wrote w (append_content w sid (canonical_bytes b)) (rec_bytes (RContent sid b))
    (length_z (canonical_bytes b) <= MAX_RECORD_BYTES).
Proof.
  unfold append_content. destruct (record_len_ok (length_z (canonical_bytes b))) as [[-> H]| ->].
  - apply wrote_rec; [|done]. unfold rec_bytes. cbn [concat]. by rewrite app_nil_r.
  - right. by eexists _, _.
Qed.

Lemma append_reference_wrote w sid id :
  is_id id -> wrote w (append_reference w sid id) (rec_bytes (RReference sid id)) True.
Proof.
  intros H. apply wrote_rec; [|done]. unfold rec_bytes. cbn [concat rec_payload].
  unfold length_z. by rewrite H, app_nil_r.
Qed.

Lemma length_seed sid ids root :
  Forall is_id ids -> is_id root ->
  length_z (rec_payload (RSeed sid ids root)) = length_z ids * 32 + 36.
Proof.
  intros Hi Hr. cbn [rec_payload]. rewrite !length_z_app, length_z_le_bytes.
  unfold length_z. rewrite length_concat_ids, Hr by done. lia.
Qed.

Lemma append_seed_wrote w sid ids root :
  Forall is_id ids -> is_id root ->
  wrote w (append_seed w sid ids root) (rec_bytes (RSeed sid ids root))
    (length_z (rec_payload (RSeed sid ids root)) <= MAX_RECORD_BYTES).
Proof.
  intros Hi Hr. rewrite length_seed by done. unfold append_seed.
  case_test; [right; by eexists _, _|].
  destruct (record_len_ok (length_z ids * 32 + 36)) as [[-> H]| ->]; [|right; by eexists _, _].
  case_test; [right; by eexists _, _|]. apply wrote_rec; [|done].
  unfold rec_bytes. rewrite length_seed by done. cbn [rec_payload rec_sid rec_variant].
  rewrite concat_app, concat_app. cbn [concat]. by rewrite !app_nil_r, <- !app_assoc.
Qed.

(** ** Recovery *)

(** A store whose log holds it: the log is a sequence of whole records that
    replays to the store's blocks and session logs, and no write failed. *)
Definition logged (s : ContentStore) (w : Wal) (rs : list Rec) : Prop :=
  st_wal s = Some w /\ st_wal_error s = None /\ wal_bytes w = log_bytes rs
  /\ Forall rec_ok rs /\ view s = fold_left view_rec rs (∅, ∅).

Lemma record_wal_result_wrote s w out b P :
  wrote w out b P -> st_wal_error (record_wal_result s out) = None ->
  exists w', st_wal (record_wal_result s out) = Some w' /\ wal_bytes w' = wal_bytes w ++ b /\ P.
Proof.
  intros [(w' & -> & H)|(w' & e & ->)]; cbn; [by exists w'|].
  unfold latch_wal_error. simpl. by destruct (st_wal_error s) eqn:E; simpl; rewrite ?E.
Qed.

(** The latched error stays. *)
Lemma record_wal_result_latched s out e :
  st_wal_error s = Some e -> st_wal_error (record_wal_result s out) = Some e.
Proof.
  intros H. destruct out as [w [u|e'|]]; cbn; try done.
  unfold latch_wal_error. simpl. by rewrite H.
Qed.

Lemma insert_eq s sid b s1 newly m new :
  put_block s b (block_id b) = (s1, newly) -> push_id (st_sessions s1) sid (block_id b) = (m, new) ->
  exists s2, st_wal_error s2 = st_wal_error s /\
    run_op s (OInsert sid b)
    = match st_wal s with
      | None => s2
      | Some w => record_wal_result s2 (if newly then append_insert w sid (canonical_bytes b)
                                        else append_reference w sid (block_id b))
      end.
Proof.
  intros P Q. pose proof (put_block_wal s b (block_id b)) as [_ H2]. rewrite P in H2. cbn in H2.
  unfold run_op. cbn [op_rec apply_rec]. unfold insert, insert_with_id, insert_with_canonical.
  rewrite P, Q. eexists (mk_store _ _ _ _ _). split; [exact H2|].
  destruct (st_wal s); [by destruct newly|done].
Qed.

Lemma run_op_latched s o e : st_wal_error s = Some e -> st_wal_error (run_op s o) = Some e.
Proof.
  intros H. destruct o as [sid b|sid id|sid ids root|sid b].
  - destruct (put_block s b (block_id b)) as [s1 newly] eqn:P.
    destruct (push_id (st_sessions s1) sid (block_id b)) as [m new] eqn:Q.
    destruct (insert_eq _ _ _ _ _ _ _ P Q) as (s2 & H2 & ->).
    destruct (st_wal s); [apply record_wal_result_latched|]; congruence.
  - unfold run_op, apply_rec, op_rec, reference. destruct (st_blocks s !! id); [|done].
    destruct (push_id _ _ _). destruct (st_wal s); [by apply record_wal_result_latched|done].
  - unfold run_op, apply_rec, op_rec, seed_session.
    destruct (st_wal s); [by apply record_wal_result_latched|done].
  - unfold run_op, apply_rec, op_rec, store_content, store_content_with_id.
    pose proof (put_block_wal s b (block_id b)) as [_ H2].
    destruct (put_block s b (block_id b)) as [s1 newly]. cbn in H2.
    destruct (st_wal s); [destruct newly|]; cbn [fst];
      rewrite ?(record_wal_result_latched _ _ e); congruence.
Qed.

Lemma run_ops_latched os s e : st_wal_error s = Some e -> st_wal_error (run_ops s os) = Some e.
Proof.
  unfold run_ops. revert s. induction os as [|o os IH]; intros s H; [done|].
  apply IH. by apply run_op_latched.
Qed.

(** A store without a log stays without one. *)
Lemma no_wal_rec s r :
  st_wal s = None -> st_wal_error s = None ->
  st_wal (apply_rec s r) = None /\ st_wal_error (apply_rec s r) = None.
Proof.
  intros Hw He. destruct r as [sid b|sid id|sid ids root|sid b]; cbn [apply_rec].
  - pose proof (put_block_wal s b (block_id b)) as [H1 H2].
    unfold insert, insert_with_id, insert_with_canonical.
    destruct (put_block s b (block_id b)) as [s1 newly]. destruct (push_id _ _ _).
    rewrite Hw. cbn in *. by rewrite H1, H2.
  - unfold reference. destruct (st_blocks s !! id); [|done]. destruct (push_id _ _ _).
    by rewrite Hw.
  - unfold seed_session. by rewrite Hw.
  - unfold store_content, store_content_with_id.
    pose proof (put_block_wal s b (block_id b)) as [H1 H2].
    destruct (put_block s b (block_id b)) as [s1 newly]. rewrite Hw. cbn in *.
    by rewrite H1, H2.
Qed.

Section Recovery.
Hypothesis H32 : forall x, is_id (blake3 x).

(** Writing the record of an operation, when it does not fail. *)
Lemma wrote_logged s w out r P :
  wrote w out (rec_bytes r) P -> (P -> rec_ok r) -> st_wal_error (record_wal_result s out) = None ->
  exists w', st_wal (record_wal_result s out) = Some w'
    /\ wal_bytes w' = wal_bytes w ++ log_bytes [r] /\ Forall rec_ok [r].
Proof.
  intros Hw Hr Hn. destruct (record_wal_result_wrote _ _ _ _ _ Hw Hn) as (w' & E1 & E2 & HP).
  exists w'. unfold log_bytes. cbn [map concat]. rewrite app_nil_r.
  split_and!; [done|done|]. apply list.Forall_singleton. by apply Hr.
Qed.

Lemma reference_rec_ok sid id : in_u 128 sid -> is_id id -> rec_ok (RReference sid id).
Proof. intros Hs Hi. split_and!; [done| |done]. cbn. unfold length_z. by rewrite Hi. Qed.

(** The log of a store after an operation that does not write. *)
Lemma nothing_logged s w : st_wal s = Some w ->
  exists w', st_wal s = Some w' /\ wal_bytes w' = wal_bytes w ++ log_bytes [] /\ Forall rec_ok [].
Proof. intros H. exists w. split_and!; [done|by rewrite app_nil_r|done]. Qed.

(** What one operation without a write error writes. *)
Lemma run_op_wal s w o :
  st_wal s = Some w -> store_op_ok o -> st_wal_error (run_op s o) = None ->
  exists w', st_wal (run_op s o) = Some w'
    /\ wal_bytes w' = wal_bytes w ++ log_bytes (op_log (view s) o)
    /\ Forall rec_ok (op_log (view s) o).
Proof.
  intros Hw [Hsid Hok] Hn.
  destruct o as [sid b|sid id|sid ids root|sid b]; cbn [op_rec rec_sid rec_data_ok] in Hsid, Hok;
    unfold op_log; change ((view s).1) with (st_blocks s).
  - destruct (put_block s b (block_id b)) as [s1 newly] eqn:P.
    destruct (push_id (st_sessions s1) sid (block_id b)) as [m new] eqn:Q.
    destruct (insert_eq _ _ _ _ _ _ _ P Q) as (s2 & H2 & E). rewrite E, Hw in *.
    pose proof (proj2 (view_put_block s b)) as Hnew. rewrite P in Hnew. cbn in Hnew. subst newly.
    destruct (st_blocks s !! block_id b); cbn [bool_decide] in *.
    + rewrite ?bool_decide_eq_false_2 in * by done.
      eapply wrote_logged; [by apply append_reference_wrote, H32|intros _|done].
      apply reference_rec_ok; [done|apply H32].
    + rewrite ?bool_decide_eq_true_2 in * by done.
      by eapply wrote_logged; [apply append_insert_wrote|intros Hl; split_and!|].
  - unfold run_op in *. cbn [op_rec apply_rec] in *. unfold reference in *.
    destruct (st_blocks s !! id); [|by apply nothing_logged]. destruct (push_id _ _ _). rewrite Hw in *.
    by eapply wrote_logged; [apply append_reference_wrote|intros _; apply reference_rec_ok|].
  - unfold run_op in *. cbn [op_rec apply_rec] in *. unfold seed_session in *. rewrite Hw in *.
    destruct Hok as [Hi Hr].
    by eapply wrote_logged; [apply append_seed_wrote|intros Hl; split_and!|].
  - unfold run_op in *. cbn [op_rec apply_rec] in *. unfold store_content, store_content_with_id in *.
    pose proof (proj2 (view_put_block s b)) as Hnew.
    pose proof (put_block_wal s b (block_id b)) as [H1 _].
    destruct (put_block s b (block_id b)) as [s1 newly]. cbn [fst snd] in Hnew, H1. subst newly.
    rewrite Hw in *. destruct (st_blocks s !! block_id b); cbn [fst] in *.
    + rewrite ?bool_decide_eq_false_2 in * by done. by apply nothing_logged.
    + rewrite ?bool_decide_eq_true_2 in * by done.
      by eapply wrote_logged; [apply append_content_wrote|intros Hl; split_and!|].
Qed.

(** Such an operation keeps the store logged. *)
Lemma run_op_logged s w rs o :
  logged s w rs -> store_op_ok o -> st_wal_error (run_op s o) = None ->
  exists w', logged (run_op s o) w' (rs ++ op_log (view s) o).
Proof.
  intros (Hw & He & Hb & Hrs & Hv) Ho Hn.
  destruct (run_op_wal s w o Hw Ho Hn) as (w' & E1 & E2 & E3).
  exists w'. split_and!; [done|done| | |].
  - by rewrite E2, Hb, log_bytes_app.
  - by apply list.Forall_app.
  - unfold run_op. by rewrite view_apply_rec, fold_left_app, <- Hv, op_log_view.
Qed.

Lemma length_op_log v o : (length (op_log v o) <= 1)%nat.
Proof. destruct o; cbn; try destruct (_ !! _); simpl; lia. Qed.

(** The records of a run; a prefix of them is what some prefix of the run
    wrote. *)
Lemma run_ops_logged os s w rs :
  logged s w rs -> Forall store_op_ok os -> st_wal_error (run_ops s os) = None ->
  exists w' rs', logged (run_ops s os) w' (rs ++ rs')
    /\ forall k, exists j, (j <= length os)%nat
         /\ fold_left view_rec (take k rs') (view s) = view (run_ops s (take j os)).
Proof.
  intros Hl Hok. revert s w rs Hl. induction Hok as [|o os Ho _ IH]; intros s w rs Hl Hn.
  - exists w, []. rewrite app_nil_r. split; [done|]. intros k. exists 0%nat.
    rewrite take_nil. split; [simpl; lia|done].
  - change (run_ops s (o :: os)) with (run_ops (run_op s o) os) in *.
    destruct (st_wal_error (run_op s o)) as [e|] eqn:He.
    { rewrite (run_ops_latched _ _ _ He) in Hn. done. }
    destruct (run_op_logged _ _ _ _ Hl Ho He) as [w1 Hl1].
    destruct (IH _ _ _ Hl1 Hn) as (w2 & rs2 & Hl2 & Hp).
    exists w2, (op_log (view s) o ++ rs2). rewrite app_assoc. split; [done|]. intros k.
    pose proof (length_op_log (view s) o) as Hlen.
    destruct (decide (k < length (op_log (view s) o))%nat) as [Hk|Hk].
    + exists 0%nat. assert (k = 0)%nat as -> by lia. split; [simpl; lia|done].
    + destruct (Hp (k - length (op_log (view s) o))%nat) as (j & Hj & E).
      exists (S j). split; [simpl; lia|]. rewrite take_app_ge, fold_left_app, op_log_view by lia.
      change (run_ops s (take (S j) (o :: os))) with (run_ops (run_op s o) (take j os)).
      rewrite <- E. unfold run_op. by rewrite view_apply_rec.
Qed.

Lemma no_wal_recs rs s :
  st_wal s = None -> st_wal_error s = None ->
  st_wal (apply_recs s rs) = None /\ st_wal_error (apply_recs s rs) = None.
Proof.
  unfold apply_recs. revert s. induction rs as [|r rs IH]; intros s Hw He; [done|].
  cbn [fold_left]. apply IH; by apply no_wal_rec.
Qed.

Lemma logged_new room : logged (set_wal store_new (mk_wal [] room)) (mk_wal [] room) [].
Proof. by split_and!. Qed.

Lemma with_wal_logged n rs room :
  Forall rec_ok rs ->
  exists k s', with_wal (take n (log_bytes rs)) room = Ok s'
    /\ logged s' (mk_wal (log_bytes (take k rs)) room) (take k rs)
    /\ (forall m, (m <= length rs)%nat -> (length (log_bytes (take m rs)) <= n)%nat -> (m <= k)%nat).
Proof.
  intros Hrs. destruct (replay_prefix rs n store_new Hrs) as (k & E & Hk & Hkn & Hm).
  unfold with_wal. rewrite E. cbn [res_bind]. exists k. eexists. split; [done|].
  split; [|done].
  assert (st_wal (apply_recs store_new (take k rs)) = None
          /\ st_wal_error (apply_recs store_new (take k rs)) = None) as [Ew Ee].
  { apply no_wal_recs; done. }
  assert (take (Z.to_nat (length_z (log_bytes (take k rs)))) (take n (log_bytes rs))
          = log_bytes (take k rs)) as Et.
  { unfold length_z. rewrite Nat2Z.id, take_take, Nat.min_l by done.
    rewrite <- (take_drop k rs) at 2. rewrite log_bytes_app. apply take_app_length. }
  unfold set_wal. rewrite Ew, Et. split_and!; try done.
  - by apply Forall_take.
  - apply (view_apply_recs (take k rs) store_new).
Qed.

(** the log makes the store durable.  Take a store whose log holds it (a
    fresh one, or one just recovered) and any run of inserts, references, seeds
    and content stores in which no log write failed.  Whatever a crash leaves of
    the file, down to a cut inside a record, as long as it keeps the bytes that
    were already there before the run: reopening succeeds, the recovered store
    has exactly the blocks and the session logs (ids in order and root) the live
    store had after some prefix of the run, and the log holds it again, so the
    next run appends to a replayable file.  An intact file recovers the whole
    run. *)
Theorem wal_recovery s w rs os room n :
  logged s w rs -> Forall store_op_ok os -> st_wal_error (run_ops s os) = None ->
  (length (wal_bytes w) <= n)%nat ->
  exists w' s' j rs',
    st_wal (run_ops s os) = Some w'
    /\ with_wal (take n (wal_bytes w')) room = Ok s'
    /\ (j <= length os)%nat /\ view s' = view (run_ops s (take j os))
    /\ logged s' (mk_wal (log_bytes rs') room) rs'
    /\ ((length (wal_bytes w') <= n)%nat -> view s' = view (run_ops s os)).
Proof.
  intros Hl Hok Hn Hlen. destruct (run_ops_logged _ _ _ _ Hl Hok Hn) as (w' & rs' & Hl' & Hp).
  destruct Hl as (_ & _ & Hb & Hrs & Hv). pose proof Hl' as (Hw' & _ & Hb' & Hrs' & Hv').
  destruct (with_wal_logged n (rs ++ rs') room Hrs') as (k & s' & E & Hs' & Hm).
  assert (length rs <= k)%nat as Hk.
  { apply Hm; [rewrite length_app; lia|]. rewrite take_app_length. by rewrite <- Hb. }
  destruct (Hp (k - length rs)%nat) as (j & Hj & Ej).
  exists w', s', j, (take k (rs ++ rs')). rewrite Hb'.
  pose proof Hs' as (_ & _ & _ & _ & Vs').
  split_and!; [done|done|done| |done|].
  - rewrite Vs', take_app_ge, fold_left_app, <- Hv by done. exact Ej.
  - intros Hall. rewrite Vs', Hv'. f_equal. apply take_ge.
    apply Hm; [done|]. by rewrite take_ge.
Qed.

End Recovery.

(** ** Content addressing and session roots *)

(** Every block is stored under its own address; the session's root is the
    root of its ids, and every id has its block. *)
Definition coherent (sid : Z) (v : gmap BlockId Block * gmap Z SessionLog) : Prop :=
  (forall id b, v.1 !! id = Some b -> block_id b = id)
  /\ match v.2 !! sid with
     | Some l => sl_root l = root_over blake3 ROOT_ZERO (sl_ids l)
                 /\ Forall (fun id => is_Some (v.1 !! id)) (sl_ids l)
     | None => True
     end.

Definition seeds (sid : Z) (o : Op) : Prop :=
  match o with OSeed sid' _ _ => sid' = sid | _ => False end.

Lemma coherent_put sid v b : coherent sid v -> coherent sid (view_put v b).
Proof.
  intros [H1 H2]. unfold view_put. destruct (v.1 !! block_id b) eqn:E; [done|]. split; cbn.
  - intros id b' H. apply lookup_insert_Some in H as [[<- <-]|[_ H]]; [done|by apply H1].
  - destruct (v.2 !! sid) as [l|]; [|done]. destruct H2 as [Hr Hf]. split; [done|].
    eapply Forall_impl; [|exact Hf]. intros id Hid. destruct (decide (id = block_id b)) as [->|Hne].
    + rewrite lookup_insert_eq. by eexists.
    + by rewrite lookup_insert_ne.
Qed.

Lemma coherent_push sid v sid' id :
  coherent sid v -> is_Some (v.1 !! id) -> coherent sid (view_push v sid' id).
Proof.
  intros [H1 H2] Hid. unfold view_push, push_id. split; [done|]. cbn.
  destruct (decide (sid' = sid)) as [->|Hne].
  - destruct (v.2 !! sid) as [l|] eqn:E; cbn [fst]; rewrite lookup_insert_eq; cbn.
    + destruct H2 as [Hr Hf]. split; [by rewrite Hr, root_over_snoc|].
      apply list.Forall_app. split; [done|]. by apply list.Forall_singleton.
    + split; [done|]. by apply list.Forall_singleton.
  - destruct (v.2 !! sid') as [l|] eqn:E; cbn [fst]; by rewrite lookup_insert_ne.
Qed.

Lemma coherent_step sid v o : coherent sid v -> ~ seeds sid o -> coherent sid (view_rec v (op_rec o)).
Proof.
  intros Hc Hs. destruct o as [sid' b|sid' id|sid' ids root|sid' b]; cbn [op_rec view_rec].
  - apply coherent_push; [by apply coherent_put|]. unfold view_put.
    destruct (v.1 !! block_id b) eqn:E; [by eexists|]. cbn. rewrite lookup_insert_eq. by eexists.
  - destruct (v.1 !! id) eqn:E; [|done]. apply coherent_push; [done|]. by eexists.
  - destruct Hc as [H1 H2]. split; [done|]. cbn. cbn in Hs. by rewrite lookup_insert_ne.
  - by apply coherent_put.
Qed.

(** content addressing.  After any run that never seeds session [sid], every
    stored block is the one its id addresses, the session's root is the root of
    its ordered ids, and [reconstruct] returns exactly one block per id of the
    log, in order: the addresses of the reconstructed blocks are the log, and
    re-appending them gives the session root. *)
Theorem reconstruct_faithful os sid :
  Forall (fun o => ~ seeds sid o) os ->
  let s := run_ops store_new os in
  (forall id b, store_get s id = Some b -> block_id b = id)
  /\ map block_id (reconstruct s sid) = session_ids s sid
  /\ session_root s sid = root_over blake3 ROOT_ZERO (map block_id (reconstruct s sid)).
Proof.
  intros Hos. cbv zeta.
  assert (coherent sid (view (run_ops store_new os))) as [H1 H2].
  { unfold run_ops. assert (coherent sid (view store_new)) as Hc by done. revert Hc.
    generalize store_new as s. induction Hos as [|o os Ho _ IH]; intros s Hc; [done|].
    cbn [fold_left]. apply IH. unfold run_op. rewrite view_apply_rec. by apply coherent_step. }
  set (s := run_ops store_new os) in *. unfold store_get, session_ids, session_root, reconstruct.
  unfold view in H1, H2. cbn in H1, H2. unfold session_ids.
  enough (map block_id (omap (fun id => st_blocks s !! id)
            (match st_sessions s !! sid with Some l => sl_ids l | None => [] end))
          = match st_sessions s !! sid with Some l => sl_ids l | None => [] end) as E.
  { split_and!; [exact H1|exact E|]. rewrite E. destruct (st_sessions s !! sid) as [l|]; [apply H2|done]. }
  destruct (st_sessions s !! sid) as [l|]; [|done]. destruct H2 as [_ Hf].
  induction Hf as [|id ids [b Hb] _ IH]; [done|]. cbn. rewrite Hb. cbn. by rewrite IH, (H1 id b Hb).
Qed.
End Store.

(** ** A concrete run *)

Module Sample.
(** A stand-in hash: 32 bytes, little endian, of the weighted byte sum. *)
Definition h (l : bytes) : bytes := le_bytes 32 (fold_left (fun a b => a * 257 + b + 1) l 0).

Lemma h32 x : is_id (h x).
Proof. apply length_le_bytes. Qed.

Definition b1 : Block := mk_block Message 1 [104; 105].
Definition b2 : Block := mk_block ToolCall 2 [1; 2; 3].
Definition ops : list Op :=
  [OInsert 7 b1; OInsert 7 b2; OReference 7 (block_id h b1); OInsert 8 b1;
   OSeed 9 [block_id h b2; block_id h b1] (repeat 5 32); OContent 9 b2].
Definition start : ContentStore := set_wal store_new (mk_wal [] 100000).
End Sample.

#[export] Instance is_id_dec i : Decision (is_id i).
Proof. unfold is_id. apply _. Defined.
#[export] Instance store_op_ok_dec o : Decision (store_op_ok o).
Proof. destruct o; unfold store_op_ok, rec_data_ok; simpl; apply _. Defined.
#[export] Instance seeds_dec sid o : Decision (seeds sid o).
Proof. destruct o; simpl; apply _. Defined.

Lemma wal_recovery_witness :
  exists w' s' j rs',
    st_wal (run_ops Sample.h Sample.start Sample.ops) = Some w'
    /\ with_wal Sample.h (take 150 (wal_bytes w')) 1000 = Ok s'
    /\ (j <= 6)%nat /\ view s' = view (run_ops Sample.h Sample.start (take j Sample.ops))
    /\ logged Sample.h s' (mk_wal (log_bytes rs') 1000) rs'
    /\ ((length (wal_bytes w') <= 150)%nat -> view s' = view (run_ops Sample.h Sample.start Sample.ops)).
Proof.
  apply (wal_recovery Sample.h Sample.h32 Sample.start (mk_wal [] 100000) [] Sample.ops 1000 150).
  - apply logged_new.
  - by_decide.
  - vm_compute. reflexivity.
  - simpl. lia.
Defined.

Lemma reconstruct_faithful_witness :
  map (block_id Sample.h) (reconstruct (run_ops Sample.h store_new Sample.ops) 7)
  = session_ids (run_ops Sample.h store_new Sample.ops) 7.
Proof. apply (reconstruct_faithful Sample.h Sample.ops 7). by_decide. Defined.
