(* ===== verification/DlrGf.v ===== *)
(** Arithmetic in GF(2^8) (src/integrations/dlr/crates/coding/src/gf256.rs):
    the tables, the vector primitives with their SIMD kernels, and Gaussian
    elimination.

    A byte is a [Z]; a [u8] array is a list of fixed length.  The kernels are
    modelled lane by lane, the intrinsics as their documentation defines them. *)

From Stdlib Require Import Btauto.
From S2P Require Import Prelude DlrCodec.

(** ** Tables *)

Record GfTables := mk_tables { t_mul : list (list Z); t_exp : list Z; t_log : list Z }.

(** Array reads; every index of the code is in bounds. *)
Definition at_ (l : list Z) (i : Z) : Z := nth (Z.to_nat i) l 0.

(** One step of the walk: [g] becomes [3 * g]. *)
Definition gf_step (g : Z) : Z :=
  let g2 := Z.lxor (wrap 16 (Z.shiftl g 1)) (if Z.land g 0x80 =? 0 then 0 else 0x11B) in
  Z.land (Z.lxor g2 g) 0xFF.

(** The multiply table; row 0 and column 0 stay zero. *)
Definition build_mul (exp log : list Z) : list (list Z) :=
  let row (a : nat) :=
    let la := nth a log 0 in
    0 :: map (fun b => at_ exp (la + nth b log 0)) (seq 1 255) in
  repeat 0 256 :: map row (seq 1 255).

Definition build_tables : GfTables :=
  let '(exp, log, _) :=
    fold_left (fun '(exp, log, g) i =>
                 (<[i := wrap 8 g]> exp, <[Z.to_nat g := Z.of_nat i]> log, gf_step g))
      (seq 0 255) (repeat 0 512, repeat 0 256, 1) in
  let exp := fold_left (fun exp i => <[(255 + i)%nat := nth i exp 0]> exp) (seq 0 256) exp in
  let log := <[0%nat := 0]> log in
  mk_tables (build_mul exp log) exp log.

(** The [OnceLock]: built once. *)
Definition tables : GfTables := build_tables.

(** ** Scalars *)

Definition mul_row (a : Z) : list Z := nth (Z.to_nat a) (t_mul tables) [].
Definition gf_mul (a b : Z) : Z := at_ (mul_row a) b.
Definition gf_add (a b : Z) : Z := Z.lxor a b.
Definition gf_inv (a : Z) : Z :=
  if a =? 0 then 0 else at_ (t_exp tables) (255 - at_ (t_log tables) a).
Definition gf_div (a b : Z) : Z :=
  if b =? 0 then 0
  else if a =? 0 then 0
  else at_ (t_exp tables) ((at_ (t_log tables) a - at_ (t_log tables) b) mod 255).

(** ** Vector primitives *)

Definition mul_nibble_tables (a : Z) : list Z :=
  map (fun i => at_ (mul_row a) (Z.of_nat i)) (seq 0 16)
  ++ map (fun i => at_ (mul_row a) (Z.shiftl (Z.of_nat i) 4)) (seq 0 16).

(** The code path the running processor selects. *)
Inductive Cpu := Avx2 | Ssse3 | Neon | NoSimd.

(** [_mm_shuffle_epi8] and its 256-bit form on a broadcast table. *)
Definition pshufb (tab : list Z) (x : Z) : Z :=
  if Z.testbit x 7 then 0 else at_ tab (Z.land x 0x0F).
(** [vqtbl1q_u8]. *)
Definition vqtbl1q (tab : list Z) (x : Z) : Z := if x <? 16 then at_ tab x else 0.
(** [_mm_srli_epi16(x, 4)]: little-endian 16-bit lanes. *)
Fixpoint srli_epi16_4 (x : list Z) : list Z :=
  match x with
  | a :: b :: x' => let v := Z.shiftr (a + 256 * b) 4 in v mod 256 :: v / 256 :: srli_epi16_4 x'
  | _ => x
  end.

(** The product of one register of bytes with the nibble tables. *)
Definition lanes_x86 (tabs x : list Z) : list Z :=
  let lo := take 16 tabs in
  let hi := drop 16 tabs in
  let xl := map (fun b => Z.land b 0x0F) x in
  let xh := map (fun b => Z.land b 0x0F) (srli_epi16_4 x) in
  zip_with Z.lxor (map (pshufb lo) xl) (map (pshufb hi) xh).
Definition lanes_neon (tabs x : list Z) : list Z :=
  let lo := take 16 tabs in
  let hi := drop 16 tabs in
  let xl := map (fun b => Z.land b 0x0F) x in
  let xh := map (fun b => Z.shiftr b 4) x in
  zip_with Z.lxor (map (vqtbl1q lo) xl) (map (vqtbl1q hi) xh).

(** The kernels' loops over the whole registers in the first [n] bytes;
    [fuel] bounds the registers. *)
Fixpoint axpy_kernel (fuel w : nat) (lanes : list Z -> list Z) (src dst : list Z) (n : nat) : list Z :=
  match fuel with
  | O => dst
  | S fuel' =>
      if (n <? w)%nat then dst
      else zip_with Z.lxor (take w dst) (lanes (take w src))
           ++ axpy_kernel fuel' w lanes (drop w src) (drop w dst) (n - w)
  end.
Fixpoint scal_kernel (fuel w : nat) (lanes : list Z -> list Z) (dst : list Z) (n : nat) : list Z :=
  match fuel with
  | O => dst
  | S fuel' =>
      if (n <? w)%nat then dst
      else lanes (take w dst) ++ scal_kernel fuel' w lanes (drop w dst) (n - w)
  end.

Definition axpy_avx2 (tabs src dst : list Z) (n : nat) := axpy_kernel n 32 (lanes_x86 tabs) src dst n.
Definition axpy_ssse3 (tabs src dst : list Z) (n : nat) := axpy_kernel n 16 (lanes_x86 tabs) src dst n.
Definition axpy_neon (tabs src dst : list Z) (n : nat) := axpy_kernel n 16 (lanes_neon tabs) src dst n.
Definition scal_avx2 (tabs dst : list Z) (n : nat) := scal_kernel n 32 (lanes_x86 tabs) dst n.
Definition scal_ssse3 (tabs dst : list Z) (n : nat) := scal_kernel n 16 (lanes_x86 tabs) dst n.
Definition scal_neon (tabs dst : list Z) (n : nat) := scal_kernel n 16 (lanes_neon tabs) dst n.

(** The scalar loops, over the first [n] bytes. *)
Fixpoint axpy_scalar (f : Z -> Z) (n : nat) (src dst : list Z) : list Z :=
  match n, src, dst with
  | S n', s :: src', d :: dst' => Z.lxor d (f s) :: axpy_scalar f n' src' dst'
  | _, _, _ => dst
  end.

Definition gf_axpy_slice (cpu : Cpu) (a : Z) (src dst : list Z) : list Z :=
  let n := Nat.min (length src) (length dst) in
  if (a =? 0) || (n =? 0)%nat then dst
  else if a =? 1 then axpy_scalar id n src dst
  else
    let tabs := mul_nibble_tables a in
    let '(dst, i) :=
      match cpu with
      | Avx2 => (axpy_avx2 tabs src dst n, (n - n mod 32)%nat)
      | Ssse3 => (axpy_ssse3 tabs src dst n, (n - n mod 16)%nat)
      | Neon => (axpy_neon tabs src dst n, (n - n mod 16)%nat)
      | NoSimd => (dst, 0%nat)
      end in
    take i dst ++ axpy_scalar (at_ (mul_row a)) (n - i) (drop i src) (drop i dst).

Definition gf_scal_slice (cpu : Cpu) (a : Z) (dst : list Z) : list Z :=
  let n := length dst in
  if (n =? 0)%nat then dst
  else if a =? 0 then map (fun _ => 0) dst
  else if a =? 1 then dst
  else
    let tabs := mul_nibble_tables a in
    let '(dst, i) :=
      match cpu with
      | Avx2 => (scal_avx2 tabs dst n, (n - n mod 32)%nat)
      | Ssse3 => (scal_ssse3 tabs dst n, (n - n mod 16)%nat)
      | Neon => (scal_neon tabs dst n, (n - n mod 16)%nat)
      | NoSimd => (dst, 0%nat)
      end in
    take i dst ++ map (at_ (mul_row a)) (drop i dst).

Definition axpy (cpu : Cpu) (dst : list Z) (a : Z) (src : list Z) : list Z := gf_axpy_slice cpu a src dst.
Definition scal_inplace (cpu : Cpu) (dst : list Z) (a : Z) : list Z := gf_scal_slice cpu a dst.

Definition gf_dot (cpu : Cpu) (coeffs : list Z) (rows : list (list Z)) : list Z :=
  match rows with
  | [] => []
  | r0 :: _ =>
      fold_left (fun out '(c, r) => if c =? 0 then out else gf_axpy_slice cpu c r out)
        (combine coeffs rows) (repeat 0 (length r0))
  end.

(** ** Gaussian elimination

    The flat buffer is the list of its [n] rows; a caller passes [k] at most
    the row length. *)

Definition entry (rows : list (list Z)) (r col : nat) : Z := nth col (nth r rows []) 0.

(** The first row at or below [rank] with a nonzero entry in [col]. *)
Definition find_pivot (rows : list (list Z)) (col rank : nat) : option nat :=
  List.find (fun r => negb (entry rows r col =? 0)) (seq rank (length rows - rank)).

Definition swap_rows (rows : list (list Z)) (i j : nat) : list (list Z) :=
  <[i := nth j rows []]> (<[j := nth i rows []]> rows).

(** One column with a pivot at [p]. *)
Definition gauss_pivot (cpu : Cpu) (rows : list (list Z)) (col rank p : nat) : list (list Z) :=
  let rows := if (rank =? p)%nat then rows else swap_rows rows rank p in
  let pv := entry rows rank col in
  let inv := at_ (t_exp tables) (255 - at_ (t_log tables) pv) in
  let prow := gf_scal_slice cpu inv (nth rank rows []) in
  imap (fun r row =>
          if (r =? rank)%nat then prow
          else let f := nth col row 0 in
               if f =? 0 then row else gf_axpy_slice cpu f prow row) rows.

(** The columns [cols] left to do; the loop stops when every row is a pivot. *)
Fixpoint gauss_loop (cpu : Cpu) (cols : list nat) (rows : list (list Z)) (rank : nat)
  : list (list Z) * nat :=
  match cols with
  | [] => (rows, rank)
  | col :: cols' =>
      match find_pivot rows col rank with
      | None => gauss_loop cpu cols' rows rank
      | Some p =>
          let rows := gauss_pivot cpu rows col rank p in
          if (S rank =? length rows)%nat then (rows, S rank)
          else gauss_loop cpu cols' rows (S rank)
      end
  end.

Definition gf_gauss_eliminate (cpu : Cpu) (rows : list (list Z)) (row_len k : nat)
  : list (list Z) * nat :=
  if (row_len =? 0)%nat then (rows, 0%nat) else gauss_loop cpu (seq 0 k) rows 0.

(** ** The field

    Facts about one byte are checked on the exponential and logarithm tables;
    the field laws follow from the walk: multiplying by [exp[n]] is [n] steps
    of the walk, and a step is linear. *)

Definition byte_range : list Z := map Z.of_nat (seq 0 256).

Lemma byte_in_range a : is_byte a -> In a byte_range.
Proof.
  intros [H1 H2]. unfold byte_range. apply in_map_iff. exists (Z.to_nat a).
  split; [lia|]. apply in_seq. lia.
Qed.

Lemma byte_check (p : Z -> bool) : forallb p byte_range = true -> forall a, is_byte a -> p a = true.
Proof. intros H a Ha. rewrite forallb_forall in H. by apply H, byte_in_range. Qed.

Definition exp_table : list Z := Eval vm_compute in t_exp build_tables.
Definition log_table : list Z := Eval vm_compute in t_log build_tables.
Lemma t_exp_eq : t_exp tables = exp_table.
Proof. vm_compute. reflexivity. Qed.
Lemma t_log_eq : t_log tables = log_table.
Proof. vm_compute. reflexivity. Qed.

Definition gexp (n : Z) : Z := at_ exp_table n.
Definition glog (a : Z) : Z := at_ log_table a.

Definition is_byteb (a : Z) : bool := (0 <=? a) && (a <? 256).
Lemma is_byteb_true a : is_byteb a = true <-> is_byte a.
Proof. unfold is_byteb, is_byte. lia. Qed.

(** Equality of integers bit by bit. *)
Ltac bits :=
  apply Z.bits_inj'; intros ? ?;
  rewrite ?Z.lxor_spec, ?Z.land_spec, ?Z.lxor_spec, ?Z.shiftl_spec, ?Z.lxor_spec,
    ?Z.land_spec, ?Z.lxor_spec by lia; try btauto.

Lemma byte_land a : is_byte a <-> Z.land a 255 = a.
Proof. change 255 with (Z.ones 8). rewrite Z.land_ones by lia. unfold is_byte. zlia. Qed.

Lemma byte_lxor a b : is_byte a -> is_byte b -> is_byte (Z.lxor a b).
Proof.
  rewrite !byte_land. intros Ha Hb. rewrite <- Ha at 2. rewrite <- Hb at 2. bits.
Qed.

(** The step, with its conditional reduction pulled out. *)
Definition step_red (x : Z) : Z := if Z.testbit x 7 then 0x1B else 0.
Lemma gf_step_lin x :
  is_byte x -> gf_step x = Z.lxor (Z.land (Z.lxor (Z.shiftl x 1) x) 255) (step_red x).
Proof. intros Hx. apply Z.eqb_eq. revert x Hx. apply byte_check. vm_compute. reflexivity. Qed.

Lemma gf_step_lxor a b :
  is_byte a -> is_byte b -> gf_step (Z.lxor a b) = Z.lxor (gf_step a) (gf_step b).
Proof.
  intros Ha Hb. rewrite !gf_step_lin by auto using byte_lxor.
  assert (step_red (Z.lxor a b) = Z.lxor (step_red a) (step_red b)) as ->.
  { unfold step_red. rewrite Z.lxor_spec. by destruct (Z.testbit a 7), (Z.testbit b 7). }
  rewrite Z.shiftl_lxor. bits.
Qed.

Lemma gf_step_byte a : is_byte a -> is_byte (gf_step a).
Proof. intros Ha. apply is_byteb_true. revert a Ha. apply byte_check. vm_compute. reflexivity. Qed.

(** The walk up to index 510, the last one written. *)
Lemma gexp_check (p : Z -> bool) :
  forallb p (map Z.of_nat (seq 0 511)) = true -> forall n, 0 <= n <= 510 -> p n = true.
Proof.
  intros H n Hn. rewrite forallb_forall in H. apply H, in_map_iff. exists (Z.to_nat n).
  split; [lia|]. apply in_seq. lia.
Qed.

Lemma gexp_succ n : 0 <= n < 510 -> gexp (n + 1) = gf_step (gexp n).
Proof.
  intros Hn. apply Z.eqb_eq.
  pose proof (gexp_check (fun n => (510 <=? n) || (gexp (n + 1) =? gf_step (gexp n)))) as H.
  assert (forall n, 0 <= n <= 510 -> (510 <=? n) || (gexp (n + 1) =? gf_step (gexp n)) = true) as H'.
  { apply H. vm_compute. reflexivity. }
  specialize (H' n ltac:(lia)). apply orb_true_iff in H' as [H'|H']; [lia|done].
Qed.

Lemma gexp_mod n : 0 <= n <= 510 -> gexp n = gexp (n mod 255).
Proof. intros Hn. apply Z.eqb_eq. revert n Hn. apply gexp_check. vm_compute. reflexivity. Qed.

Lemma gexp_byte n : 0 <= n <= 510 -> is_byte (gexp n) /\ gexp n <> 0.
Proof.
  intros Hn. pose proof (gexp_check (fun n => is_byteb (gexp n) && negb (gexp n =? 0))) as H.
  specialize (H ltac:(vm_compute; reflexivity) n Hn). cbv beta in H.
  apply andb_true_iff in H as [H1 H2]. apply is_byteb_true in H1. split; [done|lia].
Qed.

Lemma glog_gexp n : 0 <= n <= 510 -> glog (gexp n) = n mod 255.
Proof. intros Hn. apply Z.eqb_eq. revert n Hn. apply gexp_check. vm_compute. reflexivity. Qed.

Lemma glog_spec a : is_byte a -> a <> 0 -> gexp (glog a) = a /\ 0 <= glog a < 255.
Proof.
  intros Ha Hz.
  pose proof (byte_check (fun a => (a =? 0) || ((gexp (glog a) =? a) && (0 <=? glog a) && (glog a <? 255))))
    as H.
  specialize (H ltac:(vm_compute; reflexivity) a Ha). cbv beta in H.
  rewrite !orb_true_iff, !andb_true_iff in H. lia.
Qed.

(** The product by its two tables. *)
Lemma t_mul_eq : t_mul tables = build_mul exp_table log_table.
Proof.
  rewrite <- t_exp_eq, <- t_log_eq. unfold tables, build_tables.
  destruct (fold_left _ (seq 0 255) _) as [[exp log] g]. cbn [t_mul t_exp t_log]. reflexivity.
Qed.

(** The tables are only evaluated by [vm_compute]. *)
#[global] Opaque tables exp_table log_table.

Lemma nth_map_seq {A} (f : nat -> A) d n i :
  (1 <= i <= n)%nat -> nth (pred i) (map f (seq 1 n)) d = f i.
Proof.
  intros Hi. rewrite (nth_indep _ d (f 0%nat)) by (rewrite length_map, length_seq; lia).
  rewrite map_nth, seq_nth by lia. f_equal. lia.
Qed.

Lemma gf_mul_table a b :
  is_byte a -> is_byte b ->
  gf_mul a b = if (a =? 0) || (b =? 0) then 0 else gexp (glog a + glog b).
Proof.
  intros Ha Hb. unfold gf_mul, mul_row, at_ at 1. rewrite t_mul_eq. unfold build_mul.
  destruct (Z.eqb_spec a 0) as [->|Hza].
  { change (nth (Z.to_nat 0) (repeat 0 256 :: _) []) with (repeat 0 256).
    rewrite nth_repeat. reflexivity. }
  destruct (Z.eqb_spec b 0) as [->|Hzb]; unfold is_byte in Ha, Hb.
  - destruct (Z.to_nat a) as [|n] eqn:E; [lia|]. cbn [nth orb].
    change n with (pred (S n)). rewrite nth_map_seq by lia. done.
  - destruct (Z.to_nat a) as [|n] eqn:E; [lia|]. cbn [nth orb].
    change n with (pred (S n)). rewrite nth_map_seq by lia.
    destruct (Z.to_nat b) as [|m] eqn:F; [lia|]. cbn [nth].
    change m with (pred (S m)) at 1. rewrite nth_map_seq by lia. by rewrite <- E, <- F.
Qed.

Lemma gf_mul_0_l a : is_byte a -> gf_mul 0 a = 0.
Proof. intros Ha. by rewrite gf_mul_table. Qed.
Lemma gf_mul_0_r a : is_byte a -> gf_mul a 0 = 0.
Proof. intros Ha. rewrite gf_mul_table by done. by rewrite orb_true_r. Qed.
Lemma gf_mul_nz a b :
  is_byte a -> is_byte b -> a <> 0 -> b <> 0 -> gf_mul a b = gexp (glog a + glog b).
Proof.
  intros Ha Hb Hza Hzb. rewrite gf_mul_table by done.
  by rewrite (proj2 (Z.eqb_neq a 0)), (proj2 (Z.eqb_neq b 0)).
Qed.

Lemma gf_mul_comm a b : is_byte a -> is_byte b -> gf_mul a b = gf_mul b a.
Proof. intros Ha Hb. rewrite !gf_mul_table by done. by rewrite orb_comm, Z.add_comm. Qed.

Lemma gf_mul_byte a b : is_byte a -> is_byte b -> is_byte (gf_mul a b).
Proof.
  intros Ha Hb. rewrite gf_mul_table by done. destruct (_ || _) eqn:E; [done|].
  apply orb_false_iff in E as [E1 E2].
  apply gexp_byte. pose proof (glog_spec a Ha). pose proof (glog_spec b Hb). lia.
Qed.
#[export] Hint Resolve byte_lxor gf_mul_byte gf_step_byte : gf.

Lemma gf_mul_nonzero a b : is_byte a -> is_byte b -> a <> 0 -> b <> 0 -> gf_mul a b <> 0.
Proof.
  intros Ha Hb Hza Hzb. rewrite gf_mul_nz by done.
  apply gexp_byte. pose proof (glog_spec a Ha). pose proof (glog_spec b Hb). lia.
Qed.

(** Multiplication by a nonzero [a] is [glog a] steps of the walk. *)
Lemma gexp_iter m n :
  0 <= n -> Z.of_nat m + n <= 510 -> gexp (Z.of_nat m + n) = Nat.iter m gf_step (gexp n).
Proof.
  induction m as [|m IH]; intros Hn Hm; [done|].
  rewrite Nat2Z.inj_succ, Z.add_succ_l, <- Z.add_1_r, gexp_succ by lia.
  rewrite !Nat.iter_succ. rewrite IH by lia. done.
Qed.

Lemma iter_step_zero m : Nat.iter m gf_step 0 = 0.
Proof. induction m as [|m IH]; [done|]. rewrite !Nat.iter_succ. by rewrite IH. Qed.

Lemma gf_mul_iter a x :
  is_byte a -> is_byte x -> a <> 0 -> gf_mul a x = Nat.iter (Z.to_nat (glog a)) gf_step x.
Proof.
  intros Ha Hx Hz. destruct (decide (x = 0)) as [->|Hxz].
  - rewrite iter_step_zero. by apply gf_mul_0_r.
  - destruct (glog_spec a Ha Hz) as [_ L]. destruct (glog_spec x Hx Hxz) as [E Lx].
    rewrite gf_mul_nz by done. rewrite <- E at 2.
    rewrite <- gexp_iter by lia. by rewrite Z2Nat.id by lia.
Qed.

Lemma iter_step_lxor m x y :
  is_byte x -> is_byte y ->
  Nat.iter m gf_step (Z.lxor x y) = Z.lxor (Nat.iter m gf_step x) (Nat.iter m gf_step y)
  /\ is_byte (Nat.iter m gf_step x).
Proof.
  intros Hx Hy. assert (forall z, is_byte z -> is_byte (Nat.iter m gf_step z)) as B.
  { intros z Hz. induction m as [|m IH]; rewrite ?Nat.iter_succ; auto with gf. }
  split; [|by apply B]. induction m as [|m IH]; [done|]. rewrite !Nat.iter_succ.
  assert (forall z, is_byte z -> is_byte (Nat.iter m gf_step z)) as B'.
  { intros z Hz. clear -Hz. induction m; rewrite ?Nat.iter_succ; auto with gf. }
  rewrite IH, gf_step_lxor; auto.
Qed.

Lemma gf_mul_lxor_r a x y :
  is_byte a -> is_byte x -> is_byte y ->
  gf_mul a (Z.lxor x y) = Z.lxor (gf_mul a x) (gf_mul a y).
Proof.
  intros Ha Hx Hy. destruct (decide (a = 0)) as [->|Hz].
  - rewrite !gf_mul_0_l by auto with gf. done.
  - rewrite !gf_mul_iter by auto with gf. by apply iter_step_lxor.
Qed.

Lemma gf_mul_lxor_l a b x :
  is_byte a -> is_byte b -> is_byte x ->
  gf_mul (Z.lxor a b) x = Z.lxor (gf_mul a x) (gf_mul b x).
Proof.
  intros Ha Hb Hx. rewrite (gf_mul_comm _ x), gf_mul_lxor_r by auto with gf.
  by rewrite (gf_mul_comm x a), (gf_mul_comm x b).
Qed.

Lemma glog_mul a b :
  is_byte a -> is_byte b -> a <> 0 -> b <> 0 ->
  glog (gf_mul a b) = (glog a + glog b) mod 255.
Proof.
  intros Ha Hb Hza Hzb. rewrite gf_mul_nz by done. apply glog_gexp.
  pose proof (glog_spec a Ha Hza). pose proof (glog_spec b Hb Hzb). lia.
Qed.

Lemma gf_mul_assoc a b c :
  is_byte a -> is_byte b -> is_byte c -> gf_mul a (gf_mul b c) = gf_mul (gf_mul a b) c.
Proof.
  intros Ha Hb Hc.
  destruct (decide (a = 0)) as [->|Za]; [by rewrite !gf_mul_0_l by auto with gf|].
  destruct (decide (b = 0)) as [->|Zb];
    [by rewrite gf_mul_0_l, gf_mul_0_r, gf_mul_0_l by auto with gf|].
  destruct (decide (c = 0)) as [->|Zc]; [by rewrite !gf_mul_0_r by auto with gf|].
  rewrite (gf_mul_nz a (gf_mul b c)), (gf_mul_nz (gf_mul a b) c) by (auto using gf_mul_nonzero with gf).
  rewrite !glog_mul by done.
  pose proof (glog_spec a Ha Za). pose proof (glog_spec b Hb Zb). pose proof (glog_spec c Hc Zc).
  pose proof (Z.mod_pos_bound (glog a + glog b) 255). pose proof (Z.mod_pos_bound (glog b + glog c) 255).
  rewrite (gexp_mod (glog a + _)), (gexp_mod (_ + glog c)) by lia.
  by rewrite Zplus_mod_idemp_r, Zplus_mod_idemp_l, Z.add_assoc.
Qed.

Lemma gf_inv_eq a : gf_inv a = if a =? 0 then 0 else gexp (255 - glog a).
Proof. unfold gf_inv. by rewrite t_exp_eq, t_log_eq. Qed.

Lemma gf_inv_byte a : is_byte a -> is_byte (gf_inv a).
Proof.
  intros Ha. rewrite gf_inv_eq. destruct (Z.eqb_spec a 0); [done|].
  apply gexp_byte. pose proof (glog_spec a Ha). lia.
Qed.
#[export] Hint Resolve gf_inv_byte : gf.

Lemma glog_inv a : is_byte a -> a <> 0 -> gf_inv a <> 0 /\ glog (gf_inv a) = (255 - glog a) mod 255.
Proof.
  intros Ha Hz. rewrite gf_inv_eq. destruct (Z.eqb_spec a 0); [done|].
  pose proof (glog_spec a Ha Hz). split; [apply gexp_byte|apply glog_gexp]; lia.
Qed.

Lemma gf_mul_inv a : is_byte a -> a <> 0 -> gf_mul a (gf_inv a) = 1.
Proof.
  intros Ha Hz. destruct (glog_inv a Ha Hz) as [Hi E]. rewrite gf_mul_nz by auto with gf.
  rewrite E. pose proof (glog_spec a Ha Hz). pose proof (Z.mod_pos_bound (255 - glog a) 255).
  rewrite gexp_mod, Zplus_mod_idemp_r by lia.
  by replace (glog a + (255 - glog a)) with 255 by lia.
Qed.

Lemma gf_mul_1_l a : is_byte a -> gf_mul 1 a = a.
Proof.
  intros Ha. rewrite gf_mul_table by done. destruct (Z.eqb_spec a 0) as [->|Hz]; [done|].
  by apply glog_spec.
Qed.

Lemma gf_div_inv a b : is_byte a -> is_byte b -> gf_div a b = gf_mul a (gf_inv b).
Proof.
  intros Ha Hb. unfold gf_div. rewrite t_exp_eq, t_log_eq.
  destruct (Z.eqb_spec b 0) as [->|Hzb]; [by rewrite gf_inv_eq, gf_mul_0_r|].
  destruct (Z.eqb_spec a 0) as [->|Hza]; [by rewrite gf_mul_0_l by auto with gf|].
  destruct (glog_inv b Hb Hzb) as [Hi E]. rewrite gf_mul_nz by auto with gf. rewrite E.
  pose proof (glog_spec a Ha Hza). pose proof (Z.mod_pos_bound (255 - glog b) 255).
  rewrite (gexp_mod (glog a + _)), Zplus_mod_idemp_r by lia. fold (gexp ((glog a - glog b) mod 255)).
  f_equal. replace (glog a + (255 - glog b)) with (glog a - glog b + 1 * 255) by lia.
  by rewrite Z.mod_add.
Qed.

(** ** Carry-less multiplication: the reference

    The field of the crate's documentation: polynomials over GF(2) modulo
    x^8 + x^4 + x^3 + x + 1. *)

(** The XOR of [f i] over the bits [i < n] of [b]. *)
Fixpoint bitsum (f : nat -> Z) (n : nat) (b : Z) : Z :=
  match n with
  | O => 0
  | S n' => Z.lxor (bitsum f n' b) (if Z.testbit b (Z.of_nat n') then f n' else 0)
  end.
Definition clmul (a b : Z) : Z := bitsum (fun i => Z.shiftl a (Z.of_nat i)) 8 b.
Fixpoint poly_mod (n : nat) (p : Z) : Z :=
  match n with
  | O => p
  | S n' => poly_mod n' (if Z.testbit p (8 + Z.of_nat n')
                         then Z.lxor p (Z.shiftl 0x11B (Z.of_nat n')) else p)
  end.

Lemma poly_mod_lxor n p q : poly_mod n (Z.lxor p q) = Z.lxor (poly_mod n p) (poly_mod n q).
Proof.
  revert p q. induction n as [|n IH]; intros p q; [done|]. cbn [poly_mod].
  rewrite <- IH. f_equal. rewrite Z.lxor_spec.
  destruct (Z.testbit p _), (Z.testbit q _); cbn [xorb]; bits.
Qed.

Lemma bitsum_map (g : Z -> Z) (f : nat -> Z) n b :
  g 0 = 0 -> (forall i, (i < n)%nat -> is_byte (f i)) ->
  (forall x y, is_byte x -> is_byte y -> g (Z.lxor x y) = Z.lxor (g x) (g y)) ->
  g (bitsum f n b) = bitsum (fun i => g (f i)) n b /\ is_byte (bitsum f n b).
Proof.
  intros H0 Hf Hg. induction n as [|n IH]; [done|]. cbn [bitsum].
  destruct IH as [IH1 IH2]; [intros; apply Hf; lia|].
  assert (is_byte (if Z.testbit b (Z.of_nat n) then f n else 0)) as B.
  { destruct (Z.testbit _ _); [apply Hf; lia|done]. }
  split; [|by apply byte_lxor]. rewrite Hg by done. rewrite IH1. f_equal.
  by destruct (Z.testbit _ _).
Qed.

Lemma poly_mod_0 n : poly_mod n 0 = 0.
Proof. induction n as [|n IH]; [done|]. cbn [poly_mod]. by rewrite Z.bits_0. Qed.

Lemma poly_mod_bitsum m f n b : poly_mod m (bitsum f n b) = bitsum (fun i => poly_mod m (f i)) n b.
Proof.
  induction n as [|n IH]; [apply poly_mod_0|]. cbn [bitsum]. rewrite poly_mod_lxor, IH. f_equal.
  destruct (Z.testbit _ _); [done|]. by rewrite poly_mod_0.
Qed.

Lemma bitsum_ext f g n b : (forall i, (i < n)%nat -> f i = g i) -> bitsum f n b = bitsum g n b.
Proof.
  intros H. induction n as [|n IH]; [done|]. cbn [bitsum].
  rewrite IH by (intros; apply H; lia). by rewrite H by lia.
Qed.

Lemma byte_bits b : is_byte b -> bitsum (fun i => Z.shiftl 1 (Z.of_nat i)) 8 b = b.
Proof. intros Hb. apply Z.eqb_eq. revert b Hb. apply byte_check. vm_compute. reflexivity. Qed.

Lemma gf_mul_poly a b : is_byte a -> is_byte b -> gf_mul a b = poly_mod 7 (clmul a b).
Proof.
  intros Ha Hb. rewrite <- (byte_bits b Hb) at 1.
  assert (forall i, (i < 8)%nat -> is_byte (Z.shiftl 1 (Z.of_nat i))) as P.
  { intros i Hi. do 8 (destruct i as [|i]; [done|]). lia. }
  rewrite (proj1 (bitsum_map (gf_mul a) _ 8 b (gf_mul_0_r a Ha) P
                    (fun x y Hx Hy => gf_mul_lxor_r a x y Ha Hx Hy))).
  unfold clmul. rewrite poly_mod_bitsum. apply bitsum_ext. intros i Hi. rewrite gf_mul_table by auto.
  apply Z.eqb_eq. clear P Hb b. revert a Ha. apply byte_check.
  do 8 (destruct i as [|i]; [vm_compute; reflexivity|]). lia.
Qed.

(** the multiply table is multiplication in the AES field and the bytes are
    a field: every product is the carry-less product reduced modulo 0x11B, the
    operations stay in a byte, multiplication is commutative and associative
    and distributes over XOR, one is neutral, every nonzero byte has [gf_inv]
    as inverse, and [gf_div] multiplies by it. *)
Theorem gf_field a b c :
  is_byte a -> is_byte b -> is_byte c ->
  gf_mul a b = poly_mod 7 (clmul a b)
  /\ is_byte (gf_mul a b) /\ is_byte (gf_add a b) /\ is_byte (gf_inv a)
  /\ gf_mul a b = gf_mul b a
  /\ gf_mul a (gf_mul b c) = gf_mul (gf_mul a b) c
  /\ gf_mul a (gf_add b c) = gf_add (gf_mul a b) (gf_mul a c)
  /\ gf_mul 1 a = a
  /\ (a <> 0 -> gf_mul a (gf_inv a) = 1)
  /\ gf_div a b = gf_mul a (gf_inv b).
Proof.
  intros Ha Hb Hc.
  split_and!; auto using gf_mul_poly, gf_mul_comm, gf_mul_assoc, gf_mul_lxor_r, gf_mul_1_l,
    gf_mul_inv, gf_div_inv with gf.
Qed.

Lemma gf_field_witness : is_byte 87 /\ gf_mul 87 0x13 = poly_mod 7 (clmul 87 0x13).
Proof. split; [done|]. by apply (gf_field 87 0x13 5). Defined.

(** ** The vector primitives on every processor *)

(** The definition of the two primitives: byte by byte. *)
Definition axpy_ref (a : Z) (src dst : list Z) : list Z :=
  axpy_scalar (gf_mul a) (Nat.min (length src) (length dst)) src dst.
Definition scal_ref (a : Z) (dst : list Z) : list Z := map (gf_mul a) dst.

Lemma at_map_seq f n j : 0 <= j < Z.of_nat n -> at_ (map f (seq 0 n)) j = f (Z.to_nat j).
Proof.
  intros Hj. unfold at_. rewrite (nth_indep _ 0 (f 0%nat)) by (rewrite length_map, length_seq; lia).
  rewrite map_nth, seq_nth by lia. done.
Qed.

Lemma nibble_lo a j : 0 <= j < 16 -> at_ (take 16 (mul_nibble_tables a)) j = gf_mul a j.
Proof.
  intros Hj. unfold mul_nibble_tables. rewrite take_app_length' by (by rewrite length_map, length_seq).
  rewrite at_map_seq by lia. by rewrite Z2Nat.id by lia.
Qed.
Lemma nibble_hi a j :
  0 <= j < 16 -> at_ (drop 16 (mul_nibble_tables a)) j = gf_mul a (Z.shiftl j 4).
Proof.
  intros Hj. unfold mul_nibble_tables. rewrite drop_app_length' by (by rewrite length_map, length_seq).
  rewrite at_map_seq by lia. by rewrite Z2Nat.id by lia.
Qed.

Lemma nibbles x :
  is_byte x ->
  0 <= Z.land x 15 < 16 /\ 0 <= Z.shiftr x 4 < 16 /\ Z.land (Z.land x 15) 15 = Z.land x 15
  /\ Z.testbit (Z.land x 15) 7 = false /\ Z.testbit (Z.shiftr x 4) 7 = false
  /\ Z.land (Z.shiftr x 4) 15 = Z.shiftr x 4
  /\ is_byte (Z.land x 15) /\ is_byte (Z.shiftl (Z.shiftr x 4) 4)
  /\ Z.lxor (Z.land x 15) (Z.shiftl (Z.shiftr x 4) 4) = x.
Proof.
  intros Hx.
  pose proof (byte_check (fun x =>
    (0 <=? Z.land x 15) && (Z.land x 15 <? 16) && (0 <=? Z.shiftr x 4) && (Z.shiftr x 4 <? 16)
    && (Z.land (Z.land x 15) 15 =? Z.land x 15) && negb (Z.testbit (Z.land x 15) 7)
    && negb (Z.testbit (Z.shiftr x 4) 7) && (Z.land (Z.shiftr x 4) 15 =? Z.shiftr x 4)
    && is_byteb (Z.land x 15) && is_byteb (Z.shiftl (Z.shiftr x 4) 4)
    && (Z.lxor (Z.land x 15) (Z.shiftl (Z.shiftr x 4) 4) =? x))
    ltac:(vm_compute; reflexivity) x Hx) as H.
  cbv beta in H. rewrite !andb_true_iff, !negb_true_iff, !is_byteb_true in H.
  destruct_and!. split_and!; first [done|lia].
Qed.

Lemma nibble_product a x :
  is_byte a -> is_byte x ->
  Z.lxor (gf_mul a (Z.land x 15)) (gf_mul a (Z.shiftl (Z.shiftr x 4) 4)) = gf_mul a x.
Proof.
  intros Ha Hx. destruct (nibbles x Hx) as (_ & _ & _ & _ & _ & _ & H1 & H2 & H3).
  rewrite <- gf_mul_lxor_r by done. by rewrite H3.
Qed.

Lemma lanes_neon_spec a x :
  is_byte a -> bytes_ok x -> lanes_neon (mul_nibble_tables a) x = map (gf_mul a) x.
Proof.
  intros Ha. unfold lanes_neon. induction 1 as [|b x Hb _ IH]; [done|].
  cbn [map zip_with]. f_equal; [|exact IH].
  destruct (nibbles b Hb) as (H1 & H2 & _). unfold vqtbl1q.
  rewrite (proj2 (Z.ltb_lt _ _) (proj2 H1)), (proj2 (Z.ltb_lt _ _) (proj2 H2)).
  rewrite nibble_lo, nibble_hi by lia. by apply nibble_product.
Qed.

Lemma srli_land l :
  bytes_ok l -> Nat.Even (length l) ->
  map (fun b => Z.land b 0x0F) (srli_epi16_4 l) = map (fun b => Z.shiftr b 4) l.
Proof.
  intros Hl [n Hn]. revert l Hl Hn. induction n as [|n IH]; intros l Hl Hn.
  - by destruct l.
  - destruct l as [|a [|b l]]; try (cbn in Hn; lia).
    apply list.Forall_cons in Hl as [Ha Hl]. apply list.Forall_cons in Hl as [Hb Hl].
    cbn [srli_epi16_4 map]. rewrite IH by (done || cbn in Hn; lia).
    unfold is_byte in *. change 0x0F with (Z.ones 4).
    rewrite !Z.land_ones, !Z.shiftr_div_pow2 by lia. f_equal; [|f_equal]; zlia.
Qed.

Lemma lanes_x86_spec a x :
  is_byte a -> bytes_ok x -> Nat.Even (length x) ->
  lanes_x86 (mul_nibble_tables a) x = map (gf_mul a) x.
Proof.
  intros Ha Hx He. unfold lanes_x86. rewrite srli_land by done. clear He.
  induction Hx as [|b x Hb _ IH]; [done|]. cbn [map zip_with]. f_equal; [|exact IH].
  destruct (nibbles b Hb) as (H1 & H2 & H3 & H4 & H5 & H6 & _). unfold pshufb.
  rewrite H4, H5, H3, H6, nibble_lo, nibble_hi by lia. by apply nibble_product.
Qed.

Lemma length_axpy_scalar f n src dst : length (axpy_scalar f n src dst) = length dst.
Proof.
  revert src dst. induction n as [|n IH]; intros src dst; [done|].
  destruct src, dst; cbn; auto.
Qed.

Lemma axpy_scalar_ext f g n src dst :
  (forall x, is_byte x -> f x = g x) -> bytes_ok src -> axpy_scalar f n src dst = axpy_scalar g n src dst.
Proof.
  intros H Hs. revert n dst. induction Hs as [|s src Hb _ IH]; intros [|n] [|d dst]; cbn; try done.
  by rewrite H, IH.
Qed.

Lemma axpy_scalar_nil_l f n dst : axpy_scalar f n [] dst = dst.
Proof. by destruct n. Qed.
Lemma axpy_scalar_nil_r f n src : axpy_scalar f n src [] = [].
Proof. by destruct n, src. Qed.

Lemma axpy_scalar_add f i m src dst :
  axpy_scalar f (i + m) src dst
  = take i (axpy_scalar f i src dst) ++ axpy_scalar f m (drop i src) (drop i dst).
Proof.
  revert src dst. induction i as [|i IH]; intros src dst; [done|].
  destruct src as [|s src]; [destruct dst|destruct dst as [|d dst]]; cbn [axpy_scalar Nat.add drop take app].
  - by rewrite axpy_scalar_nil_r.
  - rewrite axpy_scalar_nil_l. cbn. by rewrite take_drop.
  - by rewrite axpy_scalar_nil_r.
  - by rewrite IH.
Qed.

Lemma drop_axpy_scalar f i src dst : drop i (axpy_scalar f i src dst) = drop i dst.
Proof.
  revert src dst. induction i as [|i IH]; intros src dst; [done|].
  destruct src, dst; cbn; auto.
Qed.

Lemma axpy_scalar_zip f w src dst :
  (w <= length src)%nat -> (w <= length dst)%nat ->
  take w (axpy_scalar f w src dst) = zip_with Z.lxor (take w dst) (map f (take w src)).
Proof.
  revert src dst. induction w as [|w IH]; intros src dst Hs Hd; [done|].
  destruct src as [|s src], dst as [|d dst]; try (cbn in *; lia). cbn in *.
  rewrite IH by lia. done.
Qed.

(** The loops over whole registers. *)
Definition lanes_ok (f : Z -> Z) (w : nat) (lanes : list Z -> list Z) : Prop :=
  forall x, bytes_ok x -> length x = w -> lanes x = map f x.

Lemma whole_step n w : (0 < w <= n)%nat -> (n - n mod w = w + (n - w - (n - w) mod w))%nat.
Proof.
  intros Hw. assert (n mod w = (n - w) mod w)%nat as E.
  { replace n with (n - w + 1 * w)%nat at 1 by lia. by apply Nat.Div0.mod_add. }
  rewrite E. pose proof (Nat.Div0.mod_le (n - w) w). lia.
Qed.

Lemma axpy_kernel_spec f w lanes fuel src dst n :
  (0 < w)%nat -> lanes_ok f w lanes -> bytes_ok src ->
  (n <= length src)%nat -> (n <= length dst)%nat -> (n <= fuel)%nat ->
  axpy_kernel fuel w lanes src dst n = axpy_scalar f (n - n mod w) src dst.
Proof.
  intros Hw Hl. revert src dst n. induction fuel as [|fuel IH]; intros src dst n Hs H1 H2 H3.
  - assert (n = 0)%nat as -> by lia. by rewrite Nat.Div0.mod_0_l.
  - cbn [axpy_kernel]. destruct (Nat.ltb_spec n w).
    + rewrite Nat.mod_small, Nat.sub_diag by done. done.
    + rewrite whole_step, axpy_scalar_add, axpy_scalar_zip by lia.
      rewrite Hl, IH; rewrite ?length_drop; try lia; [done|by apply Forall_drop|by apply Forall_take|].
      rewrite length_take. lia.
Qed.

Lemma scal_kernel_spec f w lanes fuel dst n :
  (0 < w)%nat -> lanes_ok f w lanes -> bytes_ok dst -> (n <= length dst)%nat -> (n <= fuel)%nat ->
  scal_kernel fuel w lanes dst n
  = map f (take (n - n mod w) dst) ++ drop (n - n mod w) dst.
Proof.
  intros Hw Hl. revert dst n. induction fuel as [|fuel IH]; intros dst n Hs H1 H2.
  - assert (n = 0)%nat as -> by lia. by rewrite Nat.Div0.mod_0_l.
  - cbn [scal_kernel]. destruct (Nat.ltb_spec n w).
    + rewrite Nat.mod_small, Nat.sub_diag by done. done.
    + rewrite whole_step by lia.
      rewrite Hl, IH; rewrite ?length_drop; try lia; [|by apply Forall_drop|by apply Forall_take|].
      * set (m := (n - w - (n - w) mod w)%nat). rewrite <- drop_drop.
        rewrite <- (take_take_drop dst w m), map_app, <- app_assoc. done.
      * rewrite length_take. lia.
Qed.

Lemma lanes_ok_x86 a w : is_byte a -> Nat.Even w -> lanes_ok (gf_mul a) w (lanes_x86 (mul_nibble_tables a)).
Proof. intros Ha Hw x Hx <-. by apply lanes_x86_spec. Qed.
Lemma lanes_ok_neon a w : is_byte a -> lanes_ok (gf_mul a) w (lanes_neon (mul_nibble_tables a)).
Proof. intros Ha x Hx _. by apply lanes_neon_spec. Qed.

Lemma axpy_finish f i n src dst :
  (i <= n)%nat ->
  take i (axpy_scalar f i src dst)
  ++ axpy_scalar f (n - i) (drop i src) (drop i (axpy_scalar f i src dst)) = axpy_scalar f n src dst.
Proof.
  intros Hi. rewrite drop_axpy_scalar. replace n with (i + (n - i))%nat at 2 by lia.
  by rewrite axpy_scalar_add.
Qed.

Lemma axpy_scalar_zero n src dst :
  bytes_ok src -> axpy_scalar (gf_mul 0) n src dst = dst.
Proof.
  intros Hs. revert n dst. induction Hs as [|s src Hb _ IH]; intros [|n] [|d dst]; cbn; try done.
  by rewrite IH, gf_mul_0_l, Z.lxor_0_r.
Qed.

Lemma gf_axpy_slice_eq cpu a src dst :
  is_byte a -> bytes_ok src -> gf_axpy_slice cpu a src dst = axpy_ref a src dst.
Proof.
  intros Ha Hs. unfold gf_axpy_slice, axpy_ref. set (n := Nat.min _ _).
  destruct (Z.eqb_spec a 0) as [->|Hz]; cbn [orb]; [by rewrite axpy_scalar_zero|].
  destruct (Nat.eqb_spec n 0) as [->|Hn]; [done|].
  destruct (Z.eqb_spec a 1) as [->|H1].
  { apply axpy_scalar_ext; [|done]. intros x Hx. by rewrite gf_mul_1_l. }
  change (at_ (mul_row a)) with (gf_mul a).
  assert (forall w, (0 < w)%nat -> (n - n mod w <= n)%nat) as Hle by (intros; lia).
  destruct cpu; cbn zeta; unfold axpy_avx2, axpy_ssse3, axpy_neon;
    [erewrite axpy_kernel_spec with (f := gf_mul a)..|];
    try (apply axpy_finish; lia); try done; try lia;
    try (apply lanes_ok_x86; [done|by apply Nat.even_spec]);
    try by apply lanes_ok_neon.
  by rewrite Nat.sub_0_r.
Qed.

Lemma scal_finish (f : Z -> Z) i (dst : list Z) :
  take i (map f (take i dst) ++ drop i dst) ++ map f (drop i (map f (take i dst) ++ drop i dst))
  = map f dst.
Proof.
  destruct (decide (i <= length dst)%nat) as [Hi|Hi].
  - rewrite take_app_length', drop_app_length' by (rewrite length_map, length_take; lia).
    by rewrite <- map_app, take_drop.
  - rewrite (drop_ge dst), (take_ge dst), app_nil_r by lia.
    rewrite take_ge, drop_ge by (rewrite length_map; lia). by rewrite app_nil_r.
Qed.

Lemma gf_scal_slice_eq cpu a dst :
  is_byte a -> bytes_ok dst -> gf_scal_slice cpu a dst = scal_ref a dst.
Proof.
  intros Ha Hd. unfold gf_scal_slice, scal_ref. set (n := length dst).
  destruct (Nat.eqb_spec n 0) as [Hn|Hn]; [by destruct dst|].
  destruct (Z.eqb_spec a 0) as [->|Hz].
  { induction Hd as [|d dst Hb Hd IH]; [done|]. cbn [map]. rewrite gf_mul_0_l by done. f_equal.
    destruct dst; [done|]. apply IH. done. }
  destruct (Z.eqb_spec a 1) as [->|H1].
  { clear n Hn. induction Hd as [|d dst Hb Hd IH]; [done|]. cbn [map]. by rewrite <- IH, gf_mul_1_l. }
  change (at_ (mul_row a)) with (gf_mul a).
  destruct cpu; cbn zeta; unfold scal_avx2, scal_ssse3, scal_neon;
    [erewrite scal_kernel_spec with (f := gf_mul a)..|];
    try apply scal_finish; try done; try lia;
    try (apply lanes_ok_x86; [done|by apply Nat.even_spec]);
    try by apply lanes_ok_neon.
Qed.

Lemma axpy_ref_bytes a src dst :
  is_byte a -> bytes_ok src -> bytes_ok dst -> bytes_ok (axpy_ref a src dst).
Proof.
  intros Ha Hs Hd. unfold axpy_ref. generalize (Nat.min (length src) (length dst)) as n.
  intros n. revert n dst Hd.
  induction Hs as [|s src Hb _ IH]; intros [|n] [|d dst] Hd; cbn; try done.
  apply list.Forall_cons in Hd as [Hd1 Hd2]. constructor; [auto with gf|by apply IH].
Qed.
Lemma scal_ref_bytes a dst : is_byte a -> bytes_ok dst -> bytes_ok (scal_ref a dst).
Proof. intros Ha. induction 1 as [|d dst Hb _ IH]; cbn; constructor; auto with gf. Qed.

(** the vector primitives do the same thing on every processor.  Whatever
    kernel runs (AVX2, SSSE3, NEON, or none) and whatever the lengths, [axpy]
    adds [a] times the source to the destination byte by byte over the common
    length and leaves the rest alone, and [scal_inplace] multiplies every byte
    by [a]; both keep the length and stay in bytes. *)
Theorem simd_equivalence cpu a src dst :
  is_byte a -> bytes_ok src -> bytes_ok dst ->
  (forall i, nth i (axpy cpu dst a src) 0
             = if (i <? Nat.min (length src) (length dst))%nat
               then Z.lxor (nth i dst 0) (gf_mul a (nth i src 0)) else nth i dst 0)
  /\ length (axpy cpu dst a src) = length dst
  /\ scal_inplace cpu dst a = map (gf_mul a) dst
  /\ bytes_ok (axpy cpu dst a src) /\ bytes_ok (scal_inplace cpu dst a).
Proof.
  intros Ha Hs Hd. unfold axpy, scal_inplace. rewrite gf_axpy_slice_eq, gf_scal_slice_eq by done.
  split_and!; [unfold axpy_ref|unfold axpy_ref|..].
  - clear Ha Hs Hd. revert dst. induction src as [|s src IH]; intros [|d dst] i; cbn [length Nat.min].
    1-3: cbn; by destruct i.
    cbn [axpy_scalar]. destruct i as [|i]; [done|]. cbn [nth]. rewrite IH. done.
  - apply length_axpy_scalar.
  - done.
  - by apply axpy_ref_bytes.
  - by apply scal_ref_bytes.
Qed.

Lemma simd_equivalence_witness :
  scal_inplace Avx2 (map Z.of_nat (seq 0 40)) 7 = map (gf_mul 7) (map Z.of_nat (seq 0 40)).
Proof. apply (simd_equivalence Avx2 7 [] (map Z.of_nat (seq 0 40))); by_decide. Defined.

(** ** Gaussian elimination as row operations *)

(** The product of a row with a column. *)
Fixpoint dot (row y : list Z) : Z :=
  match row, y with
  | c :: row', x :: y' => Z.lxor (gf_mul c x) (dot row' y')
  | _, _ => 0
  end.

Definition row_ok (m : nat) (row : list Z) : Prop := length row = m /\ bytes_ok row.

Lemma dot_byte row y : bytes_ok row -> bytes_ok y -> is_byte (dot row y).
Proof.
  intros Hr. revert y. induction Hr as [|c row Hc _ IH]; intros y Hy; [done|].
  destruct Hy as [|x y Hx Hy]; [done|]. cbn [dot]. auto with gf.
Qed.

Lemma dot_scal a row y :
  is_byte a -> bytes_ok row -> bytes_ok y -> dot (map (gf_mul a) row) y = gf_mul a (dot row y).
Proof.
  intros Ha Hr. revert y. induction Hr as [|c row Hc Hr IH]; intros y Hy.
  - cbn. by rewrite gf_mul_0_r.
  - destruct Hy as [|x y Hx Hy]; [cbn; by rewrite gf_mul_0_r|]. cbn [dot map].
    rewrite IH, gf_mul_lxor_r by auto using dot_byte with gf. by rewrite gf_mul_assoc.
Qed.

Lemma axpy_ref_nil_r a src : axpy_ref a src [] = [].
Proof. apply axpy_scalar_nil_r. Qed.
Lemma axpy_ref_cons a s src d dst :
  axpy_ref a (s :: src) (d :: dst) = Z.lxor d (gf_mul a s) :: axpy_ref a src dst.
Proof. done. Qed.

Lemma dot_axpy a src dst y :
  is_byte a -> bytes_ok src -> bytes_ok dst -> bytes_ok y -> length src = length dst ->
  dot (axpy_ref a src dst) y = Z.lxor (dot dst y) (gf_mul a (dot src y)).
Proof.
  intros Ha Hs. revert dst y. induction Hs as [|s src Hb Hs IH]; intros dst y Hd Hy Hl.
  - destruct dst; [|done]. rewrite axpy_ref_nil_r. cbn. by rewrite gf_mul_0_r.
  - destruct Hd as [|d dst Hd0 Hd]; [done|]. rewrite axpy_ref_cons.
    destruct Hy as [|x y Hx Hy]; [cbn; by rewrite gf_mul_0_r|]. cbn [dot].
    rewrite IH by (done || cbn in Hl; lia).
    rewrite gf_mul_lxor_l, gf_mul_lxor_r by auto using dot_byte with gf.
    rewrite gf_mul_assoc by done. bits.
Qed.

Lemma axpy_ref_ok m a src dst :
  is_byte a -> row_ok m src -> row_ok m dst -> row_ok m (axpy_ref a src dst).
Proof.
  intros Ha [_ Hs] [Hl Hd]. split; [unfold axpy_ref; by rewrite length_axpy_scalar|].
  by apply axpy_ref_bytes.
Qed.

Lemma nth_imap {A B} (f : nat -> A -> B) l r da db :
  (r < length l)%nat -> nth r (imap f l) db = f r (nth r l da).
Proof.
  intros Hr. rewrite !nth_lookup, list_lookup_imap.
  destruct (lookup_lt_is_Some_2 l r Hr) as [x ->]. done.
Qed.

Lemma nth_insert {A} (l : list A) i r x d :
  nth r (<[i := x]> l) d = if (r =? i)%nat && (i <? length l)%nat then x else nth r l d.
Proof.
  rewrite !nth_lookup. destruct (Nat.eqb_spec r i) as [->|Hne]; cbn [andb].
  - destruct (Nat.ltb_spec i (length l)); [by rewrite list_lookup_insert_eq|].
    by rewrite list_insert_ge.
  - by rewrite list_lookup_insert_ne.
Qed.

Lemma swap_rows_nth rows i j r :
  (i < length rows)%nat -> (j < length rows)%nat ->
  nth r (swap_rows rows i j) [] =
  if (r =? i)%nat then nth j rows [] else if (r =? j)%nat then nth i rows [] else nth r rows [].
Proof.
  intros Hi Hj. unfold swap_rows. rewrite nth_insert, length_insert, nth_insert.
  rewrite (proj2 (Nat.ltb_lt _ _) Hi), (proj2 (Nat.ltb_lt _ _) Hj), !andb_true_r. done.
Qed.
Lemma length_swap_rows rows i j : length (swap_rows rows i j) = length rows.
Proof. unfold swap_rows. by rewrite !length_insert. Qed.

Definition rows_ok (m : nat) (rows : list (list Z)) : Prop :=
  forall r, (r < length rows)%nat -> row_ok m (nth r rows []).

Lemma rows_ok_Forall m rows : rows_ok m rows <-> Forall (row_ok m) rows.
Proof.
  rewrite List.Forall_nth. unfold rows_ok. split; intros H.
  - intros i d Hi. rewrite (nth_indep _ d [] Hi). by apply H.
  - intros r Hr. by apply H.
Qed.

Lemma entry_byte m rows r col : rows_ok m rows -> is_byte (entry rows r col).
Proof.
  intros H. unfold entry. destruct (decide (r < length rows)%nat) as [Hr|Hr].
  - destruct (H r Hr) as [_ Hb]. destruct (decide (col < length (nth r rows []))%nat) as [Hc|Hc].
    + by apply List.Forall_nth.
    + rewrite nth_overflow by lia. done.
  - rewrite (nth_overflow rows) by lia. by destruct col.
Qed.

(** The rows before the pivot step, in their new order. *)
Definition reordered (rows : list (list Z)) (rank p : nat) : list (list Z) :=
  if (rank =? p)%nat then rows else swap_rows rows rank p.

Lemma reordered_nth rows rank p r :
  (rank < length rows)%nat -> (p < length rows)%nat ->
  nth r (reordered rows rank p) [] =
  if (r =? rank)%nat then nth p rows []
  else if (r =? p)%nat then nth rank rows [] else nth r rows [].
Proof.
  intros H1 H2. unfold reordered. destruct (Nat.eqb_spec rank p) as [->|Hne].
  - by destruct (Nat.eqb_spec r p) as [->|].
  - by apply swap_rows_nth.
Qed.
Lemma length_reordered rows rank p : length (reordered rows rank p) = length rows.
Proof. unfold reordered. destruct (_ =? _)%nat; [done|]. apply length_swap_rows. Qed.

Lemma reordered_ok m rows rank p :
  rows_ok m rows -> (rank < length rows)%nat -> (p < length rows)%nat -> rows_ok m (reordered rows rank p).
Proof.
  intros H H1 H2 r Hr. rewrite length_reordered in Hr. rewrite reordered_nth by done.
  destruct (r =? rank)%nat; [by apply H|]. destruct (r =? p)%nat; by apply H.
Qed.

Lemma axpy_ref_zero src dst : bytes_ok src -> axpy_ref 0 src dst = dst.
Proof. apply axpy_scalar_zero. Qed.

(** What one pivot step does to every row. *)
Lemma gauss_pivot_nth cpu m rows col rank p r :
  rows_ok m rows -> (rank < length rows)%nat -> (p < length rows)%nat -> entry rows p col <> 0 ->
  (r < length rows)%nat ->
  let prow := scal_ref (gf_inv (entry rows p col)) (nth p rows []) in
  nth r (gauss_pivot cpu rows col rank p) [] =
  if (r =? rank)%nat then prow
  else axpy_ref (entry (reordered rows rank p) r col) prow (nth r (reordered rows rank p) []).
Proof.
  intros Hok H1 H2 Hpv Hr. cbv zeta. unfold gauss_pivot. fold (reordered rows rank p).
  pose proof (reordered_ok m rows rank p Hok H1 H2) as Hok'.
  assert (nth rank (reordered rows rank p) [] = nth p rows []) as Ep.
  { rewrite reordered_nth by done. by rewrite Nat.eqb_refl. }
  assert (entry (reordered rows rank p) rank col = entry rows p col) as Ee.
  { unfold entry. by rewrite Ep. }
  rewrite (nth_imap _ _ _ []) by (by rewrite length_reordered).
  assert (at_ (t_exp tables) (255 - at_ (t_log tables) (entry rows p col)) = gf_inv (entry rows p col)) as Ei.
  { unfold gf_inv. by rewrite (proj2 (Z.eqb_neq _ _) Hpv). }
  pose proof (entry_byte m rows p col Hok) as Hb. destruct (Hok p H2) as [_ Hp].
  rewrite Ee, Ei, Ep, gf_scal_slice_eq by auto with gf.
  destruct (r =? rank)%nat; [done|].
  fold (entry (reordered rows rank p) r col).
  assert (bytes_ok (scal_ref (gf_inv (entry rows p col)) (nth p rows []))) as Hs.
  { apply scal_ref_bytes; auto with gf. }
  destruct (Z.eqb_spec (entry (reordered rows rank p) r col) 0) as [->|Hz].
  - by rewrite axpy_ref_zero.
  - rewrite gf_axpy_slice_eq; [done|by eapply entry_byte|done].
Qed.

Lemma length_gauss_pivot cpu rows col rank p : length (gauss_pivot cpu rows col rank p) = length rows.
Proof. unfold gauss_pivot. fold (reordered rows rank p). by rewrite length_imap, length_reordered. Qed.

Lemma scal_ref_ok m a row : is_byte a -> row_ok m row -> row_ok m (scal_ref a row).
Proof. intros Ha [Hl Hb]. split; [unfold scal_ref; by rewrite length_map|by apply scal_ref_bytes]. Qed.

Lemma gauss_pivot_ok cpu m rows col rank p :
  rows_ok m rows -> (rank < length rows)%nat -> (p < length rows)%nat -> entry rows p col <> 0 ->
  rows_ok m (gauss_pivot cpu rows col rank p).
Proof.
  intros Hok H1 H2 Hpv r Hr. rewrite length_gauss_pivot in Hr.
  rewrite (gauss_pivot_nth cpu m) by done.
  pose proof (entry_byte m rows p col Hok) as Hb.
  pose proof (reordered_ok m rows rank p Hok H1 H2) as Hok'.
  assert (row_ok m (scal_ref (gf_inv (entry rows p col)) (nth p rows []))).
  { apply scal_ref_ok; [auto with gf|by apply Hok]. }
  destruct (r =? rank)%nat; [done|].
  apply axpy_ref_ok; [by eapply entry_byte|done|]. apply Hok'. by rewrite length_reordered.
Qed.

(** The columns orthogonal to every row. *)
Definition kernel (rows : list (list Z)) (y : list Z) : Prop :=
  forall r, (r < length rows)%nat -> dot (nth r rows []) y = 0.

Lemma reordered_kernel rows rank p y :
  (rank < length rows)%nat -> (p < length rows)%nat ->
  kernel (reordered rows rank p) y <-> kernel rows y.
Proof.
  intros H1 H2. unfold kernel. rewrite length_reordered. split; intros H r Hr.
  - destruct (decide (r = rank)) as [->|N1]; [|destruct (decide (r = p)) as [->|N2]].
    + specialize (H p H2). rewrite reordered_nth in H by done.
      destruct (Nat.eqb_spec p rank) as [->|]; [done|]. by rewrite Nat.eqb_refl in H.
    + specialize (H rank H1). rewrite reordered_nth in H by done. by rewrite Nat.eqb_refl in H.
    + specialize (H r Hr). rewrite reordered_nth in H by done.
      by rewrite (proj2 (Nat.eqb_neq _ _) N1), (proj2 (Nat.eqb_neq _ _) N2) in H.
  - rewrite reordered_nth by done. destruct (r =? rank)%nat; [by apply H|].
    destruct (r =? p)%nat; by apply H.
Qed.

Lemma gf_mul_cancel a x : is_byte a -> is_byte x -> a <> 0 -> gf_mul a x = 0 -> x = 0.
Proof.
  intros Ha Hx Hz E. destruct (decide (x = 0)); [done|]. exfalso. by apply (gf_mul_nonzero a x).
Qed.

Lemma gauss_pivot_kernel cpu m rows col rank p y :
  rows_ok m rows -> (rank < length rows)%nat -> (p < length rows)%nat -> entry rows p col <> 0 ->
  bytes_ok y ->
  kernel (gauss_pivot cpu rows col rank p) y <-> kernel rows y.
Proof.
  intros Hok H1 H2 Hpv Hy. rewrite <- (reordered_kernel rows rank p) by done.
  unfold kernel. rewrite length_gauss_pivot, length_reordered.
  pose proof (entry_byte m rows p col Hok) as Hb. destruct (Hok p H2) as [Hlp Hp].
  pose proof (reordered_ok m rows rank p Hok H1 H2) as Hok'. unfold rows_ok in Hok'.
  rewrite length_reordered in Hok'.
  set (prow := scal_ref (gf_inv (entry rows p col)) (nth p rows [])).
  assert (row_ok m prow) as [Hl Hs] by (apply scal_ref_ok; [auto with gf|done]).
  assert (dot prow y = gf_mul (gf_inv (entry rows p col)) (dot (nth p rows []) y)) as Ep.
  { apply dot_scal; auto with gf. }
  assert (forall r, (r < length rows)%nat -> r <> rank ->
            dot (nth r (gauss_pivot cpu rows col rank p) []) y
            = Z.lxor (dot (nth r (reordered rows rank p) []) y)
                (gf_mul (entry (reordered rows rank p) r col) (dot prow y))) as Er.
  { intros r Hr Hne. rewrite (gauss_pivot_nth cpu m) by done. rewrite (proj2 (Nat.eqb_neq _ _) Hne).
    destruct (Hok' r Hr) as [Hlr Hbr]. apply dot_axpy; try done; [|fold prow; congruence].
    apply (entry_byte m). unfold rows_ok. by rewrite length_reordered. }
  assert (nth rank (gauss_pivot cpu rows col rank p) [] = prow) as E0.
  { rewrite (gauss_pivot_nth cpu m) by done. by rewrite Nat.eqb_refl. }
  assert (nth rank (reordered rows rank p) [] = nth p rows []) as E1.
  { rewrite reordered_nth by done. by rewrite Nat.eqb_refl. }
  assert (forall r, is_byte (entry (reordered rows rank p) r col)) as Hbe.
  { intros r. apply (entry_byte m). unfold rows_ok. by rewrite length_reordered. }
  split; intros H.
  - assert (dot prow y = 0) as Z0 by (rewrite <- E0; by apply H).
    intros r Hr. destruct (decide (r = rank)) as [->|Hne].
    + rewrite E1. rewrite Ep in Z0. apply gf_mul_cancel in Z0; auto with gf; [by apply dot_byte|].
      by apply glog_inv.
    + specialize (H r Hr). by rewrite Er, Z0, gf_mul_0_r, Z.lxor_0_r in H.
  - assert (dot prow y = 0) as Z0.
    { rewrite Ep, <- E1, H by done. apply gf_mul_0_r. auto with gf. }
    intros r Hr. destruct (decide (r = rank)) as [->|Hne]; [by rewrite E0|].
    rewrite Er, Z0, gf_mul_0_r, Z.lxor_0_r by done. by apply H.
Qed.

(** The identity on the first [c] columns. *)
Definition ident (rows : list (list Z)) (c : nat) : Prop :=
  (c <= length rows)%nat
  /\ forall r j, (r < length rows)%nat -> (j < c)%nat -> entry rows r j = if (r =? j)%nat then 1 else 0.

Lemma nth_axpy_ref a src dst j :
  (j < length src)%nat -> (j < length dst)%nat ->
  nth j (axpy_ref a src dst) 0 = Z.lxor (nth j dst 0) (gf_mul a (nth j src 0)).
Proof.
  revert dst j. induction src as [|s src IH]; intros dst j H1 H2; [cbn in H1; lia|].
  destruct dst as [|d dst]; [cbn in H2; lia|]. rewrite axpy_ref_cons.
  destruct j as [|j]; [done|]. cbn [nth]. apply IH; cbn in *; lia.
Qed.
Lemma axpy_row_nth cpu m c a b j :
  is_byte c -> row_ok m a -> row_ok m b -> (j < m)%nat ->
  nth j (axpy cpu a c b) 0 = Z.lxor (nth j a 0) (gf_mul c (nth j b 0)).
Proof.
  intros Hc [Ha1 Ha2] [Hb1 Hb2] Hj. unfold axpy. rewrite gf_axpy_slice_eq by done.
  by apply nth_axpy_ref; lia.
Qed.

Lemma axpy_row_ok cpu m c a b : is_byte c -> row_ok m a -> row_ok m b -> row_ok m (axpy cpu a c b).
Proof.
  intros Hc Ha Hb. unfold axpy. rewrite gf_axpy_slice_eq; [by apply axpy_ref_ok|done|apply Hb].
Qed.

Lemma nth_scal_ref a l j : (j < length l)%nat -> nth j (scal_ref a l) 0 = gf_mul a (nth j l 0).
Proof.
  intros Hj. unfold scal_ref. rewrite (nth_indep _ 0 (gf_mul a 0)) by (by rewrite length_map).
  apply map_nth.
Qed.

Lemma gauss_pivot_ident cpu m rows c p :
  rows_ok m rows -> ident rows c -> (c < m)%nat -> (c <= p < length rows)%nat -> entry rows p c <> 0 ->
  ident (gauss_pivot cpu rows c c p) (S c).
Proof.
  intros Hok [_ Hid] Hm Hp Hpv. split; [rewrite length_gauss_pivot; lia|].
  rewrite length_gauss_pivot. intros r j Hr Hj. unfold entry at 1.
  rewrite (gauss_pivot_nth cpu m) by (done || lia).
  pose proof (reordered_ok m rows c p Hok ltac:(lia) ltac:(lia)) as Hok'.
  destruct (Hok p ltac:(lia)) as [Hlp Hbp]. pose proof (entry_byte m rows p c Hok) as Hb.
  assert (forall i, entry (reordered rows c p) i j
          = if (i =? c)%nat then entry rows p j else if (i =? p)%nat then entry rows c j
            else entry rows i j) as Ee.
  { intros i. unfold entry. rewrite reordered_nth by lia. by repeat case_match. }
  set (prow := scal_ref _ _).
  assert (length prow = m) as Hlen by (unfold prow, scal_ref; by rewrite length_map).
  assert (nth j prow 0 = if (j =? c)%nat then 1 else 0) as Ep.
  { unfold prow. rewrite nth_scal_ref by lia. fold (entry rows p j).
    destruct (Nat.eqb_spec j c) as [->|Hne].
    - rewrite gf_mul_comm by auto with gf. by apply gf_mul_inv.
    - rewrite (Hid p j) by lia. rewrite (proj2 (Nat.eqb_neq p j)) by lia. apply gf_mul_0_r. auto with gf. }
  destruct (Nat.eqb_spec r c) as [->|Hrc].
  { rewrite Ep. by rewrite Nat.eqb_sym. }
  destruct (Hok' r ltac:(by rewrite length_reordered)) as [Hlr _].
  rewrite nth_axpy_ref by lia. fold (entry (reordered rows c p) r j). rewrite Ep.
  pose proof (entry_byte m _ r c Hok') as Hbe.
  destruct (Nat.eqb_spec j c) as [->|Hjc].
  - rewrite (gf_mul_comm _ 1), gf_mul_1_l, Z.lxor_nilpotent by done.
    by rewrite (proj2 (Nat.eqb_neq r c)).
  - rewrite gf_mul_0_r, Z.lxor_0_r by done. rewrite Ee, (proj2 (Nat.eqb_neq r c)) by done.
    destruct (Nat.eqb_spec r p) as [->|Hrp].
    + rewrite Hid by lia. rewrite (proj2 (Nat.eqb_neq c j)), (proj2 (Nat.eqb_neq p j)) by lia. done.
    + apply Hid; lia.
Qed.

Lemma find_pivot_Some rows col rank p :
  find_pivot rows col rank = Some p -> (rank <= p < length rows)%nat /\ entry rows p col <> 0.
Proof.
  intros H. apply find_some in H as [H1 H2]. apply in_seq in H1. apply negb_true_iff in H2. lia.
Qed.
Lemma find_pivot_None rows col rank r :
  find_pivot rows col rank = None -> (rank <= r < length rows)%nat -> entry rows r col = 0.
Proof.
  intros H Hr. pose proof (find_none _ _ H r) as Hn. rewrite in_seq in Hn.
  specialize (Hn ltac:(lia)). apply negb_false_iff in Hn. lia.
Qed.

(** A row times a column as a sum over the indices. *)
Fixpoint xsum (g : nat -> Z) (n : nat) : Z :=
  match n with O => 0 | S n' => Z.lxor (xsum g n') (g n') end.

Lemma xsum_front g n : xsum g (S n) = Z.lxor (g 0%nat) (xsum (fun i => g (S i)) n).
Proof.
  induction n as [|n IH]; [cbn; by rewrite Z.lxor_0_r|].
  cbn [xsum] in IH |- *. rewrite IH. by rewrite Z.lxor_assoc.
Qed.
Lemma xsum_ext g h n : (forall i, (i < n)%nat -> g i = h i) -> xsum g n = xsum h n.
Proof.
  intros H. induction n as [|n IH]; [done|]. cbn [xsum]. rewrite IH by (intros; apply H; lia).
  by rewrite H by lia.
Qed.
Lemma xsum_zero g n : (forall i, (i < n)%nat -> g i = 0) -> xsum g n = 0.
Proof.
  intros H. induction n as [|n IH]; [done|]. cbn [xsum]. rewrite IH by (intros; apply H; lia).
  by rewrite H by lia.
Qed.
Lemma xsum_single g n r : (r < n)%nat -> (forall i, (i < n)%nat -> i <> r -> g i = 0) -> xsum g n = g r.
Proof.
  intros Hr H. induction n as [|n IH]; [lia|]. cbn [xsum]. destruct (decide (r = n)) as [->|Hne].
  - rewrite xsum_zero; [by rewrite Z.lxor_0_l|]. intros i Hi. apply H; lia.
  - rewrite IH by (lia || (intros; apply H; lia)). rewrite (H n) by lia. apply Z.lxor_0_r.
Qed.

Lemma bytes_nth l i : bytes_ok l -> is_byte (nth i l 0).
Proof.
  intros H. destruct (decide (i < length l)%nat); [by apply List.Forall_nth|].
  rewrite nth_overflow by lia. done.
Qed.

Lemma dot_xsum row y :
  bytes_ok row -> bytes_ok y -> dot row y = xsum (fun j => gf_mul (nth j row 0) (nth j y 0)) (length y).
Proof.
  intros Hr Hy. revert row Hr. induction Hy as [|x y Hx Hy IH]; intros row Hr.
  - by destruct row.
  - cbn [length]. rewrite xsum_front. cbn [nth]. destruct Hr as [|c row Hc Hr]; cbn [dot nth].
    + rewrite gf_mul_0_l by done. rewrite xsum_zero; [done|]. intros i _.
      rewrite (gf_mul_table); [by destruct i|by destruct i|by apply bytes_nth].
    + f_equal. by apply IH.
Qed.

Lemma dot_app_zeros row y n : bytes_ok row -> bytes_ok y -> dot row (y ++ repeat 0 n) = dot row y.
Proof.
  intros Hr Hy. revert y Hy. induction Hr as [|c row Hc Hr IH]; intros y Hy; [done|].
  destruct Hy as [|x y Hx Hy]; cbn [app dot].
  - destruct n as [|n]; [done|]. cbn [repeat dot]. rewrite gf_mul_0_r by done.
    specialize (IH [] ltac:(constructor)). cbn [app] in IH.
    assert (dot row (repeat 0 n) = 0) as ->; [|done].
    clear -Hr. revert n. induction Hr as [|c row Hc Hr IH]; intros [|n]; try done.
    cbn [repeat dot]. by rewrite IH, gf_mul_0_r.
  - by rewrite IH.
Qed.

(** Without a pivot in column [c] below an identity, the column is a
    combination of the earlier ones: a nonzero vector is orthogonal to all. *)
Definition free_vector (rows : list (list Z)) (c : nat) : list Z :=
  map (fun r => entry rows r c) (seq 0 c) ++ [1].

Lemma length_free_vector rows c : length (free_vector rows c) = S c.
Proof. unfold free_vector. rewrite length_app, length_map, length_seq. cbn. lia. Qed.

Lemma free_vector_nth rows c j :
  nth j (free_vector rows c) 0 = if (j <? c)%nat then entry rows j c else if (j =? c)%nat then 1 else 0.
Proof.
  unfold free_vector. destruct (Nat.ltb_spec j c).
  - rewrite app_nth1 by (by rewrite length_map, length_seq).
    rewrite (nth_indep _ 0 (entry rows 0 c)) by (by rewrite length_map, length_seq).
    rewrite (map_nth (fun r => entry rows r c)), seq_nth by done. done.
  - rewrite app_nth2 by (rewrite length_map, length_seq; lia). rewrite length_map, length_seq.
    destruct (Nat.eqb_spec j c) as [->|]; [by rewrite Nat.sub_diag|].
    apply nth_overflow. cbn. lia.
Qed.

Lemma free_vector_bytes m rows c : rows_ok m rows -> bytes_ok (free_vector rows c).
Proof.
  intros H. apply List.Forall_app. split; [|by repeat constructor].
  apply List.Forall_forall. intros x Hx. apply in_map_iff in Hx as (r & <- & _). by eapply entry_byte.
Qed.

Lemma free_vector_kernel m rows c :
  rows_ok m rows -> ident rows c ->
  (forall r, (c <= r < length rows)%nat -> entry rows r c = 0) ->
  kernel rows (free_vector rows c).
Proof.
  intros Hok [Hc Hid] Hz r Hr. destruct (Hok r Hr) as [Hl Hb].
  rewrite dot_xsum, length_free_vector by eauto using free_vector_bytes.
  cbn [xsum]. rewrite !free_vector_nth. rewrite Nat.ltb_irrefl, Nat.eqb_refl.
  fold (entry rows r c). pose proof (entry_byte m rows r c Hok) as Hbe.
  rewrite (gf_mul_comm _ 1), gf_mul_1_l by done.
  assert (forall i, (i < c)%nat -> gf_mul (nth i (nth r rows []) 0) (nth i (free_vector rows c) 0)
             = if (r =? i)%nat then entry rows r c else 0) as E.
  { intros i Hi. fold (entry rows r i). rewrite Hid, free_vector_nth by done.
    rewrite (proj2 (Nat.ltb_lt i c) Hi). pose proof (entry_byte m rows i c Hok).
    destruct (Nat.eqb_spec r i) as [->|]; [by apply gf_mul_1_l|by apply gf_mul_0_l]. }
  destruct (decide (r < c)%nat) as [Hrc|Hrc].
  - rewrite (xsum_single _ _ r) by (done || (intros i Hi Hne; rewrite E by done;
      by rewrite (proj2 (Nat.eqb_neq r i)))).
    rewrite E, Nat.eqb_refl by done. apply Z.lxor_nilpotent.
  - rewrite (Hz r) by lia. rewrite xsum_zero; [done|]. intros i Hi. rewrite E by done.
    by rewrite (proj2 (Nat.eqb_neq r i)) by lia.
Qed.

(** A deficient system: a nonzero vector of [k] bytes orthogonal to every row. *)
Definition deficient (rows : list (list Z)) (k : nat) : Prop :=
  exists v, length v = k /\ bytes_ok v /\ Exists (fun b => b <> 0) v /\ kernel rows v.

Lemma free_vector_deficient m rows c k :
  rows_ok m rows -> ident rows c -> (c < k)%nat ->
  (forall r, (c <= r < length rows)%nat -> entry rows r c = 0) -> deficient rows k.
Proof.
  intros Hok Hid Hc Hz. exists (free_vector rows c ++ repeat 0 (k - S c)).
  pose proof (free_vector_bytes m rows c Hok) as Hb. split_and!.
  - rewrite length_app, length_free_vector, repeat_length. lia.
  - apply List.Forall_app. split; [done|]. apply List.Forall_forall. intros x Hx.
    by apply repeat_spec in Hx as ->.
  - apply list.Exists_app. left. unfold free_vector. apply list.Exists_app. right. by constructor.
  - intros r Hr. destruct (Hok r Hr) as [_ Hbr]. rewrite dot_app_zeros by done.
    by eapply free_vector_kernel.
Qed.

Definition same_kernel (rows rows' : list (list Z)) : Prop :=
  forall y, bytes_ok y -> kernel rows' y <-> kernel rows y.

Lemma deficient_kernel rows rows' k : same_kernel rows rows' -> deficient rows' k -> deficient rows k.
Proof. intros H (v & H1 & H2 & H3 & H4). exists v. split_and!; try done. by apply H. Qed.

(** What the loop over the columns [c .. c + n] leaves. *)
Definition gauss_post (m k : nat) (full : Prop) (rows rows' : list (list Z)) (rank' : nat) : Prop :=
  rows_ok m rows' /\ length rows' = length rows /\ (rank' <= k)%nat /\ same_kernel rows rows'
  /\ (full -> (rank' = k /\ ident rows' k) \/ ((rank' < k)%nat /\ deficient rows k)).

Lemma gauss_loop_spec cpu m n : forall c rows rank rows' rank',
  rows_ok m rows -> (c + n <= m)%nat -> (rank <= c)%nat ->
  gauss_loop cpu (seq c n) rows rank = (rows', rank') ->
  gauss_post m (c + n) (rank = c /\ ident rows c) rows rows' rank' /\ ((rank < c)%nat -> (rank' < c + n)%nat).
Proof.
  induction n as [|n IH]; intros c rows rank rows' rank' Hok Hm Hrank E.
  { cbn in E. injection E as <- <-. rewrite Nat.add_0_r. repeat split; try done; try lia.
    - by apply Hok. - by apply Hok. - intros [-> Hid]. by left. }
  cbn [seq gauss_loop] in E. destruct (find_pivot rows c rank) as [p|] eqn:F.
  - apply find_pivot_Some in F as [Hp Hpv].
    pose proof (gauss_pivot_ok cpu m rows c rank p Hok ltac:(lia) ltac:(lia) Hpv) as Hok1.
    assert (same_kernel rows (gauss_pivot cpu rows c rank p)) as Hk.
    { intros y Hy. apply (gauss_pivot_kernel cpu m); done || lia. }
    pose proof (length_gauss_pivot cpu rows c rank p) as Hlen.
    assert (rank = c /\ ident rows c -> ident (gauss_pivot cpu rows c rank p) (S c)) as Hid.
    { intros [-> Hid]. apply (gauss_pivot_ident cpu m); done || lia. }
    set (rows1 := gauss_pivot cpu rows c rank p) in *. rewrite Hlen in E.
    destruct (Nat.eqb_spec (S rank) (length rows)) as [El|_].
    + injection E as <- <-. split; [|lia]. split_and!; try done; try lia. intros Hf.
      specialize (Hid Hf) as Hid1. destruct Hf as [-> _]. destruct n as [|n].
      * left. replace (c + 1)%nat with (S c) by lia. done.
      * right. split; [lia|]. apply (deficient_kernel _ rows1 _ Hk).
        apply (free_vector_deficient m rows1 (S c)); [done|done|lia|]. intros r Hr. lia.
    + destruct (IH (S c) rows1 (S rank) rows' rank' Hok1 ltac:(lia) ltac:(lia) E) as [(A & B & C & D & G) H].
      replace (S c + n)%nat with (c + S n)%nat in * by lia.
      split; [|intros; apply H; lia]. split_and!; try done; try lia.
      * intros y Hy. rewrite (D y Hy). by apply Hk.
      * intros Hf. specialize (Hid Hf). destruct Hf as [-> _].
        destruct (G (conj eq_refl Hid)) as [?|[? ?]]; [by left|right]. split; [done|].
        by eapply deficient_kernel.
  - destruct (IH (S c) rows rank rows' rank' Hok ltac:(lia) ltac:(lia) E) as [(A & B & C & D & _) H].
    replace (S c + n)%nat with (c + S n)%nat in * by lia. specialize (H ltac:(lia)).
    split; [|done]. split_and!; try done. intros [-> Hid]. right. split; [done|].
    apply (free_vector_deficient m rows c); [done|done|lia|].
    intros r Hr. by apply (find_pivot_None rows c c).
Qed.

Lemma gf_gauss_spec cpu m rows k rows' rank :
  rows_ok m rows -> (k <= m)%nat -> (0 < m)%nat ->
  gf_gauss_eliminate cpu rows m k = (rows', rank) -> gauss_post m k True rows rows' rank.
Proof.
  intros Hok Hk Hm E. unfold gf_gauss_eliminate in E.
  rewrite (proj2 (Nat.eqb_neq m 0)) in E by lia.
  destruct (gauss_loop_spec cpu m k 0 rows 0 rows' rank Hok ltac:(lia) ltac:(lia) E)
    as [(A & B & C & D & G) _].
  split_and!; try done. intros _. apply G. split; [done|]. split; [lia|]. intros; lia.
Qed.

(** Gaussian elimination decides solvability.  It keeps the number and the
    shape of the rows and the vectors orthogonal to them; the rank it answers
    is [k] exactly when the [k] leading columns become the identity (so the
    rest of row [i] is the solution for unknown [i]), and it is less only when
    the system leaves a freedom: some nonzero vector of [k] bytes is
    orthogonal to every row's leading part. *)
Theorem gauss_decides cpu m rows k rows' rank :
  Forall (row_ok m) rows -> (k <= m)%nat -> (0 < m)%nat ->
  gf_gauss_eliminate cpu rows m k = (rows', rank) ->
  Forall (row_ok m) rows' /\ length rows' = length rows
  /\ (forall y, bytes_ok y -> kernel rows' y <-> kernel rows y)
  /\ ((rank = k /\ ident rows' k)
      \/ ((rank < k)%nat /\ exists v, length v = k /\ bytes_ok v /\ Exists (fun b => b <> 0) v /\ kernel rows v)).
Proof.
  rewrite <- rows_ok_Forall. intros Hok Hk Hm E.
  destruct (gf_gauss_spec cpu m rows k rows' rank Hok Hk Hm E) as (A & B & _ & D & G).
  rewrite <- rows_ok_Forall. split_and!; try done. by apply G.
Qed.

Lemma gauss_decides_witness :
  exists rows', gf_gauss_eliminate Avx2 [[1; 2; 5]; [3; 1; 7]; [2; 3; 2]] 3 2 = (rows', 2%nat)
    /\ ident rows' 2.
Proof.
  eexists. split; [vm_compute; reflexivity|].
  refine (match gauss_decides Avx2 3 [[1; 2; 5]; [3; 1; 7]; [2; 3; 2]] 2 _ 2 _ _ _ _ with
          | conj _ (conj _ (conj _ (or_introl H))) => proj2 H
          | conj _ (conj _ (conj _ (or_intror H))) => False_ind _ (Nat.lt_irrefl _ (proj1 H))
          end).
  - repeat constructor; by_decide.
  - lia.
  - lia.
  - vm_compute. reflexivity.
Defined.
