(* ===== verification/DlrFountain.v ===== *)
(** The fountain code (src/integrations/dlr/crates/coding/src/fountain.rs) and
    the bulk transfer built on it (coding/src/bulk.rs): the systematic encoder
    with its repair symbols, the peeling decoder with the residual Gaussian
    elimination, and the sharding of a payload into generations.

    A [HashMap] cover is a finite map from source index to coefficient.  The
    robust-soliton distribution is floating point and a parameter: which degree
    a draw selects.  [usize] is 64 bits wide; the counters below stay far under
    it, so they are [nat]. *)

From stdpp Require Import sorting.
From S2P Require Import Prelude DlrCodec DlrGf.

Inductive FountainError :=
| Empty
| Underdetermined (have need : nat)
| SizeMismatch (a b : nat).

(** ** The generator *)

Definition u64_mul (a b : Z) : Z := wrap 64 (a * b).
Definition u64_add (a b : Z) : Z := wrap 64 (a + b).

(** [ImplRng]: the state. *)
Definition rng_new (seed : Z) : Z :=
  let z := u64_add (u64_mul seed 0x9E3779B97F4A7C15) 0xA5A5A5A5 in
  let z := u64_mul (Z.lxor z (Z.shiftr z 30)) 0xBF58476D1CE4E5B9 in
  let z := u64_mul (Z.lxor z (Z.shiftr z 27)) 0x94D049BB133111EB in
  Z.lxor z (Z.shiftr z 31).

(** The value and the new state. *)
Definition next_u64 (state : Z) : Z * Z :=
  let state := u64_add state 0x9E3779B97F4A7C15 in
  let z := state in
  let z := u64_mul (Z.lxor z (Z.shiftr z 30)) 0xBF58476D1CE4E5B9 in
  let z := u64_mul (Z.lxor z (Z.shiftr z 27)) 0x94D049BB133111EB in
  (Z.lxor z (Z.shiftr z 31), state).

Definition next_below (state : Z) (n : nat) : nat * Z :=
  if (n =? 0)%nat then (0%nat, state)
  else let '(v, state) := next_u64 state in
       (Z.to_nat (Z.shiftr v 40 mod Z.of_nat n), state).

(** ** The encoder *)

Inductive Source :=
| Owned (v : list bytes)
| Shared (buf : bytes) (offset stride k : nat).

Definition src_k (s : Source) : nat :=
  match s with Owned v => length v | Shared _ _ _ k => k end.
Definition src_symbol_size (s : Source) : nat :=
  match s with Owned v => length (nth 0 v []) | Shared _ _ stride _ => stride end.
Definition src_at (s : Source) (i : nat) : bytes :=
  match s with
  | Owned v => nth i v []
  | Shared buf offset stride _ => let start := (offset + i * stride)%nat in slice buf start (start + stride)
  end.

Record FountainEncoder := mk_enc { fe_source : Source; fe_generation : Z; fe_repair_index : Z }.

Definition encoder_new (source : list bytes) (generation : Z) : res FountainError FountainEncoder :=
  match source with
  | [] => Err Empty
  | s0 :: _ =>
      let sz := length s0 in
      match List.find (fun s => negb (length s =? sz)%nat) source with
      | Some s => Err (SizeMismatch sz (length s))
      | None => Ok (mk_enc (Owned source) generation 0)
      end
  end.

(** The checked arithmetic of the end offset fails past 2^64. *)
Definition encoder_new_shared (buf : bytes) (offset stride k : nat) (generation : Z)
  : res FountainError FountainEncoder :=
  if (k =? 0)%nat || (stride =? 0)%nat then Err Empty
  else
    let e := (offset + k * stride)%nat in
    if umax 64 <? Z.of_nat e then Err (SizeMismatch offset stride)
    else if (length buf <? e)%nat then Err (SizeMismatch (length buf) e)
    else Ok (mk_enc (Shared buf offset stride k) generation 0).

Section Encoder.
Variable cpu : Cpu.
(** [soliton_cdf.partition_point(|&p| p < r)] for [k] degrees, as a function
    of the 53 bits [r] is made of. *)
Variable soliton_point : nat -> Z -> nat.

Definition soliton_degree (k : nat) (rng : Z) : nat * Z :=
  let '(v, rng) := next_u64 rng in
  let idx := soliton_point k (Z.shiftr v 11) in
  (Nat.min (Nat.max (idx + 1) 1) k, rng).

(** The loop that picks distinct indices, at most [guard] more draws. *)
Fixpoint choose (guard k degree : nat) (chosen : list nat) (rng : Z) : list nat * Z :=
  match guard with
  | O => (chosen, rng)
  | S guard' =>
      if (length chosen <? degree)%nat then
        let '(idx, rng) := next_below rng k in
        let chosen := if bool_decide (idx ∈ chosen) then chosen else chosen ++ [idx] in
        choose guard' k degree chosen rng
      else (chosen, rng)
  end.

(** [n] nonzero coefficients. *)
Fixpoint draw_coeffs (n : nat) (rng : Z) : list Z * Z :=
  match n with
  | O => ([], rng)
  | S n' => let '(v, rng) := next_u64 rng in
            let '(cs, rng) := draw_coeffs n' rng in
            (Z.lor (wrap 8 v) 1 :: cs, rng)
  end.

(** The payload of a combination. *)
Definition mix (s : Source) (chosen : list nat) (coeffs : list Z) (payload : bytes) : bytes :=
  fold_left (fun payload '(c, i) => axpy cpu payload c (src_at s i)) (combine coeffs chosen) payload.

Definition put_u16_le (v : Z) : bytes := le_bytes 2 (wrap 16 v).

Definition wire_symbol (pairs : list (nat * Z)) (payload : bytes) : bytes :=
  put_u16_le (length_z pairs)
  ++ concat (map (fun '(i, c) => put_u16_le (Z.of_nat i) ++ [c]) pairs) ++ payload.

Definition repair_symbol (e : FountainEncoder) : FountainEncoder * bytes :=
  let s := fe_source e in
  let k := src_k s in
  let repair_index := wrap 64 (fe_repair_index e + 1) in
  let drng := rng_new (Z.lor (wrap 64 (Z.shiftl (fe_generation e) 40)) repair_index) in
  let '(degree, drng) := soliton_degree k drng in
  let '(chosen, drng) := choose (10 * k) k degree [] drng in
  let '(coeffs, _) := draw_coeffs (length chosen) drng in
  let payload := mix s chosen coeffs (repeat 0 (src_symbol_size s)) in
  (mk_enc s (fe_generation e) repair_index, wire_symbol (combine chosen coeffs) payload).

Fixpoint repair_symbols (n : nat) (e : FountainEncoder) : FountainEncoder * list bytes :=
  match n with
  | O => (e, [])
  | S n' => let '(e, w) := repair_symbol e in
            let '(e, ws) := repair_symbols n' e in (e, w :: ws)
  end.

Definition systematic_symbol (s : Source) (i : nat) : bytes :=
  put_u16_le 1 ++ put_u16_le (Z.of_nat i) ++ [1] ++ src_at s i.

Definition produce (e : FountainEncoder) (count : nat) : FountainEncoder * list bytes :=
  let s := fe_source e in
  let k := src_k s in
  let out := map (systematic_symbol s) (seq 0 (Nat.min count k)) in
  let '(e, repairs) := repair_symbols (count - k) e in
  (e, out ++ repairs).
End Encoder.

(** ** The decoder *)

Record ParsedSym := mk_sym { p_cover : gmap nat Z; p_payload : bytes }.
Record FountainDecoder := mk_dec { fd_k : nat; fd_symbol_size : nat; fd_syms : list ParsedSym }.

Definition decoder_new (k symbol_size : nat) : FountainDecoder := mk_dec k symbol_size [].
Definition decoder_rank (d : FountainDecoder) : nat := length (fd_syms d).

(** The coefficient pairs of a wire symbol. *)
Fixpoint parse_cover (n k : nat) (p : bytes) (cover : gmap nat Z) : gmap nat Z :=
  match n with
  | O => cover
  | S n' =>
      let idx := Z.to_nat (le_val (take 2 p)) in
      let c := nth 2 p 0 in
      parse_cover n' k (drop 3 p)
        (if (idx <? k)%nat && negb (c =? 0) then <[idx := c]> cover else cover)
  end.

Definition decoder_add (d : FountainDecoder) (wire : bytes) : FountainDecoder * res FountainError bool :=
  if (length wire <? 2)%nat then (d, Err (SizeMismatch (length wire) 2))
  else
    let ncoeffs := Z.to_nat (le_val (take 2 wire)) in
    let header_len := (2 + ncoeffs * 3)%nat in
    if (length wire <? header_len + fd_symbol_size d)%nat then
      (d, Err (SizeMismatch (length wire) (header_len + fd_symbol_size d)))
    else
      let cover := parse_cover ncoeffs (fd_k d) (drop 2 wire) ∅ in
      if bool_decide (cover = ∅) then (d, Ok false)
      else
        let payload := slice wire header_len (header_len + fd_symbol_size d) in
        (mk_dec (fd_k d) (fd_symbol_size d) (fd_syms d ++ [mk_sym cover payload]), Ok true).

(** *** Peeling *)

Record Peel := mk_peel {
  pl_syms : list ParsedSym;
  pl_revealed : list (option bytes);
  pl_covers : list (list nat);
  pl_degree : list nat;
  pl_queue : list nat
}.

Definition sym_at (l : list ParsedSym) (i : nat) : ParsedSym := nth i l (mk_sym ∅ []).
Definition unrevealed (revealed : list (option bytes)) (i : nat) : bool :=
  match nth i revealed None with None => true | Some _ => false end.

(** [covers]: for every source, the symbols over it. *)
Definition build_covers (syms : list ParsedSym) (k : nat) : list (list nat) :=
  map (fun idx => filter (fun si => bool_decide (is_Some (p_cover (sym_at syms si) !! idx)))
                    (seq 0 (length syms))) (seq 0 k).

Definition peel_start (syms : list ParsedSym) (k : nat) : Peel :=
  let degree := map (fun sym => size (p_cover sym)) syms in
  mk_peel syms (repeat None k) (build_covers syms k) degree
    (filter (fun si => bool_decide (nth si degree 0%nat = 1%nat)) (seq 0 (length syms))).

Section Decoder.
Variable cpu : Cpu.

(** One dependent of the ripple. *)
Definition ripple_one (si target : nat) (x : bytes) (st : list ParsedSym * list nat * list nat) (sj : nat)
  : list ParsedSym * list nat * list nat :=
  let '(syms, degree, queue) := st in
  if (sj =? si)%nat || (nth sj degree 0 =? 0)%nat then st
  else
    let sym := sym_at syms sj in
    match p_cover sym !! target with
    | None => st
    | Some c =>
        let d := (nth sj degree 0 - 1)%nat in
        (<[sj := mk_sym (delete target (p_cover sym)) (axpy cpu (p_payload sym) c x)]> syms,
         <[sj := d]> degree,
         if (d =? 1)%nat then queue ++ [sj] else queue)
    end.

(** One popped symbol. *)
Definition peel_step (si : nat) (queue : list nat) (st : Peel) : Peel :=
  if (nth si (pl_degree st) 0 =? 0)%nat then
    mk_peel (pl_syms st) (pl_revealed st) (pl_covers st) (pl_degree st) queue
  else
    let sym := sym_at (pl_syms st) si in
    match List.find (fun '(idx, _) => unrevealed (pl_revealed st) idx) (map_to_list (p_cover sym)) with
    | None => mk_peel (pl_syms st) (pl_revealed st) (pl_covers st) (<[si := 0%nat]> (pl_degree st)) queue
    | Some (target, coeff) =>
        let inv_c := gf_inv coeff in
        let x := scal_inplace cpu (p_payload sym) inv_c in
        let syms := <[si := mk_sym (p_cover sym) []]> (pl_syms st) in
        let degree := <[si := 0%nat]> (pl_degree st) in
        let dependents := nth target (pl_covers st) [] in
        let covers := <[target := []]> (pl_covers st) in
        let '(syms, degree, queue) :=
          fold_left (ripple_one si target x) dependents (syms, degree, queue) in
        mk_peel syms (<[target := Some x]> (pl_revealed st)) covers degree queue
    end.

(** The queue loop; every symbol is queued at most once. *)
Fixpoint peel_loop (fuel : nat) (st : Peel) : Peel :=
  match fuel with
  | O => st
  | S fuel' =>
      match pl_queue st with
      | [] => st
      | si :: queue => peel_loop fuel' (peel_step si queue st)
      end
  end.

(** The residual row of a symbol over the unrevealed sources: its coefficients
    placed at the columns of [unknowns], or nothing. *)
Definition residual_row (unknowns : list nat) (sym : ParsedSym) : option bytes :=
  if is_nil (p_payload sym) then None
  else if existsb (fun u => bool_decide (is_Some (p_cover sym !! u))) unknowns then
    Some (map (fun u => default 0 (p_cover sym !! u)) unknowns ++ p_payload sym)
  else None.

(** The first nonzero of the leading [r] entries. *)
Fixpoint lead (r : nat) (row : bytes) : nat :=
  match r, row with
  | S r', c :: row' => if c =? 0 then S (lead r' row') else 0%nat
  | _, _ => 0%nat
  end.

Definition publish (unknowns : list nat) (r s : nat) (revealed : list (option bytes)) (row : bytes)
  : list (option bytes) :=
  let piv := lead r row in
  if (piv <? r)%nat then <[nth piv unknowns 0%nat := Some (slice row r (r + s))]> revealed else revealed.

Definition revealed_values (revealed : list (option bytes)) : list bytes := map (default []) revealed.

Definition peel_symbols (syms : list ParsedSym) (k s : nat)
  : list ParsedSym * res FountainError (list bytes) :=
  let st := peel_loop (S (length syms)) (peel_start syms k) in
  let revealed := pl_revealed st in
  let unknowns := filter (fun i => unrevealed revealed i) (seq 0 k) in
  if is_nil unknowns then (pl_syms st, Ok (revealed_values revealed))
  else
    let r := length unknowns in
    let residual := omap (residual_row unknowns) (pl_syms st) in
    let '(residual, rank) := gf_gauss_eliminate cpu residual (r + s) r in
    if (rank <? r)%nat then (pl_syms st, Err (Underdetermined rank r))
    else
      let revealed := fold_left (publish unknowns r s) residual revealed in
      if existsb (fun o => match o with None => true | Some _ => false end) revealed then
        (pl_syms st, Err (Underdetermined rank k))
      else (pl_syms st, Ok (revealed_values revealed)).

Definition decoder_decode (d : FountainDecoder) : FountainDecoder * res FountainError (list bytes) :=
  if (length (fd_syms d) <? fd_k d)%nat then
    (d, Err (Underdetermined (length (fd_syms d)) (fd_k d)))
  else
    let '(syms, r) := peel_symbols (fd_syms d) (fd_k d) (fd_symbol_size d) in
    (mk_dec (fd_k d) (fd_symbol_size d) syms, r).

(** [peel_decode]: the entry of the dense callers. *)
Definition dense_sym (k s : nat) (row : bytes) : option ParsedSym :=
  let cover := list_to_map (M := gmap nat Z)
                 (filter (fun '(_, c) => negb (c =? 0)) (imap (fun i c => (i, c)) (take k row))) in
  if bool_decide (cover = ∅) then None else Some (mk_sym cover (slice row k (k + s))).
Definition peel_decode (rows : list bytes) (k s : nat) : res FountainError (list bytes) :=
  snd (peel_symbols (omap (dense_sym k s) rows) k s).
End Decoder.

(** ** Solutions

    The received symbols are linear equations on the [k] sources of [s]
    bytes. *)

Section Solutions.
Variables k s : nat.

Definition sources_ok (y : list bytes) : Prop := length y = k /\ forall i, (i < k)%nat -> row_ok s (nth i y []).

(** Byte [j] of the combination a cover describes. *)
Definition comb (cover : gmap nat Z) (y : list bytes) (j : nat) : Z :=
  xsum (fun i => gf_mul (default 0 (cover !! i)) (nth j (nth i y []) 0)) k.
Definition sat (y : list bytes) (sym : ParsedSym) : Prop :=
  forall j, (j < s)%nat -> comb (p_cover sym) y j = nth j (p_payload sym) 0.

Definition cover_ok (cover : gmap nat Z) : Prop :=
  forall i c, cover !! i = Some c -> (i < k)%nat /\ is_byte c /\ c <> 0.
Definition sym_ok (sym : ParsedSym) : Prop := row_ok s (p_payload sym) /\ cover_ok (p_cover sym).

Definition solution (syms : list ParsedSym) (y : list bytes) : Prop :=
  sources_ok y /\ Forall (sat y) syms.

Lemma xsum_update g h n t :
  (t < n)%nat -> (forall i, (i < n)%nat -> i <> t -> g i = h i) ->
  xsum h n = Z.lxor (xsum g n) (Z.lxor (g t) (h t)).
Proof.
  induction n as [|n IH]; intros Ht H; [lia|]. cbn [xsum]. destruct (decide (t = n)) as [->|Hne].
  - rewrite (xsum_ext g h n) by (intros; apply H; lia). bits.
  - rewrite IH by (lia || (intros; apply H; lia)). rewrite (H n) by lia. bits.
Qed.

Lemma source_byte y i j : sources_ok y -> (i < k)%nat -> is_byte (nth j (nth i y []) 0).
Proof. intros [_ H] Hi. apply bytes_nth, H, Hi. Qed.

Lemma comb_delete cover y j t c :
  sources_ok y -> cover_ok cover -> cover !! t = Some c ->
  comb (delete t cover) y j = Z.lxor (comb cover y j) (gf_mul c (nth j (nth t y []) 0)).
Proof.
  intros Hy Hc Ht. destruct (Hc t c Ht) as (Htk & Hb & _). unfold comb.
  rewrite (xsum_update (fun i => gf_mul (default 0 (cover !! i)) (nth j (nth i y []) 0)) _ k t Htk).
  - rewrite lookup_delete_eq, Ht. cbn [default from_option].
    rewrite gf_mul_0_l by (by apply source_byte). by rewrite Z.lxor_0_r.
  - intros i _ Hne. by rewrite lookup_delete_ne.
Qed.

Lemma comb_singleton y j t c :
  sources_ok y -> (t < k)%nat -> comb {[t := c]} y j = gf_mul c (nth j (nth t y []) 0).
Proof.
  intros Hy Ht. unfold comb. rewrite (xsum_single _ _ t Ht).
  - by rewrite lookup_singleton_eq.
  - intros i Hi Hne. rewrite lookup_singleton_ne by done. cbn. apply gf_mul_0_l. by apply source_byte.
Qed.

Lemma cover_ok_delete cover t : cover_ok cover -> cover_ok (delete t cover).
Proof. intros H i c Hi. apply lookup_delete_Some in Hi as [_ Hi]. by apply H. Qed.

Lemma comb_byte cover y j : sources_ok y -> cover_ok cover -> is_byte (comb cover y j).
Proof.
  intros Hy Hc. unfold comb. assert (forall n, (n <= k)%nat -> is_byte (xsum (fun i =>
    gf_mul (default 0 (cover !! i)) (nth j (nth i y []) 0)) n)) as H; [|by apply H].
  induction n as [|n IH]; intros Hn; [done|]. cbn [xsum]. apply byte_lxor; [apply IH; lia|].
  apply gf_mul_byte; [|apply source_byte; [done|lia]].
  destruct (cover !! n) as [c|] eqn:E; [|done]. by apply (Hc n).
Qed.

(** Lists of the same length that agree everywhere are equal. *)
Lemma nth_ext_bytes (a b : bytes) :
  length a = length b -> (forall j, (j < length a)%nat -> nth j a 0 = nth j b 0) -> a = b.
Proof. intros Hl H. by apply (nth_ext _ _ 0 0). Qed.
End Solutions.

(** ** Peeling keeps the solutions *)

Section Peeling.
Variable cpu : Cpu.
Variables k s : nat.
Hypothesis Hs : (0 < s)%nat.

#[local] Abbreviation sat := (sat k s).
#[local] Abbreviation sym_ok := (sym_ok k s).
#[local] Abbreviation sources_ok := (sources_ok k s).

(** A symbol that is still an equation has a payload. *)
Definition live (syms : list ParsedSym) (i : nat) : Prop := p_payload (sym_at syms i) <> [].

Definition all_sat (syms : list ParsedSym) (y : list bytes) : Prop :=
  forall i, (i < length syms)%nat -> live syms i -> sat y (sym_at syms i).

(** The well-formedness of one symbol: consumed, or live with its degree and
    over unrevealed sources only. *)
Definition sym_inv (revealed : list (option bytes)) (sym : ParsedSym) (degree : nat) : Prop :=
  (p_payload sym = [] /\ degree = 0%nat)
  \/ (sym_ok sym /\ degree = size (p_cover sym)
      /\ forall t c, p_cover sym !! t = Some c -> nth t revealed None = None).

Definition syms_inv (revealed : list (option bytes)) (covers : list (list nat))
    (st : list ParsedSym * list nat * list nat) : Prop :=
  let '(syms, degree, queue) := st in
  length degree = length syms
  /\ (forall i, (i < length syms)%nat -> sym_inv revealed (sym_at syms i) (nth i degree 0%nat))
  /\ (forall i t c, (i < length syms)%nat -> live syms i -> p_cover (sym_at syms i) !! t = Some c ->
        i ∈ nth t covers [])
  /\ (forall i, i ∈ queue -> (i < length syms)%nat /\ (nth i degree 0%nat <= 1)%nat).

Definition peel_inv (st : Peel) : Prop :=
  syms_inv (pl_revealed st) (pl_covers st) (pl_syms st, pl_degree st, pl_queue st)
  /\ length (pl_revealed st) = k /\ length (pl_covers st) = k
  /\ forall t v, nth t (pl_revealed st) None = Some v -> row_ok s v.

Definition solves (st : Peel) (y : list bytes) : Prop :=
  sources_ok y
  /\ (forall t v, nth t (pl_revealed st) None = Some v -> nth t y [] = v)
  /\ all_sat (pl_syms st) y.

Lemma sym_at_insert syms i j sym :
  sym_at (<[j := sym]> syms) i = if (i =? j)%nat && (j <? length syms)%nat then sym else sym_at syms i.
Proof. apply nth_insert. Qed.

Lemma live_payload sym : sym_ok sym -> p_payload sym <> [].
Proof. intros [[Hl _] _] E. rewrite E in Hl. cbn in Hl. lia. Qed.

(** *** One dependent *)

Definition ripple_ok (revealed : list (option bytes)) (covers : list (list nat)) (si : nat)
    (st : list ParsedSym * list nat * list nat) : Prop :=
  syms_inv revealed covers st /\ ~ live (fst (fst st)) si.

Definition clear (si target : nat) (st : list ParsedSym * list nat * list nat) (i : nat) : Prop :=
  live (fst (fst st)) i -> p_cover (sym_at (fst (fst st)) i) !! target = None.

Lemma live_lt syms i : live syms i -> (i < length syms)%nat.
Proof.
  intros H. destruct (decide (i < length syms)%nat); [done|]. exfalso. apply H.
  unfold sym_at. by rewrite nth_overflow by lia.
Qed.

(** The substitution in one equation. *)
Lemma sat_substitute y sym t c :
  sym_ok sym -> sources_ok y -> p_cover sym !! t = Some c ->
  sat y (mk_sym (delete t (p_cover sym)) (axpy cpu (p_payload sym) c (nth t y []))) <-> sat y sym.
Proof.
  intros [Hp Hc] Hy Ht. destruct (Hc t c Ht) as (Htk & Hb & _).
  assert (row_ok s (nth t y [])) as Hyt by (by apply Hy).
  assert (forall j, (j < s)%nat ->
    (comb k (delete t (p_cover sym)) y j = nth j (axpy cpu (p_payload sym) c (nth t y [])) 0
     <-> comb k (p_cover sym) y j = nth j (p_payload sym) 0)) as E.
  { intros j Hj. rewrite (comb_delete k s) with (c := c) by done. rewrite (axpy_row_nth cpu s) by done.
    set (z := gf_mul c _). split; [|by intros ->]. intros H.
    apply (f_equal (fun a => Z.lxor a z)) in H.
    by rewrite !Z.lxor_assoc, Z.lxor_nilpotent, !Z.lxor_0_r in H. }
  unfold DlrFountain.sat. cbn [p_cover p_payload]. split; intros H j Hj; apply E; auto.
Qed.

Lemma all_sat_pointwise syms syms' y :
  length syms' = length syms ->
  (forall i, (i < length syms)%nat -> (live syms' i <-> live syms i)
             /\ (live syms i -> (sat y (sym_at syms' i) <-> sat y (sym_at syms i)))) ->
  all_sat syms' y <-> all_sat syms y.
Proof.
  intros Hl H. unfold all_sat. rewrite Hl. split; intros A i Hi Hlive; destruct (H i Hi) as [H1 H2].
  - apply H2; [done|]. apply A; [done|]. by apply H1.
  - apply H2; [by apply H1|]. apply A; [done|]. by apply H1.
Qed.

(** The dependents change only by substituting [target := x]. *)
Lemma ripple_one_spec revealed covers si target x st sj (st' := ripple_one cpu si target x st sj) :
  ripple_ok revealed covers si st -> row_ok s x ->
  ripple_ok revealed covers si st'
  /\ length (fst (fst st')) = length (fst (fst st))
  /\ (sj <> si -> clear si target st' sj)
  /\ (forall i, clear si target st i -> clear si target st' i)
  /\ (forall y, sources_ok y -> nth target y [] = x ->
        all_sat (fst (fst st')) y <-> all_sat (fst (fst st)) y).
Proof.
  destruct st as [[syms degree] queue]. intros [(Hd & H1 & H2 & H3) Hsi] Hx.
  subst st'. unfold ripple_one. cbn [fst] in *.
  assert (sj = si \/ ~ live syms sj \/ p_cover (sym_at syms sj) !! target = None ->
    ripple_ok revealed covers si (syms, degree, queue)
    /\ length syms = length syms
    /\ (sj <> si -> clear si target (syms, degree, queue) sj)
    /\ (forall i, clear si target (syms, degree, queue) i -> clear si target (syms, degree, queue) i)
    /\ (forall y, sources_ok y -> nth target y [] = x -> all_sat syms y <-> all_sat syms y)) as Hsame.
  { intros Hc. split_and!; try done. intros Hne Hl. by destruct Hc as [|[|]]. }
  destruct (Nat.eqb_spec sj si) as [->|Hne]; cbn [orb fst]; [apply Hsame; by left|].
  destruct (Nat.eqb_spec (nth sj degree 0%nat) 0) as [E0|E0].
  { apply Hsame. right. destruct (decide (p_payload (sym_at syms sj) = [])) as [|N]; [left; intros Hl; by apply Hl|].
    right. destruct (H1 sj (live_lt _ _ N)) as [[? _]|(_ & Hsz & _)]; [done|].
    rewrite E0 in Hsz. symmetry in Hsz. apply map_size_empty_inv in Hsz. by rewrite Hsz. }
  destruct (p_cover (sym_at syms sj) !! target) as [c|] eqn:Ec; [|apply Hsame; by right; right].
  clear Hsame.
  assert (sj < length syms)%nat as Hsj.
  { destruct (decide (sj < length syms)%nat); [done|]. exfalso. apply E0. apply nth_overflow. lia. }
  destruct (H1 sj Hsj) as [[_ ?]|(Hok & Hsz & Hun)]; [done|].
  set (new := mk_sym _ _). set (d := (nth sj degree 0 - 1)%nat).
  assert (sym_ok new) as Hnew.
  { destruct Hok as [Hp Hc]. destruct (Hc _ _ Ec) as (_ & Hb & _).
    split; [by apply axpy_row_ok|by apply cover_ok_delete]. }
  assert (forall i, sym_at (<[sj := new]> syms) i = if (i =? sj)%nat then new else sym_at syms i) as Es.
  { intros i. rewrite sym_at_insert, (proj2 (Nat.ltb_lt _ _) Hsj). by rewrite andb_true_r. }
  assert (forall i, nth i (<[sj := d]> degree) 0%nat = if (i =? sj)%nat then d else nth i degree 0%nat) as Ed.
  { intros i. rewrite nth_insert, Hd, (proj2 (Nat.ltb_lt _ _) Hsj). by rewrite andb_true_r. }
  assert (forall i, live (<[sj := new]> syms) i <-> live syms i) as El.
  { intros i. unfold live. rewrite Es. destruct (Nat.eqb_spec i sj) as [->|]; [|done].
    split; intros _; by apply live_payload. }
  cbn [fst]. split_and!.
  - split; [|by rewrite El]. cbn. rewrite !length_insert. split_and!; [done|..].
    + intros i Hi. rewrite Es, Ed. destruct (Nat.eqb_spec i sj) as [->|]; [|by apply H1].
      right. split_and!; [done| |].
      * unfold d, new. cbn [p_cover]. rewrite map_size_delete_Some by done. lia.
      * intros t c' Ht. cbn [new p_cover] in Ht. apply lookup_delete_Some in Ht as [_ Ht]. by apply (Hun t c').
    + intros i t c' Hi Hl Ht. apply El in Hl. rewrite Es in Ht.
      destruct (Nat.eqb_spec i sj) as [->|]; [|by eapply H2].
      cbn [new p_cover] in Ht. apply lookup_delete_Some in Ht as [_ Ht]. by eapply H2.
    + intros i Hi. rewrite Ed. assert (i ∈ queue \/ (i = sj /\ d = 1%nat)) as Hq.
      { destruct (Nat.eqb_spec d 1); [|by left]. apply elem_of_app in Hi as [Hi|Hi]; [by left|].
        apply list_elem_of_singleton in Hi. by right. }
      destruct Hq as [Hq|[-> ->]]; [|rewrite Nat.eqb_refl; lia]. destruct (H3 i Hq) as [A B].
      split; [done|]. destruct (Nat.eqb_spec i sj) as [->|]; [unfold d; lia|done].
  - by rewrite length_insert.
  - intros _ _. cbn [fst]. rewrite Es, Nat.eqb_refl. apply lookup_delete_eq.
  - intros i Hi Hl. cbn [fst] in *. apply El in Hl. rewrite Es.
    destruct (Nat.eqb_spec i sj) as [->|]; [apply lookup_delete_eq|by apply Hi].
  - intros y Hy Hyt. apply all_sat_pointwise; [by rewrite length_insert|].
    intros i Hi. split; [apply El|]. intros _. rewrite Es.
    destruct (Nat.eqb_spec i sj) as [->|]; [|done]. unfold new. rewrite <- Hyt.
    by apply sat_substitute.
Qed.

Lemma ripple_spec revealed covers si target x deps : forall st,
  ripple_ok revealed covers si st -> row_ok s x ->
  let st' := fold_left (ripple_one cpu si target x) deps st in
  ripple_ok revealed covers si st'
  /\ length (fst (fst st')) = length (fst (fst st))
  /\ (forall i, i ∈ deps -> i <> si -> clear si target st' i)
  /\ (forall i, clear si target st i -> clear si target st' i)
  /\ (forall y, sources_ok y -> nth target y [] = x ->
        all_sat (fst (fst st')) y <-> all_sat (fst (fst st)) y).
Proof.
  induction deps as [|sj deps IH]; intros st Hst Hx; cbn [fold_left].
  - split_and!; try done. intros i Hi. by apply elem_of_nil in Hi.
  - destruct (ripple_one_spec revealed covers si target x st sj Hst Hx) as (A1 & A2 & A3 & A4 & A5).
    destruct (IH _ A1 Hx) as (B1 & B2 & B3 & B4 & B5). split_and!; try done.
    + congruence.
    + intros i Hi Hne. apply elem_of_cons in Hi as [->|Hi]; [|by apply B3]. apply B4. by apply A3.
    + intros i Hi. by apply B4, A4.
    + intros y Hy Hyt. rewrite B5 by done. by apply A5.
Qed.

Lemma map_size_1_inv (m : gmap nat Z) : size m = 1%nat -> exists i x, m = {[i := x]}.
Proof.
  intros H. rewrite <- length_map_to_list in H. destruct (map_to_list m) as [|[i x] [|? ?]] eqn:E; try done.
  exists i, x. rewrite <- (list_to_map_to_list m), E. done.
Qed.

Lemma gf_mul_solve c a b :
  is_byte c -> is_byte a -> is_byte b -> c <> 0 -> gf_mul c a = b <-> a = gf_mul (gf_inv c) b.
Proof.
  intros Hc Ha Hb Hz. split.
  - intros <-. rewrite gf_mul_assoc, (gf_mul_comm _ c), gf_mul_inv, gf_mul_1_l by auto with gf. done.
  - intros ->. rewrite gf_mul_assoc, gf_mul_inv, gf_mul_1_l by auto with gf. done.
Qed.

(** An equation with one unknown gives its value. *)
Lemma sat_single y t c payload :
  sym_ok (mk_sym {[t := c]} payload) -> sources_ok y ->
  sat y (mk_sym {[t := c]} payload) <-> nth t y [] = scal_inplace cpu payload (gf_inv c).
Proof.
  intros [Hp Hc] Hy. destruct (Hc t c (lookup_singleton_eq t c)) as (Htk & Hb & Hz).
  cbn [p_payload] in Hp. unfold scal_inplace. rewrite gf_scal_slice_eq by (auto with gf; apply Hp).
  destruct Hp as [Hl Hbp]. destruct (proj2 Hy t Htk) as [Hlt Hbt].
  assert (forall j, (j < s)%nat -> comb k {[t := c]} y j = nth j payload 0
            <-> nth j (nth t y []) 0 = nth j (scal_ref (gf_inv c) payload) 0) as E.
  { intros j Hj. rewrite (comb_singleton k s) by done. rewrite nth_scal_ref by lia.
    apply gf_mul_solve; auto using bytes_nth. }
  unfold DlrFountain.sat. cbn [p_cover p_payload]. split; intros H.
  - apply nth_ext_bytes; [unfold scal_ref; rewrite length_map; congruence|].
    intros j Hj. apply E; [lia|]. apply H. lia.
  - intros j Hj. apply E; [done|]. by rewrite H.
Qed.

Lemma scal_row_ok c payload : is_byte c -> row_ok s payload -> row_ok s (scal_inplace cpu payload c).
Proof. intros Hc Hp. unfold scal_inplace. rewrite gf_scal_slice_eq by (done || apply Hp). by apply scal_ref_ok. Qed.

Lemma all_sat_consume syms si y :
  (si < length syms)%nat ->
  all_sat (<[si := mk_sym (p_cover (sym_at syms si)) []]> syms) y
  <-> (forall i, i <> si -> (i < length syms)%nat -> live syms i -> sat y (sym_at syms i)).
Proof.
  intros Hsi. unfold all_sat, live. rewrite length_insert.
  assert (forall i, sym_at (<[si := mk_sym (p_cover (sym_at syms si)) []]> syms) i
                    = if (i =? si)%nat then mk_sym (p_cover (sym_at syms si)) [] else sym_at syms i) as E.
  { intros i. rewrite sym_at_insert, (proj2 (Nat.ltb_lt _ _) Hsi). by rewrite andb_true_r. }
  split; intros H i.
  - intros Hne Hi Hl. specialize (H i Hi). rewrite E in H.
    rewrite (proj2 (Nat.eqb_neq _ _) Hne) in H. by apply H.
  - intros Hi. rewrite E. destruct (Nat.eqb_spec i si) as [->|Hne]; [by intros []|]. by apply H.
Qed.

Lemma consume_ok st si queue :
  peel_inv st -> pl_queue st = si :: queue -> (si < length (pl_syms st))%nat ->
  ripple_ok (pl_revealed st) (pl_covers st) si
    (<[si := mk_sym (p_cover (sym_at (pl_syms st) si)) []]> (pl_syms st),
     <[si := 0%nat]> (pl_degree st), queue).
Proof.
  intros ((Hd & H1 & H2 & H3) & _) Hq Hsi.
  assert (forall i, sym_at (<[si := mk_sym (p_cover (sym_at (pl_syms st) si)) []]> (pl_syms st)) i
     = if (i =? si)%nat then mk_sym (p_cover (sym_at (pl_syms st) si)) [] else sym_at (pl_syms st) i) as E.
  { intros i. rewrite sym_at_insert, (proj2 (Nat.ltb_lt _ _) Hsi). by rewrite andb_true_r. }
  assert (forall i, nth i (<[si := 0%nat]> (pl_degree st)) 0%nat
                    = if (i =? si)%nat then 0%nat else nth i (pl_degree st) 0%nat) as Ed.
  { intros i. rewrite nth_insert, Hd, (proj2 (Nat.ltb_lt _ _) Hsi). by rewrite andb_true_r. }
  split; cbn; rewrite ?length_insert; [split_and!; [done|..]|].
  - intros i Hi. rewrite E, Ed. destruct (Nat.eqb_spec i si); [by left|by apply H1].
  - intros i t c Hi. unfold live. rewrite E. destruct (Nat.eqb_spec i si); [by intros []|by apply H2].
  - intros i Hi. rewrite Ed. destruct (H3 i) as [A B]; [rewrite Hq; by right|].
    split; [done|]. destruct (i =? si)%nat; [lia|done].
  - unfold live. rewrite E, Nat.eqb_refl. by intros [].
Qed.

Lemma peel_step_spec st si queue (st' := peel_step cpu si queue st) :
  peel_inv st -> pl_queue st = si :: queue ->
  peel_inv st' /\ length (pl_syms st') = length (pl_syms st) /\ (forall y, solves st' y <-> solves st y).
Proof.
  intros Hinv Hq. pose proof Hinv as ((Hd & H1 & H2 & H3) & Hlr & Hlc & H4).
  destruct (H3 si) as [Hsi Hle]; [rewrite Hq; by left|]. subst st'. unfold peel_step.
  assert (forall i, i ∈ queue -> i ∈ pl_queue st) as Hsub by (intros i Hi; rewrite Hq; by right).
  destruct (Nat.eqb_spec (nth si (pl_degree st) 0%nat) 0) as [E0|E0].
  { split_and!; try done. split; [|done]. cbn. split_and!; try done. intros i Hi. by apply H3, Hsub. }
  destruct (H1 si Hsi) as [[_ ?]|(Hok & Hsz & Hun)]; [lia|].
  destruct (map_size_1_inv (p_cover (sym_at (pl_syms st) si))) as (t & c & Ecov); [lia|].
  assert (p_cover (sym_at (pl_syms st) si) !! t = Some c) as Ht by (rewrite Ecov; apply lookup_singleton_eq).
  pose proof (Hun t c Ht) as Hrt. destruct (proj2 Hok t c Ht) as (Htk & Hb & Hz).
  replace (List.find _ _) with (Some (t, c)).
  2: { rewrite Ecov, map_to_list_singleton. cbn. unfold unrevealed. by rewrite Hrt. }
  pose proof (consume_ok st si queue Hinv Hq Hsi) as Hcons.
  set (x := scal_inplace cpu (p_payload (sym_at (pl_syms st) si)) (gf_inv c)).
  assert (row_ok s x) as Hx by (apply scal_row_ok; [auto with gf|apply Hok]).
  destruct (ripple_spec _ _ si t x (nth t (pl_covers st) []) _ Hcons Hx) as (A1 & A2 & A3 & _ & A5).
  cbn zeta. revert A1 A2 A3 A5. destruct (fold_left _ _ _) as [[syms degree] queue'].
  cbn [fst]. rewrite length_insert. intros [(B0 & B1 & B2 & B3) Bsi] A2 A3 A5.
  assert (forall i, live syms i -> p_cover (sym_at syms i) !! t = None) as Hclear.
  { intros i Hl. destruct (p_cover (sym_at syms i) !! t) as [c'|] eqn:Ei; [|done].
    rewrite <- Ei. apply (A3 i); [|intros ->; by apply Bsi|done].
    apply (B2 i t c'); [by apply live_lt|done|done]. }
  assert (forall t', nth t' (<[t := Some x]> (pl_revealed st)) None
            = if (t' =? t)%nat then Some x else nth t' (pl_revealed st) None) as Er.
  { intros t'. rewrite nth_insert, Hlr, (proj2 (Nat.ltb_lt _ _) Htk). by rewrite andb_true_r. }
  split_and!; [|done|].
  - split; cbn [pl_syms pl_revealed pl_covers pl_degree pl_queue]; rewrite ?length_insert;
      [|split_and!; try done].
    + split_and!; [done|..|done].
      * intros i Hi. destruct (B1 i Hi) as [?|(C1 & C2 & C3)]; [by left|]. right. split_and!; try done.
        intros t' c' Ht'. rewrite Er. destruct (Nat.eqb_spec t' t) as [->|]; [|by eapply C3].
        rewrite Hclear in Ht'; [done|]. by apply live_payload.
      * intros i t' c' Hi Hl Ht'. rewrite nth_insert. destruct (Nat.eqb_spec t' t) as [->|].
        { rewrite Hclear in Ht'; done. }
        cbn [andb]. by eapply B2.
    + intros t' v. rewrite Er. destruct (t' =? t)%nat; [by intros [= <-]|by apply H4].
  - intros y. unfold solves. cbn [pl_syms pl_revealed].
    assert (sources_ok y -> nth t y [] = x <-> sat y (sym_at (pl_syms st) si)) as Esi.
    { intros Hy. destruct (sym_at (pl_syms st) si) as [cov pay] eqn:Esym. cbn in Ecov. subst cov.
      symmetry. by apply sat_single. }
    split; intros (Hy & Hrev & Hall); (split; [done|]).
    + assert (nth t y [] = x) as Hyt by (apply Hrev; by rewrite Er, Nat.eqb_refl).
      split.
      * intros t' v Ht'. apply Hrev. rewrite Er. destruct (Nat.eqb_spec t' t) as [->|]; [congruence|done].
      * apply A5 in Hall; [|done|done]. rewrite all_sat_consume in Hall by done.
        intros i Hi Hl. destruct (decide (i = si)) as [->|]; [by apply Esi|by apply Hall].
    + assert (nth t y [] = x) as Hyt.
      { apply Esi; [done|]. apply Hall; [done|]. by apply live_payload. }
      split.
      * intros t' v. rewrite Er. destruct (Nat.eqb_spec t' t) as [->|]; [congruence|apply Hrev].
      * apply A5; [done|done|]. rewrite all_sat_consume by done. intros i _ Hi Hl. by apply Hall.
Qed.

Lemma peel_loop_spec fuel : forall st,
  peel_inv st ->
  let st' := peel_loop cpu fuel st in
  peel_inv st' /\ length (pl_syms st') = length (pl_syms st) /\ (forall y, solves st' y <-> solves st y).
Proof.
  induction fuel as [|fuel IH]; intros st Hst; [done|]. cbn [peel_loop].
  destruct (pl_queue st) as [|si queue] eqn:Q; [done|].
  destruct (peel_step_spec st si queue Hst Q) as (A1 & A2 & A3).
  destruct (IH _ A1) as (B1 & B2 & B3). split_and!; [done|congruence|].
  intros y. rewrite B3. apply A3.
Qed.

Lemma start_covers_nth syms t i :
  (i < length syms)%nat -> (t < k)%nat -> is_Some (p_cover (sym_at syms i) !! t) ->
  i ∈ nth t (build_covers syms k) [].
Proof.
  intros Hi Ht Hs'. unfold build_covers.
  set (f := fun idx => filter (fun si => bool_decide (is_Some (p_cover (sym_at syms si) !! idx)))
                         (seq 0 (length syms))).
  rewrite (nth_indep _ [] (f 0%nat)) by (by rewrite length_map, length_seq).
  rewrite map_nth, seq_nth by done. unfold f. apply list_elem_of_filter.
  split; [by rewrite bool_decide_spec|]. apply elem_of_seq. lia.
Qed.

Lemma start_degree syms i :
  (i < length syms)%nat -> nth i (map (fun sym => size (p_cover sym)) syms) 0%nat = size (p_cover (sym_at syms i)).
Proof.
  intros Hi. rewrite (nth_indep _ 0%nat (size (p_cover (mk_sym ∅ [])))) by (by rewrite length_map).
  by rewrite (map_nth (fun sym => size (p_cover sym))).
Qed.

Lemma sym_at_Forall (P : ParsedSym -> Prop) syms i : Forall P syms -> (i < length syms)%nat -> P (sym_at syms i).
Proof. intros H Hi. unfold sym_at. rewrite List.Forall_nth in H. by apply H. Qed.

Lemma peel_start_inv syms : Forall sym_ok syms -> peel_inv (peel_start syms k).
Proof.
  intros H. unfold peel_start. split; cbn [pl_syms pl_revealed pl_covers pl_degree pl_queue].
  - split_and!.
    + by rewrite length_map.
    + intros i Hi. right. rewrite start_degree by done. split_and!; [by apply sym_at_Forall|done|].
      intros t c _. apply nth_repeat.
    + intros i t c Hi _ Ht. apply start_covers_nth; [done| |by exists c].
      by apply (sym_at_Forall _ _ _ H Hi) in Ht as [? _].
    + intros i Hi. apply list_elem_of_filter in Hi as [Hi1 Hi2]. apply bool_decide_spec in Hi1.
      apply elem_of_seq in Hi2. lia.
  - rewrite repeat_length. unfold build_covers. rewrite length_map, length_seq. split_and!; try done.
    intros t v. by rewrite nth_repeat.
Qed.

Lemma peel_start_solves syms y :
  Forall sym_ok syms -> solves (peel_start syms k) y <-> solution k s syms y.
Proof.
  intros H. unfold solves, solution, all_sat. cbn [peel_start pl_syms pl_revealed]. split.
  - intros (Hy & _ & A). split; [done|]. apply List.Forall_nth. intros i d Hi.
    rewrite (nth_indep _ d (mk_sym ∅ []) Hi). apply (A i Hi). apply live_payload. by apply sym_at_Forall.
  - intros [Hy A]. split_and!; [done| |].
    + intros t v. by rewrite nth_repeat.
    + intros i Hi _. by apply sym_at_Forall.
Qed.

(** *** The queue drains

    Queued symbols and symbols of degree two or more: one popped symbol takes
    one away, and a symbol the ripple queues only moves. *)
Definition count_high (degree : list nat) : nat := length (filter (fun d => (2 <= d)%nat) degree).
Definition potential (degree queue : list nat) : nat := (length queue + count_high degree)%nat.

Lemma count_high_insert degree i d :
  (i < length degree)%nat ->
  (count_high (<[i := d]> degree) + (if decide (2 <= nth i degree 0)%nat then 1 else 0)
   = count_high degree + (if decide (2 <= d)%nat then 1 else 0))%nat.
Proof.
  unfold count_high. revert i. induction degree as [|d0 degree IH]; intros [|i] Hi; cbn in Hi; try lia.
  - change (<[0%nat := d]> (d0 :: degree)) with (d :: degree). rewrite !filter_cons. cbn [nth].
    repeat case_decide; cbn [length]; lia.
  - change (<[S i := d]> (d0 :: degree)) with (d0 :: <[i := d]> degree). rewrite !filter_cons. cbn [nth].
    specialize (IH i ltac:(lia)). repeat case_decide; cbn [length]; lia.
Qed.

Lemma ripple_one_potential si target x st sj (st' := ripple_one cpu si target x st sj) :
  potential (snd (fst st')) (snd st') = potential (snd (fst st)) (snd st)
  /\ length (snd (fst st')) = length (snd (fst st)).
Proof.
  subst st'. destruct st as [[syms degree] queue]. unfold ripple_one.
  destruct (_ || _) eqn:E; [done|]. apply orb_false_iff in E as [_ E].
  apply Nat.eqb_neq in E. destruct (_ !! target) as [c|]; [|done]. cbn [fst snd].
  assert (sj < length degree)%nat as Hsj.
  { destruct (decide (sj < length degree)%nat); [done|]. exfalso. apply E, nth_overflow. lia. }
  pose proof (count_high_insert degree sj (nth sj degree 0%nat - 1)%nat Hsj) as Hc. unfold potential.
  split; [|by rewrite length_insert].
  destruct (Nat.eqb_spec (nth sj degree 0%nat - 1) 1); rewrite ?length_app; cbn [length];
    repeat case_decide; lia.
Qed.

Lemma ripple_potential si target x deps : forall st (st' := fold_left (ripple_one cpu si target x) deps st),
  potential (snd (fst st')) (snd st') = potential (snd (fst st)) (snd st).
Proof.
  induction deps as [|sj deps IH]; intros st; [done|]. cbn [fold_left]. cbv zeta in IH |- *.
  rewrite IH. apply ripple_one_potential.
Qed.

Lemma peel_step_potential st si queue (st' := peel_step cpu si queue st) :
  (potential (pl_degree st') (pl_queue st') <= potential (pl_degree st) queue)%nat.
Proof.
  subst st'. unfold peel_step. destruct (Nat.eqb_spec (nth si (pl_degree st) 0%nat) 0) as [|E]; [done|].
  assert (si < length (pl_degree st))%nat as Hsi.
  { destruct (decide (si < length (pl_degree st))%nat); [done|]. exfalso. apply E, nth_overflow. lia. }
  assert (potential (<[si := 0%nat]> (pl_degree st)) queue <= potential (pl_degree st) queue)%nat as Hp.
  { unfold potential. pose proof (count_high_insert (pl_degree st) si 0%nat Hsi) as Hc.
    repeat case_decide; lia. }
  destruct (List.find _ _) as [[t c]|]; [|done]. cbn zeta.
  pose proof (ripple_potential si t (scal_inplace cpu (p_payload (sym_at (pl_syms st) si)) (gf_inv c))
    (nth t (pl_covers st) []) (<[si := mk_sym (p_cover (sym_at (pl_syms st) si)) []]> (pl_syms st),
     <[si := 0%nat]> (pl_degree st), queue)) as R. cbv zeta in R.
  destruct (fold_left _ _ _) as [[syms degree] queue'].
  cbn [fst snd pl_degree pl_queue] in *. lia.
Qed.

Lemma peel_loop_drains fuel : forall st,
  (potential (pl_degree st) (pl_queue st) <= fuel)%nat -> pl_queue (peel_loop cpu fuel st) = [].
Proof.
  induction fuel as [|fuel IH]; intros st H; cbn [peel_loop].
  - unfold potential in H. destruct (pl_queue st); [done|cbn in H; lia].
  - destruct (pl_queue st) as [|si queue] eqn:Q; [done|]. apply IH.
    pose proof (peel_step_potential st si queue). unfold potential in H at 1. cbn in H.
    unfold potential in *. lia.
Qed.

Lemma filter_seq_shift (p : nat -> bool) n : forall a,
  length (filter (fun i => p i) (seq (S a) n)) = length (filter (fun i => p (S i)) (seq a n)).
Proof.
  induction n as [|n IH]; intros a; [done|]. cbn [seq]. rewrite !filter_cons.
  case_decide; cbn [length]; by rewrite IH.
Qed.

Lemma start_potential syms :
  (potential (pl_degree (peel_start syms k)) (pl_queue (peel_start syms k)) <= length syms)%nat.
Proof.
  unfold potential, peel_start, count_high. cbn [pl_degree pl_queue].
  set (degree := map _ syms). assert (length degree = length syms) as <- by apply length_map.
  clearbody degree. clear syms. induction degree as [|d degree IH]; [done|].
  cbn [length seq]. rewrite !filter_cons.
  pose proof (filter_seq_shift (fun i => bool_decide (nth i (d :: degree) 0%nat = 1%nat)) (length degree) 0)
    as E. cbn [nth] in E |- *.
  repeat case_decide; cbn [length]; rewrite ?E; rewrite ?bool_decide_spec in *; lia.
Qed.

(** *** The residual system *)

Definition lsum (g : nat -> Z) (l : list nat) : Z := foldr (fun i a => Z.lxor (g i) a) 0 l.

Lemma lsum_app g a b : lsum g (a ++ b) = Z.lxor (lsum g a) (lsum g b).
Proof.
  induction a as [|i a IH]; [by rewrite Z.lxor_0_l|]. cbn [app lsum foldr].
  fold (lsum g (a ++ b)). rewrite IH. fold (lsum g a). by rewrite Z.lxor_assoc.
Qed.

Lemma xsum_lsum g n : xsum g n = lsum g (seq 0 n).
Proof.
  induction n as [|n IH]; [done|]. cbn [xsum]. rewrite seq_S, lsum_app, IH. cbn.
  by rewrite Z.lxor_0_r.
Qed.

Lemma lsum_filter g (p : nat -> bool) l :
  (forall i, p i = false -> g i = 0) -> lsum g (filter (fun i => p i) l) = lsum g l.
Proof.
  intros H. induction l as [|i l IH]; [done|]. rewrite filter_cons. case_decide as C; cbn.
  - f_equal. exact IH.
  - rewrite (H i) by (by destruct (p i)). rewrite Z.lxor_0_l. exact IH.
Qed.

Lemma dot_map_app f g l p q :
  dot (map f l ++ p) (map g l ++ q) = Z.lxor (lsum (fun i => gf_mul (f i) (g i)) l) (dot p q).
Proof.
  induction l as [|i l IH]; [by rewrite Z.lxor_0_l|]. cbn [map app dot lsum foldr].
  rewrite IH. by rewrite Z.lxor_assoc.
Qed.

Definition unit_vec (j : nat) : bytes := <[j := 1]> (repeat 0 s).

Lemma unit_vec_bytes j : bytes_ok (unit_vec j).
Proof. apply Forall_insert; [|done]. apply List.Forall_forall. by intros x ->%repeat_spec. Qed.

Lemma dot_unit p j : row_ok s p -> (j < s)%nat -> dot p (unit_vec j) = nth j p 0.
Proof.
  intros [Hl Hb] Hj. rewrite dot_xsum by (done || apply unit_vec_bytes). unfold unit_vec.
  rewrite length_insert, repeat_length.
  assert (forall i, nth i (<[j := 1]> (repeat 0 s)) 0 = if (i =? j)%nat then 1 else 0) as E.
  { intros i. rewrite nth_insert, repeat_length, (proj2 (Nat.ltb_lt j s) Hj), andb_true_r.
    by rewrite nth_repeat. }
  rewrite (xsum_single _ _ j Hj).
  - rewrite E, Nat.eqb_refl, gf_mul_comm by (done || by apply bytes_nth).
    by apply gf_mul_1_l, bytes_nth.
  - intros i _ Hne. rewrite E, (proj2 (Nat.eqb_neq i j) Hne). by apply gf_mul_0_r, bytes_nth.
Qed.

Section Residual.
Variable st : Peel.
Hypothesis Hst : peel_inv st.

Definition unknowns : list nat := filter (fun i => unrevealed (pl_revealed st) i) (seq 0 k).
Definition residual : list bytes := omap (residual_row unknowns) (pl_syms st).
#[local] Abbreviation r := (length unknowns).

(** Byte [j] of every unknown, and the unit that picks byte [j] of a row. *)
Definition column (y : list bytes) (j : nat) : bytes :=
  map (fun u => nth j (nth u y []) 0) unknowns ++ unit_vec j.

Lemma unknown_spec u : u ∈ unknowns <-> (u < k)%nat /\ nth u (pl_revealed st) None = None.
Proof.
  unfold unknowns. rewrite list_elem_of_filter, elem_of_seq. unfold unrevealed.
  destruct (nth u (pl_revealed st) None); cbn; split; intros; destruct_and?; (done || lia || split_and?; done || lia).
Qed.

Lemma column_bytes y j : sources_ok y -> bytes_ok (column y j).
Proof.
  intros Hy. apply List.Forall_app. split; [|apply unit_vec_bytes]. apply List.Forall_forall.
  intros x Hx. apply in_map_iff in Hx as (u & <- & Hu). apply list_elem_of_In in Hu.
  apply (source_byte k s); [done|]. by apply unknown_spec.
Qed.

Lemma sym_live i :
  (i < length (pl_syms st))%nat -> live (pl_syms st) i ->
  sym_ok (sym_at (pl_syms st) i)
  /\ forall t c, p_cover (sym_at (pl_syms st) i) !! t = Some c -> t ∈ unknowns.
Proof.
  intros Hi Hl. destruct Hst as ((_ & H1 & _) & _). destruct (H1 i Hi) as [[? _]|(Hok & _ & Hun)]; [done|].
  split; [done|]. intros t c Ht. apply unknown_spec. split; [by apply (proj2 Hok t c)|by eapply Hun].
Qed.

Lemma comb_unknowns i y j :
  (i < length (pl_syms st))%nat -> live (pl_syms st) i -> sources_ok y ->
  comb k (p_cover (sym_at (pl_syms st) i)) y j
  = lsum (fun u => gf_mul (default 0 (p_cover (sym_at (pl_syms st) i) !! u)) (nth j (nth u y []) 0)) unknowns.
Proof.
  intros Hi Hl Hy. destruct (sym_live i Hi Hl) as [Hok Hun]. unfold comb. rewrite xsum_lsum.
  unfold unknowns. rewrite lsum_filter; [done|]. intros u Hu.
  destruct (p_cover (sym_at (pl_syms st) i) !! u) as [c|] eqn:E.
  - apply Hun, unknown_spec in E as [_ E]. unfold unrevealed in Hu. by rewrite E in Hu.
  - cbn. destruct (decide (u < k)%nat) as [Huk|Huk]; [by apply gf_mul_0_l, (source_byte k s)|].
    rewrite (nth_overflow y) by (destruct Hy; lia). by destruct j.
Qed.

(** The row of a live symbol says what its equation says. *)
Lemma residual_row_sat i row y :
  (i < length (pl_syms st))%nat -> residual_row unknowns (sym_at (pl_syms st) i) = Some row -> sources_ok y ->
  row_ok (r + s) row
  /\ (sat y (sym_at (pl_syms st) i) <-> forall j, (j < s)%nat -> dot row (column y j) = 0).
Proof.
  intros Hi E Hy. unfold residual_row in E. destruct (is_nil _) eqn:N; [done|].
  assert (live (pl_syms st) i) as Hl by (intros Z0; by rewrite Z0 in N).
  destruct (existsb _ _); [|done]. injection E as <-. destruct (sym_live i Hi Hl) as [[Hp Hc] Hun].
  split.
  - split; [rewrite length_app, length_map; destruct Hp; lia|]. apply List.Forall_app. split; [|apply Hp].
    apply List.Forall_forall. intros x Hx. apply in_map_iff in Hx as (u & <- & _).
    destruct (_ !! u) as [c|] eqn:E; [by apply (Hc u)|done].
  - assert (forall j, (j < s)%nat ->
      dot (map (fun u => default 0 (p_cover (sym_at (pl_syms st) i) !! u)) unknowns
           ++ p_payload (sym_at (pl_syms st) i)) (column y j)
      = Z.lxor (comb k (p_cover (sym_at (pl_syms st) i)) y j) (nth j (p_payload (sym_at (pl_syms st) i)) 0)) as D.
    { intros j Hj. unfold column. rewrite dot_map_app, dot_unit by done. by rewrite comb_unknowns. }
    unfold DlrFountain.sat. split; intros H j Hj.
    + rewrite D, H by done. apply Z.lxor_nilpotent.
    + apply Z.lxor_eq. rewrite <- D by done. by apply H.
Qed.

(** A live symbol without a row covers nothing. *)
Lemma residual_row_none i y y' :
  (i < length (pl_syms st))%nat -> live (pl_syms st) i ->
  residual_row unknowns (sym_at (pl_syms st) i) = None -> sources_ok y -> sources_ok y' ->
  sat y (sym_at (pl_syms st) i) -> sat y' (sym_at (pl_syms st) i).
Proof.
  intros Hi Hl E Hy Hy' H. unfold residual_row in E.
  destruct (is_nil _) eqn:N; [by apply is_nil_true in N|].
  destruct (existsb _ _) eqn:X; [done|]. destruct (sym_live i Hi Hl) as [_ Hun].
  assert (p_cover (sym_at (pl_syms st) i) = ∅) as C.
  { apply map_empty. intros t. destruct (_ !! t) as [c|] eqn:Et; [|done]. exfalso.
    apply not_true_iff_false in X. apply X. apply existsb_exists. exists t.
    split; [apply list_elem_of_In; by eapply Hun|]. apply bool_decide_eq_true. by rewrite Et. }
  intros j Hj. rewrite <- (H j Hj). unfold comb. rewrite C. apply xsum_ext. intros u Hu.
  rewrite lookup_empty. cbn [default from_option]. by rewrite !gf_mul_0_l by (by apply (source_byte k s)).
Qed.

Lemma residual_ok y : sources_ok y -> Forall (row_ok (r + s)) residual.
Proof.
  intros Hy. apply List.Forall_forall. intros row Hrow. apply list_elem_of_In in Hrow.
  apply list_elem_of_omap in Hrow as (sym & Hsym & E). apply list_elem_of_lookup in Hsym as (i & Hi).
  pose proof (lookup_lt_Some _ _ _ Hi) as Hlt.
  assert (sym = sym_at (pl_syms st) i) as ->. { unfold sym_at. symmetry. by apply nth_lookup_Some. }
  by apply (residual_row_sat i row y).
Qed.

(** Given one solution, the others are what the residual rows allow. *)
Lemma residual_solves x y :
  solves st x -> sources_ok y ->
  (forall t v, nth t (pl_revealed st) None = Some v -> nth t y [] = v) ->
  solves st y <-> forall j, (j < s)%nat -> kernel residual (column y j).
Proof.
  intros (Hx & _ & Hxs) Hy Hrev. split.
  - intros (_ & _ & H) j Hj rr Hr.
    assert (nth rr residual [] ∈ residual) as Hin by (by apply list_elem_of_In, nth_In).
    apply list_elem_of_omap in Hin as (sym & Hsym & E). apply list_elem_of_lookup in Hsym as (i & Hi).
    pose proof (lookup_lt_Some _ _ _ Hi) as Hlt.
    assert (sym = sym_at (pl_syms st) i) as ->. { unfold sym_at. symmetry. by apply nth_lookup_Some. }
    destruct (residual_row_sat i _ y Hlt E Hy) as [_ Hs']. apply Hs'; [|done]. apply H; [done|].
    intros N. unfold residual_row in E. by rewrite N in E.
  - intros H. split_and!; try done. intros i Hi Hl.
    destruct (residual_row unknowns (sym_at (pl_syms st) i)) as [row|] eqn:E.
    + apply (residual_row_sat i row y Hi E Hy). intros j Hj.
      assert (row ∈ residual) as Hin.
      { apply list_elem_of_omap. exists (sym_at (pl_syms st) i). split; [|done].
        apply list_elem_of_In, nth_In. done. }
      apply list_elem_of_In, (In_nth _ _ []) in Hin as (rr & Hr & <-). by apply H.
    + apply (residual_row_none i x y); auto.
Qed.

(** *** Reading the solution off the reduced rows *)

Lemma lead_at n : forall p row,
  (p < n)%nat -> (p < length row)%nat -> (forall j, (j < p)%nat -> nth j row 0 = 0) -> nth p row 0 <> 0 ->
  lead n row = p.
Proof.
  induction n as [|n IH]; intros p row Hn Hl H Hp; [lia|].
  destruct row as [|c row]; [cbn in Hl; lia|]. cbn [lead]. destruct p as [|p].
  - cbn in Hp. by rewrite (proj2 (Z.eqb_neq c 0)).
  - pose proof (H 0%nat ltac:(lia)) as H0. cbn in H0. subst c. cbn [Z.eqb]. f_equal.
    apply IH; [lia|cbn in Hl; lia| |done]. intros j Hj. apply (H (S j)). lia.
Qed.
Lemma lead_none n : forall row,
  (n <= length row)%nat -> (forall j, (j < n)%nat -> nth j row 0 = 0) -> lead n row = n.
Proof.
  induction n as [|n IH]; intros row Hl H; [done|].
  destruct row as [|c row]; [cbn in Hl; lia|]. cbn [lead].
  pose proof (H 0%nat ltac:(lia)) as H0. cbn in H0. subst c. cbn [Z.eqb]. f_equal.
  apply IH; [cbn in Hl; lia|]. intros j Hj. apply (H (S j)). lia.
Qed.

Lemma ident_lead rows i :
  Forall (row_ok (r + s)) rows -> ident rows r -> (i < length rows)%nat ->
  lead r (nth i rows []) = if (i <? r)%nat then i else r.
Proof.
  intros Hok [Hr Hid] Hi. assert (length (nth i rows []) = (r + s)%nat) as Hl.
  { rewrite List.Forall_nth in Hok. by apply Hok. }
  destruct (Nat.ltb_spec i r) as [Hir|Hir].
  - apply lead_at; [done|lia| |].
    + intros j Hj. specialize (Hid i j Hi ltac:(lia)). unfold entry in Hid.
      by rewrite (proj2 (Nat.eqb_neq i j)) in Hid by lia.
    + specialize (Hid i i Hi Hir). unfold entry in Hid. rewrite Nat.eqb_refl in Hid. by rewrite Hid.
  - apply lead_none; [lia|]. intros j Hj. specialize (Hid i j Hi Hj). unfold entry in Hid.
    by rewrite (proj2 (Nat.eqb_neq i j)) in Hid by lia.
Qed.

Lemma dot_app a b y z : length a = length y -> dot (a ++ b) (y ++ z) = Z.lxor (dot a y) (dot b z).
Proof.
  revert y. induction a as [|c a IH]; intros [|x y] Hl; try (cbn in Hl; done || lia).
  cbn [app dot]. rewrite IH by (cbn in Hl; lia). by rewrite Z.lxor_assoc.
Qed.

Lemma nth_take_lt (l : bytes) n j : (j < n)%nat -> nth j (take n l) 0 = nth j l 0.
Proof. intros Hj. rewrite !nth_lookup. by rewrite lookup_take_lt. Qed.
Lemma nth_drop_add (l : bytes) n j : nth j (drop n l) 0 = nth (n + j) l 0.
Proof. rewrite !nth_lookup. by rewrite lookup_drop. Qed.

Lemma solved_row rows y i :
  Forall (row_ok (r + s)) rows -> ident rows r -> sources_ok y ->
  (forall j, (j < s)%nat -> kernel rows (column y j)) -> (i < r)%nat ->
  slice (nth i rows []) r (r + s) = nth (nth i unknowns 0%nat) y [].
Proof.
  intros Hok Hid Hy Hk Hi. pose proof Hid as [Hr Hent].
  assert (i < length rows)%nat as Hil by lia.
  assert (row_ok (r + s) (nth i rows [])) as [Hl Hb] by (rewrite List.Forall_nth in Hok; by apply Hok).
  assert (nth i unknowns 0%nat ∈ unknowns) as Hu by (by apply list_elem_of_In, nth_In).
  apply unknown_spec in Hu as [Huk _]. destruct (proj2 Hy _ Huk) as [Hlu Hbu].
  unfold slice. replace (r + s - r)%nat with s by lia.
  apply nth_ext_bytes; rewrite length_take, length_drop; [lia|]. intros j Hj.
  rewrite nth_take_lt, nth_drop_add by lia. specialize (Hk j ltac:(lia) i Hil).
  rewrite <- (take_drop r (nth i rows [])) in Hk. unfold column in Hk.
  rewrite dot_app in Hk by (rewrite length_take, length_map; lia).
  rewrite dot_unit in Hk by (lia || (split; [rewrite length_drop; lia|by apply Forall_drop])).
  rewrite nth_drop_add in Hk. apply Z.lxor_eq in Hk. rewrite <- Hk.
  assert (bytes_ok (map (fun u => nth j (nth u y []) 0) unknowns)) as Hmb.
  { pose proof (column_bytes y j Hy) as Hcb. apply List.Forall_app in Hcb. apply Hcb. }
  rewrite dot_xsum by (exact Hmb || (by apply Forall_take)).
  rewrite length_map, (xsum_single _ _ i Hi).
  - rewrite nth_take_lt by done. fold (entry rows i i). rewrite Hent, Nat.eqb_refl by done.
    set (f := fun u => nth j (nth u y []) 0).
    rewrite (nth_indep _ 0 (f 0%nat)) by (by rewrite length_map). rewrite map_nth. unfold f.
    apply gf_mul_1_l. by apply (source_byte k s).
  - intros i' Hi' Hne. rewrite nth_take_lt by done. fold (entry rows i i'). rewrite Hent by done.
    rewrite (proj2 (Nat.eqb_neq i i')) by done. by apply gf_mul_0_l, bytes_nth.
Qed.

Definition agrees (revealed : list (option bytes)) (y : list bytes) : Prop :=
  length revealed = k /\ forall t v, nth t revealed None = Some v -> nth t y [] = v.

Lemma publish_agrees y rows : forall revealed,
  (forall row, row ∈ rows -> (lead r row < r)%nat ->
     slice row r (r + s) = nth (nth (lead r row) unknowns 0%nat) y []) ->
  agrees revealed y ->
  let revealed' := fold_left (publish unknowns r s) rows revealed in
  agrees revealed' y
  /\ (forall t, nth t revealed None <> None -> nth t revealed' None <> None)
  /\ (forall row, row ∈ rows -> (lead r row < r)%nat ->
        nth (nth (lead r row) unknowns 0%nat) revealed' None <> None).
Proof.
  induction rows as [|row rows IH]; intros revealed Hrows Ha; cbn [fold_left].
  { split_and!; try done. intros row Hrow. by apply elem_of_nil in Hrow. }
  assert (forall t, nth t (publish unknowns r s revealed row) None
    = if bool_decide (lead r row < r /\ t = nth (lead r row) unknowns 0)%nat
      then Some (slice row r (r + s)) else nth t revealed None) as E.
  { intros t. unfold publish. destruct (Nat.ltb_spec (lead r row) r) as [Hl|Hl].
    - assert (nth (lead r row) unknowns 0%nat ∈ unknowns) as Hu by (by apply list_elem_of_In, nth_In).
      apply unknown_spec in Hu as [Hu _]. rewrite nth_insert, (proj1 Ha), (proj2 (Nat.ltb_lt _ _) Hu).
      rewrite andb_true_r. destruct (Nat.eqb_spec t (nth (lead r row) unknowns 0%nat)) as [->|Hne].
      + by rewrite bool_decide_true.
      + rewrite bool_decide_false; [done|]. by intros [_ ?].
    - rewrite bool_decide_false; [done|]. intros [? _]. lia. }
  destruct (IH (publish unknowns r s revealed row)) as (A & B & C).
  - intros row' Hrow'. apply Hrows. by right.
  - split.
    + unfold publish. destruct (_ <? _)%nat; rewrite ?length_insert; apply Ha.
    + intros t v. rewrite E. case_bool_decide as D; [|apply (proj2 Ha)]. intros [= <-].
      destruct D as [D ->]. symmetry. apply Hrows; [by left|done].
  - split_and!; [done|..].
    + intros t Ht. apply B. rewrite E. by case_bool_decide.
    + intros row' Hrow' Hl. apply elem_of_cons in Hrow' as [->|Hrow']; [|by apply C].
      apply B. rewrite E. rewrite bool_decide_true by done. done.
Qed.

Lemma values_eq revealed y :
  agrees revealed y -> sources_ok y -> (forall t, (t < k)%nat -> nth t revealed None <> None) ->
  revealed_values revealed = y.
Proof.
  intros [Hl Ha] [Hy _] H. unfold revealed_values.
  apply (nth_ext _ _ [] []); [rewrite length_map; congruence|]. rewrite length_map. intros t Ht.
  rewrite (nth_indep _ [] (default [] None)) by (by rewrite length_map). rewrite map_nth.
  destruct (nth t revealed None) as [v|] eqn:E; [|exfalso; apply (H t); [congruence|done]].
  cbn. symmetry. by apply Ha.
Qed.

(** *** A freedom gives a second solution *)

Definition shift_by (x : list bytes) (m : gmap nat Z) : list bytes :=
  imap (fun i v => match v with [] => [] | b :: v' => Z.lxor b (default 0 (m !! i)) :: v' end) x.

Lemma shift_by_nth x m i j :
  (i < length x)%nat -> (j < length (nth i x []))%nat ->
  nth j (nth i (shift_by x m) []) 0
  = if (j =? 0)%nat then Z.lxor (nth 0 (nth i x []) 0) (default 0 (m !! i)) else nth j (nth i x []) 0.
Proof.
  intros Hi Hj. unfold shift_by. rewrite (nth_imap _ _ _ []) by done.
  destruct (nth i x []) as [|b v]; [cbn in Hj; lia|]. by destruct j.
Qed.

Lemma map_lookup_zip (l : list nat) (v : bytes) :
  NoDup l -> length l = length v ->
  map (fun u => default 0 ((list_to_map (zip l v) : gmap nat Z) !! u)) l = v.
Proof.
  intros Hn. revert v. induction Hn as [|u l Hu Hn IH]; intros [|b v] Hl; try done.
  cbn [zip zip_with list_to_map foldr map fst snd]. rewrite lookup_insert_eq. cbn [default from_option]. f_equal.
  etrans; [|apply (IH v)]; [|cbn in Hl; lia]. apply map_ext_in. intros u' Hu'.
  rewrite lookup_insert_ne; [done|]. intros ->. by apply Hu, list_elem_of_In.
Qed.

Lemma NoDup_unknowns : NoDup unknowns.
Proof. apply list.NoDup_filter, list.NoDup_seq. Qed.

Lemma dot_column_shift row x m j :
  row_ok (r + s) row -> sources_ok x -> (forall i, is_byte (default 0 (m !! i))) -> (j < s)%nat ->
  dot row (column (shift_by x m) j)
  = Z.lxor (dot row (column x j))
      (if (j =? 0)%nat then dot row (map (fun u => default 0 (m !! u)) unknowns) else 0).
Proof.
  intros [Hl Hb] Hx Hm Hj. unfold column.
  assert (forall u, u ∈ unknowns -> nth j (nth u (shift_by x m) []) 0
            = if (j =? 0)%nat then Z.lxor (nth 0 (nth u x []) 0) (default 0 (m !! u))
              else nth j (nth u x []) 0) as E.
  { intros u Hu. apply unknown_spec in Hu as [Huk _]. destruct (proj2 Hx u Huk).
    apply shift_by_nth; [destruct Hx; lia|lia]. }
  assert (forall u, u ∈ unknowns -> is_byte (nth j (nth u x []) 0)) as Hxb.
  { intros u Hu. apply unknown_spec in Hu as [Huk _]. by apply (source_byte k s). }
  clear Hl Hj. destruct (Nat.eqb_spec j 0) as [->|Hj].
  2: { rewrite Z.lxor_0_r. f_equal. f_equal. apply map_ext_in. intros u Hu. apply E.
       by apply list_elem_of_In. }
  revert Hb E Hxb. generalize unknowns as l. intros l Hb. revert l.
  induction Hb as [|c row Hc Hb IH]; intros l E Hxb; [by destruct l|].
  destruct l as [|u l]; cbn [map app dot]; [by rewrite Z.lxor_0_r|].
  rewrite IH; [|intros; apply E; by right|intros; apply Hxb; by right].
  rewrite E by left. rewrite gf_mul_lxor_r; [bits|done|apply Hxb; left|apply Hm].
Qed.

Lemma second_solution x v :
  solves st x -> length v = r -> bytes_ok v -> Exists (fun b => b <> 0) v -> kernel residual v ->
  exists y, solves st y /\ y <> x.
Proof.
  intros Hx Hl Hb Hne Hk. pose proof Hx as (Hxok & Hxrev & _).
  set (m := list_to_map (zip unknowns v) : gmap nat Z).
  assert (map (fun u => default 0 (m !! u)) unknowns = v) as Em.
  { apply map_lookup_zip; [apply NoDup_unknowns|done]. }
  assert (forall i c, m !! i = Some c -> i ∈ unknowns /\ is_byte c) as Hm.
  { intros i c H. apply elem_of_list_to_map_2 in H. apply elem_of_zip_l in H as Hi.
    apply elem_of_zip_r in H. split; [done|]. unfold bytes_ok in Hb. rewrite List.Forall_forall in Hb.
    by apply Hb, list_elem_of_In. }
  assert (forall i, is_byte (default 0 (m !! i))) as Hmb.
  { intros i. destruct (m !! i) as [c|] eqn:E; [by apply (Hm i)|done]. }
  assert (forall i, (i < k)%nat -> row_ok s (nth i (shift_by x m) [])) as Hrow.
  { intros i Hi. destruct (proj2 Hxok i Hi) as [Hli Hbi]. unfold shift_by.
    rewrite (nth_imap _ _ _ []) by (destruct Hxok; lia).
    destruct (nth i x []) as [|b w]; [done|]. apply list.Forall_cons in Hbi as [Hb1 Hb2].
    split; [done|]. apply list.Forall_cons. auto with gf. }
  assert (sources_ok (shift_by x m)) as Hy.
  { split; [|done]. unfold shift_by. rewrite length_imap. apply Hxok. }
  exists (shift_by x m). split.
  - apply (residual_solves x); [done|done| |].
    + intros t w Ht. rewrite <- (Hxrev t w Ht).
      destruct (decide (t < k)%nat) as [Htk|Htk].
      2: { by rewrite !nth_overflow by (destruct Hy, Hxok; lia). }
      unfold shift_by. rewrite (nth_imap _ _ _ []) by (destruct Hxok; lia).
      destruct (m !! t) as [c|] eqn:E.
      { apply Hm in E as [E _]. apply unknown_spec in E as [_ E]. congruence. }
      destruct (nth t x []); [done|]. cbn. by rewrite Z.lxor_0_r.
    + assert (forall j, (j < s)%nat -> kernel residual (column x j)) as Hkx.
      { apply (residual_solves x x); done. }
      pose proof (residual_ok x Hxok) as Hro. rewrite List.Forall_nth in Hro.
      intros j Hj rr Hr. rewrite dot_column_shift; [|by apply Hro|done..].
      rewrite (Hkx j Hj rr Hr), Em. destruct (j =? 0)%nat; [|done]. by rewrite (Hk rr Hr).
  - intros E. apply list.Exists_exists in Hne as (b & Hin & Hz). apply Hz.
    rewrite <- Em in Hin. apply list_elem_of_In, in_map_iff in Hin as (u & <- & Hu).
    apply list_elem_of_In, unknown_spec in Hu as [Huk _]. destruct (proj2 Hxok u Huk) as [Hlu _].
    assert (nth 0 (nth u (shift_by x m) []) 0 = nth 0 (nth u x []) 0) as F by (by rewrite E).
    rewrite shift_by_nth in F by (destruct Hxok; lia). cbn [Nat.eqb] in F.
    apply (f_equal (Z.lxor (nth 0 (nth u x []) 0))) in F.
    by rewrite <- Z.lxor_assoc, Z.lxor_nilpotent, Z.lxor_0_l in F.
Qed.
End Residual.

(** *** Decoding decides the system *)

Definition decides (syms : list ParsedSym) (x : list bytes) (o : res FountainError (list bytes)) : Prop :=
  match o with
  | Ok rec => rec = x /\ forall y, solution k s syms y -> y = x
  | Err e => (exists have need, e = Underdetermined have need)
             /\ exists y, solution k s syms y /\ y <> x
  | Panic => False
  end.

Lemma no_unknowns st t :
  peel_inv st -> unknowns st = [] -> (t < k)%nat -> nth t (pl_revealed st) None <> None.
Proof.
  intros Hst H Ht E. assert (t ∈ unknowns st) as Hin by (by apply unknown_spec).
  rewrite H in Hin. by apply elem_of_nil in Hin.
Qed.

Lemma solved_all st x rows :
  peel_inv st -> solves st x -> Forall (row_ok (length (unknowns st) + s)) rows ->
  ident rows (length (unknowns st)) -> (forall y, solves st y ->
    forall j, (j < s)%nat -> kernel rows (column st y j)) ->
  let revealed := fold_left (publish (unknowns st) (length (unknowns st)) s) rows (pl_revealed st) in
  existsb (fun o => match o with None => true | Some _ => false end) revealed = false
  /\ forall y, solves st y -> revealed_values revealed = y.
Proof.
  intros Hst Hx Hok Hid Hk. cbv zeta.
  assert (forall y, solves st y ->
    agrees (fold_left (publish (unknowns st) (length (unknowns st)) s) rows (pl_revealed st)) y
    /\ forall t, (t < k)%nat ->
       nth t (fold_left (publish (unknowns st) (length (unknowns st)) s) rows (pl_revealed st)) None <> None) as H.
  { intros y Hy. pose proof Hy as (Hyok & Hrev & _). destruct Hst as (Hsyms & Hlr & Hrest).
    destruct (publish_agrees st y rows (pl_revealed st)) as (A & B & C); [|by split|].
    - intros row Hrow Hl. apply list_elem_of_In, (In_nth _ _ []) in Hrow as (i & Hi & <-).
      rewrite (ident_lead st) in Hl |- * by done. destruct (Nat.ltb_spec i (length (unknowns st))); [|lia].
      apply solved_row; [done|done|done|by apply Hk|done].
    - split; [done|]. intros t Ht. destruct (nth t (pl_revealed st) None) as [v|] eqn:E.
      + apply B. by rewrite E.
      + assert (t ∈ unknowns st) as Hu by (by apply unknown_spec).
        apply list_elem_of_In, (In_nth _ _ 0%nat) in Hu as (i & Hi & <-).
        assert (i < length rows)%nat as Hil by (destruct Hid; lia).
        pose proof (ident_lead st rows i Hok Hid Hil) as El.
        rewrite (proj2 (Nat.ltb_lt _ _) Hi) in El.
        specialize (C (nth i rows [])). rewrite El in C. apply C; [|done].
        by apply list_elem_of_In, nth_In. }
  split.
  - destruct (H x Hx) as [[Hl _] Hs']. apply not_true_iff_false. intros X.
    apply existsb_exists in X as (o & Hin & Ho). destruct o; [done|].
    apply (In_nth _ _ None) in Hin as (t & Ht & E). rewrite Hl in Ht. by apply (Hs' t Ht).
  - intros y Hy. destruct (H y Hy) as [A B]. by apply values_eq; [|apply Hy|].
Qed.

Lemma peel_symbols_decides syms x :
  Forall sym_ok syms -> solution k s syms x -> decides syms x (snd (peel_symbols cpu syms k s)).
Proof.
  intros Hok Hx.
  destruct (peel_loop_spec (S (length syms)) (peel_start syms k) (peel_start_inv syms Hok))
    as (Hst & _ & Hsol).
  assert (forall y, solves (peel_loop cpu (S (length syms)) (peel_start syms k)) y <-> solution k s syms y)
    as Hall. { intros y. rewrite Hsol. by apply peel_start_solves. }
  clear Hsol. unfold peel_symbols. revert Hst Hall.
  generalize (peel_loop cpu (S (length syms)) (peel_start syms k)) as st. intros st Hst Hall.
  fold (unknowns st). fold (residual st). pose proof (proj2 (Hall x) Hx) as Hxs.
  destruct (unknowns st) as [|u us] eqn:U; cbn [is_nil].
  { cbn [snd decides]. assert (forall y, solves st y -> revealed_values (pl_revealed st) = y) as H.
    { intros y Hy. destruct Hst as (? & ? & ?). apply values_eq; [split; [done|apply Hy]|apply Hy|].
      intros t Ht. by apply (no_unknowns st). }
    split; [by apply H|]. intros y Hy. rewrite <- (H y) by (by apply Hall). by apply H. }
  rewrite <- U. assert (0 < length (unknowns st))%nat as Hr by (rewrite U; cbn; lia). clear U u us.
  destruct (gf_gauss_eliminate cpu (residual st) (length (unknowns st) + s) (length (unknowns st)))
    as [rows rank] eqn:G.
  pose proof (residual_ok st Hst x (proj1 Hxs)) as Hro.
  destruct (gf_gauss_spec cpu (length (unknowns st) + s) (residual st) (length (unknowns st)) rows rank
              (proj2 (rows_ok_Forall _ _) Hro) ltac:(lia) ltac:(lia) G)
    as (Hrok & _ & Hle & Hsame & Hcase).
  destruct (Hcase I) as [[-> Hid]|[Hlt (v & Hv1 & Hv2 & Hv3 & Hv4)]].
  - rewrite (proj2 (Nat.ltb_ge _ _)) by done.
    destruct (solved_all st x rows Hst Hxs (proj1 (rows_ok_Forall _ _) Hrok) Hid) as [E1 E2].
    { intros y Hy j Hj. assert (bytes_ok (column st y j)) as Hcb by (apply column_bytes, Hy).
      apply (proj2 (Hsame _ Hcb)).
      by apply (proj1 (residual_solves st Hst x y Hxs (proj1 Hy) (proj1 (proj2 Hy)))). }
    rewrite E1. cbn [snd decides]. split; [by apply E2|]. intros y Hy.
    rewrite <- (E2 y) by (by apply Hall). by apply E2.
  - rewrite (proj2 (Nat.ltb_lt _ _) Hlt). cbn [snd decides]. split; [by eexists _, _|].
    destruct (second_solution st Hst x v) as (y & Hy & Hne); try done.
    exists y. split; [by apply Hall|done].
Qed.
End Peeling.

(** ** The decoder as a whole *)

Lemma filter_all_true (p : nat -> bool) (l : list nat) : (forall i, p i = true) -> filter (fun i => p i) l = l.
Proof.
  intros H. induction l as [|i l IH]; [done|]. rewrite filter_cons, decide_True, IH; [done|].
  by rewrite H.
Qed.

Lemma few_symbols (cpu : Cpu) k s syms x :
  (0 < s)%nat -> Forall (sym_ok k s) syms -> solution k s syms x -> (length syms < k)%nat ->
  exists y, solution k s syms y /\ y <> x.
Proof.
  intros Hs Hok Hx Hlt. pose proof (peel_start_inv k s Hs syms Hok) as Hst.
  pose proof (proj2 (peel_start_solves k s Hs syms x Hok) Hx) as Hxs.
  set (st := peel_start syms k) in *.
  assert (length (unknowns k st) = k) as Hu.
  { unfold unknowns, st. cbn [peel_start pl_revealed]. rewrite filter_all_true; [apply length_seq|].
    intros i. unfold unrevealed. by rewrite nth_repeat. }
  pose proof (residual_ok k s Hs st Hst x (proj1 Hxs)) as Hro.
  assert (length (residual k st) <= length syms)%nat as Hlen.
  { unfold residual, st. cbn [peel_start pl_syms]. generalize (unknowns k (peel_start syms k)) as U. clear.
    intros U. induction syms as [|sym syms IH]; [done|]. cbn. destruct (residual_row U sym); cbn; lia. }
  destruct (gf_gauss_eliminate cpu (residual k st) (length (unknowns k st) + s) (length (unknowns k st)))
    as [rows rank] eqn:G.
  destruct (gf_gauss_spec cpu (length (unknowns k st) + s) (residual k st) (length (unknowns k st)) rows rank
              (proj2 (rows_ok_Forall _ _) Hro) ltac:(lia) ltac:(lia) G) as (_ & Hl & _ & _ & Hcase).
  destruct (Hcase I) as [[_ [Hid _]]|[_ (v & Hv1 & Hv2 & Hv3 & Hv4)]]; [lia|].
  destruct (second_solution k s Hs st Hst x v) as (y & Hy & Hne); try done.
  exists y. split; [|done]. by apply peel_start_solves in Hy.
Qed.

(** A decoder no failed attempt has touched: what [add] stores. *)
Definition fresh (d : FountainDecoder) : Prop := Forall (sym_ok (fd_k d) (fd_symbol_size d)) (fd_syms d).

Lemma decoder_new_fresh k s : fresh (decoder_new k s).
Proof. constructor. Qed.

Lemma parse_cover_ok n k : forall p cover,
  bytes_ok p -> cover_ok k cover -> cover_ok k (parse_cover n k p cover).
Proof.
  induction n as [|n IH]; intros p cover Hp Hc; [done|]. cbn [parse_cover].
  apply IH; [by apply Forall_drop|]. destruct (_ && _) eqn:E; [|done].
  apply andb_true_iff in E as [E1 E2]. apply Nat.ltb_lt in E1. apply negb_true_iff, Z.eqb_neq in E2.
  intros i c Hi. apply lookup_insert_Some in Hi as [[<- <-]|[_ Hi]]; [|by apply Hc].
  split_and!; [done|by apply bytes_nth|done].
Qed.

Lemma decoder_add_spec d wire d' o :
  fresh d -> bytes_ok wire -> decoder_add d wire = (d', o) ->
  fresh d' /\ fd_k d' = fd_k d /\ fd_symbol_size d' = fd_symbol_size d
  /\ (d' = d \/ exists sym, fd_syms d' = fd_syms d ++ [sym] /\ o = Ok true).
Proof.
  intros Hf Hw E. unfold decoder_add in E.
  destruct (_ <? 2)%nat eqn:?; [injection E as <- <-; eauto|].
  destruct (length wire <? 2 + _ + _)%nat eqn:El; [injection E as <- <-; eauto|].
  case_bool_decide; injection E as <- <-; [by eauto|]. split_and!; try done; [|right; by eexists].
  apply List.Forall_app. split; [done|]. constructor; [|done]. apply Nat.ltb_ge in El. split.
  - cbn [p_payload fd_symbol_size]. unfold slice. split; [rewrite length_take, length_drop; lia|].
    by apply Forall_take, Forall_drop.
  - apply parse_cover_ok; [by apply Forall_drop|]. intros i c Hi. by rewrite lookup_empty in Hi.
Qed.

Lemma decoder_decode_decides cpu d x d' o :
  fresh d -> (0 < fd_symbol_size d)%nat -> solution (fd_k d) (fd_symbol_size d) (fd_syms d) x ->
  decoder_decode cpu d = (d', o) -> decides (fd_k d) (fd_symbol_size d) (fd_syms d) x o.
Proof.
  intros Hf Hs Hx E. unfold decoder_decode in E.
  destruct (Nat.ltb_spec (length (fd_syms d)) (fd_k d)) as [Hlt|Hge].
  - injection E as _ <-. split; [by eexists _, _|]. by apply (few_symbols cpu).
  - pose proof (peel_symbols_decides cpu (fd_k d) (fd_symbol_size d) Hs (fd_syms d) x Hf Hx) as H.
    destruct (peel_symbols _ _ _ _) as [syms r]. by injection E as _ <-.
Qed.

(** ** What the encoder sends *)

Definition enc_pair (p : nat * Z) : bytes := put_u16_le (Z.of_nat p.1) ++ [p.2].
Definition pair_ok (k : nat) (p : nat * Z) : Prop := (p.1 < k)%nat /\ is_byte p.2 /\ p.2 <> 0.

Lemma put_u16_val v : Z.of_nat v < 65536 -> Z.to_nat (le_val (put_u16_le (Z.of_nat v))) = v.
Proof.
  intros Hv. unfold put_u16_le. rewrite wrap_small by (unfold in_u; lia).
  rewrite le_val_bytes by (change (2 ^ (8 * Z.of_nat 2)) with 65536; lia). lia.
Qed.

Lemma parse_pairs k pairs rest : forall cover,
  Z.of_nat k <= 65536 -> Forall (pair_ok k) pairs ->
  parse_cover (length pairs) k (concat (map enc_pair pairs) ++ rest) cover
  = fold_left (fun m p => <[p.1 := p.2]> m) pairs cover.
Proof.
  intros cover Hk Hp. revert cover.
  induction Hp as [|[i c] pairs (Hi & Hb & Hz) _ IH]; intros cover; [done|]. cbn [fst snd] in *.
  cbn [length parse_cover map concat fold_left fst snd]. change (enc_pair (i, c)) with (put_u16_le (Z.of_nat i) ++ [c]).
  assert (length (put_u16_le (Z.of_nat i)) = 2%nat) as Hl by apply length_le_bytes.
  rewrite <- !app_assoc.
  rewrite (take_app_length' (put_u16_le (Z.of_nat i))) by done. rewrite put_u16_val by lia.
  assert (nth 2 (put_u16_le (Z.of_nat i) ++ [c] ++ concat (map enc_pair pairs) ++ rest) 0 = c) as ->.
  { rewrite app_nth2 by lia. by rewrite Hl. }
  assert (drop 3 (put_u16_le (Z.of_nat i) ++ [c] ++ concat (map enc_pair pairs) ++ rest)
          = concat (map enc_pair pairs) ++ rest) as ->.
  { rewrite app_assoc. apply drop_app_length'. rewrite length_app, Hl. done. }
  rewrite (proj2 (Nat.ltb_lt i k) Hi), (proj2 (Z.eqb_neq c 0) Hz). cbn [andb negb]. apply IH.
Qed.

Lemma length_enc_pairs pairs : length (concat (map enc_pair pairs)) = (length pairs * 3)%nat.
Proof.
  induction pairs as [|p pairs IH]; [done|]. cbn [map concat length]. rewrite length_app, IH.
  unfold enc_pair, put_u16_le. rewrite length_app, length_le_bytes. cbn. lia.
Qed.

Lemma wire_symbol_eq pairs payload :
  wire_symbol pairs payload
  = put_u16_le (Z.of_nat (length pairs)) ++ concat (map enc_pair pairs) ++ payload.
Proof. unfold wire_symbol, length_z. do 3 f_equal. apply map_ext. by intros [i c]. Qed.

(** What [add] makes of a symbol as the encoder writes it. *)
Lemma decoder_add_wire d pairs payload :
  Z.of_nat (fd_k d) <= 65536 -> Forall (pair_ok (fd_k d)) pairs -> 0 < length_z pairs < 65536 ->
  length payload = fd_symbol_size d ->
  decoder_add d (wire_symbol pairs payload)
  = (mk_dec (fd_k d) (fd_symbol_size d)
       (fd_syms d ++ [mk_sym (fold_left (fun m p => <[p.1 := p.2]> m) pairs ∅) payload]), Ok true).
Proof.
  intros Hk Hp Hn Hl. rewrite wire_symbol_eq. unfold decoder_add. unfold length_z in Hn.
  assert (length (put_u16_le (Z.of_nat (length pairs))) = 2%nat) as H2 by apply length_le_bytes.
  rewrite (take_app_length' (put_u16_le (Z.of_nat (length pairs)))) by done.
  rewrite put_u16_val by lia. rewrite !length_app, H2, length_enc_pairs, Hl.
  rewrite (proj2 (Nat.ltb_ge _ _)) by lia. rewrite (proj2 (Nat.ltb_ge _ _)) by lia.
  rewrite (drop_app_length' (put_u16_le (Z.of_nat (length pairs)))) by done.
  rewrite parse_pairs by done. rewrite bool_decide_false.
  - do 5 f_equal. unfold slice. rewrite app_assoc, drop_app_length'.
    + apply take_ge. lia.
    + rewrite length_app, H2, length_enc_pairs. lia.
  - destruct pairs as [|[i c] pairs _] using rev_ind; [cbn in Hn; lia|]. rewrite fold_left_app. cbn.
    apply insert_non_empty.
Qed.

(** The equation of a list of pairs. *)
Lemma comb_insert k s cover y j i c :
  sources_ok k s y -> (i < k)%nat -> cover !! i = None ->
  comb k (<[i := c]> cover) y j = Z.lxor (comb k cover y j) (gf_mul c (nth j (nth i y []) 0)).
Proof.
  intros Hy Hi Hn. unfold comb.
  rewrite (xsum_update (fun i => gf_mul (default 0 (cover !! i)) (nth j (nth i y []) 0)) _ k i Hi).
  - rewrite lookup_insert_eq, Hn. cbn [default from_option].
    rewrite gf_mul_0_l by (by apply (source_byte k s)). by rewrite Z.lxor_0_l.
  - intros i' _ Hne. by rewrite lookup_insert_ne.
Qed.

Definition mixed (pairs : list (nat * Z)) (y : list bytes) (j : nat) : Z :=
  foldr (fun p a => Z.lxor (gf_mul p.2 (nth j (nth p.1 y []) 0)) a) 0 pairs.

Lemma comb_pairs k s pairs y j : forall cover,
  sources_ok k s y -> Forall (pair_ok k) pairs -> NoDup (map fst pairs) ->
  (forall p, p ∈ pairs -> cover !! p.1 = None) ->
  comb k (fold_left (fun m p => <[p.1 := p.2]> m) pairs cover) y j
  = Z.lxor (comb k cover y j) (mixed pairs y j).
Proof.
  intros cover Hy Hp. revert cover. induction Hp as [|[i c] pairs (Hi & Hb & Hz) _ IH]; intros cover Hn Hc.
  - cbn. by rewrite Z.lxor_0_r.
  - cbn [fst snd] in *. cbn [fold_left map fst snd] in *. apply list.NoDup_cons in Hn as [Hni Hn].
    rewrite IH; [|done|].
    + rewrite (comb_insert k s) by (done || (apply (Hc (i, c)); by left)).
      cbn [mixed foldr fst snd]. by rewrite Z.lxor_assoc.
    + intros [i' c'] Hin. cbn [fst]. rewrite lookup_insert_ne; [by apply (Hc (i', c')); right|].
      intros ->. apply Hni. apply (list_elem_of_fmap_2 fst _ _ Hin).
Qed.

(** A source whose [k] symbols are [symbol_size] bytes each, and its symbols. *)
Definition source_ok (src : Source) : Prop :=
  forall i, (i < src_k src)%nat -> row_ok (src_symbol_size src) (src_at src i).
Definition sources (src : Source) : list bytes := map (src_at src) (seq 0 (src_k src)).

Lemma sources_nth src i : (i < src_k src)%nat -> nth i (sources src) [] = src_at src i.
Proof.
  intros Hi. unfold sources. rewrite (nth_indep _ [] (src_at src 0)) by (by rewrite length_map, length_seq).
  rewrite map_nth, seq_nth by done. done.
Qed.
Lemma sources_sources_ok src : source_ok src -> sources_ok (src_k src) (src_symbol_size src) (sources src).
Proof.
  intros H. split; [unfold sources; by rewrite length_map, length_seq|].
  intros i Hi. rewrite sources_nth by done. by apply H.
Qed.

Lemma encoder_new_ok source gen e :
  Forall bytes_ok source -> encoder_new source gen = Ok e ->
  source_ok (fe_source e) /\ sources (fe_source e) = source.
Proof.
  intros Hb E. unfold encoder_new in E. destruct source as [|s0 source]; [done|].
  destruct (List.find _ _) as [|] eqn:F; [done|]. injection E as <-. cbn [fe_source]. split.
  - intros i Hi. cbn [src_k src_at src_symbol_size] in *.
    assert (In (nth i (s0 :: source) []) (s0 :: source)) as Hin by (by apply nth_In).
    split; [|rewrite List.Forall_forall in Hb; by apply Hb].
    apply (find_none _ _ F) in Hin. apply negb_false_iff, Nat.eqb_eq in Hin. done.
  - unfold sources. cbn [src_k src_at].
    apply (nth_ext _ _ [] []); [by rewrite length_map, length_seq|]. rewrite length_map, length_seq.
    intros i Hi. rewrite (nth_indep _ [] (nth 0 (s0 :: source) [])) by (by rewrite length_map, length_seq).
    rewrite (map_nth (fun i => nth i (s0 :: source) [])), seq_nth by done. done.
Qed.

Lemma encoder_new_shared_ok buf offset stride k gen e :
  bytes_ok buf -> encoder_new_shared buf offset stride k gen = Ok e ->
  source_ok (fe_source e) /\ fe_source e = Shared buf offset stride k
  /\ (0 < k)%nat /\ (0 < stride)%nat /\ (offset + k * stride <= length buf)%nat.
Proof.
  intros Hb E. unfold encoder_new_shared in E. destruct (_ || _) eqn:Z0; [done|].
  apply orb_false_iff in Z0 as [Z1 Z2]. apply Nat.eqb_neq in Z1, Z2.
  destruct (umax 64 <? _); [done|]. destruct (Nat.ltb_spec (length buf) (offset + k * stride)) as [|Hle]; [done|].
  injection E as <-. cbn [fe_source]. split_and!; try done; try lia.
  intros i Hi. cbn [src_k src_at src_symbol_size] in *. unfold slice. split.
  - rewrite length_take, length_drop. nia.
  - by apply Forall_take, Forall_drop.
Qed.

Lemma mix_ok cpu src chosen : forall coeffs payload,
  source_ok src -> length coeffs = length chosen -> Forall is_byte coeffs ->
  Forall (fun i => i < src_k src)%nat chosen -> row_ok (src_symbol_size src) payload ->
  row_ok (src_symbol_size src) (mix cpu src chosen coeffs payload)
  /\ forall j, (j < src_symbol_size src)%nat ->
       nth j (mix cpu src chosen coeffs payload) 0
       = Z.lxor (nth j payload 0) (mixed (combine chosen coeffs) (sources src) j).
Proof.
  induction chosen as [|i chosen IH]; intros [|c coeffs] payload Hs Hl Hc Hi Hp; try done.
  { split; [done|]. intros j _. cbn. by rewrite Z.lxor_0_r. }
  apply list.Forall_cons in Hc as [Hc1 Hc]. apply list.Forall_cons in Hi as [Hi1 Hi].
  unfold mix. cbn [combine fold_left]. fold (mix cpu src chosen coeffs (axpy cpu payload c (src_at src i))).
  assert (row_ok (src_symbol_size src) (axpy cpu payload c (src_at src i))) as Ha.
  { apply axpy_row_ok; [done|done|by apply Hs]. }
  destruct (IH coeffs _ Hs ltac:(cbn in Hl; lia) Hc Hi Ha) as [A B]. split; [done|].
  intros j Hj. rewrite B by done.
  rewrite (axpy_row_nth cpu _ c payload (src_at src i) j Hc1 Hp (Hs i Hi1) Hj).
  cbn [mixed foldr fst snd]. rewrite sources_nth by done. by rewrite Z.lxor_assoc.
Qed.

Lemma choose_ok guard k degree : forall chosen rng chosen' rng',
  (0 < k)%nat -> NoDup chosen -> Forall (fun i => i < k)%nat chosen ->
  choose guard k degree chosen rng = (chosen', rng') ->
  NoDup chosen' /\ Forall (fun i => i < k)%nat chosen' /\ (length chosen <= length chosen')%nat
  /\ (length chosen' <= Nat.max degree (length chosen))%nat.
Proof.
  induction guard as [|guard IH]; intros chosen rng chosen' rng' Hk Hn Hb E; cbn [choose] in E.
  - injection E as <- <-. split_and!; done || lia.
  - destruct (Nat.ltb_spec (length chosen) degree) as [Hlt|Hge].
    2: { injection E as <- <-. split_and!; done || lia. }
    unfold next_below in E. rewrite (proj2 (Nat.eqb_neq k 0)) in E by lia.
    destruct (next_u64 rng) as [v rng1].
    set (idx := Z.to_nat (Z.shiftr v 40 mod Z.of_nat k)) in E.
    assert (idx < k)%nat as Hidx.
    { unfold idx. pose proof (Z.mod_pos_bound (Z.shiftr v 40) (Z.of_nat k)). lia. }
    case_bool_decide as D.
    + by apply IH in E.
    + apply IH in E as (A & B & C & F); [|done|apply list.NoDup_app; split_and!; [done| |apply list.NoDup_singleton];
        by intros x Hx ->%list_elem_of_singleton|
        apply List.Forall_app; by split; [|repeat constructor]].
      rewrite length_app in C, F. cbn in C, F. split_and!; done || lia.
Qed.

Lemma choose_nonempty k degree rng chosen rng' :
  (0 < k)%nat -> (1 <= degree)%nat -> choose (10 * k) k degree [] rng = (chosen, rng') -> (0 < length chosen)%nat.
Proof.
  intros Hk Hd E. destruct (10 * k)%nat as [|g] eqn:G; [lia|]. cbn [choose length] in E.
  rewrite (proj2 (Nat.ltb_lt 0 degree)) in E by lia. destruct (next_below rng k) as [idx rng1] eqn:N.
  rewrite bool_decide_false in E by (apply not_elem_of_nil).
  assert (idx < k)%nat as Hidx.
  { unfold next_below in N. rewrite (proj2 (Nat.eqb_neq k 0)) in N by lia.
    destruct (next_u64 rng). injection N as <- _. pose proof (Z.mod_pos_bound (Z.shiftr z 40) (Z.of_nat k)). lia. }
  apply choose_ok in E as (_ & _ & H & _); [|done|apply list.NoDup_singleton|by repeat constructor].
  cbn in H. lia.
Qed.

Lemma odd_coeff v : is_byte (Z.lor (wrap 8 v) 1) /\ Z.lor (wrap 8 v) 1 <> 0.
Proof.
  pose proof (wrap_range 8 v ltac:(lia)) as H. unfold in_u in H. change (2 ^ 8) with 256 in H.
  pose proof (byte_check (fun b => is_byteb (Z.lor b 1) && negb (Z.lor b 1 =? 0))) as C.
  specialize (C ltac:(vm_compute; reflexivity) (wrap 8 v) H). cbv beta in C.
  rewrite andb_true_iff, negb_true_iff, is_byteb_true, Z.eqb_neq in C. done.
Qed.

Lemma draw_coeffs_ok n : forall rng cs rng', draw_coeffs n rng = (cs, rng') ->
  length cs = n /\ Forall (fun c => is_byte c /\ c <> 0) cs.
Proof.
  induction n as [|n IH]; intros rng cs rng' E; cbn [draw_coeffs] in E.
  - by injection E as <- <-.
  - destruct (next_u64 rng) as [v rng1]. destruct (draw_coeffs n rng1) as [cs1 rng2] eqn:F.
    injection E as <- <-. destruct (IH _ _ _ F) as [A B]. cbn [length]. split; [lia|].
    constructor; [apply odd_coeff|done].
Qed.

(** [w] is a symbol of the source: its pairs are distinct, nonzero and in
    range, and its payload is their combination. *)
Definition codes (src : Source) (w : bytes) : Prop :=
  exists pairs payload,
    w = wire_symbol pairs payload /\ Forall (pair_ok (src_k src)) pairs /\ NoDup (map fst pairs)
    /\ 0 < length_z pairs < 65536 /\ row_ok (src_symbol_size src) payload
    /\ forall j, (j < src_symbol_size src)%nat -> nth j payload 0 = mixed pairs (sources src) j.

Lemma systematic_wire src i : systematic_symbol src i = wire_symbol [(i, 1)] (src_at src i).
Proof.
  rewrite wire_symbol_eq. unfold systematic_symbol. cbn [length map]. unfold enc_pair. cbn [concat fst snd].
  rewrite app_nil_r. rewrite <- app_assoc. done.
Qed.

(** The index is cut to sixteen bits: the header of source 65536 is that of
    source 0. *)
Lemma systematic_index_wraps src i j :
  Z.of_nat j = Z.of_nat i + 2 ^ 16 -> take 5 (systematic_symbol src j) = take 5 (systematic_symbol src i).
Proof.
  intros E. unfold systematic_symbol, put_u16_le. rewrite E. unfold wrap.
  replace ((Z.of_nat i + 2 ^ 16) mod 2 ^ 16) with (Z.of_nat i mod 2 ^ 16); [reflexivity|].
  rewrite <- (Z.mod_add (Z.of_nat i) 1) by lia. f_equal; lia.
Qed.

Lemma systematic_codes src i :
  source_ok src -> (i < src_k src)%nat -> Z.of_nat (src_k src) < 65536 -> codes src (systematic_symbol src i).
Proof.
  intros Hs Hi Hk. destruct (Hs i Hi) as [Hl Hb]. exists [(i, 1)], (src_at src i). split_and!.
  - apply systematic_wire.
  - by repeat constructor.
  - apply list.NoDup_singleton.
  - unfold length_z. cbn. lia.
  - unfold length_z. cbn. lia.
  - by split.
  - intros j Hj. cbn [mixed foldr fst snd]. rewrite Z.lxor_0_r, sources_nth by done.
    symmetry. by apply gf_mul_1_l, bytes_nth.
Qed.

Lemma combine_pairs_ok k chosen coeffs :
  Forall (fun i => i < k)%nat chosen -> Forall (fun c => is_byte c /\ c <> 0) coeffs ->
  Forall (pair_ok k) (combine chosen coeffs).
Proof.
  intros Hc. revert coeffs. induction Hc as [|i chosen Hi _ IH]; intros coeffs Ho; [constructor|].
  destruct Ho as [|c coeffs Hc Ho]; constructor; [by split|by apply IH].
Qed.

Lemma map_fst_combine {A B} (l : list A) : forall (l' : list B), length l' = length l -> map fst (combine l l') = l.
Proof. induction l as [|a l IH]; intros [|b l'] H; try done. cbn. f_equal. apply IH. cbn in H. lia. Qed.

Section Produce.
Variable cpu : Cpu.
Variable soliton_point : nat -> Z -> nat.

Lemma repair_codes e e' w :
  source_ok (fe_source e) -> (0 < src_k (fe_source e))%nat -> Z.of_nat (src_k (fe_source e)) < 65536 ->
  repair_symbol cpu soliton_point e = (e', w) ->
  codes (fe_source e) w /\ fe_source e' = fe_source e /\ fe_generation e' = fe_generation e.
Proof.
  intros Hs Hk Hlt E. unfold repair_symbol in E. set (src := fe_source e) in *.
  destruct (soliton_degree _ _ _) as [degree r1] eqn:D.
  destruct (choose _ _ _ _ _) as [chosen r2] eqn:C. destruct (draw_coeffs _ _) as [coeffs r3] eqn:F.
  injection E as <- <-. split; [|done].
  assert (1 <= degree <= src_k src)%nat as Hd.
  { unfold soliton_degree in D. destruct (next_u64 _). injection D as <- _. lia. }
  pose proof (choose_nonempty _ _ _ _ _ Hk (proj1 Hd) C) as Hne.
  apply choose_ok in C as (C1 & C2 & _ & C4); [|done|constructor|constructor].
  apply draw_coeffs_ok in F as [F1 F2]. cbn in C4.
  assert (length (combine chosen coeffs) = length chosen) as Hlc by (rewrite length_combine; lia).
  destruct (mix_ok cpu src chosen coeffs (repeat 0 (src_symbol_size src)) Hs F1) as [M1 M2].
  { eapply List.Forall_impl; [|exact F2]. by intros c []. }
  { done. }
  { split; [apply repeat_length|]. apply List.Forall_forall. by intros x ->%repeat_spec. }
  exists (combine chosen coeffs), (mix cpu src chosen coeffs (repeat 0 (src_symbol_size src))).
  split_and!; try done.
  - by apply combine_pairs_ok.
  - by rewrite map_fst_combine.
  - unfold length_z. lia.
  - unfold length_z. lia.
  - intros j Hj. rewrite M2 by done. by rewrite nth_repeat, Z.lxor_0_l.
Qed.

Lemma repairs_code n : forall e e' ws,
  source_ok (fe_source e) -> (0 < src_k (fe_source e))%nat -> Z.of_nat (src_k (fe_source e)) < 65536 ->
  repair_symbols cpu soliton_point n e = (e', ws) ->
  Forall (codes (fe_source e)) ws /\ length ws = n.
Proof.
  induction n as [|n IH]; intros e e' ws Hs Hk Hlt E; cbn [repair_symbols] in E.
  - injection E as _ <-. by split.
  - destruct (repair_symbol _ _ e) as [e1 w] eqn:R.
    destruct (repair_symbols _ _ n e1) as [e2 ws1] eqn:F. injection E as _ <-.
    destruct (repair_codes _ _ _ Hs Hk Hlt R) as (A & B & _).
    apply IH in F as [G H]; rewrite ?B in *; [|done..]. cbn [length]. split; [by constructor|lia].
Qed.

Lemma produce_codes e count e' ws :
  source_ok (fe_source e) -> (0 < src_k (fe_source e))%nat -> Z.of_nat (src_k (fe_source e)) < 65536 ->
  produce cpu soliton_point e count = (e', ws) ->
  Forall (codes (fe_source e)) ws /\ length ws = count
  /\ exists repairs, ws = map (systematic_symbol (fe_source e))
                            (seq 0 (Nat.min count (src_k (fe_source e)))) ++ repairs.
Proof.
  intros Hs Hk Hlt E. unfold produce in E.
  destruct (repair_symbols _ _ _ e) as [e1 repairs] eqn:R. injection E as _ <-.
  apply repairs_code in R as [A B]; [|done..]. split_and!.
  - apply List.Forall_app. split; [|done]. apply List.Forall_forall. intros w Hw.
    apply in_map_iff in Hw as (i & <- & Hi). apply in_seq in Hi. apply systematic_codes; [done|lia|done].
  - rewrite length_app, length_map, length_seq. lia.
  - by eexists.
Qed.
End Produce.

(** *** Receiving *)

(** The loop of the bulk decoder: a symbol that does not parse is ignored. *)
Definition receive (d : FountainDecoder) (ws : list bytes) : FountainDecoder :=
  fold_left (fun d w => fst (decoder_add d w)) ws d.

Definition decoder_for (src : Source) (d : FountainDecoder) : Prop :=
  fresh d /\ fd_k d = src_k src /\ fd_symbol_size d = src_symbol_size src
  /\ Forall (sat (src_k src) (src_symbol_size src) (sources src)) (fd_syms d).

Lemma add_codes src d w :
  source_ok src -> (0 < src_k src)%nat -> Z.of_nat (src_k src) < 65536 ->
  decoder_for src d -> codes src w ->
  exists sym, decoder_add d w = (mk_dec (fd_k d) (fd_symbol_size d) (fd_syms d ++ [sym]), Ok true)
    /\ decoder_for src (mk_dec (fd_k d) (fd_symbol_size d) (fd_syms d ++ [sym]))
    /\ forall i, w = systematic_symbol src i -> (i < src_k src)%nat -> sym = mk_sym {[i := 1]} (src_at src i).
Proof.
  intros Hs Hk Hlt (Hf & Ek & Es & Hsat) (pairs & payload & -> & Hp & Hn & Hlen & Hrow & Hmix).
  rewrite decoder_add_wire by (rewrite ?Ek, ?Es; done || lia || apply Hrow).
  eexists. split; [done|]. split.
  - split_and!; try done.
    + unfold fresh. cbn [fd_k fd_symbol_size fd_syms]. apply List.Forall_app. split; [done|].
      constructor; [|done]. rewrite Ek, Es. split; [done|]. cbn [p_cover].
      assert (forall m, cover_ok (src_k src) m ->
        cover_ok (src_k src) (fold_left (fun m p => <[p.1 := p.2]> m) pairs m)) as H.
      { clear -Hp. induction Hp as [|p pairs Hp _ IH]; intros m Hm; [done|]. cbn [fold_left]. apply IH.
        intros i c Hi. apply lookup_insert_Some in Hi as [[<- <-]|[_ Hi]]; [apply Hp|by apply Hm]. }
      apply H. intros i c Hi. by rewrite lookup_empty in Hi.
    + cbn [fd_syms]. apply List.Forall_app. split; [done|]. constructor; [|done]. intros j Hj.
      cbn [p_cover p_payload]. rewrite (comb_pairs _ (src_symbol_size src)); [|by apply sources_sources_ok|done..|].
      * rewrite Hmix by done. unfold comb. rewrite xsum_zero; [by rewrite Z.lxor_0_l|].
        intros i Hi. rewrite lookup_empty. apply gf_mul_0_l.
        apply (source_byte (src_k src) (src_symbol_size src)); [by apply sources_sources_ok|done].
      * intros p _. apply lookup_empty.
  - intros i E Hi.
    assert (wire_symbol pairs payload = wire_symbol [(i, 1)] (src_at src i)) as Ew.
    { rewrite E. apply systematic_wire. }
    assert (forall p pay, Forall (pair_ok (src_k src)) p -> 0 < length_z p < 65536 ->
              length pay = src_symbol_size src ->
              fd_syms (fst (decoder_add d (wire_symbol p pay)))
              = fd_syms d ++ [mk_sym (fold_left (fun m p => <[p.1 := p.2]> m) p ∅) pay]) as A.
    { intros p pay H1 H2 H3. rewrite decoder_add_wire by (rewrite ?Ek, ?Es; done || lia). done. }
    pose proof (A pairs payload Hp Hlen (proj1 Hrow)) as A1. rewrite Ew, A in A1.
    + apply app_inj_tail in A1 as [_ A1]. rewrite <- A1. cbn. by rewrite insert_empty.
    + by repeat constructor.
    + unfold length_z. cbn. lia.
    + by apply Hs.
Qed.

Lemma receive_codes src ws : forall d,
  source_ok src -> (0 < src_k src)%nat -> Z.of_nat (src_k src) < 65536 ->
  decoder_for src d -> Forall (codes src) ws ->
  decoder_for src (receive d ws)
  /\ (forall sym, sym ∈ fd_syms d -> sym ∈ fd_syms (receive d ws))
  /\ (forall i, (i < src_k src)%nat -> systematic_symbol src i ∈ ws ->
        mk_sym {[i := 1]} (src_at src i) ∈ fd_syms (receive d ws)).
Proof.
  induction ws as [|w ws IH]; intros d Hs Hk Hlt Hd Hws.
  - split_and!; try done. intros i _ Hi. by apply elem_of_nil in Hi.
  - apply list.Forall_cons in Hws as [Hw Hws]. unfold receive. cbn [fold_left].
    destruct (add_codes src d w Hs Hk Hlt Hd Hw) as (sym & -> & Hd1 & Hsys). cbn [fst].
    fold (receive (mk_dec (fd_k d) (fd_symbol_size d) (fd_syms d ++ [sym])) ws).
    destruct (IH _ Hs Hk Hlt Hd1 Hws) as (A & B & C). cbn [fd_syms] in B. split_and!; [done|..].
    + intros sym' H. apply B, elem_of_app. by left.
    + intros i Hi H. apply elem_of_cons in H as [H|H]; [|by apply C].
      apply B, elem_of_app. right. apply list_elem_of_singleton. symmetry. by apply Hsys.
Qed.

(** The systematic symbols determine the sources. *)
Lemma systematic_unique src d y :
  source_ok src -> (0 < src_symbol_size src)%nat -> decoder_for src d ->
  (forall i, (i < src_k src)%nat -> mk_sym {[i := 1]} (src_at src i) ∈ fd_syms d) ->
  solution (fd_k d) (fd_symbol_size d) (fd_syms d) y -> y = sources src.
Proof.
  intros Hs Hsz (Hf & Ek & Es & _) H [Hy Hsat]. rewrite Ek, Es in *.
  apply (nth_ext _ _ [] []). { unfold sources. rewrite length_map, length_seq. apply Hy. }
  rewrite (proj1 Hy). intros i Hi. rewrite sources_nth by done.
  rewrite List.Forall_forall in Hsat. specialize (Hsat _ (proj1 (list_elem_of_In _ _) (H i Hi))).
  destruct (proj2 Hy i Hi) as [Hl Hb]. apply nth_ext_bytes; [rewrite Hl; symmetry; by apply Hs|].
  rewrite Hl. intros j Hj. specialize (Hsat j Hj). cbn [p_cover p_payload] in Hsat.
  rewrite (comb_singleton _ _ _ _ i 1 Hy Hi) in Hsat. rewrite <- Hsat. symmetry.
  by apply gf_mul_1_l, bytes_nth.
Qed.

(** the decoder decides the system it received.  Let a decoder hold symbols
    as [add] stored them (no decode attempt has failed on it) and let [x] be a
    value of the sources they all agree with.  Then [decode] answers [Ok]
    exactly when the symbols determine the sources, and the answer is [x];
    otherwise it answers [Underdetermined], and another value of the sources
    agrees with every symbol too.  It never answers anything else. *)
Theorem decode_exact cpu d x d' o :
  fresh d -> (0 < fd_symbol_size d)%nat -> solution (fd_k d) (fd_symbol_size d) (fd_syms d) x ->
  decoder_decode cpu d = (d', o) ->
  match o with
  | Ok rec => rec = x /\ forall y, solution (fd_k d) (fd_symbol_size d) (fd_syms d) y -> y = x
  | Err e => (exists have need, e = Underdetermined have need)
             /\ exists y, solution (fd_k d) (fd_symbol_size d) (fd_syms d) y /\ y <> x
  | Panic => False
  end.
Proof. intros Hf Hs Hx E. exact (decoder_decode_decides cpu d x d' o Hf Hs Hx E). Qed.

(** what the encoder sends is enough.  Take any encoder over [k] sources
    of one size (fewer than 65536, as the wire's index allows) and any
    sub-collection of the symbols it produces, in any order and with
    repetitions.  The decoder accepts every one of them and then either
    returns the sources or reports that they do not determine them; when the
    systematic symbols are among them it returns the sources. *)
Theorem fountain_delivers cpu soliton e count e' sent ws d' o :
  let src := fe_source e in
  source_ok src -> (0 < src_k src)%nat -> Z.of_nat (src_k src) < 65536 -> (0 < src_symbol_size src)%nat ->
  produce cpu soliton e count = (e', sent) -> (forall w, w ∈ ws -> w ∈ sent) ->
  let d := receive (decoder_new (src_k src) (src_symbol_size src)) ws in
  decoder_decode cpu d = (d', o) ->
  match o with
  | Ok rec => rec = sources src
  | Err e => (exists have need, e = Underdetermined have need)
             /\ exists y, solution (src_k src) (src_symbol_size src) (fd_syms d) y /\ y <> sources src
  | Panic => False
  end
  /\ ((forall i, (i < src_k src)%nat -> systematic_symbol src i ∈ ws) -> o = Ok (sources src)).
Proof.
  intros src Hs Hk Hlt Hsz Hprod Hsub d E.
  destruct (produce_codes cpu soliton e count e' sent Hs Hk Hlt Hprod) as (Hsent & _).
  assert (Forall (codes src) ws) as Hws.
  { apply list.Forall_forall. intros w Hw. rewrite list.Forall_forall in Hsent. by apply Hsent, Hsub. }
  assert (decoder_for src (decoder_new (src_k src) (src_symbol_size src))) as H0
    by (split_and!; [apply decoder_new_fresh|done|done|constructor]).
  destruct (receive_codes src ws _ Hs Hk Hlt H0 Hws) as (Hd & _ & Hsys). fold d in Hd, Hsys.
  pose proof Hd as (Hf & Ek & Es & Hsat).
  assert (solution (fd_k d) (fd_symbol_size d) (fd_syms d) (sources src)) as Hx.
  { rewrite Ek, Es. split; [by apply sources_sources_ok|done]. }
  pose proof (decoder_decode_decides cpu d _ d' o Hf ltac:(lia) Hx E) as H.
  assert (forall y, (forall i, (i < src_k src)%nat -> systematic_symbol src i ∈ ws) ->
            solution (fd_k d) (fd_symbol_size d) (fd_syms d) y -> y = sources src) as Hu.
  { intros y Hall. apply systematic_unique; try done. intros i Hi. by apply Hsys, Hall. }
  rewrite Ek, Es in H, Hu. destruct o as [rec|err|]; cbn [decides] in H.
  - destruct H as [-> _]. by split.
  - split; [done|]. intros Hall. destruct H as [_ (y & Hy & Hne)]. exfalso. by apply Hne, Hu.
  - done.
Qed.

(** a failed attempt spoils the decoder.  [decode] takes the payloads of
    the symbols it peels and forgets what they revealed, so after an
    [Underdetermined] answer the same decoder, given the missing symbol, can
    answer [Ok] with an empty source: here the first of two sources arrives
    twice, then the second one does. *)
Theorem decode_retry_corrupts :
  let src := Owned [[5]; [6]] in
  let d := receive (decoder_new 2 1) [systematic_symbol src 0; systematic_symbol src 0] in
  let '(d1, first) := decoder_decode NoSimd d in
  let d2 := receive d1 [systematic_symbol src 1] in
  first = Err (Underdetermined 0 1)
  /\ snd (decoder_decode NoSimd d2) = Ok [[]; [6]]
  /\ snd (decoder_decode NoSimd (receive d [systematic_symbol src 1])) = Ok [[5]; [6]].
Proof. vm_compute. split_and!; reflexivity. Qed.

(** ** Bulk transfer *)

Inductive BulkError :=
| BulkEmpty
| BulkGeneration (gen : Z) (inner : FountainError)
| BulkSizeMismatch (a b : nat).

Section Bulk.
Variable cpu : Cpu.
Variable soliton_point : nat -> Z -> nat.
(** The repair fraction is a float; the count of repair symbols it stands for,
    [(gen_size as f64 * repair_fraction).ceil()]. *)
Variable Frac : Type.
Variable repair_count : nat -> Frac -> nat.

Record BulkConfig := mk_bulk_config {
  bc_gen_size : nat; bc_symbol_size : nat; bc_repair_fraction : Frac; bc_generations : nat }.

Definition div_ceil_nat (a b : nat) : nat := ((a + b - 1) / b)%nat.

Definition padded (payload : bytes) (n : nat) : bytes := payload ++ repeat 0 (n - length payload).

(** The generations of a payload of [n] bytes. *)
Definition total_full_gens (cfg : BulkConfig) (n : nat) : nat :=
  let total_syms := Nat.max (div_ceil_nat n (bc_symbol_size cfg)) 1 in
  Nat.max (div_ceil_nat total_syms (bc_gen_size cfg)) 1.

Definition encode_generation (cfg : BulkConfig) (buf : bytes) (gi : nat) : res BulkError (list (Z * bytes)) :=
  let gen_id := wrap 32 (Z.of_nat gi) in
  let offset := (gi * (bc_gen_size cfg * bc_symbol_size cfg))%nat in
  match encoder_new_shared buf offset (bc_symbol_size cfg) (bc_gen_size cfg) gen_id with
  | Ok enc =>
      let count := (bc_gen_size cfg + repair_count (bc_gen_size cfg) (bc_repair_fraction cfg))%nat in
      Ok (map (fun w => (gen_id, w)) (snd (produce cpu soliton_point enc count)))
  | Err _ => Err (BulkSizeMismatch 0 0)
  | Panic => Panic
  end.

Fixpoint encode_generations (cfg : BulkConfig) (buf : bytes) (l : list nat)
  : res BulkError (list (Z * bytes)) :=
  match l with
  | [] => Ok []
  | gi :: l' => let? ws := encode_generation cfg buf gi in
                let? rest := encode_generations cfg buf l' in Ok (ws ++ rest)
  end.

(** [bulk::encode]; [div_ceil] by zero panics. *)
Definition bulk_encode (payload : bytes) (cfg : BulkConfig) : res BulkError (list (Z * bytes)) :=
  if is_nil payload then Err BulkEmpty
  else if (bc_symbol_size cfg =? 0)%nat || (bc_gen_size cfg =? 0)%nat then Panic
  else
    let gens := total_full_gens cfg (length payload) in
    let buf := padded payload (gens * (bc_gen_size cfg * bc_symbol_size cfg)) in
    encode_generations cfg buf (seq 0 gens).

(** The generation ids received, in order, each with its symbols. *)
Definition group_ids (coded : list (Z * bytes)) : list Z :=
  merge_sort Z.le (elements (list_to_set (map fst coded) : gset Z)).
Definition group_wires (coded : list (Z * bytes)) (g : Z) : list bytes :=
  map snd (filter (fun p => p.1 = g) coded).

(** One generation's region of the output. *)
Definition decode_region (cfg : BulkConfig) (wires : list bytes) : res FountainError bytes :=
  let full := (bc_gen_size cfg * bc_symbol_size cfg)%nat in
  let dec := receive (decoder_new (bc_gen_size cfg) (bc_symbol_size cfg)) wires in
  let? syms := snd (decoder_decode cpu dec) in
  Ok (padded (take full (concat syms)) full).

Fixpoint decode_regions (cfg : BulkConfig) (coded : list (Z * bytes)) (ids : list Z)
  : res BulkError bytes :=
  match ids with
  | [] => Ok []
  | g :: ids' =>
      match decode_region cfg (group_wires coded g) with
      | Ok region => let? rest := decode_regions cfg coded ids' in Ok (region ++ rest)
      | Err e => Err (BulkGeneration g e)
      | Panic => Panic
      end
  end.

(** [bulk::decode]; with several failing generations any of their errors may
    be the answer, here the first. *)
Definition bulk_decode (coded : list (Z * bytes)) (cfg : BulkConfig) (original_len : nat)
  : res BulkError bytes :=
  let full := (bc_gen_size cfg * bc_symbol_size cfg)%nat in
  let ids := group_ids coded in
  if is_nil ids || (full =? 0)%nat then Ok []
  else if umax 64 <? Z.of_nat (length ids * full) then Panic
  else let? out := decode_regions cfg coded ids in Ok (take original_len out).
End Bulk.
Arguments mk_bulk_config {Frac}.
Arguments bc_gen_size {Frac}.
Arguments bc_symbol_size {Frac}.

(** *** The bulk round trip *)

Lemma fountain_systematic cpu soliton e count ws :
  let src := fe_source e in
  source_ok src -> (0 < src_k src)%nat -> Z.of_nat (src_k src) < 65536 -> (0 < src_symbol_size src)%nat ->
  (forall w, w ∈ ws -> w ∈ snd (produce cpu soliton e count)) ->
  (forall i, (i < src_k src)%nat -> systematic_symbol src i ∈ ws) ->
  snd (decoder_decode cpu (receive (decoder_new (src_k src) (src_symbol_size src)) ws)) = Ok (sources src).
Proof.
  intros src Hs Hk Hlt Hsz Hsub Hall.
  destruct (produce cpu soliton e count) as [e' sent] eqn:Hprod. cbn [snd] in Hsub.
  destruct (produce_codes cpu soliton e count e' sent Hs Hk Hlt Hprod) as (Hsent & _).
  destruct (decoder_decode cpu _) as [d' o] eqn:E. cbn [snd].
  assert (Forall (codes src) ws) as Hws.
  { apply list.Forall_forall. intros w Hw. rewrite list.Forall_forall in Hsent. by apply Hsent, Hsub. }
  assert (decoder_for src (decoder_new (src_k src) (src_symbol_size src))) as H0
    by (split_and!; [apply decoder_new_fresh|done|done|constructor]).
  destruct (receive_codes src ws _ Hs Hk Hlt H0 Hws) as (Hd & _ & Hsys).
  set (d := receive _ ws) in *. pose proof Hd as (Hf & Ek & Es & Hsat).
  assert (solution (fd_k d) (fd_symbol_size d) (fd_syms d) (sources src)) as Hx.
  { rewrite Ek, Es. split; [by apply sources_sources_ok|done]. }
  pose proof (decoder_decode_decides cpu d _ d' o Hf ltac:(lia) Hx E) as H.
  destruct o as [rec|err|]; cbn [decides] in H; [by destruct H as [-> _]| |done].
  destruct H as [_ (y & Hy & Hne)]. exfalso. apply Hne. apply (systematic_unique src d); try done.
  intros i Hi. by apply Hsys, Hall.
Qed.

Section BulkTrip.
Variable cpu : Cpu.
Variable soliton_point : nat -> Z -> nat.
Context {Frac : Type}.
Variable repair_count : nat -> Frac -> nat.
Variable cfg : BulkConfig Frac.
#[local] Abbreviation K := (bc_gen_size cfg).
#[local] Abbreviation sz := (bc_symbol_size cfg).
#[local] Abbreviation full := (K * sz)%nat.

Definition gen_source (buf : bytes) (gi : nat) : Source := Shared buf (gi * full) sz K.

Lemma encode_generation_ok buf gi ws :
  bytes_ok buf -> encode_generation cpu soliton_point Frac repair_count cfg buf gi = Ok ws ->
  exists e, fe_source e = gen_source buf gi /\ source_ok (fe_source e)
    /\ ((gi + 1) * full <= length buf)%nat /\ Z.of_nat ((gi + 1) * full) <= umax 64
    /\ ws = map (fun w => (wrap 32 (Z.of_nat gi), w))
              (snd (produce cpu soliton_point e
                 (K + repair_count K (bc_repair_fraction Frac cfg))%nat)).
Proof.
  intros Hb E. unfold encode_generation in E.
  destruct (encoder_new_shared _ _ _ _ _) as [e| |] eqn:N; try done. injection E as <-.
  pose proof (encoder_new_shared_ok _ _ _ _ _ _ Hb N) as (A & B & C & D & F).
  exists e. split_and!; try done; [lia|]. unfold encoder_new_shared in N.
  destruct (_ || _); [done|]. destruct (Z.ltb_spec (umax 64) (Z.of_nat (gi * full + full))); [done|]. lia.
Qed.

Lemma encode_generations_ok buf l : forall coded,
  encode_generations cpu soliton_point Frac repair_count cfg buf l = Ok coded ->
  Forall (fun gi => exists ws, encode_generation cpu soliton_point Frac repair_count cfg buf gi = Ok ws) l
  /\ forall p, p ∈ coded <-> exists gi ws, gi ∈ l
       /\ encode_generation cpu soliton_point Frac repair_count cfg buf gi = Ok ws /\ p ∈ ws.
Proof.
  induction l as [|gi l IH]; intros coded E; cbn [encode_generations] in E.
  - injection E as <-. split; [constructor|]. intros p. split; [by intros ?%elem_of_nil|].
    intros (gi & ws & ?%elem_of_nil & _). done.
  - inv_bind E. inv_bind E. injection E as <-. destruct (IH _ Ha0) as [A B]. split.
    + constructor; [by eexists|done].
    + intros p. rewrite elem_of_app, B. split.
      * intros [H|(gi' & ws & H1 & H2 & H3)]; [exists gi, a; by split_and!; [left|..]|].
        exists gi', ws. by split_and!; [right|..].
      * intros (gi' & ws & H1 & H2 & H3). apply elem_of_cons in H1 as [->|H1]; [|by right; eauto].
        left. rewrite Ha in H2. by injection H2 as ->.
Qed.

Lemma div_ceil_nat_ge a b : (0 < b)%nat -> (a <= b * div_ceil_nat a b)%nat.
Proof.
  intros Hb. unfold div_ceil_nat. pose proof (Nat.div_mod (a + b - 1) b ltac:(lia)).
  pose proof (Nat.mod_upper_bound (a + b - 1) b ltac:(lia)). nia.
Qed.

Lemma total_full_gens_ge n : (0 < K)%nat -> (0 < sz)%nat -> (n <= total_full_gens Frac cfg n * full)%nat.
Proof.
  intros Hk Hsz. unfold total_full_gens.
  pose proof (div_ceil_nat_ge n sz Hsz). set (t := Nat.max (div_ceil_nat n sz) 1).
  pose proof (div_ceil_nat_ge t K Hk). set (g := Nat.max (div_ceil_nat t K) 1).
  assert (div_ceil_nat n sz <= t)%nat by lia. assert (div_ceil_nat t K <= g)%nat by lia. nia.
Qed.

Lemma div_ceil_nat_le a b : (0 < b)%nat -> (div_ceil_nat a b <= a)%nat.
Proof.
  intros Hb. unfold div_ceil_nat. destruct a as [|a]; [rewrite Nat.div_small; lia|].
  apply Nat.Div0.div_le_upper_bound. nia.
Qed.

Lemma total_full_gens_le n : (0 < n)%nat -> (0 < K)%nat -> (0 < sz)%nat -> (total_full_gens Frac cfg n <= n)%nat.
Proof.
  intros Hn Hk Hsz. unfold total_full_gens.
  pose proof (div_ceil_nat_le n sz Hsz). pose proof (div_ceil_nat_le (Nat.max (div_ceil_nat n sz) 1) K Hk). lia.
Qed.

(** The sources of a generation, put together. *)
Lemma concat_slices buf offset n : forall k,
  (offset + k * n <= length buf)%nat ->
  concat (map (fun i => slice buf (offset + i * n) (offset + i * n + n)) (seq 0 k)) = slice buf offset (offset + k * n).
Proof.
  induction k as [|k IH]; intros H.
  - cbn. unfold slice. replace (offset + 0 - offset)%nat with 0%nat by lia. done.
  - rewrite seq_S, map_app, concat_app, IH, Nat.add_0_l by lia. cbn [map concat]. rewrite app_nil_r. unfold slice.
    replace (offset + k * n + n - (offset + k * n))%nat with n by lia.
    replace (offset + k * n - offset)%nat with (k * n)%nat by lia.
    replace (offset + S k * n - offset)%nat with (k * n + n)%nat by lia.
    rewrite <- drop_drop. apply take_take_drop.
Qed.

Lemma gen_sources_concat buf gi :
  ((gi + 1) * full <= length buf)%nat -> concat (sources (gen_source buf gi)) = slice buf (gi * full) (gi * full + full).
Proof. intros H. unfold sources. cbn [gen_source src_k src_at]. apply concat_slices. lia. Qed.

Lemma length_slice (l : bytes) a b : (b <= length l)%nat -> length (slice l a b) = (b - a)%nat.
Proof. intros H. unfold slice. rewrite length_take, length_drop. lia. Qed.

Lemma padded_length payload n : (length payload <= n)%nat -> length (padded payload n) = n.
Proof. intros H. unfold padded. rewrite length_app, repeat_length. lia. Qed.
Lemma padded_bytes payload n : bytes_ok payload -> bytes_ok (padded payload n).
Proof.
  intros H. apply List.Forall_app. split; [done|]. apply List.Forall_forall. by intros x ->%repeat_spec.
Qed.
Lemma padded_exact l n : length l = n -> padded l n = l.
Proof. intros <-. unfold padded. rewrite Nat.sub_diag. apply app_nil_r. Qed.

Lemma list_elem_of_map {A B} (f : A -> B) l y : y ∈ map f l <-> exists x, y = f x /\ x ∈ l.
Proof.
  rewrite list_elem_of_In, in_map_iff. setoid_rewrite list_elem_of_In. naive_solver.
Qed.

(** The sorted generation ids, when generations [0 .. n] are there. *)
Lemma group_ids_seq rc n :
  (forall p, p ∈ rc -> exists gi, (gi < n)%nat /\ p.1 = Z.of_nat gi) ->
  (forall gi, (gi < n)%nat -> exists w, (Z.of_nat gi, w) ∈ rc) ->
  group_ids rc = map Z.of_nat (seq 0 n).
Proof.
  intros H1 H2. unfold group_ids. apply (StronglySorted_unique Z.le).
  - apply StronglySorted_merge_sort; apply _.
  - clear. generalize 0%nat as a. induction n as [|n IH]; intros a; cbn [seq map]; constructor; [apply IH|].
    apply List.Forall_forall. intros z Hz. apply in_map_iff in Hz as (i & <- & Hi). apply in_seq in Hi. lia.
  - rewrite merge_sort_Permutation. apply NoDup_Permutation.
    + apply NoDup_elements.
    + apply (list.NoDup_fmap_2 Z.of_nat), list.NoDup_seq.
    + intros z. rewrite elem_of_elements, elem_of_list_to_set, !list_elem_of_map. split.
      * intros (p & -> & Hp). destruct (H1 p Hp) as (gi & Hgi & ->). exists gi. rewrite elem_of_seq. split; [done|lia].
      * intros (gi & -> & Hgi). apply elem_of_seq in Hgi. destruct (H2 gi ltac:(lia)) as [w Hw].
        by exists (Z.of_nat gi, w).
Qed.

Lemma elem_of_group_wires rc g w : w ∈ group_wires rc g <-> (g, w) ∈ rc.
Proof.
  unfold group_wires. rewrite list_elem_of_map. split.
  - intros ([g' w'] & -> & H). apply list_elem_of_filter in H as [E H]. cbn in E. by subst g'.
  - intros H. exists (g, w). split; [done|]. by apply list_elem_of_filter.
Qed.

Section Trip.
Variables (payload : bytes) (coded rc : list (Z * bytes)).
#[local] Abbreviation gens := (total_full_gens Frac cfg (length payload)).
#[local] Abbreviation buf := (padded payload (gens * full)).
Hypothesis Hb : bytes_ok payload.
Hypothesis Hne : payload <> [].
Hypothesis Hlen : length_z payload <= 2 ^ 32.
Hypothesis HK : (0 < K)%nat.
Hypothesis HK16 : Z.of_nat K < 65536.
Hypothesis Hsz : (0 < sz)%nat.
Hypothesis Hcoded : encode_generations cpu soliton_point Frac repair_count cfg buf (seq 0 gens) = Ok coded.
(** Only repair symbols are lost. *)
Hypothesis Hsub : forall p, p ∈ rc -> p ∈ coded.
Hypothesis Hsys : forall gi i, (gi < gens)%nat -> (i < K)%nat ->
  (Z.of_nat gi, systematic_symbol (gen_source buf gi) i) ∈ rc.

Lemma trip_gens : (0 < gens)%nat /\ Z.of_nat gens <= 2 ^ 32 /\ length buf = (gens * full)%nat.
Proof.
  assert (0 < length payload)%nat as Hn by (destruct payload; [done|cbn; lia]).
  pose proof (total_full_gens_le (length payload) Hn HK Hsz). unfold length_z in Hlen.
  split_and!; [unfold total_full_gens; lia|lia|]. apply padded_length. by apply total_full_gens_ge.
Qed.

Lemma trip_id gi : (gi < gens)%nat -> wrap 32 (Z.of_nat gi) = Z.of_nat gi.
Proof. intros H. pose proof trip_gens. apply wrap_small. unfold in_u. lia. Qed.

Lemma trip_generation gi :
  (gi < gens)%nat ->
  exists e, fe_source e = gen_source buf gi /\ source_ok (fe_source e) /\ Z.of_nat ((gi + 1) * full) <= umax 64
    /\ forall w, (Z.of_nat gi, w) ∈ coded ->
         w ∈ snd (produce cpu soliton_point e (K + repair_count K (bc_repair_fraction Frac cfg))%nat).
Proof.
  intros Hgi. destruct (encode_generations_ok _ _ _ Hcoded) as [Hall Hin].
  rewrite list.Forall_forall in Hall. destruct (Hall gi) as [ws Hws]; [apply elem_of_seq; lia|].
  destruct (encode_generation_ok buf gi ws (padded_bytes _ _ Hb) Hws) as (e & E1 & E2 & _ & E4 & E5).
  exists e. split_and!; try done. intros w Hw. apply Hin in Hw as (gi' & ws' & H1 & H2 & H3).
  apply elem_of_seq in H1.
  destruct (encode_generation_ok buf gi' ws' (padded_bytes _ _ Hb) H2) as (e' & F1 & F2 & _ & _ & ->).
  apply list_elem_of_map in H3 as (w' & [= Eg ->] & H3). rewrite trip_id in Eg by lia.
  apply Nat2Z.inj in Eg as <-. rewrite Hws in H2. injection H2 as H2.
  enough ((wrap 32 (Z.of_nat gi), w') ∈ ws) as H4.
  { rewrite E5 in H4. apply list_elem_of_map in H4 as (w & [= ->] & H4). done. }
  rewrite H2. apply list_elem_of_map. by exists w'.
Qed.

Lemma trip_region gi :
  (gi < gens)%nat ->
  decode_region cpu Frac cfg (group_wires rc (Z.of_nat gi)) = Ok (slice buf (gi * full) (gi * full + full)).
Proof.
  intros Hgi. destruct (trip_generation gi Hgi) as (e & E1 & E2 & _ & E4).
  destruct trip_gens as (_ & _ & Hbuf).
  pose proof (fountain_systematic cpu soliton_point e (K + repair_count K (bc_repair_fraction Frac cfg))%nat
                (group_wires rc (Z.of_nat gi)) E2) as H.
  rewrite E1 in H. unfold decode_region. cbn [gen_source src_k src_symbol_size] in H.
  rewrite H; [|done|done|done| |].
  - cbn [res_bind]. rewrite gen_sources_concat by nia.
    assert (length (slice buf (gi * full) (gi * full + full)) = full) as Hl by (rewrite length_slice; nia).
    rewrite take_ge by lia. by rewrite padded_exact.
  - intros w Hw. by apply E4, Hsub, elem_of_group_wires.
  - intros i Hi. apply elem_of_group_wires. by apply Hsys.
Qed.

Lemma trip_regions n : forall a,
  (a + n <= gens)%nat ->
  decode_regions cpu Frac cfg rc (map Z.of_nat (seq a n)) = Ok (slice buf (a * full) ((a + n) * full)).
Proof.
  destruct trip_gens as (_ & _ & Hbuf).
  induction n as [|n IH]; intros a Ha; cbn [seq map decode_regions].
  - unfold slice. by replace ((a + 0) * full - a * full)%nat with 0%nat by lia.
  - rewrite trip_region by lia. rewrite IH by lia. cbn [res_bind]. f_equal. unfold slice.
    replace (a * full + full - a * full)%nat with full by lia.
    replace ((S a + n) * full - S a * full)%nat with (n * full)%nat by lia.
    replace ((a + S n) * full - a * full)%nat with (full + n * full)%nat by lia.
    replace (S a * full)%nat with (a * full + full)%nat by lia.
    rewrite <- drop_drop. apply take_take_drop.
Qed.

Lemma trip_ids : group_ids rc = map Z.of_nat (seq 0 gens).
Proof.
  destruct (encode_generations_ok _ _ _ Hcoded) as [_ Hin]. apply group_ids_seq.
  - intros p Hp. apply Hsub, Hin in Hp as (gi & ws & H1 & H2 & H3). apply elem_of_seq in H1. exists gi.
    split; [lia|]. destruct (encode_generation_ok buf gi ws (padded_bytes _ _ Hb) H2) as (e & _ & _ & _ & _ & ->).
    apply list_elem_of_map in H3 as (w & -> & _). cbn. by rewrite trip_id by lia.
  - intros gi Hgi. eexists. by apply (Hsys gi 0).
Qed.

Lemma trip : bulk_decode cpu Frac rc cfg (length payload) = Ok payload.
Proof.
  destruct trip_gens as (Hg & _ & Hbuf). unfold bulk_decode. rewrite trip_ids.
  destruct (is_nil _) eqn:N.
  { apply is_nil_true in N. apply (f_equal length) in N. rewrite length_map, length_seq in N. cbn in N. lia. }
  rewrite (proj2 (Nat.eqb_neq full 0)) by nia. cbn [orb]. rewrite length_map, length_seq.
  destruct (trip_generation (gens - 1) ltac:(lia)) as (_ & _ & _ & Hmax & _).
  replace (gens - 1 + 1)%nat with gens in Hmax by lia.
  rewrite (proj2 (Z.ltb_ge _ _)) by done. rewrite trip_regions by lia. cbn [res_bind]. f_equal.
  unfold slice. rewrite Nat.mul_0_l, Nat.sub_0_r, drop_0, Nat.add_0_l.
  rewrite take_take. unfold padded.
  replace (Nat.min (length payload) (gens * full)) with (length payload); [by rewrite take_app_length|].
  pose proof (total_full_gens_ge (length payload) HK Hsz). lia.
Qed.
End Trip.
End BulkTrip.

(** a bulk transfer survives the loss of repair symbols.  For a payload of
    at most 4 GiB, let [encode] produce its coded symbols and let any of them
    arrive, in any order, interleaved and repeated, as long as no systematic
    symbol is lost: [decode] returns the payload byte for byte. *)
Theorem bulk_round_trip cpu soliton {Frac} repair_count (cfg : BulkConfig Frac) payload coded rc :
  let gens := total_full_gens Frac cfg (length payload) in
  let buf := padded payload (gens * (bc_gen_size cfg * bc_symbol_size cfg)) in
  bytes_ok payload -> length_z payload <= 2 ^ 32 -> Z.of_nat (bc_gen_size cfg) < 65536 ->
  bulk_encode cpu soliton Frac repair_count payload cfg = Ok coded ->
  (forall p, p ∈ rc -> p ∈ coded) ->
  (forall gi i, (gi < gens)%nat -> (i < bc_gen_size cfg)%nat ->
     (Z.of_nat gi, systematic_symbol (gen_source cfg buf gi) i) ∈ rc) ->
  bulk_decode cpu Frac rc cfg (length payload) = Ok payload.
Proof.
  intros gens buf Hb Hlen HK16 E Hsub Hsys. unfold bulk_encode in E.
  destruct (is_nil payload) eqn:N; [done|]. destruct (_ || _) eqn:Z0; [done|].
  apply orb_false_iff in Z0 as [Z1 Z2]. apply Nat.eqb_neq in Z1, Z2.
  apply (trip cpu soliton repair_count cfg payload coded rc); try done; try lia.
  intros ->. done.
Qed.

(** ** Concrete transfers *)

Module Trip.
Definition soliton (k : nat) (r : Z) : nat := Z.to_nat (r mod Z.of_nat k).
Definition cfg : BulkConfig unit := mk_bulk_config 3 4 tt 1.
Definition payload : bytes := map Z.of_nat (seq 1 17).
Definition repairs (k : nat) (_ : unit) : nat := 1%nat.
Definition src : Source := Owned [[1; 2]; [3; 4]; [5; 6]].
Definition enc : FountainEncoder := mk_enc src 7 0.
Definition sent : list bytes := snd (produce Avx2 soliton enc 5).
Definition dec : FountainDecoder := receive (decoder_new 3 2) (rev sent).
Definition coded : list (Z * bytes) :=
  match bulk_encode Avx2 soliton unit repairs payload cfg with Ok c => c | _ => [] end.
(** Lose the repair symbol of generation 0 and reverse the rest. *)
Definition arrived : list (Z * bytes) := rev (take 3 coded ++ drop 4 coded).
End Trip.

Lemma trip_src_ok : source_ok Trip.src.
Proof. intros [|[|[|i]]] Hi; [by_decide..|]. cbn in Hi. lia. Qed.

Lemma trip_dec : decoder_for Trip.src Trip.dec.
Proof.
  refine (proj1 (receive_codes Trip.src (rev Trip.sent) (decoder_new 3 2) trip_src_ok _ _ _ _)).
  - cbn. lia.
  - cbn. lia.
  - split_and!; [apply decoder_new_fresh|done|done|constructor].
  - apply List.Forall_rev.
    by apply (produce_codes Avx2 Trip.soliton Trip.enc 5 _ Trip.sent trip_src_ok ltac:(cbn; lia) ltac:(cbn; lia)
                (surjective_pairing _)).
Qed.

Lemma decode_exact_witness :
  exists d', decoder_decode Avx2 Trip.dec = (d', Ok [[1; 2]; [3; 4]; [5; 6]])
    /\ [[1; 2]; [3; 4]; [5; 6]] = sources Trip.src.
Proof.
  eexists. split; [vm_compute; reflexivity|].
  refine (proj1 (decode_exact Avx2 Trip.dec (sources Trip.src) _ (Ok [[1; 2]; [3; 4]; [5; 6]]) _ _ _ _)).
  - apply trip_dec.
  - vm_compute. lia.
  - split; [apply (sources_sources_ok Trip.src trip_src_ok)|apply trip_dec].
  - vm_compute. reflexivity.
Defined.

Lemma fountain_delivers_witness :
  snd (decoder_decode NoSimd (receive (decoder_new 3 2) (rev Trip.sent))) = Ok [[1; 2]; [3; 4]; [5; 6]].
Proof.
  refine (proj2 (fountain_delivers NoSimd Trip.soliton Trip.enc 5 _ Trip.sent (rev Trip.sent) _ _
            trip_src_ok _ _ _ _ _ _) _).
  - cbn. lia.
  - cbn. lia.
  - cbn. lia.
  - vm_compute. reflexivity.
  - intros w Hw. by apply list_elem_of_In, in_rev, list_elem_of_In in Hw.
  - apply surjective_pairing.
  - intros [|[|[|i]]] Hi; [by_decide..|]. cbn in Hi. lia.
Defined.

Lemma bulk_round_trip_witness : bulk_decode Neon unit Trip.arrived Trip.cfg 17 = Ok Trip.payload.
Proof.
  apply (bulk_round_trip Neon Trip.soliton Trip.repairs Trip.cfg Trip.payload Trip.coded Trip.arrived).
  - by_decide.
  - vm_compute. discriminate.
  - cbn. lia.
  - vm_compute. reflexivity.
  - apply list.Forall_forall. by_decide.
  - intros gi i H1 H2. assert (gi < 2)%nat as H1' by exact H1. assert (i < 3)%nat as H2' by exact H2.
    clear H1 H2.
    do 2 (destruct gi as [|gi]; [do 3 (destruct i as [|i]; [by_decide|]); lia|]). lia.
Defined.
