(* ===== verification/DlrReceiver.v ===== *)
(** The DLR receiver (src/integrations/dlr/crates/receiver/src/lib.rs): the
    handlers of APPEND, RESYNC and BULK frames over the content store.

    Every handler runs under its session's mutation lock, so a history of one
    receiver is a sequence of handler calls.  The compressor (zstd) and the
    fountain decoder are what an instance of the [Codec] interface provides;
    BLAKE3 is a parameter. *)

From S2P Require Import Prelude DlrCodec DlrStore.
From S2P Require DlrFountain.

(** ** Errors and state *)

#[local] Abbreviation FountainError := DlrFountain.FountainError.
#[local] Abbreviation Underdetermined := DlrFountain.Underdetermined.

(** What the receiver uses of the compressor and of the coding crate. *)
Class Codec := {
  decompress : bytes -> option bytes;
  Decoder : Type;
  dec_new : Z -> Z -> Decoder;
  dec_add : Decoder -> bytes -> Decoder * res FountainError bool;
  dec_decode : Decoder -> Decoder * res FountainError (list bytes)
}.

Inductive ReceiverError :=
| EFountain
| ECompress
| EFrame (e : CanonError)
| EMissingRef
| EColdStartInProgress (sid : Z)
| EBaseRootMismatch (sid : Z) (client current : MerkleRoot).

Record LogPointer := mk_pointer { lp_session : Z; lp_root : MerkleRoot; lp_len : Z }.

Section Receiver.
Context {codec : Codec}.
Variable blake3 : bytes -> bytes.
#[local] Abbreviation append_root := (append_root blake3).

Record SessionState := mk_session {
  ss_pending : gset BlockId;
  ss_acked : bool;
  ss_decoders : gmap Z Decoder
}.

Record Receiver := mk_receiver {
  rc_store : ContentStore;
  rc_sessions : gmap Z SessionState
}.

(** [Receiver::new]: the session state of a recovered store. *)
Definition recovered_session (store : ContentStore) (log : SessionLog) : SessionState :=
  let pending := list_to_set (C := gset BlockId)
                   (filter (fun id => negb (store_contains store id)) (sl_ids log)) in
  mk_session pending (bool_decide (pending = ∅)) ∅.

Definition receiver_new (store : ContentStore) : Receiver :=
  mk_receiver store (recovered_session store <$> st_sessions store).

(** [or_insert_with] of a fresh session. *)
Definition session_fresh : SessionState := mk_session ∅ false ∅.
Definition session_entry (r : Receiver) (sid : Z) : SessionState :=
  default session_fresh (rc_sessions r !! sid).
Definition put_session (r : Receiver) (sid : Z) (st : SessionState) : Receiver :=
  mk_receiver (rc_store r) (<[sid := st]> (rc_sessions r)).
Definition set_store (r : Receiver) (s : ContentStore) : Receiver := mk_receiver s (rc_sessions r).

(** ** APPEND *)

Inductive Resolved := RInline (id : BlockId) (block : Block) | RRef (id : BlockId).

Definition resolved_id (x : Resolved) : BlockId :=
  match x with RInline id _ => id | RRef id => id end.

(** Decompress and parse one stored block. *)
Definition recover_block (comp : bytes) : res ReceiverError (Block * BlockId) :=
  match decompress comp with
  | None => Err ECompress
  | Some canon => match from_canonical_owned blake3 canon with
                  | Ok x => Ok x
                  | Err e => Err (EFrame e)
                  | Panic => Panic
                  end
  end.

Fixpoint resolve (l : list FrameBlock) : res ReceiverError (list Resolved) :=
  match l with
  | [] => Ok []
  | Inline wire :: l' =>
      let? (block, id) := recover_block (b_payload wire) in
      let? rest := resolve l' in Ok (RInline id block :: rest)
  | Ref id :: l' => let? rest := resolve l' in Ok (RRef id :: rest)
  end.

(** Every reference is in the store or inlined earlier in the frame. *)
Fixpoint refs_known (s : ContentStore) (inline : gset BlockId) (l : list Resolved) : bool :=
  match l with
  | [] => true
  | RInline id _ :: l' => refs_known s ({[id]} ∪ inline) l'
  | RRef id :: l' => (store_contains s id || bool_decide (id ∈ inline)) && refs_known s inline l'
  end.

(** The append loop; a failed reference leaves what was appended before it. *)
Fixpoint append_all (s : ContentStore) (sid : Z) (l : list Resolved)
  : ContentStore * res ReceiverError unit :=
  match l with
  | [] => (s, Ok tt)
  | RInline id block :: l' => append_all (fst (insert_with_id blake3 s sid block id)) sid l'
  | RRef id :: l' => match reference blake3 s sid id with
                     | Ok s' => append_all s' sid l'
                     | _ => (s, Err EMissingRef)
                     end
  end.

Definition handle_append (r : Receiver) (f : AppendFrame) : Receiver * res ReceiverError AckFrame :=
  let sid := a_session f in
  match resolve (a_blocks f) with
  | Err e => (r, Err e)
  | Panic => (r, Panic)
  | Ok resolved =>
      if negb (refs_known (rc_store r) ∅ resolved) then (r, Err EMissingRef)
      else
        let st := session_entry r sid in
        let r := put_session r sid st in
        if negb (bool_decide (ss_pending st = ∅)) then (r, Err (EColdStartInProgress sid))
        else
          let cur_root := session_root (rc_store r) sid in
          let target_root := fold_left (fun root x => append_root root (resolved_id x))
                               resolved (a_base f) in
          if negb (bool_decide (a_base f = cur_root)) then
            if bool_decide (target_root = cur_root) then (r, Ok (mk_ack sid cur_root))
            else (r, Err (EBaseRootMismatch sid (a_base f) cur_root))
          else match append_all (rc_store r) sid resolved with
               | (s, Ok _) => (set_store r s, Ok (mk_ack sid (session_root s sid)))
               | (s, Err e) => (set_store r s, Err e)
               | (s, Panic) => (set_store r s, Panic)
               end
  end.

(** ** RESYNC *)

Definition handle_resync (r : Receiver) (f : ResyncFrame) : Receiver * list BlockId :=
  let sid := r_session f in
  let missing := filter (fun id => negb (store_contains (rc_store r) id)) (r_manifest f) in
  let r := set_store r (seed_session (rc_store r) sid (r_manifest f) (r_root f)) in
  let st := session_entry r sid in
  (put_session r sid (mk_session (list_to_set missing) (is_nil missing) (ss_decoders st)), missing).

(** ** BULK *)

(** The symbol loop: the first failing [add] stops it. *)
Fixpoint add_symbols (d : Decoder) (l : list bytes) : Decoder * res FountainError unit :=
  match l with
  | [] => (d, Ok tt)
  | s :: l' => match dec_add d s with
               | (d', Ok _) => add_symbols d' l'
               | (d', Err e) => (d', Err e)
               | (d', Panic) => (d', Panic)
               end
  end.

(** Pass 1: the length-prefixed pieces of the flat stream.  [fuel] bounds the
    pieces; every piece takes four bytes or more. *)
Fixpoint split_frames (fuel : nat) (flat : bytes) : list bytes :=
  match fuel with
  | O => []
  | S fuel' =>
      if (length flat <? 4)%nat then []
      else
        let blen := le_val (take 4 flat) in
        let rest := drop 4 flat in
        if blen =? 0 then []
        else if length_z rest <? blen then []
        else take (Z.to_nat blen) rest :: split_frames fuel' (drop (Z.to_nat blen) rest)
  end.

(** Pass 2: every piece decompressed and parsed, or the first error. *)
Fixpoint recover_all (l : list bytes) : res ReceiverError (list (Block * BlockId)) :=
  match l with
  | [] => Ok []
  | c :: l' => let? x := recover_block c in let? rest := recover_all l' in Ok (x :: rest)
  end.

(** Pass 3: content only. *)
Definition store_all (s : ContentStore) (sid : Z) (l : list (Block * BlockId)) : ContentStore :=
  fold_left (fun s x => fst (store_content_with_id s sid x.1 x.2)) l s.

(** Retire the recovered ids; the completion root, at most once. *)
Definition retire (r : Receiver) (sid generation : Z) (ids : list BlockId)
  : Receiver * option MerkleRoot :=
  match rc_sessions r !! sid with
  | None => (r, None)
  | Some st =>
      let pending := fold_left (fun p id => p ∖ {[id]}) ids (ss_pending st) in
      let decoders := delete generation (ss_decoders st) in
      if bool_decide (pending = ∅) && negb (ss_acked st) then
        (put_session r sid (mk_session pending true decoders), Some (session_root (rc_store r) sid))
      else (put_session r sid (mk_session pending (ss_acked st) decoders), None)
  end.

Definition handle_bulk (r : Receiver) (f : BulkFrame)
  : Receiver * res ReceiverError (option MerkleRoot) :=
  let sid := k_session f in
  let gen := k_generation f in
  let st := session_entry r sid in
  let d := default (dec_new (k_k f) (k_symbol_size f)) (ss_decoders st !! gen) in
  let with_decoder d :=
    put_session r sid (mk_session (ss_pending st) (ss_acked st) (<[gen := d]> (ss_decoders st))) in
  match add_symbols d (k_symbols f) with
  | (d, Err _) => (with_decoder d, Err EFountain)
  | (d, Panic) => (with_decoder d, Panic)
  | (d, Ok _) =>
      match dec_decode d with
      | (d, Ok symbols) =>
          let r := with_decoder d in
          let flat := concat symbols in
          match recover_all (split_frames (S (length flat)) flat) with
          | Err e => (r, Err e)
          | Panic => (r, Panic)
          | Ok recovered =>
              let r := set_store r (store_all (rc_store r) sid recovered) in
              let '(r, completion) := retire r sid gen (map snd recovered) in
              (r, Ok completion)
          end
      | (d, Err (Underdetermined _ _)) => (with_decoder d, Ok None)
      | (d, Err _) => (with_decoder d, Err EFountain)
      | (d, Panic) => (with_decoder d, Panic)
      end
  end.

(** ** Dispatch and queries *)

Definition handle_frame (r : Receiver) (f : Frame) : Receiver * res ReceiverError (option Frame) :=
  match f with
  | FAppend a => match handle_append r a with
                 | (r, Ok ack) => (r, Ok (Some (FAck ack)))
                 | (r, Err e) => (r, Err e)
                 | (r, Panic) => (r, Panic)
                 end
  | FResync q =>
      let '(r, missing) := handle_resync r q in
      if is_nil missing then
        (r, Ok (Some (FAck (mk_ack (r_session q) (session_root (rc_store r) (r_session q))))))
      else (r, Ok (Some (FMissing (mk_missing (r_session q) missing))))
  | FBulk b => match handle_bulk r b with
               | (r, Ok (Some root)) => (r, Ok (Some (FAck (mk_ack (k_session b) root))))
               | (r, Ok None) => (r, Ok None)
               | (r, Err e) => (r, Err e)
               | (r, Panic) => (r, Panic)
               end
  | FAck _ => (r, Ok None)
  | FMissing _ => (r, Ok None)
  end.

Definition pointer (r : Receiver) (sid : Z) : option LogPointer :=
  match rc_sessions r !! sid with
  | Some _ => Some (mk_pointer sid (session_root (rc_store r) sid) (session_len (rc_store r) sid))
  | None => None
  end.

Definition receiver_session_root (r : Receiver) (sid : Z) : option MerkleRoot :=
  match rc_sessions r !! sid with
  | Some _ => Some (session_root (rc_store r) sid) | None => None end.

Definition receiver_reconstruct (r : Receiver) (sid : Z) : list Block :=
  match rc_sessions r !! sid with
  | Some _ => reconstruct (rc_store r) sid | None => [] end.

(** ** Store effects, for any id *)

(** [s'] holds every block [s] holds. *)
Definition keeps (s s' : ContentStore) : Prop :=
  forall id b, st_blocks s !! id = Some b -> st_blocks s' !! id = Some b.

Lemma keeps_refl s : keeps s s.
Proof. by intros id b. Qed.
Lemma keeps_trans s1 s2 s3 : keeps s1 s2 -> keeps s2 s3 -> keeps s1 s3.
Proof. intros H1 H2 id b H. by apply H2, H1. Qed.
#[local] Hint Resolve keeps_refl : core.

Lemma contains_Some s id : store_contains s id = true <-> is_Some (st_blocks s !! id).
Proof. unfold store_contains. apply bool_decide_eq_true. Qed.

Lemma keeps_contains s s' id : keeps s s' -> store_contains s id = true -> store_contains s' id = true.
Proof. rewrite !contains_Some. intros H [b Hb]. exists b. by apply H. Qed.

Lemma view_eq s s' : view s = view s' -> st_blocks s = st_blocks s' /\ st_sessions s = st_sessions s'.
Proof. unfold view. by intros [= -> ->]. Qed.

Lemma put_block_spec s b id :
  keeps s (fst (put_block s b id)) /\ store_contains (fst (put_block s b id)) id = true
  /\ st_sessions (fst (put_block s b id)) = st_sessions s.
Proof.
  unfold put_block. destruct (st_blocks s !! id) eqn:E; cbn [fst].
  - split_and!; [by intros ? ?|apply contains_Some; cbn; rewrite E; by eexists|done].
  - split_and!; [|apply contains_Some; cbn; rewrite lookup_insert_eq; by eexists|done].
    intros id' b' H. cbn. rewrite lookup_insert_ne; [done|congruence].
Qed.

Lemma insert_spec s sid b id (s' := fst (insert_with_id blake3 s sid b id)) :
  keeps s s' /\ store_contains s' id = true
  /\ st_sessions s' = fst (push_id blake3 (st_sessions s) sid id).
Proof.
  unfold s', insert_with_id, insert_with_canonical.
  destruct (put_block_spec s b id) as (H1 & H2 & H3).
  destruct (put_block s b id) as [s1 newly]. cbn [fst] in *. rewrite <- H3.
  destruct (push_id blake3 (st_sessions s1) sid id) as [m new] eqn:Q.
  set (s2 := mk_store _ m _ _ _).
  assert (forall s3, view s3 = view s2 -> keeps s s3 /\ store_contains s3 id = true /\ st_sessions s3 = m)
    as Hv.
  { intros s3 E. apply view_eq in E as [E1 E2]. unfold keeps, store_contains. rewrite E1, E2.
    split_and!; [exact H1|exact H2|done]. }
  destruct (st_wal s); [destruct newly|]; cbn [fst]; apply Hv;
    rewrite ?view_record_wal_result; reflexivity.
Qed.

Lemma reference_spec s sid id :
  store_contains s id = true ->
  exists s', reference blake3 s sid id = Ok s' /\ st_blocks s' = st_blocks s
    /\ st_sessions s' = fst (push_id blake3 (st_sessions s) sid id).
Proof.
  rewrite contains_Some. intros [b Hb]. unfold reference. rewrite Hb.
  destruct (push_id blake3 (st_sessions s) sid id) as [m new].
  destruct (st_wal s); (eexists; split; [done|]); [|done].
  match goal with |- st_blocks ?s = _ /\ _ => assert (view s = (st_blocks s, st_sessions s)) as E by done end.
  rewrite view_record_wal_result in E. injection E as <- <-. done.
Qed.

Lemma store_content_spec s sid b id (s' := fst (store_content_with_id s sid b id)) :
  keeps s s' /\ store_contains s' id = true /\ st_sessions s' = st_sessions s.
Proof.
  unfold s', store_content_with_id. destruct (put_block_spec s b id) as (H1 & H2 & H3).
  destruct (put_block s b id) as [s1 newly]. cbn [fst] in *.
  assert (forall s3, view s3 = view s1 -> keeps s s3 /\ store_contains s3 id = true
                                         /\ st_sessions s3 = st_sessions s) as Hv.
  { intros s3 E. apply view_eq in E as [E1 E2]. unfold keeps, store_contains. rewrite E1, E2.
    split_and!; [exact H1|exact H2|done]. }
  destruct (st_wal s); [destruct newly|]; cbn [fst]; apply Hv;
    rewrite ?view_record_wal_result; reflexivity.
Qed.

Lemma seed_spec s sid ids root (s' := seed_session s sid ids root) :
  st_blocks s' = st_blocks s /\ st_sessions s' = <[sid := mk_log ids root]> (st_sessions s).
Proof. apply view_eq with (s' := mk_store _ _ (st_stats s) None None). apply (view_seed blake3). Qed.

(** The log of a session after [push_id]. *)
Lemma push_id_root m sid id s s' :
  st_sessions s = m -> st_sessions s' = fst (push_id blake3 m sid id) ->
  session_ids s' sid = session_ids s sid ++ [id]
  /\ session_root s' sid = append_root (session_root s sid) id
  /\ (forall sid', sid' <> sid -> st_sessions s' !! sid' = st_sessions s !! sid').
Proof.
  intros <- E. unfold session_ids, session_root. rewrite E. unfold push_id.
  destruct (st_sessions s !! sid) as [l|] eqn:F; cbn [fst]; rewrite lookup_insert_eq;
    (split_and!; [done|done|]); intros sid' Hne; by rewrite lookup_insert_ne.
Qed.

(** ** The append loop *)

Lemma refs_known_mono s s' inline inline' l :
  keeps s s' ->
  (forall id, id ∈ inline -> id ∈ inline' \/ store_contains s' id = true) ->
  refs_known s inline l = true -> refs_known s' inline' l = true.
Proof.
  intros Hk. revert inline inline'. induction l as [|[id b|id] l IH]; intros inline inline' Hi; cbn.
  - done.
  - apply IH. intros id'. rewrite !elem_of_union. intros [?|H]; [by left; left|].
    destruct (Hi _ H); [by left; right|by right].
  - rewrite !andb_true_iff, !orb_true_iff, !bool_decide_eq_true. intros [H1 H2].
    split; [|by eapply IH]. destruct H1 as [H1|H1].
    + left. by eapply keeps_contains.
    + destruct (Hi _ H1); [by right|by left].
Qed.

Lemma append_all_spec sid l : forall s inline,
  refs_known s inline l = true -> (forall id, id ∈ inline -> store_contains s id = true) ->
  exists s', append_all s sid l = (s', Ok tt) /\ keeps s s'
    /\ session_ids s' sid = session_ids s sid ++ map resolved_id l
    /\ session_root s' sid = root_over blake3 (session_root s sid) (map resolved_id l)
    /\ (forall sid', sid' <> sid -> st_sessions s' !! sid' = st_sessions s !! sid')
    /\ Forall (fun x => store_contains s' (resolved_id x) = true) l.
Proof.
  induction l as [|[id b|id] l IH]; intros s inline Hr Hi; cbn [append_all map resolved_id].
  - exists s. split_and!; try done. by rewrite app_nil_r.
  - destruct (insert_spec s sid b id) as (K & C & E). set (s1 := fst _) in *.
    destruct (push_id_root _ _ _ _ _ eq_refl E) as (E1 & E2 & E3). cbn in Hr.
    destruct (IH s1 ({[id]} ∪ inline)) as (s' & -> & K' & Ei & Er & Eo & F).
    { eapply refs_known_mono; [done| |exact Hr]. by left. }
    { intros id'. rewrite elem_of_union, elem_of_singleton. intros [->|H]; [done|].
      eapply keeps_contains; [done|by apply Hi]. }
    exists s'. split_and!; [done|by eapply keeps_trans| | | |].
    + by rewrite Ei, E1, <- app_assoc.
    + by rewrite Er, E2.
    + intros sid' H. by rewrite Eo, E3.
    + apply list.Forall_cons. split; [by eapply keeps_contains|done].
  - cbn in Hr. apply andb_true_iff in Hr as [H1 Hr].
    assert (store_contains s id = true) as C.
    { apply orb_true_iff in H1 as [?|H]; [done|]. apply bool_decide_eq_true in H. by apply Hi. }
    destruct (reference_spec s sid id C) as (s1 & -> & Eb & E).
    destruct (push_id_root _ _ _ _ _ eq_refl E) as (E1 & E2 & E3).
    assert (keeps s s1) as K by (unfold keeps; by rewrite Eb).
    destruct (IH s1 inline) as (s' & -> & K' & Ei & Er & Eo & F).
    { eapply refs_known_mono; [done| |exact Hr]. by left. }
    { intros id' H. eapply keeps_contains; [done|by apply Hi]. }
    exists s'. split_and!; [done|by eapply keeps_trans| | | |].
    + by rewrite Ei, E1, <- app_assoc.
    + by rewrite Er, E2.
    + intros sid' H. by rewrite Eo, E3.
    + apply list.Forall_cons. split; [|done].
      eapply keeps_contains; [done|]. by eapply keeps_contains.
Qed.

Lemma fold_root l root :
  fold_left (fun root x => append_root root (resolved_id x)) l root
  = root_over blake3 root (map resolved_id l).
Proof. revert root. induction l as [|x l IH]; intros root; [done|]. apply IH. Qed.

Lemma from_canonical_owned_no_panic buf : from_canonical_owned blake3 buf <> Panic.
Proof.
  unfold from_canonical_owned. case_test; [done|].
  destruct (kind_from_byte _); [|done]. cbn [res_of_option res_bind]. by repeat case_test.
Qed.

Lemma recover_block_no_panic c : recover_block c <> Panic.
Proof.
  unfold recover_block. destruct (decompress c) as [canon|]; [|done].
  pose proof (from_canonical_owned_no_panic canon).
  by destruct (from_canonical_owned blake3 canon).
Qed.

Lemma resolve_no_panic l : resolve l <> Panic.
Proof.
  induction l as [|[b|id] l IH]; [done| |]; cbn [resolve].
  - apply res_bind_no_panic; [apply recover_block_no_panic|]. intros [block id] _.
    by apply res_bind_no_panic.
  - by apply res_bind_no_panic.
Qed.

(** ** What an APPEND does *)

(** The three ways an APPEND ends. *)
Inductive append_outcome (r : Receiver) (f : AppendFrame) : Receiver * res ReceiverError AckFrame -> Prop :=
| AO_rejected r' e :
    rc_store r' = rc_store r ->
    (rc_sessions r' = rc_sessions r
     \/ r' = put_session r (a_session f) (session_entry r (a_session f))) ->
    append_outcome r f (r', Err e)
| AO_replay resolved :
    resolve (a_blocks f) = Ok resolved ->
    refs_known (rc_store r) ∅ resolved = true ->
    ss_pending (session_entry r (a_session f)) = ∅ ->
    a_base f <> session_root (rc_store r) (a_session f) ->
    root_over blake3 (a_base f) (map resolved_id resolved) = session_root (rc_store r) (a_session f) ->
    append_outcome r f (put_session r (a_session f) (session_entry r (a_session f)),
                        Ok (mk_ack (a_session f) (session_root (rc_store r) (a_session f))))
| AO_appended resolved s :
    resolve (a_blocks f) = Ok resolved ->
    refs_known (rc_store r) ∅ resolved = true ->
    ss_pending (session_entry r (a_session f)) = ∅ ->
    a_base f = session_root (rc_store r) (a_session f) ->
    append_all (rc_store r) (a_session f) resolved = (s, Ok tt) ->
    append_outcome r f (set_store (put_session r (a_session f) (session_entry r (a_session f))) s,
                        Ok (mk_ack (a_session f) (session_root s (a_session f)))).

Lemma handle_append_outcome r f : append_outcome r f (handle_append r f).
Proof.
  unfold handle_append. destruct (resolve (a_blocks f)) as [resolved|e|] eqn:R.
  2: { apply AO_rejected; [done|by left]. }
  2: { by apply resolve_no_panic in R. }
  destruct (refs_known (rc_store r) ∅ resolved) eqn:K; cbn [negb].
  2: { apply AO_rejected; [done|by left]. }
  destruct (bool_decide (ss_pending (session_entry r (a_session f)) = ∅)) eqn:P; cbn [negb].
  2: { apply AO_rejected; [done|by right]. }
  apply bool_decide_eq_true in P. rewrite fold_root. cbn [rc_store put_session].
  case_bool_decide as B; cbn [negb].
  - destruct (append_all_spec (a_session f) resolved _ _ K) as (s & E & _); [set_solver|].
    rewrite E. by apply (AO_appended r f resolved s).
  - case_bool_decide as T.
    + by apply (AO_replay r f resolved).
    + apply AO_rejected; [done|by right].
Qed.

(** The frame that extends its session. *)
Lemma handle_append_ok r f rs s (sid := a_session f) :
  resolve (a_blocks f) = Ok rs -> refs_known (rc_store r) ∅ rs = true ->
  ss_pending (session_entry r sid) = ∅ -> a_base f = session_root (rc_store r) sid ->
  append_all (rc_store r) sid rs = (s, Ok tt) ->
  handle_append r f = (set_store (put_session r sid (session_entry r sid)) s,
                       Ok (mk_ack sid (session_root s sid))).
Proof.
  intros R K P B A. unfold handle_append. rewrite R, K. cbn [negb]. fold sid.
  rewrite (bool_decide_eq_true_2 _ P). cbn [negb rc_store put_session].
  rewrite (bool_decide_eq_true_2 _ B). cbn [negb]. by rewrite A.
Qed.

Lemma append_cases r f r' out :
  append_outcome r f (r', out) ->
  let sid := a_session f in
  let entered := put_session r sid (session_entry r sid) in
  (exists e, out = Err e /\ rc_store r' = rc_store r
             /\ (rc_sessions r' = rc_sessions r \/ r' = entered))
  \/ (exists rs, resolve (a_blocks f) = Ok rs /\ refs_known (rc_store r) ∅ rs = true
        /\ ss_pending (session_entry r sid) = ∅ /\ a_base f <> session_root (rc_store r) sid
        /\ root_over blake3 (a_base f) (map resolved_id rs) = session_root (rc_store r) sid
        /\ r' = entered /\ out = Ok (mk_ack sid (session_root (rc_store r) sid)))
  \/ (exists rs s, resolve (a_blocks f) = Ok rs /\ refs_known (rc_store r) ∅ rs = true
        /\ ss_pending (session_entry r sid) = ∅ /\ a_base f = session_root (rc_store r) sid
        /\ append_all (rc_store r) sid rs = (s, Ok tt)
        /\ r' = set_store entered s /\ out = Ok (mk_ack sid (session_root s sid))).
Proof.
  intros O. inversion O; subst; cbv zeta; [left|right; left|right; right]; eauto 10.
Qed.

Lemma put_session_other r sid st sid' :
  sid' <> sid -> rc_sessions (put_session r sid st) !! sid' = rc_sessions r !! sid'.
Proof. intros H. cbn. by rewrite lookup_insert_ne. Qed.

(** An APPEND touches its own session, and acknowledges it. *)
Lemma append_other r f r' out sid :
  handle_append r f = (r', out) -> sid <> a_session f ->
  rc_sessions r' !! sid = rc_sessions r !! sid
  /\ st_sessions (rc_store r') !! sid = st_sessions (rc_store r) !! sid
  /\ (forall ack, out = Ok ack -> ack_session ack = a_session f).
Proof.
  intros E H. pose proof (handle_append_outcome r f) as O. rewrite E in O.
  destruct (append_cases _ _ _ _ O) as
    [(e & -> & Hs & Hss)|[(rs & _ & _ & _ & _ & _ & -> & ->)|(rs & s & _ & K & _ & _ & A & -> & ->)]].
  - rewrite Hs. split_and!; [|done|done].
    destruct Hss as [->| ->]; [done|by apply put_session_other].
  - split_and!; [by apply put_session_other|done|by intros ? [= <-]].
  - destruct (append_all_spec (a_session f) rs _ _ K) as (s' & E' & _ & _ & _ & Eo & _); [set_solver|].
    rewrite A in E'. injection E' as <-.
    split_and!; [by apply put_session_other|by apply Eo|by intros ? [= <-]].
Qed.

(** What an acknowledgement says. *)
Lemma append_ack r f r' ack rs :
  handle_append r f = (r', Ok ack) -> resolve (a_blocks f) = Ok rs ->
  ss_pending (session_entry r (a_session f)) = ∅
  /\ ack = mk_ack (a_session f) (session_root (rc_store r') (a_session f))
  /\ ack_root ack = root_over blake3 (a_base f) (map resolved_id rs).
Proof.
  intros E R. pose proof (handle_append_outcome r f) as O. rewrite E in O.
  destruct (append_cases _ _ _ _ O) as
    [(e & ? & _)|[(rs' & R' & _ & P & _ & T & -> & [= ->])
                 |(rs' & s & R' & K & P & B & A & -> & [= ->])]]; [done| |];
    rewrite R in R'; injection R' as <-.
  - by split_and!.
  - destruct (append_all_spec (a_session f) rs _ _ K) as (s' & E' & _ & _ & Er & _); [set_solver|].
    rewrite A in E'. injection E' as <-. split_and!; [done|done|]. cbn. by rewrite Er, B.
Qed.

(** the contract of APPEND.  [handle_append] never panics; it touches no
    other session.  An error leaves the store exactly as it was, however far
    the frame had been resolved.  An acknowledgement means that no cold start
    is in progress and that the acknowledged root is both the session's root
    and the root the frame claims (its base root advanced over its ids); either
    the frame extended the session, from its base root, by exactly its ids in
    order, with the content of every id in the store, or it was a replay of a
    frame already applied and nothing changed. *)
Theorem append_contract r f r' out :
  handle_append r f = (r', out) ->
  let sid := a_session f in
  out <> Panic
  /\ (forall sid', sid' <> sid ->
        rc_sessions r' !! sid' = rc_sessions r !! sid'
        /\ st_sessions (rc_store r') !! sid' = st_sessions (rc_store r) !! sid')
  /\ (forall e, out = Err e -> rc_store r' = rc_store r)
  /\ (forall ack, out = Ok ack ->
        exists resolved, resolve (a_blocks f) = Ok resolved
        /\ let ids := map resolved_id resolved in
        ss_pending (session_entry r sid) = ∅
        /\ ack = mk_ack sid (session_root (rc_store r') sid)
        /\ ack_root ack = root_over blake3 (a_base f) ids
        /\ (rc_store r' = rc_store r /\ a_base f <> session_root (rc_store r) sid
            \/ a_base f = session_root (rc_store r) sid
               /\ session_ids (rc_store r') sid = session_ids (rc_store r) sid ++ ids
               /\ Forall (fun id => store_contains (rc_store r') id = true) ids
               /\ keeps (rc_store r) (rc_store r'))).
Proof.
  intros E; cbv zeta. pose proof (handle_append_outcome r f) as O. rewrite E in O.
  destruct (append_cases _ _ _ _ O) as
    [(e & -> & Hs & Hss)|[(resolved & R & K & P & B & T & -> & ->)
                         |(resolved & s & R & K & P & B & A & -> & ->)]].
  - split_and!; [done| |by intros ? _|done].
    intros sid' H. destruct (append_other _ _ _ _ sid' E H) as (H1 & H2 & _). by split.
  - split_and!; [done| |done|].
    { intros sid' H. destruct (append_other _ _ _ _ sid' E H) as (H1 & H2 & _). by split. }
    intros ack [= <-]. exists resolved. cbv zeta. split_and!; try done. by left.
  - destruct (append_all_spec (a_session f) resolved _ _ K) as (s' & E' & Ks & Ei & Er & Eo & F); [set_solver|].
    rewrite A in E'. injection E' as <-. split_and!; [done| |done|].
    { intros sid' H. destruct (append_other _ _ _ _ sid' E H) as (H1 & H2 & _). by split. }
    intros ack [= <-]. exists resolved. cbv zeta. split_and!; try done.
    { cbn. by rewrite Er, B. }
    right. split_and!; try done. clear -F. induction F; constructor; done.
Qed.

Lemma append_replay r f r' ack resolved :
  handle_append r f = (r', Ok ack) -> resolve (a_blocks f) = Ok resolved ->
  (resolved = [] \/ root_over blake3 (a_base f) (map resolved_id resolved) <> a_base f) ->
  handle_append r' f = (r', Ok ack).
Proof.
  intros E R Hmove. destruct (append_ack _ _ _ _ _ E R) as (P & Hack & Hroot).
  pose proof (handle_append_outcome r f) as O. rewrite E in O.
  assert (exists st, rc_sessions r' = <[(a_session f) := st]> (rc_sessions r) /\ st = session_entry r (a_session f)
            /\ refs_known (rc_store r') ∅ resolved = true) as (st & Hst & Est & K).
  { destruct (append_cases _ _ _ _ O) as
      [(e & ? & _)|[(rs & R1 & K & _ & _ & _ & -> & _)|(rs & s & R1 & K & _ & _ & A & -> & _)]];
      [done| |]; rewrite R in R1; injection R1 as <-; eexists;
      (split_and!; [done|done|]); [done|].
    destruct (append_all_spec (a_session f) resolved _ _ K) as (s' & E' & Ks & _); [set_solver|].
    rewrite A in E'. injection E' as <-. eapply refs_known_mono; [exact Ks| |exact K]. by left. }
  assert (session_entry r' (a_session f) = st) as Ee.
  { unfold session_entry. by rewrite Hst, lookup_insert_eq. }
  assert (put_session r' (a_session f) st = r') as Es.
  { unfold put_session. rewrite Hst, insert_insert_eq, <- Hst. by destruct r'. }
  unfold handle_append. cbv zeta. rewrite R, K, Ee. cbn [negb]. rewrite Es, Est.
  rewrite (bool_decide_eq_true_2 _ P). cbn [negb]. rewrite fold_root.
  rewrite Hack in Hroot. cbn in Hroot.
  destruct Hmove as [->|Hmove].
  - cbn [map root_over] in Hroot |- *. rewrite Hroot, bool_decide_eq_true_2 by done. cbn [negb append_all].
    rewrite Hack. do 2 f_equal. by destruct r'.
  - rewrite bool_decide_eq_false_2 by congruence. cbn [negb].
    rewrite bool_decide_eq_true_2 by done. by rewrite Hack.
Qed.

(** APPEND is safe to retry after a lost acknowledgement.  If a frame was
    acknowledged, handling the same frame again gives the same acknowledgement
    and leaves the receiver exactly as it is, so no block is appended twice.
    (The frame must be able to move the root: with no blocks, or with ids whose
    root differs from its base, which only a hash cycle violates.) *)
Theorem append_retry r f r' ack resolved :
  handle_append r f = (r', Ok ack) -> resolve (a_blocks f) = Ok resolved ->
  (resolved = [] \/ root_over blake3 (a_base f) (map resolved_id resolved) <> a_base f) ->
  handle_append r' f = (r', Ok ack).
Proof. apply append_replay. Qed.

Lemma append_keeps r f r' out : handle_append r f = (r', out) -> keeps (rc_store r) (rc_store r').
Proof.
  intros E. pose proof (handle_append_outcome r f) as O. rewrite E in O.
  destruct (append_cases _ _ _ _ O) as [(e & -> & -> & _)|[(rs & _ & _ & _ & _ & _ & -> & _)|H]]; [done|done|].
  destruct H as (rs & s & _ & K & _ & _ & A & -> & _).
  destruct (append_all_spec (a_session f) rs _ _ K) as (s' & E' & Ks & _); [set_solver|].
  rewrite A in E'. by injection E' as <-.
Qed.

(** ** What a BULK does *)

Lemma store_all_spec l : forall s sid,
  keeps s (store_all s sid l) /\ st_sessions (store_all s sid l) = st_sessions s
  /\ Forall (fun x => store_contains (store_all s sid l) x.2 = true) l.
Proof.
  unfold store_all. induction l as [|[b id] l IH]; intros s sid; cbn [fold_left]; [done|].
  cbn [fst snd]. destruct (store_content_spec s sid b id) as (K & C & E).
  set (s1 := fst _) in *. destruct (IH s1 sid) as (K' & E' & F). split_and!.
  - by eapply keeps_trans.
  - by rewrite E'.
  - apply list.Forall_cons. split; [by eapply keeps_contains|done].
Qed.

Lemma fold_difference (l : list BlockId) (p : gset BlockId) (id : BlockId) :
  id ∈ fold_left (fun (p : gset BlockId) id => p ∖ {[id]}) l p <-> id ∈ p /\ id ∉ l.
Proof.
  revert p. induction l as [|i l IH]; intros p; cbn [fold_left].
  - rewrite elem_of_nil. tauto.
  - rewrite IH, elem_of_difference, elem_of_singleton, elem_of_cons. tauto.
Qed.

(** The state of the frame's session after a BULK, against [st] before. *)
Definition bulk_effect (s' : ContentStore) (sid : Z) (st st' : SessionState)
    (out : res ReceiverError (option MerkleRoot)) : Prop :=
  (forall id, id ∈ ss_pending st -> id ∈ ss_pending st' \/ store_contains s' id = true)
  /\ match out with
     | Ok (Some root) =>
         ss_acked st = false /\ ss_acked st' = true /\ ss_pending st' = ∅
         /\ root = session_root s' sid
     | _ => ss_acked st' = ss_acked st
            /\ (ss_acked st = false -> ss_pending st <> ∅ -> ss_pending st' <> ∅)
     end.

Lemma bulk_effect_same s' sid st st' out :
  ss_pending st' = ss_pending st -> ss_acked st' = ss_acked st ->
  match out with Ok (Some _) => False | _ => True end -> bulk_effect s' sid st st' out.
Proof.
  intros Hp Ha Ho. unfold bulk_effect. rewrite Hp, Ha. split; [by left|].
  by destruct out as [[?|]| |].
Qed.

Lemma retire_effect r sid gen ids r' c st :
  retire r sid gen ids = (r', c) -> rc_sessions r !! sid = Some st ->
  Forall (fun id => store_contains (rc_store r) id = true) ids ->
  rc_store r' = rc_store r
  /\ exists st', rc_sessions r' = <[sid := st']> (rc_sessions r)
      /\ bulk_effect (rc_store r) sid st st' (Ok c).
Proof.
  unfold retire. intros E Hst Hids. rewrite Hst in E. set (p := fold_left _ ids (ss_pending st)) in *.
  assert (forall id, id ∈ ss_pending st -> id ∈ p \/ store_contains (rc_store r) id = true) as Hp.
  { intros id H. destruct (decide (id ∈ ids)) as [Hi|Hi].
    - right. by apply (proj1 (list.Forall_forall _ _) Hids).
    - left. by apply fold_difference. }
  destruct (bool_decide (p = ∅)) eqn:B; cbn [andb] in E.
  - apply bool_decide_eq_true in B. destruct (ss_acked st) eqn:A; cbn [negb] in E;
      injection E as <- <-; (split; [done|]); eexists; (split; [done|]); split; cbn; try done.
    rewrite A. by split.
  - apply bool_decide_eq_false in B. injection E as <- <-. split; [done|]. eexists.
    split; [done|]. split; [done|]. by split.
Qed.

Lemma handle_bulk_spec r f r' out (sid := k_session f) :
  handle_bulk r f = (r', out) ->
  keeps (rc_store r) (rc_store r') /\ st_sessions (rc_store r') = st_sessions (rc_store r)
  /\ exists st', rc_sessions r' = <[sid := st']> (rc_sessions r)
      /\ bulk_effect (rc_store r') sid (session_entry r sid) st' out.
Proof.
  intros E. unfold handle_bulk in E. cbv zeta in E.
  destruct (add_symbols _ _) as [d [[]|e|]].
  2, 3: injection E as <- <-; split_and!; [done|done|]; eexists; (split; [done|]);
        by apply bulk_effect_same.
  destruct (dec_decode d) as [d' [symbols|[|h n|m1 m2]|]].
  2, 3, 4, 5: injection E as <- <-; split_and!; [done|done|]; eexists; (split; [done|]);
        by apply bulk_effect_same.
  destruct (recover_all _) as [recovered|e|].
  2, 3: injection E as <- <-; split_and!; [done|done|]; eexists; (split; [done|]);
        by apply bulk_effect_same.
  destruct (store_all_spec recovered (rc_store r) sid) as (K & Es & F).
  destruct (retire _ _ _ _) as [r2 c] eqn:R. injection E as <- <-. fold sid in R.
  eapply retire_effect in R as (Er & st' & Hs & Heff).
  3: { apply list.Forall_fmap. exact F. }
  2: { cbn. apply lookup_insert_eq. }
  rewrite Er. cbn [rc_store set_store put_session] in *. split_and!; [done|done|].
  exists st'. split; [|exact Heff]. rewrite Hs. cbn. apply insert_insert_eq.
Qed.

(** ** Cold start *)

(** Session [sid] waits for content: its log is the manifest with the client's
    root, some content is missing, nothing was acknowledged. *)
Definition cold (r : Receiver) (sid : Z) (manifest : list BlockId) (root : MerkleRoot) : Prop :=
  st_sessions (rc_store r) !! sid = Some (mk_log manifest root)
  /\ exists st, rc_sessions r !! sid = Some st /\ ss_pending st <> ∅ /\ ss_acked st = false
     /\ forall id, id ∈ manifest -> store_contains (rc_store r) id = true \/ id ∈ ss_pending st.

(** Its cold start was acknowledged: all the content is there. *)
Definition warm (r : Receiver) (sid : Z) (manifest : list BlockId) : Prop :=
  (exists st, rc_sessions r !! sid = Some st /\ ss_acked st = true)
  /\ Forall (fun id => store_contains (rc_store r) id = true) manifest.

Fixpoint run_frames (r : Receiver) (fs : list Frame)
  : Receiver * list (res ReceiverError (option Frame)) :=
  match fs with
  | [] => (r, [])
  | f :: fs' => let '(r, out) := handle_frame r f in
                let '(r, outs) := run_frames r fs' in (r, out :: outs)
  end.

(** An answer that acknowledges session [sid]. *)
Definition acks (sid : Z) (out : res ReceiverError (option Frame)) : Prop :=
  match out with Ok (Some (FAck a)) => ack_session a = sid | _ => False end.
Definition resyncs (sid : Z) (f : Frame) : Prop :=
  match f with FResync q => r_session q = sid | _ => False end.
Definition bulk_for (sid : Z) (f : Frame) : Prop :=
  match f with FBulk b => k_session b = sid | _ => False end.

Lemma Forall_contains s s' (l : list BlockId) :
  keeps s s' -> Forall (fun id => store_contains s id = true) l ->
  Forall (fun id => store_contains s' id = true) l.
Proof. intros K. apply Forall_impl. intros id. by apply keeps_contains. Qed.

(** No frame loses content, and a frame of another session does not touch this
    one's state. *)
Lemma handle_frame_keeps r f r' out : handle_frame r f = (r', out) -> keeps (rc_store r) (rc_store r').
Proof.
  destruct f as [a|q|b|a|m]; cbn [handle_frame]; intros E.
  - destruct (handle_append r a) as [r1 o] eqn:A.
    pose proof (append_keeps _ _ _ _ A). destruct o; injection E as <- _; done.
  - unfold handle_resync in E. cbn zeta in E. destruct (is_nil _); injection E as <- _;
      cbn; unfold keeps; by rewrite (proj1 (seed_spec _ _ _ _)).
  - destruct (handle_bulk r b) as [r1 o] eqn:B.
    destruct (handle_bulk_spec _ _ _ _ B) as [K _]. destruct o as [[?|]|?|]; injection E as <- _; done.
  - by injection E as <- _.
  - by injection E as <- _.
Qed.

(** The effect of one frame on the state of a session: either the frame is the
    session's own, or the session's log and bookkeeping stay. *)
Definition frame_session (f : Frame) : option Z :=
  match f with
  | FAppend a => Some (a_session a) | FResync q => Some (r_session q)
  | FBulk b => Some (k_session b) | _ => None
  end.

Lemma handle_frame_other r f r' out sid :
  handle_frame r f = (r', out) -> frame_session f <> Some sid ->
  rc_sessions r' !! sid = rc_sessions r !! sid
  /\ st_sessions (rc_store r') !! sid = st_sessions (rc_store r) !! sid /\ ~ acks sid out.
Proof.
  destruct f as [a|q|b|a|m]; cbn [handle_frame frame_session]; intros E Hne.
  - destruct (handle_append r a) as [r1 o] eqn:A.
    destruct (append_other _ _ _ _ sid A) as (H1 & H2 & Hack); [congruence|].
    destruct o as [ack|e|]; injection E as <- <-; (split_and!; [done|done|]); [|by intros []..].
    cbn. rewrite (Hack ack eq_refl). congruence.
  - unfold handle_resync in E. cbn zeta in E.
    assert (forall st, rc_sessions (put_session (set_store r (seed_session (rc_store r) (r_session q)
              (r_manifest q) (r_root q))) (r_session q) st) !! sid = rc_sessions r !! sid) as H1.
    { intros st. cbn. apply lookup_insert_ne. congruence. }
    assert (st_sessions (seed_session (rc_store r) (r_session q) (r_manifest q) (r_root q)) !! sid
            = st_sessions (rc_store r) !! sid) as H2.
    { rewrite (proj2 (seed_spec _ _ _ _)). apply lookup_insert_ne. congruence. }
    destruct (is_nil _); injection E as <- <-; (split_and!; [apply H1|exact H2|cbn; congruence]).
  - destruct (handle_bulk r b) as [r1 o] eqn:B.
    destruct (handle_bulk_spec _ _ _ _ B) as (_ & H2 & st' & H1 & _).
    assert (rc_sessions r1 !! sid = rc_sessions r !! sid) as H3.
    { rewrite H1. apply lookup_insert_ne. congruence. }
    destruct o as [[root|]|e|]; injection E as <- <-; rewrite H2;
      (split_and!; [exact H3|done|]); cbn; solve [intros [] | intros ?; congruence].
  - injection E as <- <-. split_and!; [done|done|by intros []].
  - injection E as <- <-. split_and!; [done|done|by intros []].
Qed.

Lemma session_entry_Some r sid st : rc_sessions r !! sid = Some st -> session_entry r sid = st.
Proof. unfold session_entry. by intros ->. Qed.

(** One frame of a waiting session: it goes on waiting, unacknowledged, or the
    frame is the BULK that completes it. *)
Lemma cold_step r f r' out sid m root :
  cold r sid m root -> ~ resyncs sid f -> handle_frame r f = (r', out) ->
  (cold r' sid m root /\ ~ acks sid out)
  \/ (bulk_for sid f /\ out = Ok (Some (FAck (mk_ack sid root))) /\ warm r' sid m).
Proof.
  intros (Hlog & st & Hst & Hp & Ha & Hm) Hnr E.
  pose proof (handle_frame_keeps _ _ _ _ E) as K.
  assert (forall id st', (id ∈ ss_pending st -> id ∈ ss_pending st' \/ store_contains (rc_store r') id = true) ->
            id ∈ m -> store_contains (rc_store r') id = true \/ id ∈ ss_pending st') as Hm'.
  { intros id st' H Hid. destruct (Hm id Hid) as [H1|H1]; [left; by eapply keeps_contains|].
    destruct (H H1); [by right|by left]. }
  destruct (decide (frame_session f = Some sid)) as [Hf|Hf].
  2: { destruct (handle_frame_other _ _ _ _ _ E Hf) as (H1 & H2 & H3). left. split; [|done].
       split; [congruence|]. exists st. split_and!; [congruence|done|done|].
       intros id. apply Hm'. by left. }
  destruct f as [a|q|b|a|mm]; cbn [frame_session] in Hf; try done; injection Hf as Hf.
  - cbn [handle_frame] in E. destruct (handle_append r a) as [r1 o] eqn:A.
    pose proof (handle_append_outcome r a) as O. rewrite A in O.
    destruct (append_cases _ _ _ _ O) as [(e & -> & Hstore & Hss)|H].
    2: { exfalso. destruct H as [(rs & _ & _ & P & _)|(rs & s & _ & _ & P & _)];
         rewrite Hf, (session_entry_Some _ _ _ Hst) in P; done. }
    injection E as <- <-. left. split; [|by cbn]. split; [by rewrite Hstore|]. exists st.
    split_and!; [|done|done|].
    + destruct Hss as [->| ->]; [done|]. cbn. rewrite Hf, lookup_insert_eq.
      by rewrite (session_entry_Some _ _ _ Hst).
    + intros id. apply Hm'. by left.
  - exfalso. by apply Hnr.
  - cbn [handle_frame] in E. destruct (handle_bulk r b) as [r1 o] eqn:B.
    destruct (handle_bulk_spec _ _ _ _ B) as (_ & H2 & st' & H1 & Heff & Hout). rewrite Hf in *.
    rewrite (session_entry_Some _ _ _ Hst) in Heff, Hout.
    assert (rc_store r1 = rc_store r') as Er by (destruct o as [[?|]|?|]; by injection E as <- _).
    destruct o as [[rt|]|e|].
    { right. destruct Hout as (_ & A & P & ->). injection E as <- <-.
      split_and!; [done| |].
      - do 4 f_equal. unfold session_root. by rewrite H2, Hlog.
      - split; [exists st'; split; [by rewrite H1, lookup_insert_eq|done]|].
        apply list.Forall_forall. intros id Hid.
        destruct (Hm' id st' (Heff id) Hid) as [|Hin]; [done|]. rewrite P in Hin. set_solver. }
    all: left; injection E as <- <-; destruct Hout as [A Hne]; (split; [|by cbn]);
      (split; [by rewrite H2|]); exists st'; (split_and!; [by rewrite H1, lookup_insert_eq|by apply Hne|
        congruence|]); intros id; apply Hm'; apply Heff.
Qed.

(** An acknowledged session stays so, and no later BULK answers for it. *)
Lemma warm_step r f r' out sid m :
  warm r sid m -> ~ resyncs sid f -> handle_frame r f = (r', out) ->
  warm r' sid m /\ (bulk_for sid f -> forall a, out <> Ok (Some a)).
Proof.
  intros ((st & Hst & Ha) & Hc) Hnr E. pose proof (handle_frame_keeps _ _ _ _ E) as K.
  enough ((exists st', rc_sessions r' !! sid = Some st' /\ ss_acked st' = true)
          /\ (bulk_for sid f -> forall a, out <> Ok (Some a))) as [H1 H2].
  { split; [|done]. split; [done|]. by eapply Forall_contains. }
  destruct (decide (frame_session f = Some sid)) as [Hf|Hf].
  2: { destruct (handle_frame_other _ _ _ _ _ E Hf) as (H1 & _). split; [exists st; split; congruence|].
       destruct f; cbn in *; congruence. }
  destruct f as [a|q|b|a|mm]; cbn [frame_session] in Hf; try done; injection Hf as Hf.
  - split; [|done]. cbn [handle_frame] in E. destruct (handle_append r a) as [r1 o] eqn:A.
    assert (r' = r1) as -> by (destruct o; by injection E as <- _).
    pose proof (handle_append_outcome r a) as O. rewrite A in O. exists st. split; [|done].
    pose proof (session_entry_Some _ _ _ Hst) as He.
    destruct (append_cases _ _ _ _ O) as [(e & _ & _ & [->| ->])|[(rs & _ & _ & _ & _ & _ & -> & _)
      |(rs & s & _ & _ & _ & _ & _ & -> & _)]]; [done|..]; cbn; by rewrite Hf, lookup_insert_eq, He.
  - exfalso. by apply Hnr.
  - cbn [handle_frame] in E. destruct (handle_bulk r b) as [r1 o] eqn:B.
    destruct (handle_bulk_spec _ _ _ _ B) as (_ & _ & st' & H1 & _ & Hout). rewrite Hf in *.
    rewrite (session_entry_Some _ _ _ Hst) in Hout.
    destruct o as [[rt|]|e|]; [destruct Hout; congruence|..]; injection E as <- <-;
      destruct Hout as [A _]; (split; [|by intros _ ?]); exists st';
      rewrite H1, lookup_insert_eq; (split; [done|congruence]).
Qed.

Lemma cold_after_resync r q r1 missing :
  handle_resync r q = (r1, missing) -> missing <> [] ->
  cold r1 (r_session q) (r_manifest q) (r_root q).
Proof.
  unfold handle_resync. cbv zeta. intros E Hne. injection E as Er Em.
  assert (forall id, id ∈ missing <-> id ∈ r_manifest q /\ store_contains (rc_store r) id = false) as Hmem.
  { intros id. rewrite <- Em, list_elem_of_filter. destruct (store_contains _ _); cbn; naive_solver. }
  rewrite Em in Er. subst r1. split.
  - cbn. rewrite (proj2 (seed_spec _ _ _ _)). apply lookup_insert_eq.
  - eexists. split; [cbn; apply lookup_insert_eq|]. cbn [ss_pending ss_acked]. split_and!.
    + destruct missing; [done|]. set_solver.
    + by destruct missing.
    + intros id Hid. rewrite elem_of_list_to_set, Hmem. cbn [rc_store set_store put_session].
      unfold store_contains. rewrite (proj1 (seed_spec _ _ _ _)).
      destruct (bool_decide (is_Some (st_blocks (rc_store r) !! id))); [by left|by right].
Qed.

Lemma warm_run fs : forall r r' outs sid m,
  warm r sid m -> Forall (fun f => ~ resyncs sid f) fs -> run_frames r fs = (r', outs) ->
  warm r' sid m
  /\ Forall2 (fun f out => bulk_for sid f -> forall a, out <> Ok (Some a)) fs outs.
Proof.
  induction fs as [|f fs IH]; intros r r' outs sid m Hw Hn E; cbn [run_frames] in E.
  - injection E as <- <-. by split.
  - apply list.Forall_cons in Hn as [Hf Hn]. destruct (handle_frame r f) as [r1 out] eqn:F.
    destruct (run_frames r1 fs) as [r2 outs2] eqn:G. injection E as <- <-.
    destruct (warm_step _ _ _ _ _ _ Hw Hf F) as [Hw1 Ho].
    destruct (IH _ _ _ _ _ Hw1 Hn G) as [Hw2 Hos]. split; [done|by constructor].
Qed.

Lemma cold_run fs : forall r r' outs sid m root,
  cold r sid m root -> Forall (fun f => ~ resyncs sid f) fs -> run_frames r fs = (r', outs) ->
  (cold r' sid m root /\ Forall (fun out => ~ acks sid out) outs)
  \/ exists fs1 b fs2 outs1 outs2,
       fs = fs1 ++ FBulk b :: fs2 /\ k_session b = sid
       /\ outs = outs1 ++ Ok (Some (FAck (mk_ack sid root))) :: outs2
       /\ length outs1 = length fs1 /\ Forall (fun out => ~ acks sid out) outs1
       /\ warm r' sid m
       /\ Forall2 (fun f out => bulk_for sid f -> forall a, out <> Ok (Some a)) fs2 outs2.
Proof.
  induction fs as [|f fs IH]; intros r r' outs sid m root Hc Hn E; cbn [run_frames] in E.
  - injection E as <- <-. by left.
  - apply list.Forall_cons in Hn as [Hf Hn]. destruct (handle_frame r f) as [r1 out] eqn:F.
    destruct (run_frames r1 fs) as [r2 outs2] eqn:G. injection E as <- <-.
    destruct (cold_step _ _ _ _ _ _ _ Hc Hf F) as [[Hc1 Ho]|(Hb & -> & Hw)].
    + destruct (IH _ _ _ _ _ _ Hc1 Hn G) as [[Hc2 Hos]|H].
      * left. split; [done|]. by apply list.Forall_cons.
      * right. destruct H as (fs1 & b & fs2 & o1 & o2 & -> & H2 & -> & H4 & H5 & H6 & H7).
        exists (f :: fs1), b, fs2, (out :: o1), o2. split_and!; try done; [cbn; congruence|].
        by apply list.Forall_cons.
    + right. destruct (warm_run _ _ _ _ _ _ Hw Hn G) as [Hw2 Hos].
      destruct f as [| |b| |]; try done. exists [], b, fs, [], outs2. by split_and!.
Qed.

(** a cold start completes once, and only when it is complete.  After a
    RESYNC with missing content, let any frames follow, of any session and in
    any order, but no further RESYNC of this session.  Either nothing sent back
    has acknowledged the session (so no APPEND of it was accepted), its log is
    still the client's manifest with the client's root, and content is still
    pending; or exactly one BULK frame of the session was answered by the
    acknowledgement of the client's root, nothing before it acknowledged the
    session, every block of the manifest is in the store, and no later BULK of
    the session is answered. *)
Theorem cold_start r q r1 missing fs r2 outs :
  handle_resync r q = (r1, missing) -> missing <> [] ->
  Forall (fun f => ~ resyncs (r_session q) f) fs -> run_frames r1 fs = (r2, outs) ->
  let sid := r_session q in
  (Forall (fun out => ~ acks sid out) outs
   /\ session_ids (rc_store r2) sid = r_manifest q /\ session_root (rc_store r2) sid = r_root q
   /\ ss_pending (session_entry r2 sid) <> ∅)
  \/ exists fs1 b fs2 outs1 outs2,
       fs = fs1 ++ FBulk b :: fs2 /\ k_session b = sid
       /\ outs = outs1 ++ Ok (Some (FAck (mk_ack sid (r_root q)))) :: outs2
       /\ length outs1 = length fs1 /\ Forall (fun out => ~ acks sid out) outs1
       /\ Forall (fun id => store_contains (rc_store r2) id = true) (r_manifest q)
       /\ Forall2 (fun f out => bulk_for sid f -> forall a, out <> Ok (Some a)) fs2 outs2.
Proof.
  intros E Hne Hfs Hrun. cbv zeta. pose proof (cold_after_resync _ _ _ _ E Hne) as Hc.
  destruct (cold_run _ _ _ _ _ _ _ Hc Hfs Hrun) as [[Hc2 Ho]|H].
  - left. destruct Hc2 as (Hlog & st & Hst & Hp & _). unfold session_ids, session_root.
    rewrite Hlog, (session_entry_Some _ _ _ Hst). by split_and!.
  - right. destruct H as (fs1 & b & fs2 & o1 & o2 & H1 & H2 & H3 & H4 & H5 & [_ H6] & H7).
    exists fs1, b, fs2, o1, o2. by split_and!.
Qed.

(** The decoder of a generation outlives a RESYNC: the next BULK of the
    generation goes to it, whatever [k] and [symbol_size] it announces. *)
Lemma resync_keeps_decoders r q :
  ss_decoders (session_entry (fst (handle_resync r q)) (r_session q))
  = ss_decoders (session_entry r (r_session q)).
Proof. unfold session_entry at 1. cbn. by rewrite lookup_insert_eq. Qed.

End Receiver.

(** ** A concrete receiver *)

Module RSample.
(** No compression; a decoder that wants its [k] symbols. *)
#[local] Instance codec : Codec := {|
  decompress := fun l => Some l;
  Decoder := Z * list bytes;
  dec_new := fun k _ => (k, []);
  dec_add := fun d s => ((d.1, d.2 ++ [s]), Ok true);
  dec_decode := fun d => (d, if length_z d.2 <? d.1 then Err (Underdetermined (length d.2) (Z.to_nat d.1)) else Ok d.2)
|}.
Definition h := Sample.h.
Definition b1 := Sample.b1.
Definition b2 := Sample.b2.
Definition id1 := block_id h b1.
Definition id2 := block_id h b2.
Definition wire (b : Block) : FrameBlock := Inline (mk_block (b_kind b) (b_seq b) (canonical_bytes b)).
Definition piece (b : Block) : bytes := encode_symbol (canonical_bytes b).

Definition r0 : Receiver := receiver_new store_new.
Definition append1 : AppendFrame := mk_append 7 ROOT_ZERO [wire b1; wire b2; Ref id1].
Definition after1 : Receiver := fst (handle_append h r0 append1).
Definition root1 : MerkleRoot := session_root (rc_store after1) 7.

Definition resync : ResyncFrame := mk_resync 9 (repeat 3 32) [id2; id1].
Definition bulk (g : Z) (b : Block) : BulkFrame := mk_bulk 9 g 1 64 [piece b].
Definition frames : list Frame := [FBulk (bulk 0 b1); FAppend append1; FBulk (bulk 1 b2); FBulk (bulk 1 b2)].

Definition resynced : Receiver := fst (handle_resync r0 resync).
Definition after_frames : Receiver := fst (run_frames h resynced frames).

(** Two generations out of order; the second completes the cold start, and a
    repeated BULK is not answered. *)
Example cold_start_run :
  snd (run_frames h resynced frames)
  = [Ok None; Ok (Some (FAck (mk_ack 7 root1))); Ok (Some (FAck (mk_ack 9 (repeat 3 32)))); Ok None].
Proof. vm_compute. reflexivity. Qed.
End RSample.

Lemma append_contract_witness :
  exists r', handle_append (codec := RSample.codec) RSample.h RSample.r0 RSample.append1
             = (r', Ok (mk_ack 7 RSample.root1))
    /\ rc_sessions r' !! 8 = rc_sessions RSample.r0 !! 8.
Proof.
  eexists. split; [vm_compute; reflexivity|].
  refine (proj1 (proj1 (proj2 (append_contract (codec := RSample.codec) RSample.h RSample.r0
                   RSample.append1 _ (Ok (mk_ack 7 RSample.root1)) _)) 8 _)); [|done].
  vm_compute. reflexivity.
Defined.

Lemma append_retry_witness :
  handle_append (codec := RSample.codec) RSample.h RSample.after1 RSample.append1
  = (RSample.after1, Ok (mk_ack 7 RSample.root1)).
Proof.
  apply (append_retry (codec := RSample.codec) RSample.h RSample.r0 RSample.append1 RSample.after1
           (mk_ack 7 RSample.root1)
           [RInline RSample.id1 RSample.b1; RInline RSample.id2 RSample.b2; RRef RSample.id1]).
  - vm_compute. reflexivity.
  - vm_compute. reflexivity.
  - right. by_decide.
Defined.

Lemma cold_start_witness :
  Forall (fun id => store_contains (rc_store RSample.after_frames) id = true) [RSample.id2; RSample.id1].
Proof.
  destruct (cold_start (codec := RSample.codec) RSample.h RSample.r0 RSample.resync
    RSample.resynced [RSample.id2; RSample.id1] RSample.frames RSample.after_frames
    [Ok None; Ok (Some (FAck (mk_ack 7 RSample.root1)));
     Ok (Some (FAck (mk_ack 9 (repeat 3 32)))); Ok None]) as [(H & _)|H].
  - vm_compute. reflexivity.
  - discriminate.
  - repeat constructor; simpl; discriminate || (intros []).
  - rewrite <- RSample.cold_start_run. apply surjective_pairing.
  - exfalso. apply list.Forall_cons in H as [_ H]. apply list.Forall_cons in H as [_ H].
    apply list.Forall_cons in H as [H _]. by apply H.
  - destruct H as (fs1 & b & fs2 & o1 & o2 & _ & _ & _ & _ & _ & H & _). exact H.
Defined.
