(* ===== verification/DlrFilter.v ===== *)
(** The cuckoo filter in front of the store
    (src/integrations/dlr/crates/core/src/filter.rs).

    One operation at a time: the locks of the table and its buckets are left
    out.  xxh3 is a parameter; [usize] is 64 bits wide. *)

From Stdlib Require Import Btauto.
From S2P Require Import Prelude DlrCodec.

Definition GOLDEN64 : Z := 0x9E3779B97F4A7C15.
Definition SLOTS : nat := 4.
Definition KICKS : nat := 500.
Definition MAX_BITS : Z := 24.

Abbreviation Fp := Z (only parsing).
Abbreviation Bucket := (list Z) (only parsing).
Definition bucket_empty : Bucket := repeat 0 SLOTS.

Record CuckooFilter := mk_filter {
  cf_buckets : list Bucket;
  cf_mask : Z;
  cf_count : Z;
  cf_saturated : bool
}.

(** [usize::next_power_of_two]. *)
Definition next_power_of_two (n : Z) : Z := 2 ^ Z.log2_up n.

Definition with_capacity (cap : Z) : CuckooFilter :=
  let nbuckets := Z.max (next_power_of_two (cap / Z.of_nat SLOTS)) 4 in
  mk_filter (repeat bucket_empty (Z.to_nat nbuckets)) (nbuckets - 1) 0 false.

Definition bucket_at (f : CuckooFilter) (i : Z) : Bucket := nth (Z.to_nat i) (cf_buckets f) [].
Definition set_bucket (f : CuckooFilter) (i : Z) (b : Bucket) : CuckooFilter :=
  mk_filter (<[Z.to_nat i := b]> (cf_buckets f)) (cf_mask f) (cf_count f) (cf_saturated f).

(** Store in the first empty slot. *)
Fixpoint place (b : Bucket) (fp : Fp) : option Bucket :=
  match b with
  | [] => None
  | x :: b' => if x =? 0 then Some (fp :: b')
               else match place b' fp with Some b'' => Some (x :: b'') | None => None end
  end.

Definition bump (f : CuckooFilter) : CuckooFilter :=
  mk_filter (cf_buckets f) (cf_mask f) (wrap 64 (cf_count f + 1)) (cf_saturated f).
Definition saturate (f : CuckooFilter) : CuckooFilter :=
  mk_filter (cf_buckets f) (cf_mask f) (cf_count f) true.

Definition filter_clear (f : CuckooFilter) : CuckooFilter :=
  mk_filter (map (fun _ => bucket_empty) (cf_buckets f)) (cf_mask f) 0 false.

Definition alt_index (mask i : Z) (fp : Fp) : Z :=
  let delta := wrap 64 (fp * GOLDEN64) in Z.land (Z.lxor i delta) mask.

Section Filter.
Variable xxh3 : bytes -> Z.

Definition fp_of (id : bytes) : Fp := Z.max (wrap 16 (xxh3 id)) 1.
Definition indices (f : CuckooFilter) (id : bytes) : Z * Fp :=
  (Z.land (wrap 64 (xxh3 id)) (cf_mask f), fp_of id).

(** The eviction loop: the bucket takes [fp], or gives up the slot [fp]
    chooses and the evicted fingerprint goes on to its other bucket. *)
Fixpoint kick (fuel : nat) (f : CuckooFilter) (i : Z) (fp : Fp) : CuckooFilter * bool :=
  match fuel with
  | O => (f, false)
  | S fuel' =>
      let b := bucket_at f i in
      match place b fp with
      | Some b' => (bump (set_bucket f i b'), true)
      | None =>
          let s := Z.to_nat (fp mod Z.of_nat SLOTS) in
          let fp' := nth s b 0 in
          kick fuel' (set_bucket f i (<[s := fp]> b)) (alt_index (cf_mask f) i fp') fp'
      end
  end.

(** One fingerprint rehashed into the doubled table. *)
Definition regrow (n : Z) (buckets : list Bucket) (fp : Fp) : list Bucket :=
  let i1 := Z.land (wrap 64 (xxh3 (le_bytes 2 fp))) (n - 1) in
  let b1 := nth (Z.to_nat i1) buckets [] in
  let b1' := default b1 (place b1 fp) in
  let buckets := <[Z.to_nat i1 := b1']> buckets in
  if existsb (Z.eqb fp) b1' then buckets
  else
    let delta := Z.land (wrap 64 (fp * GOLDEN64)) (n - 1) in
    let i2 := Z.land (Z.lxor i1 delta) (n - 1) in
    let b2 := nth (Z.to_nat i2) buckets [] in
    <[Z.to_nat i2 := default b2 (place b2 fp)]> buckets.

Definition grow (f : CuckooFilter) : CuckooFilter * bool :=
  let cur := length_z (cf_buckets f) in
  if (cur =? 0) || (2 ^ MAX_BITS <=? cur) then (f, false)
  else
    let fps := List.filter (fun fp => negb (fp =? 0)) (concat (cf_buckets f)) in
    let n := cur * 2 in
    let buckets := fold_left (regrow n) fps (repeat bucket_empty (Z.to_nat n)) in
    (mk_filter buckets (n - 1) (cf_count f) (cf_saturated f), true).

Definition filter_insert (f : CuckooFilter) (id : bytes) : CuckooFilter * bool :=
  if cf_saturated f then (f, false)
  else
    let '(i, fp) := indices f id in
    match kick KICKS f i fp with
    | (f, true) => (f, true)
    | (f, false) =>
        match grow f with
        | (f, true) =>
            let '(i2, fp2) := indices f id in
            match place (bucket_at f i2) fp2 with
            | Some b => (bump (set_bucket f i2 b), true)
            | None => (saturate f, false)
            end
        | (f, false) => (saturate f, false)
        end
    end.

Definition filter_contains (f : CuckooFilter) (id : bytes) : bool :=
  if cf_saturated f then true
  else
    let '(i1, fp) := indices f id in
    let i2 := alt_index (cf_mask f) i1 fp in
    existsb (Z.eqb fp) (bucket_at f i1) || existsb (Z.eqb fp) (bucket_at f i2).

Definition filter_len (f : CuckooFilter) : Z := cf_count f.
Definition filter_capacity (f : CuckooFilter) : Z := length_z (cf_buckets f) * Z.of_nat SLOTS.

(** ** The table *)

(** A power of two of four-slot buckets, and its mask. *)
Definition table_ok (f : CuckooFilter) : Prop :=
  (exists b, 0 <= b <= 64 /\ length_z (cf_buckets f) = 2 ^ b) /\ cf_mask f = length_z (cf_buckets f) - 1
  /\ Forall (fun b => length b = SLOTS) (cf_buckets f).

Lemma with_capacity_ok cap : 0 <= cap < 2 ^ 63 -> table_ok (with_capacity cap).
Proof.
  intros Hc. unfold with_capacity, table_ok, next_power_of_two. cbn [cf_buckets cf_mask].
  set (l := Z.log2_up (cap / Z.of_nat SLOTS)).
  assert (0 <= l <= 63) as Hl.
  { unfold l, SLOTS. split; [apply Z.log2_up_nonneg|].
    change 63 with (Z.log2_up (2 ^ 63)). apply Z.log2_up_le_mono. change (Z.of_nat 4) with 4. zlia. }
  unfold length_z. rewrite repeat_length.
  assert (0 < 2 ^ l) by (apply Z.pow_pos_nonneg; lia). rewrite Z2Nat.id by lia. split_and!.
  - destruct (Z.max_spec (2 ^ l) 4) as [[H1 ->]|[H1 ->]]; [exists 2; by split; [lia|]|].
    exists l. split; [lia|done].
  - done.
  - apply List.Forall_forall. by intros x ->%repeat_spec.
Qed.

Lemma land_mask x b : 0 <= b -> 0 <= Z.land x (2 ^ b - 1) < 2 ^ b.
Proof.
  intros Hb. replace (2 ^ b - 1) with (Z.ones b) by (rewrite Z.ones_equiv; lia).
  rewrite Z.land_ones by done. apply Z.mod_pos_bound, Z.pow_pos_nonneg; lia.
Qed.

Lemma index_in_range f x :
  table_ok f -> (Z.to_nat (Z.land x (cf_mask f)) < length (cf_buckets f))%nat.
Proof.
  intros ((b & Hb & E) & Em & _). rewrite Em. unfold length_z in *. rewrite E.
  pose proof (land_mask x b ltac:(lia)). lia.
Qed.

(** The other bucket of the other bucket is the bucket. *)
Lemma alt_involutive mask i fp :
  Z.land i mask = i -> alt_index mask (alt_index mask i fp) fp = i.
Proof.
  intros Hi. unfold alt_index. rewrite <- Hi at 2. apply Z.bits_inj'. intros n _.
  rewrite !Z.land_spec, !Z.lxor_spec, !Z.land_spec, !Z.lxor_spec. btauto.
Qed.

Lemma land_idem x m : Z.land (Z.land x m) m = Z.land x m.
Proof. by rewrite <- Z.land_assoc, Z.land_diag. Qed.

(** ** Fingerprints stay in their buckets *)

(** Fingerprint [g] is in bucket [j] or in its other bucket. *)
Definition held (f : CuckooFilter) (j : Z) (g : Fp) : Prop :=
  g ∈ bucket_at f j \/ g ∈ bucket_at f (alt_index (cf_mask f) j g).

Lemma contains_held f id :
  filter_contains f id = true
  <-> cf_saturated f = true \/ held f (fst (indices f id)) (snd (indices f id)).
Proof.
  unfold filter_contains, held. destruct (indices f id) as [i fp]. cbn [fst snd].
  destruct (cf_saturated f); [naive_solver|].
  rewrite orb_true_iff, !existsb_exists. setoid_rewrite Z.eqb_eq. setoid_rewrite list_elem_of_In.
  naive_solver.
Qed.

Lemma place_spec b fp b' :
  place b fp = Some b' ->
  length b' = length b /\ fp ∈ b' /\ forall g, g <> 0 -> g ∈ b -> g ∈ b'.
Proof.
  revert b'. induction b as [|x b IH]; [done|]. intros b'. cbn [place]. destruct (Z.eqb_spec x 0) as [->|Hx].
  - intros [= <-]. cbn. split_and!; [done|set_solver|set_solver].
  - destruct (place b fp) as [b''|]; [|done]. intros [= <-].
    destruct (IH _ eq_refl) as (L & Hin & Hk). cbn. split_and!; [lia|set_solver|set_solver].
Qed.

Lemma insert_slot (b : Bucket) s (fp g : Fp) :
  (s < length b)%nat -> g ∈ b -> g ∈ <[s := fp]> b \/ g = nth s b 0.
Proof.
  intros Hs (k & Hk)%list_elem_of_lookup. destruct (decide (k = s)) as [->|Hn].
  - right. symmetry. by apply nth_lookup_Some.
  - left. apply list_elem_of_lookup. exists k. by rewrite list_lookup_insert_ne.
Qed.

Definition masked (f : CuckooFilter) (i : Z) : Prop := Z.land i (cf_mask f) = i.

Lemma masked_range f i :
  table_ok f -> masked f i -> 0 <= i /\ (Z.to_nat i < length (cf_buckets f))%nat.
Proof.
  intros Ht Hm. rewrite <- Hm at 2. split; [|by apply index_in_range].
  destruct Ht as ((b & Hb & E) & Em & _). unfold masked in Hm. rewrite <- Hm, Em, E.
  pose proof (land_mask i b ltac:(lia)). lia.
Qed.

Lemma alt_masked f i g : masked f (alt_index (cf_mask f) i g).
Proof. unfold masked, alt_index. apply land_idem. Qed.

Lemma alt_masked_set f i b j g : masked (set_bucket f i b) (alt_index (cf_mask f) j g).
Proof. exact (alt_masked f j g). Qed.

Lemma table_ok_set f i b : table_ok f -> length b = SLOTS -> table_ok (set_bucket f i b).
Proof.
  intros ((k & Hk & E) & Em & Hall) Hb. unfold table_ok, set_bucket, length_z in *. cbn [cf_buckets cf_mask].
  rewrite length_insert. split_and!; [by exists k|done|]. by apply Forall_insert.
Qed.

Lemma bucket_at_set f i j b :
  table_ok f -> masked f i -> masked f j ->
  bucket_at (set_bucket f i b) j = if decide (i = j) then b else bucket_at f j.
Proof.
  intros Ht Hi Hj. destruct (masked_range f i Ht Hi), (masked_range f j Ht Hj).
  unfold bucket_at, set_bucket. cbn [cf_buckets]. rewrite !nth_lookup. case_decide as Hd.
  - subst. by rewrite list_lookup_insert_eq.
  - rewrite list_lookup_insert_ne; [done|lia].
Qed.

Lemma bucket_at_length f i : table_ok f -> masked f i -> length (bucket_at f i) = SLOTS.
Proof.
  intros Ht Hi. destruct (masked_range f i Ht Hi) as [_ Hr]. destruct Ht as (_ & _ & Hall).
  unfold bucket_at. by apply List.Forall_nth.
Qed.

(** Replacing a bucket keeps what the new bucket keeps. *)
Lemma held_set f i b j g :
  table_ok f -> masked f i -> masked f j ->
  (g ∈ bucket_at f i -> g ∈ b) -> held f j g -> held (set_bucket f i b) j g.
Proof.
  intros Ht Hi Hj Hk. pose proof (alt_masked f j g) as Ha. unfold held.
  change (cf_mask (set_bucket f i b)) with (cf_mask f).
  rewrite !bucket_at_set by done. intros [H|H]; [left|right]; case_decide; subst; auto.
Qed.

(** The bucket of [fp] the kick loop is at. *)
Definition home (f : CuckooFilter) (i : Z) (j : Z) (g : Fp) : Prop :=
  i = j \/ i = alt_index (cf_mask f) j g.

Lemma home_alt f i j g :
  masked f j -> home f i j g -> home f (alt_index (cf_mask f) i g) j g.
Proof. intros Hj [->| ->]; [by right|left; by apply alt_involutive]. Qed.

Lemma held_new f i b j g :
  table_ok f -> masked f i -> masked f j -> home f i j g -> g ∈ b -> held (set_bucket f i b) j g.
Proof.
  intros Ht Hi Hj Hh Hg. unfold held. change (cf_mask (set_bucket f i b)) with (cf_mask f).
  pose proof (alt_masked f j g). rewrite !bucket_at_set by done.
  destruct Hh as [->| ->]; [left|right]; by rewrite decide_True.
Qed.

Lemma kick_table fuel f i fp f' ok :
  table_ok f -> masked f i -> kick fuel f i fp = (f', ok) ->
  table_ok f' /\ cf_mask f' = cf_mask f /\ cf_saturated f' = cf_saturated f.
Proof.
  revert f i fp. induction fuel as [|n IH]; intros f i fp Ht Hi; cbn [kick]; [by intros [= <- <-]|].
  pose proof (bucket_at_length f i Ht Hi) as Hl. destruct (place _ _) as [b'|] eqn:Hp.
  - intros [= <- <-]. destruct (place_spec _ _ _ Hp) as (Hl' & _).
    split; [|done]. apply (table_ok_set f i b'); [done|lia].
  - intros Hk. apply IH in Hk; [done| |apply alt_masked_set].
    apply table_ok_set; [done|]. by rewrite length_insert.
Qed.

(** A kick that ends well leaves every fingerprint that was held, and the one
    it carried, in one of its two buckets. *)
Lemma kick_holds fuel f i fp f' j g :
  table_ok f -> masked f i -> masked f j -> g <> 0 ->
  kick fuel f i fp = (f', true) -> held f j g \/ (g = fp /\ home f i j g) -> held f' j g.
Proof.
  revert f i fp. induction fuel as [|n IH]; intros f i fp Ht Hi Hj Hg; cbn [kick]; [done|].
  pose proof (bucket_at_length f i Ht Hi) as Hl. destruct (place _ _) as [b'|] eqn:Hp.
  - intros [= <-] Hor. destruct (place_spec _ _ _ Hp) as (_ & Hin & Hk).
    change (held (set_bucket f i b') j g).
    destruct Hor as [Hh|[-> Hh]]; [apply held_set; auto|by apply held_new].
  - set (s := Z.to_nat (fp mod Z.of_nat SLOTS)). remember (nth s (bucket_at f i) 0) as fp' eqn:Efp.
    set (b1 := <[s := fp]> (bucket_at f i)).
    assert (s < length (bucket_at f i))%nat as Hs.
    { rewrite Hl. unfold s. pose proof (Z.mod_pos_bound fp (Z.of_nat SLOTS)).
      unfold SLOTS in *. lia. }
    assert (fp ∈ b1) as Hfp.
    { apply list_elem_of_lookup. exists s. by apply list_lookup_insert_eq. }
    intros Hk Hor. eapply IH; [| | | |exact Hk|]; [|apply alt_masked_set|done|done|].
    { apply table_ok_set; [done|]. unfold b1. by rewrite length_insert. }
    destruct Hor as [Hh|[-> Hh]]; [|left; by apply held_new].
    destruct (decide (g = fp')) as [Eg|Hne].
    + rewrite Eg in *. clear Eg. destruct Hh as [Hh|Hh].
      * destruct (decide (i = j)) as [->|Hij]; [right; split; [done|]; by right|].
        left. left. by rewrite bucket_at_set, decide_False by done.
      * pose proof (alt_masked f j fp') as Ha.
        destruct (decide (i = alt_index (cf_mask f) j fp')) as [->|Hij].
        -- right. split; [done|]. left. by apply alt_involutive.
        -- left. right. change (cf_mask (set_bucket f i b1)) with (cf_mask f).
           by rewrite bucket_at_set, decide_False by done.
    + left. apply held_set; auto. intros Hb.
      destruct (insert_slot _ s fp g Hs Hb) as [?|Hg']; [done|].
      exfalso. apply Hne. by rewrite Hg', Efp.
Qed.

Lemma indices_masked f id : masked f (fst (indices f id)).
Proof. apply land_idem. Qed.

Lemma fp_of_pos id : fp_of id <> 0.
Proof. unfold fp_of. lia. Qed.

Lemma table_ok_same_buckets f g :
  cf_buckets g = cf_buckets f -> cf_mask g = cf_mask f -> table_ok f -> table_ok g.
Proof. unfold table_ok. by intros -> ->. Qed.

Lemma regrow_shape n bs fp :
  Forall (fun b => length b = SLOTS) bs ->
  length (regrow n bs fp) = length bs /\ Forall (fun b => length b = SLOTS) (regrow n bs fp).
Proof.
  assert (forall i (l : list Bucket), Forall (fun b => length b = SLOTS) l ->
    Forall (fun b => length b = SLOTS) (<[i := default (nth i l []) (place (nth i l []) fp)]> l)) as Hput.
  { intros i l Hl. destruct (decide (i < length l)%nat) as [Hi|Hi].
    - apply Forall_insert; [done|].
      pose proof (proj1 (List.Forall_nth _ _) Hl i [] Hi) as Hn.
      destruct (place _ _) as [b|] eqn:E; cbn; [|done].
      by destruct (place_spec _ _ _ E) as [-> _].
    - rewrite list_insert_ge by lia. done. }
  intros Hbs. unfold regrow. cbv zeta. case_match.
  - split; [apply length_insert|by apply Hput].
  - rewrite !length_insert. split; [done|]. by apply Hput, Hput.
Qed.

Lemma grow_table f f' :
  table_ok f -> grow f = (f', true) ->
  table_ok f' /\ cf_mask f < cf_mask f' /\ cf_saturated f' = cf_saturated f.
Proof.
  intros ((b & Hb & E) & Em & _). unfold grow. case_match; [done|]. intros [= <-].
  apply orb_false_iff in H as [_ Hmax%Z.leb_gt]. rewrite E in *.
  assert (0 < 2 ^ b) as Hp by (apply Z.pow_pos_nonneg; lia).
  assert (2 ^ b * 2 = 2 ^ (b + 1)) as En by (rewrite Z.pow_add_r by lia; lia).
  assert (b < 24) by (apply (Z.pow_lt_mono_r_iff 2); unfold MAX_BITS in Hmax; lia).
  match goal with |- context [fold_left _ ?l _] => set (fps := l) end.
  assert (forall l bs, Forall (fun b => length b = SLOTS) bs ->
    length (fold_left (regrow (2 ^ b * 2)) l bs) = length bs
    /\ Forall (fun b => length b = SLOTS) (fold_left (regrow (2 ^ b * 2)) l bs)) as Hf.
  { induction l as [|x l IH]; [done|]. intros bs Hbs. cbn [fold_left].
    destruct (regrow_shape (2 ^ b * 2) bs x Hbs) as [Hl Hall]. by destruct (IH _ Hall) as [-> ?]. }
  destruct (Hf fps (repeat bucket_empty (Z.to_nat (2 ^ b * 2)))) as [Hl Hall].
  { apply List.Forall_forall. by intros x ->%repeat_spec. }
  rewrite repeat_length in Hl. unfold table_ok, length_z. cbn [cf_buckets cf_mask cf_saturated].
  rewrite Hl, Z2Nat.id by lia. rewrite Em. split_and!; [exists (b + 1); lia|done|done|lia|done].
Qed.

(** One insertion: the table stays well-formed and never narrows; as long as
    it has not grown nothing it answered for is forgotten, and the identifier
    is answered for from then on. *)
Lemma filter_insert_spec f id f' r :
  table_ok f -> filter_insert f id = (f', r) ->
  table_ok f' /\ cf_mask f <= cf_mask f'
  /\ (cf_mask f' = cf_mask f ->
      filter_contains f' id = true
      /\ forall id', filter_contains f id' = true -> filter_contains f' id' = true).
Proof.
  intros Ht. unfold filter_insert. destruct (cf_saturated f) eqn:Es.
  { intros [= <- <-]. split_and!; [done|lia|]. intros _. split; [|done].
    unfold filter_contains. by rewrite Es. }
  destruct (indices f id) as [i fp] eqn:Ei.
  pose proof (indices_masked f id) as Hm. rewrite Ei in Hm. cbn [fst] in Hm.
  destruct (kick KICKS f i fp) as [f1 ok] eqn:Hk.
  destruct (kick_table _ _ _ _ _ _ Ht Hm Hk) as (Ht1 & Em1 & Es1). destruct ok.
  - intros [= <- <-]. split_and!; [done|lia|]. intros _.
    assert (forall x, indices f1 x = indices f x) as Hi by (intros x; unfold indices; by rewrite Em1).
    split; [|intros id'; rewrite contains_held; intros [?|Hh]; [congruence|]];
      apply contains_held; right; rewrite Hi;
      (eapply (kick_holds KICKS f); [done|exact Hm|apply indices_masked|apply fp_of_pos|exact Hk|]);
      [|by left].
    right. rewrite Ei. split; [done|by left].
  - assert (forall g, cf_saturated g = true -> forall x, filter_contains g x = true) as Hsat
      by (intros g Hg x; unfold filter_contains; by rewrite Hg).
    destruct (grow f1) as [f2 grown] eqn:Hg. destruct grown.
    + destruct (grow_table _ _ Ht1 Hg) as (Ht2 & Hlt & _). destruct (indices f2 id) as [i2 fp2] eqn:E2.
      pose proof (indices_masked f2 id) as Hm2. rewrite E2 in Hm2. cbn [fst] in Hm2.
      destruct (place _ _) as [b|] eqn:Hp; intros [= <- <-].
      * destruct (place_spec _ _ _ Hp) as (Hl & _).
        rewrite (bucket_at_length _ _ Ht2 Hm2) in Hl.
        pose proof (table_ok_set f2 i2 b Ht2 Hl) as Ht3.
        change (cf_mask (bump (set_bucket f2 i2 b))) with (cf_mask f2).
        split_and!; [exact Ht3|lia|lia].
      * change (cf_mask (saturate f2)) with (cf_mask f2).
        split_and!; [by apply (table_ok_same_buckets f2)|lia|lia].
    + assert (f2 = f1) as -> by (unfold grow in Hg; case_match; congruence).
      intros [= <- <-]. change (cf_mask (saturate f1)) with (cf_mask f1).
      split_and!; [by apply (table_ok_same_buckets f1)|lia|]. intros _. split; [|intros ? _]; by apply Hsat.
Qed.

Definition insert_all (f : CuckooFilter) (ids : list bytes) : CuckooFilter :=
  fold_left (fun f id => fst (filter_insert f id)) ids f.

Lemma insert_all_spec ids f :
  table_ok f ->
  table_ok (insert_all f ids) /\ cf_mask f <= cf_mask (insert_all f ids)
  /\ (cf_mask (insert_all f ids) = cf_mask f ->
      Forall (fun id => filter_contains (insert_all f ids) id = true) ids
      /\ forall id', filter_contains f id' = true -> filter_contains (insert_all f ids) id' = true).
Proof.
  revert f. induction ids as [|id ids IH]; intros f Ht; [by split_and!|].
  change (insert_all f (id :: ids)) with (insert_all (fst (filter_insert f id)) ids).
  destruct (filter_insert f id) as [f1 r] eqn:E. cbn [fst].
  destruct (filter_insert_spec _ _ _ _ Ht E) as (Ht1 & Hle & Hc).
  destruct (IH _ Ht1) as (Ht2 & Hle2 & Hc2). split_and!; [done|lia|]. intros Em.
  destruct Hc2 as [Hall Hkeep]; [lia|]. destruct Hc as [Hid Hold]; [lia|].
  split; [constructor; auto|auto].
Qed.

(** as long as the table has not grown, the filter has no false negative:
    every identifier ever offered to [insert] since the filter was made,
    whatever it returned and however many evictions followed, is one
    [contains] answers "maybe present" for; the table stays a power of two of
    four-slot buckets with the mask of its width. *)
Theorem no_false_negatives cap ids :
  0 <= cap < 2 ^ 63 ->
  table_ok (insert_all (with_capacity cap) ids)
  /\ (cf_mask (insert_all (with_capacity cap) ids) = cf_mask (with_capacity cap) ->
      Forall (fun id => filter_contains (insert_all (with_capacity cap) ids) id = true) ids).
Proof.
  intros Hc. destruct (insert_all_spec ids _ (with_capacity_ok cap Hc)) as (Ht & _ & H).
  split; [done|]. intros Em. by destruct (H Em).
Qed.

(** After [clear] nothing is held, and the table is as wide as before. *)
Lemma clear_spec f id :
  table_ok f -> table_ok (filter_clear f) /\ filter_contains (filter_clear f) id = false
                /\ filter_capacity (filter_clear f) = filter_capacity f.
Proof.
  intros ((b & Hb & E) & Em & Hall). unfold table_ok, filter_capacity, length_z in *. cbn [filter_clear cf_buckets cf_mask].
  rewrite length_map. split; [split; [by exists b|split; [done|]]|split; [|done]].
  - apply List.Forall_forall. by intros x (? & <- & _)%in_map_iff.
  - pose proof (fp_of_pos id). unfold filter_contains. cbn [filter_clear cf_saturated cf_mask].
    unfold indices. cbn [cf_mask]. set (i1 := Z.land _ _). set (i2 := alt_index _ _ _).
    assert (forall i, existsb (Z.eqb (fp_of id)) (bucket_at (filter_clear f) i) = false) as He.
    { intros i. unfold bucket_at. cbn [filter_clear cf_buckets]. rewrite nth_lookup, list_lookup_fmap.
      apply not_true_is_false. intros (x & Hx & Hx')%existsb_exists. apply Z.eqb_eq in Hx'. subst x.
      destruct (cf_buckets f !! Z.to_nat i); cbn in Hx; naive_solver. }
    by rewrite !He.
Qed.
End Filter.

(** ** A grown table *)
Module Grown.
Definition le_id (n : nat) : bytes := le_bytes 8 (Z.of_nat n * 65).
Definition hash (b : bytes) : Z := wrap 64 (le_val b).
Definition ids : list bytes := map le_id (seq 1 16).
Definition table : CuckooFilter := insert_all hash (with_capacity 16) ids.
End Grown.

Theorem no_false_negatives_witness :
  cf_count Grown.table = 16
  /\ Forall (fun id => filter_contains Grown.hash Grown.table id = true) Grown.ids.
Proof.
  split; [vm_compute; reflexivity|].
  apply (proj2 (no_false_negatives Grown.hash 16 Grown.ids ltac:(split; [discriminate|reflexivity]))).
  vm_compute. reflexivity.
Defined.

(** growing loses entries.  [grow] places a fingerprint by the hash of its
    own two bytes, [contains] looks for it under the hash of the identifier:
    after the insertion that doubles a full table, which reports success, an
    identifier the filter answered "maybe present" for is answered
    "definitely not present", and the filter does not count as saturated. *)
Theorem grow_loses_entries :
  let '(grown, inserted) := filter_insert Grown.hash Grown.table (Grown.le_id 17) in
  inserted = true
  /\ cf_saturated grown = false
  /\ filter_contains Grown.hash Grown.table (Grown.le_id 8) = true
  /\ filter_contains Grown.hash grown (Grown.le_id 8) = false
  /\ filter_len grown = 17 /\ filter_capacity grown = 2 * filter_capacity Grown.table.
Proof. vm_compute. repeat split; reflexivity. Qed.
