(* ===== verification/DlrCompress.v ===== *)
(** Block compression (src/integrations/dlr/crates/compress/src/lib.rs and
    delta.rs).

    zstd is a parameter: a context is made from a level or a dictionary and
    run on bytes.  The thread-local contexts are an explicit state, one per
    thread.  [usize] is 64 bits wide; strings of errors are those of zstd. *)

From S2P Require Import Prelude DlrCodec.

(** ** zstd *)

Class Zstd := {
  ZEnc : Type;
  ZDec : Type;
  (** [bulk::Compressor::new] and [with_dictionary]. *)
  enc_make : Z -> option bytes -> res str ZEnc;
  dec_make : option bytes -> res str ZDec;
  enc_run : ZEnc -> bytes -> res str bytes;
  dec_run : ZDec -> bytes -> Z -> res str bytes;
  (** [get_frame_content_size]: [None] for no size and for an error. *)
  frame_content_size : bytes -> option Z
}.

(** A frame written with a dictionary, at any level, names its content's size
    and is read back with that dictionary into a buffer of that size. *)
Class ZstdLaws `(Zstd) : Prop := {
  zstd_size : forall l d e x z,
    length_z x < 2 ^ 64 ->
    enc_make l d = Ok e -> enc_run e x = Ok z -> frame_content_size z = Some (length_z x);
  zstd_bytes : forall e x z, bytes_ok x -> enc_run e x = Ok z -> bytes_ok z;
  zstd_round_trip : forall l d e dd x z,
    enc_make l d = Ok e -> dec_make d = Ok dd -> enc_run e x = Ok z ->
    dec_run dd z (length_z x) = Ok x
}.

Inductive CompressError :=
| Encode (e : str)
| Decode (e : str)
| DictId (expected got : Z).

Record Dict := mk_dict { d_id : Z; d_content : bytes }.
Definition dict_empty : Dict := mk_dict 0 [].
Definition dict_is_empty (d : Dict) : bool := is_nil (d_content d).
(** What a context is built from. *)
Definition dict_arg (d : Dict) : option bytes := if dict_is_empty d then None else Some (d_content d).

Record Compressor := mk_compressor { c_dict : Dict; c_level : Z; c_min_block : Z }.
Definition compressor_new (dict : Dict) (level : Z) : Compressor := mk_compressor dict level 32.
Definition compressor_default : Compressor := compressor_new dict_empty 19.
Definition set_dict (c : Compressor) (d : Dict) : Compressor := mk_compressor d (c_level c) (c_min_block c).
Definition with_level (c : Compressor) (level : Z) : Compressor :=
  mk_compressor (c_dict c) level (c_min_block c).

Section Compression.
Context {zstd : Zstd}.

(** The cached contexts of a thread, with the keys they were built under. *)
Record Thread := mk_thread { t_enc : option (Z * Z * ZEnc); t_dec : option (Z * ZDec) }.
Definition thread_new : Thread := mk_thread None None.

Definition map_err {E F A} (f : E -> F) (r : res E A) : res F A :=
  match r with Ok a => Ok a | Err e => Err (f e) | Panic => Panic end.

(** [ENC.with]: the cached encoder, rebuilt when its key is another. *)
Definition cached_enc (c : Compressor) (t : Thread) : Thread * res CompressError ZEnc :=
  let build :=
    match enc_make (c_level c) (dict_arg (c_dict c)) with
    | Ok e => (mk_thread (Some (c_level c, d_id (c_dict c), e)) (t_dec t), Ok e)
    | Err m => (t, Err (Encode m))
    | Panic => (t, Panic)
    end in
  match t_enc t with
  | Some (l, d, e) =>
      if negb (l =? c_level c) || negb (d =? d_id (c_dict c)) then build else (t, Ok e)
  | None => build
  end.

Definition cached_dec (c : Compressor) (t : Thread) : Thread * res CompressError ZDec :=
  let build :=
    match dec_make (dict_arg (c_dict c)) with
    | Ok e => (mk_thread (t_enc t) (Some (d_id (c_dict c), e)), Ok e)
    | Err m => (t, Err (Decode m))
    | Panic => (t, Panic)
    end in
  match t_dec t with
  | Some (d, e) => if negb (d =? d_id (c_dict c)) then build else (t, Ok e)
  | None => build
  end.

Definition raw (input : bytes) : bytes := 0 :: input.

Definition compress (c : Compressor) (t : Thread) (input : bytes) : Thread * res CompressError bytes :=
  if length_z input <? c_min_block c then (t, Ok (raw input))
  else
    let '(t, enc) := cached_enc c t in
    (t, let? enc := enc in
        let? compressed := map_err Encode (enc_run enc input) in
        if length_z input <=? length_z compressed + 1 then Ok (raw input)
        else Ok (1 :: compressed)).

(** The size of the output buffer. *)
Definition output_cap (body : bytes) : Z :=
  match frame_content_size body with
  | Some s => s
  | None => wrap 64 (Z.min (length_z body * 64) (umax 64) + 2 ^ 20)
  end.

Definition decompress (c : Compressor) (t : Thread) (input : bytes) : Thread * res CompressError bytes :=
  match input with
  | [] => (t, Err (Decode (lit "empty input")))
  | 0 :: body => (t, Ok body)
  | 1 :: body =>
      let '(t, dd) := cached_dec c t in
      (t, let? dd := dd in map_err Decode (dec_run dd body (output_cap body)))
  | other :: _ => (t, Err (Decode (lit "unknown marker")))
  end.

(** ** Properties *)

(** A thread's contexts were built from the contents their keys name. *)
Definition thread_ok (names : Z -> bytes) (t : Thread) : Prop :=
  match t_enc t with
  | Some (l, d, e) => enc_make l (dict_arg (mk_dict d (names d))) = Ok e
  | None => True
  end /\
  match t_dec t with
  | Some (d, e) => dec_make (dict_arg (mk_dict d (names d))) = Ok e
  | None => True
  end.

(** The dictionary has the content its identifier names. *)
Definition named (names : Z -> bytes) (c : Compressor) : Prop := d_content (c_dict c) = names (d_id (c_dict c)).

Lemma thread_new_ok names : thread_ok names thread_new.
Proof. by split. Qed.

Lemma dict_arg_named names c :
  named names c -> dict_arg (mk_dict (d_id (c_dict c)) (names (d_id (c_dict c)))) = dict_arg (c_dict c).
Proof. unfold named, dict_arg, dict_is_empty. cbn. by intros ->. Qed.

Lemma cached_enc_ok names c t t' r :
  named names c -> thread_ok names t -> cached_enc c t = (t', r) ->
  thread_ok names t' /\ forall e, r = Ok e -> enc_make (c_level c) (dict_arg (c_dict c)) = Ok e.
Proof.
  intros Hn Ht. pose proof (dict_arg_named _ _ Hn) as Ha. unfold cached_enc, thread_ok in *.
  destruct Ht as [He Hd], t as [[[[l d] e]|] td]; cbv zeta; cbn [t_enc t_dec] in *.
  - destruct (negb (l =? c_level c) || negb (d =? d_id (c_dict c))) eqn:Hk.
    + destruct (enc_make (c_level c) (dict_arg (c_dict c))) eqn:Hb; cbn; intros [= <- <-]; (split; [|naive_solver]); split; cbn; congruence.
    + apply orb_false_iff in Hk as [->%negb_false_iff%Z.eqb_eq ->%negb_false_iff%Z.eqb_eq].
      intros [= <- <-]. split; [by split|]. intros e' [= <-]. by rewrite <- Ha.
  - destruct (enc_make (c_level c) (dict_arg (c_dict c))) eqn:Hb; cbn; intros [= <- <-]; (split; [|naive_solver]); split; cbn; congruence.
Qed.

Lemma cached_dec_ok names c t t' r :
  named names c -> thread_ok names t -> cached_dec c t = (t', r) ->
  thread_ok names t' /\ (forall e, r = Ok e -> dec_make (dict_arg (c_dict c)) = Ok e)
  /\ forall m, r = Err m -> exists s, dec_make (dict_arg (c_dict c)) = Err s /\ m = Decode s.
Proof.
  intros Hn Ht. pose proof (dict_arg_named _ _ Hn) as Ha. unfold cached_dec, thread_ok in *.
  destruct Ht as [He Hd], t as [te [[d e]|]]; cbv zeta; cbn [t_enc t_dec] in *.
  - destruct (negb (d =? d_id (c_dict c))) eqn:Hk.
    + destruct (dec_make (dict_arg (c_dict c))) eqn:Hb; cbn; intros [= <- <-]; (split; [|naive_solver]); split; cbn; congruence.
    + apply negb_false_iff, Z.eqb_eq in Hk as ->.
      intros [= <- <-]. split; [by split|]. split; [|done]. intros e' [= <-]. by rewrite <- Ha.
  - destruct (dec_make (dict_arg (c_dict c))) eqn:Hb; cbn; intros [= <- <-]; (split; [|naive_solver]); split; cbn; congruence.
Qed.

(** Compressing adds at most the marker byte, and says what it wrote. *)
Lemma compress_output c t input t' z :
  compress c t input = (t', Ok z) ->
  (z = raw input)
  \/ exists t1 e body, cached_enc c t = (t1, Ok e) /\ t' = t1 /\ enc_run e input = Ok body
                      /\ z = 1 :: body /\ length_z z < length_z input.
Proof.
  unfold compress. case_match; [intros [= <- <-]; by left|].
  destruct (cached_enc c t) as [t1 [e|m|]]; cbn [res_bind]; [|done|done].
  destruct (enc_run e input) as [body|m|] eqn:Hr; cbn [map_err res_bind]; [|done|done].
  destruct (Z.leb_spec (length_z input) (length_z body + 1)); intros [= <- <-]; [by left|right].
  exists t1, e, body. split_and!; try done. unfold length_z in *. cbn [length]. lia.
Qed.

(** What the cache holds does not show: the outcome on any thread is that on a
    thread that has cached nothing. *)
Definition compress_now (c : Compressor) (input : bytes) : res CompressError bytes :=
  snd (compress c thread_new input).
Definition decompress_now (c : Compressor) (input : bytes) : res CompressError bytes :=
  snd (decompress c thread_new input).

Lemma cached_enc_now names c t :
  named names c -> thread_ok names t -> snd (cached_enc c t) = snd (cached_enc c thread_new).
Proof.
  intros Hn Ht. pose proof (dict_arg_named _ _ Hn) as Ha. destruct Ht as [He _].
  unfold cached_enc. cbn [t_enc thread_new]. destruct (t_enc t) as [[[l d] e]|]; cbv zeta.
  - destruct (negb (l =? c_level c) || negb (d =? d_id (c_dict c))) eqn:Hk.
    + by destruct (enc_make (c_level c) (dict_arg (c_dict c))).
    + apply orb_false_iff in Hk as [->%negb_false_iff%Z.eqb_eq ->%negb_false_iff%Z.eqb_eq].
      rewrite Ha in He. by rewrite He.
  - by destruct (enc_make (c_level c) (dict_arg (c_dict c))).
Qed.

Lemma cached_dec_now names c t :
  named names c -> thread_ok names t -> snd (cached_dec c t) = snd (cached_dec c thread_new).
Proof.
  intros Hn Ht. pose proof (dict_arg_named _ _ Hn) as Ha. destruct Ht as [_ Hd].
  unfold cached_dec. cbn [t_dec thread_new]. destruct (t_dec t) as [[d e]|]; cbv zeta.
  - destruct (negb (d =? d_id (c_dict c))) eqn:Hk.
    + by destruct (dec_make (dict_arg (c_dict c))).
    + apply negb_false_iff, Z.eqb_eq in Hk as ->. rewrite Ha in Hd. by rewrite Hd.
  - by destruct (dec_make (dict_arg (c_dict c))).
Qed.

Lemma compress_any_thread names c t input :
  named names c -> thread_ok names t ->
  snd (compress c t input) = compress_now c input /\ snd (decompress c t input) = decompress_now c input.
Proof.
  intros Hn Ht. pose proof (cached_enc_now names c t Hn Ht) as E. pose proof (cached_dec_now names c t Hn Ht) as D.
  unfold compress_now, decompress_now, compress, decompress. split.
  - case_match; [done|]. destruct (cached_enc c t), (cached_enc c thread_new). cbn in *. by rewrite E.
  - destruct input as [|m body]; [done|].
    destruct (cached_dec c t), (cached_dec c thread_new). cbn in *. subst. by repeat case_match.
Qed.

Context {laws : ZstdLaws zstd}.

Lemma decompress_compress names (c c' : Compressor) (t u : Thread) input t' z :
  length_z input < 2 ^ 64 -> named names c -> c_dict c' = c_dict c -> thread_ok names t -> thread_ok names u ->
  compress c t input = (t', Ok z) ->
  let '(u', out) := decompress c' u z in
  length_z z <= length_z input + 1 /\ thread_ok names t' /\ thread_ok names u'
  /\ (out = Ok input
      \/ dec_make (dict_arg (c_dict c)) = Panic
      \/ exists s, dec_make (dict_arg (c_dict c)) = Err s /\ out = Err (Decode s)).
Proof.
  intros Hlen64 Hn Hc Ht Hu Hz. assert (named names c') as Hn' by (unfold named; by rewrite Hc).
  assert (thread_ok names t') as Ht'.
  { unfold compress in Hz. case_match; [congruence|].
    destruct (cached_enc c t) as [t1 r] eqn:E. injection Hz as <- _.
    by destruct (cached_enc_ok names _ _ _ _ Hn Ht E). }
  destruct (compress_output _ _ _ _ _ Hz) as [->|(t1 & e & body & He & -> & Hr & -> & Hlen)].
  - cbn. split_and!; [unfold length_z; cbn; lia|done|done|by left].
  - destruct (cached_enc_ok names _ _ _ _ Hn Ht He) as [_ Hmk]. specialize (Hmk e eq_refl).
    unfold decompress. destruct (cached_dec c' u) as [u1 dd] eqn:Hd.
    destruct (cached_dec_ok names _ _ _ _ Hn' Hu Hd) as (Hu1 & Hok & Herr). rewrite Hc in *.
    split_and!; [lia|done|done|]. unfold output_cap. rewrite (zstd_size _ _ _ _ _ Hlen64 Hmk Hr).
    destruct dd as [dd|m|]; cbn [res_bind].
    + left. rewrite (zstd_round_trip _ _ _ _ _ _ Hmk (Hok _ eq_refl) Hr). done.
    + do 2 right. destruct (Herr m eq_refl) as (s & E & ->). by exists s.
    + right. left. unfold cached_dec in Hd. rewrite Hc in Hd.
      repeat case_match; congruence.
Qed.

(** what is compressed is recovered.  Whatever the sending and the
    receiving thread ran before under dictionaries that keep their identifiers,
    a block compressed at any level comes out of [decompress] over the same
    dictionary unchanged, or the receiving side cannot make a context; the
    block grows by the marker byte at most, and both threads' cached contexts
    stay those their keys name. *)
Theorem compress_round_trip names (c c' : Compressor) (t u : Thread) input t' z :
  length_z input < 2 ^ 64 -> named names c -> c_dict c' = c_dict c -> thread_ok names t -> thread_ok names u ->
  compress c t input = (t', Ok z) ->
  let '(u', out) := decompress c' u z in
  length_z z <= length_z input + 1 /\ thread_ok names t' /\ thread_ok names u'
  /\ (out = Ok input
      \/ dec_make (dict_arg (c_dict c)) = Panic
      \/ exists s, dec_make (dict_arg (c_dict c)) = Err s /\ out = Err (Decode s)).
Proof. apply decompress_compress. Qed.
End Compression.

(** ** Reference deltas

    [hash] is the standard library's [DefaultHasher] on bytes. *)

Section Delta.
Context {zstd : Zstd} {laws : ZstdLaws zstd}.
Variable ref_dict_id : bytes -> Z.

Definition reference_dict (reference : bytes) : Dict :=
  if is_nil reference then dict_empty else mk_dict (ref_dict_id reference) reference.

Definition compress_with_reference (t : Thread) (input reference : bytes) (level : Z)
    : Thread * res CompressError bytes :=
  compress (compressor_new (reference_dict reference) level) t input.

Definition decompress_with_reference (t : Thread) (blob reference : bytes) (level : Z)
    : Thread * res CompressError bytes :=
  decompress (compressor_new (reference_dict reference) level) t blob.

(** [DeltaCompressor]: the compressor over the reference's dictionary. *)
Definition delta_compressor (reference : bytes) (level : Z) : Compressor :=
  compressor_new (reference_dict reference) level.

(** A block compressed against a reference is recovered against the same
    reference, where no two references in use share an identifier. *)
Lemma delta_round_trip names t u input reference level level' t' z :
  length_z input < 2 ^ 64 -> names 0 = [] -> (reference <> [] -> names (ref_dict_id reference) = reference) ->
  thread_ok names t -> thread_ok names u ->
  (forall d, exists e, dec_make d = Ok e) ->
  compress_with_reference t input reference level = (t', Ok z) ->
  snd (decompress_with_reference u z reference level') = Ok input.
Proof.
  intros Hlen H0 Hr Ht Hu Hmk Hz. unfold compress_with_reference, decompress_with_reference in *.
  set (c' := compressor_new (reference_dict reference) level').
  assert (named names (compressor_new (reference_dict reference) level)) as Hn.
  { unfold named, reference_dict. cbn. destruct reference; [done|]. cbn. by rewrite Hr. }
  pose proof (decompress_compress names _ c' t u input t' z Hlen Hn eq_refl Ht Hu Hz) as H.
  destruct (decompress c' u z) as [u' out]. destruct H as (_ & _ & _ & H). cbn in *.
  destruct (Hmk (dict_arg (reference_dict reference))) as [e He]. destruct H as [H|[H|(m & H & _)]]; congruence.
Qed.
End Delta.


(** ** Choosing a reference *)

Fixpoint common_prefix_len (a b : bytes) : nat :=
  match a, b with
  | x :: a', y :: b' => if x =? y then S (common_prefix_len a' b') else O
  | _, _ => O
  end.

(** [Iterator::max_by_key]: the last of the greatest. *)
Fixpoint max_by_key {A} (key : A -> nat) (best : A) (l : list A) : A :=
  match l with
  | [] => best
  | x :: l' => max_by_key key (if Nat.leb (key best) (key x) then x else best) l'
  end.

Definition pick_reference (input : bytes) (candidates : list bytes) : option bytes :=
  match candidates with
  | [] => None
  | c :: rest => Some (max_by_key (common_prefix_len input) c rest)
  end.

Lemma common_prefix_spec a b n :
  (n <= common_prefix_len a b)%nat <-> (take n a = take n b /\ n <= length a /\ n <= length b)%nat.
Proof.
  revert b n. induction a as [|x a IH]; intros [|y b] [|n]; cbn [common_prefix_len take length];
    try (split; [intros; split; [done || lia|lia]|intros (? & ? & ?); lia]).
  destruct (Z.eqb_spec x y) as [->|Hne].
  - rewrite <- Nat.succ_le_mono, IH. rewrite <- !Nat.succ_le_mono.
    split; intros (? & ? & ?); split; [congruence|done|congruence|done].
  - split; [lia|]. intros ([= E _] & _). done.
Qed.

Lemma max_by_key_spec {A} (key : A -> nat) l best :
  (max_by_key key best l = best \/ In (max_by_key key best l) l)
  /\ (key best <= key (max_by_key key best l))%nat
  /\ Forall (fun x => (key x <= key (max_by_key key best l))%nat) l.
Proof.
  revert best. induction l as [|x l IH]; intros best; cbn; [split; [by left|by split]|].
  destruct (IH (if Nat.leb (key best) (key x) then x else best)) as (Hin & Hle & Hall).
  destruct (Nat.leb_spec (key best) (key x)); (split; [naive_solver|split; [lia|constructor; [lia|done]]]).
Qed.

(** The picked reference is a candidate, and no candidate shares a longer
    prefix with the block. *)
Lemma pick_reference_best input candidates r :
  pick_reference input candidates = Some r ->
  In r candidates
  /\ Forall (fun c => (common_prefix_len input c <= common_prefix_len input r)%nat) candidates.
Proof.
  destruct candidates as [|c rest]; [done|]. intros [= <-].
  destruct (max_by_key_spec (common_prefix_len input) rest c) as (Hin & Hle & Hall). cbn.
  split; [naive_solver|by constructor].
Qed.

(** ** Training a dictionary *)

(** The stable sort of the sample indices by length. *)
Fixpoint insert_by (key : nat -> Z) (i : nat) (l : list nat) : list nat :=
  match l with
  | [] => [i]
  | j :: l' => if key i <=? key j then i :: l else j :: insert_by key i l'
  end.
Definition sort_by_key (key : nat -> Z) (l : list nat) : list nat := foldr (insert_by key) [] l.

(** One pass over the samples; [false] once the budget is used up. *)
Fixpoint train_pass (samples : list bytes) (target : Z) (even : bool) (order : list nat)
    (dict : bytes) (filled : Z) : bytes * Z * bool :=
  match order with
  | [] => (dict, filled, true)
  | i :: order' =>
      let s := nth i samples [] in
      if is_nil s then train_pass samples target even order' dict filled
      else
        let n := Z.min (length_z s) (sat_sub target filled) in
        if n =? 0 then (dict, filled, false)
        else
          let chunk := if even then take (Z.to_nat n) s else drop (length s - Z.to_nat n) s in
          let dict := dict ++ chunk in
          let filled := filled + n in
          if target <=? filled then (dict, filled, false)
          else train_pass samples target even order' dict filled
  end.

Definition train_dictionary (samples : list bytes) (target_size : Z) : bytes :=
  let order := sort_by_key (fun i => length_z (nth i samples [])) (seq 0 (length samples)) in
  let '(dict, filled, go) := train_pass samples target_size true order [] 0 in
  if go then
    let '(dict, filled, go) := train_pass samples target_size false order dict filled in
    if go then fst (fst (train_pass samples target_size true order dict filled)) else dict
  else dict.

Lemma train_pass_bound samples target even order dict filled dict' filled' go :
  0 <= target -> length_z dict = filled -> filled <= target ->
  train_pass samples target even order dict filled = (dict', filled', go) ->
  length_z dict' = filled' /\ filled <= filled' <= target.
Proof.
  intros Ht. revert dict filled. induction order as [|i order IH]; intros dict filled Hl Hf; cbn [train_pass].
  { intros [= <- <- _]. lia. }
  set (s := nth i samples []). destruct (is_nil s); [by apply IH|].
  set (n := Z.min _ _). assert (0 <= n <= length_z s /\ filled + n <= target) as (Hn & Hb).
  { unfold n, sat_sub, length_z in *. lia. }
  destruct (n =? 0); [intros [= <- <- _]; lia|]. cbv zeta.
  set (chunk := if even then _ else _).
  assert (length_z (dict ++ chunk) = filled + n) as Hl'.
  { unfold length_z in *. rewrite length_app. unfold chunk. destruct even.
    - rewrite length_take. lia.
    - rewrite length_drop. lia. }
  destruct (target <=? filled + n); [intros [= <- <- _]; lia|].
  intros H. apply IH in H; [lia|done|lia].
Qed.

(** A trained dictionary fits the budget. *)
Lemma train_dictionary_bound samples target :
  0 <= target -> length_z (train_dictionary samples target) <= target.
Proof.
  intros Ht. unfold train_dictionary. set (order := sort_by_key _ _).
  destruct (train_pass samples target true order [] 0) as [[d1 f1] g1] eqn:E1.
  apply train_pass_bound in E1 as (H1 & H1'); [|done|done|lia]. destruct g1; [|lia].
  destruct (train_pass samples target false order d1 f1) as [[d2 f2] g2] eqn:E2.
  apply train_pass_bound in E2 as (H2 & H2'); [|done|done|lia]. destruct g2; [|lia].
  destruct (train_pass samples target true order d2 f2) as [[d3 f3] g3] eqn:E3.
  apply train_pass_bound in E3 as (H3 & H3'); [|done|done|lia]. cbn. lia.
Qed.

(** ** A toy zstd

    A context is its dictionary; a frame is eight bytes of size, then the
    content with the dictionary cut off where it starts with it. *)
Module Toy.
Definition cut (d x : bytes) : bytes := match strip_prefix d x with Some r => 1 :: r | None => 0 :: x end.
Definition enc (d x : bytes) : res str bytes := Ok (le_bytes 8 (length_z x) ++ cut d x).
Definition paste (d body : bytes) : res str bytes :=
  match body with
  | 1 :: r => Ok (d ++ r)
  | 0 :: r => Ok r
  | _ => Err (lit "corrupt")
  end.
Definition size (z : bytes) : option Z := Some (le_val (take 8 z)).

#[export] Instance zstd : Zstd := {
  ZEnc := bytes;
  ZDec := bytes;
  enc_make := fun _ d => Ok (default [] d);
  dec_make := fun d => Ok (default [] d);
  enc_run := enc;
  dec_run := fun d z _ => paste d (drop 8 z);
  frame_content_size := size
}.

#[export] Instance laws : ZstdLaws zstd.
Proof.
  split.
  - intros l d e x z Hx _ [= <-]. change (size (le_bytes 8 (length_z x) ++ cut e x) = Some (length_z x)).
    unfold size. rewrite take_app_length' by (symmetry; apply length_le_bytes).
    rewrite le_val_bytes; [done|]. unfold length_z in *. change (8 * Z.of_nat 8) with 64. lia.
  - intros e x z Hx [= <-]. change (bytes_ok (le_bytes 8 (length_z x) ++ cut e x)). apply List.Forall_app. split; [apply le_bytes_ok|]. unfold cut.
    destruct (strip_prefix e x) as [r|] eqn:E; (constructor; [unfold is_byte; lia|]); [|done].
    apply strip_prefix_Some in E as ->. by apply List.Forall_app in Hx as [_ ?].
  - intros l d e dd x z [= <-] [= <-] [= <-].
    change (paste (default [] d) (drop 8 (le_bytes 8 (length_z x) ++ cut (default [] d) x)) = Ok x).
    rewrite drop_app_length' by (symmetry; apply length_le_bytes). unfold cut.
    destruct (strip_prefix _ x) as [r|] eqn:E; [|done]. apply strip_prefix_Some in E as ->. done.
Qed.

Definition old_dict : Dict := mk_dict 5 (repeat 7 40).
Definition new_dict : Dict := mk_dict 5 (repeat 8 40).
Definition names (_ : Z) : bytes := repeat 7 40.
Definition block : bytes := repeat 7 40 ++ [1; 2; 3].
Definition sender : Thread := fst (compress (compressor_new old_dict 3) thread_new block).
End Toy.
#[local] Existing Instance Toy.zstd.
#[local] Existing Instance Toy.laws.

Theorem compress_round_trip_witness :
  snd (compress (compressor_new Toy.old_dict 3) thread_new Toy.block) = Ok (1 :: le_bytes 8 43 ++ [1; 1; 2; 3])
  /\ length_z (Toy.block) = 43
  /\ snd (decompress (compressor_new Toy.old_dict 19) thread_new (1 :: le_bytes 8 43 ++ [1; 1; 2; 3])) = Ok Toy.block.
Proof.
  assert (compress (compressor_new Toy.old_dict 3) thread_new Toy.block = (Toy.sender, Ok (1 :: le_bytes 8 43 ++ [1; 1; 2; 3])))
    as E by (vm_compute; reflexivity).
  assert (thread_ok Toy.names thread_new) as Ht by (split; exact I).
  pose proof (compress_round_trip Toy.names (compressor_new Toy.old_dict 3) (compressor_new Toy.old_dict 19)
    thread_new thread_new Toy.block Toy.sender _ eq_refl eq_refl eq_refl Ht Ht E) as H.
  split; [by rewrite E|]. split; [reflexivity|].
  destruct (decompress (compressor_new Toy.old_dict 19) thread_new (1 :: le_bytes 8 43 ++ [1; 1; 2; 3])) as [u out].
  destruct H as (_ & _ & _ & [-> | [H|(s & H & _)]]); [reflexivity|discriminate H|discriminate H].
Defined.

(** the identifier must name the content.  The contexts are cached under
    the dictionary's identifier alone: a compressor given a new dictionary
    under an identifier its thread has used before keeps compressing with the
    old one, and a receiver that starts with the new dictionary recovers other
    bytes, without an error. *)
Theorem stale_dictionary :
  d_id Toy.new_dict = d_id Toy.old_dict
  /\ exists t z u out,
       compress (set_dict (compressor_new Toy.old_dict 3) Toy.new_dict) Toy.sender Toy.block = (t, Ok z)
       /\ decompress (compressor_new Toy.new_dict 3) thread_new z = (u, Ok out)
       /\ out <> Toy.block /\ length_z out = length_z Toy.block.
Proof.
  split; [reflexivity|]. do 4 eexists. split; [vm_compute; reflexivity|].
  split; [vm_compute; reflexivity|]. by_decide.
Qed.
