(* ===== verification/DlrShim.v ===== *)
(** The sending side of the session protocol
    (src/integrations/dlr/crates/shim/src/lib.rs).

    The store and the filter are shared by the sessions and passed explicitly.
    Compression is [DlrCompress], whose outcome is that of any thread; zstd,
    the two hashes and the floating-point parts of the fountain code are
    parameters. *)

From S2P Require Import Prelude DlrCodec DlrStore DlrGf DlrFountain DlrFilter DlrCompress.

Inductive ShimError :=
| ECoding (e : BulkError)
| ECompressing (e : CompressError)
| EColdStartRequired (sid : Z).

Record SessionShim := mk_shim {
  sh_session : Z;
  sh_ids : list BlockId;
  sh_root : MerkleRoot;
  sh_base_root : MerkleRoot;
  sh_base_len : nat;
  sh_compressor : Compressor;
  sh_append_compressor : Compressor;
  sh_fountain_k : nat;
  sh_symbol_size : nat
}.

(** The store and the filter in front of it. *)
Record SharedParts := mk_shared { w_store : ContentStore; w_filter : CuckooFilter }.

Definition APPEND_LEVEL : Z := 3.

Definition shim_with_filter (sid : Z) (c : Compressor) : SessionShim :=
  mk_shim sid [] ROOT_ZERO ROOT_ZERO 0 c (with_level c APPEND_LEVEL) 64 1024.

(** What a store shows, as [view] has it. *)
Abbreviation View := (gmap BlockId Block * gmap Z SessionLog)%type.

Section Shim.
Context {zstd : Zstd}.
Variable blake3 : bytes -> bytes.
Variable xxh3 : bytes -> Z.

(** ** Appending *)

(** One block of a turn. *)
Definition ingest_block (w : SharedParts) (s : SessionShim) (b : Block) : SharedParts * SessionShim * FrameBlock :=
  let '(c, id) := canonical_bytes_and_id blake3 b in
  let s' := mk_shim (sh_session s) (sh_ids s ++ [id]) (append_root blake3 (sh_root s) id)
              (sh_base_root s) (sh_base_len s) (sh_compressor s) (sh_append_compressor s)
              (sh_fountain_k s) (sh_symbol_size s) in
  let known := if filter_contains xxh3 (w_filter w) id then store_contains (w_store w) id else false in
  if known then
    let store := match reference blake3 (w_store w) (sh_session s) id with
                 | Ok store => store | _ => w_store w end in
    (mk_shared store (w_filter w), s', Ref id)
  else
    let z := match compress_now (sh_append_compressor s) c with Ok z => z | _ => c end in
    let store := fst (insert_with_canonical blake3 (w_store w) (sh_session s) b id (Some c)) in
    let filter := fst (filter_insert xxh3 (w_filter w) id) in
    (mk_shared store filter, s', Inline (mk_block (b_kind b) (b_seq b) z)).

Fixpoint ingest_blocks (w : SharedParts) (s : SessionShim) (l : list Block)
  : SharedParts * SessionShim * list FrameBlock :=
  match l with
  | [] => (w, s, [])
  | b :: l' =>
      let '(w, s, fb) := ingest_block w s b in
      let '(w, s, fbs) := ingest_blocks w s l' in (w, s, fb :: fbs)
  end.

Definition ingest_turn (w : SharedParts) (s : SessionShim) (blocks : list Block)
  : SharedParts * SessionShim * AppendFrame :=
  let '(w, s, fbs) := ingest_blocks w s blocks in
  (w, s, mk_append (sh_session s) (sh_base_root s) fbs).

Definition ingest_coalesced (w : SharedParts) (s : SessionShim) (turns : list (list Block)) :=
  ingest_turn w s (concat turns).

(** ** Acknowledgements *)

Definition set_base (s : SessionShim) (root : MerkleRoot) (len : nat) : SessionShim :=
  mk_shim (sh_session s) (sh_ids s) (sh_root s) root len (sh_compressor s)
    (sh_append_compressor s) (sh_fountain_k s) (sh_symbol_size s).

(** The length of the first non-empty prefix with root [acked]. *)
Fixpoint find_prefix (acked : MerkleRoot) (r : MerkleRoot) (i : nat) (ids : list BlockId) : option nat :=
  match ids with
  | [] => None
  | id :: ids' =>
      let r := append_root blake3 r id in
      if bool_decide (r = acked) then Some (S i) else find_prefix acked r (S i) ids'
  end.

Definition apply_ack (s : SessionShim) (acked : MerkleRoot) : SessionShim * bool :=
  if bool_decide (acked = sh_root s) then (set_base s acked (length (sh_ids s)), true)
  else if bool_decide (acked = sh_base_root s) then (s, true)
  else match find_prefix acked ROOT_ZERO 0 (sh_ids s) with
       | Some n => (set_base s acked n, true)
       | None => (s, false)
       end.

(** ** Cold start *)

Definition resync_frame (s : SessionShim) : ResyncFrame :=
  mk_resync (sh_session s) (sh_root s) (sh_ids s).

(** A compressed block with its length in front. *)
Definition bulk_record (z : bytes) : bytes := le_bytes 4 (wrap 32 (length_z z)) ++ z.

(** The records of the blocks the store has; the first error of the
    compressor stops it. *)
Fixpoint bulk_records (store : ContentStore) (c : Compressor) (missing : list BlockId)
  : res ShimError (list bytes) :=
  match missing with
  | [] => Ok []
  | id :: missing' =>
      match store_get store id with
      | Some b =>
          match compress_now c (canonical_bytes b) with
          | Ok z => let? rest := bulk_records store c missing' in Ok (bulk_record z :: rest)
          | Err e => Err (ECompressing e)
          | Panic => Panic
          end
      | None => bulk_records store c missing'
      end
  end.

(** Whole records packed into generations of at most [full] bytes. *)
Fixpoint pack (full : nat) (cur : bytes) (records : list bytes) : list bytes :=
  match records with
  | [] => if is_nil cur then [] else [cur]
  | rec :: records' =>
      if negb (is_nil cur) && (full <? length cur + length rec)%nat
      then cur :: pack full rec records'
      else pack full (cur ++ rec) records'
  end.

Variable cpu : Cpu.
Variable soliton_point : nat -> Z -> nat.
(** [ceil(gen_size * pct / 100.0)]. *)
Variable repair_count : nat -> Z -> nat.

Definition chunk_gen_size (sym : nat) (chunk : bytes) : nat := Nat.max (div_ceil_nat (length chunk) sym) 1.

Definition chunk_frame (s : SessionShim) (pct : Z) (gen : nat) (chunk : bytes) : res ShimError BulkFrame :=
  let sym := sh_symbol_size s in
  let gen_size := chunk_gen_size sym chunk in
  let cfg := mk_bulk_config gen_size sym pct 0 in
  match bulk_encode cpu soliton_point Z repair_count chunk cfg with
  | Ok coded => Ok (mk_bulk (sh_session s) (wrap 32 (Z.of_nat gen)) (wrap 32 (Z.of_nat gen_size))
                      (wrap 32 (Z.of_nat sym)) (map snd coded))
  | Err e => Err (ECoding e)
  | Panic => Panic
  end.

Fixpoint chunk_frames (s : SessionShim) (pct : Z) (gen : nat) (chunks : list bytes)
  : res ShimError (list BulkFrame) :=
  match chunks with
  | [] => Ok []
  | c :: chunks' =>
      let? f := chunk_frame s pct gen c in
      let? rest := chunk_frames s pct (S gen) chunks' in Ok (f :: rest)
  end.

Definition bulk_frames_for (w : SharedParts) (s : SessionShim) (missing : list BlockId) (pct : Z)
  : res ShimError (list BulkFrame) :=
  if is_nil missing then Ok []
  else
    let? records := bulk_records (w_store w) (sh_compressor s) missing in
    chunk_frames s pct 0 (pack (sh_fountain_k s * sh_symbol_size s) [] records).

(** Slicing from past the end panics. *)
Definition bulk_frames (w : SharedParts) (s : SessionShim) (pct : Z) : res ShimError (list BulkFrame) :=
  if (length (sh_ids s) <? sh_base_len s)%nat then Panic
  else bulk_frames_for w s (drop (sh_base_len s) (sh_ids s)) pct.

(** ** The coordinator *)

Record Coordinator := mk_coord {
  co_shared : SharedParts; co_compressor : Compressor; co_sessions : gmap Z SessionShim }.

Definition coordinator_with_filter (store : ContentStore) (c : Compressor) (f : CuckooFilter) : Coordinator :=
  mk_coord (mk_shared store f) c ∅.
Definition coordinator_new (store : ContentStore) (c : Compressor) : Coordinator :=
  coordinator_with_filter store c (with_capacity (2 ^ 20)).

(** [entry(..).or_insert_with(..)]. *)
Definition session_or_new (k : Coordinator) (sid : Z) : SessionShim :=
  default (shim_with_filter sid (co_compressor k)) (co_sessions k !! sid).

(** The entry is made; the caller gets a copy. *)
Definition coord_session (k : Coordinator) (sid : Z) : Coordinator * SessionShim :=
  let s := session_or_new k sid in
  (mk_coord (co_shared k) (co_compressor k) (<[sid := s]> (co_sessions k)), s).

Definition coord_ingest (k : Coordinator) (sid : Z) (blocks : list Block) : Coordinator * AppendFrame :=
  let '(w, s, f) := ingest_turn (co_shared k) (session_or_new k sid) blocks in
  (mk_coord w (co_compressor k) (<[sid := s]> (co_sessions k)), f).

Definition ingest_batch (k : Coordinator) (sid : Z) (turns : list (list Block)) : Coordinator * AppendFrame :=
  coord_ingest k sid (concat turns).

Definition coord_ack (k : Coordinator) (sid : Z) (root : MerkleRoot) : Coordinator * bool :=
  match co_sessions k !! sid with
  | Some s => let '(s, b) := apply_ack s root in
              (mk_coord (co_shared k) (co_compressor k) (<[sid := s]> (co_sessions k)), b)
  | None => (k, false)
  end.

(** ** What a turn does *)

(** A turn seen from the outside: its blocks stored, its ids in the session's
    log. *)
Definition turn_view (v : View) (sid : Z) (l : list Block) : View :=
  fold_left (fun v b => view_push blake3 (view_put blake3 v b) sid (block_id blake3 b)) l v.

Lemma view_put_known (v : View) b : is_Some (v.1 !! block_id blake3 b) -> view_put blake3 v b = v.
Proof. unfold view_put. by intros [b' ->]. Qed.

(** The session after a block, in terms of its id alone. *)
Definition with_id (s : SessionShim) (id : BlockId) : SessionShim :=
  mk_shim (sh_session s) (sh_ids s ++ [id]) (append_root blake3 (sh_root s) id)
    (sh_base_root s) (sh_base_len s) (sh_compressor s) (sh_append_compressor s)
    (sh_fountain_k s) (sh_symbol_size s).
Definition with_ids (s : SessionShim) (ids : list BlockId) : SessionShim := fold_left with_id ids s.

Lemma canonical_bytes_and_id_eq b :
  canonical_bytes_and_id blake3 b = (canonical_bytes b, block_id blake3 b).
Proof. unfold canonical_bytes_and_id, block_id, canonical_bytes. cbn [app]. by rewrite <- !app_assoc. Qed.

(** What goes on the wire for a block: a reference only to a block that is
    stored, or the compressed block. *)
Definition wire_of (w : SharedParts) (s : SessionShim) (b : Block) (fb : FrameBlock) : Prop :=
  match fb with
  | Ref id => id = block_id blake3 b /\ store_contains (w_store w) id = true
  | Inline wb =>
      forall z, compress_now (sh_append_compressor s) (canonical_bytes b) = Ok z ->
                wb = mk_block (b_kind b) (b_seq b) z
  end.

Lemma ingest_block_spec w s b w' s' fb :
  ingest_block w s b = (w', s', fb) ->
  s' = with_id s (block_id blake3 b)
  /\ view (w_store w') = turn_view (view (w_store w)) (sh_session s) [b]
  /\ wire_of w s b fb.
Proof.
  unfold ingest_block. rewrite canonical_bytes_and_id_eq. set (id := block_id blake3 b).
  set (known := if filter_contains _ _ _ then _ else _).
  destruct known eqn:Hk; intros [= <- <- <-]; (split; [done|]); cbn [turn_view fold_left w_store wire_of].
  - assert (store_contains (w_store w) id = true) as Hc.
    { unfold known in Hk. by destruct (filter_contains _ _ _). }
    split; [|by split]. pose proof (view_reference blake3 (w_store w) (sh_session s) id) as Hv.
    unfold store_contains in Hc. apply bool_decide_eq_true in Hc.
    rewrite view_put_known by done. destruct (reference _ _ _ _) as [st|e|]; [|by destruct Hv as [_ Hv]; rewrite Hv in Hc; destruct Hc|done].
    destruct Hv as [-> [b' Hb]]. unfold view_rec. change ((view (w_store w)).1) with (st_blocks (w_store w)).
    by rewrite Hb.
  - split; [apply (view_insert blake3)|]. by intros z ->.
Qed.

Lemma turn_view_cons v sid b l : turn_view v sid (b :: l) = turn_view (turn_view v sid [b]) sid l.
Proof. done. Qed.

Lemma ingest_blocks_spec l : forall w s w' s' fbs,
  ingest_blocks w s l = (w', s', fbs) ->
  s' = with_ids s (map (block_id blake3) l)
  /\ view (w_store w') = turn_view (view (w_store w)) (sh_session s) l.
Proof.
  induction l as [|b l IH]; intros w s w' s' fbs; cbn [ingest_blocks]; [by intros [= <- <- <-]|].
  destruct (ingest_block w s b) as [[w1 s1] fb] eqn:E. destruct (ingest_blocks w1 s1 l) as [[w2 s2] fbs2] eqn:F.
  intros [= <- <- <-]. apply ingest_block_spec in E as (-> & Hv & _). apply IH in F as (-> & Hv2).
  split; [done|]. by rewrite Hv2, Hv, turn_view_cons.
Qed.

Lemma with_ids_spec ids : forall s,
  sh_ids (with_ids s ids) = sh_ids s ++ ids
  /\ sh_root (with_ids s ids) = root_over blake3 (sh_root s) ids
  /\ sh_session (with_ids s ids) = sh_session s
  /\ sh_base_root (with_ids s ids) = sh_base_root s /\ sh_base_len (with_ids s ids) = sh_base_len s
  /\ sh_compressor (with_ids s ids) = sh_compressor s
  /\ sh_append_compressor (with_ids s ids) = sh_append_compressor s
  /\ sh_fountain_k (with_ids s ids) = sh_fountain_k s /\ sh_symbol_size (with_ids s ids) = sh_symbol_size s.
Proof.
  induction ids as [|id ids IH]; intros s; [cbn; by rewrite app_nil_r|].
  change (with_ids s (id :: ids)) with (with_ids (with_id s id) ids).
  destruct (IH (with_id s id)) as (-> & -> & -> & -> & -> & -> & -> & -> & ->). cbn.
  by rewrite <- app_assoc.
Qed.

(** ** The state of a session *)

(** The roots are those of the ids, the base is a prefix of them. *)
Definition shim_ok (s : SessionShim) : Prop :=
  sh_root s = root_over blake3 ROOT_ZERO (sh_ids s)
  /\ (sh_base_len s <= length (sh_ids s))%nat
  /\ sh_base_root s = root_over blake3 ROOT_ZERO (take (sh_base_len s) (sh_ids s)).

Lemma shim_new_ok sid c : shim_ok (shim_with_filter sid c).
Proof. by split_and!. Qed.

Lemma with_ids_ok s ids : shim_ok s -> shim_ok (with_ids s ids).
Proof.
  intros (Hr & Hl & Hb). destruct (with_ids_spec ids s) as (E1 & E2 & _ & E3 & E4 & _).
  unfold shim_ok. rewrite E1, E2, E3, E4, root_over_app, length_app, Hr. split_and!; [done|lia|].
  rewrite take_app_le by lia. done.
Qed.

Lemma find_prefix_spec acked ids : forall r i,
  match find_prefix acked r i ids with
  | Some n => exists k, (n = i + S k /\ k < length ids)%nat /\ root_over blake3 r (take (S k) ids) = acked
  | None => forall k, (k < length ids)%nat -> root_over blake3 r (take (S k) ids) <> acked
  end.
Proof.
  induction ids as [|id ids IH]; intros r i; cbn [find_prefix]; [intros k Hk; cbn in Hk; lia|].
  case_bool_decide as Hd.
  - exists 0%nat. cbn. split; [lia|done].
  - specialize (IH (append_root blake3 r id) (S i)). destruct (find_prefix _ _ _ ids) as [n|].
    + destruct IH as (k & [-> Hk] & E). exists (S k). cbn [length]. split; [lia|done].
    + intros [|k] Hk; [done|]. apply IH. cbn in Hk. lia.
Qed.

(** An acknowledgement keeps the state; it is accepted exactly when it names
    the current root, the base, or the root of a non-empty prefix, and is then
    the base. *)
Lemma apply_ack_spec s acked s' b :
  shim_ok s -> apply_ack s acked = (s', b) ->
  shim_ok s' /\ sh_ids s' = sh_ids s /\ sh_root s' = sh_root s /\ sh_session s' = sh_session s
  /\ (b = true <-> acked = sh_root s \/ acked = sh_base_root s \/ exists n, (0 < n <= length (sh_ids s))%nat
                       /\ root_over blake3 ROOT_ZERO (take n (sh_ids s)) = acked)
  /\ (b = true -> sh_base_root s' = acked) /\ (b = false -> s' = s).
Proof.
  intros (Hr & Hl & Hb) E. unfold apply_ack in E. case_bool_decide as H1; [|case_bool_decide as H2].
  - injection E as <- <-. unfold shim_ok. cbn [sh_root sh_ids sh_base_len sh_base_root set_base sh_session].
    rewrite firstn_all. split_and!; try done; [congruence|].
    split; [|done]. intros _. by left.
  - injection E as <- <-. split_and!; try done. split; [|done]. intros _. right. by left.
  - pose proof (find_prefix_spec acked (sh_ids s) ROOT_ZERO 0) as Hf.
    destruct (find_prefix _ _ _ _) as [n|]; injection E as <- <-.
    + destruct Hf as (k & [-> Hk] & E). unfold shim_ok. cbn [sh_root sh_ids sh_base_len sh_base_root set_base sh_session].
      cbn [Nat.add]. split_and!; try done. split; [|done]. intros _. do 2 right. exists (S k). split; [lia|done].
    + split_and!; try done. split; [done|]. intros [?|[?|(n & Hn & E)]]; [congruence|congruence|].
      destruct n as [|n]; [lia|]. exfalso. apply (Hf n); [lia|done].
Qed.

(** ** The effect of a turn on a store's view *)

(** Every block is stored under its own id. *)
Definition addressed (v : View) : Prop := forall id b, v.1 !! id = Some b -> block_id blake3 b = id.
Definition view_has (v : View) (id : BlockId) : Prop := is_Some (v.1 !! id).
Definition view_log (v : View) (sid : Z) : SessionLog := default (mk_log [] ROOT_ZERO) (v.2 !! sid).

Lemma view_put_spec v b :
  (addressed v -> addressed (view_put blake3 v b)) /\ view_has (view_put blake3 v b) (block_id blake3 b)
  /\ (forall id, view_has v id -> view_has (view_put blake3 v b) id) /\ (view_put blake3 v b).2 = v.2.
Proof.
  unfold view_put, view_has. destruct (v.1 !! block_id blake3 b) as [b'|] eqn:E; cbn [fst snd].
  - by split_and!.
  - rewrite lookup_insert_eq. split_and!; [|done| |done].
    + intros Ha id b'. cbn [fst]. rewrite lookup_insert_Some. intros [[<- <-]|[_ H]]; [done|by apply Ha].
    + intros id Hid. destruct (decide (block_id blake3 b = id)) as [->|Hne];
        [by rewrite lookup_insert_eq|by rewrite lookup_insert_ne].
Qed.

Lemma view_push_spec v sid id :
  (view_push blake3 v sid id).1 = v.1
  /\ view_log (view_push blake3 v sid id) sid
     = mk_log (sl_ids (view_log v sid) ++ [id]) (append_root blake3 (sl_root (view_log v sid)) id)
  /\ (forall sid', sid' <> sid -> (view_push blake3 v sid id).2 !! sid' = v.2 !! sid').
Proof.
  unfold view_push, view_log, push_id. cbn [fst snd].
  destruct (v.2 !! sid); cbn [fst]; rewrite lookup_insert_eq; (split; [done|split; [done|]]);
    intros sid' Hne; by rewrite lookup_insert_ne.
Qed.

Lemma turn_view_spec sid l : forall v,
  (addressed v -> addressed (turn_view v sid l))
  /\ Forall (fun b => view_has (turn_view v sid l) (block_id blake3 b)) l
  /\ (forall id, view_has v id -> view_has (turn_view v sid l) id)
  /\ view_log (turn_view v sid l) sid
     = mk_log (sl_ids (view_log v sid) ++ map (block_id blake3) l)
         (root_over blake3 (sl_root (view_log v sid)) (map (block_id blake3) l))
  /\ (forall sid', sid' <> sid -> (turn_view v sid l).2 !! sid' = v.2 !! sid').
Proof.
  induction l as [|b l IH]; intros v.
  { cbn. rewrite app_nil_r. split_and!; try done. by destruct (view_log v sid). }
  rewrite turn_view_cons. set (v1 := turn_view v sid [b]).
  destruct (view_put_spec v b) as (A1 & A2 & A3 & A4).
  destruct (view_push_spec (view_put blake3 v b) sid (block_id blake3 b)) as (B1 & B2 & B3).
  change (view_push blake3 (view_put blake3 v b) sid (block_id blake3 b)) with v1 in *.
  destruct (IH v1) as (C1 & C2 & C3 & C4 & C5).
  assert (view_log (view_put blake3 v b) sid = view_log v sid) as E by (unfold view_log; by rewrite A4).
  rewrite E in B2. rewrite B2 in C4. cbn [sl_ids sl_root] in C4. split_and!.
  - intros Ha. apply C1. unfold addressed. rewrite B1. by apply A1.
  - constructor; [|done]. apply C3. unfold view_has in *. by rewrite B1.
  - intros id Hid. apply C3. unfold view_has in *. rewrite B1. by apply A3.
  - rewrite C4, <- app_assoc. done.
  - intros sid' Hne. by rewrite C5, B3, A4.
Qed.

(** ** The state of the coordinator *)

Inductive CoordOp :=
| CIngest (sid : Z) (blocks : list Block)
| CBatch (sid : Z) (turns : list (list Block))
| CAck (sid : Z) (root : MerkleRoot)
| CSession (sid : Z).

Definition coord_step (k : Coordinator) (o : CoordOp) : Coordinator :=
  match o with
  | CIngest sid blocks => fst (coord_ingest k sid blocks)
  | CBatch sid turns => fst (ingest_batch k sid turns)
  | CAck sid root => fst (coord_ack k sid root)
  | CSession sid => fst (coord_session k sid)
  end.
Definition coord_run (k : Coordinator) (os : list CoordOp) : Coordinator := fold_left coord_step os k.

(** A session against the shared store. *)
Definition session_ok (v : View) (sid : Z) (s : SessionShim) : Prop :=
  shim_ok s /\ sh_session s = sid /\ view_log v sid = mk_log (sh_ids s) (sh_root s)
  /\ Forall (view_has v) (sh_ids s).

Definition coord_ok (k : Coordinator) : Prop :=
  let v := view (w_store (co_shared k)) in
  addressed v /\ (forall sid s, co_sessions k !! sid = Some s -> session_ok v sid s)
  /\ forall sid, co_sessions k !! sid = None -> v.2 !! sid = None.

Lemma coord_new_ok c f : coord_ok (coordinator_with_filter store_new c f).
Proof. split_and!; [|done|done]. intros id b H.
  change ((∅ : gmap BlockId Block) !! id = Some b) in H. by rewrite lookup_empty in H.
Qed.

Lemma session_or_new_ok k sid :
  coord_ok k -> session_ok (view (w_store (co_shared k))) sid (session_or_new k sid).
Proof.
  intros (_ & Hs & Hn). unfold session_or_new. destruct (co_sessions k !! sid) as [s|] eqn:E; [by apply Hs|].
  cbn [default]. split; [apply shim_new_ok|]. split; [done|]. split; [|constructor].
  unfold view_log. by rewrite (Hn sid E).
Qed.

(** The turn of a session, in the state of all of them. *)
Lemma ingest_turn_ok k sid blocks w s f :
  coord_ok k -> ingest_turn (co_shared k) (session_or_new k sid) blocks = (w, s, f) ->
  coord_ok (mk_coord w (co_compressor k) (<[sid := s]> (co_sessions k))).
Proof.
  intros Hk E. pose proof (session_or_new_ok k sid Hk) as (Hok & Hsid & Hlog & Hhas).
  destruct Hk as (Ha & Hs & Hn). unfold ingest_turn in E.
  destruct (ingest_blocks _ _ _) as [[w1 s1] fbs] eqn:F. injection E as <- <- <-.
  apply ingest_blocks_spec in F as (-> & Hv). rewrite Hsid in Hv.
  destruct (turn_view_spec sid blocks (view (w_store (co_shared k)))) as (C1 & C2 & C3 & C4 & C5).
  rewrite <- Hv in *. rewrite Hlog in C4. cbn [sl_ids sl_root] in C4.
  destruct (with_ids_spec (map (block_id blake3) blocks) (session_or_new k sid)) as (E1 & E2 & E3 & _).
  split; [auto|]. cbn [co_shared co_sessions]. split.
  - intros sid' s'. rewrite lookup_insert_Some. intros [[<- <-]|[Hne H]].
    + split; [by apply with_ids_ok|]. rewrite E1, E2, E3. split; [done|]. split; [done|].
      apply List.Forall_app. split; [by eapply List.Forall_impl; [|exact Hhas]; auto|].
      apply list.Forall_fmap. exact C2.
    + destruct (Hs _ _ H) as (H1 & H2 & H3 & H4). split; [done|]. split; [done|]. split.
      * rewrite <- H3. unfold view_log. by rewrite C5.
      * eapply List.Forall_impl; [|exact H4]; auto.
  - intros sid'. rewrite lookup_insert_None. intros [H Hne]. rewrite C5 by done. by apply Hn.
Qed.

Lemma put_same_ok k sid s :
  coord_ok k -> session_ok (view (w_store (co_shared k))) sid s ->
  coord_ok (mk_coord (co_shared k) (co_compressor k) (<[sid := s]> (co_sessions k))).
Proof.
  intros (Ha & Hs & Hn) Hok. split; [done|]. cbn [co_shared co_sessions]. split.
  - intros sid' s'. rewrite lookup_insert_Some. intros [[<- <-]|[_ H]]; [done|by apply Hs].
  - intros sid'. rewrite lookup_insert_None. intros [H _]. by apply Hn.
Qed.

Lemma coord_step_ok k o : coord_ok k -> coord_ok (coord_step k o).
Proof.
  intros Hk. destruct o as [sid blocks|sid turns|sid root|sid]; cbn [coord_step].
  - unfold coord_ingest. destruct (ingest_turn _ _ _) as [[w s] f] eqn:E. by eapply ingest_turn_ok.
  - unfold ingest_batch, coord_ingest. destruct (ingest_turn _ _ _) as [[w s] f] eqn:E. by eapply ingest_turn_ok.
  - unfold coord_ack. destruct (co_sessions k !! sid) as [s|] eqn:E; [|done].
    destruct (apply_ack s root) as [s' b] eqn:A. cbn [fst]. apply put_same_ok; [done|].
    destruct Hk as (_ & Hs & _). destruct (Hs _ _ E) as (H1 & H2 & H3 & H4).
    destruct (apply_ack_spec _ _ _ _ H1 A) as (G1 & G2 & G3 & G4 & _).
    split; [done|]. by rewrite G2, G3, G4.
  - cbn [coord_session fst]. apply put_same_ok; [done|by apply session_or_new_ok].
Qed.

Lemma coord_run_ok os : forall k, coord_ok k -> coord_ok (coord_run k os).
Proof. induction os as [|o os IH]; intros k H; [done|]. by apply IH, coord_step_ok. Qed.

(** the state the client side keeps.  However turns and batches of any
    sessions, and acknowledgements of any roots, are interleaved, starting from
    an empty store: every session's root is the fold of its ids; its base is
    the root of a prefix of them; the shared store's log of the session is
    exactly these ids and this root; every id is in the store; and whatever is
    stored under an id hashes to it. *)
Theorem coordinator_invariant c f os sid s :
  let k := coord_run (coordinator_with_filter store_new c f) os in
  co_sessions k !! sid = Some s ->
  let store := w_store (co_shared k) in
  sh_root s = root_over blake3 ROOT_ZERO (sh_ids s)
  /\ (sh_base_len s <= length (sh_ids s))%nat
  /\ sh_base_root s = root_over blake3 ROOT_ZERO (take (sh_base_len s) (sh_ids s))
  /\ session_ids store sid = sh_ids s /\ session_root store sid = sh_root s
  /\ Forall (fun id => exists b, store_get store id = Some b /\ block_id blake3 b = id) (sh_ids s).
Proof.
  intros k Hs store.
  assert (coord_ok k) as (Ha & Hk & _).
  { apply coord_run_ok, coord_new_ok. }
  destruct (Hk _ _ Hs) as ((H1 & H2 & H3) & _ & H4 & H5). split_and!; try done.
  - unfold session_ids. unfold view_log in H4. change ((view (w_store (co_shared k))).2) with (st_sessions store) in H4.
    destruct (st_sessions store !! sid) as [lg|]; unfold default, id in H4; [by subst lg|congruence].
  - unfold session_root. unfold view_log in H4. change ((view (w_store (co_shared k))).2) with (st_sessions store) in H4.
    destruct (st_sessions store !! sid) as [lg|]; unfold default, id in H4; [by subst lg|congruence].
  - eapply List.Forall_impl; [|exact H5]. intros id [b Hb]. exists b. split; [done|]. by apply Ha.
Qed.
End Shim.

(** ** Packing records *)

(** A generation: whole records, and no more than fit unless it is a single
    one. *)
Definition group_ok (full : nat) (g : list bytes) : Prop :=
  g <> [] /\ ((length (concat g) <= full)%nat \/ length g = 1%nat).

Lemma concat_nonempty (g : list bytes) : Forall (fun r => r <> []) g -> is_nil (concat g) = is_nil g.
Proof. destruct g as [|r g]; [done|]. intros [H _]%list.Forall_cons. by destruct r. Qed.

Lemma pack_spec full recs : forall g,
  Forall (fun r => r <> []) g -> Forall (fun r => r <> []) recs -> (g <> [] -> group_ok full g) ->
  exists groups : list (list bytes), pack full (concat g) recs = map (@concat Z) groups /\ concat groups = g ++ recs
    /\ Forall (group_ok full) groups.
Proof.
  induction recs as [|r recs IH]; intros g Hg Hr Hok; cbn [pack]; rewrite (concat_nonempty g Hg).
  - rewrite app_nil_r. destruct g as [|r g]; [by exists []|]. exists [r :: g].
    cbn [map concat]. rewrite app_nil_r. split_and!; [done|done|]. constructor; [by apply Hok|constructor].
  - apply list.Forall_cons in Hr as [Hr Hrs].
    destruct (is_nil g) eqn:Hn; cbn [negb andb].
    + apply is_nil_true in Hn as ->. cbn [concat app].
      destruct (IH [r]) as (groups & H1 & H2 & H3); [by constructor|done| |].
      { intros _. split; [done|by right]. }
      exists groups. cbn [concat] in H1. rewrite app_nil_r in H1. by split_and!.
    + destruct (Nat.ltb_spec full (length (concat g) + length r)).
      * destruct (IH [r]) as (groups & H1 & H2 & H3); [by constructor|done| |].
        { intros _. split; [done|by right]. }
        cbn [concat] in H1. rewrite app_nil_r in H1.
        exists (g :: groups). cbn [map concat]. rewrite H1, H2. split_and!; [done|done|].
        constructor; [|done]. apply Hok. by destruct g.
      * destruct (IH (g ++ [r])) as (groups & H1 & H2 & H3); [by apply List.Forall_app; split; [|constructor]|done| |].
        { intros _. split; [by destruct g|]. left. rewrite concat_app, length_app. cbn. rewrite app_nil_r. lia. }
        exists groups. rewrite concat_app in H1. cbn [concat] in H1. rewrite app_nil_r in H1.
        rewrite <- app_assoc in H2. by split_and!.
Qed.

Module ShimSample.
Definition xxh3 (b : bytes) : Z := wrap 64 (le_val b).
Definition comp : Compressor := compressor_new Toy.old_dict 19.
Definition ops : list CoordOp :=
  [CIngest 7 [Sample.b1]; CIngest 9 [Sample.b1; Sample.b2]; CAck 7 ROOT_ZERO; CBatch 7 [[Sample.b2]; [Sample.b1]]].
Definition coord : Coordinator := coord_run (zstd := Toy.zstd) Sample.h xxh3 (coordinator_with_filter store_new comp (with_capacity 16)) ops.
Definition sess : SessionShim := session_or_new coord 7.
End ShimSample.

Theorem coordinator_invariant_witness :
  session_ids (w_store (co_shared ShimSample.coord)) 7 = map (block_id Sample.h) [Sample.b1; Sample.b2; Sample.b1]
  /\ sh_root ShimSample.sess = root_over Sample.h ROOT_ZERO (sh_ids ShimSample.sess).
Proof.
  assert (co_sessions ShimSample.coord !! 7 = Some ShimSample.sess) as E by (vm_compute; reflexivity).
  destruct (coordinator_invariant (zstd := Toy.zstd) Sample.h ShimSample.xxh3 ShimSample.comp (with_capacity 16)
              ShimSample.ops 7 ShimSample.sess E) as (Hr & _ & _ & Hi & _).
  split; [refine (eq_trans Hi _); vm_compute; reflexivity|exact Hr].
Defined.
