(* ===== verification/DlrSync.v ===== *)
(** The two ends of the session protocol together: the client side of
    [DlrShim] and the receiver of [DlrReceiver], with the compressor of
    [DlrCompress] and the fountain code of [DlrFountain] as the receiver's
    codec. *)

From S2P Require Import Prelude DlrCodec DlrStore DlrGf DlrFountain DlrReceiver DlrFilter DlrCompress DlrShim.

(** zstd makes its contexts and compresses (it fails for want of memory
    only). *)
Class ZstdTotal `(Zstd) : Prop := {
  enc_total : forall l d, exists e, enc_make l d = Ok e;
  dec_total : forall d, exists e, dec_make d = Ok e;
  run_total : forall e x, exists z, enc_run e x = Ok z
}.

Section Sync.
Context {zstd : Zstd} {laws : ZstdLaws zstd} {total : ZstdTotal zstd}.
Variable blake3 : bytes -> bytes.
Variable xxh3 : bytes -> Z.
Variable cpu : Cpu.

(** The receiver's compressor. *)
Variable rc : Compressor.

#[export] Instance receiver_codec : Codec := {
  DlrReceiver.decompress := fun z => match decompress_now rc z with Ok x => Some x | _ => None end;
  Decoder := FountainDecoder;
  DlrReceiver.dec_new := fun k s => decoder_new (Z.to_nat k) (Z.to_nat s);
  dec_add := decoder_add;
  dec_decode := decoder_decode cpu
}.

(** ** A block on the wire *)

Lemma wire_trip c x :
  c_dict c = c_dict rc -> length_z x < 2 ^ 64 ->
  exists z, compress_now c x = Ok z /\ decompress_now rc z = Ok x
    /\ 0 < length_z z <= length_z x + 1 /\ (bytes_ok x -> bytes_ok z).
Proof.
  intros Hc Hx.
  destruct (enc_total (c_level c) (dict_arg (c_dict c))) as [e He].
  destruct (run_total e x) as [body Hbody].
  assert (exists t z, compress c thread_new x = (t, Ok z)) as (t & z & E).
  { unfold compress, cached_enc. cbn [t_enc thread_new]. cbv zeta. rewrite He. case_match; [by do 2 eexists|].
    cbn [res_bind]. rewrite Hbody. cbn [map_err res_bind]. case_match; by do 2 eexists. }
  exists z. unfold compress_now, decompress_now. rewrite E. split; [done|].
  set (names := fun _ : Z => d_content (c_dict c)).
  pose proof (decompress_compress names c rc thread_new thread_new x t z Hx eq_refl (eq_sym Hc)
    (thread_new_ok names) (thread_new_ok names) E) as H.
  destruct (decompress rc thread_new z) as [u out]. destruct H as (Hl & _ & _ & H). cbn [snd].
  destruct (dec_total (dict_arg (c_dict c))) as [dd Hd].
  destruct H as [->|[H|(m & H & _)]]; [|congruence..].
  split; [done|]. destruct (compress_output _ _ _ _ _ E) as [->|(t1 & e' & b' & _ & _ & Hr & -> & _)].
  - unfold raw, length_z in *. cbn [length] in *. split; [lia|]. intros Hb. constructor; [unfold is_byte; lia|done].
  - unfold length_z in *. cbn [length] in *. split; [lia|]. intros Hb.
    constructor; [unfold is_byte; lia|]. by eapply zstd_bytes.
Qed.

Lemma canonical_length b : block_ok b -> length_z (canonical_bytes b) <= 2 ^ 30 + 17.
Proof.
  intros (_ & _ & Hp). unfold canonical_bytes. unfold length_z in *. cbn [length].
  rewrite !length_app, !length_le_bytes. unfold MAX_BLOCK_PAYLOAD_BYTES in *. lia.
Qed.

Lemma recover_wire c b z :
  c_dict c = c_dict rc -> block_ok b -> compress_now c (canonical_bytes b) = Ok z ->
  recover_block blake3 z = Ok (b, block_id blake3 b).
Proof.
  intros Hc Hb Hz. pose proof (canonical_length b Hb).
  destruct (wire_trip c (canonical_bytes b) Hc ltac:(lia)) as (z' & E & D & _).
  rewrite Hz in E. injection E as <-. unfold recover_block. cbn [DlrReceiver.decompress receiver_codec].
  rewrite D. pose proof (from_canonical_owned_app blake3 b [] Hb) as F. rewrite app_nil_r in F. by rewrite F.
Qed.

Lemma wire_compressed c b :
  c_dict c = c_dict rc -> block_ok b -> exists z, compress_now c (canonical_bytes b) = Ok z.
Proof.
  intros Hc Hb. pose proof (canonical_length b Hb).
  destruct (wire_trip c (canonical_bytes b) Hc ltac:(lia)) as (z & E & _). by exists z.
Qed.

(** ** A turn at the receiver *)

(** The resolved blocks of a turn: they parse, their ids are the turn's, every
    reference is known to a store that has what the client had, and a store
    that looks like the client's before the turn looks like it after. *)
Lemma turn_resolves l : forall w s w' s' fbs,
  ingest_blocks blake3 xxh3 w s l = (w', s', fbs) ->
  c_dict (sh_append_compressor s) = c_dict rc -> Forall block_ok l ->
  exists rs, resolve blake3 fbs = Ok rs /\ map resolved_id rs = map (block_id blake3) l
    /\ (forall s0 inline,
          (forall id, view_has (view (w_store w)) id -> store_contains s0 id = true \/ id ∈ inline) ->
          refs_known s0 inline rs = true)
    /\ (forall st, view st = view (w_store w) ->
          exists st', append_all blake3 st (sh_session s) rs = (st', Ok tt) /\ view st' = view (w_store w')).
Proof.
  induction l as [|b l IH]; intros w s w' s' fbs E Hc Hl; cbn [ingest_blocks] in E.
  { injection E as <- <- <-. exists []. split_and!; try done. intros st Hst. by exists st. }
  destruct (ingest_block blake3 xxh3 w s b) as [[w1 s1] fb] eqn:E1.
  destruct (ingest_blocks blake3 xxh3 w1 s1 l) as [[w2 s2] fbs2] eqn:E2. injection E as <- <- <-.
  apply list.Forall_cons in Hl as [Hb Hl]. apply ingest_block_spec in E1 as (-> & Hv & Hw).
  destruct (IH _ _ _ _ _ E2 Hc Hl) as (rs & R1 & R2 & R3 & R4). cbn [sh_session with_id] in R4.
  destruct (view_put_spec blake3 (view (w_store w)) b) as (_ & Hhas & Hmono & _).
  assert (forall id, view_has (view (w_store w1)) id ->
            view_has (view (w_store w)) id \/ id = block_id blake3 b) as Hnew.
  { intros id. rewrite Hv. unfold view_has, turn_view, view_put. cbn [fold_left].
    destruct ((view (w_store w)).1 !! block_id blake3 b) eqn:G; cbn [view_push fst]; [by left|].
    destruct (decide (id = block_id blake3 b)) as [->|Hne]; [by right|]. rewrite lookup_insert_ne by done. by left. }
  destruct fb as [wb|id]; cbn [wire_of] in Hw.
  - destruct (wire_compressed _ b Hc Hb) as [z Hz]. rewrite (Hw z Hz).
    exists (RInline (block_id blake3 b) b :: rs). cbn [resolve b_payload].
    rewrite (recover_wire _ b z Hc Hb Hz). cbn [res_bind]. rewrite R1. cbn [res_bind map resolved_id].
    split_and!; [done|by rewrite R2| |].
    + intros s0 inline Hs0. cbn [refs_known]. apply R3. intros id Hid.
      destruct (Hnew id Hid) as [H| ->]; [destruct (Hs0 id H); [by left|right; set_solver]|right; set_solver].
    + intros st Hst. cbn [append_all]. apply R4. unfold insert_with_id.
      rewrite view_insert, Hst, Hv. done.
  - destruct Hw as [-> Hk]. exists (RRef (block_id blake3 b) :: rs). cbn [resolve]. rewrite R1.
    cbn [res_bind map resolved_id]. unfold store_contains in Hk. apply bool_decide_eq_true in Hk.
    split_and!; [done|by rewrite R2| |].
    + intros s0 inline Hs0. cbn [refs_known]. apply andb_true_iff. split.
      * apply orb_true_iff. destruct (Hs0 (block_id blake3 b)) as [H|H]; [exact Hk|by left|right].
        by apply bool_decide_eq_true.
      * apply R3. intros id Hid. destruct (Hnew id Hid) as [H| ->]; [by apply Hs0|by apply Hs0].
    + intros st Hst. cbn [append_all]. pose proof (view_reference blake3 st (sh_session s) (block_id blake3 b)) as Hr.
      destruct (view_eq _ _ Hst) as [Eb _].
      destruct (reference _ _ _ _) as [st1|u|]; [|by destruct Hr as [_ Hr]; rewrite Eb in Hr; rewrite Hr in Hk; destruct Hk|done].
      apply R4. destruct Hr as [Hr [b' Hb']]. rewrite Hr, Hv. unfold view_rec, turn_view. cbn [fold_left].
      rewrite <- Hst, view_put_known by (eexists; exact Hb').
      change ((view st).1) with (st_blocks st). by rewrite Hb'.
Qed.

(** ** Turns delivered and acknowledged *)

Lemma session_root_log st sid : session_root st sid = sl_root (view_log (view st) sid).
Proof. unfold session_root, view_log. cbn [view snd]. by destruct (st_sessions st !! sid). Qed.
Lemma session_ids_log st sid : session_ids st sid = sl_ids (view_log (view st) sid).
Proof. unfold session_ids, view_log. cbn [view snd]. by destruct (st_sessions st !! sid). Qed.

(** Every session's base is its root, and the dictionary is the receiver's. *)
Definition settled (k : Coordinator) : Prop :=
  c_dict (co_compressor k) = c_dict rc
  /\ forall sid s, co_sessions k !! sid = Some s ->
       sh_base_root s = sh_root s /\ c_dict (sh_append_compressor s) = c_dict rc
       /\ c_dict (sh_compressor s) = c_dict rc.

(** The receiver mirrors the client: the two stores look alike, everything the
    client has is acknowledged, and no cold start is in progress. *)
Definition mirrors (k : Coordinator) (r : Receiver) : Prop :=
  coord_ok blake3 k /\ settled k /\ view (rc_store r) = view (w_store (co_shared k))
  /\ forall sid, ss_pending (session_entry r sid) = ∅.

Lemma mirrors_new c f :
  c_dict c = c_dict rc -> mirrors (coordinator_with_filter store_new c f) (receiver_new store_new).
Proof. intros Hc. split; [apply coord_new_ok|]. split; [by split|]. split; [done|]. done. Qed.

Lemma settled_entry k sid :
  settled k -> sh_base_root (session_or_new k sid) = sh_root (session_or_new k sid)
    /\ c_dict (sh_append_compressor (session_or_new k sid)) = c_dict rc
    /\ c_dict (sh_compressor (session_or_new k sid)) = c_dict rc.
Proof.
  intros [Hc Hs]. unfold session_or_new. destruct (co_sessions k !! sid) as [s|] eqn:E; [by apply Hs in E|].
  by split_and!.
Qed.

(** A turn whose frame arrives is appended and acknowledged, the client takes
    the acknowledgement, and the two ends agree again. *)
Lemma turn_mirrored k r sid blocks k1 f :
  mirrors k r -> Forall block_ok blocks -> coord_ingest blake3 xxh3 k sid blocks = (k1, f) ->
  exists r1 ack k2,
    handle_append blake3 r f = (r1, Ok ack)
    /\ coord_ack blake3 k1 (ack_session ack) (ack_root ack) = (k2, true)
    /\ mirrors k2 r1 /\ view (rc_store r1) = turn_view blake3 (view (rc_store r)) sid blocks
    /\ a_base f = session_root (rc_store r) sid /\ is_Some (rc_sessions r1 !! sid)
    /\ (forall sid', is_Some (rc_sessions r !! sid') -> is_Some (rc_sessions r1 !! sid'))
    /\ exists rs, resolve blake3 (a_blocks f) = Ok rs /\ map resolved_id rs = map (block_id blake3) blocks.
Proof.
  intros (Hk & Hset & Hv & Hp) Hb E. unfold coord_ingest in E.
  destruct (settled_entry k sid Hset) as (Hbase & Hca & Hcc).
  pose proof (session_or_new_ok blake3 k sid Hk) as (Hok & Hsid & Hlog & _).
  destruct (ingest_turn _ _ _ _ _) as [[w s] f'] eqn:E1. injection E as <- <-.
  pose proof (ingest_turn_ok blake3 xxh3 k sid blocks w s f' Hk E1) as Hk1.
  unfold ingest_turn in E1. destruct (ingest_blocks _ _ _ _ _) as [[w1 s1] fbs] eqn:E2. injection E1 as <- <- <-.
  destruct (turn_resolves blocks _ _ _ _ _ E2 Hca Hb) as (rs & R1 & R2 & R3 & R4).
  destruct (ingest_blocks_spec _ _ _ _ _ _ _ _ E2) as [-> Hw]. rewrite Hsid in *.
  set (ids := map (block_id blake3) blocks) in *.
  destruct (with_ids_spec blake3 ids (session_or_new k sid)) as (S1 & S2 & S3 & S4 & S5 & S6 & S7 & _).
  rewrite S3, S4, Hsid in *.
  destruct (R4 _ Hv) as (st' & A & Hv').
  assert (a_base (mk_append sid (sh_base_root (session_or_new k sid)) fbs) = session_root (rc_store r) sid) as Hbr.
  { cbn [a_base]. by rewrite Hbase, session_root_log, Hv, Hlog. }
  assert (session_root st' sid = sh_root (with_ids blake3 (session_or_new k sid) ids)) as Hroot.
  { rewrite session_root_log, Hv', Hw.
    destruct (turn_view_spec blake3 sid blocks (view (w_store (co_shared k)))) as (_ & _ & _ & -> & _).
    by rewrite Hlog, S2. }
  pose proof (handle_append_ok blake3 r (mk_append sid (sh_base_root (session_or_new k sid)) fbs) rs st' R1) as HA.
  cbn [a_session] in HA. rewrite HA; [|apply R3; intros id Hid; left|apply Hp|exact Hbr|exact A].
  2: { unfold store_contains. apply bool_decide_eq_true. destruct (view_eq _ _ Hv) as [-> _]. exact Hid. }
  do 3 eexists. split; [done|]. cbn [ack_session ack_root]. rewrite Hroot.
  unfold coord_ack. cbn [co_sessions co_shared co_compressor]. rewrite lookup_insert_eq.
  unfold apply_ack. rewrite bool_decide_eq_true_2 by done. split; [done|].
  split; [|split; [by cbn; rewrite Hv', Hw, Hv|split; [exact Hbr|split; [by cbn; rewrite lookup_insert_eq; eexists|split; [|by exists rs]]]]].
  - split; [|split; [|split]].
    + apply (put_same_ok blake3 (mk_coord w1 (co_compressor k) _)); [done|]. destruct Hk1 as (_ & Hs1 & _).
      set (s1 := with_ids blake3 (session_or_new k sid) ids) in *.
      destruct (Hs1 sid s1) as (G1 & G2 & G3 & G4); [apply lookup_insert_eq|].
      destruct (apply_ack_spec blake3 s1 (sh_root s1) (set_base s1 (sh_root s1) (length (sh_ids s1))) true G1)
        as (G5 & _).
      { unfold apply_ack. by rewrite bool_decide_eq_true_2. }
      by split_and!.
    + split; [apply Hset|]. cbn [co_sessions]. intros sid' s'. rewrite insert_insert_eq, lookup_insert_Some.
      intros [[<- <-]|[_ H]]; [|by apply Hset in H]. cbn. by rewrite S6, S7.
    + exact Hv'.
    + intros sid'. unfold session_entry. cbn [rc_sessions put_session set_store].
      destruct (decide (sid = sid')) as [<-|Hne]; [rewrite lookup_insert_eq; apply Hp|].
      rewrite lookup_insert_ne by done. apply Hp.
  - intros sid' Hs'. cbn. destruct (decide (sid = sid')) as [<-|Hne];
      [rewrite lookup_insert_eq; by eexists|by rewrite lookup_insert_ne].
Qed.

(** *** A history of turns *)

(** A turn of a session; its frame is delivered once and then [t_copies] more
    times, as a client does that missed the acknowledgement. *)
Record ClientTurn := mk_turn { t_session : Z; t_blocks : list Block; t_copies : nat }.

Fixpoint deliver (n : nat) (r : Receiver) (f : AppendFrame) : Receiver * res ReceiverError AckFrame :=
  let '(r, out) := handle_append blake3 r f in
  match n with O => (r, out) | S n' => deliver n' r f end.

(** The turn is ingested, its frame delivered, the last answer applied. *)
Definition exchange (k : Coordinator) (r : Receiver) (t : ClientTurn) : option (Coordinator * Receiver) :=
  let '(k, f) := coord_ingest blake3 xxh3 k (t_session t) (t_blocks t) in
  match deliver (t_copies t) r f with
  | (r, Ok ack) =>
      let '(k, advanced) := coord_ack blake3 k (ack_session ack) (ack_root ack) in
      if advanced then Some (k, r) else None
  | _ => None
  end.

Fixpoint exchanges (k : Coordinator) (r : Receiver) (ts : list ClientTurn) : option (Coordinator * Receiver) :=
  match ts with
  | [] => Some (k, r)
  | t :: ts' => match exchange k r t with Some (k, r) => exchanges k r ts' | None => None end
  end.

(** What a session has said. *)
Definition said (sid : Z) (ts : list ClientTurn) : list Block :=
  concat (map t_blocks (filter (fun t => t_session t = sid) ts)).
Definition said_root (sid : Z) (ts : list ClientTurn) : MerkleRoot :=
  root_over blake3 ROOT_ZERO (map (block_id blake3) (said sid ts)).

(** A turn that is delivered twice moves its session's root. *)
Definition moving (ts : list ClientTurn) : Prop :=
  forall before t after, ts = before ++ t :: after -> t_copies t <> O -> t_blocks t <> [] ->
    root_over blake3 (said_root (t_session t) before) (map (block_id blake3) (t_blocks t))
    <> said_root (t_session t) before.

Fixpoint moving_from (before ts : list ClientTurn) : bool :=
  match ts with
  | [] => true
  | t :: ts' =>
      ((t_copies t =? 0)%nat || is_nil (t_blocks t)
       || negb (bool_decide (root_over blake3 (said_root (t_session t) before) (map (block_id blake3) (t_blocks t))
                             = said_root (t_session t) before)))
      && moving_from (before ++ [t]) ts'
  end.

Lemma moving_from_spec ts : forall before,
  moving_from before ts = true ->
  forall between t after, ts = between ++ t :: after -> t_copies t <> O -> t_blocks t <> [] ->
    root_over blake3 (said_root (t_session t) (before ++ between)) (map (block_id blake3) (t_blocks t))
    <> said_root (t_session t) (before ++ between).
Proof.
  induction ts as [|t0 ts IH]; intros before H between t after E Hc Hb; [by destruct between|].
  cbn [moving_from] in H. apply andb_true_iff in H as [H1 H2]. destruct between as [|t1 between].
  - injection E as -> ->. rewrite app_nil_r. apply orb_true_iff in H1 as [H1|H1].
    + apply orb_true_iff in H1 as [H1%Nat.eqb_eq|H1%is_nil_true]; done.
    + by apply negb_true_iff, bool_decide_eq_false in H1.
  - injection E as <- ->. specialize (IH _ H2 between t after eq_refl Hc Hb). by rewrite <- app_assoc in IH.
Qed.

Lemma moving_check ts : moving_from [] ts = true -> moving ts.
Proof. intros H before t after. by apply (moving_from_spec ts [] H before t after). Qed.

Lemma deliver_again n r f r1 ack rs :
  handle_append blake3 r f = (r1, Ok ack) -> resolve blake3 (a_blocks f) = Ok rs ->
  (n <> O -> rs = [] \/ root_over blake3 (a_base f) (map resolved_id rs) <> a_base f) ->
  deliver n r f = (r1, Ok ack).
Proof.
  revert r. induction n as [|n IH]; intros r E R H; cbn [deliver]; rewrite E; [done|].
  apply (IH r1); [|done|intros _; by apply H]. eapply append_replay; [exact E|exact R|by apply H].
Qed.

Lemma said_app sid a b : said sid (a ++ b) = said sid a ++ said sid b.
Proof. unfold said. by rewrite list.filter_app, map_app, concat_app. Qed.

Lemma said_one sid t : said sid [t] = if decide (t_session t = sid) then t_blocks t else [].
Proof.
  unfold said. rewrite list.filter_cons. case_decide; [|done]. cbn. by rewrite app_nil_r.
Qed.

(** The view says what the sessions said. *)
Definition records (v : View) (ts : list ClientTurn) : Prop :=
  addressed blake3 v
  /\ (forall sid, view_log v sid = mk_log (map (block_id blake3) (said sid ts)) (said_root sid ts))
  /\ (forall sid b, b ∈ said sid ts -> view_has v (block_id blake3 b))
  /\ forall id b, v.1 !! id = Some b -> exists sid, b ∈ said sid ts.

Lemma turn_stored sid l : forall v id b,
  (turn_view blake3 v sid l).1 !! id = Some b -> v.1 !! id = Some b \/ b ∈ l.
Proof.
  induction l as [|b0 l IH]; intros v id b; [by left|]. rewrite turn_view_cons. intros H.
  destruct (IH _ _ _ H) as [H1|H1]; [|right; by right].
  cbn [turn_view fold_left view_push fst] in H1. unfold view_put in H1.
  destruct (v.1 !! block_id blake3 b0) eqn:G; cbn [fst] in H1; [by left|].
  apply lookup_insert_Some in H1 as [[_ <-]|[_ H1]]; [right; by left|by left].
Qed.

Lemma records_turn v ts t :
  records v ts -> records (turn_view blake3 v (t_session t) (t_blocks t)) (ts ++ [t]).
Proof.
  intros (Ha & Hl & Hh & Hs). set (sid := t_session t).
  destruct (turn_view_spec blake3 sid (t_blocks t) v) as (C1 & C2 & C3 & C4 & C5).
  split; [auto|]. split_and!.
  - intros sid'. rewrite said_app, said_one. destruct (decide (t_session t = sid')) as [<-|Hne].
    + fold sid. rewrite C4, Hl. cbn [sl_ids sl_root]. unfold said_root.
      by rewrite said_app, said_one, decide_True, map_app, root_over_app.
    + unfold view_log in *. rewrite C5 by done. rewrite Hl. unfold said_root.
      by rewrite said_app, said_one, decide_False, app_nil_r by done.
  - intros sid' b. rewrite said_app, said_one, elem_of_app. intros [H|H]; [apply C3; by eapply Hh|].
    destruct (decide _); [|by apply elem_of_nil in H]. rewrite list.Forall_forall in C2. by apply C2.
  - intros id b H. apply turn_stored in H as [H|H].
    + destruct (Hs _ _ H) as [sid' H']. exists sid'. rewrite said_app, elem_of_app. by left.
    + exists sid. rewrite said_app, elem_of_app, said_one, decide_True by done. by right.
Qed.

Lemma records_log v ts sid : records v ts -> sl_root (view_log v sid) = said_root sid ts.
Proof. intros (_ & H & _). by rewrite H. Qed.

Lemma exchange_ok k r done t :
  mirrors k r -> records (view (rc_store r)) done -> Forall block_ok (t_blocks t) ->
  (t_copies t <> O -> t_blocks t <> [] ->
     root_over blake3 (said_root (t_session t) done) (map (block_id blake3) (t_blocks t))
     <> said_root (t_session t) done) ->
  exists k' r', exchange k r t = Some (k', r') /\ mirrors k' r'
    /\ records (view (rc_store r')) (done ++ [t]) /\ is_Some (rc_sessions r' !! t_session t)
    /\ forall sid, is_Some (rc_sessions r !! sid) -> is_Some (rc_sessions r' !! sid).
Proof.
  intros Hm Hrec Hb Hmove. unfold exchange.
  destruct (coord_ingest blake3 xxh3 k (t_session t) (t_blocks t)) as [k1 f] eqn:E.
  destruct (turn_mirrored k r _ _ k1 f Hm Hb E) as (r1 & ack & k2 & H1 & H2 & H3 & H4 & H5 & H6 & H7 & rs & R1 & R2).
  exists k2, r1. rewrite (deliver_again _ _ _ _ _ _ H1 R1).
  - rewrite H2. split; [done|]. split; [done|]. rewrite H4. split; [by apply records_turn|]. by split.
  - intros Hn. destruct (decide (t_blocks t = [])) as [He|He].
    { left. rewrite He in R2. by destruct rs. }
    right. rewrite R2, H5, session_root_log, (records_log _ done) by done. by apply Hmove.
Qed.

Lemma exchanges_ok ts : forall k r done,
  mirrors k r -> records (view (rc_store r)) done ->
  Forall (fun t => Forall block_ok (t_blocks t)) ts -> moving (done ++ ts) ->
  exists k' r', exchanges k r ts = Some (k', r') /\ mirrors k' r'
    /\ records (view (rc_store r')) (done ++ ts)
    /\ (forall t, t ∈ ts -> is_Some (rc_sessions r' !! t_session t))
    /\ forall sid, is_Some (rc_sessions r !! sid) -> is_Some (rc_sessions r' !! sid).
Proof.
  induction ts as [|t ts IH]; intros k r done Hm Hrec Hb Hmove; cbn [exchanges].
  { exists k, r. rewrite app_nil_r. split_and!; try done. by intros t ?%elem_of_nil. }
  apply list.Forall_cons in Hb as [Hb1 Hb].
  destruct (exchange_ok k r done t Hm Hrec Hb1) as (k1 & r1 & -> & Hm1 & Hrec1 & Hin1 & Hk1).
  { by apply (Hmove done t ts). }
  destruct (IH k1 r1 (done ++ [t]) Hm1 Hrec1 Hb) as (k2 & r2 & -> & Hm2 & Hrec2 & Hin2 & Hk2).
  { by rewrite <- app_assoc. }
  rewrite <- app_assoc in Hrec2. exists k2, r2. split_and!; try done.
  - intros t' [->|H]%elem_of_cons; [by apply Hk2|by apply Hin2].
  - intros sid H. by apply Hk2, Hk1.
Qed.

Lemma omap_stored v l :
  addressed blake3 v -> Forall (fun b => view_has v (block_id blake3 b)) l ->
  (forall b b', b ∈ l -> v.1 !! block_id blake3 b = Some b' -> b' = b) ->
  omap (fun id => v.1 !! id) (map (block_id blake3) l) = l.
Proof.
  intros Ha Hh Hc. induction l as [|b l IH]; [done|]. apply list.Forall_cons in Hh as [[b' Hb'] Hh].
  cbn. rewrite Hb'. rewrite (Hc b b' ltac:(by left) Hb'). f_equal. apply IH; [done|].
  intros b0 b1 H. apply Hc. by right.
Qed.

(** C39: the conversation arrives.  Let turns of any sessions follow one
    another, every frame delivered at least once and possibly again, as after
    a lost acknowledgement, and every last answer applied.  Then no frame is
    refused and no acknowledgement ignored, whatever is shared between turns
    and sessions and sent as a reference, and whatever the filter in front of
    the client's store answers; at the end every session's log at the receiver
    is the client's, root and ids, and if no two different blocks of the
    conversation share an address the receiver reconstructs exactly the blocks
    every session said, in order. *)
Theorem conversation_arrives c filter ts :
  c_dict c = c_dict rc -> Forall (fun t => Forall block_ok (t_blocks t)) ts -> moving ts ->
  exists k r,
    exchanges (coordinator_with_filter store_new c filter) (receiver_new store_new) ts = Some (k, r)
    /\ (forall sid, session_ids (rc_store r) sid = map (block_id blake3) (said sid ts)
                    /\ session_root (rc_store r) sid = said_root sid ts)
    /\ (forall sid s, co_sessions k !! sid = Some s ->
          sh_ids s = map (block_id blake3) (said sid ts) /\ sh_root s = said_root sid ts
          /\ sh_base_root s = said_root sid ts)
    /\ ((forall sid sid' b b', b ∈ said sid ts -> b' ∈ said sid' ts ->
            block_id blake3 b = block_id blake3 b' -> b = b') ->
        forall t, t ∈ ts -> receiver_reconstruct r (t_session t) = said (t_session t) ts).
Proof.
  intros Hc Hb Hmove.
  destruct (exchanges_ok ts (coordinator_with_filter store_new c filter) (receiver_new store_new) [])
    as (k & r & E & (Hk & Hset & Hv & _) & Hrec & Hin & _); [by apply mirrors_new| |done|done|].
  { split_and!; [|done| |]; [intros id b H|intros sid b H|intros id b H].
    - change ((∅ : gmap BlockId Block) !! id = Some b) in H. by rewrite lookup_empty in H.
    - by apply elem_of_nil in H.
    - change ((∅ : gmap BlockId Block) !! id = Some b) in H. by rewrite lookup_empty in H. }
  cbn [app] in Hrec. destruct Hrec as (Ha & Hl & Hh & Hs). exists k, r. split; [done|]. split_and!.
  - intros sid. rewrite session_ids_log, session_root_log, Hl. done.
  - intros sid s Hks. destruct Hk as (_ & Hk & _). destruct (Hk _ _ Hks) as (_ & _ & Hlog & _).
    rewrite <- Hv, Hl in Hlog. injection Hlog as E1 E2. destruct Hset as [_ Hset].
    destruct (Hset _ _ Hks) as [E3 _]. split_and!; congruence.
  - intros Hcf t Ht. unfold receiver_reconstruct. destruct (Hin t Ht) as [st ->]. unfold reconstruct.
    rewrite session_ids_log, Hl. cbn [sl_ids]. apply (omap_stored (view (rc_store r))); [done| |].
    + apply list.Forall_forall. intros b. apply Hh.
    + intros b b' H1 H2. destruct (Hs _ _ H2) as [sid' H3]. pose proof (Ha _ _ H2) as H4.
      by apply (Hcf sid' (t_session t)).
Qed.

(** ** Cold start *)

Variable soliton_point : nat -> Z -> nat.
Variable repair_count : nat -> Z -> nat.

(** *** A generation at the receiver *)

Definition sized (z : bytes) : Prop := 0 < length_z z < 2 ^ 32.

Lemma split_zeros fuel m : split_frames fuel (repeat 0 m) = [].
Proof.
  destruct fuel as [|fuel]; [done|]. cbn [split_frames].
  do 4 (destruct m as [|m]; [done|]). done.
Qed.

(** The receiver's first pass undoes the client's records, and stops at the
    padding. *)
Lemma split_records zs : forall fuel m,
  Forall sized zs -> (length zs < fuel)%nat ->
  split_frames fuel (concat (map bulk_record zs) ++ repeat 0 m) = zs.
Proof.
  induction zs as [|z zs IH]; intros fuel m Hz Hf; [apply split_zeros|].
  apply list.Forall_cons in Hz as [Hz Hzs]. destruct fuel as [|fuel]; [cbn in Hf; lia|].
  set (rest := concat (map bulk_record zs) ++ repeat 0 m). unfold sized in Hz.
  assert (concat (map bulk_record (z :: zs)) ++ repeat 0 m = le_bytes 4 (wrap 32 (length_z z)) ++ z ++ rest) as ->.
  { cbn [map concat]. unfold bulk_record at 1. by rewrite <- !app_assoc. }
  cbn [split_frames].
  rewrite take_app_length' by (symmetry; apply length_le_bytes).
  rewrite drop_app_length' by (symmetry; apply length_le_bytes).
  rewrite wrap_small by (unfold in_u; lia). rewrite le_val_bytes by (change (8 * Z.of_nat 4) with 32; lia).
  rewrite length_app, length_le_bytes, (proj2 (Nat.ltb_ge (4 + length (z ++ rest)) 4) ltac:(lia)).
  rewrite (proj2 (Z.eqb_neq (length_z z) 0) ltac:(lia)), length_z_app.
  pose proof (length_z_nonneg rest).
  rewrite (proj2 (Z.ltb_ge (length_z z + length_z rest) (length_z z)) ltac:(lia)). unfold length_z. rewrite Nat2Z.id, take_app_length, drop_app_length. f_equal.
  apply IH; [done|cbn in Hf; lia].
Qed.

Lemma add_symbols_receive src ws : forall d : FountainDecoder,
  source_ok src -> (0 < src_k src)%nat -> Z.of_nat (src_k src) < 65536 ->
  decoder_for src d -> Forall (codes src) ws ->
  add_symbols d ws = (receive d ws, Ok tt).
Proof.
  induction ws as [|w ws IH]; intros d Hs Hk Hlt Hd Hws; [done|].
  apply list.Forall_cons in Hws as [Hw Hws].
  destruct (add_codes src d w Hs Hk Hlt Hd Hw) as (sym & E & Hd1 & _).
  cbn [add_symbols dec_add receiver_codec]. rewrite E. unfold receive. cbn [fold_left]. rewrite E. cbn [fst].
  by apply IH.
Qed.

Lemma single_generation n sym :
  (0 < sym)%nat -> total_full_gens Z (mk_bulk_config (Nat.max (div_ceil_nat n sym) 1) sym 0 0) n = 1%nat.
Proof.
  intros Hs. unfold total_full_gens. cbn [bc_gen_size bc_symbol_size].
  set (t := Nat.max (div_ceil_nat n sym) 1). unfold div_ceil_nat at 1.
  replace ((t + t - 1) / t)%nat with 1%nat; [done|].
  apply (Nat.div_unique _ _ _ (t - 1)); unfold t; lia.
Qed.

Lemma chunk_delivers s pct gen chunk :
  (0 < sh_symbol_size s)%nat -> Z.of_nat (sh_symbol_size s) < 2 ^ 32 -> chunk <> [] -> bytes_ok chunk ->
  Z.of_nat (chunk_gen_size (sh_symbol_size s) chunk) < 65536 ->
  exists f m d1 d2 srcs,
    chunk_frame cpu soliton_point repair_count s pct gen chunk = Ok f /\ k_session f = sh_session s
    /\ add_symbols (dec_new (k_k f) (k_symbol_size f)) (k_symbols f) = (d1, Ok tt)
    /\ dec_decode d1 = (d2, Ok srcs) /\ concat srcs = chunk ++ repeat 0 m.
Proof.
  intros Hsym Hsym32 Hne Hb Hgs. set (sym := sh_symbol_size s) in *. set (gs := chunk_gen_size sym chunk) in *.
  set (cfg := mk_bulk_config gs sym pct 0). set (buf := padded chunk (gs * sym)).
  assert (0 < gs)%nat as Hgs0 by (unfold gs, chunk_gen_size; lia).
  assert (length chunk <= gs * sym)%nat as Hfit.
  { unfold gs, chunk_gen_size. pose proof (div_ceil_nat_ge (length chunk) sym Hsym). nia. }
  assert (length buf = (gs * sym)%nat) as Hbuf by (by apply padded_length).
  assert (bytes_ok buf) as Hbb by (by apply padded_bytes).
  set (e := mk_enc (Shared buf 0 sym gs) 0 0).
  assert (encoder_new_shared buf 0 sym gs 0 = Ok e) as He.
  { unfold encoder_new_shared. rewrite (proj2 (Nat.eqb_neq gs 0)), (proj2 (Nat.eqb_neq sym 0)) by lia.
    cbn [orb Nat.add]. rewrite (proj2 (Z.ltb_ge _ _)) by (unfold umax; nia).
    by rewrite (proj2 (Nat.ltb_ge _ _)) by lia. }
  destruct (encoder_new_shared_ok _ _ _ _ _ _ Hbb He) as (Hok & Hsrc & Hk & _).
  set (count := (gs + repair_count gs pct)%nat).
  assert (bulk_encode cpu soliton_point Z repair_count chunk cfg
          = Ok (map (fun w => (0, w)) (snd (produce cpu soliton_point e count)))) as Henc.
  { unfold bulk_encode. destruct (is_nil chunk) eqn:N; [by apply is_nil_true in N|].
    cbn [bc_symbol_size bc_gen_size cfg]. rewrite (proj2 (Nat.eqb_neq gs 0)), (proj2 (Nat.eqb_neq sym 0)) by lia.
    cbn [orb]. unfold cfg.
    replace (total_full_gens Z (mk_bulk_config gs sym pct 0) (length chunk)) with 1%nat
      by (symmetry; apply (single_generation (length chunk) sym Hsym)).
    rewrite Nat.mul_1_l. fold buf. cbn [seq encode_generations]. unfold encode_generation.
    cbn [bc_symbol_size bc_gen_size bc_repair_fraction Nat.mul]. change (wrap 32 (Z.of_nat 0)) with 0.
    rewrite He. cbn [res_bind]. by rewrite app_nil_r. }
  unfold chunk_frame. fold sym. fold gs. fold cfg. rewrite Henc.
  set (ws := snd (produce cpu soliton_point e count)).
  assert (src_k (fe_source e) = gs /\ src_symbol_size (fe_source e) = sym) as [Ek Es] by done.
  destruct (produce cpu soliton_point e count) as [e' sent] eqn:Hprod. cbn [snd] in ws.
  destruct (produce_codes cpu soliton_point e count e' sent Hok ltac:(lia) ltac:(lia) Hprod) as (Hcodes & _ & reps & Hreps).
  assert (decoder_for (fe_source e) (decoder_new gs sym)) as H0
    by (split_and!; [apply decoder_new_fresh|done|done|constructor]).
  pose proof (fountain_systematic cpu soliton_point e count ws Hok ltac:(lia) ltac:(lia) ltac:(lia)) as Hdec.
  rewrite Hprod in Hdec. cbn [snd] in Hdec. rewrite Ek, Es in Hdec.
  destruct (decoder_decode cpu (receive (decoder_new gs sym) ws)) as [d2 o] eqn:D. cbn [snd] in Hdec.
  eexists _, (gs * sym - length chunk)%nat, (receive (decoder_new gs sym) ws), d2, (sources (fe_source e)).
  split; [done|]. cbn [k_session k_k k_symbol_size k_symbols]. split; [done|].
  rewrite !wrap_small by (unfold in_u; lia). cbn [DlrReceiver.dec_new receiver_codec]. rewrite !Nat2Z.id.
  replace (map snd (map (fun w => (0, w)) ws)) with ws by (rewrite map_map; symmetry; apply map_id).
  split; [by apply (add_symbols_receive (fe_source e))|]. split.
  - cbn [dec_decode receiver_codec]. rewrite D. f_equal. apply Hdec; [done|].
    intros i Hi. unfold ws. rewrite Hreps. apply elem_of_app. left. apply list_elem_of_In, in_map, in_seq. lia.
  - unfold sources. rewrite Ek.
    change (concat (map (fun i => slice buf (0 + i * sym) (0 + i * sym + sym)) (seq 0 gs))
            = chunk ++ repeat 0 (gs * sym - length chunk)).
    rewrite concat_slices by lia. unfold slice. rewrite Nat.sub_0_r, drop_0, Nat.add_0_l.
    rewrite take_ge by lia. done.
Qed.

(** A block and its compressed form. *)
Definition item_ok (c : Compressor) (it : Block * bytes) : Prop :=
  block_ok it.1 /\ compress_now c (canonical_bytes it.1) = Ok it.2.
Definition item_id (it : Block * bytes) : BlockId := block_id blake3 it.1.
Definition recovered (its : list (Block * bytes)) : list (Block * BlockId) :=
  map (fun it => (it.1, item_id it)) its.

Lemma recover_items c its :
  c_dict c = c_dict rc -> Forall (item_ok c) its ->
  recover_all blake3 (map snd its) = Ok (recovered its).
Proof.
  intros Hc. induction 1 as [|[b z] its [Hb Hz] _ IH]; [done|]. cbn [map recover_all fst snd] in *.
  rewrite (recover_wire c b z Hc Hb Hz). cbn [res_bind]. by rewrite IH.
Qed.

Lemma item_sized c its :
  c_dict c = c_dict rc -> Forall (item_ok c) its ->
  Forall (fun it => sized it.2 /\ length_z it.2 <= length_z (b_payload it.1) + 18
                    /\ bytes_ok it.2) its.
Proof.
  intros Hc. apply List.Forall_impl. intros [b z] [Hb Hz]. cbn [fst snd] in *.
  pose proof (canonical_length b Hb) as Hl.
  destruct (wire_trip c (canonical_bytes b) Hc ltac:(lia)) as (z' & E & _ & Hz' & Hby).
  rewrite Hz in E. injection E as <-.
  assert (length_z (canonical_bytes b) = length_z (b_payload b) + 17) as Hcl.
  { unfold canonical_bytes, length_z. cbn [length]. rewrite !length_app, !length_le_bytes. lia. }
  unfold sized. split; [lia|]. split; [lia|]. apply Hby.
  destruct Hb as (_ & Hp & _). unfold canonical_bytes. constructor; [destruct b as [[] ? ?]; cbn; unfold is_byte; lia|].
  apply List.Forall_app. split; [apply le_bytes_ok|]. apply List.Forall_app. by split; [apply le_bytes_ok|].
Qed.

Lemma store_all_only l : forall st sid id b,
  st_blocks (store_all st sid l) !! id = Some b -> st_blocks st !! id = Some b \/ (b, id) ∈ l.
Proof.
  unfold store_all. induction l as [|[b0 id0] l IH]; intros st sid id b; cbn [fold_left]; [by left|].
  intros H. destruct (IH _ _ _ _ H) as [H1|H1]; [|right; by right]. cbn [fst snd] in H1.
  assert (st_blocks (fst (store_content_with_id st sid b0 id0)) = st_blocks (fst (put_block st b0 id0))) as E.
  { unfold store_content_with_id. destruct (put_block st b0 id0) as [s1 newly].
    apply (view_eq _ s1). destruct (st_wal st); [destruct newly|]; cbn [fst]; by rewrite ?view_record_wal_result. }
  rewrite E in H1. unfold put_block in H1. destruct (st_blocks st !! id0); cbn [fst st_blocks] in H1; [by left|].
  apply lookup_insert_Some in H1 as [[<- <-]|[_ H1]]; [right; by left|by left].
Qed.

(** A frame that carries whole blocks. *)
Definition carries (c : Compressor) (f : BulkFrame) (sid : Z) (its : list (Block * bytes)) : Prop :=
  k_session f = sid /\ Forall (item_ok c) its /\ exists m d1 d2 srcs,
    add_symbols (dec_new (k_k f) (k_symbol_size f)) (k_symbols f) = (d1, Ok tt)
    /\ dec_decode d1 = (d2, Ok srcs) /\ concat srcs = concat (map bulk_record (map snd its)) ++ repeat 0 m.

(** Such a frame, at a session with no decoder under way, is decoded at once:
    its blocks are stored and no longer pending, and no decoder is left. *)
Lemma bulk_carried c r f sid its :
  c_dict c = c_dict rc -> carries c f sid its -> ss_decoders (session_entry r sid) = ∅ ->
  exists r' o st',
    handle_bulk blake3 r f = (r', Ok o) /\ rc_sessions r' = <[sid := st']> (rc_sessions r)
    /\ ss_decoders st' = ∅
    /\ (forall id, id ∈ ss_pending st' <-> id ∈ ss_pending (session_entry r sid) /\ id ∉ map item_id its)
    /\ rc_store r' = store_all (rc_store r) sid (recovered its).
Proof.
  intros Hc (<- & Hits & m & d1 & d2 & srcs & Hadd & Hdec & Hflat) Hd0.
  unfold handle_bulk. cbv zeta. set (sid := k_session f) in *. rewrite Hd0, lookup_empty. cbn [default].
  rewrite Hadd, Hdec.
  pose proof (item_sized c its Hc Hits) as Hsz.
  rewrite Hflat, split_records.
  - rewrite (recover_items c its Hc Hits). set (r1 := set_store _ _).
    assert (map snd (recovered its) = map item_id its) as -> by (unfold recovered; by rewrite map_map).
    unfold retire. cbn [rc_sessions set_store put_session r1]. rewrite lookup_insert_eq.
    cbn [ss_pending ss_decoders ss_acked]. rewrite delete_insert_eq, delete_empty.
    set (p := fold_left _ _ _).
    assert (forall id, id ∈ p <-> id ∈ ss_pending (session_entry r sid) /\ id ∉ map item_id its) as Hp
      by (intros id; exact (fold_difference blake3 _ _ id)).
    destruct (bool_decide (p = ∅) && negb (ss_acked (session_entry r sid)));
      do 3 eexists; (split; [done|]); cbn [rc_sessions put_session set_store rc_store ss_decoders ss_pending];
      (split; [apply insert_insert_eq|]); by split_and!.
  - apply list.Forall_fmap. eapply List.Forall_impl; [|exact Hsz]. by intros it [H _].
  - rewrite length_app, length_map. clear. induction its as [|it its IH]; [cbn; lia|].
    cbn [map concat length]. rewrite length_app. unfold bulk_record at 1. rewrite length_app, length_le_bytes. lia.
Qed.

(** *** The client's generations *)

Definition item_record (it : Block * bytes) : bytes := bulk_record it.2.
Definition payload_limit (b : Block) : Prop := length_z (b_payload b) + 22 <= 65535 * 1024.

Lemma bulk_records_ok st c missing :
  c_dict c = c_dict rc ->
  Forall (fun id => exists b, store_get st id = Some b /\ block_ok b /\ payload_limit b /\ block_id blake3 b = id) missing ->
  exists its, bulk_records st c missing = Ok (map item_record its) /\ map item_id its = missing
    /\ Forall (item_ok c) its
    /\ Forall (fun it => store_get st (item_id it) = Some it.1 /\ payload_limit it.1) its.
Proof.
  intros Hc. induction 1 as [|id missing (b & Hg & Hb & Hp & Hid) _ (its & E & M & I & G)]; [by exists []|].
  destruct (wire_compressed c b Hc Hb) as [z Hz]. exists ((b, z) :: its).
  cbn [bulk_records]. rewrite Hg, Hz, E. cbn [res_bind map]. unfold item_id at 1, item_record. cbn [fst snd].
  split_and!; [done|by rewrite Hid, M|by constructor|]. constructor; [|done].
  unfold item_id. cbn [fst]. by rewrite Hid.
Qed.

Lemma group_items {A B} (f : A -> B) groups : forall l,
  concat groups = map f l -> exists gl, groups = map (map f) gl /\ concat gl = l.
Proof.
  induction groups as [|g groups IH]; intros l E; cbn [concat] in E.
  - exists []. split; [done|]. by destruct l.
  - symmetry in E. apply map_eq_app in E as (l1 & l2 & -> & <- & E2). symmetry in E2.
    destruct (IH _ E2) as (gl & -> & <-). by exists (l1 :: gl).
Qed.

(** Every group is small enough for the two bytes of a symbol's index. *)
Lemma group_small c (g : list (Block * bytes)) :
  c_dict c = c_dict rc -> Forall (item_ok c) g -> Forall (fun it => payload_limit it.1) g ->
  group_ok (64 * 1024) (map item_record g) ->
  Z.of_nat (chunk_gen_size 1024 (concat (map item_record g))) < 65536.
Proof.
  intros Hc Hg Hp [_ Hok].
  assert (length_z (concat (map item_record g)) <= 65535 * 1024) as Hlen.
  { destruct Hok as [Hok|Hok]; [unfold length_z; lia|]. destruct g as [|it [|]]; try done.
    apply list.Forall_cons in Hp as [Hp _]. pose proof (item_sized c _ Hc Hg) as Hs.
    apply list.Forall_cons in Hs as [(_ & Hs & _) _]. unfold payload_limit in Hp.
    cbn [map concat]. unfold item_record, bulk_record. rewrite app_nil_r, length_z_app, length_z_le_bytes. lia. }
  unfold chunk_gen_size, div_ceil_nat. unfold length_z in Hlen. set (n := length _) in *.
  rewrite Nat2Z.inj_max, Nat2Z.inj_div, Nat2Z.inj_sub, Nat2Z.inj_add by lia. zlia.
Qed.

Lemma records_bytes c its :
  c_dict c = c_dict rc -> Forall (item_ok c) its -> bytes_ok (concat (map item_record its)).
Proof.
  intros Hc Hits. pose proof (item_sized c its Hc Hits) as Hs. clear Hits.
  induction Hs as [|it its (_ & _ & Hb) _ IH]; [constructor|]. cbn [map concat].
  apply List.Forall_app. split; [|done]. apply List.Forall_app. by split; [apply le_bytes_ok|].
Qed.

Definition group_good (c : Compressor) (g : list (Block * bytes)) : Prop :=
  Forall (item_ok c) g /\ Forall (fun it => payload_limit it.1) g /\ group_ok (64 * 1024) (map item_record g).

Lemma chunk_frames_ok s pct gl : forall gen,
  sh_symbol_size s = 1024%nat -> c_dict (sh_compressor s) = c_dict rc ->
  Forall (group_good (sh_compressor s)) gl ->
  exists frames,
    chunk_frames cpu soliton_point repair_count s pct gen
      (map (fun g => concat (map item_record g)) gl) = Ok frames
    /\ Forall2 (fun f g => carries (sh_compressor s) f (sh_session s) g) frames gl.
Proof.
  induction gl as [|g gl IH]; intros gen Hsym Hc Hgl; cbn [map chunk_frames]; [by exists []|].
  apply list.Forall_cons in Hgl as [(Hg1 & Hg2 & Hg3) Hgl].
  destruct (IH (S gen) Hsym Hc Hgl) as (frames & -> & Hfs).
  destruct (chunk_delivers s pct gen (concat (map item_record g))) as (f & m & d1 & d2 & srcs & -> & Hk & Ha & Hd & Hcat).
  - lia.
  - rewrite Hsym. lia.
  - destruct Hg3 as [Hne _]. destruct g as [|it g]; [done|]. cbn [map concat]. unfold item_record at 1, bulk_record.
    intros E. apply (f_equal length) in E. rewrite !length_app, length_le_bytes in E. cbn in E. lia.
  - by apply (records_bytes (sh_compressor s)).
  - rewrite Hsym. by apply (group_small (sh_compressor s)).
  - cbn [res_bind]. exists (f :: frames). split; [done|]. constructor; [|done].
    split; [done|]. split; [done|]. exists m, d1, d2, srcs. split_and!; [done|done|].
    rewrite Hcat. by rewrite map_map.
Qed.

(** *** Any order of the frames *)

Lemma run_bulk c sid fs (gl : list (list (Block * bytes))) : forall r r2 outs,
  c_dict c = c_dict rc -> ss_decoders (session_entry r sid) = ∅ ->
  Forall (fun f => exists g, g ∈ gl /\ carries c f sid g) fs ->
  run_frames blake3 r (map FBulk fs) = (r2, outs) ->
  (forall id, id ∈ ss_pending (session_entry r2 sid) -> id ∈ ss_pending (session_entry r sid)
     /\ forall f g, f ∈ fs -> carries c f sid g -> id ∉ map item_id g)
  /\ st_sessions (rc_store r2) = st_sessions (rc_store r)
  /\ forall id b, st_blocks (rc_store r2) !! id = Some b ->
       st_blocks (rc_store r) !! id = Some b \/ exists g it, g ∈ gl /\ it ∈ g /\ item_id it = id /\ it.1 = b.
Proof.
  induction fs as [|f fs IH]; intros r r2 outs Hc Hd Hfs E; cbn [map run_frames] in E.
  { injection E as <- _. split_and!; [|done|by left]. intros id H. split; [done|]. by intros f g ?%elem_of_nil. }
  apply list.Forall_cons in Hfs as [(g0 & Hg0 & Hcar0) Hfs].
  destruct (handle_frame blake3 r (FBulk f)) as [r1 out] eqn:F.
  destruct (run_frames blake3 r1 (map FBulk fs)) as [r2' outs2] eqn:G. injection E as <- _.
  assert (forall g, carries c f sid g -> exists st', rc_sessions r1 = <[sid := st']> (rc_sessions r)
            /\ ss_decoders st' = ∅
            /\ (forall id, id ∈ ss_pending st' <-> id ∈ ss_pending (session_entry r sid) /\ id ∉ map item_id g)
            /\ rc_store r1 = store_all (rc_store r) sid (recovered g)) as Hstep.
  { intros g Hcar. destruct (bulk_carried c r f sid g Hc Hcar Hd) as (r' & o & st' & H1 & H2 & H3 & H4 & H5).
    cbn [handle_frame] in F. rewrite H1 in F.
    assert (r1 = r') as -> by (destruct o; by injection F as <- _). by exists st'. }
  destruct (Hstep g0 Hcar0) as (st' & S1 & S2 & S3 & S4).
  assert (session_entry r1 sid = st') as He by (unfold session_entry; by rewrite S1, lookup_insert_eq).
  destruct (IH r1 r2' outs2 Hc ltac:(by rewrite He) Hfs G) as (I1 & I2 & I3). rewrite He in I1. split_and!.
  - intros id H. destruct (I1 id H) as [H1 H2]. split; [apply S3 in H1; by destruct H1|].
    intros f' g [-> |Hin]%elem_of_cons Hcar; [|by apply (H2 f')].
    destruct (Hstep g Hcar) as (st2 & T1 & _ & T3 & _).
    assert (st2 = st') as ->.
    { rewrite S1 in T1. apply (f_equal (fun m => m !! sid)) in T1. rewrite !lookup_insert_eq in T1. congruence. }
    apply T3 in H1. by destruct H1.
  - rewrite I2, S4. by destruct (store_all_spec (recovered g0) (rc_store r) sid) as (_ & -> & _).
  - intros id b H. apply I3 in H as [H|H]; [|by right]. rewrite S4 in H.
    apply store_all_only in H as [H|H]; [by left|]. right. unfold recovered in H.
    apply list_elem_of_map in H as (it & [= -> ->] & Hit). by exists g0, it.
Qed.

Lemma omap_ext_on {A B} (f g : A -> option B) (l : list A) :
  (forall x, x ∈ l -> f x = g x) -> omap f l = omap g l.
Proof.
  induction l as [|x l IH]; intros H; [done|]. cbn. rewrite (H x) by (by left).
  rewrite IH by (intros y Hy; apply H; by right). done.
Qed.

Lemma resync_spec r q r1 missing :
  handle_resync r q = (r1, missing) ->
  ss_decoders (session_entry r1 (r_session q)) = ss_decoders (session_entry r (r_session q))
  /\ ss_pending (session_entry r1 (r_session q)) = list_to_set missing
  /\ (forall id, id ∈ missing -> id ∈ r_manifest q)
  /\ st_blocks (rc_store r1) = st_blocks (rc_store r)
  /\ st_sessions (rc_store r1) !! r_session q = Some (mk_log (r_manifest q) (r_root q)).
Proof.
  unfold handle_resync. cbv zeta. intros [= <- <-].
  destruct (seed_spec blake3 (rc_store r) (r_session q) (r_manifest q) (r_root q)) as [E1 E2].
  unfold session_entry. cbn [rc_sessions put_session set_store rc_store]. rewrite lookup_insert_eq.
  cbn [default ss_decoders ss_pending]. rewrite E1, E2, lookup_insert_eq.
  split; [done|split; [done|split; [|by split]]].
  intros id H. by apply list_elem_of_filter in H as [_ H].
Qed.

Lemma bulk_frames_ok w s missing pct :
  c_dict (sh_compressor s) = c_dict rc -> sh_fountain_k s = 64%nat -> sh_symbol_size s = 1024%nat ->
  missing <> [] ->
  Forall (fun id => exists b, store_get (w_store w) id = Some b /\ block_ok b /\ payload_limit b
                            /\ block_id blake3 b = id) missing ->
  exists frames gl,
    bulk_frames_for cpu soliton_point repair_count w s missing pct = Ok frames
    /\ Forall2 (fun f g => carries (sh_compressor s) f (sh_session s) g) frames gl
    /\ map item_id (concat gl) = missing
    /\ Forall (fun it => store_get (w_store w) (item_id it) = Some it.1) (concat gl).
Proof.
  intros Hc Hk Hsym Hne Hall.
  destruct (bulk_records_ok (w_store w) (sh_compressor s) missing Hc Hall) as (its & E & M & I & G).
  assert (Forall (fun rec : bytes => rec <> []) (map item_record its)) as Hrec.
  { apply list.Forall_fmap, list.Forall_forall. intros it _ H. assert (length (item_record it) = 0%nat) as Hl by (by rewrite H).
    unfold item_record, bulk_record in Hl. rewrite length_app, length_le_bytes in Hl. lia. }
  destruct (pack_spec (64 * 1024) (map item_record its) []) as (groups & P1 & P2 & P3); [constructor|done|done|].
  cbn [concat app] in P1, P2. apply group_items in P2 as (gl & -> & Hgl).
  assert (Forall (group_good (sh_compressor s)) gl) as Hgood.
  { rewrite list.Forall_forall in P3. rewrite <- Hgl in I, G.
    rewrite list.Forall_forall in I, G. apply list.Forall_forall. intros g Hg. split; [|split; [|apply P3, list_elem_of_map; by exists g]].
    - apply list.Forall_forall. intros it Hit. apply I. apply list_elem_of_In, in_concat. exists g. by rewrite <- !list_elem_of_In.
    - apply list.Forall_forall. intros it Hit. apply G. apply list_elem_of_In, in_concat. exists g. by rewrite <- !list_elem_of_In. }
  destruct (chunk_frames_ok s pct gl 0 Hsym Hc Hgood) as (frames & F1 & F2).
  exists frames, gl. split_and!; [|done|by rewrite Hgl|].
  - unfold bulk_frames_for. destruct (is_nil missing) eqn:N; [by apply is_nil_true in N|].
    rewrite E. cbn [res_bind]. rewrite Hk, Hsym, P1, map_map. exact F1.
  - rewrite Hgl. eapply List.Forall_impl; [|exact G]. by intros it [H _].
Qed.

(** a cold start completes.  Take a client in any state reached through
    its operations and a receiver with any content and no decoder under way for
    the session, which answers the session's RESYNC with the blocks it lacks.
    The client can build the BULK frames for them (no missing block being
    larger than what one generation carries), and whatever the order in which
    these frames arrive, and however often, the receiver decodes them all and
    sends exactly one acknowledgement, of the client's root; the client takes
    it as its base.  Then the receiver's log is the client's, nothing is
    pending, whatever it did not have before is what the client has, and if the
    two never held different blocks under an address of the session it
    reconstructs exactly what the client's store does. *)
Theorem cold_start_delivers k sid s r pct r1 missing :
  coord_ok blake3 k -> co_sessions k !! sid = Some s ->
  c_dict (sh_compressor s) = c_dict rc -> sh_fountain_k s = 64%nat -> sh_symbol_size s = 1024%nat ->
  (forall id b, id ∈ sh_ids s -> store_get (w_store (co_shared k)) id = Some b -> block_ok b /\ payload_limit b) ->
  ss_decoders (session_entry r sid) = ∅ ->
  handle_resync r (resync_frame s) = (r1, missing) -> missing <> [] ->
  exists frames,
    bulk_frames_for cpu soliton_point repair_count (co_shared k) s missing pct = Ok frames
    /\ forall fs r2 outs,
         (forall f, f ∈ fs <-> f ∈ frames) -> run_frames blake3 r1 (map FBulk fs) = (r2, outs) ->
         (exists before after, outs = before ++ Ok (Some (FAck (mk_ack sid (sh_root s)))) :: after
            /\ Forall (fun out => ~ acks sid out) before /\ Forall (fun out => forall a, out <> Ok (Some a)) after)
         /\ (exists k', coord_ack blake3 k sid (sh_root s) = (k', true)
              /\ exists s', co_sessions k' !! sid = Some s' /\ sh_base_root s' = sh_root s /\ sh_ids s' = sh_ids s)
         /\ session_ids (rc_store r2) sid = sh_ids s /\ session_root (rc_store r2) sid = sh_root s
         /\ ss_pending (session_entry r2 sid) = ∅
         /\ (forall id b, store_get (rc_store r2) id = Some b ->
               store_get (rc_store r) id = Some b \/ store_get (w_store (co_shared k)) id = Some b)
         /\ ((forall id b b', id ∈ sh_ids s -> store_get (rc_store r) id = Some b ->
                store_get (w_store (co_shared k)) id = Some b' -> b = b') ->
             receiver_reconstruct r2 sid = reconstruct (w_store (co_shared k)) sid).
Proof.
  intros (Ha & Hk & _) Hs Hc Hfk Hsym Hlim Hd Hres Hne. destruct (Hk _ _ Hs) as (Hok & Hsid & Hlog & Hhas).
  destruct (resync_spec _ _ _ _ Hres) as (R1 & R2 & R3 & R4 & R5). cbn [resync_frame r_session r_manifest r_root] in *.
  rewrite Hsid in *. set (w := co_shared k) in *.
  assert (forall id, id ∈ sh_ids s -> exists b, store_get (w_store w) id = Some b /\ block_id blake3 b = id) as Hst.
  { intros id H. rewrite list.Forall_forall in Hhas. destruct (Hhas id H) as [b Hb]. exists b. split; [done|by apply Ha]. }
  destruct (bulk_frames_ok w s missing pct Hc Hfk Hsym Hne) as (frames & gl & F1 & F2 & F3 & F4).
  { apply list.Forall_forall. intros id H. apply R3 in H. destruct (Hst id H) as (b & Hb & Hid). exists b.
    destruct (Hlim id b H Hb). by split_and!. }
  rewrite Hsid in F2. exists frames. split; [done|]. intros fs r2 outs Hfs Hrun.
  assert (Forall (fun f => exists g, g ∈ gl /\ carries (sh_compressor s) f sid g) fs) as Hcar.
  { apply list.Forall_forall. intros f Hf. apply Hfs in Hf. apply list_elem_of_lookup in Hf as [n Hn].
    destruct (Forall2_lookup_l _ _ _ _ _ F2 Hn) as (g & Hg & Hfg). exists g. split; [|done].
    apply list_elem_of_lookup. by exists n. }
  destruct (run_bulk (sh_compressor s) sid fs gl r1 r2 outs Hc) as (U1 & U2 & U3); [by rewrite R1|done|done|].
  assert (ss_pending (session_entry r2 sid) = ∅) as Hp.
  { apply set_eq. intros id. split; [|set_solver]. intros H. exfalso. destruct (U1 id H) as [H1 H2].
    rewrite R2, elem_of_list_to_set, <- F3, list_elem_of_map in H1. destruct H1 as (it & -> & Hit).
    rewrite list_elem_of_In, in_concat in Hit. destruct Hit as (g & Hg & Hit).
    apply list_elem_of_In, list_elem_of_lookup in Hg as [n Hn].
    destruct (Forall2_lookup_r _ _ _ _ _ F2 Hn) as (f & Hf & Hfg).
    apply (H2 f g); [apply Hfs, list_elem_of_lookup; by exists n|done|]. apply list_elem_of_map.
    exists it. by rewrite list_elem_of_In. }
  pose proof (cold_after_resync blake3 _ _ _ _ Hres Hne) as Hcold. cbn [resync_frame r_session r_manifest r_root] in Hcold.
  rewrite Hsid in Hcold.
  assert (Forall (fun f => ~ resyncs sid f) (map FBulk fs)) as Hnr.
  { apply list.Forall_fmap, list.Forall_forall. by intros f _ []. }
  destruct (cold_run blake3 _ _ _ _ _ _ _ Hcold Hnr Hrun) as [[Hc2 _]|H].
  { exfalso. destruct Hc2 as (_ & st & Hst2 & Hpn & _). by rewrite (session_entry_Some _ _ _ Hst2) in Hp. }
  destruct H as (fs1 & b & fs2 & o1 & o2 & E1 & E2 & -> & E3 & E4 & [(st2 & Hst2 & _) Hw] & E5).
  assert (st_sessions (rc_store r2) !! sid = Some (mk_log (sh_ids s) (sh_root s))) as Hlog2 by (by rewrite U2).
  assert (forall id b, store_get (rc_store r2) id = Some b ->
            store_get (rc_store r) id = Some b \/ store_get (w_store w) id = Some b) as Hsame.
  { intros id b' H. destruct (U3 id b' H) as [H1|(g & it & H1 & H2 & <- & <-)]; [left; unfold store_get; by rewrite <- R4|right].
    rewrite list.Forall_forall in F4. apply F4, list_elem_of_In, in_concat. exists g. by rewrite <- !list_elem_of_In. }
  split.
  { exists o1, o2. split_and!; [done|done|]. eapply Forall2_Forall_r; [exact E5|].
    assert (Forall (bulk_for sid) (map FBulk fs)) as Hb.
    { apply list.Forall_fmap. eapply List.Forall_impl; [|exact Hcar]. by intros f (g & _ & Hk' & _). }
    rewrite E1 in Hb. apply List.Forall_app in Hb as [_ [_ Hb]%list.Forall_cons].
    eapply List.Forall_impl; [|exact Hb]. intros f Hf out Hout. by apply Hout. }
  split.
  { unfold coord_ack. rewrite Hs. unfold apply_ack. rewrite bool_decide_eq_true_2 by done. eexists. split; [done|].
    eexists. split; [apply lookup_insert_eq|]. done. }
  split_and!; [by unfold session_ids; rewrite Hlog2|by unfold session_root; rewrite Hlog2|done|done|].
  intros Hagree. unfold receiver_reconstruct. rewrite Hst2. unfold reconstruct.
  assert (session_ids (rc_store r2) sid = sh_ids s) as -> by (unfold session_ids; by rewrite Hlog2).
  assert (session_ids (w_store w) sid = sh_ids s) as -> by (by rewrite session_ids_log, Hlog).
  apply omap_ext_on. intros id Hid. destruct (Hst id Hid) as (b' & Hb' & _).
  rewrite list.Forall_forall in Hw. pose proof (Hw id Hid) as Hr2.
  unfold store_contains in Hr2. apply bool_decide_eq_true in Hr2. destruct Hr2 as [b2 Hb2].
  unfold store_get in *. rewrite Hb2, Hb'. f_equal. destruct (Hsame id b2 Hb2) as [H|H]; [exact (Hagree id b2 b' Hid H Hb')|congruence].
Qed.
End Sync.

(** ** Concrete runs *)

#[local] Existing Instance Toy.zstd.
#[local] Existing Instance Toy.laws.

#[export] Instance toy_total : ZstdTotal Toy.zstd.
Proof. split; intros; eexists; reflexivity. Qed.

Module SyncSample.
Definition h := Sample.h.
Definition b1 := Sample.b1.
Definition b2 := Sample.b2.
Definition big : Block := mk_block ToolResult 3 (repeat 7 60).
Definition rc : Compressor := ShimSample.comp.
#[export] Instance codec : Codec := receiver_codec NoSimd rc.
Definition coord0 : Coordinator := coordinator_with_filter store_new ShimSample.comp (with_capacity 16).
Definition recv0 : Receiver := receiver_new store_new.
Definition turns : list ClientTurn := [mk_turn 7 [b1; big] 1; mk_turn 9 [big; b2] 0; mk_turn 7 [b2] 2].
Definition ingest (k : Coordinator) (l : list Block) := coord_ingest h ShimSample.xxh3 k 7 l.
(** One turn that is lost, and the next one. *)
Definition lost : Coordinator * AppendFrame := ingest coord0 [b1].
Definition next : Coordinator * AppendFrame := ingest (fst lost) [b2].
Definition later : Coordinator * AppendFrame := ingest (fst next) [b1].
Definition after_next : Receiver := fst (handle_append h recv0 (snd next)).
(** Two turns sent without waiting. *)
Definition after_first : Receiver := fst (handle_append h recv0 (snd lost)).
(** A cold start of session 7. *)
Definition warm_coord : Coordinator := coord_run h ShimSample.xxh3 coord0 [CIngest 7 [b1; big; b2]].
Definition sess : SessionShim := session_or_new warm_coord 7.
Definition resynced : Receiver * list BlockId := handle_resync recv0 (resync_frame sess).
Definition soliton (k : nat) (r : Z) : nat := Z.to_nat (r mod Z.of_nat k).
Definition repairs (k : nat) (pct : Z) : nat := 1%nat.
End SyncSample.

Lemma said_in sid ts b : b ∈ said sid ts -> In b (concat (map t_blocks ts)).
Proof.
  unfold said. rewrite list_elem_of_In, !in_concat. intros (l & Hl & Hb). exists l. split; [|done].
  apply in_map_iff in Hl as (t & <- & Ht). apply list_elem_of_In, list_elem_of_filter in Ht as [_ Ht].
  apply in_map. by apply list_elem_of_In.
Qed.

Theorem conversation_arrives_witness :
  exists k r,
    exchanges SyncSample.h ShimSample.xxh3 NoSimd SyncSample.rc SyncSample.coord0 SyncSample.recv0 SyncSample.turns
    = Some (k, r)
    /\ receiver_reconstruct r 7 = [SyncSample.b1; SyncSample.big; SyncSample.b2].
Proof.
  destruct (conversation_arrives SyncSample.h ShimSample.xxh3 NoSimd SyncSample.rc ShimSample.comp (with_capacity 16)
    SyncSample.turns) as (k & r & E & _ & _ & Hrec).
  - reflexivity.
  - by_decide.
  - apply moving_check. vm_compute. reflexivity.
  - exists k, r. split; [exact E|].
    refine (Hrec _ (mk_turn 7 [SyncSample.b1; SyncSample.big] 1) _); [|left].
    intros sid sid' b b' H1%said_in H2%said_in.
    change (In b [SyncSample.b1; SyncSample.big; SyncSample.big; SyncSample.b2; SyncSample.b2]) in H1.
    change (In b' [SyncSample.b1; SyncSample.big; SyncSample.big; SyncSample.b2; SyncSample.b2]) in H2.
    destruct H1 as [<- |[<- |[<- |[<- |[<- |[]]]]]], H2 as [<- |[<- |[<- |[<- |[<- |[]]]]]];
      vm_compute; ((intros _; reflexivity) || (intros H; discriminate H)).
Defined.

Theorem cold_start_delivers_witness :
  exists frames,
    bulk_frames_for NoSimd SyncSample.soliton SyncSample.repairs (co_shared SyncSample.warm_coord)
      SyncSample.sess (snd SyncSample.resynced) 2 = Ok frames
    /\ length frames = 1%nat
    /\ receiver_reconstruct (fst (run_frames SyncSample.h (fst SyncSample.resynced) (map FBulk (frames ++ frames)))) 7
       = [SyncSample.b1; SyncSample.big; SyncSample.b2].
Proof.
  assert (coord_ok SyncSample.h SyncSample.warm_coord) as Hok.
  { unfold SyncSample.warm_coord. apply coord_run_ok. unfold SyncSample.coord0. apply coord_new_ok. }
  assert (co_sessions SyncSample.warm_coord !! 7 = Some SyncSample.sess) as Hs by (vm_compute; reflexivity).
  assert (sh_ids SyncSample.sess = map (block_id SyncSample.h) [SyncSample.b1; SyncSample.big; SyncSample.b2])
    as Hids by (vm_compute; reflexivity).
  assert (forall id b, id ∈ sh_ids SyncSample.sess ->
            store_get (w_store (co_shared SyncSample.warm_coord)) id = Some b -> block_ok b /\ payload_limit b) as Hlim.
  { rewrite Hids. intros id b Hid Hb. apply list_elem_of_In in Hid.
    destruct Hid as [<- |[<- |[<- |[]]]]; vm_compute in Hb; injection Hb as <-; (split; [by_decide|discriminate]). }
  destruct (cold_start_delivers SyncSample.h NoSimd SyncSample.rc SyncSample.soliton SyncSample.repairs
              SyncSample.warm_coord 7 SyncSample.sess SyncSample.recv0 2 (fst SyncSample.resynced)
              (snd SyncSample.resynced) Hok Hs eq_refl eq_refl eq_refl Hlim eq_refl eq_refl)
    as (frames & F & Hrun); [intros H; vm_compute in H; discriminate|].
  exists frames. split; [exact F|]. split; [vm_compute in F; injection F as <-; reflexivity|].
  destruct (run_frames SyncSample.h (fst SyncSample.resynced) (map FBulk (frames ++ frames))) as [r2 outs] eqn:E.
  destruct (Hrun (frames ++ frames) r2 outs) as (_ & _ & _ & _ & _ & _ & Hrec);
    [intros f; rewrite elem_of_app; tauto|exact E|].
  refine (eq_trans (Hrec _) _); [intros id b b' _ H; discriminate H|vm_compute; reflexivity].
Defined.

(** a lost turn is never sent again.  The frame of a turn carries that
    turn's blocks only, but names the last acknowledged root as its base.  Let
    the first turn of a session be lost and the second one delivered: the
    receiver, still at the base, accepts it, with a log that lacks the first
    turn; the client does not know the acknowledged root and keeps its base;
    and when the client says the first turn's block again it sends a
    reference, which the receiver refuses. *)
Theorem lost_turn_diverges :
  snd (handle_append SyncSample.h SyncSample.recv0 (snd SyncSample.next))
    = Ok (mk_ack 7 (session_root (rc_store SyncSample.after_next) 7))
  /\ session_ids (rc_store SyncSample.after_next) 7 = [block_id SyncSample.h SyncSample.b2]
  /\ sh_ids (session_or_new (fst SyncSample.next) 7)
     = [block_id SyncSample.h SyncSample.b1; block_id SyncSample.h SyncSample.b2]
  /\ snd (coord_ack SyncSample.h (fst SyncSample.next) 7 (session_root (rc_store SyncSample.after_next) 7)) = false
  /\ snd (handle_append SyncSample.h SyncSample.after_next (snd SyncSample.later)) = Err EMissingRef.
Proof. vm_compute. repeat split; reflexivity. Qed.

(** A turn sent before the acknowledgement of the one before it is refused: it
    names the same base. *)
Lemma pipelined_turn_refused :
  snd (handle_append SyncSample.h SyncSample.recv0 (snd SyncSample.lost))
    = Ok (mk_ack 7 (session_root (rc_store SyncSample.after_first) 7))
  /\ snd (handle_append SyncSample.h SyncSample.after_first (snd SyncSample.next))
     = Err (EBaseRootMismatch 7 ROOT_ZERO (session_root (rc_store SyncSample.after_first) 7)).
Proof. vm_compute. repeat split; reflexivity. Qed.

(** When compressing fails the client sends the canonical bytes without a
    marker: their first byte, the block's kind, is read as one, and for three
    of the kinds it is none. *)
Lemma fallback_unreadable `{zstd : Zstd} (h : bytes -> bytes) cpu rc b :
  2 <= kind_to_byte (b_kind b) ->
  recover_block (codec := receiver_codec cpu rc) h (canonical_bytes b) = Err ECompress.
Proof. intros Hk. unfold recover_block. destruct b as [[] n p]; cbn in Hk |- *; try lia; done. Qed.
