(* ===== verification/DlrRs.v ===== *)
(** Reed-Solomon coding (src/integrations/dlr/crates/coding/src/rs.rs): the
    systematic generator from an inverted Vandermonde matrix, encoding, and
    decoding by the elimination of DlrGf.

    The generator cache maps (k, m) to what [build_generator] computes and is
    left out. *)

From S2P Require Import Prelude DlrGf.
#[local] Open Scope Z_scope.

Inductive RsError := RsEmpty | RsSizeMismatch (a b : nat) | RsInsufficient (have need : nat).

(** ** The generator *)

(** Row [i] of the Vandermonde matrix: the powers of [(i + 1) as u8]. *)
Definition rs_alpha (i : nat) : Z := wrap 8 (Z.of_nat i + 1).
Fixpoint powers (n : nat) (pow alpha : Z) : list Z :=
  match n with O => [] | S n' => pow :: powers n' (gf_mul pow alpha) alpha end.
Definition vandermonde_row (k i : nat) : list Z := powers k 1 (rs_alpha i).

Definition unit_row (k i : nat) : list Z := map (fun j => if (j =? i)%nat then 1 else 0) (seq 0 k).

(** [invert_matrix]: Gauss-Jordan on [a | I]; the column moves with the row,
    whether or not a pivot was found. *)
Definition augmented (a : list (list Z)) (k : nat) : list (list Z) := imap (fun i r => r ++ unit_row k i) a.
Definition invert_pivot (cpu : Cpu) (rows : list (list Z)) (col r p : nat) : list (list Z) :=
  let rows := swap_rows rows r p in
  let inv := gf_inv (entry rows r col) in
  let prow := gf_scal_slice cpu inv (nth r rows []) in
  imap (fun rr row =>
          if (rr =? r)%nat then prow
          else let c := nth col row 0 in
               if c =? 0 then row else gf_axpy_slice cpu c prow row) rows.
Fixpoint invert_loop (cpu : Cpu) (rs : list nat) (rows : list (list Z)) (col : nat) : list (list Z) :=
  match rs with
  | [] => rows
  | r :: rs' =>
      match find_pivot rows col r with
      | None => invert_loop cpu rs' rows (S col)
      | Some p => invert_loop cpu rs' (invert_pivot cpu rows col r p) (S col)
      end
  end.
Definition invert_matrix (cpu : Cpu) (a : list (list Z)) (k : nat) : list (list Z) :=
  map (drop k) (invert_loop cpu (seq 0 k) (augmented a k) 0).

(** [build_generator]: the identity above the parity rows. *)
Definition parity_row (k : nat) (v : list Z) (inv : list (list Z)) : list Z :=
  map (fun j => fold_left (fun acc t => Z.lxor acc (gf_mul (nth t v 0) (entry inv t j))) (seq 0 k) 0) (seq 0 k).
Definition build_generator (cpu : Cpu) (k m : nat) : list (list Z) :=
  let v := map (vandermonde_row k) (seq 0 (k + m)) in
  let inv := invert_matrix cpu (take k v) k in
  map (unit_row k) (seq 0 k) ++ map (fun row => parity_row k row inv) (drop k v).

(** ** Encoding and decoding *)

Record RsEncoder := mk_rs { rs_g : list (list Z); rs_k : nat; rs_n : nat; rs_symbol_size : nat }.

Definition rs_new (cpu : Cpu) (k m symbol_size : nat) : res RsError RsEncoder :=
  if (k =? 0)%nat then Err RsEmpty else Ok (mk_rs (build_generator cpu k m) k (k + m) symbol_size).

Definition parity_symbol (cpu : Cpu) (sz : nat) (g_row : list Z) (data : list (list Z)) : list Z :=
  fold_left (fun out j => let c := nth j g_row 0 in if c =? 0 then out else axpy cpu out c (nth j data []))
    (seq 0 (length data)) (repeat 0 sz).

Definition rs_encode (cpu : Cpu) (e : RsEncoder) (data : list (list Z)) : res RsError (list (list Z)) :=
  if negb (length data =? rs_k e)%nat then Err (RsSizeMismatch (length data) (rs_k e))
  else
    match List.find (fun d => negb (length d =? rs_symbol_size e)%nat) data with
    | Some d => Err (RsSizeMismatch (length d) (rs_symbol_size e))
    | None => Ok (data ++ map (fun i => parity_symbol cpu (rs_symbol_size e) (nth i (rs_g e) []) data)
                          (seq (rs_k e) (rs_n e - rs_k e)))
    end.

(** The first nonzero of the first [k] entries. *)
Definition leading (k : nat) (r : list Z) : option nat := List.find (fun j => negb (nth j r 0 =? 0)) (seq 0 k).

(** [decode]; a symbol index past the generator and a symbol of another
    length panic. *)
Definition rs_decode (cpu : Cpu) (k m sz : nat) (survived : list (nat * list Z)) : res RsError (list (list Z)) :=
  if (length survived <? k)%nat then Err (RsInsufficient (length survived) k)
  else
    let g := build_generator cpu k m in
    let rows_in := take k survived in
    if existsb (fun p => negb (p.1 <? k + m)%nat || negb (length p.2 =? sz)%nat) rows_in then Panic
    else
      let row_len := (k + sz)%nat in
      let rows := map (fun p => nth p.1 g [] ++ p.2) rows_in in
      let '(rows, rank) := gf_gauss_eliminate cpu rows row_len k in
      if (rank <? k)%nat then Err (RsInsufficient rank k)
      else if (row_len =? 0)%nat then Panic
      else
        let out := fold_left (fun out r => match leading k r with Some piv => <[piv := drop k r]> out | None => out end)
                     rows (repeat [] k) in
        if existsb is_nil out then Err (RsInsufficient rank k) else Ok out.

(** ** Lemmas: polynomials over the field *)

(** The value at [x] of the polynomial with the given coefficients. *)
Fixpoint peval (p : list Z) (x : Z) : Z :=
  match p with [] => 0 | c :: p' => Z.lxor c (gf_mul x (peval p' x)) end.

Lemma peval_byte p x : bytes_ok p -> is_byte x -> is_byte (peval p x).
Proof. intros Hp Hx. induction Hp as [|c p Hc _ IH]; [done|]. cbn. auto with gf. Qed.

(** The quotient by [x + a]. *)
Fixpoint qdiv (p : list Z) (a : Z) : list Z :=
  match p with
  | [] => []
  | _ :: p' => match p' with [] => [] | _ => peval p' a :: qdiv p' a end
  end.

Lemma length_qdiv p a : length (qdiv p a) = (length p - 1)%nat.
Proof. induction p as [|c [|d p] IH]; [done..|]. cbn [qdiv length] in *. lia. Qed.

Lemma qdiv_bytes p a : bytes_ok p -> is_byte a -> bytes_ok (qdiv p a).
Proof.
  intros Hp Ha. induction Hp as [|c p Hc Hp IH]; [by constructor|]. destruct p as [|d p]; [by constructor|].
  constructor; [|exact IH]. by apply peval_byte.
Qed.

Lemma qdiv_spec p a x : bytes_ok p -> is_byte a -> is_byte x ->
  peval p x = Z.lxor (gf_mul (Z.lxor x a) (peval (qdiv p a) x)) (peval p a).
Proof.
  intros Hp Ha Hx. induction Hp as [|c p Hc Hp IH]; [cbn; rewrite gf_mul_0_r by auto with gf; done|].
  destruct p as [|d p].
  - cbn. rewrite !gf_mul_0_r by auto with gf. by rewrite Z.lxor_0_r, Z.lxor_0_l.
  - assert (qdiv (c :: d :: p) a = peval (d :: p) a :: qdiv (d :: p) a) as -> by done.
    set (q := d :: p) in *. cbn [peval]. rewrite IH at 1.
    pose proof (peval_byte q a Hp Ha) as Hqa. pose proof (peval_byte _ x (qdiv_bytes q a Hp Ha) Hx) as Hqx.
    set (u := peval q a) in *. set (v := peval (qdiv q a) x) in *.
    assert (gf_mul x (gf_mul a v) = gf_mul a (gf_mul x v)) as Hc1.
    { rewrite !gf_mul_assoc by done. by rewrite (gf_mul_comm x a). }
    rewrite !gf_mul_lxor_l, !gf_mul_lxor_r, Hc1 by auto with gf. bits.
Qed.

Lemma peval_zeros p x : Forall (fun c => c = 0) p -> is_byte x -> peval p x = 0.
Proof. intros Hp Hx. induction Hp as [|c p -> _ IH]; [done|]. cbn. rewrite IH. by rewrite gf_mul_0_r. Qed.

Lemma qdiv_zeros p a : is_byte a -> Forall (fun c => c = 0) (qdiv p a) -> Forall (fun c => c = 0) (tail p).
Proof.
  intros Ha. induction p as [|c [|d p] IH]; [done..|]. cbn [qdiv tail]. intros [H1 H2]%list.Forall_cons.
  specialize (IH H2). cbn in IH. constructor; [|done]. cbn [peval] in H1. rewrite (peval_zeros p a IH Ha) in H1.
  by rewrite gf_mul_0_r, Z.lxor_0_r in H1.
Qed.

(** A polynomial with as many distinct roots as coefficients is zero. *)
Lemma roots_zero roots : forall p, NoDup roots -> Forall is_byte roots -> bytes_ok p -> (length p <= length roots)%nat ->
  (forall a, a ∈ roots -> peval p a = 0) -> Forall (fun c => c = 0) p.
Proof.
  induction roots as [|a roots IH]; intros p Hn Hb Hp Hl Hr.
  { destruct p; [done|cbn in Hl; lia]. }
  apply list.NoDup_cons in Hn as [Ha Hn]. apply list.Forall_cons in Hb as [Hba Hb].
  destruct p as [|c p]; [done|]. pose proof (Hr a ltac:(by left)) as Hra.
  assert (Forall (fun c => c = 0) (qdiv (c :: p) a)) as Hq.
  { apply IH; [done|done|by apply qdiv_bytes|rewrite length_qdiv; cbn in *; lia|]. intros b Hbin.
    assert (is_byte b) as Hbb by (rewrite list.Forall_forall in Hb; auto).
    pose proof (qdiv_spec (c :: p) a b Hp Hba Hbb) as E. rewrite (Hr b) in E by (by right). rewrite Hra, Z.lxor_0_r in E.
    symmetry in E. apply gf_mul_cancel in E; [done|auto with gf|apply peval_byte; [by apply qdiv_bytes|done]|].
    intros Hz%Z.lxor_eq. by subst. }
  apply qdiv_zeros in Hq; [|done]. cbn in Hq. constructor; [|done].
  cbn [peval] in Hra. rewrite (peval_zeros p a Hq Hba) in Hra. by rewrite gf_mul_0_r, Z.lxor_0_r in Hra.
Qed.

(** ** Lemmas: the Vandermonde matrix *)

Lemma rs_alpha_byte i : is_byte (rs_alpha i).
Proof. unfold rs_alpha, wrap, is_byte. pose proof (Z.mod_pos_bound (Z.of_nat i + 1) (2 ^ 8) ltac:(lia)). lia. Qed.

Lemma rs_alpha_inj i j : (i < 256)%nat -> (j < 256)%nat -> rs_alpha i = rs_alpha j -> i = j.
Proof.
  unfold rs_alpha, wrap. intros Hi Hj E. change (2 ^ 8) with 256 in E.
  destruct (decide (i = 255%nat)) as [->|], (decide (j = 255%nat)) as [->|]; [done|..].
  - change ((Z.of_nat 255 + 1) mod 256) with 0 in E. rewrite Z.mod_small in E by lia. lia.
  - change ((Z.of_nat 255 + 1) mod 256) with 0 in E. rewrite Z.mod_small in E by lia. lia.
  - rewrite !Z.mod_small in E by lia. lia.
Qed.

Lemma length_powers n : forall pow alpha, length (powers n pow alpha) = n.
Proof. induction n as [|n IH]; intros; cbn; [done|]. by rewrite IH. Qed.

Lemma powers_bytes n : forall pow alpha, is_byte pow -> is_byte alpha -> bytes_ok (powers n pow alpha).
Proof. induction n as [|n IH]; intros; cbn; [constructor|]. constructor; [done|]. apply IH; auto with gf. Qed.

Lemma dot_powers alpha y : is_byte alpha -> bytes_ok y -> forall pow, is_byte pow ->
  dot (powers (length y) pow alpha) y = gf_mul pow (peval y alpha).
Proof.
  intros Ha Hy. induction Hy as [|c y Hc Hy IH]; intros pow Hp; cbn; [by rewrite gf_mul_0_r|].
  pose proof (peval_byte y alpha Hy Ha). rewrite IH, gf_mul_lxor_r, gf_mul_assoc by auto with gf. done.
Qed.

Lemma vandermonde_row_ok k i : row_ok k (vandermonde_row k i).
Proof. split; [apply length_powers|]. apply powers_bytes; [done|apply rs_alpha_byte]. Qed.

Lemma vandermonde_dot k i y : length y = k -> bytes_ok y -> dot (vandermonde_row k i) y = peval y (rs_alpha i).
Proof.
  intros <- Hy. unfold vandermonde_row. pose proof (rs_alpha_byte i). rewrite dot_powers by done.
  apply gf_mul_1_l. by apply peval_byte.
Qed.

(** Any [k] rows with distinct numbers below 256 are independent. *)
Lemma vandermonde_independent k idxs y :
  NoDup idxs -> Forall (fun i => i < 256)%nat idxs -> (k <= length idxs)%nat -> length y = k -> bytes_ok y ->
  (forall i, i ∈ idxs -> dot (vandermonde_row k i) y = 0) -> Forall (fun c => c = 0) y.
Proof.
  intros Hn Hlt Hk Hl Hy H. apply (roots_zero (map rs_alpha idxs)); [| |done|rewrite length_map; lia|].
  - clear -Hn Hlt. induction Hn as [|i idxs Hi Hn IH]; [constructor|]. apply list.Forall_cons in Hlt as [Hi' Hlt].
    cbn. constructor; [|auto]. intros (j & Hj & Hin)%list_elem_of_fmap.
    rewrite list.Forall_forall in Hlt. apply rs_alpha_inj in Hj; [|done|auto]. by subst.
  - apply List.Forall_map. apply list.Forall_forall. intros i _. apply rs_alpha_byte.
  - intros a (i & -> & Hi)%list_elem_of_fmap. rewrite <- (vandermonde_dot k) by done. auto.
Qed.

(** ** Lemmas: inverting a matrix *)

Lemma rs_dot_app r r' y y' : length r = length y -> dot (r ++ r') (y ++ y') = Z.lxor (dot r y) (dot r' y').
Proof. revert y. induction r as [|c r IH]; intros [|x y] Hl; cbn in *; try lia; [done|]. rewrite IH by lia. bits. Qed.

Lemma dot_nil_r r : dot r [] = 0.
Proof. by destruct r. Qed.

Lemma nth_map_seq0 {A} (f : nat -> A) d n i : (i < n)%nat -> nth i (map f (seq 0 n)) d = f i.
Proof.
  intros Hi. rewrite (nth_indep _ d (f 0%nat)) by (by rewrite length_map, length_seq).
  by rewrite map_nth, seq_nth.
Qed.

Lemma nth_unit_row k i j : nth j (unit_row k i) 0 = if ((j =? i) && (j <? k))%nat then 1 else 0.
Proof.
  unfold unit_row. destruct (Nat.ltb_spec j k).
  - rewrite (nth_map_seq0 (fun j => if (j =? i)%nat then 1 else 0)) by done. by rewrite andb_true_r.
  - rewrite andb_false_r. apply nth_overflow. rewrite length_map, length_seq. lia.
Qed.

Lemma unit_row_ok k i : row_ok k (unit_row k i).
Proof.
  split; [unfold unit_row; by rewrite length_map, length_seq|].
  apply List.Forall_map, list.Forall_forall. intros j _. by destruct (j =? i)%nat.
Qed.

Lemma rs_dot_unit k i z : (i < k)%nat -> length z = k -> bytes_ok z -> dot (unit_row k i) z = nth i z 0.
Proof.
  intros Hi Hl Hz. rewrite dot_xsum by (done || apply unit_row_ok). rewrite Hl.
  rewrite (xsum_single _ _ i) by (done || (intros j Hj Hne; rewrite nth_unit_row, (proj2 (Nat.eqb_neq j i)) by done;
    cbn; apply gf_mul_0_l; by apply bytes_nth)).
  rewrite nth_unit_row, Nat.eqb_refl, (proj2 (Nat.ltb_lt i k)) by done. cbn. apply gf_mul_1_l. by apply bytes_nth.
Qed.

Lemma swap_rows_same rows r : (r < length rows)%nat -> swap_rows rows r r = rows.
Proof.
  intros Hr. apply (nth_ext _ _ [] []); [apply length_swap_rows|]. intros i _. rewrite swap_rows_nth by done.
  by destruct (Nat.eqb_spec i r) as [->|].
Qed.

Lemma invert_pivot_eq cpu rows c r p : (r < length rows)%nat -> (p < length rows)%nat -> entry rows p c <> 0 ->
  invert_pivot cpu rows c r p = gauss_pivot cpu rows c r p.
Proof.
  intros Hr Hp Hz. unfold invert_pivot, gauss_pivot.
  assert ((if (r =? p)%nat then rows else swap_rows rows r p) = swap_rows rows r p) as ->.
  { destruct (Nat.eqb_spec r p) as [->|]; [by rewrite swap_rows_same|done]. }
  assert (entry (swap_rows rows r p) r c = entry rows p c) as E.
  { unfold entry. rewrite swap_rows_nth by done. by rewrite Nat.eqb_refl. }
  unfold gf_inv. rewrite E. by destruct (Z.eqb_spec (entry rows p c) 0).
Qed.

Lemma invert_loop_spec cpu m n : forall c rows,
  rows_ok m rows -> length rows = (c + n)%nat -> (c + n <= m)%nat -> ident rows c -> ~ deficient rows (c + n) ->
  let rows' := invert_loop cpu (seq c n) rows c in
  rows_ok m rows' /\ length rows' = (c + n)%nat /\ ident rows' (c + n) /\ same_kernel rows rows'.
Proof.
  induction n as [|n IH]; intros c rows Hok Hlen Hm Hid Hnd; cbn [seq invert_loop].
  { rewrite Nat.add_0_r in *. done. }
  destruct (find_pivot rows c c) as [p|] eqn:F.
  - apply find_pivot_Some in F as [Hp Hpv]. rewrite invert_pivot_eq by (done || lia).
    pose proof (gauss_pivot_ok cpu m rows c c p Hok ltac:(lia) ltac:(lia) Hpv) as Hok1.
    assert (same_kernel rows (gauss_pivot cpu rows c c p)) as Hk.
    { intros y Hy. apply (gauss_pivot_kernel cpu m); done || lia. }
    pose proof (gauss_pivot_ident cpu m rows c p Hok Hid ltac:(lia) Hp Hpv) as Hid1.
    replace (c + S n)%nat with (S c + n)%nat in * by lia.
    destruct (IH (S c) (gauss_pivot cpu rows c c p)) as (A & B & C & D); [done|by rewrite length_gauss_pivot|lia|done| |].
    { intros Hd. apply Hnd. by eapply deficient_kernel. }
    split_and!; try done. intros y Hy. rewrite (D y Hy). by apply Hk.
  - exfalso. apply Hnd. apply (free_vector_deficient m rows c); [done|done|lia|].
    intros r Hr. by apply (find_pivot_None rows c c).
Qed.

Definition matvec (a : list (list Z)) (y : list Z) : list Z := map (fun r => dot r y) a.

Lemma matvec_bytes m a y : Forall (row_ok m) a -> bytes_ok y -> bytes_ok (matvec a y).
Proof.
  intros Ha Hy. apply List.Forall_map. eapply Forall_impl; [|exact Ha]. intros r [_ Hr]. by apply dot_byte.
Qed.
Lemma length_matvec a y : length (matvec a y) = length a.
Proof. apply length_map. Qed.
Lemma nth_matvec a y i : nth i (matvec a y) 0 = dot (nth i a []) y.
Proof. unfold matvec. change 0 with (dot [] y). apply (map_nth (fun r => dot r y)). Qed.

(** A [k] by [k] matrix of bytes whose only null vector is zero. *)
Record invertible (k : nat) (a : list (list Z)) : Prop := mk_invertible {
  iv_length : length a = k;
  iv_rows : Forall (row_ok k) a;
  iv_kernel : forall y, length y = k -> bytes_ok y -> kernel a y -> Forall (fun c => c = 0) y
}.

Lemma nth_augmented a k i : (i < length a)%nat -> nth i (augmented a k) [] = nth i a [] ++ unit_row k i.
Proof. intros Hi. unfold augmented. by rewrite (nth_imap _ _ _ []). Qed.

Lemma invert_loop_ident cpu k a : invertible k a ->
  let rows := invert_loop cpu (seq 0 k) (augmented a k) 0 in
  rows_ok (k + k) rows /\ length rows = k /\ ident rows k /\ same_kernel (augmented a k) rows.
Proof.
  intros [Hl Hr Hk]. assert (length (augmented a k) = k) as Hla by (unfold augmented; by rewrite length_imap).
  apply (invert_loop_spec cpu (k + k) k 0 (augmented a k)).
  - intros r Hrr. rewrite Hla in Hrr. rewrite nth_augmented by lia. rewrite <- rows_ok_Forall in Hr.
    destruct (Hr r ltac:(lia)) as [H1 H2]. destruct (unit_row_ok k r) as [U1 U2].
    split; [rewrite length_app; lia|by apply List.Forall_app].
  - done.
  - lia.
  - split; [lia|]. intros; lia.
  - intros (v & Hv1 & Hv2 & Hv3 & Hv4). cbn in Hv1. eapply (Exists_not_Forall (fun c => c = 0)); [exact Hv3|].
    apply Hk; [done|done|]. intros r Hrr. rewrite Hl in Hrr. specialize (Hv4 r ltac:(lia)). rewrite nth_augmented in Hv4 by lia.
    rewrite <- (app_nil_r v) in Hv4. rewrite <- rows_ok_Forall in Hr. destruct (Hr r ltac:(lia)) as [H1 _].
    rewrite rs_dot_app, dot_nil_r, Z.lxor_0_r in Hv4 by lia. done.
Qed.

(** The computed matrix undoes the given one, from both sides. *)
Lemma invert_matrix_spec cpu k a : invertible k a ->
  Forall (row_ok k) (invert_matrix cpu a k) /\ length (invert_matrix cpu a k) = k
  /\ forall y z, length y = k -> length z = k -> bytes_ok y -> bytes_ok z ->
       matvec a y = z <-> matvec (invert_matrix cpu a k) z = y.
Proof.
  intros Ha. destruct (invert_loop_ident cpu k a Ha) as (Hok & Hlen & [_ Hid] & Hker). destruct Ha as [Hl Hr Hk].
  unfold invert_matrix. set (rows := invert_loop cpu (seq 0 k) (augmented a k) 0) in *.
  assert (forall i, (i < k)%nat -> row_ok k (drop k (nth i rows [])) /\ nth i rows [] = unit_row k i ++ drop k (nth i rows [])) as Hrow.
  { intros i Hi. destruct (Hok i ltac:(lia)) as [H1 H2]. split.
    - split; [rewrite length_drop; lia|by apply Forall_drop].
    - rewrite <- (take_drop k (nth i rows [])) at 1. f_equal. destruct (unit_row_ok k i) as [U1 _].
      apply (nth_ext _ _ 0 0); [rewrite length_take; lia|]. intros j Hj. rewrite length_take in Hj.
      rewrite nth_unit_row. assert (nth j (take k (nth i rows [])) 0 = entry rows i j) as ->.
      { unfold entry. rewrite <- (take_drop k (nth i rows [])) at 2. rewrite app_nth1 by (rewrite length_take; lia). done. }
      rewrite Hid by lia. rewrite (Nat.eqb_sym i j), (proj2 (Nat.ltb_lt j k)) by lia. by rewrite andb_true_r. }
  assert (forall i, nth i (map (drop k) rows) [] = drop k (nth i rows [])) as Hnth.
  { intros i. rewrite <- (map_nth (drop k)). by rewrite drop_nil. }
  split; [|split; [by rewrite length_map|]].
  { rewrite <- rows_ok_Forall. intros i Hi. rewrite length_map in Hi. rewrite Hnth. apply Hrow. lia. }
  intros y z Hy Hz Hby Hbz. pose proof (Hker (y ++ z) ltac:(by apply List.Forall_app)) as Hkyz. unfold kernel in Hkyz.
  rewrite Hlen in Hkyz. assert (length (augmented a k) = k) as Hla by (unfold augmented; by rewrite length_imap). rewrite Hla in Hkyz.
  assert ((forall r, (r < k)%nat -> dot (nth r (augmented a k) []) (y ++ z) = 0) <-> matvec a y = z) as H1.
  { transitivity (forall r, (r < k)%nat -> nth r (matvec a y) 0 = nth r z 0).
    - apply forall_proper. intros r. apply forall_proper. intros Hrr. rewrite nth_augmented, nth_matvec by lia.
      rewrite <- rows_ok_Forall in Hr. destruct (Hr r ltac:(lia)) as [L1 L2]. rewrite rs_dot_app, rs_dot_unit by (done || lia).
      apply Z.lxor_eq_0_iff.
    - split; [|by intros ->]. intros H. apply (nth_ext _ _ 0 0); [rewrite length_matvec; lia|]. intros r Hrr. apply H.
      by rewrite length_matvec, Hl in Hrr. }
  assert ((forall r, (r < k)%nat -> dot (nth r rows []) (y ++ z) = 0) <-> matvec (map (drop k) rows) z = y) as H2.
  { transitivity (forall r, (r < k)%nat -> nth r (matvec (map (drop k) rows) z) 0 = nth r y 0).
    - apply forall_proper. intros r. apply forall_proper. intros Hrr. rewrite nth_matvec, Hnth.
      destruct (Hrow r Hrr) as [_ Hs]. rewrite Hs at 1. destruct (unit_row_ok k r) as [U1 _]. rewrite rs_dot_app, rs_dot_unit by (done || lia).
      rewrite Z.lxor_eq_0_iff. split; congruence.
    - split; [|by intros ->]. intros H. apply (nth_ext _ _ 0 0); [rewrite length_matvec, length_map; lia|]. intros r Hrr. apply H.
      by rewrite length_matvec, length_map, Hlen in Hrr. }
  tauto.
Qed.

(** ** Lemmas: the generator *)

Lemma xsum_lxor g h n : xsum (fun i => Z.lxor (g i) (h i)) n = Z.lxor (xsum g n) (xsum h n).
Proof. induction n as [|n IH]; [done|]. cbn [xsum]. rewrite IH. bits. Qed.

Lemma xsum_byte g n : (forall i, (i < n)%nat -> is_byte (g i)) -> is_byte (xsum g n).
Proof.
  intros H. induction n as [|n IH]; [done|]. cbn [xsum]. apply byte_lxor; [apply IH; intros; apply H; lia|apply H; lia].
Qed.

Lemma gf_mul_xsum_r a g n : is_byte a -> (forall i, (i < n)%nat -> is_byte (g i)) ->
  gf_mul a (xsum g n) = xsum (fun i => gf_mul a (g i)) n.
Proof.
  intros Ha H. induction n as [|n IH]; [by apply gf_mul_0_r|]. cbn [xsum].
  rewrite gf_mul_lxor_r, IH; [done|intros; apply H; lia|done|apply xsum_byte; intros; apply H; lia|apply H; lia].
Qed.

Lemma gf_mul_xsum_l a g n : is_byte a -> (forall i, (i < n)%nat -> is_byte (g i)) ->
  gf_mul (xsum g n) a = xsum (fun i => gf_mul (g i) a) n.
Proof.
  intros Ha H. rewrite gf_mul_comm, gf_mul_xsum_r by (done || by apply xsum_byte).
  apply xsum_ext. intros i Hi. apply gf_mul_comm; auto.
Qed.

Lemma xsum_swap g n m : xsum (fun i => xsum (g i) m) n = xsum (fun j => xsum (fun i => g i j) n) m.
Proof.
  induction n as [|n IH]; cbn [xsum]; [by rewrite xsum_zero|]. rewrite IH, <- xsum_lxor. done.
Qed.

Lemma fold_xsum (g : nat -> Z) n : fold_left (fun acc t => Z.lxor acc (g t)) (seq 0 n) 0 = xsum g n.
Proof. induction n as [|n IH]; [done|]. rewrite seq_S, fold_left_app, IH. done. Qed.

Lemma parity_row_nth k v inv j : (j < k)%nat ->
  nth j (parity_row k v inv) 0 = xsum (fun t => gf_mul (nth t v 0) (entry inv t j)) k.
Proof.
  intros Hj. unfold parity_row.
  rewrite (nth_map_seq0 (fun j => fold_left (fun acc t => Z.lxor acc (gf_mul (nth t v 0) (entry inv t j))) (seq 0 k) 0)) by done.
  apply (fold_xsum (fun t => gf_mul (nth t v 0) (entry inv t j))).
Qed.

Lemma parity_row_ok k v inv : bytes_ok v -> rows_ok k inv -> row_ok k (parity_row k v inv).
Proof.
  intros Hv Hi. split; [unfold parity_row; by rewrite length_map, length_seq|].
  apply List.Forall_map, list.Forall_forall. intros j _. rewrite (fold_xsum (fun t => gf_mul (nth t v 0) (entry inv t j))).
  apply xsum_byte. intros t _. pose proof (bytes_nth v t Hv). pose proof (entry_byte k inv t j Hi). auto with gf.
Qed.

Lemma parity_row_dot k v inv z : row_ok k v -> Forall (row_ok k) inv -> length inv = k -> length z = k -> bytes_ok z ->
  dot (parity_row k v inv) z = dot v (matvec inv z).
Proof.
  intros [Hv Hbv] Hi Hli Hz Hbz. pose proof (matvec_bytes k inv z Hi Hbz) as Hm. rewrite <- rows_ok_Forall in Hi.
  rewrite !dot_xsum by (done || by apply parity_row_ok). rewrite length_matvec, Hli, Hz.
  assert (forall t, is_byte (nth t v 0)) as Bv by (intros; by apply bytes_nth).
  assert (forall t, is_byte (nth t z 0)) as Bz by (intros; by apply bytes_nth).
  assert (forall t j, is_byte (entry inv t j)) as Be by (intros; by eapply entry_byte).
  transitivity (xsum (fun j => xsum (fun t => gf_mul (nth t v 0) (gf_mul (entry inv t j) (nth j z 0))) k) k).
  - apply xsum_ext. intros j Hj. rewrite parity_row_nth, gf_mul_xsum_l by auto with gf.
    apply xsum_ext. intros t _. symmetry. by apply gf_mul_assoc.
  - rewrite xsum_swap. apply xsum_ext. intros t Ht. rewrite nth_matvec. destruct (Hi t ltac:(lia)) as [_ Hbt].
    rewrite dot_xsum, Hz by done. rewrite gf_mul_xsum_r; [done|done|intros i _]. pose proof (bytes_nth _ i Hbt). auto with gf.
Qed.

Definition head_rows (k : nat) : list (list Z) := map (vandermonde_row k) (seq 0 k).

Lemma head_invertible k : (k <= 256)%nat -> invertible k (head_rows k).
Proof.
  intros Hk. split; [unfold head_rows; by rewrite length_map, length_seq| |].
  - apply List.Forall_map, list.Forall_forall. intros i _. apply vandermonde_row_ok.
  - intros y Hy Hb Hker. apply (vandermonde_independent k (seq 0 k)); [apply NoDup_seq| |by rewrite length_seq|done|done|].
    + apply list.Forall_forall. intros i Hi%elem_of_seq. lia.
    + intros i Hi%elem_of_seq. specialize (Hker i). unfold head_rows in Hker.
      rewrite length_map, length_seq, nth_map_seq0 in Hker by lia. apply Hker. lia.
Qed.

Lemma vandermonde_head k m : take k (map (vandermonde_row k) (seq 0 (k + m))) = head_rows k.
Proof. rewrite seq_app, map_app, take_app_length'; [done|]. unfold head_rows. by rewrite length_map, length_seq. Qed.

Lemma build_generator_nth cpu k m i : (i < k + m)%nat ->
  nth i (build_generator cpu k m) []
  = if (i <? k)%nat then unit_row k i else parity_row k (vandermonde_row k i) (invert_matrix cpu (head_rows k) k).
Proof.
  intros Hi. unfold build_generator. rewrite vandermonde_head.
  assert (length (map (unit_row k) (seq 0 k)) = k) as Hl by (by rewrite length_map, length_seq).
  destruct (Nat.ltb_spec i k).
  - rewrite app_nth1 by lia. by rewrite nth_map_seq0.
  - rewrite app_nth2, Hl by lia. rewrite seq_app, map_app, drop_app_length' by (by rewrite length_map, length_seq).
    cbn [Nat.add]. rewrite (nth_indep _ [] (parity_row k [] (invert_matrix cpu (head_rows k) k)))
      by (rewrite !length_map, length_seq; lia).
    rewrite (map_nth (fun row => parity_row k row (invert_matrix cpu (head_rows k) k))).
    rewrite (nth_indep _ [] (vandermonde_row k 0)) by (rewrite length_map, length_seq; lia).
    rewrite map_nth, seq_nth by lia. do 2 f_equal. lia.
Qed.

(** A generator row on [z] is the Vandermonde row on the vector the head maps
    to [z]. *)
Lemma generator_dot cpu k m i y : (k <= 256)%nat -> (i < k + m)%nat -> length y = k -> bytes_ok y ->
  row_ok k (nth i (build_generator cpu k m) [])
  /\ dot (nth i (build_generator cpu k m) []) (matvec (head_rows k) y) = dot (vandermonde_row k i) y.
Proof.
  intros Hk Hi Hy Hb. pose proof (head_invertible k Hk) as Hiv.
  destruct (invert_matrix_spec cpu k (head_rows k) Hiv) as (Hr & Hl & Hs). destruct Hiv as [Hhl Hhr _].
  pose proof (length_matvec (head_rows k) y) as Hlm. pose proof (matvec_bytes k (head_rows k) y Hhr Hb) as Hbm.
  rewrite build_generator_nth by done. destruct (Nat.ltb_spec i k).
  - split; [apply unit_row_ok|]. rewrite rs_dot_unit by (done || congruence). rewrite nth_matvec. unfold head_rows.
    by rewrite nth_map_seq0.
  - pose proof (vandermonde_row_ok k i). split; [apply parity_row_ok; [apply vandermonde_row_ok|by apply rows_ok_Forall]|].
    rewrite parity_row_dot by (done || congruence). f_equal. apply Hs; try done; congruence.
Qed.

(** Every column of data has such a vector. *)
Lemma head_onto k z : (k <= 256)%nat -> length z = k -> bytes_ok z ->
  exists y, length y = k /\ bytes_ok y /\ matvec (head_rows k) y = z.
Proof.
  intros Hk Hz Hb. pose proof (head_invertible k Hk) as Hiv.
  destruct (invert_matrix_spec NoSimd k (head_rows k) Hiv) as (Hr & Hl & Hs).
  exists (matvec (invert_matrix NoSimd (head_rows k) k) z).
  assert (length (matvec (invert_matrix NoSimd (head_rows k) k) z) = k) as Hlm by (by rewrite length_matvec).
  assert (bytes_ok (matvec (invert_matrix NoSimd (head_rows k) k) z)) as Hbm by (by eapply matvec_bytes).
  split_and!; [done|done|]. by apply Hs.
Qed.

(** Any [k] rows of the generator with distinct numbers are independent. *)
Lemma generator_independent cpu k m idxs z : (k + m <= 256)%nat -> NoDup idxs -> length idxs = k ->
  Forall (fun i => i < k + m)%nat idxs -> length z = k -> bytes_ok z ->
  (forall i, i ∈ idxs -> dot (nth i (build_generator cpu k m) []) z = 0) -> Forall (fun c => c = 0) z.
Proof.
  intros Hkm Hn Hl Hlt Hz Hb H. destruct (head_onto k z ltac:(lia) Hz Hb) as (y & Hy & Hby & <-).
  assert (Forall (fun c => c = 0) y) as H0.
  { apply (vandermonde_independent k idxs); [done| |lia|done|done|].
    - eapply Forall_impl; [|exact Hlt]. cbn. lia.
    - intros i Hi. rewrite <- (proj2 (generator_dot cpu k m i y ltac:(lia) ltac:(rewrite list.Forall_forall in Hlt; auto) Hy Hby)).
      auto. }
  apply List.Forall_map, list.Forall_forall. intros r Hr. destruct (head_invertible k ltac:(lia)) as [_ Hrows _].
  rewrite list.Forall_forall in Hrows. destruct (Hrows r Hr) as [_ Hbr]. rewrite dot_xsum by done. apply xsum_zero. intros i Hi.
  assert (nth i y 0 = 0) as ->; [|apply gf_mul_0_r; by apply bytes_nth].
  rewrite list.Forall_forall in H0. apply H0. apply list_elem_of_In, nth_In. done.
Qed.

(** ** Lemmas: codewords *)

(** Byte [c] of every symbol. *)
Definition data_column (data : list (list Z)) (c : nat) : list Z := map (fun s => nth c s 0) data.

Lemma nth_data_column data c i : nth i (data_column data c) 0 = nth c (nth i data []) 0.
Proof.
  unfold data_column. rewrite <- (map_nth (fun s => nth c s 0)). f_equal. by destruct c.
Qed.

Lemma data_column_bytes sz data c : Forall (row_ok sz) data -> bytes_ok (data_column data c).
Proof. intros H. apply List.Forall_map. eapply Forall_impl; [|exact H]. intros s [_ Hs]. by apply bytes_nth. Qed.

Lemma parity_symbol_nth cpu sz g data n : bytes_ok g -> Forall (row_ok sz) data -> (n <= length data)%nat ->
  let s := fold_left (fun out j => let c := nth j g 0 in if c =? 0 then out else axpy cpu out c (nth j data []))
             (seq 0 n) (repeat 0 sz) in
  row_ok sz s /\ forall c, nth c s 0 = xsum (fun j => gf_mul (nth j g 0) (nth j (data_column data c) 0)) n.
Proof.
  intros Hg Hd. induction n as [|n IH]; intros Hn s.
  { split; [|intros c; apply nth_repeat].
    split; [apply repeat_length|]. apply list.Forall_forall. intros x Hx%list_elem_of_In%repeat_spec. by subst. }
  specialize (IH ltac:(lia)). subst s. rewrite seq_S, fold_left_app. cbn [Nat.add fold_left xsum].
  set (s := fold_left _ (seq 0 n) (repeat 0 sz)) in *. destruct IH as [Hs Hnth].
  pose proof (bytes_nth g n Hg) as Hc. assert (row_ok sz (nth n data [])) as Hdn by (apply List.Forall_nth; [done|lia]).
  split.
  - destruct (nth n g 0 =? 0); [done|]. by apply axpy_row_ok.
  - intros c. rewrite nth_data_column. destruct (Z.eqb_spec (nth n g 0) 0) as [->|Hz].
    + rewrite gf_mul_0_l, Z.lxor_0_r by (apply bytes_nth, Hdn). done.
    + rewrite <- Hnth. destruct (decide (c < sz)%nat) as [Hcs|Hcs]; [by apply (axpy_row_nth cpu sz)|].
      destruct Hs as [Ls Bs], Hdn as [Ld Bd], (axpy_row_ok cpu sz (nth n g 0) s (nth n data []) Hc) as [La Ba]; [done|done|].
      rewrite (nth_overflow (axpy _ _ _ _)), (nth_overflow s), (nth_overflow (nth n data [])) by lia. by rewrite gf_mul_0_r.
Qed.

(** What [rs_encode] stores under number [i]: every byte is the generator row
    on that column of the data. *)
Definition rs_coded (k m : nat) (cpu : Cpu) (sz : nat) (data : list (list Z)) (i : nat) (s : list Z) : Prop :=
  (i < k + m)%nat /\ row_ok sz s /\ forall c, nth c s 0 = dot (nth i (build_generator cpu k m) []) (data_column data c).

Lemma rs_encode_coded cpu k m sz data : (0 < k)%nat -> (k <= 256)%nat -> length data = k -> Forall (row_ok sz) data ->
  exists cw, (let? e := rs_new cpu k m sz in rs_encode cpu e data) = Ok cw /\ length cw = (k + m)%nat
    /\ forall i s, cw !! i = Some s -> rs_coded k m cpu sz data i s.
Proof.
  intros Hk Hk2 Hl Hd. unfold rs_new. rewrite (proj2 (Nat.eqb_neq k 0)) by lia. cbn [res_bind].
  unfold rs_encode. cbn [rs_k rs_n rs_g rs_symbol_size]. rewrite Hl, Nat.eqb_refl. cbn [negb].
  destruct (List.find _ data) as [d|] eqn:F.
  { apply List.find_some in F as [Hin Hne]. rewrite list.Forall_forall in Hd. apply list_elem_of_In, Hd in Hin as [L _].
    by rewrite L, Nat.eqb_refl in Hne. }
  eexists. split; [done|]. replace (k + m - k)%nat with m by lia.
  split; [rewrite length_app, length_map, length_seq; lia|]. intros i s [Hi|[Hge Hi]]%lookup_app_Some.
  - pose proof (lookup_lt_Some _ _ _ Hi) as Hlt. split; [lia|]. split; [rewrite list.Forall_forall in Hd; apply Hd; by eapply list_elem_of_lookup_2|].
    intros c. rewrite build_generator_nth, (proj2 (Nat.ltb_lt i k)), rs_dot_unit by (lia || (unfold data_column; rewrite length_map; lia) || (by eapply data_column_bytes)).
    by rewrite nth_data_column, (nth_lookup_Some _ _ _ _ Hi).
  - rewrite Hl in *. apply list_lookup_fmap_Some in Hi as (j & -> & [-> Hj]%lookup_seq). split; [lia|].
    replace (k + (i - k))%nat with i by lia.
    assert (row_ok k (nth i (build_generator cpu k m) [])) as Hrow.
    { destruct (head_onto k (repeat 0 k)) as (y & Hy & Hby & _); [done|apply repeat_length| |].
      - apply list.Forall_forall. intros x Hx%list_elem_of_In%repeat_spec. by subst.
      - apply (generator_dot cpu k m i y); done || lia. }
    destruct (parity_symbol_nth cpu sz (nth i (build_generator cpu k m) []) data (length data)) as [Hs Hnth]; [apply Hrow|done|done|].
    split; [exact Hs|]. intros c. unfold parity_symbol. rewrite Hnth, dot_xsum by (apply Hrow || by eapply data_column_bytes).
    assert (length (data_column data c) = length data) as -> by apply length_map. done.
Qed.

(** ** Lemmas: decoding *)

Lemma leading_ident k r i : (i < k)%nat -> (forall j, (j < k)%nat -> nth j r 0 = if (i =? j)%nat then 1 else 0) ->
  leading k r = Some i.
Proof.
  intros Hi H. unfold leading. assert (forall n o, (o <= i < o + n)%nat -> (o + n <= k)%nat ->
    List.find (fun j => negb (nth j r 0 =? 0)) (seq o n) = Some i) as G; [|apply G; lia].
  induction n as [|n IH]; intros o Ho Hok; [lia|]. cbn [seq List.find]. rewrite H by lia.
  destruct (Nat.eqb_spec i o) as [->|Hne]; [done|]. cbn. apply IH; lia.
Qed.

Lemma extract_rows k rows : forall o done_, length done_ = o ->
  (forall i, (i < length rows)%nat -> leading k (nth i rows []) = Some (o + i)%nat) ->
  fold_left (fun out r => match leading k r with Some piv => <[piv := drop k r]> out | None => out end)
    rows (done_ ++ repeat [] (length rows)) = done_ ++ map (drop k) rows.
Proof.
  induction rows as [|r rows IH]; intros o done_ Ho H; [done|]. cbn [fold_left length repeat map].
  pose proof (H 0%nat ltac:(cbn; lia)) as H0. cbn [nth] in H0. rewrite H0, Nat.add_0_r, <- Ho, insert_app_r_alt by lia.
  rewrite Nat.sub_diag. cbn. replace (done_ ++ drop k r :: repeat [] (length rows)) with ((done_ ++ [drop k r]) ++ repeat [] (length rows))
    by (by rewrite <- app_assoc).
  rewrite (IH (S o)); [by rewrite <- app_assoc|rewrite length_app; cbn; lia|]. intros i Hi. specialize (H (S i) ltac:(cbn; lia)).
  cbn [nth] in H. rewrite H. f_equal. lia.
Qed.

Section Decoding.
Context (cpu : Cpu) (k m sz : nat) (data : list (list Z)) (rows_in : list (nat * list Z)).
Context (Hk : (0 < k)%nat) (Hkm : (k + m <= 256)%nat) (Hsz : (0 < sz)%nat).
Context (Hl : length data = k) (Hd : Forall (row_ok sz) data).
Context (Hlen : length rows_in = k) (Hnd : NoDup rows_in.*1).
Context (Hin : forall i s, (i, s) ∈ rows_in -> rs_coded k m cpu sz data i s).

Let system := map (fun p : nat * list Z => nth p.1 (build_generator cpu k m) [] ++ p.2) rows_in.

Lemma generator_row_ok i : (i < k + m)%nat -> row_ok k (nth i (build_generator cpu k m) []).
Proof using Hkm.
  clear -Hkm. intros Hi. destruct (head_onto k (repeat 0 k)) as (y & Hy & Hby & _); [lia|apply repeat_length| |].
  - apply list.Forall_forall. intros x Hx%list_elem_of_In%repeat_spec. by subst.
  - apply (generator_dot cpu k m i y); done || lia.
Qed.

Lemma system_ok : Forall (row_ok (k + sz)) system.
Proof using Hkm Hin.
  clear -Hkm Hin. apply List.Forall_map, list.Forall_forall. intros [i s] Hp. destruct (Hin i s Hp) as (Hi & [Ls Bs] & _).
  destruct (generator_row_ok i Hi) as [Lg Bg]. cbn. split; [rewrite length_app; lia|by apply List.Forall_app].
Qed.

Lemma system_nth r : (r < k)%nat -> exists i s, (i, s) ∈ rows_in /\ nth r system [] = nth i (build_generator cpu k m) [] ++ s.
Proof using Hlen.
  clear -Hlen. intros Hr. destruct (lookup_lt_is_Some_2 rows_in r) as [[i s] E]; [lia|]. exists i, s.
  split; [by eapply list_elem_of_lookup_2|]. apply nth_lookup_Some. unfold system.
  by rewrite (list_lookup_fmap (fun p : nat * list Z => nth p.1 (build_generator cpu k m) [] ++ p.2)), E.
Qed.

Lemma system_full : ~ deficient system k.
Proof using Hkm Hlen Hnd Hin.
  clear -Hkm Hlen Hnd Hin. intros (v & Hv & Hb & Hz & Hker). eapply (Exists_not_Forall (fun c => c = 0)); [exact Hz|].
  apply (generator_independent cpu k m rows_in.*1); [done|done|by rewrite length_fmap| |done|done|].
  - apply list.Forall_forall. intros i ([j s] & -> & Hp)%list_elem_of_fmap. by apply (Hin j s).
  - intros i ([j s] & -> & Hp)%list_elem_of_fmap. cbn. apply list_elem_of_lookup in Hp as [r Hr].
    pose proof (lookup_lt_Some _ _ _ Hr) as Hlt. specialize (Hker r). unfold system in Hker. rewrite length_map in Hker.
    specialize (Hker Hlt).
    rewrite (nth_lookup_Some _ _ _ (nth j (build_generator cpu k m) [] ++ s)) in Hker.
    2:{ by rewrite (list_lookup_fmap (fun p : nat * list Z => nth p.1 (build_generator cpu k m) [] ++ p.2)), Hr. }
    destruct (Hin j s) as (Hi & _ & _); [by eapply list_elem_of_lookup_2|]. destruct (generator_row_ok j Hi) as [Lg _].
    rewrite <- (app_nil_r v) in Hker. by rewrite rs_dot_app, dot_nil_r, Z.lxor_0_r in Hker by lia.
Qed.

(** The data beside a unit column is orthogonal to every row. *)
Lemma system_kernel c : (c < sz)%nat -> kernel system (data_column data c ++ unit_row sz c).
Proof using Hkm Hl Hlen Hin Hd.
  clear -Hkm Hl Hlen Hin Hd. intros Hc r Hr. unfold system in Hr. rewrite length_map, Hlen in Hr.
  destruct (system_nth r Hr) as (i & s & Hp & ->). destruct (Hin i s Hp) as (Hi & [Ls Bs] & Hs).
  destruct (generator_row_ok i Hi) as [Lg Bg]. rewrite rs_dot_app by (unfold data_column; rewrite length_map; lia).
  rewrite <- Hs. destruct (unit_row_ok sz c) as [Lu Bu].
  assert (dot s (unit_row sz c) = dot (unit_row sz c) s) as ->.
  { rewrite !dot_xsum by done. rewrite Lu, Ls. apply xsum_ext. intros j Hj. apply gf_mul_comm; by apply bytes_nth. }
  rewrite rs_dot_unit by done. apply Z.lxor_nilpotent.
Qed.

Lemma solved rows' : Forall (row_ok (k + sz)) rows' -> length rows' = k -> ident rows' k -> same_kernel system rows' ->
  map (drop k) rows' = data /\ forall r, (r < k)%nat -> leading k (nth r rows' []) = Some r.
Proof using Hkm Hl Hlen Hin Hd.
  clear -Hkm Hl Hlen Hin Hd. rewrite <- rows_ok_Forall. intros Hok Hl' [_ Hid] Hker. split.
  2:{ intros r Hr. apply leading_ident; [done|]. intros j Hj. apply Hid; lia. }
  apply (nth_ext _ _ [] []); [by rewrite length_map, Hl, Hl'|]. intros r Hr. rewrite length_map in Hr.
  assert (nth r (map (drop k) rows') [] = drop k (nth r rows' [])) as -> by (rewrite <- (map_nth (drop k)); by rewrite drop_nil).
  destruct (Hok r Hr) as [Lr Br]. assert (row_ok sz (nth r data [])) as [Ld Bd] by (apply List.Forall_nth; [done|lia]).
  apply (nth_ext _ _ 0 0); [rewrite length_drop; lia|]. intros c Hc. rewrite length_drop in Hc.
  destruct (unit_row_ok sz c) as [Lu Bu]. pose proof (data_column_bytes sz data c Hd) as Bc.
  assert (length (data_column data c) = k) as Lc by (unfold data_column; by rewrite length_map).
  pose proof (proj2 (Hker (data_column data c ++ unit_row sz c) ltac:(by apply List.Forall_app)) (system_kernel c ltac:(lia)) r Hr) as Hz.
  rewrite <- (take_drop k (nth r rows' [])), rs_dot_app in Hz by (rewrite length_take; lia).
  assert (take k (nth r rows' []) = unit_row k r) as Ht.
  { destruct (unit_row_ok k r) as [U1 _]. apply (nth_ext _ _ 0 0); [rewrite length_take; lia|]. intros j Hj.
    rewrite length_take in Hj. rewrite nth_unit_row, (proj2 (Nat.ltb_lt j k)), andb_true_r, Nat.eqb_sym, <- Hid by lia.
    unfold entry. rewrite <- (take_drop k (nth r rows' [])) at 2. rewrite app_nth1 by (rewrite length_take; lia). done. }
  rewrite Ht, rs_dot_unit, nth_data_column in Hz by (done || lia).
  assert (dot (drop k (nth r rows' [])) (unit_row sz c) = nth c (drop k (nth r rows' [])) 0) as E.
  { assert (bytes_ok (drop k (nth r rows' []))) as Bdr by (by apply Forall_drop).
    rewrite <- (rs_dot_unit sz c) by (done || (rewrite length_drop; lia) || lia). rewrite !dot_xsum by done.
    rewrite Lu, length_drop, Lr. replace (k + sz - k)%nat with sz by lia. apply xsum_ext. intros j _.
    apply gf_mul_comm; by apply bytes_nth. }
  rewrite E in Hz. symmetry. by apply Z.lxor_eq.
Qed.

Lemma rs_decode_ok survived : take k survived = rows_in -> rs_decode cpu k m sz survived = Ok data.
Proof using All.
  intros Ht. unfold rs_decode. assert (k <= length survived)%nat as Hls.
  { rewrite <- Ht, length_take in Hlen. lia. }
  rewrite (proj2 (Nat.ltb_ge _ _)) by lia. cbv zeta. rewrite Ht.
  destruct (existsb _ rows_in) eqn:Ex.
  { apply existsb_exists in Ex as ([i s] & Hp%list_elem_of_In & Hbad). destruct (Hin i s Hp) as (Hi & [Ls _] & _).
    cbn [fst snd] in Hbad. by rewrite (proj2 (Nat.ltb_lt _ _)), Ls, Nat.eqb_refl in Hbad by lia. }
  change (map (fun p : nat * list Z => nth p.1 (build_generator cpu k m) [] ++ p.2) rows_in) with system.
  destruct (gf_gauss_eliminate cpu system (k + sz) k) as [rows' rank] eqn:G.
  destruct (gf_gauss_spec cpu (k + sz) system k rows' rank) as (A & B & _ & D & F); [by rewrite rows_ok_Forall; apply system_ok|lia|lia|done|].
  destruct (F I) as [[-> Hid]|[_ Hdef]]; [|by destruct (system_full Hdef)].
  rewrite Nat.ltb_irrefl, (proj2 (Nat.eqb_neq (k + sz) 0)) by lia.
  assert (length rows' = k) as Hl' by (rewrite B; unfold system; by rewrite length_map).
  destruct (solved rows') as [Hmap Hlead]; [by rewrite <- rows_ok_Forall|done|done|done|].
  pose proof (extract_rows k rows' 0 [] eq_refl ltac:(intros i Hi; apply Hlead; lia)) as Hx.
  rewrite Hl' in Hx. cbn [app] in Hx. rewrite Hx, Hmap.
  destruct (existsb is_nil data) eqn:En; [|done].
  apply existsb_exists in En as (s & Hs%list_elem_of_In & Hnil). rewrite list.Forall_forall in Hd.
  destruct (Hd s Hs) as [Ls _]. destruct s; [cbn in Ls; lia|done].
Qed.
End Decoding.

Lemma coded_cpu cpu cpu' k m sz data i s : (k <= 256)%nat -> length data = k -> Forall (row_ok sz) data ->
  rs_coded k m cpu sz data i s -> rs_coded k m cpu' sz data i s.
Proof.
  intros Hk Hl Hd (Hi & Hs & Hc). split_and!; [done|done|]. intros c. rewrite Hc.
  destruct (head_onto k (data_column data c) Hk) as (y & Hy & Hb & <-); [unfold data_column; by rewrite length_map|by eapply data_column_bytes|].
  rewrite (proj2 (generator_dot cpu k m i y Hk Hi Hy Hb)). by rewrite (proj2 (generator_dot cpu' k m i y Hk Hi Hy Hb)).
Qed.

(** ** Theorems *)

(** any [k] symbols decode.  With at most 256 symbols in all, a generation
    of [k] equal-length nonempty symbols encodes, the first [k] symbols of the
    codeword being the data; and whatever comes later in the list, when the
    first [k] survivors have distinct numbers and are the codeword's symbols
    there, decoding answers the data, on whichever processor either side
    runs. *)
Theorem rs_any_k cpu cpu' k m sz data :
  (0 < k)%nat -> (k + m <= 256)%nat -> (0 < sz)%nat -> length data = k -> Forall (row_ok sz) data ->
  exists cw, (let? e := rs_new cpu k m sz in rs_encode cpu e data) = Ok cw
    /\ length cw = (k + m)%nat /\ take k cw = data
    /\ forall survived, (k <= length survived)%nat -> NoDup (take k survived).*1 ->
         (forall i s, (i, s) ∈ take k survived -> cw !! i = Some s) ->
         rs_decode cpu' k m sz survived = Ok data.
Proof.
  intros Hk Hkm Hsz Hl Hd. destruct (rs_encode_coded cpu k m sz data) as (cw & E & Hcw & Hc); [done|lia|done|done|].
  exists cw. split_and!; [done|done| |].
  { unfold rs_new in E. rewrite (proj2 (Nat.eqb_neq k 0)) in E by lia. cbn [res_bind] in E.
    unfold rs_encode in E. cbn [rs_k rs_n rs_g rs_symbol_size] in E. destruct (negb _); [done|].
    destruct (List.find _ _); [done|]. injection E as <-. by rewrite take_app_length'. }
  intros survived Hlen Hnd Hin. apply (rs_decode_ok cpu' k m sz data (take k survived)); try done.
  - rewrite length_take. lia.
  - intros i s Hp. apply (coded_cpu cpu); [lia|done|done|]. auto.
Qed.

Lemma rs_any_k_witness :
  exists cw, (let? e := rs_new Avx2 2 2 3 in rs_encode Avx2 e [[1; 2; 3]; [7; 0; 255]]) = Ok cw
    /\ rs_decode Neon 2 2 3 [(3%nat, nth 3 cw []); (0%nat, nth 0 cw [])] = Ok [[1; 2; 3]; [7; 0; 255]].
Proof.
  destruct (rs_any_k Avx2 Neon 2 2 3 [[1; 2; 3]; [7; 0; 255]]) as (cw & E & L & _ & H); [lia|lia|lia|done| |].
  { repeat constructor; done. }
  exists cw. split; [exact E|]. apply H; [cbn; lia|cbn; apply NoDup_ListNoDup; repeat constructor; cbn; intuition lia|].
  intros i s Hp. apply list_elem_of_In in Hp.
  destruct Hp as [[= <- <-]|[[= <- <-]|[]]];
    destruct (cw !! _) as [x|] eqn:Ei; [|apply lookup_ge_None in Ei; cbn in *; lia| |apply lookup_ge_None in Ei; cbn in *; lia];
    f_equal; symmetry; by apply nth_lookup_Some.
Defined.

(** Numbers 256 apart carry the same symbol, so beyond 256 symbols some [k] of
    them do not determine the data. *)
Lemma parity_symbols_repeat cpu k m i : (k <= i)%nat -> (i + 256 < k + m)%nat ->
  nth (i + 256) (build_generator cpu k m) [] = nth i (build_generator cpu k m) [].
Proof.
  intros Hk Hi. rewrite !build_generator_nth by lia. rewrite !(proj2 (Nat.ltb_ge _ k)) by lia. f_equal.
  unfold vandermonde_row, rs_alpha, wrap. f_equal. replace (Z.of_nat (i + 256) + 1) with (Z.of_nat i + 1 + 1 * 2 ^ 8) by lia.
  apply Z.mod_add. lia.
Qed.
