(* ===== verification/DlrMmr.v ===== *)
(** The Merkle mountain range (src/integrations/dlr/crates/core/src/mmr.rs).

    BLAKE3 is a parameter.  Indexing the arena and [expect] can panic, which
    is [None]; the theorems show that this does not happen.  Counters are
    natural numbers: a range of 2^64 leaves does not fit in memory. *)

From stdpp Require Import sorting.
From S2P Require Import Prelude.
#[local] Open Scope nat_scope.

Abbreviation MmrHash := (list Z) (only parsing).
Abbreviation BlockId := (list Z) (only parsing).

Record MmrNode := mk_node { n_hash : MmrHash; n_left : option nat; n_right : option nat }.
Record MmrTree := mk_tree { t_root : nat; t_height : nat; t_base : nat }.
Record Mmr := mk_mmr { m_trees : list MmrTree; m_leaves : nat; m_arena : list MmrNode }.

Definition mmr_new : Mmr := mk_mmr [] 0 [].
Definition leaf_count (t : MmrTree) : nat := 2 ^ t_height t.
Definition in_range (t : MmrTree) (i : nat) : bool := (t_base t <=? i) && (i <? t_base t + leaf_count t).

Section Mmr.
Context (blake3 : list Z -> MmrHash).

(** [parent], [leaf_h] *)
Definition mmr_parent (left right : MmrHash) : MmrHash := blake3 ([77%Z] ++ left ++ right).
Definition leaf_h (id : BlockId) : MmrHash := blake3 ([76%Z] ++ id).

(** The merges of [append]: the last tree is popped while it is as high as
    the new one.  Every merge pops a tree, so the number of trees is enough
    fuel. *)
Fixpoint merge_trees (fuel : nat) (trees : list MmrTree) (arena : list MmrNode) (tree : MmrTree)
  : option (list MmrTree * list MmrNode) :=
  match fuel, list.last trees with
  | S fuel, Some prev =>
      if t_height prev =? t_height tree then
        p ← arena !! t_root prev;
        c ← arena !! t_root tree;
        let node := mk_node (mmr_parent (n_hash p) (n_hash c)) (Some (t_root prev)) (Some (t_root tree)) in
        merge_trees fuel (removelast trees) (arena ++ [node]) (mk_tree (length arena) (t_height prev + 1) (t_base prev))
      else Some (trees ++ [tree], arena)
  | _, _ => Some (trees ++ [tree], arena)
  end.

(** [append] *)
Definition mmr_append (m : Mmr) (id : BlockId) : option Mmr :=
  let leaf_node := length (m_arena m) in
  let arena := m_arena m ++ [mk_node (leaf_h id) None None] in
  '(trees, arena) ← merge_trees (length (m_trees m)) (m_trees m) arena (mk_tree leaf_node 0 (m_leaves m));
  Some (mk_mmr trees (m_leaves m + 1) arena).

(** [peaks], [root] *)
Definition mmr_peaks (m : Mmr) : option (list MmrHash) :=
  mapM (fun t => n_hash <$> (m_arena m !! t_root t)) (m_trees m).
Definition ZERO_HASH : MmrHash := repeat 0%Z 32.
Definition mmr_root (m : Mmr) : option MmrHash :=
  match m_trees m with
  | [] => Some ZERO_HASH
  | t :: rest =>
      first ← n_hash <$> (m_arena m !! t_root t);
      foldl (fun acc t => a ← acc; h ← n_hash <$> (m_arena m !! t_root t); Some (mmr_parent a h)) (Some first) rest
  end.

(** The walk of [inclusion_proof] down from the peak: the sibling taken at
    each level, the highest first, and whether it is on the left. *)
Fixpoint descend (arena : list MmrNode) (h : nat) (node leaf : nat) : option (list (nat * bool)) :=
  match h with
  | O => Some []
  | S h' =>
      n ← arena !! node;
      left_root ← n_left n;
      right_root ← n_right n;
      if leaf <? 2 ^ h' then
        rest ← descend arena h' left_root leaf;
        Some ((right_root, false) :: rest)
      else
        rest ← descend arena h' right_root (leaf - 2 ^ h');
        Some ((left_root, true) :: rest)
  end.

(** [inclusion_proof]: from the leaf up; nothing for a leaf that is not there. *)
Definition inclusion_proof (m : Mmr) (i : nat) : option (list (MmrHash * bool)) :=
  match List.find (fun t => in_range t i) (m_trees m) with
  | None => Some []
  | Some tree =>
      steps ← descend (m_arena m) (t_height tree) (t_root tree) (i - t_base tree);
      mapM (fun s : nat * bool => n ← m_arena m !! s.1; Some (n_hash n, s.2)) (rev steps)
  end.

(** [peak_from_proof] *)
Definition peak_from_proof (leaf_id : BlockId) (proof : list (MmrHash * bool)) : MmrHash :=
  fold_left (fun acc (s : MmrHash * bool) => if s.2 then mmr_parent s.1 acc else mmr_parent acc s.1) proof (leaf_h leaf_id).

(** [verify_inclusion] *)
Definition verify_inclusion (m : Mmr) (i : nat) (leaf_id : BlockId) : option bool :=
  match List.find (fun t => in_range t i) (m_trees m) with
  | None => Some false
  | Some tree =>
      proof ← inclusion_proof m i;
      peak ← m_arena m !! t_root tree;
      Some (bool_decide (peak_from_proof leaf_id proof = n_hash peak))
  end.

(** Appending a list of leaves to the empty range. *)
Definition mmr_of (ids : list BlockId) : option Mmr := foldl (fun m id => m ≫= fun m => mmr_append m id) (Some mmr_new) ids.

(** ** Trees *)

(** What a tree of the arena stands for. *)
Inductive ptree := PLeaf (id : BlockId) | PNode (l r : ptree).
Fixpoint p_hash (t : ptree) : MmrHash :=
  match t with PLeaf id => leaf_h id | PNode l r => mmr_parent (p_hash l) (p_hash r) end.
Fixpoint p_leaves (t : ptree) : list BlockId :=
  match t with PLeaf id => [id] | PNode l r => p_leaves l ++ p_leaves r end.
Fixpoint perfect (h : nat) (t : ptree) : Prop :=
  match h, t with
  | O, PLeaf _ => True
  | S h, PNode l r => perfect h l /\ perfect h r
  | _, _ => False
  end.

Fixpoint stands_for (arena : list MmrNode) (i : nat) (t : ptree) : Prop :=
  match t with
  | PLeaf id => arena !! i = Some (mk_node (leaf_h id) None None)
  | PNode l r => exists a b, arena !! i = Some (mk_node (p_hash t) (Some a) (Some b)) /\ stands_for arena a l /\ stands_for arena b r
  end.

Lemma stands_for_hash arena i t : stands_for arena i t -> exists n, arena !! i = Some n /\ n_hash n = p_hash t.
Proof. destruct t; [eauto|]. intros (a & b & H & _). eauto. Qed.

Lemma stands_for_app arena more i t : stands_for arena i t -> stands_for (arena ++ more) i t.
Proof.
  revert i. induction t as [id|l IHl r IHr]; intros i; cbn; [apply lookup_app_l_Some|].
  intros (a & b & H & Hl & Hr). exists a, b. split; [by apply lookup_app_l_Some|]. auto.
Qed.

Lemma perfect_leaves h : forall t, perfect h t -> length (p_leaves t) = 2 ^ h.
Proof.
  induction h as [|h IH]; intros [id|l r]; cbn; try done. intros [Hl Hr]. rewrite length_app, (IH l), (IH r) by done. lia.
Qed.

(** *** The invariant *)

Definition covers (arena : list MmrNode) (tr : MmrTree) (t : ptree) : Prop :=
  stands_for arena (t_root tr) t /\ perfect (t_height tr) t.
Fixpoint based (b : nat) (trees : list MmrTree) : Prop :=
  match trees with [] => True | t :: rest => t_base t = b /\ based (b + leaf_count t) rest end.
Definition higher (a b : MmrTree) : Prop := t_height b < t_height a.
Definition all_leaves (ts : list ptree) : list BlockId := concat (map p_leaves ts).

(** The trees stand for perfect trees of strictly decreasing heights whose
    leaves are [ids] in order, and the arena holds every node once. *)
Record mmr_ok (m : Mmr) (ts : list ptree) (ids : list BlockId) : Prop := mk_mmr_ok {
  ok_covers : Forall2 (covers (m_arena m)) (m_trees m) ts;
  ok_heights : StronglySorted higher (m_trees m);
  ok_based : based 0 (m_trees m);
  ok_leaves : all_leaves ts = ids;
  ok_count : m_leaves m = length ids;
  ok_arena : length (m_arena m) + length (m_trees m) = 2 * length ids
}.

Lemma covers_app arena more tr t : covers arena tr t -> covers (arena ++ more) tr t.
Proof. intros [H1 H2]. split; [by apply stands_for_app|done]. Qed.

Lemma covers_all_app arena more trees ts : Forall2 (covers arena) trees ts -> Forall2 (covers (arena ++ more)) trees ts.
Proof. apply Forall2_impl. intros. by apply covers_app. Qed.

Lemma based_app b l k : based b (l ++ k) <-> based b l /\ based (b + sum_list_with leaf_count l) k.
Proof. revert b. induction l as [|t l IH]; intros b; cbn; [rewrite Nat.add_0_r; tauto|]. rewrite IH, Nat.add_assoc. tauto. Qed.

Lemma covers_leaves arena trees ts : Forall2 (covers arena) trees ts -> length (all_leaves ts) = sum_list_with leaf_count trees.
Proof.
  unfold all_leaves. induction 1 as [|tr t trees ts [_ Hp] _ IH]; [done|]. cbn. rewrite length_app, IH.
  pose proof (perfect_leaves _ _ Hp). unfold leaf_count in *. lia.
Qed.

Lemma higher_snoc l a b : StronglySorted higher (l ++ [a]) -> t_height b < t_height a -> Forall (fun t => t_height b < t_height t) (l ++ [a]).
Proof.
  intros Hs Hb. apply list.Forall_app. split; [|by constructor].
  induction l as [|x l IH]; [done|]. cbn in Hs. apply StronglySorted_inv in Hs as [Hs Hx]. constructor; [|auto].
  apply list.Forall_app in Hx as [_ Hx]. apply list.Forall_cons in Hx as [Hx _]. unfold higher in Hx. lia.
Qed.

Lemma sorted_snoc l b : StronglySorted higher l -> Forall (fun t => t_height b < t_height t) l -> StronglySorted higher (l ++ [b]).
Proof.
  induction 1 as [|x l Hs IH Hx]; intros Hb; cbn; [by repeat constructor|].
  apply list.Forall_cons in Hb as [Hb1 Hb2]. constructor; [auto|]. apply list.Forall_app. split; [done|by constructor].
Qed.

Lemma sorted_init l (b : MmrTree) : StronglySorted higher (l ++ [b]) ->
  StronglySorted higher l /\ Forall (fun t => t_height b < t_height t) l.
Proof.
  induction l as [|x l IH]; cbn; [by repeat constructor|]. intros [Hs Hx]%StronglySorted_inv.
  destruct (IH Hs). apply list.Forall_app in Hx as [Hx Hb]. apply list.Forall_cons in Hb as [Hb _]. split; by constructor.
Qed.

Lemma merge_trees_ok fuel : forall trees ts arena tree t,
  length trees <= fuel -> Forall2 (covers arena) trees ts -> covers arena tree t ->
  StronglySorted higher trees -> Forall (fun p => t_height tree <= t_height p) trees -> based 0 (trees ++ [tree]) ->
  exists trees' arena' ts', merge_trees fuel trees arena tree = Some (trees', arena')
    /\ Forall2 (covers arena') trees' ts' /\ StronglySorted higher trees' /\ based 0 trees'
    /\ all_leaves ts' = all_leaves ts ++ p_leaves t
    /\ length arena' + length trees' = length arena + length trees + 1.
Proof.
  assert (forall trees ts arena tree t, Forall2 (covers arena) trees ts -> covers arena tree t ->
    StronglySorted higher trees -> Forall (fun p => t_height tree < t_height p) trees -> based 0 (trees ++ [tree]) ->
    exists trees' arena' ts', Some (trees ++ [tree], arena) = Some (trees', arena')
      /\ Forall2 (covers arena') trees' ts' /\ StronglySorted higher trees' /\ based 0 trees'
      /\ all_leaves ts' = all_leaves ts ++ p_leaves t
      /\ length arena' + length trees' = length arena + length trees + 1) as Hstop.
  { intros trees ts arena tree t Hc Ht Hs Hh Hb. exists (trees ++ [tree]), arena, (ts ++ [t]).
    split_and!; [done|by apply Forall2_app; [|constructor]|by apply sorted_snoc|done| |rewrite length_app; cbn; lia].
    unfold all_leaves. rewrite map_app, concat_app. cbn. by rewrite app_nil_r. }
  induction fuel as [|fuel IH]; intros trees ts arena tree t Hf Hc Ht Hs Hh Hb.
  { destruct trees; [|cbn in Hf; lia]. cbn [merge_trees]. by eapply Hstop. }
  destruct trees as [|prev trees _] using rev_ind; [cbn; by eapply (Hstop [])|].
  cbn [merge_trees]. rewrite last_snoc, removelast_last.
  apply sorted_init in Hs as [Hs Hp]. apply list.Forall_app in Hh as [Hh Hh1]. apply list.Forall_cons in Hh1 as [Hh1 _].
  destruct (Nat.eqb_spec (t_height prev) (t_height tree)) as [Heq|Hne].
  2:{ eapply Hstop; [done|done|by apply sorted_snoc| |done]. apply list.Forall_app. split; [|constructor; [lia|done]].
      eapply Forall_impl; [|exact Hp]. cbn. intros; lia. }
  apply Forall2_app_inv_l in Hc as (ts0 & ts1 & Hc & Hc1 & ->).
  apply Forall2_cons_inv_l in Hc1 as (tp & l & [Hp1 Hp2] & Hnil & ->). apply Forall2_nil_inv_l in Hnil as ->.
  destruct Ht as [Ht1 Ht2].
  destruct (stands_for_hash _ _ _ Hp1) as (np & Enp & Hnp). destruct (stands_for_hash _ _ _ Ht1) as (nt & Ent & Hnt).
  rewrite Enp, Ent. cbn [mbind option_bind]. rewrite Hnp, Hnt.
  set (node := mk_node (mmr_parent (p_hash tp) (p_hash t)) (Some (t_root prev)) (Some (t_root tree))).
  set (new := mk_tree (length arena) (t_height prev + 1) (t_base prev)).
  rewrite <- app_assoc in Hb. apply based_app in Hb as [Hb1 Hb2]. cbn in Hb2. destruct Hb2 as (Hbp & Hbt & _).
  destruct (IH trees ts0 (arena ++ [node]) new (PNode tp t)) as (trees' & arena' & ts' & E & H1 & H2 & H3 & H4 & H5).
  - rewrite length_app in Hf. cbn in Hf. lia.
  - by apply covers_all_app.
  - split; cbn [new t_root t_height].
    + exists (t_root prev), (t_root tree). split; [by apply list_lookup_middle|]. split; by apply stands_for_app.
    + rewrite Nat.add_1_r. cbn. split; [done|]. by rewrite Heq.
  - done.
  - eapply Forall_impl; [|exact Hp]. cbn. intros; lia.
  - apply based_app. split; [done|]. cbn. done.
  - exists trees', arena', ts'. split_and!; [done|done|done|done| |].
    + rewrite H4. unfold all_leaves. rewrite map_app, concat_app. cbn. by rewrite app_nil_r, <- app_assoc.
    + rewrite H5, !length_app. cbn. lia.
Qed.

(** One append keeps the invariant and adds the leaf. *)
Lemma mmr_append_ok m ts ids id : mmr_ok m ts ids -> exists m' ts', mmr_append m id = Some m' /\ mmr_ok m' ts' (ids ++ [id]).
Proof.
  intros [Hc Hs Hb Hl Hn Ha]. unfold mmr_append. set (arena := m_arena m ++ [mk_node (leaf_h id) None None]).
  destruct (merge_trees_ok (length (m_trees m)) (m_trees m) ts arena (mk_tree (length (m_arena m)) 0 (m_leaves m)) (PLeaf id))
    as (trees' & arena' & ts' & E & H1 & H2 & H3 & H4 & H5).
  - done.
  - by apply covers_all_app.
  - split; [|done]. cbn. by apply list_lookup_middle.
  - done.
  - apply list.Forall_forall. cbn. lia.
  - apply based_app. split; [done|]. cbn. split; [|done]. rewrite Hn, <- Hl. apply (covers_leaves _ _ _ Hc).
  - rewrite E. cbn. eexists _, ts'. split; [done|]. constructor; cbn; try done.
    + by rewrite H4, Hl.
    + rewrite length_app, Hn. done.
    + rewrite H5. unfold arena. rewrite !length_app. cbn. lia.
Qed.

Lemma mmr_of_ok ids : exists m ts, mmr_of ids = Some m /\ mmr_ok m ts ids.
Proof.
  unfold mmr_of. induction ids as [|id ids IH] using rev_ind.
  - exists mmr_new, []. split; [done|]. constructor; try done; constructor.
  - destruct IH as (m & ts & E & Hok). rewrite foldl_snoc, E. cbn. by apply mmr_append_ok with (ts := ts).
Qed.

(** *** Proofs *)

(** The tree with one leaf replaced. *)
Fixpoint p_set (t : ptree) (j : nat) (x : BlockId) : ptree :=
  match t with
  | PLeaf _ => PLeaf x
  | PNode l r => if j <? length (p_leaves l) then PNode (p_set l j x) r else PNode l (p_set r (j - length (p_leaves l)) x)
  end.

Lemma p_set_same t : forall j x, j < length (p_leaves t) -> (p_set t j x = t <-> p_leaves t !! j = Some x).
Proof.
  induction t as [id|l IHl r IHr]; intros j x Hj; cbn [p_set p_leaves length] in *.
  - assert (j = 0) as -> by lia. cbn. split; [by intros [= ->]|by intros [= ->]].
  - rewrite length_app in Hj. destruct (Nat.ltb_spec j (length (p_leaves l))).
    + rewrite lookup_app_l, <- IHl by lia. split; [by intros [= ->]|congruence].
    + rewrite lookup_app_r, <- IHr by lia. split; [by intros [= ->]|congruence].
Qed.

Definition step_hash (arena : list MmrNode) (s : nat * bool) : option (MmrHash * bool) := n ← arena !! s.1; Some (n_hash n, s.2).

Lemma peak_snoc x pf s : peak_from_proof x (pf ++ [s]) = if s.2 then mmr_parent s.1 (peak_from_proof x pf) else mmr_parent (peak_from_proof x pf) s.1.
Proof. unfold peak_from_proof. by rewrite fold_left_app. Qed.

(** The steps down a tree give, upwards, the hashes that recompute the root
    with any leaf in place of the one descended to. *)
Lemma descend_ok arena h : forall t node j, stands_for arena node t -> perfect h t -> j < 2 ^ h ->
  exists steps pf, descend arena h node j = Some steps /\ mapM (step_hash arena) (rev steps) = Some pf /\ length pf = h
    /\ forall x, peak_from_proof x pf = p_hash (p_set t j x).
Proof.
  induction h as [|h IH]; intros [id|l r] node j Hs Hp Hj; cbn in Hp; try done.
  { exists [], []. done. }
  destruct Hp as [Hpl Hpr]. destruct Hs as (a & b & Hn & Hl & Hr). cbn [descend]. rewrite Hn. cbn [mbind option_bind n_left n_right].
  cbn [p_set]. rewrite (perfect_leaves _ _ Hpl). destruct (Nat.ltb_spec j (2 ^ h)) as [Hlt|Hge].
  - destruct (IH l a j Hl Hpl Hlt) as (steps & pf & -> & E & Hlen & Hpf). destruct (stands_for_hash _ _ _ Hr) as (n & En & Hh).
    exists ((b, false) :: steps), (pf ++ [(n_hash n, false)]). split_and!; [done| |rewrite length_app; cbn; lia|].
    + cbn [rev]. apply mapM_Some in E. apply mapM_Some, Forall2_app; [done|]. constructor; [|done]. unfold step_hash. cbn. by rewrite En.
    + intros x. rewrite peak_snoc. cbn. by rewrite Hpf, Hh.
  - cbn in Hj. destruct (IH r b (j - 2 ^ h) Hr Hpr ltac:(lia)) as (steps & pf & -> & E & Hlen & Hpf). destruct (stands_for_hash _ _ _ Hl) as (n & En & Hh).
    exists ((a, true) :: steps), (pf ++ [(n_hash n, true)]). split_and!; [done| |rewrite length_app; cbn; lia|].
    + cbn [rev]. apply mapM_Some in E. apply mapM_Some, Forall2_app; [done|]. constructor; [|done]. unfold step_hash. cbn. by rewrite En.
    + intros x. rewrite peak_snoc. cbn. by rewrite Hpf, Hh.
Qed.

(** The tree an index falls in. *)
Lemma find_tree arena trees ts : Forall2 (covers arena) trees ts -> forall b i, based b trees -> b <= i ->
  match List.find (fun t => in_range t i) trees with
  | Some tr => exists t, covers arena tr t /\ tr ∈ trees /\ t_base tr <= i < t_base tr + 2 ^ t_height tr
                 /\ all_leaves ts !! (i - b) = p_leaves t !! (i - t_base tr)
  | None => length (all_leaves ts) <= i - b
  end.
Proof.
  induction 1 as [|tr t trees ts Hc _ IH]; intros b i Hb Hi; [cbn; lia|]. cbn in Hb. destruct Hb as [Hbt Hb].
  pose proof (perfect_leaves _ _ (proj2 Hc)) as Hlen. unfold leaf_count in Hb.
  assert (all_leaves (t :: ts) = p_leaves t ++ all_leaves ts) as Hall by done.
  cbn [List.find]. unfold in_range at 1, leaf_count. rewrite Hbt.
  destruct (Nat.leb_spec b i); [|lia]. destruct (Nat.ltb_spec i (b + 2 ^ t_height tr)) as [Hlt|Hge]; cbn [andb].
  - exists t. split; [done|]. split; [by left|]. rewrite Hbt. split; [lia|]. rewrite Hall. apply lookup_app_l. lia.
  - specialize (IH (b + 2 ^ t_height tr) i Hb Hge). destruct (List.find _ trees) as [tr'|].
    + destruct IH as (t' & H1 & H2 & H3 & H4). exists t'. split; [done|]. split; [by right|]. split; [done|].
      rewrite Hall, lookup_app_r by lia. rewrite Hlen, <- H4. f_equal. lia.
    + rewrite Hall, length_app. lia.
Qed.

(** Two different strings with one hash. *)
Definition collision : Prop := exists x y, x <> y /\ blake3 x = blake3 y.
Hypothesis hash_length : forall x, length (blake3 x) = 32.

Lemma p_hash_inj t : forall u, p_hash t = p_hash u -> t = u \/ collision.
Proof.
  assert (forall x y, blake3 x = blake3 y -> x = y \/ collision) as Hx.
  { intros x y E. destruct (decide (x = y)); [by left|]. right. by exists x, y. }
  assert (forall t, length (p_hash t) = 32) as Hlen by (intros []; apply hash_length).
  induction t as [id|l IHl r IHr]; intros [id'|l' r'] E; cbn in E; apply Hx in E as [E|E]; try (by right); try discriminate.
  - left. cbn in E. by injection E as ->.
  - cbn in E. injection E as E. apply app_inj_1 in E as [El Er]; [|by rewrite !Hlen].
    destruct (IHl _ El) as [->|?]; [|by right]. destruct (IHr _ Er) as [->|?]; [|by right]. by left.
Qed.

(** ** Properties *)

(** inclusion proofs are complete and sound.  In the range built from any
    list of leaves, every operation succeeds (no index is out of range, no
    child is missing); for an index below the number of leaves there is a
    proof, one hash per level of its tree; the check accepts the leaf at
    that index and refuses any other, unless two strings with one BLAKE3
    hash are at hand; and it refuses every index past the end. *)
Theorem mmr_inclusion ids : exists m, mmr_of ids = Some m /\ forall i x,
  match ids !! i with
  | Some id =>
      exists pf b, inclusion_proof m i = Some pf /\ 2 ^ length pf <= length ids
        /\ verify_inclusion m i x = Some b /\ (x = id -> b = true) /\ (b = true -> x = id \/ collision)
  | None => verify_inclusion m i x = Some false
  end.
Proof.
  destruct (mmr_of_ok ids) as (m & ts & E & [Hc Hs Hb Hl Hn Ha]). exists m. split; [done|]. intros i x.
  pose proof (find_tree _ _ _ Hc 0 i Hb ltac:(lia)) as Hf. rewrite Nat.sub_0_r, Hl in Hf.
  unfold verify_inclusion, inclusion_proof. destruct (List.find _ (m_trees m)) as [tr|].
  - destruct Hf as (t & [Ht Hp] & Hin & Hr & Hlk). pose proof (perfect_leaves _ _ Hp) as Hlen.
    destruct (descend_ok (m_arena m) (t_height tr) t (t_root tr) (i - t_base tr) Ht Hp ltac:(lia)) as (steps & pf & Ed & Em & Hpl & Hpf).
    destruct (stands_for_hash _ _ _ Ht) as (n & En & Hh). rewrite Ed. cbn [mbind option_bind]. fold (step_hash (m_arena m)) in *.
    change (mapM _ (rev steps)) with (mapM (step_hash (m_arena m)) (rev steps)). rewrite Em, En.
    destruct (lookup_lt_is_Some_2 (p_leaves t) (i - t_base tr) ltac:(lia)) as [id Hid]. rewrite Hlk, Hid.
    eexists pf, _. split; [done|]. split.
    { rewrite Hpl, <- Hl, (covers_leaves _ _ _ Hc). apply list_elem_of_split in Hin as (l1 & l2 & ->).
      rewrite sum_list_with_app. cbn. unfold leaf_count at 2. lia. }
    split; [done|]. rewrite Hpf, Hh. split.
    + intros ->. apply bool_decide_true. f_equal. apply p_set_same; [lia|done].
    + intros Heq%bool_decide_eq_true. apply p_hash_inj in Heq as [Heq|?]; [left|by right].
      apply p_set_same in Heq; [congruence|lia].
  - by rewrite lookup_ge_None_2.
Qed.

(** The peaks bagged into one tree. *)
Definition bag (t : ptree) (ts : list ptree) : ptree := fold_left PNode ts t.

Lemma bag_leaves ts : forall t, p_leaves (bag t ts) = p_leaves t ++ all_leaves ts.
Proof.
  induction ts as [|u ts IH]; intros t; cbn; [by rewrite app_nil_r|]. unfold bag in *. rewrite IH. cbn. by rewrite <- app_assoc.
Qed.

Lemma mmr_root_ok m ts ids : mmr_ok m ts ids ->
  mmr_root m = Some (match ts with [] => ZERO_HASH | t :: ts => p_hash (bag t ts) end).
Proof.
  intros [Hc _ _ _ _ _]. unfold mmr_root. destruct Hc as [|tr t trees ts [Ht _] Hc]; [done|].
  destruct (stands_for_hash _ _ _ Ht) as (n & -> & Hn). cbn [fmap option_fmap option_map mbind option_bind]. rewrite Hn. clear Hn n Ht.
  revert t. induction Hc as [|tr' t' trees ts [Ht' _] _ IH]; intros t; [done|]. cbn.
  destruct (stands_for_hash _ _ _ Ht') as (n & -> & Hn). cbn. rewrite Hn. apply (IH (PNode t t')).
Qed.

(** the bagged root commits to the list of leaves, although its
    combination of the peaks is not marked as such: two non-empty ranges with
    the same root hold the same leaves in the same order, unless two strings
    with one hash are at hand.  (The number of leaves is not hashed; the
    marks of leaves and inner nodes are enough.) *)
Theorem mmr_root_commits ids ids' m m' :
  mmr_of ids = Some m -> mmr_of ids' = Some m' -> ids <> [] -> ids' <> [] -> mmr_root m = mmr_root m' ->
  ids = ids' \/ collision.
Proof.
  intros Hm Hm' Hne Hne' E. destruct (mmr_of_ok ids) as (m0 & ts & E0 & Hok). destruct (mmr_of_ok ids') as (m1 & ts' & E1 & Hok').
  simplify_eq. rewrite (mmr_root_ok _ _ _ Hok), (mmr_root_ok _ _ _ Hok') in E.
  pose proof (ok_leaves _ _ _ Hok) as Hl. pose proof (ok_leaves _ _ _ Hok') as Hl'.
  destruct ts as [|t ts]; [by subst|]. destruct ts' as [|t' ts']; [by subst|]. injection E as E.
  apply p_hash_inj in E as [E|?]; [left|by right].
  assert (p_leaves (bag t ts) = p_leaves (bag t' ts')) as H by (by rewrite E). rewrite !bag_leaves in H.
  by rewrite <- Hl, <- Hl'.
Qed.

Lemma decreasing_sum l : StronglySorted higher l -> forall h, Forall (fun t => h <= t_height t) l ->
  2 ^ (h + length l) <= sum_list_with leaf_count l + 2 ^ h.
Proof.
  induction l as [|t l IH] using rev_ind; intros Hs h Hh; [cbn; rewrite Nat.add_0_r; lia|].
  apply sorted_init in Hs as [Hs Ht]. apply list.Forall_app in Hh as [Hh Hh1]. apply list.Forall_cons in Hh1 as [Hh1 _].
  rewrite length_app, sum_list_with_app. cbn [length sum_list_with foldr]. unfold leaf_count at 2.
  specialize (IH Hs (S h)). replace (h + (length l + 1)) with (S h + length l) by lia.
  assert (2 ^ S h = 2 * 2 ^ h) as Hp by (cbn; lia). assert (2 ^ h <= 2 ^ t_height t) by (apply Nat.pow_le_mono_r; lia).
  assert (Forall (fun u => S h <= t_height u) l) as Hf by (eapply Forall_impl; [|exact Ht]; cbn; intros; lia).
  specialize (IH Hf). lia.
Qed.

(** the range is as small as its documentation says: after [N] appends
    the peaks number at most log2 (N + 1), every node of every tree is stored
    once, which makes 2 N minus the number of peaks, and the counter is N. *)
Theorem mmr_size ids : exists m, mmr_of ids = Some m /\ m_leaves m = length ids
  /\ length (m_arena m) + length (m_trees m) = 2 * length ids /\ 2 ^ length (m_trees m) <= length ids + 1.
Proof.
  destruct (mmr_of_ok ids) as (m & ts & E & [Hc Hs Hb Hl Hn Ha]). exists m. split_and!; [done..|].
  rewrite <- Hl, (covers_leaves _ _ _ Hc). apply (decreasing_sum _ Hs 0). apply list.Forall_forall. intros; lia.
Qed.
End Mmr.

(** ** Witnesses *)

(** A toy hash of length 32 that separates the short strings below. *)
Definition toy_hash (l : list Z) : list Z := take 32 (Z.of_nat (length l) :: l ++ repeat 0%Z 32).

Lemma toy_hash_length l : length (toy_hash l) = 32.
Proof. unfold toy_hash. rewrite length_take. cbn [length]. rewrite length_app, repeat_length. lia. Qed.

Lemma mmr_inclusion_witness : exists m, mmr_of toy_hash [[1%Z]; [2%Z]; [3%Z]] = Some m /\ verify_inclusion toy_hash m 1 [2%Z] = Some true.
Proof.
  destruct (mmr_inclusion toy_hash toy_hash_length [[1%Z]; [2%Z]; [3%Z]]) as (m & E & H). exists m. split; [exact E|].
  specialize (H 1 [2%Z]). cbn in H. destruct H as (pf & b & _ & _ & Hv & Ht & _). rewrite Hv. by rewrite Ht.
Defined.

Lemma mmr_root_commits_witness :
  exists m m', mmr_of toy_hash [[1%Z]] = Some m /\ mmr_of toy_hash [[1%Z]] = Some m' /\ ([[1%Z]] = [[1%Z]] \/ collision toy_hash).
Proof.
  eexists _, _. split; [reflexivity|]. split; [reflexivity|].
  eapply (mmr_root_commits toy_hash toy_hash_length); reflexivity || discriminate.
Defined.
