(* ===== verification/AlgMultiset.v ===== *)
(** The multiset hash of a context (src/crates/rc-algebra/src/multiset.rs and
    traits.rs).

    The hashes (SHA-256 and the BLAKE3 expansion) are parameters; the
    accumulator is the list of its 1024 limbs.  The kernels of the three
    targets are written out. *)

From stdpp Require Import gmultiset.
From S2P Require Import Prelude.

Abbreviation bytes := (list Z) (only parsing).

(** ** The algebraic interfaces *)

Class Monoid (A : Type) := { m_id : A; m_op : A -> A -> A }.
Class Group (A : Type) := { g_monoid :: Monoid A; inv_op : A -> A -> A }.
Class Semilattice (A : Type) := { join : A -> A -> A }.

(** ** Limbs *)

Definition LIMBS : nat := 1024.
Definition LtHash : Type := list Z.
Definition LtHash_ZERO : LtHash := repeat 0 LIMBS.

Definition wrapping_add (a b : Z) : Z := wrap 16 (a + b).
Definition wrapping_sub (a b : Z) : Z := wrap 16 (a - b).

Inductive Target := Aarch64 | X86_64 (avx2 : bool) | OtherTarget.

(** The loop over the zipped arrays. *)
Definition assign_scalar (op : Z -> Z -> Z) (lhs rhs : LtHash) : LtHash := zip_with op lhs rhs.

(** One vector: [w] limbs loaded, combined and stored at [i]. *)
Definition vector_at (op : Z -> Z -> Z) (w : nat) (rhs lhs : LtHash) (i : nat) : LtHash :=
  take i lhs ++ zip_with op (take w (drop i lhs)) (take w (drop i rhs)) ++ drop (i + w) lhs.

(** [(0..1024).step_by(16)], sixteen lanes of [epi16]. *)
Definition assign_avx2 (op : Z -> Z -> Z) (lhs rhs : LtHash) : LtHash :=
  fold_left (vector_at op 16 rhs) (map (fun k => k * 16)%nat (seq 0 64)) lhs.

(** The assembly loop: four vectors of eight lanes loaded, combined, and then
    stored, until the pointer reaches the end. *)
Definition neon_iteration (op : Z -> Z -> Z) (rhs lhs : LtHash) (i : nat) : LtHash :=
  let v j := zip_with op (take 8 (drop (i + j) lhs)) (take 8 (drop (i + j) rhs)) in
  take i lhs ++ v 0%nat ++ v 8%nat ++ v 16%nat ++ v 24%nat ++ drop (i + 32) lhs.

Fixpoint neon_loop (op : Z -> Z -> Z) (rhs : LtHash) (fuel : nat) (lhs : LtHash) (i : nat) : LtHash :=
  match fuel with
  | O => lhs
  | S fuel' =>
      let lhs := neon_iteration op rhs lhs i in
      if (i + 32 <? LIMBS)%nat then neon_loop op rhs fuel' lhs (i + 32) else lhs
  end.
Definition assign_neon (op : Z -> Z -> Z) (lhs rhs : LtHash) : LtHash := neon_loop op rhs LIMBS lhs 0.

Definition assign (t : Target) (op : Z -> Z -> Z) (lhs rhs : LtHash) : LtHash :=
  match t with
  | Aarch64 => assign_neon op lhs rhs
  | X86_64 true => assign_avx2 op lhs rhs
  | X86_64 false => assign_scalar op lhs rhs
  | OtherTarget => assign_scalar op lhs rhs
  end.

Definition add_assign (t : Target) (lhs rhs : LtHash) : LtHash := assign t wrapping_add lhs rhs.
Definition sub_assign (t : Target) (lhs rhs : LtHash) : LtHash := assign t wrapping_sub lhs rhs.

#[export] Instance LtHash_Monoid (t : Target) : Monoid LtHash := { m_id := LtHash_ZERO; m_op := add_assign t }.
#[export] Instance LtHash_Group (t : Target) : Group LtHash :=
  { g_monoid := LtHash_Monoid t; inv_op := sub_assign t }.

(** [as_bytes]: little-endian limbs. *)
Definition lthash_bytes (h : LtHash) : bytes := concat (map (le_bytes 2) h).

(** Pairs of bytes as limbs ([as_chunks::<2>]). *)
Fixpoint limbs_of (buf : bytes) : LtHash :=
  match buf with
  | a :: b :: rest => le_val [a; b] :: limbs_of rest
  | _ => []
  end.

Abbreviation BlockId := (list Z) (only parsing).

Section Multiset.
Variable sha256 : bytes -> bytes.
(** 2048 bytes of the keyed BLAKE3 output. *)
Variable xof : bytes -> bytes.
Variable t : Target.

Definition expand_to_element (block : BlockId) : LtHash := limbs_of (xof block).
Definition add_block (h : LtHash) (block : BlockId) : LtHash := add_assign t h (expand_to_element block).
Definition remove (h : LtHash) (block : BlockId) : LtHash := sub_assign t h (expand_to_element block).

(** ** The context set *)

Record ContextSet := mk_context { cs_hash : LtHash; cs_blocks : list BlockId }.
Definition context_new : ContextSet := mk_context LtHash_ZERO [].

Definition context_add_block (c : ContextSet) (id : BlockId) : ContextSet :=
  mk_context (add_block (cs_hash c) id) (cs_blocks c ++ [id]).

Definition context_add (c : ContextSet) (canonical : bytes) : ContextSet * BlockId :=
  let id := sha256 canonical in (context_add_block c id, id).

(** [Vec::swap_remove]: the last element takes the place. *)
Definition swap_remove (l : list BlockId) (pos : nat) : list BlockId :=
  let rest := removelast l in
  match list.last l with
  | Some x => if (pos <? length rest)%nat then <[pos := x]> rest else rest
  | None => l
  end.

Definition evict (c : ContextSet) (id : BlockId) : ContextSet :=
  match rposition (fun b => bool_decide (b = id)) (cs_blocks c) with
  | Some pos => mk_context (remove (cs_hash c) id) (swap_remove (cs_blocks c) pos)
  | None => c
  end.

Definition context_key (c : ContextSet) : bytes := lthash_bytes (cs_hash c).
End Multiset.

(** ** The kernels *)

(** The first [m] limbs combined, the others as they were. *)
Definition done_to (op : Z -> Z -> Z) (lhs rhs : LtHash) (m : nat) : LtHash :=
  zip_with op (take m lhs) (take m rhs) ++ drop m lhs.

Section Kernels.
Context (op : Z -> Z -> Z) (lhs rhs : LtHash) (n : nat).
Context (Hl : length lhs = n) (Hr : length rhs = n).

Lemma done_to_length m : (m <= n)%nat -> length (zip_with op (take m lhs) (take m rhs)) = m.
Proof using Hl Hr. rewrite length_zip_with, !length_take. lia. Qed.

Lemma done_to_drop m k : (m <= n)%nat -> drop (m + k) (done_to op lhs rhs m) = drop (m + k) lhs.
Proof using Hl Hr.
  intros H. unfold done_to. rewrite drop_app_add' by (by rewrite done_to_length). apply drop_drop.
Qed.

Lemma done_to_take m : (m <= n)%nat -> take m (done_to op lhs rhs m) = zip_with op (take m lhs) (take m rhs).
Proof using Hl Hr. intros H. apply take_app_length'. by rewrite done_to_length. Qed.

Lemma zip_take_add m w :
  (m <= n)%nat ->
  zip_with op (take (m + w) lhs) (take (m + w) rhs)
  = zip_with op (take m lhs) (take m rhs) ++ zip_with op (take w (drop m lhs)) (take w (drop m rhs)).
Proof using Hl Hr.
  intros H. rewrite <- zip_with_app by (rewrite !length_take; lia).
  by rewrite <- !take_take_drop.
Qed.

Lemma vector_step m w :
  (m + w <= n)%nat -> vector_at op w rhs (done_to op lhs rhs m) m = done_to op lhs rhs (m + w).
Proof using Hl Hr.
  intros H. unfold vector_at. rewrite done_to_take by lia.
  rewrite <- (Nat.add_0_r m) at 3. rewrite !done_to_drop, Nat.add_0_r by lia.
  unfold done_to. by rewrite zip_take_add, <- app_assoc by lia.
Qed.

Lemma neon_step m :
  (m + 32 <= n)%nat -> neon_iteration op rhs (done_to op lhs rhs m) m = done_to op lhs rhs (m + 32).
Proof using Hl Hr.
  intros H. unfold neon_iteration. cbv zeta. rewrite done_to_take, !done_to_drop by lia. unfold done_to.
  replace (m + 32)%nat with (m + 0 + 8 + 8 + 8 + 8)%nat by lia.
  rewrite 4!zip_take_add, !Nat.add_0_r, <- !app_assoc by lia.
  by replace (m + 8 + 8)%nat with (m + 16)%nat by lia; replace (m + 16 + 8)%nat with (m + 24)%nat by lia.
Qed.

Lemma done_to_all : done_to op lhs rhs n = assign_scalar op lhs rhs.
Proof using Hl Hr.
  unfold done_to. rewrite !take_ge, drop_ge by lia. apply app_nil_r.
Qed.

Lemma done_to_none : done_to op lhs rhs 0 = lhs.
Proof using Type. done. Qed.

(** A loop of vectors over adjacent places. *)
Lemma vectors_done w k :
  (k * w <= n)%nat ->
  fold_left (vector_at op w rhs) (map (fun k => k * w)%nat (seq 0 k)) lhs = done_to op lhs rhs (k * w).
Proof using Hl Hr.
  induction k as [|k IH]; intros H; [done|].
  rewrite seq_S, map_app, fold_left_app, IH by lia. cbn [map fold_left Nat.add].
  rewrite vector_step by lia. f_equal. lia.
Qed.

Lemma neon_loop_done fuel : forall m,
  (m + 32 <= n)%nat -> (n - m <= 32 * fuel)%nat -> (32 | (n - m))%nat -> n = LIMBS ->
  neon_loop op rhs fuel (done_to op lhs rhs m) m = assign_scalar op lhs rhs.
Proof using Hl Hr.
  induction fuel as [|fuel IH]; intros m Hm Hf [q Hq] Hn; [lia|]. cbn [neon_loop]. cbv zeta.
  rewrite neon_step by done. destruct (Nat.ltb_spec (m + 32) LIMBS) as [Hlt|Hge].
  - apply IH; try lia. exists (q - 1)%nat. lia.
  - rewrite <- done_to_all. f_equal. lia.
Qed.
End Kernels.

(** The kernel of every target is the loop over the limbs. *)
Lemma assign_scalar_all t op lhs rhs :
  length lhs = LIMBS -> length rhs = LIMBS -> assign t op lhs rhs = assign_scalar op lhs rhs.
Proof.
  intros Hl Hr. destruct t as [|[]|]; [..|done|done].
  - apply (neon_loop_done op lhs rhs LIMBS Hl Hr LIMBS 0%nat); unfold LIMBS; try lia. by exists 32%nat.
  - cbn [assign]. unfold assign_avx2. rewrite (vectors_done op lhs rhs LIMBS Hl Hr) by (unfold LIMBS; lia).
    by apply done_to_all.
Qed.

(** ** The group *)

Definition lthash_ok (h : LtHash) : Prop := length h = LIMBS /\ Forall (in_u 16) h.

Lemma wrap_add_l w a b : 0 <= w -> wrap w (wrap w a + b) = wrap w (a + b).
Proof. intros. apply Z.add_mod_idemp_l. lia. Qed.

Lemma wrap_add_r w a b : 0 <= w -> wrap w (a + wrap w b) = wrap w (a + b).
Proof. intros. apply Z.add_mod_idemp_r. lia. Qed.

Lemma wrapping_add_comm a b : wrapping_add a b = wrapping_add b a.
Proof. unfold wrapping_add. by rewrite Z.add_comm. Qed.

Lemma wrapping_add_assoc a b c : wrapping_add (wrapping_add a b) c = wrapping_add a (wrapping_add b c).
Proof. unfold wrapping_add. by rewrite wrap_add_l, wrap_add_r, Z.add_assoc by lia. Qed.

Lemma wrapping_sub_add a b : in_u 16 a -> wrapping_sub (wrapping_add a b) b = a.
Proof.
  intros Ha. unfold wrapping_sub, wrapping_add, Z.sub. rewrite wrap_add_l by lia.
  replace (a + b + - b) with a by lia. by apply wrap_small.
Qed.

Lemma assign_length t op lhs rhs :
  length lhs = LIMBS -> length rhs = LIMBS -> length (assign t op lhs rhs) = LIMBS.
Proof. intros. rewrite assign_scalar_all by done. unfold assign_scalar. rewrite length_zip_with. lia. Qed.

Lemma add_assign_ok t lhs rhs : lthash_ok lhs -> length rhs = LIMBS -> lthash_ok (add_assign t lhs rhs).
Proof.
  intros [Hl Ho] Hr. split; [by apply assign_length|]. unfold add_assign.
  rewrite assign_scalar_all by done. apply Forall_zip_with_fst with (P := fun _ => True) (l := lhs).
  - by apply Forall_true.
  - apply Forall_true. intros b a _. by apply wrap_range.
Qed.

(** The laws the traits state, on every target. *)
Lemma op_comm t a b : length a = LIMBS -> length b = LIMBS -> add_assign t a b = add_assign t b a.
Proof.
  intros Ha Hb. unfold add_assign. rewrite !assign_scalar_all by done. clear Ha Hb. revert b.
  induction a as [|x a IH]; intros [|y b]; cbn; f_equal; auto using wrapping_add_comm.
Qed.

Lemma op_assoc t a b c :
  length a = LIMBS -> length b = LIMBS -> length c = LIMBS ->
  add_assign t (add_assign t a b) c = add_assign t a (add_assign t b c).
Proof.
  intros Ha Hb Hc. unfold add_assign. rewrite !assign_scalar_all by (try apply assign_length; done).
  clear Ha Hb Hc. revert b c. induction a as [|x a IH]; intros [|y b] [|z c]; cbn; f_equal; auto using wrapping_add_assoc.
Qed.

Lemma op_inv t a b : lthash_ok a -> length b = LIMBS -> sub_assign t (add_assign t a b) b = a.
Proof.
  intros [Ha Ho] Hb. unfold sub_assign, add_assign. rewrite !assign_scalar_all by (try apply assign_length; done).
  assert (length a = length b) as Hab by lia. clear Ha Hb. revert b Hab.
  induction Ho as [|x a Hx Ho IH]; intros [|y b] Hab; try done. cbn in *. f_equal; [by apply wrapping_sub_add|].
  apply IH. lia.
Qed.

Lemma op_id_r t a : lthash_ok a -> add_assign t a LtHash_ZERO = a.
Proof.
  intros [Ha Ho]. unfold add_assign. rewrite assign_scalar_all by (rewrite ?repeat_length; done).
  unfold LtHash_ZERO. rewrite <- Ha. clear Ha. unfold assign_scalar.
  induction Ho as [|x a Hx Ho IH]; [done|]. cbn. f_equal; [|done].
  unfold wrapping_add. rewrite Z.add_0_r. by apply wrap_small.
Qed.

Lemma zero_ok : lthash_ok LtHash_ZERO.
Proof.
  split; [apply repeat_length|]. apply List.Forall_forall. intros x Hx%repeat_spec. subst. unfold in_u. lia.
Qed.

Lemma limbs_of_length n : forall buf, length buf = (2 * n)%nat -> length (limbs_of buf) = n.
Proof.
  induction n as [|n IH]; intros [|a [|b buf]] H; cbn in *; try lia. f_equal. apply IH. lia.
Qed.

(** ** The context and its multiset *)

Section Context.
Context (xof : bytes -> bytes) (Hxof : forall id, length (xof id) = 2048%nat).

Lemma element_length id : length (expand_to_element xof id) = LIMBS.
Proof using Hxof. by apply limbs_of_length. Qed.

(** The element of a multiset of blocks, in the order of a list. *)
Definition element_of (bs : list BlockId) : LtHash :=
  foldr (fun b h => add_assign OtherTarget h (expand_to_element xof b)) LtHash_ZERO bs.

Lemma element_of_ok bs : lthash_ok (element_of bs).
Proof using Hxof.
  induction bs as [|b bs IH]; [apply zero_ok|]. apply add_assign_ok; [done|apply element_length].
Qed.
#[local] Hint Resolve element_of_ok element_length : core.
#[local] Hint Extern 1 (length (element_of _) = _) => apply element_of_ok : core.

#[local] Instance element_of_perm : Proper (Permutation ==> eq) element_of.
Proof using Hxof.
  intros a b H. induction H as [|x a b _ IH|x y a|a b c _ IH1 _ IH2]; cbn [element_of foldr];
    [done|by fold (element_of a); rewrite IH| |congruence].
  fold (element_of a). rewrite !op_assoc by auto. f_equal. apply op_comm; auto.
Qed.

(** The accumulator is the element of the live blocks. *)
Definition context_ok (c : ContextSet) : Prop := cs_hash c = element_of (cs_blocks c).

Lemma add_assign_target t a b : length a = LIMBS -> length b = LIMBS -> add_assign t a b = add_assign OtherTarget a b.
Proof using Type. intros. unfold add_assign. by rewrite !assign_scalar_all. Qed.

Lemma context_add_block_ok t c id : context_ok c -> context_ok (context_add_block xof t c id).
Proof using Hxof.
  unfold context_ok. cbn. intros ->. unfold add_block.
  rewrite add_assign_target by auto. by rewrite (Permutation_app_comm (cs_blocks c) [id]).
Qed.

Lemma swap_remove_perm a x b : x :: swap_remove (a ++ x :: b) (length a) ≡ₚ a ++ x :: b.
Proof using Type.
  unfold swap_remove. destruct b as [|y b' _] using rev_ind.
  - rewrite list.last_snoc, removelast_last, (proj2 (Nat.ltb_ge _ _)) by lia. solve_Permutation.
  - rewrite app_comm_cons, app_assoc, list.last_snoc, removelast_last.
    rewrite (proj2 (Nat.ltb_lt _ _)) by (rewrite length_app; cbn; lia).
    rewrite list.insert_app_r_alt, Nat.sub_diag by lia. cbn. solve_Permutation.
Qed.

(** An eviction takes one occurrence out, or nothing. *)
Lemma evict_blocks t c id :
  (id ∈ cs_blocks c /\ id :: cs_blocks (evict xof t c id) ≡ₚ cs_blocks c
     /\ cs_hash (evict xof t c id) = remove xof t (cs_hash c) id)
  \/ (id ∉ cs_blocks c /\ evict xof t c id = c).
Proof using Type.
  unfold evict. destruct (rposition _ _) as [pos|] eqn:E.
  - left. apply rposition_Some in E as (a & x & b & Hl & Hp & Hx & _). apply bool_decide_eq_true in Hx as ->.
    cbn. rewrite Hl, <- Hp. split_and!; [apply elem_of_app; right; left|apply swap_remove_perm|done].
  - right. split; [|done]. apply rposition_None in E. rewrite list.Forall_forall in E.
    intros Hin. specialize (E id Hin). by apply bool_decide_eq_false in E.
Qed.

Lemma evict_ok t c id : context_ok c -> context_ok (evict xof t c id).
Proof using Hxof.
  intros Hc. destruct (evict_blocks t c id) as [(_ & Hp & Hh)|[_ ->]]; [|done].
  unfold context_ok in *. rewrite <- Hp in Hc. cbn [element_of foldr] in Hc.
  fold (element_of (cs_blocks (evict xof t c id))) in Hc.
  rewrite Hh, Hc. unfold remove. rewrite <- (add_assign_target t) by auto. apply op_inv; auto.
Qed.

(** ** Histories *)

Inductive ContextOp := OpAddBytes (canonical : bytes) | OpAdd (id : BlockId) | OpEvict (id : BlockId).
Context (sha256 : bytes -> bytes).

Definition context_step (t : Target) (c : ContextSet) (o : ContextOp) : ContextSet :=
  match o with
  | OpAddBytes canonical => (context_add sha256 xof t c canonical).1
  | OpAdd id => context_add_block xof t c id
  | OpEvict id => evict xof t c id
  end.
Definition context_run (t : Target) (os : list ContextOp) : ContextSet := fold_left (context_step t) os context_new.

(** The abstract context: a multiset. *)
Definition spec_step (m : gmultiset BlockId) (o : ContextOp) : gmultiset BlockId :=
  match o with
  | OpAddBytes canonical => m ⊎ {[+ sha256 canonical +]}
  | OpAdd id => m ⊎ {[+ id +]}
  | OpEvict id => m ∖ {[+ id +]}
  end.
Definition spec_run (os : list ContextOp) : gmultiset BlockId := fold_left spec_step os ∅.

Definition live_blocks (c : ContextSet) : gmultiset BlockId := list_to_set_disj (cs_blocks c).

Lemma context_step_live t c o : live_blocks (context_step t c o) = spec_step (live_blocks c) o.
Proof using Type.
  clear Hxof. unfold live_blocks. destruct o as [can|id|id]; cbn.
  - by rewrite list_to_set_disj_app, list_to_set_disj_cons, list_to_set_disj_nil, gmultiset_disj_union_right_id.
  - by rewrite list_to_set_disj_app, list_to_set_disj_cons, list_to_set_disj_nil, gmultiset_disj_union_right_id.
  - destruct (evict_blocks t c id) as [(_ & Hp & _)|[Hn ->]].
    + apply list_to_set_disj_perm in Hp. rewrite list_to_set_disj_cons in Hp. rewrite <- Hp. multiset_solver.
    + assert (id ∉ (list_to_set_disj (cs_blocks c) : gmultiset BlockId)) by by rewrite elem_of_list_to_set_disj.
      multiset_solver.
Qed.

Lemma context_step_ok t c o : context_ok c -> context_ok (context_step t c o).
Proof using Hxof. destruct o; [apply context_add_block_ok|apply context_add_block_ok|apply evict_ok]. Qed.

Lemma context_run_refines t os : context_ok (context_run t os) /\ live_blocks (context_run t os) = spec_run os.
Proof using Hxof.
  unfold context_run, spec_run.
  enough (forall c m, context_ok c -> live_blocks c = m ->
    context_ok (fold_left (context_step t) os c) /\ live_blocks (fold_left (context_step t) os c) = fold_left spec_step os m)
    as H by by apply H.
  induction os as [|o os IH]; intros c m Hc Hm; [done|]. cbn [fold_left].
  apply IH; [by apply context_step_ok|]. by rewrite context_step_live, Hm.
Qed.

Lemma disj_perm (a b : list BlockId) :
  (list_to_set_disj a : gmultiset BlockId) = list_to_set_disj b -> a ≡ₚ b.
Proof using Type.
  clear Hxof xof sha256. revert b. induction a as [|x a IH]; intros b H.
  - destruct b as [|y b]; [done|]. rewrite list_to_set_disj_nil, list_to_set_disj_cons in H. multiset_solver.
  - rewrite list_to_set_disj_cons in H.
    assert (x ∈ b) as Hx. { rewrite <- elem_of_list_to_set_disj, <- H. multiset_solver. }
    apply elem_of_Permutation in Hx as [b' Hb]. rewrite Hb. constructor. apply IH.
    rewrite Hb, list_to_set_disj_cons in H. by apply (inj (disj_union {[+ x +]})) in H.
Qed.

Lemma live_element c1 c2 : live_blocks c1 = live_blocks c2 -> element_of (cs_blocks c1) = element_of (cs_blocks c2).
Proof using Hxof.
  intros H. assert (cs_blocks c1 ≡ₚ cs_blocks c2) as Hp; [by apply disj_perm|by rewrite Hp].
Qed.
End Context.

Lemma length_concat_le h : length (lthash_bytes h) = (2 * length h)%nat.
Proof. induction h as [|x h IH]; [done|]. unfold lthash_bytes in *. cbn [map concat length]. rewrite length_app, IH, length_le_bytes. lia. Qed.

Lemma key_determined (sha256 xof : bytes -> bytes) t1 t2 os1 os2 :
  (forall id, length (xof id) = 2048%nat) -> spec_run sha256 os1 = spec_run sha256 os2 ->
  context_key (context_run xof sha256 t1 os1) = context_key (context_run xof sha256 t2 os2).
Proof.
  intros Hx E. destruct (context_run_refines xof Hx sha256 t1 os1) as [H1 L1].
  destruct (context_run_refines xof Hx sha256 t2 os2) as [H2 L2].
  unfold context_key. rewrite H1, H2. f_equal. apply live_element; [done|congruence].
Qed.

(** Over every sequence of adds and evictions a context is the multiset
    of its blocks: an add puts one occurrence in, an eviction takes one out
    (and does nothing when there is none).  Its key is 2048 bytes that are a
    function of that multiset alone: two histories that leave the same
    multiset, in any order and computed with any of the kernels (the NEON
    loop, AVX2, the scalar loop), have the same key. *)
Theorem key_of_the_multiset (sha256 xof : bytes -> bytes) t1 t2 os1 os2 :
  (forall id, length (xof id) = 2048%nat) ->
  live_blocks (context_run xof sha256 t1 os1) = spec_run sha256 os1
  /\ length (context_key (context_run xof sha256 t1 os1)) = 2048%nat
  /\ (spec_run sha256 os1 = spec_run sha256 os2 ->
      context_key (context_run xof sha256 t1 os1) = context_key (context_run xof sha256 t2 os2)).
Proof.
  intros Hx. destruct (context_run_refines xof Hx sha256 t1 os1) as [H1 L1].
  split_and!; [done| |by apply key_determined].
  unfold context_key. rewrite length_concat_le, H1. by rewrite (proj1 (element_of_ok xof Hx _)).
Qed.

Lemma key_of_the_multiset_witness :
  let xof := fun id => repeat (nth 0 id 0) 2048 in
  let os1 := [OpAddBytes [7]; OpAdd [9]; OpAdd [7]; OpEvict [7]; OpEvict [3]] in
  let os2 := [OpAdd [9]; OpAdd [7]] in
  context_key (context_run xof id Aarch64 os1) = context_key (context_run xof id (X86_64 true) os2).
Proof.
  intros xof os1 os2.
  apply (key_of_the_multiset id xof Aarch64 (X86_64 true) os1 os2); [intros i; apply repeat_length|].
  unfold os1, os2, spec_run, id. cbn [fold_left spec_step]. multiset_solver.
Defined.

(** ** Duplicates *)

Lemma iter_op e n : forall h,
  lthash_ok h -> length e = LIMBS ->
  Nat.iter n (fun h => add_assign OtherTarget h e) h
  = zip_with (fun a x => wrap 16 (a + Z.of_nat n * x)) h e.
Proof.
  induction n as [|n IH]; intros h Ho He.
  - change (Nat.iter 0 _ h) with h. destruct Ho as [Hl Ho]. rewrite <- Hl in He. clear Hl. revert e He.
    induction Ho as [|x h Hx Ho IH]; intros [|y e] He; try done. cbn [zip_with]. f_equal; [|apply IH; by injection He].
    cbn [Z.of_nat Z.mul]. rewrite Z.add_0_r. symmetry. by apply wrap_small.
  - cbn [Nat.iter nat_rect]. change (nat_rect _ _ _ n) with (Nat.iter n (fun h => add_assign OtherTarget h e) h).
    rewrite IH by done. unfold add_assign. cbn [assign]. destruct Ho as [Hl _]. unfold assign_scalar.
    rewrite <- Hl in He. clear Hl IH. revert e He.
    induction h as [|x h IH]; intros [|y e] He; try done. cbn [zip_with]. f_equal; [|apply IH; by injection He].
    unfold wrapping_add. rewrite wrap_add_l by lia. f_equal. lia.
Qed.

(** Copies do cancel, in 65,536s: a block added that many times leaves
    the key where it was, so the key tells multisets apart only up to their
    multiplicities modulo 2^16. *)
Theorem copies_cancel (xof : bytes -> bytes) t c id :
  (forall id, length (xof id) = 2048%nat) -> lthash_ok (cs_hash c) ->
  context_key (Nat.iter (Z.to_nat 65536) (fun c => context_add_block xof t c id) c) = context_key c.
Proof.
  intros Hx Ho. unfold context_key. f_equal. set (e := expand_to_element xof id).
  assert (length e = LIMBS) as He by by apply element_length.
  transitivity (Nat.iter (Z.to_nat 65536) (fun h => add_assign OtherTarget h e) (cs_hash c)).
  - generalize (Z.to_nat 65536) as n. intros n.
    enough (cs_hash (Nat.iter n (fun c => context_add_block xof t c id) c)
            = Nat.iter n (fun h => add_assign OtherTarget h e) (cs_hash c)
            /\ lthash_ok (cs_hash (Nat.iter n (fun c => context_add_block xof t c id) c))) as [H _] by exact H.
    induction n as [|n [IH Hn]]; [done|]. cbn [Nat.iter nat_rect] in *. cbn [context_add_block cs_hash].
    unfold add_block. fold e. split; [|by apply add_assign_ok].
    rewrite add_assign_target by (done || apply Hn). f_equal. exact IH.
  - rewrite iter_op, Z2Nat.id by (done || lia). destruct Ho as [Hl Ho]. rewrite <- Hl in He. clear Hl.
    revert He. generalize e. clear e. induction Ho as [|x h Hx' Ho IH]; intros [|y e] He; try done.
    cbn [zip_with]. f_equal; [|apply IH; by injection He].
    unfold wrap. change 65536 with (2 ^ 16). rewrite Z.mul_comm, Z.mod_add by lia. apply wrap_small, Hx'.
Qed.

Lemma copies_cancel_witness :
  context_key (Nat.iter (Z.to_nat 65536) (fun c => context_add_block (fun _ => repeat 1 2048) Aarch64 c [5]) context_new)
  = context_key context_new.
Proof. apply copies_cancel; [intros i; apply repeat_length|apply zero_ok]. Defined.
