(* ===== verification/AlgSeq.v ===== *)
(** The hash of a sequence of blocks (src/crates/rc-algebra/src/seqhash.rs):
    a polynomial in the block words modulo 2^61 - 1.  A block id is its 32
    bytes; the machine arithmetic (wrapping additions of [u64], products in
    [u128]) is written out. *)

From stdpp Require Import gmultiset.
From S2P Require Import Prelude AlgMultiset.

Definition P : Z := 2 ^ 61 - 1.
Definition BASE : Z := 0x9E3779B97F4A7C15.

(** The product is a [u128]. *)
Definition mul_mod (a b : Z) : Z := wrap 128 (a * b) mod P.
Definition add_mod (a b : Z) : Z :=
  let s := wrap 64 (a + b) in
  if P <=? s then s - P else s.

(** [while e > 0]: a [usize] has 64 bits. *)
Fixpoint coeff_loop (fuel : nat) (result base e : Z) : Z :=
  match fuel with
  | O => result
  | S fuel' =>
      if 0 <? e then
        let result := if Z.land e 1 =? 1 then mul_mod result base else result in
        coeff_loop fuel' result (mul_mod base base) (Z.shiftr e 1)
      else result
  end.
Definition coeff (i : Z) : Z := coeff_loop 64 1 BASE i.

Definition block_word (b : BlockId) : Z := le_val (take 8 b) mod P.

Record SeqHash := mk_seq { sq_acc : Z; sq_len : Z }.
Definition SeqHash_EMPTY : SeqHash := mk_seq 0 0.

Definition seq_append (s : SeqHash) (block : BlockId) : SeqHash :=
  let term := mul_mod (coeff (sq_len s)) (block_word block) in
  mk_seq (add_mod (sq_acc s) term) (sq_len s + 1).

Definition seq_extend (s : SeqHash) (blocks : list BlockId) : SeqHash := fold_left seq_append blocks s.
Definition seq_is_empty (s : SeqHash) : bool := sq_len s =? 0.

(** Concatenation. *)
Definition seq_op (s other : SeqHash) : SeqHash :=
  let shift := coeff (sq_len s) in
  let carried := mul_mod (sq_acc other) shift in
  mk_seq (add_mod (sq_acc s) carried) (sq_len s + sq_len other).

#[export] Instance SeqHash_Monoid : Monoid SeqHash := { m_id := SeqHash_EMPTY; m_op := seq_op }.

(** [PrefixFingerprint] *)
Definition from_blocks (blocks : list BlockId) : SeqHash := seq_extend SeqHash_EMPTY blocks.
Definition fingerprint_extend (s : SeqHash) (b : BlockId) : SeqHash := seq_append s b.
Definition fingerprint (s : SeqHash) : Z := sq_acc s.

(** ** The field *)

Definition in_field (x : Z) : Prop := 0 <= x < P.

Lemma P_value : P = 2305843009213693951. Proof. reflexivity. Qed.
Ltac field := unfold in_field, in_u in *; rewrite ?P_value in *; lia.

Lemma mul_mod_spec a b : 0 <= a < 2 ^ 64 -> 0 <= b < 2 ^ 64 -> mul_mod a b = (a * b) mod P.
Proof. intros. unfold mul_mod. rewrite wrap_small; [done|]. unfold in_u. nia. Qed.

Lemma mod_field x : in_field (x mod P).
Proof. apply Z.mod_pos_bound. rewrite P_value. lia. Qed.

Lemma field_u64 x : in_field x -> 0 <= x < 2 ^ 64.
Proof. field. Qed.
#[local] Hint Resolve mod_field field_u64 : core.

Lemma add_mod_spec a b : in_field a -> in_field b -> add_mod a b = (a + b) mod P.
Proof.
  intros Ha Hb. unfold add_mod. rewrite wrap_small by field.
  destruct (Z.leb_spec P (a + b)).
  - apply (Z.mod_unique_pos _ _ 1); field.
  - symmetry. apply Z.mod_small. field.
Qed.

(** Square and multiply. *)
Lemma coeff_loop_spec fuel : forall r b e,
  0 <= r < 2 ^ 64 -> 0 <= b < 2 ^ 64 -> 0 <= e < 2 ^ Z.of_nat fuel ->
  coeff_loop fuel r b e mod P = (r * b ^ e) mod P.
Proof.
  induction fuel as [|fuel IH]; intros r b e Hr Hb He.
  - assert (e = 0) as -> by (cbn in He; lia). by rewrite Z.mul_1_r.
  - cbn [coeff_loop]. destruct (Z.ltb_spec 0 e) as [H|H].
    2:{ assert (e = 0) as -> by lia. by rewrite Z.mul_1_r. }
    rewrite Nat2Z.inj_succ, Z.pow_succ_r in He by lia.
    assert (Z.shiftr e 1 = e / 2) as Hs by (rewrite Z.shiftr_div_pow2 by lia; done).
    assert (Z.land e 1 = e mod 2) as Hm by (change 1 with (Z.ones 1); rewrite Z.land_ones by lia; done).
    rewrite Hs, Hm, (mul_mod_spec b b) by done. cbv zeta.
    assert (b ^ e = b ^ (e mod 2) * (b * b) ^ (e / 2)) as Hp.
    { rewrite <- Z.pow_2_r, <- Z.pow_mul_r, <- Z.pow_add_r by zlia. f_equal. zlia. }
    rewrite IH; [|destruct (_ =? 1); rewrite ?mul_mod_spec by done; auto|auto|zlia].
    assert (forall x, (x * ((b * b) mod P) ^ (e / 2)) mod P = (x * (b * b) ^ (e / 2)) mod P) as Hx.
    { intros x. rewrite <- Z.mul_mod_idemp_r, Z.mod_pow_l, Z.mul_mod_idemp_r by (rewrite P_value; lia). done. }
    rewrite Hx, Hp. assert (e mod 2 = 0 \/ e mod 2 = 1) as [->| ->] by zlia; cbn [Z.eqb Pos.eqb].
    + by rewrite Z.pow_0_r, Z.mul_1_l.
    + rewrite mul_mod_spec, Z.mul_mod_idemp_l, Z.pow_1_r by (done || rewrite P_value; lia). f_equal. ring.
Qed.

Lemma coeff_loop_field fuel : forall r b e,
  in_field r -> 0 <= b < 2 ^ 64 -> in_field (coeff_loop fuel r b e).
Proof.
  induction fuel as [|fuel IH]; intros r b e Hr Hb; [done|]. cbn [coeff_loop].
  destruct (0 <? e); [|done]. cbv zeta. apply IH; rewrite !mul_mod_spec by auto; [|auto].
  destruct (_ =? 1); auto.
Qed.

Lemma coeff_spec i : 0 <= i < 2 ^ 64 -> coeff i = BASE ^ i mod P.
Proof.
  intros Hi. assert (in_field (coeff i)) as Hf by (apply coeff_loop_field; [field|unfold BASE; lia]).
  rewrite <- (Z.mod_small (coeff i) P) by apply Hf. unfold coeff.
  rewrite coeff_loop_spec by (unfold BASE; lia). by rewrite Z.mul_1_l.
Qed.

(** ** The polynomial *)

(** The sum of the weighted words, from the position [i]. *)
Fixpoint poly (i : Z) (blocks : list BlockId) : Z :=
  match blocks with
  | [] => 0
  | b :: rest => BASE ^ i * block_word b + poly (i + 1) rest
  end.

Lemma poly_app i a b : poly i (a ++ b) = poly i a + poly (i + length_z a) b.
Proof.
  revert i. induction a as [|x a IH]; intros i; cbn [app poly].
  - unfold length_z. cbn. by rewrite Z.add_0_r.
  - rewrite IH. unfold length_z. cbn [length]. rewrite Nat2Z.inj_succ.
    replace (i + 1 + Z.of_nat (length a)) with (i + Z.succ (Z.of_nat (length a))) by lia. ring.
Qed.

Lemma poly_shift i k blocks : 0 <= i -> 0 <= k -> poly (i + k) blocks = BASE ^ k * poly i blocks.
Proof.
  intros Hi Hk. revert i Hi. induction blocks as [|b blocks IH]; intros i Hi; cbn [poly]; [ring|].
  replace (i + k + 1) with (i + 1 + k) by lia. rewrite IH, Z.pow_add_r by lia. ring.
Qed.

Lemma length_z_succ {A} (x : A) l : length_z (x :: l) = length_z l + 1.
Proof. unfold length_z. cbn. lia. Qed.

Lemma P_pos : P <> 0. Proof. rewrite P_value. lia. Qed.

(** The state of a sequence is its polynomial and its length. *)
Lemma seq_extend_spec blocks : forall s,
  in_field (sq_acc s) -> 0 <= sq_len s -> sq_len s + length_z blocks < 2 ^ 64 ->
  seq_extend s blocks
  = mk_seq ((sq_acc s + poly (sq_len s) blocks) mod P) (sq_len s + length_z blocks).
Proof.
  induction blocks as [|b blocks IH]; intros [acc n] Hf Hn Hl; cbn [seq_extend fold_left poly] in *.
  - cbn. rewrite !Z.add_0_r, Z.mod_small by done. done.
  - rewrite length_z_succ in *. change (fold_left seq_append blocks) with (fun s => seq_extend s blocks). cbv beta.
    cbn [sq_acc sq_len] in *.
    assert (seq_append (mk_seq acc n) b = mk_seq ((acc + BASE ^ n * block_word b) mod P) (n + 1)) as ->.
    { unfold seq_append. cbn [sq_acc sq_len]. unfold block_word. f_equal.
      rewrite coeff_spec, mul_mod_spec, add_mod_spec, Z.add_mod_idemp_r, <- Z.add_mod_idemp_r by
        (auto using P_pos || (unfold length_z in *; lia)).
      rewrite Z.mul_mod_idemp_l, Z.add_mod_idemp_r by apply P_pos. done. }
    rewrite IH; cbn [sq_acc sq_len]; [|auto|lia|lia].
    rewrite Z.add_mod_idemp_l by apply P_pos. f_equal; [f_equal; ring|lia].
Qed.

Lemma from_blocks_spec blocks :
  length_z blocks < 2 ^ 64 -> from_blocks blocks = mk_seq (poly 0 blocks mod P) (length_z blocks).
Proof.
  intros H. unfold from_blocks. rewrite seq_extend_spec; cbn; [done|field|lia|done].
Qed.

(** ** Cancellation *)

Definition unit_mod (u v : Z) : Prop := (u * v) mod P = 1.

Lemma unit_cancel u v a b : unit_mod u v -> (u * a) mod P = (u * b) mod P -> a mod P = b mod P.
Proof.
  intros Hu H.
  assert (forall x, x mod P = (v * ((u * x) mod P)) mod P) as Hx.
  { intros x. rewrite Z.mul_mod_idemp_r by apply P_pos. replace (v * (u * x)) with (u * v * x) by ring.
    rewrite <- Z.mul_mod_idemp_l, Hu, Z.mul_1_l by apply P_pos. done. }
  by rewrite (Hx a), (Hx b), H.
Qed.

Lemma unit_mul u v u' v' : unit_mod u v -> unit_mod u' v' -> unit_mod (u * u') (v * v').
Proof.
  intros H H'. unfold unit_mod. replace (u * u' * (v * v')) with (u * v * (u' * v')) by ring.
  rewrite Z.mul_mod, H, H' by apply P_pos. done.
Qed.

Lemma BASE_unit : unit_mod BASE 1668782088158133545.
Proof. reflexivity. Qed.

Lemma BASE_pred_unit : unit_mod (BASE - 1) 1600301674718219166.
Proof. reflexivity. Qed.

Lemma BASE_pow_unit i : 0 <= i -> exists v, unit_mod (BASE ^ i) v.
Proof.
  intros Hi. pattern i. apply natlike_ind; [|intros k Hk [v Hv]|done].
  - exists 1. reflexivity.
  - exists (1668782088158133545 * v). rewrite Z.pow_succ_r by done. by apply unit_mul; [apply BASE_unit|].
Qed.

Lemma block_word_mod x : block_word x mod P = block_word x.
Proof. apply Z.mod_mod, P_pos. Qed.

(** Two polynomials agree when the unit multiples they differ by do. *)
Lemma poly_cancel c u v wx wy :
  unit_mod u v -> wx mod P = wx -> wy mod P = wy ->
  (c + u * wx) mod P = (c + u * wy) mod P <-> wx = wy.
Proof.
  intros Hu Hx Hy. split; [|by intros ->]. intros H.
  assert ((u * wx) mod P = (u * wy) mod P) as H'.
  { replace (u * wx) with (c + u * wx - c) by ring. replace (u * wy) with (c + u * wy - c) by ring.
    rewrite Zminus_mod, H, <- Zminus_mod. done. }
  apply (unit_cancel u v) in H'; [|done]. by rewrite Hx, Hy in H'.
Qed.

Lemma from_blocks_app l l' :
  length_z l + length_z l' < 2 ^ 64 -> from_blocks (l ++ l') = seq_op (from_blocks l) (from_blocks l').
Proof.
  intros Hl. assert (0 <= length_z l /\ 0 <= length_z l') as [? ?] by (unfold length_z; lia).
  rewrite !from_blocks_spec by (unfold length_z in *; rewrite ?length_app, ?Nat2Z.inj_add; lia).
  unfold seq_op. cbn [sq_acc sq_len].
  rewrite coeff_spec, mul_mod_spec, add_mod_spec by (auto || lia).
  f_equal; [|unfold length_z; rewrite length_app; lia].
  rewrite <- Z.mul_mod, <- Z.add_mod by apply P_pos. f_equal. rewrite poly_app. f_equal.
  rewrite poly_shift by auto with lia. ring.
Qed.

(** The sequence hash is a homomorphism: the hash of a concatenation is
    the [op] of the hashes, the empty sequence is the identity, [op] is
    associative on hashes of sequences, and the accumulator is the
    polynomial in the block words modulo 2^61 - 1 (no machine operation
    wraps). *)
Theorem sequence_hash_homomorphism a b c :
  length_z a + length_z b + length_z c < 2 ^ 64 ->
  from_blocks (a ++ b) = m_op (from_blocks a) (from_blocks b)
  /\ fingerprint (from_blocks a) = poly 0 a mod P
  /\ m_op (m_id : SeqHash) (from_blocks a) = from_blocks a
  /\ m_op (from_blocks a) m_id = from_blocks a
  /\ m_op (m_op (from_blocks a) (from_blocks b)) (from_blocks c)
     = m_op (from_blocks a) (m_op (from_blocks b) (from_blocks c)).
Proof.
  intros H. assert (forall l : list BlockId, 0 <= length_z l) as Hpos by (intros; unfold length_z; lia).
  pose proof (Hpos a). pose proof (Hpos b). pose proof (Hpos c). cbn [m_op m_id SeqHash_Monoid].
  assert (SeqHash_EMPTY = from_blocks []) as -> by done.
  rewrite <- !from_blocks_app, app_nil_r by (unfold length_z in *; rewrite ?length_app; cbn [length]; lia).
  split_and!; [done| |done|done|by rewrite app_assoc].
  by rewrite from_blocks_spec by lia.
Qed.

Lemma sequence_hash_homomorphism_witness :
  from_blocks ([[1]] ++ [[2]]) = seq_op (from_blocks [[1]]) (from_blocks [[2]]).
Proof. apply (sequence_hash_homomorphism [[1]] [[2]] []). reflexivity. Defined.

(** Order counts downstairs and not upstairs.  Exchanging two neighbouring
    blocks, or replacing one, changes the sequence fingerprint exactly when
    their 8-byte words differ modulo 2^61 - 1; the exchange never changes the
    context key of the same blocks. *)
Theorem order_counts (sha256 xof : bytes -> bytes) t a b x y :
  (forall id, length (xof id) = 2048%nat) -> length_z a + length_z b + 2 < 2 ^ 64 ->
  (fingerprint (from_blocks (a ++ x :: y :: b)) = fingerprint (from_blocks (a ++ y :: x :: b))
   <-> block_word x = block_word y)
  /\ (fingerprint (from_blocks (a ++ x :: b)) = fingerprint (from_blocks (a ++ y :: b))
      <-> block_word x = block_word y)
  /\ context_key (context_run xof sha256 t (map OpAdd (a ++ x :: y :: b)))
     = context_key (context_run xof sha256 t (map OpAdd (a ++ y :: x :: b))).
Proof.
  intros Hxof Hl. set (i := length_z a).
  assert (0 <= i) as Hi by (unfold i, length_z; lia). destruct (BASE_pow_unit i Hi) as [v Hv].
  assert (length_z b >= 0) by (unfold length_z; lia).
  unfold fingerprint. rewrite !from_blocks_spec by (unfold length_z in *; rewrite length_app; cbn [length]; lia).
  cbn [sq_acc]. rewrite !poly_app. cbn [poly]. fold i. rewrite !Z.add_0_l, !Z.pow_add_r by lia. split_and!.
  - set (wx := block_word x). set (wy := block_word y).
    set (c := poly 0 a + BASE ^ i * (wx + wy) + poly (i + 1 + 1) b).
    replace (_ + (BASE ^ i * wx + _)) with (c + BASE ^ i * (BASE - 1) * wy) by (unfold c; ring).
    replace (_ + (BASE ^ i * wy + _)) with (c + BASE ^ i * (BASE - 1) * wx) by (unfold c; ring).
    rewrite (poly_cancel c _ _ wy wx (unit_mul _ _ _ _ Hv BASE_pred_unit)) by apply block_word_mod. done.
  - set (c := poly 0 a + poly (i + 1) b).
    replace (_ + (_ * block_word x + _)) with (c + BASE ^ i * block_word x) by (unfold c; ring).
    replace (_ + (_ * block_word y + _)) with (c + BASE ^ i * block_word y) by (unfold c; ring).
    by rewrite (poly_cancel c _ _ _ _ Hv) by apply block_word_mod.
  - apply key_determined; [done|]. rewrite !map_app. cbn [map]. unfold spec_run.
    rewrite !fold_left_app. cbn [fold_left spec_step]. f_equal. multiset_solver.
Qed.

Lemma order_counts_witness :
  fingerprint (from_blocks [repeat 1 32; repeat 2 32; [3]]) <> fingerprint (from_blocks [repeat 2 32; repeat 1 32; [3]]).
Proof.
  destruct (order_counts id (fun _ => repeat 0 2048) OtherTarget [] [[3]] (repeat 1 32) (repeat 2 32)) as [[H _] _].
  - intros i. apply repeat_length.
  - reflexivity.
  - intros E. apply H in E. vm_compute in E. discriminate.
Defined.
