(* ===== verification/AlgCrdt.v ===== *)
(** The replicated prefix set (src/crates/rc-algebra/src/crdt.rs): entries
    and tombstones under last-writer-wins with epochs.  A [BTreeMap] is a
    [gmap] walked in the order of its keys. *)

From stdpp Require Import gmap sorting.
From S2P Require Import Prelude AlgMultiset.

Record PrefixEntry := mk_entry { pe_fingerprint : Z; pe_context_key : list Z; pe_epoch : Z }.
#[export] Instance PrefixEntry_eq : EqDecision PrefixEntry.
Proof. solve_decision. Defined.

Definition from_context_key (fp : Z) (key : list Z) (epoch : Z) : PrefixEntry := mk_entry fp key epoch.

Record PrefixSet := mk_prefixes { ps_entries : gmap Z PrefixEntry; ps_tombstones : gmap Z Z }.
Definition prefix_new : PrefixSet := mk_prefixes ∅ ∅.

(** [BTreeMap::iter] *)
Definition key_le {V} (a b : Z * V) : Prop := a.1 <= b.1.
#[export] Instance key_le_dec {V} : RelDecision (@key_le V).
Proof. intros a b. apply Z_le_dec. Defined.
Definition btree_iter {V} (m : gmap Z V) : list (Z * V) :=
  merge_sort key_le (map_to_list m).

Definition prefix_add (s : PrefixSet) (entry : PrefixEntry) : PrefixSet :=
  let fp := pe_fingerprint entry in
  let insert := mk_prefixes (<[fp := entry]> (ps_entries s)) (ps_tombstones s) in
  let live :=
    match ps_entries s !! fp with
    | Some existing => if pe_epoch entry <? pe_epoch existing then s else insert
    | None => insert
    end in
  match ps_tombstones s !! fp with
  | Some tomb_epoch => if pe_epoch entry <=? tomb_epoch then s else live
  | None => live
  end.

Definition prefix_evict (s : PrefixSet) (fp epoch : Z) : PrefixSet :=
  let tomb := default 0 (ps_tombstones s !! fp) in
  let tombs := if tomb <=? epoch then <[fp := epoch]> (ps_tombstones s) else ps_tombstones s in
  let entries :=
    match ps_entries s !! fp with
    | Some e => if pe_epoch e <=? epoch then delete fp (ps_entries s) else ps_entries s
    | None => ps_entries s
    end in
  mk_prefixes entries tombs.

(** [matches!(tombstones.get(fp), Some(tomb) if *tomb >= epoch)] *)
Definition hidden (s : PrefixSet) (fp epoch : Z) : bool :=
  match ps_tombstones s !! fp with Some tomb => epoch <=? tomb | None => false end.

Definition prefix_contains (s : PrefixSet) (fp : Z) : bool :=
  match ps_entries s !! fp with Some e => negb (hidden s fp (pe_epoch e)) | None => false end.

Definition prefix_live (s : PrefixSet) : list PrefixEntry :=
  map snd (base.filter (fun '(fp, e) => hidden s fp (pe_epoch e) = false) (btree_iter (ps_entries s))).
Definition prefix_len (s : PrefixSet) : nat := length (prefix_live s).

Definition prefix_join (s other : PrefixSet) : PrefixSet :=
  let out := fold_left (fun out '(_, entry) => prefix_add out entry) (btree_iter (ps_entries other)) s in
  fold_left (fun out '(fp, epoch) => prefix_evict out fp epoch) (btree_iter (ps_tombstones other)) out.

#[export] Instance PrefixSet_Semilattice : Semilattice PrefixSet := { join := prefix_join }.

(** ** One fingerprint at a time *)

(** A set's cell at a fingerprint. *)
Definition cell : Type := option PrefixEntry * option Z.
Definition cell_at (s : PrefixSet) (fp : Z) : cell := (ps_entries s !! fp, ps_tombstones s !! fp).

Definition cell_add (c : cell) (e : PrefixEntry) : cell :=
  if (match c.2 with Some t => pe_epoch e <=? t | None => false end) then c
  else match c.1 with
       | Some x => if pe_epoch e <? pe_epoch x then c else (Some e, c.2)
       | None => (Some e, c.2)
       end.

Definition cell_evict (c : cell) (epoch : Z) : cell :=
  (match c.1 with Some e => if pe_epoch e <=? epoch then None else c.1 | None => None end,
   if default 0 c.2 <=? epoch then Some epoch else c.2).

(** What joining a cell does. *)
Definition cell_join (c d : cell) : cell :=
  let c := match d.1 with Some e => cell_add c e | None => c end in
  match d.2 with Some t => cell_evict c t | None => c end.

Lemma prefix_add_cell s e fp :
  cell_at (prefix_add s e) fp = if decide (fp = pe_fingerprint e) then cell_add (cell_at s fp) e else cell_at s fp.
Proof.
  unfold prefix_add, cell_at, cell_add. cbv zeta. destruct (decide (fp = pe_fingerprint e)) as [->|Hne]; cbn [fst snd].
  - repeat case_match; cbn; rewrite ?lookup_insert_eq; congruence.
  - repeat case_match; cbn; by rewrite ?lookup_insert_ne by done.
Qed.

Lemma prefix_evict_cell s k t fp :
  cell_at (prefix_evict s k t) fp = if decide (fp = k) then cell_evict (cell_at s fp) t else cell_at s fp.
Proof.
  unfold prefix_evict, cell_at, cell_evict. cbv zeta. cbn [ps_entries ps_tombstones fst snd].
  destruct (decide (fp = k)) as [->|Hne].
  - f_equal.
    + destruct (ps_entries s !! k) as [e|] eqn:He; [|by rewrite He]. case_match; [by rewrite lookup_delete_eq|by rewrite He].
    + case_match; [by rewrite lookup_insert_eq|done].
  - f_equal.
    + destruct (ps_entries s !! k); [case_match; [by rewrite lookup_delete_ne|done]|done].
    + case_match; [by rewrite lookup_insert_ne|done].
Qed.

Lemma cells_eq s1 s2 : (forall fp, cell_at s1 fp = cell_at s2 fp) -> s1 = s2.
Proof.
  intros H. destruct s1 as [e1 t1], s2 as [e2 t2]. f_equal; apply map_eq; intros fp; by injection (H fp).
Qed.

Lemma btree_iter_elem {V} (m : gmap Z V) fp v : (fp, v) ∈ btree_iter m <-> m !! fp = Some v.
Proof. unfold btree_iter. by rewrite merge_sort_Permutation, elem_of_map_to_list. Qed.

Lemma btree_iter_NoDup {V} (m : gmap Z V) : NoDup (btree_iter m).*1.
Proof. unfold btree_iter. rewrite merge_sort_Permutation. apply NoDup_fst_map_to_list. Qed.

(** A walk over distinct keys, each step changing the cell of its key, changes
    the cell of a key once. *)
Lemma fold_cells {V} (f : PrefixSet -> Z * V -> PrefixSet) (g : cell -> V -> cell) l s fp :
  (forall s k v, (k, v) ∈ l -> cell_at (f s (k, v)) fp = if decide (fp = k) then g (cell_at s fp) v else cell_at s fp) ->
  NoDup l.*1 ->
  cell_at (fold_left f l s) fp
  = match list_to_map (M := gmap Z V) l !! fp with Some v => g (cell_at s fp) v | None => cell_at s fp end.
Proof.
  revert s. induction l as [|[k v] l IH]; intros s Hf Hn; [done|].
  cbn [fmap list_fmap] in Hn. apply list.NoDup_cons in Hn as [Hk Hn]. cbn [fold_left].
  rewrite IH, Hf, list_to_map_cons by (done || (intros; apply Hf; by right) || by left). destruct (decide (fp = k)) as [->|Hne].
  - rewrite lookup_insert_eq, (proj1 (not_elem_of_list_to_map _ _)) by done. done.
  - by rewrite lookup_insert_ne by done.
Qed.

Lemma btree_lookup {V} (m : gmap Z V) : list_to_map (btree_iter m) = m.
Proof.
  apply map_eq. intros fp. destruct (m !! fp) as [v|] eqn:E.
  - apply elem_of_list_to_map_1; [apply btree_iter_NoDup|by apply btree_iter_elem].
  - apply not_elem_of_list_to_map. intros ([k v] & Hk & H)%list_elem_of_fmap. cbn in Hk. subst.
    apply btree_iter_elem in H. congruence.
Qed.

(** ** The states the operations build *)

Section Crdt.
(** The key a fingerprint has at an epoch. *)
Context (ent : Z -> Z -> list Z).

Definition entry_at (fp n : Z) : PrefixEntry := mk_entry fp (ent fp n) n.

Definition cell_ok (fp : Z) (c : cell) : Prop :=
  match c.1 with
  | Some e => e = entry_at fp (pe_epoch e) /\ 0 <= pe_epoch e
              /\ match c.2 with Some t => t < pe_epoch e | None => True end
  | None => True
  end /\ match c.2 with Some t => 0 <= t | None => True end.

Definition prefixes_ok (s : PrefixSet) : Prop := forall fp, cell_ok fp (cell_at s fp).

Lemma prefix_join_cell s other fp :
  prefixes_ok other -> cell_at (prefix_join s other) fp = cell_join (cell_at s fp) (cell_at other fp).
Proof.
  intros Ho. unfold prefix_join. cbv zeta.
  rewrite (fold_cells _ (fun c t => cell_evict c t)); [| |apply btree_iter_NoDup].
  2:{ intros s' k t _. apply prefix_evict_cell. }
  rewrite (fold_cells _ (fun c e => cell_add c e)); [| |apply btree_iter_NoDup].
  2:{ intros s' k e He%btree_iter_elem. rewrite prefix_add_cell. specialize (Ho k). unfold cell_ok, cell_at in Ho.
      cbn [fst snd] in Ho. rewrite He in Ho. destruct Ho as [[Hk _] _]. rewrite Hk. done. }
  by rewrite !btree_lookup.
Qed.

(** Case analysis on cells: an entry is determined by its epoch. *)
Ltac cells :=
  repeat match goal with
    | c : cell |- _ => destruct c as [[?|] [?|]]
    end;
  unfold cell_ok, cell_join, cell_add, cell_evict in *; cbn [fst snd default from_option id] in *;
  repeat match goal with
    | H : _ /\ _ |- _ => destruct H
    end;
  repeat match goal with
    | H : ?e = entry_at _ (pe_epoch ?e) |- _ =>
        let n := fresh "n" in let E := fresh "E" in
        remember (pe_epoch e) as n eqn:E; clear E; subst e
    end;
  unfold entry_at in *; cbn [pe_epoch fst snd default from_option id] in *.
Ltac epochs :=
  repeat (case_test; cbn [pe_epoch fst snd default from_option id] in *);
  try done; try (repeat f_equal; lia).

Lemma cell_join_comm fp c d : cell_ok fp c -> cell_ok fp d -> cell_join c d = cell_join d c.
Proof. intros Hc Hd. cells; epochs. Qed.

Lemma cell_join_idem fp c : cell_ok fp c -> cell_join c c = c.
Proof. intros Hc. cells; epochs. Qed.

Lemma cell_join_assoc fp c d e :
  cell_ok fp c -> cell_ok fp d -> cell_ok fp e -> cell_join (cell_join c d) e = cell_join c (cell_join d e).
Proof. intros Hc Hd He. cells; epochs. Qed.

Lemma cell_add_ok fp c n : cell_ok fp c -> 0 <= n -> cell_ok fp (cell_add c (entry_at fp n)).
Proof. intros Hc Hn. cells; epochs; cbn; split_and?; (done || lia). Qed.

Lemma cell_evict_ok fp c t : cell_ok fp c -> 0 <= t -> cell_ok fp (cell_evict c t).
Proof. intros Hc Ht. cells; epochs; cbn; split_and?; (done || lia). Qed.

Lemma cell_join_ok fp c d : cell_ok fp c -> cell_ok fp d -> cell_ok fp (cell_join c d).
Proof.
  intros Hc [Hd Ht]. unfold cell_join. destruct d as [[x|] [t|]]; cbn [fst snd] in *;
    repeat match goal with H : _ /\ _ |- _ => destruct H end; try apply cell_evict_ok; try done;
    match goal with H : x = _ |- _ => rewrite H; by apply cell_add_ok end.
Qed.

(** What a replica holds: the entries it added, each with the key of its
    fingerprint at that epoch, the epochs it evicted at, and what it heard
    from the others. *)
Inductive replica : PrefixSet -> Prop :=
  | replica_new : replica prefix_new
  | replica_add s fp n : replica s -> 0 <= n -> replica (prefix_add s (entry_at fp n))
  | replica_evict s fp n : replica s -> 0 <= n -> replica (prefix_evict s fp n)
  | replica_join s s' : replica s -> replica s' -> replica (prefix_join s s').

Lemma replica_ok s : replica s -> prefixes_ok s.
Proof.
  induction 1 as [|s fp n _ IH Hn|s fp n _ IH Hn|s s' _ IH _ IH']; intros k.
  - done.
  - rewrite prefix_add_cell. cbn. case_decide; [subst; by apply cell_add_ok|apply IH].
  - rewrite prefix_evict_cell. case_decide; [by apply cell_evict_ok|apply IH].
  - rewrite prefix_join_cell by done. by apply cell_join_ok.
Qed.

(** *** The newest of a list of cells *)

(** [c] holds the newest tombstone of [l], and its newest entry unless that
    tombstone hides it. *)
Definition newest (l : list cell) (c : cell) : Prop :=
  (forall t, c.2 = Some t -> exists d, d ∈ l /\ d.2 = Some t)
  /\ (forall d t, d ∈ l -> d.2 = Some t -> exists T, c.2 = Some T /\ t <= T)
  /\ (forall e, c.1 = Some e -> exists d, d ∈ l /\ d.1 = Some e)
  /\ (forall d e, d ∈ l -> d.1 = Some e ->
        (exists e', c.1 = Some e' /\ pe_epoch e <= pe_epoch e')
        \/ (exists T, c.2 = Some T /\ pe_epoch e <= T)).

Lemma join_tomb fp c d t : cell_ok fp c -> cell_ok fp d -> (cell_join c d).2 = Some t -> c.2 = Some t \/ d.2 = Some t.
Proof. intros Hc Hd. cells; epochs; naive_solver. Qed.

Lemma join_entry fp c d e : cell_ok fp c -> cell_ok fp d -> (cell_join c d).1 = Some e -> c.1 = Some e \/ d.1 = Some e.
Proof. intros Hc Hd. cells; epochs; naive_solver. Qed.

Lemma join_tomb_le fp c d t :
  cell_ok fp c -> cell_ok fp d -> c.2 = Some t -> exists T, (cell_join c d).2 = Some T /\ t <= T.
Proof. intros Hc Hd. cells; epochs; intros [= <-]; eexists; (split; [done|lia]). Qed.

Lemma join_entry_le fp c d e :
  cell_ok fp c -> cell_ok fp d -> c.1 = Some e ->
  (exists e', (cell_join c d).1 = Some e' /\ pe_epoch e <= pe_epoch e')
  \/ (exists T, (cell_join c d).2 = Some T /\ pe_epoch e <= T).
Proof.
  intros Hc Hd. cells; epochs; intros [= <-]; cbn;
    ((left; eexists; split; [done|cbn; lia]) || (right; eexists; split; [done|lia])).
Qed.

Lemma newest_snoc fp l c d :
  cell_ok fp c -> cell_ok fp d -> newest l c -> newest (l ++ [d]) (cell_join c d).
Proof.
  intros Hc Hd (N1 & N2 & N3 & N4). split_and!.
  - intros t [H|H]%(join_tomb fp); [apply N1 in H as (x & ? & ?)| |done|done]; eexists; (split; [|done]); set_solver.
  - intros x t [Hx|Hx%list_elem_of_singleton]%elem_of_app Ht.
    + destruct (N2 x t Hx Ht) as (T & HT & Hle). destruct (join_tomb_le fp c d T Hc Hd HT) as (T' & ? & ?).
      exists T'. split; [done|lia].
    + subst. rewrite (cell_join_comm fp) by done. by apply (join_tomb_le fp).
  - intros e [H|H]%(join_entry fp); [apply N3 in H as (x & ? & ?)| |done|done]; eexists; (split; [|done]); set_solver.
  - intros x e [Hx|Hx%list_elem_of_singleton]%elem_of_app He.
    + destruct (N4 x e Hx He) as [(e' & He' & Hle)|(T & HT & Hle)].
      * destruct (join_entry_le fp c d e' Hc Hd He') as [(y & ? & ?)|(y & ? & ?)]; [left|right]; exists y; (split; [done|lia]).
      * right. destruct (join_tomb_le fp c d T Hc Hd HT) as (y & ? & ?). exists y. split; [done|lia].
    + subst. rewrite (cell_join_comm fp) by done. by apply (join_entry_le fp).
Qed.

(** *** Gossip *)

Definition gossip (l : list PrefixSet) : PrefixSet := fold_left prefix_join l prefix_new.

Lemma gossip_spec l :
  Forall replica l ->
  replica (gossip l) /\ forall fp, newest ((fun s => cell_at s fp) <$> l) (cell_at (gossip l) fp).
Proof.
  unfold gossip. induction l as [|s l IH] using rev_ind; intros Hl.
  - split; [apply replica_new|]. intros fp. split_and!; cbn; intros; try done; set_solver.
  - apply Forall_app in Hl as [Hl Hs]. rewrite Forall_singleton in Hs. destruct (IH Hl) as [Hr Hn].
    rewrite fold_left_app. cbn [fold_left]. split; [by apply replica_join|]. intros fp.
    rewrite prefix_join_cell, fmap_app by by apply replica_ok.
    apply (newest_snoc fp); [by apply replica_ok|by apply replica_ok|apply Hn].
Qed.

Lemma live_newest l fp :
  Forall replica l ->
  prefix_contains (gossip l) fp = true
  <-> exists s e, s ∈ l /\ ps_entries s !! fp = Some e
        /\ forall s' t, s' ∈ l -> ps_tombstones s' !! fp = Some t -> t < pe_epoch e.
Proof.
  intros Hl. destruct (gossip_spec l Hl) as [Hr Hn]. apply replica_ok in Hr.
  destruct (Hn fp) as (N1 & N2 & N3 & N4). specialize (Hr fp). unfold prefix_contains, hidden.
  unfold cell_ok, cell_at in *. cbn [fst snd] in *. split.
  - destruct (ps_entries (gossip l) !! fp) as [e|]; [|done]. intros _.
    destruct (N3 e eq_refl) as (d & (s & -> & Hs)%list_elem_of_fmap & He). exists s, e. split_and!; [done..|].
    intros s' t Hs' Ht. destruct (N2 (cell_at s' fp) t) as (T & HT & Hle); [by apply (list_elem_of_fmap_2 (fun s => cell_at s fp))|done|].
    destruct Hr as [(_ & _ & Hlt) _]. rewrite HT in Hlt. lia.
  - intros (s & e & Hs & He & Hmax).
    destruct (N4 (cell_at s fp) e) as [(e' & He' & Hle)|(T & HT & Hle)]; [by apply (list_elem_of_fmap_2 (fun s => cell_at s fp))|done|..].
    + rewrite He' in *. destruct Hr as [(_ & _ & Hlt) _]. destruct (ps_tombstones _ !! _) as [T|]; [|done].
      apply negb_true_iff, Z.leb_gt. lia.
    + destruct (N1 T HT) as (d & (s' & -> & Hs')%list_elem_of_fmap & Ht). cbn in Ht.
      specialize (Hmax s' T Hs' Ht). lia.
Qed.

(** The newest of equal sets of cells are equal. *)
Lemma newest_unique fp l1 l2 c1 c2 :
  (forall d, d ∈ l1 <-> d ∈ l2) -> cell_ok fp c1 -> cell_ok fp c2 -> newest l1 c1 -> newest l2 c2 -> c1 = c2.
Proof.
  intros Hl H1 H2 (A1 & A2 & A3 & A4) (B1 & B2 & B3 & B4).
  assert (c1.2 = c2.2) as HT.
  { destruct (c1.2) as [t1|] eqn:E1, (c2.2) as [t2|] eqn:E2; [..|done].
    - destruct (A1 t1 eq_refl) as (x & Hx & Ex). apply Hl in Hx. destruct (B2 x t1 Hx Ex) as (T & [= <-] & ?).
      destruct (B1 t2 eq_refl) as (y & Hy & Ey). apply Hl in Hy. destruct (A2 y t2 Hy Ey) as (T & [= <-] & ?).
      f_equal. lia.
    - destruct (A1 t1 eq_refl) as (x & Hx & Ex). apply Hl in Hx. by destruct (B2 x t1 Hx Ex) as (T & ? & ?).
    - destruct (B1 t2 eq_refl) as (x & Hx & Ex). apply Hl in Hx. by destruct (A2 x t2 Hx Ex) as (T & ? & ?). }
  assert (forall (l l' : list cell) (c c' : cell), cell_ok fp c -> c.2 = c'.2 -> (forall d, d ∈ l -> d ∈ l') ->
    (forall e, c.1 = Some e -> exists d, d ∈ l /\ d.1 = Some e) ->
    (forall d e, d ∈ l' -> d.1 = Some e ->
        (exists e', c'.1 = Some e' /\ pe_epoch e <= pe_epoch e') \/ (exists T, c'.2 = Some T /\ pe_epoch e <= T)) ->
    forall e, c.1 = Some e -> exists e', c'.1 = Some e' /\ pe_epoch e <= pe_epoch e') as Hone.
  { intros l l' c c' [Hc _] Ht Hsub C3 C4 e He. destruct (C3 e He) as (d & Hd & Hde).
    destruct (C4 d e (Hsub d Hd) Hde) as [H|(T & HT' & Hle)]; [done|]. exfalso.
    rewrite He in Hc. destruct Hc as (_ & _ & Hlt). rewrite <- Ht in HT'. rewrite HT' in Hlt. lia. }
  pose proof (Hone l1 l2 c1 c2 H1 HT (fun d => proj1 (Hl d)) A3 B4) as P1.
  pose proof (Hone l2 l1 c2 c1 H2 (eq_sym HT) (fun d => proj2 (Hl d)) B3 A4) as P2.
  destruct c1 as [o1 t1], c2 as [o2 t2]. cbn in *. subst t2. f_equal.
  destruct H1 as [H1 _], H2 as [H2 _]. cbn in H1, H2. destruct o1 as [e1|], o2 as [e2|]; [..|done].
  - destruct (P1 e1 eq_refl) as (? & [= <-] & ?), (P2 e2 eq_refl) as (? & [= <-] & ?).
    destruct H1 as [E1 _], H2 as [E2 _]. rewrite E1, E2. do 2 f_equal. lia.
  - by destruct (P1 e1 eq_refl) as (? & ? & _).
  - by destruct (P2 e2 eq_refl) as (? & ? & _).
Qed.
End Crdt.

(** C40: Gossip converges.  Of replicas built by adds, evictions and joins, in
    which an epoch of a fingerprint determines the entry, any two orders of
    hearing the same states (repetitions included) end in the same set, and
    the join is commutative, associative and idempotent.  A fingerprint is
    live at the end exactly when some replica has an entry for it that is
    newer than the tombstones of all. *)
Theorem gossip_converges (ent : Z -> Z -> list Z) (l1 l2 : list PrefixSet) (a b c : PrefixSet) fp :
  Forall (replica ent) l1 -> (forall s, s ∈ l1 <-> s ∈ l2) ->
  replica ent a -> replica ent b -> replica ent c ->
  gossip l1 = gossip l2
  /\ join a b = join b a /\ join (join a b) c = join a (join b c) /\ join a a = a
  /\ (prefix_contains (gossip l1) fp = true
      <-> exists s e, s ∈ l1 /\ ps_entries s !! fp = Some e
          /\ forall s' t, s' ∈ l1 -> ps_tombstones s' !! fp = Some t -> t < pe_epoch e).
Proof.
  intros Hl1 Heq Ha Hb Hc.
  assert (Forall (replica ent) l2) as Hl2.
  { rewrite list.Forall_forall in *. intros s Hs. by apply Hl1, Heq. }
  destruct (gossip_spec ent l1 Hl1) as [Hr1 Hn1], (gossip_spec ent l2 Hl2) as [Hr2 Hn2].
  pose proof (replica_ok ent) as Hok. cbn [join PrefixSet_Semilattice]. split_and!.
  - apply cells_eq. intros k. eapply (newest_unique ent k); [|by apply Hok|by apply Hok|apply Hn1|apply Hn2].
    intros d. rewrite !list_elem_of_fmap. by setoid_rewrite Heq.
  - apply cells_eq. intros k. rewrite !(prefix_join_cell ent) by auto. apply (cell_join_comm ent k); by apply Hok.
  - apply cells_eq. intros k. rewrite !(prefix_join_cell ent) by auto using replica_join.
    apply (cell_join_assoc ent k); by apply Hok.
  - apply cells_eq. intros k. rewrite (prefix_join_cell ent) by auto. apply (cell_join_idem ent k); by apply Hok.
  - apply (live_newest ent l1 fp); auto.
Qed.

Lemma gossip_converges_witness :
  let ent := fun fp n => [fp; n] in
  let a := prefix_add prefix_new (entry_at ent 1 4) in
  let b := prefix_evict prefix_new 1 3 in
  gossip [a; b] = gossip [b; a; b] /\ prefix_contains (gossip [b; a; b]) 1 = true.
Proof.
  intros ent a b.
  assert (replica ent a) as Ha by (apply replica_add; [apply replica_new|lia]).
  assert (replica ent b) as Hb by (apply replica_evict; [apply replica_new|lia]).
  assert (forall s, s ∈ [a; b] <-> s ∈ [b; a; b]) as Hs by set_solver.
  destruct (gossip_converges ent [a; b] [b; a; b] a b a 1) as (E & _); auto.
Defined.

(** Without that hypothesis the join is not commutative: [add] replaces an
    entry of the same epoch, so two replicas that added different keys under
    one epoch exchange them on a join, and never agree. *)
Theorem equal_epochs_diverge :
  let a := prefix_add prefix_new (from_context_key 7 [1] 3) in
  let b := prefix_add prefix_new (from_context_key 7 [2] 3) in
  join a b = b /\ join b a = a /\ a <> b.
Proof. intros a b. split_and!; [reflexivity|reflexivity|]. intros H. discriminate H. Qed.
