(* ===== verification/AlgRewrite.v ===== *)
(** String rewriting (src/crates/rc-algebra/src/rewriting.rs): leftmost
    reduction, critical pairs and the confluence check. *)

From stdpp Require Import relations.
From S2P Require Import Prelude.

Record RewriteRule := mk_rule { r_lhs : list Z; r_rhs : list Z }.

(** [Rule::new] asserts a non-empty left side. *)
Definition rule_new (lhs rhs : list Z) : option RewriteRule :=
  match lhs with [] => None | _ => Some (mk_rule lhs rhs) end.

Record CriticalPair := mk_pair { cp_term : list Z; cp_reduction_a : list Z; cp_reduction_b : list Z }.
Record ConfluenceReport := mk_report { cr_confluent : bool; cr_failures : list CriticalPair }.

(** The term with the left side at [pos] replaced. *)
Definition apply_at (term : list Z) (pos : nat) (rule : RewriteRule) : list Z :=
  take pos term ++ r_rhs rule ++ drop (pos + length (r_lhs rule)) term.

(** The rule's left side is at [pos]. *)
Definition matches_at (term : list Z) (pos : nat) (rule : RewriteRule) : Prop :=
  (length (r_lhs rule) <= length term - pos)%nat /\ take (length (r_lhs rule)) (drop pos term) = r_lhs rule.
#[export] Instance matches_at_dec term pos rule : Decision (matches_at term pos rule).
Proof. unfold matches_at. solve_decision. Defined.

Section System.
Context (rules : list RewriteRule).

Fixpoint first_redex_from (term : list Z) (positions : list nat) : option (nat * nat) :=
  match positions with
  | [] => None
  | pos :: rest =>
      match list_find (matches_at term pos) rules with
      | Some (idx, _) => Some (pos, idx)
      | None => first_redex_from term rest
      end
  end.
Definition first_redex (term : list Z) : option (nat * nat) := first_redex_from term (seq 0 (length term)).

Fixpoint normalize_bounded (max_steps : nat) (term : list Z) : list Z :=
  match max_steps with
  | O => term
  | S steps =>
      match first_redex term with
      | Some (pos, rule_idx) =>
          match rules !! rule_idx with
          | Some rule => normalize_bounded steps (apply_at term pos rule)
          | None => term
          end
      | None => term
      end
  end.
Definition normalize (input : list Z) : list Z := normalize_bounded (Z.to_nat 100000) input.

(** The overlap of [k] symbols, when the normal forms of its reductions differ. *)
Definition overlap (a b : RewriteRule) (k : nat) : option CriticalPair :=
  let la := length (r_lhs a) in
  if bool_decide (drop (la - k) (r_lhs a) = take k (r_lhs b)) then
    let term := r_lhs a ++ drop k (r_lhs b) in
    let nf_a := normalize (apply_at term 0 a) in
    let nf_b := normalize (apply_at term (la - k) b) in
    if bool_decide (nf_a = nf_b) then None else Some (mk_pair term nf_a nf_b)
  else None.

Definition overlaps (a b : RewriteRule) : list CriticalPair :=
  let max_k := (length (r_lhs a) `min` length (r_lhs b) - 1)%nat in
  omap (overlap a b) (seq 1 max_k).

Definition critical_pairs : list CriticalPair := a ← rules; b ← rules; overlaps a b.

Definition is_confluent : ConfluenceReport :=
  let failures := base.filter (fun cp => cp_reduction_a cp <> cp_reduction_b cp) critical_pairs in
  mk_report (match failures with [] => true | _ => false end) failures.

Definition all_rules_length_decreasing : bool :=
  forallb (fun r => length (r_rhs r) <? length (r_lhs r))%nat rules.

(** ** Reduction *)

Definition rstep (t u : list Z) : Prop :=
  exists rule a b, rule ∈ rules /\ t = a ++ r_lhs rule ++ b /\ u = a ++ r_rhs rule ++ b.
Definition irreducible (t : list Z) : Prop := forall u, ~ rstep t u.


Lemma apply_at_app a b rule : apply_at (a ++ r_lhs rule ++ b) (length a) rule = a ++ r_rhs rule ++ b.
Proof.
  unfold apply_at. rewrite take_app_length, <- drop_drop, drop_app_length. by rewrite drop_app_length.
Qed.

Lemma matches_at_app a b rule : matches_at (a ++ r_lhs rule ++ b) (length a) rule.
Proof.
  unfold matches_at. rewrite drop_app_length, take_app_length, !length_app. split; [lia|done].
Qed.

Lemma matches_at_split term pos rule :
  (pos < length term)%nat -> matches_at term pos rule ->
  term = take pos term ++ r_lhs rule ++ drop (pos + length (r_lhs rule)) term.
Proof.
  intros Hp [_ Hm]. rewrite <- Hm at 1. rewrite <- drop_drop, take_drop. by rewrite take_drop.
Qed.

Lemma first_redex_from_Some term ps pos idx :
  first_redex_from term ps = Some (pos, idx) ->
  pos ∈ ps /\ exists rule, rules !! idx = Some rule /\ matches_at term pos rule.
Proof.
  induction ps as [|p ps IH]; cbn; [done|]. destruct (list_find _ _) as [[i r]|] eqn:E.
  - intros [= <- <-]. apply list_find_Some in E as (Hi & Hm & _). split; [by left|eauto].
  - intros H. apply IH in H as [? ?]. split; [by right|done].
Qed.

Lemma first_redex_from_None term ps pos rule :
  first_redex_from term ps = None -> pos ∈ ps -> rule ∈ rules -> ~ matches_at term pos rule.
Proof.
  induction ps as [|p ps IH]; cbn; [by intros _ ?%elem_of_nil|]. destruct (list_find _ _) as [[i r]|] eqn:E; [done|].
  intros H Hp Hr. apply list_find_None in E. rewrite list.Forall_forall in E.
  apply elem_of_cons in Hp as [->|Hp]; auto.
Qed.

Lemma first_redex_step term pos idx :
  first_redex term = Some (pos, idx) ->
  exists rule, rules !! idx = Some rule /\ rstep term (apply_at term pos rule).
Proof.
  intros [Hp (rule & Hi & Hm)]%first_redex_from_Some. apply elem_of_seq in Hp. exists rule. split; [done|].
  exists rule, (take pos term), (drop (pos + length (r_lhs rule)) term).
  split_and!; [by eapply list_elem_of_lookup_2|apply matches_at_split; [lia|done]|done].
Qed.

Context (Hne : Forall (fun r => r_lhs r <> []) rules).

Lemma first_redex_none term : first_redex term = None -> irreducible term.
Proof using Hne.
  intros H u (rule & a & b & Hr & -> & _). pose proof Hr as Hnil. rewrite list.Forall_forall in Hne.
  apply Hne in Hnil. apply (first_redex_from_None _ _ (length a) rule H); [|done|apply matches_at_app].
  apply elem_of_seq. rewrite !length_app. destruct (r_lhs rule); [done|cbn; lia].
Qed.

Lemma normalize_rtc n term : rtc rstep term (normalize_bounded n term).
Proof using Type.
  revert term. induction n as [|n IH]; intros term; [done|]. cbn.
  destruct (first_redex term) as [[pos idx]|] eqn:E; [|done].
  apply first_redex_step in E as (rule & -> & Hs). by eapply rtc_l.
Qed.

Context (Hdec : all_rules_length_decreasing = true).

Lemma rstep_length t u : rstep t u -> (length u < length t)%nat.
Proof using Hdec.
  intros (rule & a & b & Hr & -> & ->). unfold all_rules_length_decreasing in Hdec.
  rewrite forallb_forall in Hdec. apply list_elem_of_In, Hdec, Nat.ltb_lt in Hr. rewrite !length_app. lia.
Qed.

Lemma normalize_irreducible n term : (length term <= n)%nat -> irreducible (normalize_bounded n term).
Proof using Hne Hdec.
  revert term. induction n as [|n IH]; intros term Hl; cbn.
  - intros u Hs%rstep_length. lia.
  - destruct (first_redex term) as [[pos idx]|] eqn:E; [|by apply first_redex_none].
    apply first_redex_step in E as (rule & -> & Hs). apply rstep_length in Hs. apply IH. lia.
Qed.

(** ** Confluence *)

Lemma rstep_context a b t u : rtc rstep t u -> rtc rstep (a ++ t ++ b) (a ++ u ++ b).
Proof using Type.
  induction 1 as [|t t' u (rule & c & d & Hr & -> & ->) _ IH]; [done|].
  eapply rtc_l; [|exact IH]. exists rule, (a ++ c), (d ++ b). by rewrite <- !app_assoc.
Qed.

Lemma rstep_once rule a b : rule ∈ rules -> rtc rstep (a ++ r_lhs rule ++ b) (a ++ r_rhs rule ++ b).
Proof using Type. intros Hr. apply rtc_once. by exists rule, a, b. Qed.

Definition joinable (u v : list Z) : Prop := exists w, rtc rstep u w /\ rtc rstep v w.

Lemma joinable_sym u v : joinable u v -> joinable v u.
Proof using Type. intros (w & ? & ?). by exists w. Qed.

(** No left side occurs inside that of another rule. *)
Definition no_factor : Prop :=
  forall r1 r2 c f, r1 ∈ rules -> r2 ∈ rules -> r_lhs r1 = c ++ r_lhs r2 ++ f -> r1 = r2.

Lemma overlap_in_pairs a b k cp :
  a ∈ rules -> b ∈ rules -> (1 <= k < length (r_lhs a) `min` length (r_lhs b))%nat ->
  overlap a b k = Some cp -> cp ∈ critical_pairs.
Proof using Type.
  intros Ha Hb Hk Ho. unfold critical_pairs. apply list_elem_of_bind. exists a. split; [|done].
  apply list_elem_of_bind. exists b. split; [|done]. unfold overlaps. apply list_elem_of_omap.
  exists k. split; [|done]. apply elem_of_seq. lia.
Qed.

Lemma pairs_overlap cp :
  cp ∈ critical_pairs ->
  exists a b k, a ∈ rules /\ b ∈ rules /\ (1 <= k < length (r_lhs a) `min` length (r_lhs b))%nat
    /\ overlap a b k = Some cp.
Proof using Type.
  unfold critical_pairs. intros (a & (b & Ho & Hb)%list_elem_of_bind & Ha)%list_elem_of_bind.
  unfold overlaps in Ho. apply list_elem_of_omap in Ho as (k & Hk%elem_of_seq & Ho). exists a, b, k.
  split_and!; (done || lia).
Qed.

Lemma overlap_Some a b k cp :
  overlap a b k = Some cp -> cp_reduction_a cp <> cp_reduction_b cp.
Proof using Type. unfold overlap. case_bool_decide; [|done]. case_bool_decide as Hn; [done|]. by intros [= <-]. Qed.

(** The report is positive exactly when no overlap gives a pair. *)
Lemma confluent_no_pairs : cr_confluent is_confluent = true <-> forall cp, cp ∉ critical_pairs.
Proof using Type.
  unfold is_confluent. cbn [cr_confluent].
  destruct (base.filter _ critical_pairs) as [|cp l] eqn:E; split; try done.
  - intros _ cp Hcp. assert (cp ∈ base.filter (fun cp => cp_reduction_a cp <> cp_reduction_b cp) critical_pairs) as Hin.
    { apply list_elem_of_filter. split; [|done]. apply pairs_overlap in Hcp as (a & b & k & _ & _ & _ & Ho).
      by apply overlap_Some in Ho. }
    rewrite E in Hin. by apply elem_of_nil in Hin.
  - intros H. exfalso. apply (H cp). assert (cp ∈ cp :: l) as Hin by by left. rewrite <- E in Hin.
    by apply list_elem_of_filter in Hin as [_ ?].
Qed.

(** The overlap [c ++ e ++ f] of left sides [c ++ e] and [e ++ f]. *)
Lemma overlap_joins r1 r2 c e f :
  (forall cp, cp ∉ critical_pairs) -> r1 ∈ rules -> r2 ∈ rules ->
  r_lhs r1 = c ++ e -> r_lhs r2 = e ++ f -> c <> [] -> e <> [] -> f <> [] ->
  joinable (r_rhs r1 ++ f) (c ++ r_rhs r2).
Proof using Type.
  intros Hcp H1 H2 E1 E2 Hc He Hf. destruct (overlap r1 r2 (length e)) as [cp|] eqn:Ho.
  - exfalso. apply (Hcp cp). apply overlap_in_pairs in Ho; try done.
    rewrite E1, E2, !length_app. destruct c, e, f; cbn; try done; lia.
  - unfold overlap in Ho. rewrite E1, length_app in Ho. replace (length c + length e - length e)%nat with (length c) in Ho by lia.
    rewrite drop_app_length, E2, take_app_length, drop_app_length, bool_decide_true in Ho by done.
    case_bool_decide as Hn; [|done].
    replace (apply_at ((c ++ e) ++ f) 0 r1) with (r_rhs r1 ++ f) in Hn.
    2:{ rewrite <- E1. symmetry. apply (apply_at_app [] f r1). }
    replace (apply_at ((c ++ e) ++ f) (length c) r2) with (c ++ r_rhs r2) in Hn.
    2:{ rewrite <- app_assoc, <- E2, <- (app_nil_r (r_lhs r2)), apply_at_app. by rewrite app_nil_r. }
    exists (normalize (r_rhs r1 ++ f)). split; [apply normalize_rtc|]. rewrite Hn. apply normalize_rtc.
Qed.

Context (Hnf : no_factor) (Hcp : forall cp, cp ∉ critical_pairs).

Lemma joinable_refl u : joinable u u.
Proof using Type. by exists u. Qed.

Lemma joinable_context a b u v : joinable u v -> joinable (a ++ u ++ b) (a ++ v ++ b).
Proof using Type. intros (w & Hu & Hv). exists (a ++ w ++ b). split; by apply rstep_context. Qed.

(** Redexes apart from each other. *)
Lemma apart_joins r1 r2 k b :
  r1 ∈ rules -> r2 ∈ rules -> joinable (r_rhs r1 ++ k ++ r_lhs r2 ++ b) ((r_lhs r1 ++ k) ++ r_rhs r2 ++ b).
Proof using Type.
  intros H1 H2. exists (r_rhs r1 ++ k ++ r_rhs r2 ++ b). split.
  - rewrite !(app_assoc _ k). by apply rstep_once.
  - rewrite <- app_assoc. by apply (rstep_once r1 [] _ H1).
Qed.

(** A left side that contains another is that one. *)
Lemma inside_same r1 r2 c f :
  r1 ∈ rules -> r2 ∈ rules -> r_lhs r1 = c ++ r_lhs r2 ++ f -> r1 = r2 /\ c = [] /\ f = [].
Proof using Hnf.
  intros H1 H2 E. pose proof (Hnf _ _ _ _ H1 H2 E) as ->. split; [done|].
  apply (f_equal length) in E. rewrite !length_app in E. destruct c, f; cbn in *; try done; lia.
Qed.

(** Two redexes, the first starting no later than the second. *)
Lemma redexes_join r1 r2 c b1 b2 :
  r1 ∈ rules -> r2 ∈ rules -> r_lhs r1 ++ b1 = c ++ r_lhs r2 ++ b2 ->
  joinable (r_rhs r1 ++ b1) (c ++ r_rhs r2 ++ b2).
Proof using Hnf Hcp.
  intros H1 H2 [(e & E1 & E)|(k & -> & ->)]%app_eq_inv; [|by apply apart_joins].
  symmetry in E. apply app_eq_inv in E as [(g & -> & ->)|(f & E2 & ->)].
  - destruct (inside_same _ _ _ _ H1 H2 E1) as (-> & -> & ->). apply joinable_refl.
  - destruct (decide (e = [])) as [->|He].
    { rewrite app_nil_r in E1. cbn in E2. subst c f. pose proof (apart_joins r1 r2 [] b2 H1 H2) as Ha.
      by rewrite app_nil_r in Ha. }
    destruct (decide (c = [])) as [->|Hc].
    { cbn in E1. assert (r_lhs r2 = [] ++ r_lhs r1 ++ f) as E3 by by rewrite E1.
      destruct (inside_same _ _ _ _ H2 H1 E3) as (-> & _ & ->). apply joinable_refl. }
    destruct (decide (f = [])) as [->|Hf].
    { assert (r_lhs r1 = c ++ r_lhs r2 ++ []) as E3 by by rewrite E2, !app_nil_r.
      by destruct (inside_same _ _ _ _ H1 H2 E3) as (_ & -> & _). }
    pose proof (overlap_joins r1 r2 c e f Hcp H1 H2 E1 E2 Hc He Hf) as Hj.
    apply (joinable_context [] b2) in Hj. cbn in Hj. by rewrite <- !app_assoc in Hj.
Qed.

Lemma local_confluence t u v : rstep t u -> rstep t v -> joinable u v.
Proof using Hnf Hcp.
  assert (forall r1 a1 b1 r2 a2 b2, r1 ∈ rules -> r2 ∈ rules -> a1 ++ r_lhs r1 ++ b1 = a2 ++ r_lhs r2 ++ b2 ->
    (length a1 <= length a2)%nat -> joinable (a1 ++ r_rhs r1 ++ b1) (a2 ++ r_rhs r2 ++ b2)) as Hle.
  { intros r1 a1 b1 r2 a2 b2 H1 H2 E Hl. assert (exists c, a2 = a1 ++ c) as [c ->].
    { exists (drop (length a1) a2). pose proof (f_equal (take (length a1)) E) as Ht.
      rewrite take_app_length, take_app_le in Ht by done. rewrite Ht at 1. by rewrite take_drop. }
    rewrite <- !app_assoc in *. apply app_inv_head in E.
    pose proof (joinable_context a1 [] _ _ (redexes_join _ _ _ _ _ H1 H2 E)) as Hj. by rewrite !app_nil_r in Hj. }
  intros (r1 & a1 & b1 & H1 & -> & ->) (r2 & a2 & b2 & H2 & E & ->).
  destruct (decide (length a1 <= length a2)%nat); [by apply Hle|]. apply joinable_sym, Hle; (done || lia).
Qed.

(** Newman's lemma, by induction on the length. *)
Lemma unique_normal_form t : forall u v,
  rtc rstep t u -> rtc rstep t v -> irreducible u -> irreducible v -> u = v.
Proof using Hne Hdec Hnf Hcp.
  induction t as [t IH] using (induction_ltof1 _ (@length Z)). unfold ltof in IH. intros u v Hu Hv Iu Iv.
  destruct Hu as [t|t t1 u Hs1 Hu]; [destruct Hv as [|t t2 v Hs2]; [done|by destruct (Iu t2)]|].
  destruct Hv as [t|t t2 v Hs2 Hv]; [by destruct (Iv t1)|].
  destruct (local_confluence t t1 t2 Hs1 Hs2) as (w & Hw1 & Hw2).
  pose proof (normalize_rtc (length w) w) as Hn. pose proof (normalize_irreducible (length w) w ltac:(lia)) as In.
  transitivity (normalize_bounded (length w) w).
  - apply (IH t1); [by apply rstep_length|done|by etrans|done|done].
  - symmetry. apply (IH t2); [by apply rstep_length|done|by etrans|done|done].
Qed.
End System.

(** *** The check *)

Section Check.
Context (rules : list RewriteRule).
Context (Hne : Forall (fun r => r_lhs r <> []) rules) (Hdec : all_rules_length_decreasing rules = true).

Lemma normalize_nf t :
  (length t <= Z.to_nat 100000)%nat -> rtc (rstep rules) t (normalize rules t) /\ irreducible rules (normalize rules t).
Proof using Hne Hdec. intros H. split; [apply normalize_rtc|by apply normalize_irreducible]. Qed.

(** The reductions of a critical pair are reductions of one term. *)
Lemma overlap_reductions a b k cp :
  a ∈ rules -> b ∈ rules -> (1 <= k < length (r_lhs a) `min` length (r_lhs b))%nat ->
  overlap rules a b k = Some cp ->
  exists u v, rstep rules (cp_term cp) u /\ rstep rules (cp_term cp) v
    /\ cp_reduction_a cp = normalize rules u /\ cp_reduction_b cp = normalize rules v
    /\ (length (cp_term cp) <= length (r_lhs a) + length (r_lhs b))%nat.
Proof using Type.
  intros Ha Hb Hk. unfold overlap. case_bool_decide as Ho; [|done]. case_bool_decide; [done|]. intros [= <-].
  cbn [cp_term cp_reduction_a cp_reduction_b]. set (c := take (length (r_lhs a) - k) (r_lhs a)).
  exists (apply_at (r_lhs a ++ drop k (r_lhs b)) 0 a), (apply_at (r_lhs a ++ drop k (r_lhs b)) (length (r_lhs a) - k) b).
  split_and!; [| |done|done|rewrite length_app, length_drop; lia].
  - exists a, [], (drop k (r_lhs b)). split_and!; [done|done|by apply (apply_at_app [])].
  - assert (r_lhs a ++ drop k (r_lhs b) = c ++ r_lhs b ++ []) as E.
    { unfold c. rewrite app_nil_r, <- (take_drop (length (r_lhs a) - k) (r_lhs a)) at 1.
      rewrite Ho, <- app_assoc. by rewrite take_drop. }
    assert (length (r_lhs a) - k = length c)%nat as Hlc by (unfold c; rewrite length_take; lia).
    exists b, c, []. split_and!; [done|done|]. by rewrite E, Hlc, apply_at_app.
Qed.
End Check.

(** The shipped rules. *)
Definition demo_rules : list RewriteRule :=
  let WS := 0 in let LP := 1 in let RP := 2 in let SEP := 3 in
  [mk_rule [WS; WS] [WS]; mk_rule [LP; RP] []; mk_rule [SEP; WS] [WS]; mk_rule [WS; RP] [RP]; mk_rule [SEP; RP] [RP]].

(** The confluence check is right for the rule sets it is meant for: when
    every rule shortens and no left side occurs in another rule's, the
    report is positive exactly when every way of rewriting a term (of up to
    100,000 symbols) that ends, ends in [normalize] of it. *)
Theorem confluence_check rules :
  Forall (fun r => r_lhs r <> [] /\ length_z (r_lhs r) <= 50000) rules ->
  all_rules_length_decreasing rules = true -> no_factor rules ->
  cr_confluent (is_confluent rules) = true
  <-> (forall t u, length_z t <= 100000 -> rtc (rstep rules) t u -> irreducible rules u -> u = normalize rules t).
Proof.
  intros Hr Hdec Hnf. assert (Forall (fun r => r_lhs r <> []) rules) as Hne.
  { eapply list.Forall_impl; [exact Hr|]. by intros r [? _]. }
  rewrite confluent_no_pairs. unfold length_z. split.
  - intros Hcp t u Hl Hu Iu. destruct (normalize_nf rules Hne Hdec t) as [Hn In]; [lia|].
    by apply (unique_normal_form rules Hne Hdec Hnf Hcp t).
  - intros Huniq cp Hcp. apply pairs_overlap in Hcp as (a & b & k & Ha & Hb & Hk & Ho).
    pose proof (overlap_Some _ _ _ _ _ Ho) as Hd.
    destruct (overlap_reductions rules a b k cp Ha Hb Hk Ho) as (u & v & Hu & Hv & Eu & Ev & Hl).
    rewrite list.Forall_forall in Hr. pose proof (Hr a Ha) as [_ La]. pose proof (Hr b Hb) as [_ Lb].
    unfold length_z in La, Lb. apply Hd. rewrite Eu, Ev. transitivity (normalize rules (cp_term cp)).
    + pose proof (rstep_length rules Hdec _ _ Hu). destruct (normalize_nf rules Hne Hdec u) as [Hn In]; [lia|].
      apply Huniq; [lia|exact (rtc_l _ _ _ _ Hu Hn)|done].
    + pose proof (rstep_length rules Hdec _ _ Hv). destruct (normalize_nf rules Hne Hdec v) as [Hn In]; [lia|].
      symmetry. apply Huniq; [lia|exact (rtc_l _ _ _ _ Hv Hn)|done].
Qed.

Lemma demo_rules_elem r : r ∈ demo_rules -> length (r_lhs r) = 2%nat /\ forall r', r' ∈ demo_rules -> r_lhs r = r_lhs r' -> r = r'.
Proof.
  unfold demo_rules. cbv zeta. intros H.
  repeat (apply elem_of_cons in H as [->|H]; [split; [done|];
    intros r' H'; repeat (apply elem_of_cons in H' as [->|H']; [intros E; cbn in E; reflexivity || discriminate E|]); by apply elem_of_nil in H'|]).
  by apply elem_of_nil in H.
Qed.

Lemma demo_no_factor : no_factor demo_rules.
Proof.
  intros r1 r2 c f H1 H2 E. destruct (demo_rules_elem r1 H1) as [L1 Hinj], (demo_rules_elem r2 H2) as [L2 _].
  pose proof (f_equal length E) as L. rewrite !length_app in L. destruct c; [|cbn in L; lia].
  destruct f; [|cbn in L; lia]. rewrite app_nil_r in E. by apply Hinj.
Qed.

Lemma demo_nonempty : Forall (fun r => r_lhs r <> []) demo_rules.
Proof. unfold demo_rules. repeat constructor; done. Qed.

Lemma confluence_check_witness : [2] = normalize demo_rules [3; 0; 0; 2].
Proof.
  refine (proj1 (confluence_check demo_rules _ _ _) _ [3; 0; 0; 2] [2] _ _ _).
  - unfold demo_rules. repeat constructor; done.
  - reflexivity.
  - apply demo_no_factor.
  - vm_compute. reflexivity.
  - done.
  - change [2] with (normalize_bounded demo_rules 4 [3; 0; 0; 2]). apply normalize_rtc.
  - apply (first_redex_none demo_rules demo_nonempty). reflexivity.
Defined.

(** Beyond them it is not: an overlap in which one left side lies inside
    the other, or equals it, is not looked at, and the report is positive
    although a term has two normal forms. *)
Theorem nested_overlaps_missed :
  let nested := [mk_rule [1; 2; 3] []; mk_rule [2] []] in
  let equal := [mk_rule [1; 2] []; mk_rule [1; 2] [9]] in
  (cr_confluent (is_confluent nested) = true
   /\ rstep nested [1; 2; 3] [] /\ rstep nested [1; 2; 3] [1; 3]
   /\ first_redex nested [] = None /\ first_redex nested [1; 3] = None)
  /\ (cr_confluent (is_confluent equal) = true
      /\ rstep equal [1; 2] [] /\ rstep equal [1; 2] [9]
      /\ first_redex equal [] = None /\ first_redex equal [9] = None).
Proof.
  intros nested equal. split; split_and!; try reflexivity.
  - exists (mk_rule [1; 2; 3] []), [], []. split_and!; [by left|done|done].
  - exists (mk_rule [2] []), [1], [3]. split_and!; [by right; left|done|done].
  - exists (mk_rule [1; 2] []), [], []. split_and!; [by left|done|done].
  - exists (mk_rule [1; 2] [9]), [], []. split_and!; [by right; left|done|done].
Qed.
