(* ===== verification/AlgBurnside.v ===== *)
(** Counting orbits (src/crates/rc-algebra/src/orbit.rs): the estimate of what
    a canonical order can save is Burnside's lemma. *)

From mathcomp Require Import boot finite_group.
Set Implicit Arguments.
Unset Strict Implicit.
Unset Printing Implicit Defensive.

(** [burnside_orbit_count]: one list of cycle lengths per group element; the
    sum of the fixed points over the number of elements. *)
Definition burnside_orbit_count (cycle_structures : seq (seq nat)) : nat :=
  if nilp cycle_structures then 0
  else sumn [seq count (pred1 1%N) cycles | cycles <- cycle_structures] %/ size cycle_structures.

Import GroupScope.

Section Burnside.
Variable T : finType.

(** The cycle structure of a permutation: the lengths of its disjoint cycles,
    those of length one included. *)
Definition cycle_structure (g : {perm T}) : seq nat := [seq #|pred_of_set c| | c <- enum (porbits g)].

Lemma porbit_fixed (g : {perm T}) x : (#|porbit g x| == 1%N) = (g x == x).
Proof.
apply/idP/idP => [/cards1P[y Hy]|/eqP Hx].
  have: x \in porbit g x by rewrite porbit_id.
  have: g x \in porbit g x by rewrite -{1}[g]expg1 mem_porbit.
  by rewrite Hy !inE => /eqP-> /eqP->.
apply/cards1P; exists x; apply/setP => y; rewrite !inE.
apply/porbitP/eqP => [[i ->]|->]; last by exists 0%N; rewrite expg0 perm1.
by elim: i => [|i IH]; rewrite ?expg0 ?perm1 // expgSr permM IH.
Qed.

(** The points a permutation leaves where they are. *)
Definition fixed_points (g : {perm T}) : {set T} := [set x | g x == x].

Lemma fixed_points_count (g : {perm T}) : count (pred1 1%N) (cycle_structure g) = #|fixed_points g|.
Proof.
have -> : #|fixed_points g| = #|[set [set x] | x in fixed_points g]| by rewrite card_imset //; exact: set1_inj.
rewrite /cycle_structure count_map -size_filter.
set s := filter _ _; have /card_uniqP <- : uniq s by rewrite filter_uniq ?enum_uniq.
apply: eq_card => c; rewrite mem_filter mem_enum /=.
apply/andP/imsetP => [[Hc /imsetP[x _ Hx]]|[x Hx ->]].
  move: Hc; rewrite Hx porbit_fixed => Hfix; exists x; first by rewrite inE.
  apply/eqP; rewrite eq_sym eqEcard sub1set porbit_id cards1 /=.
  by move: Hfix; rewrite -porbit_fixed => /eqP->.
have Hp : porbit g x = [set x].
  apply/eqP; rewrite eq_sym eqEcard sub1set porbit_id cards1 /=.
  by move: Hx; rewrite inE -porbit_fixed => /eqP->.
by rewrite cards1 -Hp; split=> //; apply: imset_f.
Qed.

(** the count is the number of orbits.  For a group of permutations of a
    finite set, given the cycle structure of each of its elements, the
    function returns the number of classes of points that the group does not
    tell apart: the division by the number of elements is exact (Burnside's
    lemma). *)
Theorem burnside_counts_orbits (G : {group {perm T}}) :
  burnside_orbit_count [seq cycle_structure g | g <- enum G] = #|orbit (perm_action T) G @: setT|.
Proof.
have Hsize : size (enum G) = #|G| by rewrite cardE.
rewrite /burnside_orbit_count /nilp size_map Hsize.
have -> : (#|G| == 0%N) = false by apply/negbTE; rewrite -lt0n cardG_gt0.
rewrite -map_comp sumnE big_map big_enum.
have -> : (\sum_(g in G) count (pred1 1%N) (cycle_structure g) = #|orbit (perm_action T) G @: setT| * #|G|)%N.
  have Hact : [acts G, on setT | perm_action T] by apply/actsP => g _ x; rewrite !inE.
  rewrite -(Frobenius_Cauchy Hact); apply: eq_bigr => g _; rewrite fixed_points_count.
  apply: eq_card => x; rewrite in_setI in_setT /= in_set.
  by apply/eqP/afix1P.
by rewrite mulnK // cardG_gt0.
Qed.
End Burnside.
