(* ===== verification/Clock.v ===== *)
(** Dates without a calendar library (src/crates/rc-tokenize/src/time.rs).
    The clock is the number of seconds since the epoch. *)

From S2P Require Import Prelude.

(** [civil_from_days] on [i64]: [/] truncates. *)
Definition civil_from_days (z : Z) : Z * Z * Z :=
  let z := z + 719468 in
  let era := Z.quot (if 0 <=? z then z else z - 146096) 146097 in
  let doe := z - era * 146097 in
  let yoe := Z.quot (doe - Z.quot doe 1460 + Z.quot doe 36524 - Z.quot doe 146096) 365 in
  let y := yoe + era * 400 in
  let doy := doe - (365 * yoe + Z.quot yoe 4 - Z.quot yoe 100) in
  let mp := Z.quot (5 * doy + 2) 153 in
  let d := doy - Z.quot (153 * mp + 2) 5 + 1 in
  let m := if mp <? 10 then mp + 3 else mp - 9 in
  (y + (if m <=? 2 then 1 else 0), m, d).

(** [{:0w$}] of an unsigned integer. *)
Definition pad (w : nat) (n : Z) : str := let s := show_z n in repeat 48 (w - length s) ++ s.

Definition WEEKDAYS : list str := map lit ["Thu"; "Fri"; "Sat"; "Sun"; "Mon"; "Tue"; "Wed"]%string.
Definition MONTHS : list str :=
  map lit ["Jan"; "Feb"; "Mar"; "Apr"; "May"; "Jun"; "Jul"; "Aug"; "Sep"; "Oct"; "Nov"; "Dec"]%string.

(** [today_string] at [now]; [None] is the panic of an index out of range. *)
Definition today_string (now : Z) : option str :=
  let days := now / 86400 in
  let '(y, m, d) := civil_from_days days in
  let day_idx := Z.rem (Z.rem days 7 + 7) 7 in
  match WEEKDAYS !! Z.to_nat day_idx, MONTHS !! Z.to_nat (m - 1) with
  | Some weekday, Some month => Some (weekday ++ [32] ++ month ++ [32] ++ show_z d ++ lit ", " ++ show_z y)
  | _, _ => None
  end.

Definition sortable_timestamp (now : Z) : str :=
  let secs := now mod 60 in
  let mins := (now / 60) mod 60 in
  let hours := (now / 3600) mod 24 in
  let days := now / 86400 in
  let '(y, m, d) := civil_from_days days in
  pad 4 y ++ pad 2 m ++ pad 2 d ++ [84] ++ pad 2 hours ++ pad 2 mins ++ pad 2 secs.

(** ** The calendar *)

Definition leap (y : Z) : bool := ((y mod 4 =? 0) && negb (y mod 100 =? 0)) || (y mod 400 =? 0).
Definition days_in_month (y m : Z) : Z :=
  if m =? 2 then (if leap y then 29 else 28)
  else if (m =? 4) || (m =? 6) || (m =? 9) || (m =? 11) then 30 else 31.
Definition next_day (date : Z * Z * Z) : Z * Z * Z :=
  let '(y, m, d) := date in
  if d <? days_in_month y m then (y, m, d + 1)
  else if m <? 12 then (y, m + 1, 1) else (y + 1, 1, 1).

(** ** The year of a day of the era *)

(** The first day of a year of the era, counted from March. *)
Definition year_start (y : Z) : Z := 365 * y + y / 4 - y / 100 + y / 400.
Definition year_of (doe : Z) : Z := (doe - doe / 1460 + doe / 36524 - doe / 146096) / 365.

Lemma year_of_spec doe : 0 <= doe < 146097 ->
  0 <= year_of doe < 400 /\ year_start (year_of doe) <= doe < year_start (year_of doe + 1).
Proof.
  intros H. unfold year_of, year_start.
  assert (doe / 146096 = 0 \/ doe = 146096) as [E|E] by zlia.
  - rewrite E. zlia.
  - subst. vm_compute. intuition congruence.
Qed.

Lemma start_mono a b : 0 <= a <= b -> year_start a <= year_start b.
Proof. unfold year_start. intros. zlia. Qed.

Lemma year_of_unique y doe : 0 <= y -> 0 <= doe < 146097 -> year_start y <= doe < year_start (y + 1) -> year_of doe = y.
Proof.
  intros Hy Hd Hs. destruct (year_of_spec doe Hd) as [Hr Hw].
  destruct (Z.lt_trichotomy (year_of doe) y) as [H|[H|H]]; [|done|].
  - pose proof (start_mono (year_of doe + 1) y ltac:(lia)). lia.
  - pose proof (start_mono (y + 1) (year_of doe) ltac:(lia)). lia.
Qed.

(** The length of a year of the era: February is its last month. *)
Definition b2z (b : bool) : Z := if b then 1 else 0.
Lemma b2z_bounds b : 0 <= b2z b <= 1. Proof. by destruct b. Qed.
Lemma start_next y : 0 <= y -> year_start (y + 1) = year_start y + 365 + b2z (leap (y + 1)).
Proof.
  intros Hy. unfold year_start, leap, b2z.
  destruct (Z.eqb_spec ((y + 1) mod 4) 0), (Z.eqb_spec ((y + 1) mod 100) 0), (Z.eqb_spec ((y + 1) mod 400) 0); cbn [andb orb negb]; zlia.
Qed.

Lemma leap_era y e : leap (y + e * 400) = leap y.
Proof.
  unfold leap. rewrite Z.mod_add by lia.
  replace (y + e * 400) with (y + (e * 100) * 4) at 1 by ring. rewrite Z.mod_add by lia.
  replace (y + e * 400) with (y + (e * 4) * 100) by ring. by rewrite Z.mod_add by lia.
Qed.

(** ** The month of a day of the year *)

Definition date_of (y doy : Z) : Z * Z * Z :=
  let mp := (5 * doy + 2) / 153 in
  let d := doy - (153 * mp + 2) / 5 + 1 in
  let m := if mp <? 10 then mp + 3 else mp - 9 in
  (y + (if m <=? 2 then 1 else 0), m, d).

Definition month_start (mp : Z) : Z := (153 * mp + 2) / 5.

Lemma month_bounds doy : 0 <= doy <= 365 ->
  exists mp, (5 * doy + 2) / 153 = mp /\ 0 <= mp <= 11 /\ month_start mp <= doy < month_start (mp + 1).
Proof. intros H. exists ((5 * doy + 2) / 153). unfold month_start. split; [done|]. zlia. Qed.

Lemma month_unique doy mp : month_start mp <= doy < month_start (mp + 1) -> (5 * doy + 2) / 153 = mp.
Proof. unfold month_start. zlia. Qed.

Lemma date_of_month y doy mp :
  month_start mp <= doy < month_start (mp + 1) ->
  date_of y doy = let m := if mp <? 10 then mp + 3 else mp - 9 in
                  (y + (if m <=? 2 then 1 else 0), m, doy - month_start mp + 1).
Proof. intros H. unfold date_of. by rewrite (month_unique _ _ H). Qed.

Ltac month_cases mp :=
  assert (mp = 0 \/ mp = 1 \/ mp = 2 \/ mp = 3 \/ mp = 4 \/ mp = 5 \/ mp = 6 \/ mp = 7 \/ mp = 8 \/ mp = 9 \/ mp = 10 \/ mp = 11)
    as Hmp by lia; repeat (destruct Hmp as [->|Hmp]); try subst mp.

Definition month_of (mp : Z) : Z := if mp <? 10 then mp + 3 else mp - 9.
Definition civil_year (y mp : Z) : Z := y + (if month_of mp <=? 2 then 1 else 0).

Lemma days_of_month y mp : 0 <= mp <= 11 ->
  days_in_month (civil_year y mp) (month_of mp)
  = if mp =? 11 then 28 + b2z (leap (y + 1)) else month_start (mp + 1) - month_start mp.
Proof.
  intros H. month_cases mp; try reflexivity.
  change ((if leap (y + 1) then 29 else 28) = 28 + b2z (leap (y + 1))). by destruct (leap (y + 1)).
Qed.

Lemma next_month y mp : 0 <= mp < 11 ->
  (if month_of mp <? 12 then (civil_year y mp, month_of mp + 1, 1) else (civil_year y mp + 1, 1, 1))
  = (civil_year y (mp + 1), month_of (mp + 1), 1).
Proof. intros H. month_cases mp; try lia; unfold civil_year; cbn; rewrite ?Z.add_0_r; reflexivity. Qed.

Lemma date_in_month y doy mp :
  month_start mp <= doy < month_start (mp + 1) ->
  date_of y doy = (civil_year y mp, month_of mp, doy - month_start mp + 1).
Proof. intros H. unfold date_of. by rewrite (month_unique _ _ H). Qed.

Lemma date_next y doy :
  0 <= doy < 365 + b2z (leap (y + 1)) ->
  next_day (date_of y doy) = if doy + 1 <? 365 + b2z (leap (y + 1)) then date_of y (doy + 1) else date_of (y + 1) 0.
Proof.
  intros H. pose proof (b2z_bounds (leap (y + 1))) as Hb.
  destruct (month_bounds doy ltac:(lia)) as (mp & _ & Hr & Hm). rewrite (date_in_month y doy mp Hm).
  unfold next_day. rewrite days_of_month by done.
  assert (month_start 11 = 337 /\ month_start 12 = 367 /\ month_start 0 = 0 /\ month_start 1 = 31) as (S11 & S12 & S0 & S1) by done.
  destruct (Z.eqb_spec mp 11) as [->|Hn].
  - (* February *)
    destruct (Z.ltb_spec (doy - month_start 11 + 1) (28 + b2z (leap (y + 1)))), (Z.ltb_spec (doy + 1) (365 + b2z (leap (y + 1)))); try lia.
    + rewrite (date_in_month y (doy + 1) 11) by (change (11 + 1) with 12 in *; lia). f_equal. lia.
    + rewrite (date_in_month (y + 1) 0 0) by (change (0 + 1) with 1; lia). unfold civil_year. cbn. by rewrite Z.add_0_r.
  - assert (month_start (mp + 1) <= 337) as Hle by (unfold month_start; zlia).
    rewrite (proj2 (Z.ltb_lt (doy + 1) _)) by lia.
    destruct (Z.ltb_spec (doy - month_start mp + 1) (month_start (mp + 1) - month_start mp)).
    + rewrite (date_in_month y (doy + 1) mp) by lia. f_equal. lia.
    + rewrite (date_in_month y (doy + 1) (mp + 1)) by (split; [lia|unfold month_start in *; zlia]).
      rewrite next_month by lia. f_equal. lia.
Qed.

(** ** The algorithm *)

Lemma civil_eq z :
  let z' := z + 719468 in
  civil_from_days z = date_of (year_of (z' mod 146097) + z' / 146097 * 400) (z' mod 146097 - year_start (year_of (z' mod 146097))).
Proof.
  intros z'. pose proof (Z.mod_pos_bound z' 146097 ltac:(lia)) as Hm.
  destruct (year_of_spec _ Hm) as [Hy Hs]. unfold civil_from_days. fold z'. cbv zeta.
  assert (Z.quot (if 0 <=? z' then z' else z' - 146096) 146097 = z' / 146097) as ->.
  { destruct (Z.leb_spec 0 z'); [by apply Z.quot_div_nonneg; lia|]. zlia. }
  replace (z' - z' / 146097 * 146097) with (z' mod 146097) by zlia.
  set (doe := z' mod 146097) in *. rewrite !(Z.quot_div_nonneg doe) by lia.
  rewrite (Z.quot_div_nonneg _ 365) by zlia. fold (year_of doe). set (yoe := year_of doe) in *.
  rewrite !(Z.quot_div_nonneg yoe) by lia.
  assert (365 * yoe + yoe / 4 - yoe / 100 = year_start yoe) as -> by (unfold year_start; zlia).
  assert (doe - year_start yoe <= 365) by (rewrite start_next in Hs by lia; pose proof (b2z_bounds (leap (yoe + 1))); lia).
  set (doy := doe - year_start yoe) in *. rewrite (Z.quot_div_nonneg (5 * doy + 2)) by lia.
  rewrite (Z.quot_div_nonneg (153 * _ + 2)) by zlia. done.
Qed.

Lemma civil_next z : civil_from_days (z + 1) = next_day (civil_from_days z).
Proof.
  rewrite !civil_eq. cbv zeta. set (z' := z + 719468). replace (z + 1 + 719468) with (z' + 1) by (unfold z'; lia).
  pose proof (Z.mod_pos_bound z' 146097 ltac:(lia)) as Hm. destruct (year_of_spec _ Hm) as [Hy Hs].
  set (doe := z' mod 146097) in *. set (yoe := year_of doe) in *. set (era := z' / 146097).
  pose proof (start_next yoe ltac:(lia)) as Hn.
  rewrite date_next by (replace (yoe + era * 400 + 1) with (yoe + 1 + era * 400) by ring; rewrite leap_era; lia).
  replace (yoe + era * 400 + 1) with (yoe + 1 + era * 400) by ring. rewrite leap_era.
  assert (doe = 146096 \/ doe < 146096) as [Hd|Hd] by lia.
  - (* the last day of an era *)
    assert ((z' + 1) mod 146097 = 0 /\ (z' + 1) / 146097 = era + 1) as [-> ->] by (unfold doe, era in *; zlia).
    assert (yoe = 399) as -> by (unfold yoe; rewrite Hd; reflexivity). rewrite Hd.
    change (146096 - year_start 399 + 1 <? 365 + b2z (leap (399 + 1))) with false. cbv iota.
    change (year_of 0) with 0. change (0 - year_start 0) with 0. f_equal. lia.
  - assert ((z' + 1) mod 146097 = doe + 1 /\ (z' + 1) / 146097 = era) as [-> ->] by (unfold doe, era in *; zlia).
    destruct (Z.ltb_spec (doe - year_start yoe + 1) (365 + b2z (leap (yoe + 1)))) as [Hin|Hout].
    + rewrite (year_of_unique yoe (doe + 1)) by lia. f_equal. lia.
    + assert (doe + 1 = year_start (yoe + 1)) as He by lia.
      pose proof (start_next (yoe + 1) ltac:(lia)) as Hn'. pose proof (b2z_bounds (leap (yoe + 1 + 1))).
      rewrite (year_of_unique (yoe + 1) (doe + 1)) by lia. f_equal. lia.
Qed.

(** ** Order *)

Definition date_lt (a b : Z * Z * Z) : Prop :=
  let '(y, m, d) := a in let '(y', m', d') := b in
  y < y' \/ (y = y' /\ (m < m' \/ (m = m' /\ d < d'))).

Lemma next_day_lt a : date_lt a (next_day a).
Proof. destruct a as [[y m] d]. unfold next_day. repeat case_test; cbn; lia. Qed.

Lemma date_lt_trans a b c : date_lt a b -> date_lt b c -> date_lt a c.
Proof. destruct a as [[] ], b as [[] ], c as [[] ]. cbn. lia. Qed.

Lemma civil_mono a b : a < b -> date_lt (civil_from_days a) (civil_from_days b).
Proof.
  intros H. replace b with (a + (1 + (b - a - 1))) by lia.
  assert (0 <= b - a - 1) as Hk by lia. revert Hk. generalize (b - a - 1). clear H b.
  apply natlike_ind.
  - rewrite Z.add_0_r, civil_next. apply next_day_lt.
  - intros k Hk IH. eapply date_lt_trans; [exact IH|].
    replace (a + (1 + Z.succ k)) with (a + (1 + k) + 1) by lia. rewrite civil_next. apply next_day_lt.
Qed.

Lemma civil_valid z :
  let '(y, m, d) := civil_from_days z in 1 <= m <= 12 /\ 1 <= d <= days_in_month y m.
Proof.
  rewrite civil_eq. cbv zeta. set (z' := z + 719468).
  pose proof (Z.mod_pos_bound z' 146097 ltac:(lia)) as Hm. destruct (year_of_spec _ Hm) as [Hy Hs].
  rewrite start_next in Hs by lia. set (yoe := year_of (z' mod 146097)) in *.
  pose proof (b2z_bounds (leap (yoe + 1))).
  destruct (month_bounds (z' mod 146097 - year_start yoe) ltac:(lia)) as (mp & _ & Hr & Hb).
  rewrite (date_in_month _ _ mp Hb), days_of_month by done.
  replace (yoe + z' / 146097 * 400 + 1) with (yoe + 1 + z' / 146097 * 400) by ring. rewrite leap_era.
  split; [unfold month_of; case_test; lia|]. destruct (Z.eqb_spec mp 11) as [->|].
  - change (month_start 11) with 337 in *. lia.
  - unfold month_start in *. zlia.
Qed.

(** ** Digits *)

(** The comparison of strings. *)
Fixpoint lex_lt (a b : str) : Prop :=
  match a, b with
  | [], _ :: _ => True
  | x :: a, y :: b => x < y \/ (x = y /\ lex_lt a b)
  | _, _ => False
  end.

Lemma lex_app a a' b b' :
  length a = length a' -> lex_lt a a' \/ (a = a' /\ lex_lt b b') -> lex_lt (a ++ b) (a' ++ b').
Proof.
  revert a'. induction a as [|x a IH]; intros [|y a'] Hl; try done; cbn.
  - intros [[]|[_ ?]]; done.
  - injection Hl as Hl. intros [[?|[-> H]]|[[= -> ->] H]]; [by left|right; split; [done|auto]..].
Qed.

Fixpoint fixed (w : nat) (n : Z) : str :=
  match w with O => [] | S w' => fixed w' (n / 10) ++ [48 + n mod 10] end.

Lemma fixed_length w n : length (fixed w n) = w.
Proof. revert n. induction w as [|w IH]; intros n; [done|]. cbn. rewrite length_app, IH. cbn. lia. Qed.

Lemma fixed_lt w : forall a b, 0 <= a < b -> b < 10 ^ Z.of_nat w -> lex_lt (fixed w a) (fixed w b).
Proof.
  induction w as [|w IH]; intros a b H Hb; [cbn in Hb; lia|].
  rewrite Nat2Z.inj_succ, Z.pow_succ_r in Hb by lia. cbn [fixed].
  apply lex_app; [by rewrite !fixed_length|]. assert (a / 10 < b / 10 \/ a / 10 = b / 10) as [H'|H'] by zlia.
  - left. apply IH; [split; [apply Z.div_pos; lia|done]|]. apply Z.div_lt_upper_bound; lia.
  - right. split; [by rewrite H'|]. cbn. left. zlia.
Qed.

Lemma fixed_zero w : fixed w 0 = repeat 48 w.
Proof. induction w as [|w IH]; [done|]. cbn [fixed]. rewrite Z.div_0_l by lia. rewrite IH, <- repeat_cons. done. Qed.

Lemma dec_digits_acc f : forall n acc, dec_digits f n acc = dec_digits f n [] ++ acc.
Proof.
  induction f as [|f IH]; intros n acc; [done|]. cbn [dec_digits]. cbv zeta. destruct (n / 10 =? 0); [done|].
  rewrite IH, (IH _ [_]). by rewrite <- app_assoc.
Qed.

Lemma pad_digits f : forall w n,
  0 <= n < 10 ^ Z.of_nat (S f) -> n < 10 ^ Z.of_nat (S w) ->
  repeat 48 (S w - length (dec_digits (S f) n [])) ++ dec_digits (S f) n [] = fixed (S w) n.
Proof.
  induction f as [|f IH]; intros w n Hf Hw; rewrite Nat2Z.inj_succ, Z.pow_succ_r in Hf, Hw by lia;
    change (dec_digits (S ?f) n []) with (let acc' := [48 + n mod 10] in if n / 10 =? 0 then acc' else dec_digits f (n / 10) acc');
    cbv zeta; cbn [fixed]; destruct (Z.eqb_spec (n / 10) 0) as [E|E].
  - rewrite E, fixed_zero. cbn [length]. by rewrite Nat.sub_succ, Nat.sub_0_r.
  - cbn in Hf. zlia.
  - rewrite E, fixed_zero. cbn [length]. by rewrite Nat.sub_succ, Nat.sub_0_r.
  - destruct w as [|w]; [cbn in Hw; zlia|]. rewrite dec_digits_acc, length_app. cbn [length].
    rewrite <- (IH w (n / 10)), <- app_assoc.
    + do 2 f_equal. lia.
    + split; [apply Z.div_pos; lia|apply Z.div_lt_upper_bound; lia].
    + apply Z.div_lt_upper_bound; lia.
Qed.

Lemma pad_fixed w n : 0 <= n < 10 ^ Z.of_nat (S w) -> pad (S w) n = fixed (S w) n.
Proof.
  intros H. unfold pad, show_z. cbv zeta. apply pad_digits; [|lia]. split; [lia|].
  destruct (Z.eq_dec n 0) as [->|Hn]; [cbn; lia|]. destruct (Z.log2_spec n ltac:(lia)) as [_ Hl].
  eapply Z.lt_le_trans; [exact Hl|]. rewrite Nat2Z.inj_succ, Z2Nat.id by apply Z.log2_nonneg.
  apply Z.pow_le_mono_l. lia.
Qed.

(** ** Properties *)

(** [civil_from_days] is the Gregorian calendar: day 0 is 1 January 1970,
    and each day's date is the successor, by the lengths of the months and the
    leap years, of the date of the day before, backwards and forwards without
    end. *)
Theorem civil_is_gregorian z :
  civil_from_days 0 = (1970, 1, 1) /\ civil_from_days (z + 1) = next_day (civil_from_days z).
Proof. split; [reflexivity|apply civil_next]. Qed.

(** The last second of the year 9999. *)
Definition LAST : Z := 253402300799.

Lemma civil_year_range days : 0 <= days <= 2932896 -> let '(y, _, _) := civil_from_days days in 1970 <= y <= 9999.
Proof.
  intros H. assert (civil_from_days 0 = (1970, 1, 1)) as E0 by reflexivity.
  assert (civil_from_days 2932896 = (9999, 12, 31)) as E1 by reflexivity.
  destruct (Z.eq_dec days 0) as [->|H0]; [rewrite E0; lia|].
  destruct (Z.eq_dec days 2932896) as [->|H1]; [rewrite E1; lia|].
  pose proof (civil_mono 0 days ltac:(lia)) as L0. pose proof (civil_mono days 2932896 ltac:(lia)) as L1.
  rewrite E0 in L0. rewrite E1 in L1. destruct (civil_from_days days) as [[y m] d]. cbn in *. lia.
Qed.

Lemma days_in_month_le y m : days_in_month y m <= 31.
Proof. unfold days_in_month. repeat case_test; lia. Qed.

(** Two fields of fixed width in front of the rest. *)
Lemma lex_field w a b ra rb :
  0 <= a -> a <= b < 10 ^ Z.of_nat (S w) -> (a = b -> lex_lt ra rb) ->
  lex_lt (pad (S w) a ++ ra) (pad (S w) b ++ rb).
Proof.
  intros Ha Hb Hr. rewrite !pad_fixed by lia. apply lex_app; [by rewrite !fixed_length|].
  destruct (Z.eq_dec a b) as [->|]; [right; auto|left]. apply fixed_lt; lia.
Qed.

Lemma lex_field_lt w a b ra rb :
  0 <= a < b -> b < 10 ^ Z.of_nat (S w) -> lex_lt (pad (S w) a ++ ra) (pad (S w) b ++ rb).
Proof. intros Ha Hb. apply lex_field; lia. Qed.

Lemma pad_length w n : 0 <= n < 10 ^ Z.of_nat (S w) -> length (pad (S w) n) = S w.
Proof. intros H. by rewrite pad_fixed, fixed_length. Qed.

(** Timestamps sort by time: up to the end of the year 9999 the timestamp of
    an earlier second is the smaller string, and all have 15 characters. *)
Theorem timestamps_sort a b :
  0 <= a < b -> b <= LAST ->
  lex_lt (sortable_timestamp a) (sortable_timestamp b) /\ length (sortable_timestamp a) = 15%nat.
Proof.
  intros Ha Hb. unfold LAST in Hb. unfold sortable_timestamp. cbv zeta.
  pose proof (civil_valid (a / 86400)) as Va. pose proof (civil_valid (b / 86400)) as Vb.
  pose proof (civil_year_range (a / 86400) ltac:(zlia)) as Ya. pose proof (civil_year_range (b / 86400) ltac:(zlia)) as Yb.
  assert (a / 86400 < b / 86400 \/ a / 86400 = b / 86400) as [H|H] by zlia.
  - apply civil_mono in H. destruct (civil_from_days (a / 86400)) as [[y m] d], (civil_from_days (b / 86400)) as [[y' m'] d'].
    pose proof (days_in_month_le y m). pose proof (days_in_month_le y' m'). cbn in H. split.
    + destruct H as [H|[-> [H|[-> H]]]].
      * apply lex_field_lt; cbn; lia.
      * apply lex_field; [lia|cbn; lia|intros _]. apply lex_field_lt; cbn; lia.
      * apply lex_field; [lia|cbn; lia|intros _]. apply lex_field; [lia|cbn; lia|intros _]. apply lex_field_lt; cbn; lia.
    + rewrite !length_app, !pad_length by (cbn; zlia). reflexivity.
  - rewrite <- H. destruct (civil_from_days (a / 86400)) as [[y m] d]. pose proof (days_in_month_le y m). split.
    + do 3 (apply lex_field; [lia|cbn; lia|intros _]). right. split; [done|].
      assert ((a / 3600) mod 24 <= (b / 3600) mod 24) by zlia.
      apply lex_field; [zlia|cbn; zlia|intros Hh]. apply lex_field; [zlia|cbn; zlia|intros Hm].
      rewrite <- (app_nil_r (pad 2 (a mod 60))), <- (app_nil_r (pad 2 (b mod 60))).
      apply lex_field_lt; [zlia|cbn; zlia].
    + rewrite !length_app, !pad_length by (cbn; zlia). reflexivity.
Qed.

Lemma timestamps_sort_witness :
  lex_lt (sortable_timestamp 951782399) (sortable_timestamp 951782400)
  /\ sortable_timestamp 951782400 = lit "20000229T000000".
Proof.
  split; [|vm_compute; reflexivity].
  apply (timestamps_sort 951782399 951782400); unfold LAST; lia.
Defined.

(** The arrays are never indexed out of range. *)
Lemma today_string_total now : 0 <= now -> is_Some (today_string now).
Proof.
  intros H. unfold today_string. cbv zeta. pose proof (civil_valid (now / 86400)) as V.
  destruct (civil_from_days (now / 86400)) as [[y m] d].
  assert (0 <= Z.rem (Z.rem (now / 86400) 7 + 7) 7 < 7) by (assert (0 <= now / 86400) by zlia; zlia).
  destruct (lookup_lt_is_Some_2 WEEKDAYS (Z.to_nat (Z.rem (Z.rem (now / 86400) 7 + 7) 7))) as [w ->]; [cbn; lia|].
  destruct (lookup_lt_is_Some_2 MONTHS (Z.to_nat (m - 1))) as [mo ->]; [cbn; lia|]. done.
Qed.
