(* ===== verification/Ctx.v ===== *)
(** The context engine (src/crates/rc-ctx/src/lib.rs) and the interface the
    loop sees it through (src/crates/rc-core/src/context.rs): the system
    prompt, [@file] mentions, result caps, and the two keys of an assembled
    context.

    The file system gives the file a path leads to, links followed, and the
    bytes of a file; the serialiser of wire messages and the hashes are
    parameters. *)

From S2P Require Import Prelude Utf8 Text Wire Cost Turn Json Project PathLib AlgMultiset AlgSeq.

(** ** Caps *)

Record Caps := mk_caps { cap_inline_file : Z; cap_tool_result : Z }.
Definition caps_unlimited : Caps := mk_caps 0 0.
Definition caps_bounded : Caps := mk_caps (8 * 1024) (16 * 1024).
Definition caps_default : Caps := caps_unlimited.

Definition over (cap len : Z) : bool := negb (cap =? 0) && (cap <? len).

(** ** The file system *)

(** Where a path leads once its links are followed, and what a file holds;
    [None] where there is nothing or it cannot be read.  [std::fs::read]
    follows links. *)
Record FileSystem := mk_fs { fs_real : str -> option str; fs_bytes : str -> option (list Z) }.
Definition fs_open_read (fs : FileSystem) (p : str) : option (list Z) := r ← fs_real fs p; fs_bytes fs r.
(** One without links. *)
Definition plain_fs (f : str -> option (list Z)) : FileSystem := mk_fs Some f.

(** ** Environment and memory *)

Record Environment := mk_env { env_cwd : str; env_platform : str; env_date : str; env_git_branch : option str }.

(** [Path::extension]: what follows the last dot of the file name, unless
    nothing precedes it. *)
Fixpoint rsplit_dot (s : str) : option (str * str) :=
  match s with
  | [] => None
  | c :: s' =>
      match rsplit_dot s' with
      | Some (before, after) => Some (c :: before, after)
      | None => if c =? 46 then Some ([], s') else None
      end
  end.
Definition path_extension (p : str) : option str :=
  match path_file_name p with
  | Some name =>
      match rsplit_dot name with
      | Some (before, after) => if is_nil before then None else Some after
      | None => None
      end
  | None => None
  end.

(** [str::trim_end_matches] of a line feed. *)
Fixpoint drop_lf (s : str) : str :=
  match s with c :: s' => if c =? 10 then drop_lf s' else s | [] => [] end.
Definition trim_end_lf (s : str) : str := rev (drop_lf (rev s)).

Definition fence : str := lit "```".

Section Ctx.
Context (fs : FileSystem).

(** [std::fs::read_to_string] *)
Definition read_to_string (p : str) : option str :=
  match fs_open_read fs p with Some b => from_utf8 b | None => None end.

Definition read_git_branch (cwd : str) : option str :=
  match read_to_string (push_path (push_path cwd (lit ".git")) (lit "HEAD")) with
  | Some head => strip_prefix (lit "ref: refs/heads/") (trim head)
  | None => None
  end.

Definition env_detect (os cwd date : str) : Environment :=
  let platform :=
    if str_eqb os (lit "macos") then lit "macOS"
    else if str_eqb os (lit "linux") then lit "Linux"
    else if str_eqb os (lit "windows") then lit "Windows"
    else os in
  mk_env cwd platform date (read_git_branch cwd).

Definition render_block (e : Environment) : str :=
  lit "# Environment" ++ [10; 10]
  ++ lit "- Working directory: " ++ env_cwd e ++ [10]
  ++ lit "- Platform: " ++ env_platform e ++ [10]
  ++ lit "- Date: " ++ env_date e ++ [10]
  ++ match env_git_branch e with
     | Some branch => lit "- Git branch: " ++ branch ++ [10]
     | None => []
     end.

Record Memory := mk_memory { mem_path : str; mem_contents : str }.

Definition load_memory (path label : str) : option Memory :=
  match read_to_string path with
  | Some contents => if is_nil (trim contents) then None else Some (mk_memory label contents)
  | None => None
  end.

(** [load_chain] off Windows; [home] is the variable [HOME]. *)
Definition load_chain (home : option str) (cwd : str) : list Memory :=
  let push (m : option Memory) (chain : list Memory) := match m with Some m => chain ++ [m] | None => chain end in
  let agents := lit "AGENTS.md" in
  let chain := [] in
  let chain :=
    match home with
    | Some home => push (load_memory (push_path (push_path home (lit ".sc")) agents) (lit "~/.sc/AGENTS.md")) chain
    | None => chain
    end in
  let chain := push (load_memory (push_path (push_path cwd (lit ".sc")) agents) (lit ".sc/AGENTS.md")) chain in
  push (load_memory (push_path cwd agents) agents) chain.

Definition IDENTITY : str :=
  lit
    "You are `marathon` (Subconscious Code), a terminal agent that helps with software engineering tasks in the user's repository. Use the provided tools to inspect and edit files. Be concise and direct. When you have enough information, answer in plain text.".

Definition POSTURE : str :=
  lit
    "# Instructions"
  ++ [10; 10]
  ++ lit
    "Read files before editing them. Prefer the smallest change that solves the problem. Minimize model round trips: use one comprehensive read-only call instead of sequential discovery when possible. Before recursively inventorying a working directory that is not itself a repository, list its direct children and identify the intended project. For folder inventories or "
  ++ [8216]
  ++ lit
    "everything in this folder"
  ++ [8217]
  ++ lit
    ", call `List` once on that specific folder with `recursive: true` instead of probing with repeated `ls`, `find`, or `Glob` calls. If that inventory needs descriptions from file contents, follow it with exactly one `ReadMany` call containing every relevant text file, then answer; do not read those files one at a time. Use `Grep`/`GrepMany` for content searches and `Glob` for file patterns instead of shelling out to `grep`, `rg`, or `find`; these tools preserve workspace scoping and return structured results. When several independent searches are known, use one `GrepMany` call. For other independent reads, use one `ReadMany` call or issue them together in one parallel tool batch. Spend at most three consecutive tool rounds investigating before consolidating what is known, listing every remaining unknown, and fetching those unknowns together. Before emitting any read-only call, collect every independent path or query already known and include all of those calls in the same assistant response; do not narrate and then emit only the first one. For a short factual question, perform at least one cheap grounded inspection before answering unless the existing conversation or tool output already establishes the answer; label remaining uncertainty explicitly instead of substituting a shallow guess. For a long generated document, create it in bounded `Append` chunks and use each reported `new_size` as the next `expected_size`; do not attempt one completion-sized `Write`. Independent `Write`, `Append`, or `Edit` calls may also share a response. The runtime runs safe reads concurrently and serializes file edits in model order. Never batch calls when a later call depends on an earlier call's result. While editing, run the narrowest relevant test or check. Run the full workspace test suite once, at the end; rerun it only if that final run fails and you have applied a fix. Do not repeat an unchanged passing test command. For implementation tasks, do not declare completion merely because a narrow or self-authored test passes. Before the final answer, inspect the final diff, map every acceptance requirement to the implementation, and run the broadest relevant verification available after the last edit. If part of the requested verification cannot run, perform a static review of that behavior and state the limitation. When you have enough information to answer and this completion audit is satisfied, stop calling tools and answer in plain text. Keep private reasoning proportional to the task; once the next observable action is known, call the tool or answer instead of spending the completion budget rehearsing it.".

Definition build_system_prompt (env : Environment) (memories : list Memory) : str :=
  let s := IDENTITY ++ [10; 10] ++ render_block env in
  let s :=
    if is_nil memories then s
    else fold_left (fun s m => s ++ lit "## " ++ mem_path m ++ [10; 10] ++ trim (mem_contents m) ++ [10; 10])
           memories (s ++ [10] ++ lit "# Memory" ++ [10; 10]) in
  s ++ POSTURE.

(** ** Mentions *)

Definition inline_file (rel root : str) (cap : Z) : str :=
  let cleaned := default rel (strip_prefix (lit "./") rel) in
  if starts_with cleaned (lit "/") || contains cleaned (lit "..") then []
  else
    let path := push_path root cleaned in
    match fs_open_read fs path with
    | None => []
    | Some bytes =>
        if is_nil bytes then
          [10] ++ fence ++ [10] ++ lit "<file " ++ rel ++ lit " is empty>" ++ [10] ++ fence ++ [10]
        else
          match from_utf8 bytes with
          | None =>
              [10] ++ fence ++ [10] ++ lit "<file " ++ rel ++ lit " is not valid UTF-8 " ++ [8212]
              ++ lit " not inlined>" ++ [10] ++ fence ++ [10]
          | Some text =>
              let lang := default [] (path_extension path) in
              if over cap (byte_len text) then
                let head := str_upto text (floor_char_boundary text cap) in
                let elided := byte_len text - byte_len head in
                [10] ++ fence ++ lang ++ [10] ++ head ++ [10; 8230; 91] ++ show_z elided
                ++ lit " more bytes truncated " ++ [8212] ++ lit " use Read for the full file]" ++ [10] ++ fence ++ [10]
              else [10] ++ fence ++ lang ++ [10] ++ trim_end_lf text ++ [10] ++ fence ++ [10]
          end
    end.

(** [str::find] of a white space. *)
Fixpoint find_ws (s : str) : option nat :=
  match s with
  | [] => None
  | c :: s' => if is_ws c then Some 0%nat
               else match find_ws s' with Some n => Some (S n) | None => None end
  end.

(** The loop of [expand_line_mentions]; every round shortens [rest]. *)
Fixpoint mentions_loop (fuel : nat) (rest root : str) (cap : Z) (out : str) : str :=
  match fuel with
  | O => out ++ rest
  | S fuel' =>
      match find_char rest 64 with
      | None => out ++ rest
      | Some at_ =>
          let begins_token := (at_ =? 0)%nat || bool_decide (rest !! (at_ - 1)%nat = Some 32) in
          let out := out ++ take (S at_) rest in
          let after := drop (S at_) rest in
          if negb begins_token then mentions_loop fuel' after root cap out
          else
            let end_ := default (length after) (find_ws after) in
            let token := take end_ after in
            if is_nil token then mentions_loop fuel' after root cap out
            else mentions_loop fuel' (drop end_ after) root cap (out ++ token ++ inline_file token root cap)
      end
  end.
Definition expand_line_mentions (line root : str) (cap : Z) : str :=
  mentions_loop (S (length line)) line root cap [].

Definition expand_mentions (text root : str) (cap : Z) : str :=
  if negb (contains_char text 64) then text
  else
    fold_left (fun out line =>
      let '(body, newline) :=
        match strip_suffix [10] line with Some b => (b, [10]) | None => (line, []) end in
      out ++ expand_line_mentions body root cap ++ newline) (split_inclusive text []) [].

(** ** Turns *)

Definition truncate_tool_results (turns : list Turn) (cap : Z) : list Turn :=
  if cap =? 0 then turns
  else map (fun t =>
    match t with
    | TToolResult call_id tool result duration => TToolResult call_id tool (truncate_body result cap) duration
    | other => other
    end) turns.

Definition is_user (t : Turn) : bool := match t with TUser _ _ => true | _ => false end.

Definition prepare_turns (turns : list Turn) (root : str) (caps : Caps) : list Turn :=
  match rposition is_user turns with
  | None => truncate_tool_results turns (cap_tool_result caps)
  | Some idx =>
      let out := fold_left (fun out turn =>
        match turn with
        | TUser content ts => out ++ [TUser (expand_mentions content root (cap_inline_file caps)) ts]
        | other => out ++ [other]
        end) (drop idx turns) (take idx turns) in
      truncate_tool_results out (cap_tool_result caps)
  end.

(** ** The assembler *)

Record ContextAssembler := mk_assembler { ca_env : Environment; ca_system_prompt : str; ca_caps : Caps }.

Definition assembler_new (home : option str) (env : Environment) : ContextAssembler :=
  mk_assembler env (build_system_prompt env (load_chain home (env_cwd env))) caps_unlimited.
Definition with_system_prompt (env : Environment) (system_prompt : str) : ContextAssembler :=
  mk_assembler env system_prompt caps_unlimited.
Definition with_caps (a : ContextAssembler) (caps : Caps) : ContextAssembler :=
  mk_assembler (ca_env a) (ca_system_prompt a) caps.

Context `{JsonApi}.

Definition ctx_assemble (a : ContextAssembler) (turns : list Turn) : list WireMessage :=
  let prepared := prepare_turns turns (env_cwd (ca_env a)) (ca_caps a) in
  project_with prepared (ca_system_prompt a).

(** [canonical::to_bytes] of a message: [serde_json::to_vec]. *)
Context (to_bytes : WireMessage -> option (list Z)) (sha256 xof : list Z -> list Z) (t : Target).

Definition assembled_key (msgs : list WireMessage) : list Z :=
  context_key (fold_left (fun set m =>
    match to_bytes m with Some bytes => (context_add sha256 xof t set bytes).1 | None => set end) msgs context_new).
Definition assembled_blocks (msgs : list WireMessage) : list BlockId := map sha256 (omap to_bytes msgs).

(** [context_key] and [prefix_fingerprint] of the assembler. *)
Definition assembler_context_key (a : ContextAssembler) (turns : list Turn) : option (list Z) :=
  Some (assembled_key (ctx_assemble a turns)).
Definition prefix_fingerprint (a : ContextAssembler) (turns : list Turn) : option SeqHash :=
  Some (from_blocks (assembled_blocks (ctx_assemble a turns))).

(** ** The interface of the loop *)

(** The trait [ContextAssembler] of rc-core, its default methods included. *)
Record Assembler := mk_trait {
  tr_assemble : list Turn -> list WireMessage;
  tr_assemble_for : list Turn -> str -> list WireMessage;
  tr_system_prompt : option str;
  tr_context_key : list Turn -> option (list Z);
  tr_prefix_fingerprint : list Turn -> option SeqHash
}.
Definition trait_defaults (f : list Turn -> list WireMessage) : Assembler :=
  mk_trait f (fun turns _ => f turns) None (fun _ => None) (fun _ => None).

Definition LegacyAssembler : Assembler := trait_defaults project.
Definition context_assembler (a : ContextAssembler) : Assembler :=
  mk_trait (ctx_assemble a) (fun turns _ => ctx_assemble a turns) (Some (ca_system_prompt a))
    (assembler_context_key a) (prefix_fingerprint a).
End Ctx.

(** ** Mentions, character by character *)

Section Mentions.
Context (fs : FileSystem) (root : str) (cap : Z).

(** A mention can begin at the start of a line, after a space, and after
    another at sign. *)
Definition opens (prev : option char) : bool :=
  match prev with None => true | Some c => (c =? 32) || (c =? 64) || (c =? 10) end.

Definition block_of (token : str) : str := if is_nil token then [] else inline_file fs token root cap.

(** The text with the block of every token behind it: [token] is the one being
    read. *)
Fixpoint expand_spec (prev : option char) (token : option str) (s : str) : str :=
  match s with
  | [] => match token with Some tok => block_of tok | None => [] end
  | c :: s' =>
      match token with
      | Some tok =>
          if is_ws c then block_of tok ++ c :: expand_spec (Some c) None s'
          else c :: expand_spec None (Some (tok ++ [c])) s'
      | None =>
          c :: (if (c =? 64) && opens prev then expand_spec None (Some []) s' else expand_spec (Some c) None s')
      end
  end.

Lemma spec_token s : forall tok,
  expand_spec None (Some tok) s
  = let end_ := default (length s) (find_ws s) in
    take end_ s ++ block_of (tok ++ take end_ s) ++ expand_spec (Some 64) None (drop end_ s).
Proof using Type.
  induction s as [|c s IH]; intros tok; cbn [expand_spec find_ws]; [by rewrite app_nil_r, app_nil_r|].
  destruct (is_ws c) eqn:Hc.
  - cbn. rewrite app_nil_r. destruct (Z.eqb_spec c 64) as [->|]; done.
  - rewrite IH. cbv zeta. destruct (find_ws s) as [n|] eqn:E; cbn [default from_option id length take drop app].
    + rewrite <- !app_assoc. done.
    + rewrite <- !app_assoc. done.
Qed.

Lemma spec_skip s : forall prev n,
  find_char s 64 = Some n ->
  expand_spec prev None s
  = take (S n) s ++ (if opens (match n with O => prev | S m => s !! m end)
                     then expand_spec None (Some []) (drop (S n) s) else expand_spec (Some 64) None (drop (S n) s)).
Proof using Type.
  induction s as [|c s IH]; intros prev n; cbn [find_char expand_spec]; [done|].
  destruct (Z.eqb_spec c 64) as [->|Hc].
  - intros [= <-]. cbn. by destruct (opens prev).
  - destruct (find_char s 64) as [m|] eqn:E; [|done]. intros [= <-]. cbn [andb].
    rewrite (IH (Some c) m) by done. cbn [take drop app]. by destruct m.
Qed.

Lemma spec_none s : forall prev, find_char s 64 = None -> expand_spec prev None s = s.
Proof using Type.
  induction s as [|c s IH]; intros prev; cbn [find_char expand_spec]; [done|].
  destruct (c =? 64); [done|]. destruct (find_char s 64); [done|]. intros _. cbn. by rewrite IH.
Qed.

Lemma find_char_Some s c n : find_char s c = Some n -> (n < length s)%nat /\ forall m x, (m < n)%nat -> s !! m = Some x -> x <> c.
Proof using Type.
  revert n. induction s as [|d s IH]; intros n; cbn; [done|]. destruct (Z.eqb_spec d c).
  - intros [= <-]. split; [lia|]. lia.
  - destruct (find_char s c) as [m|]; [|done]. intros [= <-]. destruct (IH m eq_refl) as [? Hm]. split; [lia|].
    intros [|k] x Hk; cbn; [by intros [= ->]|]. apply Hm. lia.
Qed.

Lemma loop_spec fuel : forall rest prev out,
  (length rest < fuel)%nat -> Forall (fun c => c <> 10) rest -> opens prev = true ->
  mentions_loop fs fuel rest root cap out = out ++ expand_spec prev None rest.
Proof using Type.
  induction fuel as [|fuel IH]; intros rest prev out Hf Hlf Hp; [lia|]. cbn [mentions_loop].
  destruct (find_char rest 64) as [n|] eqn:E; [|by rewrite spec_none].
  destruct (find_char_Some _ _ _ E) as [Hn Hb]. rewrite (spec_skip _ prev n E).
  assert ((n =? 0)%nat || bool_decide (rest !! (n - 1)%nat = Some 32)
          = opens match n with O => prev | S m => rest !! m end) as ->.
  { destruct n as [|m]; [by rewrite Hp|]. cbn [Nat.eqb orb]. replace (S m - 1)%nat with m by lia.
    destruct (rest !! m) as [x|] eqn:Hx; [|apply lookup_ge_None in Hx; lia].
    pose proof (Hb m x ltac:(lia) Hx). rewrite list.Forall_lookup in Hlf. pose proof (Hlf m x Hx). cbn [opens].
    rewrite (proj2 (Z.eqb_neq x 64)), (proj2 (Z.eqb_neq x 10)) by done. rewrite !orb_false_r.
    destruct (Z.eqb_spec x 32) as [->|]; [by rewrite bool_decide_true|rewrite bool_decide_false; congruence]. }
  assert (forall k, Forall (fun c => c <> 10) (drop k rest)) as Hd by (intros k; by apply Forall_drop).
  clear Hp. destruct (opens _); cbn [negb]; cycle 1.
  { rewrite (IH _ (Some 64)) by (done || apply Hd || (rewrite length_drop; lia)). by rewrite <- app_assoc. }
  rewrite spec_token. cbv zeta. set (after := drop (S n) rest). set (end_ := default (length after) (find_ws after)).
  cbn [app]. unfold block_of. destruct (is_nil (take end_ after)) eqn:Et.
  - apply is_nil_true in Et. rewrite Et. cbn [app].
    assert (drop end_ after = after) as ->.
    { rewrite <- (take_drop end_ after) at 2. by rewrite Et. }
    rewrite (IH _ (Some 64)) by (done || apply Hd || (unfold after; rewrite length_drop; lia)). by rewrite <- app_assoc.
  - rewrite (IH _ (Some 64)) by (done || (unfold after; rewrite drop_drop; apply Hd) || (unfold after; rewrite !length_drop; lia)).
    by rewrite <- !app_assoc.
Qed.

Lemma spec_newline s : forall prev tok rest,
  Forall (fun c => c <> 10) s ->
  expand_spec prev tok (s ++ 10 :: rest) = expand_spec prev tok s ++ 10 :: expand_spec None None rest.
Proof using Type.
  assert (forall rest, expand_spec (Some 10) None rest = expand_spec None None rest) as Hlf.
  { intros [|c rest]; [done|]. done. }
  induction s as [|c s IH]; intros prev tok rest; cbn [app expand_spec].
  - intros _. destruct tok as [tok|]; cbn; by rewrite Hlf.
  - intros [Hc Hs]%list.Forall_cons. destruct tok as [tok|].
    + destruct (is_ws c); rewrite IH by done; [by rewrite <- app_assoc|done].
    + destruct (_ && _); by rewrite IH.
Qed.

Lemma lines_spec s : forall cur out,
  Forall (fun c => c <> 10) cur ->
  fold_left (fun out line =>
      let '(body, newline) :=
        match strip_suffix [10] line with Some b => (b, [10]) | None => (line, []) end in
      out ++ expand_line_mentions fs body root cap ++ newline) (split_inclusive s cur) out
  = out ++ expand_spec None None (cur ++ s).
Proof using Type.
  assert (forall l, Forall (fun c => c <> 10) l -> expand_line_mentions fs l root cap = expand_spec None None l) as Hline.
  { intros l Hl. unfold expand_line_mentions. by rewrite (loop_spec _ _ None) by (done || lia). }
  induction s as [|c s IH]; intros cur out Hcur; cbn [split_inclusive].
  - rewrite app_nil_r. destruct cur as [|d cur]; cbn [is_nil fold_left]; [by rewrite app_nil_r|].
    assert (strip_suffix [10] (d :: cur) = None) as ->.
    { destruct (strip_suffix [10] (d :: cur)) as [b|] eqn:E; [|done]. exfalso. unfold strip_suffix in E.
      destruct (strip_prefix _ _) as [r|] eqn:E'; [|done]. apply strip_prefix_Some in E'.
      apply (f_equal (@rev Z)) in E'. rewrite rev_involutive in E'. cbn in E'. rewrite E' in Hcur.
      apply list.Forall_app in Hcur as [_ H]. by inversion H. }
    rewrite Hline by done. by rewrite app_nil_r.
  - destruct (Z.eqb_spec c 10) as [->|Hc]; cbn [fold_left].
    + assert (strip_suffix [10] (cur ++ [10]) = Some cur) as ->.
      { unfold strip_suffix. rewrite rev_app_distr. cbn. by rewrite rev_involutive. }
      rewrite IH, Hline by constructor || done. rewrite spec_newline by done. cbn. by rewrite <- !app_assoc.
    + rewrite IH by (apply list.Forall_app; split; [done|by apply list.Forall_singleton]). by rewrite <- app_assoc.
Qed.

Lemma contains_find s c : contains_char s c = false -> find_char s c = None.
Proof using Type.
  unfold contains_char. induction s as [|d s IH]; cbn; [done|]. rewrite orb_false_iff. intros [Hd Hs].
  rewrite Z.eqb_sym, Hd. by rewrite IH.
Qed.
End Mentions.

(** ** Where a mention reads *)

(** A path below [root] by its components, none of them [..]. *)
Definition inside (root p : str) : Prop :=
  exists l, components p = components root ++ l /\ CParent ∉ l.

Lemma split_slash_infix s : forall cur x, x ∈ split_slash s cur -> infix_of x (cur ++ s).
Proof.
  induction s as [|c s IH]; intros cur x; cbn [split_slash].
  - rewrite app_nil_r. intros ->%list_elem_of_singleton. exists [], []. by rewrite app_nil_r.
  - destruct (Z.eqb_spec c 47) as [->|].
    + intros [->|H]%elem_of_cons.
      * by exists [], (47 :: s).
      * apply IH in H as (a & b & E). exists (cur ++ 47 :: a), b. rewrite <- app_assoc. cbn in *. by rewrite E.
    + intros H. apply IH in H. by rewrite <- app_assoc in H.
Qed.

Lemma segment_parent b s : CParent ∈ segment b s -> s = lit "..".
Proof.
  unfold segment. destruct (is_nil s); [by intros ?%elem_of_nil|].
  destruct (str_eqb s (lit ".")); [destruct b; intros H; [by apply list_elem_of_singleton in H|by apply elem_of_nil in H]|].
  destruct (str_eqb s (lit "..")) eqn:E; [by intros _; apply str_eqb_eq|]. by intros ?%list_elem_of_singleton.
Qed.

Lemma segments_parent c : contains c (lit "..") = false -> CParent ∉ concat (map (segment false) (split_slash c [])).
Proof.
  intros Hc Hin. apply list_elem_of_In, in_concat in Hin as (l & Hl & Hp).
  apply in_map_iff in Hl as (x & <- & Hx). apply list_elem_of_In, segment_parent in Hp as ->.
  apply list_elem_of_In, split_slash_infix in Hx as (a & b & E).
  assert (contains c (lit "..") = true) as Ht; [|congruence]. apply contains_spec. by exists a, b.
Qed.

Lemma components_slash_any a n :
  a <> [] -> components (a ++ 47 :: n) = components a ++ concat (map (segment false) (split_slash n [])).
Proof.
  intros Ha. unfold components. rewrite split_slash_app.
  destruct (split_slash_cons a []) as (x & l & E). rewrite E. cbn [app]. rewrite map_app, concat_app, app_assoc.
  by destruct a.
Qed.

Lemma push_inside root c : root <> [] -> is_absolute c = false -> contains c (lit "..") = false -> inside root (push_path root c).
Proof.
  intros Hr Ha Hc. unfold push_path. rewrite Ha. destruct (is_nil root) eqn:En; [by apply is_nil_true in En|]. cbn [orb].
  destruct (ends_with_slash root) eqn:Es.
  - unfold ends_with_slash in Es. destruct (rev root) as [|d r] eqn:Er; [done|]. apply Z.eqb_eq in Es as ->.
    apply (f_equal (@rev Z)) in Er. rewrite rev_involutive in Er. cbn in Er. subst root. clear Hr En.
    rewrite <- app_assoc. cbn [app]. destruct (decide (rev r = [])) as [->|Hr].
    + exists (concat (map (segment false) (split_slash c []))). split; [done|by apply segments_parent].
    + exists (concat (map (segment false) (split_slash c []))). split; [|by apply segments_parent].
      rewrite !components_slash_any by done. cbn. by rewrite app_nil_r.
  - exists (concat (map (segment false) (split_slash c []))). split; [|by apply segments_parent].
    by apply components_slash_any.
Qed.

Lemma inline_file_inside fs1 fs2 rel root cap :
  root <> [] -> (forall p, inside root p -> fs_open_read fs1 p = fs_open_read fs2 p) -> inline_file fs1 rel root cap = inline_file fs2 rel root cap.
Proof.
  intros Hr Hfs. unfold inline_file. cbv zeta. set (c := default rel (strip_prefix (lit "./") rel)).
  destruct (starts_with c (lit "/")) eqn:Ha; [done|]. destruct (contains c (lit "..")) eqn:Hc; [done|]. cbn [orb].
  rewrite (Hfs (push_path root c)); [done|]. apply push_inside; [done| |done].
  destruct c as [|x c]; [done|]. unfold starts_with in Ha. cbn in *. by destruct (Z.eqb_spec 47 x) as [<-|]; [|apply Z.eqb_neq].
Qed.

Lemma expand_spec_ext fs1 fs2 root cap s :
  (forall tok, inline_file fs1 tok root cap = inline_file fs2 tok root cap) ->
  forall prev tok, expand_spec fs1 root cap prev tok s = expand_spec fs2 root cap prev tok s.
Proof.
  intros H. assert (forall tok, block_of fs1 root cap tok = block_of fs2 root cap tok) as Hb.
  { intros tok. unfold block_of. by destruct (is_nil tok). }
  induction s as [|c s IH]; intros prev tok; cbn [expand_spec]; [by destruct tok|].
  destruct tok as [tok|]; [destruct (is_ws c); by rewrite ?Hb, IH|]. f_equal. destruct (_ && _); apply IH.
Qed.

Lemma expand_mentions_eq fs root cap text : expand_mentions fs text root cap = expand_spec fs root cap None None text.
Proof.
  unfold expand_mentions. destruct (contains_char text 64) eqn:E; cbn [negb].
  - by rewrite lines_spec.
  - symmetry. by apply spec_none, contains_find.
Qed.

(** ** Turns *)

Section Turns.
Context (fs : FileSystem) (root : str) (caps : Caps).

Definition expand_turn (t : Turn) : Turn :=
  match t with TUser content ts => TUser (expand_mentions fs content root (cap_inline_file caps)) ts | other => other end.
Definition cap_turn (t : Turn) : Turn :=
  if cap_tool_result caps =? 0 then t
  else match t with
       | TToolResult call_id tool result duration => TToolResult call_id tool (truncate_body result (cap_tool_result caps)) duration
       | other => other
       end.

Lemma truncate_map l : truncate_tool_results l (cap_tool_result caps) = map cap_turn l.
Proof using Type.
  unfold truncate_tool_results, cap_turn. destruct (_ =? 0); [by rewrite map_id|done].
Qed.

Lemma prepare_spec pre t post :
  is_user t = true -> Forall (fun t => is_user t = false) post ->
  prepare_turns fs (pre ++ t :: post) root caps = map cap_turn (pre ++ expand_turn t :: post).
Proof using Type.
  intros Ht Hp. unfold prepare_turns. rewrite rposition_app. cbn [rposition].
  rewrite (proj2 (rposition_None _ _) Hp), Ht. cbv zeta. rewrite Nat.add_0_r, drop_app_length, take_app_length, truncate_map. f_equal.
  assert (forall l out, Forall (fun t => is_user t = false) l ->
    fold_left (fun out turn => match turn with
      | TUser content ts => out ++ [TUser (expand_mentions fs content root (cap_inline_file caps)) ts]
      | other => out ++ [other] end) l out = out ++ l) as Hf.
  { induction l as [|x l IH]; intros out Hl; [by rewrite app_nil_r|]. apply list.Forall_cons in Hl as [Hx Hl].
    cbn [fold_left]. destruct x; try done; rewrite IH by done; by rewrite <- app_assoc. }
  destruct t; try done. cbn [fold_left]. rewrite Hf by done. by rewrite <- app_assoc.
Qed.

Lemma prepare_none l : Forall (fun t => is_user t = false) l -> prepare_turns fs l root caps = map cap_turn l.
Proof using Type. intros H. unfold prepare_turns. rewrite (proj2 (rposition_None _ _) H). apply truncate_map. Qed.

Lemma last_user_split l :
  Forall (fun t => is_user t = false) l \/ exists pre t post, l = pre ++ t :: post /\ is_user t = true /\ Forall (fun t => is_user t = false) post.
Proof using Type.
  destruct (rposition is_user l) as [n|] eqn:E; [right|left; by apply rposition_None].
  apply rposition_Some in E as (a & x & b & -> & _ & Hx & Hb). by exists a, x, b.
Qed.

(** The newest user message. *)
Definition newest_user (l : list Turn) : option str :=
  match rposition is_user l with
  | Some idx => match l !! idx with Some (TUser content _) => Some content | _ => None end
  | None => None
  end.
Lemma newest_user_split pre content ts post : Forall (fun t => is_user t = false) post ->
  newest_user (pre ++ TUser content ts :: post) = Some content.
Proof using Type.
  intros Hp. unfold newest_user. rewrite rposition_app. cbn [rposition is_user].
  rewrite (proj2 (rposition_None _ _) Hp). by rewrite Nat.add_0_r, list_lookup_middle.
Qed.

Lemma prepare_app l more :
  Forall (fun t => is_user t = false) more ->
  prepare_turns fs (l ++ more) root caps = prepare_turns fs l root caps ++ map cap_turn more.
Proof using Type.
  intros Hm. destruct (last_user_split l) as [Hn|(pre & t & post & -> & Ht & Hp)].
  - rewrite !prepare_none by (done || by apply list.Forall_app). apply map_app.
  - rewrite <- app_assoc. cbn [app]. rewrite !prepare_spec by (done || by apply list.Forall_app).
    rewrite <- map_app, <- app_assoc. done.
Qed.
End Turns.

(** Only the newest user message is read with its files. *)
Lemma prepare_ext fs fs' root caps l :
  (forall content, newest_user l = Some content ->
     expand_mentions fs' content root (cap_inline_file caps) = expand_mentions fs content root (cap_inline_file caps)) ->
  prepare_turns fs' l root caps = prepare_turns fs l root caps.
Proof.
  intros He. destruct (last_user_split l) as [Hn|(pre & t & post & -> & Ht & Hp)]; [by rewrite !prepare_none|].
  rewrite !prepare_spec by done. destruct t as [content ts| | | | |]; try done. cbn [expand_turn].
  by rewrite (He content (newest_user_split _ _ _ _ Hp)).
Qed.

Section Projected.
Context `{JsonApi}.

Lemma project_app l more sp :
  Forall (fun t => is_compaction t = false /\ is_goal t = false) more ->
  project_with (l ++ more) sp = project_with l sp ++ msgs_of more.
Proof.
  intros Hm. apply list.Forall_and in Hm as [Hc Hg]. unfold project_with.
  assert (active_start (l ++ more) = active_start l) as ->.
  { unfold active_start. by rewrite rposition_app, (proj2 (rposition_None _ _) Hc). }
  assert (last_goal (l ++ more) = last_goal l) as ->.
  { unfold last_goal. rewrite rposition_app, (proj2 (rposition_None _ _) Hg).
    destruct (rposition is_goal l) as [n|] eqn:E; [|done]. apply rposition_lookup in E as (t & Ht & _).
    by rewrite Ht, (lookup_app_l_Some _ _ _ _ Ht). }
  assert (active_start l <= length l)%nat as Hs.
  { unfold active_start. destruct (rposition is_compaction l) as [n|] eqn:E; [|cbn; lia].
    apply rposition_lookup in E as (t & Ht & _). apply lookup_lt_Some in Ht. cbn. lia. }
  cbv zeta. by rewrite drop_app_le, fold_left_app, fold_project by done.
Qed.

Lemma cap_turn_notes caps t : is_compaction (cap_turn caps t) = is_compaction t /\ is_goal (cap_turn caps t) = is_goal t.
Proof. unfold cap_turn. destruct (_ =? 0); by destruct t. Qed.

(** What a turn list grows by while no new user message comes. *)
Definition same_turn (t : Turn) : Prop := is_user t = false /\ is_compaction t = false /\ is_goal t = false.

Lemma assemble_app fs a turns more :
  Forall same_turn more ->
  ctx_assemble fs a (turns ++ more) = ctx_assemble fs a turns ++ msgs_of (map (cap_turn (ca_caps a)) more).
Proof.
  intros Hm. unfold ctx_assemble. cbv zeta. rewrite prepare_app.
  - apply project_app. apply List.Forall_map. eapply list.Forall_impl; [exact Hm|]. intros t (_ & Hc & Hg).
    destruct (cap_turn_notes (ca_caps a) t) as [E1 E2]. cbn. by rewrite E1, E2.
  - eapply list.Forall_impl; [exact Hm|]. by intros t [? _].
Qed.

Lemma length_omap_le {A B} (f : A -> option B) (l : list A) : (length (omap f l) <= length l)%nat.
Proof. induction l as [|x l IH]; [done|]. cbn. destruct (f x); cbn; lia. Qed.

Lemma assembled_blocks_app to_bytes sha256 a b :
  assembled_blocks to_bytes sha256 (a ++ b) = assembled_blocks to_bytes sha256 a ++ assembled_blocks to_bytes sha256 b.
Proof. unfold assembled_blocks. by rewrite omap_app, map_app. Qed.

(** The key of a message list is the key of its blocks. *)
Lemma assembled_key_blocks to_bytes sha256 xof t msgs :
  assembled_key to_bytes sha256 xof t msgs
  = context_key (context_run xof sha256 t (map OpAdd (assembled_blocks to_bytes sha256 msgs))).
Proof.
  unfold assembled_key, assembled_blocks, context_run. f_equal. generalize context_new as set.
  induction msgs as [|m msgs IH]; intros set; [done|]. cbn [fold_left omap list_omap]. rewrite IH.
  destruct (to_bytes m) as [b|]; done.
Qed.
End Projected.

(** ** Properties *)

(** Mention expansion, character by character.  The text comes back
    whole, in order, with a file block behind every mention and nowhere else:
    a mention is an at sign at the start of a line, after a space or right
    after another at sign, with the characters up to the next white space. *)
Theorem expand_mentions_spec fs root cap text :
  expand_mentions fs text root cap = expand_spec fs root cap None None text.
Proof. apply expand_mentions_eq. Qed.

(** C33: A mention reads below the workspace root only, where no link leads out
    of it.  Every path a mention opens extends the root by components without
    a [..]; so if what lies below the root leads, links followed, to files
    below the directory [real], then two file systems with the same links
    that agree on the files below [real] give the same expansion of every
    text.  (A link that leads out is followed: [mention_follows_link].) *)
Theorem mentions_contained fs1 fs2 root real cap text :
  root <> [] ->
  (forall p, inside root p -> fs_real fs1 p = fs_real fs2 p) ->
  (forall p r, inside root p -> fs_real fs1 p = Some r -> inside real r) ->
  (forall r, inside real r -> fs_bytes fs1 r = fs_bytes fs2 r) ->
  expand_mentions fs1 text root cap = expand_mentions fs2 text root cap.
Proof.
  intros Hr Hlinks Hin Hfs. rewrite !expand_mentions_eq. apply expand_spec_ext. intros tok. apply inline_file_inside; [done|].
  intros p Hp. unfold fs_open_read. rewrite <- Hlinks by done. destruct (fs_real fs1 p) as [r|] eqn:E; [|done]. cbn. eauto.
Qed.

Lemma mentions_contained_witness :
  let link p := if str_eqb p (lit "/w/b") then Some (lit "/w/a.txt") else if str_eqb p (lit "/w/a.txt") then Some p
                else if str_eqb p (lit "/etc/shadow") then Some p else None in
  let fs1 := mk_fs link (fun p => if str_eqb p (lit "/w/a.txt") then Some [104; 105] else if str_eqb p (lit "/etc/shadow") then Some [120] else None) in
  let fs2 := mk_fs link (fun p => if str_eqb p (lit "/w/a.txt") then Some [104; 105] else None) in
  expand_mentions fs1 (lit "see @b @../etc/shadow @/etc/shadow") (lit "/w") 0
  = expand_mentions fs2 (lit "see @b @../etc/shadow @/etc/shadow") (lit "/w") 0.
Proof.
  intros link fs1 fs2. assert (forall p, inside (lit "/w") p -> str_eqb p (lit "/etc/shadow") = false) as Hout.
  { intros p (l & Hl & _). destruct (str_eqb p (lit "/etc/shadow")) eqn:E; [|done].
    apply str_eqb_eq in E as ->. vm_compute in Hl. discriminate Hl. }
  assert (inside (lit "/w") (lit "/w/a.txt")) as Ha.
  { exists [CNormal (lit "a.txt")]. split; [reflexivity|]. by intros ?%list_elem_of_singleton. }
  apply (mentions_contained fs1 fs2 (lit "/w") (lit "/w")); [done|done| |].
  - intros p r Hp. cbn [fs1 fs_real]. unfold link. rewrite (Hout p Hp).
    destruct (str_eqb p (lit "/w/b")); [by intros [= <-]|]. destruct (str_eqb p (lit "/w/a.txt")) eqn:E; [|done].
    apply str_eqb_eq in E as ->. by intros [= <-].
  - intros r Hr. cbn [fs1 fs2 fs_bytes]. by rewrite (Hout r Hr).
Defined.

(** A link below the root that leads out of it is followed: the file it names
    is sent to the model. *)
Lemma mention_follows_link :
  let fs := mk_fs (fun p => if str_eqb p (lit "/w/link") then Some (lit "/etc/passwd") else Some p)
                  (fun p => if str_eqb p (lit "/etc/passwd") then Some (lit "root") else None) in
  expand_mentions fs (lit "see @link") (lit "/w") 0 = lit "see @link" ++ [10] ++ fence ++ [10] ++ lit "root" ++ [10] ++ fence ++ [10].
Proof. reflexivity. Qed.

(** C32: Between two user messages a request extends the one before.  Append
    turns that are not user messages (nor compaction or goal notes): unless
    the files that the newest user message mentions changed in between, the
    next request has the messages of the one before and those of the new
    turns after them, and the prefix fingerprint is extended by the monoid
    operation with that of the new messages.  (Otherwise a message already
    sent changes: [sent_message_changes].) *)
Theorem requests_extend `{JsonApi} fs fs' (a : ContextAssembler) (turns more : list Turn)
    (to_bytes : WireMessage -> option (list Z)) (sha256 : list Z -> list Z) :
  Forall same_turn more ->
  (let expand f text := expand_mentions f text (env_cwd (ca_env a)) (cap_inline_file (ca_caps a)) in
   forall content, newest_user turns = Some content -> expand fs' content = expand fs content) ->
  let new := msgs_of (map (cap_turn (ca_caps a)) more) in
  ctx_assemble fs' a (turns ++ more) = ctx_assemble fs a turns ++ new
  /\ (length_z (ctx_assemble fs a turns ++ new) < 2 ^ 64 ->
      prefix_fingerprint fs' to_bytes sha256 a (turns ++ more)
      = Some (m_op (from_blocks (assembled_blocks to_bytes sha256 (ctx_assemble fs a turns)))
                (from_blocks (assembled_blocks to_bytes sha256 new)))).
Proof.
  intros Hm Hex new. assert (ctx_assemble fs' a (turns ++ more) = ctx_assemble fs a turns ++ new) as E.
  { rewrite (assemble_app fs' a turns more Hm). unfold new. f_equal. unfold ctx_assemble. cbv zeta. f_equal. by apply prepare_ext. }
  split; [done|]. intros Hl.
  unfold prefix_fingerprint. rewrite E, assembled_blocks_app. f_equal. apply from_blocks_app.
  unfold assembled_blocks, length_z in *. rewrite !length_map. rewrite length_app in Hl.
  pose proof (length_omap_le to_bytes (ctx_assemble fs a turns)). pose proof (length_omap_le to_bytes new). fold new in Hl. lia.
Qed.

Lemma requests_extend_witness :
  let fs := plain_fs (fun p => if str_eqb p (lit "/w/a") then Some [104; 105] else None) in
  let fs' := plain_fs (fun p => if str_eqb p (lit "/w/a") then Some [104; 105] else Some [1]) in
  let a := with_caps (with_system_prompt (mk_env (lit "/w") [] [] None) [1]) (mk_caps 0 3) in
  let turns := [TUser (lit "see @a") 0] in
  let more := [TAssistant [] None [mk_tool_call [9] [8] [7]] None None None; TToolResult [9] [8] (ROk [1; 2; 3; 4] false) 0] in
  ctx_assemble (H := Tree.tree_json) fs' a (turns ++ more)
  = ctx_assemble (H := Tree.tree_json) fs a turns ++ msgs_of (H := Tree.tree_json) (map (cap_turn (ca_caps a)) more).
Proof.
  intros fs fs' a turns more. apply (requests_extend (H := Tree.tree_json) fs fs' a turns more (fun _ => None) id).
  - unfold more. repeat constructor.
  - intros expand content [= <-]. reflexivity.
Defined.

(** Across them it does not.  A message with a mention is sent expanded
    while it is the newest user message and bare afterwards, and the file is
    read again for every request: a later user message, or a later edit of the
    file, changes a message that was already sent, so the earlier request is
    no longer a prefix of the next one. *)
Theorem sent_message_changes `{JsonApi} :
  let fs1 := plain_fs (fun p => if str_eqb p (lit "/w/a") then Some [104; 105] else None) in
  let fs2 := plain_fs (fun p => if str_eqb p (lit "/w/a") then Some [104; 111] else None) in
  let a := with_system_prompt (mk_env (lit "/w") [] [] None) (lit "p") in
  let first := [TUser (lit "see @a") 0] in
  let more := [TAssistant (lit "ok") None [] None None None; TUser (lit "thanks") 1] in
  ~ (exists rest, ctx_assemble fs1 a (first ++ more) = ctx_assemble fs1 a first ++ rest)
  /\ ctx_assemble fs2 a first <> ctx_assemble fs1 a first.
Proof.
  intros fs1 fs2 a first more.
  assert (ctx_assemble fs1 a first = [WSystem (lit "p"); WUser (UserText (lit "see @a" ++ [10] ++ fence ++ [10; 104; 105; 10] ++ fence ++ [10]))])
    as E1 by reflexivity.
  assert (ctx_assemble fs2 a first = [WSystem (lit "p"); WUser (UserText (lit "see @a" ++ [10] ++ fence ++ [10; 104; 111; 10] ++ fence ++ [10]))])
    as E2 by reflexivity.
  assert (ctx_assemble fs1 a (first ++ more) = [WSystem (lit "p"); WUser (UserText (lit "see @a")); WAssistant (Some (lit "ok")) None []; WUser (UserText (lit "thanks"))])
    as E3 by reflexivity.
  rewrite E1, E2, E3. split; [intros [rest Hr]; discriminate Hr|discriminate].
Qed.

(** ** Assembly and the answer invariant *)

Section Answers.
Context `{JsonApi}.

Definition keeps_calls (f : Turn -> Turn) : Prop :=
  forall t, calls_of (f t) = calls_of t /\ is_result (f t) = is_result t /\ result_id (f t) = result_id t.

Lemma answered_map f l : keeps_calls f -> answered l -> answered (map f l).
Proof.
  intros Hf. induction 1 as [|t l Hc Hr _ IH|t results l Hc Hr Hids _ IH]; cbn [map]; [constructor| |].
  - destruct (Hf t) as (E1 & E2 & _). apply answered_plain; congruence.
  - rewrite map_app. destruct (Hf t) as (E1 & _ & _). apply answered_batch; [congruence| | |done].
    + apply List.Forall_map. eapply list.Forall_impl; [exact Hr|]. intros r Hx. destruct (Hf r) as (_ & E & _). congruence.
    + rewrite E1, map_map, <- Hids. f_equal. apply map_ext. intros r. apply Hf.
Qed.

Lemma cap_turn_keeps caps : keeps_calls (cap_turn caps).
Proof. intros t. unfold cap_turn. destruct (_ =? 0); by destruct t. Qed.

Lemma answered_expand_last fs root caps pre t post :
  is_user t = true -> answered (pre ++ t :: post) -> answered (pre ++ expand_turn fs root caps t :: post).
Proof.
  intros Ht Ha. remember (pre ++ t :: post) as l eqn:E. revert pre E.
  induction Ha as [|x l Hc Hr Hl IH|x results l Hc Hr Hids Hl IH]; intros pre E; [by destruct pre| |].
  - destruct pre as [|y pre]; injection E as <- E; cbn [app].
    + subst. apply answered_plain; [by destruct x|by destruct x|done].
    + apply answered_plain; auto.
  - destruct pre as [|y pre]; injection E as <- E; [by destruct x|]. cbn [app].
    apply app_eq_inv in E as [(k & -> & Ek)|(k & -> & ->)].
    + destruct k as [|z k]; cbn in Ek.
      * rewrite app_nil_r in *. subst. apply answered_batch; auto. by apply (IH []).
      * injection Ek as <- ->. apply list.Forall_app in Hr as [_ Hr]. apply list.Forall_cons in Hr as [Hr _]. by destruct t.
    + rewrite <- app_assoc. apply answered_batch; auto.
Qed.

Lemma prepare_answered fs root caps l : answered l -> answered (prepare_turns fs l root caps).
Proof.
  intros Hl. destruct (last_user_split l) as [Hn|(pre & t & post & -> & Ht & Hp)].
  - rewrite prepare_none by done. by apply answered_map; [apply cap_turn_keeps|].
  - rewrite prepare_spec by done. apply answered_map; [apply cap_turn_keeps|]. by apply answered_expand_last.
Qed.
End Answers.

(** Assembly keeps the protocol: whatever files the mentions name and
    whatever the caps are, the request assembled from a log that answers its
    tool calls passes the check the loop runs before sending. *)
Theorem assemble_answers `{JsonApi} fs a turns :
  answered turns -> verify_invariant (ctx_assemble fs a turns) = Ok tt.
Proof. intros Ha. by apply wire_answered_verify, project_wire, prepare_answered. Qed.

Lemma assemble_answers_witness :
  verify_invariant (ctx_assemble (H := Tree.tree_json) (plain_fs (fun _ => Some [104])) (with_system_prompt (mk_env (lit "/w") [] [] None) []) sample_log)
  = Ok tt.
Proof. apply (assemble_answers (H := Tree.tree_json)). apply sample_log_answered. Defined.
