(* ===== verification/EditText.v ===== *)
(** The text of an edit (src/crates/rc-tools/src/{edit,append,util}.rs): line
    endings, exact and near matches, the messages. *)

From Stdlib Require Import QArith.
From S2P Require Import Prelude Text.
#[local] Open Scope Z_scope.

(** ** Line endings *)

Definition CRLF : str := [13; 10].

(** [preserve_line_endings] *)
Definition preserve_line_endings (old : option str) (new : str) : str :=
  match old with
  | None => if ends_with new [10] then new else new ++ [10]
  | Some old =>
      let crlf := contains old CRLF in
      let old_trailing := ends_with old [10] in
      let s := replace new CRLF [10] in
      let s := if crlf then replace s [10] CRLF else s in
      let trailing := ends_with s [10] in
      if old_trailing && negb trailing then s ++ (if crlf then CRLF else [10])
      else if negb old_trailing && trailing then
        if crlf && ends_with s CRLF then take (length s - 2) s
        else if ends_with s [10] then take (length s - 1) s else s
      else s
  end.

(** [normalize_chunk] *)
Definition normalize_chunk (old : option str) (chunk : str) : str :=
  let normalized := replace chunk CRLF [10] in
  let normalized :=
    match old with
    | Some contents => if contains contents CRLF then replace normalized [10] CRLF else normalized
    | None => normalized
    end in
  if negb (bool_decide (is_Some old)) && negb (ends_with normalized [10]) then normalized ++ [10] else normalized.

(** ** Text of an edit *)

(** [occurrence_lines]: the line, from 1, of each occurrence. *)
Definition occurrence_lines (content needle : str) : list Z :=
  map (fun off => Z.of_nat (count_matches (take off content) [10]) + 1) (match_indices content needle).

(** [snippet_around] *)
Definition numbered (start : nat) (l : list str) : str :=
  concat (map (fun p => pad_left 6 (show_z (Z.of_nat p.1)) ++ [9] ++ p.2 ++ [10]) (zip (seq (start + 1) (length l)) l)).
Definition snippet_around (content needle : str) (ctx : nat) : str :=
  let off := match find_sub content needle with
             | Some o => Some o
             | None => find_sub content (replace needle [10] CRLF)
             end in
  let ls := lines content in
  let target := match off with Some o => count_matches (take o content) [10] | None => 0%nat end in
  let start := (target - ctx)%nat in
  let end_ := Nat.min (target + ctx + 1) (length ls) in
  numbered start (take (end_ - start) (drop start ls)).

Section Similarity.
(** [similar::TextDiff::from_chars(..).ratio()], an [f32], as the rational it
    denotes; its rendering as a percentage; [{:?}] of a string. *)
Context (ratio : str -> str -> Q) (percent : Q -> str) (debug : str -> str).

(** 0.97 as an [f32]. *)
Definition NEAR_MATCH_THRESHOLD : Q := 4068475 # 4194304.

(** [unique_near_line_match]: the line, its number from 1 and its ratio. *)
Definition near_candidates (content needle : str) : list (str * Z * Q) :=
  omap (fun p : nat * str =>
    let r := ratio (normalize_whitespace p.2) needle in
    if Qle_bool NEAR_MATCH_THRESHOLD r then Some (p.2, Z.of_nat p.1 + 1, r) else None)
    (zip (seq 0 (length (lines content))) (lines content)).
Definition unique_near_line_match (content needle : str) : option (str * Z * Q) :=
  if contains_char needle 13 || contains_char needle 10 || is_nil (trim needle) then None
  else
    match near_candidates content (normalize_whitespace needle) with
    | [one] => Some one
    | _ => None
    end.

(** [fuzzy_hint]; 0.6 is an [f64] here. *)
Definition best_line (content nneedle : str) : option (Q * Z * str) :=
  fold_left (fun best (p : nat * str) =>
    let r := ratio (normalize_whitespace p.2) nneedle in
    if match best with None => true | Some (b, _, _) => negb (Qle_bool r b) end
    then Some (r, Z.of_nat p.1 + 1, p.2) else best)
    (zip (seq 0 (length (lines content))) (lines content)) None.
Definition fuzzy_hint (content needle : str) : str :=
  let none := lit "no close match found " ++ [8212] ++ lit " re-read the file to see the exact contents" in
  match best_line content (normalize_whitespace needle) with
  | Some (r, lineno, text) =>
      if Qle_bool (5404319552844595 # 9007199254740992) r
      then lit "closest match is line " ++ show_z lineno ++ lit " (similarity " ++ percent r ++ lit "%): " ++ debug text
           ++ [32; 8212] ++ lit " check exact whitespace/indentation"
      else none
  | None => none
  end.

(** What an edit of a text comes to: an error message, or the new text and
    the note of a near match. *)
Inductive EditPlan := PlanError (message : str) | PlanText (new_content : str) (note : option str).

(** The CRLF retry: the string searched for and how often it occurs. *)
Definition crlf_retry (old_content in_old : str) : str * nat :=
  let count := count_matches old_content in_old in
  if (count =? 0)%nat && contains old_content CRLF then
    let crlf := replace in_old [10] CRLF in
    let c := count_matches old_content crlf in
    if (0 <? c)%nat then (crlf, c) else (in_old, count)
  else (in_old, count).

(** The body of the handler between reading the file and writing it; [shown]
    is the displayed path. *)
Definition edit_text (shown old_content in_old in_new : str) (replace_all : bool) : EditPlan :=
  let '(old_string, count) := crlf_retry old_content in_old in
  let '(old_string, count, note) :=
    if (count =? 0)%nat then
      match unique_near_line_match old_content in_old with
      | Some (candidate, line, r) =>
          (candidate, 1%nat, Some (lit "applied unique near-match at line " ++ show_z line ++ lit " (" ++ percent r ++ lit "% similar)"))
      | None => (old_string, count, None)
      end
    else (old_string, count, None) in
  if (count =? 0)%nat then
    PlanError (lit "old_string not found in " ++ shown ++ lit ". " ++ fuzzy_hint old_content in_old)
  else if (1 <? count)%nat && negb replace_all then
    PlanError (lit "old_string appears " ++ show_z (Z.of_nat count) ++ lit " times (lines: "
               ++ join [44] (map show_z (occurrence_lines old_content old_string))
               ++ lit ") " ++ [8212] ++ lit " make it unique or set replace_all=true")
  else
    let new_content := if replace_all then replace old_content old_string in_new
                       else replace_first old_content old_string in_new in
    PlanText (preserve_line_endings (Some old_content) new_content) note.
End Similarity.


(** ** Line endings as an encoding *)

(** The text with carriage returns before its line feeds. *)
Definition crlf_char (c : char) : str := if c =? 10 then CRLF else [c].
Definition to_crlf (s : str) : str := concat (map crlf_char s).

Definition plan_text (p : EditPlan) : option str :=
  match p with PlanText s _ => Some s | PlanError _ => None end.

Lemma to_crlf_app a b : to_crlf (a ++ b) = to_crlf a ++ to_crlf b.
Proof. unfold to_crlf. by rewrite map_app, concat_app. Qed.

Lemma to_crlf_id s : 10 ∉ s -> to_crlf s = s.
Proof.
  unfold to_crlf. induction s as [|c s IH]; intros H; [done|]. cbn. rewrite not_elem_of_cons in H. destruct H as [H1 H2].
  unfold crlf_char at 1. destruct (Z.eqb_spec c 10); [by subst|]. cbn. by rewrite IH.
Qed.

Lemma starts_with_cons c s d p : starts_with (c :: s) (d :: p) = (c =? d) && starts_with s p.
Proof.
  destruct (Z.eqb_spec c d) as [->|Hn]; cbn [andb].
  - destruct (starts_with s p) eqn:E; [apply starts_with_spec in E as [r ->]; by apply starts_with_spec; exists r|].
    destruct (starts_with (d :: s) (d :: p)) eqn:F; [|done]. apply starts_with_spec in F as [r [= ->]].
    assert (starts_with (p ++ r) p = true) by (apply starts_with_spec; eauto). congruence.
  - destruct (starts_with (c :: s) (d :: p)) eqn:F; [|done]. apply starts_with_spec in F as [r [= -> _]]. done.
Qed.

Lemma starts_with_nil s : starts_with s [] = true.
Proof. apply starts_with_spec. eauto. Qed.

(** The standard library's replacement of line feeds is the encoding. *)
Lemma replace_lf s : replace s [10] CRLF = to_crlf s.
Proof.
  unfold replace, to_crlf. induction s as [|c s IH]; [done|]. cbn [replace_from map concat].
  rewrite starts_with_cons, starts_with_nil, andb_true_r. unfold crlf_char at 1.
  destruct (Z.eqb_spec c 10); cbn [is_nil app]; by rewrite <- IH.
Qed.

(** Replacing CRLF by LF decodes it, and leaves text without CR alone. *)
Lemma dec_lf s : replace (CRLF ++ s) CRLF [10] = 10 :: replace s CRLF [10].
Proof. reflexivity. Qed.

Lemma dec_char c s : c <> 13 -> replace (c :: s) CRLF [10] = c :: replace s CRLF [10].
Proof.
  intros Hc. unfold replace. cbn [replace_from]. unfold CRLF at 1. rewrite starts_with_cons.
  by destruct (Z.eqb_spec c 13).
Qed.

Lemma dec_app x y : 13 ∉ x -> replace (x ++ y) CRLF [10] = x ++ replace y CRLF [10].
Proof.
  induction x as [|c x IH]; intros H; [done|]. rewrite not_elem_of_cons in H. destruct H as [H1 H2].
  cbn [app]. rewrite dec_char, IH by done. done.
Qed.

Lemma dec_to_crlf x y : 13 ∉ x -> replace (to_crlf x ++ y) CRLF [10] = x ++ replace y CRLF [10].
Proof.
  induction x as [|c x IH]; intros H; [done|]. rewrite not_elem_of_cons in H. destruct H as [H1 H2].
  assert (to_crlf (c :: x) = crlf_char c ++ to_crlf x) as -> by done. unfold crlf_char. rewrite <- app_assoc.
  destruct (Z.eqb_spec c 10) as [->|]; [rewrite dec_lf, IH by done; done|].
  cbn [app]. rewrite dec_char, IH by done. done.
Qed.

Lemma starts_with_to_crlf s : forall p, 13 ∉ s -> 13 ∉ p -> starts_with (to_crlf s) (to_crlf p) = starts_with s p.
Proof.
  induction s as [|c s IH]; intros [|d p] Hs Hp; rewrite ?starts_with_nil; [done| |done|].
  - cbn. unfold crlf_char at 1. by destruct (d =? 10).
  - rewrite not_elem_of_cons in Hs, Hp. destruct Hs as [Hc Hs], Hp as [Hd Hp]. rewrite starts_with_cons, <- IH by done.
    unfold to_crlf. cbn [map concat]. unfold crlf_char at 1 3.
    destruct (Z.eqb_spec c 10) as [->|], (Z.eqb_spec d 10) as [->|]; cbn [app CRLF]; rewrite !starts_with_cons.
    + done.
    + destruct (Z.eqb_spec 13 d); [congruence|]. by destruct (Z.eqb_spec 10 d).
    + destruct (Z.eqb_spec c 13); [congruence|]. by destruct (Z.eqb_spec c 10).
    + done.
Qed.

(** Searching an encoded text for an encoded pattern finds the same place. *)
Lemma find_to_crlf p s : p <> [] -> 13 ∉ p -> 13 ∉ s ->
  find_sub (to_crlf s) (to_crlf p) = (fun n => length (to_crlf (take n s))) <$> find_sub s p.
Proof.
  intros Hp Hcp. induction s as [|c s IH]; intros Hs.
  - destruct p as [|d p]; [done|]. cbn [find_sub]. rewrite <- (starts_with_to_crlf [] (d :: p)) by done.
    cbn. by destruct (starts_with _ _).
  - cbn [find_sub]. rewrite <- (starts_with_to_crlf (c :: s) p) by done.
    rewrite not_elem_of_cons in Hs. destruct Hs as [Hc Hs].
    assert (to_crlf (c :: s) = crlf_char c ++ to_crlf s) as -> by done. unfold crlf_char. destruct (Z.eqb_spec c 10) as [->|].
    + cbn [CRLF app find_sub]. destruct (starts_with (13 :: 10 :: to_crlf s) (to_crlf p)) eqn:E; [done|].
      assert (starts_with (10 :: to_crlf s) (to_crlf p) = false) as ->.
      { destruct p as [|d p]; [done|]. rewrite not_elem_of_cons in Hcp. cbn. unfold crlf_char at 1.
        destruct (Z.eqb_spec d 10); cbn [app CRLF]; rewrite starts_with_cons; [done|]. by destruct (Z.eqb_spec 10 d). }
      rewrite IH by done. by destruct (find_sub s p).
    + cbn [app find_sub]. destruct (starts_with (c :: to_crlf s) (to_crlf p)) eqn:E; [done|]. rewrite IH by done.
      destruct (find_sub s p) as [m|]; [|done].
      assert (to_crlf (take (S m) (c :: s)) = crlf_char c ++ to_crlf (take m s)) as H by done.
      unfold crlf_char in H. destruct (Z.eqb_spec c 10); [done|]. cbn [fmap option_fmap option_map]. by rewrite H.
Qed.

Lemma to_crlf_nil p : to_crlf p = [] <-> p = [].
Proof. split; [|by intros ->]. destruct p as [|c p]; [done|]. cbn. unfold crlf_char. by destruct (c =? 10). Qed.

Lemma find_to_crlf_split p a b : p <> [] -> 13 ∉ a ++ p ++ b -> find_sub (a ++ p ++ b) p = Some (length a) ->
  find_sub (to_crlf a ++ to_crlf p ++ to_crlf b) (to_crlf p) = Some (length (to_crlf a)).
Proof.
  intros Hp Hs E. rewrite <- !to_crlf_app, find_to_crlf, E by (done || set_solver). cbn. by rewrite take_app_length.
Qed.

Lemma count_to_crlf p s : p <> [] -> 13 ∉ p -> 13 ∉ s -> count_matches (to_crlf s) (to_crlf p) = count_matches s p.
Proof.
  intros Hp Hcp. assert (to_crlf p <> []) as Hp' by (by rewrite to_crlf_nil).
  revert s. induct_matches Hp; [intros s E Hs|intros a b E IH Hs].
  - rewrite (count_step _ (to_crlf s)), find_to_crlf, E, (count_step _ s), E by done. done.
  - rewrite (count_step _ (to_crlf _)), (count_step _ (a ++ p ++ b)), E, !to_crlf_app by done.
    rewrite find_to_crlf_split, !drop_match by done. rewrite IH by set_solver. done.
Qed.

(** Replacing in the encoded text, and decoding, is replacing in the text. *)
Lemma replace_to_crlf p s r : p <> [] -> 13 ∉ p -> 13 ∉ s -> 13 ∉ r ->
  replace (replace (to_crlf s) (to_crlf p) r) CRLF [10] = replace s p r.
Proof.
  intros Hp Hcp Hs Hr. assert (to_crlf p <> []) as Hp' by (by rewrite to_crlf_nil). revert Hs.
  revert s. induct_matches Hp; [intros s E Hs|intros a b E IH Hs].
  - rewrite (replace_step (to_crlf p)), find_to_crlf, E, (replace_step p), E by done. cbn [fmap option_fmap option_map].
    rewrite <- (app_nil_r (to_crlf s)), dec_to_crlf by done. apply app_nil_r.
  - rewrite (replace_step (to_crlf p)), (replace_step p _ (a ++ p ++ b)), E, !to_crlf_app by done.
    rewrite find_to_crlf_split, !drop_match, !take_app_length by done.
    rewrite dec_to_crlf, dec_app, IH by set_solver. done.
Qed.

Lemma replace_first_to_crlf p s r : p <> [] -> 13 ∉ p -> 13 ∉ s -> 13 ∉ r ->
  replace (replace_first (to_crlf s) (to_crlf p) r) CRLF [10] = replace_first s p r.
Proof.
  intros Hp Hcp Hs Hr. unfold replace_first. rewrite find_to_crlf by done. destruct (find_sub s p) as [n|] eqn:E; cbn [fmap option_fmap option_map].
  - destruct (find_sub_split _ _ _ E) as (a & b & -> & <-). rewrite !take_app_length, !to_crlf_app, !drop_match, take_app_length.
    rewrite dec_to_crlf, dec_app by set_solver. do 2 f_equal. rewrite <- (app_nil_r (to_crlf b)), dec_to_crlf by set_solver. apply app_nil_r.
  - rewrite <- (app_nil_r (to_crlf s)), dec_to_crlf by done. apply app_nil_r.
Qed.

Lemma lf_after_cr t : forall u z v, 13 ∉ t -> to_crlf t = u ++ z :: 10 :: v -> z = 13.
Proof.
  assert (forall t v, to_crlf t <> 10 :: v) as Hh.
  { intros [|c t'] v; [done|]. cbn. unfold crlf_char. destruct (Z.eqb_spec c 10); cbn; congruence. }
  induction t as [|c t IH]; intros u z v Ht E; [by destruct u|]. rewrite not_elem_of_cons in Ht. destruct Ht as [Hc Ht].
  assert (to_crlf (c :: t) = crlf_char c ++ to_crlf t) as Ec by done. rewrite Ec in E. unfold crlf_char in E.
  destruct (Z.eqb_spec c 10) as [->|]; cbn [CRLF app] in E.
  - destruct u as [|u1 [|u2 u]]; cbn in E; [congruence| |injection E as _ _ E; eauto].
    injection E as _ _ E. by apply Hh in E.
  - destruct u as [|u1 u]; cbn in E; injection E as _ E; [by apply Hh in E|eauto].
Qed.

(** A pattern with a line feed, not at its start, and no carriage return does
    not occur in encoded text. *)
Lemma no_bare_lf t old c p : 13 ∉ t -> 13 ∉ old -> old = c :: p -> c <> 10 -> 10 ∈ old -> find_sub (to_crlf t) old = None.
Proof.
  intros Ht Ho -> Hc Hin. apply elem_of_cons in Hin as [?|Hin]; [congruence|].
  destruct (find_sub (to_crlf t) (c :: p)) as [n|] eqn:E; [|done]. exfalso.
  destruct (find_sub_split _ _ _ E) as (a & b & Hs & _). apply list_elem_of_split in Hin as (x & y & ->).
  destruct (exists_last (l := c :: x) ltac:(done)) as (x' & z & Hx).
  assert (z = 13) as ->.
  { eapply (lf_after_cr t (a ++ x') z (y ++ b) Ht). rewrite Hs. change (c :: x ++ 10 :: y) with ((c :: x) ++ 10 :: y).
    rewrite Hx, <- !app_assoc. done. }
  apply Ho. change (c :: x ++ 10 :: y) with ((c :: x) ++ 10 :: y). rewrite Hx. set_solver.
Qed.

Lemma contains_crlf_enc t : 10 ∈ t -> contains (to_crlf t) CRLF = true.
Proof.
  intros (x & y & ->)%list_elem_of_split. apply contains_spec. exists (to_crlf x), (to_crlf y). by rewrite to_crlf_app.
Qed.

Lemma contains_crlf_no_cr t : 13 ∉ t -> contains t CRLF = false.
Proof.
  intros H. destruct (contains t CRLF) eqn:E; [|done]. apply contains_spec in E as (a & b & ->). exfalso. apply H. set_solver.
Qed.

Lemma ends_with_snoc s c d : ends_with (s ++ [c]) [d] = (c =? d).
Proof.
  destruct (Z.eqb_spec c d) as [->|Hn]; [apply ends_with_spec; eauto|].
  destruct (ends_with (s ++ [c]) [d]) eqn:E; [|done]. apply ends_with_spec in E as [r H]. apply app_inj_tail in H as [_ H]. done.
Qed.

Lemma ends_with_nil d p : ends_with [] (d :: p) = false.
Proof. destruct (ends_with [] (d :: p)) eqn:E; [|done]. apply ends_with_spec in E as [[|] ]; done. Qed.

Lemma ends_with_enc s : ends_with (to_crlf s) [10] = ends_with s [10].
Proof.
  destruct s as [|c s _] using rev_ind; [done|]. rewrite to_crlf_app, ends_with_snoc.
  assert (to_crlf [c] = crlf_char c) as -> by (unfold to_crlf; cbn; apply app_nil_r). unfold crlf_char.
  destruct (Z.eqb_spec c 10) as [->|Hn]; [|rewrite ends_with_snoc; by apply Z.eqb_neq].
  unfold CRLF. change [13; 10] with ([13] ++ [10]). rewrite app_assoc. apply ends_with_snoc.
Qed.

Lemma ends_with_enc_crlf s : ends_with s [10] = true -> ends_with (to_crlf s) CRLF = true /\ take (length (to_crlf s) - 2) (to_crlf s) = to_crlf (take (length s - 1) s).
Proof.
  intros [r ->]%ends_with_spec. rewrite to_crlf_app. split; [apply ends_with_spec; by exists (to_crlf r)|].
  rewrite !length_app. cbn [length to_crlf map concat crlf_char Z.eqb Pos.eqb app CRLF].
  rewrite !Nat.add_sub, !take_app_length. done.
Qed.

(** Keeping the line endings of an encoded file encodes what keeping those of
    the file gives. *)
Lemma preserve_enc t new' new :
  13 ∉ t -> 10 ∈ t -> 13 ∉ new -> replace new' CRLF [10] = new ->
  preserve_line_endings (Some (to_crlf t)) new' = to_crlf (preserve_line_endings (Some t) new).
Proof.
  intros Ht Hl Hn E. unfold preserve_line_endings. rewrite E, contains_crlf_enc, contains_crlf_no_cr, replace_lf, !ends_with_enc by done.
  assert (replace new CRLF [10] = new) as -> by (rewrite <- (app_nil_r new) at 1; rewrite dec_app by done; apply app_nil_r).
  destruct (ends_with t [10]), (ends_with new [10]) eqn:En; cbn [andb negb]; try done.
  - by rewrite to_crlf_app.
  - destruct (ends_with_enc_crlf new En) as [-> ->]. done.
Qed.

(** ** What an edit does *)

Lemma edit_found ratio percent debug shown content old new all s n :
  crlf_retry content old = (s, n) -> n <> 0%nat ->
  plan_text (edit_text ratio percent debug shown content old new all)
  = if (1 <? n)%nat && negb all then None
    else Some (preserve_line_endings (Some content) (if all then replace content s new else replace_first content s new)).
Proof.
  intros E Hn. unfold edit_text. rewrite E. destruct (Nat.eqb_spec n 0); [done|].
  destruct (Nat.eqb_spec n 0); [done|]. by destruct ((1 <? n)%nat && negb all).
Qed.

Lemma crlf_retry_direct content old : count_matches content old <> 0%nat -> crlf_retry content old = (old, count_matches content old).
Proof. intros H. unfold crlf_retry. by destruct (Nat.eqb_spec (count_matches content old) 0). Qed.

Lemma crlf_retry_enc t old c p : 13 ∉ t -> 13 ∉ old -> old = c :: p -> c <> 10 -> 10 ∈ t -> count_matches t old <> 0%nat ->
  crlf_retry (to_crlf t) old = (to_crlf old, count_matches t old).
Proof.
  intros Ht Ho Hold Hc Hl Hn. assert (old <> []) as Hne by (by subst).
  destruct (decide (10 ∈ old)) as [Hin|Hin].
  - unfold crlf_retry. rewrite (proj2 (count_zero old (to_crlf t) Hne)) by (eapply no_bare_lf; eauto).
    rewrite contains_crlf_enc, replace_lf, count_to_crlf by done. cbn. by destruct (count_matches t old).
  - rewrite <- (to_crlf_id old Hin) at 1. rewrite <- (count_to_crlf old t) by done. rewrite crlf_retry_direct; [done|].
    by rewrite count_to_crlf.
Qed.

Lemma replace_no_cr (r s p : str) : p <> [] -> 13 ∉ s -> 13 ∉ r -> 13 ∉ replace s p r /\ 13 ∉ replace_first s p r.
Proof.
  intros Hp Hs Hr. split.
  - revert s Hs. induct_matches Hp; [intros s E Hs|intros a b E IH Hs]; rewrite replace_step, E by done; [done|].
    rewrite take_app_length, drop_match. set_solver.
  - unfold replace_first. destruct (find_sub s p) as [n|] eqn:E; [|done].
    destruct (find_sub_split _ _ _ E) as (a & b & -> & <-). rewrite take_app_length, drop_match. set_solver.
Qed.

(** C17: plain line feeds in the strings do for a file with CRLF.  Take a text
    with plain line feeds, at least one, and an edit whose strings use plain
    line feeds, as the model writes them, where [old_string] occurs in the
    text and does not start with a line feed.  Then the edit of the CRLF form
    of the text is the CRLF form of the edit of the text: the same occurrences
    are found and replaced, the same edits are refused, and the result has
    CRLF line endings throughout.  (An [old_string] that starts with a line
    feed leaves a stray carriage return: [leading_newline_leaves_cr].) *)
Theorem edit_crlf_commutes ratio percent debug shown t old new all c p :
  13 ∉ t -> 13 ∉ old -> 13 ∉ new -> 10 ∈ t -> old = c :: p -> c <> 10 -> count_matches t old <> 0%nat ->
  plan_text (edit_text ratio percent debug shown (to_crlf t) old new all)
  = to_crlf <$> plan_text (edit_text ratio percent debug shown t old new all).
Proof.
  intros Ht Ho Hn Hl Hold Hc Hcount. assert (old <> []) as Hne by (by subst).
  rewrite (edit_found _ _ _ _ _ _ _ _ _ _ (crlf_retry_enc t old c p Ht Ho Hold Hc Hl Hcount)) by done.
  rewrite (edit_found _ _ _ _ _ _ _ _ _ _ (crlf_retry_direct t old Hcount)) by done.
  destruct ((1 <? count_matches t old)%nat && negb all); [done|]. cbn [fmap option_fmap option_map]. f_equal.
  destruct (replace_no_cr new t old Hne Ht Hn).
  destruct all; apply preserve_enc; auto using replace_to_crlf, replace_first_to_crlf.
Qed.

Lemma preserve_plain t s : 13 ∉ t -> 13 ∉ s -> ends_with s [10] = ends_with t [10] -> preserve_line_endings (Some t) s = s.
Proof.
  intros Ht Hs E. unfold preserve_line_endings. rewrite contains_crlf_no_cr by done.
  assert (replace s CRLF [10] = s) as -> by (rewrite <- (app_nil_r s) at 1; rewrite dec_app by done; apply app_nil_r).
  rewrite E. by destruct (ends_with t [10]).
Qed.

(** C21: an exact edit changes one occurrence and nothing else.  In a file
    with plain line feeds, with strings that keep the final newline as it is,
    let [a] be the text before the first occurrence of [old_string] and [b]
    the text after it, and let [replace_all] not be set.  If [old_string] does
    not occur in [b], the result is [a], [new_string] and [b], byte for byte;
    if it does, the edit is refused as ambiguous.  (Only an occurrence after
    the end of the first one counts: one that overlaps it is not seen,
    [overlapping_occurrences_pass].) *)
Theorem edit_replaces_one ratio percent debug shown a old b new :
  old <> [] -> 13 ∉ a ++ old ++ b -> 13 ∉ new -> find_sub (a ++ old ++ b) old = Some (length a) ->
  ends_with (a ++ new ++ b) [10] = ends_with (a ++ old ++ b) [10] ->
  plan_text (edit_text ratio percent debug shown (a ++ old ++ b) old new false)
  = if contains b old then None else Some (a ++ new ++ b).
Proof.
  intros Hne Hc Hn Hf He. pose proof (count_step old (a ++ old ++ b) Hne) as Hs. rewrite Hf, drop_match in Hs.
  rewrite (edit_found _ _ _ _ _ _ _ _ _ _ (crlf_retry_direct (a ++ old ++ b) old ltac:(lia))) by lia.
  rewrite Hs. pose proof (count_zero old b Hne) as Hz. unfold contains. destruct (find_sub b old) as [n|].
  - destruct (count_matches b old); [by specialize (proj1 Hz eq_refl)|done].
  - rewrite (proj2 Hz eq_refl). cbn [Nat.ltb Nat.leb andb]. rewrite replace_first_app by done. f_equal.
    apply preserve_plain; [done|set_solver|done].
Qed.

Lemma preserve_crlf_uniform t s : contains t CRLF = true -> exists u, preserve_line_endings (Some t) s = to_crlf u.
Proof.
  intros H. unfold preserve_line_endings. rewrite H, replace_lf, ends_with_enc. set (u := replace s CRLF [10]).
  destruct (ends_with t [10]), (ends_with u [10]) eqn:E; cbn [andb negb]; eauto.
  - exists (u ++ [10]). by rewrite to_crlf_app.
  - destruct (ends_with_enc_crlf u E) as [-> ->]. eauto.
Qed.

(** one CRLF in a file is enough for an edit to turn every line feed of
    the file into CRLF: whatever the edit replaced, and whatever line endings
    the lines away from it had, the text it writes has CRLF throughout. *)
Theorem edit_spreads_crlf ratio percent debug shown content old new all r :
  contains content CRLF = true ->
  plan_text (edit_text ratio percent debug shown content old new all) = Some r -> exists u, r = to_crlf u.
Proof.
  intros Hc. unfold edit_text. destruct (crlf_retry content old) as [s n].
  destruct (if (n =? 0)%nat then _ else _) as [[s' n'] note]. destruct (n' =? 0)%nat; [done|].
  destruct ((1 <? n')%nat && negb all); [done|]. intros [= <-]. by apply preserve_crlf_uniform.
Qed.

(** a near match may be applied to another line than the one reported.
    The candidate is a whole line, but its text is replaced where it first
    occurs, which may be inside an earlier line that was below the threshold:
    here the edit of [foo  bar] reports line 2 and changes line 1.  (The two
    similarities are those of the third-party ratio on these strings.) *)
Theorem near_match_wrong_line ratio percent debug shown :
  (ratio (lit "foo bar") (lit "foo bar") == 1)%Q -> (ratio (lit "xfoo bar") (lit "foo bar") == 14 # 15)%Q ->
  edit_text ratio percent debug shown (lit "xfoo bar" ++ [10] ++ lit "foo bar" ++ [10]) (lit "foo  bar") (lit "Z") false
  = PlanText (lit "xZ" ++ [10] ++ lit "foo bar" ++ [10])
      (Some (lit "applied unique near-match at line 2 (" ++ percent (ratio (lit "foo bar") (lit "foo bar")) ++ lit "% similar)")).
Proof.
  intros H1 H2. unfold edit_text. set (content := lit "xfoo bar" ++ _).
  assert (crlf_retry content (lit "foo  bar") = (lit "foo  bar", 0%nat)) as -> by reflexivity.
  assert (near_candidates ratio content (normalize_whitespace (lit "foo  bar"))
          = [(lit "foo bar", 2, ratio (lit "foo bar") (lit "foo bar"))]) as Hn.
  { unfold near_candidates. assert (lines content = [lit "xfoo bar"; lit "foo bar"]) as -> by reflexivity.
    change (normalize_whitespace (lit "foo  bar")) with (lit "foo bar"). cbn [length seq zip zip_with omap list_omap snd fst].
    change (normalize_whitespace (lit "foo bar")) with (lit "foo bar").
    change (normalize_whitespace (lit "xfoo bar")) with (lit "xfoo bar").
    destruct (Qle_bool NEAR_MATCH_THRESHOLD (ratio (lit "xfoo bar") (lit "foo bar"))) eqn:E.
    { apply Qle_bool_iff in E. rewrite H2 in E. vm_compute in E. by destruct E. }
    rewrite (proj2 (Qle_bool_iff _ _)); [done|]. rewrite H1. by vm_compute. }
  unfold unique_near_line_match. rewrite Hn. reflexivity.
Qed.

(** a pattern that starts with a line feed defeats the CRLF retry.  It
    already occurs in the CRLF file, after the carriage return, which the
    edit leaves behind: deleting a line end joins the lines in a file with
    plain line feeds, and leaves a stray carriage return in its CRLF form. *)
Theorem leading_newline_leaves_cr ratio percent debug shown :
  let text := lit "a" ++ [10] ++ lit "foo" ++ [10] in
  let edit content := plan_text (edit_text ratio percent debug shown content ([10] ++ lit "foo") (lit "bar") false) in
  edit text = Some (lit "abar" ++ [10]) /\ edit (to_crlf text) = Some (lit "a" ++ [13] ++ lit "bar" ++ CRLF).
Proof. split; reflexivity. Qed.

(** Matches are counted without overlap: an [old_string] that occurs twice,
    overlapping, passes the uniqueness check. *)
Lemma overlapping_occurrences_pass ratio percent debug shown :
  plan_text (edit_text ratio percent debug shown (lit "aaa" ++ [10]) (lit "aa") (lit "b") false) = Some (lit "ba" ++ [10]).
Proof. reflexivity. Qed.

(** ** Witnesses *)

Definition no_ratio (_ _ : str) : Q := 0%Q.
Definition no_percent (_ : Q) : str := [].
Definition quoted (s : str) : str := [34] ++ s ++ [34].

Lemma no_char_check c s : existsb (Z.eqb c) s = false -> c ∉ s.
Proof.
  intros H Hin. apply list_elem_of_In in Hin. assert (existsb (Z.eqb c) s = true); [|congruence].
  apply existsb_exists. exists c. by rewrite Z.eqb_refl.
Qed.

Lemma edit_crlf_commutes_witness :
  let t := lit "one" ++ [10] ++ lit "two" ++ [10] ++ lit "three" ++ [10] in
  let edit content := plan_text (edit_text no_ratio no_percent quoted (lit "f") content (lit "one" ++ [10] ++ lit "two") (lit "1" ++ [10] ++ lit "2") false) in
  edit (to_crlf t) = to_crlf <$> edit t /\ edit t = Some (lit "1" ++ [10] ++ lit "2" ++ [10] ++ lit "three" ++ [10]).
Proof.
  split; [|reflexivity].
  apply (edit_crlf_commutes no_ratio no_percent quoted (lit "f")
           (lit "one" ++ [10] ++ lit "two" ++ [10] ++ lit "three" ++ [10])
           (lit "one" ++ [10] ++ lit "two") (lit "1" ++ [10] ++ lit "2") false 111 (lit "ne" ++ [10] ++ lit "two"));
    try (by apply no_char_check); try done.
  apply elem_of_app. right. apply elem_of_app. left. by apply elem_of_cons; left.
Defined.

Lemma edit_replaces_one_witness :
  plan_text (edit_text no_ratio no_percent quoted (lit "f") (lit "a" ++ lit "lph" ++ lit "a" ++ [10]) (lit "lph") (lit "X") false)
  = Some (lit "aXa" ++ [10])
  /\ plan_text (edit_text no_ratio no_percent quoted (lit "f") ([] ++ lit "a" ++ lit " a" ++ [10]) (lit "a") (lit "X") false) = None.
Proof.
  split.
  - rewrite (edit_replaces_one no_ratio no_percent quoted (lit "f") (lit "a") (lit "lph") (lit "a" ++ [10]) (lit "X"));
      [reflexivity|done|by apply no_char_check|by apply no_char_check|reflexivity|reflexivity].
  - rewrite (edit_replaces_one no_ratio no_percent quoted (lit "f") [] (lit "a") (lit " a" ++ [10]) (lit "X"));
      [reflexivity|done|by apply no_char_check|by apply no_char_check|reflexivity|reflexivity].
Defined.

Lemma edit_spreads_crlf_witness :
  exists u, lit "a" ++ CRLF ++ lit "b" ++ CRLF ++ lit "d" = to_crlf u.
Proof.
  apply (edit_spreads_crlf no_ratio no_percent quoted (lit "f") (lit "a" ++ [10] ++ lit "b" ++ CRLF ++ lit "c") (lit "c") (lit "d") false);
    reflexivity.
Defined.

Lemma near_match_wrong_line_witness :
  plan_text (edit_text (fun a b => if str_eqb a b then 1%Q else (14 # 15)%Q) no_percent quoted (lit "f")
    (lit "xfoo bar" ++ [10] ++ lit "foo bar" ++ [10]) (lit "foo  bar") (lit "Z") false)
  = Some (lit "xZ" ++ [10] ++ lit "foo bar" ++ [10]).
Proof.
  rewrite (near_match_wrong_line (fun a b => if str_eqb a b then 1%Q else (14 # 15)%Q) no_percent quoted (lit "f")); reflexivity.
Defined.
