(* ===== verification/Tools.v ===== *)
(** The tools that change files (src/crates/rc-tools/src/{util,edit,write,
    append}.rs): the read-before-mutate check, exact-string edits, full
    writes, appends, each recorded in the rewind journal.

    A call is a function from its decoded input and the world to an outcome
    and the world after it.  The operating system's answers that the model
    does not keep (canonical paths, unreadable files, failures) and the
    third-party similarity ratio are parameters. *)

From Stdlib Require Import QArith.
From S2P Require Import Prelude Utf8 Text EditText Wire Cost Turn Journal PathLib PermPath.
#[local] Open Scope Z_scope.

(** The files with their modification times, the directories, the read
    registry, the journal and the present time. *)
Record ToolWorld := mk_tool_world {
  tw_host : Host;
  tw_mtimes : gmap str Z;
  tw_dirs : gset str;
  tw_registry : ReadRegistry;
  tw_journal : ChangeJournal;
  tw_clock : Z
}.

(** The part of [ToolCtx] that stays the same. *)
Record ToolCtx := mk_tool_ctx { tx_cwd : str; tx_allowed_roots : list str }.

(** An I/O error: whether it is NotFound, and its text. *)
Record FsError := mk_io { io_not_found : bool; io_text : str }.

(** ** The world *)

Section Tools.
Context (digest_hex : list Z -> str).
(** [canonicalize] in a world, why a file that exists cannot be read, why a
    directory cannot be made, why a write fails. *)
Context (canonicalize : ToolWorld -> str -> IoKind + str).
Context (unreadable : str -> option FsError) (mkdir_error : str -> option str) (write_error : str -> FsError).
Context (not_found_text invalid_utf8_text : str) (io_kind_text : IoKind -> str).
Context (ratio : str -> str -> Q) (percent : Q -> str) (debug : str -> str).

Definition set_registry (w : ToolWorld) (r : ReadRegistry) : ToolWorld :=
  mk_tool_world (tw_host w) (tw_mtimes w) (tw_dirs w) r (tw_journal w) (tw_clock w).
Definition set_dirs (w : ToolWorld) (d : gset str) : ToolWorld :=
  mk_tool_world (tw_host w) (tw_mtimes w) d (tw_registry w) (tw_journal w) (tw_clock w).

(** [std::fs::read], [read_to_string] *)
Definition fs_read (w : ToolWorld) (p : str) : FsError + list Z :=
  match h_files (tw_host w) !! p with
  | None => inl (mk_io true not_found_text)
  | Some b => match unreadable p with Some e => inl e | None => inr b end
  end.
Definition fs_read_to_string (w : ToolWorld) (p : str) : FsError + str :=
  match fs_read w p with
  | inl e => inl e
  | inr b => match from_utf8 b with Some s => inr s | None => inl (mk_io false invalid_utf8_text) end
  end.

Definition mtime_of (w : ToolWorld) (p : str) : option Z := tw_mtimes w !! p.
Definition exists_path (w : ToolWorld) (p : str) : bool :=
  bool_decide (is_Some (h_files (tw_host w) !! p)) || bool_decide (p ∈ tw_dirs w).

(** The bytes a registry entry is made of: an unreadable file counts as empty. *)
Definition bytes_or_empty (w : ToolWorld) (p : str) : list Z :=
  match fs_read w p with inr b => b | inl _ => [] end.

(** [record_read] *)
Definition record_read (w : ToolWorld) (canon : str) : ToolWorld :=
  let mtime := default 0 (mtime_of w canon) in
  set_registry w (registry_record (tw_registry w) canon mtime (digest_hex (bytes_or_empty w canon))).

Inductive ReadState := Unread | Stale | Current.

Definition current_read_state (w : ToolWorld) (canon : str) : ReadState :=
  match registry_get (tw_registry w) canon with
  | None => Unread
  | Some (reg_mtime, reg_hash) =>
      let cur_mtime := mtime_of w canon in
      let cur_hash := digest_hex (bytes_or_empty w canon) in
      if negb (bool_decide (cur_mtime = Some reg_mtime)) || negb (str_eqb cur_hash reg_hash) then Stale else Current
  end.

Definition tool_error (message : str) (retryable : bool) : ToolOutcome := OError message retryable.
Definition stale_read_error (canon : str) : ToolOutcome :=
  tool_error (canon ++ lit " changed since the last `Read` " ++ [8212] ++ lit " re-read it first") false.

(** [atomic_write]: the temporary file is made in the directory of the target. *)
Definition write_dir (path : str) : str :=
  match path_parent path with
  | Some d => if is_nil d then lit "." else d
  | None => lit "."
  end.
Definition atomic_write (w : ToolWorld) (path content : str) : FsError + ToolWorld :=
  if bool_decide (write_dir path ∈ tw_dirs w) then
    match write_file (tw_host w) path (utf8 content) with
    | Some h => inr (mk_tool_world h (<[path := tw_clock w]> (tw_mtimes w)) (tw_dirs w) (tw_registry w) (tw_journal w) (tw_clock w))
    | None => inl (write_error path)
    end
  else inl (write_error path).

(** [ChangeJournal::record] under its lock. *)
Definition journal_record (w : ToolWorld) (path : str) (prior : option (list Z)) : ToolWorld :=
  let '(j, h) := record digest_hex (tw_journal w) (tw_host w) path prior in
  mk_tool_world h (tw_mtimes w) (tw_dirs w) (tw_registry w) j (tw_clock w).

(** [create_dir_all]: the directory and the ancestors it lacks. *)
Fixpoint ancestors (fuel : nat) (p : str) : list str :=
  match fuel with
  | O => [p]
  | S f => p :: match path_parent p with Some q => ancestors f q | None => [] end
  end.
Definition create_dir_all (w : ToolWorld) (p : str) : str + ToolWorld :=
  match mkdir_error p with
  | Some e => inl e
  | None => inr (set_dirs w (tw_dirs w ∪ list_to_set (ancestors (length (components p)) p)))
  end.

Definition resolve_exact (w : ToolWorld) (ctx : ToolCtx) (p : str) : res PathError str :=
  resolve_within (canonicalize w) (tx_allowed_roots ctx) (tx_cwd ctx) p.
Definition resolve_loose (w : ToolWorld) (ctx : ToolCtx) (p : str) : res PathError str :=
  match resolve_within_loose (canonicalize w) (tx_allowed_roots ctx) (tx_cwd ctx) p with Some r => r | None => Panic end.

(** The read-before-mutate check all three share: the world and whether the
    file was read now, or the refusal. *)
Definition read_before_mutate (w : ToolWorld) (canon : str) : option (ToolWorld * bool) :=
  match current_read_state w canon with
  | Unread => Some (record_read w canon, true)
  | Stale => None
  | Current => Some (w, false)
  end.

(** The parent of the target, made when it is missing: the world and whether
    it was made, or the error. *)
Definition ensure_parent (w : ToolWorld) (canon : str) : ToolOutcome + (ToolWorld * bool) :=
  match path_parent canon with
  | Some parent =>
      if exists_path w parent then inr (w, false)
      else match create_dir_all w parent with
           | inl e => inl (tool_error (lit "could not create parent " ++ parent ++ lit ": " ++ e) true)
           | inr w => inr (w, true)
           end
  | None => inr (w, false)
  end.

Definition file_change (path : str) (before : option (list Z)) (after : str) : Artifact :=
  FileChange path before (Some (utf8 after)).

(** The messages of the resolvers (rc-perm/src/path.rs). *)
Definition path_error_text (e : PathError) : str :=
  match e with
  | Outside canon allowed =>
      lit "path outside allowed roots: " ++ canon ++ lit " (allowed: " ++ join (lit ", ") allowed ++ lit ")"
  | Traversal abs => lit "path traversal with `..` is not allowed: " ++ abs
  | InvalidPath abs => lit "invalid path: " ++ abs
  | Io path k => path ++ lit ": " ++ io_kind_text k
  end.

(** ** The handlers *)

Record EditInput := mk_edit { ei_file_path : str; ei_old_string : str; ei_new_string : str; ei_replace_all : bool }.
Record WriteInput := mk_write { wi_file_path : str; wi_content : str }.
Record AppendInput := mk_append { ai_file_path : str; ai_content : str; ai_expected_size : option Z }.

Definition auto_read_note (canon : str) : str :=
  [10; 10] ++ lit "(auto-read " ++ canon ++ [32; 8212] ++ lit " read files before editing next time)".
Definition created_parent_note : str := [10; 10] ++ lit "(created missing parent directories)".

(** What the three do once the new text is written: the write counts as a
    read, and the prior contents are journaled. *)
Definition commit (w : ToolWorld) (canon : str) (prior : option (list Z)) : ToolWorld :=
  journal_record (record_read w canon) canon prior.

(** [Edit::call] *)
Definition edit_call (w : ToolWorld) (ctx : ToolCtx) (inp : EditInput) : res unit ToolOutcome * ToolWorld :=
  let answer o w := (Ok o, w) in
  if str_eqb (ei_old_string inp) (ei_new_string inp) then
    answer (OOk (lit "no changes needed: old_string and new_string are identical") false []) w
  else
    match resolve_exact w ctx (ei_file_path inp) with
    | Panic => (Panic, w)
    | Err e => answer (tool_error (path_error_text e) false) w
    | Ok canon =>
        match read_before_mutate w canon with
        | None => answer (stale_read_error canon) w
        | Some (w, auto_read) =>
            match fs_read_to_string w canon with
            | inl e => answer (tool_error (canon ++ lit ": " ++ io_text e) (negb (io_not_found e))) w
            | inr old_content =>
                match edit_text ratio percent debug canon old_content (ei_old_string inp) (ei_new_string inp)
                        (ei_replace_all inp) with
                | PlanError message => answer (tool_error message false) w
                | PlanText new_content note =>
                    if str_eqb new_content old_content then
                      answer (OOk (lit "no changes needed: replacement already matches the file"
                                   ++ match note with Some n => [10; 10] ++ lit "(" ++ n ++ lit ")" | None => [] end) false []) w
                    else
                      let prior := Some (utf8 old_content) in
                      match atomic_write w canon new_content with
                      | inl e => answer (tool_error (lit "write failed: " ++ io_text e) false) w
                      | inr w =>
                          answer (OOk (snippet_around new_content (ei_new_string inp) 5
                                       ++ match note with Some n => [10] ++ lit "(" ++ n ++ lit ")" | None => [] end
                                       ++ (if auto_read then auto_read_note canon else []))
                                    false [file_change canon prior new_content])
                                 (commit w canon prior)
                      end
                end
            end
        end
    end.

(** The check of a target that may not exist. *)
Definition loose_read_before_mutate (w : ToolWorld) (canon : str) : option (ToolWorld * bool) :=
  if exists_path w canon then read_before_mutate w canon else Some (w, false).

(** [Write::call] *)
Definition write_call (w : ToolWorld) (ctx : ToolCtx) (inp : WriteInput) : res unit ToolOutcome * ToolWorld :=
  let answer o w := (Ok o, w) in
  match resolve_loose w ctx (wi_file_path inp) with
  | Panic => (Panic, w)
  | Err e => answer (tool_error (path_error_text e) false) w
  | Ok canon =>
      match loose_read_before_mutate w canon with
      | None => answer (stale_read_error canon) w
      | Some (w, auto_read) =>
          match ensure_parent w canon with
          | inl o => answer o w
          | inr (w, created_parent) =>
              let old := match fs_read_to_string w canon with inr s => Some s | inl _ => None end in
              let content := preserve_line_endings old (wi_content inp) in
              let prior := utf8 <$> old in
              match atomic_write w canon content with
              | inl e => answer (tool_error (lit "write failed: " ++ io_text e) (negb (io_not_found e))) w
              | inr w =>
                  answer (OOk (lit "wrote " ++ canon ++ lit " (" ++ show_z (byte_len content) ++ lit " bytes)"
                               ++ (if auto_read then auto_read_note canon else [])
                               ++ (if created_parent then created_parent_note else []))
                            false [file_change canon prior content])
                         (commit w canon prior)
              end
          end
      end
  end.

(** [Append::call] *)
Definition append_call (w : ToolWorld) (ctx : ToolCtx) (inp : AppendInput) : res unit ToolOutcome * ToolWorld :=
  let answer o w := (Ok o, w) in
  match resolve_loose w ctx (ai_file_path inp) with
  | Panic => (Panic, w)
  | Err e => answer (tool_error (path_error_text e) false) w
  | Ok canon =>
      match loose_read_before_mutate w canon with
      | None => answer (stale_read_error canon) w
      | Some (w, auto_read) =>
          match match fs_read_to_string w canon with
                | inr s => inr (Some s)
                | inl e => if io_not_found e then inr None else inl e
                end with
          | inl e => answer (tool_error (lit "could not read " ++ canon ++ lit " before append: " ++ io_text e) false) w
          | inr old =>
              let old_size := match old with Some s => byte_len s | None => 0 end in
              let mismatch := match ai_expected_size inp with
                              | Some expected => if expected =? old_size then None else Some expected
                              | None => None
                              end in
              match mismatch with
              | Some expected =>
                  answer (tool_error (lit "append offset mismatch for " ++ canon ++ lit ": expected " ++ show_z expected
                                      ++ lit " bytes, current size is " ++ show_z old_size
                                      ++ lit "; read the file or use the reported new_size") false) w
              | None =>
                  match ensure_parent w canon with
                  | inl o => answer o w
                  | inr (w, created_parent) =>
                      let chunk := normalize_chunk old (ai_content inp) in
                      let combined := default [] old ++ chunk in
                      let prior := utf8 <$> old in
                      match atomic_write w canon combined with
                      | inl e => answer (tool_error (lit "append failed: " ++ io_text e) (negb (io_not_found e))) w
                      | inr w =>
                          answer (OOk (lit "appended " ++ show_z (byte_len chunk) ++ lit " bytes to " ++ canon
                                       ++ lit " (new_size: " ++ show_z (byte_len combined) ++ lit ")"
                                       ++ (if auto_read then [10; 10] ++ lit "(auto-read existing file before append)" else [])
                                       ++ (if created_parent then created_parent_note else []))
                                    false [file_change canon prior combined])
                                 (commit w canon prior)
                      end
                  end
              end
          end
      end
  end.

(** ** Runs of tool calls *)

Inductive FileCall := CallEdit (i : EditInput) | CallWrite (i : WriteInput) | CallAppend (i : AppendInput).
Definition run_call (w : ToolWorld) (ctx : ToolCtx) (c : FileCall) : res unit ToolOutcome * ToolWorld :=
  match c with
  | CallEdit i => edit_call w ctx i
  | CallWrite i => write_call w ctx i
  | CallAppend i => append_call w ctx i
  end.
End Tools.

(** What happens between two points of a session: a turn starts, or a tool is called. *)
Inductive ToolEvent := EvTurn | EvCall (c : FileCall).

(** ** Lemmas: what a call does to the journal and the files *)

Section Rewinding.
Context (digest_hex : list Z -> str).
Context (canonicalize : ToolWorld -> str -> IoKind + str).
Context (unreadable : str -> option FsError) (mkdir_error : str -> option str) (write_error : str -> FsError).
Context (not_found_text invalid_utf8_text : str) (io_kind_text : IoKind -> str).
Context (ratio : str -> str -> Q) (percent : Q -> str) (debug : str -> str).
Context (ctx : ToolCtx).
(** The paths the agent edits. *)
Context (user : str -> Prop).

Definition file_call := run_call digest_hex canonicalize unreadable mkdir_error write_error not_found_text
  invalid_utf8_text io_kind_text ratio percent debug.
Definition kept (w : ToolWorld) : ChangeJournal * Host := (tw_journal w, tw_host w).

(** The file a call is about, and whether it asks for a change. *)
Definition call_target (w : ToolWorld) (c : FileCall) : res PathError str :=
  match c with
  | CallEdit i => resolve_exact canonicalize w ctx (ei_file_path i)
  | CallWrite i => resolve_loose canonicalize w ctx (wi_file_path i)
  | CallAppend i => resolve_loose canonicalize w ctx (ai_file_path i)
  end.
Definition asks_change (c : FileCall) : bool :=
  match c with CallEdit i => negb (str_eqb (ei_old_string i) (ei_new_string i)) | _ => true end.

(** Every accepted path is a user path. *)
Definition accepts_user : Prop := forall w c canon, call_target w c = Ok canon -> user canon.
(** User files are readable text. *)
Definition text_files (w : ToolWorld) : Prop := forall p b,
  user p -> h_files (tw_host w) !! p = Some b -> unreadable p = None /\ is_Some (from_utf8 b).

Lemma append_durable_put j h e f :
  append_durable j (mk_host f (h_lines h) (h_writable h)) e
  = mk_host f (h_lines (append_durable j h e)) (h_writable (append_durable j h e)).
Proof. unfold append_durable. destruct (cj_storage j) as [|root journal]; [done|]. cbn. by destruct (h_writable h journal). Qed.

(** Recording after the write is recording before it: the blob goes elsewhere. *)
Lemma write_then_record j h p b h1 prior :
  (forall c q, blob digest_hex (cj_storage j) c = Some q -> q <> p) ->
  write_file h p b = Some h1 ->
  record digest_hex j h1 p prior
  = let '(j, h) := record digest_hex j h p prior in (j, default h (write_file h p b)).
Proof.
  intros Hne. unfold write_file. destruct (h_writable h p) eqn:Ew; [intros [= <-]|done]. unfold record.
  destruct prior as [bytes|].
  2:{ cbn [snapshot_reference cr_prior]. rewrite append_durable_put, append_durable_writable, Ew. cbn [default]. f_equal. f_equal.
      by rewrite append_durable_files. }
  assert (forall h' s, store_snapshot digest_hex j h bytes = (s, h') ->
    h_writable h' = h_writable h /\ h_lines h' = h_lines h
    /\ store_snapshot digest_hex j (mk_host (<[p:=b]> (h_files h)) (h_lines h) (h_writable h)) bytes
       = (s, mk_host (<[p:=b]> (h_files h')) (h_lines h') (h_writable h'))) as Hsnap.
  { intros h' s. specialize (Hne bytes). unfold store_snapshot, blob in *. destruct (storage_dir (cj_storage j)) as [d|].
    2:{ intros [= <- <-]. done. }
    specialize (Hne _ eq_refl). cbn [h_files]. rewrite lookup_insert_ne by congruence.
    destruct (h_files h !! path_join d (digest_hex bytes)) as [c|] eqn:E.
    - cbn [h_files]. rewrite ?lookup_insert_ne, ?E by congruence. cbn [andb]. intros [= <- <-]. done.
    - unfold write_file. cbn [h_writable].
      destruct (h_writable h (path_join d (digest_hex bytes))); cbn [h_files].
      + rewrite !lookup_insert_eq. intros [= <- <-]. cbn [h_files h_lines h_writable].
        by rewrite insert_insert_ne by congruence.
      + rewrite ?lookup_insert_ne, ?E by congruence. intros [= <- <-]. done. }
  destruct (store_snapshot digest_hex j h bytes) as [s h'] eqn:Es. destruct (Hsnap h' s eq_refl) as (Hw & Hl & ->).
  destruct (snapshot_reference _) as [dg ln]. rewrite append_durable_put, append_durable_writable, Hw, Ew. cbn [default].
  do 2 f_equal. by rewrite append_durable_files.
Qed.

Lemma record_writable j h p prior : h_writable (record digest_hex j h p prior).2 = h_writable h.
Proof.
  unfold record. destruct prior as [bytes|]; [|cbn; apply append_durable_writable].
  destruct (store_snapshot digest_hex j h bytes) as [s h'] eqn:E.
  destruct (snapshot_reference _). cbn [snd]. rewrite append_durable_writable.
  revert E. unfold store_snapshot. destruct (storage_dir _); [|by intros [= _ <-]].
  destruct (h_files h !! _); [by intros [= _ <-]|]. unfold write_file. destruct (h_writable h _); by intros [= _ <-].
Qed.

(** The blobs are not user files. *)
Definition blobs_apart (w : ToolWorld) : Prop := forall c q, blob digest_hex (cj_storage (tw_journal w)) c = Some q -> ~ user q.

Lemma commit_step w canon content w1 prior :
  blobs_apart w -> user canon -> atomic_write write_error w canon content = inr w1 -> prior = h_files (tw_host w) !! canon ->
  kept (commit digest_hex unreadable not_found_text w1 canon prior) = exec_op digest_hex (kept w) (OpWrite canon (utf8 content))
  /\ h_files (tw_host (commit digest_hex unreadable not_found_text w1 canon prior)) !! canon = Some (utf8 content).
Proof.
  intros Hb Hu Hw ->. unfold atomic_write in Hw. destruct (bool_decide _); [|done].
  destruct (write_file (tw_host w) canon (utf8 content)) as [h|] eqn:E; [|done]. injection Hw as <-.
  unfold commit, journal_record, kept, exec_op. cbn [tw_journal tw_host record_read set_registry].
  rewrite (write_then_record _ (tw_host w) canon (utf8 content) h) by (done || intros c q Hq ->; by eapply Hb).
  pose proof (record_writable (tw_journal w) (tw_host w) canon (h_files (tw_host w) !! canon)) as Hr.
  destruct (record digest_hex (tw_journal w) (tw_host w) canon _) as [j h']. split; [done|]. cbn [tw_host].
  unfold write_file in *. cbn [snd] in Hr. rewrite Hr. destruct (h_writable (tw_host w) canon); [|done]. cbn. apply lookup_insert_eq.
Qed.

Lemma read_before_mutate_kept w canon w1 r :
  read_before_mutate digest_hex unreadable not_found_text w canon = Some (w1, r) -> kept w1 = kept w.
Proof. unfold read_before_mutate. destruct (current_read_state _ _ _ _ _); [|done|]; by intros [= <- _]. Qed.

Lemma loose_read_kept w canon w1 r :
  loose_read_before_mutate digest_hex unreadable not_found_text w canon = Some (w1, r) -> kept w1 = kept w.
Proof. unfold loose_read_before_mutate. destruct (exists_path w canon); [apply read_before_mutate_kept|]. by intros [= <- _]. Qed.

Lemma ensure_parent_kept w canon w1 r : ensure_parent mkdir_error w canon = inr (w1, r) -> kept w1 = kept w.
Proof.
  unfold ensure_parent, create_dir_all. destruct (path_parent canon) as [q|]; [|by intros [= <- _]].
  destruct (exists_path w q); [by intros [= <- _]|]. destruct (mkdir_error q); [done|]. by intros [= <- _].
Qed.

(** What reading a user file as text gives is what the file holds. *)
Lemma prior_of_text w canon : text_files w -> user canon ->
  match fs_read_to_string unreadable not_found_text invalid_utf8_text w canon with
  | inr s => h_files (tw_host w) !! canon = Some (utf8 s)
  | inl e => h_files (tw_host w) !! canon = None /\ io_not_found e = true
  end.
Proof.
  intros Ht Hu. unfold fs_read_to_string, fs_read. destruct (h_files (tw_host w) !! canon) as [b|] eqn:E; [|done].
  destruct (Ht canon b Hu E) as [-> [s Hs]]. rewrite Hs. by apply from_utf8_Some in Hs as ->.
Qed.

Lemma kept_eq w j h : kept w = (j, h) -> tw_journal w = j /\ tw_host w = h.
Proof. by intros [= -> ->]. Qed.

Lemma kept_inj w w1 : kept w1 = kept w -> tw_journal w1 = tw_journal w /\ tw_host w1 = tw_host w.
Proof. by intros [= -> ->]. Qed.

Lemma kept_facts w w1 : kept w1 = kept w -> (text_files w -> text_files w1) /\ (blobs_apart w -> blobs_apart w1).
Proof. intros [Hj Hh]%kept_inj. unfold text_files, blobs_apart. by rewrite Hj, Hh. Qed.

(** The journaled form of what a file held: [None] when reading it as text
    failed. *)
Definition text_prior (w : ToolWorld) (canon : str) : option (list Z) :=
  match fs_read_to_string unreadable not_found_text invalid_utf8_text w canon with inr s => Some (utf8 s) | inl _ => None end.

Lemma text_prior_spec w canon : text_files w -> user canon -> text_prior w canon = h_files (tw_host w) !! canon.
Proof.
  intros Ht Hu. pose proof (prior_of_text w canon Ht Hu) as H. unfold text_prior.
  destruct (fs_read_to_string _ _ _ _ _); [by destruct H as [-> _]|done].
Qed.

Lemma text_prior_kept w w1 canon : kept w1 = kept w -> text_prior w1 canon = text_prior w canon.
Proof. intros [_ H]%kept_inj. unfold text_prior, fs_read_to_string, fs_read. by rewrite H. Qed.

Definition no_artifacts (o : res unit ToolOutcome) : Prop := match o with Ok (OOk _ _ a) => a = [] | _ => True end.

(** A call writes one accepted file, commits it and reports it, or leaves the
    journal and the files alone and reports no change. *)
Inductive call_shape (w : ToolWorld) (c : FileCall) (o : res unit ToolOutcome) (w' : ToolWorld) : Prop :=
| CallQuiet : kept w' = kept w -> no_artifacts o -> call_shape w c o w'
| CallWrote w1 w2 canon text m :
    call_target w c = Ok canon ->
    kept w1 = kept w -> atomic_write write_error w1 canon text = inr w2 ->
    w' = commit digest_hex unreadable not_found_text w2 canon (text_prior w canon) ->
    o = Ok (OOk m false [FileChange canon (text_prior w canon) (Some (utf8 text))]) -> call_shape w c o w'.

Ltac quiet := intros [= <- <-]; by apply CallQuiet.

Lemma ensure_parent_quiet w canon e : ensure_parent mkdir_error w canon = inl e -> no_artifacts (Ok e).
Proof. unfold ensure_parent. repeat case_match; by intros [= <-]. Qed.

Lemma edit_shape w i o w' : file_call w ctx (CallEdit i) = (o, w') -> call_shape w (CallEdit i) o w'.
Proof.
  cbn [file_call run_call]. unfold file_call, run_call, edit_call. destruct (str_eqb _ _); [quiet|].
  destruct (resolve_exact _ _ _ _) as [canon| |] eqn:Er; [|quiet..].
  destruct (read_before_mutate _ _ _ _ _) as [[w1 r]|] eqn:E1; [|quiet]. apply read_before_mutate_kept in E1.
  pose proof (text_prior_kept _ _ canon E1) as Hp. unfold text_prior at 1 in Hp.
  destruct (fs_read_to_string _ _ _ _ _) as [e|old]; [quiet|].
  destruct (edit_text _ _ _ _ _ _ _ _) as [m|new note]; [quiet|]. destruct (str_eqb new old); [quiet|].
  destruct (atomic_write _ _ _ _) as [e|w2] eqn:E2; [quiet|]. intros [= <- <-]. rewrite Hp. eapply CallWrote; eauto.
Qed.

Lemma write_shape w i o w' : file_call w ctx (CallWrite i) = (o, w') -> call_shape w (CallWrite i) o w'.
Proof.
  unfold file_call, run_call, write_call. destruct (resolve_loose _ _ _ _) as [canon| |] eqn:Er; [|quiet..].
  destruct (loose_read_before_mutate _ _ _ _ _) as [[w1 r]|] eqn:E1; [|quiet]. apply loose_read_kept in E1.
  destruct (ensure_parent _ _ _) as [e|[w2 cp]] eqn:E2.
  { intros [= <- <-]. apply CallQuiet; [done|]. by eapply ensure_parent_quiet. }
  apply ensure_parent_kept in E2. rewrite E1 in E2.
  set (old := match fs_read_to_string _ _ _ _ _ with inl _ => _ | inr _ => _ end).
  assert (utf8 <$> old = text_prior w canon) as Hq.
  { rewrite <- (text_prior_kept _ _ canon E2). unfold old, text_prior. by destruct (fs_read_to_string _ _ _ _ _). }
  destruct (atomic_write _ _ _ _) as [e|w3] eqn:E3; [quiet|]. intros [= <- <-]. rewrite Hq. eapply CallWrote; eauto.
Qed.

Lemma append_shape w i o w' : file_call w ctx (CallAppend i) = (o, w') -> call_shape w (CallAppend i) o w'.
Proof.
  unfold file_call, run_call, append_call. destruct (resolve_loose _ _ _ _) as [canon| |] eqn:Er; [|quiet..].
  destruct (loose_read_before_mutate _ _ _ _ _) as [[w1 r]|] eqn:E1; [|quiet]. apply loose_read_kept in E1.
  pose proof (text_prior_kept _ _ canon E1) as Hp. unfold text_prior at 1 in Hp.
  set (read := match fs_read_to_string _ _ _ _ _ with inl _ => _ | inr _ => _ end).
  destruct read as [e|old] eqn:Eo; [quiet|].
  assert (utf8 <$> old = text_prior w canon) as Hq.
  { rewrite <- Hp. unfold read in Eo. destruct (fs_read_to_string _ _ _ _ _) as [e|s]; [destruct (io_not_found e)|]; naive_solver. }
  destruct (match ai_expected_size i with Some _ => _ | None => _ end); [quiet|].
  destruct (ensure_parent _ _ _) as [e|[w2 cp]] eqn:E2.
  { intros [= <- <-]. apply CallQuiet; [done|]. by eapply ensure_parent_quiet. }
  apply ensure_parent_kept in E2. rewrite E1 in E2.
  destruct (atomic_write _ _ _ _) as [e|w3] eqn:E3; [quiet|]. intros [= <- <-]. rewrite Hq. eapply CallWrote; eauto.
Qed.

Lemma call_shapes w c o w' : file_call w ctx c = (o, w') -> call_shape w c o w'.
Proof. destruct c; eauto using edit_shape, write_shape, append_shape. Qed.

(** On text files a call leaves the journal and the files alone, or is one
    journaled write of a user file. *)
Lemma call_journaled w c o w' :
  blobs_apart w -> accepts_user -> text_files w -> file_call w ctx c = (o, w') ->
  kept w' = kept w
  \/ exists p b, user p /\ h_files (tw_host w') !! p = Some b /\ kept w' = exec_op digest_hex (kept w) (OpWrite p b).
Proof.
  intros Hb Ha Ht [E _|w1 w2 canon text m Hr E Hw -> _]%call_shapes; [by left|]. right.
  assert (user canon) as Hu by eauto. exists canon, (utf8 text). split; [done|]. rewrite (text_prior_spec _ _ Ht Hu).
  destruct (kept_facts _ _ E) as [_ Hb1]. rewrite <- E.
  pose proof (kept_inj _ _ E) as [_ Eh]. rewrite <- Eh.
  destruct (commit_step w1 canon text w2 _ (Hb1 Hb) Hu Hw eq_refl). done.
Qed.

(** *** Reads and writes of the registry *)

Lemma bytes_same w w1 p : h_files (tw_host w1) !! p = h_files (tw_host w) !! p ->
  bytes_or_empty unreadable not_found_text w1 p = bytes_or_empty unreadable not_found_text w p.
Proof. intros H. unfold bytes_or_empty, fs_read. by rewrite H. Qed.

Lemma commit_spec w canon prior : exists j h,
  record digest_hex (tw_journal w) (tw_host w) canon prior = (j, h)
  /\ kept (commit digest_hex unreadable not_found_text w canon prior) = (j, h)
  /\ tw_mtimes (commit digest_hex unreadable not_found_text w canon prior) = tw_mtimes w
  /\ tw_registry (commit digest_hex unreadable not_found_text w canon prior)
     = registry_record (tw_registry w) canon (default 0 (mtime_of w canon)) (digest_hex (bytes_or_empty unreadable not_found_text w canon)).
Proof.
  unfold commit, journal_record. cbn [tw_journal tw_host record_read set_registry].
  destruct (record digest_hex (tw_journal w) (tw_host w) canon prior) as [j h]. exists j, h. done.
Qed.

Lemma atomic_write_mtime w p s w1 : atomic_write write_error w p s = inr w1 -> mtime_of w1 p = Some (tw_clock w).
Proof.
  unfold atomic_write. destruct (bool_decide _); [|done]. destruct (write_file _ _ _); [|done]. intros [= <-].
  unfold mtime_of. cbn. apply lookup_insert_eq.
Qed.

Lemma record_files j h p prior q : (forall c r, blob digest_hex (cj_storage j) c = Some r -> r <> q) ->
  h_files (record digest_hex j h p prior).2 !! q = h_files h !! q.
Proof.
  intros Hq. unfold record. destruct prior as [b|]; [|cbn; by rewrite append_durable_files].
  destruct (store_snapshot digest_hex j h b) as [s h'] eqn:E. destruct (snapshot_reference _). cbn [snd]. rewrite append_durable_files.
  revert E. unfold store_snapshot. specialize (Hq b). unfold blob in Hq. destruct (storage_dir _) as [d|]; [|by intros [= _ <-]].
  specialize (Hq _ eq_refl). destruct (h_files h !! path_join d _); [by intros [= _ <-]|].
  unfold write_file. destruct (h_writable h _); intros [= _ <-]; [|done]. cbn. by rewrite lookup_insert_ne.
Qed.

Lemma atomic_write_file w p s w1 : atomic_write write_error w p s = inr w1 ->
  h_files (tw_host w1) !! p = Some (utf8 s) /\ tw_journal w1 = tw_journal w /\ h_writable (tw_host w1) p = true.
Proof.
  unfold atomic_write. destruct (bool_decide _); [|done]. unfold write_file. destruct (h_writable (tw_host w) p) eqn:E; [|done].
  intros [= <-]. cbn. by rewrite lookup_insert_eq.
Qed.

Lemma commit_file w w2 canon text prior : blobs_apart w -> user canon ->
  tw_journal w2 = tw_journal w -> h_files (tw_host w2) !! canon = Some (utf8 text) ->
  h_files (tw_host (commit digest_hex unreadable not_found_text w2 canon prior)) !! canon = Some (utf8 text).
Proof.
  intros Hb Hu Hj Hf. destruct (commit_spec w2 canon prior) as (j & h & Hrec & [_ ->]%kept_eq & _).
  pose proof (record_files (tw_journal w2) (tw_host w2) canon prior canon) as Hx. rewrite Hrec in Hx. cbn [snd] in Hx.
  rewrite Hx; [done|]. rewrite Hj. intros d r Hd ->. by eapply Hb.
Qed.

(** C31: a call that reports a change has made it, and counts as a read: the
    file holds the bytes the artifact gives as the new contents, the artifact
    gives the bytes held before as the old contents (none for a new file),
    and the next call finds the file read and unchanged, so a chain of edits
    needs no read between them. *)
Theorem reported_change_is_made w c m t p before after w' :
  blobs_apart w -> accepts_user -> text_files w ->
  file_call w ctx c = (Ok (OOk m t [FileChange p before after]), w') ->
  h_files (tw_host w) !! p = before /\ h_files (tw_host w') !! p = after
  /\ current_read_state digest_hex unreadable not_found_text w' p = Current.
Proof.
  intros Hb Ha Ht [_ H|w1 w2 canon text m' Hr E Hw -> Ho]%call_shapes; [done|]. injection Ho as -> -> -> -> ->.
  assert (user canon) as Hu by eauto. rewrite (text_prior_spec _ _ Ht Hu). split; [done|].
  destruct (atomic_write_file _ _ _ _ Hw) as (Hf & Hj & _). pose proof (kept_inj _ _ E) as [Ej _].
  set (w' := commit _ _ _ _ _ _). destruct (commit_spec w2 canon (h_files (tw_host w) !! canon)) as (j & h & Hrec & Hk & Hm & Hreg).
  fold w' in Hk, Hm, Hreg.
  assert (h_files (tw_host w') !! canon = h_files (tw_host w2) !! canon) as Hsame.
  { rewrite Hf. apply (commit_file w); auto. congruence. }
  split; [by rewrite Hsame|]. clear Hrec Hk. unfold current_read_state, registry_get. rewrite Hreg. cbn. rewrite lookup_insert_eq.
  rewrite (bytes_same w2 w' canon Hsame), str_eqb_refl. unfold mtime_of. rewrite Hm. fold (mtime_of w2 canon).
  rewrite (atomic_write_mtime _ _ _ _ Hw). cbn. by rewrite bool_decide_true.
Qed.

(** C12: a file changed from outside is not overwritten.  When the registry
    holds a read of the target, and the file's modification time or the
    digest of its contents is no longer the one recorded, then Edit, Write
    and Append all answer that the file must be read again, and nothing
    changes: no file, no directory, no journal entry, no registry entry. *)
Theorem outside_change_refused w c canon mtime hash :
  call_target w c = Ok canon -> asks_change c = true -> exists_path w canon = true ->
  registry_get (tw_registry w) canon = Some (mtime, hash) ->
  mtime_of w canon <> Some mtime \/ digest_hex (bytes_or_empty unreadable not_found_text w canon) <> hash ->
  file_call w ctx c = (Ok (stale_read_error canon), w).
Proof.
  intros Ht Hc He Hr Hd.
  assert (current_read_state digest_hex unreadable not_found_text w canon = Stale) as Hs.
  { unfold current_read_state. rewrite Hr. destruct Hd as [Hd|Hd]; [rewrite bool_decide_false by done; done|].
    rewrite str_eqb_ne by done. by rewrite orb_true_r. }
  assert (read_before_mutate digest_hex unreadable not_found_text w canon = None) as Hm by (unfold read_before_mutate; by rewrite Hs).
  destruct c as [i|i|i]; cbn [call_target asks_change] in *; unfold file_call, run_call.
  - unfold edit_call. apply negb_true_iff in Hc. by rewrite Hc, Ht, Hm.
  - unfold write_call, loose_read_before_mutate. by rewrite Ht, He, Hm.
  - unfold append_call, loose_read_before_mutate. by rewrite Ht, He, Hm.
Qed.

Lemma append_reads w i o w' canon old : file_call w ctx (CallAppend i) = (o, w') ->
  resolve_loose canonicalize w ctx (ai_file_path i) = Ok canon -> ~ no_artifacts o ->
  ai_expected_size i = Some old ->
  exists prior text, byte_len prior = old /\ text = prior ++ normalize_chunk
      (match fs_read_to_string unreadable not_found_text invalid_utf8_text w canon with inr s => Some s | inl _ => None end) (ai_content i)
    /\ exists w1 w2, kept w1 = kept w /\ atomic_write write_error w1 canon text = inr w2
       /\ w' = commit digest_hex unreadable not_found_text w2 canon (text_prior w canon).
Proof.
  intros Hcall Hres Hno Hexp. revert Hcall. unfold file_call, run_call, append_call. rewrite Hres, Hexp.
  destruct (loose_read_before_mutate _ _ _ _ _) as [[w1 r]|] eqn:E1; [|by intros [= <- _]].
  apply loose_read_kept in E1. pose proof (kept_inj _ _ E1) as [_ Eh].
  assert (forall p, fs_read_to_string unreadable not_found_text invalid_utf8_text w1 p
                    = fs_read_to_string unreadable not_found_text invalid_utf8_text w p) as Hrd.
  { intros p. unfold fs_read_to_string, fs_read. by rewrite Eh. }
  rewrite Hrd. unfold text_prior.
  destruct (fs_read_to_string _ _ _ _ _) as [e|s].
  - destruct (io_not_found e); [|by intros [= <- _]]. destruct (Z.eqb_spec old 0) as [->|]; [|by intros [= <- _]].
    destruct (ensure_parent _ _ _) as [e'|[w2 cp]] eqn:E2.
    { intros [= <- <-]. exfalso. by eapply Hno, ensure_parent_quiet. }
    apply ensure_parent_kept in E2. rewrite E1 in E2.
    destruct (atomic_write _ _ _ _) as [e'|w3] eqn:E3; [by intros [= <- _]|]. intros [= _ <-].
    eexists [], _. split; [done|]. split; [done|]. exists w2, w3. done.
  - destruct (Z.eqb_spec old (byte_len s)) as [->|]; [|by intros [= <- _]].
    destruct (ensure_parent _ _ _) as [e'|[w2 cp]] eqn:E2.
    { intros [= <- <-]. exfalso. by eapply Hno, ensure_parent_quiet. }
    apply ensure_parent_kept in E2. rewrite E1 in E2.
    destruct (atomic_write _ _ _ _) as [e'|w3] eqn:E3; [by intros [= <- _]|]. intros [= _ <-].
    eexists s, _. split; [done|]. split; [done|]. exists w2, w3. done.
Qed.

Lemma normalize_chunk_nonempty old s : s <> [] -> normalize_chunk old s <> [].
Proof.
  intros Hs. assert (replace s CRLF [10] <> []) as H.
  { destruct s as [|c s]; [done|]. unfold replace. cbn [replace_from]. by destruct (starts_with _ _). }
  unfold normalize_chunk. destruct old as [o|]; cbn [is_Some].
  - destruct (contains o CRLF); rewrite bool_decide_true by eauto; cbn; [|done]. rewrite replace_lf. by rewrite to_crlf_nil.
  - rewrite bool_decide_false by (by intros [? ?]). cbn. destruct (ends_with _ _); [done|]. by destruct (replace s CRLF [10]).
Qed.

Lemma byte_len_pos s : s <> [] -> 0 < byte_len s.
Proof. destruct s as [|c s]; [done|]. intros _. cbn. pose proof (len_utf8_pos c). pose proof (byte_len_nonneg s). lia. Qed.

(** a retried append does not duplicate its chunk.  When an Append with
    an [expected_size] and a non-empty chunk has been applied, the same call
    again, as a client sends that did not see the answer, is an error and
    leaves every file and the journal as they are. *)
Theorem append_retry_refused w i n m t p before after w' canon :
  blobs_apart w -> accepts_user -> unreadable canon = None ->
  ai_expected_size i = Some n -> ai_content i <> [] ->
  resolve_loose canonicalize w ctx (ai_file_path i) = Ok canon -> resolve_loose canonicalize w' ctx (ai_file_path i) = Ok canon ->
  file_call w ctx (CallAppend i) = (Ok (OOk m t [FileChange p before after]), w') ->
  exists message w'', file_call w' ctx (CallAppend i) = (Ok (OError message false), w'') /\ kept w'' = kept w'.
Proof.
  intros Hb Ha Hu He Hne Hr Hr' Hcall. assert (user canon) as Huser by exact (Ha w (CallAppend i) canon Hr).
  destruct (append_reads _ _ _ _ _ _ Hcall Hr ltac:(done) He) as (prior & text & Hlen & Htext & w1 & w2 & E & Hw & ->).
  destruct (atomic_write_file _ _ _ _ Hw) as (Hf & Hj & _). pose proof (kept_inj _ _ E) as [Ej _].
  assert (h_files (tw_host (commit digest_hex unreadable not_found_text w2 canon (text_prior w canon))) !! canon = Some (utf8 text)) as Hfile.
  { apply (commit_file w); auto. congruence. }
  revert Hr' Hfile. generalize (commit digest_hex unreadable not_found_text w2 canon (text_prior w canon)). intros w' Hr' Hfile.
  assert (n < byte_len text) as Hgrow.
  { rewrite Htext, byte_len_app, Hlen. pose proof (byte_len_pos _ (normalize_chunk_nonempty
      (match fs_read_to_string unreadable not_found_text invalid_utf8_text w canon with inr s => Some s | inl _ => None end) _ Hne)). lia. }
  unfold file_call, run_call, append_call. rewrite Hr', He.
  destruct (loose_read_before_mutate _ _ _ _ _) as [[w3 r]|] eqn:E3; [|unfold stale_read_error, tool_error; eauto].
  apply loose_read_kept in E3. pose proof (kept_inj _ _ E3) as [_ Eh].
  unfold fs_read_to_string, fs_read. rewrite Eh, Hfile, Hu. destruct (from_utf8 (utf8 text)) as [s|] eqn:Es; cbn [io_not_found].
  - apply from_utf8_Some in Es. assert (byte_len s = byte_len text) as -> by (by rewrite !byte_len_utf8, Es).
    destruct (Z.eqb_spec n (byte_len text)); [lia|]. unfold tool_error. eauto.
  - unfold tool_error. eauto.
Qed.

(** a file that is not UTF-8 is lost by Write and [/rewind].  Write reads
    the old contents as text and takes the failure for a missing file: over
    an existing file that is not UTF-8 it journals that there was no file, so
    rewinding the turn deletes the file instead of restoring its bytes. *)
Theorem binary_overwrite_lost w i canon b m t p before after w' :
  blobs_apart w -> accepts_user ->
  resolve_loose canonicalize w ctx (wi_file_path i) = Ok canon ->
  h_files (tw_host w) !! canon = Some b -> from_utf8 b = None ->
  file_call w ctx (CallWrite i) = (Ok (OOk m t [FileChange p before after]), w') ->
  1 <= cj_turn (tw_journal w) -> Forall (fun r => cr_turn r < cj_turn (tw_journal w)) (cj_records (tw_journal w)) ->
  before = None /\ h_files (rewind_session (tw_journal w') (tw_host w') 1).1.2 !! canon = None.
Proof.
  intros Hb Ha Hres Hf Hu Hcall Ht Hold.
  apply call_shapes in Hcall as [_ H|w1 w2 canon' text m' Hr E Hw -> Ho]; [done|]. cbn [call_target] in Hr.
  assert (canon' = canon) as -> by congruence. injection Ho as -> -> -> -> ->.
  assert (text_prior w canon = None) as Hp.
  { unfold text_prior, fs_read_to_string, fs_read. rewrite Hf. destruct (unreadable canon); [done|]. by rewrite Hu. }
  split; [done|]. rewrite Hp. destruct (atomic_write_file _ _ _ _ Hw) as (Hf2 & Hj & Hwr). apply kept_inj in E as [Ej _].
  destruct (commit_spec w2 canon None) as (j & h & Hrec & [-> ->]%kept_eq & _).
  unfold record in Hrec. cbn [snapshot_reference cr_prior] in Hrec. injection Hrec as <- <-. rewrite Hj, Ej.
  set (turn := cj_turn (tw_journal w)) in *. set (r := mk_record canon None turn).
  destruct (filter_window (cj_records (tw_journal w)) [r] (turn - 1)) as [F1 F2].
  { eapply Forall_impl; [|exact Hold]. cbn. intros; lia. } { constructor; [cbn; lia|done]. }
  set (h2 := append_durable (tw_journal w) (tw_host w2) _).
  unfold rewind_session, rewind. cbn [cj_records cj_turn]. fold r.
  assert (is_nil (cj_records (tw_journal w) ++ [r]) = false) as -> by (by destruct (cj_records (tw_journal w))).
  cbn [orb Z.eqb]. unfold sat_sub. replace (Z.max 0 (turn - 1)) with (turn - 1) by lia. rewrite F1, F2.
  cbn [rev app is_nil restore_files]. unfold restore_one, remove_file. cbn [cr_prior cr_path r].
  set (h3 := rewrite_durable _ _).
  assert (h_files h3 = h_files (tw_host w2) /\ h_writable h3 = h_writable (tw_host w2)) as [-> ->].
  { unfold h3, rewrite_durable. destruct (cj_storage _) as [|root jr] eqn:Es;
      [|destruct (h_writable h2 jr)]; cbn; unfold h2; rewrite ?append_durable_files, ?append_durable_writable; done. }
  rewrite Hf2, Hwr. cbn. apply lookup_delete_eq.
Qed.
(** *** Runs *)

(** The contents that occur. *)
Context (K : list Z -> Prop).

Definition run_event (w : ToolWorld) (e : ToolEvent) : ToolWorld :=
  match e with
  | EvTurn =>
      let '(j, h) := advance_turn (tw_journal w) (tw_host w) in
      mk_tool_world h (tw_mtimes w) (tw_dirs w) (tw_registry w) j (tw_clock w)
  | EvCall c => (file_call w ctx c).2
  end.
Definition run_events (w : ToolWorld) (es : list ToolEvent) : ToolWorld := fold_left run_event es w.

(** The worlds a run goes through. *)
Fixpoint worlds (w : ToolWorld) (es : list ToolEvent) : list ToolWorld :=
  w :: match es with [] => [] | e :: es' => worlds (run_event w e) es' end.
Definition turns_in (es : list ToolEvent) : Z :=
  foldr (fun e n => match e with EvTurn => n + 1 | EvCall _ => n end) 0 es.

(** In every world of a run user files are text, of the contents considered. *)
Definition text_world (w : ToolWorld) : Prop :=
  text_files w /\ forall p b, user p -> h_files (tw_host w) !! p = Some b -> K b.

Lemma store_snapshot_storage j h op : cj_storage (exec_op digest_hex (j, h) op).1 = cj_storage j.
Proof.
  destruct op; [done|]. cbn. unfold record. destruct (h_files h !! p).
  - destruct (store_snapshot digest_hex j h l). by destruct (snapshot_reference _).
  - by destruct (snapshot_reference _).
Qed.

Lemma run_exec es : forall w,
  blobs_apart w -> accepts_user -> Forall text_world (worlds w es) ->
  exists ops, Forall (op_ok user K) ops /\ turns_of ops = turns_in es
    /\ kept (run_events w es) = exec digest_hex (kept w) ops.
Proof.
  induction es as [|e es IH]; intros w Hb Ha Hw; [by exists []|].
  cbn [worlds] in Hw. apply list.Forall_cons in Hw as [[Ht Hk] Hw].
  assert (exists ops, Forall (op_ok user K) ops /\ turns_of ops = turns_in [e]
            /\ kept (run_event w e) = exec digest_hex (kept w) ops /\ blobs_apart (run_event w e)) as (ops & Ho & Hn & He & Hb1).
  { assert (text_world (run_event w e)) as [_ Hk'] by (destruct es; cbn [worlds] in Hw; by inversion Hw).
    destruct e as [|c]; cbn [run_event] in *.
    - exists [OpTurn]. split; [by constructor|]. split; [done|]. unfold kept. cbn.
      unfold advance_turn. split; [done|]. exact Hb.
    - destruct (file_call w ctx c) as [o w'] eqn:Ec. cbn [snd] in *.
      destruct (call_journaled w c o w' Hb Ha Ht Ec) as [E|(p & b & Hu & Hl & E)].
      + exists []. split; [done|]. split; [done|]. split; [done|]. by apply (kept_facts _ _ E).
      + exists [OpWrite p b]. split; [by repeat constructor; eauto|]. split; [done|]. split; [done|].
        intros d q. assert (cj_storage (tw_journal w') = cj_storage (tw_journal w)) as ->; [|apply Hb].
        change (tw_journal w') with (kept w').1. rewrite E. apply store_snapshot_storage. }
  destruct (IH (run_event w e) Hb1 Ha Hw) as (ops' & Ho' & Hn' & He'). exists (ops ++ ops'). split; [by apply list.Forall_app|]. split.
  - assert (turns_of (ops ++ ops') = turns_of ops + turns_of ops') as ->.
    { clear. unfold turns_of. induction ops as [|[|p b] ops IH]; simpl; lia. }
    rewrite Hn, Hn'. unfold turns_in. destruct e; simpl; lia.
  - unfold run_events, exec in *. cbn [fold_left]. rewrite He', He, fold_left_app. done.
Qed.

(** C4: [/rewind n] undoes the last [n] turns of tool calls on text files.
    Where the files the agent may edit are readable UTF-8 in every world of
    the run, the digest separates the contents that occur, and the journal's
    blobs lie outside these files: run the Edit, Write and Append handlers on
    any inputs, succeeding or failing, in any order over [n] turns, and rewind
    by [n]; then every file the agent may edit has the contents it had before
    those turns, files the calls created are gone, and the journal is back to
    its earlier records.  (Over a file that is not UTF-8, Write loses the old
    bytes: [binary_overwrite_lost].) *)
Theorem tool_calls_rewind w es n :
  digests_ok digest_hex user K (cj_storage (tw_journal w)) -> good digest_hex user K (cj_storage (tw_journal w)) (tw_host w) ->
  accepts_user -> Forall text_world (worlds w (EvTurn :: es)) -> n = turns_in (EvTurn :: es) ->
  0 <= cj_turn (tw_journal w) -> Forall (fun r => cr_turn r <= cj_turn (tw_journal w)) (cj_records (tw_journal w)) ->
  let w2 := run_events w (EvTurn :: es) in
  let '(j3, h3, report) := rewind_session (tw_journal w2) (tw_host w2) n in
  (forall p, user p -> h_files h3 !! p = h_files (tw_host w) !! p) /\ cj_records j3 = cj_records (tw_journal w).
Proof.
  intros Hd Hg Ha Hw Hn Ht Hr. cbn [worlds] in Hw. apply list.Forall_cons in Hw as [_ Hw].
  assert (blobs_apart (run_event w EvTurn)) as Hb by (intros d q; apply Hd).
  destruct (run_exec es _ Hb Ha Hw) as (ops & Ho & Htn & He).
  pose proof (rewind_exec digest_hex user K (tw_journal w) (tw_host w) ops n Hd Hg Ho) as H.
  assert (turns_of (OpTurn :: ops) = turns_in (EvTurn :: es)) as Hto by (cbn; unfold turns_of, turns_in in *; lia).
  specialize (H ltac:(congruence) Ht Hr).
  assert (exec digest_hex (tw_journal w, tw_host w) (OpTurn :: ops) = kept (run_events w (EvTurn :: es))) as E.
  { unfold run_events. cbn [fold_left]. fold (run_events (run_event w EvTurn) es). rewrite He. done. }
  rewrite E in H. unfold kept in H. cbv zeta.
  destruct (rewind_session _ _ n) as [[j3 h3] rep]. by destruct H as (H1 & H2 & _).
Qed.
End Rewinding.

(** ** Witnesses *)

Section Samples.
Definition sample_ctx : ToolCtx := mk_tool_ctx (lit "/r") [lit "/r"].
(** A file system without links, in which every path exists. *)
Definition plain_canonicalize (_ : ToolWorld) (p : str) : IoKind + str := inr p.
Definition sample_files : gmap str (list Z) := {[ lit "/r/a" := lit "one" ++ [10] ++ lit "two" ++ [10]; lit "/r/bin" := [255] ]}.
Definition sample_world : ToolWorld :=
  mk_tool_world (mk_host (delete (lit "/r/bin") sample_files) [] (fun _ => true)) {[ lit "/r/a" := 3 ]} {[ lit "/r" ]} registry_new
    (mk_journal [] 0 (Temporary None)) 5.
Definition sample_call := file_call (fun b => b) plain_canonicalize (fun _ => None) (fun _ => None) (fun _ => mk_io false []) [] [] (fun _ => [])
  no_ratio no_percent quoted.
Definition in_root (p : str) : Prop := path_starts_with p (lit "/r") = true.
Definition is_text (b : list Z) : Prop := from_utf8 b <> None.
Definition sample_events : list ToolEvent :=
  [EvCall (CallWrite (mk_write (lit "b") (lit "x"))); EvTurn;
   EvCall (CallEdit (mk_edit (lit "/r/a") (lit "two") (lit "2") false));
   EvCall (CallAppend (mk_append (lit "/r/a") (lit "z" ++ [10]) (Some 6)));
   EvCall (CallEdit (mk_edit (lit "/r/a") (lit "none") (lit "2") false))].
Definition sample_run := run_events (fun b => b) plain_canonicalize (fun _ => None) (fun _ => None) (fun _ => mk_io false []) [] [] (fun _ => [])
  no_ratio no_percent quoted sample_ctx sample_world.
End Samples.

Lemma sample_scoped w p c : scoped (plain_canonicalize w) [lit "/r"] p = Ok c -> in_root c.
Proof.
  unfold scoped, in_root. destruct (under_root _ _ _) eqn:E; [|done]. intros [= <-].
  unfold under_root in E. cbn in E. by rewrite orb_false_r in E.
Qed.

Lemma sample_loose w p c : resolve_loose plain_canonicalize w sample_ctx p = Ok c -> in_root c.
Proof.
  unfold resolve_loose, resolve_within_loose, plain_canonicalize. destruct (has_parent_dir _); [done|]. apply (sample_scoped w).
Qed.

Lemma sample_accepts : accepts_user plain_canonicalize sample_ctx in_root.
Proof. intros w [i|i|i] canon H; [by apply (sample_scoped w) in H|by apply sample_loose in H..]. Qed.

Lemma text_world_check w : map_Forall (fun _ b => is_text b) (h_files (tw_host w)) ->
  text_world (fun _ => None) in_root is_text w.
Proof.
  intros H. split; intros p b _ Hp; specialize (H p b Hp); [|done]. split; [done|]. unfold is_text in H.
  destruct (from_utf8 b); [by eexists|done].
Qed.

Lemma check_texts (m : gmap str (list Z)) : forallb (fun p => match from_utf8 p.2 with Some _ => true | None => false end) (map_to_list m) = true ->
  map_Forall (fun _ b => is_text b) m.
Proof.
  intros H k b Hk. rewrite forallb_forall in H. unfold is_text.
  specialize (H (k, b) (proj1 (list_elem_of_In _ _) (proj2 (elem_of_map_to_list m k b) Hk))). cbn in H. by destruct (from_utf8 b).
Qed.

Lemma sample_text : map_Forall (fun _ b => is_text b) (h_files (tw_host sample_world)).
Proof. by apply check_texts. Qed.

Lemma tool_calls_rewind_witness :
  let w2 := sample_run (EvTurn :: sample_events) in
  let h3 := (rewind_session (tw_journal w2) (tw_host w2) 2).1.2 in
  h_files (tw_host w2) !! lit "/r/a" = Some (lit "one" ++ [10] ++ lit "2" ++ [10] ++ lit "z" ++ [10])
  /\ h_files (tw_host w2) !! lit "/r/b" = Some (lit "x" ++ [10])
  /\ h_files h3 !! lit "/r/a" = Some (lit "one" ++ [10] ++ lit "two" ++ [10]) /\ h_files h3 !! lit "/r/b" = None.
Proof.
  cbv zeta. split; [reflexivity|]. split; [reflexivity|].
  pose proof (tool_calls_rewind (fun b => b) plain_canonicalize (fun _ => None) (fun _ => None) (fun _ => mk_io false []) [] [] (fun _ => [])
    no_ratio no_percent quoted sample_ctx in_root is_text sample_world sample_events 2) as H.
  cbv zeta in H. fold (sample_run (EvTurn :: sample_events)) in H.
  destruct (rewind_session (tw_journal (sample_run (EvTurn :: sample_events))) _ 2) as [[j3 h3] rep].
  destruct H as [H _].
  - split; [by intros ????|]. by intros b p Hb.
  - constructor; [done| |done]. intros p c Hin Hp.
    exact (proj2 (text_world_check sample_world sample_text) p c Hin Hp).
  - apply sample_accepts.
  - repeat (apply list.Forall_cons; split; [by apply text_world_check, check_texts|]). done.
  - reflexivity.
  - cbn. lia.
  - constructor.
  - cbn [fst snd]. split; [rewrite (H (lit "/r/a")) by reflexivity; reflexivity|].
    rewrite (H (lit "/r/b")) by reflexivity. reflexivity.
Defined.



Lemma sample_apart w : storage_dir (cj_storage (tw_journal w)) = None -> blobs_apart (fun b => b) in_root w.
Proof. intros H c q. unfold blob. by rewrite H. Qed.

Definition sample_edit : FileCall := CallEdit (mk_edit (lit "/r/a") (lit "two") (lit "2") false).
Definition sample_append : FileCall := CallAppend (mk_append (lit "/r/a") (lit "z" ++ [10]) (Some 8)).
(** The sample world after a read and an outside write of the file. *)
Definition stale_world : ToolWorld :=
  mk_tool_world (mk_host sample_files [] (fun _ => true)) {[ lit "/r/a" := 4 ]} {[ lit "/r" ]}
    (registry_record registry_new (lit "/r/a") 3 (lit "old")) (mk_journal [] 1 (Temporary None)) 5.

Lemma reported_change_is_made_witness :
  exists m, let w' := (sample_call sample_world sample_ctx sample_edit).2 in
  (sample_call sample_world sample_ctx sample_edit).1
  = Ok (OOk m false [FileChange (lit "/r/a") (Some (lit "one" ++ [10] ++ lit "two" ++ [10])) (Some (lit "one" ++ [10] ++ lit "2" ++ [10]))])
  /\ h_files (tw_host w') !! lit "/r/a" = Some (lit "one" ++ [10] ++ lit "2" ++ [10])
  /\ current_read_state (fun b => b) (fun _ => None) [] w' (lit "/r/a") = Current.
Proof.
  eexists. split; [reflexivity|].
  destruct (reported_change_is_made (fun b => b) plain_canonicalize (fun _ => None) (fun _ => None) (fun _ => mk_io false []) [] []
    (fun _ => []) no_ratio no_percent quoted sample_ctx in_root sample_world sample_edit
    _ _ (lit "/r/a") _ _ _ (sample_apart sample_world eq_refl) sample_accepts (proj1 (text_world_check sample_world sample_text)) eq_refl) as (_ & H2 & H3).
  split; [exact H2|exact H3].
Defined.

Lemma outside_change_refused_witness :
  sample_call stale_world sample_ctx sample_edit = (Ok (stale_read_error (lit "/r/a")), stale_world).
Proof.
  apply (outside_change_refused (fun b => b) plain_canonicalize (fun _ => None) (fun _ => None) (fun _ => mk_io false []) [] []
    (fun _ => []) no_ratio no_percent quoted sample_ctx stale_world sample_edit (lit "/r/a") 3 (lit "old")); try reflexivity.
  left. by vm_compute.
Defined.

Lemma append_retry_refused_witness :
  exists message, (sample_call (sample_call sample_world sample_ctx sample_append).2 sample_ctx sample_append).1 = Ok (OError message false).
Proof.
  destruct (append_retry_refused (fun b => b) plain_canonicalize (fun _ => None) (fun _ => None) (fun _ => mk_io false []) [] []
    (fun _ => []) no_ratio no_percent quoted sample_ctx in_root sample_world (mk_append (lit "/r/a") (lit "z" ++ [10]) (Some 8)) 8
    _ _ (lit "/r/a") _ _ _ (lit "/r/a") (sample_apart sample_world eq_refl) sample_accepts eq_refl eq_refl ltac:(done) eq_refl eq_refl eq_refl) as (msg & w'' & H & _).
  exists msg. unfold sample_call, sample_append. exact (f_equal fst H).
Defined.

Lemma binary_overwrite_lost_witness :
  let w' := (sample_call stale_world sample_ctx (CallWrite (mk_write (lit "/r/bin") (lit "x")))).2 in
  h_files (tw_host stale_world) !! lit "/r/bin" = Some [255]
  /\ h_files (rewind_session (tw_journal w') (tw_host w') 1).1.2 !! lit "/r/bin" = None.
Proof.
  split; [reflexivity|].
  apply (binary_overwrite_lost (fun b => b) plain_canonicalize (fun _ => None) (fun _ => None) (fun _ => mk_io false []) [] []
    (fun _ => []) no_ratio no_percent quoted sample_ctx in_root stale_world (mk_write (lit "/r/bin") (lit "x")) (lit "/r/bin") [255]
    _ false (lit "/r/bin") None (Some (lit "x" ++ [10])) _ (sample_apart stale_world eq_refl) sample_accepts eq_refl eq_refl eq_refl eq_refl); [cbn; lia|constructor].
Defined.
