(* ===== verification/ToolsRead.v ===== *)
(** The tools that look at files and directories
    (src/crates/rc-tools/src/{read,read_many,list,util}.rs): numbered lines,
    bounded batches, sorted inventories, output caps.

    The directory walk of the third-party [ignore] crate and the polling of
    the cancellation token are parameters. *)

From S2P Require Import Prelude Utf8 Text Wire Cost Turn Journal PathLib PermPath EditText Tools.
From stdpp Require Import sorting.
#[local] Open Scope Z_scope.

(** ** Output caps *)

(** [cap_output] *)
Definition cap_output (s : str) (cap head tail : nat) : bool * str :=
  if (cap =? 0)%nat then (false, s)
  else
    let n := length s in
    if (n <=? cap)%nat then (false, s)
    else (true, take head s ++ [10; 8230] ++ lit " [" ++ show_z (Z.of_nat n - Z.of_nat head - Z.of_nat tail) ++ lit " chars elided] "
                ++ [8230; 10] ++ drop (n - tail) s).

(** [truncate_utf8_bytes] *)
Definition SENTINEL : str := [10; 91; 8230] ++ lit " section truncated]" ++ [10].
Definition truncate_utf8_bytes (text : str) (cap : Z) : str * bool :=
  if byte_len text <=? cap then (text, false)
  else
    let output := str_upto text (floor_char_boundary text (sat_sub cap (byte_len SENTINEL))) in
    (if byte_len output + byte_len SENTINEL <=? cap then output ++ SENTINEL else output, true).

(** [dangerous_command] *)
Definition CATACLYSMIC : list str :=
  [lit "rm -rf /"; lit "rm -rf ~"; lit "rm -rf /*"; lit "rm -fr /"; lit "rm -fr ~"; lit "rm -fr /*"; lit "rm -rf $HOME";
   lit "rm -rf $PWD"; lit "mkfs"; lit "dd of=/dev/"; lit "chmod -R 777 /"; lit ":(){:|:&};:"; lit "shutdown"; lit "reboot";
   lit "halt -p"; lit "init 0"].
Definition dangerous_command (cmd : str) : option str :=
  if existsb (contains cmd) CATACLYSMIC
  then Some (lit "command refused by the M2 safety floor (destructive); M3 adds the real permission engine")
  else
    let trimmed := trim_start cmd in
    if starts_with trimmed (lit "sudo ") || str_eqb trimmed (lit "sudo") || starts_with trimmed (lit "sudo" ++ [9])
    then Some (lit "sudo is not permitted") else None.

(** ** Read *)

(** [Read]; [ReadInput], whose numbers are [u32]. *)
Record Read := mk_read { rd_default_limit : Z; rd_max_line_chars : nat }.
Record ReadInput := mk_read_input { ri_file_path : str; ri_offset : option Z; ri_limit : option Z }.

Definition truncate_line (line : str) (max_line_chars : nat) : str :=
  if (max_line_chars =? 0)%nat then line
  else if (length line <=? max_line_chars)%nat then line
  else take max_line_chars line ++ [32; 8230] ++ lit "[+" ++ show_z (Z.of_nat (length line - max_line_chars)) ++ lit " chars truncated]".

Definition render_lines (text : str) (offset limit : option Z) (default_limit : Z) (max_line_chars : nat) : str :=
  let ls := lines text in
  let total := length ls in
  let offset := Z.max (default 1 offset) 1 in
  let limit := default default_limit limit in
  let limit := if limit =? 0 then total else Z.to_nat limit in
  let start := Z.to_nat (sat_sub offset 1) in
  if (total <=? start)%nat then
    lit "<offset " ++ show_z offset ++ lit " is beyond the end of the file (" ++ show_z (Z.of_nat total) ++ lit " lines)>"
  else
    let end_ := Nat.min (start + limit) total in
    numbered start (map (fun line => truncate_line line max_line_chars) (take (end_ - start) (drop start ls))).

Definition BINARY_SCAN : nat := 8192.

Section Readers.
Context (digest_hex : list Z -> str).
Context (canonicalize : ToolWorld -> str -> IoKind + str).
Context (unreadable : str -> option FsError).
Context (not_found_text : str) (io_kind_text : IoKind -> str).

(** [Read::call] *)
Definition read_call (rd : Read) (w : ToolWorld) (ctx : ToolCtx) (inp : ReadInput) : res unit ToolOutcome * ToolWorld :=
  match resolve_loose canonicalize w ctx (ri_file_path inp) with
  | Panic => (Panic, w)
  | Err e => (Ok (tool_error (path_error_text io_kind_text e) false), w)
  | Ok canon =>
      match fs_read unreadable not_found_text w canon with
      | inl e =>
          if io_not_found e then (Ok (OOk (lit "<file does not exist: " ++ canon ++ lit ">") false []), w)
          else (Ok (tool_error (canon ++ lit ": " ++ io_text e) true), w)
      | inr bytes =>
          if is_nil bytes then (Ok (OOk (lit "<file is empty>") false []), record_read digest_hex unreadable not_found_text w canon)
          else if existsb (Z.eqb 0) (take BINARY_SCAN bytes) then
            (Ok (tool_error (lit "binary file (" ++ show_z (length_z bytes) ++ lit " bytes) " ++ [8212] ++ lit " not displayed") false), w)
          else
            match from_utf8 bytes with
            | None => (Ok (tool_error (lit "file is not valid UTF-8 " ++ [8212] ++ lit " not displayed") false), w)
            | Some text =>
                (Ok (OOk (render_lines text (ri_offset inp) (ri_limit inp) (rd_default_limit rd) (rd_max_line_chars rd)) false []),
                 record_read digest_hex unreadable not_found_text w canon)
            end
      end
  end.

(** ** ReadMany *)

Definition MAX_FILES : nat := 64.
Definition DEFAULT_BATCH_CAP : Z := 262144.

(** [ReadMany]; its three limits, the cap as configured. *)
Record ReadMany := mk_read_many { rm_default_limit : Z; rm_max_line_chars : nat; rm_output_cap : Z }.
Definition read_many_with_limits (default_limit : Z) (max_line_chars : nat) (configured_output_cap : Z) : ReadMany :=
  mk_read_many default_limit max_line_chars
    (if configured_output_cap =? 0 then DEFAULT_BATCH_CAP else Z.min configured_output_cap DEFAULT_BATCH_CAP).

Record ReadManyInput := mk_read_many_input { rmi_file_paths : list str; rmi_limit : option Z }.

(** The paths not seen before, in their order. *)
Fixpoint unseen (seen : list str) (paths : list str) : list str :=
  match paths with
  | [] => []
  | p :: rest => if decide (p ∈ seen) then unseen seen rest else p :: unseen (p :: seen) rest
  end.

Definition batch_header (path : str) : str := lit "===== " ++ path ++ lit " =====" ++ [10].

(** What a file's outcome contributes: its text and whether it was truncated,
    or [None] for an interruption. *)
Definition batch_section (o : ToolOutcome) : option (str * bool) :=
  match o with
  | OOk content truncated _ => Some (content, truncated)
  | OError message _ => Some (lit "<error: " ++ message ++ lit ">", false)
  | ODenied reason => Some (lit "<denied: " ++ reason ++ lit ">", false)
  | OInterrupted => None
  end.

Definition end_section (content : str) : str := (if ends_with content [10] then content else content ++ [10]) ++ [10].

(** The loop over the paths: [Ok (inl _)] ends the batch early.  [cancelled k]
    is the token when [k] paths are still to read. *)
Fixpoint read_batch (rd : Read) (ctx : ToolCtx) (limit : option Z) (per_file_cap : Z) (cancelled : nat -> bool)
  (paths : list str) (w : ToolWorld) (content : str) (truncated : bool)
  : res unit (ToolOutcome + str * bool) * ToolWorld :=
  match paths with
  | [] => (Ok (inr (content, truncated)), w)
  | path :: rest =>
      if cancelled (length paths) then (Ok (inl OInterrupted), w)
      else
        let content := content ++ batch_header path in
        match read_call rd w ctx (mk_read_input path None limit) with
        | (Ok outcome, w) =>
            match batch_section outcome with
            | None => (Ok (inl OInterrupted), w)
            | Some (section, section_truncated) =>
                let '(section, cut) := truncate_utf8_bytes section per_file_cap in
                read_batch rd ctx limit per_file_cap cancelled rest w (end_section (content ++ section))
                  (truncated || section_truncated || cut)
            end
        | (Err e, w) => (Err e, w)
        | (Panic, w) => (Panic, w)
        end
  end.

Definition omitted_note (omitted : nat) : str :=
  if (0 <? omitted)%nat then [91; 8230; 32] ++ show_z (Z.of_nat omitted) ++ lit " additional paths omitted]" ++ [10] else [].

Definition per_file_cap (rm : ReadMany) (paths : list str) : Z :=
  sat_sub (rm_output_cap rm) 1024 / Z.max (length_z paths) 1.

(** [ReadMany::call] *)
Definition read_many_call (rm : ReadMany) (cancelled : nat -> bool) (w : ToolWorld) (ctx : ToolCtx) (inp : ReadManyInput)
  : res unit ToolOutcome * ToolWorld :=
  if is_nil (rmi_file_paths inp) then (Ok (tool_error (lit "file_paths must contain at least one path") true), w)
  else
    let paths := unseen [] (rmi_file_paths inp) in
    let omitted := (length paths - MAX_FILES)%nat in
    let paths := take MAX_FILES paths in
    let rd := mk_read (rm_default_limit rm) (rm_max_line_chars rm) in
    match read_batch rd ctx (rmi_limit inp) (per_file_cap rm paths) cancelled paths w [] (0 <? omitted)%nat with
    | (Ok (inl o), w) => (Ok o, w)
    | (Ok (inr (content, truncated)), w) =>
        let '(content, final_truncated) := truncate_utf8_bytes (content ++ omitted_note omitted) (rm_output_cap rm) in
        (Ok (OOk content (truncated || final_truncated) []), w)
    | (Err e, w) => (Err e, w)
    | (Panic, w) => (Panic, w)
    end.

(** ** List *)

(** An entry of the walk: its depth, its path, its type, its length when the
    metadata can be read. *)
Inductive FileType := FtDir | FtFile | FtSymlink | FtOther.
Record WalkEntry := mk_walk { we_depth : nat; we_path : str; we_type : option FileType; we_len : option Z }.
Context (walk : ToolWorld -> str -> option nat -> list WalkEntry).

Record Entry := mk_list_entry { en_path : str; en_kind : str; en_size : option Z }.
Record ListTool := mk_list { lt_entry_cap : nat; lt_output_cap : Z }.
Record ListInput := mk_list_input { li_path : option str; li_recursive : bool }.

(** A walk entry as a row; the root itself and untyped entries give none. *)
Definition list_entry (root : str) (e : WalkEntry) : option Entry :=
  if (we_depth e =? 0)%nat then None
  else
    match we_type e with
    | None => None
    | Some ft =>
        let display := default (we_path e) (path_strip_prefix (we_path e) root) in
        Some match ft with
             | FtDir => mk_list_entry (display ++ lit "/") (lit "dir") None
             | FtFile => mk_list_entry display (lit "file") (we_len e)
             | FtSymlink => mk_list_entry display (lit "symlink") None
             | FtOther => mk_list_entry display (lit "other") None
             end
    end.

Definition entry_le (a b : Entry) : Prop := str_le (en_path a) (en_path b).
#[export] Instance entry_le_dec : RelDecision entry_le.
Proof. intros a b. apply str_le_dec. Defined.

Definition list_row (e : Entry) : str :=
  en_path e ++ [9] ++ en_kind e ++ [9] ++ match en_size e with Some n => show_z n | None => [8212] end ++ [10].
Definition list_header : str := lit "path" ++ [9] ++ lit "type" ++ [9] ++ lit "size_bytes" ++ [10].
Definition omission_row (n : nat) : str :=
  [8230; 9] ++ lit "omitted" ++ [9] ++ show_z (Z.of_nat n) ++ lit " more entries; narrow path or use Glob" ++ [10].

(** The rows that fit, and how many they are. *)
Fixpoint list_rows (output_cap : Z) (entries : list Entry) (content : str) (kept : nat) : str * nat :=
  match entries with
  | [] => (content, kept)
  | e :: rest =>
      let row := list_row e in
      if negb (output_cap =? 0) && (output_cap <? byte_len content + byte_len row) then (content, kept)
      else list_rows output_cap rest (content ++ row) (S kept)
  end.

Definition list_table (lt : ListTool) (entries : list Entry) : str * bool :=
  let entries := merge_sort entry_le entries in
  let max_entries := if (lt_entry_cap lt =? 0)%nat then length entries else Nat.min (lt_entry_cap lt) (length entries) in
  let '(content, kept) := list_rows (lt_output_cap lt) (take max_entries entries) list_header 0 in
  let truncated := (kept <? length entries)%nat in
  (if truncated then content ++ omission_row (length entries - kept) else content, truncated).

(** [List::call] *)
Definition list_call (lt : ListTool) (w : ToolWorld) (ctx : ToolCtx) (inp : ListInput) : res unit ToolOutcome :=
  let root := match li_path inp with
              | Some path => resolve_exact canonicalize w ctx path
              | None => Ok match canonicalize w (tx_cwd ctx) with inr c => c | inl _ => tx_cwd ctx end
              end in
  match root with
  | Panic => Panic
  | Err e => Ok (tool_error (path_error_text io_kind_text e) false)
  | Ok root =>
      if bool_decide (root ∈ tw_dirs w) then
        let found := walk w root (if li_recursive inp then None else Some 1%nat) in
        let '(content, truncated) := list_table lt (omap (list_entry root) found) in
        Ok (OOk content truncated [])
      else Ok (tool_error (root ++ lit " is not a directory") false)
  end.
End Readers.

(** ** Lemmas: pages *)

Lemma numbered_app start a b : numbered start (a ++ b) = numbered start a ++ numbered (start + length a) b.
Proof.
  unfold numbered. rewrite length_app. replace (start + length a + 1)%nat with (start + 1 + length a)%nat by lia.
  rewrite seq_app, <- concat_app, <- map_app. do 2 f_equal.
  rewrite zip_with_app by (by rewrite length_seq). done.
Qed.

Lemma render_page text i n d m :
  (0 < n)%nat -> (i * n < length (lines text))%nat ->
  render_lines text (Some (Z.of_nat (i * n) + 1)) (Some (Z.of_nat n)) d m
  = numbered (i * n) (map (fun l => truncate_line l m) (take n (drop (i * n) (lines text)))).
Proof.
  intros Hn Hi. unfold render_lines. cbn [default from_option id].
  replace (Z.max (Z.of_nat (i * n) + 1) 1) with (Z.of_nat (i * n) + 1) by lia. unfold sat_sub.
  replace (Z.to_nat (Z.max 0 (Z.of_nat (i * n) + 1 - 1))) with (i * n)%nat by lia.
  destruct (Z.eqb_spec (Z.of_nat n) 0); [lia|]. rewrite Nat2Z.id. destruct (Nat.leb_spec (length (lines text)) (i * n)); [lia|].
  do 2 f_equal. destruct (Nat.le_gt_cases (i * n + n) (length (lines text))).
  - f_equal. lia.
  - rewrite !take_ge; [done|rewrite length_drop; lia..].
Qed.

Lemma render_all text d m : text <> [] -> render_lines text None (Some 0) d m = numbered 0 (map (fun l => truncate_line l m) (lines text)).
Proof.
  intros Ht. unfold render_lines. cbn [default from_option id]. change (Z.to_nat (sat_sub (Z.max 1 1) 1)) with 0%nat.
  destruct (Nat.leb_spec (length (lines text)) 0) as [H|H].
  - exfalso. apply Ht. destruct (lines text) eqn:E; [|cbn in H; lia]. unfold lines in E. apply map_eq_nil in E.
    pose proof (split_inclusive_concat text []) as Hc. by rewrite E in Hc.
  - cbn [Z.eqb]. rewrite drop_0, take_ge by lia. done.
Qed.

(** reading a file page by page shows what reading it whole shows.  For
    any page size, the answers to [offset = 1, n + 1, 2n + 1, ...] with
    [limit = n], as many as are needed to reach the last line, concatenate to
    the answer without offset and limit: no line is skipped, repeated or
    renumbered at a page boundary. *)
Theorem pages_cover text n d m :
  text <> [] -> (0 < n)%nat ->
  let pages := ((length (lines text) + n - 1) / n)%nat in
  concat (map (fun i => render_lines text (Some (Z.of_nat (i * n) + 1)) (Some (Z.of_nat n)) d m) (seq 0 pages))
  = render_lines text None (Some 0) d m.
Proof.
  intros Ht Hn pages. rewrite render_all by done.
  assert (forall k, (forall i, (i < k)%nat -> (i * n < length (lines text))%nat) ->
    concat (map (fun i => render_lines text (Some (Z.of_nat (i * n) + 1)) (Some (Z.of_nat n)) d m) (seq 0 k))
    = numbered 0 (map (fun l => truncate_line l m) (take (k * n) (lines text)))) as H.
  { induction k as [|k IH]; intros Hk; [done|]. rewrite seq_S, map_app, concat_app, IH by auto.
    cbn [map concat Nat.add]. rewrite app_nil_r, render_page by auto.
    replace (S k * n)%nat with (k * n + n)%nat by lia. rewrite <- (take_take_drop (lines text) (k * n) n), map_app, numbered_app.
    rewrite length_map, length_take, Nat.min_l by (specialize (Hk k); lia). done. }
  rewrite H.
  - rewrite take_ge; [done|]. subst pages. pose proof (Nat.div_mod_eq (length (lines text) + n - 1) n).
    pose proof (Nat.mod_upper_bound (length (lines text) + n - 1) n). nia.
  - intros i Hi. subst pages.
    assert (n * S i <= length (lines text) + n - 1)%nat; [|nia].
    etransitivity; [|apply (Nat.Div0.mul_div_le _ n)]. apply Nat.mul_le_mono_l. lia.
Qed.

(** ** Lemmas: bounded text *)

Lemma truncate_utf8_bytes_len s cap : 0 <= cap -> byte_len (truncate_utf8_bytes s cap).1 <= cap.
Proof.
  intros Hc. unfold truncate_utf8_bytes. destruct (Z.leb_spec (byte_len s) cap); [done|]. cbn [fst].
  set (out := str_upto _ _). destruct (Z.leb_spec (byte_len out + byte_len SENTINEL) cap); [by rewrite byte_len_app|].
  unfold out. rewrite str_upto_floor by (unfold sat_sub; change (byte_len SENTINEL) with 25; lia).
  assert (0 <= sat_sub cap (byte_len SENTINEL)) as Hs by (unfold sat_sub; lia).
  pose proof (take_bytes_len _ s Hs). unfold sat_sub in *. change (byte_len SENTINEL) with 25 in *. lia.
Qed.

Lemma truncate_fits s cap : byte_len s <= cap -> truncate_utf8_bytes s cap = (s, false).
Proof. intros H. unfold truncate_utf8_bytes. destruct (Z.leb_spec (byte_len s) cap); [done|lia]. Qed.

(** ** Lemmas: reading *)

Section Reading.
Context (digest_hex : list Z -> str).
Context (canonicalize : ToolWorld -> str -> IoKind + str).
Context (unreadable : str -> option FsError).
Context (not_found_text : str) (io_kind_text : IoKind -> str).
Context (ctx : ToolCtx).

Definition read_file := read_call digest_hex canonicalize unreadable not_found_text io_kind_text.

(** A read changes nothing but the registry. *)
Lemma read_registers rd w inp :
  (read_file rd w ctx inp).2 = w
  \/ exists canon, resolve_loose canonicalize w ctx (ri_file_path inp) = Ok canon
      /\ (read_file rd w ctx inp).2 = record_read digest_hex unreadable not_found_text w canon.
Proof.
  unfold read_file, read_call. destruct (resolve_loose _ _ _ _) as [canon| |]; [|auto..].
  repeat (case_match; cbn [snd]; eauto).
Qed.

Lemma resolve_loose_total w p : resolve_loose canonicalize w ctx p <> Panic.
Proof.
  unfold resolve_loose, resolve_within_loose. set (abs := absolutize _ _). destruct (has_parent_dir abs); [done|].
  destruct (canonicalize w abs).
  - pose proof (find_ancestor_total (canonicalize w) (walk_fuel abs) abs abs []) as H.
    destruct (find_ancestor _ _ _ _ _) as [[[c m]|e|]|]; unfold scoped; try case_match; naive_solver.
  - unfold scoped. by case_match.
Qed.

(** *** Batches *)

(** Path resolution does not look at the registry. *)
Hypothesis registry_irrelevant : forall w r p, canonicalize (set_registry w r) p = canonicalize w p.

Lemma read_any_registry rd w r inp : (read_file rd (set_registry w r) ctx inp).1 = (read_file rd w ctx inp).1.
Proof.
  unfold read_file, read_call.
  assert (resolve_loose canonicalize (set_registry w r) ctx (ri_file_path inp) = resolve_loose canonicalize w ctx (ri_file_path inp)) as ->.
  { assert (forall p, resolve_within_loose (canonicalize (set_registry w r)) (tx_allowed_roots ctx) (tx_cwd ctx) p
                      = resolve_within_loose (canonicalize w) (tx_allowed_roots ctx) (tx_cwd ctx) p) as H; [|unfold resolve_loose; by rewrite H].
    assert (forall p, canonicalize (set_registry w r) p = canonicalize w p) as Hc by auto. revert Hc.
    generalize (canonicalize (set_registry w r)) (canonicalize w). intros f g Hc p.
    assert (forall c, scoped f (tx_allowed_roots ctx) c = scoped g (tx_allowed_roots ctx) c) as Hs.
    { intros c. assert (forall q, root_canon f q = root_canon g q) as Hr by (intros q; unfold root_canon; by rewrite Hc).
      assert (under_root f c (tx_allowed_roots ctx) = under_root g c (tx_allowed_roots ctx)) as Hu.
      { unfold under_root. induction (tx_allowed_roots ctx) as [|q l IH]; [done|]. cbn. by rewrite Hr, IH. }
      unfold scoped, outside_err. rewrite Hu. by rewrite (map_ext _ _ Hr). }
    assert (forall n abs anc miss, find_ancestor f n abs anc miss = find_ancestor g n abs anc miss) as Hf.
    { intros n. induction n as [|n IH]; intros abs anc miss; [done|]. cbn. rewrite Hc. by repeat case_match. }
    unfold resolve_within_loose. rewrite Hc, Hf. repeat case_match; by rewrite ?Hs. }
  destruct (resolve_loose _ _ _ _) as [canon| |]; [|done..].
  change (fs_read unreadable not_found_text (set_registry w r) canon) with (fs_read unreadable not_found_text w canon).
  by repeat case_match.
Qed.

Lemma read_world rd w inp : exists r, (read_file rd w ctx inp).2 = set_registry w r.
Proof.
  destruct (read_registers rd w inp) as [->|(canon & _ & ->)]; [exists (tw_registry w); by destruct w|by eexists].
Qed.

Lemma read_answers rd w inp : exists o, (read_file rd w ctx inp).1 = Ok o /\ is_Some (batch_section o).
Proof.
  unfold read_file, read_call. pose proof (resolve_loose_total w (ri_file_path inp)).
  destruct (resolve_loose _ _ _ _) as [canon| |]; [|by eexists|done]. repeat case_match; by eexists.
Qed.

(** What the batch shows of a file: its bounded section. *)
Definition shown (rd : Read) (w : ToolWorld) (limit : option Z) (cap : Z) (path : str) : str :=
  match (read_file rd w ctx (mk_read_input path None limit)).1 with
  | Ok o => match batch_section o with Some (s, _) => (truncate_utf8_bytes s cap).1 | None => [] end
  | _ => []
  end.
Definition batch_part (rd : Read) (w : ToolWorld) (limit : option Z) (cap : Z) (path : str) : str :=
  end_section (batch_header path ++ shown rd w limit cap path).

Lemma end_section_app a b : b <> [] -> end_section (a ++ b) = a ++ end_section b.
Proof.
  intros Hb. unfold end_section. destruct (exists_last Hb) as (b' & c & ->). rewrite (app_assoc a b'), !ends_with_snoc.
  destruct (c =? 10); by rewrite <- ?app_assoc.
Qed.

Lemma batch_header_nonempty p s : batch_header p ++ s <> [].
Proof. done. Qed.

Definition run_batch := read_batch digest_hex canonicalize unreadable not_found_text io_kind_text.

(** Without a cancellation the loop shows every path, in order. *)
Lemma run_batch_spec rd limit cap cancelled w0 : (forall k, cancelled k = false) -> forall paths r content tr,
  exists tr' w', run_batch rd ctx limit cap cancelled paths (set_registry w0 r) content tr
    = (Ok (inr (content ++ concat (map (batch_part rd w0 limit cap) paths), tr')), w').
Proof.
  intros Hc. induction paths as [|p paths IH]; intros r content tr; cbn [run_batch read_batch map concat].
  - rewrite app_nil_r. unfold run_batch. cbn. eauto.
  - unfold run_batch in *. cbn [read_batch]. rewrite Hc. fold read_file.
    pose proof (read_any_registry rd w0 r (mk_read_input p None limit)) as Hr.
    destruct (read_world rd (set_registry w0 r) (mk_read_input p None limit)) as [r' Hw].
    destruct (read_answers rd w0 (mk_read_input p None limit)) as (o & Ho & [sec Hsec]).
    destruct (read_file rd (set_registry w0 r) ctx (mk_read_input p None limit)) as [o' w'] eqn:E. cbn [fst snd] in *.
    rewrite Hr, Ho, Hsec. destruct sec as [s st]. destruct (truncate_utf8_bytes s cap) as [s' cut] eqn:Et.
    assert (w' = set_registry w0 r') as -> by (rewrite Hw; by destruct w0).
    destruct (IH r' (end_section ((content ++ batch_header p) ++ s')) (tr || st || cut)) as (tr' & w'' & ->).
    exists tr', w''. do 4 f_equal. rewrite <- app_assoc, end_section_app by apply batch_header_nonempty.
    rewrite <- app_assoc. do 2 f_equal. unfold batch_part, shown. by rewrite Ho, Hsec, Et.
Qed.

(** A batch that ends early was interrupted. *)
Lemma run_batch_early rd limit cap cancelled paths : forall w content tr o w',
  run_batch rd ctx limit cap cancelled paths w content tr = (Ok (inl o), w') -> o = OInterrupted.
Proof.
  induction paths as [|p paths IH]; intros w content tr o w'; unfold run_batch in *; cbn [read_batch]; [done|].
  destruct (cancelled _); [by intros [= <- _]|]. destruct (read_call _ _ _ _ _ _ _ _ _) as [[o'|e|] w1]; [|done|done].
  destruct (batch_section o') as [[s st]|]; [|by intros [= <- _]]. destruct (truncate_utf8_bytes s cap). apply IH.
Qed.

Lemma end_section_len s : byte_len (end_section s) <= byte_len s + 2.
Proof. unfold end_section. case_match; rewrite !byte_len_app; change (byte_len [10]) with 1; lia. Qed.

Definition headers_len (paths : list str) : Z := foldr (fun p n => byte_len (batch_header p) + 2 + n) 0 paths.

Lemma parts_len rd w limit cap paths : 0 <= cap ->
  byte_len (concat (map (batch_part rd w limit cap) paths)) <= headers_len paths + length_z paths * cap.
Proof.
  intros Hc. induction paths as [|p paths IH]; [done|]. cbn [map concat headers_len foldr]. fold (headers_len paths).
  rewrite byte_len_app. unfold batch_part at 1. pose proof (end_section_len (batch_header p ++ shown rd w limit cap p)).
  rewrite byte_len_app in H. assert (byte_len (shown rd w limit cap p) <= cap).
  { unfold shown. repeat case_match; try (cbn; lia). by apply truncate_utf8_bytes_len. }
  unfold length_z in *. cbn [length]. lia.
Qed.

Definition read_many := read_many_call digest_hex canonicalize unreadable not_found_text io_kind_text.

(** one large file cannot crowd the others out of a batch.  A ReadMany
    answer never exceeds its byte cap, whether or not the call is cancelled;
    and when it is not cancelled and the headers (and the note of omitted
    paths) fit the kilobyte set aside for them, the answer shows every
    distinct path among the first 64, in order, each with its header and its
    own share of the budget, none cut by the final cap. *)
Theorem batch_shows_every_file rm cancelled w inp :
  0 <= rm_output_cap rm ->
  let paths := take MAX_FILES (unseen [] (rmi_file_paths inp)) in
  let omitted := (length (unseen [] (rmi_file_paths inp)) - MAX_FILES)%nat in
  let rd := mk_read (rm_default_limit rm) (rm_max_line_chars rm) in
  (forall c t a w', rmi_file_paths inp <> [] -> read_many rm cancelled w ctx inp = (Ok (OOk c t a), w') -> byte_len c <= rm_output_cap rm)
  /\ (rmi_file_paths inp <> [] -> (forall k, cancelled k = false) -> 1024 <= rm_output_cap rm ->
      headers_len paths + byte_len (omitted_note omitted) <= 1024 ->
      exists t w', read_many rm cancelled w ctx inp
        = (Ok (OOk (concat (map (batch_part rd w (rmi_limit inp) (per_file_cap rm paths)) paths) ++ omitted_note omitted) t []), w')).
Proof.
  intros Hcap paths omitted rd. unfold read_many, read_many_call. fold run_batch. fold paths omitted rd. split.
  - intros c t a w' Hne. destruct (is_nil (rmi_file_paths inp)) eqn:En; [by apply is_nil_true in En|].
    destruct (run_batch _ _ _ _ _ _ _ _) as [[[o|[content tr]]|e|] w1] eqn:Er; [|..|done|done].
    + apply run_batch_early in Er as ->. done.
    + destruct (truncate_utf8_bytes _ _) as [c' ft] eqn:E. intros [= <- _ _ _].
      pose proof (truncate_utf8_bytes_len (content ++ omitted_note omitted) _ Hcap) as H. by rewrite E in H.
  - intros Hne Hc Hbig Hh. destruct (is_nil (rmi_file_paths inp)) eqn:En; [by apply is_nil_true in En|].
    destruct (run_batch_spec rd (rmi_limit inp) (per_file_cap rm paths) cancelled w Hc paths (tw_registry w) [] (0 <? omitted)%nat) as (tr & w1 & E).
    assert (set_registry w (tw_registry w) = w) as Hw by (by destruct w). rewrite Hw in E. rewrite E.
    rewrite truncate_fits; [eauto|]. rewrite app_nil_l, byte_len_app.
    pose proof (parts_len rd w (rmi_limit inp) (per_file_cap rm paths) paths) as Hp. unfold per_file_cap, sat_sub in *.
    assert (length_z paths * (Z.max 0 (rm_output_cap rm - 1024) / Z.max (length_z paths) 1) <= rm_output_cap rm - 1024) as Hq.
    { rewrite Z.max_r by lia. unfold length_z. destruct paths as [|p ps]; [cbn; lia|].
      rewrite Z.max_l by (cbn [length]; lia). apply Z.mul_div_le. cbn [length]. lia. }
    assert (0 <= Z.max 0 (rm_output_cap rm - 1024) / Z.max (length_z paths) 1) by (apply Z.div_pos; lia). lia.
Qed.
End Reading.

(** a read makes the file editable.  A Read that registers a file (every
    read of readable text, and of an empty file) leaves files, directories
    and journal alone, and the next Edit, Write or Append of that file finds
    it read and unchanged; a Read of a missing, binary or undecodable file
    registers nothing. *)
Theorem read_then_current digest_hex canonicalize unreadable not_found_text io_kind_text ctx rd w inp canon mtime :
  resolve_loose canonicalize w ctx (ri_file_path inp) = Ok canon -> mtime_of w canon = Some mtime ->
  let '(o, w') := read_file digest_hex canonicalize unreadable not_found_text io_kind_text rd w ctx inp in
  kept w' = kept w /\ tw_dirs w' = tw_dirs w
  /\ match h_files (tw_host w) !! canon with
     | Some b =>
         if bool_decide (unreadable canon = None)
            && (is_nil b || (negb (existsb (Z.eqb 0) (take BINARY_SCAN b)) && bool_decide (is_Some (from_utf8 b))))
         then current_read_state digest_hex unreadable not_found_text w' canon = Current
         else w' = w
     | None => w' = w
     end.
Proof.
  intros Hr Hm.
  assert (current_read_state digest_hex unreadable not_found_text (record_read digest_hex unreadable not_found_text w canon) canon = Current) as Hcur.
  { unfold current_read_state, registry_get. rewrite (bytes_same _ _ w) by done. cbn. rewrite lookup_insert_eq, Hm.
    unfold mtime_of in *. cbn. by rewrite Hm, bool_decide_true, str_eqb_refl. }
  unfold read_file, read_call. rewrite Hr. unfold fs_read.
  destruct (h_files (tw_host w) !! canon) as [b|]; [|done].
  destruct (unreadable canon) as [e|].
  { rewrite bool_decide_false by done. cbn. by destruct (io_not_found e). }
  rewrite bool_decide_true by done. cbn [andb]. destruct b as [|x b]; [done|]. cbn [is_nil orb].
  destruct (existsb _ _); [done|]. cbn [negb andb].
  destruct (from_utf8 (x :: b)) as [s|]; [rewrite bool_decide_true by (by eexists)|rewrite bool_decide_false by (by intros [? ?])]; done.
Qed.

(** ** Lemmas: inventories *)

Lemma list_rows_spec cap entries : forall content kept,
  exists shown rest, entries = shown ++ rest
    /\ list_rows cap entries content kept = (content ++ concat (map list_row shown), (kept + length shown)%nat)
    /\ (cap <> 0 -> byte_len content <= cap -> byte_len (content ++ concat (map list_row shown)) <= cap)
    /\ match rest with
       | [] => True
       | e :: _ => cap <> 0 /\ cap < byte_len (content ++ concat (map list_row shown)) + byte_len (list_row e)
       end.
Proof.
  induction entries as [|e entries IH]; intros content kept; cbn [list_rows].
  - exists [], []. cbn. rewrite app_nil_r, Nat.add_0_r. done.
  - destruct (negb (cap =? 0) && (cap <? byte_len content + byte_len (list_row e))) eqn:E.
    + apply andb_true_iff in E as [E1 E2]. apply negb_true_iff, Z.eqb_neq in E1. apply Z.ltb_lt in E2.
      exists [], (e :: entries). cbn [concat map length app]. rewrite app_nil_r, Nat.add_0_r. done.
    + apply andb_false_iff in E. rewrite negb_false_iff, Z.eqb_eq, Z.ltb_ge in E.
      destruct (IH (content ++ list_row e) (S kept)) as (shown & rest & -> & -> & Hle & Hn).
      exists (e :: shown), rest. cbn [map concat length]. rewrite <- app_assoc in *. split_and!; [done|f_equal; lia| |done].
      intros Hc Hb. apply Hle; [done|]. rewrite byte_len_app. lia.
Qed.

#[export] Instance entry_le_total : Total entry_le.
Proof. intros a b. apply str_le_total. Qed.
#[export] Instance entry_le_trans : Transitive entry_le.
Proof. intros a b c. apply str_le_trans. Qed.

(** an inventory is the largest sorted prefix that fits.  The rows of a
    List answer are the first entries of the directory in path order, each
    entry once; they stay within the entry cap and, headers included, within
    the byte cap; the next entry would break one of the two; and when
    entries are left out the last row says exactly how many. *)
Theorem inventory_is_sorted_prefix lt entries :
  byte_len list_header <= lt_output_cap lt \/ lt_output_cap lt = 0 ->
  exists shown rest,
    shown ++ rest ≡ₚ entries /\ StronglySorted entry_le (shown ++ rest)
    /\ list_table lt entries
       = (list_header ++ concat (map list_row shown) ++ (if is_nil rest then [] else omission_row (length rest)), negb (is_nil rest))
    /\ (lt_entry_cap lt <> 0%nat -> (length shown <= lt_entry_cap lt)%nat)
    /\ (lt_output_cap lt <> 0 -> byte_len (list_header ++ concat (map list_row shown)) <= lt_output_cap lt)
    /\ match rest with
       | [] => True
       | e :: _ => lt_entry_cap lt = length shown
                   \/ (lt_output_cap lt <> 0 /\ lt_output_cap lt < byte_len (list_header ++ concat (map list_row shown)) + byte_len (list_row e))
       end.
Proof.
  intros Hcap. set (sorted := merge_sort entry_le entries).
  assert (sorted ≡ₚ entries) as Hp by apply merge_sort_Permutation.
  assert (StronglySorted entry_le sorted) as Hs by (apply StronglySorted_merge_sort; apply _).
  set (n := if (lt_entry_cap lt =? 0)%nat then length sorted else Nat.min (lt_entry_cap lt) (length sorted)).
  destruct (list_rows_spec (lt_output_cap lt) (take n sorted) list_header 0) as (shown & rest & Ht & Hr & Hle & Hn).
  assert (sorted = shown ++ rest ++ drop n sorted) as Hsplit by (by rewrite app_assoc, <- Ht, take_drop).
  assert (n <= length sorted)%nat as Hnl by (subst n; destruct (_ =? 0)%nat; lia).
  assert (length shown + length rest = n)%nat as Hlen by (rewrite <- length_app, <- Ht, length_take; lia).
  exists shown, (rest ++ drop n sorted). rewrite <- Hsplit. split_and!; [done|done| | | |].
  - unfold list_table. fold sorted. fold n. rewrite Hr. cbn [Nat.add].
    assert (length sorted = length shown + length (rest ++ drop n sorted))%nat as Hl by (rewrite Hsplit at 1; by rewrite length_app).
    rewrite Hl. replace (length shown + length (rest ++ drop n sorted) - length shown)%nat with (length (rest ++ drop n sorted)) by lia.
    destruct (rest ++ drop n sorted) as [|e l]; cbn [is_nil length negb].
    + rewrite Nat.add_0_r, Nat.ltb_irrefl, app_nil_r. done.
    + rewrite (proj2 (Nat.ltb_lt _ _)) by lia. by rewrite <- app_assoc.
  - intros H0. subst n. destruct (Nat.eqb_spec (lt_entry_cap lt) 0); [done|]. lia.
  - intros H0. destruct Hcap as [Hcap|]; [|done]. auto.
  - destruct rest as [|e rest]; [|by right]. cbn [app] in *. destruct (drop n sorted) as [|e l] eqn:Ed; [done|]. left.
    assert (n < length sorted)%nat as Hlt by (pose proof (length_drop sorted n) as Hd; rewrite Ed in Hd; cbn in Hd; lia).
    cbn in Hlen. subst n. destruct (Nat.eqb_spec (lt_entry_cap lt) 0); lia.
Qed.

(** ** Witnesses *)

Definition three_lines : str := lit "a" ++ [10] ++ lit "b" ++ [10] ++ lit "c".

Lemma pages_cover_witness :
  render_lines three_lines (Some 1) (Some 2) 0 0 ++ render_lines three_lines (Some 3) (Some 2) 0 0
  = render_lines three_lines None (Some 0) 0 0.
Proof.
  rewrite <- (pages_cover three_lines 2 0 0 ltac:(done) ltac:(lia)).
  change ((length (lines three_lines) + 2 - 1) / 2)%nat with 2%nat. cbn [seq map concat]. by rewrite app_nil_r.
Defined.

Definition sample_read := read_file (fun b => b) plain_canonicalize (fun _ => None) [] (fun _ => []).

Lemma read_then_current_witness :
  let w' := (sample_read (mk_read 0 0) sample_world sample_ctx (mk_read_input (lit "a") None None)).2 in
  kept w' = kept sample_world /\ current_read_state (fun b => b) (fun _ => None) [] w' (lit "/r/a") = Current.
Proof.
  pose proof (read_then_current (fun b => b) plain_canonicalize (fun _ => None) [] (fun _ => []) sample_ctx (mk_read 0 0) sample_world
    (mk_read_input (lit "a") None None) (lit "/r/a") 3 eq_refl eq_refl) as H.
  fold sample_read in H. destruct (sample_read _ _ _ _) as [o w']. destruct H as (H1 & _ & H2).
  split; [exact H1|]. exact H2.
Defined.

(** Two files, one of them missing, in one batch. *)
Lemma batch_shows_every_file_witness :
  let out := (read_many_call (fun b => b) plain_canonicalize (fun _ => None) [] (fun _ => [])
                (read_many_with_limits 0 0 0) (fun _ => false) sample_world sample_ctx (mk_read_many_input [lit "a"; lit "a"; lit "z"] None)).1 in
  out = Ok (OOk (lit "===== a =====" ++ [10] ++ lit "     1" ++ [9] ++ lit "one" ++ [10] ++ lit "     2" ++ [9] ++ lit "two" ++ [10; 10]
                 ++ lit "===== z =====" ++ [10] ++ lit "<file does not exist: /r/z>" ++ [10; 10]) false []).
Proof.
  destruct (batch_shows_every_file (fun b => b) plain_canonicalize (fun _ => None) [] (fun _ => []) sample_ctx ltac:(reflexivity)
    (read_many_with_limits 0 0 0) (fun _ => false) sample_world (mk_read_many_input [lit "a"; lit "a"; lit "z"] None)) as [_ H];
    [by vm_compute|].
  destruct H as (t & w' & H); [done|done|by vm_compute|by vm_compute|].
  unfold read_many in H. cbv zeta. rewrite H. cbn [fst].
  assert (t = false) as -> by (vm_compute in H; by injection H). reflexivity.
Defined.

Lemma inventory_is_sorted_prefix_witness :
  let entries := [mk_list_entry (lit "b") (lit "file") (Some 2); mk_list_entry (lit "a/") (lit "dir") None; mk_list_entry (lit "c") (lit "file") None] in
  list_table (mk_list 2 100) entries
  = (list_header ++ lit "a/" ++ [9] ++ lit "dir" ++ [9; 8212; 10] ++ lit "b" ++ [9] ++ lit "file" ++ [9] ++ lit "2" ++ [10] ++ omission_row 1, true)
  /\ exists shown rest, shown ++ rest ≡ₚ entries /\ StronglySorted entry_le (shown ++ rest).
Proof.
  split; [reflexivity|].
  destruct (inventory_is_sorted_prefix (mk_list 2 100)
    [mk_list_entry (lit "b") (lit "file") (Some 2); mk_list_entry (lit "a/") (lit "dir") None; mk_list_entry (lit "c") (lit "file") None])
    as (shown & rest & H1 & H2 & _); [left; by vm_compute|]. eauto.
Defined.
