(* ===== verification/Registry.v ===== *)
(** The tool registry and the canonical order of its definitions
    (src/crates/rc-core/src/registry.rs, src/crates/rc-algebra/src/orbit.rs).

    SHA-256 and the JSON serialiser are parameters. *)

From S2P Require Import Prelude Text Json.
From stdpp Require Import sorting.
#[local] Open Scope Z_scope.

(** ** Orbits *)

Section Orbit.
Context {T : Type} (key : T -> list Z).

(** [sort_by_key]: a stable sort by the bytes of the key. *)
Definition block_le (a b : T) : Prop := str_le (key a) (key b).
#[local] Instance block_le_dec : RelDecision block_le.
Proof. intros a b. apply str_le_dec. Defined.
Definition canonical_representative (blocks : list T) : list T := merge_sort block_le blocks.

Definition FNV_OFFSET : Z := 14695981039346656037.
Definition FNV_PRIME : Z := 1099511628211.
Definition fnv_byte (h byte : Z) : Z := wrap 64 (Z.lxor h byte * FNV_PRIME).

(** [fingerprint_order]: FNV-1a over the keys in the given order. *)
Definition fingerprint_order (blocks : list T) : Z :=
  fold_left (fun h b => fold_left fnv_byte (key b) h) blocks FNV_OFFSET.

Record OrbitDivergence := mk_divergence { already_canonical : bool; od_raw : Z; od_canonical : Z }.
Definition orbit_divergence (blocks : list T) : OrbitDivergence :=
  let raw := fingerprint_order blocks in
  let canonical := fingerprint_order (canonical_representative blocks) in
  mk_divergence (raw =? canonical) raw canonical.
End Orbit.
Arguments mk_divergence already_canonical od_raw od_canonical.

(** [content_fingerprint]: the first eight bytes of the digest. *)
Definition content_fingerprint (sha256 : list Z -> list Z) (canonical_bytes : list Z) : Z :=
  le_val (take 8 (sha256 canonical_bytes)).

(** ** Tools *)

Record FunctionDefinition `{JsonApi} := mk_function { fd_name : str; fd_description : str; fd_parameters : Value }.
(** [ToolDefinition]; its type is always [function]. *)
Record ToolDefinition `{JsonApi} := mk_definition { td_function : FunctionDefinition }.

(** [dyn Tool] as the registry sees it, with whatever else it carries. *)
Record DynTool `{JsonApi} (A : Type) := mk_tool { dt_name : str; dt_description : str; dt_schema : Value; dt_rest : A }.
Arguments mk_tool {_ A}. Arguments dt_name {_ A}. Arguments dt_description {_ A}.
Arguments dt_schema {_ A}. Arguments dt_rest {_ A}.

Section Registry.
Context `{JsonApi} {A : Type}.
(** [canonical::to_bytes] of a definition and [BlockId::from_bytes]. *)
Context (to_bytes : ToolDefinition -> option (list Z)) (sha256 : list Z -> list Z).

Definition def_key (d : ToolDefinition) : list Z :=
  match to_bytes d with
  | Some bytes => sha256 bytes
  | None => sha256 (utf8 (fd_name (td_function d)))
  end.

Definition definition_of (t : DynTool A) : ToolDefinition :=
  mk_definition _ (mk_function _ (dt_name t) (dt_description t) (dt_schema t)).

Record ToolRegistry := mk_tool_registry { tr_tools : list (DynTool A); tr_defs : list ToolDefinition }.

(** [ToolRegistry::new]; the divergence is only logged. *)
Definition tool_registry_new (tools : list (DynTool A)) : ToolRegistry :=
  mk_tool_registry tools (canonical_representative def_key (map definition_of tools)).
Definition definitions (r : ToolRegistry) : list ToolDefinition := tr_defs r.
Definition registry_tool (r : ToolRegistry) (name : str) : option (DynTool A) :=
  List.find (fun t => str_eqb (dt_name t) name) (tr_tools r).
End Registry.

(** ** Lemmas *)

Section OrbitProps.
Context {T : Type} (key : T -> list Z).

#[local] Existing Instance block_le_dec.
#[local] Instance block_le_total : Total (block_le key).
Proof. intros a b. apply str_le_total. Qed.
#[local] Instance block_le_trans : Transitive (block_le key).
Proof. intros a b c. apply str_le_trans. Qed.

Lemma canonical_permutation l : canonical_representative key l ≡ₚ l.
Proof. apply merge_sort_Permutation. Qed.

Lemma canonical_sorted l : StronglySorted (block_le key) (canonical_representative key l).
Proof. apply StronglySorted_merge_sort; apply _. Qed.

(** Two sorted lists of the same elements agree when equal keys mean equal
    elements. *)
Lemma sorted_permutation_eq (l k : list T) :
  (forall a b, a ∈ l -> b ∈ l -> key a = key b -> a = b) ->
  StronglySorted (block_le key) l -> StronglySorted (block_le key) k -> l ≡ₚ k -> l = k.
Proof.
  revert k. induction l as [|x l IH]; intros k Hinj Hl Hk Hp; [by apply Permutation_nil in Hp as ->|].
  destruct k as [|y k]; [by apply symmetry, Permutation_nil in Hp|].
  apply StronglySorted_inv in Hl as [Hl Hxl]. apply StronglySorted_inv in Hk as [Hk Hyk].
  assert (x = y) as ->.
  { apply Hinj; [by left| |].
    - rewrite Hp. by left.
    - apply (anti_symm str_le).
      + assert (y ∈ x :: l) as Hy by (rewrite Hp; by left). apply elem_of_cons in Hy as [->|Hy]; [destruct (str_le_total (key x) (key x)); done|].
        rewrite list.Forall_forall in Hxl. by apply Hxl.
      + assert (x ∈ y :: k) as Hx by (rewrite <- Hp; by left). apply elem_of_cons in Hx as [->|Hx]; [destruct (str_le_total (key y) (key y)); done|].
        rewrite list.Forall_forall in Hyk. by apply Hyk. }
  f_equal. apply IH; [|done|done|by apply (Permutation_cons_inv (a := y))].
  intros a b Ha Hb. apply Hinj; by right.
Qed.
End OrbitProps.

Section RegistryProps.
Context `{JsonApi} {A : Type} (to_bytes : ToolDefinition -> option (list Z)) (sha256 : list Z -> list Z).

(** the definitions sent with a request depend on the set of registered
    tools and on nothing else.  When the digests of the definitions at hand
    do not collide, two sessions send the same [tools] array exactly when
    their tools have the same definitions, each as often, in whatever order
    they were registered; and putting the array into its order again, as a
    reload does, changes nothing. *)
Theorem registration_order_invisible (tools tools' : list (DynTool A)) :
  (forall d d', d ∈ map definition_of (tools ++ tools') -> d' ∈ map definition_of (tools ++ tools') ->
     def_key to_bytes sha256 d = def_key to_bytes sha256 d' -> d = d') ->
  let sent ts := definitions (tool_registry_new to_bytes sha256 ts) in
  (sent tools = sent tools' <-> map definition_of tools ≡ₚ map definition_of tools')
  /\ canonical_representative (def_key to_bytes sha256) (sent tools) = sent tools.
Proof.
  intros Hinj sent. unfold sent, definitions, tool_registry_new. cbn [tr_defs].
  set (key := def_key to_bytes sha256) in *.
  assert (forall d, d ∈ canonical_representative key (map definition_of tools) -> d ∈ map definition_of (tools ++ tools')) as Hin.
  { intros d Hd. rewrite canonical_permutation in Hd. rewrite map_app. apply elem_of_app. by left. }
  split; [split|].
  - intros E. by rewrite <- (canonical_permutation key (map definition_of tools)), E, canonical_permutation.
  - intros E. apply (sorted_permutation_eq key); [auto|apply canonical_sorted|apply canonical_sorted|].
    by rewrite (canonical_permutation key (map definition_of tools)), (canonical_permutation key (map definition_of tools')).
  - symmetry. apply (sorted_permutation_eq key); [auto|apply canonical_sorted|apply canonical_sorted|].
    by rewrite (canonical_permutation key (canonical_representative key _)).
Qed.

(** what is advertised can be called.  Every definition sent names a
    registered tool that the loop finds under this name; when the names are
    distinct it is the tool whose definition was sent, and every registered
    tool is found and advertised. *)
Theorem advertised_tools_found (tools : list (DynTool A)) d :
  let r := tool_registry_new to_bytes sha256 tools in
  d ∈ definitions r ->
  exists t, registry_tool r (fd_name (td_function d)) = Some t /\ dt_name t = fd_name (td_function d)
    /\ (NoDup (map dt_name tools) -> definition_of t = d
        /\ forall t', t' ∈ tools -> registry_tool r (dt_name t') = Some t' /\ definition_of t' ∈ definitions r).
Proof.
  intros r Hd. assert (definitions r ≡ₚ map definition_of tools) as Hp by apply canonical_permutation.
  rewrite Hp in Hd. apply list_elem_of_fmap in Hd as (t0 & -> & Ht0). cbn [definition_of td_function fd_name].
  assert (forall t', t' ∈ tools -> exists t, registry_tool r (dt_name t') = Some t /\ t ∈ tools /\ dt_name t = dt_name t') as Hfind.
  { intros t' Ht'. unfold registry_tool. destruct (List.find _ (tr_tools r)) as [t|] eqn:E.
    - apply List.find_some in E as [E1 E2]. exists t. apply str_eqb_eq in E2. apply list_elem_of_In in E1. done.
    - eapply List.find_none in E; [|by apply list_elem_of_In]. cbn in E. by rewrite str_eqb_refl in E. }
  assert (NoDup (map dt_name tools) -> forall t t', t ∈ tools -> t' ∈ tools -> dt_name t = dt_name t' -> t = t') as Huniq.
  { clear. induction tools as [|x l IH]; intros Hn t t' Ht Ht' E; [by apply elem_of_nil in Ht|].
    cbn in Hn. apply list.NoDup_cons in Hn as [Hx Hn].
    apply elem_of_cons in Ht as [->|Ht], Ht' as [->|Ht']; [done|..|by apply IH].
    - exfalso. apply Hx. rewrite E. by apply list_elem_of_fmap_2.
    - exfalso. apply Hx. rewrite <- E. by apply list_elem_of_fmap_2. }
  destruct (Hfind t0 Ht0) as (t & Ht & Hin & Hname). exists t. split; [done|]. split; [done|]. intros Hn.
  split; [by rewrite (Huniq Hn t t0)|]. intros t' Ht'. destruct (Hfind t' Ht') as (u & Hu & Hiu & Hnu).
  split; [by rewrite Hu, (Huniq Hn u t')|]. rewrite Hp. by apply list_elem_of_fmap_2.
Qed.
End RegistryProps.

(** ** Witnesses *)

Section Samples.
Definition tool_named (n : str) : DynTool () := @mk_tool Tree.tree_json () n [] Tree.Null ().
Definition name_bytes (d : @ToolDefinition Tree.tree_json) : option (list Z) := Some (fd_name (td_function d)).
End Samples.

Lemma registration_order_invisible_witness :
  definitions (tool_registry_new name_bytes (fun b => b) [tool_named (lit "b"); tool_named (lit "a")])
  = definitions (tool_registry_new name_bytes (fun b => b) [tool_named (lit "a"); tool_named (lit "b")]).
Proof.
  destruct (registration_order_invisible name_bytes (fun b => b) [tool_named (lit "b"); tool_named (lit "a")]
    [tool_named (lit "a"); tool_named (lit "b")]) as [H _].
  - intros d d' Hd Hd' E. apply list_elem_of_fmap in Hd as (t & -> & Ht). apply list_elem_of_fmap in Hd' as (t' & -> & Ht').
    cbn [app] in Ht, Ht'. unfold def_key, name_bytes in E. cbn in E. unfold definition_of. f_equal. f_equal.
    + exact E.
    + clear E. rewrite !elem_of_cons, elem_of_nil in Ht, Ht'. naive_solver.
    + clear E. rewrite !elem_of_cons, elem_of_nil in Ht, Ht'. naive_solver.
  - apply H. apply Permutation_swap.
Defined.

Lemma advertised_tools_found_witness :
  exists t, registry_tool (tool_registry_new name_bytes (fun b => b) [tool_named (lit "b"); tool_named (lit "a")]) (lit "a") = Some t
    /\ dt_name t = lit "a".
Proof.
  destruct (advertised_tools_found name_bytes (fun b => b) [tool_named (lit "b"); tool_named (lit "a")] (definition_of (tool_named (lit "a"))))
    as (t & H1 & H2 & _); [by left|]. exists t. split; [exact H1|exact H2].
Defined.
