(* ===== verification/Client.v ===== *)
(** The chat-completions client (src/crates/rc-proto/src/client.rs): the request
    body and its spool, the retry loop, the fallback from gzip.

    The server is a function of all the requests it has seen; the wall clock,
    the compressor, the pieces in which serde_json writes a body, and the disk
    that holds a spool are parameters.  Durations are nanoseconds. *)

From S2P Require Import Prelude Text Wire AgentSink.

(** ** Options *)

Record RetryOpts := mk_retry_opts { max_retries : Z; base_delay : Z; max_delay : Z }.
Definition retry_default : RetryOpts := mk_retry_opts 0 200000000 10000000000.

Record RequestPayloadStats := mk_stats { json_bytes : Z; wire_bytes : Z }.
Definition stats_default : RequestPayloadStats := mk_stats 0 0.

Definition DEBUG_BODY_PREVIEW : Z := 8 * 1024.
Definition REQUEST_MEMORY_BYTES : Z := 8 * 1024 * 1024.
Definition MAX_SESSION_ID_LEN : Z := 256.

(** [Duration::MAX]. *)
Definition DURATION_MAX : Z := (2 ^ 64 - 1) * 1000000000 + 999999999.

(** ** Request bodies *)

Inductive EncodedBody :=
| Memory (b : list Z)
| Spool (file : list Z) (len : Z) (preview : list Z).

Definition body_len (b : EncodedBody) : Z := match b with Memory b => length_z b | Spool _ len _ => len end.
Definition body_preview (b : EncodedBody) : list Z := match b with Memory b => b | Spool _ _ preview => preview end.
Definition is_spooled (b : EncodedBody) : bool := match b with Memory _ => false | Spool _ _ _ => true end.

(** [request_body]: the bytes an attempt uploads; a spool has to open again. *)
Definition request_body (io_error : str) (opens : bool) (b : EncodedBody) : ProtoError + list Z :=
  match b with
  | Memory b => inr b
  | Spool file _ _ => if opens then inr file else inl (PIo io_error)
  end.

Record SpoolWriter := mk_spool {
  sw_memory : list Z;
  sw_file : option (list Z);
  sw_preview : list Z;
  sw_threshold : Z;
  sw_total : Z
}.

Definition spool_new (threshold : Z) : SpoolWriter := mk_spool [] None [] threshold 0.

Section Encode.
(** The text of an I/O error. *)
Variable io_error : str.
(** Does a temporary file of this length fit on the disk? *)
Variable disk : Z -> bool.

(** [promote]: the memory moves to a new file. *)
Definition promote (w : SpoolWriter) : option SpoolWriter :=
  match sw_file w with
  | Some _ => Some w
  | None => if disk (length_z (sw_memory w))
            then Some (mk_spool [] (Some (sw_memory w)) (sw_preview w) (sw_threshold w) (sw_total w)) else None
  end.

(** [write]: all of [b], or an I/O error. *)
Definition spool_write (w : SpoolWriter) (b : list Z) : option SpoolWriter :=
  let preview_left := sat_sub DEBUG_BODY_PREVIEW (length_z (sw_preview w)) in
  let w := mk_spool (sw_memory w) (sw_file w)
             (sw_preview w ++ take (Z.to_nat (Z.min (length_z b) preview_left)) b) (sw_threshold w) (sw_total w) in
  w ← (if bool_decide (sw_file w = None) && (sw_threshold w <? sat_add 64 (sw_total w) (length_z b))
       then promote w else Some w);
  let total := sat_add 64 (sw_total w) (length_z b) in
  match sw_file w with
  | Some file => if disk (length_z (file ++ b))
                 then Some (mk_spool (sw_memory w) (Some (file ++ b)) (sw_preview w) (sw_threshold w) total) else None
  | None => Some (mk_spool (sw_memory w ++ b) None (sw_preview w) (sw_threshold w) total)
  end.

Fixpoint spool_writes (w : SpoolWriter) (pieces : list (list Z)) : option SpoolWriter :=
  match pieces with
  | [] => Some w
  | b :: pieces => w ← spool_write w b; spool_writes w pieces
  end.

Definition spool_finish (w : SpoolWriter) : EncodedBody :=
  match sw_file w with
  | Some file => Spool file (sw_total w) (sw_preview w)
  | None => Memory (sw_memory w)
  end.

(** What the gzip encoder hands on while it is written to, and at its end. *)
Variable gz_write gz_finish : list (list Z) -> list (list Z).

(** [encode_body_with], for a request that serde_json writes in [pieces]. *)
Definition encode_body_with (pieces : list (list Z)) (gzip : bool)
  : ProtoError + (EncodedBody * RequestPayloadStats) :=
  if negb gzip then
    match spool_writes (spool_new REQUEST_MEMORY_BYTES) pieces with
    | None => inl (PJson io_error)
    | Some w => inr (spool_finish w, mk_stats (sw_total w) (sw_total w))
    end
  else
    match spool_writes (spool_new REQUEST_MEMORY_BYTES) (gz_write pieces) with
    | None => inl (PJson io_error)
    | Some w =>
        match spool_writes w (gz_finish pieces) with
        | None => inl (PGzip io_error)
        | Some w =>
            let body := spool_finish w in
            inr (body, mk_stats (fold_left (fun n b => sat_add 64 n (length_z b)) pieces 0) (body_len body))
        end
    end.
End Encode.

(** ** Replies *)

(** What polling a response body gives: bytes, a transport error, or nothing
    for longer than the idle window of the caller. *)
Inductive BodyPoll := BytesPoll (b : list Z) | ErrPoll (text : str) | StallPoll.

(** An HTTP response: its status, its [Retry-After] header, its text (empty if
    it cannot be read), and its body as it streams in. *)
Record Response := mk_response {
  rs_status : Z;
  rs_retry_after : option str;
  rs_text : str;
  rs_body : list BodyPoll
}.
Inductive Reply :=
| Failed (connect timeout : bool) (text : str)
| Responded (r : Response).

Record HttpRequest := mk_http_request {
  rq_url : str;
  rq_headers : list (str * str);
  rq_body : list Z
}.

Definition is_success (status : Z) : bool := (200 <=? status) && (status <? 300).

Definition to_ascii_lowercase (s : str) : str := map (fun c => if (65 <=? c) && (c <=? 90) then c + 32 else c) s.

Definition is_transient_status_body (status : Z) (body : str) : bool :=
  if bool_decide (status ∈ [429; 500; 502; 503; 504]) then true
  else if negb (status =? 404) then false
  else
    let body := to_ascii_lowercase body in
    contains body (lit "no router available") || contains body (lit "no available router").

Definition gzip_is_unsupported (e : ProtoError) : bool :=
  match e with
  | PStatus status body =>
      if status =? 415 then true
      else if negb (status =? 400) then false
      else
        let body := to_ascii_lowercase body in
        contains body (lit "content-encoding") || contains body (lit "gzip") || contains body (lit "compressed")
        || contains body (lit "invalid utf-8") || contains body (lit "expected value at line 1 column 1")
  | _ => false
  end.

(** A connection failure that is not a timeout. *)
Definition is_transient_transport (connect timeout : bool) : bool := connect && negb timeout.

(** ** Delays *)

(** [str::parse::<u64>] *)
Fixpoint parse_digits (s : str) (acc : Z) : option Z :=
  match s with
  | [] => Some acc
  | c :: s => if (48 <=? c) && (c <=? 57)
              then let acc := acc * 10 + (c - 48) in if acc <? 2 ^ 64 then parse_digits s acc else None
              else None
  end.
Definition parse_u64 (s : str) : option Z :=
  match s with
  | [] => None
  | c :: s' => let digits := if c =? 43 then s' else s in if is_nil digits then None else parse_digits digits 0
  end.

(** The mixing of the clock with the sequence number. *)
Definition mix_jitter (epoch sequence : Z) : Z :=
  let m := Z.lxor epoch (wrap 64 (sequence * 11400714819323198485)) in
  let m := Z.lxor m (Z.shiftr m 30) in
  let m := wrap 64 (m * 13787848793156543929) in
  let m := Z.lxor m (Z.shiftr m 27) in
  let m := wrap 64 (m * 10723151780598845931) in
  Z.lxor m (Z.shiftr m 31).

Definition backoff_ceiling (o : RetryOpts) (attempt : Z) : Z :=
  let factor := Z.shiftl 1 (Z.min attempt 20) in
  Z.min (Z.min (base_delay o * wrap 32 factor) DURATION_MAX) (max_delay o).

(** The delay, given what the clock and the sequence give. *)
Definition jittered (ceiling mixed : Z) : Z :=
  let nanos := Z.min ceiling (umax 64) in
  if nanos <? 4 then ceiling
  else
    let spread := nanos / 4 in
    let floor := nanos - spread in
    floor + mixed mod (spread + 1).

Definition retry_after (o : RetryOpts) (r : Response) : option Z :=
  header ← rs_retry_after r; secs ← parse_u64 header; Some (Z.min (secs * 1000000000) (max_delay o)).

(** [floor_char_boundary] of a body, for the log. *)
Fixpoint back_to_lead (b : list Z) (cut : nat) : nat :=
  match cut with
  | O => O
  | S cut' => if Z.land (default 0 (b !! cut)) 192 =? 128 then back_to_lead b cut' else cut
  end.
Definition body_char_boundary (b : list Z) (cap : nat) : nat :=
  if (length b <=? cap)%nat then length b else back_to_lead b cap.

(** ** The client *)

Record ChatClient := mk_client {
  cl_base_url : str;
  cl_api_key : str;
  cl_model : str;
  cl_retry : RetryOpts
}.

Fixpoint drop_slashes (s : str) : str :=
  match s with c :: s' => if c =? 47 then drop_slashes s' else s | [] => [] end.
Definition trim_slashes (s : str) : str := rev (drop_slashes (rev s)).

Definition client_new (base_url api_key model : str) : ProtoError + ChatClient :=
  if is_nil api_key then inl PNoApiKey
  else inr (mk_client (trim_slashes base_url) api_key model retry_default).

Definition valid_session_id (id : str) : bool :=
  negb (is_nil id) && negb (MAX_SESSION_ID_LEN <? byte_len id)
  && forallb (fun b => ((48 <=? b) && (b <=? 57)) || ((65 <=? b) && (b <=? 90)) || ((97 <=? b) && (b <=? 122))
                       || bool_decide (b ∈ [45; 95; 46; 58])) (utf8 id).

(** What a client has done to the world: the requests it sent, the delays it
    slept, how often it drew a jitter number; and whether it compresses. *)
Record Net := mk_net { net_sent : list HttpRequest; net_slept : list Z; net_sequence : Z; net_gzip : bool }.

Section Client.
Variable io_error : str.
Variable server : list HttpRequest -> Reply.
(** The clock, by the number of requests sent so far. *)
Variable epoch : list HttpRequest -> Z.
Variable opens : list HttpRequest -> bool.
Variable c : ChatClient.

Definition post (n : Net) (rq : HttpRequest) : Reply * Net :=
  let sent := net_sent n ++ [rq] in (server sent, mk_net sent (net_slept n) (net_sequence n) (net_gzip n)).
Definition sleep (n : Net) (d : Z) : Net :=
  mk_net (net_sent n) (net_slept n ++ [d]) (net_sequence n) (net_gzip n).

Definition backoff (n : Net) (attempt : Z) : Z * Net :=
  let ceiling := backoff_ceiling (cl_retry c) attempt in
  if Z.min ceiling (umax 64) <? 4 then (ceiling, n)
  else (jittered ceiling (mix_jitter (epoch (net_sent n)) (net_sequence n)),
        mk_net (net_sent n) (net_slept n) (wrap 64 (net_sequence n + 1)) (net_gzip n)).

Definition request_of (url : str) (len : Z) (body : list Z) (session_id : option str) (gzip : bool) : HttpRequest :=
  mk_http_request url
    ([(lit "authorization", lit "Bearer " ++ cl_api_key c); (lit "content-type", lit "application/json");
      (lit "content-length", show_z len); (lit "x-subconscious-client", lit "subconscious_code")]
     ++ match session_id with Some id => [(lit "x-subconscious-code-session-id", id)] | None => [] end
     ++ if gzip then [(lit "content-encoding", lit "gzip")] else [])
    body.

(** The loop of [send_with_retry]; one unit of fuel per attempt. *)
Fixpoint retry_loop (fuel : nat) (url : str) (body : EncodedBody) (session_id : option str) (gzip : bool)
    (attempt : Z) (n : Net) : option (ProtoError * Z + Response * Z) * Net :=
  match fuel with
  | O => (None, n)
  | S fuel =>
      match request_body io_error (opens (net_sent n)) body with
      | inl e => (Some (inl (e, attempt)), n)
      | inr bytes =>
          let again d n := retry_loop fuel url body session_id gzip (attempt + 1) (sleep n d) in
          match post n (request_of url (body_len body) bytes session_id gzip) with
          | (Failed connect timeout text, n) =>
              if is_transient_transport connect timeout && (attempt <? max_retries (cl_retry c))
              then let '(d, n) := backoff n attempt in again d n
              else (Some (inl (PHttp text, attempt)), n)
          | (Responded r, n) =>
              if is_success (rs_status r) then (Some (inr (r, attempt)), n)
              else
                let transient := is_transient_status_body (rs_status r) (rs_text r) in
                if transient && (attempt <? max_retries (cl_retry c))
                then let '(d, n) := match retry_after (cl_retry c) r with Some d => (d, n) | None => backoff n attempt end in
                     again d n
                else (Some (inl (PStatus (rs_status r) (rs_text r), attempt)), n)
          end
      end
  end.

Definition attempts_fuel : nat := S (Z.to_nat (max_retries (cl_retry c))).

Definition send_with_retry (url : str) (body : EncodedBody) (session_id : option str) (gzip : bool) (n : Net)
  : option (ProtoError * Z + Response * Z) * Net :=
  if match session_id with Some id => negb (valid_session_id id) | None => false end
  then (Some (inl (PInvalidSessionId, 0)), n)
  else retry_loop attempts_fuel url body session_id gzip 0 n.

Variable disk : Z -> bool.
Variable gz_write gz_finish : list (list Z) -> list (list Z).

Definition SendResult : Type := ProtoError * Z * RequestPayloadStats + Response * Z * RequestPayloadStats.

(** [encode_and_send] *)
Definition encode_and_send (url : str) (pieces : list (list Z)) (session_id : option str) (n : Net)
  : option SendResult * Net :=
  let gzip := net_gzip n in
  match encode_body_with io_error disk gz_write gz_finish pieces gzip with
  | inl e => (Some (inl (e, 0, stats_default)), n)
  | inr (body, payload) =>
      match send_with_retry url body session_id gzip n with
      | (None, n) => (None, n)
      | (Some (inr (r, retries)), n) => (Some (inr (r, retries, payload)), n)
      | (Some (inl (e, retries)), n) =>
          if gzip && gzip_is_unsupported e then
            let n := mk_net (net_sent n) (net_slept n) (net_sequence n) false in
            match encode_body_with io_error disk gz_write gz_finish pieces false with
            | inl e => (Some (inl (e, retries, stats_default)), n)
            | inr (raw_body, raw_payload) =>
                match send_with_retry url raw_body session_id false n with
                | (None, n) => (None, n)
                | (Some (inr (r, raw_retries)), n) =>
                    (Some (inr (r, sat_add 32 (sat_add 32 retries 1) raw_retries, raw_payload)), n)
                | (Some (inl (e, raw_retries)), n) =>
                    (Some (inl (e, sat_add 32 (sat_add 32 retries 1) raw_retries, raw_payload)), n)
                end
            end
          else (Some (inl (e, retries, payload)), n)
      end
  end.
End Client.

(** ** Lemmas: bodies *)

(** A spool after writing [b]. *)
Record spool_ok (t : Z) (w : SpoolWriter) (b : list Z) : Prop := {
  so_threshold : sw_threshold w = t;
  so_total : sw_total w = length_z b;
  so_preview : sw_preview w = take (Z.to_nat DEBUG_BODY_PREVIEW) b;
  so_place : match sw_file w with
             | Some file => file = b /\ sw_memory w = [] /\ t < length_z b
             | None => sw_memory w = b /\ length_z b <= t
             end
}.

Lemma spool_new_ok t : 0 <= t -> spool_ok t (spool_new t) [].
Proof. intros Ht. by split; cbn. Qed.

Lemma spool_write_ok disk t w a b w' :
  spool_ok t w a -> length_z (a ++ b) < 2 ^ 64 -> spool_write disk w b = Some w' -> spool_ok t w' (a ++ b).
Proof.
  intros [Ht Htot Hp Hm] Hl. unfold spool_write.
  assert (sat_add 64 (sw_total w) (length_z b) = length_z (a ++ b)) as Et.
  { unfold sat_add, umax, length_z in *. rewrite Htot, length_app in *. unfold length_z. lia. }
  cbn [sw_total sw_threshold sw_file]. rewrite Et.
  set (pv := sw_preview w ++ _).
  assert (pv = take (Z.to_nat DEBUG_BODY_PREVIEW) (a ++ b)) as Hpv.
  { unfold pv. rewrite Hp, take_app. f_equal. unfold sat_sub, length_z. rewrite length_take.
    destruct (decide (Z.to_nat DEBUG_BODY_PREVIEW - length a <= length b)%nat).
    - f_equal. lia.
    - rewrite !take_ge; [done|lia|lia]. }
  clearbody pv. destruct w as [mem file p0 th tot]; cbn [sw_memory sw_file sw_preview sw_threshold sw_total] in *. subst th.
  assert (length_z (a ++ b) = length_z a + length_z b /\ 0 <= length_z b) as [Ea Eb] by (unfold length_z; rewrite length_app; lia).
  destruct file as [file|]; [rewrite bool_decide_eq_false_2 by done|rewrite bool_decide_eq_true_2 by done]; cbn [andb mbind option_bind sw_file].
  - destruct Hm as (-> & -> & Hlt). case_match; [|done]. intros [= <-]. split; cbn; try done. split_and!; try done. lia.
  - destruct Hm as [-> Hle]. destruct (t <? length_z (a ++ b)) eqn:E.
    + unfold promote. cbn [sw_file sw_memory]. destruct (disk (length_z a)); [|done]. cbn [mbind option_bind sw_file sw_memory sw_preview sw_threshold sw_total].
      case_match; [|done]. intros [= <-]. split; cbn; try done. split_and!; try done. lia.
    + intros [= <-]. split; cbn; try done. split; [done|lia].
Qed.

Lemma spool_writes_ok disk t ps : forall w a w',
  spool_ok t w a -> length_z (a ++ concat ps) < 2 ^ 64 -> spool_writes disk w ps = Some w' -> spool_ok t w' (a ++ concat ps).
Proof.
  induction ps as [|b ps IH]; intros w a w' Hw Hl; cbn [spool_writes concat].
  - intros [= <-]. by rewrite app_nil_r.
  - cbn [concat] in Hl. rewrite app_assoc in Hl |- *.
    destruct (spool_write disk w b) as [w1|] eqn:E; [|done]. cbn [mbind option_bind]. apply IH; [|done].
    eapply spool_write_ok; [done| |done]. unfold length_z in *. rewrite !length_app in *. lia.
Qed.

Lemma spool_writes_app disk ps qs : forall w,
  spool_writes disk w (ps ++ qs) = (w ← spool_writes disk w ps; spool_writes disk w qs).
Proof.
  induction ps as [|b ps IH]; intros w; [done|]. cbn [app spool_writes]. destruct (spool_write disk w b); [|done].
  apply IH.
Qed.

(** The bytes of a body. *)
Definition body_bytes (b : EncodedBody) : list Z := match b with Memory b => b | Spool file _ _ => file end.

Lemma request_body_bytes io b : request_body io true b = inr (body_bytes b).
Proof. by destruct b. Qed.

Lemma spool_finish_ok t w b : spool_ok t w b ->
  body_bytes (spool_finish w) = b /\ body_len (spool_finish w) = length_z b
  /\ is_spooled (spool_finish w) = (t <? length_z b)
  /\ take (Z.to_nat DEBUG_BODY_PREVIEW) (body_preview (spool_finish w)) = take (Z.to_nat DEBUG_BODY_PREVIEW) b.
Proof.
  intros [Ht Htot Hp Hm]. unfold spool_finish. destruct (sw_file w) as [file|]; cbn.
  - destruct Hm as (-> & _ & H). rewrite Hp, take_take, Nat.min_id. split_and!; try done. symmetry. by apply Z.ltb_lt.
  - destruct Hm as [-> H]. split_and!; try done. symmetry. apply Z.ltb_ge. lia.
Qed.

(** ** Lemmas: delays *)

Lemma jittered_window ceiling mixed : 0 <= ceiling < 2 ^ 64 ->
  ceiling - ceiling / 4 <= jittered ceiling mixed <= ceiling.
Proof.
  intros Hc. unfold jittered, umax. rewrite Z.min_l by lia. destruct (ceiling <? 4) eqn:E.
  - assert (ceiling / 4 = 0) by (apply Z.div_small; lia). lia.
  - pose proof (Z.mod_pos_bound mixed (ceiling / 4 + 1)) as H.
    assert (0 <= ceiling / 4) by (apply Z.div_pos; lia). lia.
Qed.

Lemma backoff_ceiling_range o attempt : 0 <= base_delay o -> 0 <= max_delay o ->
  0 <= backoff_ceiling o attempt <= max_delay o.
Proof.
  intros Hb Hm. unfold backoff_ceiling, wrap, DURATION_MAX.
  pose proof (Z.mod_pos_bound (Z.shiftl 1 (Z.min attempt 20)) (2 ^ 32) ltac:(lia)). nia.
Qed.

(** Up to the twentieth retry the window doubles. *)
Lemma backoff_ceiling_doubles o attempt : 0 <= attempt -> base_delay o * 2 ^ 20 <= DURATION_MAX -> 0 <= base_delay o ->
  backoff_ceiling o attempt = Z.min (base_delay o * 2 ^ Z.min attempt 20) (max_delay o).
Proof.
  intros Ha Hd Hb. unfold backoff_ceiling. rewrite Z.shiftl_1_l.
  assert (0 < 2 ^ Z.min attempt 20 <= 2 ^ 20) as H.
  { split; [apply Z.pow_pos_nonneg; lia|]. apply Z.pow_le_mono_r; lia. }
  unfold wrap. rewrite Z.mod_small by lia. rewrite (Z.min_l _ DURATION_MAX) by nia. done.
Qed.

(** ** Lemmas: attempts *)

Definition transient_reply (r : Reply) : bool :=
  match r with
  | Failed connect timeout _ => is_transient_transport connect timeout
  | Responded r => negb (is_success (rs_status r)) && is_transient_status_body (rs_status r) (rs_text r)
  end.

(** What the last reply is reported as. *)
Definition outcome_of (r : Reply) (retries : Z) : ProtoError * Z + Response * Z :=
  match r with
  | Failed _ _ text => inl (PHttp text, retries)
  | Responded r => if is_success (rs_status r) then inr (r, retries) else inl (PStatus (rs_status r) (rs_text r), retries)
  end.

(** The delay after the reply to attempt [i]: what the server asks for, capped,
    or the upper quarter of the attempt's window. *)
Definition delay_ok (o : RetryOpts) (i : Z) (r : Reply) (d : Z) : Prop :=
  match r with
  | Responded r => match retry_after o r with
                   | Some d' => d = d'
                   | None => backoff_ceiling o i - backoff_ceiling o i / 4 <= d <= backoff_ceiling o i
                   end
  | Failed _ _ _ => backoff_ceiling o i - backoff_ceiling o i / 4 <= d <= backoff_ceiling o i
  end.

Section Attempts.
Variable io_error : str.
Variable server : list HttpRequest -> Reply.
Variable epoch : list HttpRequest -> Z.
Variable c : ChatClient.
Hypothesis base_nonneg : 0 <= base_delay (cl_retry c).
Hypothesis max_range : 0 <= max_delay (cl_retry c) < 2 ^ 64.
#[local] Abbreviation o := (cl_retry c).

(** [k] replies to [rq], all transient, then one that ends the loop. *)
Record attempts (rq : HttpRequest) (i : Z) (n n' : Net) (k : nat) (ds : list Z) : Prop := {
  at_sent : net_sent n' = net_sent n ++ replicate (S k) rq;
  at_slept : net_slept n' = net_slept n ++ ds;
  at_length : length ds = k;
  at_gzip : net_gzip n' = net_gzip n;
  at_delays : forall j d, ds !! j = Some d ->
    let r := server (net_sent n ++ replicate (S j) rq) in
    transient_reply r = true /\ delay_ok o (i + Z.of_nat j) r d;
  at_budget : i + Z.of_nat k <= Z.max i (max_retries o);
  at_end : transient_reply (server (net_sent n')) = true -> max_retries o <= i + Z.of_nat k
}.

Lemma backoff_spec n i d n' : backoff epoch c n i = (d, n') ->
  net_sent n' = net_sent n /\ net_slept n' = net_slept n /\ net_gzip n' = net_gzip n
  /\ backoff_ceiling o i - backoff_ceiling o i / 4 <= d <= backoff_ceiling o i.
Proof.
  unfold backoff. pose proof (backoff_ceiling_range o i base_nonneg (proj1 max_range)) as Hr.
  unfold umax. destruct (_ <? 4) eqn:E.
  - intros [= <- <-]. split_and!; try done; pose proof (Z.div_pos (backoff_ceiling o i) 4); lia.
  - intros [= <- <-]. split_and!; try done; apply jittered_window; lia.
Qed.

(** An attempt that is retried, in front of the rest. *)
Lemma attempts_again rq i n n1 n' d k ds :
  net_sent n1 = net_sent n ++ [rq] -> net_slept n1 = net_slept n ++ [d] -> net_gzip n1 = net_gzip n ->
  transient_reply (server (net_sent n1)) = true -> delay_ok o i (server (net_sent n1)) d ->
  i < max_retries o -> attempts rq (i + 1) n1 n' k ds -> attempts rq i n n' (S k) (d :: ds).
Proof.
  intros Hs Hd Hg Ht Hok Hi [A1 A2 A3 A4 A5 A6 A7]. split.
  - by rewrite A1, Hs, <- app_assoc.
  - by rewrite A2, Hd, <- app_assoc.
  - cbn. by rewrite A3.
  - by rewrite A4.
  - intros [|j] d'; cbn [lookup list_lookup].
    + intros [= <-]. rewrite Hs in Ht, Hok. replace (i + Z.of_nat 0) with i by lia. by split.
    + intros Hj. specialize (A5 j d' Hj). rewrite Hs, <- app_assoc in A5. cbn [app] in A5.
      replace (i + Z.of_nat (S j)) with (i + 1 + Z.of_nat j) by lia. exact A5.
  - lia.
  - intros H. specialize (A7 H). lia.
Qed.

(** The last attempt. *)
Lemma attempts_last rq i n n' :
  net_sent n' = net_sent n ++ [rq] -> net_slept n' = net_slept n -> net_gzip n' = net_gzip n ->
  (transient_reply (server (net_sent n')) = true -> max_retries o <= i) -> attempts rq i n n' 0 [].
Proof.
  intros Hs Hd Hg Ht. split; cbn; try done.
  - by rewrite app_nil_r.
  - lia.
  - intros H. specialize (Ht H). lia.
Qed.

Lemma retry_loop_spec url body sid gzip fuel : forall i n,
  (Z.to_nat (max_retries o - i) < fuel)%nat ->
  let rq := request_of c url (body_len body) (body_bytes body) sid gzip in
  exists k ds n', attempts rq i n n' k ds
    /\ retry_loop io_error server epoch (fun _ => true) c fuel url body sid gzip i n
       = (Some (outcome_of (server (net_sent n')) (i + Z.of_nat k)), n').
Proof.
  intros i n Hf rq. revert i n Hf. induction fuel as [|fuel IH]; intros i n Hf; [lia|].
  cbn [retry_loop]. rewrite request_body_bytes. fold rq. unfold post. cbn [net_sent net_slept net_gzip net_sequence].
  set (n1 := mk_net (net_sent n ++ [rq]) (net_slept n) (net_sequence n) (net_gzip n)).
  assert (forall d n2, net_sent n2 = net_sent n1 -> net_slept n2 = net_slept n1 -> net_gzip n2 = net_gzip n1 ->
            transient_reply (server (net_sent n1)) = true -> delay_ok o i (server (net_sent n1)) d -> i < max_retries o ->
            exists k ds n', attempts rq i n n' k ds
              /\ retry_loop io_error server epoch (fun _ => true) c fuel url body sid gzip (i + 1) (sleep n2 d)
                 = (Some (outcome_of (server (net_sent n')) (i + Z.of_nat k)), n')) as Again.
  { intros d n2 E1 E2 E3 Ht Hd Hi. destruct (IH (i + 1) (sleep n2 d)) as (k & ds & n' & Ha & ->); [lia|].
    exists (S k), (d :: ds), n'. split; [|do 3 f_equal; lia].
    eapply (attempts_again rq i n (sleep n2 d)); [..|exact Ha]; unfold sleep; cbn; rewrite ?E1, ?E2, ?E3; done. }
  assert ((transient_reply (server (net_sent n1)) = true -> max_retries o <= i) ->
          exists k ds n', attempts rq i n n' k ds
            /\ (Some (outcome_of (server (net_sent n1)) i), n1) = (Some (outcome_of (server (net_sent n')) (i + Z.of_nat k)), n')) as Last.
  { intros H. exists 0%nat, [], n1. split; [by apply attempts_last|]. do 3 f_equal. lia. }
  change (net_sent n ++ [rq]) with (net_sent n1). destruct (server (net_sent n1)) as [cn tm text|r] eqn:Er.
  - cbn [transient_reply outcome_of delay_ok] in Again, Last.
    destruct (is_transient_transport cn tm); cbn [andb]; [destruct (i <? max_retries o) eqn:Ei|].
    + destruct (backoff epoch c n1 i) as [d n2] eqn:Eb. apply backoff_spec in Eb as (E1 & E2 & E3 & E4).
      apply Again; try done. lia.
    + apply Last. lia.
    + by apply Last.
  - cbn [transient_reply outcome_of delay_ok] in Again, Last. destruct (is_success (rs_status r)); cbn [negb andb] in *; [by apply Last|].
    destruct (is_transient_status_body _ _); cbn [andb]; [destruct (i <? max_retries o) eqn:Ei|].
    + destruct (retry_after o r) as [d|]; [apply Again; try done; lia|].
      destruct (backoff epoch c n1 i) as [d n2] eqn:Eb. apply backoff_spec in Eb as (E1 & E2 & E3 & E4).
      apply Again; try done. lia.
    + apply Last. lia.
    + by apply Last.
Qed.

Lemma send_with_retry_spec url body sid gzip n :
  match sid with Some id => valid_session_id id | None => true end = true ->
  let rq := request_of c url (body_len body) (body_bytes body) sid gzip in
  exists k ds n', attempts rq 0 n n' k ds
    /\ send_with_retry io_error server epoch (fun _ => true) c url body sid gzip n
       = (Some (outcome_of (server (net_sent n')) (Z.of_nat k)), n').
Proof.
  intros Hs rq. unfold send_with_retry.
  assert (match sid with Some id => negb (valid_session_id id) | None => false end = false) as -> by (destruct sid; [by rewrite Hs|done]).
  destruct (retry_loop_spec url body sid gzip (attempts_fuel c) 0 n) as (k & ds & n' & Ha & E);
    [unfold attempts_fuel; lia|]. exists k, ds, n'. by split.
Qed.
End Attempts.

(** The loop never runs out of fuel. *)
Lemma retry_loop_some io_error server epoch opens c url body sid gzip fuel : forall i n,
  (Z.to_nat (max_retries (cl_retry c) - i) < fuel)%nat ->
  is_Some (fst (retry_loop io_error server epoch opens c fuel url body sid gzip i n)).
Proof.
  induction fuel as [|fuel IH]; intros i n Hf; [lia|]. cbn [retry_loop].
  destruct (request_body _ _ _) as [e|bytes]; [done|]. destruct (post server n _) as [[cn tm text|r] n1].
  - destruct (_ && _) eqn:E; [|done]. destruct (backoff epoch c n1 i). apply IH. lia.
  - destruct (is_success _); [done|]. destruct (_ && _) eqn:E; [|done].
    destruct (match retry_after _ r with Some d => (d, n1) | None => _ end). apply IH. lia.
Qed.

Lemma encode_and_send_some io_error server epoch opens c disk gz_write gz_finish url pieces sid n :
  is_Some (fst (encode_and_send io_error server epoch opens c disk gz_write gz_finish url pieces sid n)).
Proof.
  assert (forall body gzip n, is_Some (fst (send_with_retry io_error server epoch opens c url body sid gzip n))) as H.
  { intros body gzip n1. unfold send_with_retry. destruct (match sid with Some _ => _ | None => _ end); [done|].
    apply retry_loop_some. unfold attempts_fuel. lia. }
  unfold encode_and_send. destruct (encode_body_with _ _ _ _ _ _) as [e|[body payload]]; [done|].
  specialize (H body (net_gzip n) n) as H1. destruct (send_with_retry _ _ _ _ _ _ _ _ _ n) as [[[[e k]|[r k]]|] n1]; [|done|by destruct H1].
  destruct (_ && _); [|done]. destruct (encode_body_with _ _ _ _ _ false) as [e'|[body' payload']]; [done|].
  match goal with |- context [send_with_retry _ _ _ _ _ _ _ _ _ ?m] => pose proof (H body' false m) as H2 end.
  destruct (send_with_retry _ _ _ _ _ _ body' _ _ _) as [[[[e' k']|[r k']]|] n2]; [done|done|by destruct H2].
Qed.

(** ** Properties *)

Section Properties.
Variable io_error : str.
Variable server : list HttpRequest -> Reply.
Variable epoch : list HttpRequest -> Z.
Variable c : ChatClient.
Variable disk : Z -> bool.
Variable gz_write gz_finish : list (list Z) -> list (list Z).

(** What the server reads: the body, decompressed if the headers say so. *)
Definition gzipped (rq : HttpRequest) : bool := bool_decide ((lit "content-encoding", lit "gzip") ∈ rq_headers rq).
Definition decoded (gunzip : list Z -> option (list Z)) (rq : HttpRequest) : option (list Z) :=
  if gzipped rq then gunzip (rq_body rq) else Some (rq_body rq).

Lemma gzipped_request_of url len b sid gzip : gzipped (request_of c url len b sid gzip) = gzip.
Proof.
  unfold gzipped, request_of. cbn [rq_headers]. destruct gzip.
  - apply bool_decide_eq_true. rewrite !elem_of_app. right. right. apply list_elem_of_here.
  - apply bool_decide_eq_false. rewrite app_nil_r, elem_of_app. intros [H|H].
    + rewrite !elem_of_cons in H. destruct H as [H|[H|[H|[H|H]]]]; try done. by apply elem_of_nil in H.
    + destruct sid; [|by apply elem_of_nil in H]. apply list_elem_of_singleton in H. discriminate H.
Qed.

Lemma content_length_request_of url b sid gzip :
  (lit "content-length", show_z (body_len b)) ∈ rq_headers (request_of c url (body_len b) (body_bytes b) sid gzip).
Proof. cbn [rq_headers request_of]. apply elem_of_app. left. rewrite !elem_of_cons. auto. Qed.

(** The body of an encoded request: all of it, with the sizes that are reported. *)
Lemma encode_body_spec pieces gzip body stats :
  length_z (concat pieces) < 2 ^ 64 -> length_z (concat (gz_write pieces ++ gz_finish pieces)) < 2 ^ 64 ->
  encode_body_with io_error disk gz_write gz_finish pieces gzip = inr (body, stats) ->
  body_bytes body = concat (if gzip then gz_write pieces ++ gz_finish pieces else pieces)
  /\ body_len body = length_z (body_bytes body) /\ wire_bytes stats = body_len body
  /\ json_bytes stats = length_z (concat pieces).
Proof.
  intros Hp Hz. unfold encode_body_with. pose proof (spool_new_ok REQUEST_MEMORY_BYTES ltac:(done)) as H0. destruct gzip; cbn [negb].
  - destruct (spool_writes disk _ (gz_write pieces)) as [w|] eqn:E1; [|done].
    destruct (spool_writes disk w (gz_finish pieces)) as [w'|] eqn:E2; [|done]. intros [= <- <-].
    assert (spool_writes disk (spool_new REQUEST_MEMORY_BYTES) (gz_write pieces ++ gz_finish pieces) = Some w') as E.
    { by rewrite spool_writes_app, E1. }
    eapply spool_writes_ok in E; [|exact H0|exact Hz]. apply spool_finish_ok in E as (E3 & E4 & _). cbn [app] in *.
    rewrite E3, E4. split_and!; try done. cbn [json_bytes].
    assert (forall ps n, 0 <= n -> n + length_z (concat ps) < 2 ^ 64 ->
              fold_left (fun n (b : list Z) => sat_add 64 n (length_z b)) ps n = n + length_z (concat ps)) as F.
    { clear. induction ps as [|b ps IH]; intros n Hn Hl; cbn [fold_left concat] in *; unfold length_z in *; [cbn; lia|].
      rewrite length_app in *. unfold sat_add at 2, umax. rewrite IH; lia. }
    rewrite F; lia.
  - destruct (spool_writes disk _ pieces) as [w|] eqn:E; [|done]. intros [= <- <-].
    eapply spool_writes_ok in E; [|exact H0|exact Hp]. cbn [app] in *. pose proof (so_total _ _ _ E) as Et.
    apply spool_finish_ok in E as (E3 & E4 & _). rewrite E3, E4. cbn. by rewrite Et.
Qed.

(** C19: how a request is retried, whatever the server answers.  With a session id
    that may go into a header, [send_with_retry] returns, after at most
    [max_retries] retries; every attempt is the same request with the same
    bytes; an attempt is repeated only after a transient reply, and the loop
    stops on a transient reply only when the retries are used up; the number
    reported is the number of retries; the delays are the ones the server asked
    for, capped, or lie in the upper quarter of a window that doubles, and
    never exceed [max_delay]. *)
Theorem retries_contract url body sid gzip n :
  0 <= base_delay (cl_retry c) -> 0 <= max_delay (cl_retry c) < 2 ^ 64 -> 0 <= max_retries (cl_retry c) ->
  match sid with Some id => valid_session_id id | None => true end = true ->
  exists k ds n',
    send_with_retry io_error server epoch (fun _ => true) c url body sid gzip n
      = (Some (outcome_of (server (net_sent n')) (Z.of_nat k)), n')
    /\ net_sent n' = net_sent n ++ replicate (S k) (request_of c url (body_len body) (body_bytes body) sid gzip)
    /\ net_slept n' = net_slept n ++ ds /\ length ds = k
    /\ Z.of_nat k <= max_retries (cl_retry c)
    /\ (transient_reply (server (net_sent n')) = true -> Z.of_nat k = max_retries (cl_retry c))
    /\ forall j d, ds !! j = Some d ->
         let r := server (take (length (net_sent n) + S j) (net_sent n')) in
         transient_reply r = true /\ delay_ok (cl_retry c) (Z.of_nat j) r d /\ d <= max_delay (cl_retry c).
Proof.
  intros Hb Hm Hr Hs.
  destruct (send_with_retry_spec io_error server epoch c Hb Hm url body sid gzip n Hs) as (k & ds & n' & [A1 A2 A3 A4 A5 A6 A7] & E).
  exists k, ds, n'. split; [exact E|]. split_and!; try done; [lia| |].
  - intros H. specialize (A7 H). lia.
  - intros j d Hj. assert (j < length ds)%nat as Hlt by (by eapply lookup_lt_Some). specialize (A5 j d Hj).
    rewrite A1, take_app_ge, take_replicate by lia. replace (Nat.min _ _) with (S j) by lia.
    cbv zeta in A5 |- *. destruct A5 as [A5 A8]. split_and!; [done|done|].
    unfold delay_ok, retry_after in A8. rewrite Z.add_0_l in A8.
    pose proof (backoff_ceiling_range (cl_retry c) (Z.of_nat j) Hb (proj1 Hm)) as Hc. pose proof (Z.div_pos (backoff_ceiling (cl_retry c) (Z.of_nat j)) 4).
    destruct (server _) as [a b t|r]; [lia|]. destruct (rs_retry_after r) as [h|]; cbn [mbind option_bind] in A8; [|lia].
    destruct (parse_u64 h); cbn [mbind option_bind] in A8; lia.
Qed.

(** What a request should be: its body decodes to the JSON, its length is
    announced, and it is compressed or not. *)
Definition faithful (gunzip : list Z -> option (list Z)) (json : list Z) (gzip : bool) (rq : HttpRequest) : Prop :=
  decoded gunzip rq = Some json
  /\ (lit "content-length", show_z (length_z (rq_body rq))) ∈ rq_headers rq /\ gzipped rq = gzip.

(** Only the number in an outcome depends on the count. *)
Lemma outcome_count r i j :
  outcome_of r i = match outcome_of r j with inl (e, _) => inl (e, i) | inr (x, _) => inr (x, i) end.
Proof. destruct r as [? ? ?|r]; cbn; [done|]. by destruct (is_success _). Qed.

(** One round: the body is sent, again and again if need be. *)
Lemma send_round gunzip url pieces sid n b gzip :
  0 <= base_delay (cl_retry c) -> 0 <= max_delay (cl_retry c) < 2 ^ 64 -> 0 <= max_retries (cl_retry c) ->
  match sid with Some id => valid_session_id id | None => true end = true ->
  (forall ps, gunzip (concat (gz_write ps ++ gz_finish ps)) = Some (concat ps)) ->
  body_bytes b = concat (if gzip : bool then gz_write pieces ++ gz_finish pieces else pieces) ->
  body_len b = length_z (body_bytes b) ->
  exists rqs n',
    send_with_retry io_error server epoch (fun _ => true) c url b sid gzip n
      = (Some (outcome_of (server (net_sent n')) (length_z rqs - 1)), n')
    /\ net_sent n' = net_sent n ++ rqs /\ net_gzip n' = net_gzip n
    /\ 0 < length_z rqs <= max_retries (cl_retry c) + 1
    /\ Forall (faithful gunzip (concat pieces) gzip) rqs.
Proof.
  intros Hb Hm Hr Hs Hgz E1 E2.
  destruct (send_with_retry_spec io_error server epoch c Hb Hm url b sid gzip n Hs) as (k & ds & n' & [A1 A2 A3 A4 A5 A6 A7] & E).
  rewrite E. eexists _, n'. split_and!; [|exact A1|done|..].
  - unfold length_z. rewrite length_replicate. do 3 f_equal. lia.
  - unfold length_z. rewrite length_replicate. lia.
  - unfold length_z. rewrite length_replicate. lia.
  - apply Forall_replicate. unfold faithful, decoded. rewrite gzipped_request_of. cbn [rq_body request_of]. split_and!; [|..|done].
    + rewrite E1. destruct gzip; [apply Hgz|done].
    + rewrite <- E2. apply content_length_request_of.
Qed.

(** C20: what reaches the server, gzip or not.  [encode_and_send] returns; every
    request it sent announces its own length and decodes to the JSON that was
    to be sent; the result is the server's answer to the last of them; they are
    at most twice the attempts of one round, and one fewer is the number of
    retries reported.  Without gzip nothing is compressed.  With gzip the
    client falls back exactly once, after an answer that rejects the encoding,
    and from then on never compresses again. *)
Theorem request_delivered gunzip url pieces sid n body stats raw raw_stats :
  0 <= base_delay (cl_retry c) -> 0 <= max_delay (cl_retry c) < 2 ^ 64 -> 0 <= max_retries (cl_retry c) < 2 ^ 31 ->
  match sid with Some id => valid_session_id id | None => true end = true ->
  (forall ps, gunzip (concat (gz_write ps ++ gz_finish ps)) = Some (concat ps)) ->
  length_z (concat pieces) < 2 ^ 64 -> length_z (concat (gz_write pieces ++ gz_finish pieces)) < 2 ^ 64 ->
  encode_body_with io_error disk gz_write gz_finish pieces true = inr (body, stats) ->
  encode_body_with io_error disk gz_write gz_finish pieces false = inr (raw, raw_stats) ->
  exists rqs n' payload,
    encode_and_send io_error server epoch (fun _ => true) c disk gz_write gz_finish url pieces sid n
      = (Some (match outcome_of (server (net_sent n')) (length_z rqs - 1) with
               | inl (e, k) => inl (e, k, payload)
               | inr (r, k) => inr (r, k, payload)
               end), n')
    /\ net_sent n' = net_sent n ++ rqs /\ (0 < length rqs)%nat
    /\ length_z rqs <= 2 * (max_retries (cl_retry c) + 1)
    /\ json_bytes payload = length_z (concat pieces)
    /\ (net_gzip n = false -> net_gzip n' = false /\ Forall (faithful gunzip (concat pieces) false) rqs)
    /\ (net_gzip n = true ->
        exists g p, rqs = g ++ p /\ (0 < length g)%nat /\ Forall (faithful gunzip (concat pieces) true) g
          /\ Forall (faithful gunzip (concat pieces) false) p
          /\ net_gzip n' = match outcome_of (server (net_sent n ++ g)) 0 with
                           | inl (e, _) => negb (gzip_is_unsupported e)
                           | inr _ => true
                           end
          /\ (net_gzip n' = true <-> p = [])).
Proof.
  intros Hb Hm Hr Hs Hgz Hl1 Hl2 Eg Er.
  destruct (encode_body_spec _ _ _ _ Hl1 Hl2 Eg) as (B1 & B2 & B3 & B4).
  destruct (encode_body_spec _ _ _ _ Hl1 Hl2 Er) as (R1 & R2 & R3 & R4).
  pose proof (fun n b gzip => send_round gunzip url pieces sid n b gzip Hb Hm (proj1 Hr) Hs Hgz) as Send.
  unfold encode_and_send. destruct (net_gzip n) eqn:Hn.
  2: { rewrite Er. destruct (Send n raw false R1 R2) as (g & n1 & -> & Es & E3 & E4 & E5). exists g, n1, raw_stats.
       split_and!; try done; [by destruct (outcome_of _ _) as [[]|[]]|unfold length_z in *; lia|lia|].
       intros _. by rewrite E3, Hn. }
  rewrite Eg. destruct (Send n body true B1 B2) as (g & n1 & -> & Es & E3 & E4 & E5).
  rewrite Es.
  destruct (outcome_of (server (net_sent n ++ g)) (length_z g - 1)) as [[e k]|[r k]] eqn:Eo.
  2: { exists g, n1, stats. rewrite Es, Eo. split_and!; try done; [unfold length_z in *; lia|lia|].
       intros _. exists g, []. rewrite app_nil_r, E3, Hn. split_and!; try done; [unfold length_z in *; lia|].
       rewrite (outcome_count _ 0 (length_z g - 1)), Eo. by split. }
  assert (k = length_z g - 1) as -> by (rewrite (outcome_count _ _ 0) in Eo; destruct (outcome_of _ 0) as [[]|[]]; congruence).
  assert (outcome_of (server (net_sent n ++ g)) 0 = inl (e, 0)) as Eo0 by (by rewrite (outcome_count _ 0 (length_z g - 1)), Eo).
  destruct (gzip_is_unsupported e) eqn:Eu; cbn [andb].
  2: { exists g, n1, stats. rewrite Es, Eo. split_and!; try done; [unfold length_z in *; lia|lia|].
       intros _. exists g, []. rewrite app_nil_r, E3, Hn, Eo0, Eu. split_and!; try done. unfold length_z in *; lia. }
  rewrite Er. destruct (Send (mk_net (net_sent n ++ g) (net_slept n1) (net_sequence n1) false) raw false R1 R2)
    as (p & n2 & -> & Es2 & F3 & F4 & F5). cbn [net_sent net_gzip] in Es2, F3. rewrite <- app_assoc in Es2.
  assert (length_z (g ++ p) = length_z g + length_z p) as El by (unfold length_z; rewrite length_app; lia).
  exists (g ++ p), n2, raw_stats. split_and!; try done.
  - assert (sat_add 32 (sat_add 32 (length_z g - 1) 1) (length_z p - 1) = length_z (g ++ p) - 1) as Ek
      by (rewrite El; unfold sat_add, umax; lia).
    destruct (server (net_sent n2)) as [? ? ?|r]; cbn [outcome_of]; [|destruct (is_success _)]; by rewrite Ek.
  - unfold length_z in *. lia.
  - lia.
  - intros _. exists g, p. rewrite Eo0, Eu, F3. split_and!; try done; [unfold length_z in *; lia|].
    split; [done|]. intros ->. exfalso. unfold length_z in F4. cbn [length] in F4. lia.
Qed.
End Properties.

(** ** Concrete requests *)

Module ClientSample.
Definition client : ChatClient := mk_client (lit "http://h") (lit "key") (lit "m") (mk_retry_opts 2 40000000 200000000).
Definition net0 : Net := mk_net [] [] 0 true.
(** Busy once, then fine; compressed bodies are refused. *)
Definition server (sent : list HttpRequest) : Reply :=
  match list.last sent with
  | Some rq => if gzipped rq then Responded (mk_response 415 None [] [])
               else if (length sent <=? 2)%nat then Responded (mk_response 503 (Some (lit "1")) (lit "busy") [])
               else Responded (mk_response 200 None [] [])
  | None => Failed true false []
  end.
Definition gz_write (ps : list (list Z)) : list (list Z) := [[31]].
Definition gz_finish (ps : list (list Z)) : list (list Z) := ps.
Definition gunzip (b : list Z) : option (list Z) := match b with 31 :: b => Some b | _ => None end.
Definition pieces : list (list Z) := [lit "{"; lit "}"].
Definition epoch (sent : list HttpRequest) : Z := 1000 * Z.of_nat (length sent).
Definition sid : option str := Some (lit "s-1").
End ClientSample.

Theorem retries_contract_witness :
  exists k n',
    send_with_retry (lit "io") ClientSample.server ClientSample.epoch (fun _ => true) ClientSample.client
      (lit "http://h/v1") (Memory (lit "{}")) ClientSample.sid false ClientSample.net0
      = (Some (outcome_of (ClientSample.server (net_sent n')) (Z.of_nat k)), n')
    /\ Z.of_nat k <= 2 /\ length (net_sent n') = S k.
Proof.
  destruct (retries_contract (lit "io") ClientSample.server ClientSample.epoch ClientSample.client
              (lit "http://h/v1") (Memory (lit "{}")) ClientSample.sid false ClientSample.net0) as (k & ds & n' & E & E2 & _ & _ & E3 & _).
  - vm_compute. discriminate.
  - vm_compute. split; [discriminate|reflexivity].
  - vm_compute. discriminate.
  - vm_compute. reflexivity.
  - exists k, n'. split; [exact E|]. split; [exact E3|]. rewrite E2. cbn. by rewrite length_replicate.
Defined.

Theorem request_delivered_witness :
  exists rqs n' payload,
    encode_and_send (lit "io") ClientSample.server ClientSample.epoch (fun _ => true) ClientSample.client (fun _ => true)
      ClientSample.gz_write ClientSample.gz_finish (lit "http://h/v1") ClientSample.pieces ClientSample.sid ClientSample.net0
      = (Some (match outcome_of (ClientSample.server (net_sent n')) (length_z rqs - 1) with
               | inl (e, k) => inl (e, k, payload)
               | inr (r, k) => inr (r, k, payload)
               end), n')
    /\ net_sent n' = [] ++ rqs /\ net_gzip n' = false.
Proof.
  destruct (request_delivered (lit "io") ClientSample.server ClientSample.epoch ClientSample.client (fun _ => true)
              ClientSample.gz_write ClientSample.gz_finish ClientSample.gunzip (lit "http://h/v1") ClientSample.pieces
              ClientSample.sid ClientSample.net0
              (Memory (31 :: lit "{}")) (mk_stats 2 3) (Memory (lit "{}")) (mk_stats 2 2))
    as (rqs & n' & payload & E & E2 & _ & _ & _ & _ & E3).
  - vm_compute. discriminate.
  - vm_compute. split; [discriminate|reflexivity].
  - vm_compute. split; [discriminate|reflexivity].
  - vm_compute. reflexivity.
  - intros ps. reflexivity.
  - vm_compute. reflexivity.
  - vm_compute. reflexivity.
  - vm_compute. reflexivity.
  - vm_compute. reflexivity.
  - exists rqs, n', payload. split; [exact E|]. split; [exact E2|].
    destruct (E3 eq_refl) as (g & p & _ & Hg & Fg & _ & -> & _). cbn [net_sent ClientSample.net0 app].
    destruct g as [|rq g] using rev_ind; [cbn in Hg; lia|].
    apply Forall_app in Fg as [_ Fg]. apply list.Forall_singleton in Fg as (_ & _ & Fg).
    unfold ClientSample.server. by rewrite last_snoc, Fg.
Defined.
