(* ===== verification/Config.v ===== *)
(** The settings (src/crates/rc-config/src/lib.rs): the files of the user and
    of the project, the environment over them, and what they resolve to.

    serde_json is an interface: it gives the syntax tree of a text, with the
    keys of an object as they are written.  What the derived readers of the
    file's structs make of a tree is written out.  A path is its text. *)

From S2P Require Import Prelude Utf8 Text PathLib Client.

(** ** JSON *)

(** A number is an integer of 64 bits without a sign, or any other number,
    which goes by its text. *)
#[universes(template=no)]
Inductive JVal :=
| JNull
| JBool (b : bool)
| JNum (n : Z)
| JOther (text : str)
| JStr (s : str)
| JArr (l : list JVal)
| JObj (l : list (str * JVal)).

Class SettingsJson := {
  (** the tree of a text, and what serde_json says of one it cannot read *)
  js_parse : list Z -> option JVal;
  js_error : list Z -> str;
  (** [to_string_pretty] *)
  js_pretty : JVal -> list Z
}.

(** [serde_json::Map]: its entries in the order of the keys. *)
Fixpoint insert_sorted (k : str) (v : JVal) (l : list (str * JVal)) : list (str * JVal) :=
  match l with
  | [] => [(k, v)]
  | p :: l' => if decide (str_le k p.1) then (k, v) :: l else p :: insert_sorted k v l'
  end.
Definition map_insert (k : str) (v : JVal) (l : list (str * JVal)) : list (str * JVal) :=
  if bool_decide (k ∈ l.*1) then map (fun p => if str_eqb p.1 k then (k, v) else p) l else insert_sorted k v l.
Fixpoint map_get (k : str) (l : list (str * JVal)) : option JVal :=
  match l with [] => None | p :: l => if str_eqb p.1 k then Some p.2 else map_get k l end.

(** [serde_json::Value]: of two equal keys of an object the later. *)
Fixpoint value_of (v : JVal) : JVal :=
  match v with
  | JArr l => JArr (map value_of l)
  | JObj l => JObj (fold_left (fun m p => map_insert p.1 p.2 m) (map (fun p => (p.1, value_of p.2)) l) [])
  | _ => v
  end.

(** ** The derived readers *)

Definition entries_of (names : list str) (l : list (str * JVal)) : list (str * JVal) :=
  List.filter (fun p => bool_decide (p.1 ∈ names)) l.

(** One field of a struct: a key written twice is an error. *)
Definition field_of (l : list (str * JVal)) (names : list str) : option (option JVal) :=
  match entries_of names l with [] => Some None | [p] => Some (Some p.2) | _ => None end.

(** The fields of a struct with [#[serde(default)]]: from an object, or in
    order from an array that is not longer. *)
Definition fields_of (specs : list (list str)) (v : JVal) : option (list (option JVal)) :=
  match v with
  | JObj l => mapM (field_of l) specs
  | JArr l => if (length l <=? length specs)%nat
              then Some (map Some l ++ repeat None (length specs - length l)) else None
  | _ => None
  end.

Definition as_string (v : JVal) : option str := match v with JStr s => Some s | _ => None end.
Definition as_bool (v : JVal) : option bool := match v with JBool b => Some b | _ => None end.
Definition as_uint (w : Z) (v : JVal) : option Z :=
  match v with JNum n => if decide (in_u w n) then Some n else None | _ => None end.
Definition as_strings (v : JVal) : option (list str) := match v with JArr l => mapM as_string l | _ => None end.
(** [BTreeMap<String, Value>]: of two equal keys the later. *)
Definition as_map (v : JVal) : option (gmap str JVal) :=
  match v with JObj l => Some (fold_left (fun m p => <[p.1 := value_of p.2]> m) l ∅) | _ => None end.

(** [Option<T>]: absent and null are [None]. *)
Definition opt_field {A} (read : JVal -> option A) (v : option JVal) : option (option A) :=
  match v with None | Some JNull => Some None | Some v => a ← read v; Some (Some a) end.
(** A field that is not an option, with its default. *)
Definition def_field {A} (d : A) (read : JVal -> option A) (v : option JVal) : option A :=
  match v with None => Some d | Some v => read v end.

(** ** The file *)

Inductive RequestTransport := TJson | TDlr | TAuto.
#[export] Instance transport_eq_dec : EqDecision RequestTransport.
Proof. solve_decision. Defined.

Definition transport_named (s : str) : option RequestTransport :=
  if str_eqb s (lit "json") then Some TJson
  else if str_eqb s (lit "dlr") then Some TDlr
  else if str_eqb s (lit "auto") then Some TAuto else None.
(** A unit variant is its name, or an object of the name and null. *)
Definition as_transport (v : JVal) : option RequestTransport :=
  match v with JStr s | JObj [(s, JNull)] => transport_named s | _ => None end.

Record PermissionsConfig := mk_permissions {
  pc_allow : list str; pc_ask : list str; pc_deny : list str; pc_default_mode : str; pc_additional_directories : list str
}.
Definition permissions_default : PermissionsConfig := mk_permissions [] [] [] [] [].
Definition as_permissions (v : JVal) : option PermissionsConfig :=
  fs ← fields_of [[lit "allow"]; [lit "ask"]; [lit "deny"]; [lit "default_mode"]; [lit "additional_directories"]] v;
  match fs with
  | [a; k; d; m; x] =>
      a ← def_field [] as_strings a; k ← def_field [] as_strings k; d ← def_field [] as_strings d;
      m ← def_field [] as_string m; x ← def_field [] as_strings x;
      Some (mk_permissions a k d m x)
  | _ => None
  end.

Record SandboxConfig := mk_sandbox { sb_enabled : bool; sb_allow_net : bool }.
Definition sandbox_default : SandboxConfig := mk_sandbox false false.
Definition as_sandbox (v : JVal) : option SandboxConfig :=
  fs ← fields_of [[lit "enabled"]; [lit "allow_net"]] v;
  match fs with
  | [e; n] => e ← def_field false as_bool e; n ← def_field false as_bool n; Some (mk_sandbox e n)
  | _ => None
  end.

Record ContextConfig := mk_context {
  cx_inline_file_cap : Z; cx_tool_result_cap : Z; cx_bash_output_cap : Z; cx_grep_output_cap : Z;
  cx_read_default_limit : Z; cx_read_max_line_chars : Z; cx_glob_cap : Z; cx_max_iters : Z
}.
Definition DEFAULT_TOOL_RESULT_CAP : Z := 64 * 1024.
Definition context_default : ContextConfig := mk_context 0 DEFAULT_TOOL_RESULT_CAP 0 0 0 0 0 1000.
Definition as_context (v : JVal) : option ContextConfig :=
  fs ← fields_of [[lit "inline_file_cap"]; [lit "tool_result_cap"]; [lit "bash_output_cap"]; [lit "grep_output_cap"];
                  [lit "read_default_limit"]; [lit "read_max_line_chars"]; [lit "glob_cap"]; [lit "max_iters"]] v;
  match fs with
  | [a; b; c; d; e; f; g; h] =>
      a ← def_field 0 (as_uint 64) a; b ← def_field DEFAULT_TOOL_RESULT_CAP (as_uint 64) b;
      c ← def_field 0 (as_uint 64) c; d ← def_field 0 (as_uint 64) d;
      e ← def_field 0 (as_uint 32) e; f ← def_field 0 (as_uint 64) f;
      g ← def_field 0 (as_uint 64) g; h ← def_field 1000 (as_uint 32) h;
      Some (mk_context a b c d e f g h)
  | _ => None
  end.

Record UiFile := mk_ui { ui_mouse : option bool }.
Definition as_ui (v : JVal) : option UiFile :=
  fs ← fields_of [[lit "mouse"]] v;
  match fs with [m] => m ← opt_field as_bool m; Some (mk_ui m) | _ => None end.

Record ProviderFile := mk_provider {
  pf_base_url : option str; pf_api_key_env : option str; pf_timeout_ms : option Z; pf_idle_timeout_ms : option Z;
  pf_max_retries : option Z; pf_request_gzip : option bool; pf_reasoning_effort : option str;
  pf_dlr_enabled : option bool; pf_request_transport : option RequestTransport; pf_dlr_url : option str;
  pf_dlr_ingress_token_env : option str; pf_dlr_repair_margin_pct : option Z
}.
Definition provider_default : ProviderFile :=
  mk_provider None None None None None None None None None None None None.
Definition as_provider (v : JVal) : option ProviderFile :=
  fs ← fields_of [[lit "base_url"]; [lit "api_key_env"]; [lit "timeout_ms"]; [lit "idle_timeout_ms"];
                  [lit "max_retries"]; [lit "request_gzip"]; [lit "reasoning_effort"]; [lit "dlr_enabled"];
                  [lit "request_transport"]; [lit "dlr_url"]; [lit "dlr_ingress_token_env"];
                  [lit "dlr_repair_margin_pct"]] v;
  match fs with
  | [a; b; c; d; e; f; g; h; i; j; k; l] =>
      a ← opt_field as_string a; b ← opt_field as_string b; c ← opt_field (as_uint 64) c;
      d ← opt_field (as_uint 64) d; e ← opt_field (as_uint 32) e; f ← opt_field as_bool f;
      g ← opt_field as_string g; h ← opt_field as_bool h; i ← opt_field as_transport i;
      j ← opt_field as_string j; k ← opt_field as_string k; l ← opt_field (as_uint 32) l;
      Some (mk_provider a b c d e f g h i j k l)
  | _ => None
  end.

Record SettingsFile := mk_file {
  sf_provider : option ProviderFile; sf_model : option str; sf_models : option (list str);
  sf_small_model : option str; sf_permissions : option PermissionsConfig; sf_sandbox : option SandboxConfig;
  sf_context : option ContextConfig; sf_ui : option UiFile; sf_mcp_servers : option (gmap str JVal);
  sf_trusted_mcp_projects : option (list str)
}.
Definition file_default : SettingsFile := mk_file None None None None None None None None None None.
Definition FILE_KEYS : list (list str) :=
  [[lit "provider"]; [lit "model"]; [lit "models"]; [lit "small_model"]; [lit "permissions"]; [lit "sandbox"];
   [lit "context"]; [lit "ui"]; [lit "mcpServers"; lit "mcp_servers"];
   [lit "trustedMcpProjects"; lit "trusted_mcp_projects"]].
Definition as_file (v : JVal) : option SettingsFile :=
  fs ← fields_of FILE_KEYS v;
  match fs with
  | [a; b; c; d; e; f; g; h; i; j] =>
      a ← opt_field as_provider a; b ← opt_field as_string b; c ← opt_field as_strings c;
      d ← opt_field as_string d; e ← opt_field as_permissions e; f ← opt_field as_sandbox f;
      g ← opt_field as_context g; h ← opt_field as_ui h; i ← opt_field as_map i; j ← opt_field as_strings j;
      Some (mk_file a b c d e f g h i j)
  | _ => None
  end.

(** ** The operating system *)

Class ConfigOs := {
  (** [std::env::var(..).ok()] *)
  os_env : str -> option str;
  os_canonicalize : str -> option str;
  (** the text of "not found", and of another error at a path *)
  os_not_found : str;
  os_unreadable : str -> option str
}.

Abbreviation Files := (gmap (list Z) (list Z)) (only parsing).

Inductive ReadResult := Found (bytes : list Z) | NotFound | ReadError (e : str).
Definition read_at `{ConfigOs} (fs : Files) (path : str) : ReadResult :=
  match os_unreadable path with
  | Some e => ReadError e
  | None => match fs !! path with Some b => Found b | None => NotFound end
  end.

(** ** Text *)

Definition eq_ignore_ascii_case (a b : str) : bool := str_eqb (to_ascii_lowercase a) (to_ascii_lowercase b).

(** [split(c).next()] and [rsplit(c).next()] *)
Fixpoint before_char (c : char) (s : str) : str :=
  match s with [] => [] | d :: s => if d =? c then [] else d :: before_char c s end.
Definition after_last (c : char) (s : str) : str := rev (before_char c (rev s)).

Definition parse_u32 (s : str) : option Z := n ← parse_u64 s; if n <? 2 ^ 32 then Some n else None.

(** The texts that [f32::from_str] accepts. *)
Definition is_digit (c : char) : bool := (48 <=? c) && (c <=? 57).
Fixpoint span_digits (s : str) : str * str :=
  match s with
  | c :: s' => if is_digit c then let '(a, b) := span_digits s' in (c :: a, b) else ([], s)
  | [] => ([], [])
  end.
Definition strip_sign (s : str) : str :=
  match s with c :: s' => if (c =? 43) || (c =? 45) then s' else s | [] => [] end.
Definition is_exponent (s : str) : bool :=
  match s with
  | [] => true
  | c :: s => ((c =? 101) || (c =? 69)) && (let '(d, r) := span_digits (strip_sign s) in negb (is_nil d) && is_nil r)
  end.
Definition is_f32 (s : str) : bool :=
  let s := strip_sign s in
  bool_decide (to_ascii_lowercase s ∈ [lit "inf"; lit "infinity"; lit "nan"])
  || (let '(i, r) := span_digits s in
      let '(f, r) := match r with c :: r' => if c =? 46 then span_digits r' else ([], r) | [] => ([], []) end in
      negb (is_nil i && is_nil f) && is_exponent r).

(** ** Pieces of the loader *)

Definition DEFAULT_BASE_URL : str := lit "https://api.subconscious.dev/v1".
Definition DEFAULT_DLR_URL : str := lit "https://api.subconscious.dev".
Definition DEFAULT_MODEL : str := lit "subconscious/glm-5.2".
Definition DEFAULT_SMALL_MODEL : str := lit "subconscious/glm-5.2".
Definition DEFAULT_TIMEOUT_MS : Z := 0.
Definition DEFAULT_IDLE_TIMEOUT_MS : Z := 120000.
Definition DEFAULT_MAX_RETRIES : Z := 0.
Definition DEFAULT_MAX_TOKENS : Z := 8192.
Definition DEFAULT_REASONING_EFFORT : str := lit "high".

Definition is_subconscious_endpoint (base_url : str) : bool :=
  let u := trim base_url in
  match (match strip_prefix (lit "https://") u with Some r => Some r | None => strip_prefix (lit "http://") u end) with
  | None => false
  | Some rest => eq_ignore_ascii_case (before_char 58 (after_last 64 (before_char 47 rest))) (lit "api.subconscious.dev")
  end.

Definition transport_for_dlr_enabled (enabled : bool) : RequestTransport := if enabled then TAuto else TJson.

Definition normalize_reasoning_effort (value : str) : option str :=
  let value := trim value in
  if is_nil value || eq_ignore_ascii_case value (lit "off") || eq_ignore_ascii_case value (lit "none") then None
  else Some (to_ascii_lowercase value).

Definition is_null (v : JVal) : bool := match v with JNull => true | _ => false end.
Definition merge_mcp_servers (into layer : gmap str JVal) : gmap str JVal :=
  map_fold (fun name v m => if is_null v then delete name m else <[name := v]> m) into layer.

Section Os.
Context `{ConfigOs} `{SettingsJson}.

Definition user_dir : option str := h ← os_env (lit "HOME"); Some (push_path h (lit ".sc")).
Definition user_settings_path : option str := d ← user_dir; Some (push_path d (lit "settings.json")).
Definition project_settings_path (project : str) : str :=
  push_path (push_path project (lit ".sc")) (lit "settings.json").
Definition key_file_path : option str := d ← user_dir; Some (push_path d (lit "key")).

Definition is_trusted_project (project : str) (trusted : list str) : bool :=
  match os_canonicalize project with
  | None => false
  | Some project =>
      existsb (fun entry =>
        match (match strip_prefix (lit "~/") entry with
               | Some rest => d ← user_dir; home ← path_parent d; Some (push_path home rest)
               | None => Some entry
               end) with
        | None => false
        | Some entry => bool_decide (os_canonicalize entry = Some project)
        end) trusted
  end.

Definition env_bool (name : str) : option bool :=
  v ← os_env name;
  let v := to_ascii_lowercase (trim v) in
  if bool_decide (v ∈ [lit "1"; lit "true"; lit "yes"; lit "on"]) then Some true
  else if bool_decide (v ∈ [lit "0"; lit "false"; lit "no"; lit "off"]) then Some false else None.

Definition read_key_file (fs : Files) (path : str) : option str :=
  match read_at fs path with
  | Found b => v ← from_utf8 b; let v := trim v in if is_nil v then None else Some v
  | _ => None
  end.
Definition saved_api_key (fs : Files) : option str := p ← key_file_path; read_key_file fs p.
Definition env_nonempty (name : str) : option str :=
  v ← os_env name; if is_nil v then None else Some v.
Definition resolve_api_key (fs : Files) (env_name : str) : option str :=
  match env_nonempty env_name with Some k => Some k | None => saved_api_key fs end.

(** [read_settings] *)
Definition with_path (path e : str) : str := path ++ lit ": " ++ e.
Definition read_settings (fs : Files) (path : str) : str + SettingsFile :=
  match read_at fs path with
  | ReadError e => inl (with_path path e)
  | NotFound => inl (with_path path os_not_found)
  | Found b => match (t ← js_parse b; as_file t) with Some f => inr f | None => inl (with_path path (js_error b)) end
  end.

(** [scan_for_secret]: the first line that looks like one. *)
Definition key_field (line : str) : bool :=
  let lower := to_ascii_lowercase line in
  existsb (fun name => contains lower (34 :: lit name ++ [34]))
          ["api_key"; "apikey"; "key"; "token"; "secret"; "bearer"]%string.
Definition is_alphanumeric (c : char) : bool :=
  is_digit c || ((65 <=? c) && (c <=? 90)) || ((97 <=? c) && (c <=? 122)).
Definition field_value (line : str) : option str :=
  i ← find_char line 58;
  rest ← strip_prefix [34] (trim_start (drop (S i) line));
  e ← find_char rest 34;
  Some (take e rest).
Fixpoint scan_lines (path : str) (i : nat) (ls : list str) : option str :=
  match ls with
  | [] => None
  | line :: ls =>
      match (if key_field line then field_value line else None) with
      | Some val =>
          if (20 <=? byte_len val) && existsb is_alphanumeric val
          then Some (path ++ lit ":" ++ show_z (Z.of_nat (S i)) ++ lit ": possible secret in settings ("
                     ++ take 8 val ++ [8230] ++ lit ") " ++ [8212] ++ lit " use the env var instead")
          else scan_lines path (S i) ls
      | None => scan_lines path (S i) ls
      end
  end.
Definition scan_for_secret (fs : Files) (path : str) : option str :=
  match read_at fs path with Found b => t ← from_utf8 b; scan_lines path 0 (lines t) | _ => None end.

(** ** The layers *)

(** The locals of [load_with_report] that a file can set. *)
Record Layers := mk_layers {
  l_base_url : str; l_api_key_env : str; l_timeout_ms : Z; l_idle_timeout_ms : Z; l_max_retries : Z;
  l_reasoning_effort : option str; l_model : str; l_models : list str; l_small_model : str;
  l_permissions : PermissionsConfig; l_sandbox : SandboxConfig; l_context : ContextConfig;
  l_request_gzip : bool; l_gzip_configured : bool; l_transport : RequestTransport; l_dlr_explicit : bool;
  l_dlr_url : str; l_dlr_token_env : str; l_repair_margin : Z; l_mouse : bool;
  l_mcp : gmap str JVal; l_project_mcp : gmap str JVal; l_trusted : list str
}.
Definition layers_default : Layers :=
  mk_layers DEFAULT_BASE_URL (lit "SC_API_KEY") DEFAULT_TIMEOUT_MS DEFAULT_IDLE_TIMEOUT_MS DEFAULT_MAX_RETRIES
    (Some DEFAULT_REASONING_EFFORT) DEFAULT_MODEL [] DEFAULT_SMALL_MODEL
    permissions_default sandbox_default context_default
    false false TAuto false DEFAULT_DLR_URL (lit "SC_DLR_INGRESS_TOKEN") 5 true ∅ ∅ [].

(** What a file says, over what the layers before it say. *)
Definition file_layer (user_layer : bool) (f : SettingsFile) (l : Layers) : Layers :=
  let p := default provider_default (sf_provider f) in
  let transport := default (l_transport l) (pf_request_transport p) in
  mk_layers
    (default (l_base_url l) (pf_base_url p))
    (default (l_api_key_env l) (pf_api_key_env p))
    (default (l_timeout_ms l) (pf_timeout_ms p))
    (default (l_idle_timeout_ms l) (pf_idle_timeout_ms p))
    (default (l_max_retries l) (pf_max_retries p))
    (match pf_reasoning_effort p with Some e => normalize_reasoning_effort e | None => l_reasoning_effort l end)
    (default (l_model l) (sf_model f))
    (default (l_models l) (sf_models f))
    (default (l_small_model l) (sf_small_model f))
    (default (l_permissions l) (sf_permissions f))
    (default (l_sandbox l) (sf_sandbox f))
    (default (l_context l) (sf_context f))
    (default (l_request_gzip l) (pf_request_gzip p))
    (l_gzip_configured l || bool_decide (is_Some (pf_request_gzip p)))
    (match pf_dlr_enabled p with Some b => transport_for_dlr_enabled b | None => transport end)
    (l_dlr_explicit l || bool_decide (is_Some (pf_request_transport p))
     || bool_decide (is_Some (pf_dlr_enabled p)) || bool_decide (is_Some (pf_dlr_url p)))
    (default (l_dlr_url l) (pf_dlr_url p))
    (default (l_dlr_token_env l) (pf_dlr_ingress_token_env p))
    (default (l_repair_margin l) (pf_dlr_repair_margin_pct p))
    (default (l_mouse l) (match sf_ui f with Some u => ui_mouse u | None => None end))
    (match sf_mcp_servers f with Some s => if user_layer then merge_mcp_servers (l_mcp l) s else l_mcp l | None => l_mcp l end)
    (match sf_mcp_servers f with Some s => if user_layer then l_project_mcp l else s | None => l_project_mcp l end)
    (if user_layer then default (l_trusted l) (sf_trusted_mcp_projects f) else l_trusted l).

(** One turn of the loop over the layers, with the warnings it adds. *)
Definition load_layer (fs : Files) (path : str) (lw : Layers * list str) : Layers * list str :=
  let '(l, warnings) := lw in
  let user_layer := bool_decide (components <$> user_settings_path = Some (components path)) in
  match read_settings fs path with
  | inr f => (file_layer user_layer f l, warnings ++ match scan_for_secret fs path with Some w => [w] | None => [] end)
  | inl e => (l, warnings ++ [e])
  end.
Definition load_files (fs : Files) (project_dir : str) : Layers * list str :=
  let lw := match user_settings_path with
            | Some p => load_layer fs p (layers_default, [])
            | None => (layers_default, [])
            end in
  load_layer fs (project_settings_path project_dir) lw.

(** ** The environment *)

Definition env_parse {A} (parse : str -> option A) (name : str) : option A := v ← os_env name; parse v.

Definition env_transport : option RequestTransport :=
  v ← os_env (lit "SC_REQUEST_TRANSPORT"); transport_named (to_ascii_lowercase (trim v)).
Definition env_dlr_url : option str :=
  v ← os_env (lit "SC_DLR_URL"); if is_nil (trim v) then None else Some v.

Definition env_permissions (p : PermissionsConfig) : PermissionsConfig :=
  mk_permissions (pc_allow p) (pc_ask p) (pc_deny p)
    (default (pc_default_mode p) (env_nonempty (lit "SC_DEFAULT_MODE"))) (pc_additional_directories p).
Definition env_sandbox (s : SandboxConfig) : SandboxConfig :=
  mk_sandbox (default (sb_enabled s) (env_bool (lit "SC_SANDBOX")))
    (default (sb_allow_net s) (env_bool (lit "SC_SANDBOX_NET"))).
Definition env_context (c : ContextConfig) : ContextConfig :=
  mk_context
    (default (cx_inline_file_cap c) (env_parse parse_u64 (lit "SC_INLINE_FILE_CAP")))
    (default (cx_tool_result_cap c) (env_parse parse_u64 (lit "SC_TOOL_RESULT_CAP")))
    (default (cx_bash_output_cap c) (env_parse parse_u64 (lit "SC_BASH_OUTPUT_CAP")))
    (default (cx_grep_output_cap c) (env_parse parse_u64 (lit "SC_GREP_OUTPUT_CAP")))
    (default (cx_read_default_limit c) (env_parse parse_u32 (lit "SC_READ_DEFAULT_LIMIT")))
    (default (cx_read_max_line_chars c) (env_parse parse_u64 (lit "SC_READ_MAX_LINE_CHARS")))
    (default (cx_glob_cap c) (env_parse parse_u64 (lit "SC_GLOB_CAP")))
    (default (cx_max_iters c) (env_parse parse_u32 (lit "SC_MAX_ITERS"))).

(** The environment over the files. *)
Definition env_layer (l : Layers) : Layers :=
  let transport := default (l_transport l) env_transport in
  mk_layers
    (default (l_base_url l) (env_nonempty (lit "SC_BASE_URL")))
    (l_api_key_env l)
    (default (l_timeout_ms l) (env_parse parse_u64 (lit "SC_TIMEOUT_MS")))
    (default (l_idle_timeout_ms l) (env_parse parse_u64 (lit "SC_IDLE_TIMEOUT_MS")))
    (default (l_max_retries l) (env_parse parse_u32 (lit "SC_MAX_RETRIES")))
    (match os_env (lit "SC_REASONING_EFFORT") with Some v => normalize_reasoning_effort v | None => l_reasoning_effort l end)
    (default (l_model l) (env_nonempty (lit "SC_MODEL")))
    (l_models l)
    (default (l_small_model l) (env_nonempty (lit "SC_SMALL_MODEL")))
    (env_permissions (l_permissions l))
    (env_sandbox (l_sandbox l))
    (env_context (l_context l))
    (default (l_request_gzip l) (env_bool (lit "SC_REQUEST_GZIP")))
    (l_gzip_configured l || bool_decide (is_Some (env_bool (lit "SC_REQUEST_GZIP"))))
    (match env_bool (lit "SC_DLR_ENABLED") with Some b => transport_for_dlr_enabled b | None => transport end)
    (l_dlr_explicit l || bool_decide (is_Some env_transport)
     || bool_decide (is_Some (env_bool (lit "SC_DLR_ENABLED"))) || bool_decide (is_Some env_dlr_url))
    (default (l_dlr_url l) env_dlr_url)
    (l_dlr_token_env l)
    (default (l_repair_margin l) (env_parse parse_u32 (lit "SC_DLR_REPAIR_MARGIN_PCT")))
    (default (l_mouse l) (env_bool (lit "SC_MOUSE")))
    (l_mcp l) (l_project_mcp l) (l_trusted l).

(** ** The result *)

Record Settings := mk_settings {
  st_base_url : str; st_api_key : option str; st_api_key_env : str; st_model : str; st_models : list str;
  st_small_model : str; st_timeout_ms : Z; st_idle_timeout_ms : Z; st_max_retries : Z; st_retry_base_ms : Z;
  st_retry_max_ms : Z; st_turn_timeout_ms : Z; st_max_tokens : Z;
  st_temperature : option str;   (** the text of a number *)
  st_reasoning_effort : option str; st_permissions : PermissionsConfig; st_sandbox : SandboxConfig;
  st_context : ContextConfig; st_request_gzip : bool; st_request_transport : RequestTransport;
  st_dlr_explicitly_configured : bool; st_dlr_url : str; st_dlr_ingress_token : option str;
  st_dlr_ingress_token_env : str; st_dlr_repair_margin_pct : Z; st_mouse : bool;
  st_mcp_servers : gmap str JVal; st_project_mcp_servers : gmap str JVal; st_project_mcp_trusted : bool
}.

(** [Vec::dedup] *)
Fixpoint dedup (l : list str) : list str :=
  match l with
  | [] => []
  | x :: l => match dedup l with (y :: _) as l' => if str_eqb x y then l' else x :: l' | [] => [x] end
  end.
Definition roster (model : str) (models : list str) : list str :=
  let models := dedup (List.filter (fun m => negb (is_nil m)) models) in
  if bool_decide (model ∈ models) then models else model :: models.

Definition resolve_settings (fs : Files) (project_dir : str) (l : Layers) : Settings :=
  let transport := if negb (l_dlr_explicit l) && negb (is_subconscious_endpoint (l_base_url l)) then TJson else l_transport l in
  let gzip := if negb (l_gzip_configured l) && is_subconscious_endpoint (l_base_url l) then true else l_request_gzip l in
  mk_settings (l_base_url l) (resolve_api_key fs (l_api_key_env l)) (l_api_key_env l)
    (l_model l) (roster (l_model l) (l_models l)) (l_small_model l) (l_timeout_ms l) (l_idle_timeout_ms l)
    (l_max_retries l)
    (default 200 (env_parse parse_u64 (lit "SC_RETRY_BASE_MS")))
    (default 10000 (env_parse parse_u64 (lit "SC_RETRY_MAX_MS")))
    (default 0 (env_parse parse_u64 (lit "SC_TURN_TIMEOUT_MS")))
    (default DEFAULT_MAX_TOKENS (env_parse parse_u32 (lit "SC_MAX_TOKENS")))
    (v ← os_env (lit "SC_TEMPERATURE"); if is_f32 v then Some v else None)
    (l_reasoning_effort l) (l_permissions l) (l_sandbox l) (l_context l) gzip transport (l_dlr_explicit l)
    (l_dlr_url l) (env_nonempty (l_dlr_token_env l)) (l_dlr_token_env l) (l_repair_margin l) (l_mouse l)
    (l_mcp l) (l_project_mcp l)
    (bool_decide (l_project_mcp l = ∅) || is_trusted_project project_dir (l_trusted l)).

Definition load_with_report (fs : Files) (project_dir : str) : Settings * list str :=
  let '(l, warnings) := load_files fs project_dir in
  (resolve_settings fs project_dir (env_layer l), warnings).
Definition settings_load (fs : Files) (project_dir : str) : Settings := (load_with_report fs project_dir).1.

Definition apply_base_url_override (s : Settings) (base_url : str) : Settings :=
  let transport := if st_dlr_explicitly_configured s then st_request_transport s
                   else if is_subconscious_endpoint base_url then TAuto else TJson in
  mk_settings base_url (st_api_key s) (st_api_key_env s) (st_model s) (st_models s) (st_small_model s)
    (st_timeout_ms s) (st_idle_timeout_ms s) (st_max_retries s) (st_retry_base_ms s) (st_retry_max_ms s)
    (st_turn_timeout_ms s) (st_max_tokens s) (st_temperature s) (st_reasoning_effort s) (st_permissions s)
    (st_sandbox s) (st_context s) (st_request_gzip s) transport (st_dlr_explicitly_configured s) (st_dlr_url s)
    (st_dlr_ingress_token s) (st_dlr_ingress_token_env s) (st_dlr_repair_margin_pct s) (st_mouse s)
    (st_mcp_servers s) (st_project_mcp_servers s) (st_project_mcp_trusted s).

End Os.
