(* ===== verification/ConfigEdit.v ===== *)
(** Editing the settings (src/crates/rc-config/src/edit.rs, and the key file of
    lib.rs): the fields the menu offers, what they accept, and the write of one
    value into the user's file.  The line of help of a field is left out. *)

From S2P Require Import Prelude Utf8 Text PathLib Client Config.

(** ** Fields *)

#[universes(template=no)]
Inductive FieldKind := KText | KChoice (options : list string) | KModel | KNumber | KBool.
Record FieldSpec := mk_field { fd_name : string; fd_path : list string; fd_env : string; fd_kind : FieldKind }.

#[export] Instance kind_eq_dec : EqDecision FieldKind.
Proof. solve_decision. Defined.
#[export] Instance field_eq_dec : EqDecision FieldSpec.
Proof. solve_decision. Defined.

Local Open Scope string_scope.
Definition MODES : list string := ["ask"; "default"; "acceptEdits"; "plan"; "auto"].
Definition REASONING_EFFORTS : list string := ["high"; "max"; "off"].
Definition EDITABLE : list FieldSpec :=
  [ mk_field "model" ["model"] "SC_MODEL" KModel;
    mk_field "small_model" ["small_model"] "SC_SMALL_MODEL" KText;
    mk_field "base_url" ["provider"; "base_url"] "SC_BASE_URL" KText;
    mk_field "default_mode" ["permissions"; "default_mode"] "SC_DEFAULT_MODE" (KChoice MODES);
    mk_field "idle_timeout_ms" ["provider"; "idle_timeout_ms"] "SC_IDLE_TIMEOUT_MS" KNumber;
    mk_field "max_retries" ["provider"; "max_retries"] "SC_MAX_RETRIES" KNumber;
    mk_field "request_gzip" ["provider"; "request_gzip"] "SC_REQUEST_GZIP" KBool;
    mk_field "dlr_enabled" ["provider"; "dlr_enabled"] "SC_DLR_ENABLED" KBool;
    mk_field "dlr_url" ["provider"; "dlr_url"] "SC_DLR_URL" KText;
    mk_field "dlr_repair_margin_pct" ["provider"; "dlr_repair_margin_pct"] "SC_DLR_REPAIR_MARGIN_PCT" KNumber;
    mk_field "reasoning_effort" ["provider"; "reasoning_effort"] "SC_REASONING_EFFORT" (KChoice REASONING_EFFORTS);
    mk_field "mouse" ["ui"; "mouse"] "SC_MOUSE" KBool;
    mk_field "tool_result_cap" ["context"; "tool_result_cap"] "SC_TOOL_RESULT_CAP" KNumber;
    mk_field "read_default_limit" ["context"; "read_default_limit"] "SC_READ_DEFAULT_LIMIT" KNumber;
    mk_field "max_iters" ["context"; "max_iters"] "SC_MAX_ITERS" KNumber ].

Definition show_bool (b : bool) : str := lit (if b then "true" else "false").

Fixpoint value_named (name : string) (l : list (string * str)) : option str :=
  match l with [] => None | (k, v) :: l => if String.eqb k name then Some v else value_named name l end.

(** [FieldSpec::current] *)
Definition field_current (f : FieldSpec) (s : Settings) : str :=
  default [] (value_named (fd_name f)
    [ ("model", st_model s);
      ("small_model", st_small_model s);
      ("base_url", st_base_url s);
      ("default_mode", let m := pc_default_mode (st_permissions s) in if is_nil m then lit "default" else m);
      ("idle_timeout_ms", show_z (st_idle_timeout_ms s));
      ("max_retries", show_z (st_max_retries s));
      ("request_gzip", show_bool (st_request_gzip s));
      ("dlr_enabled", show_bool (bool_decide (st_request_transport s <> TJson)));
      ("dlr_url", st_dlr_url s);
      ("dlr_repair_margin_pct", show_z (st_dlr_repair_margin_pct s));
      ("reasoning_effort", default (lit "off") (st_reasoning_effort s));
      ("mouse", show_bool (st_mouse s));
      ("tool_result_cap", show_z (cx_tool_result_cap (st_context s)));
      ("read_default_limit", show_z (cx_read_default_limit (st_context s)));
      ("max_iters", show_z (cx_max_iters (st_context s))) ]).

(** [FieldSpec::parse] *)
Definition field_parse (f : FieldSpec) (raw : str) : str + JVal :=
  let raw := trim raw in
  match fd_kind f with
  | KText | KModel => if is_nil raw then inl (lit (fd_name f) ++ lit " cannot be empty")%list else inr (JStr raw)
  | KChoice options =>
      match List.find (fun o => eq_ignore_ascii_case (lit o) raw) options with
      | Some o => inr (JStr (lit o))
      | None => inl (lit "must be one of: " ++ join (lit ", ") (map lit options))%list
      end
  | KNumber => match parse_u64 raw with Some n => inr (JNum n) | None => inl (lit "must be a non-negative whole number") end
  | KBool => if str_eqb raw (lit "true") then inr (JBool true)
             else if str_eqb raw (lit "false") then inr (JBool false) else inl (lit "must be true or false")
  end.

(** [step]: [delta] places on, around. *)
Fixpoint position (p : str -> bool) (l : list str) : option nat :=
  match l with [] => None | x :: l => if p x then Some 0%nat else S <$> position p l end.
Definition step_option (options : list str) (current : str) (delta : Z) : option str :=
  if (length options <? 2)%nat then None
  else let i := default 0%nat (position (fun o => str_eqb o current) options) in
       options !! Z.to_nat ((Z.of_nat i + delta) mod length_z options).

(** [FieldSpec::cycle] *)
Definition field_cycle (f : FieldSpec) (current : str) (delta : Z) (s : Settings) : option str :=
  match fd_kind f with
  | KChoice options => step_option (map lit options) current delta
  | KModel => step_option (st_models s) current delta
  | KBool => Some (show_bool (negb (str_eqb current (lit "true"))))
  | KText | KNumber => None
  end.
Local Close Scope string_scope.

(** ** Writing *)

Inductive WriteResult := WriteDone | WriteRefused (e : str) | WriteTorn (e : str) (n : nat).

(** Making a directory and writing a file: each may fail, a write after some
    of the bytes. *)
Class ConfigDisk := {
  os_create_dir : str -> option str;
  os_write : str -> list Z -> WriteResult;
  os_chmod : str -> option str
}.

Definition is_ascii_whitespace (b : Z) : bool := bool_decide (b ∈ [9; 10; 12; 13; 32]).

(** [set_raw] on the tree; an empty path is a bug. *)
Fixpoint set_path (path : str) (node : JVal) (keys : list str) (v : JVal) : res str JVal :=
  match keys with
  | [] => Panic
  | [leaf] =>
      match node with
      | JObj l => Ok (JObj (map_insert leaf v l))
      | _ => Err (path ++ lit ": `" ++ leaf ++ lit "`'s parent is not an object")
      end
  | key :: keys =>
      match node with
      | JObj l => let? c := set_path path (default (JObj []) (map_get key l)) keys v in Ok (JObj (map_insert key c l))
      | _ => Err (path ++ lit ": `" ++ key ++ lit "` is not an object")
      end
  end.

Section Edit.
Context `{ConfigOs} `{SettingsJson} `{ConfigDisk}.

Definition env_override (f : FieldSpec) : option str := env_nonempty (lit (fd_env f)).

Definition read_tree (fs : Files) (path : str) : res str JVal :=
  match read_at fs path with
  | NotFound => Ok (JObj [])
  | ReadError e => Err (lit "reading " ++ path ++ lit ": " ++ e)
  | Found b =>
      if forallb is_ascii_whitespace b then Ok (JObj [])
      else match js_parse b with
           | Some t => Ok (value_of t)
           | None => Err (path ++ lit " is not valid JSON (" ++ js_error b ++ lit "); fix it by hand first")
           end
  end.

(** [create_dir_all] of the parent, then [fs::write]. *)
Definition fs_write (fs : Files) (path : str) (b : list Z) : res str str * Files :=
  match (match path_parent path with
         | Some parent => match os_create_dir parent with Some e => Some (lit "creating " ++ parent ++ lit ": " ++ e) | None => None end
         | None => None
         end) with
  | Some e => (Err e, fs)
  | None =>
      match os_write path b with
      | WriteDone => (Ok path, <[path := b]> fs)
      | WriteRefused e => (Err (lit "writing " ++ path ++ lit ": " ++ e), fs)
      | WriteTorn e n => (Err (lit "writing " ++ path ++ lit ": " ++ e), <[path := take n b]> fs)
      end
  end.

Definition set_raw (fs : Files) (keys : list str) (v : JVal) : res str str * Files :=
  match user_settings_path with
  | None => (Err (lit "HOME is not set; cannot locate ~/.sc/settings.json"), fs)
  | Some path =>
      match (let? root := read_tree fs path in set_path path root keys v) with
      | Ok root => fs_write fs path (js_pretty root ++ [10])
      | Err e => (Err e, fs)
      | Panic => (Panic, fs)
      end
  end.
Definition set_user_setting (fs : Files) (f : FieldSpec) (v : JVal) : res str str * Files :=
  set_raw fs (map lit (fd_path f)) v.

(** [write_model_keys]: two writes. *)
Definition write_model_keys (fs : Files) (model : str) (roster : list str) : res str str * Files :=
  match List.find (fun f => String.eqb (fd_name f) "model") EDITABLE with
  | None => (Panic, fs)
  | Some spec =>
      match set_user_setting fs spec (JStr model) with
      | (Ok _, fs) => set_raw fs [lit "models"] (JArr (map JStr roster))
      | r => r
      end
  end.

Definition add_model (fs : Files) (name : str) (s : Settings) : res str str * Files :=
  let name := trim name in
  if is_nil name then (Err (lit "model cannot be empty"), fs)
  else write_model_keys fs name (if bool_decide (name ∈ st_models s) then st_models s else st_models s ++ [name]).

Definition remove_model (fs : Files) (name : str) (s : Settings) : res str str * Files :=
  if (length (st_models s) <? 2)%nat then (Err (lit "can't remove the only saved model"), fs)
  else let roster := List.filter (fun m => negb (str_eqb m name)) (st_models s) in
       if (length roster =? length (st_models s))%nat then (Err (name ++ lit " is not in the saved list"), fs)
       else write_model_keys fs (st_model s) roster.

(** [write_key_file] and [set_api_key] *)
Definition write_key_file (fs : Files) (path value : str) : res str unit * Files :=
  let value := trim value in
  if is_nil value then (Err (lit "api key cannot be empty"), fs)
  else match fs_write fs path (utf8 (value ++ [10])) with
       | (Ok _, fs) => match os_chmod path with
                       | Some e => (Err (lit "chmod " ++ path ++ lit ": " ++ e), fs)
                       | None => (Ok tt, fs)
                       end
       | (Err e, fs) => (Err e, fs)
       | (Panic, fs) => (Panic, fs)
       end.
Definition set_api_key (fs : Files) (value : str) : res str str * Files :=
  match key_file_path with
  | None => (Err (lit "HOME is not set; cannot locate ~/.sc/key"), fs)
  | Some path => let '(r, fs) := write_key_file fs path value in (let? _ := r in Ok path, fs)
  end.

End Edit.

(** ** What the code relies on of serde_json *)

Section ValueOk.
Variable number : str -> Prop.
(** What a value can hold; [number] are the texts of the other numbers. *)
Fixpoint value_ok (v : JVal) : Prop :=
  match v with
  | JNum n => in_u 64 n
  | JOther t => number t
  | JStr s => Forall is_char s
  | JArr l => foldr (fun x P => value_ok x /\ P) True l
  | JObj l => foldr (fun p P => (Forall is_char p.1 /\ value_ok p.2) /\ P) True l
  | JNull | JBool _ => True
  end.
End ValueOk.

Class SettingsJsonLaws `{SettingsJson} := {
  js_number : str -> Prop;
  js_parse_ok b t : js_parse b = Some t -> value_ok js_number t;
  js_parse_blank b : forallb is_ascii_whitespace b = true -> js_parse b = None;
  (** a value that is written out, with a line feed behind it, is read back *)
  js_parse_pretty v : value_ok js_number v -> js_parse (js_pretty v ++ [10]) = Some v
}.

(** ** Maps *)

Section Nested.
Variable P : JVal -> Prop.
Hypothesis Hnull : P JNull.
Hypothesis Hbool : forall b, P (JBool b).
Hypothesis Hnum : forall n, P (JNum n).
Hypothesis Hother : forall t, P (JOther t).
Hypothesis Hstr : forall s, P (JStr s).
Hypothesis Harr : forall l, Forall P l -> P (JArr l).
Hypothesis Hobj : forall l, Forall (fun p => P p.2) l -> P (JObj l).
Lemma JVal_nested : forall v, P v.
Proof.
  fix go 1. intros [|b|n|t|s|l|l]; [apply Hnull|apply Hbool|apply Hnum|apply Hother|apply Hstr|apply Harr|apply Hobj].
  - induction l as [|x l IH]; constructor; [apply go|exact IH].
  - induction l as [|x l IH]; constructor; [apply go|exact IH].
Qed.
End Nested.

Lemma value_ok_obj num l : value_ok num (JObj l) <-> Forall (fun p => Forall is_char p.1 /\ value_ok num p.2) l.
Proof. simpl. induction l as [|p l IH]; simpl; [split; [constructor|done]|]. rewrite IH, list.Forall_cons. done. Qed.
Lemma value_ok_arr num l : value_ok num (JArr l) <-> Forall (value_ok num) l.
Proof. simpl. induction l as [|p l IH]; simpl; [split; [constructor|done]|]. rewrite IH, list.Forall_cons. done. Qed.

Lemma insert_sorted_entries names k v l : k ∉ names -> entries_of names (insert_sorted k v l) = entries_of names l.
Proof.
  intros Hk. unfold entries_of. induction l as [|p l IH]; simpl; [by rewrite bool_decide_false|].
  destruct (decide (str_le k p.1)); simpl; [by rewrite (bool_decide_false (k ∈ names))|by rewrite IH].
Qed.

(** Inserting a key changes no other field. *)
Lemma map_insert_other names k v l : k ∉ names -> entries_of names (map_insert k v l) = entries_of names l.
Proof.
  intros Hk. unfold map_insert. destruct (bool_decide (k ∈ l.*1)); [|by apply insert_sorted_entries].
  unfold entries_of. induction l as [|p l IH]; simpl; [done|].
  destruct (str_eqb p.1 k) eqn:E; simpl.
  - apply str_eqb_eq in E. rewrite E, !(bool_decide_false (k ∈ names)) by done. apply IH.
  - by rewrite IH.
Qed.

Lemma entries_not_in names k l : k ∈ names -> entries_of names l = [] -> k ∉ l.*1.
Proof.
  intros Hk. induction l as [|p l IH]; simpl; [set_solver|].
  unfold entries_of. simpl. destruct (bool_decide (p.1 ∈ names)) eqn:E; [done|].
  apply bool_decide_eq_false in E. intros H. apply IH in H. set_solver.
Qed.

Lemma insert_sorted_same names k v l : k ∈ names -> entries_of names l = [] -> entries_of names (insert_sorted k v l) = [(k, v)].
Proof.
  intros Hk. unfold entries_of. induction l as [|p l IH]; simpl; [by rewrite bool_decide_true|].
  destruct (bool_decide (p.1 ∈ names)) eqn:E; [done|]. intros Hl.
  destruct (decide (str_le k p.1)); simpl.
  - by rewrite bool_decide_true, E, Hl.
  - by rewrite E, (IH Hl).
Qed.

Lemma map_replace_same names k v w l : k ∈ names -> entries_of names l = [(k, w)] ->
  entries_of names (map (fun p => if str_eqb p.1 k then (k, v) else p) l) = [(k, v)].
Proof.
  intros Hk. unfold entries_of. induction l as [|p l IH]; simpl; [done|].
  destruct (bool_decide (p.1 ∈ names)) eqn:E.
  - intros [= -> Hl]. simpl. rewrite str_eqb_refl. simpl. rewrite bool_decide_true by done. f_equal.
    pose proof (entries_not_in names k l Hk Hl) as Hn. clear IH.
    transitivity (entries_of names l); [|done]. unfold entries_of. f_equal.
    apply list_eq_Forall2, Forall2_fmap_l, Forall_Forall2_diag, list.Forall_forall. intros q Hq. simpl.
    rewrite str_eqb_ne; [done|]. intros <-. apply Hn. by apply list_elem_of_fmap_2.
  - intros Hl. apply bool_decide_eq_false in E as E'. rewrite str_eqb_ne by congruence. rewrite E. by apply IH.
Qed.

(** ... and sets its own. *)
Lemma map_insert_same names k v l :
  k ∈ names -> (entries_of names l = [] \/ exists w, entries_of names l = [(k, w)]) ->
  entries_of names (map_insert k v l) = [(k, v)].
Proof.
  intros Hk [Hl|[w Hl]]; unfold map_insert.
  - rewrite bool_decide_false by (by apply (entries_not_in names)). by apply insert_sorted_same.
  - rewrite bool_decide_true; [by eapply map_replace_same|].
    assert ((k, w) ∈ entries_of names l) as H by (rewrite Hl; apply list_elem_of_here).
    unfold entries_of in H. apply list_elem_of_In, List.filter_In in H as [H _].
    apply list_elem_of_In in H. change k with (k, w).1. by apply list_elem_of_fmap_2.
Qed.

Lemma field_entries l k o : field_of l [k] = Some o ->
  match o with None => entries_of [k] l = [] | Some v => entries_of [k] l = [(k, v)] end.
Proof.
  unfold field_of. destruct (entries_of [k] l) as [|[k' v] [|]] eqn:E; intros [= <-]; [done|]. simpl.
  assert ((k', v) ∈ entries_of [k] l) as H by (rewrite E; apply list_elem_of_here).
  unfold entries_of in H. apply list_elem_of_In, List.filter_In in H as [_ H].
  apply bool_decide_eq_true in H. simpl in H. by apply list_elem_of_singleton in H as ->.
Qed.

Lemma field_get l k o : field_of l [k] = Some o -> map_get k l = o.
Proof.
  intros H. apply field_entries in H. induction l as [|p l IH]; simpl.
  - destruct o; [by unfold entries_of in H|done].
  - unfold entries_of in H. simpl in H. destruct (str_eqb p.1 k) eqn:E.
    + apply str_eqb_eq in E. rewrite bool_decide_true in H by (rewrite E; apply list_elem_of_here).
      destruct o; [|done]. destruct p; simpl in *. by injection H as -> ->.
    + rewrite bool_decide_false in H; [by apply IH|].
      intros Hin. apply list_elem_of_singleton in Hin. rewrite Hin, str_eqb_refl in E. done.
Qed.

(** The key stands alone in the [i]-th place of [specs]. *)
Definition only_at (i : nat) (k : str) (specs : list (list str)) : bool :=
  forallb (fun p => bool_decide (p.2 = [k]) && bool_decide (p.1 = i) || negb (bool_decide (k ∈ p.2)))
          (imap (fun j names => (j, names)) specs) && bool_decide (specs !! i = Some [k]).

Lemma fields_insert specs i k v l fs :
  only_at i k specs = true -> fields_of specs (JObj l) = Some fs ->
  fields_of specs (JObj (map_insert k v l)) = Some (<[i := Some v]> fs).
Proof.
  unfold only_at. rewrite andb_true_iff, bool_decide_eq_true, forallb_forall. intros [Ho Hi] H. simpl in *.
  apply mapM_Some in H. apply mapM_Some. apply Forall2_same_length_lookup.
  pose proof (list.Forall2_length _ _ _ H) as Hlen. split; [by rewrite length_insert|].
  intros j names o Hj Hl. destruct (decide (j = i)) as [->|Hne].
  - rewrite list_lookup_insert_eq in Hl by (rewrite <- Hlen; by eapply lookup_lt_Some).
    injection Hl as <-. rewrite Hi in Hj. injection Hj as <-.
    destruct (Forall2_lookup_l _ _ _ _ _ H Hi) as (o' & _ & Hf). apply field_entries in Hf. unfold field_of.
    rewrite (map_insert_same [k] k v l); [done|apply list_elem_of_here|]. destruct o'; eauto.
  - rewrite list_lookup_insert_ne in Hl by done.
    destruct (Forall2_lookup_l _ _ _ _ _ H Hj) as (o' & Ho' & Hf). rewrite Hl in Ho'. injection Ho' as <-.
    rewrite <- Hf. unfold field_of. rewrite map_insert_other; [done|].
    specialize (Ho (j, names)). rewrite orb_true_iff, andb_true_iff, !bool_decide_eq_true, negb_true_iff, bool_decide_eq_false in Ho.
    simpl in Ho. destruct Ho as [[_ ?]|?]; [|done|done].
    apply list_elem_of_In, list_elem_of_lookup. exists j. by rewrite list_lookup_imap, Hj.
Qed.

(** ** A file and its value *)

(** The settings of a text are those of the value that the editor makes of it:
    the entries of an object are sorted, and a key that is written twice is no
    field of the settings. *)

Abbreviation norm l := (fold_left (fun m p => map_insert p.1 p.2 m) (map (fun p => (p.1, value_of p.2)) l) []) (only parsing).

Lemma fold_insert_field names : forall ps acc,
  (entries_of names ps = [] -> entries_of names (fold_left (fun m p => map_insert p.1 p.2 m) ps acc) = entries_of names acc)
  /\ (forall p, entries_of names ps = [p] -> entries_of names acc = [] ->
      entries_of names (fold_left (fun m p => map_insert p.1 p.2 m) ps acc) = [p]).
Proof.
  unfold entries_of at 1 4. induction ps as [|q ps IH]; intros acc; simpl; [done|].
  destruct (bool_decide (q.1 ∈ names)) eqn:E; simpl.
  - split; [done|]. intros p [= <- Hps] Ha. rewrite (proj1 (IH _) Hps).
    apply bool_decide_eq_true in E. destruct q. simpl in *. by apply map_insert_same; [|left].
  - apply bool_decide_eq_false in E. split.
    + intros Hps. rewrite (proj1 (IH _) Hps). by apply map_insert_other.
    + intros p Hps Ha. apply (IH (map_insert q.1 q.2 acc)); [done|]. by rewrite map_insert_other.
Qed.

Lemma entries_values names l :
  entries_of names (map (fun p => (p.1, value_of p.2)) l) = map (fun p => (p.1, value_of p.2)) (entries_of names l).
Proof.
  unfold entries_of. induction l as [|p l IH]; simpl; [done|].
  destruct (bool_decide (p.1 ∈ names)); simpl; by rewrite IH.
Qed.

Lemma norm_field l names o : field_of l names = Some o -> field_of (norm l) names = Some (value_of <$> o).
Proof.
  unfold field_of. pose proof (entries_values names l) as Hm.
  destruct (entries_of names l) as [|p [|]]; intros [= <-]; simpl in *.
  - by rewrite (proj1 (fold_insert_field names _ []) Hm).
  - by rewrite (proj2 (fold_insert_field names _ []) _ Hm eq_refl).
Qed.

Lemma fields_value specs v fs :
  fields_of specs v = Some fs -> fields_of specs (value_of v) = Some (map (fmap value_of) fs).
Proof.
  destruct v as [| | | | |l|l]; simpl; [done..| |].
  - rewrite length_map. destruct (length l <=? length specs)%nat; [|done]. intros [= <-].
    rewrite !map_app, !map_map, map_repeat. done.
  - revert fs. induction specs as [|names specs IH]; intros fs; simpl; [by intros [= <-]|].
    destruct (field_of l names) as [o|] eqn:E; [|done]. cbn [mbind option_bind].
    destruct (mapM (field_of l) specs) as [os|] eqn:E2; [|done]. intros [= <-].
    rewrite (norm_field _ _ _ E). cbn [mbind option_bind]. by rewrite (IH _ eq_refl).
Qed.

(** A reader that reads a value as it reads the text. *)
Definition stable {A} (read : JVal -> option A) : Prop := forall v x, read v = Some x -> read (value_of v) = Some x.

Lemma stable_string : stable as_string. Proof. by intros []. Qed.
Lemma stable_bool : stable as_bool. Proof. by intros []. Qed.
Lemma stable_uint w : stable (as_uint w). Proof. by intros []. Qed.
Lemma stable_strings : stable as_strings.
Proof.
  intros [] x; simpl; try done. intros <-. induction l as [|v l IH]; simpl; [done|]. rewrite IH. by destruct v.
Qed.
Lemma stable_transport : stable as_transport.
Proof. intros [| | | | | |[|[k []] []]] x; simpl; done. Qed.

Lemma stable_opt {A} (read : JVal -> option A) o x : stable read -> opt_field read o = Some x -> opt_field read (value_of <$> o) = Some x.
Proof.
  intros Hr. destruct o as [v|]; [|done]. simpl.
  destruct v; simpl; try done; match goal with |- context [read ?v] => destruct (read v) eqn:E; simpl; [|done] end;
    intros [= <-]; apply Hr in E; simpl in E; by rewrite E.
Qed.
Lemma stable_def {A} d (read : JVal -> option A) o x : stable read -> def_field d read o = Some x -> def_field d read (value_of <$> o) = Some x.
Proof. intros Hr. destruct o as [v|]; simpl; [apply Hr|done]. Qed.

(** Takes apart a hypothesis about the fields of a struct. *)
Ltac fields_case H :=
  let fs := fresh "fs" in
  match type of H with
  | (x ← ?e; _) = Some _ => destruct e as [fs|] eqn:?; [|discriminate H]; cbn [mbind option_bind] in H
  end;
  repeat match type of H with
         | match ?l with [] => _ | _ :: _ => _ end = Some _ => destruct l; try discriminate H
         end;
  repeat match type of H with
         | (x ← ?e; _) = Some _ => destruct e eqn:?; [|discriminate H]; cbn [mbind option_bind] in H
         end.

#[export] Hint Resolve stable_string stable_bool stable_uint stable_strings stable_transport : stable.
Ltac stable_struct H :=
  fields_case H; match goal with E : fields_of _ _ = Some _ |- _ => apply fields_value in E; rewrite E end; cbn [mbind option_bind map];
  repeat match goal with
         | E : opt_field ?r ?o = Some _ |- context [opt_field ?r (value_of <$> ?o)] =>
             rewrite (stable_opt r o _ ltac:(auto with stable) E); cbn [mbind option_bind]
         | E : def_field ?d ?r ?o = Some _ |- context [def_field ?d ?r (value_of <$> ?o)] =>
             rewrite (stable_def d r o _ ltac:(auto with stable) E); cbn [mbind option_bind]
         end.

Lemma stable_permissions : stable as_permissions. Proof. intros v x H. unfold as_permissions in *. stable_struct H. exact H. Qed.
Lemma stable_sandbox : stable as_sandbox. Proof. intros v x H. unfold as_sandbox in *. stable_struct H. exact H. Qed.
Lemma stable_context : stable as_context. Proof. intros v x H. unfold as_context in *. stable_struct H. exact H. Qed.
Lemma stable_ui : stable as_ui. Proof. intros v x H. unfold as_ui in *. stable_struct H. exact H. Qed.
Lemma stable_provider : stable as_provider. Proof. intros v x H. unfold as_provider in *. stable_struct H. exact H. Qed.
#[export] Hint Resolve stable_permissions stable_sandbox stable_context stable_ui stable_provider : stable.

Lemma map_value v m : as_map v = Some m -> exists m', as_map (value_of v) = Some m'.
Proof. destruct v; simpl; try done. eauto. Qed.
Lemma opt_map_value o m : opt_field as_map o = Some m -> exists m', opt_field as_map (value_of <$> o) = Some m'.
Proof.
  destruct o as [v|]; [|by eexists]. simpl. destruct v; simpl; try done; eauto.
Qed.

(** The file with other servers: the editor does not touch them. *)
Definition with_mcp (f : SettingsFile) (m : option (gmap str JVal)) : SettingsFile :=
  mk_file (sf_provider f) (sf_model f) (sf_models f) (sf_small_model f) (sf_permissions f) (sf_sandbox f) (sf_context f)
    (sf_ui f) m (sf_trusted_mcp_projects f).

Lemma file_value t f : as_file t = Some f -> exists m, as_file (value_of t) = Some (with_mcp f m).
Proof.
  intros H. unfold as_file in *. stable_struct H. injection H as <-.
  match goal with E : opt_field as_map _ = Some _ |- _ => destruct (opt_map_value _ _ E) as [m Hm] end.
  exists m. rewrite Hm. reflexivity.
Qed.

(** ** The tree around a saved value *)

Fixpoint tree_at (t : JVal) (keys : list str) : option JVal :=
  match keys with
  | [] => Some t
  | k :: keys => match t with JObj l => c ← map_get k l; tree_at c keys | _ => None end
  end.

Lemma map_get_insert k v l k' : map_get k' (map_insert k v l) = if decide (k' = k) then Some v else map_get k' l.
Proof.
  unfold map_insert. case_bool_decide as Hk.
  - induction l as [|p l IH]; simpl; [set_solver|].
    destruct (str_eqb p.1 k) eqn:E; simpl.
    + apply str_eqb_eq in E. destruct (decide (k' = k)) as [->|Hne]; [by rewrite str_eqb_refl|].
      rewrite (str_eqb_ne k k'), (str_eqb_ne p.1 k') by congruence.
      destruct (decide (k ∈ l.*1)) as [Hin|Hn]; [by apply IH|]. clear IH Hk. induction l as [|q l IH]; simpl; [done|].
      rewrite (str_eqb_ne q.1 k) by set_solver. destruct (str_eqb q.1 k'); [done|]. apply IH. set_solver.
    + assert (k ∈ l.*1) as Hin.
      { simpl in Hk. apply elem_of_cons in Hk as [->|?]; [by rewrite str_eqb_refl in E|done]. }
      rewrite (IH Hin). destruct (str_eqb p.1 k') eqn:E2; [|done].
      destruct (decide (k' = k)) as [->|]; [congruence|done].
  - assert (forall l, map_get k' (insert_sorted k v l) = if decide (k' = k) then
              (if decide (k ∈ l.*1) then map_get k' (insert_sorted k v l) else Some v) else map_get k' l) as H.
    { clear. intros l. destruct (decide (k' = k)) as [->|Hne].
      - destruct (decide (k ∈ l.*1)) as [|Hn]; [done|]. induction l as [|p l IH]; simpl; [by rewrite str_eqb_refl|].
        destruct (decide (str_le k p.1)); simpl; [by rewrite str_eqb_refl|].
        rewrite str_eqb_ne by set_solver. apply IH. set_solver.
      - induction l as [|p l IH]; simpl; [by rewrite str_eqb_ne|].
        destruct (decide (str_le k p.1)); simpl; [by rewrite (str_eqb_ne k k')|]. by rewrite IH. }
    rewrite H. destruct (decide (k' = k)); [|done]. by rewrite decide_False.
Qed.

(** The value is where it was put, and nothing else of the tree changes. *)
Lemma set_path_at path keys v : forall t t', set_path path t keys v = Ok t' ->
  tree_at t' keys = Some v
  /\ forall q, ~ keys `prefix_of` q -> ~ q `prefix_of` keys -> tree_at t' q = tree_at t q.
Proof.
  induction keys as [|k keys IH]; intros t t' H; [discriminate H|].
  assert (exists l c, t = JObj l /\ t' = JObj (map_insert k c l)
          /\ (keys = [] /\ c = v \/ keys <> [] /\ set_path path (default (JObj []) (map_get k l)) keys v = Ok c)) as (l & c & -> & -> & Hc).
  { destruct keys as [|k' keys]; cbn [set_path] in H.
    - destruct t as [| | | | | |l]; try discriminate H. injection H as <-. eauto 10.
    - destruct t as [| | | | | |l]; try discriminate H. apply res_bind_ok in H as (c & Hc & [= <-]).
      exists l, c. split_and!; [done..|]. right. split; [done|exact Hc]. }
  clear H. assert (tree_at c keys = Some v /\ forall q, ~ keys `prefix_of` q -> ~ q `prefix_of` keys ->
            tree_at c q = (x ← map_get k l; tree_at x q)) as [Hv Hq].
  { destruct Hc as [[-> ->]|[Hne Hc]]; [split; [done|]; intros q []; apply prefix_nil|].
    destruct (IH _ _ Hc) as [Hv Hq]. split; [done|]. intros q H1 H2. rewrite Hq by done.
    destruct (map_get k l); [done|]. destruct q as [|x q]; [destruct H2; apply prefix_nil|done]. }
  split.
  - cbn [tree_at]. rewrite map_get_insert, decide_True by done. exact Hv.
  - intros [|x q] H1 H2; [destruct H2; apply prefix_nil|]. cbn [tree_at]. rewrite map_get_insert.
    destruct (decide (x = k)) as [->|]; [|done]. cbn [mbind option_bind]. apply Hq.
    + intros Hp. apply H1. by apply prefix_cons.
    + intros Hp. apply H2. by apply prefix_cons.
Qed.

Section ValueLemmas.
Variable number : str -> Prop.
Let entry_ok (p : str * JVal) : Prop := Forall is_char p.1 /\ value_ok number p.2.

Lemma insert_ok k v l : Forall is_char k -> value_ok number v -> Forall entry_ok l -> Forall entry_ok (map_insert k v l).
Proof.
  intros Hk Hv Hl. unfold map_insert. case_bool_decide.
  - apply List.Forall_map. eapply list.Forall_impl; [exact Hl|]. intros p Hp. simpl. by destruct (str_eqb p.1 k).
  - clear H. induction Hl as [|p l Hp Hl IH]; simpl; [apply list.Forall_cons; split; [by split|constructor]|].
    destruct (decide (str_le k p.1)); apply list.Forall_cons; (split; [first [exact Hp|by split]|]); [by apply list.Forall_cons|done].
Qed.

Lemma value_of_ok v : value_ok number v -> value_ok number (value_of v).
Proof.
  induction v as [|b|n|t|s|l IH|l IH] using JVal_nested; try done; cbn [value_of].
  - rewrite !value_ok_arr. intros Hl. apply List.Forall_map. rewrite list.Forall_forall in *. auto.
  - rewrite !value_ok_obj. intros Hl.
    enough (forall ps acc, Forall entry_ok ps -> Forall entry_ok acc ->
      Forall entry_ok (fold_left (fun m p => map_insert p.1 p.2 m) ps acc)) as E.
    { apply E; [|constructor]. apply List.Forall_map. rewrite list.Forall_forall in *. intros p Hp.
      destruct (Hl p Hp). split; simpl; auto. }
    clear. induction ps as [|p ps IH]; intros acc Hps Ha; simpl; [done|].
    apply list.Forall_cons in Hps as [[Hp1 Hp2] Hps]. apply IH; [done|]. by apply insert_ok.
Qed.

Lemma map_get_ok k l c : Forall entry_ok l -> map_get k l = Some c -> value_ok number c.
Proof.
  induction 1 as [|p l [_ Hp] Hl IH]; simpl; [done|]. destruct (str_eqb p.1 k); [by intros [= <-]|exact IH].
Qed.

Lemma set_path_ok path keys v : Forall (Forall is_char) keys -> value_ok number v ->
  forall t t', value_ok number t -> set_path path t keys v = Ok t' -> value_ok number t'.
Proof.
  intros Hks Hv. induction keys as [|k keys IH]; intros t t' Ht H; [discriminate H|].
  apply list.Forall_cons in Hks as [Hk Hks].
  destruct keys as [|k' keys]; cbn [set_path] in H.
  - destruct t as [| | | | | |l]; try discriminate H. injection H as <-.
    rewrite value_ok_obj in *. by apply insert_ok.
  - destruct t as [| | | | | |l]; try discriminate H. apply res_bind_ok in H as (c & Hc & [= <-]).
    rewrite value_ok_obj in *. apply insert_ok; [done| |done]. eapply IH; [done| |exact Hc].
    destruct (map_get k l) as [w|] eqn:E; [|done]. by eapply map_get_ok.
Qed.
End ValueLemmas.

Lemma lit_chars s : Forall is_char (lit s).
Proof.
  induction s as [|a s IH]; simpl; constructor; [|done]. unfold is_char. pose proof (Ascii.N_ascii_bounded a). lia.
Qed.
