(* ===== verification/ConfigSave.v ===== *)
(** What editing the settings does to the settings that are loaded
    (src/crates/rc-config/src): the file with one field set as a specification,
    the save as an implementation of it, and the precedence of the layers. *)

From S2P Require Import Prelude Utf8 Text PathLib Client Config ConfigEdit.

(** ** What a save does to the settings *)

(** The abstract file with one field set. *)
Definition with_provider (g : ProviderFile -> ProviderFile) (f : SettingsFile) : SettingsFile :=
  mk_file (Some (g (default provider_default (sf_provider f)))) (sf_model f) (sf_models f) (sf_small_model f)
    (sf_permissions f) (sf_sandbox f) (sf_context f) (sf_ui f) (sf_mcp_servers f) (sf_trusted_mcp_projects f).
Definition with_context (g : ContextConfig -> ContextConfig) (f : SettingsFile) : SettingsFile :=
  mk_file (sf_provider f) (sf_model f) (sf_models f) (sf_small_model f) (sf_permissions f) (sf_sandbox f)
    (Some (g (default context_default (sf_context f)))) (sf_ui f) (sf_mcp_servers f) (sf_trusted_mcp_projects f).

Definition string_of (v : JVal) : str := default [] (as_string v).
Definition bool_of (v : JVal) : bool := default false (as_bool v).
Definition num_of (v : JVal) : Z := match v with JNum n => n | _ => 0 end.

Definition save_in_file (name : string) (v : JVal) (f : SettingsFile) : SettingsFile :=
  let prov g := with_provider g f in
  let ctx g := with_context g f in
  default f (snd <$> List.find (fun p => String.eqb p.1 name)
  [ ("model"%string, mk_file (sf_provider f) (Some (string_of v)) (sf_models f) (sf_small_model f) (sf_permissions f)
                       (sf_sandbox f) (sf_context f) (sf_ui f) (sf_mcp_servers f) (sf_trusted_mcp_projects f));
    ("small_model"%string, mk_file (sf_provider f) (sf_model f) (sf_models f) (Some (string_of v)) (sf_permissions f)
                       (sf_sandbox f) (sf_context f) (sf_ui f) (sf_mcp_servers f) (sf_trusted_mcp_projects f));
    ("base_url"%string, prov (fun '(mk_provider a b c d e f g h i j k l) => mk_provider (Some (string_of v)) b c d e f g h i j k l));
    ("default_mode"%string, mk_file (sf_provider f) (sf_model f) (sf_models f) (sf_small_model f)
       (Some (let '(mk_permissions a k d m x) := default permissions_default (sf_permissions f) in mk_permissions a k d (string_of v) x))
       (sf_sandbox f) (sf_context f) (sf_ui f) (sf_mcp_servers f) (sf_trusted_mcp_projects f));
    ("idle_timeout_ms"%string, prov (fun '(mk_provider a b c d e f g h i j k l) => mk_provider a b c (Some (num_of v)) e f g h i j k l));
    ("max_retries"%string, prov (fun '(mk_provider a b c d e f g h i j k l) => mk_provider a b c d (Some (num_of v)) f g h i j k l));
    ("request_gzip"%string, prov (fun '(mk_provider a b c d e f g h i j k l) => mk_provider a b c d e (Some (bool_of v)) g h i j k l));
    ("dlr_enabled"%string, prov (fun '(mk_provider a b c d e f g h i j k l) => mk_provider a b c d e f g (Some (bool_of v)) i j k l));
    ("dlr_url"%string, prov (fun '(mk_provider a b c d e f g h i j k l) => mk_provider a b c d e f g h i (Some (string_of v)) k l));
    ("dlr_repair_margin_pct"%string, prov (fun '(mk_provider a b c d e f g h i j k l) => mk_provider a b c d e f g h i j k (Some (num_of v))));
    ("reasoning_effort"%string, prov (fun '(mk_provider a b c d e f g h i j k l) => mk_provider a b c d e f (Some (string_of v)) h i j k l));
    ("mouse"%string, mk_file (sf_provider f) (sf_model f) (sf_models f) (sf_small_model f) (sf_permissions f)
       (sf_sandbox f) (sf_context f) (Some (mk_ui (Some (bool_of v)))) (sf_mcp_servers f) (sf_trusted_mcp_projects f));
    ("tool_result_cap"%string, ctx (fun '(mk_context a b c d e f g h) => mk_context a (num_of v) c d e f g h));
    ("read_default_limit"%string, ctx (fun '(mk_context a b c d e f g h) => mk_context a b c d (num_of v) f g h));
    ("max_iters"%string, ctx (fun '(mk_context a b c d e f g h) => mk_context a b c d e f g (num_of v))) ]).

(** The width at which the loader reads a number, and what fits a field. *)
Definition loader_width (name : string) : Z :=
  if bool_decide (name ∈ ["max_retries"; "dlr_repair_margin_pct"; "read_default_limit"; "max_iters"]%string) then 32 else 64.
Definition fits (f : FieldSpec) (v : JVal) : Prop :=
  match fd_kind f with
  | KText | KModel => exists s, v = JStr s /\ Forall is_char s /\ s <> []
  | KChoice options => exists o, o ∈ options /\ v = JStr (lit o)
  | KNumber => exists n, v = JNum n /\ in_u (loader_width (fd_name f)) n
  | KBool => exists b, v = JBool b
  end.

Definition show_value (v : JVal) : str :=
  match v with JStr s => s | JNum n => show_z n | JBool b => show_bool b | _ => [] end.

(** A block that is there after the save was an object, or absent. *)
Lemma block_object {A} (read : JVal -> option A) (d : A) o po path leaf v c :
  read (JObj []) = Some d -> opt_field read o = Some po ->
  set_path path (default (JObj []) o) [leaf] v = Ok c ->
  exists cl, default (JObj []) o = JObj cl /\ c = JObj (map_insert leaf v cl) /\ read (JObj cl) = Some (default d po).
Proof.
  intros Hd Ho H. destruct o as [w|]; simpl in *.
  - destruct w as [| | | | | |cl]; try discriminate H. injection H as <-. exists cl. split_and!; try done.
    destruct (read (JObj cl)); simpl in Ho; [|discriminate Ho]. by injection Ho as <-.
  - injection Ho as <-. injection H as <-. by exists [].
Qed.

Lemma only_field (specs : list (list str)) i k l fs :
  specs !! i = Some [k] -> fields_of specs (JObj l) = Some fs -> fs !! i = Some (map_get k l).
Proof.
  intros Hi H. simpl in H. apply mapM_Some in H. destruct (Forall2_lookup_l _ _ _ _ _ H Hi) as (o & Ho & Hf).
  apply field_get in Hf. by rewrite Ho, <- Hf.
Qed.

(** Sets one entry of a struct that has been read; [i] is its place. *)
Ltac put_entry i H :=
  match type of H with
  | (x ← fields_of ?specs (JObj ?l); _) = Some _ =>
      fields_case H;
      match goal with E : fields_of specs (JObj l) = Some _ |- context [fields_of specs (JObj (map_insert ?k ?v l))] =>
        pose proof (only_field specs i k l _ eq_refl E);
        rewrite (fields_insert specs i k v l _ ltac:(vm_compute; reflexivity) E); cbn [list_insert insert mbind option_bind]
      end
  end.

Lemma set_path_two path l h k v :
  set_path path (JObj l) [h; k] v
  = (let? c := set_path path (default (JObj []) (map_get h l)) [k] v in Ok (JObj (map_insert h c l))).
Proof. reflexivity. Qed.

Ltac read_back :=
  repeat (match goal with
          | E : opt_field ?r ?o = Some _ |- context [opt_field ?r ?o] => rewrite E
          | E : def_field ?d ?r ?o = Some _ |- context [def_field ?d ?r ?o] => rewrite E
          end; cbn [mbind option_bind]).

Ltac save_top i Hf := unfold as_file in *; put_entry i Hf; read_back.
Ltac save_leaf i j read d Hf Hs Hr :=
  let Ec := fresh "Ec" in let cl := fresh "cl" in
  rewrite set_path_two in Hs; destruct (set_path _ _ [_] _) as [c| |] eqn:Ec in Hs; try discriminate Hs; injection Hs as <-;
  save_top i Hf;
  match goal with Eg : _ = Some (map_get _ _) |- _ => cbn [lookup list_lookup] in Eg; injection Eg as -> end;
  match goal with Eo : opt_field read (map_get ?k ?l) = Some ?po |- _ =>
    destruct (block_object read d _ _ _ _ _ _ eq_refl Eo Ec) as (cl & _ & -> & Hr) end;
  cbn [opt_field]; unfold read in Hr |- *; put_entry j Hr; read_back.

Lemma as_uint_fits w n : in_u w n -> as_uint w (JNum n) = Some n.
Proof. intros H. unfold as_uint. by rewrite decide_True. Qed.

(** The number fits the reader, and the record is the one saved. *)
Ltac saved Hf Hr :=
  cbn [opt_field def_field]; try match goal with Hn : as_uint _ (JNum _) = Some _ |- _ => rewrite Hn; cbn [mbind option_bind] end;
  read_back; injection Hf as <-; injection Hr as Hr;
  cbv [save_in_file with_provider with_context]; cbn; try rewrite <- Hr; reflexivity.
Ltac save_provider j Hf Hs := let Hr := fresh "Hr" in save_leaf 0%nat j as_provider provider_default Hf Hs Hr; saved Hf Hr.
Ltac save_context j Hf Hs := let Hr := fresh "Hr" in save_leaf 6%nat j as_context context_default Hf Hs Hr; saved Hf Hr.

Lemma saved_setting spec v path root root' f :
  spec ∈ EDITABLE -> fits spec v -> as_file root = Some f ->
  set_path path root (map lit (fd_path spec)) v = Ok root' ->
  as_file root' = Some (save_in_file (fd_name spec) v f).
Proof.
  intros Hin Hv Hf Hs.
  assert (exists l, root = JObj l) as [l ->].
  { destruct root as [| | | | | |l]; [..|by exists l];
      repeat (apply elem_of_cons in Hin as [->|Hin]; [discriminate Hs|]); by apply elem_of_nil in Hin. }
  repeat (apply elem_of_cons in Hin as [->|Hin]); [..|by apply elem_of_nil in Hin];
    cbn [fd_path fd_name fd_kind map] in *.
  - destruct Hv as (s & -> & _). injection Hs as <-. save_top 1%nat Hf. injection Hf as <-. reflexivity.
  - destruct Hv as (s & -> & _). injection Hs as <-. save_top 3%nat Hf. injection Hf as <-. reflexivity.
  - destruct Hv as (s & -> & _). save_provider 0%nat Hf Hs.
  - destruct Hv as (s & _ & ->). save_leaf 4%nat 3%nat as_permissions permissions_default Hf Hs Hr; saved Hf Hr.
  - destruct Hv as (n & -> & Hn). apply (as_uint_fits 64) in Hn. save_provider 3%nat Hf Hs.
  - destruct Hv as (n & -> & Hn). apply (as_uint_fits 32) in Hn. save_provider 4%nat Hf Hs.
  - destruct Hv as (b & ->). save_provider 5%nat Hf Hs.
  - destruct Hv as (b & ->). save_provider 7%nat Hf Hs.
  - destruct Hv as (s & -> & _). save_provider 9%nat Hf Hs.
  - destruct Hv as (n & -> & Hn). apply (as_uint_fits 32) in Hn. save_provider 11%nat Hf Hs.
  - destruct Hv as (s & _ & ->). save_provider 6%nat Hf Hs.
  - destruct Hv as (b & ->). save_leaf 7%nat 0%nat as_ui (mk_ui None) Hf Hs Hr; saved Hf Hr.
  - destruct Hv as (n & -> & Hn). apply (as_uint_fits 64) in Hn. save_context 1%nat Hf Hs.
  - destruct Hv as (n & -> & Hn). apply (as_uint_fits 32) in Hn. save_context 4%nat Hf Hs.
  - destruct Hv as (n & -> & Hn). apply (as_uint_fits 32) in Hn. save_context 7%nat Hf Hs.
Qed.

(** ** Trimming *)

Lemma drop_ws_end a c : is_ws c = false -> exists x, drop_ws (a ++ [c]) = x ++ [c].
Proof.
  intros Hc. induction a as [|d a [x IH]]; simpl; [rewrite Hc; by exists []|].
  destruct (is_ws d); [by exists x|]. by exists (d :: a).
Qed.
Lemma drop_ws_head s : drop_ws s = [] \/ exists c r, drop_ws s = c :: r /\ is_ws c = false.
Proof. induction s as [|c s IH]; simpl; [by left|]. destruct (is_ws c) eqn:E; [done|]. right. eauto. Qed.
Lemma drop_ws_idem s : drop_ws (drop_ws s) = drop_ws s.
Proof. destruct (drop_ws_head s) as [->|(c & r & -> & Hc)]; [done|]. simpl. by rewrite Hc. Qed.

(** What is trimmed, with a line feed behind it, is trimmed to itself. *)
Lemma trim_line v : trim (trim v ++ [10]) = trim v.
Proof.
  assert (trim v = [] \/ exists c r, trim v = c :: r /\ is_ws c = false) as [->|(c & r & E & Hc)]; [|done|].
  - unfold trim, trim_start, trim_end. destruct (drop_ws_head v) as [->|(c & r & -> & Hc)]; [by left|]. right.
    simpl. destruct (drop_ws_end (rev r) c Hc) as [x Hx]. rewrite Hx, rev_app_distr. simpl. eauto.
  - assert (trim_start (trim v ++ [10]) = trim v ++ [10]) as E2 by (unfold trim_start; rewrite E; simpl; by rewrite Hc).
    unfold trim at 1. rewrite E2. unfold trim_end. rewrite rev_app_distr. simpl.
    unfold trim, trim_end. by rewrite rev_involutive, drop_ws_idem.
Qed.

Section Saved.
Context `{ConfigOs} `{ConfigDisk} `{SettingsJsonLaws}.

(** The settings of the user's file; a file that cannot be read says nothing. *)
Definition user_file (fs : Files) (p : str) : SettingsFile :=
  match read_settings fs p with inr f => f | inl _ => file_default end.
Definition project_file (fs : Files) (project : str) : option SettingsFile :=
  match read_settings fs (project_settings_path project) with inr f => Some f | inl _ => None end.

(** The file is not there yet, blank, or one that the loader reads. *)
Definition readable (fs : Files) (p : str) : Prop :=
  match read_at fs p with
  | NotFound => True
  | ReadError _ => False
  | Found b => forallb is_ascii_whitespace b = true \/ exists t f, js_parse b = Some t /\ as_file t = Some f
  end.

Lemma read_tree_file fs p root : readable fs p -> read_tree fs p = Ok root ->
  value_ok js_number root /\ exists m, as_file root = Some (with_mcp (user_file fs p) m).
Proof.
  unfold readable, read_tree, user_file, read_settings. destruct (read_at fs p) as [b| |e]; [|..].
  - destruct (forallb is_ascii_whitespace b) eqn:E.
    + intros _ [= <-]. split; [done|]. exists None. rewrite js_parse_blank by done. reflexivity.
    + intros [?|(t & f & Ht & Hf)]; [done|]. rewrite Ht. intros [= <-]. cbn [mbind option_bind]. rewrite Hf.
      split; [|by apply file_value]. apply value_of_ok. by eapply js_parse_ok.
  - intros _ [= <-]. split; [done|]. by exists None.
  - done.
Qed.

Lemma fs_write_ok fs p b r fs' : fs_write fs p b = (Ok r, fs') -> r = p /\ fs' = <[p := b]> fs.
Proof.
  unfold fs_write. repeat case_match; intros [=]; naive_solver.
Qed.

Lemma set_raw_ok fs keys v p fs' :
  set_raw fs keys v = (Ok p, fs') ->
  user_settings_path = Some p
  /\ exists t t', read_tree fs p = Ok t /\ set_path p t keys v = Ok t' /\ fs' = <[p := js_pretty t' ++ [10]]> fs.
Proof.
  unfold set_raw. destruct user_settings_path as [path|]; [|done].
  destruct (read_tree fs path) as [t| |] eqn:Et; cbn [res_bind]; try done.
  destruct (set_path path t keys v) as [t'| |] eqn:Es; try done.
  intros Hw. apply fs_write_ok in Hw as [-> ->]. eauto 10.
Qed.

Lemma fits_ok spec v : fits spec v -> value_ok js_number v.
Proof.
  unfold fits. destruct (fd_kind spec).
  - by intros (s & -> & Hs & _).
  - intros (o & _ & ->). apply lit_chars.
  - by intros (s & -> & Hs & _).
  - intros (n & -> & Hn). simpl. unfold loader_width in Hn. case_bool_decide; unfold in_u in *; lia.
  - by intros (b & ->).
Qed.

Lemma lits_chars (l : list string) : Forall (Forall is_char) (map lit l).
Proof. apply List.Forall_map, list.Forall_forall. intros. apply lit_chars. Qed.

(** What is written is what the loader reads. *)
Lemma written_back fs p t keys v t' :
  read_tree fs p = Ok t -> value_ok js_number t -> Forall (Forall is_char) keys -> value_ok js_number v ->
  set_path p t keys v = Ok t' ->
  read_settings (<[p := js_pretty t' ++ [10]]> fs) p
  = match as_file t' with Some f => inr f | None => inl (with_path p (js_error (js_pretty t' ++ [10]))) end.
Proof.
  intros Ht Hok Hks Hv Hs. unfold read_settings, read_at. unfold read_tree, read_at in Ht.
  destruct (os_unreadable p); [done|]. rewrite lookup_insert_eq, js_parse_pretty; [done|]. eapply set_path_ok; [exact Hks|exact Hv|exact Hok|exact Hs].
Qed.

(** The file after a save, as the loader reads it. *)
Lemma saved_read fs spec v p fs' :
  spec ∈ EDITABLE -> fits spec v -> readable fs p -> set_user_setting fs spec v = (Ok p, fs') ->
  user_settings_path = Some p
  /\ (forall q, q <> p -> fs' !! q = fs !! q)
  /\ exists m, read_settings fs' p = inr (save_in_file (fd_name spec) v (with_mcp (user_file fs p) m)).
Proof.
  intros Hin Hv Hr Hs. apply set_raw_ok in Hs as (Hp & t & t' & Ht & Hs & ->).
  split; [done|]. split; [intros q Hq; by rewrite lookup_insert_ne|].
  destruct (read_tree_file _ _ _ Hr Ht) as (Hok & m & Hf). exists m.
  rewrite (written_back fs p t (map lit (fd_path spec)) v t' Ht Hok (lits_chars _) (fits_ok _ _ Hv) Hs).
  by rewrite (saved_setting _ _ _ _ _ _ Hin Hv Hf Hs).
Qed.

(** ** Loading *)

Definition file_layers (u : SettingsFile) (pr : option SettingsFile) : Layers :=
  let l := file_layer true u layers_default in match pr with Some f => file_layer false f l | None => l end.

Lemma load_layers fs p project :
  user_settings_path = Some p -> components p <> components (project_settings_path project) ->
  settings_load fs project = resolve_settings fs project (env_layer (file_layers (user_file fs p) (project_file fs project))).
Proof.
  intros Hp Hne. unfold settings_load, load_with_report, load_files. rewrite Hp. unfold load_layer at 2. rewrite Hp.
  cbn [fmap option_fmap option_map]. rewrite bool_decide_true by done.
  assert ((match read_settings fs p with
           | inr f => (file_layer true f layers_default, [] ++ match scan_for_secret fs p with Some w => [w] | None => [] end)
           | inl e => (layers_default, [] ++ [e])
           end).1 = file_layer true (user_file fs p) layers_default) as E.
  { unfold user_file. by destruct (read_settings fs p). }
  destruct (match read_settings fs p with inl _ => _ | inr _ => _ end) as [l w]. cbn [fst] in E. subst l.
  unfold load_layer, file_layers, project_file. rewrite Hp. cbn [fmap option_fmap option_map].
  rewrite (bool_decide_false (Some _ = Some _)) by congruence.
  by destruct (read_settings fs (project_settings_path project)).
Qed.

(** Does a file of settings speak about a field?  Of the provider and of the
    interface the layers take field by field (DLR can be enabled by its own
    field or by the transport); the permissions and the context of a file
    replace those of the files before it as a whole. *)
Definition speaks (f : SettingsFile) (name : string) : bool :=
  let p := default provider_default (sf_provider f) in
  let given {A} (o : option A) := bool_decide (is_Some o) in
  match List.find (fun q => String.eqb q.1 name)
    [("model"%string, given (sf_model f)); ("small_model"%string, given (sf_small_model f));
     ("base_url"%string, given (pf_base_url p)); ("default_mode"%string, given (sf_permissions f));
     ("idle_timeout_ms"%string, given (pf_idle_timeout_ms p)); ("max_retries"%string, given (pf_max_retries p));
     ("request_gzip"%string, given (pf_request_gzip p));
     ("dlr_enabled"%string, given (pf_dlr_enabled p) || given (pf_request_transport p));
     ("dlr_url"%string, given (pf_dlr_url p)); ("dlr_repair_margin_pct"%string, given (pf_dlr_repair_margin_pct p));
     ("reasoning_effort"%string, given (pf_reasoning_effort p));
     ("mouse"%string, given (match sf_ui f with Some u => ui_mouse u | None => None end));
     ("tool_result_cap"%string, given (sf_context f)); ("read_default_limit"%string, given (sf_context f));
     ("max_iters"%string, given (sf_context f))] with
  | Some q => q.2
  | None => false
  end.
Definition silent (pr : option SettingsFile) (spec : FieldSpec) : Prop :=
  match pr with None => True | Some f => speaks f (fd_name spec) = false end.

(** Nothing in the environment speaks about the field. *)
Definition unset (spec : FieldSpec) : Prop :=
  os_env (lit (fd_env spec)) = None /\ (fd_name spec = "dlr_enabled"%string -> env_transport = None).

Lemma unset_env spec : os_env (lit (fd_env spec)) = None ->
  env_nonempty (lit (fd_env spec)) = None /\ env_bool (lit (fd_env spec)) = None
  /\ (forall A (parse : str -> option A), env_parse parse (lit (fd_env spec)) = None).
Proof. intros E. unfold env_nonempty, env_bool, env_parse. rewrite E. done. Qed.

Ltac each_field Hin := repeat (apply elem_of_cons in Hin as [->|Hin]); [..|by apply elem_of_nil in Hin].
Lemma field_resolved spec fs project l :
  field_current spec (resolve_settings fs project l) =
  default [] (value_named (fd_name spec)
    [ ("model"%string, l_model l);
      ("small_model"%string, l_small_model l);
      ("base_url"%string, l_base_url l);
      ("default_mode"%string, let m := pc_default_mode (l_permissions l) in if is_nil m then lit "default" else m);
      ("idle_timeout_ms"%string, show_z (l_idle_timeout_ms l));
      ("max_retries"%string, show_z (l_max_retries l));
      ("request_gzip"%string, show_bool (if negb (l_gzip_configured l) && is_subconscious_endpoint (l_base_url l) then true else l_request_gzip l));
      ("dlr_enabled"%string, show_bool (bool_decide ((if negb (l_dlr_explicit l) && negb (is_subconscious_endpoint (l_base_url l)) then TJson else l_transport l) <> TJson)));
      ("dlr_url"%string, l_dlr_url l);
      ("dlr_repair_margin_pct"%string, show_z (l_repair_margin l));
      ("reasoning_effort"%string, default (lit "off") (l_reasoning_effort l));
      ("mouse"%string, show_bool (l_mouse l));
      ("tool_result_cap"%string, show_z (cx_tool_result_cap (l_context l)));
      ("read_default_limit"%string, show_z (cx_read_default_limit (l_context l)));
      ("max_iters"%string, show_z (cx_max_iters (l_context l))) ]).
Proof. reflexivity. Qed.

(** What the user's layer says about a field, for the loader. *)
Ltac layers :=
  cbn [value_named String.eqb Ascii.eqb Bool.eqb eqb default from_option id
       env_layer env_permissions env_sandbox env_context file_layers file_layer fst snd fmap option_fmap option_map
       l_base_url l_api_key_env l_timeout_ms l_idle_timeout_ms l_max_retries l_reasoning_effort l_model l_models
       l_small_model l_permissions l_sandbox l_context l_request_gzip l_gzip_configured l_transport l_dlr_explicit
       l_dlr_url l_dlr_token_env l_repair_margin l_mouse
       sf_provider sf_model sf_models sf_small_model sf_permissions sf_sandbox sf_context sf_ui sf_mcp_servers
       save_in_file with_provider with_context List.find
       pc_default_mode cx_tool_result_cap cx_read_default_limit cx_max_iters ui_mouse
       provider_default layers_default pf_base_url pf_api_key_env pf_timeout_ms pf_idle_timeout_ms pf_max_retries pf_request_gzip pf_reasoning_effort
       pf_dlr_enabled pf_request_transport pf_dlr_url pf_dlr_ingress_token_env pf_dlr_repair_margin_pct].

(** The project's file leaves the field alone; the block of the user's file. *)
Ltac hush Hs := unfold speaks in Hs; cbn [List.find String.eqb Ascii.eqb Bool.eqb eqb fst snd] in Hs;
  rewrite ?orb_false_iff, ?bool_decide_eq_false, <- ?eq_None_not_Some in Hs.
Ltac fields_of Hs :=
  try (cbn [pf_base_url pf_idle_timeout_ms pf_max_retries pf_request_gzip pf_reasoning_effort pf_dlr_enabled pf_request_transport
            pf_dlr_url pf_dlr_repair_margin_pct] in Hs).
Ltac open_block f :=
  destruct (default provider_default (sf_provider f)), (default permissions_default (sf_permissions f)),
           (default context_default (sf_context f)).

Lemma field_reads_back fs project spec v f pr :
  spec ∈ EDITABLE -> fits spec v -> unset spec -> silent pr spec ->
  field_current spec (resolve_settings fs project (env_layer (file_layers (save_in_file (fd_name spec) v f) pr))) = show_value v.
Proof.
  intros Hin Hv [He Ht] Hs. destruct (unset_env spec He) as (E1 & E2 & E3). rewrite field_resolved.
  each_field Hin; unfold fits, silent in *; cbn [fd_name fd_env fd_path fd_kind] in *; (destruct pr as [g|]; [hush Hs|]);
    layers; open_block f; try open_block g; layers;
    fields_of Hs; rewrite ?E1, ?E2, ?E3, ?He;
    try (lazymatch type of Hs with _ /\ _ => destruct Hs as [-> ->] | _ = _ => rewrite Hs end); layers.
  all: unfold env_dlr_url in *; rewrite ?He, ?(Ht eq_refl); layers.
  all: lazymatch type of Hv with
       | exists s, _ /\ _ /\ _ => destruct Hv as (s & -> & _); reflexivity
       | exists o, o ∈ _ /\ _ =>
           destruct Hv as (o & Ho & ->);
           repeat (apply elem_of_cons in Ho as [->|Ho]; [vm_compute; reflexivity|]); by apply elem_of_nil in Ho
       | exists n, _ /\ _ => destruct Hv as (n & -> & _); reflexivity
       | exists b, _ => destruct Hv as (b & ->); change (bool_decide (is_Some (Some _))) with true; rewrite ?orb_true_r; by destruct b
       end.
Qed.

(** The fields that a save may change: its own; with the addresses also the
    two that follow from them. *)
Definition touched (name : string) : list string :=
  name :: if bool_decide (name ∈ ["base_url"; "dlr_url"]%string) then ["request_gzip"; "dlr_enabled"]%string else [].

Lemma named_except (ex : list string) name l l' :
  Forall2 (fun p q => p.1 = q.1 /\ (bool_decide (p.1 ∈ ex) = false -> p.2 = q.2)) l l' -> name ∉ ex -> value_named name l = value_named name l'.
Proof.
  induction 1 as [|[a x] [b y] l l' [E1 E2] _ IH]; intros Hn; [done|]. simpl in *. subst b.
  destruct (String.eqb_spec a name) as [->|]; [|by apply IH].
  f_equal. apply E2. by apply bool_decide_eq_false.
Qed.

Ltac same_field :=
  first [reflexivity
        |match goal with |- context [sf_context ?g] => destruct (sf_context g); reflexivity end
        |match goal with |- context [sf_permissions ?g] => destruct (sf_permissions g); reflexivity end].

Lemma field_elsewhere fs fs' project spec spec' v f m pr :
  spec ∈ EDITABLE -> fd_name spec' ∉ touched (fd_name spec) ->
  field_current spec' (resolve_settings fs' project (env_layer (file_layers (save_in_file (fd_name spec) v (with_mcp f m)) pr)))
  = field_current spec' (resolve_settings fs project (env_layer (file_layers f pr))).
Proof.
  intros Hin Hn. rewrite !field_resolved. f_equal. eapply named_except; [|exact Hn]. clear Hn.
  each_field Hin; cbn [fd_name] in *; destruct pr as [g|]; unfold with_mcp; layers; open_block f;
    repeat (apply list.Forall2_cons; split;
            [split; [reflexivity|]; first [intros Ex; vm_compute in Ex; discriminate Ex|intros _; same_field]|]);
    apply list.Forall2_nil; done.
Qed.

Lemma project_same fs fs' p project :
  (forall q, q <> p -> fs' !! q = fs !! q) -> p <> project_settings_path project -> project_file fs' project = project_file fs project.
Proof. intros E Hne. unfold project_file, read_settings, read_at. by rewrite E by congruence. Qed.

Lemma user_file_inr fs p f : read_settings fs p = inr f -> user_file fs p = f.
Proof. unfold user_file. by intros ->. Qed.

Lemma parse_fits spec raw v : Forall is_char raw -> field_parse spec raw = inr v ->
  (forall n, v = JNum n -> in_u (loader_width (fd_name spec)) n) -> fits spec v.
Proof.
  intros Hr Hp Hn. unfold field_parse, fits in *.
  assert (Forall is_char (trim raw)) as Ht.
  { destruct (trim_infix raw) as (a & b & E). rewrite E, !list.Forall_app in Hr. tauto. }
  destruct (fd_kind spec) as [|options| | |].
  - destruct (is_nil (trim raw)) eqn:E; [done|]. injection Hp as <-. exists (trim raw). split_and!; [done..|].
    intros E2. by rewrite E2 in E.
  - destruct (List.find _ options) as [o|] eqn:E; [|done]. injection Hp as <-. exists o. split; [|done].
    apply List.find_some in E as [Ho _]. by apply list_elem_of_In.
  - destruct (is_nil (trim raw)) eqn:E; [done|]. injection Hp as <-. exists (trim raw). split_and!; [done..|].
    intros E2. by rewrite E2 in E.
  - destruct (parse_u64 (trim raw)) as [n|]; [|done]. injection Hp as <-. exists n. split; [done|]. by apply Hn.
  - destruct (str_eqb (trim raw) (lit "true")); [injection Hp as <-; by eexists|].
    destruct (str_eqb (trim raw) (lit "false")); [injection Hp as <-; by eexists|done].
Qed.

(** C23: A value that the editor accepts and saves into a settings file the
    loader can read is the one that loading gives, if it has the width the
    loader reads, the environment does not speak about the field, and neither
    does the project's file, which is another file: it does not give the
    field (of the provider, the interface or at the top), and of the
    permissions and the context, which it would replace as a whole, it gives
    nothing at all.  And whatever the environment and the project's file say,
    no field the save does not touch changes. *)
Theorem saved_value_takes_effect fs project spec raw v p fs' :
  spec ∈ EDITABLE -> Forall is_char raw -> field_parse spec raw = inr v ->
  (forall n, v = JNum n -> in_u (loader_width (fd_name spec)) n) ->
  readable fs p -> components p <> components (project_settings_path project) ->
  set_user_setting fs spec v = (Ok p, fs') ->
  (unset spec -> silent (project_file fs project) spec -> field_current spec (settings_load fs' project) = show_value v)
  /\ (forall spec', fd_name spec' ∉ touched (fd_name spec) ->
      field_current spec' (settings_load fs' project) = field_current spec' (settings_load fs project)).
Proof.
  intros Hin Hraw Hp Hn Hr Hne Hs. pose proof (parse_fits _ _ _ Hraw Hp Hn) as Hv.
  destruct (saved_read _ _ _ _ _ Hin Hv Hr Hs) as (Hpath & Hfs & m & Hf).
  rewrite !(load_layers _ p project) by done. rewrite (user_file_inr _ _ _ Hf).
  rewrite (project_same fs fs' p project) by (done || congruence). split.
  - intros Hu Hsil. by apply field_reads_back.
  - intros spec' Hn'. by apply field_elsewhere.
Qed.

(** Unknown keys and siblings survive a save. *)
Theorem save_keeps_the_rest fs keys v p fs' t :
  Forall (Forall is_char) keys -> value_ok js_number v ->
  read_tree fs p = Ok t -> set_raw fs keys v = (Ok p, fs') ->
  exists t', js_parse (default [] (fs' !! p)) = Some t' /\ tree_at t' keys = Some v
    /\ (forall q, ~ keys `prefix_of` q -> ~ q `prefix_of` keys -> tree_at t' q = tree_at t q)
    /\ (forall q, q <> p -> fs' !! q = fs !! q).
Proof.
  intros Hks Hv Ht Hs. apply set_raw_ok in Hs as (_ & t0 & t' & Ht0 & Hs & ->). rewrite Ht in Ht0. injection Ht0 as <-.
  exists t'. destruct (set_path_at _ _ _ _ _ Hs) as [Hat Hrest]. rewrite lookup_insert_eq. cbn [default from_option id].
  split_and!; [|done|done|intros q Hq; by rewrite lookup_insert_ne].
  apply js_parse_pretty. eapply set_path_ok; [done..| |exact Hs].
  unfold read_tree in Ht. destruct (read_at fs p) as [b| |]; [|by injection Ht as <-|done].
  destruct (forallb _ b); [by injection Ht as <-|]. destruct (js_parse b) eqn:E; [|done]. injection Ht as <-.
  apply value_of_ok. by eapply js_parse_ok.
Qed.

(** ** Numbers that the loader cannot read *)

Lemma wide_uint w n : ~ in_u w n -> as_uint w (JNum n) = None.
Proof. intros Hw. unfold as_uint. by rewrite decide_False. Qed.

Ltac save_wide i j read d Hf Hs Hr := save_leaf i j read d Hf Hs Hr; cbn [opt_field def_field].

Lemma wide_file spec path root root' f n :
  spec ∈ EDITABLE -> fd_kind spec = KNumber -> ~ in_u (loader_width (fd_name spec)) n ->
  as_file root = Some f -> set_path path root (map lit (fd_path spec)) (JNum n) = Ok root' -> as_file root' = None.
Proof.
  intros Hin Hk Hn Hf Hs.
  assert (exists l, root = JObj l) as [l ->].
  { destruct root as [| | | | | |l]; [..|by exists l];
      repeat (apply elem_of_cons in Hin as [->|Hin]; [discriminate Hs|]); by apply elem_of_nil in Hin. }
  each_field Hin; try discriminate Hk; clear Hk; cbn [fd_path fd_name map] in *.
  - apply (wide_uint 64) in Hn. save_wide 0%nat 3%nat as_provider provider_default Hf Hs Hr. by rewrite Hn.
  - apply (wide_uint 32) in Hn. save_wide 0%nat 4%nat as_provider provider_default Hf Hs Hr. by rewrite Hn.
  - apply (wide_uint 32) in Hn. save_wide 0%nat 11%nat as_provider provider_default Hf Hs Hr. by rewrite Hn.
  - apply (wide_uint 64) in Hn. save_wide 6%nat 1%nat as_context context_default Hf Hs Hr. by rewrite Hn.
  - apply (wide_uint 32) in Hn. save_wide 6%nat 4%nat as_context context_default Hf Hs Hr. by rewrite Hn.
  - apply (wide_uint 32) in Hn. save_wide 6%nat 7%nat as_context context_default Hf Hs Hr. by rewrite Hn.
Qed.

(** The editor accepts every number of 64 bits.  One that is wider than the
    loader's field makes the whole file unreadable: every setting of the user
    is back at its default, silently. *)
Theorem wide_number_drops_the_file fs project spec n v p fs' raw :
  spec ∈ EDITABLE -> fd_kind spec = KNumber -> field_parse spec raw = inr v -> v = JNum n -> in_u 64 n ->
  ~ in_u (loader_width (fd_name spec)) n ->
  readable fs p -> components p <> components (project_settings_path project) ->
  set_user_setting fs spec v = (Ok p, fs') ->
  (exists e, read_settings fs' p = inl e)
  /\ settings_load fs' project = resolve_settings fs' project (env_layer (file_layers file_default (project_file fs project))).
Proof.
  intros Hin Hk _ -> H64 Hn Hr Hne Hs. apply set_raw_ok in Hs as (Hp & t & t' & Ht & Hs & ->).
  destruct (read_tree_file _ _ _ Hr Ht) as (Hok & m & Hf).
  assert (exists e, read_settings (<[p:=js_pretty t' ++ [10]]> fs) p = inl e) as [e He].
  { rewrite (written_back fs p t (map lit (fd_path spec)) (JNum n) t' Ht Hok (lits_chars _) H64 Hs).
    rewrite (wide_file _ _ _ _ _ _ Hin Hk Hn Hf Hs). eauto. }
  split; [eauto|]. rewrite (load_layers _ p) by done.
  rewrite (project_same fs _ p) by ((intros; by rewrite lookup_insert_ne) || congruence).
  unfold user_file. by rewrite He.
Qed.

(** ** The roster of models *)

Lemma dedup_elem x l : x ∈ dedup l <-> x ∈ l.
Proof.
  induction l as [|y l IH]; simpl; [done|]. rewrite elem_of_cons, <- IH.
  destruct (dedup l) as [|z r]; [by rewrite elem_of_cons|]. destruct (str_eqb y z) eqn:E; [|by rewrite elem_of_cons].
  apply str_eqb_eq in E as ->. rewrite elem_of_cons. tauto.
Qed.
Lemma roster_model model models : model ∈ roster model models.
Proof. unfold roster. case_bool_decide; [done|]. apply list_elem_of_here. Qed.
Lemma roster_keeps x model models : x ∈ models -> x <> [] -> x ∈ roster model models.
Proof.
  intros Hx Hne. assert (x ∈ dedup (List.filter (fun m => negb (is_nil m)) models)) as Hin.
  { apply dedup_elem, list_elem_of_In, List.filter_In. split; [by apply list_elem_of_In|]. by destruct x. }
  unfold roster. case_bool_decide; [done|]. by apply list_elem_of_further.
Qed.

Lemma strings_back r : as_strings (JArr (map JStr r)) = Some r.
Proof. simpl. induction r as [|s r IH]; simpl; [done|]. by rewrite IH. Qed.

Lemma strings_ok r : Forall (Forall is_char) r -> value_ok js_number (JArr (map JStr r)).
Proof. intros Hr. apply value_ok_arr, List.Forall_map. exact Hr. Qed.

Definition with_models (r : list str) (f : SettingsFile) : SettingsFile :=
  mk_file (sf_provider f) (sf_model f) (Some r) (sf_small_model f) (sf_permissions f) (sf_sandbox f) (sf_context f)
    (sf_ui f) (sf_mcp_servers f) (sf_trusted_mcp_projects f).

Lemma saved_models path root root' f r :
  as_file root = Some f -> set_path path root [lit "models"] (JArr (map JStr r)) = Ok root' -> as_file root' = Some (with_models r f).
Proof.
  intros Hf Hs. destruct root as [| | | | | |l]; try discriminate Hs. injection Hs as <-. save_top 2%nat Hf.
  cbn [opt_field]. rewrite strings_back. cbn [mbind option_bind]. read_back. by injection Hf as <-.
Qed.

Lemma readable_inr fs p f : read_settings fs p = inr f -> readable fs p.
Proof.
  unfold read_settings, readable. destruct (read_at fs p) as [b| |]; try done.
  destruct (js_parse b) as [t|] eqn:E; [|done]. cbn [mbind option_bind]. destruct (as_file t) eqn:E2; [|done].
  intros _. right. eauto.
Qed.

(** The file after both writes of [write_model_keys]. *)
Lemma model_keys_file fs model r p fs' :
  Forall is_char model -> model <> [] -> Forall (Forall is_char) r -> readable fs p ->
  write_model_keys fs model r = (Ok p, fs') ->
  user_settings_path = Some p
  /\ (forall q, q <> p -> fs' !! q = fs !! q)
  /\ exists f, read_settings fs' p = inr f /\ sf_model f = Some model /\ sf_models f = Some r.
Proof.
  intros Hm Hne Hr Hread Hw. unfold write_model_keys in Hw. cbn [List.find EDITABLE fd_name String.eqb Ascii.eqb Bool.eqb eqb] in Hw.
  destruct (set_user_setting _ _ _) as [[p1| |] fs1] eqn:E1 in Hw; [|done..].
  assert (p1 = p) as ->.
  { apply set_raw_ok in E1 as [E1 _]. apply set_raw_ok in Hw as [E2 _]. congruence. }
  assert (mk_field "model" ["model"%string] "SC_MODEL" KModel ∈ EDITABLE) as Hin by apply list_elem_of_here.
  assert (fits (mk_field "model" ["model"%string] "SC_MODEL" KModel) (JStr model)) as Hfit by (exists model; done).
  destruct (saved_read _ _ _ _ _ Hin Hfit Hread E1) as (Hp & Hfs1 & m & Hf1).
  apply set_raw_ok in Hw as (_ & t & t' & Ht & Hs & ->). split; [done|].
  split; [intros q Hq; rewrite lookup_insert_ne by done; by apply Hfs1|].
  destruct (read_tree_file _ _ _ (readable_inr _ _ _ Hf1) Ht) as (Hok & m' & Hf).
  rewrite (user_file_inr _ _ _ Hf1) in Hf. exists (with_models r (with_mcp (save_in_file "model" (JStr model) (with_mcp (user_file fs p) m)) m')).
  split; [|done]. rewrite (written_back _ _ _ _ _ _ Ht Hok (lits_chars ["models"%string]) (strings_ok r Hr) Hs).
  by rewrite (saved_models _ _ _ _ _ Hf Hs).
Qed.

Lemma load_model fs p project f :
  user_settings_path = Some p -> components p <> components (project_settings_path project) -> read_settings fs p = inr f ->
  let l := env_layer (file_layers f (project_file fs project)) in
  settings_load fs project = resolve_settings fs project l /\ st_model (settings_load fs project) = l_model l
  /\ st_models (settings_load fs project) = roster (l_model l) (l_models l).
Proof.
  intros Hp Hne Hf l. rewrite (load_layers fs p project) by done. by rewrite (user_file_inr _ _ _ Hf).
Qed.

(** Removing the model in use takes it out of the file, but loading puts it
    back at the head of the roster.  The menu removes no other. *)
Theorem active_model_stays fs project p fs' :
  let s := settings_load fs project in
  readable fs p -> components p <> components (project_settings_path project) ->
  Forall is_char (st_model s) -> st_model s <> [] -> Forall (Forall is_char) (st_models s) ->
  remove_model fs (st_model s) s = (Ok p, fs') ->
  let s' := settings_load fs' project in st_model s' = st_model s /\ st_model s ∈ st_models s'.
Proof.
  intros s Hr Hne Hm Hm0 Hms Hrem. unfold remove_model in Hrem.
  destruct (length (st_models s) <? 2)%nat; [done|]. destruct (_ =? _)%nat; [done|].
  assert (Forall (Forall is_char) (List.filter (fun m => negb (str_eqb m (st_model s))) (st_models s))) as Hf.
  { rewrite list.Forall_forall in *. intros m Hin. apply list_elem_of_In, List.filter_In in Hin as [Hin _].
    apply Hms. by apply list_elem_of_In. }
  destruct (model_keys_file _ _ _ _ _ Hm Hm0 Hf Hr Hrem) as (Hp & Hsame & f & Hread & Hmod & _).
  destruct (load_model fs' p project f Hp Hne Hread) as (_ & E1 & E2).
  assert (st_model (settings_load fs' project) = st_model s) as E.
  { rewrite E1. rewrite (project_same fs fs' p project Hsame) by congruence.
    assert (s = resolve_settings fs project (env_layer (file_layers (user_file fs p) (project_file fs project)))) as Es.
    { unfold s. by rewrite (load_layers _ p). }
    assert (st_model s = default (l_model (file_layers (user_file fs p) (project_file fs project))) (env_nonempty (lit "SC_MODEL"))) as Em
      by (by rewrite Es).
    rewrite Em. layers. destruct (env_nonempty (lit "SC_MODEL")) as [e|]; [done|]. cbn [default from_option id] in *.
    revert Em. unfold file_layers. destruct (project_file fs project) as [g|]; layers; rewrite Hmod; layers.
    - destruct (sf_model g); [done|]. layers. done.
    - done. }
  cbv zeta. split; [exact E|]. rewrite E2, <- E, E1. apply roster_model.
Qed.

(** Typing the name of a model selects it, and keeps it and every other model
    in the roster. *)
Theorem added_model_is_selected fs project name p fs' :
  let s := settings_load fs project in
  readable fs p -> components p <> components (project_settings_path project) ->
  Forall is_char name -> Forall (Forall is_char) (st_models s) ->
  env_nonempty (lit "SC_MODEL") = None ->
  (forall g, project_file fs project = Some g -> sf_model g = None /\ sf_models g = None) ->
  add_model fs name s = (Ok p, fs') ->
  let s' := settings_load fs' project in
  st_model s' = trim name /\ trim name ∈ st_models s' /\ (forall m, m ∈ st_models s -> m <> [] -> m ∈ st_models s').
Proof.
  intros s Hr Hne Hn Hms He Hg Hadd. unfold add_model in Hadd.
  destruct (is_nil (trim name)) eqn:En; [done|].
  assert (Forall is_char (trim name)) as Ht.
  { destruct (trim_infix name) as (a & b & E). rewrite E, !list.Forall_app in Hn. tauto. }
  assert (trim name <> []) as Ht0 by (by destruct (trim name)).
  set (r := if bool_decide (trim name ∈ st_models s) then st_models s else st_models s ++ [trim name]) in *.
  assert (Forall (Forall is_char) r) as Hfr.
  { unfold r. case_bool_decide; [done|]. apply list.Forall_app. split; [done|]. by repeat constructor. }
  destruct (model_keys_file _ _ _ _ _ Ht Ht0 Hfr Hr Hadd) as (Hp & Hsame & f & Hread & Hmod & Hmods).
  destruct (load_model fs' p project f Hp Hne Hread) as (_ & E1 & E2).
  rewrite (project_same fs fs' p project Hsame) in E1, E2 by congruence.
  assert (l_model (env_layer (file_layers f (project_file fs project))) = trim name
          /\ l_models (env_layer (file_layers f (project_file fs project))) = r) as [El Els].
  { layers. rewrite He. unfold file_layers. destruct (project_file fs project) as [g|]; layers; rewrite ?Hmod, ?Hmods; [|done].
    destruct (Hg g eq_refl) as [-> ->]. done. }
  cbv zeta. rewrite E1, E2, El, Els. split_and!; [done|apply roster_model|].
  intros m Hin Hm0. apply roster_keeps; [|done]. unfold r. case_bool_decide; [done|]. apply elem_of_app. by left.
Qed.

(** ** Providers *)

(** The host of a base address, read off its parts: a scheme, who logs in, the
    host, a port, and a path; [None] for an address of another scheme. *)
Definition not_in (l s : str) : Prop := Forall (fun c => c ∉ l) s.
Inductive address_host : str -> option str -> Prop :=
| HostOf url scheme user host port path :
    trim url = scheme ++ user ++ host ++ port ++ path ->
    scheme = lit "https://" \/ scheme = lit "http://" ->
    user = [] \/ (exists name, user = name ++ lit "@" /\ not_in (lit "/?#") name) ->
    not_in (lit "/?#@:") host ->
    port = [] \/ (exists number, port = lit ":" ++ number /\ not_in (lit "/?#@") number) ->
    path = [] \/ (exists rest, path = lit "/" ++ rest) ->
    address_host url (Some host)
| OtherScheme url :
    ~ lit "https://" `prefix_of` trim url -> ~ lit "http://" `prefix_of` trim url -> address_host url None.

(** What a request is sent by when nothing chose it. *)
Definition provider_transport (host : option str) : RequestTransport :=
  match host with
  | Some h => if eq_ignore_ascii_case h (lit "api.subconscious.dev") then TAuto else TJson
  | None => TJson
  end.

Lemma before_char_app c a b : c ∉ a -> before_char c (a ++ b) = a ++ before_char c b.
Proof.
  induction a as [|x a IH]; intros Hc; [done|]. apply not_elem_of_cons in Hc as [Hx Hc]. cbn.
  destruct (Z.eqb_spec x c); [congruence|]. by rewrite IH.
Qed.
Lemma before_char_none c a : c ∉ a -> before_char c a = a.
Proof. intros Hc. rewrite <- (app_nil_r a) at 1. rewrite before_char_app by done. apply app_nil_r. Qed.
Lemma after_last_app c a b : c ∉ b -> after_last c (a ++ c :: b) = b.
Proof.
  intros Hc. unfold after_last. rewrite rev_app_distr. cbn [rev]. rewrite <- !app_assoc, before_char_app.
  - cbn. by rewrite Z.eqb_refl, app_nil_r, rev_involutive.
  - by rewrite list_elem_of_In, <- in_rev, <- list_elem_of_In.
Qed.
Lemma after_last_none c a : c ∉ a -> after_last c a = a.
Proof.
  intros Hc. unfold after_last. rewrite before_char_none; [apply rev_involutive|].
  by rewrite list_elem_of_In, <- in_rev, <- list_elem_of_In.
Qed.
Lemma not_in_elem l s c : not_in l s -> c ∈ l -> c ∉ s.
Proof. intros Hn Hc Hs. unfold not_in in Hn. rewrite list.Forall_forall in Hn. by apply (Hn c Hs). Qed.
Lemma strip_prefix_absent p s : ~ p `prefix_of` s -> strip_prefix p s = None.
Proof.
  intros Hn. destruct (strip_prefix p s) as [r|] eqn:E; [|done]. apply strip_prefix_Some in E as ->. destruct Hn. by exists r.
Qed.

(** The test for the provider is right about every such address. *)
Lemma endpoint_of_host url host : address_host url host ->
  (if is_subconscious_endpoint url then TAuto else TJson) = provider_transport host.
Proof.
  destruct 1 as [url scheme user host port path E Hs Hu Hh Hp Hpath|url Hn1 Hn2]; unfold is_subconscious_endpoint; cbv zeta.
  2:{ by rewrite !strip_prefix_absent. }
  assert (forall c, c ∈ lit "/?#@:" -> c ∉ host) as Hh' by (intros c; by apply not_in_elem).
  assert (47 ∉ user ++ host ++ port) as H47.
  { rewrite !not_elem_of_app. split_and!; [|apply Hh'; set_solver|].
    - destruct Hu as [->|(name & -> & Hn)]; [set_solver|]. pose proof (not_in_elem _ _ 47 Hn ltac:(set_solver)). set_solver.
    - destruct Hp as [->|(n & -> & Hn)]; [set_solver|]. pose proof (not_in_elem _ _ 47 Hn ltac:(set_solver)). set_solver. }
  assert (64 ∉ host ++ port) as H64.
  { rewrite !not_elem_of_app. split_and!; [apply Hh'; set_solver|].
    destruct Hp as [->|(n & -> & Hn)]; [set_solver|]. pose proof (not_in_elem _ _ 64 Hn ltac:(set_solver)). set_solver. }
  assert (before_char 47 (user ++ host ++ port ++ path) = user ++ host ++ port) as E47.
  { replace (user ++ host ++ port ++ path) with ((user ++ host ++ port) ++ path) by (by rewrite <- !app_assoc).
    rewrite before_char_app by done. by destruct Hpath as [->|(rest & ->)]; cbn; rewrite app_nil_r. }
  assert (after_last 64 (user ++ host ++ port) = host ++ port) as E64.
  { destruct Hu as [->|(name & -> & Hn)]; [by apply after_last_none|]. rewrite <- app_assoc. by apply after_last_app. }
  assert (before_char 58 (host ++ port) = host) as E58.
  { rewrite before_char_app by (apply Hh'; set_solver). by destruct Hp as [->|(n & -> & _)]; cbn; rewrite app_nil_r. }
  rewrite E. destruct Hs as [->| ->].
  - change (strip_prefix (lit "https://") (lit "https://" ++ ?x)) with (Some x).
    cbv beta iota. by rewrite E47, E64, E58.
  - change (strip_prefix (lit "https://") (lit "http://" ++ ?x)) with (@None str).
    change (strip_prefix (lit "http://") (lit "http://" ++ ?x)) with (Some x).
    cbv beta iota. by rewrite E47, E64, E58.
Qed.

(** Layers in which nothing chose a transport. *)
Definition undecided (l : Layers) : Prop := l_dlr_explicit l = false -> l_dlr_url l = DEFAULT_DLR_URL /\ l_transport l = TAuto.
Lemma undecided_layer fs path lw : undecided lw.1 -> undecided (load_layer fs path lw).1.
Proof.
  destruct lw as [l0 w0]. unfold undecided, load_layer. intros Hbase. destruct (read_settings fs path) as [e|f]; [done|]. layers.
  destruct (default provider_default (sf_provider f)). layers. rewrite !orb_false_iff, !bool_decide_eq_false.
  intros [[[Hex Htr] Hen] Hu]. apply eq_None_not_Some in Hu as ->, Htr as ->, Hen as ->. by apply Hbase.
Qed.
Lemma undecided_files fs project : undecided (load_files fs project).1.
Proof. unfold load_files. apply undecided_layer. destruct user_settings_path; [by apply undecided_layer|done]. Qed.
Lemma undecided_env l : undecided l -> undecided (env_layer l).
Proof.
  unfold undecided. intros Hl. layers. rewrite !orb_false_iff, !bool_decide_eq_false. intros [[[Hex Htr] Hen] Hu].
  apply eq_None_not_Some in Hu as ->, Htr as ->, Hen as ->. by apply Hl.
Qed.

(** C24: Where nothing chose a transport or an address for it, the host of the
    base address decides: a provider other than Subconscious is sent plain
    JSON and Subconscious is tried with DLR at the default address, whether
    the files, the environment or the command line names the provider.  The
    base address is an http or https address whose host is followed by a port
    or a path, or nothing, or it has another scheme.  (A query right after
    the host can hide another host from the test:
    [query_passes_for_provider].) *)
Theorem custom_provider_plain_json fs project url :
  let s := settings_load fs project in let s' := apply_base_url_override s url in
  st_dlr_explicitly_configured s = false ->
  st_dlr_url s = DEFAULT_DLR_URL
  /\ (forall host, address_host (st_base_url s) host -> st_request_transport s = provider_transport host)
  /\ (forall host, address_host url host -> st_request_transport s' = provider_transport host)
  /\ st_dlr_explicitly_configured s' = false.
Proof.
  intros s s' Hx.
  assert (exists l, s = resolve_settings fs project l /\ undecided l) as (l & Es & Hl).
  { unfold s, settings_load, load_with_report. pose proof (undecided_env _ (undecided_files fs project)) as U.
    destruct (load_files fs project) as [l w]. by exists (env_layer l). }
  assert (l_dlr_explicit l = false) as Hx2 by (by rewrite Es in Hx). destruct (Hl Hx2) as [Hu Ht].
  split_and!; [by rewrite Es| | |done].
  - intros host <-%endpoint_of_host. rewrite Es. unfold resolve_settings. cbn [st_base_url st_request_transport].
    rewrite Hx2, Ht. by destruct (is_subconscious_endpoint _).
  - intros host <-%endpoint_of_host. unfold s', apply_base_url_override. cbn [st_request_transport]. by rewrite Hx.
Qed.

(** ** Trust *)

Definition with_trusted (t : option (list str)) (f : SettingsFile) : SettingsFile :=
  mk_file (sf_provider f) (sf_model f) (sf_models f) (sf_small_model f) (sf_permissions f) (sf_sandbox f) (sf_context f)
    (sf_ui f) (sf_mcp_servers f) t.

(** C25: A project starts servers of its own only if the user's list names it, and
    what its own file says about trust changes nothing. *)
Theorem project_cannot_trust_itself fs fs' project p f t :
  user_settings_path = Some p -> components p <> components (project_settings_path project) ->
  read_settings fs (project_settings_path project) = inr f ->
  read_settings fs' (project_settings_path project) = inr (with_trusted t f) ->
  read_settings fs' p = read_settings fs p -> saved_api_key fs' = saved_api_key fs ->
  settings_load fs' project = settings_load fs project
  /\ (st_project_mcp_trusted (settings_load fs project) = true ->
      st_project_mcp_servers (settings_load fs project) = ∅
      \/ is_trusted_project project (default [] (sf_trusted_mcp_projects (user_file fs p))) = true).
Proof.
  intros Hp Hne Hf Hf' Hu Hk. rewrite !(load_layers _ p project) by done.
  assert (user_file fs' p = user_file fs p) as -> by (unfold user_file; by rewrite Hu).
  unfold project_file. rewrite Hf, Hf'. split.
  - transitivity (resolve_settings fs' project (env_layer (file_layers (user_file fs p) (Some f)))); [reflexivity|].
    unfold resolve_settings. f_equal. unfold resolve_api_key. by rewrite Hk.
  - unfold resolve_settings. cbn [st_project_mcp_trusted st_project_mcp_servers].
    rewrite orb_true_iff, bool_decide_eq_true. intros [?|Htr]; [by left|right]. exact Htr.
Qed.

(** ** The key file, and what shadows a save *)

(** A key that is saved is the key that is used, unless the environment has
    one; the file holds no blanks around it. *)
Theorem saved_key_resolves fs key p fs' env_name :
  Forall is_char key -> os_unreadable p = None -> set_api_key fs key = (Ok p, fs') ->
  saved_api_key fs' = Some (trim key)
  /\ resolve_api_key fs' env_name = Some (default (trim key) (env_nonempty env_name))
  /\ (forall q, q <> p -> fs' !! q = fs !! q).
Proof.
  intros Hk Hu Hs. unfold set_api_key in Hs. unfold resolve_api_key, saved_api_key.
  destruct key_file_path as [path|]; [|done]. unfold write_key_file in Hs.
  destruct (is_nil (trim key)) eqn:En; [done|].
  destruct (fs_write fs path (utf8 (trim key ++ [10]))) as [[p'| |] fs1] eqn:Ew; [|done..].
  destruct (os_chmod path); [done|]. cbn [res_bind] in Hs. injection Hs as -> ->.
  apply fs_write_ok in Ew as [_ ->].
  assert (read_key_file (<[p := utf8 (trim key ++ [10])]> fs) p = Some (trim key)) as E.
  { unfold read_key_file, read_at. rewrite Hu, lookup_insert_eq, from_utf8_utf8.
    - cbn [mbind option_bind]. by rewrite trim_line, En.
    - apply list.Forall_app. split; [|repeat constructor; unfold is_char; lia].
      destruct (trim_infix key) as (a & b & E). rewrite E, !list.Forall_app in Hk. tauto. }
  cbn [mbind option_bind]. rewrite E. split_and!; [done|by destruct (env_nonempty env_name)|].
  intros q Hq. by rewrite lookup_insert_ne.
Qed.

(** A save is reported as shadowed only if the field's own variable is set.
    The variable of the older setting decides about [dlr_enabled] all the same,
    and an empty variable turns the reasoning effort off. *)
Lemma shadow_unreported fs project l :
  env_transport = Some TJson -> os_env (lit "SC_DLR_ENABLED") = None ->
  let spec := mk_field "dlr_enabled" ["provider"; "dlr_enabled"]%string "SC_DLR_ENABLED" KBool in
  env_override spec = None /\ field_current spec (resolve_settings fs project (env_layer l)) = lit "false".
Proof.
  intros Ht He spec. split; [unfold env_override, env_nonempty; cbn [fd_env spec]; by rewrite He|].
  rewrite field_resolved. cbn [fd_name spec]. layers. unfold env_bool. rewrite Ht, He. layers.
  by destruct (negb _ && negb _).
Qed.
Lemma empty_effort_unreported fs project l :
  os_env (lit "SC_REASONING_EFFORT") = Some [] ->
  let spec := mk_field "reasoning_effort" ["provider"; "reasoning_effort"]%string "SC_REASONING_EFFORT" (KChoice REASONING_EFFORTS) in
  env_override spec = None /\ field_current spec (resolve_settings fs project (env_layer l)) = lit "off".
Proof.
  intros He spec. split; [unfold env_override, env_nonempty; cbn [fd_env spec]; by rewrite He|].
  rewrite field_resolved. cbn [fd_name spec]. layers. by rewrite He.
Qed.

End Saved.

(** The test for the provider looks for the last at sign up to the first slash,
    and a query can hold both. *)
Lemma query_passes_for_provider : is_subconscious_endpoint (lit "https://evil.example?@api.subconscious.dev") = true.
Proof. reflexivity. Qed.

(** ** A concrete library, disk and environment *)

Module ConfigSample.

Fixpoint to_gen (v : JVal) : gen_tree (str + bool + Z) :=
  match v with
  | JNull => GenNode 0 []
  | JBool b => GenLeaf (inl (inr b))
  | JNum n => GenLeaf (inr n)
  | JOther t => GenNode 4 [GenLeaf (inl (inl t))]
  | JStr s => GenLeaf (inl (inl s))
  | JArr l => GenNode 1 (map to_gen l)
  | JObj l => GenNode 2 (map (fun p => GenNode 3 [GenLeaf (inl (inl p.1)); to_gen p.2]) l)
  end.
Fixpoint of_gen (g : gen_tree (str + bool + Z)) : JVal :=
  match g with
  | GenLeaf (inl (inr b)) => JBool b
  | GenLeaf (inr n) => JNum n
  | GenLeaf (inl (inl s)) => JStr s
  | GenNode 4 [GenLeaf (inl (inl t))] => JOther t
  | GenNode 1 l => JArr (map of_gen l)
  | GenNode 2 l => JObj (map (fun p => match p with GenNode _ [GenLeaf (inl (inl k)); v] => (k, of_gen v) | _ => ([], JNull) end) l)
  | GenNode _ _ => JNull
  end.
Lemma of_to v : of_gen (to_gen v) = v.
Proof.
  induction v as [|b|n|t|s|l IH|l IH] using JVal_nested; try done; simpl; f_equal.
  - induction IH as [|x l Hx _ IHl]; simpl; [done|]. by rewrite Hx, IHl.
  - induction IH as [|[k x] l Hx _ IHl]; simpl in *; [done|]. by rewrite Hx, IHl.
Qed.

#[local] Instance is_char_dec c : Decision (is_char c).
Proof. unfold is_char. apply _. Defined.
Fixpoint value_okb (v : JVal) : bool :=
  match v with
  | JNum n => bool_decide (in_u 64 n)
  | JStr s => bool_decide (Forall is_char s)
  | JArr l => forallb value_okb l
  | JObj l => forallb (fun p => bool_decide (Forall is_char p.1) && value_okb p.2) l
  | _ => true
  end.
Lemma value_okb_spec v : value_okb v = true <-> value_ok (fun _ => True) v.
Proof.
  induction v as [|b|n|t|s|l IH|l IH] using JVal_nested; try done.
  - cbn [value_okb value_ok]. apply bool_decide_eq_true.
  - cbn [value_okb value_ok]. apply bool_decide_eq_true.
  - rewrite value_ok_arr. simpl. rewrite forallb_forall, !list.Forall_forall in *.
    split; intros Hl x Hx.
    + apply IH; [done|]. apply Hl. by apply list_elem_of_In.
    + apply list_elem_of_In in Hx. apply IH; [done|]. by apply Hl.
  - rewrite value_ok_obj. simpl. rewrite forallb_forall, !list.Forall_forall in *.
    split; intros Hl x Hx.
    + specialize (Hl x (proj1 (list_elem_of_In _ _) Hx)). apply andb_true_iff in Hl as [H1 H2].
      apply bool_decide_eq_true in H1. split; [exact H1|]. by apply IH.
    + apply list_elem_of_In in Hx as Hx'. destruct (Hl x Hx') as [H1 H2]. apply andb_true_iff.
      split; [by apply bool_decide_eq_true|]. by apply IH.
Qed.

(** The text of a value is its code as one number, above the blanks. *)
#[export] Instance json : SettingsJson := {|
  js_parse b := match b with
                | [n; m] => if (m =? 10) && (1000 <? n) then
                              g ← decode (Z.to_pos (n - 1000));
                              if value_okb (of_gen g) then Some (of_gen g) else None
                            else None
                | _ => None
                end;
  js_error _ := lit "no";
  js_pretty v := [1000 + Zpos (encode (to_gen v))]
|}.
#[export] Instance json_laws : SettingsJsonLaws.
Proof.
  refine {| js_number := fun _ => True |}.
  - intros b t. simpl. destruct b as [|n [|m []]]; try done. destruct (_ && _); [|done].
    destruct (decode _) as [g|]; [|done]. cbn [mbind option_bind]. destruct (value_okb (of_gen g)) eqn:E; [|done].
    intros [= <-]. by apply value_okb_spec.
  - intros b Hb. simpl. destruct b as [|n [|m []]]; try done. simpl in Hb. apply andb_true_iff in Hb as [Hn _].
    unfold is_ascii_whitespace in Hn. apply bool_decide_eq_true in Hn.
    destruct (Z.ltb_spec 1000 n); [|by rewrite andb_false_r].
    exfalso. repeat (apply elem_of_cons in Hn as [->|Hn]; [lia|]). by apply elem_of_nil in Hn.
  - intros v Hv. cbn [app js_parse js_pretty json]. change (10 =? 10) with true.
    rewrite (proj2 (Z.ltb_lt 1000 _)) by lia. cbn [andb].
    replace (1000 + Z.pos (encode (to_gen v)) - 1000) with (Z.pos (encode (to_gen v))) by lia.
    cbn [Z.to_pos]. rewrite decode_encode. cbn [mbind option_bind]. rewrite of_to.
    by rewrite (proj2 (value_okb_spec v) Hv).
Qed.

Fixpoint env (l : list (string * string)) (name : str) : option str :=
  match l with [] => None | (k, v) :: l => if str_eqb (lit k) name then Some (lit v) else env l name end.
Definition os_of (l : list (string * string)) : ConfigOs :=
  {| os_env := env l; os_canonicalize := Some; os_not_found := lit "not found"; os_unreadable _ := None |}.
#[export] Instance os : ConfigOs := os_of [("HOME", "/home/u")]%string.
#[export] Instance disk : ConfigDisk :=
  {| os_create_dir _ := None; os_write _ _ := WriteDone; os_chmod _ := None |}.

Definition path : str := lit "/home/u/.sc/settings.json".
Definition cwd : str := lit "/w/p".
Definition tree0 : JVal :=
  JObj [(lit "provider", JObj [(lit "base_url", JStr (lit "https://g/v1"))]); (lit "future_key", JNum 42);
        (lit "models", JArr [JStr (lit "a"); JStr (lit "b")]); (lit "model", JStr (lit "a"))].
Definition fs0 : Files := {[ path := js_pretty tree0 ++ [10] ]}.
Definition retries : FieldSpec := mk_field "max_retries" ["provider"; "max_retries"] "SC_MAX_RETRIES" KNumber.
Lemma fs0_read : read_at fs0 path = Found (js_pretty tree0 ++ [10]).
Proof. vm_compute. reflexivity. Qed.
Lemma fs0_parse : js_parse (js_pretty tree0 ++ [10]) = Some tree0.
Proof. vm_compute. reflexivity. Qed.
Definition file0 : SettingsFile := default file_default (as_file tree0).
Lemma fs0_readable : readable fs0 path.
Proof.
  unfold readable. rewrite fs0_read. right. exists tree0, file0. split; [exact fs0_parse|]. vm_compute. reflexivity.
Qed.
Lemma paths_differ : components path <> components (project_settings_path cwd).
Proof. vm_compute. discriminate. Qed.
Lemma project_none : project_file fs0 cwd = None.
Proof. vm_compute. reflexivity. Qed.

(** The disk after something is saved. *)
Definition saved (spec : FieldSpec) (v : JVal) : Files := (set_user_setting fs0 spec v).2.
Lemma saved_eq spec v r : (set_user_setting fs0 spec v).1 = r -> set_user_setting fs0 spec v = (r, saved spec v).
Proof. unfold saved. intros <-. apply surjective_pairing. Qed.
End ConfigSample.
#[local] Existing Instance ConfigSample.os.
#[local] Existing Instance ConfigSample.json.
#[local] Existing Instance ConfigSample.json_laws.
#[local] Existing Instance ConfigSample.disk.

Theorem saved_value_takes_effect_witness :
  let fs' := ConfigSample.saved ConfigSample.retries (JNum 7) in
  field_current ConfigSample.retries (settings_load fs' ConfigSample.cwd) = lit "7"
  /\ field_current (mk_field "base_url" [] "" KText) (settings_load fs' ConfigSample.cwd)
     = field_current (mk_field "base_url" [] "" KText) (settings_load ConfigSample.fs0 ConfigSample.cwd).
Proof.
  assert (ConfigSample.retries ∈ EDITABLE) as Hin by (apply (bool_decide_eq_true_1 _); vm_compute; reflexivity).
  destruct (saved_value_takes_effect ConfigSample.fs0 ConfigSample.cwd ConfigSample.retries (lit " 7 ") (JNum 7)
    ConfigSample.path (ConfigSample.saved ConfigSample.retries (JNum 7)) Hin (lit_chars _)) as [T1 T2].
  - vm_compute. reflexivity.
  - intros n [= <-]. vm_compute. split; [discriminate|reflexivity].
  - exact ConfigSample.fs0_readable.
  - exact ConfigSample.paths_differ.
  - apply ConfigSample.saved_eq. vm_compute. reflexivity.
  - split.
    + rewrite T1; [reflexivity| |].
      * split; [vm_compute; reflexivity|intros E; discriminate E].
      * rewrite ConfigSample.project_none. exact I.
    + apply T2. apply (bool_decide_eq_true_1 _). vm_compute. reflexivity.
Defined.

Theorem save_keeps_the_rest_witness :
  exists t', js_parse (default [] ((set_raw ConfigSample.fs0 [lit "provider"; lit "dlr_url"] (JStr (lit "https://d"))).2 !! ConfigSample.path)) = Some t'
    /\ tree_at t' [lit "future_key"] = Some (JNum 42)
    /\ tree_at t' [lit "provider"; lit "base_url"] = Some (JStr (lit "https://g/v1")).
Proof.
  assert (read_tree ConfigSample.fs0 ConfigSample.path = Ok (value_of ConfigSample.tree0)) as Ht by (vm_compute; reflexivity).
  set (keys := [lit "provider"; lit "dlr_url"]).
  assert ((set_raw ConfigSample.fs0 keys (JStr (lit "https://d"))).1 = Ok ConfigSample.path) as E by (vm_compute; reflexivity).
  destruct (save_keeps_the_rest ConfigSample.fs0 keys (JStr (lit "https://d")) ConfigSample.path
    (set_raw ConfigSample.fs0 keys (JStr (lit "https://d"))).2 (value_of ConfigSample.tree0)) as (t' & Hp & _ & Hq & _).
  - apply (lits_chars ["provider"; "dlr_url"]%string).
  - apply lit_chars.
  - exact Ht.
  - rewrite <- E. apply surjective_pairing.
  - exists t'. split; [exact Hp|]. split; rewrite Hq; try (vm_compute; reflexivity);
      apply (bool_decide_eq_true_1 _); vm_compute; reflexivity.
Defined.

Theorem wide_number_drops_the_file_witness :
  st_base_url (settings_load (ConfigSample.saved ConfigSample.retries (JNum 4294967296)) ConfigSample.cwd) = DEFAULT_BASE_URL
  /\ st_base_url (settings_load ConfigSample.fs0 ConfigSample.cwd) = lit "https://g/v1".
Proof.
  assert (ConfigSample.retries ∈ EDITABLE) as Hin by (apply (bool_decide_eq_true_1 _); vm_compute; reflexivity).
  destruct (wide_number_drops_the_file ConfigSample.fs0 ConfigSample.cwd ConfigSample.retries 4294967296 (JNum 4294967296)
    ConfigSample.path (ConfigSample.saved ConfigSample.retries (JNum 4294967296)) (lit "4294967296") Hin) as [_ T].
  - reflexivity.
  - vm_compute. reflexivity.
  - reflexivity.
  - vm_compute. split; [discriminate|reflexivity].
  - vm_compute. intros [_ E]. discriminate E.
  - exact ConfigSample.fs0_readable.
  - exact ConfigSample.paths_differ.
  - apply ConfigSample.saved_eq. vm_compute. reflexivity.
  - rewrite T, ConfigSample.project_none. split; vm_compute; reflexivity.
Defined.

Theorem active_model_stays_witness :
  let s := settings_load ConfigSample.fs0 ConfigSample.cwd in
  let s' := settings_load (remove_model ConfigSample.fs0 (st_model s) s).2 ConfigSample.cwd in
  st_models s = [lit "a"; lit "b"] /\ st_model s' = lit "a" /\ lit "a" ∈ st_models s'.
Proof.
  cbv zeta. set (s := settings_load ConfigSample.fs0 ConfigSample.cwd).
  assert (st_models s = [lit "a"; lit "b"]) as Em by (vm_compute; reflexivity).
  assert (st_model s = lit "a") as E1 by (vm_compute; reflexivity).
  assert ((remove_model ConfigSample.fs0 (st_model s) s).1 = Ok ConfigSample.path) as E by (vm_compute; reflexivity).
  split; [exact Em|].
  destruct (active_model_stays ConfigSample.fs0 ConfigSample.cwd ConfigSample.path (remove_model ConfigSample.fs0 (st_model s) s).2)
    as [T1 T2].
  - exact ConfigSample.fs0_readable.
  - exact ConfigSample.paths_differ.
  - fold s. rewrite E1. apply lit_chars.
  - fold s. rewrite E1. discriminate.
  - fold s. rewrite Em. apply (lits_chars ["a"; "b"]%string).
  - fold s. rewrite <- E. apply surjective_pairing.
  - fold s in T1, T2. rewrite E1 in *. split; [exact T1|exact T2].
Defined.

Module ProviderSample.
#[export] Instance os : ConfigOs := ConfigSample.os_of [("HOME", "/home/u"); ("SC_BASE_URL", "http://localhost:8000/v1")]%string.
End ProviderSample.

Theorem custom_provider_plain_json_witness :
  let s := settings_load (H := ProviderSample.os) ConfigSample.fs0 ConfigSample.cwd in
  st_base_url s = lit "http://localhost:8000/v1" /\ st_request_transport s = TJson
  /\ st_request_transport (apply_base_url_override s (lit "https://api.subconscious.dev/v1")) = TAuto
  /\ st_request_transport (apply_base_url_override s (lit "https://api.subconscious.dev@other")) = TJson.
Proof.
  cbv zeta. set (s := settings_load _ _). assert (st_base_url s = lit "http://localhost:8000/v1") as E by (vm_compute; reflexivity).
  assert (st_dlr_explicitly_configured s = false) as Hx by (vm_compute; reflexivity).
  pose proof (fun url => custom_provider_plain_json (H := ProviderSample.os) ConfigSample.fs0 ConfigSample.cwd url Hx) as T.
  fold s in T. split; [exact E|]. split_and!.
  - rewrite (proj1 (proj2 (T [])) (Some (lit "localhost"))); [reflexivity|]. rewrite E.
    eapply (HostOf _ (lit "http://") [] _ (lit ":8000") (lit "/v1")); [reflexivity|by right|by left| | |right; by eexists].
    + apply (bool_decide_eq_true_1 _). vm_compute. reflexivity.
    + right. eexists. split; [reflexivity|]. apply (bool_decide_eq_true_1 _). vm_compute. reflexivity.
  - rewrite (proj1 (proj2 (proj2 (T _))) (Some (lit "api.subconscious.dev"))); [reflexivity|].
    eapply (HostOf _ (lit "https://") [] _ [] (lit "/v1")); [reflexivity|by left|by left| |by left|right; by eexists].
    apply (bool_decide_eq_true_1 _). vm_compute. reflexivity.
  - rewrite (proj1 (proj2 (proj2 (T _))) (Some (lit "other"))); [reflexivity|].
    eapply (HostOf _ (lit "https://") (lit "api.subconscious.dev@") _ [] []); [reflexivity|by left| | |by left|by left].
    + right. exists (lit "api.subconscious.dev"). split; [reflexivity|]. apply (bool_decide_eq_true_1 _). vm_compute. reflexivity.
    + apply (bool_decide_eq_true_1 _). vm_compute. reflexivity.
Defined.

Module TrustSample.
Definition servers (trust : list (str * JVal)) : JVal :=
  JObj ((lit "mcpServers", JObj [(lit "fs", JObj [(lit "command", JStr (lit "x"))])]) :: trust).
Definition at_project (t : JVal) : Files := <[project_settings_path ConfigSample.cwd := js_pretty t ++ [10]]> ConfigSample.fs0.
Definition plain : Files := at_project (servers []).
Definition boastful : Files := at_project (servers [(lit "trustedMcpProjects", JArr [JStr (lit "/w/p")])]).
Definition file : SettingsFile := default file_default (as_file (servers [])).
End TrustSample.

Theorem project_cannot_trust_itself_witness :
  settings_load TrustSample.boastful ConfigSample.cwd = settings_load TrustSample.plain ConfigSample.cwd
  /\ st_project_mcp_trusted (settings_load TrustSample.boastful ConfigSample.cwd) = false.
Proof.
  destruct (project_cannot_trust_itself TrustSample.plain TrustSample.boastful ConfigSample.cwd ConfigSample.path TrustSample.file
    (Some [lit "/w/p"])) as [T _].
  - reflexivity.
  - exact ConfigSample.paths_differ.
  - vm_compute. reflexivity.
  - vm_compute. reflexivity.
  - vm_compute. reflexivity.
  - vm_compute. reflexivity.
  - split; [exact T|vm_compute; reflexivity].
Defined.
