(* ===== verification/ChatModel.v ===== *)
(** The model client: the event stream of a response
    (src/crates/rc-proto/src/client.rs, [EventStream] and [ChatClient::stream])
    and the model over it (src/crates/rc-core/src/model.rs, [ChatModel]).

    The request bodies that serde_json writes and the deserialisers of
    [Stream] are parameters; a poll that stays pending for longer than the idle
    window is an element of the response body. *)

From S2P Require Import Prelude Text Wire Cost Turn AgentSink Stream Client.

(** ** The event stream *)

Record EventStream := mk_event_stream {
  es_body : list BodyPoll;
  es_dec : SseDecoder;
  es_fuser : StreamFuser;
  es_pending : list AgentStreamEvent;
  es_done : bool
}.

(** What a poll of the stream gives: an item, or nothing for longer than the
    idle window. *)
Inductive Arrival := Item (x : ProtoError + AgentStreamEvent) | Stalled.

Section ChatStream.
Variable parse_chunk : str -> str + ChatCompletionChunk.
Variable json_error : str -> option str.

Definition event_stream_new (body : list BodyPoll) : EventStream := mk_event_stream body sse_new fuser_new [] false.

(** The loop over decoded chunks: their events are queued; the first error
    stops it. *)
Fixpoint absorb (chunks : list chunk_result) (f : StreamFuser) (pending : list AgentStreamEvent)
  : option ProtoError * StreamFuser * list AgentStreamEvent :=
  match chunks with
  | [] => (None, f, pending)
  | inr c :: chunks => let '(evs, f) := fuser_apply json_error f c in absorb chunks f (pending ++ evs)
  | inl e :: _ => (Some e, f, pending)
  end.

(** [poll_next]: the next queued event. *)
Definition pop_pending (s : EventStream) : option Arrival * EventStream :=
  match es_pending s with
  | ev :: pending => (Some (Item (inr ev)), mk_event_stream (es_body s) (es_dec s) (es_fuser s) pending (es_done s))
  | [] => (None, s)
  end.

(** [poll_next] when nothing is queued and the stream is not done. *)
Fixpoint poll_body (body : list BodyPoll) (dec : SseDecoder) (f : StreamFuser) : option Arrival * EventStream :=
  match body with
  | [] =>
      let '(chunks, dec) := sse_finish parse_chunk dec in
      match absorb chunks f [] with
      | (Some e, f, pending) => (Some (Item (inl e)), mk_event_stream [] dec f pending true)
      | (None, f, pending) =>
          let '(evs, f) := fuser_finish json_error f in
          pop_pending (mk_event_stream [] dec f (pending ++ evs) true)
      end
  | ErrPoll text :: body => (Some (Item (inl (PHttp text))), mk_event_stream body dec f [] true)
  | StallPoll :: body => (Some Stalled, mk_event_stream body dec f [] false)
  | BytesPoll bytes :: body =>
      let '(chunks, dec) := sse_feed parse_chunk dec bytes in
      match absorb chunks f [] with
      | (Some e, f, pending) => (Some (Item (inl e)), mk_event_stream body dec f pending true)
      | (None, f, ev :: pending) => (Some (Item (inr ev)), mk_event_stream body dec f pending false)
      | (None, f, []) =>
          if is_nil bytes then poll_body body dec f
          else (Some (Item (inr TransportActivity)), mk_event_stream body dec f [] false)
      end
  end.

Definition poll_next (s : EventStream) : option Arrival * EventStream :=
  match pop_pending s with
  | (Some a, s) => (Some a, s)
  | (None, s) => if es_done s then (None, s) else poll_body (es_body s) (es_dec s) (es_fuser s)
  end.

(** The first polls, up to the end of the stream. *)
Fixpoint poll_all (fuel : nat) (s : EventStream) : list Arrival :=
  match fuel with
  | O => []
  | S fuel => match poll_next s with
              | (None, _) => []
              | (Some a, s) => a :: poll_all fuel s
              end
  end.

(** The same, over the whole body at once: the events of a piece after the
    first error come behind that error. *)
Fixpoint arrivals (body : list BodyPoll) (dec : SseDecoder) (f : StreamFuser) : list Arrival :=
  match body with
  | [] =>
      match absorb (fst (sse_finish parse_chunk dec)) f [] with
      | (Some e, f, pending) => Item (inl e) :: map (Item ∘ inr) pending
      | (None, f, pending) => map (Item ∘ inr) (pending ++ fst (fuser_finish json_error f))
      end
  | ErrPoll text :: _ => [Item (inl (PHttp text))]
  | StallPoll :: body => Stalled :: arrivals body dec f
  | BytesPoll bytes :: body =>
      let '(chunks, dec) := sse_feed parse_chunk dec bytes in
      match absorb chunks f [] with
      | (Some e, f, pending) => Item (inl e) :: map (Item ∘ inr) pending
      | (None, f, pending) =>
          (if is_nil pending then if is_nil bytes then [] else [Item (inr TransportActivity)]
           else map (Item ∘ inr) pending) ++ arrivals body dec f
      end
  end.

(** ** Consuming a stream (model.rs) *)

Record StreamAttemptError := mk_attempt_error { sa_error : ModelError; sa_semantic : bool }.

Definition is_retryable_without_semantic_output (e : StreamAttemptError) : bool :=
  negb (sa_semantic e) && match me_error (sa_error e) with PHttp _ | PIdle _ => true | _ => false end.

(** The locals of [consume_stream]. *)
Record Consumed := mk_consumed {
  cs_text : str;
  cs_reasoning : str;
  cs_calls : list AgentSink.FinalizedToolCall;
  cs_finish : FinishReason;
  cs_usage : option Usage;
  cs_semantic : bool
}.
Definition consumed_new : Consumed := mk_consumed [] [] [] FStop None false.

(** One event: what the sink is told, and the new locals. *)
Definition consume_event (st : Consumed) (ev : AgentStreamEvent) : list StreamEvent * Consumed :=
  match ev with
  | TransportActivity => ([EvTransport], st)
  | Text t =>
      ([EvText t], mk_consumed (cs_text st ++ t) (cs_reasoning st) (cs_calls st) (cs_finish st) (cs_usage st)
                     (cs_semantic st || negb (is_nil t)))
  | Reasoning r =>
      ([EvReasoning r], mk_consumed (cs_text st) (cs_reasoning st ++ r) (cs_calls st) (cs_finish st) (cs_usage st)
                          (cs_semantic st || negb (is_nil r)))
  | ToolCallProgress index id name arguments =>
      ([EvToolDelta index id name arguments],
       mk_consumed (cs_text st) (cs_reasoning st) (cs_calls st) (cs_finish st) (cs_usage st) true)
  | ToolCallReady id name arguments =>
      let call := mk_tool_call id name arguments in
      ([EvToolStart call],
       mk_consumed (cs_text st) (cs_reasoning st) (cs_calls st ++ [FCall call]) (cs_finish st) (cs_usage st) true)
  | ToolCallFailed _ id name raw error =>
      ([], mk_consumed (cs_text st) (cs_reasoning st) (cs_calls st ++ [FParseError id name raw error]) (cs_finish st)
             (cs_usage st) true)
  | Finish reason =>
      ([EvFinish reason],
       mk_consumed (cs_text st) (cs_reasoning st) (cs_calls st) reason (cs_usage st) (cs_semantic st))
  | UsageEvent u =>
      ([], mk_consumed (cs_text st) (cs_reasoning st) (cs_calls st) (cs_finish st) (Some u) (cs_semantic st))
  end.

(** The loop of [strip_reasoning_tag]; every round takes the opening tag. *)
Fixpoint strip_loop (fuel : nat) (open close rest clean reasoning : str) : str * str :=
  match fuel with
  | O => (clean ++ rest, reasoning)
  | S fuel =>
      match find_sub rest open with
      | None => (clean ++ rest, reasoning)
      | Some s =>
          let clean := clean ++ take s rest in
          let after := drop (s + length open) rest in
          match find_sub after close with
          | Some e => strip_loop fuel open close (drop (e + length close) after) clean (reasoning ++ take e after)
          | None => strip_loop fuel open close [] clean (reasoning ++ after)
          end
      end
  end.

Definition strip_reasoning_tag (text : str) (tag : option str) : str * option str :=
  match tag with
  | None => (text, None)
  | Some tag =>
      let open := lit "<" ++ tag ++ lit ">" in
      let close := lit "</" ++ tag ++ lit ">" in
      if negb (contains text open) then (text, None)
      else
        let '(clean, reasoning) := strip_loop (S (length text)) open close text [] [] in
        (clean, if is_nil (trim reasoning) then None else Some reasoning)
  end.

(** The assembled turn. *)
Definition response_of (tag : option str) (retries : Z) (st : Consumed) : ModelResponse :=
  let field_reasoning := if is_nil (cs_reasoning st) then None else Some (cs_reasoning st) in
  let '(text, tag_reasoning) := strip_reasoning_tag (cs_text st) tag in
  let reasoning := match field_reasoning, tag_reasoning with
                   | Some r, Some t => Some (r ++ [10] ++ t)
                   | Some r, None => Some r
                   | None, Some t => Some t
                   | None, None => None
                   end in
  MkResponse text reasoning (cs_calls st) (cs_finish st) (cs_usage st) retries.

(** The loop of [consume_stream]; a stall counts when there is an idle bound. *)
Fixpoint consume_stream (items : list Arrival) (idle : option Z) (tag : option str) (retries : Z) (st : Consumed)
  : list StreamEvent * (StreamAttemptError + ModelResponse) :=
  match items with
  | [] => ([], inr (response_of tag retries st))
  | Stalled :: items =>
      match idle with
      | Some d => ([], inl (mk_attempt_error (MkModelError (PIdle d) retries) (cs_semantic st)))
      | None => consume_stream items idle tag retries st
      end
  | Item (inl e) :: _ => ([], inl (mk_attempt_error (MkModelError e retries) (cs_semantic st)))
  | Item (inr ev) :: items =>
      let '(out, st) := consume_event st ev in
      let '(outs, r) := consume_stream items idle tag retries st in (out ++ outs, r)
  end.

Definition is_empty_stream_end (r : ModelResponse) : bool :=
  bool_decide (mr_finish_reason r = FOther (lit "stream-ended")) && is_nil (trim (mr_text r))
  && blank_opt (mr_reasoning r) && is_nil (mr_tool_calls r).

(** ** A request to the model *)

Definition MAX_ZERO_SEMANTIC_STREAM_RETRIES : Z := 2.
Definition ZERO_SEMANTIC_STREAM_RETRY_BASE_DELAY : Z := 100000000.

(** [ChatClient::stream]: what the request carries besides the messages; the
    temperature goes by its bits. *)
Record CompleteOpts := mk_opts {
  op_max_tokens : option Z;
  op_temperature : option Z;
  op_reasoning_effort : option str;
  op_session_id : option str;
  op_idle_timeout : option Z
}.

Context {Tool : Type}.

Record ChatCompletionRequest := mk_request {
  cr_model : str;
  cr_messages : list WireMessage;
  cr_max_tokens : option Z;
  cr_temperature : option Z;
  cr_reasoning_effort : option str;
  cr_stream : bool;
  cr_tools : list Tool;
  cr_tool_choice : option str;
  cr_parallel_tool_calls : option bool;
  cr_include_usage : option bool
}.

Definition stream_request (c : ChatClient) (messages : list WireMessage) (opts : CompleteOpts) (tools : list Tool)
  : ChatCompletionRequest :=
  mk_request (cl_model c) messages (op_max_tokens opts) (op_temperature opts) (op_reasoning_effort opts) true tools
    (if is_nil tools then None else Some (lit "auto")) (if is_nil tools then None else Some true) (Some true).

Definition once_request (c : ChatClient) (messages : list WireMessage) (opts : CompleteOpts) : ChatCompletionRequest :=
  mk_request (cl_model c) messages (op_max_tokens opts) (op_temperature opts) (op_reasoning_effort opts) false []
    None None None.

Definition completions_url (c : ChatClient) : str := cl_base_url c ++ lit "/chat/completions".

Variable io_error : str.
Variable server : list HttpRequest -> Reply.
Variable epoch : list HttpRequest -> Z.
Variable opens : list HttpRequest -> bool.
Variable disk : Z -> bool.
Variable gz_write gz_finish : list (list Z) -> list (list Z).
(** The pieces in which serde_json writes a request. *)
Variable json_pieces : ChatCompletionRequest -> list (list Z).
(** How long the request took, by the number of requests sent. *)
Variable elapsed : list HttpRequest -> Z.

Definition send_json (c : ChatClient) (rq : ChatCompletionRequest) (sid : option str) (n : Net) :=
  encode_and_send io_error server epoch opens c disk gz_write gz_finish (completions_url c) (json_pieces rq) sid n.

(** The non-streaming [ChatClient::complete]; [parse_response] also counts the
    choices. *)
Definition chat_complete_once {R} (parse_response : str -> ProtoError + R) (choices : R -> nat)
    (c : ChatClient) (messages : list WireMessage) (opts : CompleteOpts) (n : Net)
  : option (ProtoError + R) * Net :=
  match send_json c (once_request c messages opts) (op_session_id opts) n with
  | (None, n) => (None, n)
  | (Some (inl (e, _, _)), n) => (Some (inl e), n)
  | (Some (inr (r, _, _)), n) =>
      (Some (match parse_response (rs_text r) with
             | inl e => inl e
             | inr parsed => if (choices parsed =? 0)%nat then inl PEmptyChoices else inr parsed
             end), n)
  end.

(** The items of a response. *)
Definition response_items (r : Response) : list Arrival := arrivals (rs_body r) sse_new fuser_new.

(** [ChatModel::complete]: [zero] replays so far, [total] retries so far,
    [reported] of them told to the sink. *)
Definition report (total reported : Z) : list StreamEvent := if reported <? total then [EvRetry total] else [].

Fixpoint complete_loop (fuel : nat) (c : ChatClient) (rq : ChatCompletionRequest) (opts : CompleteOpts) (tag : option str)
    (zero total reported : Z) (n : Net) : list StreamEvent * option (ModelError + ModelResponse) * Net :=
  match fuel with
  | O => ([], None, n)
  | S fuel =>
      match send_json c rq (op_session_id opts) n with
      | (None, n) => ([], None, n)
      | (Some (inl (e, wire_retries, payload)), n) =>
          ([EvPayload (json_bytes payload) (wire_bytes payload)],
           Some (inl (MkModelError e (sat_add 32 total wire_retries))), n)
      | (Some (inr (r, wire_retries, payload)), n) =>
          let total := sat_add 32 total wire_retries in
          let head := [EvPayload (json_bytes payload) (wire_bytes payload); EvHeaders (elapsed (net_sent n))]
                      ++ report total reported in
          let reported := Z.max reported total in
          let again :=
            let zero := zero + 1 in
            let total := sat_add 32 total 1 in
            let '(evs, out, n) := complete_loop fuel c rq opts tag zero total (Z.max reported total)
                                    (sleep n (ZERO_SEMANTIC_STREAM_RETRY_BASE_DELAY * zero)) in
            (report total reported ++ evs, out, n) in
          let '(body, result) := consume_stream (response_items r) (op_idle_timeout opts) tag total consumed_new in
          match result with
          | inl failure =>
              if is_retryable_without_semantic_output failure && (zero <? MAX_ZERO_SEMANTIC_STREAM_RETRIES)
              then let '(evs, out, n) := again in (head ++ body ++ evs, out, n)
              else (head ++ body, Some (inl (sa_error failure)), n)
          | inr response =>
              if is_empty_stream_end response && (zero <? MAX_ZERO_SEMANTIC_STREAM_RETRIES)
              then let '(evs, out, n) := again in (head ++ body ++ evs, out, n)
              else (head ++ body,
                    Some (inr (MkResponse (mr_text response) (mr_reasoning response) (mr_tool_calls response)
                                 (mr_finish_reason response) (mr_usage response) total)), n)
          end
      end
  end.

Definition chat_complete (c : ChatClient) (messages : list WireMessage) (opts : CompleteOpts) (tools : list Tool) (n : Net) :=
  complete_loop (S (Z.to_nat MAX_ZERO_SEMANTIC_STREAM_RETRIES)) c (stream_request c messages opts tools) opts
    (Some (lit "think")) 0 0 0 n.

(** ** Lemmas: polling *)

(** What a stream still has to give. *)
Definition remaining (s : EventStream) : list Arrival :=
  map (Item ∘ inr) (es_pending s) ++ if es_done s then [] else arrivals (es_body s) (es_dec s) (es_fuser s).

Lemma poll_body_spec body : forall dec f a s,
  poll_body body dec f = (a, s) ->
  match a with
  | Some a => arrivals body dec f = a :: remaining s
  | None => arrivals body dec f = []
  end.
Proof.
  induction body as [|[bytes|text|] body IH]; intros dec f a s; cbn [poll_body arrivals].
  - destruct (sse_finish parse_chunk dec) as [chunks d]. cbn [fst].
    destruct (absorb chunks f []) as [[[e|] f1] pending].
    + intros [= <- <-]. unfold remaining. cbn. by rewrite app_nil_r.
    + destruct (fuser_finish json_error f1) as [evs f2]. unfold pop_pending. cbn [es_pending fst].
      destruct (pending ++ evs) as [|ev l]; intros [= <- <-]; [done|]. unfold remaining. cbn. by rewrite app_nil_r.
  - destruct (sse_feed parse_chunk dec bytes) as [chunks d]. destruct (absorb chunks f []) as [[[e|] f1] pending].
    + intros [= <- <-]. unfold remaining. cbn. by rewrite app_nil_r.
    + destruct pending as [|ev pending]; cbn [is_nil map app].
      * destruct (is_nil bytes); [apply IH|]. intros [= <- <-]. done.
      * intros [= <- <-]. done.
  - intros [= <- <-]. done.
  - intros [= <- <-]. done.
Qed.

Lemma poll_next_spec s a s' :
  poll_next s = (a, s') ->
  match a with Some a => remaining s = a :: remaining s' | None => remaining s = [] end.
Proof.
  unfold poll_next, pop_pending. destruct s as [body dec f [|ev pending] done_]; cbn.
  - destruct done_; [by intros [= <- <-]|]. intros E. apply poll_body_spec in E. exact E.
  - by intros [= <- <-].
Qed.

(** Polling gives the arrivals, one by one, and then ends. *)
Lemma poll_all_spec fuel : forall s, poll_all fuel s = take fuel (remaining s).
Proof.
  induction fuel as [|fuel IH]; intros s; [done|]. cbn [poll_all]. destruct (poll_next s) as [a s'] eqn:E.
  apply poll_next_spec in E. destruct a as [a|]; rewrite E; [by rewrite IH|done].
Qed.

(** ** Lemmas: the events of a body *)

Definition semantic_event (ev : AgentStreamEvent) : bool := match ev with TransportActivity => false | _ => true end.
Definition semantic_item (a : Arrival) : bool :=
  match a with Item (inr ev) => semantic_event ev | Item (inl _) => true | Stalled => false end.

Lemma fuser_semantic f c evs f' : fuser_apply json_error f c = (evs, f') -> Forall (fun ev => semantic_event ev = true) evs.
Proof.
  assert (forall l f, Forall (fun ev => semantic_event ev = true) (fst (apply_choices json_error f l))) as Hl.
  { induction l as [|ch l IH]; intros g; [constructor|]. cbn [apply_choices].
    assert (Forall (fun ev => semantic_event ev = true) (fst (apply_choice json_error g ch))) as H1.
    { assert (Forall (fun ev => semantic_event ev = true) (choice_events ch)) as Hc.
      { unfold choice_events, text_event. rewrite !list.Forall_app. split_and!.
        - destruct (d_content _) as [t|]; [|constructor]. destruct (is_nil t); repeat constructor.
        - destruct (d_reasoning_content _) as [t|]; [|destruct (d_reasoning _) as [t|]]; try destruct (is_nil t); repeat constructor.
        - apply list.Forall_fmap, list.Forall_true. intros d. unfold progress_event. cbn. by destruct (tcd_function d). }
      unfold apply_choice, flush. destruct (ch_finish_reason ch); [|exact Hc]. cbn [fu_finished].
      destruct (fu_finished g); cbn [fst]; [by rewrite app_nil_r|].
      rewrite !list.Forall_app. split; [done|]. split; [|by repeat constructor].
      apply list.Forall_fmap, list.Forall_true. by intros []. }
    destruct (apply_choice json_error g ch) as [o g1]. specialize (IH g1). destruct (apply_choices json_error g1 l) as [os g2].
    by apply list.Forall_app. }
  unfold fuser_apply. specialize (Hl (ck_choices c) f). destruct (apply_choices json_error f (ck_choices c)) as [out g].
  intros [= <- <-]. apply list.Forall_app. split; [|done]. destruct (ck_usage c); repeat constructor.
Qed.

Lemma finish_semantic f : Forall (fun ev => semantic_event ev = true) (fst (fuser_finish json_error f)).
Proof.
  unfold fuser_finish, flush. destruct (fu_finished f); [constructor|]. cbn [fst].
  apply list.Forall_app. split; [|by repeat constructor]. apply list.Forall_fmap, list.Forall_true. by intros [].
Qed.

(** Chunks without an error: their events, in order. *)
Lemma absorb_ok cs : forall f pending,
  absorb (map inr cs) f pending
  = let '(evs, f') := fuser_applies json_error f cs in (None, f', pending ++ evs).
Proof.
  induction cs as [|c cs IH]; intros f pending; cbn [map absorb fuser_applies]; [by rewrite app_nil_r|].
  destruct (fuser_apply json_error f c) as [evs f1]. rewrite IH. destruct (fuser_applies json_error f1 cs).
  by rewrite app_assoc.
Qed.

Lemma fuser_applies_app a b : forall f,
  fuser_applies json_error f (a ++ b)
  = let '(x, f1) := fuser_applies json_error f a in let '(y, f2) := fuser_applies json_error f1 b in (x ++ y, f2).
Proof.
  induction a as [|c a IH]; intros f; cbn [app fuser_applies]; [by destruct (fuser_applies json_error f b)|].
  destruct (fuser_apply json_error f c) as [evs f1]. rewrite IH. destruct (fuser_applies json_error f1 a) as [x f2].
  destruct (fuser_applies json_error f2 b). by rewrite app_assoc.
Qed.

Lemma applies_semantic cs : forall f, Forall (fun ev => semantic_event ev = true) (fst (fuser_applies json_error f cs)).
Proof.
  induction cs as [|c cs IH]; intros f; [constructor|]. cbn [fuser_applies].
  destruct (fuser_apply json_error f c) as [evs f1] eqn:E. apply fuser_semantic in E. specialize (IH f1).
  destruct (fuser_applies json_error f1 cs). by apply list.Forall_app.
Qed.

Lemma filter_semantic evs : Forall (fun ev => semantic_event ev = true) evs ->
  List.filter semantic_item (map (Item ∘ inr) evs) = map (Item ∘ inr) evs.
Proof. induction 1 as [|ev evs H _ IH]; [done|]. cbn. by rewrite H, IH. Qed.

(** The bytes of a body. *)
Definition body_pieces (body : list BodyPoll) : list (list Z) :=
  omap (fun p => match p with BytesPoll b => Some b | _ => None end) body.
Definition no_transport_error (body : list BodyPoll) : Prop := forall t, ErrPoll t ∉ body.

Lemma no_transport_tail p body : no_transport_error (p :: body) -> no_transport_error body.
Proof. intros He t Ht. apply (He t). by apply list_elem_of_further. Qed.
Lemma no_transport_head t body : ~ no_transport_error (ErrPoll t :: body).
Proof. intros He. apply (He t). apply list_elem_of_here. Qed.

Lemma map_inr_app {X A} (l1 l2 : list (X + A)) cs : l1 ++ l2 = map inr cs ->
  exists a b, cs = a ++ b /\ l1 = map inr a /\ l2 = map inr b.
Proof.
  revert cs. induction l1 as [|x l1 IH]; intros cs E; [by exists [], cs|].
  destruct cs as [|c cs]; [done|]. injection E as -> E. destruct (IH cs E) as (a & b & -> & -> & ->).
  by exists (c :: a), b.
Qed.

(** A body whose chunks all parse. *)
Lemma arrivals_ok body : forall dec f cs,
  no_transport_error body ->
  (let '(out, d) := sse_feeds parse_chunk dec (body_pieces body) in out ++ fst (sse_finish parse_chunk d)) = map inr cs ->
  let '(evs, f') := fuser_applies json_error f cs in
  List.filter semantic_item (arrivals body dec f) = map (Item ∘ inr) (evs ++ fst (fuser_finish json_error f')).
Proof.
  induction body as [|[bytes|text|] body IH]; intros dec f cs He; cbn [body_pieces omap list_omap sse_feeds arrivals].
  - cbn [app]. intros ->. rewrite absorb_ok. pose proof (applies_semantic cs f).
    destruct (fuser_applies json_error f cs) as [evs f1]. cbn [fst app] in *. apply filter_semantic.
    apply list.Forall_app. split; [done|apply finish_semantic].
  - fold (body_pieces body). destruct (sse_feed parse_chunk dec bytes) as [out d].
    destruct (sse_feeds parse_chunk d (body_pieces body)) as [outs d2] eqn:E. rewrite <- app_assoc. intros Ho.
    apply map_inr_app in Ho as (a & b & -> & -> & Hb). rewrite absorb_ok, fuser_applies_app.
    pose proof (applies_semantic a f) as Sa. destruct (fuser_applies json_error f a) as [x f1]. cbn [fst app] in *.
    specialize (IH d f1 b). rewrite E in IH. specialize (IH (no_transport_tail _ _ He) Hb).
    destruct (fuser_applies json_error f1 b) as [y f2]. rewrite List.filter_app, IH, <- app_assoc, !map_app. f_equal.
    destruct x as [|ev x]; cbn [is_nil]; [by destruct (is_nil bytes)|]. by apply filter_semantic.
  - by apply no_transport_head in He.
  - fold (body_pieces body). intros Ho. cbn [List.filter semantic_item]. apply IH; [|done].
    by eapply no_transport_tail.
Qed.

(** Every non-empty piece is noticed. *)
Lemma arrivals_live body : forall dec f,
  (forall x, Item (inl x) ∉ arrivals body dec f) ->
  (length (List.filter (fun b => negb (is_nil b)) (body_pieces body)) <= length (arrivals body dec f))%nat.
Proof.
  induction body as [|[bytes|text|] body IH]; intros dec f He; cbn [body_pieces omap list_omap arrivals] in *; [cbn; lia| | |].
  - fold (body_pieces body). cbn [List.filter]. destruct (sse_feed parse_chunk dec bytes) as [out d].
    destruct (absorb out f []) as [[[e|] f1] pending]; [exfalso; apply (He e); apply list_elem_of_here|].
    assert (forall x, Item (inl x) ∉ arrivals body d f1) as He2.
    { intros x Hx. apply (He x). apply elem_of_app. by right. }
    specialize (IH d f1 He2). rewrite length_app.
    destruct pending as [|ev pending]; cbn [is_nil]; destruct (is_nil bytes); cbn [negb length map] in *; lia.
  - exfalso. apply (He (PHttp text)). apply list_elem_of_here.
  - fold (body_pieces body). cbn [length]. specialize (IH dec f). etrans; [apply IH|lia].
    intros x Hx. apply (He x). by apply list_elem_of_further.
Qed.

(** ** Lemmas: what a stream leaves *)

Definition consume_events (evs : list AgentStreamEvent) (st : Consumed) : list StreamEvent * Consumed :=
  fold_left (fun p ev => let '(out, st) := consume_event p.2 ev in (p.1 ++ out, st)) evs ([], st).

Lemma consume_events_acc evs : forall out st,
  fold_left (fun p ev => let '(out, st) := consume_event p.2 ev in (p.1 ++ out, st)) evs (out, st)
  = (out ++ (consume_events evs st).1, (consume_events evs st).2).
Proof.
  unfold consume_events. induction evs as [|ev evs IH]; intros out st; cbn [fold_left fst snd]; [by rewrite app_nil_r|].
  destruct (consume_event st ev) as [o st1]. cbn [app]. rewrite (IH (out ++ o)), (IH o). cbn [fst snd]. by rewrite app_assoc.
Qed.

Lemma consume_events_cons ev evs st :
  consume_events (ev :: evs) st
  = let '(o, st1) := consume_event st ev in (o ++ (consume_events evs st1).1, (consume_events evs st1).2).
Proof.
  unfold consume_events at 1. cbn [fold_left fst snd]. destruct (consume_event st ev) as [o st1]. cbn [app].
  apply consume_events_acc.
Qed.

Definition not_transport (e : StreamEvent) : bool := match e with EvTransport => false | _ => true end.

(** Items without an error and without a stall that counts. *)
Lemma consume_items_ok items : forall idle tag retries st evs,
  (idle = None \/ Stalled ∉ items) -> List.filter semantic_item items = map (Item ∘ inr) evs ->
  let '(out, st') := consume_events evs st in
  exists out', consume_stream items idle tag retries st = (out', inr (response_of tag retries st'))
    /\ List.filter not_transport out' = List.filter not_transport out.
Proof.
  induction items as [|[[e|ev]|] items IH]; intros idle tag retries st evs Hi; cbn [List.filter semantic_item consume_stream].
  - destruct evs; [|done]. intros _. cbn. by exists [].
  - by destruct evs.
  - assert (idle = None \/ Stalled ∉ items) as Hi2.
    { destruct Hi as [Hi|Hi]; [by left|right]. intros H. apply Hi. by apply list_elem_of_further. }
    destruct (semantic_event ev) eqn:Es.
    + destruct evs as [|ev' evs]; [done|]. intros [= <- E]. rewrite consume_events_cons.
      destruct (consume_event st ev) as [o st1]. specialize (IH idle tag retries st1 evs Hi2 E).
      destruct (consume_events evs st1) as [out st']. destruct IH as (out' & -> & Ho). cbn [fst snd].
      exists (o ++ out'). split; [done|]. by rewrite !List.filter_app, Ho.
    + destruct ev; try done. intros E. cbn [consume_event]. specialize (IH idle tag retries st evs Hi2 E).
      destruct (consume_events evs st) as [out st']. destruct IH as (out' & -> & Ho). exists ([EvTransport] ++ out').
      split; [done|]. cbn. exact Ho.
  - intros E. destruct Hi as [->|Hi]; [apply IH; [by left|done]|]. exfalso. apply Hi. apply list_elem_of_here.
Qed.

Lemma arrivals_no_stall body : forall dec f, StallPoll ∉ body -> Stalled ∉ arrivals body dec f.
Proof.
  assert (forall evs, Stalled ∉ map (Item ∘ inr) evs) as Hm.
  { intros evs H. apply list_elem_of_fmap in H as (? & ? & _). done. }
  assert (forall x l, Stalled ∉ l -> Stalled ∉ Item x :: l) as Hc.
  { intros x l Hl H. apply elem_of_cons in H as [H|H]; done. }
  induction body as [|[bytes|text|] body IH]; intros dec f Hs; cbn [arrivals].
  - destruct (absorb _ f []) as [[[e|] f1] pending]; [apply Hc|]; apply Hm.
  - destruct (sse_feed parse_chunk dec bytes) as [chunks d]. destruct (absorb chunks f []) as [[[e|] f1] pending]; [apply Hc, Hm|].
    intros H. apply elem_of_app in H as [H|H].
    + destruct (is_nil pending); [|by apply Hm in H]. destruct (is_nil bytes); [by apply elem_of_nil in H|].
      by apply list_elem_of_singleton in H.
    + revert H. apply IH. intros H. apply Hs. by apply list_elem_of_further.
  - apply Hc. apply not_elem_of_nil.
  - exfalso. apply Hs. apply list_elem_of_here.
Qed.

(** ** Lemmas: what the sink saw *)

Definition shown (evs : list StreamEvent) : str := concat (omap (fun e => match e with EvText t => Some t | _ => None end) evs).
Definition thought (evs : list StreamEvent) : str := concat (omap (fun e => match e with EvReasoning t => Some t | _ => None end) evs).
Definition started (evs : list StreamEvent) : list ToolCall := omap (fun e => match e with EvToolStart c => Some c | _ => None end) evs.
Definition good_calls (l : list AgentSink.FinalizedToolCall) : list ToolCall :=
  omap (fun c => match c with FCall c => Some c | _ => None end) l.

Lemma shown_app a b : shown (a ++ b) = shown a ++ shown b.
Proof. unfold shown. by rewrite omap_app, concat_app. Qed.
Lemma thought_app a b : thought (a ++ b) = thought a ++ thought b.
Proof. unfold thought. by rewrite omap_app, concat_app. Qed.
Lemma started_app a b : started (a ++ b) = started a ++ started b.
Proof. apply omap_app. Qed.
Lemma good_calls_app a b : good_calls (a ++ b) = good_calls a ++ good_calls b.
Proof. apply omap_app. Qed.

(** One event: the locals follow what the sink saw. *)
Lemma consume_event_shown st ev out st' : consume_event st ev = (out, st') ->
  cs_text st' = cs_text st ++ shown out /\ cs_reasoning st' = cs_reasoning st ++ thought out
  /\ good_calls (cs_calls st') = good_calls (cs_calls st) ++ started out
  /\ (cs_semantic st' = false -> cs_semantic st = false /\ shown out = [] /\ thought out = [] /\ started out = []).
Proof.
  destruct ev; cbn; intros [= <- <-]; cbn; rewrite ?good_calls_app, ?app_nil_r; split_and!; try done.
  all: intros H; apply orb_false_iff in H as [H1 H2]; split_and!; try done; by destruct t.
Qed.

Lemma consume_shown items : forall idle tag retries st out r,
  consume_stream items idle tag retries st = (out, r) ->
  match r with
  | inr resp => exists st', resp = response_of tag retries st' /\ cs_text st' = cs_text st ++ shown out
      /\ cs_reasoning st' = cs_reasoning st ++ thought out
      /\ good_calls (cs_calls st') = good_calls (cs_calls st) ++ started out
  | inl e => sa_semantic e = false -> cs_semantic st = false /\ shown out = [] /\ thought out = [] /\ started out = []
  end.
Proof.
  induction items as [|[[e|ev]|] items IH]; intros idle tag retries st out r; cbn [consume_stream].
  - intros [= <- <-]. exists st. cbn. by rewrite !app_nil_r.
  - intros [= <- <-]. cbn. done.
  - destruct (consume_event st ev) as [o st1] eqn:E. apply consume_event_shown in E as (E1 & E2 & E3 & E4).
    destruct (consume_stream items idle tag retries st1) as [outs r'] eqn:F. intros [= <- <-]. specialize (IH _ _ _ _ _ _ F).
    destruct r' as [e|resp].
    + intros Hs. destruct (IH Hs) as (S1 & S2 & S3 & S4). destruct (E4 S1) as (S5 & S6 & S7 & S8).
      rewrite shown_app, thought_app, started_app, S2, S3, S4, S6, S7, S8. done.
    + destruct IH as (st' & -> & I1 & I2 & I3). exists st'.
      rewrite shown_app, thought_app, started_app, I1, I2, I3, E1, E2, E3, !app_assoc. done.
  - destruct idle as [d|]; [|apply IH]. intros [= <- <-]. done.
Qed.

(** Nothing of an attempt that is replayed was more than white space: not its
    text, not the reasoning between tags in it, not its reasoning. *)
Definition blank_round (tag : option str) (evs : list StreamEvent) : Prop :=
  started evs = [] /\ (exists text, strip_reasoning_tag (shown evs) tag = (text, None) /\ blank text) /\ blank (thought evs).

(** The reasoning that is found between tags is not blank. *)
Lemma tag_reasoning_full text tag r : (strip_reasoning_tag text tag).2 = Some r -> ~ blank r.
Proof.
  destruct tag as [tag|]; [|done]. unfold strip_reasoning_tag. destruct (negb _); [done|].
  destruct (strip_loop _ _ _ _ _ _) as [clean reasoning]. cbn [snd]. destruct (is_nil (trim reasoning)) eqn:E; [done|].
  intros [= <-]. rewrite <- trim_nil, <- is_nil_true. congruence.
Qed.

Lemma empty_end_blank tag retries st :
  is_empty_stream_end (response_of tag retries st) = true ->
  cs_calls st = [] /\ (exists text, strip_reasoning_tag (cs_text st) tag = (text, None) /\ blank text) /\ blank (cs_reasoning st).
Proof.
  unfold is_empty_stream_end, response_of. destruct (strip_reasoning_tag (cs_text st) tag) as [text tr] eqn:Et.
  cbn [mr_finish_reason mr_text mr_reasoning mr_tool_calls fst]. rewrite !andb_true_iff, !is_nil_true.
  intros (((_ & H1) & H2) & H3). apply trim_nil in H1. destruct tr as [t|].
  - destruct (tag_reasoning_full (cs_text st) tag t); [by rewrite Et|].
    destruct (is_nil (cs_reasoning st)); cbn [blank_opt] in H2; rewrite is_nil_true, trim_nil in H2; [done|].
    unfold blank in *. apply list.Forall_app in H2 as [_ H2]. by apply list.Forall_cons in H2 as [_ H2].
  - split_and!; [done|by exists text|]. destruct (is_nil (cs_reasoning st)) eqn:En;
      [apply is_nil_true in En; rewrite En; apply blank_nil|].
    cbn [blank_opt] in H2. by rewrite is_nil_true, trim_nil in H2.
Qed.

Lemma empty_shown a b c d total reported : shown ([EvPayload a b; EvHeaders c] ++ report total reported ++ d) = shown d
  /\ thought ([EvPayload a b; EvHeaders c] ++ report total reported ++ d) = thought d
  /\ started ([EvPayload a b; EvHeaders c] ++ report total reported ++ d) = started d.
Proof. unfold report. by destruct (reported <? total). Qed.
Lemma report_shown total reported d : shown (d ++ report total reported) = shown d
  /\ thought (d ++ report total reported) = thought d /\ started (d ++ report total reported) = started d.
Proof. rewrite shown_app, thought_app, started_app. unfold report. destruct (reported <? total); cbn; by rewrite !app_nil_r. Qed.

Lemma find_sub_nil p : p <> [] -> find_sub [] p = None.
Proof. destruct p; [done|]. by intros _. Qed.

Lemma strip_nil tag : strip_reasoning_tag [] tag = ([], None).
Proof. by destruct tag as [tag|]. Qed.

(** The final attempt, as the caller and the sink see it. *)
Definition final_agrees (tag : option str) (final : list StreamEvent) (out : ModelError + ModelResponse) : Prop :=
  match out with
  | inr r => mr_text r = (strip_reasoning_tag (shown final) tag).1 /\ good_calls (mr_tool_calls r) = started final
  | inl _ => True
  end.

Lemma complete_loop_rounds fuel c rq opts tag : forall zero total reported n,
  (Z.to_nat (MAX_ZERO_SEMANTIC_STREAM_RETRIES - zero) < fuel)%nat ->
  exists rounds final out n',
    complete_loop fuel c rq opts tag zero total reported n = (concat rounds ++ final, Some out, n')
    /\ (length rounds < fuel)%nat /\ Forall (blank_round tag) rounds /\ final_agrees tag final out.
Proof.
  induction fuel as [|fuel IH]; intros zero total reported n Hf; [lia|]. cbn [complete_loop].
  pose proof (encode_and_send_some io_error server epoch opens c disk gz_write gz_finish (completions_url c)
                (json_pieces rq) (op_session_id opts) n) as Hs. fold (send_json c rq (op_session_id opts) n) in Hs.
  destruct (send_json c rq (op_session_id opts) n) as [[[[[e k] payload]|[[r k] payload]]|] n1]; cbn [fst] in Hs; [| |by destruct Hs].
  { eexists [], _, _, _. cbn. split_and!; try done. lia. }
  destruct (consume_stream _ _ _ _ _) as [body result] eqn:Ec. apply consume_shown in Ec.
  set (head := _ ++ report _ _). set (z := sat_add 32 total k) in *.
  assert (forall d, shown (head ++ d) = shown d /\ thought (head ++ d) = thought d /\ started (head ++ d) = started d) as Hh.
  { intros d. unfold head. rewrite <- app_assoc. apply empty_shown. }
  assert (zero <? MAX_ZERO_SEMANTIC_STREAM_RETRIES = true -> blank_round tag (head ++ body) ->
          exists rounds final out n',
            (let '(evs, out, n) := (let '(evs, out, n) := complete_loop fuel c rq opts tag (zero + 1) (sat_add 32 z 1)
                  (Z.max (Z.max reported z) (sat_add 32 z 1))
                  (sleep n1 (ZERO_SEMANTIC_STREAM_RETRY_BASE_DELAY * (zero + 1))) in
                (report (sat_add 32 z 1) (Z.max reported z) ++ evs, out, n)) in (head ++ body ++ evs, out, n))
              = (concat rounds ++ final, Some out, n')
            /\ (length rounds < S fuel)%nat /\ Forall (blank_round tag) rounds /\ final_agrees tag final out) as Again.
  { intros Hz Hb. destruct (IH (zero + 1) (sat_add 32 z 1) (Z.max (Z.max reported z) (sat_add 32 z 1))
      (sleep n1 (ZERO_SEMANTIC_STREAM_RETRY_BASE_DELAY * (zero + 1)))) as (rounds & final & out & n' & -> & L & F & A); [lia|].
    exists ((head ++ body ++ report (sat_add 32 z 1) (Z.max reported z)) :: rounds), final, out, n'.
    split_and!; [cbn [concat]; by rewrite <- !app_assoc|cbn; lia| |done]. constructor; [|done].
    rewrite app_assoc. destruct (report_shown (sat_add 32 z 1) (Z.max reported z) (head ++ body)) as (E1 & E2 & E3).
    unfold blank_round in *. by rewrite E1, E2, E3. }
  destruct result as [failure|response].
  - destruct (is_retryable_without_semantic_output failure) eqn:Er; cbn [andb]; [destruct (zero <? _) eqn:Ez|].
    + apply Again; [done|]. unfold is_retryable_without_semantic_output in Er. apply andb_true_iff in Er as [Er _].
      apply negb_true_iff in Er. destruct (Ec Er) as (_ & S1 & S2 & S3).
      unfold blank_round. destruct (Hh body) as (-> & -> & ->). rewrite S1, S2, S3, strip_nil. split_and!; [done|by exists []|done].
    + eexists [], _, _, _. cbn. split_and!; try done. lia.
    + eexists [], _, _, _. cbn. split_and!; try done. lia.
  - destruct Ec as (st' & -> & C1 & C2 & C3). cbn [consumed_new cs_text cs_reasoning cs_calls app good_calls omap list_omap] in C1, C2, C3.
    assert (forall d, final_agrees tag (head ++ body) (inr (MkResponse (mr_text (response_of tag z st')) (mr_reasoning (response_of tag z st'))
              (mr_tool_calls (response_of tag z st')) (mr_finish_reason (response_of tag z st')) (mr_usage (response_of tag z st')) d))) as Hfin.
    { intros d. unfold final_agrees, response_of. destruct (Hh body) as (-> & _ & ->). rewrite C1.
      destruct (strip_reasoning_tag (shown body) tag) as [text tr]. cbn. by split. }
    destruct (is_empty_stream_end _) eqn:Ee; cbn [andb]; [destruct (zero <? _) eqn:Ez|].
    + apply Again; [done|]. apply empty_end_blank in Ee as (E1 & E2 & E3). unfold blank_round.
      destruct (Hh body) as (-> & -> & ->). rewrite <- C1, <- C2, <- C3, E1. by split_and!.
    + eexists [], _, _, _. split_and!; [done|cbn; lia|constructor|apply Hfin].
    + eexists [], _, _, _. split_and!; [done|cbn; lia|constructor|apply Hfin].
Qed.

(** ** Lemmas: reasoning tags *)

(** A pattern that starts with a character which does not occur before it. *)
Lemma find_sub_fresh s c p r : c ∉ s -> find_sub (s ++ (c :: p) ++ r) (c :: p) = Some (length s).
Proof.
  intros Hc. destruct (find_sub (s ++ (c :: p) ++ r) (c :: p)) as [n|] eqn:E.
  - apply find_sub_first in E as (a & b & E & Hn & Hm). specialize (Hm s r eq_refl).
    destruct (decide (n = length s)) as [->|Hne]; [done|]. exfalso. apply Hc.
    apply (list_elem_of_lookup_2 s n). assert ((s ++ (c :: p) ++ r) !! n = Some c) as H.
    { rewrite E, lookup_app_r by lia. by rewrite Hn, Nat.sub_diag. }
    rewrite lookup_app_l in H by lia. exact H.
  - exfalso. by apply (find_sub_None _ _ E s r).
Qed.

Lemma find_sub_absent s c p : c ∉ s -> find_sub s (c :: p) = None.
Proof.
  intros Hc. destruct (find_sub s (c :: p)) as [n|] eqn:E; [|done]. apply find_sub_Some in E as [r E]. exfalso. apply Hc.
  rewrite E. apply elem_of_app. right. apply list_elem_of_here.
Qed.

Definition tagged (open close : str) (segs : list (str * str)) : str :=
  concat (map (fun p => p.1 ++ open ++ p.2 ++ close) segs).

Lemma strip_loop_tagged c p q s fuel : c ∉ s -> forall segs clean reasoning,
  Forall (fun x => c ∉ x.1 /\ c ∉ x.2) segs -> (length segs <= fuel)%nat ->
  strip_loop fuel (c :: p) (c :: q) (tagged (c :: p) (c :: q) segs ++ s) clean reasoning
  = (clean ++ concat (map fst segs) ++ s, reasoning ++ concat (map snd segs)).
Proof.
  intros Hs. induction fuel as [|fuel IH]; intros [|[x r] segs] clean reasoning Hf Hl; try (cbn in Hl; lia).
  - cbn. by rewrite app_nil_r.
  - cbn [tagged map concat app strip_loop]. rewrite find_sub_absent by done. by rewrite app_nil_r.
  - apply list.Forall_cons in Hf as [[Hx Hr] Hf]. cbn [tagged map concat fst snd]. fold (tagged (c :: p) (c :: q) segs).
    set (t := tagged (c :: p) (c :: q) segs) in *. rewrite <- !app_assoc. cbn [strip_loop].
    rewrite find_sub_fresh by done. rewrite take_app_length.
    assert (drop (length x + length (c :: p)) (x ++ (c :: p) ++ r ++ (c :: q) ++ t ++ s) = r ++ (c :: q) ++ t ++ s) as ->.
    { rewrite app_assoc, <- length_app. apply drop_app_length. }
    rewrite find_sub_fresh by done. rewrite take_app_length.
    assert (drop (length r + length (c :: q)) (r ++ (c :: q) ++ t ++ s) = t ++ s) as ->.
    { rewrite app_assoc, <- length_app. apply drop_app_length. }
    unfold t. rewrite IH by (try done; cbn in Hl; lia). by rewrite <- !app_assoc.
Qed.

Lemma tagged_length c p close l : (length l <= length (tagged (c :: p) close l))%nat.
Proof.
  induction l as [|[a b] l IH]; [done|]. unfold tagged in *. cbn [map concat fst snd length].
  rewrite !length_app. cbn [length]. lia.
Qed.

(** ** Properties *)

(** reasoning that a model puts between tags in its text.  If neither the
    text nor the reasoning has a [<] of its own, stripping the tags gives back
    the text without them and the reasoning, all of both and in order; blank
    reasoning counts as none. *)
Theorem strip_round_trip tag segs s :
  Forall (fun x => 60 ∉ x.1 /\ 60 ∉ x.2) segs -> 60 ∉ s ->
  strip_reasoning_tag (tagged (lit "<" ++ tag ++ lit ">") (lit "</" ++ tag ++ lit ">") segs ++ s) (Some tag)
  = (concat (map fst segs) ++ s,
     if is_nil (trim (concat (map snd segs))) then None else Some (concat (map snd segs))).
Proof.
  intros Hf Hs. unfold strip_reasoning_tag. change (lit "<" ++ tag ++ lit ">") with (60 :: (tag ++ lit ">")).
  change (lit "</" ++ tag ++ lit ">") with (60 :: (lit "/" ++ tag ++ lit ">")).
  set (q := lit "/" ++ tag ++ lit ">"). set (p := tag ++ lit ">").
  destruct segs as [|[x r] segs].
  - cbn [tagged map concat app]. unfold contains. by rewrite find_sub_absent.
  - assert (contains (tagged (60 :: p) (60 :: q) ((x, r) :: segs) ++ s) (60 :: p) = true) as ->.
    { apply contains_spec. cbn [tagged map concat fst snd]. rewrite <- !app_assoc. by do 2 eexists. }
    cbn [negb]. rewrite strip_loop_tagged; [done|done|done|].
    rewrite length_app. pose proof (tagged_length 60 p (60 :: q) ((x, r) :: segs)). lia.
Qed.

(** C11: the response does not depend on how the network cuts the body.  If no
    transport error breaks the body, no stall counts, and every chunk parses,
    then whatever the pieces, the heartbeats between them and the pauses, the
    sink sees the same events (transport activity aside) and the assembled
    response is the same, a function of the parsed chunks alone; and each
    non-empty piece is noticed, so that a stream with heartbeats is not taken
    for a stalled one. *)
Theorem response_independent_of_cuts body cs idle tag retries :
  no_transport_error body -> (idle = None \/ StallPoll ∉ body) ->
  (sse_run parse_chunk [concat (body_pieces body)]).1 = map inr cs ->
  let items := arrivals body sse_new fuser_new in
  let '(events, st) := consume_events (fuser_run json_error cs) consumed_new in
  poll_all (S (length items)) (event_stream_new body) = items
  /\ (exists out, consume_stream items idle tag retries consumed_new = (out, inr (response_of tag retries st))
        /\ List.filter not_transport out = List.filter not_transport events)
  /\ (length (List.filter (fun b => negb (is_nil b)) (body_pieces body)) <= length items)%nat.
Proof.
  intros He Hi Hc items.
  assert (sse_run parse_chunk [concat (body_pieces body)] = sse_run parse_chunk (body_pieces body)) as E1
    by (rewrite !sse_run_spec; cbn [concat]; by rewrite app_nil_r).
  rewrite E1 in Hc. unfold sse_run in Hc.
  pose proof (arrivals_ok body sse_new fuser_new cs He) as Ha.
  destruct (sse_feeds parse_chunk sse_new (body_pieces body)) as [out d]. destruct (sse_finish parse_chunk d) as [outs d'].
  specialize (Ha Hc). unfold fuser_run. destruct (fuser_applies json_error fuser_new cs) as [evs f]. fold items in Ha.
  pose proof (consume_items_ok items idle tag retries consumed_new (evs ++ (fuser_finish json_error f).1)) as Hk.
  specialize (Hk ltac:(destruct Hi as [Hi|Hi]; [by left|right; by apply arrivals_no_stall]) Ha).
  destruct (consume_events _ consumed_new) as [events st]. split_and!; [|exact Hk|].
  - rewrite poll_all_spec. unfold remaining, event_stream_new. cbn [es_pending es_done es_body es_dec es_fuser map app].
    fold items. by rewrite take_ge by lia.
  - apply arrivals_live. intros x Hx. assert (Item (inl x) ∈ List.filter semantic_item items) as H.
    { apply list_elem_of_In, filter_In. by rewrite <- list_elem_of_In. }
    rewrite Ha in H. apply list_elem_of_fmap in H as (? & ? & _). done.
Qed.

(** C9: what one call of the model does, whatever the server answers.  It
    returns; it makes at most three attempts; each attempt it gives up before
    the last one had announced no tool call, and the text and the reasoning it
    had shown were nothing but white space (its tags stripped), so a replay
    calls nothing twice and repeats no visible text (white space, and tags
    around it, may be shown again: [blank_text_shown_twice]); and the response
    it returns is what the sink saw of the last attempt: the text without its
    reasoning tags, and the calls that were announced, in order. *)
Theorem replays_are_blank c messages opts tools n :
  exists rounds final out n',
    chat_complete c messages opts tools n = (concat rounds ++ final, Some out, n')
    /\ (length rounds <= 2)%nat
    /\ Forall (blank_round (Some (lit "think"))) rounds
    /\ final_agrees (Some (lit "think")) final out.
Proof.
  destruct (complete_loop_rounds 3 c (stream_request c messages opts tools) opts (Some (lit "think")) 0 0 0 n)
    as (rounds & final & out & n' & E & L & F & A); [unfold MAX_ZERO_SEMANTIC_STREAM_RETRIES; lia|].
  exists rounds, final, out, n'. split_and!; [exact E|lia|done|done].
Qed.
End ChatStream.

(** ** Concrete streams *)

Module ChatSample.
Definition text_chunk (t : str) : ChatCompletionChunk :=
  mk_chunk [] [] [mk_choice 0 (mk_delta None (Some t) None None []) None] None.
(** A payload after a bracket is a text delta, with underscores for spaces;
    anything else does not parse. *)
Definition parse (p : str) : str + ChatCompletionChunk :=
  match p with 91 :: t => inr (text_chunk (map (fun c => if c =? 95 then 32 else c) t)) | _ => inl (lit "expected value") end.
Definition json_error (s : str) : option str := None.
Definition one : list Z := sse_event (lit "[a").
Definition two : list Z := sse_event (lit "[b").
Definition bad : list Z := sse_event (lit "?").
Definition pieces : list BodyPoll := [BytesPoll (lit ": ping" ++ [10]); BytesPoll (take 4 one); StallPoll; BytesPoll (drop 4 one ++ two)].
Definition whole : list BodyPoll := [BytesPoll (one ++ two)].
Definition out (body : list BodyPoll) : list StreamEvent * (StreamAttemptError + ModelResponse) :=
  consume_stream (arrivals parse json_error body sse_new fuser_new) (Some 1) None 0 consumed_new.
(** A server whose answers are white space and then nothing. *)
Definition server (sent : list HttpRequest) : Reply :=
  Responded (mk_response 200 None [] [BytesPoll (sse_event (lit "[_"))]).
Definition asked : list StreamEvent * option (ModelError + ModelResponse) * Net :=
  chat_complete parse json_error (Tool := unit) (lit "io") server (fun _ => 0) (fun _ => true) (fun _ => true)
    (fun ps => ps) (fun _ => []) (fun _ => [lit "{}"]) (fun _ => 0) ClientSample.client []
    (mk_opts None None None None None) [] (mk_net [] [] 0 false).
End ChatSample.

Theorem strip_round_trip_witness :
  strip_reasoning_tag (lit "a<think>why</think>b") (Some (lit "think")) = (lit "ab", Some (lit "why")).
Proof.
  apply (strip_round_trip (lit "think") [(lit "a", lit "why")] (lit "b")).
  - repeat constructor; vm_compute; intros H; repeat (apply elem_of_cons in H as [H|H]; [discriminate H|]);
      by apply elem_of_nil in H.
  - vm_compute. intros H. apply elem_of_cons in H as [H|H]; [discriminate H|]. by apply elem_of_nil in H.
Defined.

Theorem response_independent_of_cuts_witness :
  exists out, consume_stream (arrivals ChatSample.parse ChatSample.json_error ChatSample.pieces sse_new fuser_new) None None 0 consumed_new
    = (out, inr (MkResponse (lit "ab") None [] (FOther (lit "stream-ended")) None 0))
    /\ (3 <= length (arrivals ChatSample.parse ChatSample.json_error ChatSample.pieces sse_new fuser_new))%nat.
Proof.
  destruct (response_independent_of_cuts ChatSample.parse ChatSample.json_error ChatSample.pieces
              [ChatSample.text_chunk (lit "a"); ChatSample.text_chunk (lit "b")] None None 0)
    as (_ & (out & E & _) & L).
  - intros t H. vm_compute in H. repeat (apply elem_of_cons in H as [H|H]; [discriminate H|]). by apply elem_of_nil in H.
  - by left.
  - vm_compute. reflexivity.
  - exists out. split; [exact E|]. etrans; [|exact L]. vm_compute. lia.
Defined.

(** An event that does not parse overtakes what came before it in the same
    piece: cut in two, the text arrives and then the error; in one piece, the
    caller gets the error and the text is lost. *)
Lemma error_overtakes_text :
  ChatSample.out [BytesPoll ChatSample.one; BytesPoll ChatSample.bad]
    = ([EvText (lit "a")], inl (mk_attempt_error (MkModelError (PJson (lit "expected value")) 0) true))
  /\ ChatSample.out [BytesPoll (ChatSample.one ++ ChatSample.bad)]
    = ([], inl (mk_attempt_error (MkModelError (PJson (lit "expected value")) 0) false)).
Proof. split; vm_compute; reflexivity. Qed.

(** White space that was shown is shown again by a replay. *)
Lemma blank_text_shown_twice :
  shown (fst (fst ChatSample.asked)) = lit "   " /\ length (net_sent (snd ChatSample.asked)) = 3%nat.
Proof. split; vm_compute; reflexivity. Qed.
