(* ===== verification/Sidecar.v ===== *)
(** The DLR sidecar and its client
    (src/integrations/dlr/crates/sidecar/src/lib.rs): the envelope of a chat
    request, the client's session ([ChatSession], [DlrChatClient]), and the
    server: the handlers, the projection cache and the request that goes to the
    gateway.

    serde_json is the class [JsonWire]; the network between client and sidecar
    is the class [SidecarNet], of which the server at the end of this file is
    an instance; zstd, the hashes, fountain degrees and the upstream gateway are
    parameters. *)

From S2P Require Import Prelude Wire Client DlrCodec DlrStore DlrGf DlrFountain DlrReceiver DlrFilter DlrCompress DlrShim.

(** ** JSON as bytes *)

Class JsonWire := {
  Json : Type;
  (** [serde_json::to_vec] and [from_slice::<Value>] *)
  jw_print : Json -> bytes;
  jw_parse : bytes -> option Json;
  jw_is_object : Json -> bool;
  (** [Map::get] and [as_str] *)
  jw_get : Json -> str -> option Json;
  jw_as_str : Json -> option str;
  (** [from_slice::<ChatMetadata>] and [from_slice::<MessageRole>] *)
  jw_metadata : bytes -> option Json;
  jw_role : bytes -> bool
}.

(** The JSON texts around the request object and before the messages. *)
Definition METADATA_OPEN : bytes := [123; 34] ++ lit "request" ++ [34; 58].
Definition MESSAGES_OPEN : bytes := [44; 34] ++ lit "messages" ++ [34; 58; 91].

Definition role_of `{JsonWire} (m : Json) : option str := v ← jw_get m (lit "role"); jw_as_str v.

(** What the code relies on. *)
Class JsonWireLaws `(JsonWire) : Prop := {
  jw_parse_print : forall v, jw_parse (jw_print v) = Some v;
  jw_bytes : forall v, bytes_ok (jw_print v);
  jw_object_end : forall v, jw_is_object v = true -> exists b, jw_print v = b ++ [125];
  jw_metadata_print : forall v, jw_metadata (METADATA_OPEN ++ jw_print v ++ [125]) = Some v;
  jw_role_print : forall v, jw_is_object v = true -> is_Some (role_of v) -> jw_role (jw_print v) = true
}.

(** ** Limits and errors *)

Definition PROTOCOL_VERSION : Z := 1.
Definition MAGIC : bytes := [68; 76; 82; 49].
Definition MAX_METADATA_BYTES : Z := 2 * 1024 * 1024.
Definition MAX_REQUEST_BYTES : Z := 64 * 1024 * 1024.
Definition PROJECTION_CHUNK_BYTES : Z := 64 * 1024.
Definition PROJECTION_CACHE_JSON_BYTES : Z := 256 * 1024 * 1024.
Definition PROJECTION_CACHE_SESSIONS : Z := 64.

Inductive SidecarError :=
| SEnvelope (text : str)
| SMetadata
| SFrame
| SReceiver (e : ReceiverError)
| SRequestNotObject
| SMessagesInMetadata
| SInvalidMessage (index : nat)
| SRequestInFlight
| SInvalidAckHeader
| SUnexpectedAckRoot
| SUnexpectedFrame
| SHttpStatus (status : Z) (message : str)
| SUpstream (text : str).

(** ** The envelope *)

Definition encode_parts (metadata frame : bytes) : res SidecarError bytes :=
  if MAX_METADATA_BYTES <? length_z metadata then Err (SEnvelope (lit "metadata exceeds 2 MiB"))
  else
    let total := 4 + 2 + 4 + length_z metadata + length_z frame in
    if MAX_REQUEST_BYTES <? total then Err (SEnvelope (lit "request exceeds 64 MiB"))
    else Ok (MAGIC ++ le_bytes 2 PROTOCOL_VERSION ++ le_bytes 4 (wrap 32 (length_z metadata)) ++ metadata ++ frame).

(** [ChatEnvelope::decode]: the request object and the frame. *)
Definition envelope_decode `{JsonWire} (body : bytes) : res SidecarError (Json * bytes) :=
  if (length body <? 10)%nat || negb (bool_decide (take 4 body = MAGIC))
  then Err (SEnvelope (lit "bad magic or truncated header"))
  else if negb (le_val (slice body 4 6) =? PROTOCOL_VERSION) then Err (SEnvelope (lit "unsupported protocol version"))
  else
    let metadata_len := le_val (slice body 6 10) in
    if MAX_METADATA_BYTES <? metadata_len then Err (SEnvelope (lit "metadata exceeds 2 MiB"))
    else
      let frame_start := 10 + metadata_len in
      if length_z body <=? frame_start then Err (SEnvelope (lit "missing frame"))
      else
        match jw_metadata (slice body 10 (Z.to_nat frame_start)) with
        | None => Err SMetadata
        | Some request => Ok (request, drop (Z.to_nat frame_start) body)
        end.

(** ** Roots in headers *)

Definition hex_digit (d : Z) : char := if d <? 10 then 48 + d else 97 + (d - 10).
Definition root_hex (root : MerkleRoot) : str :=
  concat (map (fun b => [hex_digit (Z.shiftr b 4); hex_digit (Z.land b 15)]) root).

Definition hex_nibble (c : char) : option Z :=
  if (48 <=? c) && (c <=? 57) then Some (c - 48)
  else if (97 <=? c) && (c <=? 102) then Some (c - 97 + 10)
  else if (65 <=? c) && (c <=? 70) then Some (c - 65 + 10)
  else None.
Fixpoint hex_pairs (s : str) : option (list Z) :=
  match s with
  | a :: b :: s => x ← hex_nibble a; y ← hex_nibble b; rest ← hex_pairs s; Some (Z.lor (Z.shiftl x 4) y :: rest)
  | _ => Some []
  end.
Definition parse_root_hex (value : str) : option MerkleRoot :=
  if negb (byte_len value =? 64) then None else hex_pairs value.

Definition constant_time_eq (left right : bytes) : bool :=
  if negb (length left =? length right)%nat then false
  else fold_left (fun diff p => Z.lor diff (Z.lxor p.1 p.2)) (zip left right) 0 =? 0.

Section Sidecar.
Context `{JsonWire} {zstd : Zstd}.
Variable blake3 : bytes -> bytes.
Variable xxh3 : bytes -> Z.

Definition session_id_from_key (key : str) : Z := le_val (take 16 (blake3 (utf8 key))).

(** ** Messages *)

Definition validate_message_object (m : Json) (index : nat) : res SidecarError unit :=
  match role_of m with None => Err (SInvalidMessage index) | Some _ => Ok tt end.

Definition validate_request_value (request : Json) : res SidecarError unit :=
  if negb (jw_is_object request) then Err SRequestNotObject
  else if bool_decide (is_Some (jw_get request (lit "messages"))) then Err SMessagesInMetadata
  else Ok tt.

Definition message_kind (m : Json) : BlockKind :=
  match role_of m with
  | Some r =>
      if str_eqb r (lit "system") || str_eqb r (lit "developer") then System
      else if str_eqb r (lit "tool") then ToolResult
      else if str_eqb r (lit "assistant") && bool_decide (is_Some (jw_get m (lit "tool_calls"))) then ToolCall
      else Message
  | None => Message
  end.

(** The new messages, checked and serialized. *)
Fixpoint serialize_messages (index : nat) (ms : list Json) : res SidecarError (list (BlockKind * bytes)) :=
  match ms with
  | [] => Ok []
  | m :: ms =>
      if negb (jw_is_object m) then Err (SInvalidMessage index)
      else
        let? _ := validate_message_object m index in
        let? rest := serialize_messages (S index) ms in Ok ((message_kind m, jw_print m) :: rest)
  end.

(** The blocks of a turn, numbered from [seq]. *)
Fixpoint number_blocks (seq : Z) (l : list (BlockKind * bytes)) : list Block :=
  match l with
  | [] => []
  | (kind, payload) :: l => mk_block kind seq payload :: number_blocks (sat_add 64 seq 1) l
  end.

(** ** The client's session *)

Record PreparedChatRequest := mk_prepared {
  pr_body : bytes;
  pr_expected_root : MerkleRoot;
  pr_request_json_bytes : Z;
  pr_new_messages_json_bytes : Z
}.

Record ChatSession := mk_chat_session {
  ch_parts : SharedParts;
  ch_shim : SessionShim;
  ch_next_seq : Z;
  ch_pending_root : option MerkleRoot
}.

(** [ChatSession::new], with the filter that [SessionShim::new] makes. *)
Definition chat_session_with (f : CuckooFilter) (session_key : str) : ChatSession :=
  mk_chat_session (mk_shared store_new f) (shim_with_filter (session_id_from_key session_key) compressor_default) 1 None.

(** [prepare_ref] *)
Definition prepare_ref (s : ChatSession) (new_messages : list Json) (request : Json)
  : ChatSession * res SidecarError PreparedChatRequest :=
  match ch_pending_root s with
  | Some _ => (s, Err SRequestInFlight)
  | None =>
      if negb (jw_is_object request) then (s, Err SRequestNotObject)
      else if bool_decide (is_Some (jw_get request (lit "messages"))) then (s, Err SMessagesInMetadata)
      else
        match serialize_messages 0 new_messages with
        | Err e => (s, Err e)
        | Panic => (s, Panic)
        | Ok serialized =>
            match validate_request_value request with
            | Err e => (s, Err e)
            | Panic => (s, Panic)
            | Ok _ =>
                let request_json := jw_print request in
                let metadata := METADATA_OPEN ++ request_json ++ [125] in
                if MAX_METADATA_BYTES <? length_z metadata then (s, Err (SEnvelope (lit "metadata exceeds 2 MiB")))
                else
                  let worst_case_size :=
                    fold_left (fun size x => size + 39 + length_z x.2) serialized (10 + length_z metadata + 53) in
                  if MAX_REQUEST_BYTES <? worst_case_size then (s, Err (SEnvelope (lit "request exceeds 64 MiB")))
                  else
                    let new_bytes := fold_left (fun n x => n + length_z x.2) serialized 0 in
                    let blocks := number_blocks (ch_next_seq s) serialized in
                    let seq := fold_left (fun seq _ => sat_add 64 seq 1) serialized (ch_next_seq s) in
                    let '(parts, shim, append) := ingest_turn blake3 xxh3 (ch_parts s) (ch_shim s) blocks in
                    let expected_root := sh_root shim in
                    match encode_parts metadata (encode_frame (FAppend append)) with
                    | Err e => (mk_chat_session parts shim seq None, Err e)
                    | Panic => (mk_chat_session parts shim seq None, Panic)
                    | Ok body =>
                        (mk_chat_session parts shim seq (Some expected_root),
                         Ok (mk_prepared body expected_root (length_z request_json) new_bytes))
                    end
            end
        end
  end.

Definition chat_apply_ack (s : ChatSession) (root : MerkleRoot) : ChatSession * bool :=
  let '(shim, applied) := apply_ack blake3 (ch_shim s) root in
  (mk_chat_session (ch_parts s) shim (ch_next_seq s)
     (if applied && bool_decide (ch_pending_root s = Some root) then None else ch_pending_root s), applied).

Definition has_pending_request (s : ChatSession) : bool := bool_decide (is_Some (ch_pending_root s)).

(** ** The client on the network *)

(** The sidecar's answers: to a chat request a response, perhaps with an
    acknowledged root in its headers; to a frame a status and a body. *)
Record ChatReply := mk_chat_reply { cr_ack : option str; cr_response : Response }.
Record FrameReply := mk_frame_reply { fr_status : Z; fr_body : bytes; fr_text : str }.

(** What the client uses of the network: a request to each of the two
    endpoints, which fails with the text of a transport error. *)
Class SidecarNet (N : Type) := {
  net_chat : N -> bytes -> N * (str + ChatReply);
  net_frame : N -> bytes -> N * (str + FrameReply);
  (** the capability probe: whether it succeeds, or what went wrong *)
  net_probe : N -> N * (str + unit)
}.

Context {N : Type} {net : SidecarNet N}.
Variable cpu : Cpu.
Variable soliton_point : nat -> Z -> nat.
Variable repair_count : nat -> Z -> nat.

(** [send_chat]: the acknowledgement in the headers is applied. *)
Definition send_chat (n : N) (s : ChatSession) (p : PreparedChatRequest)
  : N * ChatSession * res SidecarError Response :=
  match net_chat n (pr_body p) with
  | (n, inl text) => (n, s, Err (SUpstream text))
  | (n, inr reply) =>
      match cr_ack reply with
      | None => (n, s, Ok (cr_response reply))
      | Some value =>
          match parse_root_hex value with
          | None => (n, s, Err SInvalidAckHeader)
          | Some root =>
              if negb (bool_decide (root = pr_expected_root p)) then (n, s, Err SUnexpectedAckRoot)
              else
                let '(s, applied) := chat_apply_ack s root in
                if negb applied then (n, s, Err SUnexpectedAckRoot) else (n, s, Ok (cr_response reply))
          end
      end
  end.

Definition exchange_frame (n : N) (frame : bytes) : N * res SidecarError (option Frame) :=
  match net_frame n frame with
  | (n, inl text) => (n, Err (SUpstream text))
  | (n, inr reply) =>
      (n, if fr_status reply =? 204 then Ok None
          else if negb (is_success (fr_status reply)) then Err (SHttpStatus (fr_status reply) (fr_text reply))
          else match decode_frame (fr_body reply) with
               | Ok f => Ok (Some f)
               | Err _ => Err SFrame
               | Panic => Panic
               end)
  end.

Definition apply_protocol_ack (s : ChatSession) (ack : AckFrame) : ChatSession * res SidecarError unit :=
  if negb (ack_session ack =? sh_session (ch_shim s)) then (s, Err SUnexpectedAckRoot)
  else
    let '(s, applied) := chat_apply_ack s (ack_root ack) in
    (s, if applied then Ok tt else Err SUnexpectedAckRoot).

(** The bulk frames, one exchange each; the last acknowledgement counts. *)
Fixpoint exchange_all (n : N) (frames : list BulkFrame) (completion : option AckFrame)
  : N * res SidecarError (option AckFrame) :=
  match frames with
  | [] => (n, Ok completion)
  | f :: frames =>
      match exchange_frame n (encode_frame (FBulk f)) with
      | (n, Ok (Some (FAck ack))) => exchange_all n frames (Some ack)
      | (n, Ok _) => exchange_all n frames completion
      | (n, Err e) => (n, Err e)
      | (n, Panic) => (n, Panic)
      end
  end.

Definition synchronize (n : N) (s : ChatSession) (repair_margin_pct : Z) : N * ChatSession * res SidecarError unit :=
  match exchange_frame n (encode_frame (FResync (resync_frame (ch_shim s)))) with
  | (n, Err e) => (n, s, Err e)
  | (n, Panic) => (n, s, Panic)
  | (n, Ok (Some (FAck ack))) => let '(s, r) := apply_protocol_ack s ack in (n, s, r)
  | (n, Ok (Some (FMissing missing))) =>
      if negb (m_session missing =? sh_session (ch_shim s)) then (n, s, Err SUnexpectedFrame)
      else
        match bulk_frames_for cpu soliton_point repair_count (ch_parts s) (ch_shim s) (m_missing missing) repair_margin_pct with
        | Err _ => (n, s, Err SFrame)
        | Panic => (n, s, Panic)
        | Ok frames =>
            match exchange_all n frames None with
            | (n, Err e) => (n, s, Err e)
            | (n, Panic) => (n, s, Panic)
            | (n, Ok None) => (n, s, Err SUnexpectedFrame)
            | (n, Ok (Some ack)) => let '(s, r) := apply_protocol_ack s ack in (n, s, r)
            end
        end
  | (n, Ok _) => (n, s, Err SUnexpectedFrame)
  end.
End Sidecar.

(** ** The projection of a session *)

Record CachedChatProjection := mk_projection {
  pj_root : MerkleRoot;
  pj_message_count : Z;
  pj_chunks : list bytes;
  pj_json_bytes : Z
}.

Record ChatProjectionCache := mk_cache {
  pc_entries : gmap Z CachedChatProjection;
  pc_lru : list Z;
  pc_json_bytes : Z
}.
Definition cache_new : ChatProjectionCache := mk_cache ∅ [] 0.

Definition retain_others (sid : Z) (lru : list Z) : list Z := List.filter (fun id => negb (id =? sid)) lru.

Definition cache_touch (c : ChatProjectionCache) (sid : Z) : ChatProjectionCache :=
  mk_cache (pc_entries c) (retain_others sid (pc_lru c) ++ [sid]) (pc_json_bytes c).

Definition cache_get (c : ChatProjectionCache) (sid : Z) (root : MerkleRoot)
  : ChatProjectionCache * option CachedChatProjection :=
  match pc_entries c !! sid with
  | Some p => if bool_decide (pj_root p = root) then (cache_touch c sid, Some p) else (c, None)
  | None => (c, None)
  end.

Definition cache_remove (c : ChatProjectionCache) (sid : Z) : ChatProjectionCache :=
  mk_cache (delete sid (pc_entries c)) (retain_others sid (pc_lru c))
    (match pc_entries c !! sid with
     | Some p => sat_sub (pc_json_bytes c) (pj_json_bytes p) | None => pc_json_bytes c end).

(** The eviction loop of [insert], oldest first. *)
Fixpoint evict_loop (entries : gmap Z CachedChatProjection) (lru : list Z) (json_bytes incoming : Z)
  : ChatProjectionCache :=
  if bool_decide (entries = ∅)
     || negb ((PROJECTION_CACHE_SESSIONS <=? Z.of_nat (size entries))
              || (PROJECTION_CACHE_JSON_BYTES <? sat_add 64 json_bytes incoming))
  then mk_cache entries lru json_bytes
  else
    match lru with
    | [] => mk_cache entries [] json_bytes
    | oldest :: lru =>
        match entries !! oldest with
        | Some evicted => evict_loop (delete oldest entries) lru (sat_sub json_bytes (pj_json_bytes evicted)) incoming
        | None => evict_loop entries lru json_bytes incoming
        end
    end.

Definition cache_insert (c : ChatProjectionCache) (sid : Z) (p : CachedChatProjection) : ChatProjectionCache :=
  let c := cache_remove c sid in
  let c := evict_loop (pc_entries c) (pc_lru c) (pc_json_bytes c) (pj_json_bytes p) in
  mk_cache (<[sid := p]> (pc_entries c)) (pc_lru c ++ [sid]) (sat_add 64 (pc_json_bytes c) (pj_json_bytes p)).

(** The locals of [append_projection_payloads]. *)
Record Assembly := mk_assembly {
  as_chunks : list bytes; as_count : Z; as_json_bytes : Z; as_pending : bytes }.

Definition flush_pending (a : Assembly) : list bytes :=
  if is_nil (as_pending a) then as_chunks a else as_chunks a ++ [as_pending a].

Definition append_payload (a : Assembly) (payload : bytes) : Assembly :=
  let comma := if 0 <? as_count a then [44] else [] in
  let json_bytes := sat_add 64 (sat_add 64 (as_json_bytes a) (length_z comma)) (length_z payload) in
  let combined_len := sat_add 64 (length_z comma) (length_z payload) in
  if combined_len <=? PROJECTION_CHUNK_BYTES then
    if PROJECTION_CHUNK_BYTES <? sat_add 64 (length_z (as_pending a)) combined_len
    then mk_assembly (as_chunks a ++ [as_pending a]) (sat_add 64 (as_count a) 1) json_bytes (comma ++ payload)
    else mk_assembly (as_chunks a) (sat_add 64 (as_count a) 1) json_bytes (as_pending a ++ comma ++ payload)
  else mk_assembly (flush_pending a ++ (if is_nil comma then [] else [comma]) ++ [payload])
         (sat_add 64 (as_count a) 1) json_bytes [].

Definition append_projection_payloads (p : CachedChatProjection) (payloads : list bytes) : CachedChatProjection :=
  let a := fold_left append_payload payloads
             (mk_assembly (pj_chunks p) (pj_message_count p) (pj_json_bytes p) []) in
  mk_projection (pj_root p) (as_count a) (flush_pending a) (as_json_bytes a).

Section Server.
Context `{JsonWire} {codec : Codec}.
Variable blake3 : bytes -> bytes.

Definition validate_serialized_message (payload : bytes) (index : nat) : res SidecarError unit :=
  if jw_role payload then Ok tt else Err (SInvalidMessage index).

Fixpoint validate_all (index : nat) (bs : list Block) : res SidecarError unit :=
  match bs with
  | [] => Ok tt
  | b :: bs => let? _ := validate_serialized_message (b_payload b) index in validate_all (S index) bs
  end.

(** [Receiver::reconstruct_range] *)
Definition receiver_reconstruct_range (r : Receiver) (sid from to : Z) : res unit (list Block) :=
  match rc_sessions r !! sid with
  | Some _ => reconstruct_range (rc_store r) sid from to
  | None => Ok []
  end.

Definition extend_or_reconstruct_projection (r : Receiver) (sid : Z) (root : MerkleRoot)
    (cached : option CachedChatProjection) : res SidecarError CachedChatProjection :=
  let len := session_len (rc_store r) sid in
  match cached with
  | Some p =>
      if pj_message_count p <=? len then
        match receiver_reconstruct_range r sid (pj_message_count p) len with
        | Ok additions =>
            if negb (length_z additions =? sat_sub len (pj_message_count p))
            then Err (SEnvelope (lit "session projection is incomplete"))
            else
              let p := if is_nil additions then p else append_projection_payloads p (map b_payload additions) in
              Ok (mk_projection root (pj_message_count p) (pj_chunks p) (pj_json_bytes p))
        | _ => Panic
        end
      else
        let blocks := receiver_reconstruct r sid in
        let? _ := validate_all 0 blocks in
        Ok (append_projection_payloads (mk_projection root 0 [] 0) (map b_payload blocks))
  | None =>
      let blocks := receiver_reconstruct r sid in
      let? _ := validate_all 0 blocks in
      Ok (append_projection_payloads (mk_projection root 0 [] 0) (map b_payload blocks))
  end.

(** [reconstruct_request_body]: the bytes sent to the gateway and the length
    announced for them. *)
Definition reconstruct_request_body (r : Receiver) (sid : Z) (request : Json) (root : MerkleRoot)
    (cached : option CachedChatProjection) : res SidecarError (bytes * Z * CachedChatProjection) :=
  if negb (jw_is_object request) then Err SRequestNotObject
  else if bool_decide (is_Some (jw_get request (lit "messages"))) then Err SMessagesInMetadata
  else
    match rev (jw_print request) with
    | 125 :: rest =>
        let prefix := rev rest ++ MESSAGES_OPEN in
        let? p := extend_or_reconstruct_projection r sid root cached in
        Ok (prefix ++ concat (pj_chunks p) ++ [93; 125],
            sat_add 64 (sat_add 64 (length_z prefix) (pj_json_bytes p)) 2, p)
    | _ => Err SRequestNotObject
    end.

(** ** The handlers *)

(** [validate_chat_append]: every block of the frame is a message object. *)
Fixpoint validate_blocks (r : Receiver) (inline : gmap BlockId Block) (index : nat) (l : list FrameBlock)
  : res SidecarError unit :=
  match l with
  | [] => Ok tt
  | fb :: l =>
      let? (block, inline) :=
        match fb with
        | Inline wb =>
            match DlrReceiver.decompress (b_payload wb) with
            | None => Err SFrame
            | Some canonical =>
                match from_canonical_owned blake3 canonical with
                | Ok (block, id) => Ok (block, <[id := block]> inline)
                | Err _ => Err SFrame
                | Panic => Panic
                end
            end
        | Ref id =>
            match store_get (rc_store r) id with
            | Some b => Ok (b, inline)
            | None => match inline !! id with Some b => Ok (b, inline) | None => Err (SReceiver EMissingRef) end
            end
        end in
      match jw_parse (b_payload block) with
      | None => Err SMetadata
      | Some value =>
          if negb (jw_is_object value) then Err (SInvalidMessage index)
          else let? _ := validate_message_object value index in validate_blocks r inline (S index) l
      end
  end.
Definition validate_chat_append (r : Receiver) (f : AppendFrame) : res SidecarError unit :=
  validate_blocks r ∅ 0 (a_blocks f).

Record SidecarState := mk_sidecar {
  sc_receiver : Receiver;
  sc_ingress_token : option str;
  sc_cache : ChatProjectionCache;
  (** the requests sent to the gateway: body and announced length *)
  sc_upstream : list (bytes * Z)
}.

Definition sidecar_new (store : ContentStore) (token : option str) : SidecarState :=
  mk_sidecar (receiver_new store) token cache_new [].

(** The token of a request against the one expected. *)
Definition authorized (s : SidecarState) (header : option str) : bool :=
  match sc_ingress_token s with
  | None => true
  | Some expected =>
      match header with
      | None => false
      | Some actual => constant_time_eq (utf8 actual) (utf8 expected)
      end
  end.

Variable say : SidecarError -> str.
(** How a flush of the log ends, and what the gateway answers. *)
Variable flush : SidecarState -> res IoError unit.
Variable gateway : list (bytes * Z) -> str + Response.

Definition error_response (status : Z) (text : str) : Response := mk_response status None text [].
Definition chat_error (status : Z) (e : SidecarError) : ChatReply := mk_chat_reply None (error_response status (say e)).

Definition receiver_status (e : ReceiverError) : Z :=
  match e with EBaseRootMismatch _ _ _ | EColdStartInProgress _ | EMissingRef => 409 | _ => 400 end.

Definition set_receiver (s : SidecarState) (r : Receiver) : SidecarState :=
  mk_sidecar r (sc_ingress_token s) (sc_cache s) (sc_upstream s).
Definition set_cache (s : SidecarState) (c : ChatProjectionCache) : SidecarState :=
  mk_sidecar (sc_receiver s) (sc_ingress_token s) c (sc_upstream s).

(** The flush after a handler: the new state and whether it succeeded. *)
Definition flush_log (s : SidecarState) : SidecarState * res IoError unit :=
  let '(store, r) := flush_wal (rc_store (sc_receiver s)) (flush s) in
  (set_receiver s (set_store (sc_receiver s) store), r).

(** The request goes upstream; the gateway's answer is passed on with the
    acknowledged root. *)
Definition forward (s : SidecarState) (body : bytes) (len : Z) (root : MerkleRoot) : SidecarState * ChatReply :=
  let sent := sc_upstream s ++ [(body, len)] in
  (mk_sidecar (sc_receiver s) (sc_ingress_token s) (sc_cache s) sent,
   mk_chat_reply (Some (root_hex root))
     (match gateway sent with inl text => error_response 502 text | inr response => response end)).

Definition CONNECTION_CLOSED : str := lit "connection closed".

(** [chat_completions].  A panic ends the connection. *)
Definition chat_completions (s : SidecarState) (token : option str) (body : bytes) : SidecarState * (str + ChatReply) :=
  if negb (authorized s token) then (s, inr (mk_chat_reply None (error_response 401 (lit "invalid sidecar token"))))
  else
    match envelope_decode body with
    | Err e => (s, inr (chat_error 400 e))
    | Panic => (s, inl CONNECTION_CLOSED)
    | Ok (request, frame) =>
        match validate_request_value request with
        | Err e => (s, inr (chat_error 400 e))
        | Panic => (s, inl CONNECTION_CLOSED)
        | Ok _ =>
            match decode_frame frame with
            | Ok (FAppend f) =>
                match validate_chat_append (sc_receiver s) f with
                | Err e => (s, inr (chat_error 400 e))
                | Panic => (s, inl CONNECTION_CLOSED)
                | Ok _ =>
                    let sid := a_session f in
                    let '(cache, cached) := cache_get (sc_cache s) sid (a_base f) in
                    let s := set_cache s cache in
                    match handle_append blake3 (sc_receiver s) f with
                    | (r, Err e) => (set_receiver s r, inr (chat_error (receiver_status e) (SReceiver e)))
                    | (r, Panic) => (set_receiver s r, inl CONNECTION_CLOSED)
                    | (r, Ok ack) =>
                        match flush_log (set_receiver s r) with
                        | (s, Ok _) =>
                            match reconstruct_request_body (sc_receiver s) sid request (ack_root ack) cached with
                            | Err e => (s, inr (chat_error 400 e))
                            | Panic => (s, inl CONNECTION_CLOSED)
                            | Ok (request_body, request_len, projection) =>
                                let '(s, reply) := forward (set_cache s (cache_insert (sc_cache s) sid projection))
                                                   request_body request_len (ack_root ack) in
                                (s, inr reply)
                            end
                        | (s, _) => (s, inr (mk_chat_reply None (error_response 500 (lit "durability"))))
                        end
                    end
                end
            | Ok _ => (s, inr (mk_chat_reply None (error_response 400 (lit "chat endpoint requires APPEND"))))
            | Err _ => (s, inr (chat_error 400 SFrame))
            | Panic => (s, inl CONNECTION_CLOSED)
            end
        end
    end.

Definition frame_session_id (f : Frame) : Z :=
  match f with
  | FAppend f => a_session f | FResync f => r_session f | FBulk f => k_session f
  | FAck f => ack_session f | FMissing f => m_session f
  end.

(** [handle_frame]: the generic endpoint, which drops the session's cached
    projection. *)
Definition sidecar_frame (s : SidecarState) (token : option str) (body : bytes) : SidecarState * (str + FrameReply) :=
  let refuse status text := inr (mk_frame_reply status [] text) in
  if negb (authorized s token) then (s, refuse 401 (lit "invalid sidecar token"))
  else
    match decode_frame body with
    | Ok f =>
        let s := set_cache s (cache_remove (sc_cache s) (frame_session_id f)) in
        match handle_frame blake3 (sc_receiver s) f with
        | (r, Ok response) =>
            match flush_log (set_receiver s r) with
            | (s, Ok _) => (s, match response with
                               | Some f => inr (mk_frame_reply 200 (encode_frame f) [])
                               | None => refuse 204 []
                               end)
            | (s, _) => (s, refuse 500 (lit "durability"))
            end
        | (r, Err e) => (set_receiver s r, refuse (receiver_status e) (say (SReceiver e)))
        | (r, Panic) => (set_receiver s r, inl CONNECTION_CLOSED)
        end
    | Err _ => (s, refuse 400 (say SFrame))
    | Panic => (s, inl CONNECTION_CLOSED)
    end.

(** [readyz] *)
Definition readyz (s : SidecarState) : SidecarState * Z :=
  match flush_log s with (s, Ok _) => (s, 200) | (s, _) => (s, 503) end.

(** A client with this token, connected to the sidecar directly. *)
Variable client_token : option str.
#[export] Instance direct_net : SidecarNet SidecarState := {|
  net_chat s body := chat_completions s client_token body;
  net_frame s body := sidecar_frame s client_token body;
  net_probe s := (s, inr tt)
|}.
End Server.

(** ** Lemmas: the envelope *)

Lemma le_val_two : le_val (le_bytes 2 PROTOCOL_VERSION) = PROTOCOL_VERSION.
Proof. done. Qed.

Lemma slice_app_mid (a b c : bytes) i j : length a = i -> (i + length b = j)%nat -> slice (a ++ b ++ c) i j = b.
Proof. intros <- <-. unfold slice. rewrite drop_app_length. replace (length a + length b - length a)%nat with (length b) by lia. apply take_app_length. Qed.

Lemma envelope_decode_parts `{JsonWireLaws} v frame body :
  encode_parts (METADATA_OPEN ++ jw_print v ++ [125]) frame = Ok body -> frame <> [] ->
  envelope_decode body = Ok (v, frame).
Proof.
  unfold encode_parts. set (metadata := METADATA_OPEN ++ _). intros E Hf.
  destruct (MAX_METADATA_BYTES <? length_z metadata) eqn:E1; [done|].
  destruct (_ <? _) in E; [done|].
  assert (body = MAGIC ++ le_bytes 2 PROTOCOL_VERSION ++ le_bytes 4 (wrap 32 (length_z metadata)) ++ metadata ++ frame) as Hb by congruence.
  clear E. apply Z.ltb_ge in E1.
  assert (0 <= length_z metadata < 2 ^ 32) as Hl by (unfold MAX_METADATA_BYTES, length_z in *; lia).
  assert (wrap 32 (length_z metadata) = length_z metadata) as W by (by apply wrap_small). rewrite W in Hb.
  set (len := le_bytes 4 (length_z metadata)). assert (length len = 4%nat) as Ll by apply length_le_bytes.
  fold len in Hb. unfold envelope_decode.
  assert (body = (MAGIC ++ le_bytes 2 PROTOCOL_VERSION) ++ len ++ (metadata ++ frame)) as B1 by (rewrite Hb; by rewrite <- !app_assoc).
  assert (body = (MAGIC ++ le_bytes 2 PROTOCOL_VERSION ++ len) ++ metadata ++ frame) as B2 by (rewrite Hb; by rewrite <- !app_assoc).
  assert (length (MAGIC ++ le_bytes 2 PROTOCOL_VERSION ++ len) = 10%nat) as L10 by (rewrite !length_app, Ll; done).
  assert (length body = (10 + length metadata + length frame)%nat) as Lb by (rewrite B2, !length_app in *; lia).
  assert ((length body <? 10)%nat = false) as -> by (apply Nat.ltb_ge; lia). cbn [orb].
  assert (take 4 body = MAGIC) as -> by (by rewrite Hb). rewrite bool_decide_eq_true_2 by done. cbn [negb].
  assert (slice body 4 6 = le_bytes 2 PROTOCOL_VERSION) as -> by (by rewrite Hb). rewrite le_val_two. cbn [Z.eqb negb].
  assert (slice body 6 10 = len) as -> by (rewrite B1; apply slice_app_mid; [done|by rewrite Ll]).
  unfold len. rewrite le_val_bytes by exact Hl. assert ((MAX_METADATA_BYTES <? length_z metadata) = false) as -> by (apply Z.ltb_ge; lia).
  assert (0 < length frame)%nat by (destruct frame; [done|cbn; lia]).
  assert ((length_z body <=? 10 + length_z metadata) = false) as -> by (apply Z.leb_gt; unfold length_z; lia).
  replace (Z.to_nat (10 + length_z metadata)) with (10 + length metadata)%nat by (unfold length_z; lia).
  assert (slice body 10 (10 + length metadata) = metadata) as -> by (rewrite B2; by apply slice_app_mid).
  unfold metadata at 1. rewrite jw_metadata_print. do 2 f_equal.
  rewrite B2, app_assoc. apply drop_app_length'. rewrite length_app, L10. done.
Qed.

(** ** Lemmas: hexadecimal roots *)

Lemma hex_nibble_digit d : 0 <= d < 16 -> hex_nibble (hex_digit d) = Some d.
Proof.
  intros Hd. assert (d = 0 \/ d = 1 \/ d = 2 \/ d = 3 \/ d = 4 \/ d = 5 \/ d = 6 \/ d = 7 \/ d = 8 \/ d = 9 \/ d = 10
    \/ d = 11 \/ d = 12 \/ d = 13 \/ d = 14 \/ d = 15) as H by lia. by repeat destruct H as [-> | H]; [..|subst].
Qed.

Lemma hex_byte b : is_byte b -> 0 <= Z.shiftr b 4 < 16 /\ 0 <= Z.land b 15 < 16 /\ Z.lor (Z.shiftl (Z.shiftr b 4) 4) (Z.land b 15) = b.
Proof.
  unfold is_byte. intros Hb. rewrite Z.shiftr_div_pow2 by lia. change 15 with (Z.ones 4). rewrite Z.land_ones by lia.
  split; [change (2 ^ 4) with 16; zlia|]. split; [apply Z.mod_pos_bound; lia|].
  apply Z.bits_inj'. intros i Hi. rewrite Z.lor_spec. change (2 ^ 4) with (2 ^ 4).
  destruct (Z_lt_dec i 4).
  - rewrite Z.shiftl_spec_low, Z.mod_pow2_bits_low by lia. done.
  - rewrite Z.mod_pow2_bits_high by lia. rewrite orb_false_r, Z.shiftl_spec_high by lia.
    rewrite <- Z.shiftr_div_pow2, Z.shiftr_spec by lia. f_equal. lia.
Qed.

Lemma hex_digit_ascii d : 0 <= d < 16 -> len_utf8 (hex_digit d) = 1.
Proof. intros Hd. unfold hex_digit, len_utf8. destruct (d <? 10) eqn:E; rewrite (proj2 (Z.ltb_lt _ _)) by lia; done. Qed.

Lemma root_hex_spec root : bytes_ok root ->
  hex_pairs (root_hex root) = Some root /\ byte_len (root_hex root) = 2 * length_z root.
Proof.
  unfold length_z. induction 1 as [|b root Hb _ [IH1 IH2]]; [done|]. destruct (hex_byte b Hb) as (H1 & H2 & H3).
  unfold root_hex in *. cbn [map concat app hex_pairs byte_len length].
  rewrite !hex_nibble_digit by done. cbn [mbind option_bind]. rewrite IH1. cbn [mbind option_bind].
  rewrite H3, IH2, !hex_digit_ascii by done. split; [done|lia].
Qed.

Lemma parse_root_hex_spec root : id_ok root -> parse_root_hex (root_hex root) = Some root.
Proof.
  intros [Hl Hb]. destruct (root_hex_spec root Hb) as [H1 H2]. unfold parse_root_hex, length_z in *. by rewrite H2, Hl.
Qed.

Lemma constant_time_eq_spec a b : constant_time_eq a b = true <-> a = b.
Proof.
  unfold constant_time_eq. destruct (length a =? length b)%nat eqn:E; cbn [negb].
  2: { split; [done|]. intros ->. by rewrite Nat.eqb_refl in E. }
  apply Nat.eqb_eq in E. rewrite Z.eqb_eq.
  assert (forall l acc, fold_left (fun diff (p : Z * Z) => Z.lor diff (Z.lxor p.1 p.2)) l acc = 0
            <-> acc = 0 /\ Forall (fun p => p.1 = p.2) l) as F.
  { induction l as [|p l IH]; intros acc; cbn [fold_left]; [split; [by intros ->|by intros [-> _]]|].
    rewrite IH, list.Forall_cons, Z.lor_eq_0_iff, Z.lxor_eq_0_iff. tauto. }
  rewrite F. clear F. split.
  - intros [_ H]. revert b E H. induction a as [|x a IH]; intros [|y b] E H; try done. cbn in E, H.
    apply list.Forall_cons in H as [Hx H]. cbn in Hx. f_equal; [done|]. apply IH; [lia|done].
  - intros <-. split; [done|]. clear E. induction a; cbn; constructor; done.
Qed.

(** ** Lemmas: the projection cache *)

(** The bytes of the entries on the list. *)
Definition pj_size (entries : gmap Z CachedChatProjection) (sid : Z) : Z :=
  default 0 (pj_json_bytes <$> entries !! sid).
Definition pj_sum (entries : gmap Z CachedChatProjection) (lru : list Z) : Z :=
  foldr (fun sid n => pj_size entries sid + n) 0 lru.

(** The list and the map name the same sessions, and the total is theirs. *)
Definition cache_wf (c : ChatProjectionCache) : Prop :=
  NoDup (pc_lru c)
  /\ (forall sid, sid ∈ pc_lru c <-> is_Some (pc_entries c !! sid))
  /\ pc_json_bytes c = pj_sum (pc_entries c) (pc_lru c)
  /\ (forall sid p, pc_entries c !! sid = Some p -> 0 <= pj_json_bytes p).

(** The limits: the sessions, and the bytes unless one entry alone has more. *)
Definition cache_within (c : ChatProjectionCache) : Prop :=
  length_z (pc_lru c) <= PROJECTION_CACHE_SESSIONS
  /\ (pc_json_bytes c <= PROJECTION_CACHE_JSON_BYTES \/ length (pc_lru c) = 1%nat).

Lemma retain_others_spec sid lru x : x ∈ retain_others sid lru <-> x ∈ lru /\ x <> sid.
Proof.
  unfold retain_others. rewrite !list_elem_of_In, filter_In. split; intros [H1 H2]; (split; [done|]); lia.
Qed.

Lemma retain_others_none sid lru : sid ∉ lru -> retain_others sid lru = lru.
Proof.
  induction lru as [|x lru IH]; [done|]. rewrite not_elem_of_cons. intros [H1 H2]. cbn.
  rewrite (proj2 (Z.eqb_neq _ _)) by done. cbn. f_equal. by apply IH.
Qed.

Lemma retain_others_nodup sid lru : NoDup lru -> NoDup (retain_others sid lru).
Proof. rewrite !NoDup_ListNoDup. apply List.NoDup_filter. Qed.

Lemma pj_sum_cons e x lru : pj_sum e (x :: lru) = pj_size e x + pj_sum e lru.
Proof. done. Qed.

Lemma pj_sum_ext e e' lru : (forall x, x ∈ lru -> e !! x = e' !! x) -> pj_sum e lru = pj_sum e' lru.
Proof.
  induction lru as [|x lru IH]; intros H; [done|]. rewrite !pj_sum_cons. unfold pj_size.
  rewrite (H x) by apply list_elem_of_here. rewrite IH; [done|]. intros y Hy. apply H. by apply list_elem_of_further.
Qed.

Lemma pj_sum_app e a b : pj_sum e (a ++ b) = pj_sum e a + pj_sum e b.
Proof. induction a as [|x a IH]; [done|]. cbn [app]. rewrite !pj_sum_cons. lia. Qed.

Lemma pj_sum_retain e sid lru : NoDup lru ->
  pj_sum e (retain_others sid lru) = pj_sum e lru - (if bool_decide (sid ∈ lru) then pj_size e sid else 0).
Proof.
  induction 1 as [|x lru Hx Hl IH]; [done|]. destruct (bool_decide_reflect (sid ∈ x :: lru)) as [E|E].
  - apply elem_of_cons in E as [E|E].
    + subst x. cbn [retain_others List.filter]. rewrite Z.eqb_refl. cbn [negb]. fold (retain_others sid lru).
      rewrite retain_others_none, pj_sum_cons by done. lia.
    + rewrite bool_decide_eq_true_2 in IH by done. cbn [retain_others List.filter].
      rewrite (proj2 (Z.eqb_neq x sid)) by congruence. cbn [negb]. rewrite !pj_sum_cons. fold (retain_others sid lru). lia.
  - apply not_elem_of_cons in E as [E1 E2]. rewrite retain_others_none; [lia|]. by apply not_elem_of_cons.
Qed.

Lemma pj_sum_nonneg e lru : (forall sid p, e !! sid = Some p -> 0 <= pj_json_bytes p) -> 0 <= pj_sum e lru.
Proof.
  intros H. induction lru as [|x lru IH]; [done|]. rewrite pj_sum_cons. unfold pj_size.
  destruct (e !! x) eqn:E; cbn; [apply H in E|]; lia.
Qed.

Lemma cache_size c : cache_wf c -> size (pc_entries c) = length (pc_lru c).
Proof.
  intros (Hn & Hd & _). rewrite <- size_dom, <- (size_list_to_set (C := gset Z) _ Hn). f_equal.
  apply leibniz_equiv. intros x. rewrite elem_of_dom, elem_of_list_to_set. symmetry. apply Hd.
Qed.

Lemma cache_touch_wf c sid : cache_wf c -> is_Some (pc_entries c !! sid) ->
  cache_wf (cache_touch c sid) /\ length (pc_lru (cache_touch c sid)) = length (pc_lru c).
Proof.
  intros W Hs. assert (cache_wf (cache_touch c sid)) as W'.
  { destruct W as (Hn & Hd & Hj & Hp). split_and!.
    - apply list.NoDup_app. split_and!; [by apply retain_others_nodup| |apply list.NoDup_singleton].
      intros x [_ Hx]%retain_others_spec. by rewrite list_elem_of_singleton.
    - intros x. cbn. rewrite elem_of_app, retain_others_spec, list_elem_of_singleton, <- Hd.
      destruct (decide (x = sid)) as [->|]; [|tauto]. rewrite Hd. tauto.
    - cbn [pc_json_bytes pc_lru pc_entries cache_touch]. rewrite pj_sum_app, pj_sum_retain by done.
      rewrite bool_decide_eq_true_2 by (by apply Hd). rewrite pj_sum_cons. cbn [pj_sum foldr]. lia.
    - exact Hp. }
  split; [done|]. by rewrite <- !cache_size.
Qed.

Lemma cache_remove_wf c sid : cache_wf c ->
  cache_wf (cache_remove c sid)
  /\ (length (pc_lru (cache_remove c sid)) <= length (pc_lru c))%nat
  /\ pc_json_bytes (cache_remove c sid) <= pc_json_bytes c
  /\ (length (pc_lru (cache_remove c sid)) = length (pc_lru c) -> pc_lru (cache_remove c sid) = pc_lru c).
Proof.
  intros (Hn & Hd & Hj & Hp). unfold cache_remove.
  assert (pj_sum (delete sid (pc_entries c)) (retain_others sid (pc_lru c))
          = pj_sum (pc_entries c) (retain_others sid (pc_lru c))) as Hs.
  { apply pj_sum_ext. intros x [_ Hx]%retain_others_spec. by rewrite lookup_delete_ne. }
  pose proof (pj_sum_nonneg _ (retain_others sid (pc_lru c)) Hp) as Hnn.
  rewrite (pj_sum_retain (pc_entries c) sid (pc_lru c) Hn) in Hs, Hnn. unfold cache_wf. split_and!.
  - by apply retain_others_nodup.
  - intros x. cbn. rewrite retain_others_spec, lookup_delete_is_Some, Hd. naive_solver.
  - cbn [pc_json_bytes pc_lru pc_entries]. rewrite Hs, Hj. unfold pj_size in *. case_bool_decide as E.
    + apply Hd in E as [p E]. rewrite E in *. cbn in *. unfold sat_sub. lia.
    + destruct (pc_entries c !! sid) eqn:G; [destruct E; apply Hd; by eexists|lia].
  - intros x p. cbn. rewrite lookup_delete_Some. intros [_ H]. by eapply Hp.
  - cbn. unfold retain_others. apply filter_length_le.
  - cbn. destruct (pc_entries c !! sid) eqn:G; [|lia]. apply Hp in G.
    pose proof (pj_sum_nonneg _ (pc_lru c) Hp). unfold sat_sub. lia.
  - cbn. intros HL. unfold retain_others in *. clear -HL. induction (pc_lru c) as [|x l IH]; [done|]. cbn in *.
    destruct (negb _); cbn in HL; [f_equal; apply IH; lia|].
    pose proof (filter_length_le (fun id => negb (id =? sid)) l). lia.
Qed.

(** The loop drops the oldest entries, none more than it has to. *)
Lemma evict_loop_spec lru : forall entries json incoming,
  cache_wf (mk_cache entries lru json) -> 0 <= incoming ->
  exists evicted kept entries',
    lru = evicted ++ kept
    /\ evict_loop entries lru json incoming = mk_cache entries' kept (pj_sum entries kept)
    /\ cache_wf (mk_cache entries' kept (pj_sum entries kept))
    /\ (forall sid, sid ∈ kept -> entries' !! sid = entries !! sid)
    /\ (kept = [] \/ length_z kept < PROJECTION_CACHE_SESSIONS
                     /\ pj_sum entries kept + incoming <= PROJECTION_CACHE_JSON_BYTES)
    /\ (forall before sid, evicted = before ++ [sid] ->
          PROJECTION_CACHE_SESSIONS <= length_z (sid :: kept)
          \/ PROJECTION_CACHE_JSON_BYTES < pj_sum entries (sid :: kept) + incoming).
Proof.
  induction lru as [|x lru IH]; intros entries json incoming W Hi;
    pose proof W as (Hn & Hd & Hj & Hp).
  { assert (entries = ∅) as ->.
    { apply map_empty. intros i. destruct (entries !! i) eqn:E; [|done].
      assert (i ∈ ([] : list Z)) as H by (apply Hd; by eexists). by apply elem_of_nil in H. }
    exists [], [], ∅. cbn in Hj. subst json. split_and!; try done; [by left|by intros []]. }
  pose proof (cache_size _ W) as Hsz. cbn [pc_entries pc_lru pc_json_bytes] in Hsz, Hn, Hd, Hp, Hj.
  assert (is_Some (entries !! x)) as [p Hx] by (apply Hd, list_elem_of_here).
  cbn [evict_loop]. rewrite bool_decide_eq_false_2 by (intros ->; by rewrite lookup_empty in Hx). cbn [orb].
  apply list.NoDup_cons in Hn as [Hxl Hn].
  destruct ((PROJECTION_CACHE_SESSIONS <=? Z.of_nat (size entries))
            || (PROJECTION_CACHE_JSON_BYTES <? sat_add 64 json incoming)) eqn:Over; cbn [negb].
  2: { exists [], (x :: lru), entries. subst json. apply orb_false_iff in Over as [O1 O2]. rewrite Hsz in O1.
    unfold sat_add, umax, PROJECTION_CACHE_JSON_BYTES, PROJECTION_CACHE_SESSIONS in *.
    split_and!; try done; [|by intros []]. right. unfold length_z. cbn [length] in *. apply Z.leb_gt in O1. apply Z.ltb_ge in O2. clear -O1 O2. lia. }
  rewrite Hx. set (e1 := delete x entries).
  assert (pj_sum e1 lru = pj_sum entries lru) as S1.
  { apply pj_sum_ext. intros y Hy. unfold e1. rewrite lookup_delete_ne; [done|congruence]. }
  pose proof (pj_sum_nonneg _ lru Hp) as Hnn.
  destruct (IH e1 (sat_sub json (pj_json_bytes p)) incoming) as (evicted & kept & e' & -> & E & W' & Hk & Hfit & Hmin).
  { split_and!; [done| | |].
    - intros y. cbn. unfold e1. rewrite lookup_delete_is_Some, <- Hd, elem_of_cons. naive_solver.
    - cbn [pc_entries pc_lru pc_json_bytes]. rewrite S1, Hj, pj_sum_cons. unfold pj_size. rewrite Hx. cbn. unfold sat_sub. lia.
    - intros y q. cbn. unfold e1. rewrite lookup_delete_Some. intros [_ H]. by eapply Hp. }
  { done. }
  assert (forall y, y ∈ evicted ++ kept -> e1 !! y = entries !! y) as He.
  { intros y Hy. unfold e1. rewrite lookup_delete_ne; [done|congruence]. }
  assert (pj_sum e1 kept = pj_sum entries kept) as S2.
  { apply pj_sum_ext. intros y Hy. apply He, elem_of_app. by right. }
  rewrite S2 in *. exists (x :: evicted), kept, e'. split_and!; try done.
  - intros y Hy. rewrite Hk by done. apply He, elem_of_app. by right.
  - intros [|z before] sid [= -> Hb].
    + apply app_eq_nil in Hb as [-> _] || subst evicted. cbn [app] in *.
      apply orb_true_iff in Over as [O|O]; [left|right].
      * rewrite Hsz in O. unfold length_z. lia.
      * rewrite <- Hj. unfold sat_add in O. lia.
    + destruct (Hmin before sid Hb) as [H|H]; [by left|right].
      rewrite pj_sum_cons, S2 in H. rewrite pj_sum_cons. unfold pj_size in *.
      rewrite He in H; [done|]. rewrite Hb. apply elem_of_app; left. apply elem_of_app; right. apply list_elem_of_here.
Qed.

(** An insertion: the session's entry is replaced and becomes the newest. *)
Lemma cache_insert_spec c sid p :
  cache_wf c -> 0 <= pj_json_bytes p < 2 ^ 63 -> let c' := cache_insert c sid p in
  cache_wf c' /\ cache_within c'
  /\ exists evicted kept,
       retain_others sid (pc_lru c) = evicted ++ kept
       /\ pc_lru c' = kept ++ [sid] /\ pc_entries c' !! sid = Some p
       /\ (forall other, other ∈ kept -> pc_entries c' !! other = pc_entries c !! other)
       /\ (forall before last, evicted = before ++ [last] ->
             PROJECTION_CACHE_SESSIONS <= length_z (last :: kept)
             \/ PROJECTION_CACHE_JSON_BYTES < pj_sum (pc_entries c) (last :: kept) + pj_json_bytes p).
Proof.
  intros W Hp. cbv zeta. destruct (cache_remove_wf c sid W) as (W1 & _).
  unfold cache_insert. set (c1 := cache_remove c sid) in *.
  assert (mk_cache (pc_entries c1) (pc_lru c1) (pc_json_bytes c1) = c1) as Heta by (by destruct c1).
  rewrite <- Heta in W1.
  destruct (evict_loop_spec _ _ _ (pj_json_bytes p) W1) as (evicted & kept & e' & El & -> & W2 & Hk & Hfit & Hmin); [lia|].
  cbn [pc_entries pc_lru pc_json_bytes].
  assert (sid ∉ kept) as Hs.
  { intros H. assert (sid ∈ pc_lru c1) as H1 by (rewrite El; apply elem_of_app; by right).
    by apply retain_others_spec in H1 as [_ H1]. }
  assert (forall other, other ∈ evicted ++ kept -> pc_entries c1 !! other = pc_entries c !! other) as He.
  { intros other. rewrite <- El. intros [_ H]%retain_others_spec. unfold c1. cbn. by rewrite lookup_delete_ne. }
  assert (pj_sum (<[sid:=p]> e') (kept ++ [sid]) = pj_sum (pc_entries c1) kept + pj_json_bytes p) as Hsum.
  { rewrite pj_sum_app. f_equal.
    - transitivity (pj_sum e' kept); apply pj_sum_ext; intros y Hy; [rewrite lookup_insert_ne; [done|congruence]|by apply Hk].
    - rewrite pj_sum_cons. unfold pj_size. rewrite lookup_insert_eq. cbn. lia. }
  destruct W2 as (Hn & Hd & _ & Hp2). cbn in Hn, Hd, Hp2.
  assert (sat_add 64 (pj_sum (pc_entries c1) kept) (pj_json_bytes p) = pj_sum (pc_entries c1) kept + pj_json_bytes p) as Hadd.
  { unfold sat_add, umax, PROJECTION_CACHE_JSON_BYTES in *. destruct Hfit as [->|[_ H]]; cbn [pj_sum foldr]; lia. }
  split; [|split].
  - split_and!; cbn [pc_entries pc_lru pc_json_bytes].
    + apply list.NoDup_app. split_and!; [done| |apply list.NoDup_singleton]. intros x Hx. rewrite list_elem_of_singleton. congruence.
    + intros x. rewrite elem_of_app, list_elem_of_singleton, lookup_insert_is_Some, Hd. naive_solver.
    + by rewrite Hadd, Hsum.
    + intros x q. rewrite lookup_insert_Some. intros [[_ <-]|[_ H]]; [lia|by eapply Hp2].
  - unfold cache_within. cbn [pc_lru pc_json_bytes]. rewrite Hadd. unfold length_z in *. rewrite length_app. cbn [length].
    destruct Hfit as [->|[H1 H2]]; [split; [done|by right]|]. split; [lia|by left].
  - exists evicted, kept. split_and!; [exact El|done|apply lookup_insert_eq| |].
    + intros other Ho. rewrite lookup_insert_ne by congruence. rewrite Hk by done. apply He, elem_of_app. by right.
    + intros before last E. destruct (Hmin before last E) as [H|H]; [by left|right].
      rewrite (pj_sum_ext _ (pc_entries c)) in H; [done|]. intros x Hx. apply He. rewrite E.
      rewrite !elem_of_app, list_elem_of_singleton. apply elem_of_cons in Hx. tauto.
Qed.

Lemma cache_remove_within c sid : cache_wf c -> cache_within c -> cache_within (cache_remove c sid).
Proof.
  intros W [H1 H2]. destruct (cache_remove_wf c sid W) as (W1 & Hl & Hb & He). unfold cache_within, length_z in *.
  split; [lia|]. destruct H2 as [H2|H2]; [left; lia|].
  destruct (length (pc_lru (cache_remove c sid))) as [|[|n]] eqn:E; [left|by right|lia].
  apply nil_length_inv in E. destruct W1 as (_ & _ & -> & _). by rewrite E.
Qed.

(** What the server does to the cache. *)
Inductive CacheOp :=
| OGet (sid : Z) (root : MerkleRoot)
| ORemove (sid : Z)
| OInsert (sid : Z) (p : CachedChatProjection).
Definition cache_op (c : ChatProjectionCache) (o : CacheOp) : ChatProjectionCache :=
  match o with
  | OGet sid root => fst (cache_get c sid root)
  | ORemove sid => cache_remove c sid
  | OInsert sid p => cache_insert c sid p
  end.
Definition cache_op_ok (o : CacheOp) : Prop :=
  match o with OInsert _ p => 0 <= pj_json_bytes p < 2 ^ 63 | _ => True end.

Lemma cache_get_ok c sid root : cache_wf c -> cache_within c ->
  cache_wf (fst (cache_get c sid root)) /\ cache_within (fst (cache_get c sid root)).
Proof.
  intros W H. unfold cache_get. destruct (pc_entries c !! sid) eqn:E; [|done]. case_bool_decide; [|done].
  destruct (cache_touch_wf c sid W) as [W1 Hl]; [by eexists|]. split; [done|].
  unfold cache_within, length_z in *. cbn [fst]. rewrite Hl. exact H.
Qed.

Lemma cache_run_ok ops : forall c, cache_wf c -> cache_within c -> Forall cache_op_ok ops ->
  cache_wf (fold_left cache_op ops c) /\ cache_within (fold_left cache_op ops c).
Proof.
  induction ops as [|o ops IH]; intros c W H Hops; [done|]. apply list.Forall_cons in Hops as [Ho Hops]. cbn [fold_left].
  apply IH; [| |done]; destruct o; cbn [cache_op].
  - by apply cache_get_ok.
  - by apply cache_remove_wf.
  - by apply cache_insert_spec.
  - by apply cache_get_ok.
  - by apply cache_remove_within.
  - by apply cache_insert_spec.
Qed.

Lemma cache_new_wf : cache_wf cache_new /\ cache_within cache_new.
Proof.
  split; [|split; [done|by left]]. split_and!; [constructor| |done|]; cbn.
  - intros sid. rewrite elem_of_nil, lookup_empty. split; [done|by intros []].
  - intros sid p. by rewrite lookup_empty.
Qed.

(** The sidecar's projection cache.  After any sequence of lookups, removals
    and insertions its list and its map name the same sessions, each once, its
    byte count is the sum over its entries, it holds at most 64 sessions and at
    most 256 MiB (more only when it is one entry that alone is larger); a lookup
    hits exactly when the session's entry has the root asked for; and an
    insertion makes its session the newest, with the entry inserted, keeps every
    entry it does not evict, evicts from the oldest end only, and nothing that
    could have stayed within the limits. *)
Theorem projection_cache_contract ops :
  Forall cache_op_ok ops -> let c := fold_left cache_op ops cache_new in
  cache_wf c /\ cache_within c
  /\ (forall sid root p, snd (cache_get c sid root) = Some p <-> pc_entries c !! sid = Some p /\ pj_root p = root)
  /\ (forall sid p, 0 <= pj_json_bytes p < 2 ^ 63 -> let c' := cache_insert c sid p in
        exists evicted kept,
          retain_others sid (pc_lru c) = evicted ++ kept
          /\ pc_lru c' = kept ++ [sid] /\ pc_entries c' !! sid = Some p
          /\ (forall other, other ∈ kept -> pc_entries c' !! other = pc_entries c !! other)
          /\ (forall before last, evicted = before ++ [last] ->
                PROJECTION_CACHE_SESSIONS <= length_z (last :: kept)
                \/ PROJECTION_CACHE_JSON_BYTES < pj_sum (pc_entries c) (last :: kept) + pj_json_bytes p)).
Proof.
  intros Hops. cbv zeta. destruct cache_new_wf as [W0 H0].
  destruct (cache_run_ok ops cache_new W0 H0 Hops) as [W H]. split_and!; [done|done| |].
  - intros sid root p. unfold cache_get. destruct (pc_entries _ !! sid) as [q|] eqn:E; [|naive_solver].
    case_bool_decide; cbn; naive_solver.
  - intros sid p Hp. by apply cache_insert_spec.
Qed.

(** ** Lemmas: the projection *)

(** The elements of a JSON array. *)
Fixpoint json_join (payloads : list bytes) : bytes :=
  match payloads with
  | [] => []
  | p :: rest => match rest with [] => p | _ => p ++ 44 :: json_join rest end
  end.

Lemma json_join_snoc l x : json_join (l ++ [x]) = json_join l ++ (if is_nil l then [] else [44]) ++ x.
Proof.
  induction l as [|p l IH]; [done|]. destruct l as [|q l]; [done|]. cbn [app json_join is_nil] in *.
  rewrite IH. by rewrite <- app_assoc.
Qed.

(** [p] is the array of [payloads]: its bytes, their number and their count. *)
Definition projects (p : CachedChatProjection) (payloads : list bytes) : Prop :=
  concat (pj_chunks p) = json_join payloads
  /\ pj_message_count p = Z.min (length_z payloads) (umax 64)
  /\ pj_json_bytes p = Z.min (length_z (json_join payloads)) (umax 64)
  /\ Forall (fun c => length_z c <= PROJECTION_CHUNK_BYTES \/ c ∈ payloads) (pj_chunks p).

Definition assembles (a : Assembly) (payloads : list bytes) : Prop :=
  concat (as_chunks a) ++ as_pending a = json_join payloads
  /\ as_count a = Z.min (length_z payloads) (umax 64)
  /\ as_json_bytes a = Z.min (length_z (json_join payloads)) (umax 64)
  /\ Forall (fun c => length_z c <= PROJECTION_CHUNK_BYTES \/ c ∈ payloads) (as_chunks a)
  /\ length_z (as_pending a) <= PROJECTION_CHUNK_BYTES.

Lemma concat_snoc {A} (l : list (list A)) x : concat (l ++ [x]) = concat l ++ x.
Proof. rewrite concat_app. cbn. by rewrite app_nil_r. Qed.

Lemma flush_pending_spec a payloads : assembles a payloads ->
  concat (flush_pending a) = json_join payloads
  /\ Forall (fun c => length_z c <= PROJECTION_CHUNK_BYTES \/ c ∈ payloads) (flush_pending a).
Proof.
  intros (H1 & _ & _ & H4 & H5). unfold flush_pending. destruct (as_pending a) eqn:E; cbn [is_nil].
  - split; [by rewrite <- H1, app_nil_r|done].
  - rewrite <- E in *. split; [by rewrite concat_snoc|]. apply list.Forall_app. split; [done|]. constructor; [by left|done].
Qed.

Lemma append_payload_spec a payloads x : assembles a payloads -> assembles (append_payload a x) (payloads ++ [x]).
Proof.
  intros A. pose proof (flush_pending_spec a payloads A) as [F1 F2]. destruct A as (H1 & H2 & H3 & H4 & H5).
  unfold append_payload. set (comma := if is_nil payloads then [] else [44]).
  assert ((if 0 <? as_count a then [44] else []) = comma) as ->.
  { rewrite H2. unfold comma, length_z, umax. destruct payloads; cbn [length is_nil]; [done|].
    by rewrite (proj2 (Z.ltb_lt _ _)) by lia. }
  assert (json_join (payloads ++ [x]) = json_join payloads ++ comma ++ x) as Hj by apply json_join_snoc.
  assert (sat_add 64 (as_count a) 1 = Z.min (length_z (payloads ++ [x])) (umax 64)) as Hc.
  { rewrite H2. unfold sat_add, length_z. rewrite length_app. cbn [length]. lia. }
  assert (sat_add 64 (sat_add 64 (as_json_bytes a) (length_z comma)) (length_z x)
          = Z.min (length_z (json_join (payloads ++ [x]))) (umax 64)) as Hb.
  { rewrite H3, Hj. unfold sat_add, length_z. rewrite !length_app. lia. }
  assert (forall l, Forall (fun c => length_z c <= PROJECTION_CHUNK_BYTES \/ c ∈ payloads) l ->
            Forall (fun c => length_z c <= PROJECTION_CHUNK_BYTES \/ c ∈ payloads ++ [x]) l) as Hmono.
  { intros l. apply List.Forall_impl. intros c [?|?]; [by left|right]. apply elem_of_app. by left. }
  assert (0 <= length_z x /\ 0 <= length_z comma /\ 0 <= length_z (as_pending a)) as (Hx0 & Hc0 & Hp0) by (unfold length_z; lia).
  destruct (sat_add 64 (length_z comma) (length_z x) <=? PROJECTION_CHUNK_BYTES) eqn:E1.
  - apply Z.leb_le in E1. assert (length_z (comma ++ x) <= PROJECTION_CHUNK_BYTES) as Hcx.
    { unfold sat_add, umax, PROJECTION_CHUNK_BYTES, length_z in *. rewrite length_app. lia. }
    destruct (PROJECTION_CHUNK_BYTES <? _) eqn:E2; split_and!; cbn [as_chunks as_count as_json_bytes as_pending]; try done.
    + by rewrite concat_snoc, H1, Hj.
    + apply list.Forall_app. split; [by apply Hmono|]. constructor; [by left|done].
    + by rewrite app_assoc, H1, Hj.
    + by apply Hmono.
    + apply Z.ltb_ge in E2. unfold sat_add, umax, PROJECTION_CHUNK_BYTES, length_z in *. rewrite !length_app in *. lia.
  - split_and!; cbn [as_chunks as_count as_json_bytes as_pending]; try done.
    + rewrite !concat_app, F1, Hj, app_nil_r. f_equal. f_equal; [|apply app_nil_r].
      destruct comma; cbn; [done|by rewrite app_nil_r].
    + apply list.Forall_app. split; [by apply Hmono|]. apply list.Forall_app. split.
      * destruct comma as [|c l] eqn:Ec; cbn [is_nil]; [done|]. constructor; [left|done]. rewrite <- Ec.
        unfold comma. by destruct (is_nil payloads).
      * constructor; [right|done]. apply elem_of_app. right. apply list_elem_of_here.
Qed.

(** A projection extended by more payloads is the projection of all of them. *)
Lemma append_projection_spec p payloads more :
  projects p payloads -> projects (append_projection_payloads p more) (payloads ++ more)
  /\ pj_root (append_projection_payloads p more) = pj_root p.
Proof.
  intros (H1 & H2 & H3 & H4). split; [|done]. unfold append_projection_payloads.
  assert (forall more a payloads, assembles a payloads -> assembles (fold_left append_payload more a) (payloads ++ more)) as F.
  { clear. induction more as [|x more IH]; intros a payloads H; cbn [fold_left]; [by rewrite app_nil_r|].
    replace (payloads ++ x :: more) with ((payloads ++ [x]) ++ more) by (by rewrite <- app_assoc).
    by apply IH, append_payload_spec. }
  set (a := mk_assembly (pj_chunks p) (pj_message_count p) (pj_json_bytes p) []).
  assert (assembles a payloads) as A by (split_and!; cbn; [by rewrite app_nil_r|done..]).
  apply (F more) in A. destruct (flush_pending_spec _ _ A) as [G1 G2]. destruct A as (K1 & K2 & K3 & _).
  by split_and!.
Qed.

Lemma projects_nil root : projects (mk_projection root 0 [] 0) [].
Proof. by split_and!. Qed.

Module CacheSample.
Definition big : CachedChatProjection := mk_projection [1] 1 [] PROJECTION_CACHE_JSON_BYTES.
Definition little : CachedChatProjection := mk_projection [2] 1 [] 10.
Definition ops : list CacheOp := [OInsert 1 little; OInsert 2 big; OInsert 3 little; OInsert 4 little; OGet 3 [2]].
End CacheSample.

Theorem projection_cache_contract_witness :
  let c := fold_left cache_op CacheSample.ops cache_new in
  pc_lru c = [4; 3] /\ pc_json_bytes c = 20 /\ cache_wf c /\ cache_within c.
Proof.
  destruct (projection_cache_contract CacheSample.ops) as (W & L & _); [repeat constructor; done|].
  split; [vm_compute; reflexivity|]. split; [vm_compute; reflexivity|]. by split.
Defined.
