(* ===== verification/SidecarSync.v ===== *)
(** The sidecar as a whole: what the gateway is sent, for every sequence of
    requests ([gateway_request]), and a client session of [Sidecar] connected
    to it ([delta_is_transparent]). *)

From S2P Require Import Prelude Wire Client DlrCodec DlrStore DlrGf DlrFountain DlrReceiver DlrFilter DlrCompress DlrShim DlrSync Sidecar.

(** ** Logs and the blocks they name *)

Section Frames.
Context {codec : Codec}.
Variable blake3 : bytes -> bytes.

(** The payloads of a log. *)
Definition log_payloads (s : ContentStore) (ids : list BlockId) : list bytes :=
  omap (fun id => b_payload <$> st_blocks s !! id) ids.

(** Every id of a log is in the store or awaited. *)
Definition held (r : Receiver) : Prop :=
  forall sid id, id ∈ session_ids (rc_store r) sid -> id ∉ ss_pending (session_entry r sid) ->
    is_Some (st_blocks (rc_store r) !! id).

(** Receivers that differ in the log file only. *)
Definition same_receiver (r r' : Receiver) : Prop :=
  view (rc_store r) = view (rc_store r') /\ rc_sessions r = rc_sessions r'.

Lemma reconstruct_payloads s sid : map b_payload (reconstruct s sid) = log_payloads s (session_ids s sid).
Proof.
  unfold reconstruct, log_payloads. induction (session_ids s sid) as [|id ids IH]; [done|]. cbn.
  destruct (st_blocks s !! id); cbn; [by f_equal|done].
Qed.

Lemma omap_payloads s ids : map b_payload (omap (fun id => st_blocks s !! id) ids) = log_payloads s ids.
Proof.
  unfold log_payloads. induction ids as [|id ids IH]; [done|]. cbn.
  destruct (st_blocks s !! id); cbn; [by f_equal|done].
Qed.

Lemma log_payloads_app s a b : log_payloads s (a ++ b) = log_payloads s a ++ log_payloads s b.
Proof. unfold log_payloads. apply omap_app. Qed.

Lemma log_payloads_keeps s s' ids :
  keeps s s' -> Forall (fun id => is_Some (st_blocks s !! id)) ids -> log_payloads s' ids = log_payloads s ids.
Proof.
  intros K. induction 1 as [|id ids [b Hb] _ IH]; [done|]. cbn. rewrite Hb, (K _ _ Hb). cbn. by f_equal.
Qed.

Lemma log_payloads_length s ids :
  Forall (fun id => is_Some (st_blocks s !! id)) ids -> length (log_payloads s ids) = length ids.
Proof. induction 1 as [|id ids [b Hb] _ IH]; [done|]. cbn. rewrite Hb. cbn. by f_equal. Qed.

Lemma keeps_Forall s s' ids :
  keeps s s' -> Forall (fun id => is_Some (st_blocks s !! id)) ids -> Forall (fun id => is_Some (st_blocks s' !! id)) ids.
Proof. intros K. apply List.Forall_impl. intros id [b Hb]. exists b. by apply K. Qed.

Lemma session_ids_eq s s' sid : st_sessions s' !! sid = st_sessions s !! sid -> session_ids s' sid = session_ids s sid.
Proof. unfold session_ids. by intros ->. Qed.

Lemma session_entry_eq r r' sid : rc_sessions r' !! sid = rc_sessions r !! sid -> session_entry r' sid = session_entry r sid.
Proof. unfold session_entry. by intros ->. Qed.

(** ** Preservation by frames *)

Lemma held_same r r' : same_receiver r r' -> held r -> held r'.
Proof.
  intros [Hv Hs] H sid id. destruct (view_eq _ _ Hv) as [Eb Es]. rewrite <- Eb.
  rewrite (session_ids_eq (rc_store r)) by (by rewrite Es). rewrite (session_entry_eq r) by (by rewrite Hs). apply H.
Qed.

(** A frame of one session keeps the others held. *)
Lemma held_by_session r r' sid :
  held r -> keeps (rc_store r) (rc_store r') ->
  (forall sid', sid' <> sid -> rc_sessions r' !! sid' = rc_sessions r !! sid'
     /\ st_sessions (rc_store r') !! sid' = st_sessions (rc_store r) !! sid') ->
  (forall id, id ∈ session_ids (rc_store r') sid -> id ∉ ss_pending (session_entry r' sid) ->
     is_Some (st_blocks (rc_store r') !! id)) ->
  held r'.
Proof.
  intros H K Ho Hs sid' id. destruct (decide (sid' = sid)) as [->|Hne]; [apply Hs|].
  destruct (Ho sid' Hne) as [H1 H2]. rewrite (session_ids_eq _ _ _ H2), (session_entry_eq _ _ _ H1).
  intros Hi Hp. destruct (H sid' id Hi Hp) as [b Hb]. exists b. by apply K.
Qed.

Lemma session_entry_put r sid st : session_entry (put_session r sid st) sid = st.
Proof. unfold session_entry, put_session. cbn. by rewrite lookup_insert_eq. Qed.

Lemma held_append r f r' out : held r -> handle_append blake3 r f = (r', out) ->
  held r' /\ keeps (rc_store r) (rc_store r').
Proof.
  intros H E. pose proof (append_keeps blake3 _ _ _ _ E) as K. split; [|done].
  apply (held_by_session r r' (a_session f)); [done|done| |].
  { intros sid' Hne. destruct (append_other blake3 _ _ _ _ sid' E Hne) as (H1 & H2 & _). by split. }
  pose proof (handle_append_outcome blake3 r f) as O. rewrite E in O.
  destruct (append_cases blake3 _ _ _ _ O) as
    [(e & -> & Hs & Hss)|[(rs & _ & _ & _ & _ & _ & -> & ->)|(rs & s & _ & Kn & P & _ & A & -> & ->)]]; intros id.
  - rewrite Hs. assert (session_entry r' (a_session f) = session_entry r (a_session f)) as ->.
    { destruct Hss as [Hss| ->]; [by apply session_entry_eq; rewrite Hss|apply session_entry_put]. }
    apply H.
  - rewrite session_entry_put. apply H.
  - destruct (append_all_spec blake3 (a_session f) rs _ _ Kn) as (s' & E' & _ & Ei & _ & _ & F); [set_solver|].
    rewrite A in E'. injection E' as <-. cbn [rc_store set_store]. rewrite Ei. intros [Hi|Hi]%elem_of_app _.
    + destruct (H (a_session f) id Hi) as [b Hb]; [rewrite P; set_solver|]. exists b. by apply K.
    + apply list_elem_of_fmap in Hi as (x & -> & Hx). rewrite list.Forall_forall in F. apply F in Hx.
      by apply contains_Some in Hx.
Qed.

Lemma held_frame r f r' out : held r -> handle_frame blake3 r f = (r', out) ->
  held r' /\ keeps (rc_store r) (rc_store r').
Proof.
  intros H E. pose proof (handle_frame_keeps blake3 _ _ _ _ E) as K. split; [|done].
  destruct f as [a|q|b|a|m]; cbn [handle_frame] in E.
  - destruct (handle_append blake3 r a) as [r1 o] eqn:A. destruct (held_append _ _ _ _ H A) as [H1 _].
    by destruct o; injection E as <- <-.
  - unfold handle_resync in E. cbv zeta in E. set (missing := filter _ (r_manifest q)) in E.
    set (r1 := put_session _ _ _) in E.
    assert (r' = r1) as -> by (by destruct (is_nil missing); injection E as <- _).
    apply (held_by_session r r1 (r_session q)); [done|done| |].
    { intros sid' Hne. unfold r1. cbn. rewrite (proj2 (seed_spec blake3 _ _ _ _)), !lookup_insert_ne by done. done. }
    intros id. unfold r1. rewrite session_entry_put. cbn [rc_store put_session set_store ss_pending].
    destruct (seed_spec blake3 (rc_store r) (r_session q) (r_manifest q) (r_root q)) as [Eb Es].
    rewrite Eb. unfold session_ids. rewrite Es, lookup_insert_eq. cbn [sl_ids]. intros Hi Hp.
    destruct (decide (is_Some (st_blocks (rc_store r) !! id))) as [|Hn]; [done|]. exfalso. apply Hp.
    apply elem_of_list_to_set. unfold missing. apply list_elem_of_filter. split; [|done].
    unfold store_contains. by rewrite bool_decide_eq_false_2.
  - destruct (handle_bulk blake3 r b) as [r1 o] eqn:B.
    destruct (handle_bulk_spec blake3 _ _ _ _ B) as (_ & Hl & st' & Hs & [Hp _]).
    assert (r' = r1) as -> by (destruct o as [[?|]|?|]; by injection E as <- _).
    apply (held_by_session r r1 (k_session b)); [done|done| |].
    { intros sid' Hne. by rewrite Hs, Hl, lookup_insert_ne by done. }
    intros id. assert (session_entry r1 (k_session b) = st') as ->.
    { unfold session_entry. by rewrite Hs, lookup_insert_eq. }
    rewrite (session_ids_eq (rc_store r)) by (by rewrite Hl). intros Hi Hn.
    destruct (decide (id ∈ ss_pending (session_entry r (k_session b)))) as [Hin|Hin].
    + destruct (Hp id Hin) as [?|Hc]; [done|]. by apply contains_Some in Hc.
    + destruct (H _ _ Hi Hin) as [b' Hb']. exists b'. by apply K.
  - by injection E as <- _.
  - by injection E as <- _.
Qed.

Lemma receiver_held_new store : held (receiver_new store).
Proof.
  intros sid id. unfold session_entry, receiver_new, session_ids. cbn [rc_store rc_sessions].
  rewrite lookup_fmap. destruct (st_sessions store !! sid) as [log|] eqn:E; cbn; [|by intros ?%elem_of_nil].
  intros Hi Hp. destruct (decide (is_Some (st_blocks store !! id))) as [|Hn]; [done|]. exfalso. apply Hp.
  apply elem_of_list_to_set, list_elem_of_filter. split; [|done]. unfold store_contains. by rewrite bool_decide_eq_false_2.
Qed.
End Frames.

(** ** The server *)

Section Server.
Context `{JsonWire} {codec : Codec}.
Variable blake3 : bytes -> bytes.
Variable say : SidecarError -> str.
Variable flush : SidecarState -> res IoError unit.
Variable gateway : list (bytes * Z) -> str + Response.
#[local] Abbreviation chat_completions := (chat_completions blake3 say flush gateway).
#[local] Abbreviation sidecar_frame := (sidecar_frame blake3 say flush).

Lemma same_receiver_refl (r : Receiver) : same_receiver r r.
Proof. done. Qed.

Lemma flush_log_spec s : let '(s', _) := flush_log flush s in
  same_receiver (sc_receiver s) (sc_receiver s') /\ sc_cache s' = sc_cache s /\ sc_upstream s' = sc_upstream s.
Proof.
  unfold flush_log, flush_wal. destruct (st_wal_error _); [done|]. destruct (st_wal _); [|done].
  destruct (flush s) as [[]|e|]; try done. unfold latch_wal_error. by destruct (st_wal_error (rc_store (sc_receiver s))) eqn:?.
Qed.

Lemma cache_get_entries c sid root : pc_entries (fst (cache_get c sid root)) = pc_entries c.
Proof. unfold cache_get. destruct (pc_entries c !! sid); [|done]. by case_bool_decide. Qed.

(** The root a reply acknowledges. *)
Definition ack_of (reply : str + ChatReply) : option str := match reply with inr r => cr_ack r | inl _ => None end.

(** The two ways a chat request ends: refused, or forwarded to the gateway. *)
Inductive chat_outcome (s : SidecarState) (body : bytes) : SidecarState * (str + ChatReply) -> Prop :=
| CO_refused s' reply :
    sc_upstream s' = sc_upstream s -> pc_entries (sc_cache s') = pc_entries (sc_cache s) ->
    (sc_receiver s' = sc_receiver s
     \/ exists f r out, handle_append blake3 (sc_receiver s) f = (r, out) /\ same_receiver r (sc_receiver s')) ->
    ack_of reply = None -> chat_outcome s body (s', reply)
| CO_forwarded request frame f r ack s1 b len p :
    envelope_decode body = Ok (request, frame) -> decode_frame frame = Ok (FAppend f) ->
    handle_append blake3 (sc_receiver s) f = (r, Ok ack) ->
    same_receiver r (sc_receiver s1) -> pc_entries (sc_cache s1) = pc_entries (sc_cache s) ->
    sc_upstream s1 = sc_upstream s ->
    reconstruct_request_body (sc_receiver s1) (a_session f) request (ack_root ack)
      (snd (cache_get (sc_cache s) (a_session f) (a_base f))) = Ok (b, len, p) ->
    chat_outcome s body
      (let '(s', reply) := forward gateway (set_cache s1 (cache_insert (sc_cache s1) (a_session f) p)) b len (ack_root ack) in
       (s', inr reply)).

Lemma chat_completions_outcome s token body : chat_outcome s body (chat_completions s token body).
Proof.
  unfold Sidecar.chat_completions.
  assert (forall reply, ack_of reply = None -> chat_outcome s body (s, reply)) as Hr.
  { intros reply Hreply. apply CO_refused; try done. by left. }
  destruct (authorized _ _); cbn [negb]; [|by apply Hr].
  destruct (envelope_decode body) as [[request frame]|e|] eqn:E1; [|by apply Hr..].
  destruct (validate_request_value request) as [u|e|]; [|by apply Hr..].
  destruct (decode_frame frame) as [[f| | | | ]|e|] eqn:E2; try by apply Hr.
  destruct (validate_chat_append _ _ _) as [u'|e|]; [|by apply Hr..].
  destruct (cache_get (sc_cache s) (a_session f) (a_base f)) as [c cached] eqn:E3.
  pose proof (cache_get_entries (sc_cache s) (a_session f) (a_base f)) as Hc. rewrite E3 in Hc. cbn [fst] in Hc.
  cbn [sc_receiver set_cache].
  destruct (handle_append blake3 (sc_receiver s) f) as [r [ack|e|]] eqn:E4.
  2, 3: apply CO_refused; [done|done| |done]; right; do 3 eexists; by split; [exact E4|].
  set (s1 := set_receiver _ r). pose proof (flush_log_spec s1) as Hf.
  destruct (flush_log flush s1) as [s2 [u2|e|]]; destruct Hf as (F1 & F2 & F3).
  2, 3: apply CO_refused; [by rewrite F3|by rewrite F2|right; do 3 eexists; by split; [exact E4|]|done].
  destruct (reconstruct_request_body _ _ _ _ _) as [[[b len] p]|e|] eqn:E5.
  2, 3: apply CO_refused; [by rewrite F3|by rewrite F2|right; do 3 eexists; by split; [exact E4|]|done].
  eapply CO_forwarded; [exact E1|exact E2|exact E4|exact F1|by rewrite F2|by rewrite F3|]. by rewrite E3.
Qed.

(** *** The cache tells the truth *)

(** A cached projection is that of the beginning of its session's log. *)
Definition truthful (r : Receiver) (sid : Z) (p : CachedChatProjection) : Prop :=
  exists ids rest, session_ids (rc_store r) sid = ids ++ rest
    /\ Forall (fun id => is_Some (st_blocks (rc_store r) !! id)) ids
    /\ pj_message_count p = length_z ids /\ projects p (log_payloads (rc_store r) ids).

Definition sidecar_ok (s : SidecarState) : Prop :=
  held (sc_receiver s) /\ forall sid p, pc_entries (sc_cache s) !! sid = Some p -> truthful (sc_receiver s) sid p.

(** Logs are shorter than a machine word counts. *)
Definition small (s : SidecarState) : Prop :=
  forall sid, session_len (rc_store (sc_receiver s)) sid < umax 64.

Lemma truthful_mono r r' sid p :
  truthful r sid p -> keeps (rc_store r) (rc_store r') ->
  (exists more, session_ids (rc_store r') sid = session_ids (rc_store r) sid ++ more) -> truthful r' sid p.
Proof.
  intros (ids & rest & E & F & Hc & Hp) K [more Em]. exists ids, (rest ++ more). split_and!.
  - by rewrite Em, E, <- app_assoc.
  - by eapply keeps_Forall.
  - done.
  - by rewrite (log_payloads_keeps _ _ _ K F).
Qed.

Lemma truthful_same r r' sid p : same_receiver r r' -> truthful r sid p -> truthful r' sid p.
Proof.
  intros [Hv _] T. destruct (view_eq _ _ Hv) as [Eb Es]. eapply truthful_mono; [done|unfold keeps; by rewrite Eb|].
  exists []. rewrite app_nil_r. unfold session_ids. by rewrite Es.
Qed.

Lemma evict_loop_sub lru : forall entries json incoming sid p,
  pc_entries (evict_loop entries lru json incoming) !! sid = Some p -> entries !! sid = Some p.
Proof.
  induction lru as [|x lru IH]; intros entries json incoming sid p; cbn [evict_loop]; [by destruct (_ || _)|].
  destruct (_ || _); [done|]. destruct (entries !! x) as [q|]; [|apply IH].
  intros E%IH. by apply lookup_delete_Some in E as [_ E].
Qed.

Lemma cache_insert_sub c sid p sid' q :
  pc_entries (cache_insert c sid p) !! sid' = Some q ->
  sid' = sid /\ q = p \/ sid' <> sid /\ pc_entries c !! sid' = Some q.
Proof.
  unfold cache_insert. cbn [pc_entries]. rewrite lookup_insert_Some. intros [[<- <-]|[Hne E]]; [by left|right].
  split; [congruence|]. apply evict_loop_sub in E. cbn in E. by apply lookup_delete_Some in E as [_ E].
Qed.

(** What extending or rebuilding gives is the projection of the whole log. *)
Lemma extend_spec r sid root cached p (ids := session_ids (rc_store r) sid) :
  extend_or_reconstruct_projection r sid root cached = Ok p ->
  is_Some (rc_sessions r !! sid) -> Forall (fun id => is_Some (st_blocks (rc_store r) !! id)) ids ->
  length_z ids < umax 64 -> (forall q, cached = Some q -> truthful r sid q) ->
  projects p (log_payloads (rc_store r) ids) /\ pj_message_count p = length_z ids.
Proof.
  intros E [st Hst] F Hs Ht. unfold extend_or_reconstruct_projection, session_len in E. fold ids in E.
  assert (forall q, projects q (log_payloads (rc_store r) ids) -> pj_message_count q = length_z ids) as Hcount.
  { intros q (_ & -> & _). unfold length_z in *. rewrite log_payloads_length by done. lia. }
  assert (let blocks := receiver_reconstruct r sid in
          (let? _ := validate_all 0 blocks in
           Ok (append_projection_payloads (mk_projection root 0 [] 0) (map b_payload blocks))) = Ok p ->
          projects p (log_payloads (rc_store r) ids) /\ pj_message_count p = length_z ids) as Hfresh.
  { cbv zeta. unfold receiver_reconstruct. rewrite Hst. destruct (validate_all 0 (reconstruct (rc_store r) sid)); cbn [res_bind]; [|done..]. intros [= <-].
    rewrite reconstruct_payloads. fold ids.
    destruct (append_projection_spec _ [] (log_payloads (rc_store r) ids) (projects_nil root)) as [G _].
    split; [exact G|]. by apply Hcount. }
  destruct cached as [q|]; [|exact (Hfresh E)].
  destruct (_ <=? _); [|exact (Hfresh E)]. clear Hfresh.
  destruct (Ht q eq_refl) as (a & b & Eab & Fa & Hc & Hp). fold ids in Eab.
  unfold receiver_reconstruct_range in E. rewrite Hst in E.
  destruct (reconstruct_range _ _ _ _) as [additions| |] eqn:R; [|done..].
  assert (map b_payload additions = log_payloads (rc_store r) b) as Ea.
  { assert (length_z ids = length_z a + length_z b) as L by (rewrite Eab; unfold length_z; rewrite length_app; lia).
    rewrite L in R. unfold reconstruct_range in R. unfold ids, session_ids in Eab, Hs.
    destruct (st_sessions (rc_store r) !! sid) as [log|]; [|injection R as <-; symmetry in Eab; by apply app_nil in Eab as [_ ->]].
    cbv zeta in R. destruct (_ <? _) in R; [done|]. injection R as <-. rewrite Hc, Eab.
    rewrite omap_payloads. f_equal. unfold length_z. rewrite length_app.
    replace (Z.to_nat (Z.min (Z.of_nat (length a)) (Z.of_nat (length a + length b)))) with (length a) by lia.
    rewrite drop_app_length. apply firstn_all2. lia. }
  destruct (negb _); [done|]. injection E as <-.
  assert (log_payloads (rc_store r) ids = log_payloads (rc_store r) a ++ map b_payload additions) as El.
  { by rewrite Eab, log_payloads_app, Ea. }
  assert (projects (if is_nil additions then q else append_projection_payloads q (map b_payload additions))
            (log_payloads (rc_store r) ids)) as Hq.
  { rewrite El. destruct additions; cbn [is_nil]; [by rewrite app_nil_r|]. by apply append_projection_spec. }
  split; [exact Hq|]. by apply Hcount.
Qed.

(** *** Every sequence of requests *)

Inductive SidecarRequest :=
| ChatRequest (token : option str) (body : bytes)
| FrameRequest (token : option str) (body : bytes)
| ReadyRequest.

Definition serve (s : SidecarState) (q : SidecarRequest) : SidecarState :=
  match q with
  | ChatRequest token body => fst (chat_completions s token body)
  | FrameRequest token body => fst (sidecar_frame s token body)
  | ReadyRequest => fst (readyz flush s)
  end.

(** The states of a sidecar started on a store. *)
Inductive served : SidecarState -> Prop :=
| served_start store token : served (sidecar_new store token)
| served_next s q : served s -> small (serve s q) -> served (serve s q).

Lemma ok_same s s' :
  sidecar_ok s -> same_receiver (sc_receiver s) (sc_receiver s') ->
  (forall sid p, pc_entries (sc_cache s') !! sid = Some p -> pc_entries (sc_cache s) !! sid = Some p) -> sidecar_ok s'.
Proof.
  intros [Hh Ht] Hs Hc. split; [by eapply held_same|]. intros sid p E. apply (truthful_same (sc_receiver s)); [done|].
  by apply Ht, Hc.
Qed.

(** An APPEND keeps what is cached true: it extends logs only. *)
Lemma truthful_append r f r' out sid p : held r -> handle_append blake3 r f = (r', out) -> truthful r sid p -> truthful r' sid p.
Proof.
  intros Hh E T. destruct (held_append blake3 _ _ _ _ Hh E) as [_ K]. apply (truthful_mono r); [done|done|].
  destruct (decide (sid = a_session f)) as [->|Hne].
  2: { exists []. rewrite app_nil_r. destruct (append_other blake3 _ _ _ _ sid E Hne) as (_ & H2 & _). by apply session_ids_eq. }
  pose proof (handle_append_outcome blake3 r f) as O. rewrite E in O.
  destruct (append_cases blake3 _ _ _ _ O) as
    [(e & -> & Hs & Hss)|[(rs & _ & _ & _ & _ & _ & -> & ->)|(rs & s & _ & Kn & P & _ & A & -> & ->)]].
  - exists []. rewrite app_nil_r. by rewrite Hs.
  - exists []. by rewrite app_nil_r.
  - destruct (append_all_spec blake3 (a_session f) rs _ _ Kn) as (s' & E' & _ & Ei & _); [set_solver|].
    rewrite A in E'. injection E' as <-. by eexists.
Qed.

(** After an acknowledged APPEND the session is there, with all its blocks. *)
Lemma acked_append r f r' ack :
  held r -> handle_append blake3 r f = (r', Ok ack) ->
  is_Some (rc_sessions r' !! a_session f)
  /\ Forall (fun id => is_Some (st_blocks (rc_store r') !! id)) (session_ids (rc_store r') (a_session f))
  /\ ack = mk_ack (a_session f) (session_root (rc_store r') (a_session f)).
Proof.
  intros Hh E. destruct (held_append blake3 _ _ _ _ Hh E) as [Hh' _].
  assert (is_Some (rc_sessions r' !! a_session f) /\ ss_pending (session_entry r' (a_session f)) = ∅
    /\ ack = mk_ack (a_session f) (session_root (rc_store r') (a_session f))) as (Hs & Hp & Hack).
  { pose proof (handle_append_outcome blake3 r f) as O. rewrite E in O.
    destruct (append_cases blake3 _ _ _ _ O) as
      [(e & ? & _)|[(rs & _ & _ & P & _ & _ & -> & [= ->])|(rs & s & _ & _ & P & _ & _ & -> & [= ->])]]; [done| |];
      (split; [cbn; rewrite lookup_insert_eq; by eexists|]); (split; [|done]).
    - by rewrite session_entry_put.
    - rewrite <- P. unfold session_entry at 1. cbn. by rewrite lookup_insert_eq. }
  split_and!; [done| |done]. apply list.Forall_forall. intros id Hid. apply (Hh' (a_session f)); [done|]. rewrite Hp. set_solver.
Qed.

Lemma same_small_ids (r r' : Receiver) sid : same_receiver r r' -> session_ids (rc_store r') sid = session_ids (rc_store r) sid.
Proof. intros [Hv _]. destruct (view_eq _ _ Hv) as [_ Es]. unfold session_ids. by rewrite Es. Qed.

(** What is sent to the gateway. *)
Lemma forwarded_body s f r ack s1 request b len p :
  sidecar_ok s -> handle_append blake3 (sc_receiver s) f = (r, Ok ack) -> same_receiver r (sc_receiver s1) ->
  session_len (rc_store (sc_receiver s1)) (a_session f) < umax 64 ->
  reconstruct_request_body (sc_receiver s1) (a_session f) request (ack_root ack)
    (snd (cache_get (sc_cache s) (a_session f) (a_base f))) = Ok (b, len, p) ->
  let store := rc_store (sc_receiver s1) in let ids := session_ids store (a_session f) in
  Forall (fun id => is_Some (st_blocks store !! id)) ids
  /\ truthful (sc_receiver s1) (a_session f) p
  /\ (exists open, jw_print request = open ++ [125]
        /\ b = open ++ MESSAGES_OPEN ++ json_join (map b_payload (reconstruct store (a_session f))) ++ [93; 125])
  /\ len = Z.min (length_z b) (umax 64).
Proof.
  intros [Hh Ht] E Hsame Hs Hb store ids.
  destruct (acked_append _ _ _ _ Hh E) as ([st Hst] & F & _).
  pose proof Hsame as [Hv Hss]. destruct (view_eq _ _ Hv) as [Eb Es].
  assert (Forall (fun id => is_Some (st_blocks store !! id)) ids) as F1.
  { unfold ids, store. rewrite (same_small_ids _ _ _ Hsame), <- Eb. exact F. }
  unfold reconstruct_request_body in Hb. destruct (jw_is_object request); [|done]. cbn [negb] in Hb.
  destruct (bool_decide _) in Hb; [done|].
  destruct (rev (jw_print request)) as [|c rest] eqn:Er; [done|].
  assert (c = 125 /\ (let? q := extend_or_reconstruct_projection (sc_receiver s1) (a_session f) (ack_root ack)
                        (snd (cache_get (sc_cache s) (a_session f) (a_base f))) in
            Ok ((rev rest ++ MESSAGES_OPEN) ++ concat (pj_chunks q) ++ [93; 125],
                sat_add 64 (sat_add 64 (length_z (rev rest ++ MESSAGES_OPEN)) (pj_json_bytes q)) 2, q)) = Ok (b, len, p)) as [-> Hb'].
  { destruct c as [|c|c]; [done| |done]. do 7 (destruct c as [c|c|]; try done). }
  clear Hb. destruct (extend_or_reconstruct_projection _ _ _ _) as [q|e|] eqn:X; [|done..].
  cbn [res_bind] in Hb'. injection Hb' as <- <- <-.
  destruct (extend_spec _ _ _ _ _ X) as [P C]; [rewrite <- Hss; by eexists|exact F1|exact Hs| |].
  { intros q' Hq. apply (truthful_same r); [done|]. eapply truthful_append; [exact Hh|exact E|]. apply Ht.
    unfold cache_get in Hq. destruct (pc_entries _ !! _) as [x|]; [|done].
    destruct (bool_decide _) in Hq; [|done]. by injection Hq as <-. }
  fold store ids in P, C. split_and!; [done| | |].
  - exists ids, []. by rewrite app_nil_r.
  - exists (rev rest). split; [by rewrite <- (rev_involutive (jw_print request)), Er|].
    rewrite reconstruct_payloads. fold ids. destruct P as [<- _]. by rewrite <- app_assoc.
  - destruct P as (P1 & _ & -> & _). rewrite <- P1. unfold sat_add, length_z. rewrite !length_app. cbn [length]. lia.
Qed.

Lemma chat_ok s token body s' reply :
  sidecar_ok s -> chat_completions s token body = (s', reply) -> small s' -> sidecar_ok s'.
Proof.
  intros Hok E Hs. pose proof (chat_completions_outcome s token body) as O. rewrite E in O.
  inversion O as [x1 x2 Hu Hc Hr Ha|request frame f r ack s1 b len p E1 E2 E3 Hsame Hc Hu Hb]; subst.
  - destruct Hr as [Hr|(f & r & out & A & Hsame)].
    + apply (ok_same s); [done|by rewrite Hr|by rewrite Hc].
    + destruct Hok as [Hh Ht]. apply (ok_same (set_receiver s r)); [|exact Hsame|by rewrite Hc].
      split; [by eapply held_append|]. intros sid p Hp. eapply truthful_append; [exact Hh|exact A|]. by apply Ht.
  - specialize (Hs (a_session f)) as Hs'. cbn in Hs'.
    destruct (forwarded_body _ _ _ _ _ _ _ _ _ Hok E3 Hsame Hs' Hb) as (_ & T & _).
    destruct Hok as [Hh Ht]. pose proof (held_append blake3 _ _ _ _ Hh E3) as [Hh' _].
    split; [by eapply held_same|]. intros sid q. cbn [sc_cache set_cache pc_entries].
    intros [[-> ->]|[Hne G]]%cache_insert_sub; [exact T|]. rewrite Hc in G. apply (truthful_same r); [done|].
    eapply truthful_append; [exact Hh|exact E3|]. by apply Ht.
Qed.

Lemma frame_ok' s token body : sidecar_ok s -> sidecar_ok (fst (sidecar_frame s token body)).
Proof.
  intros [Hh Ht]. unfold Sidecar.sidecar_frame. destruct (authorized _ _); cbn [negb fst]; [|done].
  destruct (decode_frame body) as [f|e|]; [|done..].
  set (s0 := set_cache s _). destruct (handle_frame blake3 (sc_receiver s0) f) as [r out] eqn:E.
  assert (sidecar_ok (set_receiver s0 r)) as Hok.
  { destruct (held_frame blake3 _ _ _ _ Hh E) as [Hh' K]. split; [done|]. intros sid p. cbn.
    intros [Hne Hp]%lookup_delete_Some. apply (truthful_mono (sc_receiver s)); [by apply Ht|done|].
    exists []. rewrite app_nil_r. apply session_ids_eq.
    apply (handle_frame_other blake3 _ _ _ _ _ E). by destruct f; cbn in *; congruence. }
  destruct out as [response|e|]; cbn [fst]; [|done..].
  pose proof (flush_log_spec (set_receiver s0 r)) as Hf.
  destruct (flush_log flush (set_receiver s0 r)) as [s2 o]. destruct Hf as (F1 & F2 & _).
  assert (sidecar_ok s2) by (apply (ok_same (set_receiver s0 r)); [done|done|by rewrite F2]).
  by destruct o.
Qed.

Lemma served_ok s : served s -> sidecar_ok s.
Proof.
  induction 1 as [store token|s q _ IH Hs].
  - split; [apply receiver_held_new|]. intros sid p. cbn. by rewrite lookup_empty.
  - destruct q as [token body|token body|]; cbn [serve] in *.
    + destruct (chat_completions s token body) as [s' reply] eqn:E. by eapply chat_ok.
    + by apply frame_ok'.
    + unfold readyz. pose proof (flush_log_spec s) as Hf. destruct (flush_log flush s) as [s' o]. destruct Hf as (F1 & F2 & _).
      assert (sidecar_ok s') by (apply (ok_same s); [done|done|by rewrite F2]). by destruct o.
Qed.

(** C15: The request the gateway sees.  Whatever requests a sidecar has served since
    it started on its store, a chat request that is answered with an
    acknowledgement has extended its session, acknowledges that session's root,
    and sends the gateway one request more: the request object of the envelope
    with, as its messages, the payload of every block of the session's log, in
    order and none missing, whether the projection came from the cache or was
    rebuilt; the length announced is the length of that body.  A request that
    is refused sends the gateway nothing. *)
Theorem gateway_request s token body s' reply :
  served s -> chat_completions s token body = (s', reply) -> small s' ->
  match ack_of reply with
  | None => sc_upstream s' = sc_upstream s
  | Some header =>
      exists request frame f ack open b,
        envelope_decode body = Ok (request, frame) /\ decode_frame frame = Ok (FAppend f)
        /\ snd (handle_append blake3 (sc_receiver s) f) = Ok ack
        /\ let store := rc_store (sc_receiver s') in
           header = root_hex (session_root store (a_session f))
           /\ ack_root ack = session_root store (a_session f)
           /\ length (reconstruct store (a_session f)) = length (session_ids store (a_session f))
           /\ jw_print request = open ++ [125]
           /\ b = open ++ MESSAGES_OPEN ++ json_join (map b_payload (reconstruct store (a_session f))) ++ [93; 125]
           /\ sc_upstream s' = sc_upstream s ++ [(b, Z.min (length_z b) (umax 64))]
  end.
Proof.
  intros Hserved E Hs. apply served_ok in Hserved as Hok.
  pose proof (chat_completions_outcome s token body) as O. rewrite E in O.
  inversion O as [x1 x2 Hu Hc Hr Ha|request frame f r ack s1 b len p E1 E2 E3 Hsame Hc Hu Hb]; subst; [by rewrite Ha|].
  cbn [ack_of cr_ack]. specialize (Hs (a_session f)) as Hs'. cbn in Hs'.
  destruct (forwarded_body _ _ _ _ _ _ _ _ _ Hok E3 Hsame Hs' Hb) as (F & _ & (open & Ho & ->) & ->).
  destruct (acked_append _ _ _ _ (proj1 Hok) E3) as (_ & _ & Hack).
  assert (ack_root ack = session_root (rc_store (sc_receiver s1)) (a_session f)) as Hroot.
  { rewrite Hack. cbn [ack_root]. destruct Hsame as [Hv _]. destruct (view_eq _ _ Hv) as [_ Es]. unfold session_root. by rewrite Es. }
  exists request, frame, f, ack, open. eexists. split_and!; [exact E1|exact E2|by rewrite E3|exact (f_equal root_hex Hroot)|exact Hroot| |exact Ho|reflexivity|].
  - cbn [sc_receiver]. rewrite <- (length_map b_payload), reconstruct_payloads. by apply log_payloads_length.
  - cbn [sc_upstream set_cache]. by rewrite Hu.
Qed.
End Server.

(** ** The client connected to the sidecar *)

Section Transparent.
Context `{JsonWireLaws} {zstd : Zstd} {zlaws : ZstdLaws zstd} {total : ZstdTotal zstd}.
Variable blake3 : bytes -> bytes.
Variable xxh3 : bytes -> Z.
Variable cpu : Cpu.
(** The dictionary of both ends. *)
Variable rc : Compressor.
#[local] Instance codec : Codec := receiver_codec cpu rc.
Variable say : SidecarError -> str.
Variable flush : SidecarState -> res IoError unit.
Variable gateway : list (bytes * Z) -> str + Response.
Variable token : option str.

(** A block whose payload is a message object. *)
Definition message_block (b : Block) : Prop :=
  exists m, b_payload b = jw_print m /\ jw_is_object m = true /\ is_Some (role_of m).

(** A block as a frame carries it. *)
Definition wired (b : Block) (fb : FrameBlock) : Prop :=
  match fb with
  | Inline wb => recover_block blake3 (b_payload wb) = Ok (b, block_id blake3 b) /\ block_ok wb
  | Ref id => id = block_id blake3 b
  end.

Lemma turn_wired l : forall w s w' s' fbs,
  ingest_blocks blake3 xxh3 w s l = (w', s', fbs) ->
  c_dict (sh_append_compressor s) = c_dict rc ->
  Forall (fun b => block_ok b /\ length_z (b_payload b) <= 2 ^ 26) l -> Forall2 wired l fbs.
Proof.
  induction l as [|b l IH]; intros w s w' s' fbs E Hc Hl; cbn [ingest_blocks] in E; [by injection E as <- <- <-|].
  destruct (ingest_block blake3 xxh3 w s b) as [[w1 s1] fb] eqn:E1.
  destruct (ingest_blocks blake3 xxh3 w1 s1 l) as [[w2 s2] fbs2] eqn:E2. injection E as <- <- <-.
  apply list.Forall_cons in Hl as [[Hb Hp] Hl]. apply ingest_block_spec in E1 as (-> & _ & Hw).
  constructor; [|by eapply IH]. destruct fb as [wb|id]; cbn [wire_of wired] in *; [|by destruct Hw].
  pose proof (canonical_length b Hb) as Hcl.
  destruct (wire_trip rc (sh_append_compressor s) (canonical_bytes b) Hc ltac:(lia)) as (z & Hz & _ & Hlen & Hok).
  rewrite (Hw z Hz). cbn [b_payload]. split; [exact (recover_wire blake3 cpu rc _ b z Hc Hb Hz)|].
  assert (length_z (canonical_bytes b) = length_z (b_payload b) + 17) as Hcb.
  { unfold canonical_bytes, length_z. cbn [length]. rewrite !length_app, !length_le_bytes. lia. }
  destruct Hb as (Hs & Hbytes & _). split_and!; cbn [b_seq b_payload]; [done| |].
  - apply Hok. apply canonical_bytes_ok. split_and!; try done. unfold MAX_BLOCK_PAYLOAD_BYTES. lia.
  - unfold MAX_BLOCK_PAYLOAD_BYTES. lia.
Qed.

(** What a turn's blocks resolve to. *)
Definition resolved_as (b : Block) (x : Resolved) : Prop :=
  x = RInline (block_id blake3 b) b \/ x = RRef (block_id blake3 b).

Lemma wired_resolves l fbs : Forall2 wired l fbs ->
  exists rs, resolve blake3 fbs = Ok rs /\ Forall2 resolved_as l rs.
Proof.
  induction 1 as [|b fb l fbs Hw _ (rs & R & F)]; [exists []; split; [done|constructor]|]. destruct fb as [wb|id]; cbn [wired resolve] in *.
  - destruct Hw as [-> _]. cbn [res_bind]. rewrite R. eexists. split; [done|]. constructor; [by left|done].
  - rewrite R. subst id. eexists. split; [done|]. constructor; [by right|done].
Qed.

Lemma recover_block_inv z b id : recover_block blake3 z = Ok (b, id) ->
  exists canon, DlrReceiver.decompress z = Some canon /\ from_canonical_owned blake3 canon = Ok (b, id).
Proof.
  unfold recover_block. destruct (DlrReceiver.decompress z) as [canon|]; [|done].
  destruct (from_canonical_owned _ _) as [[b' id']|e|] eqn:E; [|done..]. intros [= -> ->]. by exists canon.
Qed.

Lemma message_validates b : message_block b ->
  exists v, jw_parse (b_payload b) = Some v /\ jw_is_object v = true /\ forall i, validate_message_object v i = Ok tt.
Proof.
  intros (m & -> & Ho & Hr). exists m. rewrite jw_parse_print. split_and!; [done|done|]. intros i.
  unfold validate_message_object. by destruct Hr as [? ->].
Qed.

Lemma validate_blocks_ok (r : Receiver) l fbs : Forall2 wired l fbs -> forall rs inline i,
  resolve blake3 fbs = Ok rs -> refs_known (rc_store r) (dom inline) rs = true ->
  Forall message_block l -> (forall id b, inline !! id = Some b -> message_block b) ->
  (forall b b', b ∈ l -> st_blocks (rc_store r) !! block_id blake3 b = Some b' -> message_block b') ->
  validate_blocks blake3 r inline i fbs = Ok tt.
Proof.
  induction 1 as [|b fb l fbs Hw _ IH]; intros rs inline i R K Hm Hi Hs; [done|].
  apply list.Forall_cons in Hm as [Hb Hm]. cbn [validate_blocks].
  assert (forall b b', b ∈ l -> st_blocks (rc_store r) !! block_id blake3 b = Some b' -> message_block b') as Hs'.
  { intros x x' Hx. apply Hs. by apply list_elem_of_further. }
  destruct fb as [wb|id]; cbn [wired resolve] in *.
  - destruct Hw as [Hw _]. rewrite Hw in R. cbn [res_bind] in R.
    destruct (resolve blake3 fbs) as [rs'|e|]; [|done..]. injection R as <-. cbn [refs_known] in K.
    destruct (recover_block_inv _ _ _ Hw) as (canon & -> & ->). cbn [res_bind].
    destruct (message_validates b Hb) as (v & -> & -> & Hv). cbn [negb]. rewrite Hv. cbn [res_bind].
    apply (IH rs'); [done| |done| |done].
    + by rewrite dom_insert_L.
    + intros id b'. rewrite lookup_insert_Some. intros [[_ <-]|[_ Hid]]; [done|by eapply Hi].
  - subst id. destruct (resolve blake3 fbs) as [rs'|e|]; [|done..]. injection R as <-. cbn [refs_known] in K.
    apply andb_true_iff in K as [K1 K].
    assert (exists b', message_block b' /\
      match store_get (rc_store r) (block_id blake3 b) with
      | Some b => Ok (b, inline)
      | None => match inline !! block_id blake3 b with Some b => Ok (b, inline) | None => Err (SReceiver EMissingRef) end
      end = Ok (b', inline)) as (b' & Hb' & ->).
    { unfold store_get. destruct (st_blocks (rc_store r) !! block_id blake3 b) as [b'|] eqn:G.
      - exists b'. split; [|done]. eapply Hs; [|exact G]. apply list_elem_of_here.
      - apply orb_true_iff in K1 as [K1|K1]; [apply contains_Some in K1; rewrite G in K1; by destruct K1|].
        apply bool_decide_eq_true, elem_of_dom in K1 as [b' Hb']. rewrite Hb'. exists b'. split; [by eapply Hi|done]. }
    cbn [res_bind]. destruct (message_validates b' Hb') as (v & -> & -> & Hv). cbn [negb]. rewrite Hv. cbn [res_bind].
    by apply (IH rs').
Qed.

(** *** What [prepare_ref] prepares *)

Definition message_ok (m : Json) : Prop := jw_is_object m = true /\ is_Some (role_of m).
Definition new_blocks (s : ChatSession) (ms : list Json) : list Block :=
  number_blocks (ch_next_seq s) (map (fun m => (message_kind m, jw_print m)) ms).

Lemma serialize_spec ms : forall i l, serialize_messages i ms = Ok l ->
  l = map (fun m => (message_kind m, jw_print m)) ms /\ Forall message_ok ms.
Proof.
  induction ms as [|m ms IH]; intros i l; cbn [serialize_messages]; [by intros [= <-]|].
  destruct (jw_is_object m) eqn:Ho; cbn [negb]; [|done]. unfold validate_message_object.
  destruct (role_of m) eqn:Hr; [|done]. cbn [res_bind]. destruct (serialize_messages (S i) ms) as [rest|e|] eqn:E; [|done..].
  intros [= <-]. destruct (IH _ _ E) as [-> F]. split; [done|]. constructor; [|done]. split; [done|by rewrite Hr].
Qed.

Lemma fold_size {K} (l : list (K * bytes)) : forall init,
  let size := fold_left (fun size (x : K * bytes) => size + 39 + length_z x.2) l init in
  39 * length_z l <= size - init /\ Forall (fun x => length_z x.2 <= size - init) l.
Proof.
  induction l as [|x l IH]; intros init; cbn [fold_left]; [split; [unfold length_z; cbn; lia|done]|].
  destruct (IH (init + 39 + length_z x.2)) as [H1 H2]. cbv zeta. set (size := fold_left _ l _) in *.
  pose proof (length_z_nonneg x.2). pose proof (length_z_nonneg l).
  assert (length_z (x :: l) = length_z l + 1) as -> by (unfold length_z; cbn [length]; lia).
  split; [lia|]. constructor; [lia|]. eapply List.Forall_impl; [|exact H2]. cbv beta. lia.
Qed.

Lemma number_blocks_spec l : forall seq, in_u 64 seq ->
  Forall (fun x => bytes_ok x.2 /\ length_z x.2 <= 2 ^ 26) l ->
  map b_payload (number_blocks seq l) = map snd l /\ length (number_blocks seq l) = length l
  /\ Forall (fun b => block_ok b /\ length_z (b_payload b) <= 2 ^ 26) (number_blocks seq l).
Proof.
  induction l as [|[k x] l IH]; intros seq Hseq F; [done|]. apply list.Forall_cons in F as [[F1 F2] F]. cbn in F1, F2.
  destruct (IH (sat_add 64 seq 1)) as (H1 & H2 & H3); [apply sat_add_range; [lia|done|unfold in_u; lia]|done|].
  cbn [number_blocks map length snd]. rewrite H1, H2. split_and!; [done|done|]. constructor; [|done].
  split; [|done]. split_and!; [done|done|]. cbn. unfold MAX_BLOCK_PAYLOAD_BYTES. lia.
Qed.

Lemma fold_seq {K} (l : list K) : forall seq, in_u 64 seq -> in_u 64 (fold_left (fun seq _ => sat_add 64 seq 1) l seq).
Proof. induction l as [|x l IH]; intros seq Hs; [done|]. cbn. apply IH, sat_add_range; [lia|done|unfold in_u; lia]. Qed.

Lemma fold_bytes {K} (l : list (K * bytes)) :
  fold_left (fun n (x : K * bytes) => n + length_z x.2) l 0 = length_z (concat (map snd l)).
Proof.
  change 0 with (length_z ([] : bytes)) at 1. rewrite <- (app_nil_l (concat _)). generalize ([] : bytes) as pre.
  induction l as [|x l IH]; intros pre; cbn [fold_left map concat]; [by rewrite app_nil_r|].
  rewrite app_assoc, <- IH. f_equal. unfold length_z. rewrite length_app. lia.
Qed.

Lemma prepare_inv s ms request s1 p :
  in_u 64 (ch_next_seq s) -> prepare_ref blake3 xxh3 s ms request = (s1, Ok p) ->
  ch_pending_root s = None /\ jw_is_object request = true /\ jw_get request (lit "messages") = None
  /\ Forall message_ok ms /\ length_z (new_blocks s ms) <= MAX_FRAME_COUNT
  /\ Forall (fun b => block_ok b /\ length_z (b_payload b) <= 2 ^ 26) (new_blocks s ms)
  /\ map b_payload (new_blocks s ms) = map jw_print ms
  /\ exists w shim fbs seq,
       ingest_blocks blake3 xxh3 (ch_parts s) (ch_shim s) (new_blocks s ms) = (w, shim, fbs)
       /\ in_u 64 seq /\ s1 = mk_chat_session w shim seq (Some (sh_root shim)) /\ pr_expected_root p = sh_root shim
       /\ encode_parts (METADATA_OPEN ++ jw_print request ++ [125])
            (encode_frame (FAppend (mk_append (sh_session shim) (sh_base_root shim) fbs))) = Ok (pr_body p)
       /\ pr_request_json_bytes p = length_z (jw_print request)
       /\ pr_new_messages_json_bytes p = length_z (concat (map jw_print ms)).
Proof.
  intros Hseq. unfold prepare_ref. destruct (ch_pending_root s); [done|].
  destruct (jw_is_object request) eqn:Ho; cbn [negb]; [|done]. case_bool_decide as Hg; [done|].
  destruct (serialize_messages 0 ms) as [l|e|] eqn:E; [|done..]. destruct (serialize_spec _ _ _ E) as [-> Hm].
  set (l := map _ ms) in *.
  unfold validate_request_value. rewrite Ho. cbn [negb]. rewrite (bool_decide_eq_false_2 _ Hg).
  cbv zeta. destruct (MAX_METADATA_BYTES <? _); [done|].
  destruct (MAX_REQUEST_BYTES <? _) eqn:Hsize; [done|]. apply Z.ltb_ge in Hsize.
  destruct (fold_size l (10 + length_z (METADATA_OPEN ++ jw_print request ++ [125]) + 53)) as [F1 F2]. cbv zeta in F1, F2.
  set (size := fold_left _ l _) in *.
  pose proof (length_z_nonneg (METADATA_OPEN ++ jw_print request ++ [125])) as Hnn.
  assert (Forall (fun x => bytes_ok x.2 /\ length_z x.2 <= 2 ^ 26) l) as Fl.
  { apply list.Forall_forall. intros x Hx. split.
    - apply list_elem_of_fmap in Hx as (m & -> & _). apply jw_bytes.
    - rewrite list.Forall_forall in F2. specialize (F2 x Hx). cbv beta in F2. unfold MAX_REQUEST_BYTES in Hsize. lia. }
  destruct (number_blocks_spec l (ch_next_seq s) Hseq Fl) as (N1 & N2 & N3).
  change (number_blocks (ch_next_seq s) l) with (new_blocks s ms) in *.
  unfold ingest_turn. destruct (ingest_blocks _ _ _ _ _) as [[w shim] fbs] eqn:I.
  destruct (encode_parts _ _) as [body|e|] eqn:P; intros [= <- <-].
  split_and!; [done|done|by destruct (jw_get request _); [destruct Hg; eexists|]|done| |exact N3| |].
  - unfold length_z in *. rewrite N2. unfold MAX_REQUEST_BYTES, MAX_FRAME_COUNT in *. lia.
  - rewrite N1. unfold l. by rewrite map_map.
  - exists w, shim, fbs, (fold_left (fun seq _ => sat_add 64 seq 1) l (ch_next_seq s)).
    split_and!; [reflexivity|by apply fold_seq|reflexivity|reflexivity|exact P|reflexivity|].
    cbn [pr_new_messages_json_bytes]. unfold l. rewrite fold_bytes. f_equal. rewrite map_map. reflexivity.
Qed.

(** *** A request that cannot be prepared *)

Lemma fold_worst {K} (l : list (K * bytes)) : forall init,
  fold_left (fun size (x : K * bytes) => size + 39 + length_z x.2) l init = init + 39 * length_z l + length_z (concat (map snd l)).
Proof.
  unfold length_z. induction l as [|x l IH]; intros init; cbn [fold_left map concat length]; [lia|].
  rewrite IH, length_app. lia.
Qed.

(** The blocks of a turn take no more room than [prepare_ref] allows them. *)
Lemma turn_size l : forall w s w' s' fbs,
  ingest_blocks blake3 xxh3 w s l = (w', s', fbs) -> (forall x, id_ok (blake3 x)) -> Forall block_ok l ->
  length_z (concat (map encode_frame_block fbs)) <= 39 * length_z l + length_z (concat (map b_payload l))
  /\ sh_session s' = sh_session s /\ sh_base_root s' = sh_base_root s /\ length fbs = length l.
Proof.
  induction l as [|b l IH]; intros w s w' s' fbs E Hh Hl; cbn [ingest_blocks] in E; [by injection E as <- <- <-|].
  destruct (ingest_block blake3 xxh3 w s b) as [[w1 s1] fb] eqn:E1.
  destruct (ingest_blocks blake3 xxh3 w1 s1 l) as [[w2 s2] fbs2] eqn:E2. injection E as <- <- <-.
  apply list.Forall_cons in Hl as [Hb Hl]. apply ingest_block_spec in E1 as (-> & _ & Hw).
  destruct (IH _ _ _ _ _ E2 Hh Hl) as (H1 & H2 & H3 & H4). split_and!; [|exact H2|exact H3|cbn [length]; by rewrite H4].
  assert (length_z (encode_frame_block fb) <= 39 + length_z (b_payload b)) as Hf.
  { destruct fb as [wb|id]; cbn [wire_of] in Hw.
    - pose proof (canonical_length b Hb) as Hcl.
      destruct (wire_trip (sh_append_compressor s) (sh_append_compressor s) (canonical_bytes b) eq_refl ltac:(lia)) as (z & Hz & _ & Hlen & _).
      rewrite (Hw z Hz). unfold encode_frame_block, put_u32_le. unfold canonical_bytes, length_z in *. cbn [length b_payload] in *.
      rewrite !length_app, !length_le_bytes in *. cbn [length] in *. rewrite ?length_app, ?length_le_bytes in *. lia.
    - destruct Hw as [-> _]. destruct (Hh (canonical_bytes b)) as [Hid _]. unfold encode_frame_block, put_u32_le, block_id, length_z.
      rewrite !length_app, length_le_bytes, Hid. cbn [length]. lia. }
  unfold length_z in *. cbn [map concat length]. rewrite !length_app. lia.
Qed.

(** C22: Preparing a request is atomic.  Whatever is wrong with it, a request that
    is refused, for its form, its size, or an earlier one in flight, leaves the
    session exactly as it was: the frame never outgrows the size that was
    checked before the session was touched. *)
Theorem prepare_atomic s ms request s' e :
  (forall x, id_ok (blake3 x)) -> in_u 64 (ch_next_seq s) -> id_ok (sh_base_root (ch_shim s)) ->
  prepare_ref blake3 xxh3 s ms request = (s', Err e) -> s' = s.
Proof.
  intros Hh Hseq Hbase. unfold prepare_ref. destruct (ch_pending_root s); [by intros [= <- _]|].
  destruct (jw_is_object request) eqn:Ho; cbn [negb]; [|by intros [= <- _]]. case_bool_decide as Hg; [by intros [= <- _]|].
  destruct (serialize_messages 0 ms) as [l|e'|] eqn:E; [|by intros [= <- _]|done]. destruct (serialize_spec _ _ _ E) as [El _].
  unfold validate_request_value. rewrite Ho. cbn [negb]. rewrite (bool_decide_eq_false_2 _ Hg). cbv zeta.
  set (metadata := METADATA_OPEN ++ jw_print request ++ [125]).
  destruct (MAX_METADATA_BYTES <? length_z metadata) eqn:Hm; [by intros [= <- _]|].
  destruct (MAX_REQUEST_BYTES <? _) eqn:Hsize; [by intros [= <- _]|]. apply Z.ltb_ge in Hsize.
  destruct (fold_size l (10 + length_z metadata + 53)) as [_ F2]. cbv zeta in F2.
  rewrite fold_worst in Hsize, F2. pose proof (length_z_nonneg metadata) as Hnn.
  assert (Forall (fun x => bytes_ok x.2 /\ length_z x.2 <= 2 ^ 26) l) as Fl.
  { apply list.Forall_forall. intros x Hx. split.
    - subst l. apply list_elem_of_fmap in Hx as (m & -> & _). apply jw_bytes.
    - rewrite list.Forall_forall in F2. specialize (F2 x Hx). cbv beta in F2. unfold MAX_REQUEST_BYTES in Hsize. lia. }
  destruct (number_blocks_spec l (ch_next_seq s) Hseq Fl) as (N1 & N2 & N3).
  unfold ingest_turn. destruct (ingest_blocks _ _ _ _ _) as [[w shim] fbs] eqn:I.
  destruct (turn_size _ _ _ _ _ _ I Hh) as (T1 & T2 & T3 & T4).
  { eapply List.Forall_impl; [|exact N3]. by intros b [? _]. }
  rewrite N1 in T1. destruct Hbase as [Hb32 _].
  unfold encode_parts. rewrite Hm. destruct (MAX_REQUEST_BYTES <? _) eqn:Hbig; [|done]. exfalso. apply Z.ltb_lt in Hbig.
  unfold encode_frame, put_u128, put_u32_le in Hbig. cbn [a_session a_base a_blocks] in Hbig. rewrite T3 in Hbig.
  unfold length_z in *. rewrite !length_app, !length_le_bytes, Hb32, N2 in *. cbn [length] in *. lia.
Qed.

(** *** Stores after a turn *)

Lemma turn_view_blocks l : forall v sid id b,
  (turn_view blake3 v sid l).1 !! id = Some b -> v.1 !! id = Some b \/ b ∈ l /\ id = block_id blake3 b.
Proof.
  induction l as [|x l IH]; intros v sid id b E; [by left|]. rewrite turn_view_cons in E.
  apply IH in E as [E|[E ->]]; [|right; split; [by apply list_elem_of_further|done]].
  cbn [turn_view fold_left] in E.
  destruct (view_push_spec blake3 (view_put blake3 v x) sid (block_id blake3 x)) as (B1 & _ & _).
  unfold turn_view in E. cbn [fold_left] in E. rewrite B1 in E. unfold view_put in E.
  destruct (v.1 !! block_id blake3 x); [by left|]. cbn [fst] in E. apply lookup_insert_Some in E as [[<- <-]|[_ E]]; [|by left].
  right. split; [apply list_elem_of_here|done].
Qed.

Lemma turn_view_keeps l : forall v sid id b, v.1 !! id = Some b -> (turn_view blake3 v sid l).1 !! id = Some b.
Proof.
  induction l as [|x l IH]; intros v sid id b E; [done|]. rewrite turn_view_cons. apply IH.
  unfold turn_view. cbn [fold_left].
  destruct (view_push_spec blake3 (view_put blake3 v x) sid (block_id blake3 x)) as (B1 & _ & _). rewrite B1.
  unfold view_put. destruct (v.1 !! block_id blake3 x) eqn:G; [done|]. cbn [fst]. rewrite lookup_insert_ne; [done|congruence].
Qed.

Lemma append_all_blocks sid l rs : Forall2 resolved_as l rs -> forall s s',
  append_all blake3 s sid rs = (s', Ok tt) ->
  forall id b, st_blocks s' !! id = Some b -> st_blocks s !! id = Some b \/ b ∈ l /\ id = block_id blake3 b.
Proof.
  induction 1 as [|x y l rs Hx _ IH]; intros s s' E id b Hb; cbn [append_all] in E; [injection E as <-; by left|].
  destruct Hx as [-> | ->].
  - apply (IH _ _ E) in Hb as [Hb|[Hb ->]]; [|right; split; [by apply list_elem_of_further|done]].
    assert (st_blocks (fst (insert_with_id blake3 s sid x (block_id blake3 x))) = (turn_view blake3 (view s) sid [x]).1) as V
      by exact (f_equal fst (view_insert blake3 s sid x None)).
    rewrite V in Hb. destruct (turn_view_blocks [x] (view s) sid id b Hb) as [H1|[H1 H2]]; [by left|].
    right. apply list_elem_of_singleton in H1 as ->. split; [apply list_elem_of_here|done].
  - pose proof (view_reference blake3 s sid (block_id blake3 x)) as Hr.
    destruct (reference _ _ _ _) as [s2|u|]; [|done..]. destruct Hr as [Hr [b' Hb']].
    apply (IH _ _ E) in Hb as [Hb|[Hb ->]]; [|right; split; [by apply list_elem_of_further|done]]. left.
    assert (st_blocks s2 = (view_rec blake3 (view s) (RReference sid (block_id blake3 x))).1) as V by exact (f_equal fst Hr).
    rewrite V in Hb. cbn in Hb. by rewrite Hb' in Hb.
Qed.

(** *** The two ends of a session *)

(** The receiver has the session of the client: its log, its root, its blocks. *)
Record mirrored (r : Receiver) (w : SharedParts) (s : SessionShim) : Prop := {
  mi_dict : c_dict (sh_append_compressor s) = c_dict rc;
  mi_base : sh_base_root s = sh_root s;
  mi_ids : session_ids (rc_store r) (sh_session s) = sh_ids s;
  mi_root : session_root (rc_store r) (sh_session s) = sh_root s;
  mi_pending : ss_pending (session_entry r (sh_session s)) = ∅;
  mi_blocks : forall id b, st_blocks (w_store w) !! id = Some b -> st_blocks (rc_store r) !! id = Some b;
  mi_log : Forall (fun id => is_Some (st_blocks (w_store w) !! id)) (sh_ids s)
}.

(** No two blocks among the new ones and those of the receiver share an id. *)
Definition no_collision (r : Receiver) (l : list Block) : Prop :=
  (forall b b', b ∈ l -> b' ∈ l -> block_id blake3 b = block_id blake3 b' -> b = b')
  /\ (forall b b', b ∈ l -> st_blocks (rc_store r) !! block_id blake3 b = Some b' -> b' = b).

Lemma resolved_ids l rs : Forall2 resolved_as l rs -> map resolved_id rs = map (block_id blake3) l.
Proof. induction 1 as [|b x l rs [-> | ->] _ IH]; [done|cbn; by f_equal..]. Qed.

(** A turn at the receiver: appended, acknowledged, and the ends agree again. *)
Lemma turn_at_receiver r w s l w' s' fbs (sid := sh_session s) :
  mirrored r w s -> ingest_blocks blake3 xxh3 w s l = (w', s', fbs) ->
  Forall (fun b => block_ok b /\ length_z (b_payload b) <= 2 ^ 26) l -> no_collision r l ->
  sh_session s' = sid /\ sh_base_root s' = sh_base_root s
  /\ exists rs st, resolve blake3 fbs = Ok rs /\ refs_known (rc_store r) ∅ rs = true
    /\ let r' := set_store (put_session r sid (session_entry r sid)) st in
       handle_append blake3 r (mk_append sid (sh_base_root s') fbs) = (r', Ok (mk_ack sid (sh_root s')))
       /\ mirrored r' w' (set_base s' (sh_root s') (length (sh_ids s'))).
Proof.
  intros M I Hl [Hc1 Hc2]. destruct (ingest_blocks_spec blake3 xxh3 _ _ _ _ _ _ I) as [-> Hw].
  destruct (with_ids_spec blake3 (map (block_id blake3) l) s) as (S1 & S2 & S3 & S4 & S5 & S6 & S7 & _).
  rewrite S3, S4. split_and!; [done|done|].
  pose proof (turn_wired _ _ _ _ _ _ I (mi_dict _ _ _ M) Hl) as W.
  destruct (wired_resolves _ _ W) as (rs & R & F).
  assert (refs_known (rc_store r) ∅ rs = true) as K.
  { destruct (turn_resolves blake3 xxh3 cpu rc l _ _ _ _ _ I (mi_dict _ _ _ M)) as (rs' & R' & _ & K & _).
    - eapply List.Forall_impl; [|exact Hl]. by intros b [? _].
    - unfold codec in R. rewrite R' in R. injection R as ->. apply K. intros id [b Hb]. left. apply contains_Some.
      eexists. eapply (mi_blocks _ _ _ M). exact Hb. }
  destruct (append_all_spec blake3 sid rs _ _ K) as (st & A & Ks & Ei & Er & _ & Fs); [set_solver|].
  rewrite (resolved_ids _ _ F) in Ei, Er. unfold sid in Ei, Er. rewrite (mi_ids _ _ _ M) in Ei. rewrite (mi_root _ _ _ M) in Er.
  assert (session_root st sid = sh_root (with_ids blake3 s (map (block_id blake3) l))) as Hroot by (by rewrite S2, <- Er).
  exists rs, st. split_and!; [exact R|exact K|]. cbv zeta. split.
  { rewrite <- Hroot. apply (handle_append_ok blake3 r (mk_append sid (sh_base_root s) fbs) rs st R K);
      [apply (mi_pending _ _ _ M)| |exact A].
    cbn [a_base a_session]. rewrite (mi_base _ _ _ M). symmetry. apply (mi_root _ _ _ M). }
  assert (forall id, (w_store w').(st_blocks) !! id = (turn_view blake3 (view (w_store w)) (sh_session s) l).1 !! id) as Hw'.
  { intros id. exact (f_equal (fun v : View => v.1 !! id) Hw). }
  constructor; cbn [set_base sh_append_compressor sh_base_root sh_root sh_ids sh_session]; rewrite ?S3.
  - by rewrite S7, (mi_dict _ _ _ M).
  - done.
  - cbn [rc_store set_store]. by rewrite S1.
  - exact Hroot.
  - rewrite <- (mi_pending _ _ _ M). unfold session_entry at 1. cbn [rc_sessions set_store put_session].
    by rewrite lookup_insert_eq.
  - intros id b. rewrite Hw'. cbn [rc_store set_store]. intros [Hb|[Hb ->]]%turn_view_blocks.
    + apply Ks, (mi_blocks _ _ _ M), Hb.
    + assert (is_Some (st_blocks st !! block_id blake3 b)) as [b2 Hb2].
      { apply contains_Some. rewrite list.Forall_forall in Fs.
        assert (block_id blake3 b ∈ map resolved_id rs) as Hin.
        { rewrite (resolved_ids _ _ F). apply list_elem_of_fmap. by eexists. }
        apply list_elem_of_fmap in Hin as (x & -> & Hx). by apply Fs. }
      rewrite Hb2. f_equal. destruct (append_all_blocks _ _ _ F _ _ A _ _ Hb2) as [Ho|[Hin Hid]].
      * by apply Hc2 in Ho.
      * symmetry. by apply Hc1.
  - rewrite S1. apply list.Forall_app. split.
    + eapply List.Forall_impl; [|exact (mi_log _ _ _ M)]. intros id [b Hb]. exists b. rewrite Hw'. by apply turn_view_keeps.
    + destruct (turn_view_spec blake3 (sh_session s) l (view (w_store w))) as (_ & Fv & _).
      apply list.Forall_fmap. eapply List.Forall_impl; [|exact Fv]. intros b Hb. cbn. rewrite Hw'. exact Hb.
Qed.

(** A projection of a log of messages is always made. *)
Lemma extend_total (r : Receiver) sid root cached (ids := session_ids (rc_store r) sid) :
  is_Some (rc_sessions r !! sid) -> Forall (fun id => is_Some (st_blocks (rc_store r) !! id)) ids ->
  (forall q, cached = Some q -> truthful r sid q) ->
  Forall (fun b => jw_role (b_payload b) = true) (reconstruct (rc_store r) sid) ->
  exists p, extend_or_reconstruct_projection r sid root cached = Ok p.
Proof.
  intros [st Hst] F Ht Hv. unfold extend_or_reconstruct_projection, session_len. fold ids.
  assert (forall i, validate_all i (reconstruct (rc_store r) sid) = Ok tt) as V.
  { clear -Hv. induction Hv as [|b bs Hb _ IH]; intros i; [done|]. cbn. unfold validate_serialized_message.
    rewrite Hb. cbn [res_bind]. apply IH. }
  unfold receiver_reconstruct. rewrite Hst, V. cbn [res_bind].
  destruct cached as [q|]; [|by eexists]. destruct (_ <=? _) eqn:Hle; [|by eexists].
  destruct (Ht q eq_refl) as (a & b & Eab & Fa & Hc & Hp). fold ids in Eab.
  unfold receiver_reconstruct_range. rewrite Hst. rewrite Hc in *. rewrite Eab in F. apply list.Forall_app in F as [_ Fb].
  assert (exists l, reconstruct_range (rc_store r) sid (length_z a) (length_z ids) = Ok l /\ length l = length b) as (l & -> & Hl).
  { unfold reconstruct_range. unfold ids, session_ids in Eab |- *.
    destruct (st_sessions (rc_store r) !! sid) as [log|]; [|exists []; symmetry in Eab; by apply app_nil in Eab as [_ ->]].
    rewrite Eab. unfold length_z. rewrite length_app. cbv zeta. rewrite (proj2 (Z.ltb_ge _ _)) by lia. eexists. split; [done|].
    replace (Z.to_nat (Z.min (Z.of_nat (length a)) (Z.of_nat (length a + length b)))) with (length a) by lia.
    rewrite drop_app_length, firstn_all2 by lia. rewrite <- (length_map b_payload), omap_payloads. by apply log_payloads_length. }
  assert (length_z l =? sat_sub (length_z ids) (length_z a) = true) as ->.
  { apply Z.eqb_eq. unfold length_z, sat_sub. rewrite Hl, Eab, length_app. lia. }
  cbn [negb]. by eexists.
Qed.

(** *** The conversation *)

(** The client's session and the sidecar agree: nothing is in flight, and the
    sidecar has the session. *)
Record in_sync (s : ChatSession) (v : SidecarState) : Prop := {
  is_served : served blake3 say flush gateway v;
  is_token : authorized v token = true;
  is_id : in_u 128 (sh_session (ch_shim s));
  is_seq : in_u 64 (ch_next_seq s);
  is_idle : ch_pending_root s = None;
  is_base : id_ok (sh_root (ch_shim s));
  is_mirrored : mirrored (sc_receiver v) (ch_parts s) (ch_shim s);
  is_messages : forall id b, st_blocks (w_store (ch_parts s)) !! id = Some b -> message_block b
}.

(** A new session and a new sidecar agree. *)
Lemma in_sync_new f key tok :
  (forall x, id_ok (blake3 x)) -> c_dict compressor_default = c_dict rc -> authorized (sidecar_new store_new tok) token = true ->
  in_sync (chat_session_with blake3 f key) (sidecar_new store_new tok).
Proof.
  intros Hb Hd Ha. constructor; try done.
  - apply served_start.
  - cbn. unfold session_id_from_key, in_u. destruct (Hb (utf8 key)) as [Hl Hx].
    pose proof (le_val_range (take 16 (blake3 (utf8 key))) (list.Forall_take _ _ _ Hx)) as Hr.
    rewrite length_take, Hl in Hr. exact Hr.
  - change (id_ok ROOT_ZERO). by_decide.
Qed.

(** The messages of the session, serialized. *)
Definition conversation (s : ChatSession) : list bytes := log_payloads (w_store (ch_parts s)) (sh_ids (ch_shim s)).

Lemma log_payloads_agree s s' ids :
  (forall id b, st_blocks s !! id = Some b -> st_blocks s' !! id = Some b) ->
  Forall (fun id => is_Some (st_blocks s !! id)) ids -> log_payloads s' ids = log_payloads s ids.
Proof. intros Hs. apply log_payloads_keeps. exact Hs. Qed.

Lemma conversation_next w s l w' s' fbs (r : Receiver) :
  mirrored r w s -> ingest_blocks blake3 xxh3 w s l = (w', s', fbs) -> no_collision r l ->
  log_payloads (w_store w') (sh_ids s') = log_payloads (w_store w) (sh_ids s) ++ map b_payload l.
Proof.
  intros M I [Hc1 Hc2]. destruct (ingest_blocks_spec blake3 xxh3 _ _ _ _ _ _ I) as [-> Hw].
  assert (forall id, (w_store w').(st_blocks) !! id = (turn_view blake3 (view (w_store w)) (sh_session s) l).1 !! id) as Hw'.
  { intros id. exact (f_equal (fun v : View => v.1 !! id) Hw). }
  rewrite (proj1 (with_ids_spec blake3 (map (block_id blake3) l) s)), log_payloads_app. f_equal.
  - apply log_payloads_agree; [|exact (mi_log _ _ _ M)]. intros id b Hb. rewrite Hw'. by apply turn_view_keeps.
  - assert (forall l', (forall b, b ∈ l' -> b ∈ l) ->
      log_payloads (w_store w') (map (block_id blake3) l') = map b_payload l') as G; [|by apply G].
    destruct (turn_view_spec blake3 (sh_session s) l (view (w_store w))) as (_ & Fv & _). rewrite list.Forall_forall in Fv.
    induction l' as [|b l' IH]; intros Hin; [done|]. unfold log_payloads in *. cbn [map omap list_omap].
    assert (b ∈ l) as Hb by (apply Hin, list_elem_of_here).
    destruct (Fv b Hb) as [b2 Hb2]. rewrite Hw', Hb2. cbn [fmap option_fmap option_map].
    assert (b2 = b) as ->.
    { apply turn_view_blocks in Hb2 as [Ho|[Hin2 Hid]]; [|by apply Hc1].
      apply Hc2; [done|]. by apply (mi_blocks _ _ _ M). }
    f_equal. apply IH. intros x Hx. apply Hin. by apply list_elem_of_further.
Qed.

Lemma messages_next w s l w' s' fbs :
  ingest_blocks blake3 xxh3 w s l = (w', s', fbs) -> Forall message_block l ->
  (forall id b, st_blocks (w_store w) !! id = Some b -> message_block b) ->
  forall id b, st_blocks (w_store w') !! id = Some b -> message_block b.
Proof.
  intros I Hm Hold id b Hb. destruct (ingest_blocks_spec blake3 xxh3 _ _ _ _ _ _ I) as [_ Hw].
  assert ((turn_view blake3 (view (w_store w)) (sh_session s) l).1 !! id = Some b) as Hb'.
  { rewrite <- Hb. symmetry. exact (f_equal (fun v : View => v.1 !! id) Hw). }
  apply turn_view_blocks in Hb' as [H1|[H1 _]]; [by eapply Hold|]. rewrite list.Forall_forall in Hm. by apply Hm.
Qed.

(** The sidecar as it flushes its log for an APPEND, and a body whose APPEND it
    cannot make durable. *)
Definition flushed_state (v : SidecarState) (f : AppendFrame) : SidecarState :=
  set_receiver (set_cache v (cache_get (sc_cache v) (a_session f) (a_base f)).1) (handle_append blake3 (sc_receiver v) f).1.
Definition cannot_flush (v : SidecarState) (body : bytes) : Prop :=
  exists request frame f, envelope_decode body = Ok (request, frame) /\ decode_frame frame = Ok (FAppend f)
    /\ (flush_log flush (flushed_state v f)).2 <> Ok tt.

(** The server's side of a prepared request. *)
Lemma chat_completions_forwards v request frame f r ack body :
  served blake3 say flush gateway v -> authorized v token = true ->
  envelope_decode body = Ok (request, frame) -> validate_request_value request = Ok tt ->
  decode_frame frame = Ok (FAppend f) -> validate_chat_append blake3 (sc_receiver v) f = Ok tt ->
  handle_append blake3 (sc_receiver v) f = (r, Ok ack) ->
  Forall (fun b => jw_role (b_payload b) = true) (reconstruct (rc_store r) (a_session f)) ->
  let '(v', reply) := chat_completions blake3 say flush gateway v token body in
  same_receiver r (sc_receiver v') /\ sc_ingress_token v' = sc_ingress_token v
  /\ (reply = inr (mk_chat_reply None (error_response 500 (lit "durability"))) /\ sc_upstream v' = sc_upstream v /\ cannot_flush v body
      \/ reply = inr (mk_chat_reply (Some (root_hex (ack_root ack)))
                   (match gateway (sc_upstream v') with inl text => error_response 502 text | inr response => response end))).
Proof.
  intros Hv Ha E1 E2 E3 E4 E5 Hrole. unfold Sidecar.chat_completions. rewrite Ha, E1, E2, E3, E4. cbn [negb].
  destruct (cache_get (sc_cache v) (a_session f) (a_base f)) as [c cached] eqn:E6.
  cbn [sc_receiver set_cache]. rewrite E5. set (s1 := set_receiver _ r).
  assert (flushed_state v f = s1) as Es1 by (unfold flushed_state; by rewrite E5, E6).
  pose proof (flush_log_spec flush s1) as Hf. destruct (flush_log flush s1) as [s2 [u2|e|]] eqn:E7; destruct Hf as (F1 & F2 & F3).
  2, 3: split_and!; [exact F1| |left; split_and!; [done|by rewrite F3|exists request, frame, f; by rewrite Es1, E7]];
        unfold flush_log in E7; destruct (flush_wal _ _); by injection E7 as <- _.
  assert (sc_ingress_token s2 = sc_ingress_token v) as Ht.
  { unfold flush_log in E7. destruct (flush_wal _ _). by injection E7 as <- _. }
  destruct (served_ok _ _ _ _ _ Hv) as [Hh Hc]. destruct (acked_append blake3 _ _ _ _ Hh E5) as (Hs & F & _).
  pose proof F1 as [V1 V2]. destruct (view_eq _ _ V1) as [Eb Es].
  assert (session_ids (rc_store (sc_receiver s2)) (a_session f) = session_ids (rc_store r) (a_session f)) as Ei by (by apply same_small_ids).
  destruct (extend_total (sc_receiver s2) (a_session f) (ack_root ack) cached) as [p X].
  - rewrite <- V2. exact Hs.
  - rewrite Ei, <- Eb. exact F.
  - intros q ->. apply (truthful_same r); [exact F1|]. eapply truthful_append; [exact Hh|exact E5|]. apply Hc.
    unfold cache_get in E6. destruct (pc_entries _ !! _) as [x|]; [|done].
    destruct (bool_decide _) in E6; [|done]. by injection E6 as _ <-.
  - unfold reconstruct in *. rewrite Ei, <- Eb. exact Hrole.
  - unfold reconstruct_request_body. unfold validate_request_value in E2.
    destruct (jw_is_object request) eqn:Ho; cbn [negb] in *; [|done]. destruct (bool_decide _); [done|].
    destruct (jw_object_end request Ho) as [open ->]. rewrite rev_app_distr. cbn [rev app].
    rewrite X. cbn [res_bind forward]. split_and!; [exact F1|exact Ht|by right].
Qed.

Lemma messages_of l ms : map b_payload l = map jw_print ms -> Forall message_ok ms -> Forall message_block l.
Proof.
  revert ms. induction l as [|b l IH]; intros [|m ms] E F; try done. cbn in E. injection E as E1 E2.
  apply list.Forall_cons in F as [[F1 F2] F]. constructor; [by exists m|by eapply IH].
Qed.

Lemma root_over_ok ids : (forall x, id_ok (blake3 x)) -> forall root, id_ok root -> id_ok (root_over blake3 root ids).
Proof. intros Hb. induction ids as [|id ids IH]; intros root Hr; [done|]. cbn. apply IH. apply Hb. Qed.

Lemma delta_turn s v ms request s1 p :
  (forall x, id_ok (blake3 x)) ->
  in_sync s v -> prepare_ref blake3 xxh3 s ms request = (s1, Ok p) ->
  no_collision (sc_receiver v) (new_blocks s ms) ->
  let '(v', s2, out) := send_chat blake3 (net := direct_net blake3 say flush gateway token) v s1 p in
  (out = Ok (error_response 500 (lit "durability")) /\ sc_upstream v' = sc_upstream v /\ s2 = s1 /\ cannot_flush v (pr_body p))
  \/ out = Ok (match gateway (sc_upstream v') with inl text => error_response 502 text | inr response => response end)
     /\ (small v' ->
         in_sync s2 v' /\ conversation s2 = conversation s ++ map jw_print ms
         /\ exists open b,
              jw_print request = open ++ [125]
              /\ b = open ++ MESSAGES_OPEN ++ json_join (conversation s ++ map jw_print ms) ++ [93; 125]
              /\ sc_upstream v' = sc_upstream v ++ [(b, Z.min (length_z b) (umax 64))]).
Proof.
  intros Hb3 Y P Hcol.
  destruct (prepare_inv _ _ _ _ _ (is_seq _ _ Y) P) as (Hidle & Ho & Hg & Hms & Hcount & Hl & Hpay & w & shim & fbs & seq & I & Hseq & -> & Hexp & Henc & _).
  pose proof (is_mirrored _ _ Y) as M.
  destruct (turn_at_receiver _ _ _ _ _ _ _ M I Hl Hcol) as (Hsid & Hbase & rs & st & R & K & A & M').
  pose proof (turn_wired _ _ _ _ _ _ I (mi_dict _ _ _ M) Hl) as W.
  assert (Forall message_block (new_blocks s ms)) as Hmsg by (by eapply messages_of).
  set (f := mk_append (sh_session shim) (sh_base_root shim) fbs) in *.
  assert (decode_frame (encode_frame (FAppend f)) = Ok (FAppend f)) as Hdec.
  { apply decode_encode_frame. cbn [frame_ok f a_session a_base a_blocks]. rewrite Hsid, Hbase, (mi_base _ _ _ M).
    split_and!; [exact (is_id _ _ Y)|exact (is_base _ _ Y)| |].
    - unfold count_ok, length_z in *. by rewrite <- (list.Forall2_length _ _ _ W).
    - clear -W Hb3. induction W as [|b fb l fbs Hw _ IH]; constructor; [|done].
      destruct fb; cbn in *; [by destruct Hw|]. subst id. apply Hb3. }
  pose proof (envelope_decode_parts request _ _ Henc ltac:(done)) as Henv.
  assert (validate_request_value request = Ok tt) as Hval.
  { unfold validate_request_value. rewrite Ho. cbn [negb]. rewrite bool_decide_eq_false_2; [done|]. rewrite Hg. by intros []. }
  pose proof (messages_next _ _ _ _ _ _ I Hmsg (is_messages _ _ Y)) as Hmsg'.
  assert (validate_chat_append blake3 (sc_receiver v) f = Ok tt) as Hvc.
  { eapply validate_blocks_ok; [exact W|exact R|by rewrite dom_empty_L|exact Hmsg|by intros ? ? ?%lookup_empty_Some|].
    intros b b' Hb Hb'. destruct Hcol as [_ Hc2]. rewrite (Hc2 b b' Hb Hb'). rewrite list.Forall_forall in Hmsg. by apply Hmsg. }
  cbv zeta in A. rewrite <- Hsid in A, M'.
  set (r' := set_store _ st) in *. change (a_session f) with (sh_session shim) in *.
  assert (Forall (fun b => jw_role (b_payload b) = true) (reconstruct (rc_store r') (sh_session shim))) as Hrole.
  { unfold reconstruct. pose proof (mi_ids _ _ _ M') as Hids. cbn [set_base sh_session sh_ids] in Hids. rewrite Hids.
    pose proof (mi_log _ _ _ M') as Hlog. cbn [set_base sh_ids] in Hlog.
    pose proof (mi_blocks _ _ _ M') as Hblk. clear -Hlog Hblk Hmsg' H0.
    induction Hlog as [|id ids [b Hb] _ IH]; [constructor|]. cbn [omap list_omap].
    rewrite (Hblk _ _ Hb). constructor; [|exact IH].
    destruct (Hmsg' id b Hb) as (m & -> & Hm1 & Hm2). by apply jw_role_print. }
  pose proof (chat_completions_forwards v request _ f r' _ (pr_body p) (is_served _ _ Y) (is_token _ _ Y) Henv Hval Hdec Hvc A Hrole) as Hfw.
  unfold send_chat. cbn [net_chat direct_net].
  destruct (chat_completions blake3 say flush gateway v token (pr_body p)) as [v' reply] eqn:E.
  destruct Hfw as (Hsame & Htok & [(-> & Hup & Hfl)| ->]); cbn [cr_ack cr_response ack_root]; [by left|].
  assert (id_ok (sh_root shim)) as Hroot.
  { destruct (ingest_blocks_spec blake3 xxh3 _ _ _ _ _ _ I) as [-> _].
    rewrite (proj1 (proj2 (with_ids_spec blake3 _ _))). apply root_over_ok; [done|exact (is_base _ _ Y)]. }
  rewrite (parse_root_hex_spec _ Hroot), Hexp, bool_decide_eq_true_2 by done. cbn [negb].
  unfold chat_apply_ack, apply_ack. cbn [ch_shim ch_parts ch_next_seq ch_pending_root].
  rewrite !bool_decide_eq_true_2 by done. cbn [negb andb]. right. split; [done|]. intros Hs.
  assert (conversation (mk_chat_session w (set_base shim (sh_root shim) (length (sh_ids shim))) seq None)
          = conversation s ++ map jw_print ms) as Hconv.
  { unfold conversation. cbn [ch_parts ch_shim set_base sh_ids].
    by rewrite (conversation_next _ _ _ _ _ _ _ M I Hcol), Hpay. }
  pose proof (gateway_request blake3 say flush gateway v token (pr_body p) v' _ (is_served _ _ Y) E Hs) as Hgw.
  cbn [ack_of cr_ack] in Hgw. destruct Hgw as (request' & frame' & f' & ack' & open & b & G1 & G2 & G3 & _ & _ & _ & G7 & G8 & G9).
  assert (request' = request /\ frame' = encode_frame (FAppend f)) as [-> ->] by (rewrite Henv in G1; split; congruence).
  assert (f' = f) as -> by (rewrite Hdec in G2; congruence).
  split_and!; [|exact Hconv|].
  - constructor; cbn [ch_parts ch_shim ch_next_seq ch_pending_root set_base sh_session sh_root]; try done.
    + replace v' with (serve blake3 say flush gateway v (ChatRequest token (pr_body p))) in * by (cbn [serve]; by rewrite E).
      apply served_next; [exact (is_served _ _ Y)|exact Hs].
    + unfold authorized in *. rewrite Htok. exact (is_token _ _ Y).
    + rewrite Hsid. exact (is_id _ _ Y).
    + destruct M' as [N1 N2 N3 N4 N5 N6 N7]. destruct Hsame as [Hv Hss]. destruct (view_eq _ _ Hv) as [Eb Es].
      constructor; try done.
      * rewrite <- N3. unfold session_ids. by rewrite Es.
      * rewrite <- N4. unfold session_root. by rewrite Es.
      * rewrite <- N5. unfold session_entry. by rewrite Hss.
      * intros id b0 Hb0. rewrite <- Eb. by apply N6.
  - exists open, b. split_and!; [exact G7| |exact G9]. rewrite G8. do 3 f_equal. rewrite reconstruct_payloads.
    change (a_session f) with (sh_session shim). rewrite (same_small_ids _ _ _ Hsame).
    pose proof (mi_ids _ _ _ M') as Hids. cbn [set_base sh_session sh_ids] in Hids. rewrite Hids, <- Hconv.
    unfold conversation. cbn [ch_parts ch_shim set_base sh_ids]. f_equal. apply log_payloads_agree; [|exact (mi_log _ _ _ M')].
    intros id b0 Hb0. destruct Hsame as [Hv _]. destruct (view_eq _ _ Hv) as [<- _]. by apply (mi_blocks _ _ _ M').
Qed.

(** The delta transport is transparent.  Let a client's session and the
    sidecar agree, and let the client prepare its new messages (only these
    travel) and send the request.  Unless the sidecar's log cannot be flushed, in which
    case the client gets that error and the gateway nothing, the gateway is
    sent the request object with the WHOLE conversation as its messages, the
    earlier ones and the new ones, in order and serialized exactly as a JSON
    request would have them, with the right length announced; the client gets
    the gateway's response; and the two ends agree again, with the longer
    conversation.  (The hypotheses: 32-byte hashes, no two blocks with one
    hash.) *)
Theorem delta_is_transparent s v ms request s1 p :
  (forall x, id_ok (blake3 x)) ->
  in_sync s v -> prepare_ref blake3 xxh3 s ms request = (s1, Ok p) ->
  no_collision (sc_receiver v) (new_blocks s ms) ->
  let '(v', s2, out) := send_chat blake3 (net := direct_net blake3 say flush gateway token) v s1 p in
  (out = Ok (error_response 500 (lit "durability")) /\ sc_upstream v' = sc_upstream v /\ s2 = s1 /\ cannot_flush v (pr_body p))
  \/ out = Ok (match gateway (sc_upstream v') with inl text => error_response 502 text | inr response => response end)
     /\ (small v' ->
         in_sync s2 v' /\ conversation s2 = conversation s ++ map jw_print ms
         /\ exists open b,
              jw_print request = open ++ [125]
              /\ b = open ++ MESSAGES_OPEN ++ json_join (conversation s ++ map jw_print ms) ++ [93; 125]
              /\ sc_upstream v' = sc_upstream v ++ [(b, Z.min (length_z b) (umax 64))]).
Proof. apply delta_turn. Qed.
End Transparent.

(** ** Concrete runs *)

#[local] Existing Instance Toy.zstd.
#[local] Existing Instance Toy.laws.

(** A log is small when its sessions are. *)
Lemma small_check {codec : Codec} (s : SidecarState) :
  bool_decide (map_Forall (fun _ l => length_z (sl_ids l) < umax 64) (st_sessions (rc_store (sc_receiver s)))) = true -> small s.
Proof.
  intros H%bool_decide_eq_true sid. unfold session_len, session_ids.
  destruct (st_sessions _ !! sid) as [l|] eqn:E; [exact (H sid l E)|done].
Qed.

Module SidecarSample.
Inductive json := JText | JEmpty | JRequest | JMessage (b : bool).
Definition print (v : json) : bytes :=
  match v with JText => [34; 34] | JEmpty => [123; 125] | JRequest => [123; 34; 109; 34; 58; 48; 125] | JMessage b => [123; if b then 49 else 48; 125] end.
Definition parse (l : bytes) : option json :=
  match l with
  | [34; 34] => Some JText | [123; 125] => Some JEmpty | [123; 34; 109; 34; 58; 48; 125] => Some JRequest
  | [123; 49; 125] => Some (JMessage true) | [123; 48; 125] => Some (JMessage false) | _ => None
  end.
#[export] Instance wire : JsonWire := {
  Json := json;
  jw_print := print;
  jw_parse := parse;
  jw_is_object v := match v with JText => false | _ => true end;
  jw_get v key := match v with JMessage _ => if str_eqb key (lit "role") then Some JText else None | _ => None end;
  jw_as_str v := match v with JText => Some (lit "user") | _ => None end;
  jw_metadata l := parse (take (length l - 12) (drop 11 l));
  jw_role l := match parse l with Some (JMessage _) => true | _ => false end
}.
#[export] Instance wire_laws : JsonWireLaws wire.
Proof.
  split.
  - by intros [| | |[]].
  - intros [| | |[]]; by_decide.
  - intros [| | |b]; [done|by exists [123]|by exists [123; 34; 109; 34; 58; 48]|intros _; by eexists [123; _]].
  - by intros [| | |[]].
  - intros [| | |[]]; [done|intros _ H; vm_compute in H; by destruct H..|done|done].
Qed.

Definition h := Sample.h.
Definition say (_ : SidecarError) : str := [].
Definition flush_ok {codec : Codec} (_ : SidecarState) : res IoError unit := Ok tt.
Definition gateway (sent : list (bytes * Z)) : str + Response := inr (mk_response 200 None [] []).
Definition rc : Compressor := compressor_default.
#[export] Instance codec : Codec := receiver_codec NoSimd rc.
Definition client0 : ChatSession := chat_session_with h (with_capacity 16) (lit "s").
Definition server0 : SidecarState := sidecar_new store_new None.
Definition messages : list Json := [JMessage true; JMessage false].
Definition prepared := prepare_ref h ShimSample.xxh3 client0 messages JRequest.
Definition request : PreparedChatRequest := match snd prepared with Ok p => p | _ => mk_prepared [] [] 0 0 end.
Definition answered : SidecarState * (str + ChatReply) := chat_completions h say flush_ok gateway server0 None (pr_body request).
End SidecarSample.
#[local] Existing Instance SidecarSample.wire.
#[local] Existing Instance SidecarSample.wire_laws.
#[local] Existing Instance SidecarSample.codec.

Lemma h_ok x : id_ok (SidecarSample.h x).
Proof. split; [apply Sample.h32|apply le_bytes_ok]. Qed.

Theorem gateway_request_witness :
  exists header b,
    ack_of (snd SidecarSample.answered) = Some header
    /\ b = [123; 34; 109; 34; 58; 48] ++ MESSAGES_OPEN ++ [123; 49; 125; 44; 123; 48; 125] ++ [93; 125]
    /\ sc_upstream (fst SidecarSample.answered) = [(b, length_z b)].
Proof.
  pose proof (gateway_request SidecarSample.h SidecarSample.say SidecarSample.flush_ok SidecarSample.gateway
    SidecarSample.server0 None (pr_body SidecarSample.request) (fst SidecarSample.answered) (snd SidecarSample.answered)
    (served_start _ _ _ _ _ _) (surjective_pairing _)) as G.
  assert (small (fst SidecarSample.answered)) as Hs by (apply small_check; vm_compute; reflexivity).
  specialize (G Hs). assert (exists header, ack_of (snd SidecarSample.answered) = Some header) as [header Hh].
  { eexists. vm_compute. reflexivity. }
  rewrite Hh in G. destruct G as (request & frame & f & ack & open & b & G).
  exists header. eexists. split; [exact Hh|]. split; [reflexivity|]. vm_compute. reflexivity.
Defined.

Theorem delta_is_transparent_witness :
  exists v' s2,
    send_chat SidecarSample.h
      (net := direct_net SidecarSample.h SidecarSample.say SidecarSample.flush_ok SidecarSample.gateway None)
      SidecarSample.server0 (fst SidecarSample.prepared) SidecarSample.request
    = (v', s2, Ok (mk_response 200 None [] []))
    /\ conversation s2 = [[123; 49; 125]; [123; 48; 125]].
Proof.
  pose proof (delta_is_transparent SidecarSample.h ShimSample.xxh3 NoSimd SidecarSample.rc SidecarSample.say SidecarSample.flush_ok
    SidecarSample.gateway None SidecarSample.client0 SidecarSample.server0 SidecarSample.messages SidecarSample.JRequest
    (fst SidecarSample.prepared) SidecarSample.request h_ok) as T.
  destruct (send_chat _ _ _ _) as [[v' s2] out] eqn:E. exists v', s2.
  assert (v' = fst SidecarSample.answered) as Hv.
  { unfold send_chat in E. cbn [net_chat direct_net] in E.
    change (chat_completions SidecarSample.h SidecarSample.say SidecarSample.flush_ok SidecarSample.gateway SidecarSample.server0
              None (pr_body SidecarSample.request)) with SidecarSample.answered in E.
    destruct SidecarSample.answered as [n [text|reply]]; cbn [fst]; [congruence|]. destruct (cr_ack reply); [|congruence].
    destruct (parse_root_hex _); [|congruence]. destruct (negb _); [congruence|].
    destruct (chat_apply_ack _ _ _) as [s applied]. destruct (negb applied); congruence. }
  clear E. subst v'.
  destruct T as [(_ & Hu & _ & _)|[-> Hs]].
  - apply in_sync_new; [apply h_ok|done|done].
  - vm_compute. reflexivity.
  - split; [|intros b b' _ Hb; vm_compute in Hb; discriminate Hb].
    intros b b' H1 H2. apply list_elem_of_In in H1, H2.
    destruct H1 as [<- |[<- |[]]], H2 as [<- |[<- |[]]]; vm_compute; ((intros _; reflexivity) || (intros H; discriminate H)).
  - vm_compute in Hu. discriminate Hu.
  - split; [done|]. destruct Hs as (_ & Hc & _); [apply small_check; vm_compute; reflexivity|]. rewrite Hc. reflexivity.
Defined.

Theorem prepare_atomic_witness :
  exists e,
    prepare_ref SidecarSample.h ShimSample.xxh3 SidecarSample.client0 [SidecarSample.JText] SidecarSample.JRequest
    = (SidecarSample.client0, Err e).
Proof.
  pose proof (prepare_atomic SidecarSample.h ShimSample.xxh3 SidecarSample.client0 [SidecarSample.JText] SidecarSample.JRequest) as T.
  assert (exists e, snd (prepare_ref SidecarSample.h ShimSample.xxh3 SidecarSample.client0 [SidecarSample.JText] SidecarSample.JRequest)
                    = Err e) as [e He] by (eexists; vm_compute; reflexivity).
  destruct (prepare_ref _ _ _ _ _) as [s' r]. cbn in He. subst r. exists e.
  rewrite (T s' e h_ok); [done|by_decide|by_decide|done].
Defined.

(** A request object without members is sent with a comma in front of its first
    member. *)
Lemma empty_request_malformed (r : Receiver) sid root cached b len p :
  reconstruct_request_body (H := SidecarSample.wire) r sid SidecarSample.JEmpty root cached = Ok (b, len, p) ->
  take 2 b = [123; 44].
Proof.
  unfold reconstruct_request_body. cbn [jw_is_object SidecarSample.wire negb].
  change (rev (jw_print (JsonWire := SidecarSample.wire) SidecarSample.JEmpty)) with [125; 123]. cbv iota.
  destruct (bool_decide _); [done|]. destruct (extend_or_reconstruct_projection _ _ _ _); [|done..]. by intros [= <- _ _].
Qed.
