(* ===== verification/DlrChat.v ===== *)
(** The DLR transport of the chat client (src/crates/rc-proto/src/dlr.rs): the
    capability of the sidecar, the sessions with what each has sent, and a
    request: the new messages are prepared and sent; a sidecar that does not
    have the session is synchronized and asked again.

    [serde_json::to_value] of a message is a parameter, as are the header values
    the HTTP library accepts, the text of an error and the contents of a new
    filter. *)

From S2P Require Import Prelude Wire AgentSink Client DlrCodec DlrStore DlrGf DlrFountain DlrReceiver DlrFilter DlrCompress DlrShim DlrSync Sidecar SidecarSync.

(** ** The same message *)

Definition same_tool_call (a b : WireToolCall) : bool :=
  str_eqb (wtc_id a) (wtc_id b) && str_eqb (fc_name (wtc_function a)) (fc_name (wtc_function b))
  && str_eqb (fc_arguments (wtc_function a)) (fc_arguments (wtc_function b)).

Definition same_tool_calls (left right : list WireToolCall) : bool :=
  (length left =? length right)%nat && forallb (fun p => same_tool_call p.1 p.2) (zip left right).

Definition same_optional_arc (left right : option str) : bool :=
  match left, right with Some a, Some b => str_eqb a b | None, None => true | _, _ => false end.

Definition same_message (left right : WireMessage) : bool :=
  match left, right with
  | WSystem a, WSystem b => str_eqb a b
  | WUser (UserText a), WUser (UserText b) => str_eqb a b
  | WAssistant ac ar at', WAssistant bc br bt =>
      same_optional_arc ac bc && same_optional_arc ar br && same_tool_calls at' bt
  | WTool ai ac, WTool bi bc => str_eqb ai bi && str_eqb ac bc
  | _, _ => false
  end.

(** The cached messages are the beginning of these. *)
Definition prefix_match (cached messages : list WireMessage) : bool :=
  (length cached <=? length messages)%nat && forallb (fun p => same_message p.1 p.2) (zip cached messages).

(** ** The transport *)

Inductive DlrMode := DlrRequired | DlrPrefer.

Record DlrSession := mk_dlr_session {
  ds_chat : ChatSession;
  ds_messages : list WireMessage;
  ds_json_bytes : Z
}.

(** The capability: 0 unknown, 1 ready, 2 unavailable. *)
Record DlrTransport := mk_dlr_transport {
  dt_base_url : str;
  dt_mode : DlrMode;
  dt_repair_margin_pct : Z;
  dt_capability : Z;
  dt_sessions : gmap str DlrSession
}.

Definition dlr_transport_new (base_url : str) (mode : DlrMode) (repair_margin_pct : Z) : DlrTransport :=
  mk_dlr_transport (trim_slashes base_url) mode repair_margin_pct 0 ∅.

Definition set_capability (d : DlrTransport) (c : Z) : DlrTransport :=
  mk_dlr_transport (dt_base_url d) (dt_mode d) (dt_repair_margin_pct d) c (dt_sessions d).
Definition put_dlr_session (d : DlrTransport) (sid : str) (s : DlrSession) : DlrTransport :=
  mk_dlr_transport (dt_base_url d) (dt_mode d) (dt_repair_margin_pct d) (dt_capability d) (<[sid := s]> (dt_sessions d)).
Definition set_chat (s : DlrSession) (chat : ChatSession) : DlrSession :=
  mk_dlr_session chat (ds_messages s) (ds_json_bytes s).

Definition validate_session_id (id : str) : ProtoError + unit :=
  if is_nil id || (256 <? byte_len id)
     || negb (forallb (fun b => (48 <=? b) && (b <=? 57) || (65 <=? b) && (b <=? 90) || (97 <=? b) && (b <=? 122)
                                || bool_decide (b ∈ [45; 95; 46; 58])) (utf8 id))
  then inl PInvalidSessionId else inr tt.

Section Transport.
Context `{JsonWire} {zstd : Zstd}.
Variable blake3 : bytes -> bytes.
Variable xxh3 : bytes -> Z.
Variable cpu : Cpu.
Variable soliton_point : nat -> Z -> nat.
Variable repair_count : nat -> Z -> nat.
Context {N : Type} {net : SidecarNet N}.
Variable to_value : WireMessage -> Json.
Variable header_value : str -> bool.
Variable sidecar_text : SidecarError -> str.
Variable new_filter : CuckooFilter.

Definition dlr_error (e : SidecarError) : ProtoError := PDlr (sidecar_text e).

Definition dlr_session_new (sid : str) : DlrSession := mk_dlr_session (chat_session_with blake3 new_filter sid) [] 0.

(** [request_headers]: the session id has been validated. *)
Definition request_headers (api_key : str) : ProtoError + unit :=
  if header_value (lit "Bearer " ++ api_key) then inr tt
  else inl (PDlr (lit "API key is not a valid HTTP header value")).

Definition available (n : N) (d : DlrTransport) : N * DlrTransport * (ProtoError + bool) :=
  if dt_capability d =? 1 then (n, d, inr true)
  else if dt_capability d =? 2 then (n, d, inr false)
  else
    match net_probe n with
    | (n, inr _) => (n, set_capability d 1, inr true)
    | (n, inl detail) =>
        match dt_mode d with
        | DlrPrefer => (n, set_capability d 2, inr false)
        | DlrRequired =>
            (n, d, inl (PDlr (lit "sidecar capability probe failed at " ++ dt_base_url d ++ lit ": " ++ detail)))
        end
    end.

(** The answer of a conflict: synchronize, then an empty APPEND that invokes
    the model. *)
Definition resync_and_invoke (n : N) (chat : ChatSession) (margin : Z) (metadata : Json)
  : N * ChatSession * res SidecarError Response :=
  match synchronize blake3 cpu soliton_point repair_count n chat margin with
  | (n, chat, Ok _) =>
      match prepare_ref blake3 xxh3 chat [] metadata with
      | (chat, Ok invoke) => send_chat blake3 n chat invoke
      | (chat, Err e) => (n, chat, Err e)
      | (chat, Panic) => (n, chat, Panic)
      end
  | (n, chat, Err e) => (n, chat, Err e)
  | (n, chat, Panic) => (n, chat, Panic)
  end.

(** The part of [send] under the lock. *)
Definition send_session (n : N) (s : DlrSession) (sid : str) (margin : Z) (messages : list WireMessage)
    (metadata : Json) (api_key : str) : N * DlrSession * res ProtoError (Response * RequestPayloadStats) :=
  let prefix_matches := prefix_match (ds_messages s) messages in
  let append_start := if prefix_matches then length (ds_messages s) else O in
  let s := if prefix_matches then s else set_chat s (chat_session_with blake3 new_filter sid) in
  match prepare_ref blake3 xxh3 (ds_chat s) (map to_value (drop append_start messages)) metadata with
  | (chat, Err e) => (n, set_chat s chat, Err (dlr_error e))
  | (chat, Panic) => (n, set_chat s chat, Panic)
  | (chat, Ok prepared) =>
      let appended := pr_new_messages_json_bytes prepared in
      let message_json_bytes := if prefix_matches then sat_add 64 (ds_json_bytes s) appended else appended in
      let messages_bytes := sat_add 64 (sat_add 64 2 message_json_bytes) (sat_sub (length_z messages) 1) in
      let full_json_bytes := sat_add 64 (sat_add 64 (pr_request_json_bytes prepared) 12) messages_bytes in
      let wire_bytes := length_z (pr_body prepared) in
      match request_headers api_key with
      | inl e => (n, set_chat s chat, Err e)
      | inr _ =>
          let '(n, chat, sent) :=
            match send_chat blake3 n chat prepared with
            | (n, chat, Ok response) =>
                if rs_status response =? 409 then resync_and_invoke n chat margin metadata
                else (n, chat, Ok response)
            | other => other
            end in
          match sent with
          | Err e => (n, set_chat s chat, Err (dlr_error e))
          | Panic => (n, set_chat s chat, Panic)
          | Ok response =>
              if has_pending_request chat
              then (n, set_chat s chat, Err (PDlr (lit "sidecar response did not contain a valid durable ACK")))
              else
                let kept := if prefix_matches then ds_messages s ++ drop append_start messages else messages in
                (n, mk_dlr_session chat kept message_json_bytes,
                 Ok (response, Client.mk_stats full_json_bytes wire_bytes))
          end
      end
  end.

(** [DlrTransport::send]: [None] lets the caller send JSON instead. *)
Definition dlr_send (n : N) (d : DlrTransport) (session_id : option str) (messages : list WireMessage)
    (metadata : Json) (api_key : str)
  : N * DlrTransport * res ProtoError (option (Response * RequestPayloadStats)) :=
  match session_id with
  | None => (n, d, Err (PDlr (lit "a stable session_id is required for DLR transport")))
  | Some sid =>
      match validate_session_id sid with
      | inl e => (n, d, Err e)
      | inr _ =>
          match available n d with
          | (n, d, inl e) => (n, d, Err e)
          | (n, d, inr false) => (n, d, Ok None)
          | (n, d, inr true) =>
              let s := default (dlr_session_new sid) (dt_sessions d !! sid) in
              let '(n, s, r) := send_session n s sid (dt_repair_margin_pct d) messages metadata api_key in
              (n, put_dlr_session d sid s,
               match r with Ok x => Ok (Some x) | Err e => Err e | Panic => Panic end)
          end
      end
  end.

(** [send_model_request] of the client: through the sidecar when there is a
    transport that is available, as JSON otherwise. *)
Definition send_model_request (n : N) (d : option DlrTransport) (metadata : ProtoError + Json)
    (messages : list WireMessage) (session_id : option str) (api_key : str) (json : unit -> res ProtoError SendResult)
  : N * option DlrTransport * res ProtoError SendResult :=
  match d with
  | None => (n, d, json tt)
  | Some transport =>
      match metadata with
      | inl e => (n, d, Ok (inl (e, 0, stats_default)))
      | inr metadata =>
          match dlr_send n transport session_id messages metadata api_key with
          | (n, d, Ok (Some (response, payload))) =>
              (n, Some d,
               Ok (if is_success (rs_status response) then inr (response, 0, payload)
                   else inl (PStatus (rs_status response) (rs_text response), 0, payload)))
          | (n, d, Ok None) => (n, Some d, json tt)
          | (n, d, Err e) => (n, Some d, Ok (inl (e, 0, stats_default)))
          | (n, d, Panic) => (n, Some d, Panic)
          end
      end
  end.
End Transport.

(** ** Lemmas: messages *)

Lemma zip_all {A} (test : A -> A -> bool) (Ht : forall a b, test a b = true <-> a = b) l : forall r,
  (length l <= length r)%nat -> (forallb (fun p => test p.1 p.2) (zip l r) = true <-> take (length l) r = l).
Proof.
  induction l as [|x l IH]; intros [|y r] Hl; cbn in Hl; [done|done|lia|]. cbn. rewrite andb_true_iff, Ht, IH by lia.
  split; [by intros [-> ->]|]. intros [= -> E]. done.
Qed.

Lemma same_optional_arc_spec a b : same_optional_arc a b = true <-> a = b.
Proof. destruct a, b; cbn; rewrite ?str_eqb_eq; naive_solver. Qed.

Lemma same_tool_call_spec a b : same_tool_call a b = true <-> a = b.
Proof.
  destruct a as [i [n g]], b as [j [m k]]. unfold same_tool_call. cbn. rewrite !andb_true_iff, !str_eqb_eq. naive_solver.
Qed.

Lemma same_tool_calls_spec a b : same_tool_calls a b = true <-> a = b.
Proof.
  unfold same_tool_calls. rewrite andb_true_iff, Nat.eqb_eq. split.
  - intros [Hl H]. apply (zip_all _ same_tool_call_spec) in H; [|lia]. rewrite <- H. apply take_ge. lia.
  - intros ->. split; [done|]. apply (zip_all _ same_tool_call_spec); [lia|]. by apply take_ge.
Qed.

Lemma same_message_spec a b : same_message a b = true <-> a = b.
Proof.
  destruct a as [a|[a]|ac ar al|ai ac], b as [b|[b]|bc br bl|bi bc]; cbn; try (split; [done|congruence]);
    rewrite ?andb_true_iff, ?str_eqb_eq, ?same_optional_arc_spec, ?same_tool_calls_spec; naive_solver.
Qed.

Lemma prefix_match_spec cached messages :
  prefix_match cached messages = true <-> messages = cached ++ drop (length cached) messages.
Proof.
  unfold prefix_match. rewrite andb_true_iff, Nat.leb_le. split.
  - intros [Hl H]. apply (zip_all _ same_message_spec) in H; [|done]. rewrite <- H at 1. by rewrite take_drop.
  - intros E. assert (length cached <= length messages)%nat as Hl by (rewrite E, length_app; lia). split; [done|].
    apply (zip_all _ same_message_spec); [done|]. rewrite E at 1. apply take_app_length.
Qed.

Lemma prefix_match_app cached more : prefix_match cached (cached ++ more) = true.
Proof. apply prefix_match_spec. by rewrite drop_app_length. Qed.

(** ** The capability *)

Section Capability.
Context `{JsonWire} {zstd : Zstd}.
Variable blake3 : bytes -> bytes.
Variable xxh3 : bytes -> Z.
Variable cpu : Cpu.
Variable soliton_point : nat -> Z -> nat.
Variable repair_count : nat -> Z -> nat.
Context {N : Type} {net : SidecarNet N}.
Variable to_value : WireMessage -> Json.
Variable header_value : str -> bool.
Variable sidecar_text : SidecarError -> str.
Variable new_filter : CuckooFilter.
#[local] Abbreviation send :=
  (dlr_send blake3 xxh3 cpu soliton_point repair_count to_value header_value sidecar_text new_filter).
#[local] Abbreviation send_session :=
  (send_session blake3 xxh3 cpu soliton_point repair_count to_value header_value sidecar_text new_filter).

(** A request of one of the transport's callers. *)
Record DlrCall := mk_call {
  ca_session : option str; ca_messages : list WireMessage; ca_metadata : Json; ca_key : str }.
Definition dlr_call (p : N * DlrTransport) (c : DlrCall) : N * DlrTransport * res ProtoError (option (Response * RequestPayloadStats)) :=
  send p.1 p.2 (ca_session c) (ca_messages c) (ca_metadata c) (ca_key c).
Definition dlr_calls (p : N * DlrTransport) (cs : list DlrCall) : N * DlrTransport :=
  fold_left (fun p c => (dlr_call p c).1) cs p.

(** Sessions exist only when the sidecar was ready, and it is given up only in
    the mode that may. *)
Definition transport_ok (mode : DlrMode) (d : DlrTransport) : Prop :=
  dt_mode d = mode /\ (dt_capability d <> 1 -> dt_sessions d = ∅) /\ (mode = DlrRequired -> dt_capability d <> 2).

Lemma dlr_call_step mode p c (out := (dlr_call p c).2) (d' := (dlr_call p c).1.2) :
  transport_ok mode p.2 ->
  transport_ok mode d'
  /\ (out = Ok None -> dt_capability d' = 2)
  /\ (dt_capability p.2 = 2 -> dt_capability d' = 2 /\ forall x, out <> Ok (Some x)).
Proof.
  subst out d'. destruct p as [n d]. unfold dlr_call, dlr_send. cbn [fst snd]. intros Hok.
  destruct (ca_session c) as [sid|]; cbn [fst snd]; [|by split_and!].
  destruct (validate_session_id sid); cbn [fst snd]; [by split_and!|].
  destruct Hok as (Hm & Hs & Hr). unfold available. destruct (dt_capability d =? 1) eqn:E1; [apply Z.eqb_eq in E1|].
  { destruct (send_session _ _ _ _ _ _ _) as [[n2 s2] r]. cbn. rewrite E1.
    split_and!; [split_and!; cbn; rewrite ?E1; done|by destruct r|done]. }
  apply Z.eqb_neq in E1. destruct (dt_capability d =? 2) eqn:E2; [apply Z.eqb_eq in E2; by split_and!|].
  apply Z.eqb_neq in E2. destruct (net_probe n) as [n1 [detail|[]]].
  - destruct (dt_mode d) eqn:Em; cbn; (split_and!; [|done|done]); (split_and!; cbn; [congruence|by intros _; apply Hs|]);
      [exact Hr|]. intros ->. congruence.
  - destruct (send_session _ _ _ _ _ _ _) as [[n2 s2] r]. cbn. split_and!; [by split_and!|by destruct r|done].
Qed.

Lemma dlr_calls_ok mode cs : forall p, transport_ok mode p.2 -> transport_ok mode (dlr_calls p cs).2.
Proof. induction cs as [|c cs IH]; intros p Hp; [done|]. cbn. apply IH. by apply dlr_call_step. Qed.

Lemma dlr_calls_unavailable mode cs : forall p, transport_ok mode p.2 -> dt_capability p.2 = 2 -> dt_capability (dlr_calls p cs).2 = 2.
Proof.
  induction cs as [|c cs IH]; intros p Hp H2; [done|]. cbn. destruct (dlr_call_step mode p c Hp) as (H1 & _ & H3).
  apply IH; [done|]. by apply H3.
Qed.

(** A client does not change transports.  In the mode that requires the
    sidecar, no request of any sequence is answered with leave to send the full
    JSON instead.  In the other mode that answer is given only if no session
    was ever begun through the sidecar, and after it no request goes through
    the sidecar any more. *)
Theorem one_transport n url mode margin before c (p := dlr_calls (n, dlr_transport_new url mode margin) before) :
  (dlr_call p c).2 = Ok None ->
  mode = DlrPrefer /\ dt_sessions p.2 = ∅
  /\ forall later c' x, (dlr_call (dlr_calls (dlr_call p c).1 later) c').2 <> Ok (Some x).
Proof.
  intros E. assert (transport_ok mode p.2) as Hp by (by apply dlr_calls_ok).
  destruct (dlr_call_step mode p c Hp) as (H1 & H2 & _). specialize (H2 E).
  split; [destruct mode; [|done]; exfalso; by apply H1|]. split.
  - destruct Hp as (_ & Hs & _). apply Hs. intros H3. destruct p as [n' d]. unfold dlr_call, dlr_send in H2. cbn [fst snd] in H3, H2.
    unfold available in H2. rewrite H3 in H2. cbn in H2.
    destruct (ca_session c) as [sid|]; [|cbn in H2; congruence]. destruct (validate_session_id sid); [cbn in H2; congruence|].
    destruct (send_session _ _ _ _ _ _ _) as [[n2 s2] r]. cbn in H2. congruence.
  - intros later c' x. pose proof (dlr_calls_ok mode later _ H1) as Hl.
    pose proof (dlr_calls_unavailable mode later _ H1 H2) as H3. by apply (dlr_call_step mode _ c' Hl).
Qed.

(** ** A request that fails *)

Lemma prepare_pending chat ms metadata root :
  ch_pending_root chat = Some root -> prepare_ref blake3 xxh3 chat ms metadata = (chat, Err SRequestInFlight).
Proof. unfold prepare_ref. by intros ->. Qed.

Lemma prepare_Ok_pending chat ms metadata chat' p :
  prepare_ref blake3 xxh3 chat ms metadata = (chat', Ok p) -> ch_pending_root chat' = Some (pr_expected_root p).
Proof. unfold prepare_ref. repeat case_match; try done. by intros [= <- <-]. Qed.

(** C16: A failed request blocks its session.  When a request was prepared and
    sending it fails, for whatever reason (the sidecar not reached, an answer
    without the acknowledgement), with the new messages still pending, the
    session is left waiting for it: every later request whose transcript
    continues the one acknowledged last, in particular the same request tried
    again, is refused as already in flight, without reaching the network, and
    leaves the session as it is.  Only a rewritten transcript starts afresh. *)
Theorem failed_request_blocks n s sid margin messages metadata key n' s' e :
  send_session n s sid margin messages metadata key = (n', s', Err e) ->
  is_Some (ch_pending_root (ds_chat s')) ->
  ds_messages s' = ds_messages s
  /\ (forall n2 margin2 more metadata2 key2,
        send_session n2 s' sid margin2 (ds_messages s ++ more) metadata2 key2
        = (n2, s', Err (PDlr (sidecar_text SRequestInFlight))))
  /\ (forall n2 margin2 messages2 metadata2 key2,
        prefix_match (ds_messages s) messages2 = false ->
        send_session n2 s' sid margin2 messages2 metadata2 key2
        = send_session n2 (set_chat s (chat_session_with blake3 new_filter sid)) sid margin2 messages2 metadata2 key2).
Proof.
  intros E [root Hp].
  assert (ds_messages s' = ds_messages s /\ ds_json_bytes s' = ds_json_bytes s) as [Hm Hj].
  { unfold DlrChat.send_session in E. cbv zeta in E. destruct (prefix_match _ _); cbn [ds_chat ds_messages ds_json_bytes set_chat] in E;
      (destruct (prepare_ref _ _ _ _ _) as [chat [p|e'|]]; [|by injection E as <- <- _..|done]);
      (destruct (request_headers _ _); [by injection E as <- <- _|]);
      destruct (send_chat _ _ _ _) as [[n1 chat1] [r|e1|]]; try (by injection E as <- <- _); try done;
      (destruct (rs_status r =? 409); [destruct (resync_and_invoke _ _ _ _ _ _ _ _ _) as [[n3 chat3] [r3|e3|]]|]);
      try (by injection E as <- <- _); try done;
      destruct (has_pending_request _); try done; by injection E as <- <- _. }
  split_and!; [done| |].
  - intros. unfold DlrChat.send_session. rewrite Hm, prefix_match_app, (prepare_pending _ _ _ _ Hp).
    destruct s' as [chat m j]. done.
  - intros n2 margin2 messages2 metadata2 key2 Hf. assert (forall x, set_chat s' x = set_chat s x) as Heq by (intros; unfold set_chat; congruence).
    unfold DlrChat.send_session. cbn [ds_messages set_chat ds_chat ds_json_bytes]. rewrite Hm, Hf, Heq. done.
Qed.

(** The failure of the network is such a failure. *)
Lemma transport_failure n s sid margin messages metadata key chat p text n' :
  prefix_match (ds_messages s) messages = true ->
  prepare_ref blake3 xxh3 (ds_chat s) (map to_value (drop (length (ds_messages s)) messages)) metadata = (chat, Ok p) ->
  header_value (lit "Bearer " ++ key) = true -> net_chat n (pr_body p) = (n', inl text) ->
  send_session n s sid margin messages metadata key
  = (n', set_chat s chat, Err (PDlr (sidecar_text (SUpstream text))))
  /\ ch_pending_root chat = Some (pr_expected_root p).
Proof.
  intros Hpm Hp Hk Hn. split; [|by eapply prepare_Ok_pending]. unfold DlrChat.send_session. rewrite Hpm, Hp.
  unfold request_headers. rewrite Hk. unfold send_chat. rewrite Hn. done.
Qed.
End Capability.

(** ** A conversation through the sidecar *)

Section Turns.
Context `{JsonWireLaws} {zstd : Zstd} {zlaws : ZstdLaws zstd} {total : ZstdTotal zstd}.
Variable blake3 : bytes -> bytes.
Variable xxh3 : bytes -> Z.
Variable cpu : Cpu.
Variable rc : Compressor.
#[local] Instance turn_codec : Codec := receiver_codec cpu rc.
Variable soliton_point : nat -> Z -> nat.
Variable repair_count : nat -> Z -> nat.
Variable say : SidecarError -> str.
Variable flush : SidecarState -> res IoError unit.
Variable gateway : list (bytes * Z) -> str + Response.
Variable token : option str.
Variable to_value : WireMessage -> Json.
Variable header_value : str -> bool.
Variable new_filter : CuckooFilter.
#[local] Instance turn_net : SidecarNet SidecarState := direct_net blake3 say flush gateway token.
#[local] Abbreviation send_session :=
  (send_session blake3 xxh3 cpu soliton_point repair_count to_value header_value say new_filter).
#[local] Abbreviation in_sync := (in_sync blake3 cpu rc say flush gateway token).

(** What a message is on the wire. *)
Definition wire_text (m : WireMessage) : bytes := jw_print (to_value m).

(** The transport's session, the client's session and the sidecar agree. *)
Definition dlr_in_sync (s : DlrSession) (v : SidecarState) : Prop :=
  in_sync (ds_chat s) v /\ conversation (ds_chat s) = map wire_text (ds_messages s)
  /\ ds_json_bytes s = length_z (concat (map wire_text (ds_messages s))).

Lemma json_join_length l : length_z (json_join l) = length_z (concat l) + sat_sub (length_z l) 1.
Proof.
  induction l as [|x [|y l] IH]; [done|cbn; rewrite app_nil_r; unfold sat_sub, length_z; cbn; lia|].
  change (json_join (x :: y :: l)) with (x ++ 44 :: json_join (y :: l)). cbn [concat] in *.
  unfold sat_sub, length_z in *. rewrite !length_app in *. cbn [length] in *. rewrite ?length_app in *. lia.
Qed.

(** The length that is reported is that of the JSON the gateway is sent. *)
Lemma full_length open l b :
  b = open ++ MESSAGES_OPEN ++ json_join l ++ [93; 125] -> length_z b <= umax 64 ->
  sat_add 64 (sat_add 64 (length_z (open ++ [125])) 12)
    (sat_add 64 (sat_add 64 2 (length_z (concat l))) (sat_sub (length_z l) 1)) = length_z b.
Proof.
  intros -> Hb. pose proof (json_join_length l) as Hj. unfold length_z in *. rewrite !length_app in *.
  change (length MESSAGES_OPEN) with 13%nat in *. change (length [93; 125]) with 2%nat in *. change (length [125]) with 1%nat in *.
  unfold sat_add in *. assert (0 <= sat_sub (Z.of_nat (length l)) 1) by (unfold sat_sub; lia). lia.
Qed.

(** C14: A turn of a conversation.  Let the transport's session, the client's and
    the sidecar agree, and let the transcript continue the one they agree on.
    If the request can be prepared (it fits the limits), and the sidecar can
    flush its log with the new messages appended, the gateway is sent the
    WHOLE transcript, each message serialized as in a JSON request; its
    response comes back (502 with the reason when it cannot be reached), with
    the length of the JSON sent to the gateway and that of the envelope that
    travelled; and all agree again, on the longer transcript.  When the log
    cannot be flushed, the gateway is sent nothing and the request fails.
    (Hashes do not collide; the gateway does not answer 409, which the client
    takes for the sidecar's own conflict: [conflict_asks_twice]; and a machine
    word measures the body.) *)
Theorem conversation_turn s v sid margin messages metadata key chat p :
  (forall x, id_ok (blake3 x)) -> dlr_in_sync s v -> prefix_match (ds_messages s) messages = true ->
  let ms := map to_value (drop (length (ds_messages s)) messages) in
  prepare_ref blake3 xxh3 (ds_chat s) ms metadata = (chat, Ok p) ->
  no_collision blake3 cpu rc (sc_receiver v) (new_blocks (ds_chat s) ms) -> header_value (lit "Bearer " ++ key) = true ->
  (forall sent r, gateway sent = inr r -> rs_status r <> 409) ->
  let '(v', s', out) := send_session v s sid margin messages metadata key in
  small v' -> (forall b len, (b, len) ∈ sc_upstream v' -> length_z b <= umax 64) ->
  (exists e, out = Err e /\ sc_upstream v' = sc_upstream v /\ cannot_flush blake3 cpu rc flush v (pr_body p))
  \/ dlr_in_sync s' v' /\ ds_messages s' = messages
     /\ exists open b,
          let response := match gateway (sc_upstream v') with inl text => error_response 502 text | inr r => r end in
          jw_print metadata = open ++ [125]
          /\ b = open ++ MESSAGES_OPEN ++ json_join (map wire_text messages) ++ [93; 125]
          /\ sc_upstream v' = sc_upstream v ++ [(b, length_z b)]
          /\ out = Ok (response, Client.mk_stats (length_z b) (length_z (pr_body p))).
Proof.
  intros Hb3 (Y & Hconv & Hbytes) Hpm ms P Hcol Hk Hg. apply prefix_match_spec in Hpm as Hms.
  set (new := drop (length (ds_messages s)) messages) in *.
  pose proof (delta_turn blake3 xxh3 cpu rc say flush gateway token (ds_chat s) v ms metadata chat p Hb3 Y P Hcol) as T.
  destruct (prepare_inv blake3 xxh3 _ _ _ _ _ (is_seq _ _ _ _ _ _ _ _ _ Y) P) as
    (_ & _ & _ & _ & _ & _ & _ & w & shim & fbs & seq & _ & _ & Hchat & _ & _ & Hreq & Hnew).
  unfold DlrChat.send_session. rewrite Hpm. fold new ms. rewrite P. unfold request_headers. rewrite Hk.
  unfold turn_net, turn_codec, SidecarSync.codec in *. destruct (send_chat _ _ _ _) as [[v' s2] out] eqn:E.
  destruct T as [(-> & Hu & -> & Hfl)|[-> T]].
  { cbn [rs_status error_response Z.eqb Pos.eqb]. rewrite Hchat. unfold has_pending_request. cbn [ch_pending_root].
    rewrite bool_decide_eq_true_2 by (by eexists). intros _ _. left. by eexists. }
  set (response := match gateway (sc_upstream v') with inl text => error_response 502 text | inr r => r end) in *.
  assert (rs_status response <> 409) as Hst.
  { subst response. destruct (gateway (sc_upstream v')) as [text|r] eqn:G; [done|by eapply Hg]. }
  rewrite (proj2 (Z.eqb_neq _ _)) by done. destruct (has_pending_request s2) eqn:Hpend; intros Hs Hsmall.
  { destruct (T Hs) as (Y2 & _). unfold has_pending_request in Hpend. apply bool_decide_eq_true in Hpend as [r Hr].
    rewrite (is_idle _ _ _ _ _ _ _ _ _ Y2) in Hr. done. }
  destruct (T Hs) as (Y2 & Hc & open & b & Ho & Hb & Hup). right.
  assert (map wire_text messages = conversation (ds_chat s) ++ map jw_print ms) as Ew.
  { rewrite Hconv, Hms, map_app. fold new. unfold ms. by rewrite map_map. }
  assert (map jw_print ms = map wire_text new) as Ew2 by (unfold ms; by rewrite map_map).
  rewrite <- Ew in Hb, Hc. assert (length_z b <= umax 64) as Hlen.
  { apply (Hsmall b (Z.min (length_z b) (umax 64))). rewrite Hup. apply elem_of_app. right. apply list_elem_of_here. }
  rewrite Z.min_l in Hup by done. rewrite Hreq, Hnew, Ho.
  assert (concat (map wire_text messages) = concat (map wire_text (ds_messages s)) ++ concat (map wire_text new)) as Ec.
  { rewrite Hms at 1. fold new. by rewrite map_app, concat_app. }
  assert (sat_add 64 (ds_json_bytes s) (length_z (concat (map jw_print ms))) = length_z (concat (map wire_text messages))) as Hj.
  { rewrite Hbytes, Ew2, Ec. unfold length_z. rewrite length_app. unfold sat_add.
    pose proof (json_join_length (map wire_text messages)) as Hjl. rewrite Hb in Hlen. unfold length_z in *.
    rewrite !length_app in Hlen. rewrite Ec, length_app in Hjl. assert (0 <= sat_sub (Z.of_nat (length (map wire_text messages))) 1)
      by (unfold sat_sub; lia). lia. }
  rewrite Hj. replace (length_z messages) with (length_z (map wire_text messages)) by (unfold length_z; by rewrite length_map).
  rewrite (full_length open _ b Hb Hlen). split; [|split].
  - split_and!; cbn [ds_chat ds_messages ds_json_bytes]; [exact Y2| |]; by rewrite <- Hms.
  - by rewrite <- Hms.
  - by exists open, b.
Qed.
End Turns.

(** ** Concrete runs *)

#[local] Existing Instance Toy.zstd.
#[local] Existing Instance Toy.laws.
#[local] Existing Instance SidecarSample.wire.
#[local] Existing Instance SidecarSample.wire_laws.
#[local] Existing Instance SidecarSample.codec.

Module DlrChatSample.
Definition to_value (m : WireMessage) : Json :=
  SidecarSample.JMessage (match m with WAssistant _ _ _ => true | _ => false end).
Definition header_value (s : str) : bool := true.
Definition filter : CuckooFilter := with_capacity 16.
Definition soliton (k : nat) (r : Z) : nat := 1%nat.
Definition repairs (k : nat) (pct : Z) : nat := 1%nat.
Definition text (e : SidecarError) : str := match e with SRequestInFlight => lit "in flight" | _ => [] end.
(** A network that is down. *)
#[export] Instance dead : SidecarNet unit := {|
  net_chat n _ := (n, inl (lit "refused")); net_frame n _ := (n, inl (lit "refused"));
  net_probe n := (n, inl (lit "refused")) |}.
Definition session0 : DlrSession := dlr_session_new SidecarSample.h filter (lit "s").
Definition hello : list WireMessage := [WUser (UserText (lit "hello"))].
Definition send_dead := send_session SidecarSample.h ShimSample.xxh3 NoSimd soliton repairs to_value header_value text filter
  tt session0 (lit "s") 5 hello SidecarSample.JRequest [].
Definition blocked : DlrSession := snd (fst send_dead).
Definition prepared := prepare_ref SidecarSample.h ShimSample.xxh3 (ds_chat session0) (map to_value hello) SidecarSample.JRequest.
Definition request : PreparedChatRequest := match snd prepared with Ok p => p | _ => mk_prepared [] [] 0 0 end.
(** A gateway that answers with this status. *)
Definition gateway (status : Z) (sent : list (bytes * Z)) : str + Response := inr (mk_response status None [] []).
Definition send_live (status : Z) :=
  send_session (net := direct_net SidecarSample.h SidecarSample.say SidecarSample.flush_ok (gateway status) None)
    SidecarSample.h ShimSample.xxh3 NoSimd soliton repairs to_value header_value SidecarSample.say filter
    SidecarSample.server0 session0 (lit "s") 5 hello SidecarSample.JRequest [].
End DlrChatSample.
#[local] Existing Instance DlrChatSample.dead.

Theorem failed_request_blocks_witness :
  send_session SidecarSample.h ShimSample.xxh3 NoSimd DlrChatSample.soliton DlrChatSample.repairs DlrChatSample.to_value
    DlrChatSample.header_value DlrChatSample.text DlrChatSample.filter
    tt DlrChatSample.blocked (lit "s") 5 DlrChatSample.hello SidecarSample.JRequest []
  = (tt, DlrChatSample.blocked, Err (PDlr (lit "in flight"))).
Proof.
  refine (proj1 (proj2 (failed_request_blocks SidecarSample.h ShimSample.xxh3 NoSimd DlrChatSample.soliton
    DlrChatSample.repairs DlrChatSample.to_value DlrChatSample.header_value DlrChatSample.text DlrChatSample.filter
    tt DlrChatSample.session0 (lit "s") 5 DlrChatSample.hello SidecarSample.JRequest [] tt DlrChatSample.blocked (PDlr [])
    _ _)) tt 5 DlrChatSample.hello SidecarSample.JRequest []).
  - change (DlrChatSample.send_dead = (tt, DlrChatSample.blocked, Err (PDlr []))). unfold DlrChatSample.blocked.
    assert (snd DlrChatSample.send_dead = Err (PDlr [])) as E by (vm_compute; reflexivity).
    destruct DlrChatSample.send_dead as [[[] s] r]. cbn in E |- *. by rewrite E.
  - eexists. vm_compute. reflexivity.
Defined.

Theorem one_transport_witness :
  let c := mk_call (Some (lit "s")) DlrChatSample.hello SidecarSample.JRequest [] in
  let do := dlr_call SidecarSample.h ShimSample.xxh3 NoSimd DlrChatSample.soliton DlrChatSample.repairs DlrChatSample.to_value
    DlrChatSample.header_value DlrChatSample.text DlrChatSample.filter in
  forall x, (do (do (tt, dlr_transport_new [] DlrPrefer 5) c).1 c).2 <> Ok (Some x).
Proof.
  cbv zeta. set (c := mk_call _ _ _ _).
  refine (fun x => proj2 (proj2 (one_transport SidecarSample.h ShimSample.xxh3 NoSimd DlrChatSample.soliton DlrChatSample.repairs
    DlrChatSample.to_value DlrChatSample.header_value DlrChatSample.text DlrChatSample.filter tt [] DlrPrefer 5 [] c _)) [] c x).
  reflexivity.
Defined.

Theorem conversation_turn_witness :
  let '(v', s', out) := DlrChatSample.send_live 200 in
  ds_messages s' = DlrChatSample.hello
  /\ exists b, sc_upstream v' = [(b, length_z b)]
       /\ out = Ok (mk_response 200 None [] [], Client.mk_stats (length_z b) (length_z (pr_body DlrChatSample.request))).
Proof.
  pose proof (conversation_turn SidecarSample.h ShimSample.xxh3 NoSimd SidecarSample.rc DlrChatSample.soliton DlrChatSample.repairs
    SidecarSample.say SidecarSample.flush_ok (DlrChatSample.gateway 200) None DlrChatSample.to_value DlrChatSample.header_value
    DlrChatSample.filter DlrChatSample.session0 SidecarSample.server0 (lit "s") 5 DlrChatSample.hello SidecarSample.JRequest []
    (fst DlrChatSample.prepared) DlrChatSample.request h_ok) as T.
  assert (small (fst (fst (DlrChatSample.send_live 200)))) as Hs by (apply small_check; vm_compute; reflexivity).
  assert (Forall (fun x => length_z x.1 <= umax 64) (sc_upstream (fst (fst (DlrChatSample.send_live 200))))) as Hu.
  { apply (bool_decide_eq_true_1 _). vm_compute. reflexivity. }
  assert (sc_upstream (fst (fst (DlrChatSample.send_live 200))) <> []) as Hn by (vm_compute; discriminate).
  change (send_session _ _ _ _ _ _ _ _ _ _ _ _ _ _ _ _) with (DlrChatSample.send_live 200) in T.
  destruct (DlrChatSample.send_live 200) as [[v' s'] out]. cbn [fst] in Hs, Hu, Hn.
  destruct T as [(e & _ & Hup & _)|(_ & Hm & open & b & _ & _ & Hup & Ho)].
  - split_and!; [|done|done]. apply in_sync_new; [apply h_ok|done|done].
  - reflexivity.
  - vm_compute. reflexivity.
  - split; [|intros x x' _ Hx; vm_compute in Hx; discriminate Hx].
    intros x x' H1 H2. apply list_elem_of_In in H1, H2. destruct H1 as [<- |[]], H2 as [<- |[]]. done.
  - reflexivity.
  - by intros sent r [= <-].
  - exact Hs.
  - intros b len Hb. rewrite list.Forall_forall in Hu. exact (Hu _ Hb).
  - destruct (Hn Hup).
  - split; [exact Hm|]. exists b. split; [exact Hup|exact Ho].
Defined.

(** A conflict that the gateway reports, not the sidecar, is taken for the
    sidecar's: the session is synchronized and the model is asked a second
    time. *)
Lemma conflict_asks_twice :
  length (sc_upstream (fst (fst (DlrChatSample.send_live 409)))) = 2%nat
  /\ length (sc_upstream (fst (fst (DlrChatSample.send_live 200)))) = 1%nat.
Proof. vm_compute. split; reflexivity. Qed.
