(* ===== verification/Session.v ===== *)
(** Session files (src/crates/rc-session/src/lib.rs): one JSON line for the
    header and one for every turn, appended as the conversation goes; loading,
    the session menu, and what a crash leaves.

    serde_json is a parameter: how a header and a turn print, and what a line
    parses as.  Writing does not fail once a file is open; a crash leaves any
    prefix of the bytes written. *)

From stdpp Require Import sorting.
From S2P Require Import Prelude Utf8 Text PathLib Wire Cost Turn AgentBatch.
#[local] Open Scope Z_scope.

Abbreviation file := (list Z) (only parsing).

Record SessionHeader := mk_header {
  hd_id : str; hd_cwd : str; hd_model : str; hd_mode : AgentMode; hd_extra_dirs : list str
}.
#[export] Instance agent_mode_eq_dec : EqDecision AgentMode.
Proof. solve_decision. Defined.
#[export] Instance session_header_eq_dec : EqDecision SessionHeader.
Proof. solve_decision. Defined.

(** The disk: the files, and the paths that can be opened for writing (the
    directories above them created where needed). *)
Record Disk := mk_disk { d_files : gmap str file; d_opens : str -> bool }.

(** [SessionStore]: whether the writer is open, the path, and the header of a
    lazy store that has not written it. *)
Record SessionStore := mk_session_store { sto_writer : bool; sto_path : str; sto_pending : option str }.

Inductive SessionError :=
| OpenFailed | SerializeFailed | MissingHeader | EmptyFile | ReadFailed | BadHeader.

(** ** Writing *)

(** JSON lines: [serde_json::to_string] and [serde_json::from_str] of a type. *)
Class JsonLine (A : Type) := { json_print : A -> option str; json_parse : str -> option A }.

Section Store.
Context `{JsonLine SessionHeader, JsonLine Turn}.

(** [File::create] of a path, and writing to the open file. *)
Definition truncate_file (d : Disk) (p : str) : res SessionError Disk :=
  if d_opens d p then Ok (mk_disk (<[p := []]> (d_files d)) (d_opens d)) else Err OpenFailed.
Definition writeln (d : Disk) (p : str) (line : str) : Disk :=
  mk_disk (<[p := default [] (d_files d !! p) ++ utf8 (line ++ [10])]> (d_files d)) (d_opens d).

Definition header_of_session (s : Session) : SessionHeader :=
  mk_header (s_id s) (s_cwd s) (s_model s) (s_mode s) (s_extra_dirs s).
Definition serialized_header (s : Session) : res SessionError str :=
  match json_print (header_of_session s) with Some line => Ok line | None => Err SerializeFailed end.

(** [create]: the file is truncated before the header is serialised. *)
Definition create (d : Disk) (p : str) (s : Session) : Disk * res SessionError SessionStore :=
  match truncate_file d p with
  | Ok d1 =>
      match serialized_header s with
      | Ok line => (writeln d1 p line, Ok (mk_session_store true p None))
      | Err e => (d1, Err e)
      | Panic => (d1, Panic)
      end
  | Err e => (d, Err e)
  | Panic => (d, Panic)
  end.

Definition create_lazy (p : str) (s : Session) : res SessionError SessionStore :=
  let? line := serialized_header s in Ok (mk_session_store false p (Some line)).

Definition ensure_writer (d : Disk) (st : SessionStore) : Disk * SessionStore * option SessionError :=
  if sto_writer st then (d, st, None)
  else
    match truncate_file d (sto_path st) with
    | Ok d1 =>
        match sto_pending st with
        | None => (d1, st, Some MissingHeader)
        | Some header => (writeln d1 (sto_path st) header, mk_session_store true (sto_path st) None, None)
        end
    | _ => (d, st, Some OpenFailed)
    end.

Definition append_turn (d : Disk) (st : SessionStore) (t : Turn) : Disk * SessionStore * option SessionError :=
  match json_print t with
  | None => (d, st, Some SerializeFailed)
  | Some line =>
      match ensure_writer d st with
      | (d, st, None) => (writeln d (sto_path st) line, st, None)
      | (d, st, Some e) => (d, st, Some e)
      end
  end.

(** The writer thread of rc-rt's sink: an error is logged and the next turn is
    tried. *)
Fixpoint persist (d : Disk) (st : SessionStore) (ts : list Turn) : Disk * SessionStore :=
  match ts with
  | [] => (d, st)
  | t :: ts => let '(d, st, _) := append_turn d st t in persist d st ts
  end.

Definition open_append (d : Disk) (p : str) : res SessionError SessionStore :=
  if bool_decide (is_Some (d_files d !! p)) && d_opens d p then Ok (mk_session_store true p None) else Err OpenFailed.

(** ** Loading *)

(** [BufRead::lines]: each line without its ending, an error where it is not
    UTF-8. *)
Definition read_lines (b : file) : list (option str) := map from_utf8 (lines b).

Definition mode_from_note (text : str) : option AgentMode :=
  if str_eqb text (lit "default") then Some AmDefault
  else if str_eqb text (lit "accept_edits") || str_eqb text (lit "acceptEdits") then Some AmAcceptEdits
  else if str_eqb text (lit "plan") then Some AmPlan
  else if str_eqb text (lit "ask") then Some AmAsk
  else if str_eqb text (lit "auto") || str_eqb text (lit "bypass_permissions") then Some AmAuto
  else None.

(** [Session::new] *)
Definition session_new (id cwd model : str) : Session :=
  MkSession id cwd [] model [] AmDefault [] usage_default cost_zero.

(** One turn read back. *)
Definition replay_mode (t : Turn) (m : AgentMode) : AgentMode :=
  match t with TSystemNote NModeChange text => default m (mode_from_note text) | _ => m end.
Definition replay_usage (t : Turn) (u : Usage) : Usage :=
  match t with TAssistant _ _ _ (Some usage) _ _ => usage_add u usage | _ => u end.
Definition replay_cost (t : Turn) (c : Cost) : Cost :=
  match t with TAssistant _ _ _ _ (Some cost) _ => cost_add c cost | _ => c end.
Definition replay_turn (s : Session) (t : Turn) : Session :=
  MkSession (s_id s) (s_cwd s) (s_extra_dirs s) (s_model s) (s_messages s ++ [t]) (replay_mode t (s_mode s))
    (s_perm_grants s) (replay_usage t (s_total_usage s)) (replay_cost t (s_total_cost s)).

(** The loop over the lines: a line that does not parse is skipped, one that
    cannot be read ends it. *)
Fixpoint load_turns (ls : list (option str)) (s : Session) : Session :=
  match ls with
  | [] | None :: _ => s
  | Some line :: ls =>
      match json_parse line with
      | Some t => load_turns ls (replay_turn s t)
      | None => load_turns ls s
      end
  end.

Definition session_of_header (h : SessionHeader) : Session :=
  MkSession (hd_id h) (hd_cwd h) (hd_extra_dirs h) (hd_model h) [] (hd_mode h) [] usage_default cost_zero.

Definition load (f : option file) : res SessionError Session :=
  match f with
  | None => Err OpenFailed
  | Some b =>
      match read_lines b with
      | [] => Err EmptyFile
      | None :: _ => Err ReadFailed
      | Some line :: rest =>
          match json_parse line with
          | None => Err BadHeader
          | Some h => Ok (load_turns rest (session_of_header h))
          end
      end
  end.

(** ** The session menu *)

(** A directory entry: its path and, when its metadata can be read, its
    modification time. *)
Record DirEntry := mk_entry { de_path : str; de_modified : option Z }.

(** [Path::extension] *)
Fixpoint after_last_dot (s acc : str) : str :=
  match s with [] => acc | c :: s' => if c =? 46 then after_last_dot s' [] else after_last_dot s' (acc ++ [c]) end.
Definition extension (p : str) : option str :=
  match path_file_name p with
  | None => None
  | Some [] => None
  | Some (c :: rest) => if existsb (fun x => x =? 46) rest then Some (after_last_dot rest []) else None
  end.

(** [map_while(Result::ok)], then the lines that are not blank. *)
Fixpoint ok_lines (ls : list (option str)) : list str :=
  match ls with Some l :: ls => l :: ok_lines ls | _ => [] end.
Definition full_lines (b : file) : list str := List.filter (fun l => negb (is_nil (trim l))) (ok_lines (read_lines b)).

Definition one_line (s : str) : str := normalize_whitespace s.
Definition HEAD_SCAN_LINES : nat := 32.
Record SessionInfo := mk_info {
  si_path : str; si_id : str; si_cwd : str; si_model : str; si_modified : Z; si_first_prompt : option str
}.

Fixpoint first_user (ls : list str) : option str :=
  match ls with
  | [] => None
  | l :: ls => match json_parse l with Some (TUser content _) => Some (one_line content) | _ => first_user ls end
  end.

Definition read_info (d : Disk) (path : str) (modified : Z) : option SessionInfo :=
  b ← d_files d !! path;
  match full_lines b with
  | [] => None
  | header :: rest =>
      h ← json_parse header;
      if is_nil (take HEAD_SCAN_LINES rest) then None
      else Some (mk_info path (hd_id h) (hd_cwd h) (hd_model h) modified (first_user (take HEAD_SCAN_LINES rest)))
  end.

(** [sort_by_key] with [Reverse]: stable, newest first. *)
Definition newer (a b : SessionInfo) : Prop := si_modified b <= si_modified a.
#[global] Instance newer_dec : RelDecision newer.
Proof. intros a b. unfold newer. apply _. Defined.

Definition is_jsonl (p : str) : bool := bool_decide (extension p = Some (lit "jsonl")).
Definition list_sessions (d : Disk) (entries : option (list DirEntry)) : list SessionInfo :=
  match entries with
  | None => []
  | Some es =>
      merge_sort newer (omap (fun e => m ← de_modified e; read_info d (de_path e) m)
                             (List.filter (fun e => is_jsonl (de_path e)) es))
  end.

Definition has_turns (d : Disk) (path : str) : bool :=
  match d_files d !! path with None => false | Some b => bool_decide (is_Some (full_lines b !! 1%nat)) end.

(** [max_by_key]: of equals, the last. *)
Fixpoint max_entry (best : option (str * Z)) (l : list (str * Z)) : option (str * Z) :=
  match l with
  | [] => best
  | e :: l =>
      max_entry (match best with Some b => if e.2 <? b.2 then Some b else Some e | None => Some e end) l
  end.
Definition latest (d : Disk) (entries : option (list DirEntry)) : option str :=
  es ← entries;
  fst <$> max_entry None
    (List.filter (fun e => has_turns d e.1)
       (omap (fun e => if is_jsonl (de_path e) then m ← de_modified e; Some (de_path e, m) else None) es)).
End Store.

(** ** Lines of a session file *)

(** What is read back of a value written to the file: of a turn, its times
    in whole milliseconds; of a header, everything. *)
Class Stored (A : Type) := stored : A -> option A.
#[export] Instance stored_turn_line : Stored Turn := stored_turn.
#[export] Instance stored_header_line : Stored SessionHeader := Some.

(** What the store relies on of the JSON text of a type: it is one line of
    characters between braces, it parses as the type's serializers store it,
    and no proper prefix of it parses. *)
Class JsonLineLaws (A : Type) `{JsonLine A, Stored A} : Prop := {
  json_chars (x : A) s : json_print x = Some s -> Forall is_char s;
  json_one_line (x : A) s : json_print x = Some s -> ~ In 10 s;
  json_braces (x : A) s : json_print x = Some s -> exists m, s = 123 :: m ++ [125];
  json_round (x : A) s : json_print x = Some s -> json_parse s = stored x;
  json_prefix (x : A) p q : json_print x = Some (p ++ q) -> q <> [] -> json_parse p = None
}.

Record printed (s : str) : Prop := mk_printed {
  pr_chars : Forall is_char s; pr_line : ~ In 10 s; pr_braces : exists m, s = 123 :: m ++ [125]
}.
Lemma json_printed {A} `{JsonLineLaws A} (x : A) s : json_print x = Some s -> printed s.
Proof. intros E. split; [by eapply json_chars|by eapply json_one_line|by eapply json_braces]. Qed.

Definition file_of (ls : list str) : file := concat (map (fun l => utf8 (l ++ [10])) ls).

Lemma file_of_app a b : file_of (a ++ b) = file_of a ++ file_of b.
Proof. unfold file_of. by rewrite map_app, concat_app. Qed.
Lemma file_of_cons l ls : file_of (l :: ls) = utf8 l ++ 10 :: file_of ls.
Proof. unfold file_of. cbn [map concat]. by rewrite utf8_app, <- app_assoc. Qed.

Lemma utf8_char_ascii c x : is_char c -> In x (utf8_char c) -> x < 128 -> x = c.
Proof.
  intros Hc. unfold utf8_char, is_char in *.
  assert (forall n, 0 <= n mod 64) as Hm by (intros; apply Z.mod_pos_bound; lia).
  pose proof (Hm c). pose proof (Hm (c / 64)). pose proof (Hm (c / 4096)).
  assert (0 <= c / 64 /\ 0 <= c / 4096 /\ 0 <= c / 262144) as (? & ? & ?) by (split_and!; apply Z.div_pos; lia).
  repeat case_match; cbn; intuition lia.
Qed.
Lemma utf8_line s : Forall is_char s -> ~ In 10 s -> ~ In 10 (utf8 s).
Proof.
  intros Hs Hn Hin. unfold utf8 in Hin. apply in_concat in Hin as (b & (c & <- & Hc)%in_map_iff & Hb).
  rewrite list.Forall_forall in Hs. apply utf8_char_ascii in Hb; [by subst|by apply Hs, list_elem_of_In|lia].
Qed.

Lemma split_first_line a rest : ~ In 10 a -> forall cur,
  split_inclusive (a ++ 10 :: rest) cur = (cur ++ a ++ [10]) :: split_inclusive rest [].
Proof.
  induction a as [|c a IH]; intros Hn cur; [done|]. cbn [app split_inclusive].
  rewrite (proj2 (Z.eqb_neq c 10)) by (intros ->; apply Hn; by left).
  rewrite IH by (intros ?; apply Hn; by right). by rewrite <- app_assoc.
Qed.
Lemma split_tail a : ~ In 10 a -> forall cur, split_inclusive a cur = if is_nil (cur ++ a) then [] else [cur ++ a].
Proof.
  induction a as [|c a IH]; intros Hn cur; cbn [split_inclusive]; [by rewrite app_nil_r|].
  rewrite (proj2 (Z.eqb_neq c 10)) by (intros ->; apply Hn; by left).
  rewrite IH by (intros ?; apply Hn; by right). by rewrite <- app_assoc.
Qed.

Lemma strip_suffix_app (a p : str) : strip_suffix p (a ++ p) = Some a.
Proof. by apply strip_suffix_Some. Qed.
Lemma strip_suffix_last (a : str) x y : x <> y -> strip_suffix [y] (a ++ [x]) = None.
Proof.
  intros Hne. destruct (strip_suffix [y] (a ++ [x])) as [r|] eqn:E; [|done]. apply strip_suffix_Some in E.
  by apply app_inj_tail in E as [_ ->].
Qed.

Lemma read_lines_cons x y : ~ In 10 x -> read_lines ((x ++ [125]) ++ 10 :: y) = from_utf8 (x ++ [125]) :: read_lines y.
Proof.
  intros Hx. unfold read_lines, lines. rewrite split_first_line by (intros [?|[?|[]]]%in_app_or; [done|done]).
  cbn [map app]. f_equal. unfold line_text. by rewrite strip_suffix_app, strip_suffix_last.
Qed.
Lemma read_lines_tail b : ~ In 10 b -> read_lines b = if is_nil b then [] else [from_utf8 b].
Proof.
  intros Hb. unfold read_lines, lines. rewrite split_tail by done. cbn [app]. destruct b as [|x b]; [done|]. cbn [is_nil map].
  unfold line_text. destruct (strip_suffix [10] (x :: b)) as [r|] eqn:E; [|done]. apply strip_suffix_Some in E.
  exfalso. apply Hb. rewrite E. apply in_or_app. right. by left.
Qed.

Lemma printed_bytes l : printed l -> exists x, utf8 l = x ++ [125] /\ ~ In 10 x /\ from_utf8 (utf8 l) = Some l.
Proof.
  intros [Hc Hn (m & ->)]. pose proof (utf8_line _ Hc Hn) as Hu. exists (utf8 (123 :: m)).
  assert (utf8 (123 :: m ++ [125]) = utf8 (123 :: m) ++ [125]) as E.
  { change (123 :: m ++ [125]) with ((123 :: m) ++ [125]). by rewrite utf8_app. }
  split; [done|]. split; [|by apply from_utf8_utf8]. intros Hin. apply Hu. rewrite E. apply in_or_app. by left.
Qed.

(** Reading whole printed lines, whatever follows. *)
Lemma read_lines_file ls y : Forall printed ls -> read_lines (file_of ls ++ y) = map Some ls ++ read_lines y.
Proof.
  induction 1 as [|l ls Hl Hls IH]; [done|]. rewrite file_of_cons, <- app_assoc. cbn [app map].
  destruct (printed_bytes l Hl) as (x & E & Hx & Hf). rewrite E in *. rewrite read_lines_cons by done. by rewrite Hf, IH.
Qed.

Lemma file_text ls : file_of ls = utf8 (concat (map (fun l => l ++ [10]) ls)).
Proof. induction ls as [|l ls IH]; [done|]. rewrite file_of_cons, IH. cbn [map concat]. rewrite !utf8_app, <- app_assoc. done. Qed.
Lemma text_chars ls : Forall printed ls -> Forall is_char (concat (map (fun l => l ++ [10]) ls)).
Proof.
  induction 1 as [|l ls [Hc _ _] _ IH]; [constructor|]. cbn [map concat]. rewrite !list.Forall_app. split_and!; [done| |done].
  repeat constructor. unfold is_char. lia.
Qed.
Lemma utf8_head_brace l y : printed l -> head (utf8 l) = Some y -> y < 128.
Proof. intros [_ _ (m & ->)]. cbn. intros [= <-]. lia. Qed.

(** What is left of a file of printed lines: whole lines, and a part of the
    next one without its ending. *)
Lemma cut_file ls : Forall printed ls -> forall n,
  exists k b, (k <= length ls)%nat /\ take n (file_of ls) = file_of (take k ls) ++ b /\ ~ In 10 b
    /\ (b = [] \/ exists l, ls !! k = Some l /\ b = take (n - length (file_of (take k ls))) (utf8 l) /\ b <> [])
    /\ forall j, (j <= length ls)%nat -> (length (file_of (take j ls)) <= n)%nat -> (j <= k)%nat.
Proof.
  induction 1 as [|l ls [Hc Hn Hm] Hls IH]; intros n.
  { exists 0%nat, []. cbn. split_and!; [lia|by destruct n|tauto|by left|lia]. }
  rewrite file_of_cons. assert (length (utf8 l ++ 10 :: file_of ls) = (length (utf8 l) + S (length (file_of ls)))%nat) as Hlen
    by (by rewrite length_app).
  destruct (decide (n <= length (utf8 l))%nat) as [Hle|Hgt].
  - exists 0%nat, (take n (utf8 l)). split; [lia|]. split; [by rewrite take_app_le|].
    split; [intros Hin; apply (utf8_line l Hc Hn); rewrite <- (take_drop n (utf8 l)); apply in_or_app; by left|].
    split.
    + destruct (decide (take n (utf8 l) = [])) as [->|Hne]; [by left|]. right. exists l. cbn. by rewrite Nat.sub_0_r.
    + intros [|j] _ Hj; [lia|]. cbn [take] in Hj. rewrite file_of_cons, length_app in Hj. cbn in Hj. lia.
  - destruct (IH (n - S (length (utf8 l)))%nat) as (k & b & Hk & E & Hb & Ht & Hmax). exists (S k), b. cbn [take length].
    rewrite file_of_cons. split; [lia|].
    assert (forall x, take n (utf8 l ++ 10 :: x) = utf8 l ++ 10 :: take (n - S (length (utf8 l))) x) as Htk.
    { intros x. rewrite take_app_ge by lia. replace (n - length (utf8 l))%nat with (S (n - S (length (utf8 l)))) by lia. done. }
    rewrite Htk, E, <- app_assoc. split; [done|]. split; [done|]. split.
    + destruct Ht as [->|(l' & H1 & H2 & H3)]; [by left|]. right. exists l'. split; [done|]. split; [|done].
      rewrite H2 at 1. f_equal. rewrite length_app. cbn [length]. lia.
    + intros [|j] Hj1 Hj2; [lia|]. cbn [take] in Hj2. rewrite file_of_cons, length_app in Hj2. cbn [length] in Hj2.
      specialize (Hmax j). cbn in Hj1. lia.
Qed.

(** ** Saving and loading *)

Section Saving.
Context `{JsonLine SessionHeader, JsonLine Turn, !JsonLineLaws SessionHeader, !JsonLineLaws Turn}.

(** The session a file of these turns stands for. *)
Definition restored (s : Session) (ts : list Turn) : Session :=
  fold_left replay_turn (omap stored_turn ts) (session_of_header (header_of_session s)).

(** A new session, opened eagerly or lazily, and its turns. *)
Definition saved (lazy : bool) (d : Disk) (p : str) (s : Session) (ts : list Turn) : Disk :=
  if lazy then match create_lazy p s with Ok st => (persist d st ts).1 | _ => d end
  else match create d p s with (d, Ok st) => (persist d st ts).1 | (d, _) => d end.

Lemma restored_app s ts us : fold_left replay_turn (omap stored_turn us) (restored s ts) = restored s (ts ++ us).
Proof. unfold restored. by rewrite omap_app, fold_left_app. Qed.

Lemma replay_messages ts : forall t0, s_messages (fold_left replay_turn ts t0) = s_messages t0 ++ ts.
Proof.
  induction ts as [|t ts IH]; intros t0; cbn [fold_left]; [by rewrite app_nil_r|]. rewrite IH. cbn. by rewrite <- app_assoc.
Qed.
Lemma restored_messages s ts : s_messages (restored s ts) = omap stored_turn ts.
Proof. unfold restored. by rewrite replay_messages. Qed.

(** Storing a turn keeps what replaying it adds up; a turn that is not read
    back adds nothing. *)
Lemma stored_replay t : match stored_turn t with
  | Some t' => (forall m, replay_mode t' m = replay_mode t m) /\ (forall u, replay_usage t' u = replay_usage t u)
               /\ (forall c, replay_cost t' c = replay_cost t c)
  | None => (forall m, replay_mode t m = m) /\ (forall u, replay_usage t u = u) /\ (forall c, replay_cost t c = c)
  end.
Proof. destruct t; cbn; try done. by destruct (stored_duration _). Qed.
Lemma replay_stored ts : forall x,
  let y := fold_left replay_turn (omap stored_turn ts) x in
  s_id y = s_id x /\ s_cwd y = s_cwd x /\ s_extra_dirs y = s_extra_dirs x /\ s_model y = s_model x
  /\ s_mode y = fold_left (fun m t => replay_mode t m) ts (s_mode x)
  /\ s_total_usage y = fold_left (fun u t => replay_usage t u) ts (s_total_usage x)
  /\ s_total_cost y = fold_left (fun c t => replay_cost t c) ts (s_total_cost x).
Proof.
  induction ts as [|t ts IH]; intros x; [by split_and!|]. cbn [omap list_omap fold_left]. pose proof (stored_replay t) as R.
  destruct (stored_turn t) as [t'|]; destruct R as (R1 & R2 & R3).
  - cbn [fold_left]. destruct (IH (replay_turn x t')) as (E1 & E2 & E3 & E4 & E5 & E6 & E7).
    rewrite <- R1, <- R2, <- R3. by split_and!.
  - rewrite R1, R2, R3. apply IH.
Qed.

Lemma prints_printed ts ls : mapM json_print ts = Some ls -> Forall printed ls.
Proof.
  intros E%mapM_Some. induction E as [|t l ts ls Ht _ IH]; constructor; [|done]. by eapply json_printed.
Qed.

Lemma writeln_file d p l b : d_files d !! p = Some b ->
  writeln d p l = mk_disk (<[p := b ++ utf8 (l ++ [10])]> (d_files d)) (d_opens d).
Proof. intros E. unfold writeln. by rewrite E. Qed.

Lemma persist_open ts : forall d st b ls, sto_writer st = true -> d_files d !! sto_path st = Some b -> mapM json_print ts = Some ls ->
  persist d st ts = (mk_disk (<[sto_path st := b ++ file_of ls]> (d_files d)) (d_opens d), st).
Proof.
  induction ts as [|t ts IH]; intros d st b ls Hw Hb E.
  - injection E as <-. cbn. rewrite app_nil_r, insert_id by done. by destruct d.
  - cbn [mapM] in E. apply bind_Some in E as (l & El & (ls' & E & [= <-])%bind_Some). cbn [persist]. unfold append_turn, ensure_writer.
    rewrite El, Hw, (writeln_file _ _ _ b) by done. rewrite (IH _ _ (b ++ utf8 (l ++ [10])) ls') by (done || apply lookup_insert_eq).
    cbn [d_files d_opens]. rewrite insert_insert_eq, <- app_assoc. done.
Qed.

(** A saved session is its header line and the lines of its turns. *)
Lemma saved_file lazy d p s ts h ls : d_opens d p = true -> json_print (header_of_session s) = Some h ->
  mapM json_print ts = Some ls -> (lazy = true -> ts <> []) ->
  d_files (saved lazy d p s ts) = <[p := file_of (h :: ls)]> (d_files d) /\ d_opens (saved lazy d p s ts) = d_opens d.
Proof.
  intros Ho Hh E Hne. unfold saved. assert (serialized_header s = Ok h) as Es by (unfold serialized_header; by rewrite Hh).
  assert (file_of (h :: ls) = utf8 (h ++ [10]) ++ file_of ls) as Ef by done.
  destruct lazy.
  - unfold create_lazy. rewrite Es. cbn [res_bind]. destruct ts as [|t ts]; [by destruct Hne|].
    cbn [mapM] in E. apply bind_Some in E as (l & El & (ls' & E & [= <-])%bind_Some).
    cbn [persist]. unfold append_turn, ensure_writer. rewrite El. cbn [sto_writer sto_path sto_pending]. unfold truncate_file. rewrite Ho.
    rewrite (writeln_file _ p h []) by apply lookup_insert_eq. cbn [d_files d_opens sto_path app].
    rewrite (writeln_file _ p l (utf8 (h ++ [10]))) by (cbn [d_files]; apply lookup_insert_eq).
    rewrite (persist_open ts _ _ (utf8 (h ++ [10]) ++ utf8 (l ++ [10])) ls') by (done || apply lookup_insert_eq).
    cbn [fst d_files d_opens sto_path]. rewrite !insert_insert_eq, <- app_assoc. done.
  - unfold create, truncate_file. rewrite Ho, Es. rewrite (writeln_file _ p h []) by apply lookup_insert_eq.
    rewrite (persist_open ts _ _ (utf8 (h ++ [10])) ls) by (done || apply lookup_insert_eq).
    cbn [fst d_files d_opens sto_path]. by rewrite !insert_insert_eq.
Qed.

Lemma load_turns_lines ts : forall ls rest s, mapM json_print ts = Some ls ->
  load_turns (map Some ls ++ rest) s = load_turns rest (fold_left replay_turn (omap stored_turn ts) s).
Proof.
  induction ts as [|t ts IH]; intros ls rest s E; [by injection E as <-|].
  cbn [mapM] in E. apply bind_Some in E as (l & El & (ls' & E & [= <-])%bind_Some). cbn [map app load_turns fold_left].
  rewrite (json_round t l El). change (stored t) with (stored_turn t). cbn [omap list_omap].
  by destruct (stored_turn t); apply IH.
Qed.

(** Loading whole lines and a tail. *)
Lemma load_file s ts h ls b : json_print (header_of_session s) = Some h -> mapM json_print ts = Some ls ->
  load (Some (file_of (h :: ls) ++ b)) = Ok (load_turns (read_lines b) (restored s ts)).
Proof.
  intros Hh E. unfold load. rewrite read_lines_file; [|constructor; [exact (json_printed _ _ Hh)|exact (prints_printed ts ls E)]].
  cbn [map app]. rewrite (json_round (header_of_session s) h Hh). cbn [stored stored_header_line]. by rewrite (load_turns_lines ts).
Qed.

Lemma load_saved s ts h ls : json_print (header_of_session s) = Some h -> mapM json_print ts = Some ls ->
  load (Some (file_of (h :: ls))) = Ok (restored s ts).
Proof.
  intros Hh E. rewrite <- (app_nil_r (file_of (h :: ls))). by rewrite (load_file s ts h ls []).
Qed.

(** C34: a session comes back as it was saved, its times in whole
    milliseconds.  Whether the store was opened eagerly or lazily, loading the
    file gives a session with the same id, directories and model, the mode of
    the header or of the last mode note, and the totals of the usage and cost
    of the turns; its turns are the saved ones in order as the file stores
    them, which for times from the epoch on and below 2^64 milliseconds is the
    same turns with their times cut to whole milliseconds (a tool result with
    a longer duration is the one turn that is not read back); a store reopened
    on the file continues it; and a lazy store that was given no turn has
    touched nothing. *)
Theorem session_round_trip lazy d p s ts h ls :
  d_opens d p = true -> json_print (header_of_session s) = Some h -> mapM json_print ts = Some ls ->
  let d1 := saved lazy d p s ts in
  if lazy && is_nil ts then d1 = d
  else load (d_files d1 !! p) = Ok (restored s ts)
    /\ (s_messages (restored s ts) = omap stored_turn ts
        /\ (Forall (fun t => times_fit t = true) ts -> s_messages (restored s ts) = map cut_times ts))
    /\ (let y := restored s ts in
        s_id y = s_id s /\ s_cwd y = s_cwd s /\ s_extra_dirs y = s_extra_dirs s /\ s_model y = s_model s
        /\ s_mode y = fold_left (fun m t => replay_mode t m) ts (s_mode s)
        /\ s_total_usage y = fold_left (fun u t => replay_usage t u) ts usage_default
        /\ s_total_cost y = fold_left (fun c t => replay_cost t c) ts cost_zero)
    /\ forall us ls', mapM json_print us = Some ls' ->
         exists st, open_append d1 p = Ok st /\ load (d_files (persist d1 st us).1 !! p) = Ok (restored s (ts ++ us)).
Proof.
  intros Ho Hh E d1. destruct (lazy && is_nil ts) eqn:Hc.
  { apply andb_true_iff in Hc as [-> Hts]. destruct ts; [|done]. subst d1. unfold saved, create_lazy, serialized_header. by rewrite Hh. }
  destruct (saved_file lazy d p s ts h ls Ho Hh E) as [Hf Hop]; [intros -> ->; done|].
  subst d1. split; [|split; [|split; [exact (replay_stored ts (session_of_header (header_of_session s)))|]]].
  - rewrite Hf, lookup_insert_eq. by apply load_saved.
  - rewrite restored_messages. split; [done|]. apply omap_stored_cut.
  - intros us ls' E'. exists (mk_session_store true p None). unfold open_append. rewrite Hop, Ho, Hf, lookup_insert_eq. split; [done|].
    rewrite (persist_open us _ _ (file_of (h :: ls)) ls') by (done || (cbn [sto_path]; rewrite Hf; apply lookup_insert_eq)).
    cbn [fst d_files sto_path]. rewrite lookup_insert_eq. rewrite <- file_of_app. cbn [app]. apply load_saved; [done|].
    apply mapM_Some, Forall2_app; by apply mapM_Some.
Qed.

(** A part of a printed line: cut inside a character, whole, or refused by the
    parser. *)
Lemma printed_cut {A} `{JsonLineLaws A} (x : A) l n : json_print x = Some l ->
  let b := take n (utf8 l) in
  b = [] \/ (exists c r q s1, is_char c /\ Forall is_char s1 /\ b = utf8 s1 ++ r /\ utf8_char c = r ++ q /\ r <> [] /\ q <> [])
  \/ exists s1 s2, l = s1 ++ s2 /\ s1 <> [] /\ b = utf8 s1 /\ from_utf8 b = Some s1.
Proof.
  intros E b. destruct (json_printed x l E) as [Hc _ _]. destruct (utf8_prefix l n) as (s1 & s2 & r & El & Eb & Hcut).
  fold b in Eb. rewrite El in Hc. apply list.Forall_app in Hc as [Hc1 Hc2].
  destruct Hcut as [->|(c & s3 & q & -> & Hq & Hr & Hne)].
  - rewrite app_nil_r in Eb. destruct s1 as [|a s1]; [by left|]. right. right. exists (a :: s1), s2. split_and!; [done|done|done|].
    rewrite Eb. by apply from_utf8_utf8.
  - right. left. exists c, r, q, s1. apply list.Forall_cons in Hc2 as [? _]. done.
Qed.
Lemma cut_char c r q s1 : is_char c -> Forall is_char s1 -> utf8_char c = r ++ q -> r <> [] -> q <> [] -> from_utf8 (utf8 s1 ++ r) = None.
Proof. intros. rewrite <- (app_nil_r r). by apply (from_utf8_truncated s1 c r q []). Qed.

Lemma take_prints ts ls k : mapM json_print ts = Some ls -> mapM json_print (take k ts) = Some (take k ls).
Proof. intros E. apply mapM_Some. apply Forall2_take. by apply mapM_Some. Qed.
Lemma prints_nth ts ls k l : mapM json_print ts = Some ls -> ls !! k = Some l -> exists t, ts !! k = Some t /\ json_print t = Some l.
Proof. intros E%mapM_Some Hl. destruct (Forall2_lookup_r _ _ _ _ _ E Hl) as (t & Ht & Hp). by exists t. Qed.
Lemma prints_length ts ls : mapM json_print ts = Some ls -> length ls = length ts.
Proof. intros E%mapM_Some. symmetry. by eapply Forall2_length. Qed.

(** The last line of a cut file, read as a turn. *)
Lemma load_cut_line t l n s : json_print t = Some l -> exists ts', load_turns (read_lines (take n (utf8 l))) s = fold_left replay_turn (omap stored_turn ts') s
  /\ (ts' = [] \/ ts' = [t]).
Proof.
  intros E. destruct (json_printed t l E) as [Hc Hn _]. assert (~ In 10 (take n (utf8 l))) as Hb.
  { intros Hin. apply (utf8_line l Hc Hn). rewrite <- (take_drop n (utf8 l)). apply in_or_app. by left. }
  rewrite read_lines_tail by done. destruct (printed_cut t l n E) as [->|[(c & r & q & s1 & Hc' & Hs1 & -> & Eq & Hr & Hq)|(s1 & s2 & El & Hs1 & Eb & Hf)]].
  - exists []. split; [done|by left].
  - exists []. rewrite (cut_char c r q s1) by done. split; [|by left]. by destruct (utf8 s1 ++ r).
  - rewrite Hf. assert (is_nil (take n (utf8 l)) = false) as ->.
    { rewrite Eb. destruct s1 as [|a s1]; [done|]. unfold utf8. cbn [map concat]. by destruct (utf8_char a) eqn:Ea; [unfold utf8_char in Ea; repeat case_match|]. }
    cbn [load_turns]. destruct s2 as [|a s2].
    + rewrite app_nil_r in El. subst s1. rewrite (json_round t l E). exists [t]. split; [|by right].
      change (stored t) with (stored_turn t). cbn [omap list_omap]. by destruct (stored_turn t).
    + rewrite (json_prefix t s1 (a :: s2)) by (congruence || done). exists []. split; [done|by left].
Qed.

Lemma load_cut_header s h n : json_print (header_of_session s) = Some h -> (n < length (utf8 h))%nat ->
  exists e, load (Some (take n (utf8 h))) = Err e.
Proof.
  intros Hh Hn. destruct (json_printed _ _ Hh) as [Hc Hl _]. unfold load. rewrite read_lines_tail.
  2:{ intros Hin. apply (utf8_line h Hc Hl). rewrite <- (take_drop n (utf8 h)). apply in_or_app. by left. }
  destruct (printed_cut _ h n Hh) as [->|[(c & r & q & s1 & Hc' & Hs1 & -> & Eq & Hr & Hq)|(s1 & s2 & El & Hs1 & Eb & Hf)]]; [by eexists| |].
  - rewrite (cut_char c r q s1) by done. destruct (is_nil _); by eexists.
  - rewrite Hf. destruct (is_nil _); [by eexists|]. destruct s2 as [|a s2].
    + rewrite app_nil_r in El. subst s1. apply (f_equal length) in Eb. rewrite length_take in Eb. lia.
    + rewrite (json_prefix (header_of_session s) s1 (a :: s2)) by (congruence || done). by eexists.
Qed.
Lemma load_bare_header s h : json_print (header_of_session s) = Some h -> load (Some (utf8 h)) = Ok (restored s []).
Proof.
  intros Hh. pose proof (json_printed _ _ Hh) as Hph. destruct (printed_bytes h Hph) as (x & Ex & Hx & Hf). unfold load. rewrite read_lines_tail.
  2:{ destruct Hph as [Hc Hl _]. by apply utf8_line. }
  assert (is_nil (utf8 h) = false) as -> by (rewrite Ex; by destruct x). rewrite Hf. by rewrite (json_round _ h Hh).
Qed.

(** C35: a crash loses at most the turn being written.  Cut the file of a
    session anywhere: while the header is incomplete, loading fails; from then
    on it gives the session with a prefix of its turns, among them every turn
    whose line had been written. *)
Theorem crash_loads_prefix s ts h ls n :
  json_print (header_of_session s) = Some h -> mapM json_print ts = Some ls ->
  let f := take n (file_of (h :: ls)) in
  ((n < length (utf8 h))%nat -> exists e, load (Some f) = Err e)
  /\ ((length (utf8 h) <= n)%nat -> exists k, (k <= length ts)%nat /\ load (Some f) = Ok (restored s (take k ts))
      /\ forall j, (j <= length ts)%nat -> (length (file_of (h :: take j ls)) <= n)%nat -> (j <= k)%nat).
Proof.
  intros Hh E f. pose proof (json_printed _ _ Hh) as Hph. pose proof (prints_length ts ls E) as Hlen. split.
  - intros Hn. subst f. rewrite file_of_cons, take_app_le by lia. by apply (load_cut_header s).
  - intros Hn. subst f. rewrite file_of_cons. destruct (decide (n = length (utf8 h))) as [->|Hne].
    { exists 0%nat. split; [lia|]. rewrite take_app_length. split; [by apply load_bare_header|].
      intros j _ Hj. rewrite file_of_cons, length_app in Hj. cbn in Hj. lia. }
    rewrite take_app_ge by lia. replace (n - length (utf8 h))%nat with (S (n - S (length (utf8 h)))) by lia. cbn [take].
    set (m := (n - S (length (utf8 h)))%nat).
    destruct (cut_file ls (prints_printed ts ls E) m) as (k & b & Hk & Eb & Hb & Hpart & Hmax).
    rewrite Eb. assert (utf8 h ++ 10 :: file_of (take k ls) ++ b = file_of (h :: take k ls) ++ b) as -> by (by rewrite file_of_cons, <- app_assoc).
    rewrite (load_file s (take k ts) h (take k ls) b Hh (take_prints ts ls k E)).
    assert (forall j, (j <= length ts)%nat -> (length (file_of (h :: take j ls)) <= n)%nat -> (j <= k)%nat) as Hm.
    { intros j Hj Hl. apply Hmax; [lia|]. rewrite file_of_cons, length_app in Hl. cbn in Hl. lia. }
    destruct Hpart as [->|(l & Hl & -> & _)]; [exists k; split; [lia|done]|].
    destruct (prints_nth ts ls k l E Hl) as (t & Ht & Hp).
    destruct (load_cut_line t l (m - length (file_of (take k ls))) (restored s (take k ts)) Hp) as (ts' & -> & [-> | ->]).
    + exists k. split; [lia|done].
    + exists (S k). pose proof (lookup_lt_Some _ _ _ Ht). split; [lia|]. rewrite restored_app, <- (take_S_r _ _ _ Ht). split; [done|].
      intros j Hj1 Hj2. specialize (Hm j Hj1 Hj2). lia.
Qed.

Lemma cut_in_line ls k n l : ls !! k = Some l -> (length (file_of (take k ls)) < n < length (file_of (take (S k) ls)))%nat ->
  take n (file_of ls) = file_of (take k ls) ++ take (n - length (file_of (take k ls))) (utf8 l).
Proof.
  intros Hl Hn. rewrite <- (take_drop k ls) at 1. rewrite (drop_S _ _ _ Hl), file_of_app, take_app_ge, (file_of_cons l) by lia.
  rewrite take_app_le; [done|]. rewrite (take_S_r _ _ _ Hl), file_of_app, length_app, (file_of_cons l []), length_app in Hn. cbn in Hn. lia.
Qed.

(** C36: the turn appended after a crash is lost, and sometimes all later ones.
    When the crash cut the file inside a line, reopening it appends to that
    line.  If what was left of the line is text, the first turn appended is
    lost with it; if the cut was inside a character, loading stops at that
    line and every turn of the resumed session is lost.  The parser is only
    asked to refuse a part of a turn glued to a turn. *)
Theorem append_after_crash d p s ts h ls k n u us lu lus :
  (forall (t : Turn) l x y, json_print t = Some l -> l = x ++ y -> x <> [] -> json_parse (A:=Turn) (x ++ lu) = None) ->
  d_opens d p = true -> json_print (header_of_session s) = Some h -> mapM json_print ts = Some ls ->
  json_print u = Some lu -> mapM json_print us = Some lus ->
  (k < length ts)%nat -> (length (file_of (h :: take k ls)) < n < length (file_of (h :: take (S k) ls)))%nat ->
  let f := take n (file_of (h :: ls)) in
  d_files d !! p = Some f ->
  exists st, open_append d p = Ok st
    /\ load (d_files (persist d st (u :: us)).1 !! p)
       = Ok (restored s (take k ts ++ if from_utf8 f then us else [])).
Proof.
  intros Hglue Ho Hh E Hu Hus Hk Hn f Hf. exists (mk_session_store true p None). unfold open_append. rewrite Ho, Hf. split; [done|].
  assert (mapM json_print (u :: us) = Some (lu :: lus)) as Eus by (cbn [mapM]; rewrite Hu; cbn; by rewrite Hus).
  rewrite (persist_open (u :: us) d _ f (lu :: lus)) by done. cbn [fst d_files sto_path]. rewrite lookup_insert_eq.
  destruct (lookup_lt_is_Some_2 ls k) as [l Hl]; [by rewrite (prints_length ts ls E)|].
  destruct (prints_nth ts ls k l E Hl) as (t & Ht & Hp). destruct (json_printed t l Hp) as [Hcl Hnl _].
  assert (f = file_of (h :: take k ls) ++ take (n - length (file_of (h :: take k ls))) (utf8 l)) as Ef by (by apply (cut_in_line (h :: ls) (S k))).
  set (b := take _ (utf8 l)) in Ef. assert (b <> []) as Hb.
  { intros Hb. apply (f_equal length) in Hb. subst b. rewrite length_take in Hb.
    pose proof (json_printed t l Hp) as (x & Ex & _)%printed_bytes. rewrite Ex, length_app in Hb. cbn in *. lia. }
  assert (~ In 10 b) as Hnb.
  { intros Hin. apply (utf8_line l Hcl Hnl). rewrite <- (take_drop (n - length (file_of (h :: take k ls))) (utf8 l)). apply in_or_app. by left. }
  rewrite Ef, <- app_assoc, (load_file s (take k ts) h (take k ls) _ Hh (take_prints ts ls k E)), file_of_cons.
  destruct (printed_bytes lu (json_printed u lu Hu)) as (x & Ex & Hx & Hfx).
  assert (b ++ utf8 lu ++ 10 :: file_of lus = ((b ++ x) ++ [125]) ++ 10 :: file_of lus) as -> by (rewrite Ex, <- !app_assoc; done).
  rewrite read_lines_cons by (intros [?|?]%in_app_or; done).
  assert (read_lines (file_of lus) = map Some lus) as Hrl.
  { rewrite <- (app_nil_r (file_of lus)), (read_lines_file lus []) by exact (prints_printed us lus Hus). by rewrite app_nil_r. }
  rewrite Hrl, <- app_assoc, <- Ex. assert (Forall printed (h :: take k ls)) as Hpr.
  { constructor; [exact (json_printed _ _ Hh)|exact (prints_printed _ _ (take_prints ts ls k E))]. }
  rewrite file_text in * by done. destruct (printed_cut t l (n - length (file_of (h :: take k ls))) Hp) as
    [?|[(c & r & q & s1 & Hc' & Hs1 & Eb & Eq & Hr & Hq)|(s1 & s2 & El & Hs1 & Eb & Hfb)]]; [done| |]; fold b in Eb.
  - rewrite Eb, <- app_assoc, (from_utf8_truncated s1 c r q (utf8 lu)) by (done || (intros y; apply utf8_head_brace; exact (json_printed u lu Hu))).
    rewrite app_assoc, <- utf8_app, (cut_char c r q) by (done || (apply list.Forall_app; split; [by apply text_chars|done])).
    cbn [load_turns]. by rewrite app_nil_r.
  - rewrite Eb, <- utf8_app. assert (Forall is_char s1) as Hs1c by (rewrite El in Hcl; by apply list.Forall_app in Hcl as [? _]).
    rewrite <- utf8_app, !from_utf8_utf8 by (apply list.Forall_app; split; try done; first [by apply text_chars|apply (json_printed u lu Hu)]).
    cbn [load_turns]. rewrite (Hglue t l s1 s2 Hp El Hs1). rewrite <- (app_nil_r (map Some lus)), (load_turns_lines us lus [] _ Hus).
    cbn [load_turns]. by rewrite restored_app.
Qed.
End Saving.

(** ** The menu *)

Section Menu.
Context `{JsonLine SessionHeader, JsonLine Turn}.

#[local] Instance newer_trans : Transitive newer.
Proof. intros a b c. unfold newer. lia. Qed.
#[local] Instance newer_total : Total newer.
Proof. intros a b. unfold newer. lia. Qed.

Lemma read_info_spec d p m i : read_info d p m = Some i -> has_turns d p = true /\ si_path i = p /\ si_modified i = m.
Proof.
  unfold read_info, has_turns. destruct (d_files d !! p) as [b|]; [|done]. cbn. destruct (full_lines b) as [|l rest]; [done|].
  destruct (json_parse l); [|done]. cbn. destruct rest as [|l' rest]; [done|]. cbn. by intros [= <-].
Qed.

Lemma max_entry_spec l : forall best,
  match max_entry best l with
  | None => best = None /\ l = []
  | Some e => (best = Some e \/ e ∈ l) /\ (forall b, best = Some b -> b.2 <= e.2) /\ forall x, x ∈ l -> x.2 <= e.2
  end.
Proof.
  induction l as [|x l IH]; intros best; cbn [max_entry].
  { destruct best as [b|]; [|done]. split_and!; [by left|by intros ? [= ->]|by intros ? ?%not_elem_of_nil]. }
  set (best' := match best with Some b => if x.2 <? b.2 then Some b else Some x | None => Some x end).
  assert (exists b', best' = Some b' /\ (best = Some b' \/ b' = x) /\ x.2 <= b'.2 /\ forall b, best = Some b -> b.2 <= b'.2) as (b' & E & Hb & Hx & Hle).
  { subst best'. destruct best as [b|]; [|exists x; split_and!; [done|by right|lia|done]].
    destruct (Z.ltb_spec x.2 b.2); [exists b|exists x]; split_and!; first [done|by left|by right|lia|intros ? [= <-]; lia]. }
  specialize (IH best'). destruct (max_entry best' l) as [e|]; [|by destruct IH; congruence].
  destruct IH as (H1 & H2 & H3). rewrite E in H1. specialize (H2 b' E). split_and!.
  - destruct H1 as [[= ->]|?]; [destruct Hb as [->| ->]; [by left|right; by left]|right; by right].
  - intros b Eb. specialize (Hle b Eb). lia.
  - intros y [->|Hy]%elem_of_cons; [lia|auto].
Qed.

Lemma listed d es i : i ∈ list_sessions d (Some es) <->
  exists e m, e ∈ es /\ is_jsonl (de_path e) = true /\ de_modified e = Some m /\ read_info d (de_path e) m = Some i.
Proof.
  unfold list_sessions. rewrite merge_sort_Permutation, list_elem_of_omap. split.
  - intros (e & He & (m & Hm & Hi)%bind_Some). rewrite list_elem_of_In, filter_In, <- list_elem_of_In in He. destruct He. eauto 6.
  - intros (e & m & He & Hj & Hm & Hi). exists e. rewrite list_elem_of_In, filter_In, <- list_elem_of_In, Hm. eauto.
Qed.
Lemma latest_candidate d es e : e ∈ List.filter (fun e : str * Z => has_turns d e.1)
       (omap (fun e => if is_jsonl (de_path e) then m ← de_modified e; Some (de_path e, m) else None) es) <->
  has_turns d e.1 = true /\ exists x, x ∈ es /\ is_jsonl (de_path x) = true /\ de_modified x = Some e.2 /\ de_path x = e.1.
Proof.
  rewrite list_elem_of_In, filter_In, <- list_elem_of_In, list_elem_of_omap. split.
  - intros [(x & Hx & E) Ht]. split; [done|]. exists x. destruct (is_jsonl (de_path x)); [|done].
    apply bind_Some in E as (m & Hm & [= <-]). done.
  - intros [Ht (x & Hx & Hj & Hm & Hp)]. split; [|done]. exists x. rewrite Hj, Hm, Hp. cbn. by destruct e.
Qed.

(** what the menu lists and what [--continue] takes.  The menu is newest
    first and lists only files with a turn; when it lists anything,
    [--continue] finds a session at least as new as its first; and where every
    file with turns has a readable header and no two files have one time, the
    two agree. *)
Theorem latest_tops_menu d es i rest :
  list_sessions d (Some es) = i :: rest ->
  StronglySorted newer (i :: rest) /\ Forall (fun j => has_turns d (si_path j) = true) (i :: rest)
  /\ exists p m, latest d (Some es) = Some p /\ has_turns d p = true /\ si_modified i <= m
     /\ (exists e, e ∈ es /\ de_path e = p /\ de_modified e = Some m)
     /\ ((forall e m, e ∈ es -> de_modified e = Some m -> has_turns d (de_path e) = true -> is_Some (read_info d (de_path e) m)) ->
         (forall e e' m, e ∈ es -> e' ∈ es -> de_modified e = Some m -> de_modified e' = Some m -> de_path e = de_path e') ->
         p = si_path i).
Proof.
  intros E. assert (StronglySorted newer (i :: rest)) as Hs.
  { rewrite <- E. unfold list_sessions. apply StronglySorted_merge_sort; apply _. }
  assert (forall j, j ∈ i :: rest -> exists e m, e ∈ es /\ is_jsonl (de_path e) = true /\ de_modified e = Some m
    /\ read_info d (de_path e) m = Some j) as Hl by (intros j Hj; apply listed; by rewrite E).
  split; [done|]. split.
  { apply list.Forall_forall. intros j (e & m & _ & _ & _ & (Ht & -> & _)%read_info_spec)%Hl. done. }
  destruct (Hl i ltac:(by left)) as (e & m & He & Hj & Hm & Hi). destruct (read_info_spec _ _ _ _ Hi) as (Ht & Hp & Hmi).
  unfold latest. cbn [mbind option_bind]. match goal with |- context [max_entry None ?l] => pose proof (max_entry_spec l None) as M end.
  assert ((de_path e, m) ∈ List.filter (fun e : str * Z => has_turns d e.1)
       (omap (fun e => if is_jsonl (de_path e) then m ← de_modified e; Some (de_path e, m) else None) es)) as Hc.
  { apply latest_candidate. split; [done|by exists e]. }
  destruct (max_entry _ _) as [[p mp]|]; [|destruct M as [_ M]; rewrite M in Hc; by apply not_elem_of_nil in Hc].
  destruct M as ([?|Hin] & _ & Hmax); [done|]. apply latest_candidate in Hin as (Htp & x & Hx & Hjx & Hmx & Hpx). cbn in *.
  pose proof (Hmax _ Hc) as Hle. cbn in Hle. exists p, mp. split_and!; [done|done|lia|by exists x|].
  intros Hall Hdist. destruct (Hall x mp Hx Hmx ltac:(by rewrite Hpx)) as [j Hjj].
  assert (j ∈ i :: rest) as Hin by (rewrite <- E; apply listed; eauto 6). destruct (read_info_spec _ _ _ _ Hjj) as (_ & _ & Hmj).
  assert (si_modified j <= si_modified i) as Hge.
  { apply elem_of_cons in Hin as [->|Hin]; [lia|]. apply StronglySorted_inv in Hs as [_ Hs]. rewrite list.Forall_forall in Hs. by apply Hs. }
  rewrite Hp, <- Hpx. apply (Hdist x e m); [done|done| |done]. rewrite Hmx. f_equal. lia.
Qed.
End Menu.

(** ** Witnesses *)

(** A toy text for one header and for user turns of one letter in the first
    millisecond of the epoch. *)
Definition toy_header : SessionHeader := mk_header (lit "i") (lit "/w") (lit "m") AmPlan [].
Definition toy_letter (c : char) : bool := (c =? 97) || (c =? 233).
#[local] Instance toy_header_line : JsonLine SessionHeader := {
  json_print h := if bool_decide (h = toy_header) then Some (lit "{h}") else None;
  json_parse s := if str_eqb s (lit "{h}") then Some toy_header else None
}.
#[local] Instance toy_turn_line : JsonLine Turn := {
  json_print t :=
    match t with
    | TUser [c] ts => if toy_letter c && (epoch_millis_serialize ts =? 0) then Some [123; c; 125] else None
    | _ => None
    end;
  json_parse s := match s with [123; c; 125] => if toy_letter c then Some (TUser [c] 0) else None | _ => None end
}.

Lemma toy_turn_print t s : json_print t = Some s ->
  exists c ts, toy_letter c = true /\ t = TUser [c] ts /\ stored t = Some (TUser [c] 0) /\ s = [123; c; 125] /\ (c = 97 \/ c = 233).
Proof.
  unfold json_print, toy_turn_line. destruct t as [[|c [|? ?]] ts| | | | |]; try done.
  destruct (toy_letter c) eqn:E; [|done]. destruct (Z.eqb_spec (epoch_millis_serialize ts) 0) as [Et|]; [|done].
  intros [= <-]. exists c, ts. split_and!; [done|done| |done|].
  - unfold stored, stored_turn_line, stored_turn, stored_time. by rewrite Et.
  - unfold toy_letter in E. apply orb_true_iff in E as [E|E]; lia.
Qed.
Lemma toy_prefix {A} (a b c : A) p q : [a; b; c] = p ++ q -> q <> [] -> p = [] \/ p = [a] \/ p = [a; b].
Proof.
  intros E Hq. destruct p as [|x [|y [|z [|? p]]]]; simplify_eq/=; auto.
Qed.
#[local] Instance toy_turn_laws : JsonLineLaws Turn.
Proof.
  split.
  - intros t s (c & ts & _ & _ & _ & -> & Hc)%toy_turn_print. repeat constructor; unfold is_char; lia.
  - intros t s (c & ts & _ & _ & _ & -> & Hc)%toy_turn_print. cbn. lia.
  - intros t s (c & ts & _ & _ & _ & -> & Hc)%toy_turn_print. by exists [c].
  - intros t s (c & ts & Hl & _ & -> & -> & Hc)%toy_turn_print. unfold json_parse, toy_turn_line. by rewrite Hl.
  - intros t p q (c & ts & Hl & _ & _ & E & Hc)%toy_turn_print Hq. symmetry in E. by apply toy_prefix in E as [->|[->| ->]].
Qed.
#[local] Instance toy_header_laws : JsonLineLaws SessionHeader.
Proof.
  assert (forall (x : SessionHeader) s, json_print x = Some s -> x = toy_header /\ s = lit "{h}") as P.
  { intros x s. unfold json_print, toy_header_line. case_bool_decide; [by intros [= <-]|done]. }
  split.
  - intros x s [_ ->]%P. repeat constructor; unfold is_char; cbn; lia.
  - intros x s [_ ->]%P. cbn. lia.
  - intros x s [_ ->]%P. by exists (lit "h").
  - intros x s [-> ->]%P. reflexivity.
  - intros x p q [_ E]%P Hq. symmetry in E. apply toy_prefix in E as [->|[->| ->]]; reflexivity || done.
Qed.
Definition toy_session : Session := session_of_header toy_header.
Definition toy_disk (f : gmap str file) : Disk := mk_disk f (fun _ => true).

Lemma toy_print : json_print (header_of_session toy_session) = Some (lit "{h}").
Proof. cbn [json_print toy_header_line]. by rewrite bool_decide_true. Qed.

Lemma session_round_trip_witness :
  let ts := [TUser [97] 1500; TUser [233] 999999] in
  let f := d_files (saved true (toy_disk ∅) (lit "s") toy_session ts) !! lit "s" in
  load f = Ok (restored toy_session ts) /\ s_messages (restored toy_session ts) = [TUser [97] 0; TUser [233] 0].
Proof.
  assert (mapM json_print [TUser [97] 1500; TUser [233] 999999] = Some [[123; 97; 125]; [123; 233; 125]]) as E by (by vm_compute).
  destruct (session_round_trip true (toy_disk ∅) (lit "s") toy_session [TUser [97] 1500; TUser [233] 999999] (lit "{h}")
    [[123; 97; 125]; [123; 233; 125]] eq_refl toy_print E) as (El & [_ Hm] & _).
  split; [exact El|]. rewrite Hm by repeat constructor. reflexivity.
Defined.

Lemma crash_loads_prefix_witness :
  (exists e, load (Some (take 2 (file_of [lit "{h}"; [123; 97; 125]]))) = Err e)
  /\ exists k, load (Some (take 9 (file_of [lit "{h}"; [123; 97; 125]; [123; 233; 125]])))
               = Ok (restored toy_session (take k [TUser [97] 0; TUser [233] 0])) /\ (1 <= k)%nat.
Proof.
  split.
  - apply (crash_loads_prefix toy_session [TUser [97] 0] (lit "{h}") [[123; 97; 125]] 2 toy_print); [reflexivity|vm_compute; lia].
  - destruct (crash_loads_prefix toy_session [TUser [97] 0; TUser [233] 0] (lit "{h}") [[123; 97; 125]; [123; 233; 125]] 9 toy_print)
      as [_ (k & _ & E & Hk)]; [reflexivity|vm_compute; lia|]. exists k. split; [exact E|]. apply Hk; vm_compute; lia.
Defined.

Lemma append_after_crash_witness :
  let d := toy_disk {[lit "s" := take 6 (file_of [lit "{h}"; [123; 233; 125]])]} in
  exists st, open_append d (lit "s") = Ok st
    /\ load (d_files (persist d st [TUser [97] 0; TUser [97] 0]).1 !! lit "s") = Ok (restored toy_session []).
Proof.
  refine (append_after_crash (toy_disk {[lit "s" := take 6 (file_of [lit "{h}"; [123; 233; 125]])]}) (lit "s") toy_session
    [TUser [233] 0] (lit "{h}") [[123; 233; 125]] 0 6 (TUser [97] 0) [TUser [97] 0] [123; 97; 125] [[123; 97; 125]]
    _ _ toy_print _ _ _ _ _ _); try reflexivity.
  - intros t l x y _ _ Hx. assert (forall z, (3 < length z)%nat -> json_parse (A:=Turn) z = None) as P.
    { intros z Hz. unfold json_parse, toy_turn_line. repeat case_match; try done; cbn in Hz; lia. }
    apply P. destruct x; [done|]. cbn. rewrite length_app. cbn. lia.
  - cbn. lia.
  - vm_compute. lia.
Defined.

Lemma latest_tops_menu_witness :
  let d := toy_disk {[lit "/d/s.jsonl" := file_of [lit "{h}"; [123; 97; 125]]]} in
  exists p m, latest d (Some [mk_entry (lit "/d/s.jsonl") (Some 5)]) = Some p /\ 5 <= m.
Proof.
  intros d. destruct (latest_tops_menu d [mk_entry (lit "/d/s.jsonl") (Some 5)]
    (mk_info (lit "/d/s.jsonl") (lit "i") (lit "/w") (lit "m") 5 (Some (lit "a"))) []) as (_ & _ & p & m & E & _ & Hm & _); [reflexivity|].
  by exists p, m.
Defined.
