(* ===== verification/Menu.v ===== *)
(** The menu (src/crates/rc-tui/src/menu.rs, and the keys of the menu in
    app.rs): four pages over one model of rows, the editor of a setting, and
    what it asks the host to do.

    The listing of sessions is the one of Session.v, the settings are those of
    Config.v and ConfigEdit.v.  Times are seconds. *)

From stdpp Require Import sorting.
From S2P Require Import Prelude Text PathLib Session Config ConfigEdit ConfigSave.

(** ** Keys *)

Inductive KeyCode :=
| KeyChar (c : char) | KeyEnter | KeyEsc | KeyBackspace | KeyTab | KeyBackTab | KeyUp | KeyDown | KeyLeft | KeyRight
| KeyPageUp | KeyPageDown | KeyHome | KeyEnd | KeyOther.
#[export] Instance key_eq_dec : EqDecision KeyCode.
Proof. solve_decision. Defined.

(** ** Data *)

Inductive MenuOutcome := Resume (path : str) | NewIn (dir : str) | Reload.

Inductive MenuPage := PRoot | PProjects | PSessions (dir : str) | PSettings.
#[export] Instance page_eq_dec : EqDecision MenuPage.
Proof. solve_decision. Defined.

Record Project := mk_project { pj_dir : str; pj_sessions : list SessionInfo; pj_last : Z }.

Inductive Row :=
| RGoto (page : MenuPage) | RProject (dir : str) | RSession (path : str) | RNewSession (dir : str) | RField (i : nat)
| RChangeApiKey | RClose.

Record MenuState := mk_menu {
  mn_page : MenuPage; mn_selected : nat; mn_projects : list Project; mn_settings : Settings;
  mn_editing : option str; mn_editing_api_key : bool; mn_status : option str; mn_pending_outcome : option MenuOutcome
}.

(** [Project::name] *)
Definition project_name (p : Project) : str := default (pj_dir p) (path_file_name (pj_dir p)).

(** ** Projects *)

(** The order of paths: of their components, and of characters. *)
Fixpoint str_compare (a b : str) : comparison :=
  match a, b with
  | [], [] => Eq
  | [], _ => Lt
  | _, [] => Gt
  | x :: a, y :: b => match x ?= y with Eq => str_compare a b | c => c end
  end.
Definition comp_compare (a b : component) : comparison :=
  match a, b with
  | CNormal s, CNormal t => str_compare s t
  | _, _ => let rank c := match c with CRoot => 0 | CCur => 1 | CParent => 2 | CNormal _ => 3 end in rank a ?= rank b
  end.
Fixpoint path_compare (a b : list component) : comparison :=
  match a, b with
  | [], [] => Eq
  | [], _ => Lt
  | _, [] => Gt
  | x :: a, y :: b => match comp_compare x y with Eq => path_compare a b | c => c end
  end.

(** [BTreeMap::entry(..).or_default().push(..)] *)
Fixpoint group_insert (s : SessionInfo) (l : list (str * list SessionInfo)) : list (str * list SessionInfo) :=
  match l with
  | [] => [(si_cwd s, [s])]
  | (d, ss) :: l' =>
      match path_compare (components (si_cwd s)) (components d) with
      | Eq => (d, ss ++ [s]) :: l'
      | Lt => (si_cwd s, [s]) :: l
      | Gt => (d, ss) :: group_insert s l'
      end
  end.

Definition newer_project (a b : Project) : Prop := pj_last b <= pj_last a.
#[export] Instance newer_project_dec : RelDecision newer_project.
Proof. intros a b. unfold newer_project. apply _. Defined.

Definition make_project (p : str * list SessionInfo) : Project :=
  let sessions := merge_sort newer p.2 in
  mk_project p.1 sessions (match sessions with s :: _ => si_modified s | [] => 0 end).
Definition group_projects (sessions : list SessionInfo) : list Project :=
  merge_sort newer_project (map make_project (fold_left (fun m s => group_insert s m) sessions [])).

(** [ago] *)
Definition ago (t now : Z) : str :=
  if now <? t then lit "just now"
  else let secs := now - t in
       if secs <? 60 then lit "just now"
       else if secs <? 3600 then show_z (secs / 60) ++ lit "m ago"
       else if secs <? 86400 then show_z (secs / 3600) ++ lit "h ago"
       else show_z (secs / 86400) ++ lit "d ago".

(** ** Operations *)

Definition same_path (a b : str) : bool := bool_decide (components a = components b).
Definition menu_project (m : MenuState) (dir : str) : option Project :=
  List.find (fun p => same_path (pj_dir p) dir) (mn_projects m).

Definition menu_rows (m : MenuState) : list Row :=
  match mn_page m with
  | PRoot => [RGoto PProjects; RGoto PSettings; RChangeApiKey; RClose]
  | PProjects => map (fun p => RProject (pj_dir p)) (mn_projects m)
  | PSessions dir =>
      match menu_project m dir with Some p => map (fun s => RSession (si_path s)) (pj_sessions p) | None => [] end
      ++ [RNewSession dir]
  | PSettings => map RField (seq 0 (length EDITABLE))
  end.
Definition current_row (m : MenuState) : option Row := menu_rows m !! mn_selected m.
Definition current_field (m : MenuState) : option FieldSpec :=
  match current_row m with Some (RField i) => EDITABLE !! i | _ => None end.

(** [as i32] of an index; the remainder is Euclidean. *)
Definition as_i32 (n : nat) : Z := let x := wrap 32 (Z.of_nat n) in if x <? 2 ^ 31 then x else x - 2 ^ 32.
Definition move_selection (m : MenuState) (delta : Z) : MenuState :=
  let n := length (menu_rows m) in
  let sel := if (n =? 0)%nat then 0%nat else Z.to_nat ((as_i32 (mn_selected m) + delta) mod as_i32 n) in
  mk_menu (mn_page m) sel (mn_projects m) (mn_settings m) (mn_editing m) (mn_editing_api_key m) (mn_status m) (mn_pending_outcome m).

Definition menu_goto (m : MenuState) (page : MenuPage) : MenuState :=
  mk_menu page 0 (mn_projects m) (mn_settings m) None false None (mn_pending_outcome m).
(** [back]; [None] from the root closes the menu. *)
Definition menu_back (m : MenuState) : option MenuState :=
  match mn_page m with
  | PRoot => None
  | PProjects | PSettings => Some (menu_goto m PRoot)
  | PSessions _ => Some (menu_goto m PProjects)
  end.

Definition with_status (m : MenuState) (status : option str) : MenuState :=
  mk_menu (mn_page m) (mn_selected m) (mn_projects m) (mn_settings m) (mn_editing m) (mn_editing_api_key m) status (mn_pending_outcome m).
Definition with_editing (m : MenuState) (editing : option str) (api_key : bool) : MenuState :=
  mk_menu (mn_page m) (mn_selected m) (mn_projects m) (mn_settings m) editing api_key (mn_status m) (mn_pending_outcome m).
Definition with_settings (m : MenuState) (s : Settings) : MenuState :=
  mk_menu (mn_page m) (mn_selected m) (mn_projects m) s (mn_editing m) (mn_editing_api_key m) (mn_status m) (mn_pending_outcome m).
Definition with_outcome (m : MenuState) (o : option MenuOutcome) : MenuState :=
  mk_menu (mn_page m) (mn_selected m) (mn_projects m) (mn_settings m) (mn_editing m) (mn_editing_api_key m) (mn_status m) o.

Definition begin_edit (m : MenuState) : MenuState :=
  match current_field m with
  | None => m
  | Some field =>
      match fd_kind field with
      | KChoice _ | KBool => m
      | KModel => with_status (with_editing m (Some []) (mn_editing_api_key m)) None
      | _ => with_status (with_editing m (Some (field_current field (mn_settings m))) (mn_editing_api_key m)) None
      end
  end.
Definition begin_api_key_edit (m : MenuState) : MenuState := with_status (with_editing m (Some []) true) None.

(** [char::is_control] *)
Definition is_control (c : char) : bool := (c <? 32) || ((127 <=? c) && (c <=? 159)).
Definition menu_paste (m : MenuState) (text : str) : MenuState * bool :=
  match mn_editing m with
  | None => (m, false)
  | Some buf =>
      let first := match lines text with l :: _ => l | [] => [] end in
      let cleaned := List.filter (fun c => negb (is_control c)) first in
      if is_nil cleaned then (m, true)
      else let several := (1 <? length (List.filter (fun l => negb (is_nil (trim l))) (lines text)))%nat in
           (with_status (with_editing m (Some (buf ++ cleaned)) (mn_editing_api_key m))
              (if several then Some (lit "pasted the first line only") else None), true)
  end.

Section Disk.
Context `{ConfigOs} `{SettingsJson} `{ConfigDisk}.
(** [rc_session::list] of the sessions' directory. *)
Variable listing : list SessionInfo.

Definition menu_new (fs : Files) (project_dir : str) : MenuState :=
  mk_menu PRoot 0 (group_projects listing) (settings_load fs project_dir) None false None None.

Definition menu_refresh (fs : Files) (m : MenuState) (project_dir : str) : MenuState :=
  let m := mk_menu (mn_page m) (mn_selected m) (group_projects listing) (settings_load fs project_dir) (mn_editing m)
             (mn_editing_api_key m) (mn_status m) (mn_pending_outcome m) in
  mk_menu (mn_page m) (Nat.min (mn_selected m) (length (menu_rows m) - 1)) (mn_projects m) (mn_settings m) (mn_editing m)
    (mn_editing_api_key m) (Some (lit "refreshed")) (mn_pending_outcome m).

(** [commit_api_key] *)
Definition commit_api_key (fs : Files) (m : MenuState) (value project_dir : str) : MenuState * Files :=
  let value := trim value in
  if is_nil value then (with_status (with_editing m None false) (Some (lit "unchanged")), fs)
  else
    let env_name := st_api_key_env (mn_settings m) in
    let env_set := bool_decide (is_Some (env_nonempty env_name)) in
    match set_api_key fs value with
    | (Ok path, fs) =>
        let m := with_settings (with_editing m None false) (settings_load fs project_dir) in
        (with_outcome (with_status m (Some
           (if env_set then lit "saved to " ++ path ++ lit " " ++ [8212] ++ lit " reloading; $" ++ env_name ++ lit " still wins at next launch"
            else lit "saved to " ++ path ++ lit " " ++ [8212] ++ lit " reloading marathon"))) (Some Reload), fs)
    | (Err e, fs) => (with_status m (Some e), fs)
    | (Panic, fs) => (m, fs)
    end.

Definition saved_status (field : FieldSpec) (path : str) (reload_client : bool) : str :=
  match env_override field with
  | Some _ => lit "saved to " ++ path ++ lit " " ++ [8212] ++ lit " but $" ++ lit (fd_env field) ++ lit " overrides it in this shell"
  | None => if reload_client then lit "saved to " ++ path ++ lit " " ++ [8212] ++ lit " reloading marathon" else lit "saved to " ++ path
  end.
(** [menu_commit] *)
Definition menu_commit (fs : Files) (m : MenuState) (value project_dir : str) : MenuState * Files :=
  if mn_editing_api_key m then commit_api_key fs m value project_dir
  else
    match current_field m with
    | None => (m, fs)
    | Some field =>
        let written := match field_parse field value with
                       | inl e => (Err e, fs)
                       | inr v => match fd_kind field with
                                  | KModel => add_model fs value (mn_settings m)
                                  | _ => set_user_setting fs field v
                                  end
                       end in
        match written with
        | (Ok path, fs) =>
            let m := with_settings (with_editing m None (mn_editing_api_key m)) (settings_load fs project_dir) in
            let reload_client := String.eqb (fd_name field) "dlr_enabled" in
            let m := with_status m (Some (saved_status field path reload_client)) in
            (if reload_client then with_outcome m (Some Reload) else m, fs)
        | (Err e, fs) => (with_status m (Some e), fs)
        | (Panic, fs) => (m, fs)
        end
    end.

Definition cycle_current (fs : Files) (m : MenuState) (delta : Z) (project_dir : str) : MenuState * Files :=
  match current_field m with
  | None => (m, fs)
  | Some field =>
      match field_cycle field (field_current field (mn_settings m)) delta (mn_settings m) with
      | Some next => menu_commit fs m next project_dir
      | None => (if bool_decide (fd_kind field = KModel)
                 then with_status m (Some (lit "only one saved model " ++ [8212] ++ lit " press " ++ [8629] ++ lit " to add another")) else m, fs)
      end
  end.

Definition remove_current_model (fs : Files) (m : MenuState) (project_dir : str) : MenuState * Files :=
  match current_field m with
  | None => (m, fs)
  | Some field =>
      if negb (bool_decide (fd_kind field = KModel)) then (m, fs)
      else
        let current := field_current field (mn_settings m) in
        match remove_model fs current (mn_settings m) with
        | (Ok _, fs) => (with_status (with_settings m (settings_load fs project_dir))
                           (Some (lit "removed " ++ current ++ lit " from the saved list")), fs)
        | (Err e, fs) => (with_status m (Some e), fs)
        | (Panic, fs) => (m, fs)
        end
  end.

(** ** Keys of the menu (app.rs) *)

(** What a key leaves: the menu, if it stays open, and what the host is asked
    to do, which quits the interface. *)
Definition MenuResult : Type := option MenuState * Files * option MenuOutcome.
Definition take_outcome (r : MenuState * Files) : MenuResult :=
  let '(m, fs) := r in (Some (with_outcome m None), fs, mn_pending_outcome m).

Definition activate_menu_row (fs : Files) (m : MenuState) : MenuResult :=
  match current_row m with
  | None => (Some m, fs, None)
  | Some (RGoto page) => (Some (menu_goto m page), fs, None)
  | Some (RProject dir) => (Some (menu_goto m (PSessions dir)), fs, None)
  | Some (RField _) => (Some (begin_edit m), fs, None)
  | Some RChangeApiKey => (Some (begin_api_key_edit m), fs, None)
  | Some RClose => (None, fs, None)
  | Some (RSession path) => (Some m, fs, Some (Resume path))
  | Some (RNewSession dir) => (Some m, fs, Some (NewIn dir))
  end.

Definition on_settings (m : MenuState) : bool := bool_decide (mn_page m = PSettings).
Definition handle_menu_key (fs : Files) (m : MenuState) (cwd : str) (key : KeyCode) : MenuResult :=
  match mn_editing m with
  | Some buf =>
      match key with
      | KeyEnter => take_outcome (menu_commit fs m buf cwd)
      | KeyEsc => (Some (with_status (with_editing m None false) None), fs, None)
      | KeyBackspace => (Some (with_editing m (Some (removelast buf)) (mn_editing_api_key m)), fs, None)
      | KeyChar c => (Some (with_editing m (Some (buf ++ [c])) (mn_editing_api_key m)), fs, None)
      | _ => (Some m, fs, None)
      end
  | None =>
      match key with
      | KeyUp => (Some (move_selection m (-1)), fs, None)
      | KeyDown => (Some (move_selection m 1), fs, None)
      | KeyRight => if on_settings m then take_outcome (cycle_current fs m 1 cwd) else (Some m, fs, None)
      | KeyLeft => if on_settings m then take_outcome (cycle_current fs m (-1) cwd) else (menu_back m, fs, None)
      | KeyEsc => (None, fs, None)
      | KeyChar c =>
          if c =? 114 then (Some (menu_refresh fs m cwd), fs, None)
          else if c =? 100 then let '(m, fs) := remove_current_model fs m cwd in (Some m, fs, None)
          else if c =? 113 then (None, fs, None)
          else (Some m, fs, None)
      | KeyEnter => activate_menu_row fs m
      | _ => (Some m, fs, None)
      end
  end.

End Disk.

(** ** The selection *)

(** The cursor is on a row, if there is one; only an open editor edits a key. *)
Definition menu_ok (m : MenuState) : Prop :=
  (mn_selected m < Nat.max 1 (length (menu_rows m)))%nat /\ (mn_editing m = None -> mn_editing_api_key m = false).

(** The fields that the rows do not depend on. *)
Lemma same_rows m m' : mn_page m' = mn_page m -> mn_projects m' = mn_projects m -> menu_rows m' = menu_rows m.
Proof. unfold menu_rows, menu_project. by intros -> ->. Qed.
Lemma menu_ok_same m m' :
  mn_page m' = mn_page m -> mn_projects m' = mn_projects m -> mn_selected m' = mn_selected m ->
  (mn_editing m' = None -> mn_editing_api_key m' = false) -> menu_ok m -> menu_ok m'.
Proof. intros E1 E2 E3 He [H _]. split; [|done]. by rewrite (same_rows m m' E1 E2), E3. Qed.
Lemma goto_ok m page : menu_ok (menu_goto m page).
Proof. split; [|done]. cbn [mn_selected menu_goto]. lia. Qed.

Lemma as_i32_small n : Z.of_nat n < 2 ^ 31 -> as_i32 n = Z.of_nat n.
Proof.
  intros Hn. unfold as_i32. rewrite wrap_small by (unfold in_u; lia). by rewrite (proj2 (Z.ltb_lt _ _) Hn).
Qed.

Lemma move_ok m delta : Z.of_nat (length (menu_rows m)) < 2 ^ 31 -> menu_ok m -> menu_ok (move_selection m delta).
Proof.
  intros Hn [_ He]. split; [|exact He].
  rewrite (same_rows m (move_selection m delta) eq_refl eq_refl). unfold move_selection. cbn [mn_selected].
  destruct (length (menu_rows m) =? 0)%nat eqn:E; [lia|]. apply Nat.eqb_neq in E. rewrite (as_i32_small _ Hn).
  pose proof (Z.mod_pos_bound (as_i32 (mn_selected m) + delta) (Z.of_nat (length (menu_rows m)))). lia.
Qed.

Ltac keep Hm := cbn [fst]; match type of Hm with menu_ok ?m => apply (menu_ok_same m) end; [reflexivity|reflexivity|reflexivity| |exact Hm]; first [done|exact (proj2 Hm)|intros _; exact (proj2 Hm eq_refl)|intros E; discriminate E].

Section Keys.
Context `{ConfigOs} `{SettingsJson} `{ConfigDisk}.
Variable listing : list SessionInfo.

Lemma commit_ok fs m value cwd : menu_ok m -> menu_ok (menu_commit fs m value cwd).1.
Proof.
  intros Hm. unfold menu_commit, commit_api_key.
  destruct (mn_editing_api_key m) eqn:Ek.
  - destruct (is_nil (trim value)); [keep Hm|].
    destruct (set_api_key _ _) as [[p|e|] fs1]; [keep Hm|keep Hm|done].
  - destruct (current_field m) as [f|]; [|done].
    destruct (match field_parse f value with inl _ => _ | inr _ => _ end) as [[p|e|] fs1];
      [|keep Hm|done].
    destruct (String.eqb (fd_name f) "dlr_enabled"); keep Hm.
Qed.
Lemma cycle_ok fs m delta cwd : menu_ok m -> menu_ok (cycle_current fs m delta cwd).1.
Proof.
  intros Hm. unfold cycle_current. destruct (current_field m) as [f|]; [|done].
  destruct (field_cycle _ _ _ _); [by apply commit_ok|]. destruct (bool_decide _); [|done].
  keep Hm.
Qed.
Lemma remove_ok fs m cwd : menu_ok m -> menu_ok (remove_current_model fs m cwd).1.
Proof.
  intros Hm. unfold remove_current_model. destruct (current_field m) as [f|]; [|done]. destruct (negb _); [done|].
  destruct (remove_model _ _ _) as [[p|e|] fs1]; [keep Hm|keep Hm|done].
Qed.
Lemma begin_edit_ok m : menu_ok m -> menu_ok (begin_edit m).
Proof.
  intros Hm. unfold begin_edit. destruct (current_field m) as [f|]; [|done].
  destruct (fd_kind f); try done; keep Hm.
Qed.
Lemma take_ok r m fs o : take_outcome r = (Some m, fs, o) -> menu_ok r.1 -> menu_ok m.
Proof. destruct r as [m0 fs0]. simpl. intros [= <- _ _] Hm. keep Hm. Qed.

(** Whatever key is pressed, the cursor stays on a row of the page. *)
Theorem cursor_stays_on_a_row fs m cwd key m' fs' o :
  menu_ok m -> Z.of_nat (length (menu_rows m)) < 2 ^ 31 ->
  handle_menu_key listing fs m cwd key = (Some m', fs', o) -> menu_ok m'.
Proof.
  intros Hm Hn. unfold handle_menu_key. destruct (mn_editing m) as [buf|] eqn:Eb.
  - destruct key; try (intros [= <- _ _]; keep Hm).
    intros E. eapply take_ok; [exact E|]. by apply commit_ok.
  - destruct key; try (intros [= <- _ _]; done).
    + destruct (c =? 114).
      { intros [= <- _ _]. split; [|apply Hm]. unfold menu_refresh.
        match goal with |- context [Nat.min _ (length (menu_rows ?m1) - 1)] => set (m' := m1) end.
        match goal with |- (_ < Nat.max 1 (length (menu_rows ?m2)))%nat => rewrite (same_rows m' m2) by reflexivity end.
        cbn [mn_selected]. lia. }
      destruct (c =? 100).
      { pose proof (remove_ok fs m cwd Hm) as Hr. destruct (remove_current_model fs m cwd). by intros [= <- _ _]. }
      destruct (c =? 113); [done|]. by intros [= <- _ _].
    + unfold activate_menu_row. destruct (current_row m) as [[]|]; try (intros [= <- _ _]; apply goto_ok || done).
      * intros [= <- _ _]. by apply begin_edit_ok.
      * intros [= <- _ _]. keep Hm.
    + intros [= <- _ _]. by apply move_ok.
    + intros [= <- _ _]. by apply move_ok.
    + destruct (on_settings m); [intros E; eapply take_ok; [exact E|]; by apply cycle_ok|].
      unfold menu_back. destruct (mn_page m); intros [= <- _ _]; apply goto_ok.
    + destruct (on_settings m); [intros E; eapply take_ok; [exact E|]; by apply cycle_ok|]. by intros [= <- _ _].
Qed.

(** ** The files *)

Lemma fs_write_other fs p b r fs' q : fs_write fs p b = (r, fs') -> q <> p -> fs' !! q = fs !! q.
Proof. unfold fs_write. intros E Hq. repeat case_match; injection E as _ <-; rewrite ?lookup_insert_ne; done. Qed.

Definition only (p : option str) (fs fs' : Files) : Prop := forall q, fs' !! q <> fs !! q -> p = Some q.
Lemma only_refl p fs : only p fs fs. Proof. by intros q Hq. Qed.
Lemma only_trans p a b c : only p a b -> only p b c -> only p a c.
Proof. intros Ha Hb q Hq. destruct (decide (b !! q = a !! q)) as [E|E]; [apply Hb; congruence|by apply Ha]. Qed.

Lemma set_raw_only fs keys v : only user_settings_path fs (set_raw fs keys v).2.
Proof.
  unfold set_raw. destruct user_settings_path as [p|]; [|apply only_refl].
  destruct (res_bind _ _) as [t|e|]; [|apply only_refl..].
  destruct (fs_write fs p _) as [r fs1] eqn:E. intros q Hq. f_equal.
  destruct (decide (q = p)); [done|]. by rewrite (fs_write_other _ _ _ _ _ _ E) in Hq.
Qed.
Lemma model_keys_only fs model r : only user_settings_path fs (write_model_keys fs model r).2.
Proof.
  unfold write_model_keys. destruct (List.find _ _) as [spec|]; [|apply only_refl].
  pose proof (set_raw_only fs (map lit (fd_path spec)) (JStr model)) as Hw. fold (set_user_setting fs spec (JStr model)) in *.
  unfold set_user_setting in *. destruct (set_raw fs _ (JStr model)) as [[p|e|] fs1]; [|done..].
  eapply only_trans; [exact Hw|]. apply set_raw_only.
Qed.
Lemma add_only fs name s : only user_settings_path fs (add_model fs name s).2.
Proof. unfold add_model. destruct (is_nil _); [apply only_refl|apply model_keys_only]. Qed.
Lemma remove_only fs name s : only user_settings_path fs (remove_model fs name s).2.
Proof.
  unfold remove_model. destruct (_ <? _)%nat; [apply only_refl|]. destruct (_ =? _)%nat; [apply only_refl|apply model_keys_only].
Qed.
Lemma set_key_only fs value : only key_file_path fs (set_api_key fs value).2.
Proof.
  unfold set_api_key. destruct key_file_path as [p|]; [|apply only_refl].
  unfold write_key_file. destruct (is_nil _); [apply only_refl|].
  destruct (fs_write fs p _) as [[p'|e|] fs1] eqn:E; [destruct (os_chmod p)|..];
    intros q Hq; f_equal; (destruct (decide (q = p)); [done|]); by rewrite (fs_write_other _ _ _ _ _ _ E) in Hq.
Qed.

Lemma commit_only fs m value cwd :
  only (if mn_editing_api_key m then key_file_path else user_settings_path) fs (menu_commit fs m value cwd).2.
Proof.
  unfold menu_commit, commit_api_key. destruct (mn_editing_api_key m).
  - destruct (is_nil _); [apply only_refl|]. pose proof (set_key_only fs (trim value)) as Hk.
    by destruct (set_api_key _ _) as [[p|e|] fs1].
  - destruct (current_field m) as [f|]; [|apply only_refl].
    assert (only user_settings_path fs (match field_parse f value with
              | inl e => (Err e, fs)
              | inr v => match fd_kind f with KModel => add_model fs value (mn_settings m) | _ => set_user_setting fs f v end
              end).2) as Hw.
    { destruct (field_parse f value); [apply only_refl|]. destruct (fd_kind f); try apply set_raw_only. apply add_only. }
    destruct (match field_parse f value with inl _ => _ | inr _ => _ end) as [[p|e|] fs1]; [|done..].
    by destruct (String.eqb _ _).
Qed.

(** What is typed into the editor of the key goes to the key file and nowhere
    else; no other key of the menu writes it, or any file but the settings. *)
Theorem menu_writes_one_file fs m cwd key r fs' o :
  menu_ok m -> handle_menu_key listing fs m cwd key = (r, fs', o) ->
  only (if mn_editing_api_key m then key_file_path else user_settings_path) fs fs'.
Proof.
  intros Hm E. change fs' with (r, fs', o).1.2. rewrite <- E. unfold handle_menu_key.
  assert (forall x, (take_outcome x).1.2 = x.2) as Ht by (by intros [? ?]).
  destruct (mn_editing m) as [buf|] eqn:Eb.
  - destruct key; try apply only_refl. rewrite Ht. apply commit_only.
  - pose proof (proj2 Hm Eb) as Hk.
    assert (forall delta, only (if mn_editing_api_key m then key_file_path else user_settings_path) fs (cycle_current fs m delta cwd).2) as Hc.
    { intros delta. unfold cycle_current. destruct (current_field m) as [f|]; [|apply only_refl].
      destruct (field_cycle _ _ _ _); [apply commit_only|apply only_refl]. }
    destruct key; try apply only_refl.
    + destruct (c =? 114); [apply only_refl|]. destruct (c =? 100); [|destruct (c =? 113); apply only_refl].
      rewrite Hk. unfold remove_current_model. destruct (current_field m) as [f|]; [|apply only_refl].
      destruct (negb _); [apply only_refl|]. pose proof (remove_only fs (field_current f (mn_settings m)) (mn_settings m)) as Hr.
      by destruct (remove_model _ _ _) as [[p|e|] fs1].
    + unfold activate_menu_row. destruct (current_row m) as [[]|]; apply only_refl.
    + destruct (on_settings m); [rewrite Ht; apply Hc|apply only_refl].
    + destruct (on_settings m); [rewrite Ht; apply Hc|apply only_refl].
Qed.
End Keys.

(** ** The projects *)

(** The order of paths is a strict order. *)
Lemma str_compare_eq a : forall b, str_compare a b = Eq <-> a = b.
Proof.
  induction a as [|x a IH]; intros [|y b]; simpl; try done.
  destruct (Z.compare_spec x y); [rewrite IH|..]; split; intros E; try discriminate E; try congruence;
    injection E as -> _; lia.
Qed.
Lemma str_compare_swap a : forall b, str_compare a b = Gt -> str_compare b a = Lt.
Proof.
  induction a as [|x a IH]; intros [|y b]; simpl; try done.
  destruct (Z.compare_spec x y), (Z.compare_spec y x); try lia; try done. apply IH.
Qed.
Lemma str_compare_trans a : forall b c, str_compare a b = Lt -> str_compare b c = Lt -> str_compare a c = Lt.
Proof.
  induction a as [|x a IH]; intros [|y b] [|z c]; simpl; try done.
  destruct (Z.compare_spec x y), (Z.compare_spec y z), (Z.compare_spec x z); try lia; try done. apply IH.
Qed.

Lemma comp_compare_eq a b : comp_compare a b = Eq <-> a = b.
Proof. destruct a, b; simpl; try done. rewrite str_compare_eq. naive_solver. Qed.
Lemma comp_compare_swap a b : comp_compare a b = Gt -> comp_compare b a = Lt.
Proof. destruct a, b; simpl; try done. apply str_compare_swap. Qed.
Lemma comp_compare_trans a b c : comp_compare a b = Lt -> comp_compare b c = Lt -> comp_compare a c = Lt.
Proof. destruct a, b, c; simpl; try done. apply str_compare_trans. Qed.

Lemma path_compare_eq a : forall b, path_compare a b = Eq <-> a = b.
Proof.
  induction a as [|x a IH]; intros [|y b]; simpl; try done.
  destruct (comp_compare x y) eqn:E; [apply comp_compare_eq in E as ->; rewrite IH; naive_solver|..];
    split; intros E2; try discriminate E2; injection E2 as -> _; by rewrite (proj2 (comp_compare_eq y y) eq_refl) in E.
Qed.
Lemma path_compare_swap a : forall b, path_compare a b = Gt -> path_compare b a = Lt.
Proof.
  induction a as [|x a IH]; intros [|y b]; simpl; try done.
  destruct (comp_compare x y) eqn:E; [|done|by rewrite (comp_compare_swap _ _ E)].
  apply comp_compare_eq in E as ->. rewrite (proj2 (comp_compare_eq y y) eq_refl). apply IH.
Qed.
Lemma path_compare_trans a : forall b c, path_compare a b = Lt -> path_compare b c = Lt -> path_compare a c = Lt.
Proof.
  induction a as [|x a IH]; intros [|y b] [|z c]; simpl; try done.
  destruct (comp_compare x y) eqn:E1; [apply comp_compare_eq in E1 as ->| |done].
  - destruct (comp_compare y z); try done. apply IH.
  - intros _. destruct (comp_compare y z) eqn:E2; [apply comp_compare_eq in E2 as <-; by rewrite E1|by rewrite (comp_compare_trans _ _ _ E1 E2)|done].
Qed.

Abbreviation group := (str * list SessionInfo)%type (only parsing).
Definition dir_lt (a b : group) : Prop := path_compare (components a.1) (components b.1) = Lt.
Definition group_ok (g : group) : Prop := Forall (fun s => components (si_cwd s) = components g.1) g.2.

Lemma group_insert_dirs s l g : g ∈ group_insert s l -> components g.1 = components (si_cwd s) \/ exists g', g' ∈ l /\ g.1 = g'.1.
Proof.
  induction l as [|[d ss] l IH]; simpl; [intros H; apply list_elem_of_singleton in H as ->; by left|].
  destruct (path_compare _ _) eqn:E; rewrite elem_of_cons.
  - intros [->|H]; right; [exists (d, ss)|exists g]; (split; [|done]); [apply list_elem_of_here|by apply list_elem_of_further].
  - intros [->|H]; [by left|right]. by exists g.
  - intros [->|H]; [right; exists (d, ss); split; [apply list_elem_of_here|done]|].
    destruct (IH H) as [?|(g' & Hg & Eg)]; [by left|right]. exists g'. split; [by apply list_elem_of_further|done].
Qed.

Lemma group_insert_ok s l :
  StronglySorted dir_lt l -> Forall group_ok l ->
  StronglySorted dir_lt (group_insert s l) /\ Forall group_ok (group_insert s l)
  /\ concat (group_insert s l).*2 ≡ₚ s :: concat l.*2.
Proof.
  induction 1 as [|[d ss] l Hl IH Hd]; intros Hok; simpl.
  { split_and!; [by repeat constructor|by repeat constructor|done]. }
  apply list.Forall_cons in Hok as [Hss Hok]. destruct (path_compare _ _) eqn:E.
  - apply path_compare_eq in E. split_and!.
    + constructor; [done|]. exact Hd.
    + apply list.Forall_cons. split; [|done]. apply list.Forall_app. split; [exact Hss|]. by repeat constructor.
    + simpl. rewrite <- app_assoc. simpl. by rewrite Permutation_middle.
  - split_and!.
    + constructor; [by constructor|]. apply list.Forall_cons. split; [done|].
      eapply list.Forall_impl; [exact Hd|]. intros g Hg. eapply path_compare_trans; [exact E|exact Hg].
    + apply list.Forall_cons. split; [by repeat constructor|]. by apply list.Forall_cons.
    + done.
  - destruct (IH Hok) as (I1 & I2 & I3). split_and!.
    + constructor; [done|]. apply list.Forall_forall. intros g Hg.
      destruct (group_insert_dirs _ _ _ Hg) as [Eg|(g' & Hg' & Eg)]; unfold dir_lt; cbn [fst].
      * rewrite Eg. by apply path_compare_swap.
      * rewrite Eg. rewrite list.Forall_forall in Hd. apply (Hd _ Hg').
    + by apply list.Forall_cons.
    + simpl. rewrite I3. by rewrite Permutation_middle.
Qed.

Lemma groups_ok ss : forall l, StronglySorted dir_lt l -> Forall group_ok l ->
  let r := fold_left (fun m s => group_insert s m) ss l in
  StronglySorted dir_lt r /\ Forall group_ok r /\ concat r.*2 ≡ₚ ss ++ concat l.*2.
Proof.
  induction ss as [|s ss IH]; intros l Hs Hok; [done|]. destruct (group_insert_ok s l Hs Hok) as (I1 & I2 & I3).
  destruct (IH _ I1 I2) as (J1 & J2 & J3). split_and!; [done..|]. simpl. rewrite J3, I3. by rewrite Permutation_middle.
Qed.

Lemma sorted_nodup l : StronglySorted dir_lt l -> NoDup (components <$> l.*1).
Proof.
  induction 1 as [|g l Hl IH Hg]; simpl; constructor; [|done]. intros H.
  apply list_elem_of_fmap in H as (d & Ed & H). apply list_elem_of_fmap in H as (g' & -> & H).
  rewrite list.Forall_forall in Hg. specialize (Hg _ H). unfold dir_lt in Hg. rewrite Ed in Hg.
  by rewrite (proj2 (path_compare_eq _ _) eq_refl) in Hg.
Qed.

#[local] Instance newer_total : Total newer. Proof. intros a b. unfold newer. lia. Qed.
#[local] Instance newer_trans : Transitive newer. Proof. intros a b c. unfold newer. lia. Qed.
#[local] Instance newer_project_total : Total newer_project. Proof. intros a b. unfold newer_project. lia. Qed.
#[local] Instance newer_project_trans : Transitive newer_project. Proof. intros a b c. unfold newer_project. lia. Qed.

(** Every session is listed once, in the one project of its directory; the
    sessions of a project and the projects are in order, the newest first. *)
Theorem projects_partition_sessions sessions :
  let ps := group_projects sessions in
  concat (map pj_sessions ps) ≡ₚ sessions
  /\ NoDup (map (fun p => components (pj_dir p)) ps)
  /\ StronglySorted newer_project ps
  /\ Forall (fun p => StronglySorted newer (pj_sessions p)
               /\ Forall (fun s => components (si_cwd s) = components (pj_dir p) /\ si_modified s <= pj_last p) (pj_sessions p)) ps.
Proof.
  unfold group_projects. destruct (groups_ok sessions [] (SSorted_nil _) (List.Forall_nil _)) as (G1 & G2 & G3).
  rewrite app_nil_r in G3. set (gs := fold_left _ _ _) in *.
  pose proof (merge_sort_Permutation newer_project (map make_project gs)) as Hp.
  cbv zeta. split_and!.
  - rewrite Hp, <- G3, map_map. clear. induction gs as [|g gs IH]; simpl; [done|]. by rewrite IH, merge_sort_Permutation.
  - rewrite Hp, map_map. rewrite (map_ext _ (fun g : group => components g.1)) by done.
    pose proof (sorted_nodup _ G1) as Hn. rewrite <- list_fmap_compose in Hn. exact Hn.
  - apply StronglySorted_merge_sort; apply _.
  - rewrite Hp. apply List.Forall_map. eapply list.Forall_impl; [exact G2|]. intros g Hg. cbn [pj_sessions pj_dir pj_last make_project].
    assert (StronglySorted newer (merge_sort newer g.2)) as Hs by (apply StronglySorted_merge_sort; apply _).
    split; [exact Hs|]. apply list.Forall_forall. intros s Hin. split.
    + unfold group_ok in Hg. rewrite list.Forall_forall in Hg. apply Hg. by rewrite merge_sort_Permutation in Hin.
    + destruct (merge_sort newer g.2) as [|s0 r]; [by apply elem_of_nil in Hin|].
      apply elem_of_cons in Hin as [->|Hin]; [lia|]. apply StronglySorted_inv in Hs as [_ Hs].
      rewrite list.Forall_forall in Hs. apply (Hs _ Hin).
Qed.

(** ** Witnesses *)

#[local] Existing Instance ConfigSample.os.
#[local] Existing Instance ConfigSample.json.
#[local] Existing Instance ConfigSample.disk.

Module MenuSample.
Definition menu0 : MenuState := menu_new [] ConfigSample.fs0 ConfigSample.cwd.
Definition press (m : MenuState) (key : KeyCode) : MenuResult :=
  handle_menu_key [] ConfigSample.fs0 m ConfigSample.cwd key.
Definition typing : MenuState := with_editing menu0 (Some (lit "sk-1")) true.
End MenuSample.

Theorem cursor_stays_on_a_row_witness :
  exists m' fs' o, MenuSample.press MenuSample.menu0 KeyUp = (Some m', fs', o) /\ mn_selected m' = 3%nat /\ menu_ok m'.
Proof.
  assert (menu_ok MenuSample.menu0) as H0 by (split; [vm_compute; lia|done]).
  eexists _, _, _. split; [unfold MenuSample.press, handle_menu_key; cbn [mn_editing MenuSample.menu0 menu_new]; reflexivity|].
  split; [vm_compute; reflexivity|].
  eapply (cursor_stays_on_a_row [] ConfigSample.fs0 MenuSample.menu0 ConfigSample.cwd KeyUp); [exact H0| |].
  - vm_compute. reflexivity.
  - unfold handle_menu_key. cbn [mn_editing MenuSample.menu0 menu_new]. reflexivity.
Defined.

Theorem menu_writes_one_file_witness :
  let fs' := (MenuSample.press MenuSample.typing KeyEnter).1.2 in
  fs' !! lit "/home/u/.sc/key" = Some (utf8 (lit "sk-1" ++ [10]))
  /\ fs' !! ConfigSample.path = ConfigSample.fs0 !! ConfigSample.path.
Proof.
  cbv zeta. split; [vm_compute; reflexivity|].
  pose proof (menu_writes_one_file [] ConfigSample.fs0 MenuSample.typing ConfigSample.cwd KeyEnter
    (MenuSample.press MenuSample.typing KeyEnter).1.1 (MenuSample.press MenuSample.typing KeyEnter).1.2
    (MenuSample.press MenuSample.typing KeyEnter).2) as T.
  assert (only key_file_path ConfigSample.fs0 (MenuSample.press MenuSample.typing KeyEnter).1.2) as Ho.
  { apply T; [split; [vm_compute; lia|done]|]. unfold MenuSample.press.
    destruct (handle_menu_key _ _ _ _ _) as [[a b] c]. reflexivity. }
  destruct (decide ((MenuSample.press MenuSample.typing KeyEnter).1.2 !! ConfigSample.path = ConfigSample.fs0 !! ConfigSample.path)) as [E|E];
    [exact E|].
  apply Ho in E. vm_compute in E. discriminate E.
Defined.
