(* ===== verification/SessionLog.v ===== *)
(** The loop and the session file agree: what a run of the agent loop
    (src/crates/rc-core/src/agent.rs) does to the session is what loading
    (src/crates/rc-session/src/lib.rs) recomputes from the turns the run
    reports to the session writer.

    The working directory and the session's permission grants are not in the
    file. *)

From S2P Require Import Prelude Wire Cost Turn Json PermRules AgentSink AgentBatch Agent AgentRun Session.
#[local] Open Scope Z_scope.

(** What a session file stands for of a session. *)
Record same_saved (x y : Session) : Prop := mk_same_saved {
  ss_id : s_id x = s_id y; ss_model : s_model x = s_model y; ss_dirs : s_extra_dirs x = s_extra_dirs y;
  ss_messages : s_messages x = s_messages y; ss_mode : s_mode x = s_mode y;
  ss_usage : s_total_usage x = s_total_usage y; ss_cost : s_total_cost x = s_total_cost y
}.
#[export] Instance same_saved_equiv : Equivalence same_saved.
Proof.
  split.
  - by intros x.
  - intros x y []. by split.
  - intros x y z [] []. split; congruence.
Qed.
#[export] Instance replay_turn_proper : Proper (same_saved ==> eq ==> same_saved) replay_turn.
Proof. intros x y [E1 E2 E3 E4 E5 E6 E7] t _ <-. split; cbn; by rewrite ?E1, ?E2, ?E3, ?E4, ?E5, ?E6, ?E7. Qed.

Definition replay_all (ts : list Turn) (x : Session) : Session := fold_left replay_turn ts x.
#[export] Instance replay_proper : Proper (eq ==> same_saved ==> same_saved) replay_all.
Proof. intros ts _ <-. induction ts as [|t ts IH]; intros x y E; [done|]. apply IH. by rewrite E. Qed.
Lemma replay_app a b x : replay_all (a ++ b) x = replay_all b (replay_all a x).
Proof. apply fold_left_app. Qed.

(** [y] is what the file gives back of [x]: the same, with the turns as the
    file stores them (their times in whole milliseconds). *)
Record stored_as (x y : Session) : Prop := mk_stored_as {
  sa_id : s_id x = s_id y; sa_model : s_model x = s_model y; sa_dirs : s_extra_dirs x = s_extra_dirs y;
  sa_messages : omap stored_turn (s_messages x) = s_messages y; sa_mode : s_mode x = s_mode y;
  sa_usage : s_total_usage x = s_total_usage y; sa_cost : s_total_cost x = s_total_cost y
}.
#[export] Instance stored_as_proper : Proper (same_saved ==> same_saved ==> iff) stored_as.
Proof.
  intros x x' [E1 E2 E3 E4 E5 E6 E7] y y' [F1 F2 F3 F4 F5 F6 F7].
  split; intros []; split; congruence.
Qed.
Lemma stored_as_messages x y : stored_as x y ->
  Forall (fun t => times_fit t = true) (s_messages x) -> s_messages y = map cut_times (s_messages x).
Proof. intros S Hx. rewrite <- (sa_messages _ _ S). by apply omap_stored_cut. Qed.
(** A session that was just loaded. *)
Lemma stored_as_loaded s ts : stored_as (restored s ts) (restored s ts).
Proof. split; try done. by rewrite restored_messages, omap_stored_twice. Qed.

(** Replaying turns in memory, and what is stored of them from the file. *)
Lemma stored_as_replay ts : forall x y, stored_as x y -> stored_as (replay_all ts x) (replay_all (omap stored_turn ts) y).
Proof.
  induction ts as [|t ts IH]; intros x y S; [done|]. destruct S as [E1 E2 E3 E4 E5 E6 E7].
  pose proof (stored_replay t) as R. unfold replay_all. cbn [omap list_omap fold_left].
  destruct (stored_turn t) as [t'|] eqn:E; destruct R as (R1 & R2 & R3); apply IH.
  - split; cbn; rewrite ?R1, ?R2, ?R3; try congruence. by rewrite omap_app, E4; cbn; rewrite E.
  - split; cbn; rewrite ?R1, ?R2, ?R3; try congruence. by rewrite omap_app, E4; cbn; rewrite E, app_nil_r.
Qed.
Lemma stored_as_more s ts us x : stored_as x (restored s ts) -> stored_as (replay_all us x) (restored s (ts ++ us)).
Proof. intros S. rewrite <- restored_app. by apply (stored_as_replay us). Qed.

(** The turns a trace reports to the session writer. *)
Definition reported (fx : list Effect) : list Turn :=
  omap (fun e => match e with Sink (OnTurn t) => Some t | _ => None end) fx.
Lemma reported_app a b : reported (a ++ b) = reported a ++ reported b.
Proof. apply omap_app. Qed.
Definition reports_nothing (e : Effect) : bool := match e with Sink (OnTurn _) => false | _ => true end.
Lemma reported_none e : reports_nothing e = true -> reported [e] = [].
Proof. by destruct e as [[]| | | |]. Qed.

Section Log.
Context {W : Type} `{AgentEnv W}.
Implicit Types s : AState W.

(** [s'] is [s] after the reported turns, none of which changed the mode. *)
Definition told s s' : Prop :=
  (exists fx, a_fx s' = a_fx s ++ fx /\ same_saved (a_session s') (replay_all (reported fx) (a_session s)))
  /\ s_mode (a_session s') = s_mode (a_session s).
#[export] Instance logged_preorder : PreOrder told.
Proof.
  split.
  - intros s. split; [|done]. exists []. by rewrite app_nil_r.
  - intros s1 s2 s3 [(f1 & E1 & S1) M1] [(f2 & E2 & S2) M2]. split; [|congruence]. exists (f1 ++ f2). rewrite E2, E1, app_assoc. split; [done|].
    rewrite reported_app, replay_app, <- S1. exact S2.
Qed.

Lemma logged_quiet s s' fx : a_fx s' = a_fx s ++ fx -> reported fx = [] -> same_saved (a_session s') (a_session s) -> told s s'.
Proof. intros E R S. split; [exists fx; by rewrite R|apply S]. Qed.

(** Programs that only change the session by reporting turns. *)
Definition logs {A} (m : M W A) : Prop := forall s, told s (m s).2.

Lemma logs_same {A} (m : M W A) : (forall s, a_fx (m s).2 = a_fx s /\ same_saved (a_session (m s).2) (a_session s)) -> logs m.
Proof. intros Hm s. destruct (Hm s) as [E S]. apply (logged_quiet _ _ []); [by rewrite app_nil_r|done|done]. Qed.
Lemma logs_ret {A} (x : A) : logs (ret x).
Proof. by apply logs_same. Qed.
Lemma logs_panic {A} : logs (panic : M W A).
Proof. by apply logs_same. Qed.
Lemma logs_cut {A} c : logs ((fun s => (CutOff c, s)) : M W A).
Proof. by apply logs_same. Qed.
Lemma logs_expect {A} (o : option A) : logs (expect o : M W A).
Proof. by destruct o; apply logs_same. Qed.
Lemma logs_get_world : logs (get_world (W:=W)).
Proof. by apply logs_same. Qed.
Lemma logs_get_session : logs (get_session (W:=W)).
Proof. by apply logs_same. Qed.
Lemma logs_get_batch : logs (get_batch (W:=W)).
Proof. by apply logs_same. Qed.
Lemma logs_set_world w : logs (set_world w : M W unit).
Proof. by apply logs_same. Qed.
Lemma logs_set_batch b : logs (set_batch b : M W unit).
Proof. by apply logs_same. Qed.
Lemma logs_poll d : logs (poll d : M W unit).
Proof. apply logs_same. intros s. unfold poll. by repeat case_match. Qed.
Lemma logs_tell e : reports_nothing e = true -> logs (tell e : M W unit).
Proof. intros He s. apply (logged_quiet _ _ [e]); [done|by apply reported_none|done]. Qed.
Lemma logs_emit e : reports_nothing (Sink e) = true -> logs (emit e : M W unit).
Proof. apply logs_tell. Qed.
Lemma logs_bind {A B} (m : M W A) (f : A -> M W B) : logs m -> (forall a, logs (f a)) -> logs (bind m f).
Proof.
  intros Hm Hf s. unfold bind. specialize (Hm s). destruct (m s) as [[a|c|] s']; [|done|done]. etrans; [exact Hm|]. apply Hf.
Qed.
Lemma logs_catch {A} (m : M W A) : logs m -> logs (catch m).
Proof. intros Hm s. unfold catch. specialize (Hm s). by destruct (m s) as [[a|c|] s']. Qed.
Lemma logs_iterM {A} (f : A -> M W unit) l : (forall x, logs (f x)) -> logs (iterM f l).
Proof. intros Hf. induction l as [|x l IH]; cbn [iterM]; [apply logs_ret|]. by apply logs_bind. Qed.

(** A session update outside the file. *)
Lemma logs_update {B} (g : Session -> Session) (k : Session -> M W B) :
  (forall x, same_saved (g x) x) -> (forall x, logs (k x)) -> logs (x <- get_session ;; set_session (g x) ;; k x).
Proof.
  intros Hg Hk s. unfold bind, get_session, set_session. etrans; [|apply Hk].
  apply (logged_quiet _ _ []); cbn; [by rewrite app_nil_r|done|apply Hg].
Qed.

Lemma logs_update_end (g : Session -> Session) :
  (forall x, same_saved (g x) x) -> logs ((x <- get_session ;; set_session (g x)) : M W unit).
Proof.
  intros Hg s. unfold bind, get_session, set_session. apply (logged_quiet _ _ []); cbn; [by rewrite app_nil_r|done|apply Hg].
Qed.

(** A turn that carries no usage, cost or mode. *)
Definition plain_turn (t : Turn) : bool :=
  match t with TSystemNote NModeChange _ => false | TAssistant _ _ _ (Some _) _ _ | TAssistant _ _ _ _ (Some _) _ => false | _ => true end.
Lemma plain_replay t x : plain_turn t = true -> same_saved (replay_turn x t) (with_messages x (s_messages x ++ [t])).
Proof. intros Hp. destruct t as [| ? ? ? [] []| |[]| |]; try done. Qed.

Lemma logs_push t : plain_turn t = true -> logs (push_turn t : M W unit).
Proof.
  intros Hp s. split; [|done]. exists [Sink (OnTurn t)]. split; [done|]. cbn [reported omap list_omap replay_all fold_left].
  by rewrite (plain_replay t _ Hp).
Qed.
End Log.

Create HintDb logs.
#[export] Hint Resolve logs_ret logs_panic logs_cut logs_expect logs_get_world logs_get_session logs_get_batch logs_set_world
  logs_set_batch logs_poll logs_tell logs_emit logs_push : logs.

(** Walks through a program. *)
Ltac logs_step :=
  first
    [ done
    | solve [auto with logs]
    | apply logs_iterM; intros
    | apply logs_catch
    | apply logs_update; [by split|intros]
    | apply logs_update_end; by split
    | apply logs_bind; [|intros]
    | case_match ].
Ltac logs_tac := repeat (logs_step; cbv beta zeta).

Section Program.
Context {W : Type} `{AgentEnv W}.

Lemma logs_now : logs (now : M W Z).
Proof. unfold now. logs_tac. Qed.
Lemma logs_await {A} d (f : W -> A * W) : logs (await d f).
Proof. unfold await. logs_tac. Qed.
Hint Resolve logs_now logs_await : logs.

(** ** The batch *)

Lemma logs_record i r : logs (record_batch_result i r : M W unit).
Proof. unfold record_batch_result. logs_tac. Qed.
Lemma logs_completion r : logs (emit_tool_completion r : M W unit).
Proof. unfold emit_tool_completion. logs_tac. Qed.
Lemma logs_mark i : logs (mark_emitted i : M W unit) /\ logs (mark_batch_emitted i : M W unit).
Proof. unfold mark_emitted, mark_batch_emitted. split; logs_tac. Qed.
Lemma logs_complete_call i r : logs (complete_call i r : M W unit).
Proof. unfold complete_call. pose proof logs_completion. pose proof logs_record. pose proof (fun i => proj1 (logs_mark i)). logs_tac. Qed.
Lemma logs_live_cwd : logs (live_cwd : M W str).
Proof. unfold live_cwd. logs_tac. Qed.
Hint Resolve logs_record logs_completion logs_complete_call logs_live_cwd : logs.

Lemma logs_authorize d roots c cwd : logs (authorize_call d roots c cwd : M W _).
Proof.
  unfold authorize_call. logs_tac.
Qed.
Lemma logs_run_one d c cwd : logs (run_one d c cwd : M W _).
Proof. unfold run_one. logs_tac. Qed.
Hint Resolve logs_authorize logs_run_one : logs.

Lemma logs_join_all d cap k phase : logs (join_all d cap k phase : M W unit).
Proof. revert k. induction phase as [|[i c] phase IH]; intros k; cbn [join_all]; logs_tac. Qed.
Lemma logs_parallel d cap phase : logs (run_parallel_phase d cap phase : M W unit).
Proof. unfold run_parallel_phase. pose proof logs_join_all. unfold spawn. logs_tac. Qed.
Lemma logs_authorize_phase d roots phase cwd : forall allowed, logs (authorize_phase d roots phase cwd allowed : M W _).
Proof. induction phase as [|[i c] phase IH]; intros allowed; cbn [authorize_phase]; logs_tac. Qed.
Lemma logs_phase_tools p : logs (phase_tools p : M W _).
Proof. induction p as [|[i c] p IH]; cbn [phase_tools]; logs_tac. Qed.
Lemma logs_barrier d cap roots i c : logs (run_barrier d cap roots i c : M W unit).
Proof. unfold run_barrier. logs_tac. Qed.
Hint Resolve logs_parallel logs_authorize_phase logs_phase_tools logs_barrier : logs.

Lemma logs_batch_loop d cap roots fuel : forall l, logs (batch_loop d cap roots fuel l : M W unit).
Proof. induction fuel as [|fuel IH]; intros l; cbn [batch_loop]; logs_tac. Qed.
Lemma logs_parse_errors items : forall i, logs (record_parse_errors i items : M W unit).
Proof. induction items as [|[] items IH]; intros i; cbn [record_parse_errors]; logs_tac. Qed.
Lemma logs_publish_rest : logs (publish_rest : M W unit).
Proof. unfold publish_rest. pose proof (fun i => proj2 (logs_mark i)). logs_tac. Qed.
Lemma logs_collect l : forall rs, logs (collect l rs : M W _).
Proof. induction l as [|i l IH]; intros rs; cbn [collect]; logs_tac. Qed.
Hint Resolve logs_batch_loop logs_parse_errors logs_publish_rest logs_collect : logs.

Lemma logs_execute_batch d cap roots items : logs (execute_batch d cap roots items : M W _).
Proof. unfold execute_batch. logs_tac. Qed.
Lemma logs_finish_partial calls : forall i, logs (finish_partial i calls : M W unit).
Proof. induction calls as [|c calls IH]; intros i; cbn [finish_partial]; logs_tac. Qed.
Hint Resolve logs_execute_batch logs_finish_partial : logs.
Lemma logs_run_batch d cap roots items calls : logs (run_batch d cap roots items calls : M W _).
Proof. unfold run_batch, cancel_turn, finish_partial_batch, push_result. logs_tac. Qed.
Lemma logs_answers calls r : logs (iterM (fun c => answer_with c r) calls : M W unit).
Proof. unfold answer_with. logs_tac. Qed.
Hint Resolve logs_run_batch logs_answers : logs.
End Program.
#[export] Hint Resolve logs_now logs_await logs_run_batch logs_answers logs_live_cwd : logs.

(** ** The loop *)

Section Loop.
Context {W : Type} `{AgentEnv W} (a : AgentLoop).

Lemma logs_sync_cwd : logs (sync_cwd : M W unit).
Proof. unfold sync_cwd. logs_tac. Qed.
Lemma logs_push_cancelled : logs (push_cancelled : M W unit).
Proof. unfold push_cancelled. logs_tac. Qed.
Lemma logs_recovery text : logs (recovery_note text : M W unit).
Proof. unfold recovery_note. logs_tac. Qed.
Hint Resolve logs_sync_cwd logs_push_cancelled logs_recovery : logs.

(** Accounting for a response and logging its turn. *)
Definition booked (o : option Usage) (chars : Z) : M W unit :=
  match o with Some u => account a u chars | None => ret tt end.
Lemma logs_booked {B} text rs calls o tr chars (k : M W B) : logs k ->
  logs (booked o chars ;; push_turn (TAssistant text rs calls o (option_map (cost_of (al_pricing a)) o) tr) ;; k).
Proof.
  intros Hk s. destruct o as [u|].
  - unfold booked, account, push_turn, emit, bind, tell, get_session, set_session, get_world, set_world. etrans; [|apply Hk]. split; [|done].
    exists [Sink (OnUsage u); Sink (OnTurn (TAssistant text rs calls (Some u) (Some (cost_of (al_pricing a) u)) tr))].
    cbn [a_fx a_session option_map]. split; [by rewrite <- app_assoc|]. by split.
  - cbn [booked option_map]. unfold bind at 1, ret. apply (logs_bind (push_turn _) (fun _ => k)); [by apply logs_push|done].
Qed.

Lemma logs_on_response v roots chars mk r : logs (on_response a v roots chars mk r : M W Step).
Proof.
  unfold on_response. fold (booked (mr_usage r) chars). set (effective := if looks_like_implicit_length _ _ then _ else _).
  destruct (split_calls (mr_tool_calls r) [] []) as [calls items].
  destruct (unconfirmed_reason calls effective) as [reason|] eqn:Eu.
  { unfold on_unconfirmed, synthesize_retryable_unconfirmed. apply logs_booked. logs_tac. }
  destruct effective eqn:Ee.
  - unfold on_stop. apply logs_booked. unfold synthesize_interrupted. logs_tac.
  - assert (calls = []) as -> by (by destruct calls). unfold on_length. cbn [is_nil]. apply logs_booked. logs_tac.
  - unfold on_tool_calls. apply logs_booked. logs_tac.
  - apply logs_booked. unfold synthesize_interrupted. logs_tac.
  - apply logs_booked. unfold synthesize_interrupted. logs_tac.
Qed.

Lemma logs_on_error items mk e : logs (on_error items mk e : M W Step).
Proof. unfold on_error. logs_tac. Qed.
Lemma logs_complete ms : logs (complete ms : M W _).
Proof. unfold complete. logs_tac. Qed.
Lemma logs_assert ms : logs (assert_invariant ms : M W unit).
Proof. unfold assert_invariant. logs_tac. Qed.
Lemma logs_over_budget t : logs (over_budget a t : M W bool).
Proof. unfold over_budget. logs_tac. Qed.
Hint Resolve logs_on_response logs_on_error logs_complete logs_assert logs_over_budget : logs.

Lemma logs_request_step v roots : logs (request_step a v roots : M W Step).
Proof. unfold request_step, cancel_turn. logs_tac. Qed.
Hint Resolve logs_request_step : logs.
Lemma logs_iteration v t roots : logs (iteration a v t roots : M W Step).
Proof. unfold iteration. logs_tac. Qed.
Hint Resolve logs_iteration : logs.
Lemma logs_run_loop fuel : forall v t roots, logs (run_loop a fuel v t roots : M W _).
Proof. induction fuel as [|fuel IH]; intros v t roots; cbn [run_loop]; logs_tac. Qed.
Hint Resolve logs_run_loop : logs.
Lemma logs_run fuel input : logs (run a fuel input : M W _).
Proof. unfold run. logs_tac. Qed.
End Loop.
#[export] Hint Resolve logs_run : logs.

(** ** Theorems *)

(** C6: resuming gives back the session in memory, its times in whole
    milliseconds.  Let a store be open on the file of a session that the
    session in memory agrees with (as it does just after loading), and let one
    run of the agent loop happen, whatever the model, the tools and the user
    do and however it ends.  When the writer thread has written the turns the
    run reported, loading the file gives a session with the mode, identity and
    totals of the one in memory, and with its messages as the file stores
    them: the same messages with their times cut to whole milliseconds,
    where the times fit 64 bits of milliseconds. *)
Theorem resume_is_memory `{JsonLine SessionHeader, JsonLine Turn, !JsonLineLaws SessionHeader, !JsonLineLaws Turn} {W} `{AgentEnv W}
    (a : AgentLoop) fuel input s d st s0 ts0 h ls0 ls :
  json_print (header_of_session s0) = Some h -> mapM json_print ts0 = Some ls0 ->
  sto_writer st = true -> d_files d !! sto_path st = Some (file_of (h :: ls0)) ->
  stored_as (a_session s) (restored s0 ts0) -> a_fx s = [] ->
  let s' := (run a fuel input s).2 in
  mapM json_print (reported (a_fx s')) = Some ls ->
  exists y, load (d_files (persist d st (reported (a_fx s'))).1 !! sto_path st) = Ok y /\ stored_as (a_session s') y
    /\ (Forall (fun t => times_fit t = true) (s_messages (a_session s')) -> s_messages y = map cut_times (s_messages (a_session s'))).
Proof.
  intros Hh E0 Hw Hf Hs Hfx s' E. exists (restored s0 (ts0 ++ reported (a_fx s'))). split.
  - rewrite (persist_open _ _ _ (file_of (h :: ls0)) ls) by done. cbn [fst d_files]. rewrite lookup_insert_eq, <- file_of_app. cbn [app].
    apply load_saved; [done|]. apply mapM_Some, Forall2_app; by apply mapM_Some.
  - assert (stored_as (a_session s') (restored s0 (ts0 ++ reported (a_fx s')))) as S; [|split; [done|by apply stored_as_messages]].
    destruct (logs_run a fuel input s) as [(fx & Efx & S) _]. fold s' in Efx, S. rewrite Hfx in Efx. cbn [app] in Efx. subst fx.
    rewrite S. by apply stored_as_more.
Qed.

(** ** Witnesses *)

#[local] Existing Instance Tree.tree_json.
#[local] Existing Instance Sample.env.
#[local] Existing Instance toy_header_line.
#[local] Existing Instance toy_turn_line.
#[local] Existing Instance toy_header_laws.
#[local] Existing Instance toy_turn_laws.

Definition no_iterations : AgentLoop := MkLoop 0 None None None (mk_pricing 0 0 0) HARD_TOOL_RESULT_CAP false.
Definition toy_start : AState Sample.world := MkState (Sample.MkWorld 0 [] false) [] toy_session (batch_new 0).

Lemma resume_is_memory_witness :
  let s' := (run no_iterations 1 (lit "a") toy_start).2 in
  exists y, load (d_files (persist (toy_disk {[lit "s" := file_of [lit "{h}"]]}) (mk_session_store true (lit "s") None) (reported (a_fx s'))).1
                   !! lit "s") = Ok y /\ stored_as (a_session s') y /\ s_messages y = [TUser (lit "a") 0].
Proof.
  destruct (resume_is_memory no_iterations 1 (lit "a") toy_start (toy_disk {[lit "s" := file_of [lit "{h}"]]})
    (mk_session_store true (lit "s") None) toy_session [] (lit "{h}") [] [[123; 97; 125]] toy_print eq_refl eq_refl)
    as (y & E & S & M); try reflexivity; [by split|].
  exists y. split; [exact E|]. split; [exact S|].
  assert (s_messages (a_session (run no_iterations 1 (lit "a") toy_start).2) = [TUser (lit "a") 0]) as Em by (vm_compute; reflexivity).
  rewrite Em in M. apply M. by repeat constructor.
Defined.
