(* ===== verification/RtEvents.v ===== *)
(** The event stream of the runtime (src/crates/rc-rt/src/event.rs and the
    forwarding of src/crates/rc-rt/src/sink.rs): a single-consumer queue that
    merges streamed text as it is sent and evicts presentation events when a
    stalled host lets them pile up. *)

From S2P Require Import Prelude Wire Turn Json AgentSink AgentBatch Agent.
#[local] Open Scope Z_scope.

Definition EVENT_QUEUE_CAP : Z := 1024.
Definition STREAM_CHUNK_CAP : Z := 512 * 1024.

Section Events.
Context `{JsonApi}.

(** [AgentEvent] *)
Inductive AgentEvent :=
| AeText (s : str)
| AeReasoning (s : str)
| AeToolStart (call : ToolCall)
| AeToolEnd (call_id tool : str) (result : ToolResultBody)
| AeArtifact (call_id tool : str) (artifact : Artifact)
| AePermissionAsk (id : Z) (tool : str) (input : Value) (reason : str)
| AePermissionDecision (id : Z) (response : AskResponse)
| AeIter (count max : Z)
| AeRetry (retries : Z)
| AeUsage (u : Usage)
| AeContext (chars est_tokens : Z)
| AeOutcome (o : LoopOutcome)
| AeError (s : str)
| AeModeChanged (m : AgentMode)
| AeReady
| AeIdle
| AeNotice (s : str).

Record EventQueueState := mk_queue {
  eq_events : list AgentEvent;
  eq_compactable : Z;
  eq_dropped : Z;
  eq_senders : Z;
  eq_closed : bool;
  eq_receiver_open : bool
}.

(** [channel] *)
Definition channel : EventQueueState := mk_queue [] 0 0 1 false true.

Definition is_compactable (e : AgentEvent) : bool :=
  match e with AeText _ | AeReasoning _ | AeIter _ _ | AeRetry _ | AeUsage _ | AeContext _ _ => true | _ => false end.

(** [merge_stream_delta]: the last event with the delta added. *)
Definition merge_stream_delta (last : option AgentEvent) (next : AgentEvent) : option AgentEvent :=
  match last, next with
  | Some (AeText current), AeText delta =>
      if sat_add 64 (byte_len current) (byte_len delta) <=? STREAM_CHUNK_CAP then Some (AeText (current ++ delta)) else None
  | Some (AeReasoning current), AeReasoning delta =>
      if sat_add 64 (byte_len current) (byte_len delta) <=? STREAM_CHUNK_CAP then Some (AeReasoning (current ++ delta)) else None
  | _, _ => None
  end.

(** Removing the first compactable event. *)
Fixpoint remove_first_compactable (l : list AgentEvent) : option (list AgentEvent) :=
  match l with
  | [] => None
  | e :: l => if is_compactable e then Some l else cons e <$> remove_first_compactable l
  end.

Definition make_compactable_room (q : EventQueueState) : EventQueueState :=
  if eq_compactable q <? EVENT_QUEUE_CAP then q
  else
    match remove_first_compactable (eq_events q) with
    | None => q
    | Some l => mk_queue l (sat_sub (eq_compactable q) 1) (sat_add 64 (eq_dropped q) 1) (eq_senders q) (eq_closed q) (eq_receiver_open q)
    end.

Definition overflow_notice (dropped : Z) : str :=
  lit "UI event queue saturated; " ++ show_z dropped ++ lit " presentation event(s) were compacted".

Definition push_event (q : EventQueueState) (e : AgentEvent) : EventQueueState :=
  mk_queue (eq_events q ++ [e]) (eq_compactable q) (eq_dropped q) (eq_senders q) (eq_closed q) (eq_receiver_open q).

(** [EventSender::send] *)
Definition send_event (q : EventQueueState) (event : AgentEvent) : EventQueueState :=
  if eq_closed q || negb (eq_receiver_open q) then q
  else
    match merge_stream_delta (list.last (eq_events q)) event with
    | Some merged =>
        mk_queue (removelast (eq_events q) ++ [merged]) (eq_compactable q) (eq_dropped q) (eq_senders q) (eq_closed q) (eq_receiver_open q)
    | None =>
        let q :=
          match event with
          | AeIdle =>
              if 0 <? eq_dropped q then
                mk_queue (eq_events q ++ [AeNotice (overflow_notice (eq_dropped q))]) (eq_compactable q) 0 (eq_senders q)
                  (eq_closed q) (eq_receiver_open q)
              else q
          | _ => q
          end in
        let q :=
          if is_compactable event then
            let q := make_compactable_room q in
            mk_queue (eq_events q) (eq_compactable q + 1) (eq_dropped q) (eq_senders q) (eq_closed q) (eq_receiver_open q)
          else q in
        push_event q event
    end.

(** Cloning and dropping a sender. *)
Definition clone_sender (q : EventQueueState) : EventQueueState :=
  mk_queue (eq_events q) (eq_compactable q) (eq_dropped q) (sat_add 64 (eq_senders q) 1) (eq_closed q) (eq_receiver_open q).
Definition drop_sender (q : EventQueueState) : EventQueueState :=
  let n := sat_sub (eq_senders q) 1 in
  mk_queue (eq_events q) (eq_compactable q) (eq_dropped q) n (eq_closed q || (n =? 0)) (eq_receiver_open q).

(** [try_recv]; one turn of the loop of [recv], and the receiver going away. *)
Definition try_recv (q : EventQueueState) : option AgentEvent * EventQueueState :=
  match eq_events q with
  | [] => (None, q)
  | e :: l =>
      (Some e, mk_queue l (if is_compactable e then sat_sub (eq_compactable q) 1 else eq_compactable q) (eq_dropped q)
                 (eq_senders q) (eq_closed q) (eq_receiver_open q))
  end.
Inductive Received := RecvEvent (e : AgentEvent) | RecvEnd | RecvWait.
Definition recv_once (q : EventQueueState) : Received * EventQueueState :=
  match try_recv q with
  | (Some e, q) => (RecvEvent e, q)
  | (None, q) => (if eq_closed q then RecvEnd else RecvWait, q)
  end.
Definition drop_receiver (q : EventQueueState) : EventQueueState :=
  mk_queue [] 0 (eq_dropped q) (eq_senders q) (eq_closed q) false.

(** [RuntimeSink]: what the events of the loop become; completed turns go to
    the session writer instead. *)
Definition stream_event (e : StreamEvent) : option AgentEvent :=
  match e with
  | EvText delta => Some (AeText delta)
  | EvReasoning delta => Some (AeReasoning delta)
  | EvToolStart call => Some (AeToolStart call)
  | EvRetry retries => Some (AeRetry retries)
  | EvUsage u => Some (AeUsage u)
  | _ => None
  end.
Definition sink_event (e : SinkEvent) : option AgentEvent :=
  match e with
  | OnStream it => stream_event (se_event it)
  | OnToolEnd call_id tool r => Some (AeToolEnd call_id tool r)
  | OnArtifact call_id tool a => Some (AeArtifact call_id tool a)
  | OnIter count max => Some (AeIter count max)
  | OnUsage u => Some (AeUsage u)
  | OnContext chars tokens => Some (AeContext chars tokens)
  | OnTurn _ => None
  end.

(** ** Lemmas *)

Definition count_compactable (l : list AgentEvent) : nat := length (List.filter is_compactable l).
(** The events that carry the state of the conversation. *)
Definition structural_event (e : AgentEvent) : bool :=
  match e with
  | AeToolStart _ | AeToolEnd _ _ _ | AeArtifact _ _ _ | AePermissionAsk _ _ _ _ | AePermissionDecision _ _
  | AeOutcome _ | AeError _ | AeModeChanged _ | AeReady | AeIdle | AeNotice _ => true
  | AeText _ | AeReasoning _ | AeIter _ _ | AeRetry _ | AeUsage _ | AeContext _ _ => false
  end.
Definition structural (l : list AgentEvent) : list AgentEvent := List.filter structural_event l.
Lemma structural_compactable e : structural_event e = negb (is_compactable e).
Proof. by destruct e. Qed.
Definition is_notice (e : AgentEvent) : bool := match e with AeNotice _ => true | _ => false end.
Definition not_notices (l : list AgentEvent) : list AgentEvent := List.filter (fun e => negb (is_notice e)) l.

(** An event as what it adds to the stream: streamed text by the character. *)
Inductive atom := TextChar (c : char) | ReasoningChar (c : char) | Whole (e : AgentEvent).
Definition atoms (e : AgentEvent) : list atom :=
  match e with AeText s => map TextChar s | AeReasoning s => map ReasoningChar s | e => [Whole e] end.
Definition all_atoms (l : list AgentEvent) : list atom := concat (map atoms l).

Lemma count_app a b : count_compactable (a ++ b) = (count_compactable a + count_compactable b)%nat.
Proof. unfold count_compactable. by rewrite List.filter_app, length_app. Qed.
Lemma structural_app a b : structural (a ++ b) = structural a ++ structural b.
Proof. apply List.filter_app. Qed.
Lemma not_notices_app a b : not_notices (a ++ b) = not_notices a ++ not_notices b.
Proof. apply List.filter_app. Qed.
Lemma atoms_app a b : all_atoms (a ++ b) = all_atoms a ++ all_atoms b.
Proof. unfold all_atoms. by rewrite map_app, concat_app. Qed.

Lemma atoms_one e : all_atoms [e] = atoms e.
Proof. unfold all_atoms. cbn. by rewrite app_nil_r. Qed.

Lemma merge_spec last next m : merge_stream_delta last next = Some m ->
  exists l, last = Some l /\ is_compactable l = true /\ is_compactable next = true /\ is_compactable m = true
    /\ is_notice l = false /\ is_notice m = false /\ atoms m = atoms l ++ atoms next
    /\ forall s, m = AeText s \/ m = AeReasoning s -> byte_len s <= STREAM_CHUNK_CAP.
Proof.
  intros E. destruct last as [l|]; [|done]. destruct l, next; try done; cbn in E;
    (destruct (Z.leb_spec (sat_add 64 (byte_len s) (byte_len s0)) STREAM_CHUNK_CAP) as [Hle|]; [|done]); injection E as <-;
    eexists; (split; [done|]); cbn; rewrite map_app; split_and!; try done;
    intros s' [[= <-]|[= <-]]; rewrite byte_len_app; unfold sat_add in Hle; pose proof (byte_len_nonneg s); pose proof (byte_len_nonneg s0);
    unfold STREAM_CHUNK_CAP, umax in *; lia.
Qed.

Lemma remove_first_spec l l' : remove_first_compactable l = Some l' ->
  exists a e b, l = a ++ e :: b /\ l' = a ++ b /\ is_compactable e = true /\ count_compactable a = 0%nat.
Proof.
  revert l'. induction l as [|e l IH]; intros l'; cbn; [done|]. destruct (is_compactable e) eqn:E.
  - intros [= <-]. by exists [], e, l.
  - intros (l1 & E1 & ->)%fmap_Some. destruct (IH l1 E1) as (a & x & b & -> & -> & Hx & Ha).
    exists (e :: a), x, b. split_and!; [done|done|done|]. unfold count_compactable in *. cbn. by rewrite E.
Qed.
Lemma remove_first_none l : remove_first_compactable l = None <-> count_compactable l = 0%nat.
Proof.
  unfold count_compactable. induction l as [|e l IH]; [done|]. cbn. destruct (is_compactable e); [done|].
  rewrite <- IH. destruct (remove_first_compactable l); done.
Qed.

(** ** Runs *)

(** What the producers and the host do to the open queue, and the events the
    host has received. *)
Inductive QueueOp := QSend (e : AgentEvent) | QRecv.
Definition queue_step (s : EventQueueState * list AgentEvent) (op : QueueOp) : EventQueueState * list AgentEvent :=
  match op with
  | QSend e => (send_event s.1 e, s.2)
  | QRecv => match try_recv s.1 with (Some e, q) => (q, s.2 ++ [e]) | (None, q) => (q, s.2) end
  end.
Definition queue_run (ops : list QueueOp) : EventQueueState * list AgentEvent := fold_left queue_step ops (channel, []).
Definition sent_events (ops : list QueueOp) : list AgentEvent := omap (fun op => match op with QSend e => Some e | QRecv => None end) ops.
Definition notices (l : list AgentEvent) : nat := length (List.filter is_notice l).

Definition is_chunk (e : AgentEvent) (s : str) : Prop := e = AeText s \/ e = AeReasoning s.

Record queue_ok (q : EventQueueState) (got from : list AgentEvent) : Prop := mk_queue_ok {
  qo_open : eq_closed q = false /\ eq_receiver_open q = true;
  qo_count : eq_compactable q = Z.of_nat (count_compactable (eq_events q));
  qo_bound : eq_compactable q <= EVENT_QUEUE_CAP;
  qo_dropped : 0 <= eq_dropped q;
  qo_structural : not_notices (structural (got ++ eq_events q)) = not_notices (structural from);
  qo_order : all_atoms (not_notices (got ++ eq_events q)) `sublist_of` all_atoms (not_notices from);
  qo_notices : List.filter is_notice from `sublist_of` List.filter is_notice (got ++ eq_events q);
  qo_told : all_atoms (got ++ eq_events q) = all_atoms from \/ 0 < eq_dropped q
            \/ (notices from < notices (got ++ eq_events q))%nat;
  qo_chunks : forall e s, e ∈ got ++ eq_events q -> is_chunk e s -> byte_len s <= STREAM_CHUNK_CAP \/ e ∈ from
}.

Lemma notices_app a b : notices (a ++ b) = (notices a + notices b)%nat.
Proof. unfold notices. by rewrite List.filter_app, length_app. Qed.
Lemma qo_notices_le q got from : queue_ok q got from -> (notices from <= notices (got ++ eq_events q))%nat.
Proof. intros Hq. apply sublist_length, (qo_notices _ _ _ Hq). Qed.

Lemma queue_ok_channel : queue_ok channel [] [].
Proof. split; first [done|by left|by intros ? ? ?%not_elem_of_nil]. Qed.

Lemma queue_ok_recv q got from : queue_ok q got from ->
  let '(q, got) := queue_step (q, got) QRecv in queue_ok q got from.
Proof.
  intros [Ho Hc Hb Hd Hs Ha Hn Ht Hk]. unfold queue_step, try_recv. cbn [fst snd]. destruct (eq_events q) as [|e l] eqn:E.
  { split; rewrite ?E; done. }
  assert ((got ++ [e]) ++ l = got ++ e :: l) as Eq by (by rewrite <- app_assoc).
  split; cbn [eq_closed eq_receiver_open eq_events eq_compactable eq_dropped]; rewrite ?Eq; try done.
  - unfold count_compactable in Hc |- *. cbn [List.filter] in Hc. destruct (is_compactable e); [cbn [length] in Hc; unfold sat_sub; lia|done].
  - unfold sat_sub. destruct (is_compactable e); lia.
Qed.

(** Appending an event that is not merged. *)
Lemma queue_ok_push q got from e :
  queue_ok q got from -> (is_compactable e = true -> eq_compactable q < EVENT_QUEUE_CAP) ->
  queue_ok (mk_queue (eq_events q ++ [e]) (if is_compactable e then eq_compactable q + 1 else eq_compactable q) (eq_dropped q)
              (eq_senders q) (eq_closed q) (eq_receiver_open q)) got (from ++ [e]).
Proof.
  intros [Ho Hc Hb Hd Hs Ha Hn Ht Hk] Hroom. split; cbn [eq_closed eq_receiver_open eq_events eq_compactable eq_dropped]; rewrite ?app_assoc; try done.
  - rewrite count_app. unfold count_compactable at 2. cbn. destruct (is_compactable e); cbn; lia.
  - destruct (is_compactable e); [specialize (Hroom eq_refl); lia|done].
  - by rewrite structural_app, (structural_app from), !not_notices_app, Hs.
  - rewrite not_notices_app, (not_notices_app from), !atoms_app. by apply sublist_app.
  - rewrite (List.filter_app _ from), (List.filter_app _ (got ++ eq_events q)). by apply sublist_app.
  - rewrite (atoms_app from), (atoms_app (got ++ eq_events q)), (notices_app from), (notices_app (got ++ eq_events q)).
    destruct Ht as [->|[?|?]]; [by left|right; by left|right; right; lia].
  - intros x s Hx Hch. apply elem_of_app in Hx as [Hx|Hx].
    + destruct (Hk x s Hx Hch); [by left|right; apply elem_of_app; by left].
    + right. apply elem_of_app. by right.
Qed.

Lemma queue_ok_merge q got from e m : queue_ok q got from -> merge_stream_delta (list.last (eq_events q)) e = Some m ->
  queue_ok (mk_queue (removelast (eq_events q) ++ [m]) (eq_compactable q) (eq_dropped q) (eq_senders q) (eq_closed q) (eq_receiver_open q))
    got (from ++ [e]).
Proof.
  intros [Ho Hc Hb Hd Hs Ha Hn Ht Hk] (l & Hl & Cl & Ce & Cm & Nl & Nm & Hat & Hlen)%merge_spec.
  apply last_Some in Hl as [evs Hl]. rewrite Hl in *. rewrite removelast_last. rewrite !app_assoc in *.
  assert (is_notice e = false) as Ne by (by destruct e).
  assert (forall x : AgentEvent, is_compactable x = true -> structural [x] = []) as S1 by (intros x Hx; unfold structural; cbn [List.filter]; by rewrite structural_compactable, Hx).
  assert (forall x : AgentEvent, is_notice x = false -> not_notices [x] = [x] /\ List.filter is_notice [x] = []) as N1.
  { intros x Hx. unfold not_notices. cbn. by rewrite Hx. }
  destruct (N1 l Nl) as [N2 N3], (N1 m Nm) as [N4 N5], (N1 e Ne) as [N6 N7].
  split; cbn [eq_closed eq_receiver_open eq_events eq_compactable eq_dropped]; rewrite ?app_assoc; try done.
  - rewrite count_app in Hc |- *. unfold count_compactable at 2 in Hc. unfold count_compactable at 2. cbn in *. rewrite Cl in Hc. by rewrite Cm.
  - rewrite structural_app in Hs |- *. rewrite (structural_app from), (S1 e), (S1 m), !app_nil_r by done. by rewrite (S1 l), app_nil_r in Hs by done.
  - rewrite not_notices_app in Ha |- *. rewrite (not_notices_app from), N6, N4. rewrite N2 in Ha. rewrite !atoms_app in Ha |- *.
    rewrite (atoms_app (not_notices from)), !atoms_one in *. rewrite Hat, app_assoc. by apply sublist_app.
  - rewrite (List.filter_app _ (got ++ evs)) in Hn |- *. rewrite (List.filter_app _ from), N7, N5, !app_nil_r. by rewrite N3, app_nil_r in Hn.
  - unfold notices in *. rewrite (List.filter_app _ (got ++ evs)), N3, app_nil_r in Ht.
    rewrite (List.filter_app _ (got ++ evs)), (List.filter_app _ from), N5, N7, !app_nil_r.
    destruct Ht as [Ht|Ht]; [left|by right]. rewrite (atoms_app (got ++ evs)), atoms_one in Ht |- *.
    by rewrite (atoms_app from), atoms_one, <- Ht, Hat, app_assoc.
  - intros x s Hx Hch. apply elem_of_app in Hx as [Hx|Hx].
    + destruct (Hk x s ltac:(apply elem_of_app; by left) Hch); [by left|right; apply elem_of_app; by left].
    + apply list_elem_of_singleton in Hx as ->. left. by apply Hlen.
Qed.

Lemma structural_evict a e b : is_compactable e = true -> structural (a ++ e :: b) = structural (a ++ b).
Proof. intros He. rewrite !structural_app. f_equal. unfold structural at 1. cbn [List.filter]. by rewrite structural_compactable, He. Qed.

(** Room for a compactable event costs at most the oldest one. *)
Lemma queue_ok_room q got from : queue_ok q got from ->
  let q' := make_compactable_room q in queue_ok q' got from /\ eq_compactable q' < EVENT_QUEUE_CAP.
Proof.
  intros Hq q'. subst q'. unfold make_compactable_room. destruct (Z.ltb_spec (eq_compactable q) EVENT_QUEUE_CAP) as [|Hge]; [done|].
  destruct Hq as [Ho Hc Hb Hd Hs Ha Hn Ht Hk]. destruct (remove_first_compactable (eq_events q)) as [l|] eqn:E.
  2:{ apply remove_first_none in E. rewrite E in Hc. unfold EVENT_QUEUE_CAP in *. lia. }
  apply remove_first_spec in E as (a & e & b & E & -> & He & _). rewrite E in *. assert (is_notice e = false) as Ne by (by destruct e).
  assert (forall x, x ++ a ++ e :: b = (x ++ a) ++ e :: b) as As by (intros; by rewrite app_assoc).
  rewrite !As in *. clear As.
  assert (List.filter is_notice ((got ++ a) ++ e :: b) = List.filter is_notice ((got ++ a) ++ b)) as En.
  { rewrite !List.filter_app. cbn. by rewrite Ne. }
  split; [|cbn [eq_compactable]; unfold sat_sub, EVENT_QUEUE_CAP in *; lia].
  split; cbn [eq_closed eq_receiver_open eq_events eq_compactable eq_dropped]; rewrite ?app_assoc; try done.
  - rewrite count_app in Hc |- *. unfold count_compactable at 2 in Hc. cbn in Hc. rewrite He in Hc. cbn in Hc.
    unfold count_compactable at 2. unfold sat_sub. lia.
  - unfold sat_sub. lia.
  - unfold sat_add, umax. lia.
  - by rewrite structural_evict in Hs.
  - etrans; [|exact Ha]. rewrite !not_notices_app. change (e :: b) with ([e] ++ b). rewrite not_notices_app, !atoms_app.
    apply sublist_app; [done|]. by apply sublist_inserts_l.
  - by rewrite En in Hn.
  - right. left. unfold sat_add, umax. lia.
  - intros x s Hx. apply Hk. apply elem_of_app in Hx as [Hx|Hx]; apply elem_of_app; [by left|right; by right].
Qed.

(** The overflow notice in front of an [Idle]. *)
Lemma queue_ok_notice q got from : queue_ok q got from ->
  queue_ok (mk_queue (eq_events q ++ [AeNotice (overflow_notice (eq_dropped q))]) (eq_compactable q) 0 (eq_senders q) (eq_closed q)
              (eq_receiver_open q)) got from.
Proof.
  intros Hq. pose proof (qo_notices_le _ _ _ Hq) as Hle. destruct Hq as [Ho Hc Hb Hd Hs Ha Hn Ht Hk].
  split; cbn [eq_closed eq_receiver_open eq_events eq_compactable eq_dropped]; rewrite ?app_assoc; try done.
  - rewrite count_app. unfold count_compactable at 2. cbn. lia.
  - rewrite structural_app, not_notices_app, Hs. cbn. by rewrite app_nil_r.
  - rewrite not_notices_app. cbn. by rewrite app_nil_r.
  - rewrite List.filter_app. by apply sublist_inserts_r.
  - right. right. rewrite notices_app. cbn. lia.
  - intros x s Hx Hch. apply elem_of_app in Hx as [Hx|Hx%list_elem_of_singleton]; [by apply Hk|]. subst x. by destruct Hch.
Qed.

Lemma queue_ok_send q got from e : queue_ok q got from -> queue_ok (send_event q e) got (from ++ [e]).
Proof.
  intros Hq. unfold send_event. assert (eq_closed q || negb (eq_receiver_open q) = false) as -> by (by destruct (qo_open _ _ _ Hq) as [-> ->]).
  destruct (merge_stream_delta _ e) as [m|] eqn:E; [by apply queue_ok_merge|].
  set (q1 := match e with AeIdle => _ | _ => q end). assert (queue_ok q1 got from) as Hq1.
  { subst q1. destruct e; try done. destruct (0 <? eq_dropped q); [by apply queue_ok_notice|done]. }
  clearbody q1. destruct (is_compactable e) eqn:He.
  - destruct (queue_ok_room _ _ _ Hq1) as [Hq2 Hlt]. pose proof (queue_ok_push _ _ _ e Hq2 ltac:(done)) as H3. rewrite He in H3. exact H3.
  - pose proof (queue_ok_push _ _ _ e Hq1 ltac:(congruence)) as H3. rewrite He in H3. unfold push_event.
    exact H3.
Qed.

Lemma sent_app a b : sent_events (a ++ b) = sent_events a ++ sent_events b.
Proof. apply omap_app. Qed.

Lemma queue_run_ok ops : queue_ok (queue_run ops).1 (queue_run ops).2 (sent_events ops).
Proof.
  unfold queue_run. induction ops as [|op ops IH] using rev_ind; [apply queue_ok_channel|].
  rewrite fold_left_app, sent_app. cbn [fold_left]. destruct (fold_left queue_step ops (channel, [])) as [q got]. cbn [fst snd] in IH.
  destruct op as [e|]; [by apply queue_ok_send|]. cbn [sent_events omap]. rewrite app_nil_r.
  pose proof (queue_ok_recv _ _ _ IH) as Hr. by destruct (queue_step (q, got) QRecv).
Qed.

(** C13: what the host can rely on from the event stream, however sends and
    receives interleave and however far the host falls behind.  Every tool,
    permission, outcome, error, mode and turn event arrives, in order, and so
    does every notice.  Streamed text and the other presentation events keep
    their order, text by the character, and nothing is made up; either all of
    it arrives or the host is told, by a notice in the stream or one still
    owed.  At most 1024 presentation events wait, and a merged chunk is within
    its cap. *)
Theorem event_stream_contract ops :
  let '(q, got) := queue_run ops in
  let out := got ++ eq_events q in
  not_notices (structural out) = not_notices (structural (sent_events ops))
  /\ all_atoms (not_notices out) `sublist_of` all_atoms (not_notices (sent_events ops))
  /\ List.filter is_notice (sent_events ops) `sublist_of` List.filter is_notice out
  /\ (eq_dropped q = 0 -> notices out = notices (sent_events ops) -> all_atoms out = all_atoms (sent_events ops))
  /\ (count_compactable (eq_events q) <= Z.to_nat EVENT_QUEUE_CAP)%nat
  /\ forall e s, e ∈ out -> is_chunk e s -> byte_len s <= STREAM_CHUNK_CAP \/ e ∈ sent_events ops.
Proof.
  pose proof (queue_run_ok ops) as Hq. destruct (queue_run ops) as [q got]. cbn [fst snd] in Hq.
  destruct Hq as [Ho Hc Hb Hd Hs Ha Hn Ht Hk]. split_and!; try done; [|lia].
  intros H0 Hne. destruct Ht as [?|[?|?]]; [done|lia|lia].
Qed.

(** The queue as a whole is not bounded: structural events are kept however
    many there are. *)
Lemma structural_unbounded n : exists ops, sent_events ops = repeat AeReady n /\ length (eq_events (queue_run ops).1) = n.
Proof.
  exists (map QSend (repeat AeReady n)). split.
  - induction n as [|n IH]; [done|]. cbn. by rewrite <- IH at 2.
  - unfold queue_run. assert (forall q got, eq_closed q = false -> eq_receiver_open q = true ->
      length (eq_events (fold_left queue_step (map QSend (repeat AeReady n)) (q, got)).1) = (length (eq_events q) + n)%nat) as G.
    { induction n as [|n IH]; intros q got H1 H2; [cbn; lia|]. cbn [repeat map fold_left queue_step fst snd]. rewrite IH; unfold send_event; rewrite H1, H2; cbn [orb negb].
      all: assert (merge_stream_delta (list.last (eq_events q)) AeReady = None) as -> by (by destruct (list.last (eq_events q)) as [[]|]).
      all: cbn [is_compactable]; try done. cbn. rewrite length_app. cbn. lia. }
    apply G; done.
Qed.
End Events.
