(* ===== verification/RtDriver.v ===== *)
(** The driver task of the runtime (src/crates/rc-rt/src/driver.rs): it owns the
    session and the journal, runs one turn per command, and marks mode changes,
    rewinds, compactions and goals in the log. *)

From S2P Require Import Prelude Text Wire Cost Turn Json Project PermRules AgentSink AgentBatch Agent AgentRun Journal Session SessionLog RtEvents.
#[local] Open Scope Z_scope.

Definition persisted_mode (m : AgentMode) : str :=
  match m with
  | AmDefault => lit "default" | AmAcceptEdits => lit "accept_edits" | AmPlan => lit "plan" | AmAsk => lit "ask" | AmAuto => lit "auto"
  end.

(** [active_goal]: the last goal note, unless it is blank. *)
Definition active_goal (turns : list Turn) : option str :=
  match last_goal turns with Some (_, g) => if is_nil (trim g) then None else Some g | None => None end.

(** ** Compaction *)

Definition CAP_CHARS : nat := Z.to_nat 16000.

Definition summary_entry (t : Turn) : option str :=
  match t with
  | TUser content _ => Some (lit "User: " ++ content)
  | TAssistant text _ calls _ _ _ =>
      let tools := join (lit ", ") (map tc_name calls) in
      match is_nil (trim text), is_nil tools with
      | false, true => Some (lit "Assistant: " ++ text)
      | false, false => Some (lit "Assistant: " ++ text ++ [10] ++ lit "Tools used: " ++ tools)
      | true, false => Some (lit "Tools used: " ++ tools)
      | true, true => None
      end
  | TSystemNote NCompaction text => Some (lit "Previous summary: " ++ text)
  | TSystemNote (NNotice | NRecovery) text => Some (lit "Note: " ++ text)
  | _ => None
  end.

Definition ELIDED : str := [91; 8230] ++ lit "older content elided" ++ [8230; 93].

(** The newest entries first; [used] characters are taken.  The first entry
    that does not fit is cut to its end, and the rest dropped. *)
Fixpoint keep_newest (entries : list str) (used : nat) : list str :=
  match entries with
  | [] => []
  | entry :: l =>
      let chars := length entry in
      let remaining := (CAP_CHARS - used)%nat in
      if (remaining =? 0)%nat then []
      else if (chars <=? remaining)%nat then entry :: keep_newest l (used + chars)
      else [ELIDED ++ rev (take remaining (rev entry))]
  end.

Definition compaction_summary (turns : list Turn) : str :=
  let entries := omap summary_entry (drop (active_start turns) turns) in
  let kept := rev (keep_newest (rev entries) 0) in
  if is_nil kept then lit "No conversational content preceded this compaction." else join [10; 10] kept.

(** ** The commands *)

Inductive DriverCmd :=
| CmdRun (turn_id : Z) (prompt : str)
| CmdSetMode (m : AgentMode)
| CmdRewind (steps : Z)
| CmdCompact
| CmdSetGoal (goal : option str)
| CmdShowGoal.

Section Driver.
Context `{JsonApi}.

(** The session, the journal and the host behind it, the turns given to the
    session writer and the events sent. *)
Record Driver := mk_driver {
  dr_session : Session;
  dr_journal : ChangeJournal;
  dr_host : Host;
  dr_persisted : list Turn;
  dr_events : list AgentEvent
}.


(** A note in the log and in the file. *)
Definition driver_note (d : Driver) (kind : NoteKind) (text : str) : Driver :=
  let note := TSystemNote kind text in
  mk_driver (with_messages (dr_session d) (s_messages (dr_session d) ++ [note])) (dr_journal d) (dr_host d)
    (dr_persisted d ++ [note]) (dr_events d).
Definition driver_events (d : Driver) (es : list AgentEvent) : Driver :=
  mk_driver (dr_session d) (dr_journal d) (dr_host d) (dr_persisted d) (dr_events d ++ es).
Definition with_mode (x : Session) (m : AgentMode) : Session :=
  MkSession (s_id x) (s_cwd x) (s_extra_dirs x) (s_model x) (s_messages x) m (s_perm_grants x) (s_total_usage x) (s_total_cost x).

Definition rewound_text (turns : Z) (files : nat) : str :=
  lit "Rewound " ++ show_z turns ++ lit " turn(s) of file changes; restored " ++ show_z (Z.of_nat files) ++ lit " file(s).".

Definition set_mode_cmd (d : Driver) (m : AgentMode) : Driver :=
  if decide (s_mode (dr_session d) = m) then d
  else driver_note (mk_driver (with_mode (dr_session d) m) (dr_journal d) (dr_host d) (dr_persisted d) (dr_events d))
         NModeChange (persisted_mode m).
Definition rewind_cmd (d : Driver) (steps : Z) : Driver :=
  let '(j, h, (restored, turns)) := rewind_session (dr_journal d) (dr_host d) steps in
  let text := rewound_text turns (length restored) in
  let d := driver_events (mk_driver (dr_session d) j h (dr_persisted d) (dr_events d)) [AeNotice text] in
  driver_events (driver_note d NNotice text) [AeIdle].
Definition compact_cmd (d : Driver) : Driver :=
  driver_events (driver_note d NCompaction (compaction_summary (s_messages (dr_session d))))
    [AeNotice (lit "Context compacted; future requests start from the saved summary."); AeIdle].
Definition set_goal_cmd (d : Driver) (goal : option str) : Driver :=
  let text := default [] goal in
  driver_events (driver_note d NGoal text)
    [AeNotice (if is_nil text then lit "Session goal cleared." else lit "Session goal set: " ++ text); AeIdle].
Definition show_goal_cmd (d : Driver) : Driver :=
  driver_events d
    [AeNotice (match active_goal (s_messages (dr_session d)) with
               | Some goal => lit "Active goal: " ++ goal
               | None => lit "No active goal. Set one with /goal <objective>."
               end); AeIdle].

(** A turn: what the loop did to the session and the trace it left, the
    journal and the host after it. *)
Record TurnRun := mk_turn_run {
  tn_session : Session; tn_fx : list Effect; tn_journal : ChangeJournal; tn_host : Host; tn_result : str + LoopOutcome
}.
Definition run_cmd (d : Driver) (r : TurnRun) : Driver :=
  mk_driver (tn_session r) (tn_journal r) (tn_host r) (dr_persisted d ++ reported (tn_fx r))
    (dr_events d ++ [AeReady] ++ omap (fun e => match e with Sink e => sink_event e | _ => None end) (tn_fx r)
      ++ [match tn_result r with inr o => AeOutcome o | inl e => AeError e end; AeIdle]).

(** [run] answers what the loop does with a prompt on a session. *)
Variable turn : Driver -> str -> TurnRun.
Definition driver_cmd (d : Driver) (c : DriverCmd) : Driver :=
  match c with
  | CmdRun _ prompt => run_cmd d (turn d prompt)
  | CmdSetMode m => set_mode_cmd d m
  | CmdRewind steps => rewind_cmd d steps
  | CmdCompact => compact_cmd d
  | CmdSetGoal goal => set_goal_cmd d goal
  | CmdShowGoal => show_goal_cmd d
  end.
End Driver.

(** ** Lemmas: compaction *)

Definition total_chars (l : list str) : nat := length (concat l).
Lemma total_app a b : total_chars (a ++ b) = (total_chars a + total_chars b)%nat.
Proof. unfold total_chars. by rewrite concat_app, length_app. Qed.
Lemma total_one x : total_chars [x] = length x.
Proof. unfold total_chars. cbn. by rewrite app_nil_r. Qed.

(** What is kept of [older ++ newer]: the newer entries whole, then the end of
    the entry before them if it did not fit. *)
Inductive kept_of (entries : list str) : list str -> Prop :=
| kept_whole older newer : entries = older ++ newer -> (total_chars newer <= CAP_CHARS)%nat ->
    older = [] \/ total_chars newer = CAP_CHARS -> kept_of entries newer
| kept_cut older lost tail newer : entries = older ++ [lost ++ tail] ++ newer -> lost <> [] ->
    (length tail + total_chars newer = CAP_CHARS)%nat -> tail <> [] -> kept_of entries ((ELIDED ++ tail) :: newer).

Lemma keep_newest_spec l : forall newer, (total_chars newer <= CAP_CHARS)%nat ->
  kept_of (rev l ++ newer) (rev (keep_newest l (total_chars newer)) ++ newer).
Proof.
  induction l as [|e l IH]; intros newer Hle; cbn [keep_newest rev]; [by apply (kept_whole _ []); [..|left]|].
  destruct (Nat.eqb_spec (CAP_CHARS - total_chars newer) 0) as [H0|H0].
  { apply (kept_whole _ (rev l ++ [e])); cbn [rev app]; [done|done|right; lia]. }
  destruct (Nat.leb_spec (length e) (CAP_CHARS - total_chars newer)) as [Hf|Hf].
  - rewrite <- app_assoc. cbn [rev app]. specialize (IH (e :: newer)).
    assert (total_chars (e :: newer) = (total_chars newer + length e)%nat) as Ht by (change (e :: newer) with ([e] ++ newer); rewrite total_app, total_one; lia).
    rewrite Ht in IH. rewrite <- app_assoc. cbn [app]. apply IH. lia.
  - cbn [rev app]. set (k := (CAP_CHARS - total_chars newer)%nat) in *.
    assert (e = take (length e - k) e ++ rev (take k (rev e))) as E.
    { rewrite firstn_rev, rev_involutive. symmetry. apply take_drop. }
    apply (kept_cut _ (rev l) (take (length e - k) e)).
    + by rewrite <- E, <- app_assoc.
    + intros Hn. apply (f_equal length) in Hn. rewrite length_take in Hn. cbn in Hn. lia.
    + rewrite length_rev, length_take, length_rev. lia.
    + intros Hn. apply (f_equal length) in Hn. rewrite length_rev, length_take, length_rev in Hn. cbn in Hn. lia.
Qed.

(** ** Lemmas: resuming *)

Lemma mode_survives m : mode_from_note (persisted_mode m) = Some m.
Proof. by destruct m. Qed.

Section DriverLog.
Context `{JsonApi}.

(** [d'] is [d] after turns that were given to the session writer. *)
Definition carried (d d' : Driver) : Prop :=
  exists ts, dr_persisted d' = dr_persisted d ++ ts /\ same_saved (dr_session d') (replay_all ts (dr_session d)).
#[export] Instance carried_preorder : PreOrder carried.
Proof.
  split.
  - intros d. exists []. by rewrite app_nil_r.
  - intros d1 d2 d3 (t1 & E1 & S1) (t2 & E2 & S2). exists (t1 ++ t2). rewrite E2, E1, app_assoc. split; [done|].
    rewrite replay_app, <- S1. exact S2.
Qed.

Lemma carried_events d es : carried d (driver_events d es).
Proof. exists []. by rewrite app_nil_r. Qed.
Lemma carried_note d kind text : kind <> NModeChange -> carried d (driver_note d kind text).
Proof. intros Hk. exists [TSystemNote kind text]. split; [done|]. by destruct kind; try done; split. Qed.
Lemma carried_mode d m : carried d (set_mode_cmd d m).
Proof.
  unfold set_mode_cmd. destruct (decide _); [done|]. exists [TSystemNote NModeChange (persisted_mode m)]. split; [done|].
  split; try done. cbn [replay_all fold_left replay_turn replay_mode s_mode]. by rewrite mode_survives.
Qed.
Lemma carried_rewind d n : carried d (rewind_cmd d n).
Proof.
  unfold rewind_cmd. destruct (rewind_session _ _ _) as [[j h] [restored turns]]. etrans; [|apply carried_events].
  etrans; [|by apply carried_note]. exists []. by rewrite app_nil_r.
Qed.

(** What is asked of a turn: the session after it is the session before it
    with the turns it reported, in the same mode. *)
Class TurnLogs (turn : Driver -> str -> TurnRun) : Prop :=
  turn_logs d prompt : same_saved (tn_session (turn d prompt)) (replay_all (reported (tn_fx (turn d prompt))) (dr_session d))
                       /\ s_mode (tn_session (turn d prompt)) = s_mode (dr_session d).

Lemma carried_cmd turn `{!TurnLogs turn} d c : carried d (driver_cmd turn d c).
Proof.
  destruct c as [id prompt|m|n| |goal|]; cbn [driver_cmd].
  - exists (reported (tn_fx (turn d prompt))). split; [done|]. apply turn_logs.
  - apply carried_mode.
  - apply carried_rewind.
  - etrans; [|apply carried_events]. by apply carried_note.
  - etrans; [|apply carried_events]. by apply carried_note.
  - apply carried_events.
Qed.
Lemma carried_cmds turn `{!TurnLogs turn} cs : forall d, carried d (fold_left (driver_cmd turn) cs d).
Proof. induction cs as [|c cs IH]; intros d; [done|]. cbn [fold_left]. etrans; [by apply carried_cmd|apply IH]. Qed.
End DriverLog.

(** The turn of the agent loop of Agent.v, in a world chosen per turn. *)
Definition error_text {W} (o : Outcome (option (ModelError + LoopOutcome))) (text : W -> str) (w : W) : str + LoopOutcome :=
  match o with Done (Some (inr o)) => inr o | _ => inl (text w) end.
Definition loop_turn {W} `{AgentEnv W} (a : AgentLoop) (fuel : nat) (world : Driver -> W) (text : W -> str)
    (after : W -> ChangeJournal * Host) (d : Driver) (prompt : str) : TurnRun :=
  let '(o, s) := run a fuel prompt (MkState (world d) [] (dr_session d) (batch_new 0)) in
  mk_turn_run (a_session s) (a_fx s) (after (a_world s)).1 (after (a_world s)).2 (error_text o text (a_world s)).
#[export] Instance loop_turn_logs {W} `{AgentEnv W} a fuel (world : Driver -> W) text after : TurnLogs (loop_turn a fuel world text after).
Proof.
  intros d prompt. unfold loop_turn. destruct (logs_run a fuel prompt (MkState (world d) [] (dr_session d) (batch_new 0))) as [(fx & E & S) M].
  destruct (run _ _ _ _) as [o s]. cbn in *. by rewrite E.
Qed.

(** ** Theorems *)

(** C7: whatever the host commands, the session can be resumed.  After any
    sequence of prompts, mode changes, rewinds, compactions and goals, with
    turns of the agent loop that end in any way, loading the session file
    that the writer kept gives a session with the mode, the identity and the
    totals of the one the driver holds, and with its messages as the file
    stores them: the same messages with their times cut to whole milliseconds,
    where the times fit 64 bits of milliseconds. *)
Theorem driver_resumes `{JsonLine SessionHeader, JsonLine Turn, !JsonLineLaws SessionHeader, !JsonLineLaws Turn, JsonApi}
    turn `{!TurnLogs turn} cs d disk st s0 ts0 h ls0 ls :
  json_print (header_of_session s0) = Some h -> mapM json_print ts0 = Some ls0 ->
  sto_writer st = true -> d_files disk !! sto_path st = Some (file_of (h :: ls0)) ->
  stored_as (dr_session d) (restored s0 ts0) -> dr_persisted d = [] ->
  let d' := fold_left (driver_cmd turn) cs d in
  mapM json_print (dr_persisted d') = Some ls ->
  exists y, load (d_files (persist disk st (dr_persisted d')).1 !! sto_path st) = Ok y /\ stored_as (dr_session d') y
    /\ (Forall (fun t => times_fit t = true) (s_messages (dr_session d')) -> s_messages y = map cut_times (s_messages (dr_session d'))).
Proof.
  intros Hh E0 Hw Hf Hs Hp d' E. exists (restored s0 (ts0 ++ dr_persisted d')). split.
  - rewrite (persist_open _ _ _ (file_of (h :: ls0)) ls) by done. cbn [fst d_files]. rewrite lookup_insert_eq, <- file_of_app. cbn [app].
    apply load_saved; [done|]. apply mapM_Some, Forall2_app; by apply mapM_Some.
  - assert (stored_as (dr_session d') (restored s0 (ts0 ++ dr_persisted d'))) as S; [|split; [done|by apply stored_as_messages]].
    destruct (carried_cmds turn cs d) as (ts & Ets & S). fold d' in Ets, S. rewrite Hp in Ets. cbn [app] in Ets. subst ts.
    rewrite S. by apply stored_as_more.
Qed.

(** what /compact leaves.  The next request of the model starts with the
    goal that /goal reports, if any, then the summary, and nothing of the
    history; the summary is made of the newest entries of the active history,
    at most 16,000 characters of them: all of them if they fit, and otherwise
    exactly that many, the oldest one marked and cut to its end if it does not
    fit whole. *)
Theorem compact_contract `{JsonApi} d sp :
  let msgs := s_messages (dr_session d) in
  let summary := compaction_summary msgs in
  project_with (s_messages (dr_session (compact_cmd d))) sp
  = match active_goal msgs with Some g => push_user [WSystem sp] (render_note NGoal g) | None => [WSystem sp] end
    ++ push_user [] (render_note NCompaction summary)
  /\ exists kept, kept_of (omap summary_entry (drop (active_start msgs) msgs)) kept
     /\ summary = if is_nil kept then lit "No conversational content preceded this compaction." else join [10; 10] kept.
Proof.
  intros msgs summary. split.
  - cbn [compact_cmd driver_note driver_events dr_session with_messages s_messages]. fold msgs. fold summary.
    rewrite (project_boundary msgs summary [] sp) by constructor. assert (last_goal [] = None) as -> by done.
    assert (msgs_of [TSystemNote NCompaction summary] = push_user [] (render_note NCompaction summary)) as -> by apply app_nil_r.
    f_equal. unfold active_goal, goal_text. destruct (last_goal msgs) as [[i g]|]; [|done]. cbn. by destruct (is_nil (trim g)).
  - exists (rev (keep_newest (rev (omap summary_entry (drop (active_start msgs) msgs))) 0)). split; [|done].
    pose proof (keep_newest_spec (rev (omap summary_entry (drop (active_start msgs) msgs))) []) as G.
    rewrite rev_involutive, !app_nil_r in G. apply G. apply Nat.le_0_l.
Qed.

(** ** Witnesses *)

#[local] Existing Instance Tree.tree_json.
#[local] Existing Instance Sample.env.
#[local] Existing Instance toy_header_line.
#[local] Existing Instance toy_turn_line.
#[local] Existing Instance toy_header_laws.
#[local] Existing Instance toy_turn_laws.

Definition toy_driver : Driver := mk_driver toy_session sample_journal sample_host [] [].
Definition toy_turn : Driver -> str -> TurnRun :=
  loop_turn no_iterations 1 (fun _ => Sample.MkWorld 0 [] false) (fun _ => lit "error") (fun _ => (sample_journal, sample_host)).
#[local] Instance toy_turn_is_logged : TurnLogs toy_turn := loop_turn_logs _ _ _ _ _.

Lemma driver_resumes_witness :
  let d' := fold_left (driver_cmd toy_turn) [CmdRun 1 (lit "a"); CmdShowGoal; CmdSetMode AmPlan] toy_driver in
  exists y, load (d_files (persist (toy_disk {[lit "s" := file_of [lit "{h}"]]}) (mk_session_store true (lit "s") None) (dr_persisted d')).1
                   !! lit "s") = Ok y /\ stored_as (dr_session d') y /\ s_messages y = [TUser (lit "a") 0].
Proof.
  destruct (driver_resumes toy_turn [CmdRun 1 (lit "a"); CmdShowGoal; CmdSetMode AmPlan] toy_driver
    (toy_disk {[lit "s" := file_of [lit "{h}"]]}) (mk_session_store true (lit "s") None) toy_session [] (lit "{h}") [] [[123; 97; 125]]
    toy_print eq_refl eq_refl) as (y & E & S & M); try reflexivity; [by split|].
  exists y. split; [exact E|]. split; [exact S|].
  assert (s_messages (dr_session (fold_left (driver_cmd toy_turn) [CmdRun 1 (lit "a"); CmdShowGoal; CmdSetMode AmPlan] toy_driver))
          = [TUser (lit "a") 0]) as Em by (vm_compute; reflexivity).
  rewrite Em in M. apply M. by repeat constructor.
Defined.
