(* ===== verification/RtPump.v ===== *)
(** The runtime (src/crates/rc-rt/src/{pump,prompter,action,runtime}.rs): the pump
    that turns the host's actions into commands, the table of pending
    permission questions, and the system of host, pump and driver over bounded
    channels, as a step relation.

    A step of the relation is what a task does between two awaits.  A turn is
    any turn of RtDriver.v; while it runs it may ask for permission any number
    of times.  The driver outlives the pump, so a send to it does not fail. *)

From S2P Require Import Prelude Wire Turn Json PermRules AgentSink AgentBatch Agent Journal Session SessionLog RtEvents RtDriver.
#[local] Open Scope Z_scope.

(** [UserAction] *)
Inductive UserAction :=
| ASubmit (prompt : str)
| AQueue (prompt : str)
| ACancel
| ASetMode (m : AgentMode)
| APermissionAnswer (id : Z) (response : AskResponse)
| ARewind (steps : Z)
| ACompact
| ASetGoal (goal : option str)
| AShowGoal
| AQuit.

(** ** Pending questions *)

(** [PendingAsks]: the ids whose answer is awaited, and the answers sent to the
    one-shot channels. *)
Record PendingAsks := mk_asks { pa_map : gset Z; pa_next_id : Z; pa_answers : gmap Z AskResponse }.
Definition asks_new : PendingAsks := mk_asks ∅ 0 ∅.
Definition register (a : PendingAsks) : Z * PendingAsks :=
  (pa_next_id a, mk_asks ({[pa_next_id a]} ∪ pa_map a) (wrap 64 (pa_next_id a + 1)) (pa_answers a)).
Definition resolve_ask (a : PendingAsks) (id : Z) (r : AskResponse) : PendingAsks :=
  if decide (id ∈ pa_map a) then mk_asks (pa_map a ∖ {[id]}) (pa_next_id a) (<[id := r]> (pa_answers a)) else a.
Definition CANCELLED_BY_USER : AskResponse := DenyCall (lit "cancelled by user").
Definition drain_cancel (a : PendingAsks) : PendingAsks :=
  mk_asks ∅ (pa_next_id a) (gset_to_gmap CANCELLED_BY_USER (pa_map a) ∪ pa_answers a).

(** ** The pump *)

(** The locals of [pump_task]; the token of a turn goes by the turn's id. *)
Record Pump := mk_pump { pu_active : option Z; pu_next : Z; pu_queued : list str }.
Definition pump_new : Pump := mk_pump None 0 [].

(** [start_turn]: the turn is active once its command is sent, and nothing
    reads the locals before that. *)
Definition start_turn (p : Pump) (prompt : str) : Pump * DriverCmd :=
  let id := wrap 64 (pu_next p + 1) in
  (mk_pump (Some id) id (pu_queued p), CmdRun id prompt).

(** What handling an action does besides: to the host, the tokens, the
    questions and the permission engine. *)
Inductive PumpEffect `{JsonApi} :=
| PEvent (e : AgentEvent)
| PCancelToken (id : Z)
| PDrainAsks
| PResolveAsk (id : Z) (r : AskResponse)
| PSetMode (m : AgentMode).

Section Runtime.
Context `{JsonApi}.

Definition busy (what : string) : AgentEvent := AeNotice (lit "finish or cancel the active turn before " ++ lit what).

(** The command to send, and whether the pump goes on. *)
Inductive Next := Go (send : option DriverCmd) | Stop.

Definition when_idle (p : Pump) (c : DriverCmd) (what : string) : Pump * list PumpEffect * Next :=
  match pu_active p with
  | None => (p, [], Go (Some c))
  | Some _ => (p, [PEvent (busy what)], Go None)
  end.
Definition cancel_active (p : Pump) : list PumpEffect :=
  match pu_active p with Some id => [PCancelToken id] | None => [] end ++ [PDrainAsks].

Definition handle_action (p : Pump) (a : UserAction) : Pump * list PumpEffect * Next :=
  match a with
  | ASubmit prompt =>
      match pu_active p with
      | Some _ => (p, [PEvent (AeNotice (lit "a turn is already running; the duplicate submission was ignored"))], Go None)
      | None => let '(p, c) := start_turn p prompt in (p, [], Go (Some c))
      end
  | AQueue prompt =>
      match pu_active p with
      | Some _ => (mk_pump (pu_active p) (pu_next p) (pu_queued p ++ [prompt]), [], Go None)
      | None => let '(p, c) := start_turn p prompt in (p, [], Go (Some c))
      end
  | ACancel => (p, cancel_active p, Go None)
  | ASetMode m => (p, [PSetMode m; PEvent (AeModeChanged m)], Go (Some (CmdSetMode m)))
  | APermissionAnswer id r => (p, [PResolveAsk id r], Go None)
  | ARewind steps => when_idle p (CmdRewind steps) "rewinding"
  | ACompact => when_idle p CmdCompact "compacting"
  | ASetGoal goal => when_idle p (CmdSetGoal goal) "changing its goal"
  | AShowGoal => (p, [], Go (Some CmdShowGoal))
  | AQuit => (mk_pump None (pu_next p) (pu_queued p), cancel_active p, Stop)
  end.

(** [TurnFinished]: the next queued prompt starts. *)
Definition handle_feedback (p : Pump) (turn_id : Z) : Pump * option DriverCmd :=
  if decide (pu_active p = Some turn_id) then
    match pu_queued p with
    | [] => (mk_pump None (pu_next p) [], None)
    | prompt :: queued => let '(p, c) := start_turn (mk_pump None (pu_next p) queued) prompt in (p, Some c)
    end
  else (p, None).

(** ** The system *)

(** The pump at the top of its loop, past the look at the feedback channel
    (which the biased [select!] polls first), waiting to send, or gone. *)
Inductive PumpPhase := PumpTop | PumpPolled | PumpSending (c : DriverCmd) | PumpDone.
(** The driver waiting for a command, in a turn, waiting for the answer to a
    question of the turn, or gone. *)
Inductive DriverPhase := DrIdle | DrTurn (id : Z) (prompt : str) | DrAsking (id : Z) (prompt : str) (ask : Z) | DrGone.

Record Sys := mk_sys {
  sy_actions : list UserAction;
  sy_cmds : list DriverCmd;
  sy_feedback : list Z;
  sy_pump : Pump;
  sy_phase : PumpPhase;
  sy_driver : DriverPhase;
  sy_dr : Driver;
  sy_asks : PendingAsks;
  sy_mode : AgentMode;        (** of the permission engine *)
  sy_cancelled : gset Z;      (** the tokens cancelled *)
  sy_notices : list AgentEvent;  (** sent by the pump *)
  sy_accepted : list str;     (** prompts taken on, and prompts started, in order *)
  sy_started : list str
}.

Definition ACTIONS_CAP : nat := 64.
Definition CMDS_CAP : nat := 16.
Definition FEEDBACK_CAP : nat := 4.

Definition sys_new (d : Driver) : Sys :=
  mk_sys [] [] [] pump_new PumpTop DrIdle d asks_new (s_mode (dr_session d)) ∅ [] [] [].

Definition apply_effect (s : Sys) (e : PumpEffect) : Sys :=
  let 'mk_sys a c f p ph dr d asks mode can no acc st := s in
  match e with
  | PEvent ev => mk_sys a c f p ph dr d asks mode can (no ++ [ev]) acc st
  | PCancelToken id => mk_sys a c f p ph dr d asks mode ({[id]} ∪ can) no acc st
  | PDrainAsks => mk_sys a c f p ph dr d (drain_cancel asks) mode can no acc st
  | PResolveAsk id r => mk_sys a c f p ph dr d (resolve_ask asks id r) mode can no acc st
  | PSetMode m => mk_sys a c f p ph dr d asks m can no acc st
  end.

Definition next_phase (n : Next) : PumpPhase :=
  match n with Go None => PumpTop | Go (Some c) => PumpSending c | Stop => PumpDone end.

(** The prompt an action makes the pump take on. *)
Definition accepts (p : Pump) (a : UserAction) : list str :=
  match a with
  | ASubmit prompt => match pu_active p with None => [prompt] | Some _ => [] end
  | AQueue prompt => [prompt]
  | _ => []
  end.

Definition pump_act (s : Sys) (a : UserAction) (rest : list UserAction) : Sys :=
  let '(p, effects, n) := handle_action (sy_pump s) a in
  let 'mk_sys _ c f _ _ dr d asks mode can no acc st :=  fold_left apply_effect effects s in
  mk_sys rest c f p (next_phase n) dr d asks mode can no (acc ++ accepts (sy_pump s) a) st.

(** The turns, and whether a turn has a deadline that can cut a question off
    as a cancelled token does. *)
Variable turn : Driver -> str -> TurnRun.
Variable has_deadline : bool.

Inductive step : Sys -> Sys -> Prop :=
| step_host a c f p ph dr d asks mode can no acc st x :
    (length a < ACTIONS_CAP)%nat ->
    step (mk_sys a c f p ph dr d asks mode can no acc st) (mk_sys (a ++ [x]) c f p ph dr d asks mode can no acc st)
| step_feedback a c f p dr d asks mode can no acc st id p' n :
    is_Some (pu_active p) -> handle_feedback p id = (p', n) ->
    step (mk_sys a c (id :: f) p PumpTop dr d asks mode can no acc st)
         (mk_sys a c f p' (next_phase (Go n)) dr d asks mode can no acc st)
| step_no_feedback a c f p dr d asks mode can no acc st :
    pu_active p = None \/ f = [] ->
    step (mk_sys a c f p PumpTop dr d asks mode can no acc st) (mk_sys a c f p PumpPolled dr d asks mode can no acc st)
| step_no_action c f p dr d asks mode can no acc st :
    step (mk_sys [] c f p PumpPolled dr d asks mode can no acc st) (mk_sys [] c f p PumpTop dr d asks mode can no acc st)
| step_host_gone c f p dr d asks mode can no acc st :
    step (mk_sys [] c f p PumpPolled dr d asks mode can no acc st) (mk_sys [] c f p PumpDone dr d asks mode can no acc st)
| step_action s x rest :
    sy_phase s = PumpPolled -> sy_actions s = x :: rest -> step s (pump_act s x rest)
| step_send a c f p dr d asks mode can no acc st x :
    (length c < CMDS_CAP)%nat ->
    step (mk_sys a c f p (PumpSending x) dr d asks mode can no acc st) (mk_sys a (c ++ [x]) f p PumpTop dr d asks mode can no acc st)
| step_command a c f p ph d asks mode can no acc st x :
    (forall id prompt, x <> CmdRun id prompt) ->
    step (mk_sys a (x :: c) f p ph DrIdle d asks mode can no acc st)
         (mk_sys a c f p ph DrIdle (driver_cmd turn d x) asks mode can no acc st)
| step_run a c f p ph d asks mode can no acc st id prompt :
    step (mk_sys a (CmdRun id prompt :: c) f p ph DrIdle d asks mode can no acc st)
         (mk_sys a c f p ph (DrTurn id prompt) d asks mode can no acc (st ++ [prompt]))
| step_ask a c f p ph d asks mode can no acc st id prompt ask asks' :
    register asks = (ask, asks') ->
    step (mk_sys a c f p ph (DrTurn id prompt) d asks mode can no acc st)
         (mk_sys a c f p ph (DrAsking id prompt ask) d asks' mode can no acc st)
| step_answered a c f p ph d asks mode can no acc st id prompt ask r :
    pa_answers asks !! ask = Some r ->
    step (mk_sys a c f p ph (DrAsking id prompt ask) d asks mode can no acc st)
         (mk_sys a c f p ph (DrTurn id prompt) d asks mode can no acc st)
| step_cut_off a c f p ph d asks mode can no acc st id prompt ask :
    id ∈ can \/ has_deadline = true ->
    step (mk_sys a c f p ph (DrAsking id prompt ask) d asks mode can no acc st)
         (mk_sys a c f p ph (DrTurn id prompt) d asks mode can no acc st)
| step_finish a c f p ph d asks mode can no acc st id prompt :
    (length f < FEEDBACK_CAP)%nat ->
    step (mk_sys a c f p ph (DrTurn id prompt) d asks mode can no acc st)
         (mk_sys a c (f ++ [id]) p ph DrIdle (driver_cmd turn d (CmdRun id prompt)) asks mode can no acc st)
| step_shutdown a f p d asks mode can no acc st :
    step (mk_sys a [] f p PumpDone DrIdle d asks mode can no acc st) (mk_sys a [] f p PumpDone DrGone d asks mode can no acc st).

Definition steps : Sys -> Sys -> Prop := rtc step.

(** ** Lemmas *)

Definition run_id (c : DriverCmd) : option Z := match c with CmdRun id _ => Some id | _ => None end.
Definition run_prompt (c : DriverCmd) : option str := match c with CmdRun _ prompt => Some prompt | _ => None end.
Definition sending (ph : PumpPhase) : list DriverCmd := match ph with PumpSending c => [c] | _ => [] end.
Definition driver_runs (dr : DriverPhase) : list Z :=
  match dr with DrTurn id _ | DrAsking id _ _ => [id] | _ => [] end.

(** The turns on their way: finished and not yet noticed, running, commanded. *)
Definition runs (f : list Z) (dr : DriverPhase) (cs : list DriverCmd) : list Z := f ++ driver_runs dr ++ omap run_id cs.

#[local] Arguments runs : simpl never.

Definition mode_cmd (m : AgentMode) (c : DriverCmd) : AgentMode := match c with CmdSetMode m => m | _ => m end.
Definition mode_after (m : AgentMode) (cs : list DriverCmd) : AgentMode := fold_left mode_cmd cs m.

Record sys_ok (s : Sys) : Prop := mk_sys_ok {
  ok_runs : sy_phase s <> PumpDone -> runs (sy_feedback s) (sy_driver s) (sy_cmds s ++ sending (sy_phase s)) = option_list (pu_active (sy_pump s));
  ok_one : (length (runs (sy_feedback s) (sy_driver s) (sy_cmds s ++ sending (sy_phase s))) <= 1)%nat;
  ok_queue : sy_phase s <> PumpDone -> pu_active (sy_pump s) = None -> pu_queued (sy_pump s) = [];
  ok_prompts : sy_accepted s = sy_started s ++ omap run_prompt (sy_cmds s ++ sending (sy_phase s)) ++ pu_queued (sy_pump s);
  ok_mode : mode_after (s_mode (dr_session (sy_dr s))) (sy_cmds s ++ sending (sy_phase s)) = sy_mode s;
  ok_ask : forall id prompt ask, sy_driver s = DrAsking id prompt ask ->
             ask ∈ pa_map (sy_asks s) \/ is_Some (pa_answers (sy_asks s) !! ask)
}.

Lemma no_run_no_prompt cs : omap run_id cs = [] -> omap run_prompt cs = [].
Proof. induction cs as [|c cs IH]; [done|]. destruct c; cbn; try done; intros E; by apply IH. Qed.

Context `{!TurnLogs turn}.
Lemma driver_cmd_mode d c : s_mode (dr_session (driver_cmd turn d c)) = mode_cmd (s_mode (dr_session d)) c.
Proof.
  destruct c as [id prompt|m|n| |goal|]; cbn [driver_cmd mode_cmd]; try done.
  - apply turn_logs.
  - unfold set_mode_cmd. by destruct (decide _).
  - unfold rewind_cmd. by destruct (rewind_session _ _ _) as [[j h] [restored turns]].
Qed.

Lemma resolve_keeps a id r ask : ask ∈ pa_map a \/ is_Some (pa_answers a !! ask) ->
  ask ∈ pa_map (resolve_ask a id r) \/ is_Some (pa_answers (resolve_ask a id r) !! ask).
Proof.
  unfold resolve_ask. destruct (decide (id ∈ pa_map a)); [|done]. cbn. destruct (decide (ask = id)) as [->|Hne].
  - intros _. right. rewrite lookup_insert_eq. by eexists.
  - intros [?|?]; [left; set_solver|right]. by rewrite lookup_insert_ne.
Qed.
Lemma drain_answers a ask : ask ∈ pa_map a \/ is_Some (pa_answers a !! ask) -> is_Some (pa_answers (drain_cancel a) !! ask).
Proof.
  intros Ha. cbn. rewrite lookup_union, lookup_gset_to_gmap. destruct (decide (ask ∈ pa_map a)) as [Hin|Hn].
  - rewrite option_guard_True by done. destruct (pa_answers a !! ask); by eexists.
  - rewrite option_guard_False by done. destruct Ha as [|[r Hr]]; [done|]. rewrite Hr. by eexists.
Qed.

Lemma sys_new_ok d : sys_ok (sys_new d).
Proof. split; try done. unfold runs. cbn. lia. Qed.

Lemma runs_app f dr a b : runs f dr (a ++ b) = runs f dr a ++ omap run_id b.
Proof. unfold runs. by rewrite omap_app, !app_assoc. Qed.

(** A command that is not a turn, sent. *)
Lemma ok_send_other s c : sys_ok s -> sy_phase s = PumpPolled -> run_id c = None ->
  let 'mk_sys a cs f p ph dr d asks mode can no acc st := s in
  forall rest can' no', sys_ok (mk_sys rest cs f p (PumpSending c) dr d asks (mode_cmd mode c) can' no' (acc ++ []) st).
Proof.
  destruct s as [a cs f p ph dr d asks mode can no acc st]. cbn. intros [H1 H2 H3 H4 H5 H6] -> Hc rest can' no'. cbn in *.
  rewrite app_nil_r in *. assert (run_prompt c = None) as Hp by (by destruct c).
  split; cbn [sy_phase sy_feedback sy_driver sy_cmds sy_pump sy_accepted sy_started sy_dr sy_mode sy_asks sending].
  - intros _. rewrite runs_app. cbn. rewrite Hc, app_nil_r. by apply H1.
  - rewrite runs_app. cbn. by rewrite Hc, app_nil_r.
  - intros _. by apply H3.
  - rewrite omap_app. cbn. by rewrite Hp, app_nil_r.
  - unfold mode_after in *. by rewrite fold_left_app, H5.
  - done.
Qed.

(** A turn, started. *)
Lemma ok_send_run a cs f p ph dr d asks mode can no acc st p' c prompt :
  sys_ok (mk_sys a cs f p ph dr d asks mode can no acc st) -> ph = PumpPolled -> pu_active p = None ->
  start_turn p prompt = (p', c) -> forall rest, sys_ok (mk_sys rest cs f p' (PumpSending c) dr d asks mode can no (acc ++ [prompt]) st).
Proof.
  intros [H1 H2 H3 H4 H5 H6] -> Ha [= <- <-] rest. cbn in *. rewrite app_nil_r in *. specialize (H1 ltac:(done)). specialize (H3 ltac:(done) Ha).
  rewrite Ha in H1. cbn in H1. rewrite H3, app_nil_r in H4.
  split; cbn [sy_phase sy_feedback sy_driver sy_cmds sy_pump sy_accepted sy_started sy_dr sy_mode sy_asks sending pu_active pu_queued].
  - intros _. rewrite runs_app, H1. done.
  - rewrite runs_app, H1. cbn. lia.
  - done.
  - rewrite H3, app_nil_r, omap_app, H4, <- app_assoc. done.
  - unfold mode_after in *. by rewrite fold_left_app, H5.
  - done.
Qed.

Lemma ok_action s x rest : sys_ok s -> sy_phase s = PumpPolled -> sy_actions s = x :: rest -> sys_ok (pump_act s x rest).
Proof.
  intros Hs Hph _. destruct s as [a cs f p ph dr d asks mode can no acc st]. cbn in Hph. subst ph.
  pose proof (fun c => ok_send_other _ c Hs eq_refl) as Hother. cbn in Hother. cbn [mode_cmd] in Hother.
  pose proof (fun p' c prompt => ok_send_run _ _ _ _ _ _ _ _ _ _ _ _ _ p' c prompt Hs eq_refl) as Hrun.
  assert (forall rest no' can' asks', (forall ask, ask ∈ pa_map asks \/ is_Some (pa_answers asks !! ask) -> ask ∈ pa_map asks' \/ is_Some (pa_answers asks' !! ask)) ->
    sys_ok (mk_sys rest cs f p PumpTop dr d asks' mode can' no' (acc ++ []) st)) as Hstay.
  { intros rest' no' can' asks' Ha. destruct Hs as [H1 H2 H3 H4 H5 H6]. cbn in *. rewrite app_nil_r in *.
    split; cbn; rewrite ?app_nil_r; try done; try (by intros _; apply H1); try (by intros _; apply H3). intros id prompt ask E. apply Ha. by eapply H6. }
  unfold pump_act. destruct x as [prompt|prompt| |m|id r|n| |g| |]; cbn [handle_action sy_pump accepts].
  - destruct (pu_active p) eqn:Ea; cbn; [by apply Hstay|]. by eapply Hrun.
  - destruct (pu_active p) eqn:Ea; cbn; [|by eapply Hrun].
    destruct Hs as [H1 H2 H3 H4 H5 H6]. cbn in *. rewrite app_nil_r in *.
    rewrite Ea in *. split; cbn; rewrite ?app_nil_r; try done; try (by intros _; apply H1). by rewrite H4, !app_assoc.
  - unfold cancel_active. destruct (pu_active p); cbn; apply Hstay; intros ask Hk; right; by apply (drain_answers asks).
  - by apply (Hother (CmdSetMode m)).
  - cbn. apply Hstay. intros ask. apply resolve_keeps.
  - unfold when_idle. destruct (pu_active p); cbn; [by apply Hstay|by apply (Hother (CmdRewind n))].
  - unfold when_idle. destruct (pu_active p); cbn; [by apply Hstay|by apply (Hother CmdCompact)].
  - unfold when_idle. destruct (pu_active p); cbn; [by apply Hstay|by apply (Hother (CmdSetGoal g))].
  - by apply (Hother CmdShowGoal).
  - destruct Hs as [H1 H2 H3 H4 H5 H6]. cbn in *. rewrite app_nil_r in *.
    unfold cancel_active. destruct (pu_active p); cbn; split; cbn; rewrite ?app_nil_r; try done;
      intros id prompt ask E; right; apply (drain_answers asks); by eapply H6.
Qed.

Lemma ok_feedback a cs f p dr d asks mode can no acc st id p' n :
  sys_ok (mk_sys a cs (id :: f) p PumpTop dr d asks mode can no acc st) -> handle_feedback p id = (p', n) ->
  sys_ok (mk_sys a cs f p' (next_phase (Go n)) dr d asks mode can no acc st).
Proof.
  intros [H1 H2 H3 H4 H5 H6] E. cbn in *. rewrite app_nil_r in *. specialize (H1 ltac:(done)). specialize (H3 ltac:(done)).
  unfold runs in H1, H2. cbn in H1, H2. assert (pu_active p = Some id /\ f = [] /\ driver_runs dr = [] /\ omap run_id cs = []) as (Ha & -> & Hd & Hc).
  { destruct (pu_active p) as [i|]; [|done]. cbn in H1. injection H1 as -> H1. by apply app_eq_nil in H1 as [-> [-> ->]%app_eq_nil]. }
  pose proof (no_run_no_prompt cs Hc) as Hp. rewrite Hp in H4. cbn in H4.
  unfold handle_feedback in E. rewrite decide_True in E by done. destruct (pu_queued p) as [|prompt q] eqn:Eq.
  - injection E as <- <-. split; cbn; rewrite ?app_nil_r; unfold runs; rewrite ?Hd, ?Hc, ?Hp; try done; cbn; lia.
  - unfold start_turn in E. cbn in E. injection E as <- <-.
    split; cbn; rewrite ?omap_app; unfold runs; rewrite ?omap_app, ?Hd, ?Hc, ?Hp; cbn; try done; try lia.
    unfold mode_after in *. by rewrite fold_left_app, H5.
Qed.

Lemma ok_step s s' : sys_ok s -> step s s' -> sys_ok s'.
Proof.
  intros Hs Hst. destruct Hst;
    pose proof Hs as [R1 R2 R3 R4 R5 R6]; cbn in R1, R2, R3, R4, R5, R6.
  - by split.
  - by eapply ok_feedback.
  - split; cbn; try done; intros _; (by apply R1) || (by apply R3).
  - split; cbn; try done; intros _; (by apply R1) || (by apply R3).
  - by split.
  - by apply ok_action.
  - split; cbn; rewrite ?app_nil_r; try done; intros _; (by apply R1) || (by apply R3).
  - assert (run_id x = None /\ run_prompt x = None) as [X1 X2] by (destruct x; naive_solver).
    unfold runs in R1, R2. cbn in R1, R2, R4. rewrite X1 in R1, R2. rewrite X2 in R4.
    split; cbn; try done. by rewrite driver_cmd_mode.
  - split; cbn; try done. by rewrite R4, <- app_assoc.
  - split; cbn; try done. intros i q k [= <- <- <-]. left. unfold register in *. simplify_eq. cbn. set_solver.
  - by split.
  - by split.
  - split; cbn; try done.
    + intros Hp. rewrite <- (R1 Hp). unfold runs. cbn. by rewrite <- app_assoc.
    + unfold runs in *. cbn in *. by rewrite <- app_assoc.
    + pose proof (driver_cmd_mode d (CmdRun id prompt)) as Hm. cbn in Hm. by rewrite Hm.
  - by split.
Qed.

Lemma reachable_ok d s : steps (sys_new d) s -> sys_ok s.
Proof.
  intros Hr. assert (forall a b, rtc step a b -> sys_ok a -> sys_ok b) as G.
  { intros a b Hab. induction Hab as [|a b c Hab _ IH]; [done|]. intros Ha. by apply IH, (ok_step a). }
  eapply G; [exact Hr|apply sys_new_ok].
Qed.

(** ** Theorems *)

(** C8: one turn at a time, prompts in order.  However host, pump and driver
    interleave, at most one turn is commanded, running or finished and not yet
    noticed; the prompts taken on are those started, then at most one on its
    way, then the queue, each once and in order; and when no turn is on its
    way and the pump is up, every prompt taken on has been started. *)
Theorem one_turn_in_order d s :
  steps (sys_new d) s ->
  (length (runs (sy_feedback s) (sy_driver s) (sy_cmds s ++ sending (sy_phase s))) <= 1)%nat
  /\ (exists on_its_way, sy_accepted s = sy_started s ++ on_its_way ++ pu_queued (sy_pump s) /\ (length on_its_way <= 1)%nat)
  /\ (sy_phase s <> PumpDone -> runs (sy_feedback s) (sy_driver s) (sy_cmds s ++ sending (sy_phase s)) = [] ->
      sy_accepted s = sy_started s).
Proof.
  intros [R1 R2 R3 R4 _ _]%reachable_ok. split; [done|]. split.
  - eexists. split; [exact R4|]. unfold runs in R2. rewrite !length_app in R2.
    assert (forall cs, length (omap run_prompt cs) = length (omap run_id cs)) as El.
    { intros cs. induction cs as [|[] cs IH]; cbn; lia. }
    rewrite El. lia.
  - intros Hp E. specialize (R1 Hp). specialize (R3 Hp). rewrite E in R1. rewrite R4, R3 by (by destruct (pu_active (sy_pump s))).
    unfold runs in E. apply app_eq_nil in E as [_ [_ E]%app_eq_nil]. by rewrite (no_run_no_prompt _ E), !app_nil_r.
Qed.

(** the two modes agree.  The permission engine changes mode at once and
    the session when the driver gets to it; when no command is waiting, the
    session is in the mode the engine enforces. *)
Theorem modes_agree d s :
  steps (sys_new d) s -> sy_cmds s = [] -> sending (sy_phase s) = [] -> s_mode (dr_session (sy_dr s)) = sy_mode s.
Proof. intros [_ _ _ _ R5 _]%reachable_ok Ec Es. by rewrite Ec, Es in R5. Qed.

(** The turn the driver is in, and the question it waits on. *)
Definition in_turn (dr : DriverPhase) (id : Z) : Prop := exists prompt, dr = DrTurn id prompt \/ exists ask, dr = DrAsking id prompt ask.

(** C18: a cancel that is handled reaches the turn.  When the pump handles a
    cancel while the driver is in a turn, the token of that turn, and no other,
    is cancelled, and the question the turn waits on, if any, has an answer;
    so the driver can go on. *)
Theorem cancel_reaches_turn d s rest id :
  steps (sys_new d) s -> sy_phase s = PumpPolled -> sy_actions s = ACancel :: rest -> in_turn (sy_driver s) id ->
  let s' := pump_act s ACancel rest in
  step s s' /\ sy_cancelled s' = {[id]} ∪ sy_cancelled s
  /\ forall prompt ask, sy_driver s = DrAsking id prompt ask ->
       is_Some (pa_answers (sy_asks s') !! ask) /\ exists s'', step s' s'' /\ sy_driver s'' = DrTurn id prompt.
Proof.
  intros Hr Hp Ha Hin s'. split; [by apply step_action|]. pose proof (reachable_ok d s Hr) as [R1 _ _ _ _ R6].
  destruct s as [a cs f p ph dr dd asks mode can no acc st]. cbn in *. subst ph a. specialize (R1 ltac:(done)).
  assert (pu_active p = Some id) as Hact.
  { unfold runs in R1. destruct Hin as (prompt & [->|[ask ->]]); cbn in R1; destruct (pu_active p) as [i|]; cbn in R1;
      try (by destruct f); destruct f as [|x f]; cbn in R1; try (by injection R1 as ->); injection R1 as _ R1; by destruct f. }
  subst s'. unfold pump_act. cbn. unfold cancel_active. rewrite Hact. cbn. split; [done|]. intros prompt ask ->.
  destruct (drain_answers asks ask (R6 id prompt ask eq_refl)) as [r Hr']. split; [by exists r|].
  eexists. split; [by eapply step_answered|done].
Qed.

(** ** A wedge *)

(** The host has submitted a prompt, the turn asks for permission, and [n] mode
    changes wait for the driver. *)
Definition flooded (d : Driver) (prompt : str) (m : AgentMode) (n : nat) (mode : AgentMode) (no : list AgentEvent) : Sys :=
  mk_sys [] (replicate n (CmdSetMode m)) [] (mk_pump (Some 1) 1 []) PumpTop (DrAsking 1 prompt 0) d (register asks_new).2 mode ∅ no [prompt] [prompt].

Lemma to_question d prompt m : steps (sys_new d) (flooded d prompt m 0 (s_mode (dr_session d)) []).
Proof.
  unfold steps, sys_new, flooded. eapply rtc_l; [apply (step_host _ _ _ _ _ _ _ _ _ _ _ _ _ (ASubmit prompt)); cbn; unfold ACTIONS_CAP; lia|].
  eapply rtc_l; [apply step_no_feedback; by left|]. eapply rtc_l; [by apply step_action|]. cbn.
  eapply rtc_l; [apply step_send; cbn; unfold CMDS_CAP; lia|]. eapply rtc_l; [apply step_run|].
  eapply rtc_l; [by apply step_ask|]. apply rtc_refl.
Qed.

Lemma flood_one d prompt m n mode no : exists s,
  steps (flooded d prompt m n mode no) s
  /\ s = mk_sys [] (replicate n (CmdSetMode m)) [] (mk_pump (Some 1) 1 []) (PumpSending (CmdSetMode m)) (DrAsking 1 prompt 0) d
           (register asks_new).2 m ∅ (no ++ [AeModeChanged m]) [prompt] [prompt].
Proof.
  eexists. split; [|reflexivity]. unfold steps, flooded.
  eapply rtc_l; [apply (step_host _ _ _ _ _ _ _ _ _ _ _ _ _ (ASetMode m)); cbn; unfold ACTIONS_CAP; lia|].
  eapply rtc_l; [apply step_no_feedback; by right|]. eapply rtc_l; [by apply step_action|]. cbn. apply rtc_refl.
Qed.
Lemma flood d prompt m n : (n <= CMDS_CAP)%nat -> exists mode no, steps (sys_new d) (flooded d prompt m n mode no).
Proof.
  induction n as [|n IH]; intros Hn; [by eexists _, []; apply to_question|]. destruct IH as (mode & no & Hr); [lia|].
  exists m, (no ++ [AeModeChanged m]). destruct (flood_one d prompt m n mode no) as (s & Hs & ->).
  unfold steps in *. etrans; [exact Hr|]. etrans; [exact Hs|]. apply rtc_once.
  unfold flooded. rewrite replicate_S_end. apply step_send. rewrite length_replicate. lia.
Qed.

(** A pump that cannot send and a driver that waits for an answer. *)
Definition wedged (s : Sys) : Prop :=
  (exists c, sy_phase s = PumpSending c) /\ length (sy_cmds s) = CMDS_CAP
  /\ exists id prompt ask, sy_driver s = DrAsking id prompt ask /\ pa_answers (sy_asks s) !! ask = None /\ id ∉ sy_cancelled s.

Lemma wedged_step s s' : has_deadline = false -> wedged s -> step s s' ->
  wedged s' /\ sy_driver s' = sy_driver s /\ sy_asks s' = sy_asks s /\ sy_cancelled s' = sy_cancelled s.
Proof.
  intros Hd ((c & Hp) & Hc & id & prompt & ask & Hdr & Ha & Hn) Hst. destruct Hst; cbn in *; simplify_eq.
  - split; [|done]. split; [by exists c|]. split; [done|]. by exists id, prompt, ask.
  - congruence.
  - lia.
  - naive_solver.
Qed.

(** a wedge.  Without a turn deadline, which is the default, the system can
    reach a state from which nothing the host does is ever handled again: while
    a turn waits for a permission answer, the commands for the driver pile up
    (seventeen mode changes are enough, and they are never refused); then the
    pump waits to send to the driver, the driver waits for the answer, and the
    answer, a cancel and even the quit wait for the pump. *)
Theorem mode_flood_wedges d prompt m : has_deadline = false ->
  exists s, steps (sys_new d) s /\ (forall c, c ∈ sy_cmds s -> c = CmdSetMode m)
    /\ forall s', steps s s' -> wedged s' /\ sy_driver s' = DrAsking 1 prompt 0 /\ sy_cancelled s' = ∅.
Proof.
  intros Hd. destruct (flood d prompt m CMDS_CAP ltac:(lia)) as (mode & no & Hr).
  destruct (flood_one d prompt m CMDS_CAP mode no) as (s & Hs & E). exists s. split; [unfold steps in *; by etrans|].
  assert (wedged s /\ sy_driver s = DrAsking 1 prompt 0 /\ sy_cancelled s = ∅) as Hw.
  { subst s. split; [|done]. split; [by eexists|]. split; [apply length_replicate|]. by exists 1, prompt, 0. }
  split; [subst s; cbn [sy_cmds]; intros c Hin; by apply elem_of_replicate in Hin as [-> _]|].
  clear Hr Hs E. intros s' Hs'. induction Hs' as [s|s s1 s' H1 _ IH]; [done|]. apply IH.
  destruct Hw as (Hw & Hdr & Hcan). destruct (wedged_step s s1 Hd Hw H1) as (Hw1 & E1 & _ & E2). by rewrite E1, E2.
Qed.
End Runtime.

(** ** Witnesses *)

#[local] Existing Instance Tree.tree_json.
#[local] Existing Instance toy_turn_is_logged.

Lemma one_turn_in_order_witness :
  let s := flooded toy_driver (lit "a") AmPlan 0 AmPlan [] in
  steps toy_turn false (sys_new toy_driver) s /\ exists w, sy_accepted s = sy_started s ++ w ++ pu_queued (sy_pump s).
Proof.
  intros s. assert (steps toy_turn false (sys_new toy_driver) s) as Hs by exact (to_question toy_turn false toy_driver (lit "a") AmPlan).
  split; [exact Hs|]. destruct (one_turn_in_order toy_turn false toy_driver s Hs) as (_ & (w & E & _) & _). by exists w.
Defined.

Lemma modes_agree_witness :
  let s := flooded toy_driver (lit "a") AmPlan 0 AmPlan [] in s_mode (dr_session (sy_dr s)) = sy_mode s.
Proof.
  apply (modes_agree toy_turn false toy_driver _ (to_question toy_turn false toy_driver (lit "a") AmPlan)); reflexivity.
Defined.

Lemma cancel_reaches_turn_witness :
  exists s, steps toy_turn false (sys_new toy_driver) s /\ sy_driver s = DrAsking 1 (lit "a") 0
    /\ sy_cancelled (pump_act s ACancel []) = {[1]} ∪ sy_cancelled s.
Proof.
  eexists. assert (steps toy_turn false (sys_new toy_driver)
    (mk_sys [ACancel] [] [] (mk_pump (Some 1) 1 []) PumpPolled (DrAsking 1 (lit "a") 0) toy_driver (register asks_new).2 AmPlan ∅ []
       [lit "a"] [lit "a"])) as Hs.
  { unfold steps. etrans; [exact (to_question toy_turn false toy_driver (lit "a") AmPlan)|].
    eapply rtc_l; [apply (step_host _ _ _ _ _ _ _ _ _ _ _ _ _ _ _ ACancel); cbn; unfold ACTIONS_CAP; lia|].
    eapply rtc_l; [apply step_no_feedback; by right|]. apply rtc_refl. }
  split; [exact Hs|]. split; [reflexivity|].
  refine (proj1 (proj2 (cancel_reaches_turn toy_turn false toy_driver _ [] 1 Hs _ _ _))); [reflexivity|reflexivity|].
  exists (lit "a"). right. by exists 0.
Defined.

Lemma mode_flood_wedges_witness :
  exists s, steps toy_turn false (sys_new toy_driver) s /\ (forall c, c ∈ sy_cmds s -> c = CmdSetMode AmAsk)
    /\ forall s', steps toy_turn false s s' -> wedged s' /\ sy_driver s' = DrAsking 1 (lit "a") 0 /\ sy_cancelled s' = ∅.
Proof. exact (mode_flood_wedges toy_turn false toy_driver (lit "a") AmAsk eq_refl). Defined.
