(* ===== verification/TuiComposer.v ===== *)
(** The composer of the terminal interface (src/crates/rc-tui/src/app.rs,
    complete.rs): pasted text, the history of prompts and its file, the
    completion menu, and the commands that begin with a slash.

    The caret is at the end of the text.  A position in a text is a number of
    characters here and of bytes in the code, always at a boundary. *)

From stdpp Require Import sorting.
From S2P Require Import Prelude Utf8 Text PathLib Client Config.

(** ** Data *)

Inductive MenuKind := MkFile | MkSlash.
#[export] Instance menu_kind_eq_dec : EqDecision MenuKind.
Proof. solve_decision. Defined.
Record Completion := mk_completion { co_kind : MenuKind; co_start : nat; co_candidates : list str }.
Record CompletionMenu := mk_completion_menu { cm_completion : Completion; cm_selected : nat }.
Record PasteMarker := mk_marker { pm_start : nat; pm_end : nat; pm_lines : nat }.

(** The fields of [ViewState] that make up the composer. *)
Record Composer := mk_composer {
  cp_text : str;
  cp_markers : list PasteMarker;
  cp_history : list str;          (** oldest first *)
  cp_pos : option nat;            (** where recall stands *)
  cp_draft : str;
  cp_menu : option CompletionMenu
}.

(** ** Pasted text *)

(** [str::split] at a character. *)
Fixpoint split_char (c : char) (s cur : str) : list str :=
  match s with
  | [] => [cur]
  | d :: s => if d =? c then cur :: split_char c s [] else split_char c s (cur ++ [d])
  end.

Definition normalize_newlines (raw : str) : str := replace (replace raw [13; 10] [10]) [13] [10].
Definition append_paste (p : Composer) (raw : str) : Composer * nat :=
  let text := normalize_newlines raw in
  if is_nil text then (p, 0%nat)
  else
    let n := length (split_char 10 text []) in
    let start := length (cp_text p) in
    let s := cp_text p ++ text in
    let markers := if (1 <? n)%nat then cp_markers p ++ [mk_marker start (length s) n] else cp_markers p in
    (mk_composer s markers (cp_history p) (cp_pos p) (cp_draft p) (cp_menu p), n).
Definition clear_paste_markers (p : Composer) : Composer :=
  mk_composer (cp_text p) [] (cp_history p) (cp_pos p) (cp_draft p) (cp_menu p).
Definition with_text (p : Composer) (s : str) : Composer :=
  mk_composer s (cp_markers p) (cp_history p) (cp_pos p) (cp_draft p) (cp_menu p).
Definition with_recall (p : Composer) (pos : option nat) (draft : str) : Composer :=
  mk_composer (cp_text p) (cp_markers p) (cp_history p) pos draft (cp_menu p).
Definition with_history (p : Composer) (h : list str) : Composer :=
  mk_composer (cp_text p) (cp_markers p) h (cp_pos p) (cp_draft p) (cp_menu p).
Definition with_menu (p : Composer) (m : option CompletionMenu) : Composer :=
  mk_composer (cp_text p) (cp_markers p) (cp_history p) (cp_pos p) (cp_draft p) m.

(** [delete_last_word]: up to the last white space before the last word. *)
Fixpoint after_space (s : str) : str :=
  match s with [] => [] | c :: s => if is_ws c then s else after_space s end.
Definition delete_last_word (s : str) : str := rev (after_space (rev (trim_end s))).

(** ** History *)

Definition MAX_HISTORY : nat := 2000.
Definition newest_entries (h : list str) : list str := drop (length h - MAX_HISTORY) h.
Definition repeats_last (h : list str) (entry : str) : bool :=
  match list.last h with Some e => str_eqb e entry | None => false end.
Definition push_history (h : list str) (entry : str) : list str :=
  if is_nil (trim entry) then h else if repeats_last h entry then h else newest_entries (h ++ [entry]).

(** [load_history], of the file's text *)
Definition load_line (out : list str) (line : str) : list str :=
  if is_nil (trim line) then out else if repeats_last out line then out else out ++ [line].
Definition load_history (body : str) : list str := newest_entries (fold_left load_line (lines body) []).

Definition browse_history (h : list str) (pos : option nat) (draft : str) (older : bool) : option nat * str :=
  if is_nil h then (pos, draft)
  else
    let entry i := default [] (h !! i) in
    match pos, older with
    | None, true => (Some (length h - 1)%nat, entry (length h - 1)%nat)
    | None, false => (None, draft)
    | Some i, true => (Some (i - 1)%nat, entry (i - 1)%nat)
    | Some i, false => if (length h <=? S i)%nat then (None, draft) else (Some (S i), entry (S i))
    end.

(** ** Completion *)

Definition slash_palette : list (string * string) := Eval cbv in
  [("/clear", "Clear the transcript and start a fresh turn");
   ("/compact", "Compact the conversation (free context, keep a summary)");
   ("/context", "Show returned context tokens (or preflight estimate)");
   ("/rewind", "Restore files changed in the last turn (Write/Edit only)");
   ("/goal", "Set, show, or clear the persistent session goal");
   ("/loop", "Run another autonomous agent loop toward the active goal");
   ("/cost", "Show token usage for the last turn");
   ("/usage", "Show token usage (alias of /cost)");
   ("/menu", "Open the menu: projects, sessions, and settings");
   ("/status", "Show session status (model, mode, cwd, busy)");
   ("/model", "Show the active model");
   ("/mode", "Cycle the permission mode");
   ("/permissions", "Show the active permission mode and rule hints");
   ("/doctor", "Run a self-check of the environment and config");
   ("/mcp", "List MCP servers, their status, and their tools");
   ("/select", "Toggle whether sc captures the mouse (Ctrl+O)");
   ("/history", "Summarize the transcript length so far");
   ("/export", "Export the transcript to a file");
   ("/quit", "Quit the session");
   ("/resume", "Resume a previous conversation");
   ("/login", "Open the API-key editor and reload on save");
   ("/memory", "Show the AGENTS.md files loaded for this project");
   ("/terminal-setup", "Show terminal setup hints for Shift+Enter");
   ("/approval", "Show approval / permission mode");
   ("/review", "Review the pending code changes on the current branch");
   ("/pr", "Create a pull request for the current branch");
   ("/init", "Generate an AGENTS.md documenting the codebase");
   ("/diff", "Show the diff of pending changes");
   ("/release-notes", "Summarize release notes from recent git history");
   ("/bug", "Help report a bug from recent errors");
   ("/doc", "Generate documentation for the code");
   ("/docs", "Read and summarize the relevant documentation");
   ("/fix", "Find and fix bugs in the code");
   ("/explain", "Explain the code");
   ("/edit", "Apply edits to the code");
   ("/codebase", "Summarize the structure of the codebase");
   ("/help", "Show composer keybindings and slash commands")]%string.

Inductive Trigger := TgSlash | TgFile (start : nat).
(** The last [@] that begins a token that is not ended. *)
Fixpoint last_at (i : nat) (before : option char) (s : str) : option nat :=
  match s with
  | [] => None
  | c :: s =>
      match last_at (S i) (Some c) s with
      | Some j => Some j
      | None =>
          if (c =? 64) && (match before with None => true | Some b => b =? 32 end) && negb (bool_decide (32 ∈ s))
          then Some i else None
      end
  end.
Definition last_trigger (s : str) : option Trigger :=
  match s with
  | 47 :: rest => if bool_decide (32 ∈ rest) then TgFile <$> last_at 0 None s else Some TgSlash
  | _ => TgFile <$> last_at 0 None s
  end.

(** A directory as [read_dir] lists it: names, and which are directories. *)
Class Listing := { read_dir : str -> option (list (str * bool)) }.

(** [rfind('/')]: the text up to the last slash with it, and the rest. *)
Fixpoint split_dir (s : str) : str * str :=
  match s with
  | [] => ([], [])
  | c :: s' =>
      let '(d, n) := split_dir s' in
      if is_nil d then if c =? 47 then ([47], n) else ([], c :: n) else (c :: d, n)
  end.
Definition strip_dot (d : str) : str := default d (strip_prefix (lit "./") d).
Definition file_label (dir_rel : str) (e : str * bool) : str :=
  let rel := dir_rel ++ e.1 in if e.2 then rel ++ [47] else rel.
Definition file_shown (dir_rel name_prefix : str) (e : str * bool) : bool :=
  ((starts_with name_prefix [46] || contains dir_rel (lit "/.")) || negb (starts_with e.1 [46]))
  && starts_with (to_ascii_lowercase e.1) (to_ascii_lowercase name_prefix).
Definition file_candidates `{Listing} (prefix root : str) : list str :=
  let '(dir_rel, name_prefix) := split_dir prefix in
  let dir := if is_nil dir_rel then root else push_path root (strip_dot dir_rel) in
  match read_dir dir with
  | None => []
  | Some es => merge_sort str_le (map (file_label dir_rel) (List.filter (file_shown dir_rel name_prefix) es))
  end.

Definition slash_candidates (prefix : str) : list str :=
  merge_sort str_le
    (List.filter (fun name => starts_with (drop 1 name) prefix) (map (fun p => lit p.1) slash_palette)).
Definition complete_at `{Listing} (buffer root : str) : option Completion :=
  let menu kind start candidates := if is_nil candidates then None else Some (mk_completion kind start candidates) in
  match last_trigger buffer with
  | None => None
  | Some TgSlash => menu MkSlash 0%nat (slash_candidates (drop 1 buffer))
  | Some (TgFile start) => menu MkFile start (file_candidates (drop (S start) buffer) root)
  end.
(** [complete::apply] *)
Definition apply_completion (buffer : str) (c : Completion) (index : nat) : option str :=
  cand ← co_candidates c !! index;
  Some (take (co_start c) buffer ++ (match co_kind c with MkFile => [64] | MkSlash => [] end) ++ cand).

Definition same_menu (a b : Completion) : bool :=
  bool_decide (co_kind a = co_kind b) && bool_decide (co_candidates a = co_candidates b).
(** [refresh_menu] *)
Definition refresh_completion `{Listing} (p : Composer) (cwd : str) : Composer :=
  with_menu p
    (match complete_at (cp_text p) cwd with
     | None => None
     | Some c =>
         let selected := match cp_menu p with
                         | Some m => if same_menu (cm_completion m) c then cm_selected m else 0%nat
                         | None => 0%nat
                         end in
         Some (mk_completion_menu c (Nat.min selected (length (co_candidates c) - 1)))
     end).

(** ** Recall *)

Definition history_prev (p : Composer) : Composer :=
  let entering := bool_decide (cp_pos p = None) in
  let '(pos, text) := browse_history (cp_history p) (cp_pos p) (if entering then cp_text p else cp_draft p) true in
  let draft := if entering && bool_decide (is_Some pos) then cp_text p else cp_draft p in
  with_text (clear_paste_markers (with_recall p pos draft)) text.
Definition history_next (p : Composer) : Composer :=
  match cp_pos p with
  | None => p
  | Some _ =>
      let '(pos, text) := browse_history (cp_history p) (cp_pos p) (cp_draft p) false in
      with_text (clear_paste_markers (with_recall p pos (cp_draft p))) text
  end.

(** ** Commands *)

#[universes(template=no)]
Inductive SlashAction :=
| SlHelp | SlMenu | SlClear | SlCompact | SlShowGoal | SlSetGoal (goal : str) | SlClearGoal | SlLoop (direction : option str)
| SlCycleMode | SlRewind (steps : Z) | SlCost | SlContext | SlStatus | SlModel | SlPermissions | SlMcp | SlSelectMode | SlQuit
| SlExport | SlDoctor | SlHistory | SlResume | SlLogin | SlMemory | SlTerminalSetup | SlPrompt (text : str).

Definition slash_table : list (list string * SlashAction) :=
  [(["/clear"; "/c"; "/new"], SlClear); (["/menu"; "/m"], SlMenu); (["/compact"; "/cc"], SlCompact);
   (["/context"], SlContext); (["/cost"; "/usage"], SlCost); (["/status"; "/s"], SlStatus); (["/model"], SlModel);
   (["/mode"], SlCycleMode); (["/permissions"; "/approval"], SlPermissions); (["/select"; "/mouse"], SlSelectMode);
   (["/doctor"], SlDoctor); (["/mcp"], SlMcp); (["/history"], SlHistory); (["/export"], SlExport);
   (["/quit"; "/exit"; "/q"], SlQuit); (["/resume"], SlResume); (["/login"], SlLogin); (["/memory"], SlMemory);
   (["/terminal-setup"], SlTerminalSetup);
   (["/review"], SlPrompt (lit "Review the pending code changes on the current branch. Summarize the diff, flag risks and bugs, and suggest concrete fixes."));
   (["/pr"], SlPrompt (lit "Create a pull request for the current branch: summarize the changes and generate a title and body."));
   (["/init"], SlPrompt (lit "Initialize an AGENTS.md file documenting this codebase: structure, build/test commands, and conventions."));
   (["/diff"], SlPrompt (lit "Show the diff of pending changes using git."));
   (["/release-notes"], SlPrompt (lit "Generate release notes from the recent git history."));
   (["/bug"], SlPrompt (lit "Help me report a bug: summarize the current problem and any recent errors from this session."));
   (["/doc"], SlPrompt (lit "Generate documentation for the relevant code."));
   (["/docs"], SlPrompt (lit "Read and summarize the relevant documentation."));
   (["/fix"], SlPrompt (lit "Find and fix bugs in the relevant code."));
   (["/explain"], SlPrompt (lit "Explain the relevant code."));
   (["/edit"], SlPrompt (lit "Apply the requested edits to the code."));
   (["/codebase"], SlPrompt (lit "Summarize the structure of this codebase for context."));
   (["/help"; "/h"; "/?"], SlHelp)]%string.
Fixpoint slash_lookup (t : str) (table : list (list string * SlashAction)) : option SlashAction :=
  match table with
  | [] => None
  | (names, a) :: table => if existsb (fun n => str_eqb t (lit n)) names then Some a else slash_lookup t table
  end.

Definition classify_slash (text : str) : option SlashAction :=
  let t := trim text in
  if str_eqb t (lit "/goal") then Some SlShowGoal
  else match strip_prefix (lit "/goal ") t with
  | Some goal =>
      let goal := trim goal in
      if is_nil goal then Some SlShowGoal
      else if eq_ignore_ascii_case goal (lit "clear") then Some SlClearGoal else Some (SlSetGoal goal)
  | None =>
  if str_eqb t (lit "/loop") then Some (SlLoop None)
  else match strip_prefix (lit "/loop ") t with
  | Some direction => let d := trim direction in Some (SlLoop (if is_nil d then None else Some d))
  | None =>
  match strip_prefix (lit "/rewind") t with
  | Some rest =>
      let rest := trim rest in
      if is_nil rest then Some (SlRewind 1)
      else n ← parse_u64 rest; if 0 <? n then Some (SlRewind n) else None
  | None => slash_lookup t slash_table
  end end end.

Definition loop_prompt (direction : option str) : str :=
  lit "Continue working autonomously toward the active session goal. Inspect the current state, take the next useful actions, verify the result, and do not stop at a progress update while safe in-scope work remains."
  ++ match direction with Some d => lit " Additional direction: " ++ d | None => [] end.

(** [is_quit_word] *)
Definition is_quit_word (text : str) : bool :=
  str_eqb (trim text) (lit "exit") || str_eqb (trim text) (lit "quit").

(** ** Lemmas *)

(** Every command of the palette is one the interface knows. *)
Lemma palette_known : Forall (fun p : string * string => is_Some (classify_slash (lit p.1))) slash_palette.
Proof. apply (bool_decide_unpack _). vm_compute. exact I. Qed.
