(* ===== verification/TuiView.v ===== *)
(** The transcript of the terminal interface (src/crates/rc-tui/src/view.rs, and
    the tool calls of app.rs): rows on the screen, and the thoughts and tool
    calls kept behind rows that expand and collapse in place.

    A row is styled text.  The interface [Screen] gives what is made
    elsewhere: the spans and the width of a line (ratatui), seconds as
    decimals, and the rows of markdown (markdown.rs).  Times are
    nanoseconds. *)

From stdpp Require Import sorting.
From S2P Require Import Prelude Text Turn TuiComposer.

(** ** Rows *)

Inductive Color := Red | Yellow | Green | DarkGray.
(** The styles of the palette. *)
Inductive Style := SPlain | SAccent | SAccentDim | SChrome | SBody | SCode | SReasoning | SUserPrompt | SSemantic (c : Color).
Record Line := mk_line { ln_style : Style; ln_spans : list (Style * str) }.

Class Screen := {
  (** the spans that ratatui makes of the text of a line, and the width of a line *)
  sc_spans : str -> list str;
  sc_line_width : Line -> Z;
  (** [{:.2}] and [{:.1}] of a duration in seconds *)
  sc_secs2 : Z -> str;
  sc_secs1 : Z -> str;
  sc_markdown : str -> list Line
}.

(** [Line::styled], [Line::from] and [Line::default] *)
Definition styled `{Screen} (text : str) (s : Style) : Line := mk_line s (map (fun l => (SPlain, l)) (sc_spans text)).
Definition from_spans (spans : list (Style * str)) : Line := mk_line SPlain spans.
Definition blank_line : Line := mk_line SPlain [].

(** ** Blocks *)

Record ReasoningBlock := mk_reasoning { rb_index : nat; rb_body : list Line; rb_elapsed : option Z; rb_expanded : bool }.
Record ToolBlock := mk_tool {
  tb_index : nat; tb_body : list Line; tb_collapsed_line : Line; tb_expanded_line : Line; tb_expanded : bool
}.
(** The rows of a call that is running. *)
Record LiveToolBlock := mk_live { lt_start : nat; lt_len : nat; lt_tool : str; lt_started : Z }.
Abbreviation LiveTools := (gmap (list Z) LiveToolBlock) (only parsing).
(** A click target of the last frame. *)
Record Hitbox := mk_hitbox { hb_block : nat; hb_x : Z; hb_y : Z; hb_width : Z; hb_height : Z }.

(** The part of [ViewState] that holds the conversation. *)
Record Log := mk_log {
  lg_transcript : list Line;
  lg_text : str;                       (** the answer as it streams *)
  lg_reasoning : str;
  lg_parsed : list Line;               (** the rows of both at the last frame *)
  lg_dirty : bool;
  lg_reasoning_started : option Z;
  lg_reasoning_elapsed : option Z;
  lg_reasoning_blocks : list ReasoningBlock;
  lg_reasoning_hits : list Hitbox;
  lg_tool_blocks : list ToolBlock;
  lg_tool_hits : list Hitbox
}.
Definition log_new : Log := mk_log [] [] [] [] false None None [] [] [] [].

(** [saturating_duration_since] *)
Definition since (now started : Z) : Z := Z.max 0 (now - started).

Section View.
Context `{Screen}.

Definition arrow (expanded : bool) : str := [if expanded then 9662 else 9656] ++ lit " ".
Definition reasoning_summary_line (elapsed : option Z) (expanded : bool) : Line :=
  from_spans [(SAccent, arrow expanded);
              (SChrome, match elapsed with Some e => lit "thought for " ++ sc_secs2 e ++ lit "s" | None => lit "thought" end)].
Definition reasoning_body_lines (reasoning : str) : list Line :=
  map (fun l => styled (lit "  " ++ l) SReasoning) (split_char 10 reasoning []).

(** [parse_assistant_output]: a mark before the first visible row, a gutter
    before the others. *)
Fixpoint first_visible (ls : list Line) : option nat :=
  match ls with
  | [] => None
  | l :: ls => if existsb (fun p => negb (is_nil (trim p.2))) (ln_spans l) then Some 0%nat else S <$> first_visible ls
  end.
Definition with_gutter (first i : nat) (l : Line) : Line :=
  if (i <? first)%nat || (sc_line_width l =? 0) then l
  else mk_line (ln_style l) ((if (i =? first)%nat then (SAccent, [10043] ++ lit " ") else (SPlain, lit "  ")) :: ln_spans l).
Definition parse_assistant_output (text : str) : list Line :=
  let ls := sc_markdown text in
  let first := default 0%nat (first_visible ls) in
  imap (with_gutter first) ls.

(** ** Clocks of reasoning *)

Definition begin_reasoning_phase (g : Log) (now : Z) : Log :=
  mk_log (lg_transcript g) (lg_text g) (lg_reasoning g) (lg_parsed g) (lg_dirty g) (Some now) None
    (lg_reasoning_blocks g) (lg_reasoning_hits g) (lg_tool_blocks g) (lg_tool_hits g).
Definition note_reasoning (g : Log) (now : Z) : Log :=
  match lg_reasoning_started g with
  | Some _ => g
  | None => mk_log (lg_transcript g) (lg_text g) (lg_reasoning g) (lg_parsed g) (lg_dirty g) (Some now) (lg_reasoning_elapsed g)
              (lg_reasoning_blocks g) (lg_reasoning_hits g) (lg_tool_blocks g) (lg_tool_hits g)
  end.
Definition finish_reasoning (g : Log) (now : Z) : Log :=
  if is_nil (lg_reasoning g) || bool_decide (is_Some (lg_reasoning_elapsed g)) then g
  else mk_log (lg_transcript g) (lg_text g) (lg_reasoning g) (lg_parsed g) (lg_dirty g) (lg_reasoning_started g)
         (Some (match lg_reasoning_started g with Some s => since now s | None => 0 end))
         (lg_reasoning_blocks g) (lg_reasoning_hits g) (lg_tool_blocks g) (lg_tool_hits g).

(** ** Changing the transcript *)

(** [shift_summary_indices_at_or_after] *)
Definition shift_index (threshold : nat) (delta : Z) (i : nat) : nat :=
  if (i <? threshold)%nat then i else if 0 <=? delta then (i + Z.to_nat delta)%nat else (i - Z.to_nat (- delta))%nat.
Definition shift_reasoning (threshold : nat) (delta : Z) (b : ReasoningBlock) : ReasoningBlock :=
  mk_reasoning (shift_index threshold delta (rb_index b)) (rb_body b) (rb_elapsed b) (rb_expanded b).
Definition shift_tool (threshold : nat) (delta : Z) (b : ToolBlock) : ToolBlock :=
  mk_tool (shift_index threshold delta (tb_index b)) (tb_body b) (tb_collapsed_line b) (tb_expanded_line b) (tb_expanded b).

(** New rows, with the blocks behind a threshold moved and the click targets
    of the old frame gone. *)
Definition moved (g : Log) (rows : list Line) (threshold : nat) (delta : Z) : Log :=
  mk_log rows (lg_text g) (lg_reasoning g) (lg_parsed g) (lg_dirty g) (lg_reasoning_started g) (lg_reasoning_elapsed g)
    (map (shift_reasoning threshold delta) (lg_reasoning_blocks g)) []
    (map (shift_tool threshold delta) (lg_tool_blocks g)) [].
Definition with_rows (g : Log) (rows : list Line) : Log :=
  mk_log rows (lg_text g) (lg_reasoning g) (lg_parsed g) (lg_dirty g) (lg_reasoning_started g) (lg_reasoning_elapsed g)
    (lg_reasoning_blocks g) (lg_reasoning_hits g) (lg_tool_blocks g) (lg_tool_hits g).
Definition push_rows (g : Log) (rows : list Line) : Log := with_rows g (lg_transcript g ++ rows).
Definition with_blocks (g : Log) (rs : list ReasoningBlock) (ts : list ToolBlock) : Log :=
  mk_log (lg_transcript g) (lg_text g) (lg_reasoning g) (lg_parsed g) (lg_dirty g) (lg_reasoning_started g) (lg_reasoning_elapsed g)
    rs (lg_reasoning_hits g) ts (lg_tool_hits g).

(** [Vec::splice] and [drain] *)
Definition splice (rows : list Line) (a b : nat) (new : list Line) : list Line := take a rows ++ new ++ drop b rows.

(** The rows, the threshold and the distance of a toggle at a summary. *)
Definition toggle_rows (rows : list Line) (i : nat) (summary : Line) (expand : bool) (body : list Line) : list Line :=
  let rows := <[i := summary]> rows in
  if expand then splice rows (S i) (S i) body
  else splice rows (S i) (Nat.min (S i + length body) (length rows)) [].
Definition toggle_threshold (i : nat) (expand : bool) (body : list Line) : nat :=
  if expand then S i else (S i + length body)%nat.
Definition toggle_delta (expand : bool) (body : list Line) : Z := if expand then length_z body else - length_z body.

(** [toggle_reasoning] and [toggle_tool]: the row of the summary. *)
Definition toggle_reasoning (g : Log) (k : nat) : Log * option nat :=
  match lg_reasoning_blocks g !! k with
  | None => (g, None)
  | Some b =>
      let i := rb_index b in
      if (length (lg_transcript g) <=? i)%nat then (g, None)
      else
        let expand := negb (rb_expanded b) in
        let rows := toggle_rows (lg_transcript g) i (reasoning_summary_line (rb_elapsed b) expand) expand (rb_body b) in
        let g := with_blocks g (<[k := mk_reasoning i (rb_body b) (rb_elapsed b) expand]> (lg_reasoning_blocks g)) (lg_tool_blocks g) in
        (moved g rows (toggle_threshold i expand (rb_body b)) (toggle_delta expand (rb_body b)), Some i)
  end.
Definition toggle_tool (g : Log) (k : nat) : Log * option nat :=
  match lg_tool_blocks g !! k with
  | None => (g, None)
  | Some b =>
      let i := tb_index b in
      if (length (lg_transcript g) <=? i)%nat then (g, None)
      else
        let expand := negb (tb_expanded b) in
        let rows := toggle_rows (lg_transcript g) i (if expand then tb_expanded_line b else tb_collapsed_line b) expand (tb_body b) in
        let g := with_blocks g (lg_reasoning_blocks g)
                   (<[k := mk_tool i (tb_body b) (tb_collapsed_line b) (tb_expanded_line b) expand]> (lg_tool_blocks g)) in
        (moved g rows (toggle_threshold i expand (tb_body b)) (toggle_delta expand (tb_body b)), Some i)
  end.

(** [contains] of a hitbox (16 bits) and the searches by coordinate. *)
Definition hit (column row : Z) (h : Hitbox) : bool :=
  (hb_x h <=? column) && (column <? sat_add 16 (hb_x h) (hb_width h))
  && (hb_y h <=? row) && (row <? sat_add 16 (hb_y h) (hb_height h)).
Definition toggle_reasoning_at (g : Log) (column row : Z) : Log * option nat :=
  match List.find (hit column row) (lg_reasoning_hits g) with Some h => toggle_reasoning g (hb_block h) | None => (g, None) end.
Definition toggle_tool_at (g : Log) (column row : Z) : Log * option nat :=
  match List.find (hit column row) (lg_tool_hits g) with Some h => toggle_tool g (hb_block h) | None => (g, None) end.

(** [replace_with_tool_block], with the number of rows removed. *)
Definition replace_with_tool_block (g : Log) (start len : nat) (collapsed expanded : Line) (body : list Line) : Log * nat :=
  let e := (start + len)%nat in
  let removed := (len - 1)%nat in
  let rows := splice (lg_transcript g) start e [collapsed] in
  let g := moved g rows e (- Z.of_nat removed) in
  (with_blocks g (lg_reasoning_blocks g) (lg_tool_blocks g ++ [mk_tool start body collapsed expanded false]), removed).
Definition remove_transcript_range (g : Log) (start len : nat) : Log * nat :=
  if (len =? 0)%nat then (g, 0%nat)
  else (moved g (splice (lg_transcript g) start (start + len) []) (start + len) (- Z.of_nat len), len).
Definition push_tool_block (g : Log) (collapsed expanded : Line) (body : list Line) : Log :=
  let i := length (lg_transcript g) in
  mk_log (lg_transcript g ++ [collapsed]) (lg_text g) (lg_reasoning g) (lg_parsed g) (lg_dirty g) (lg_reasoning_started g)
    (lg_reasoning_elapsed g) (lg_reasoning_blocks g) [] (lg_tool_blocks g ++ [mk_tool i body collapsed expanded false]) [].
Definition clear_transcript (g : Log) : Log :=
  mk_log [] (lg_text g) (lg_reasoning g) (lg_parsed g) (lg_dirty g) (lg_reasoning_started g) (lg_reasoning_elapsed g) [] [] [] [].

(** A thought and an answer at the end of the transcript. *)
Definition push_answer (g : Log) (reasoning : str) (elapsed : option Z) (text : str) : Log :=
  let g := if is_nil reasoning then g
           else
             let i := length (lg_transcript g) in
             let g := push_rows g (reasoning_summary_line elapsed false :: (if is_nil text then [] else [blank_line])) in
             with_blocks g (lg_reasoning_blocks g ++ [mk_reasoning i (reasoning_body_lines reasoning) elapsed false]) (lg_tool_blocks g) in
  if is_nil text then g else push_rows g (parse_assistant_output text).
(** [flush_text_at] *)
Definition flush_text (g : Log) (now : Z) : Log :=
  if is_nil (lg_text g) && is_nil (lg_reasoning g) then g
  else
    let g := finish_reasoning g now in
    let elapsed := default 0 (lg_reasoning_elapsed g) in
    let g' := mk_log (lg_transcript g) [] [] [] false None None
                (lg_reasoning_blocks g) (lg_reasoning_hits g) (lg_tool_blocks g) (lg_tool_hits g) in
    push_answer g' (lg_reasoning g) (Some elapsed) (lg_text g).
Definition restore_assistant_turn (g : Log) (reasoning : option str) (text : str) : Log :=
  push_answer g (default [] reasoning) None text.

(** ** Tool calls (app.rs) *)

Definition eq_ignore_case (a b : str) : bool :=
  let lower := map (fun c => if (65 <=? c) && (c <=? 90) then c + 32 else c) in str_eqb (lower a) (lower b).
Definition tool_summary_line (tool : str) (result : ToolResultBody) (elapsed : Z) (expanded : bool) : Line :=
  let name := if is_nil (trim tool) || eq_ignore_case tool (lit "tool") then lit "tool call" else tool in
  let status := match result with
                | ROk _ _ => []
                | RError _ _ => [(SSemantic Red, lit " " ++ [183] ++ lit " failed")]
                | RDenied _ => [(SSemantic Yellow, lit " " ++ [183] ++ lit " denied")]
                | RInterrupted => [(SSemantic DarkGray, lit " " ++ [183] ++ lit " interrupted")]
                end in
  from_spans ([(SAccent, arrow expanded); (SBody, name); (SChrome, lit " " ++ [183] ++ lit " " ++ sc_secs2 elapsed ++ lit "s")] ++ status).
Definition tool_result_detail_lines (result : ToolResultBody) : list Line :=
  let '(glyph, label, color, body, truncated) :=
    match result with
    | ROk content truncated => (10003, lit "output", Green, content, truncated)
    | RError message _ => (10007, lit "error", Red, message, false)
    | RDenied reason => (8856, lit "denied", Yellow, reason, false)
    | RInterrupted => (8211, lit "interrupted", DarkGray, [], false)
    end in
  [styled (lit "  " ++ [glyph] ++ lit " " ++ label) (SSemantic color)]
  ++ (if is_nil body then [] else map (fun l => styled (lit "  " ++ [9474] ++ lit " " ++ l) SChrome) (split_char 10 body []))
  ++ (if truncated then [styled (lit "  " ++ [9474] ++ lit " [output truncated]") SChrome] else []).

Definition tool_ok (r : ToolResultBody) : bool := match r with ROk _ _ => true | _ => false end.
Definition push_failed (g : Log) (tool : str) (result : ToolResultBody) (elapsed : Z) (body : list Line) : Log :=
  push_tool_block g (tool_summary_line tool result elapsed false) (tool_summary_line tool result elapsed true) body.
(** The live blocks behind a range that has shrunk. *)
Definition shift_live (e removed : nat) (b : LiveToolBlock) : LiveToolBlock :=
  mk_live (if (e <=? lt_start b)%nat then lt_start b - removed else lt_start b)%nat (lt_len b) (lt_tool b) (lt_started b).

(** [collapse_tool_call] *)
Definition collapse_tool_call (g : Log) (live : LiveTools) (call_id fallback : str) (result : ToolResultBody) (finished : Z)
  : Log * LiveTools :=
  match live !! call_id with
  | None =>
      (if tool_ok result then g else push_failed g fallback result 0 (tool_result_detail_lines result), live)
  | Some b =>
      let live := delete call_id live in
      let e := (lt_start b + lt_len b)%nat in
      let elapsed := since finished (lt_started b) in
      if (lt_len b =? 0)%nat || (length (lg_transcript g) <? e)%nat then
        (if tool_ok result then g else push_failed g (lt_tool b) result elapsed (tool_result_detail_lines result), live)
      else if tool_ok result then
        let '(g, removed) := remove_transcript_range g (lt_start b) (lt_len b) in
        (g, if (0 <? removed)%nat then shift_live e removed <$> live else live)
      else
        let body := take (lt_len b) (drop (lt_start b) (lg_transcript g)) ++ tool_result_detail_lines result in
        let '(g, removed) := replace_with_tool_block g (lt_start b) (lt_len b)
                               (tool_summary_line (lt_tool b) result elapsed false)
                               (tool_summary_line (lt_tool b) result elapsed true) body in
        (g, if (0 <? removed)%nat then shift_live e removed <$> live else live)
  end.

(** [collapse_unfinished_tool_calls]: from the end of the transcript. *)
Definition later_first (a b : str * LiveToolBlock) : Prop := (lt_start b.2 <= lt_start a.2)%nat.
#[export] Instance later_dec : RelDecision later_first.
Proof. intros a b. unfold later_first. apply _. Defined.
Definition collapse_unfinished_tool_calls (g : Log) (live : LiveTools) (finished : Z) : Log * LiveTools :=
  fold_left (fun gl p => collapse_tool_call gl.1 gl.2 p.1 (lit "tool") RInterrupted finished)
    (merge_sort later_first (map_to_list live)) (g, live).

End View.
(** ** The layout of the transcript *)

Inductive BlockId := BReasoning (k : nat) | BTool (k : nat) | BLive (id : list Z).
#[export] Instance block_id_eq_dec : EqDecision BlockId.
Proof. solve_decision. Defined.

(** The rows a block occupies, and what they must show. *)
Record Piece := mk_piece { pc_start : nat; pc_len : nat; pc_rows : option (list Line) }.

Section Layout.
Context `{Screen}.

Definition shown_piece (i : nat) (rows : list Line) : Piece := mk_piece i (length rows) (Some rows).
Definition reasoning_piece (b : ReasoningBlock) : Piece :=
  shown_piece (rb_index b) (reasoning_summary_line (rb_elapsed b) (rb_expanded b) :: if rb_expanded b then rb_body b else []).
Definition tool_piece (b : ToolBlock) : Piece :=
  shown_piece (tb_index b)
    ((if tb_expanded b then tb_expanded_line b else tb_collapsed_line b) :: if tb_expanded b then tb_body b else []).
Definition live_piece (b : LiveToolBlock) : Piece := mk_piece (lt_start b) (lt_len b) None.
Definition piece_of (g : Log) (live : LiveTools) (b : BlockId) : option Piece :=
  match b with
  | BReasoning k => reasoning_piece <$> lg_reasoning_blocks g !! k
  | BTool k => tool_piece <$> lg_tool_blocks g !! k
  | BLive id => live_piece <$> live !! id
  end.

Definition piece_fits (rows : list Line) (p : Piece) : Prop :=
  (0 < pc_len p)%nat /\ (pc_start p + pc_len p <= length rows)%nat
  /\ (forall shown, pc_rows p = Some shown -> take (pc_len p) (drop (pc_start p) rows) = shown).
Definition apart (p q : Piece) : Prop :=
  (pc_start p + pc_len p <= pc_start q)%nat \/ (pc_start q + pc_len q <= pc_start p)%nat.

(** Every block has rows of its own and they show it. *)
Definition layout_ok (rows : list Line) (f : BlockId -> option Piece) : Prop :=
  (forall b p, f b = Some p -> piece_fits rows p)
  /\ (forall b c p q, b <> c -> f b = Some p -> f c = Some q -> apart p q).
Definition view_ok (g : Log) (live : LiveTools) : Prop := layout_ok (lg_transcript g) (piece_of g live).

(** A piece when [n] rows at [s] have become [m]. *)
Definition shift_piece (s n m : nat) (p : Piece) : Piece :=
  mk_piece (if (pc_start p <? s + n)%nat then pc_start p else pc_start p + m - n)%nat (pc_len p) (pc_rows p).

Lemma apart_sym p q : apart p q -> apart q p.
Proof. unfold apart. tauto. Qed.

Lemma slice_app_l (rows more : list Line) i n : (i + n <= length rows)%nat -> take n (drop i (rows ++ more)) = take n (drop i rows).
Proof. intros Hl. rewrite drop_app_le, take_app_le by (rewrite ?length_drop; lia). done. Qed.

Lemma splice_fits rows s n new p :
  piece_fits rows p -> apart p (mk_piece s n None) -> (s + n <= length rows)%nat -> (0 < n)%nat ->
  piece_fits (splice rows s (s + n) new) (shift_piece s n (length new) p).
Proof.
  intros (Hp & Hl & Hs) Ha Hn Hn0. unfold piece_fits, splice, shift_piece. cbn [pc_start pc_len pc_rows].
  unfold apart in Ha. cbn [pc_start pc_len] in Ha. rewrite !length_app, length_take, length_drop.
  destruct (Nat.ltb_spec (pc_start p) (s + n)); (split_and!; [done|lia|]); intros shown Es; specialize (Hs _ Es); rewrite <- Hs.
  - rewrite drop_app_le, take_app_le by (rewrite ?length_drop, ?length_take; lia).
    rewrite <- (take_drop s rows) at 2. rewrite slice_app_l by (rewrite length_take; lia). done.
  - rewrite drop_app_ge, drop_app_ge by (rewrite ?length_take; lia). rewrite drop_drop, length_take. do 2 f_equal. lia.
Qed.

(** Rows [s..s+n) that belong to one block become [new], which belong to one
    block or to none; the others move. *)
Lemma layout_splice rows f f' s n new own :
  layout_ok rows f -> (s + n <= length rows)%nat -> (0 < n)%nat ->
  (forall b p, f' b = Some p ->
    (exists q, f b = Some q /\ p = shift_piece s n (length new) q /\ apart q (mk_piece s n None))
    \/ (b = own /\ p = shown_piece s new /\ new <> [])) ->
  layout_ok (splice rows s (s + n) new) f'.
Proof.
  intros [Hfit Hap] Hl Hn Hf. split.
  - intros b p Hb. destruct (Hf _ _ Hb) as [(q & Hq & -> & Ha)|(-> & -> & Hnew)]; [by eapply splice_fits; eauto|].
    unfold piece_fits, splice, shown_piece. cbn [pc_start pc_len pc_rows]. rewrite !length_app, length_take, length_drop.
    split_and!; [destruct new; [done|simpl; lia]|lia|intros ? [= <-]].
    rewrite drop_app_length' by (rewrite length_take; lia). by rewrite take_app_length.
  - intros b c p q Hbc Hb Hc.
    destruct (Hf _ _ Hb) as [(p0 & Hp & -> & Ha)|(-> & -> & _)], (Hf _ _ Hc) as [(q0 & Hq & -> & Hc')|(-> & -> & _)]; [..|done].
    + specialize (Hap _ _ _ _ Hbc Hp Hq). pose proof (Hfit _ _ Hp) as (? & _). pose proof (Hfit _ _ Hq) as (? & _).
      unfold apart, shift_piece in *. cbn [pc_start pc_len] in *.
      destruct (Nat.ltb_spec (pc_start p0) (s + n)), (Nat.ltb_spec (pc_start q0) (s + n)); lia.
    + pose proof (Hfit _ _ Hp) as (? & _). unfold apart, shift_piece, shown_piece in *. cbn [pc_start pc_len] in *.
      destruct (Nat.ltb_spec (pc_start p0) (s + n)); lia.
    + pose proof (Hfit _ _ Hq) as (? & _). unfold apart, shift_piece, shown_piece in *. cbn [pc_start pc_len] in *.
      destruct (Nat.ltb_spec (pc_start q0) (s + n)); lia.
Qed.

(** More rows at the end, which may belong to a new block. *)
Lemma layout_app rows f f' more own :
  layout_ok rows f ->
  (forall b p, f' b = Some p ->
    f b = Some p
    \/ (b = own /\ pc_start p = length rows /\ (0 < pc_len p <= length more)%nat
        /\ (forall shown, pc_rows p = Some shown -> take (pc_len p) more = shown))) ->
  layout_ok (rows ++ more) f'.
Proof.
  intros [Hfit Hap] Hf. split.
  - intros b p Hb. destruct (Hf _ _ Hb) as [Hb'|(-> & Es & [Hl1 Hl2] & Hs)].
    + destruct (Hfit _ _ Hb') as (? & ? & Hsh). split_and!; [done|rewrite length_app; lia|].
      intros shown Es. rewrite slice_app_l by done. by apply Hsh.
    + split_and!; [done|rewrite length_app; lia|]. intros shown Esh. rewrite Es, drop_app_length. by apply Hs.
  - intros b c p q Hbc Hb Hc.
    destruct (Hf _ _ Hb) as [Hb'|(-> & Es & _)], (Hf _ _ Hc) as [Hc'|(-> & Es' & _)]; [by eapply Hap| | |done].
    + pose proof (Hfit _ _ Hb') as (_ & ? & _). left. lia.
    + pose proof (Hfit _ _ Hc') as (_ & ? & _). right. lia.
Qed.

(** *** Toggling *)

Definition block_len (expanded : bool) (body : list Line) : nat := S (if expanded then length body else 0).
Definition block_rows (summary : Line) (expanded : bool) (body : list Line) : list Line :=
  summary :: if expanded then body else [].
Lemma length_block_rows summary expanded body : length (block_rows summary expanded body) = block_len expanded body.
Proof. by destruct expanded. Qed.

Lemma toggle_rows_splice rows i old summary expand body :
  piece_fits rows (shown_piece i (block_rows old (negb expand) body)) ->
  toggle_rows rows i summary expand body
  = splice rows i (i + block_len (negb expand) body) (block_rows summary expand body).
Proof.
  intros (_ & Hl & _). unfold shown_piece, toggle_rows, splice in *. cbn [pc_start pc_len] in Hl. rewrite length_block_rows in Hl.
  unfold block_rows. rewrite length_insert.
  assert (take (S i) (<[i := summary]> rows) = take i rows ++ [summary]) as Ht.
  { rewrite (take_S_r _ _ summary) by (apply list_lookup_insert_eq; unfold block_len in Hl; lia).
    by rewrite take_insert_ge by lia. }
  unfold block_len in *. destruct expand; cbn [negb app] in *.
  - rewrite Ht, drop_insert_lt by lia. rewrite Nat.add_1_r. by rewrite <- app_assoc.
  - rewrite Nat.min_l by lia. rewrite Ht, drop_insert_lt by lia. rewrite <- app_assoc. cbn. do 3 f_equal; lia.
Qed.

Lemma toggle_shift i expand body j :
  shift_index (toggle_threshold i expand body) (toggle_delta expand body) j
  = (if (j <? i + block_len (negb expand) body)%nat then j else j + block_len expand body - block_len (negb expand) body)%nat.
Proof.
  unfold shift_index, toggle_threshold, toggle_delta, block_len, length_z.
  destruct expand; cbn [negb]; repeat case_match; rewrite ?Nat.ltb_lt, ?Nat.ltb_ge, ?Z.leb_le, ?Z.leb_gt in *; lia.
Qed.

Lemma piece_moved g live live' rows threshold delta s n m b :
  (forall j, shift_index threshold delta j = if (j <? s + n)%nat then j else j + m - n)%nat ->
  (forall id, live_piece <$> live' !! id = shift_piece s n m <$> (live_piece <$> live !! id)) ->
  piece_of (moved g rows threshold delta) live' b = shift_piece s n m <$> piece_of g live b.
Proof.
  intros Hs Hlive. destruct b as [k|k|id]; cbn [piece_of moved lg_reasoning_blocks lg_tool_blocks]; [..|apply Hlive];
    rewrite list_lookup_fmap, <- !option_fmap_compose; apply option_fmap_ext; intros b;
    unfold compose, reasoning_piece, tool_piece, shown_piece, shift_piece;
    cbn [shift_reasoning shift_tool rb_index rb_elapsed rb_expanded rb_body tb_index tb_expanded tb_body tb_expanded_line
         tb_collapsed_line pc_start pc_len pc_rows]; by rewrite Hs.
Qed.

Lemma shift_piece_self s n m rows : (0 < n)%nat -> shift_piece s n m (shown_piece s rows) = shown_piece s rows.
Proof. intros Hn. unfold shift_piece, shown_piece. cbn [pc_start pc_len pc_rows]. destruct (Nat.ltb_spec s (s + n)); [done|lia]. Qed.

Lemma no_live_moved s n m id : live_piece <$> (∅ : LiveTools) !! id = shift_piece s n m <$> (live_piece <$> (∅ : LiveTools) !! id).
Proof. by rewrite lookup_empty. Qed.

(** A toggle at a block: what both kinds share. *)
Lemma toggle_layout g g' own i old summary expand body :
  view_ok g ∅ ->
  piece_of g ∅ own = Some (shown_piece i (block_rows old (negb expand) body)) ->
  piece_of g' ∅ own = Some (shown_piece i (block_rows summary expand body)) ->
  (forall b, b <> own -> piece_of g' ∅ b = piece_of g ∅ b) ->
  view_ok (moved g' (toggle_rows (lg_transcript g) i summary expand body)
             (toggle_threshold i expand body) (toggle_delta expand body)) ∅.
Proof.
  intros [Hfit Hap] Ho Ho' Hrest. pose proof (Hfit _ _ Ho) as Hf. unfold view_ok. cbn [moved lg_transcript].
  rewrite (toggle_rows_splice _ _ old) by done.
  destruct Hf as (Hn & Hl & _). cbn [shown_piece pc_start pc_len] in Hn, Hl. rewrite length_block_rows in Hn, Hl.
  eapply (layout_splice _ (piece_of g ∅) _ _ _ _ own); [done|done|done|]. intros b p Hb.
  rewrite (piece_moved _ ∅ ∅ _ _ _ i (block_len (negb expand) body) (block_len expand body)) in Hb
    by (apply toggle_shift || apply no_live_moved).
  rewrite length_block_rows. destruct (decide (b = own)) as [->|Hne].
  - right. rewrite Ho' in Hb. injection Hb as <-. rewrite shift_piece_self by done. done.
  - left. rewrite Hrest in Hb by done. destruct (piece_of g ∅ b) as [q|] eqn:Eq; [|done]. injection Hb as <-.
    exists q. split_and!; [done..|]. pose proof (Hap _ _ _ _ Hne Eq Ho) as Ha.
    unfold apart, shown_piece in *. cbn [pc_start pc_len] in *. by rewrite length_block_rows in Ha.
Qed.

Lemma toggle_reasoning_ok g k : view_ok g ∅ -> view_ok (toggle_reasoning g k).1 ∅.
Proof.
  intros Hok. unfold toggle_reasoning. destruct (lg_reasoning_blocks g !! k) as [b|] eqn:Ek; [|done].
  destruct (Nat.leb_spec (length (lg_transcript g)) (rb_index b)); [done|]. cbn [fst].
  eapply (toggle_layout g _ (BReasoning k)); [done|..].
  - cbn [piece_of]. rewrite Ek. cbn. unfold reasoning_piece. rewrite negb_involutive. done.
  - cbn. rewrite list_lookup_insert_eq by (by eapply lookup_lt_Some). done.
  - intros [j|j|id] Hne; cbn; [|done..]. by rewrite list_lookup_insert_ne by congruence.
Qed.
Lemma toggle_tool_ok g k : view_ok g ∅ -> view_ok (toggle_tool g k).1 ∅.
Proof.
  intros Hok. unfold toggle_tool. destruct (lg_tool_blocks g !! k) as [b|] eqn:Ek; [|done].
  destruct (Nat.leb_spec (length (lg_transcript g)) (tb_index b)); [done|]. cbn [fst].
  eapply (toggle_layout g _ (BTool k)); [done|..].
  - cbn [piece_of]. rewrite Ek. cbn. unfold tool_piece. rewrite negb_involutive. done.
  - cbn. rewrite list_lookup_insert_eq by (by eapply lookup_lt_Some). cbn. unfold tool_piece. by destruct (tb_expanded b).
  - intros [j|j|id] Hne; cbn; [done| |done]. by rewrite list_lookup_insert_ne by congruence.
Qed.

(** *** Adding, removing, replacing *)

Lemma layout_sub rows f f' : layout_ok rows f -> (forall b p, f' b = Some p -> f b = Some p) -> layout_ok rows f'.
Proof. intros [Hfit Hap] Hf. split; [eauto|]. intros b c p q Hbc Hb Hc. eapply Hap; eauto. Qed.

Lemma lookup_snoc {A} (l : list A) (x : A) k : (l ++ [x]) !! k = if decide (k = length l) then Some x else l !! k.
Proof.
  destruct (decide (k = length l)) as [->|Hne]; [by rewrite list_lookup_middle|].
  destruct (decide (k < length l)%nat); [by rewrite lookup_app_l|].
  rewrite !lookup_ge_None_2; [done|lia|rewrite length_app; simpl; lia].
Qed.

Definition add_tool (g : Log) (b : ToolBlock) : Log := with_blocks g (lg_reasoning_blocks g) (lg_tool_blocks g ++ [b]).
Definition add_reasoning (g : Log) (b : ReasoningBlock) : Log := with_blocks g (lg_reasoning_blocks g ++ [b]) (lg_tool_blocks g).
Lemma piece_add_tool g live b c :
  piece_of (add_tool g b) live c
  = if decide (c = BTool (length (lg_tool_blocks g))) then Some (tool_piece b) else piece_of g live c.
Proof.
  destruct c as [k|k|id]; cbn [piece_of add_tool with_blocks lg_reasoning_blocks lg_tool_blocks]; try by rewrite decide_False.
  rewrite lookup_snoc. do 2 case_decide; naive_solver.
Qed.
Lemma piece_add_reasoning g live b c :
  piece_of (add_reasoning g b) live c
  = if decide (c = BReasoning (length (lg_reasoning_blocks g))) then Some (reasoning_piece b) else piece_of g live c.
Proof.
  destruct c as [k|k|id]; cbn [piece_of add_reasoning with_blocks lg_reasoning_blocks lg_tool_blocks]; try by rewrite decide_False.
  rewrite lookup_snoc. do 2 case_decide; naive_solver.
Qed.

Lemma push_rows_ok g live rows : view_ok g live -> view_ok (push_rows g rows) live.
Proof. intros Hok. eapply (layout_app _ _ _ _ (BLive [])); [exact Hok|]. by left. Qed.

(** A new block whose summary is the first of the new rows. *)
Lemma push_reasoning_ok g live b rows :
  view_ok g live -> rb_index b = length (lg_transcript g) -> rb_expanded b = false ->
  view_ok (add_reasoning (push_rows g (reasoning_summary_line (rb_elapsed b) false :: rows)) b) live.
Proof.
  intros Hok Hi He. eapply (layout_app _ _ _ _ (BReasoning (length (lg_reasoning_blocks g)))); [exact Hok|].
  intros c p Hc. rewrite piece_add_reasoning in Hc. case_decide as E; [|by left]. right. injection Hc as <-.
  unfold reasoning_piece, shown_piece. rewrite He. cbn. split_and!; [done..|lia|lia|]. by intros ? [= <-].
Qed.
Lemma push_tool_block_ok g live collapsed expanded body :
  view_ok g live -> view_ok (push_tool_block g collapsed expanded body) live.
Proof.
  intros Hok. eapply (layout_app _ _ _ [collapsed] (BTool (length (lg_tool_blocks g)))); [exact Hok|].
  intros c p Hc.
  change (piece_of (add_tool g (mk_tool (length (lg_transcript g)) body collapsed expanded false)) live c = Some p) in Hc.
  rewrite piece_add_tool in Hc. case_decide as E; [|by left]. right. injection Hc as <-. cbn.
  split_and!; [done..|lia|lia|]. by intros ? [= <-].
Qed.
(** The rows of a call that starts. *)
Lemma start_tool_ok g live id rows tool now :
  view_ok g live -> live !! id = None -> rows <> [] ->
  view_ok (push_rows g rows) (<[id := mk_live (length (lg_transcript g)) (length rows) tool now]> live).
Proof.
  intros Hok Hid Hr. eapply (layout_app _ _ _ _ (BLive id)); [exact Hok|].
  intros [k|k|id'] p Hc; cbn in *; [by left..|]. destruct (decide (id' = id)) as [->|Hne].
  - right. rewrite lookup_insert_eq in Hc. injection Hc as <-. cbn. split_and!; [done..| |done|done]. destruct rows; [done|simpl; lia].
  - left. by rewrite lookup_insert_ne in Hc by done.
Qed.

Lemma shift_index_down e removed j :
  shift_index e (- Z.of_nat removed) j = (if (j <? e)%nat then j else j - removed)%nat.
Proof.
  unfold shift_index. case_match; [done|]. destruct (Z.leb_spec 0 (- Z.of_nat removed)).
  - assert (removed = 0)%nat as -> by lia. simpl. lia.
  - f_equal. lia.
Qed.
Lemma shift_live_piece s n m b :
  (m <= n)%nat -> (0 < n)%nat -> live_piece (shift_live (s + n) (n - m) b) = shift_piece s n m (live_piece b).
Proof.
  intros Hm Hn. unfold live_piece, shift_live, shift_piece. cbn [lt_start lt_len pc_start pc_len pc_rows].
  destruct (Nat.leb_spec (s + n) (lt_start b)), (Nat.ltb_spec (lt_start b) (s + n)); f_equal; lia.
Qed.

Lemma shrink_pieces g live s n m rows b :
  (m <= n)%nat -> (0 < n)%nat ->
  piece_of (moved g rows (s + n) (- Z.of_nat (n - m))) (shift_live (s + n) (n - m) <$> live) b
  = shift_piece s n m <$> piece_of g live b.
Proof.
  intros Hm Hn. apply piece_moved.
  - intros j. rewrite shift_index_down. destruct (Nat.ltb_spec j (s + n)); lia.
  - intros id. rewrite lookup_fmap, <- !option_fmap_compose. apply option_fmap_ext. intros b'. by apply shift_live_piece.
Qed.

(** The rows of a call that is running: they are there, and nobody else's. *)
Lemma live_block_piece g live id b :
  view_ok g live -> live !! id = Some b ->
  (0 < lt_len b)%nat /\ (lt_start b + lt_len b <= length (lg_transcript g))%nat
  /\ (forall c p, c <> BLive id -> piece_of g live c = Some p -> apart p (mk_piece (lt_start b) (lt_len b) None)).
Proof.
  intros [Hfit Hap] Hb. assert (piece_of g live (BLive id) = Some (live_piece b)) as Hp by (cbn; by rewrite Hb).
  destruct (Hfit _ _ Hp) as (? & ? & _). split_and!; [done..|]. intros c p Hne Hc. exact (Hap _ _ _ _ Hne Hc Hp).
Qed.
Lemma piece_delete g live id c p : piece_of g (delete id live) c = Some p -> piece_of g live c = Some p /\ c <> BLive id.
Proof.
  destruct c as [k|k|id']; cbn; [done..|]. intros Hc. destruct (decide (id' = id)) as [->|Hne].
  - by rewrite lookup_delete_eq in Hc.
  - rewrite lookup_delete_ne in Hc by done. split; [done|congruence].
Qed.

Lemma remove_live_ok g live id b :
  view_ok g live -> live !! id = Some b ->
  view_ok (remove_transcript_range g (lt_start b) (lt_len b)).1 (shift_live (lt_start b + lt_len b) (lt_len b) <$> delete id live).
Proof.
  intros Hok Hb. destruct (live_block_piece _ _ _ _ Hok Hb) as (Hn & Hl & Hap). unfold remove_transcript_range.
  destruct (Nat.eqb_spec (lt_len b) 0); [lia|]. cbn [fst].
  eapply (layout_splice _ (piece_of g live) _ _ _ [] (BLive [])); [exact Hok|done|done|]. intros c p Hc. left.
  pose proof (shrink_pieces g (delete id live) (lt_start b) (lt_len b) 0
    (splice (lg_transcript g) (lt_start b) (lt_start b + lt_len b) []) c ltac:(lia) Hn) as E.
  rewrite Nat.sub_0_r in E. rewrite E in Hc. clear E. destruct (piece_of g (delete id live) c) as [q|] eqn:Eq; [|done].
  injection Hc as <-. apply piece_delete in Eq as [Eq Hne]. exists q. eauto.
Qed.
Lemma replace_live_ok g live id b collapsed expanded body :
  view_ok g live -> live !! id = Some b ->
  view_ok (replace_with_tool_block g (lt_start b) (lt_len b) collapsed expanded body).1
    (shift_live (lt_start b + lt_len b) (lt_len b - 1) <$> delete id live).
Proof.
  intros Hok Hb. destruct (live_block_piece _ _ _ _ Hok Hb) as (Hn & Hl & Hap). unfold replace_with_tool_block. cbn [fst].
  eapply (layout_splice _ (piece_of g live) _ _ _ [collapsed] (BTool (length (lg_tool_blocks g)))); [exact Hok|done|done|].
  intros c p Hc. change (with_blocks ?g' ?r (?t ++ [?x])) with (add_tool g' x) in Hc.
  rewrite piece_add_tool in Hc. cbn [moved lg_tool_blocks] in Hc. rewrite length_map in Hc. case_decide as E.
  - right. injection Hc as <-. done.
  - left. rewrite shrink_pieces in Hc by lia. destruct (piece_of g (delete id live) c) as [q|] eqn:Eq; [|done].
    injection Hc as <-. apply piece_delete in Eq as [Eq Hne]. exists q. eauto.
Qed.

Lemma view_ok_delete g live id : view_ok g live -> view_ok g (delete id live).
Proof. intros Hok. eapply layout_sub; [exact Hok|]. intros c p Hc. by apply piece_delete in Hc as [? _]. Qed.
Lemma shift_live_zero (k : nat) (live : LiveTools) : shift_live k 0 <$> live = live.
Proof. rewrite <- (map_fmap_id live) at 2. apply map_fmap_ext. intros id b _. unfold shift_live. rewrite Nat.sub_0_r. by destruct b, (_ <=? _)%nat. Qed.

Lemma collapse_tool_call_ok g live id fallback result finished :
  view_ok g live ->
  view_ok (collapse_tool_call g live id fallback result finished).1 (collapse_tool_call g live id fallback result finished).2.
Proof.
  intros Hok. unfold collapse_tool_call, push_failed. destruct (live !! id) as [b|] eqn:Eb.
  - destruct (live_block_piece _ _ _ _ Hok Eb) as (Hn & Hl & _).
    destruct (Nat.eqb_spec (lt_len b) 0); [lia|]. destruct (Nat.ltb_spec (length (lg_transcript g)) (lt_start b + lt_len b)); [lia|].
    cbn [orb]. destruct (tool_ok result).
    + pose proof (remove_live_ok _ _ _ _ Hok Eb) as Hr. unfold remove_transcript_range in *.
      destruct (Nat.eqb_spec (lt_len b) 0); [lia|]. cbn [fst snd] in *. by destruct (Nat.ltb_spec 0 (lt_len b)); [|lia].
    + pose proof (replace_live_ok _ _ _ _ (tool_summary_line (lt_tool b) result (since finished (lt_started b)) false)
        (tool_summary_line (lt_tool b) result (since finished (lt_started b)) true)
        (take (lt_len b) (drop (lt_start b) (lg_transcript g)) ++ tool_result_detail_lines result) Hok Eb) as Hr.
      unfold replace_with_tool_block in *. cbn [fst snd] in *.
      destruct (Nat.ltb_spec 0 (lt_len b - 1)); [done|]. replace (lt_len b - 1)%nat with 0%nat in * by lia.
      by rewrite shift_live_zero in Hr.
  - destruct (tool_ok result); cbn [fst snd]; [done|]. by apply push_tool_block_ok.
Qed.
Lemma collapse_tool_call_live g live id fallback result finished :
  dom (collapse_tool_call g live id fallback result finished).2 = dom live ∖ {[id]}.
Proof.
  unfold collapse_tool_call, remove_transcript_range, replace_with_tool_block. destruct (live !! id) as [b|] eqn:Eb.
  - repeat case_match; simplify_eq/=; rewrite ?dom_fmap_L, ?dom_delete_L; done.
  - cbn. apply not_elem_of_dom in Eb. set_solver.
Qed.

Lemma collapse_unfinished_ok g live finished :
  view_ok g live ->
  view_ok (collapse_unfinished_tool_calls g live finished).1 (collapse_unfinished_tool_calls g live finished).2
  /\ (collapse_unfinished_tool_calls g live finished).2 = ∅.
Proof.
  intros Hok. unfold collapse_unfinished_tool_calls.
  assert (forall (l : list (str * LiveToolBlock)) g live, view_ok g live ->
    let r := fold_left (fun gl p => collapse_tool_call gl.1 gl.2 p.1 (lit "tool") RInterrupted finished) l (g, live) in
    view_ok r.1 r.2 /\ dom r.2 = dom live ∖ list_to_set l.*1) as Hfold.
  { clear. induction l as [|p l IH]; intros g live Hok; [cbn; split; [done|set_solver]|].
    cbn [fold_left fst snd]. pose proof (collapse_tool_call_live g live p.1 (lit "tool") RInterrupted finished) as Hd.
    pose proof (collapse_tool_call_ok g live p.1 (lit "tool") RInterrupted finished Hok) as Hok'.
    destruct (collapse_tool_call g live p.1 (lit "tool") RInterrupted finished) as [g' live']. cbn [fst snd] in *.
    destruct (IH g' live' Hok') as [H1 H2]. split; [done|]. rewrite H2, Hd. set_solver. }
  destruct (Hfold (merge_sort later_first (map_to_list live)) g live Hok) as [H1 H2]. split; [done|].
  apply dom_empty_inv_L. rewrite H2.
  assert (list_to_set (merge_sort later_first (map_to_list live)).*1 = dom live) as ->; [|set_solver].
  apply leibniz_equiv. rewrite dom_alt. apply list_to_set_perm. by rewrite merge_sort_Permutation.
Qed.

(** *** The answer, clocks and clearing *)

(** Changes that leave rows, blocks and running calls alone. *)
Definition same_layout (g g' : Log) : Prop :=
  lg_transcript g' = lg_transcript g /\ lg_reasoning_blocks g' = lg_reasoning_blocks g /\ lg_tool_blocks g' = lg_tool_blocks g.
Lemma same_layout_ok g g' live : same_layout g g' -> view_ok g live -> view_ok g' live.
Proof.
  intros (E1 & E2 & E3) Hok. unfold view_ok. rewrite E1. eapply layout_sub; [exact Hok|].
  intros [k|k|id] p; cbn; by rewrite ?E2, ?E3.
Qed.
Lemma finish_reasoning_same g now : same_layout g (finish_reasoning g now).
Proof. unfold finish_reasoning. by case_match. Qed.
Lemma note_reasoning_same g now : same_layout g (note_reasoning g now).
Proof. unfold note_reasoning. by case_match. Qed.

Lemma push_answer_ok g live reasoning elapsed text : view_ok g live -> view_ok (push_answer g reasoning elapsed text) live.
Proof.
  intros Hok. unfold push_answer.
  assert (forall g, view_ok g live -> view_ok (if is_nil text then g else push_rows g (parse_assistant_output text)) live) as Ht.
  { intros g0 H0. destruct (is_nil text); [done|]. by apply push_rows_ok. }
  apply Ht. destruct (is_nil reasoning); [done|].
  exact (push_reasoning_ok g live (mk_reasoning (length (lg_transcript g)) (reasoning_body_lines reasoning) elapsed false) _
    Hok eq_refl eq_refl).
Qed.
Lemma flush_text_ok g live now : view_ok g live -> view_ok (flush_text g now) live.
Proof.
  intros Hok. unfold flush_text. destruct (_ && _); [done|]. apply push_answer_ok.
  eapply same_layout_ok; [|exact Hok]. destruct (finish_reasoning_same g now) as (E1 & E2 & E3). by split_and!.
Qed.
Lemma clear_transcript_ok g : view_ok (clear_transcript g) ∅.
Proof. split; [intros [k|k|id] p|intros [k|k|id] c p q _]; cbn; rewrite ?lookup_nil, ?lookup_empty; done. Qed.
Lemma log_new_ok : view_ok log_new ∅.
Proof. exact (clear_transcript_ok log_new). Qed.

(** ** What a click and the end of a call do *)

Lemma toggle_shift_self i expand body : shift_index (toggle_threshold i expand body) (toggle_delta expand body) i = i.
Proof. rewrite toggle_shift. unfold block_len. case_match; [done|]. rewrite Nat.ltb_ge in *. lia. Qed.

Lemma toggle_tool_rows g live k b :
  view_ok g live -> lg_tool_blocks g !! k = Some b ->
  lg_transcript (toggle_tool g k).1
  = splice (lg_transcript g) (tb_index b) (tb_index b + block_len (tb_expanded b) (tb_body b))
      (block_rows (if tb_expanded b then tb_collapsed_line b else tb_expanded_line b) (negb (tb_expanded b)) (tb_body b))
  /\ lg_tool_blocks (toggle_tool g k).1 !! k
     = Some (mk_tool (tb_index b) (tb_body b) (tb_collapsed_line b) (tb_expanded_line b) (negb (tb_expanded b))).
Proof.
  intros [Hfit _] Ek. assert (piece_of g live (BTool k) = Some (tool_piece b)) as Hp by (cbn; by rewrite Ek).
  pose proof (Hfit _ _ Hp) as Hf. pose proof Hf as (_ & Hl & _). unfold tool_piece, shown_piece in Hl. cbn [pc_start pc_len length] in Hl.
  unfold toggle_tool. rewrite Ek. destruct (Nat.leb_spec (length (lg_transcript g)) (tb_index b)); [lia|]. cbn [fst]. split.
  - cbn [moved lg_transcript].
    rewrite (toggle_rows_splice _ _ (if tb_expanded b then tb_expanded_line b else tb_collapsed_line b))
      by (rewrite negb_involutive; exact Hf).
    rewrite negb_involutive. by destruct (tb_expanded b).
  - cbn [moved lg_tool_blocks with_blocks]. rewrite list_lookup_fmap, list_lookup_insert_eq by (by eapply lookup_lt_Some).
    cbn. unfold shift_tool. cbn [tb_index tb_body tb_collapsed_line tb_expanded_line tb_expanded]. do 2 f_equal.
    by apply toggle_shift_self.
Qed.

Lemma take_splice rows a b new : (a <= length rows)%nat -> take a (splice rows a b new) = take a rows.
Proof. intros Hl. unfold splice. rewrite take_app_le by (rewrite length_take; lia). by rewrite take_take, Nat.min_id. Qed.
Lemma drop_splice rows a b new k : (a <= length rows)%nat -> k = (a + length new)%nat -> drop k (splice rows a b new) = drop b rows.
Proof. intros Hl ->. unfold splice. rewrite app_assoc. rewrite drop_app_length' by (rewrite length_app, length_take; lia). done. Qed.
Lemma splice_splice rows a b c new new' :
  (a <= length rows)%nat -> c = (a + length new)%nat -> splice (splice rows a b new) a c new' = splice rows a b new'.
Proof. intros Hl ->. unfold splice at 1. rewrite take_splice by done. by rewrite drop_splice by done. Qed.

(** Two clicks on a retained call leave the transcript as it was. *)
Lemma toggle_tool_twice g k :
  view_ok g ∅ -> lg_transcript (toggle_tool (toggle_tool g k).1 k).1 = lg_transcript g.
Proof.
  intros Hok. destruct (lg_tool_blocks g !! k) as [b|] eqn:Ek; [|unfold toggle_tool; rewrite Ek; cbn; by rewrite Ek].
  destruct (toggle_tool_rows _ _ _ _ Hok Ek) as [E1 E2].
  destruct (toggle_tool_rows _ _ _ _ (toggle_tool_ok _ k Hok) E2) as [E3 _]. rewrite E3, E1.
  cbn [tb_index tb_expanded tb_body tb_collapsed_line tb_expanded_line]. rewrite negb_involutive.
  assert (piece_of g ∅ (BTool k) = Some (tool_piece b)) as Hp by (cbn; by rewrite Ek).
  destruct (proj1 Hok _ _ Hp) as (_ & Hl & Hs). specialize (Hs _ eq_refl).
  unfold tool_piece, shown_piece in *. cbn [pc_start pc_len length] in *.
  rewrite splice_splice; [|lia|by rewrite length_block_rows]. unfold splice, block_rows, block_len.
  rewrite <- (take_drop (tb_index b) (lg_transcript g)) at 3. f_equal.
  rewrite <- (take_drop (S (length (if tb_expanded b then tb_body b else []))) (drop (tb_index b) (lg_transcript g))).
  rewrite Hs, drop_drop. destruct (tb_expanded b); cbn [negb]; done.
Qed.

(** When a call ends, the rows it had go.  A successful call leaves nothing; one
    that failed leaves a single row, and a click on it shows the rows it had
    and the whole result, until the next click. *)
Theorem ended_call g live id fallback result finished b :
  view_ok g live -> live !! id = Some b -> delete id live = ∅ ->
  let rows := lg_transcript g in
  let e := (lt_start b + lt_len b)%nat in
  let elapsed := since finished (lt_started b) in
  let g' := (collapse_tool_call g live id fallback result finished).1 in
  let k := length (lg_tool_blocks g) in
  (collapse_tool_call g live id fallback result finished).2 = ∅
  /\ (tool_ok result = true ->
      lg_transcript g' = splice rows (lt_start b) e [] /\ length (lg_tool_blocks g') = k)
  /\ (tool_ok result = false ->
      lg_transcript g' = splice rows (lt_start b) e [tool_summary_line (lt_tool b) result elapsed false]
      /\ lg_transcript (toggle_tool g' k).1
         = splice rows (lt_start b) e
             (tool_summary_line (lt_tool b) result elapsed true
              :: take (lt_len b) (drop (lt_start b) rows) ++ tool_result_detail_lines result)
      /\ lg_transcript (toggle_tool (toggle_tool g' k).1 k).1 = lg_transcript g').
Proof.
  intros Hok Eb Hd rows e elapsed g' k.
  pose proof (collapse_tool_call_ok g live id fallback result finished Hok) as Hok'.
  destruct (live_block_piece _ _ _ _ Hok Eb) as (Hn & Hl & _).
  assert ((collapse_tool_call g live id fallback result finished).2 = ∅) as Hlive.
  { apply dom_empty_inv_L. rewrite collapse_tool_call_live, <- dom_delete_L, Hd. apply dom_empty_L. }
  rewrite Hlive in Hok'. fold g' in Hok'. split; [done|].
  subst g'. unfold collapse_tool_call, remove_transcript_range in *. rewrite Eb in *.
  destruct (Nat.eqb_spec (lt_len b) 0); [lia|]. destruct (Nat.ltb_spec (length (lg_transcript g)) (lt_start b + lt_len b)); [lia|].
  cbn [orb] in *. split; intros Hr; rewrite Hr in *; cbn [fst] in *.
  - cbn [moved lg_transcript lg_tool_blocks]. by rewrite length_map.
  - unfold replace_with_tool_block in *. cbn [fst] in *. split; [done|].
    match type of Hok' with view_ok ?x _ => set (g1 := x) in * end.
    assert (lg_tool_blocks g1 !! k = Some (mk_tool (lt_start b)
      (take (lt_len b) (drop (lt_start b) (lg_transcript g)) ++ tool_result_detail_lines result)
      (tool_summary_line (lt_tool b) result elapsed false) (tool_summary_line (lt_tool b) result elapsed true) false)) as Ek.
    { subst g1 k. cbn [with_blocks moved lg_tool_blocks]. apply list_lookup_middle. by rewrite length_map. }
    split; [|by apply toggle_tool_twice].
    destruct (toggle_tool_rows _ _ _ _ Hok' Ek) as [E1 _]. rewrite E1.
    cbn [tb_index tb_expanded tb_body tb_collapsed_line tb_expanded_line negb block_len].
    change (lg_transcript g1) with (splice rows (lt_start b) e [tool_summary_line (lt_tool b) result elapsed false]).
    rewrite splice_splice; [done|subst rows; lia|unfold block_len; cbn [length]; lia].
Qed.

End Layout.
