(* ===== verification/TuiApp.v ===== *)
(** The terminal interface as a state machine (src/crates/rc-tui/src/app.rs):
    what every key, paste, mouse event, timer and event of the runtime does to
    the transcript, the composer and the runtime's queue of actions.

    A step is told the time and how many actions the queue has room for.  What
    only the drawing reads (the caret's clock, the notice of a copy) is left
    out.  Times are nanoseconds. *)

From stdpp Require Import sorting.
From S2P Require Import Prelude Utf8 Text PathLib Wire Turn Json AgentBatch RtEvents RtPump Session Config ConfigEdit ConfigSave.
From S2P Require Import Menu TuiComposer TuiView.

(** ** What is made elsewhere *)

Class TuiHost `{JsonApi} `{Screen} := {
  (** diff.rs: the row of an edit, the rows of a changed file, the lines added
      and removed *)
  td_word_diff : str -> str -> Line;
  td_file_rows : str -> option (list Z) -> option (list Z) -> list Line;
  td_line_stats : option (list Z) -> option (list Z) -> Z * Z;
  (** the name of the model, the report on MCP servers, whether the working
      directory is there, and [{:.1}%] of a share *)
  td_model : str;
  td_mcp : option (list str);
  td_cwd_exists : bool;
  td_percent : Z -> Z -> str;
  (** how many bytes of an append reach a file *)
  td_append : str -> list Z -> nat
}.

(** ** State *)

Record PendingAsk `{JsonApi} := mk_ask { pk_id : Z; pk_tool : str; pk_input : Value; pk_reason : str }.
Arguments mk_ask {_} _ _ _ _.
Arguments pk_id {_} _.
Arguments pk_tool {_} _.
Arguments pk_input {_} _.
Arguments pk_reason {_} _.
Record PendingSubmit := mk_pending { ps_text : str; ps_staged : Z }.
Record Scroll := mk_scroll { sr_follow : bool; sr_top : nat; sr_height : nat }.
(** The turn in flight. *)
Record TurnView := mk_turn_view {
  tv_busy : bool;
  tv_started : option Z;
  tv_changes : list (str * (option (list Z) * option (list Z)));   (** first and last content of a path *)
  tv_running : Z;
  tv_tool : option str;
  tv_stream_chars : Z;
  tv_stream_started : option Z
}.
(** Tokens in the status bar; a cache rate goes by the usage it is of. *)
Record Meter := mk_meter { mt_usage : option Usage; mt_tokens : option Z; mt_estimated : bool; mt_rate : option Usage }.
Record Point := mk_point { pt_line : nat; pt_row : Z; pt_column : Z }.
#[export] Instance point_eq_dec : EqDecision Point.
Proof. solve_decision. Defined.
(** The selection, and the rows of the last frame: screen row, line, row of the line. *)
Record Select := mk_select {
  se_screen : option ((Z * Z) * (Z * Z));
  se_history : option (Point * Point);
  se_dragging : bool;
  se_text : option str;
  se_copy : bool;
  se_rows : list (Z * nat * Z)
}.

Section App.
Context `{TuiHost} `{ConfigOs} `{SettingsJson} `{ConfigDisk} `{Listing}.

(** [App] and its [ViewState], with the world: the room in the queue of
    actions, the actions sent, and the files. *)
Record App := mk_app {
  ap_log : Log; ap_live : LiveTools; ap_cp : Composer; ap_scroll : Scroll; ap_turn : TurnView; ap_meter : Meter;
  ap_select : Select; ap_mode : AgentMode; ap_ask : option PendingAsk;
  ap_queued_messages : nat; ap_queued_after_tool : bool; ap_overlay : option MenuState; ap_capture : bool;
  ap_quit : bool; ap_outcome : option MenuOutcome; ap_pending : option PendingSubmit;
  ap_queue : list str; ap_send_after_tool : bool;
  ap_room : nat; ap_sent : list UserAction; ap_files : gmap (list Z) (list Z)
}.

Definition with_log (f : Log -> Log) (a : App) : App :=
  mk_app (f (ap_log a)) (ap_live a) (ap_cp a) (ap_scroll a) (ap_turn a) (ap_meter a) (ap_select a) (ap_mode a) (ap_ask a)
    (ap_queued_messages a) (ap_queued_after_tool a) (ap_overlay a) (ap_capture a) (ap_quit a) (ap_outcome a) (ap_pending a)
    (ap_queue a) (ap_send_after_tool a) (ap_room a) (ap_sent a) (ap_files a).
Definition with_tools (f : Log -> LiveTools -> Log * LiveTools) (a : App) : App :=
  let '(g, live) := f (ap_log a) (ap_live a) in
  mk_app g live (ap_cp a) (ap_scroll a) (ap_turn a) (ap_meter a) (ap_select a) (ap_mode a) (ap_ask a)
    (ap_queued_messages a) (ap_queued_after_tool a) (ap_overlay a) (ap_capture a) (ap_quit a) (ap_outcome a) (ap_pending a)
    (ap_queue a) (ap_send_after_tool a) (ap_room a) (ap_sent a) (ap_files a).
Definition with_cp (f : Composer -> Composer) (a : App) : App :=
  mk_app (ap_log a) (ap_live a) (f (ap_cp a)) (ap_scroll a) (ap_turn a) (ap_meter a) (ap_select a) (ap_mode a) (ap_ask a)
    (ap_queued_messages a) (ap_queued_after_tool a) (ap_overlay a) (ap_capture a) (ap_quit a) (ap_outcome a) (ap_pending a)
    (ap_queue a) (ap_send_after_tool a) (ap_room a) (ap_sent a) (ap_files a).
Definition with_scroll (s : Scroll) (a : App) : App :=
  mk_app (ap_log a) (ap_live a) (ap_cp a) s (ap_turn a) (ap_meter a) (ap_select a) (ap_mode a) (ap_ask a)
    (ap_queued_messages a) (ap_queued_after_tool a) (ap_overlay a) (ap_capture a) (ap_quit a) (ap_outcome a) (ap_pending a)
    (ap_queue a) (ap_send_after_tool a) (ap_room a) (ap_sent a) (ap_files a).
Definition with_turn (f : TurnView -> TurnView) (a : App) : App :=
  mk_app (ap_log a) (ap_live a) (ap_cp a) (ap_scroll a) (f (ap_turn a)) (ap_meter a) (ap_select a) (ap_mode a) (ap_ask a)
    (ap_queued_messages a) (ap_queued_after_tool a) (ap_overlay a) (ap_capture a) (ap_quit a) (ap_outcome a) (ap_pending a)
    (ap_queue a) (ap_send_after_tool a) (ap_room a) (ap_sent a) (ap_files a).
Definition with_meter (m : Meter) (a : App) : App :=
  mk_app (ap_log a) (ap_live a) (ap_cp a) (ap_scroll a) (ap_turn a) m (ap_select a) (ap_mode a) (ap_ask a)
    (ap_queued_messages a) (ap_queued_after_tool a) (ap_overlay a) (ap_capture a) (ap_quit a) (ap_outcome a) (ap_pending a)
    (ap_queue a) (ap_send_after_tool a) (ap_room a) (ap_sent a) (ap_files a).
Definition with_select (f : Select -> Select) (a : App) : App :=
  mk_app (ap_log a) (ap_live a) (ap_cp a) (ap_scroll a) (ap_turn a) (ap_meter a) (f (ap_select a)) (ap_mode a) (ap_ask a)
    (ap_queued_messages a) (ap_queued_after_tool a) (ap_overlay a) (ap_capture a) (ap_quit a) (ap_outcome a) (ap_pending a)
    (ap_queue a) (ap_send_after_tool a) (ap_room a) (ap_sent a) (ap_files a).
Definition with_ap_mode (m : AgentMode) (a : App) : App :=
  mk_app (ap_log a) (ap_live a) (ap_cp a) (ap_scroll a) (ap_turn a) (ap_meter a) (ap_select a) m (ap_ask a)
    (ap_queued_messages a) (ap_queued_after_tool a) (ap_overlay a) (ap_capture a) (ap_quit a) (ap_outcome a) (ap_pending a)
    (ap_queue a) (ap_send_after_tool a) (ap_room a) (ap_sent a) (ap_files a).
Definition with_ask (k : option PendingAsk) (a : App) : App :=
  mk_app (ap_log a) (ap_live a) (ap_cp a) (ap_scroll a) (ap_turn a) (ap_meter a) (ap_select a) (ap_mode a) k
    (ap_queued_messages a) (ap_queued_after_tool a) (ap_overlay a) (ap_capture a) (ap_quit a) (ap_outcome a) (ap_pending a)
    (ap_queue a) (ap_send_after_tool a) (ap_room a) (ap_sent a) (ap_files a).
(** The mirror of the runtime's queue, with its count in the view. *)
Definition with_queue (q : list str) (a : App) : App :=
  mk_app (ap_log a) (ap_live a) (ap_cp a) (ap_scroll a) (ap_turn a) (ap_meter a) (ap_select a) (ap_mode a) (ap_ask a)
    (length q) (ap_queued_after_tool a) (ap_overlay a) (ap_capture a) (ap_quit a) (ap_outcome a) (ap_pending a)
    q (ap_send_after_tool a) (ap_room a) (ap_sent a) (ap_files a).
(** [send_queued_after_tool] and the view's copy of it. *)
Definition with_after_tool (b : bool) (a : App) : App :=
  mk_app (ap_log a) (ap_live a) (ap_cp a) (ap_scroll a) (ap_turn a) (ap_meter a) (ap_select a) (ap_mode a) (ap_ask a)
    (ap_queued_messages a) b (ap_overlay a) (ap_capture a) (ap_quit a) (ap_outcome a) (ap_pending a)
    (ap_queue a) b (ap_room a) (ap_sent a) (ap_files a).
Definition with_overlay (m : option MenuState) (a : App) : App :=
  mk_app (ap_log a) (ap_live a) (ap_cp a) (ap_scroll a) (ap_turn a) (ap_meter a) (ap_select a) (ap_mode a) (ap_ask a)
    (ap_queued_messages a) (ap_queued_after_tool a) m (ap_capture a) (ap_quit a) (ap_outcome a) (ap_pending a)
    (ap_queue a) (ap_send_after_tool a) (ap_room a) (ap_sent a) (ap_files a).
Definition toggle_mouse_capture (a : App) : App :=
  mk_app (ap_log a) (ap_live a) (ap_cp a) (ap_scroll a) (ap_turn a) (ap_meter a) (ap_select a) (ap_mode a) (ap_ask a)
    (ap_queued_messages a) (ap_queued_after_tool a) (ap_overlay a) (negb (ap_capture a)) (ap_quit a) (ap_outcome a) (ap_pending a)
    (ap_queue a) (ap_send_after_tool a) (ap_room a) (ap_sent a) (ap_files a).
Definition with_quit (o : option MenuOutcome) (a : App) : App :=
  mk_app (ap_log a) (ap_live a) (ap_cp a) (ap_scroll a) (ap_turn a) (ap_meter a) (ap_select a) (ap_mode a) (ap_ask a)
    (ap_queued_messages a) (ap_queued_after_tool a) (ap_overlay a) (ap_capture a) true o (ap_pending a)
    (ap_queue a) (ap_send_after_tool a) (ap_room a) (ap_sent a) (ap_files a).
Definition with_pending (s : option PendingSubmit) (a : App) : App :=
  mk_app (ap_log a) (ap_live a) (ap_cp a) (ap_scroll a) (ap_turn a) (ap_meter a) (ap_select a) (ap_mode a) (ap_ask a)
    (ap_queued_messages a) (ap_queued_after_tool a) (ap_overlay a) (ap_capture a) (ap_quit a) (ap_outcome a) s
    (ap_queue a) (ap_send_after_tool a) (ap_room a) (ap_sent a) (ap_files a).
Definition put_world (room : nat) (sent : list UserAction) (files : gmap (list Z) (list Z)) (a : App) : App :=
  mk_app (ap_log a) (ap_live a) (ap_cp a) (ap_scroll a) (ap_turn a) (ap_meter a) (ap_select a) (ap_mode a) (ap_ask a)
    (ap_queued_messages a) (ap_queued_after_tool a) (ap_overlay a) (ap_capture a) (ap_quit a) (ap_outcome a) (ap_pending a)
    (ap_queue a) (ap_send_after_tool a) room sent files.
Definition with_files (fs : gmap (list Z) (list Z)) (a : App) : App := put_world (ap_room a) (ap_sent a) fs a.

(** [Runtime::try_action] and [Runtime::action], which ignores a refusal. *)
Definition try_action (x : UserAction) (a : App) : App * bool :=
  match ap_room a with
  | 0%nat => (a, false)
  | S r => (put_world r (ap_sent a ++ [x]) (ap_files a) a, true)
  end.
Definition send_action (x : UserAction) (a : App) : App := (try_action x a).1.

(** ** Scrolling *)

Definition say_row (text : str) (a : App) : App := with_log (fun g => push_rows g [styled text SChrome]) a.
(** [total_lines] and [current_top] *)
Definition total_lines (a : App) : nat :=
  (length (lg_transcript (ap_log a))
   + (if negb (is_nil (lg_text (ap_log a))) || negb (is_nil (lg_reasoning (ap_log a))) then length (lg_parsed (ap_log a))
      else if tv_busy (ap_turn a) then 1 else 0))%nat.
Definition height (a : App) : nat := Nat.max (sr_height (ap_scroll a)) 1.
Definition current_top (a : App) (total : nat) : nat :=
  if sr_follow (ap_scroll a) then (total - height a)%nat else Nat.min (sr_top (ap_scroll a)) (total - height a).
Definition scroll_to (follow : bool) (top : nat) (a : App) : App := with_scroll (mk_scroll follow top (sr_height (ap_scroll a))) a.
Definition jump_to_bottom (a : App) : App := scroll_to true 0 a.
Definition scroll_up (n : nat) (a : App) : App := scroll_to false (current_top a (total_lines a) - n) a.
Definition scroll_line_up (a : App) : App := scroll_up 1 a.
Definition scroll_page_up (a : App) : App := scroll_up (height a) a.
Definition scroll_down (n : nat) (a : App) : App :=
  if sr_follow (ap_scroll a) then a
  else let new_top := (sr_top (ap_scroll a) + n)%nat in
       if (total_lines a <=? new_top + height a)%nat then jump_to_bottom a else scroll_to false new_top a.
Definition scroll_line_down (a : App) : App := scroll_down 1 a.
Definition scroll_page_down (a : App) : App := scroll_down (height a) a.
Definition clamp (lo hi x : Z) : Z := Z.min (Z.max x lo) hi.
Definition scroll_by (delta : Z) (a : App) : App :=
  let max_top := (total_lines a - height a)%nat in
  let cur := if sr_follow (ap_scroll a) then max_top else Nat.min (sr_top (ap_scroll a)) max_top in
  let new_top := Z.to_nat (clamp 0 (Z.of_nat max_top) (Z.of_nat cur + delta)) in
  if (max_top <=? new_top)%nat then jump_to_bottom a else scroll_to false new_top a.

(** ** The composer *)

Variable cwd : str.

Definition refresh_menu (a : App) : App := with_cp (fun p => refresh_completion p cwd) a.
Definition edit_composer (f : str -> str) (a : App) : App := with_cp (fun p => with_text p (f (cp_text p))) a.
Definition clear_composer_line (a : App) : App := refresh_menu (with_cp (fun p => clear_paste_markers (with_text p [])) a).
Definition delete_word (a : App) : App := refresh_menu (edit_composer delete_last_word (with_cp clear_paste_markers a)).
Definition recall_prev (a : App) : App := refresh_menu (with_cp history_prev a).
Definition recall_next (a : App) : App :=
  match cp_pos (ap_cp a) with None => a | Some _ => refresh_menu (with_cp history_next a) end.

Definition sc_history_path : option str :=
  home ← os_env (lit "HOME"); Some (push_path (push_path home (lit ".sc")) (lit "history.txt")).
(** [append_history]: what reaches the file. *)
Definition append_history (path line : str) (fs : gmap (list Z) (list Z)) : gmap (list Z) (list Z) :=
  let b := utf8 line ++ [10] in
  match td_append path b with
  | 0%nat => fs
  | n => <[path := default [] (fs !! path) ++ take n b]> fs
  end.

(** ** Prompts *)

Definition user_prompt_line (text : str) : Line := styled (lit "  > " ++ text ++ lit "  ") SUserPrompt.
Definition record_prompt (text : str) (a : App) : App :=
  let a := with_log (fun g => push_rows g [user_prompt_line text]) a in
  let a := with_cp (fun p => with_recall (with_history p (push_history (cp_history p) text)) None []) a in
  match sc_history_path with
  | Some path => with_files (append_history path text (ap_files a)) a
  | None => a
  end.
Definition begin_turn_display (now : Z) (a : App) : App :=
  let a := with_turn (fun t => mk_turn_view true (Some now) (tv_changes t) 0 None 0 None) a in
  let a := with_log (fun g => begin_reasoning_phase g now) a in
  with_meter (mk_meter (mt_usage (ap_meter a)) None false None) a.
Definition submit_prompt (now : Z) (text : str) (a : App) : App :=
  match try_action (ASubmit text) a with
  | (a, true) => begin_turn_display now (record_prompt text a)
  | (a, false) => a
  end.
Definition queue_composer (a : App) : App :=
  let text := cp_text (ap_cp a) in
  if is_nil text then a
  else match try_action (AQueue text) a with
       | (a, false) => a
       | (a, true) =>
           let a := with_cp (fun p => with_recall (clear_paste_markers (with_text p [])) None []) a in
           let a := with_queue (ap_queue a ++ [text]) a in
           let count := Z.of_nat (ap_queued_messages a) in
           let a := say_row ([183] ++ lit " queued " ++ show_z count ++ (if count =? 1 then lit " message " else lit " messages ")
                         ++ [8212] ++ lit " Esc sends after the next tool call") a in
           jump_to_bottom (refresh_menu a)
       end.
Definition arm_queued_after_tool (a : App) : App :=
  jump_to_bottom (say_row ([183] ++ lit " queued message will send after the current tool call") (with_after_tool true a)).
Definition cancel_active_turn (a : App) : App := send_action ACancel (with_after_tool false a).

Definition PASTE_RESCUE_WINDOW : Z := 20000000.
(** [resolve_staged_submit]: the composer it leaves, and the prompt to send. *)
Definition resolve_staged_submit (pending : option PendingSubmit) (composer : str) (now : Z) (continuation : bool)
  : str * option str :=
  match pending with
  | None => (composer, None)
  | Some s =>
      if continuation && (since now (ps_staged s) <=? PASTE_RESCUE_WINDOW) then (ps_text s ++ [10] ++ composer, None)
      else (composer, Some (ps_text s))
  end.
Definition resolve_pending_submit (now : Z) (continuation : bool) (a : App) : App :=
  let '(composer, prompt) := resolve_staged_submit (ap_pending a) (cp_text (ap_cp a)) now continuation in
  let a := edit_composer (fun _ => composer) (with_pending None a) in
  match prompt with Some p => submit_prompt now p a | None => a end.
Definition flush_pending_submit_if_due (now : Z) (a : App) : App :=
  match ap_pending a with
  | Some s => if PASTE_RESCUE_WINDOW <=? since now (ps_staged s) then resolve_pending_submit now false a else a
  | None => a
  end.

(** ** Events of the runtime *)

Definition reset_turn (a : App) : App :=
  let a := with_turn (fun _ => mk_turn_view false None [] 0 None 0 None) a in
  with_log (fun g => mk_log (lg_transcript g) (lg_text g) [] [] false None None
              (lg_reasoning_blocks g) (lg_reasoning_hits g) (lg_tool_blocks g) (lg_tool_hits g)) a.
Definition turn_duration_label (elapsed : Z) : str :=
  if elapsed <? 60 * 10 ^ 9 then sc_secs1 elapsed ++ lit "s"
  else let total := elapsed / 10 ^ 9 in
       let s := total mod 60 in
       show_z (total / 60) ++ lit "m " ++ (if s <? 10 then lit "0" else []) ++ show_z s ++ lit "s".
Definition turn_divider_line (duration : str) (added removed : Z) : Line :=
  let rule := [9472; 9472; 9472; 9472; 9472; 9472; 9472; 9472] in
  from_spans ([(SChrome, rule ++ lit " ")]
    ++ (if (added =? 0) && (removed =? 0) then [(SAccentDim, lit "worked for " ++ duration)]
        else [(SAccentDim, lit "worked for " ++ duration ++ lit " " ++ [183] ++ lit " ");
              (SSemantic Green, lit "+" ++ show_z added); (SAccentDim, lit " "); (SSemantic Red, lit "-" ++ show_z removed)])
    ++ [(SChrome, lit " " ++ rule)]).
(** [finish_turn_at] *)
Definition finish_turn (now : Z) (a : App) : App :=
  let elapsed := (fun s => since now s) <$> tv_started (ap_turn a) in
  let total := fold_left (fun t c => let '(x, y) := td_line_stats c.2.1 c.2.2 in (sat_add 64 t.1 x, sat_add 64 t.2 y))
                 (tv_changes (ap_turn a)) (0, 0) in
  let a := reset_turn a in
  match elapsed with
  | None => a
  | Some e =>
      with_log (fun g =>
        let blank := match list.last (lg_transcript g) with Some l => 0 <? sc_line_width l | None => false end in
        push_rows g ((if blank then [blank_line] else []) ++ [turn_divider_line (turn_duration_label e) total.1 total.2])) a
  end.
Definition track_stream (now : Z) (delta : str) (t : TurnView) : TurnView :=
  mk_turn_view (tv_busy t) (tv_started t) (tv_changes t) (tv_running t) (tv_tool t)
    (sat_add 64 (tv_stream_chars t) (length_z delta)) (Some (default now (tv_stream_started t))).
Definition with_running (n : Z) (tool : option str) (t : TurnView) : TurnView :=
  mk_turn_view (tv_busy t) (tv_started t) (tv_changes t) n tool (tv_stream_chars t) (tv_stream_started t).

(** [summarize_args], [truncate] and [edit_args] *)
Definition truncate_text (s : str) (n : nat) : str := if (n <? length s)%nat then take n s ++ lit "..." else s.
Definition get_str (v : Value) (key : str) : option str := x ← j_get v key; j_as_str x.
Definition summarize_args (args : str) : str :=
  let v := default j_null (j_parse args) in
  match get_str v (lit "command") with
  | Some cmd => truncate_text cmd 80
  | None =>
      match (x ← (match j_get v (lit "file_path") with Some x => Some x | None => j_get v (lit "path") end); j_as_str x) with
      | Some p => p
      | None =>
          match get_str v (lit "pattern"), get_str v (lit "msg") with
          | Some q, _ => lit "pattern=" ++ truncate_text q 60
          | None, Some m => m
          | None, None => truncate_text args 80
          end
      end
  end.
Definition edit_args (args : str) : option (str * str * str) :=
  v ← j_parse args; path ← get_str v (lit "file_path"); old ← get_str v (lit "old_string");
  new ← get_str v (lit "new_string"); Some (path, old, new).
Definition tool_start_line (name summary : str) : Line :=
  from_spans [(SChrome, [9656] ++ lit " "); (SBody, name); (SChrome, lit "  " ++ summary)].
Definition tool_start_rows (call : ToolCall) : list Line :=
  tool_start_line (tc_name call) (summarize_args (tc_arguments call))
  :: match edit_args (tc_arguments call) with
     | Some (path, old, new) => [styled (lit "  " ++ [10559] ++ lit " edit " ++ path) SChrome; td_word_diff old new]
     | None => []
     end.

(** [show_artifact] *)
Fixpoint note_change (path : str) (before after : option (list Z)) (l : list (str * (option (list Z) * option (list Z))))
  : list (str * (option (list Z) * option (list Z))) :=
  match l with
  | [] => [(path, (before, after))]
  | c :: l => if same_path c.1 path then (c.1, (c.2.1, after)) :: l else c :: note_change path before after l
  end.
Definition show_artifact (x : Artifact) (a : App) : App :=
  match x with
  | FileChange path before after =>
      let shown := default path (path_strip_prefix path cwd) in
      let a := with_log (fun g => push_rows g (td_file_rows shown before after)) a in
      with_turn (fun t => mk_turn_view (tv_busy t) (tv_started t) (note_change path before after (tv_changes t))
                            (tv_running t) (tv_tool t) (tv_stream_chars t) (tv_stream_started t)) a
  end.

Definition error_block (e : str) : list Line :=
  if negb (bool_decide (10 ∈ e)) && (length e <=? 120)%nat
  then [from_spans [(SSemantic Red, [10007] ++ lit " "); (SChrome, e)]]
  else
    let ls := lines e in
    [styled ([10007] ++ lit " error") (SSemantic Red)]
    ++ map (fun l => styled ([9474] ++ lit " " ++ truncate_text l 120) SChrome) (take 5 ls)
    ++ (if (5 <? length ls)%nat then [styled ([9474] ++ lit " " ++ [8230]) SChrome] else []).
Definition retry_notice_line (retries : Z) : Line :=
  styled ([8635] ++ lit " model request recovered after " ++ show_z retries
          ++ (if retries =? 1 then lit " retry" else lit " retries")) SChrome.

Definition clear_reasoning_clock (g : Log) : Log :=
  mk_log (lg_transcript g) (lg_text g) (lg_reasoning g) (lg_parsed g) (lg_dirty g) None None
    (lg_reasoning_blocks g) (lg_reasoning_hits g) (lg_tool_blocks g) (lg_tool_hits g).
Definition add_text (s : str) (g : Log) : Log :=
  mk_log (lg_transcript g) (lg_text g ++ s) (lg_reasoning g) (lg_parsed g) true (lg_reasoning_started g) (lg_reasoning_elapsed g)
    (lg_reasoning_blocks g) (lg_reasoning_hits g) (lg_tool_blocks g) (lg_tool_hits g).
Definition add_thought (s : str) (g : Log) : Log :=
  mk_log (lg_transcript g) (lg_text g) (lg_reasoning g ++ s) (lg_parsed g) true (lg_reasoning_started g) (lg_reasoning_elapsed g)
    (lg_reasoning_blocks g) (lg_reasoning_hits g) (lg_tool_blocks g) (lg_tool_hits g).

Definition flush_at (now : Z) (a : App) : App := with_log (fun g => flush_text g now) a.
Definition collapse_all (now : Z) (a : App) : App := with_tools (fun g live => collapse_unfinished_tool_calls g live now) a.
Definition less_running (t : TurnView) : Z := Z.max 0 (tv_running t - 1).

Definition on_tool_start (now : Z) (call : ToolCall) (a : App) : App :=
  let a := with_log clear_reasoning_clock (flush_at now a) in
  let a := with_turn (fun t => mk_turn_view (tv_busy t) (tv_started t) (tv_changes t) (tv_running t) (tv_tool t) 0 None) a in
  let a := if bool_decide (is_Some (ap_live a !! tc_id call))
           then with_turn (fun t => with_running (less_running t) (tv_tool t) t)
                  (with_tools (fun g live => collapse_tool_call g live (tc_id call) (tc_name call) RInterrupted now) a)
           else a in
  let rows := tool_start_rows call in
  let a := with_tools (fun g live =>
             (push_rows g rows, <[tc_id call := mk_live (length (lg_transcript g)) (length rows) (tc_name call) now]> live)) a in
  with_turn (fun t => with_running (sat_add 32 (tv_running t) 1) (Some (tc_name call)) t) a.
Definition on_tool_end (now : Z) (id tool : str) (result : ToolResultBody) (a : App) : App :=
  let a := with_tools (fun g live => collapse_tool_call g live id tool result now) (flush_at now a) in
  let n := less_running (ap_turn a) in
  if n =? 0 then
    let a := with_log (fun g => begin_reasoning_phase g now) (with_turn (with_running 0 None) a) in
    if ap_send_after_tool a then send_action ACancel (with_after_tool false a) else a
  else with_turn (fun t => with_running n (tv_tool t) t) a.
(** A queued prompt is shown when its turn starts. *)
Definition on_queued_turn (now : Z) (a : App) : App :=
  if tv_busy (ap_turn a) then a
  else match ap_queue a with
       | [] => a
       | prompt :: q => with_after_tool false (with_queue q (begin_turn_display now (record_prompt prompt a)))
       end.
Definition on_ready (now : Z) (a : App) : App :=
  let a := with_turn (fun t => mk_turn_view true (Some (default now (tv_started t))) (tv_changes t) (tv_running t) (tv_tool t)
                                 (tv_stream_chars t) (tv_stream_started t)) a in
  match lg_reasoning_started (ap_log a) with
  | Some _ => a
  | None => with_log (fun g => begin_reasoning_phase g (default now (tv_started (ap_turn a)))) a
  end.

(** [App::apply] *)
Definition apply_event (now : Z) (ev : AgentEvent) (a : App) : App :=
  match ev with
  | AeText t => with_turn (track_stream now t) (with_log (fun g => add_text t (finish_reasoning g now)) a)
  | AeReasoning r => with_log (fun g => add_thought r (note_reasoning g now)) a
  | AeToolStart call => on_tool_start now call a
  | AeToolEnd id tool result => on_tool_end now id tool result a
  | AeArtifact _ _ x => show_artifact x (flush_at now a)
  | AePermissionAsk id tool input reason => with_ask (Some (mk_ask id tool input reason)) (flush_at now a)
  | AePermissionDecision _ _ => with_ask None a
  | AeIter _ _ => a
  | AeRetry retries => with_log (fun g => push_rows g [retry_notice_line retries]) (flush_at now a)
  | AeUsage u => with_meter (mk_meter (Some u) (Some (prompt_tokens u)) false (Some u)) a
  | AeContext _ est => with_meter (mk_meter (mt_usage (ap_meter a)) (Some est) true None) a
  | AeOutcome _ | AeIdle => finish_turn now (collapse_all now (flush_at now a))
  | AeError e => finish_turn now (with_log (fun g => push_rows g (error_block e)) (collapse_all now (flush_at now a)))
  | AeModeChanged m => with_ap_mode m a
  | AeNotice n => say_row ([183] ++ lit " " ++ n) (flush_at now a)
  | AeReady => on_ready now (on_queued_turn now a)
  end.

(** ** Keys *)

(** Super or Meta count as [md_super]. *)
Record Modifiers := mk_modifiers { md_control : bool; md_alt : bool; md_shift : bool; md_super : bool }.
Record KeyEvent := mk_key { ke_code : KeyCode; ke_mods : Modifiers }.

Inductive EscAction := EscQueueAfterTool | EscCancel | EscRestoreDraft | EscClear | EscQuit.
Definition esc_action (a : App) : EscAction :=
  if tv_busy (ap_turn a) && (0 <? ap_queued_messages a)%nat && negb (ap_queued_after_tool a) then EscQueueAfterTool
  else if tv_busy (ap_turn a) then EscCancel
  else match cp_pos (ap_cp a) with
       | Some _ => EscRestoreDraft
       | None => if is_nil (cp_text (ap_cp a)) then EscQuit else EscClear
       end.

Definition cycle_mode (m : AgentMode) : AgentMode :=
  match m with
  | AmAsk => AmDefault | AmDefault => AmAcceptEdits | AmAcceptEdits => AmPlan | AmPlan => AmAuto | AmAuto => AmAsk
  end.
Definition next_mode (a : App) : App :=
  let m := cycle_mode (ap_mode a) in send_action (ASetMode m) (with_ap_mode m a).

(** [suggested_rule], with the first word of a command. *)
Definition suggested_rule (tool : str) (input : Value) : str :=
  if str_eqb tool (lit "Bash")
  then match get_str input (lit "command") with
       | Some cmd => match words_from cmd [] with
                     | first :: _ => lit "Bash(" ++ first ++ lit ":*)"
                     | [] => tool
                     end
       | None => tool
       end
  else tool.

Definition quit (a : App) : App := with_quit (ap_outcome a) (send_action AQuit a).
Definition leave_with (o : MenuOutcome) (a : App) : App := with_quit (Some o) (send_action AQuit a).

(** The sessions the menu lists, from the files. *)
Variable sessions_of : gmap (list Z) (list Z) -> list SessionInfo.
Definition menu_open (a : App) : MenuState := menu_new (sessions_of (ap_files a)) (ap_files a) cwd.
Definition on_menu_key (key : KeyCode) (a : App) : App :=
  match ap_overlay a with
  | None => a
  | Some m =>
      let '(m, fs, o) := handle_menu_key (sessions_of (ap_files a)) (ap_files a) m cwd key in
      let a := with_files fs (with_overlay m a) in
      match o with Some o => leave_with o a | None => a end
  end.

(** The answer a key gives to a question. *)
Definition ask_response (k : PendingAsk) (key : KeyCode) : option AskResponse :=
  let pressed c := bool_decide (key = KeyChar c) in
  if pressed 121 || pressed 89 then Some Once
  else if pressed 115 || pressed 83 then Some (SessionRule (suggested_rule (pk_tool k) (pk_input k)))
  else if pressed 97 || pressed 65 then Some (Always (suggested_rule (pk_tool k) (pk_input k)))
  else if pressed 110 || pressed 78 then Some (DenyCall (lit "declined"))
  else None.
Definition on_ask_key (k : PendingAsk) (key : KeyCode) (a : App) : App :=
  match key with
  | KeyEsc =>
      match esc_action a with
      | EscQueueAfterTool => send_action (APermissionAnswer (pk_id k) (DenyCall (lit "declined"))) (arm_queued_after_tool (with_ask None a))
      | EscCancel => cancel_active_turn (with_ask None a)
      | _ => a
      end
  | _ =>
      match ask_response k key with
      | Some r => send_action (APermissionAnswer (pk_id k) r) (with_ask None a)
      | None => a
      end
  end.

(** The commands that begin with a slash. *)
Definition wipe (a : App) : App :=
  reset_turn (with_tools (fun g _ =>
    let g := clear_transcript g in
    (mk_log (lg_transcript g) [] (lg_reasoning g) (lg_parsed g) (lg_dirty g) (lg_reasoning_started g) (lg_reasoning_elapsed g)
       (lg_reasoning_blocks g) (lg_reasoning_hits g) (lg_tool_blocks g) (lg_tool_hits g), ∅)) a).
Definition row_text (l : Line) : str := concat (map snd (ln_spans l)).
Definition export (a : App) : App :=
  let path := push_path cwd (lit "sc-export.txt") in
  let body := utf8 (join [10] (map row_text (lg_transcript (ap_log a)))) in
  match os_write path body with
  | WriteDone => say_row (lit "exported transcript " ++ [8594] ++ lit " " ++ path) (with_files (<[path := body]> (ap_files a)) a)
  | WriteRefused e => say_row (lit "export failed: " ++ e) a
  | WriteTorn e n => say_row (lit "export failed: " ++ e) (with_files (<[path := take n body]> (ap_files a)) a)
  end.
(** *** What the commands show *)

Definition name_pair_le (p q : str * str) : Prop := str_le p.1 q.1.
#[local] Instance name_pair_le_dec : RelDecision name_pair_le.
Proof. intros p q. unfold name_pair_le. apply _. Defined.
Definition help_keys : list str :=
  [lit "  @<path>      mention a file (tab completes)";
   lit "  Shift+Tab    cycle permission mode";
   lit "  Tab          queue a draft during an active turn";
   lit "  PgUp/PgDn    scroll the transcript";
   lit "  Alt+" ++ [8593] ++ lit "/" ++ [8595] ++ lit "      recall prompt history";
   lit "  drag         select and copy text on release";
   lit "  drag+wheel   extend selection through history";
   lit "  Ctrl+O       toggle wheel scrolling / native selection";
   lit "  Ctrl+W / U   delete word / clear the line";
   lit "  Esc          stop " ++ [183] ++ lit " send queued after tool " ++ [183] ++ lit " clear " ++ [183] ++ lit " quit";
   lit "  Ctrl+C       quit";
   lit "  exit / quit  quit (shell-style, typed in the composer)";
   lit "  SC_NO_ANIM=1 / NO_COLOR=1 disable motion / color"].
Definition help_rows : list Line :=
  [styled (lit "commands") SAccent]
  ++ map (fun p : str * str => from_spans [(SCode, lit "  " ++ p.1 ++ repeat 32 (16 - length p.1)); (SChrome, p.2)])
       (merge_sort name_pair_le (map (fun p : string * string => (lit p.1, lit p.2)) slash_palette))
  ++ [styled (lit "keys") SAccent] ++ map (fun k => styled k SChrome) help_keys.
(** [push_info] *)
Definition info_rows (heading : string) (ls : list str) : list Line :=
  styled (lit heading) SAccent :: map (fun l => styled l SChrome) ls.
Definition mode_debug (m : AgentMode) : str :=
  match m with
  | AmAsk => lit "Ask" | AmDefault => lit "Default" | AmAcceptEdits => lit "AcceptEdits" | AmPlan => lit "Plan" | AmAuto => lit "Auto"
  end.
(** [cache_hit_rate], as it is shown *)
Definition cache_rate_text (u : Usage) : option str :=
  d ← prompt_tokens_details u;
  if prompt_tokens u =? 0 then None
  else Some (td_percent (Z.min (ptd_cached d) (prompt_tokens u)) (prompt_tokens u)).
Definition cost_lines (a : App) : list str :=
  match mt_usage (ap_meter a) with
  | Some u =>
      [lit "  prompt      " ++ show_z (prompt_tokens u) ++ lit " tok";
       lit "  completion  " ++ show_z (completion_tokens u) ++ lit " tok";
       lit "  total       " ++ show_z (total_tokens u) ++ lit " tok";
       lit "  cache hit   " ++ default (lit "not reported") (cache_rate_text u)]
  | None => [lit "  no usage reported yet"]
  end.
Definition context_lines (a : App) : list str :=
  match mt_tokens (ap_meter a) with
  | Some n => if mt_estimated (ap_meter a) then [lit "  tokens  ~" ++ show_z n ++ lit " (preflight estimate)"]
              else [lit "  tokens  " ++ show_z n ++ lit " (provider reported)"]
  | None => [lit "  no context token count yet"]
  end.
Definition status_lines (a : App) : list str :=
  [lit "  model   " ++ td_model; lit "  mode    " ++ mode_debug (ap_mode a); lit "  cwd     " ++ cwd;
   lit "  busy    " ++ (if tv_busy (ap_turn a) then lit "true" else lit "false");
   lit "  lines   " ++ show_z (length_z (lg_transcript (ap_log a)))].
Definition set_in_env (name : string) : bool := match os_env (lit name) with Some v => negb (is_nil v) | None => false end.
Definition doctor_lines (a : App) : list str :=
  [lit "  model      " ++ td_model;
   lit "  cwd        " ++ cwd ++ lit " (" ++ (if td_cwd_exists then lit "present" else lit "missing") ++ lit ")";
   lit "  term rows  " ++ show_z (Z.of_nat (sr_height (ap_scroll a)));
   lit "  color      " ++ (if set_in_env "NO_COLOR" then lit "off (NO_COLOR)" else lit "on");
   lit "  motion     " ++ (if set_in_env "SC_NO_ANIM" then lit "off (SC_NO_ANIM)" else lit "on")].
(** [memory_status_lines]: the files that are there and are not blank. *)
Definition memory_status_lines (a : App) : list str :=
  let in_sc d := push_path (push_path d (lit ".sc")) (lit "AGENTS.md") in
  let candidates := match os_env (lit "HOME") with Some home => [in_sc home] | None => [] end
                    ++ [in_sc cwd; push_path cwd (lit "AGENTS.md")] in
  let has_text path := match (b ← ap_files a !! path; from_utf8 b) with Some t => negb (is_nil (trim t)) | None => false end in
  match map (fun path => lit "  loaded  " ++ path) (List.filter has_text candidates) with
  | [] => [lit "  no non-empty AGENTS.md files loaded"]
  | ls => ls
  end.
Definition shown_by (x : SlashAction) (a : App) : list Line :=
  match x with
  | SlHelp => help_rows
  | SlCost => info_rows "usage" (cost_lines a)
  | SlContext => info_rows "context" (context_lines a)
  | SlStatus => info_rows "status" (status_lines a)
  | SlModel => [styled (lit "model: " ++ td_model) SChrome]
  | SlMcp => info_rows "mcp" (default [lit "  no MCP servers configured"] td_mcp)
  | SlPermissions =>
      info_rows "permissions"
        [lit "  mode   " ++ mode_debug (ap_mode a); lit "  rules  per-tool allow/deny are set at startup;";
         lit "         /mode or Shift+Tab cycles the mode."]
  | SlDoctor => info_rows "doctor" (doctor_lines a)
  | SlHistory =>
      [styled (lit "history: " ++ show_z (length_z (lg_transcript (ap_log a))) ++ lit " transcript lines this session") SChrome]
  | SlMemory => info_rows "memory" (memory_status_lines a)
  | SlTerminalSetup =>
      info_rows "terminal setup"
        [lit "  bind Shift+Enter to send a newline / CSI-u sequence";
         lit "  marathon accepts bracketed paste and ordinary Enter submits"]
  | _ => []
  end.

Definition run_slash (now : Z) (x : SlashAction) (a : App) : App :=
  match x with
  | SlMenu => with_overlay (Some (menu_open a)) a
  | SlResume =>
      let m := menu_open a in
      let page := match menu_project m cwd with Some _ => PSessions cwd | None => PProjects end in
      with_overlay (Some (menu_goto m page)) a
  | SlLogin => with_overlay (Some (begin_api_key_edit (menu_open a))) a
  | SlClear => wipe a
  | SlCompact => send_action ACompact (wipe a)
  | SlShowGoal => send_action AShowGoal a
  | SlSetGoal goal => send_action (ASetGoal (Some goal)) a
  | SlClearGoal => send_action (ASetGoal None) a
  | SlLoop direction => submit_prompt now (loop_prompt direction) a
  | SlCycleMode => next_mode a
  | SlRewind steps => send_action (ARewind steps) a
  | SlSelectMode => toggle_mouse_capture a
  | SlExport => export a
  | SlQuit => quit a
  | SlPrompt text => submit_prompt now text a
  | SlHelp | SlCost | SlContext | SlStatus | SlModel | SlPermissions | SlMcp | SlDoctor | SlHistory | SlMemory | SlTerminalSetup =>
      with_log (fun g => push_rows g (shown_by x a)) a
  end.

Definition on_enter (now : Z) (a : App) : App :=
  let text := cp_text (ap_cp a) in
  if tv_busy (ap_turn a)
  then if is_nil text then a
       else jump_to_bottom (say_row ([183] ++ lit " turn still running; draft kept in the composer") a)
  else if is_nil text then a
  else
    let a := with_cp (fun p => clear_paste_markers (with_text p [])) a in
    let a := if is_quit_word text then quit a
             else match classify_slash text with
                  | Some x => run_slash now x a
                  | None => with_pending (Some (mk_pending text now)) a
                  end in
    jump_to_bottom (refresh_menu a).
Definition on_esc (a : App) : App :=
  match esc_action a with
  | EscQueueAfterTool => arm_queued_after_tool a
  | EscCancel => cancel_active_turn a
  | EscRestoreDraft =>
      refresh_menu (with_cp (fun p => with_recall (clear_paste_markers (with_text p (cp_draft p))) None []) a)
  | EscClear => clear_composer_line a
  | EscQuit => quit a
  end.
Definition on_ctrl (c : char) (a : App) : App :=
  if (c =? 119) || (c =? 87) then delete_word a
  else if (c =? 111) || (c =? 79) then toggle_mouse_capture a
  else if (c =? 117) || (c =? 85) then clear_composer_line a
  else a.
(** The keymap below the overlays. *)
Definition on_plain_key (now : Z) (key : KeyEvent) (a : App) : App :=
  let md := ke_mods key in
  match ke_code key with
  | KeyEnter => on_enter now a
  | KeyEsc => on_esc a
  | KeyTab => if tv_busy (ap_turn a) then queue_composer a else a
  | KeyBackTab => next_mode a
  | KeyPageUp => scroll_page_up a
  | KeyPageDown => scroll_page_down a
  | KeyUp => if md_alt md then recall_prev a else scroll_line_up a
  | KeyDown => if md_alt md then recall_next a else scroll_line_down a
  | KeyHome => scroll_to false 0 a
  | KeyEnd => jump_to_bottom a
  | KeyChar c => if md_control md then on_ctrl c a else refresh_menu (edit_composer (fun s => s ++ [c]) a)
  | KeyBackspace =>
      if md_super md then clear_composer_line a
      else if md_alt md then delete_word a
      else refresh_menu (edit_composer (fun s => take (length s - 1) s) (with_cp clear_paste_markers a))
  | _ => a
  end.

(** The open completion menu takes some keys; the others go on. *)
Definition accept (m : CompletionMenu) (a : App) : App :=
  match apply_completion (cp_text (ap_cp a)) (cm_completion m) (cm_selected m) with
  | Some s => with_cp (fun p => with_text (clear_paste_markers p) s) a
  | None => a
  end.
Definition on_completion_key (key : KeyCode) (m : CompletionMenu) (a : App) : App * bool :=
  let a := with_cp (fun p => with_menu p None) a in
  let show i := with_cp (fun p => with_menu p (Some (mk_completion_menu (cm_completion m) i))) a in
  match key with
  | KeyTab => (refresh_menu (accept m a), false)
  | KeyEnter => (accept m a, bool_decide (co_kind (cm_completion m) = MkSlash))
  | KeyEsc => (a, false)
  | KeyUp => (show (cm_selected m - 1)%nat, false)
  | KeyDown => (show (Nat.min (S (cm_selected m)) (length (co_candidates (cm_completion m)) - 1)), false)
  | _ => (a, true)
  end.

Definition clear_selection (a : App) : App :=
  with_select (fun s => mk_select None None false None (se_copy s) (se_rows s)) a.
Definition continues_paste (key : KeyEvent) : bool :=
  negb (md_control (ke_mods key) || md_alt (ke_mods key) || md_super (ke_mods key))
  && match ke_code key with KeyChar _ | KeyEnter => true | _ => false end.

Definition handle_key (now : Z) (key : KeyEvent) (a : App) : App :=
  let a := clear_selection a in
  if md_control (ke_mods key) && bool_decide (ke_code key = KeyChar 99) then quit a
  else
    let a := resolve_pending_submit now (continues_paste key) a in
    match ap_overlay a with
    | Some _ => on_menu_key (ke_code key) a
    | None =>
        match ap_ask a with
        | Some k => on_ask_key k (ke_code key) a
        | None =>
            match cp_menu (ap_cp a) with
            | Some m => let '(a, on) := on_completion_key (ke_code key) m a in if on then on_plain_key now key a else a
            | None => on_plain_key now key a
            end
        end
    end.

(** [handle_paste] *)
Definition handle_paste (now : Z) (text : str) (a : App) : App :=
  let a := resolve_pending_submit now true a in
  match (match ap_overlay a with Some m => Some (menu_paste m text) | None => None end) with
  | Some (m, true) => with_overlay (Some m) a
  | o =>
      let a := match o with
               | Some _ => say_row ([183] ++ lit " paste saved in the composer; menu closed") (with_overlay None a)
               | None => a
               end in
      let a := match ap_ask a with
               | Some _ => say_row ([183] ++ lit " paste saved in the composer; answer the permission prompt to continue") a
               | None => a
               end in
      let '(p, n) := append_paste (ap_cp a) text in
      let a := with_cp (fun _ => p) a in
      if (n =? 0)%nat then a else refresh_menu (with_cp (fun p => with_recall p None (cp_draft p)) a)
  end.

(** ** The mouse *)

Inductive MouseEvent := MouseScrollUp | MouseScrollDown | MouseDown (column row : Z) | MouseDrag (column row : Z) | MouseUp (column row : Z).

Definition transcript_point_at (s : Select) (column row : Z) : option Point :=
  r ← List.find (fun r => r.1.1 =? row) (se_rows s); Some (mk_point r.1.2 r.2 column).
Definition with_history_head (head : Point) (s : Select) : Select :=
  match se_history s with
  | Some (anchor, _) => mk_select (se_screen s) (Some (anchor, head)) (se_dragging s) (se_text s) (se_copy s) (se_rows s)
  | None => s
  end.
(** [extend_transcript_selection_to_viewport_edge] *)
Definition extend_to_edge (upper : bool) (a : App) : App :=
  let total := total_lines a in
  if (total =? 0)%nat then a
  else
    let top := current_top a total in
    let line := if upper then top else Nat.min (top + (sr_height (ap_scroll a) - 1)) (total - 1) in
    with_select (with_history_head (mk_point line (if upper then 0 else umax 64) (if upper then 0 else umax 16))) a.
Definition on_wheel (upper : bool) (a : App) : App :=
  let kept := bool_decide (is_Some (se_history (ap_select a))) in
  let a := if kept then a else clear_selection a in
  let a := scroll_by (if upper then -1 else 1) a in
  if kept && se_dragging (ap_select a) then extend_to_edge upper a else a.
(** [toggle_expandable_at]: not while a call is running. *)
Definition toggle_expandable_at (column row : Z) (a : App) : App :=
  if bool_decide (ap_live a = ∅) then
    let top_before := current_top a (total_lines a) in
    match toggle_reasoning_at (ap_log a) column row with
    | (g, Some _) => scroll_to false top_before (with_log (fun _ => g) a)
    | (_, None) =>
        match toggle_tool_at (ap_log a) column row with
        | (g, Some i) => scroll_to false i (with_log (fun _ => g) a)
        | (_, None) => a
        end
    end
  else a.
Definition moved_point {A} `{EqDecision A} (sel : option (A * A)) : bool :=
  match sel with Some (anchor, head) => negb (bool_decide (anchor = head)) | None => false end.
Definition handle_mouse (ev : MouseEvent) (a : App) : App :=
  match ev with
  | MouseScrollUp => on_wheel true a
  | MouseScrollDown => on_wheel false a
  | MouseDown column row =>
      let a := clear_selection a in
      with_select (fun s =>
        match transcript_point_at s column row with
        | Some p => mk_select (se_screen s) (Some (p, p)) true (se_text s) (se_copy s) (se_rows s)
        | None => mk_select (Some ((column, row), (column, row))) (se_history s) true (se_text s) (se_copy s) (se_rows s)
        end) a
  | MouseDrag column row =>
      with_select (fun s =>
        match transcript_point_at s column row, se_history s with
        | Some p, Some _ => with_history_head p s
        | _, _ =>
            match se_screen s with
            | Some (anchor, _) => mk_select (Some (anchor, (column, row))) (se_history s) (se_dragging s) (se_text s) (se_copy s) (se_rows s)
            | None => s
            end
        end) a
  | MouseUp column row =>
      let a := with_select (fun s =>
        let s := match transcript_point_at s column row with Some p => with_history_head p s | None => s end in
        mk_select (se_screen s) (se_history s) false (se_text s) (se_copy s) (se_rows s)) a in
      if moved_point (se_history (ap_select a)) || moved_point (se_screen (ap_select a))
      then with_select (fun s => mk_select (se_screen s) (se_history s) (se_dragging s) (se_text s) true (se_rows s)) a
      else toggle_expandable_at column row (clear_selection a)
  end.

(** ** The loop *)

(** What a frame leaves for the next input: the rows of the answer so far, the
    click targets, the size and the selected text. *)
Record ScreenFrame := mk_frame {
  fr_parsed : list Line; fr_reasoning_hits : list Hitbox; fr_tool_hits : list Hitbox;
  fr_height : nat; fr_text : option str; fr_rows : list (Z * nat * Z)
}.
Definition frame_shown (f : ScreenFrame) (g : Log) : Log :=
  mk_log (lg_transcript g) (lg_text g) (lg_reasoning g) (fr_parsed f) false (lg_reasoning_started g) (lg_reasoning_elapsed g)
    (lg_reasoning_blocks g) (fr_reasoning_hits f) (lg_tool_blocks g) (fr_tool_hits f).
Definition behind_menu (g : Log) : Log :=
  mk_log (lg_transcript g) (lg_text g) (lg_reasoning g) (lg_parsed g) (lg_dirty g) (lg_reasoning_started g) (lg_reasoning_elapsed g)
    (lg_reasoning_blocks g) [] (lg_tool_blocks g) [].
Definition draw (f : ScreenFrame) (a : App) : App :=
  match ap_overlay a with
  | Some _ => with_select (fun s => mk_select None None (se_dragging s) None (se_copy s) []) (with_log behind_menu a)
  | None =>
      let a := with_log (frame_shown f) a in
      let a := with_scroll (mk_scroll (sr_follow (ap_scroll a)) (sr_top (ap_scroll a)) (fr_height f)) a in
      with_select (fun s => mk_select (se_screen s) (se_history s) (se_dragging s) (fr_text f) (se_copy s) (fr_rows f)) a
  end.
(** [flush_copy] *)
Definition flush_copy (a : App) : App :=
  with_select (fun s => mk_select (se_screen s) (se_history s) (se_dragging s) (se_text s) false (se_rows s)) a.

Inductive Input :=
| InEvent (e : AgentEvent)
| InLagged (n : Z)
| InTick
| InFrame (f : ScreenFrame)
| InKey (k : KeyEvent)
| InPaste (text : str)
| InMouse (m : MouseEvent).
(** One input at a time [now], the queue of actions having room for [room]. *)
Definition tui_step (now : Z) (room : nat) (i : Input) (a : App) : App :=
  let a := put_world room (ap_sent a) (ap_files a) a in
  match i with
  | InEvent e => apply_event now e a
  | InLagged n => with_log (fun g => push_rows g [styled (lit "[stream lagged " ++ show_z n ++ lit "; oldest deltas lost]") SPlain]) a
  | InTick => flush_pending_submit_if_due now a
  | InFrame f => flush_copy (draw f a)
  | InKey k => handle_key now k a
  | InPaste text => handle_paste now text a
  | InMouse m => handle_mouse m a
  end.
Definition tui_run (inputs : list (Z * nat * Input)) (a : App) : App :=
  fold_left (fun a i => tui_step i.1.1 i.1.2 i.2 a) inputs a.

(** ** The beginning *)

(** [restore_history]: the turns of a resumed session. *)
Record Restored := mk_restored { re_log : Log; re_calls : gmap (list Z) ToolCall; re_meter : Meter }.
Definition restore_turn (r : Restored) (t : Turn) : Restored :=
  let g := re_log r in
  match t with
  | TUser content _ => mk_restored (push_rows g [user_prompt_line content]) (re_calls r) (re_meter r)
  | TAssistant text reasoning calls usage _ _ =>
      mk_restored (restore_assistant_turn g reasoning text)
        (fold_left (fun m c => <[tc_id c := c]> m) calls (re_calls r))
        (match usage with Some u => mk_meter (Some u) (Some (prompt_tokens u)) false (Some u) | None => re_meter r end)
  | TToolResult id tool result duration =>
      let call := re_calls r !! id in
      let calls := delete id (re_calls r) in
      if tool_ok result then mk_restored g calls (re_meter r)
      else
        let name := match call with Some c => if is_nil (trim (tc_name c)) then tool else tc_name c | None => tool end in
        let start := match call with
                     | Some c => tool_start_line name (summarize_args (tc_arguments c))
                                 :: match edit_args (tc_arguments c) with
                                    | Some (path, old, new) => [styled (lit "  " ++ [10559] ++ lit " edit " ++ path) SChrome; td_word_diff old new]
                                    | None => []
                                    end
                     | None => []
                     end in
        mk_restored
          (push_tool_block g (tool_summary_line name result duration false) (tool_summary_line name result duration true)
             (start ++ tool_result_detail_lines result)) calls (re_meter r)
  | TSystemNote kind text =>
      mk_restored (if bool_decide (kind = NModeChange) then g else push_rows g [styled ([183] ++ lit " " ++ text) SChrome])
        (re_calls r) (re_meter r)
  | TError message _ _ _ _ _ => mk_restored (push_rows g (error_block message)) (re_calls r) (re_meter r)
  | TCancelled _ => mk_restored (push_rows g [styled ([183] ++ lit " cancelled") SChrome]) (re_calls r) (re_meter r)
  end.
Definition restore_history (turns : list Turn) : Restored :=
  fold_left restore_turn turns (mk_restored log_new ∅ (mk_meter None None false None)).
(** [App::new] and the mode and mouse that [run] sets. *)
Definition app_new (turns : list Turn) (mode : AgentMode) (mouse : bool) (fs : gmap (list Z) (list Z)) : App :=
  let r := restore_history turns in
  let history := match sc_history_path with
                 | Some path => match fs !! path with
                                | Some b => match from_utf8 b with Some s => load_history s | None => [] end
                                | None => []
                                end
                 | None => []
                 end in
  mk_app (re_log r) ∅ (mk_composer [] [] history None [] None) (mk_scroll true 0 0)
    (mk_turn_view false None [] 0 None 0 None) (re_meter r) (mk_select None None false None false []) mode None
    0 false None mouse false None None [] false 0 [] fs.

End App.
