(* ===== verification/TuiSafe.v ===== *)
(** The terminal interface over every sequence of inputs (TuiApp.v): its
    transcript never shows a row of one block as another's, and a question is
    answered by the keys for it only. *)

From S2P Require Import Prelude Utf8 Text PathLib Wire Turn Json AgentBatch RtEvents RtPump Session Config ConfigEdit ConfigSave.
From S2P Require Import Menu TuiComposer TuiView TuiApp.

Create HintDb tui.

Section Safe.
Context `{TuiHost} `{ConfigOs} `{SettingsJson} `{ConfigDisk} `{Listing}.
Variable cwd : str.
Variable sessions_of : gmap (list Z) (list Z) -> list SessionInfo.

(** ** What every step keeps *)

Definition is_answer (x : UserAction) : bool := match x with APermissionAnswer _ _ => true | _ => false end.

(** A property of the state that the elementary changes keep: those of the
    other fields, of the log, of the running calls, and the actions that are
    not answers to a question. *)
Class Kept (Q : App -> Prop) := {
  k_fields a a' : ap_log a' = ap_log a -> ap_live a' = ap_live a -> ap_sent a' = ap_sent a -> Q a -> Q a';
  k_log f a : (forall g live, view_ok g live -> view_ok (f g) live) -> Q a -> Q (with_log f a);
  k_tools f a :
    (forall g live, view_ok g live -> view_ok (f g live).1 (f g live).2) -> Q a -> Q (with_tools f a);
  k_start id rows tool now a :
    ap_live a !! id = None -> rows <> [] -> Q a ->
    Q (with_tools (fun g live => (push_rows g rows, <[id := mk_live (length (lg_transcript g)) (length rows) tool now]> live)) a);
  k_toggle g a : ap_live a = ∅ -> (view_ok (ap_log a) ∅ -> view_ok g ∅) -> Q a -> Q (with_log (fun _ => g) a);
  k_send x a : is_answer x = false -> Q a -> Q (send_action x a)
}.

Section Kept.
Context (Q : App -> Prop) `{!Kept Q}.

Lemma ok_log f a : (forall g live, view_ok g live -> view_ok (f g) live) -> Q a -> Q (with_log f a).
Proof. apply k_log. Qed.
Lemma ok_push rows a : Q a -> Q (with_log (fun g => push_rows g rows) a).
Proof. apply k_log. intros g live. apply push_rows_ok. Qed.
Lemma ok_send x a : is_answer x = false -> Q a -> Q (send_action x a).
Proof. apply k_send. Qed.
Lemma ok_try x a : is_answer x = false -> Q a -> Q (try_action x a).1.
Proof. apply k_send. Qed.
#[local] Hint Resolve ok_push ok_send : tui.
#[local] Hint Extern 0 (is_answer _ = false) => reflexivity : tui.

(** A change of another field. *)
Ltac same := apply k_fields; reflexivity.
Lemma ok_world r f a : Q a -> Q (put_world r (ap_sent a) f a). Proof. same. Qed.
Lemma ok_files f a : Q a -> Q (with_files f a). Proof. same. Qed.
Lemma ok_cp f a : Q a -> Q (with_cp f a). Proof. same. Qed.
Lemma ok_scroll f a : Q a -> Q (with_scroll f a). Proof. same. Qed.
Lemma ok_turn f a : Q a -> Q (with_turn f a). Proof. same. Qed.
Lemma ok_meter f a : Q a -> Q (with_meter f a). Proof. same. Qed.
Lemma ok_select f a : Q a -> Q (with_select f a). Proof. same. Qed.
Lemma ok_mode f a : Q a -> Q (with_ap_mode f a). Proof. same. Qed.
Lemma ok_ask f a : Q a -> Q (with_ask f a). Proof. same. Qed.
Lemma ok_queue f a : Q a -> Q (with_queue f a). Proof. same. Qed.
Lemma ok_after f a : Q a -> Q (with_after_tool f a). Proof. same. Qed.
Lemma ok_overlay f a : Q a -> Q (with_overlay f a). Proof. same. Qed.
Lemma ok_quit f a : Q a -> Q (with_quit f a). Proof. same. Qed.
Lemma ok_pending f a : Q a -> Q (with_pending f a). Proof. same. Qed.
Lemma ok_capture a : Q a -> Q (toggle_mouse_capture a). Proof. same. Qed.
Lemma ok_clock f a : (forall g, same_layout g (f g)) -> Q a -> Q (with_log f a).
Proof. intros Hf. apply k_log. intros g live Hg. by eapply same_layout_ok. Qed.
#[local] Hint Resolve ok_world ok_files ok_cp ok_scroll ok_turn ok_meter ok_select ok_mode ok_ask ok_queue ok_after ok_overlay
  ok_quit ok_pending ok_capture : tui.

Lemma ok_say s a : Q a -> Q (say_row s a). Proof. apply ok_push. Qed.
Lemma ok_jump a : Q a -> Q (jump_to_bottom a). Proof. same. Qed.
Lemma ok_refresh a : Q a -> Q (refresh_menu cwd a). Proof. same. Qed.
Lemma ok_scroll_to f t a : Q a -> Q (scroll_to f t a). Proof. same. Qed.
#[local] Hint Resolve ok_say ok_jump ok_refresh ok_scroll_to : tui.

Lemma ok_submit now text a : Q a -> Q (submit_prompt now text a).
Proof.
  intros Ha. unfold submit_prompt. pose proof (ok_try (ASubmit text) a eq_refl Ha) as Ht.
  destruct (try_action (ASubmit text) a) as [a' [|]]; [|done]. cbn [fst] in Ht.
  unfold begin_turn_display, record_prompt. apply ok_meter, ok_clock; [done|]. apply ok_turn.
  destruct sc_history_path; eauto with tui.
Qed.
Lemma ok_record text a : Q a -> Q (record_prompt text a).
Proof. intros Ha. unfold record_prompt. destruct sc_history_path; eauto with tui. Qed.
Lemma ok_begin now a : Q a -> Q (begin_turn_display now a).
Proof. intros Ha. unfold begin_turn_display. apply ok_meter, ok_clock; [done|eauto with tui]. Qed.
Lemma ok_queue_composer a : Q a -> Q (queue_composer cwd a).
Proof.
  intros Ha. unfold queue_composer. destruct (is_nil _); [done|]. pose proof (ok_try (AQueue (cp_text (ap_cp a))) a eq_refl Ha) as Ht.
  destruct (try_action _ a) as [a' [|]]; cbn [fst] in Ht; eauto 10 with tui.
Qed.
Lemma ok_resolve now c a : Q a -> Q (resolve_pending_submit now c a).
Proof.
  intros Ha. unfold resolve_pending_submit. destruct (resolve_staged_submit _ _ _ _) as [s [p|]]; [apply ok_submit|]; unfold edit_composer; eauto with tui.
Qed.
#[local] Hint Resolve ok_submit ok_record ok_begin ok_queue_composer ok_resolve : tui.

Lemma ok_reset a : Q a -> Q (reset_turn a).
Proof. intros Ha. unfold reset_turn. apply ok_clock; [done|]. by apply ok_turn. Qed.
Lemma ok_finish now a : Q a -> Q (finish_turn now a).
Proof.
  intros Ha. unfold finish_turn. pose proof (ok_reset a Ha). destruct (_ <$> _); [|done].
  by apply ok_push.
Qed.
Lemma ok_flush now a : Q a -> Q (flush_at now a).
Proof. apply k_log. intros g live. apply flush_text_ok. Qed.
Lemma ok_collapse_all now a : Q a -> Q (collapse_all now a).
Proof. apply k_tools. intros g live Hg. by apply collapse_unfinished_ok. Qed.
Lemma ok_collapse id tool result now a :
  Q a -> Q (with_tools (fun g live => collapse_tool_call g live id tool result now) a).
Proof. apply k_tools. intros g live. apply collapse_tool_call_ok. Qed.
#[local] Hint Resolve ok_reset ok_finish ok_flush ok_collapse_all ok_collapse : tui.

(** A call gets rows of its own; its id is free, or was freed. *)
Lemma ok_tool_start now call a : Q a -> Q (on_tool_start now call a).
Proof.
  intros Ha. unfold on_tool_start.
  set (a1 := with_turn _ (with_log clear_reasoning_clock (flush_at now a))).
  assert (Q a1) as Ha1 by (apply ok_turn, ok_clock; [done|by apply ok_flush]). clearbody a1.
  set (a2 := if bool_decide _ then _ else _). apply ok_turn.
  assert (Q a2 /\ ap_live a2 !! tc_id call = None) as [Ha2 Hid].
  { subst a2. case_bool_decide as E; [|split; [done|by apply eq_None_not_Some]]. split; [by apply ok_turn, ok_collapse|].
    apply not_elem_of_dom. unfold with_turn, with_tools.
    pose proof (collapse_tool_call_live (ap_log a1) (ap_live a1) (tc_id call) (tc_name call) RInterrupted now) as Hd.
    destruct (collapse_tool_call _ _ _ _ _ _) as [g live]. cbn in *. rewrite Hd. set_solver. }
  clearbody a2. by apply k_start.
Qed.
Lemma ok_tool_end now id tool result a : Q a -> Q (on_tool_end now id tool result a).
Proof.
  intros Ha. unfold on_tool_end. pose proof (ok_collapse id tool result now _ (ok_flush now a Ha)) as Hc.
  destruct (_ =? 0); [|by apply ok_turn].
  assert (Q (with_log (fun g => begin_reasoning_phase g now)
    (with_turn (with_running 0 None) (with_tools (fun g live => collapse_tool_call g live id tool result now) (flush_at now a))))) as Hd
    by (apply ok_clock; [done|by apply ok_turn]).
  case_match; [|done]. by apply ok_send, ok_after.
Qed.
Lemma ok_artifact x a : Q a -> Q (show_artifact cwd x a).
Proof. intros Ha. destruct x. unfold show_artifact. by apply ok_turn, ok_push. Qed.
#[local] Hint Resolve ok_tool_start ok_tool_end ok_artifact : tui.

Lemma ok_event now e a : Q a -> Q (apply_event cwd now e a).
Proof.
  intros Ha. destruct e; cbn [apply_event]; eauto 10 with tui.
  - apply ok_turn, ok_clock; [|done]. intros g. unfold add_text. destruct (finish_reasoning_same g now) as (E1 & E2 & E3). by split_and!.
  - apply ok_clock; [|done]. intros g. unfold add_thought. destruct (note_reasoning_same g now) as (E1 & E2 & E3). by split_and!.
  - assert (Q (on_queued_turn now a)) as Hq by (unfold on_queued_turn; repeat case_match; eauto 10 with tui).
    unfold on_ready. assert (Q (with_turn (fun t => mk_turn_view true (Some (default now (tv_started t))) (tv_changes t)
      (tv_running t) (tv_tool t) (tv_stream_chars t) (tv_stream_started t)) (on_queued_turn now a))) as Ht by by apply ok_turn.
    case_match; [done|]. by apply ok_clock.
Qed.

Lemma ok_wipe a : Q a -> Q (wipe a).
Proof. intros Ha. unfold wipe. apply ok_reset, k_tools; [|done]. intros g live _. exact (clear_transcript_ok g). Qed.
Lemma ok_slash now x a : Q a -> Q (run_slash cwd sessions_of now x a).
Proof.
  intros Ha. pose proof (ok_wipe a Ha). destruct x; cbn [run_slash]; unfold next_mode, quit, export; eauto 10 with tui.
  case_match; eauto 10 with tui.
Qed.
#[local] Hint Resolve ok_event ok_wipe ok_slash : tui.

Lemma ok_menu_key key a : Q a -> Q (on_menu_key cwd sessions_of key a).
Proof.
  intros Ha. unfold on_menu_key, leave_with. destruct (ap_overlay a); [|done].
  destruct (handle_menu_key _ _ _ _ _) as [[m' fs] [o|]]; eauto 10 with tui.
Qed.
(** The answer that a key gives to a question. *)
Definition answers (k : PendingAsk) (key : KeyCode) (r : AskResponse) : Prop :=
  ask_response k key = Some r \/ (key = KeyEsc /\ r = DenyCall (lit "declined")).
Lemma ok_ask_key k key a :
  (forall r b, answers k key r -> Q b -> Q (send_action (APermissionAnswer (pk_id k) r) b)) ->
  Q a -> Q (on_ask_key k key a).
Proof.
  intros Hr Ha. unfold on_ask_key, arm_queued_after_tool, cancel_active_turn.
  assert (Q match ask_response k key with
            | Some r => send_action (APermissionAnswer (pk_id k) r) (with_ask None a)
            | None => a
            end) as Hresp.
  { destruct (ask_response k key) eqn:E; [|done]. apply Hr; [by left|by apply ok_ask]. }
  destruct key; try exact Hresp. destruct (esc_action a); try done; [|eauto 10 with tui].
  apply Hr; [by right|eauto 10 with tui].
Qed.
Lemma ok_enter now a : Q a -> Q (on_enter cwd sessions_of now a).
Proof. intros Ha. unfold on_enter, quit. repeat case_match; eauto 10 with tui. Qed.
Lemma ok_esc a : Q a -> Q (on_esc cwd a).
Proof.
  intros Ha. unfold on_esc, arm_queued_after_tool, cancel_active_turn, clear_composer_line, quit. case_match; eauto 10 with tui.
Qed.
#[local] Hint Resolve ok_menu_key ok_enter ok_esc : tui.
Lemma ok_plain_key now key a : Q a -> Q (on_plain_key cwd sessions_of now key a).
Proof.
  intros Ha. unfold on_plain_key, on_ctrl, next_mode, delete_word, clear_composer_line, recall_prev, recall_next, edit_composer,
    scroll_line_up, scroll_page_up, scroll_up, scroll_line_down, scroll_page_down, scroll_down.
  repeat case_match; eauto 10 with tui.
Qed.
Lemma ok_completion_key key m a : Q a -> Q (on_completion_key cwd key m a).1.
Proof. intros Ha. unfold on_completion_key, accept. repeat case_match; cbn [fst]; eauto 10 with tui. Qed.
Lemma kept_resolve now c a :
  ap_ask (resolve_pending_submit now c a) = ap_ask a /\ ap_overlay (resolve_pending_submit now c a) = ap_overlay a.
Proof.
  unfold resolve_pending_submit, submit_prompt, try_action. destruct (resolve_staged_submit _ _ _ _) as [s [p|]]; [|done].
  cbn. destruct (ap_room a); [done|]. unfold begin_turn_display, record_prompt. by destruct sc_history_path.
Qed.
Lemma ok_key now key a :
  (forall k r b, ap_overlay a = None -> ap_ask a = Some k -> answers k (ke_code key) r -> Q b ->
     Q (send_action (APermissionAnswer (pk_id k) r) b)) ->
  Q a -> Q (handle_key cwd sessions_of now key a).
Proof.
  intros Hans Ha. unfold handle_key. assert (Q (clear_selection a)) as Hc by (unfold clear_selection; by apply ok_select).
  destruct (_ && _); [unfold quit; eauto with tui|].
  pose proof (ok_resolve now (continues_paste key) _ Hc) as Hr.
  destruct (kept_resolve now (continues_paste key) (clear_selection a)) as [Eask Eover].
  set (a1 := resolve_pending_submit _ _ _) in *. clearbody a1.
  destruct (ap_overlay a1) eqn:Eo; [eauto with tui|].
  destruct (ap_ask a1) as [k|] eqn:Ek; [apply ok_ask_key; [|done]; intros r b; by apply Hans|].
  destruct (cp_menu (ap_cp a1)) as [m|]; [|by apply ok_plain_key].
  pose proof (ok_completion_key (ke_code key) m a1 Hr) as Hk.
  destruct (on_completion_key _ _ _ _) as [a2 [|]]; [by apply ok_plain_key|done].
Qed.
Lemma ok_paste now text a : Q a -> Q (handle_paste cwd now text a).
Proof.
  intros Ha. unfold handle_paste. pose proof (ok_resolve now true a Ha) as Hr. set (a1 := resolve_pending_submit _ _ _) in *.
  clearbody a1. destruct (append_paste _ _) as [p n] eqn:Ep in |- *. repeat case_match; eauto 12 with tui.
Qed.

(** Blocks are toggled only while no call is running. *)
Lemma ok_toggle column row a : Q a -> Q (toggle_expandable_at column row a).
Proof.
  intros Ha. unfold toggle_expandable_at. case_bool_decide as E; [|done].
  destruct (toggle_reasoning_at (ap_log a) column row) as [g [i|]] eqn:Er.
  - apply ok_scroll_to, k_toggle; [done| |done]. unfold toggle_reasoning_at in Er. destruct (List.find _ _); [|done].
    replace g with (toggle_reasoning (ap_log a) (hb_block h)).1 by by rewrite Er. apply toggle_reasoning_ok.
  - destruct (toggle_tool_at (ap_log a) column row) as [g' [i|]] eqn:Et; [|done].
    apply ok_scroll_to, k_toggle; [done| |done]. unfold toggle_tool_at in Et. destruct (List.find _ _); [|done].
    replace g' with (toggle_tool (ap_log a) (hb_block h)).1 by by rewrite Et. apply toggle_tool_ok.
Qed.
Lemma ok_mouse m a : Q a -> Q (handle_mouse m a).
Proof.
  intros Ha. destruct m; cbn [handle_mouse].
  1,2: unfold on_wheel, extend_to_edge, scroll_by, clear_selection; repeat case_match; eauto 10 with tui.
  1,2: unfold clear_selection; eauto with tui.
  case_match; [eauto with tui|]. apply ok_toggle. unfold clear_selection. eauto with tui.
Qed.
Lemma kept_step now room i a :
  (forall key k r b, i = InKey key -> ap_overlay a = None -> ap_ask a = Some k -> answers k (ke_code key) r -> Q b ->
     Q (send_action (APermissionAnswer (pk_id k) r) b)) ->
  Q a -> Q (tui_step cwd sessions_of now room i a).
Proof.
  intros Hans Ha. pose proof (ok_world room (ap_files a) a Ha) as Hw.
  unfold tui_step. cbv zeta. destruct i.
  - by apply ok_event.
  - by apply ok_push.
  - unfold flush_pending_submit_if_due. repeat case_match; eauto with tui.
  - unfold flush_copy, draw. apply ok_select. case_match; apply ok_select; [|apply ok_scroll]; by apply ok_clock.
  - apply ok_key; [|done]. intros k' r b Ho Hk. by apply (Hans k).
  - by apply ok_paste.
  - by apply ok_mouse.
Qed.

End Kept.

(** ** The transcript *)

Definition app_ok (a : App) : Prop := view_ok (ap_log a) (ap_live a).
Lemma app_ok_send x a : app_ok a -> app_ok (send_action x a).
Proof. unfold send_action, try_action. by destruct (ap_room a). Qed.
#[local] Instance app_ok_kept : Kept app_ok.
Proof.
  split; unfold app_ok.
  - by intros a a' -> -> _.
  - intros f a Hf. apply Hf.
  - intros f a Hf Ha. specialize (Hf _ _ Ha). unfold with_tools. by destruct (f (ap_log a) (ap_live a)).
  - intros id rows tool now a Hid Hr Ha. by apply start_tool_ok.
  - intros g a E Hg. cbn. rewrite E. done.
  - intros x a _. apply app_ok_send.
Qed.
Lemma ok_run inputs a : app_ok a -> app_ok (tui_run cwd sessions_of inputs a).
Proof.
  revert a. unfold tui_run. induction inputs as [|i is' IH]; intros a Ha; [done|]. apply IH.
  apply kept_step; [apply _| |done]. intros. by apply app_ok_send.
Qed.

Lemma ok_restore turns r : view_ok (re_log r) ∅ -> view_ok (re_log (fold_left restore_turn turns r)) ∅.
Proof.
  revert r. induction turns as [|t ts IH]; intros r Hr; [done|]. apply IH.
  destruct t; cbn [restore_turn re_log]; try by apply push_rows_ok.
  - by apply push_answer_ok.
  - case_match; cbn [re_log]; [done|]. by apply push_tool_block_ok.
  - case_match; [done|]. by apply push_rows_ok.
Qed.
Lemma ok_new turns mode mouse fs : app_ok (app_new turns mode mouse fs).
Proof. apply (ok_restore turns). apply log_new_ok. Qed.

(** C26: However the session went, with whatever events, keys, clicks and resumed
    turns: every thought and every failed call of the transcript is at the
    rows that belong to it and shows itself, collapsed or expanded, no two
    share a row, and the rows of a running call are its own. *)
Theorem transcript_invariant turns mode mouse fs inputs :
  let a := tui_run cwd sessions_of inputs (app_new turns mode mouse fs) in
  view_ok (ap_log a) (ap_live a).
Proof. apply ok_run, ok_new. Qed.

(** ** Questions *)

(** What a key may answer. *)
Definition may_send (a : App) (i : Input) (x : UserAction) : Prop :=
  match x with
  | APermissionAnswer id r =>
      exists key k, i = InKey key /\ ap_overlay a = None /\ ap_ask a = Some k /\ id = pk_id k /\ answers k (ke_code key) r
  | _ => True
  end.
Definition sent_since (s : list UserAction) (P : UserAction -> Prop) (a : App) : Prop :=
  exists l, ap_sent a = s ++ l /\ Forall P l.
Lemma sent_send s P x a : P x -> sent_since s P a -> sent_since s P (send_action x a).
Proof.
  intros Hx (l & E & Hl). unfold send_action, try_action. destruct (ap_room a); [by exists l|].
  exists (l ++ [x]). cbn. rewrite E, app_assoc. split; [done|]. apply list.Forall_app. split; [done|]. by constructor.
Qed.
#[local] Instance sent_kept s a i : Kept (sent_since s (may_send a i)).
Proof.
  split; unfold sent_since.
  - by intros b b' _ _ ->.
  - by intros f b _.
  - intros f b _. unfold with_tools. by destruct (f _ _).
  - done.
  - done.
  - intros x b Hx Hb. apply sent_send; [|done]. by destruct x.
Qed.

(** C27: A question is answered only by a key pressed while it is open and no menu
    hides it, with its own id; and what lets a call run, now or from now on,
    is the key for it. *)
Theorem only_the_key_approves now room i a id r :
  APermissionAnswer id r ∈ drop (length (ap_sent a)) (ap_sent (tui_step cwd sessions_of now room i a)) ->
  exists key k, i = InKey key /\ ap_overlay a = None /\ ap_ask a = Some k /\ id = pk_id k
    /\ match r with
       | Once => ke_code key = KeyChar 121 \/ ke_code key = KeyChar 89
       | SessionRule rule =>
           (ke_code key = KeyChar 115 \/ ke_code key = KeyChar 83) /\ rule = suggested_rule (pk_tool k) (pk_input k)
       | Always rule =>
           (ke_code key = KeyChar 97 \/ ke_code key = KeyChar 65) /\ rule = suggested_rule (pk_tool k) (pk_input k)
       | DenyCall reason =>
           (ke_code key = KeyChar 110 \/ ke_code key = KeyChar 78 \/ ke_code key = KeyEsc) /\ reason = lit "declined"
       end.
Proof.
  intros Hin.
  assert (sent_since (ap_sent a) (may_send a i) (tui_step cwd sessions_of now room i a)) as (l & E & Hl).
  { apply kept_step; [apply _| |by exists []; rewrite app_nil_r].
    intros key k r' b -> Ho Hk Hr. apply sent_send. by exists key, k. }
  rewrite E, drop_app_length in Hin. rewrite list.Forall_forall in Hl.
  destruct (Hl _ Hin) as (key & k & -> & Ho & Hk & -> & Hr). exists key, k. split_and!; [done..|].
  destruct Hr as [Hr|[Hr ->]]; [|by cbn; split; [right; right|]]. unfold ask_response in Hr.
  repeat case_bool_decide; cbn [orb] in Hr; simplify_eq/=; tauto.
Qed.

End Safe.

(** ** A host to try it on *)

Module TuiSample.
#[export] Instance screen : Screen := {|
  sc_spans t := [t];
  sc_line_width l := Z.of_nat (length (concat (map snd (ln_spans l))));
  sc_secs2 t := show_z (t / 10 ^ 9);
  sc_secs1 t := show_z (t / 10 ^ 9);
  sc_markdown t := [mk_line SBody [(SPlain, t)]]
|}.
#[export] Instance host : TuiHost (H := Tree.tree_json) (H0 := screen) := {|
  td_word_diff old new := mk_line SPlain [(SPlain, old); (SPlain, new)];
  td_file_rows shown _ _ := [mk_line SCode [(SPlain, shown)]];
  td_line_stats _ _ := (1, 1);
  td_model := lit "m";
  td_mcp := None;
  td_cwd_exists := true;
  td_percent n d := show_z (n * 100 / d) ++ lit "%";
  td_append _ b := length b
|}.
#[export] Instance listing : Listing := {| read_dir _ := None |}.

#[local] Existing Instance Tree.tree_json.
Definition cwd : str := lit "/w/p".
Definition sessions (fs : gmap (list Z) (list Z)) : list SessionInfo := [].
#[local] Existing Instance ConfigSample.os.
#[local] Existing Instance ConfigSample.json.
#[local] Existing Instance ConfigSample.disk.
Definition start : App := app_new [] AmDefault false ∅.
Definition command (c : string) : Value := j_obj [(lit "command", j_str (lit c))].
(** A question about a call of Bash. *)
Definition asked : App :=
  tui_step cwd sessions 5 8 (InEvent (AePermissionAsk 7 (lit "Bash") (command "git push") (lit "network"))) start.
Definition press (c : Z) : Input := InKey (mk_key (KeyChar c) (mk_modifiers false false false false)).
End TuiSample.
#[local] Existing Instance TuiSample.screen.
#[local] Existing Instance TuiSample.host.
#[local] Existing Instance TuiSample.listing.
#[local] Existing Instance Tree.tree_json.
#[local] Existing Instance ConfigSample.os.
#[local] Existing Instance ConfigSample.json.
#[local] Existing Instance ConfigSample.disk.

(** [a] lets the call run and grants its command from now on. *)
Theorem only_the_key_approves_witness :
  let r := Always (lit "Bash(git:*)") in
  ap_sent (tui_step TuiSample.cwd TuiSample.sessions 9 8 (TuiSample.press 97) TuiSample.asked) = [APermissionAnswer 7 r]
  /\ exists key k, TuiSample.press 97 = InKey key /\ ap_overlay TuiSample.asked = None /\ ap_ask TuiSample.asked = Some k
    /\ 7 = pk_id k /\ (ke_code key = KeyChar 97 \/ ke_code key = KeyChar 65)
    /\ lit "Bash(git:*)" = suggested_rule (pk_tool k) (pk_input k).
Proof.
  cbv zeta. split; [vm_compute; reflexivity|].
  assert (APermissionAnswer 7 (Always (lit "Bash(git:*)"))
    ∈ drop (length (ap_sent TuiSample.asked))
        (ap_sent (tui_step TuiSample.cwd TuiSample.sessions 9 8 (TuiSample.press 97) TuiSample.asked))) as Hin.
  { vm_compute. apply list_elem_of_here. }
  exact (only_the_key_approves TuiSample.cwd TuiSample.sessions 9 8 (TuiSample.press 97) TuiSample.asked 7 _ Hin).
Defined.
