(* ===== verification/TuiPaste.v ===== *)
(** What reaches the model of what is typed (TuiApp.v): a paste that the
    terminal delivers as single keys becomes one prompt, and the prompts that
    the interface shows and the runtime never takes. *)

From S2P Require Import Prelude Utf8 Text PathLib Wire Turn Json AgentBatch RtEvents RtPump Session Config ConfigEdit ConfigSave.
From S2P Require Import Menu TuiComposer TuiView TuiApp TuiSafe.

Section Paste.
Context `{TuiHost} `{ConfigOs} `{SettingsJson} `{ConfigDisk} `{Listing}.
Variable cwd : str.
Variable sessions_of : gmap (list Z) (list Z) -> list SessionInfo.

(** ** Typed text *)

Definition plain_modifiers : Modifiers := mk_modifiers false false false false.
(** The characters the terminal library reports with the shift key. *)
Variable shifted : char -> bool.
(** A line feed arrives as Enter, a tab as the tab key. *)
Definition typed (c : char) : Input :=
  InKey (if c =? 10 then mk_key KeyEnter plain_modifiers
         else if c =? 9 then mk_key KeyTab plain_modifiers
         else mk_key (KeyChar c) (mk_modifiers false false (shifted c) false)).
Definition typing (l : list (Z * nat * char)) : list (Z * nat * Input) := map (fun k => (k.1, typed k.2)) l.
Definition typed_text (l : list (Z * nat * char)) : str := map snd l.

(** No key comes later than the rescue window after the one before. *)
Fixpoint steady (before : Z) (l : list (Z * nat * char)) : Prop :=
  match l with
  | [] => True
  | k :: l => since k.1.1 before <= PASTE_RESCUE_WINDOW /\ steady k.1.1 l
  end.
Fixpoint last_time (before : Z) (l : list (Z * nat * char)) : Z :=
  match l with [] => before | k :: l => last_time k.1.1 l end.

(** Nothing in the way: no menu, no question, no turn. *)
Definition at_rest (a : App) : Prop :=
  ap_overlay a = None /\ ap_ask a = None /\ tv_busy (ap_turn a) = false /\ cp_menu (ap_cp a) = None.

(** A text of printable characters and line feeds that opens no completion
    menu, and of which no beginning that ends a line is a command. *)
Definition printable (c : char) : Prop := c = 10 \/ 32 <= c /\ c <> 127.
Definition is_command (p : str) : bool := is_quit_word p || bool_decide (is_Some (classify_slash p)).
Definition inert (t : str) : Prop :=
  Forall printable t /\ 64 ∉ t /\ head t <> Some 47 /\ head t <> Some 10 /\ (forall p q, t = p ++ 10 :: q -> is_command p = false).

Lemma last_at_None i b s : 64 ∉ s -> last_at i b s = None.
Proof.
  revert i b. induction s as [|c s IH]; intros i b Hs; [done|]. apply not_elem_of_cons in Hs as [Hc Hs]. cbn.
  rewrite IH by done. by destruct (Z.eqb_spec c 64).
Qed.
Lemma complete_None t root : 64 ∉ t -> head t <> Some 47 -> complete_at t root = None.
Proof.
  intros Ht Hh. unfold complete_at.
  assert (last_trigger t = None) as ->; [|done].
  destruct t as [|c t]; [done|]. unfold last_trigger. rewrite (last_at_None 0 None (c :: t)) by done. cbn in Hh.
  repeat (case_match; try done); congruence.
Qed.

(** What has been typed: in the composer, or staged with the line feed that
    staged it. *)
Definition typed_so_far (sent : list UserAction) (before : Z) (d : str) (a : App) : Prop :=
  at_rest a /\ ap_sent a = sent
  /\ match ap_pending a with
     | None => cp_text (ap_cp a) = d /\ (forall p, d <> p ++ [10])
     | Some s => cp_text (ap_cp a) = [] /\ ps_text s ++ [10] = d /\ ps_staged s = before /\ ps_text s <> []
     end.

Lemma typed_resolve sent before d a now :
  typed_so_far sent before d a -> since now before <= PASTE_RESCUE_WINDOW ->
  let b := resolve_pending_submit now true a in
  at_rest b /\ ap_sent b = sent /\ ap_pending b = None /\ cp_text (ap_cp b) = d.
Proof.
  intros (Hr & Hs & Hp) Ht. unfold resolve_pending_submit, resolve_staged_submit.
  destruct (ap_pending a) as [s|]; cbn; [|by destruct Hp]. destruct Hp as (E1 & E2 & E3 & _). rewrite E3.
  rewrite (proj2 (Z.leb_le _ _) Ht). cbn. rewrite E1. split_and!; [exact Hr|done|done|done].
Qed.

Lemma typed_step sent before d a now room c :
  typed_so_far sent before d a -> since now before <= PASTE_RESCUE_WINDOW ->
  printable c -> 64 ∉ d ++ [c] -> head (d ++ [c]) <> Some 47 -> head (d ++ [c]) <> Some 10 -> (c = 10 -> is_command d = false) ->
  typed_so_far sent now (d ++ [c]) (tui_step cwd sessions_of now room (typed c) a).
Proof.
  intros Ha Ht Hpr Hat Hsl Hnl Hcmd. unfold tui_step, typed, handle_key. rewrite (proj2 (Z.eqb_neq c 9)) by (destruct Hpr; lia).
  set (a0 := put_world room (ap_sent a) (ap_files a) a).
  assert (typed_so_far sent before d (clear_selection a0)) as Ha0 by exact Ha.
  set (k := if c =? 10 then _ else _).
  assert (md_control (ke_mods k) = false) as Hctl by (unfold k; by destruct (c =? 10)).
  assert (continues_paste k = true) as -> by (unfold continues_paste, k; by destruct (c =? 10)).
  rewrite Hctl. cbn [andb].
  destruct (typed_resolve _ _ _ _ _ Ha0 Ht) as ((Ho & Hk & Hb & Hm) & Hs & Hp & Hd).
  set (b := resolve_pending_submit now true (clear_selection a0)) in *. clearbody b. rewrite Ho, Hk, Hm.
  unfold on_plain_key, k. destruct (Z.eqb_spec c 10) as [->|Hc]; cbn [ke_code ke_mods plain_modifiers md_control].
  - destruct d as [|x d]; [by destruct Hnl|]. unfold on_enter. rewrite Hb, Hd. cbn [is_nil].
    specialize (Hcmd eq_refl). unfold is_command in Hcmd. apply orb_false_iff in Hcmd as [Hq Hcs]. rewrite Hq.
    apply bool_decide_eq_false, eq_None_not_Some in Hcs. rewrite Hcs.
    unfold typed_so_far, at_rest. cbn. by split_and!.
  - unfold typed_so_far, at_rest, refresh_menu, edit_composer. cbn. rewrite Hd, Hp.
    rewrite complete_None by done. split_and!; [done..|]. intros p E. by apply app_inj_tail in E as [_ ?].
Qed.

Lemma typed_run sent before d l a :
  typed_so_far sent before d a -> steady before l -> inert (d ++ typed_text l) ->
  typed_so_far sent (last_time before l) (d ++ typed_text l) (tui_run cwd sessions_of (typing l) a).
Proof.
  revert before d a. induction l as [|[[now room] c] l IH]; intros before d a Ha Hst Hin; cbn [typed_text map].
  - by rewrite app_nil_r.
  - destruct Hst as [Ht Hst]. cbn [fst snd] in *.
    change (typed_text ((now, room, c) :: l)) with (c :: typed_text l) in Hin. fold (typed_text l).
    rewrite (cons_middle c d), (app_assoc d [c]) in *.
    apply IH; [|done|done]. destruct Hin as (Hpr & Hat & Hsl & Hnl & Hcmd). eapply typed_step; [done|done| | | | |].
    + rewrite !list.Forall_app in Hpr. destruct Hpr as [[_ Hc] _]. by apply list.Forall_cons in Hc as [? _].
    + set_solver.
    + by destruct d.
    + by destruct d.
    + intros ->. apply (Hcmd d (typed_text l)). by rewrite <- app_assoc.
Qed.

(** C37: A paste of several lines that arrives as a burst of keys is one document.
    Let the interface be at rest with an empty composer, the keys come no
    later than the rescue window one after the other, and the text be inert:
    printable characters and line feeds, no at sign, no slash and no line feed
    at the start, and no beginning up to a line feed that is a command or a
    word to quit.  Then nothing is sent on the way, the lines end up in the
    composer, and if the text ends with a line feed it is submitted, once and
    as a whole, when the window has passed.  (A tab ends the burst:
    [pasted_tab_sends]; a first line that is a command runs:
    [pasted_command_runs].) *)
Theorem unbracketed_paste_is_one_prompt t0 l a :
  at_rest a -> cp_text (ap_cp a) = [] -> ap_pending a = None ->
  steady t0 l -> inert (typed_text l) ->
  let a' := tui_run cwd sessions_of (typing l) a in
  ap_sent a' = ap_sent a
  /\ ((forall p, typed_text l <> p ++ [10]) -> cp_text (ap_cp a') = typed_text l /\ ap_pending a' = None)
  /\ (forall p now room, typed_text l = p ++ [10] -> (0 < room)%nat -> PASTE_RESCUE_WINDOW <= since now (last_time t0 l) ->
      ap_sent (tui_step cwd sessions_of now room InTick a') = ap_sent a ++ [ASubmit p]).
Proof.
  intros Hr Ht Hp Hst Hin. cbv zeta.
  assert (typed_so_far (ap_sent a) t0 [] a) as Ha by (unfold typed_so_far; rewrite Hp; split_and!; [done..|by intros []]).
  destruct (typed_run _ _ _ _ _ Ha Hst Hin) as (Hr' & Hs & Hd). cbn [app] in Hd.
  set (a' := tui_run cwd sessions_of (typing l) a) in *. clearbody a'. split; [done|]. split.
  - intros Hn. destruct (ap_pending a') as [s|]; [|by destruct Hd]. destruct Hd as (_ & E & _). by destruct (Hn (ps_text s)).
  - intros p now room E Hroom Hw. rewrite E in Hd. unfold tui_step, flush_pending_submit_if_due, resolve_pending_submit. cbn.
    destruct (ap_pending a') as [s|].
    + destruct Hd as (_ & Ep & Es & _). apply app_inj_tail in Ep as [Ep _]. rewrite Es.
      rewrite (proj2 (Z.leb_le _ _) Hw). cbn. unfold submit_prompt, try_action. cbn.
      destruct room as [|room]; [lia|]. unfold begin_turn_display, record_prompt. cbn. rewrite Hs, Ep.
      by destruct sc_history_path.
    + by destruct (proj2 Hd p).
Qed.

(** ** Prompts that are shown and never run *)

Lemma say_prompt_last text a : list.last (lg_transcript (ap_log (record_prompt text a))) = Some (user_prompt_line text).
Proof. unfold record_prompt. destruct sc_history_path; cbn; apply last_snoc. Qed.

(** Enter while a queued prompt is about to start: the turn of the queued
    prompt begins while the other is staged, the window passes, and the
    interface submits without a look at the turn.  It shows the prompt as
    running and has taken it from the composer; the runtime ignores it, and
    does not queue it either. *)
Theorem staged_prompt_lost a text q t0 t1 t2 r0 r1 r2 pump id :
  at_rest a -> ap_pending a = None -> cp_text (ap_cp a) = text -> text <> [] -> is_command text = false ->
  ap_queue a = [q] -> (0 < r2)%nat -> PASTE_RESCUE_WINDOW <= since t2 t0 -> pu_active pump = Some id ->
  let enter := InKey (mk_key KeyEnter plain_modifiers) in
  let a' := tui_run cwd sessions_of [(t0, r0, enter); (t1, r1, InEvent AeReady); (t2, r2, InTick)] a in
  ap_sent a' = ap_sent a ++ [ASubmit text]
  /\ list.last (lg_transcript (ap_log a')) = Some (user_prompt_line text)
  /\ cp_text (ap_cp a') = [] /\ ap_pending a' = None
  /\ exists notice, handle_action pump (ASubmit text) = (pump, [PEvent (AeNotice notice)], Go None).
Proof.
  intros (Ho & Hk & Hb & Hm) Hp Ht Hne Hc Hq Hr Hw Hact. cbv zeta. unfold tui_run. cbn [fold_left fst snd].
  set (a1 := tui_step cwd sessions_of t0 r0 _ a).
  assert (ap_sent a1 = ap_sent a /\ cp_text (ap_cp a1) = [] /\ ap_pending a1 = Some (mk_pending text t0)) as (E1 & E2 & E3).
  { subst a1. unfold tui_step, handle_key. cbn [ke_mods md_control plain_modifiers andb].
    unfold resolve_pending_submit. cbn. rewrite Hp. cbn. rewrite Ho, Hk, Hm. unfold on_plain_key. cbn [ke_code].
    unfold on_enter. cbn. rewrite Hb, Ht. unfold is_command in Hc. apply orb_false_iff in Hc as [Hc1 Hc2].
    apply bool_decide_eq_false, eq_None_not_Some in Hc2. destruct text; [done|]. cbn [is_nil]. by rewrite Hc1, Hc2. }
  clearbody a1. set (a2 := tui_step cwd sessions_of t1 r1 _ a1).
  assert (ap_sent a2 = ap_sent a1 /\ cp_text (ap_cp a2) = cp_text (ap_cp a1) /\ ap_pending a2 = ap_pending a1) as (F1 & F2 & F3).
  { subst a2. unfold tui_step. cbn. unfold on_ready, on_queued_turn, begin_turn_display, record_prompt. cbn.
    by repeat (case_match; cbn). }
  clearbody a2. rewrite E1 in F1. rewrite E2 in F2. rewrite E3 in F3.
  unfold tui_step, flush_pending_submit_if_due, resolve_pending_submit. cbn. rewrite F3. cbn.
  rewrite (proj2 (Z.leb_le _ _) Hw). unfold submit_prompt, try_action. cbn. destruct r2 as [|r2]; [lia|].
  set (a3 := put_world _ _ _ _). split_and!.
  - unfold begin_turn_display, record_prompt. rewrite <- F1. by destruct sc_history_path.
  - exact (say_prompt_last text a3).
  - unfold begin_turn_display, record_prompt. destruct sc_history_path; exact F2.
  - unfold begin_turn_display, record_prompt. by destruct sc_history_path.
  - unfold handle_action. rewrite Hact. by eexists.
Qed.

(** ** The history of prompts *)

Lemma split_inclusive_nl p rest : forall cur,
  split_inclusive (p ++ 10 :: rest) cur = split_inclusive (p ++ [10]) cur ++ split_inclusive rest [].
Proof. induction p as [|c p IH]; intros cur; cbn; [done|]. destruct (c =? 10); by rewrite IH. Qed.
Lemma lines_nl p rest : lines (p ++ 10 :: rest) = lines (p ++ [10]) ++ lines rest.
Proof. unfold lines. by rewrite split_inclusive_nl, map_app. Qed.

(** A prompt of one line. *)
Definition single_line (p : str) : Prop := 10 ∉ p /\ list.last p <> Some 13.
Lemma split_inclusive_one p : 10 ∉ p -> forall cur, split_inclusive (p ++ [10]) cur = [cur ++ p ++ [10]].
Proof.
  induction p as [|c p IH]; intros Hp cur; cbn; [done|]. apply not_elem_of_cons in Hp as [Hc Hp].
  destruct (Z.eqb_spec c 10); [congruence|]. rewrite IH by done. by rewrite <- app_assoc.
Qed.
Lemma lines_one p : single_line p -> lines (p ++ [10]) = [p].
Proof.
  intros [Hp Hl]. unfold lines. rewrite split_inclusive_one by done. cbn [app map]. unfold line_text.
  rewrite strip_suffix_app. destruct (strip_suffix [13] p) as [q|] eqn:E; [|done].
  apply strip_suffix_Some in E as ->. by rewrite last_snoc in Hl.
Qed.

Lemma max_history_pos : (0 < MAX_HISTORY)%nat.
Proof. vm_compute. lia. Qed.
Lemma newest_last h : list.last (newest_entries h) = list.last h.
Proof.
  pose proof max_history_pos. unfold newest_entries. destruct h as [|e h _] using rev_ind; [done|]. rewrite length_app. cbn [length].
  rewrite drop_app_le by lia. by rewrite !last_snoc.
Qed.
Lemma newest_then_push h e : newest_entries (newest_entries h ++ [e]) = newest_entries (h ++ [e]).
Proof.
  unfold newest_entries. rewrite !length_app, length_drop. cbn [length].
  destruct (decide (length h <= MAX_HISTORY)%nat).
  - replace (length h - MAX_HISTORY)%nat with 0%nat by lia. rewrite drop_0. do 2 f_equal. lia.
  - pose proof max_history_pos. rewrite !drop_app_le by (rewrite ?length_drop; lia). rewrite drop_drop. do 2 f_equal. lia.
Qed.
Lemma load_line_push out l : newest_entries (load_line out l) = push_history (newest_entries out) l.
Proof.
  unfold load_line, push_history, repeats_last. rewrite newest_last. destruct (is_nil (trim l)); [done|].
  destruct (list.last out) as [e|]; [destruct (str_eqb e l); [done|]|]; by rewrite newest_then_push.
Qed.
Lemma load_lines_push ls out : newest_entries (fold_left load_line ls out) = fold_left push_history ls (newest_entries out).
Proof. revert out. induction ls as [|l ls IH]; intros out; [done|]. cbn [fold_left]. by rewrite IH, load_line_push. Qed.

(** The file of a session whose appends all reach it. *)
Lemma history_file path ps fs :
  (forall b, td_append path b = length b) ->
  default [] (fold_left (fun fs p => append_history path p fs) ps fs !! path)
  = default [] (fs !! path) ++ utf8 (concat (map (fun p => p ++ [10]) ps)).
Proof.
  intros Hw. revert fs. induction ps as [|p ps IH]; intros fs; [cbn; by rewrite app_nil_r|].
  cbn [fold_left map concat]. rewrite IH, utf8_app, app_assoc. f_equal. unfold append_history. rewrite Hw.
  destruct (length (utf8 p ++ [10])) as [|n] eqn:El; [rewrite length_app in El; cbn in El; lia|].
  rewrite lookup_insert_eq. cbn [default]. rewrite <- El, firstn_all, utf8_app. done.
Qed.
Lemma lines_concat ps : lines (concat (map (fun p => p ++ [10]) ps)) = concat (map (fun p => lines (p ++ [10])) ps).
Proof.
  induction ps as [|p ps IH]; [done|]. cbn [map concat]. rewrite <- app_assoc. cbn [app]. by rewrite lines_nl, IH.
Qed.

Lemma record_prompts ps : forall a,
  cp_history (ap_cp (fold_left (fun a p => record_prompt p a) ps a)) = fold_left push_history ps (cp_history (ap_cp a))
  /\ ap_files (fold_left (fun a p => record_prompt p a) ps a)
     = match sc_history_path with
       | Some path => fold_left (fun fs p => append_history path p fs) ps (ap_files a)
       | None => ap_files a
       end.
Proof.
  induction ps as [|p ps IH]; intros a; cbn [fold_left]; [by destruct sc_history_path|].
  destruct (IH (record_prompt p a)) as [-> ->]. unfold record_prompt. by destruct sc_history_path.
Qed.

(** What the next start recalls: every line of every prompt. *)
Lemma reloaded_history ps a path turns mode mouse :
  sc_history_path = Some path -> (forall b, td_append path b = length b) -> ap_files a !! path = None ->
  Forall (Forall is_char) ps ->
  cp_history (ap_cp (app_new turns mode mouse (ap_files (fold_left (fun a p => record_prompt p a) ps a))))
  = fold_left push_history (concat (map (fun p => lines (p ++ [10])) ps)) [].
Proof.
  intros Hp Hw Hf Hc. destruct (record_prompts ps a) as [_ ->]. unfold app_new. cbn [ap_cp cp_history]. rewrite Hp.
  pose proof (history_file path ps (ap_files a) Hw) as E. rewrite Hf in E. cbn [default app] in E.
  assert (Forall is_char (concat (map (fun p => p ++ [10]) ps))) as Hall.
  { apply List.Forall_concat, List.Forall_map. eapply list.Forall_impl; [exact Hc|]. intros p Hq. apply list.Forall_app.
    split; [done|]. constructor; [unfold is_char; lia|done]. }
  destruct (fold_left _ ps (ap_files a) !! path) as [b|] eqn:Eb; cbn [default] in E.
  - cbn in E. unfold id in E. rewrite E, from_utf8_utf8 by done. unfold load_history. by rewrite load_lines_push, lines_concat.
  - destruct ps as [|p ps]; [done|]. cbn [map concat] in E. apply (f_equal length) in E.
    rewrite !utf8_app, !length_app in E. cbn in E. lia.
Qed.

(** The prompts of a session, each of one line, are what the next one recalls;
    of a prompt of several lines it recalls the lines. *)
Theorem history_comes_back ps a path turns mode mouse :
  sc_history_path = Some path -> (forall b, td_append path b = length b) -> ap_files a !! path = None ->
  cp_history (ap_cp a) = [] -> Forall (Forall is_char) ps ->
  let a' := fold_left (fun a p => record_prompt p a) ps a in
  let next := cp_history (ap_cp (app_new turns mode mouse (ap_files a'))) in
  (Forall single_line ps -> next = cp_history (ap_cp a'))
  /\ (forall p q, ps = [p ++ [10] ++ q] -> single_line p -> single_line q -> trim p <> [] -> trim q <> [] -> p <> q ->
      next = [p; q] /\ cp_history (ap_cp a') = [p ++ [10] ++ q]).
Proof.
  intros Hp Hw Hf Hh Hc. cbv zeta. rewrite (reloaded_history ps a path) by done.
  destruct (record_prompts ps a) as [-> _]. rewrite Hh. split.
  - intros Ho. f_equal. induction Ho as [|p ps Hone _ IH]; [done|]. apply list.Forall_cons in Hc as [_ Hc].
    cbn [map concat]. rewrite lines_one by done. cbn [app]. by rewrite IH.
  - intros p q -> Op Oq Tp Tq Hne. cbn [map concat app]. rewrite app_nil_r, <- app_assoc.
    change ((10 :: q) ++ [10]) with (10 :: q ++ [10]). rewrite lines_nl, !lines_one by done. cbn [app fold_left].
    assert (trim (p ++ 10 :: q) <> []) as Tpq.
    { rewrite trim_nil in *. intros Hb. apply list.Forall_app in Hb as [Hb _]. done. }
    unfold push_history, repeats_last. cbn [list.last app].
    destruct (trim p); [done|]. destruct (trim q); [done|]. destruct (trim (p ++ 10 :: q)); [done|]. cbn.
    rewrite (str_eqb_ne p q) by done. done.
Qed.

End Paste.

(** ** Witnesses *)

#[local] Existing Instance TuiSample.screen.
#[local] Existing Instance TuiSample.host.
#[local] Existing Instance TuiSample.listing.
#[local] Existing Instance Tree.tree_json.
#[local] Existing Instance ConfigSample.os.
#[local] Existing Instance ConfigSample.json.
#[local] Existing Instance ConfigSample.disk.

Module PasteSample.
Definition shifted (c : char) : bool := (65 <=? c) && (c <=? 90).
(** A text, a millisecond between the keys. *)
Definition burst (t : str) : list (Z * nat * Input) :=
  typing shifted (imap (fun i c => (1000000 * Z.of_nat i, 8%nat, c)) t).
(** Two lines, each with a line feed, a millisecond between the keys. *)
Definition keys : list (Z * nat * char) := imap (fun i c => (1000000 * Z.of_nat i, 8%nat, c)) (lit "hi" ++ [10] ++ lit "you" ++ [10]).
(** A prompt is queued, its turn has not begun, another is in the composer. *)
Definition between : App :=
  with_queue [lit "next"] (tui_step TuiSample.cwd TuiSample.sessions 0 8 (InPaste (lit "more")) TuiSample.start).
End PasteSample.

Lemma inert_dec t :
  forallb (fun c => (c =? 10) || (32 <=? c) && negb (c =? 127)) t = true ->
  bool_decide (64 ∉ t /\ head t <> Some 47 /\ head t <> Some 10) = true ->
  forallb (fun n => negb (is_command (take n t))) (seq 0 (length t)) = true -> inert t.
Proof.
  intros Hp Hh Hl. apply bool_decide_eq_true in Hh as (H1 & H2 & H3). split_and!; [|done..|].
  { apply list.Forall_forall. intros c Hc%list_elem_of_In. rewrite forallb_forall in Hp. specialize (Hp c Hc).
    unfold printable. apply orb_true_iff in Hp as [?|Hp]; [lia|]. apply andb_true_iff in Hp as [? Hq]. rewrite negb_true_iff in Hq. lia. }
  intros p q ->.
  rewrite forallb_forall in Hl. specialize (Hl (length p)). rewrite take_app_length in Hl.
  apply negb_true_iff, Hl. apply in_seq. rewrite length_app. simpl. lia.
Qed.

Theorem unbracketed_paste_is_one_prompt_witness :
  let a' := tui_run TuiSample.cwd TuiSample.sessions (typing PasteSample.shifted PasteSample.keys) TuiSample.start in
  ap_sent a' = []
  /\ ap_sent (tui_step TuiSample.cwd TuiSample.sessions 26000000 8 InTick a') = [ASubmit (lit "hi" ++ [10] ++ lit "you")].
Proof.
  cbv zeta.
  assert (inert (typed_text PasteSample.keys)) as Hin by (apply inert_dec; vm_compute; reflexivity).
  assert (steady 0 PasteSample.keys) as Hst by (vm_compute; repeat split; discriminate).
  assert (at_rest TuiSample.start) as Hr by (vm_compute; repeat split).
  pose proof (unbracketed_paste_is_one_prompt TuiSample.cwd TuiSample.sessions PasteSample.shifted 0 PasteSample.keys TuiSample.start
    Hr eq_refl eq_refl Hst Hin) as (T1 & _ & T3).
  split; [exact T1|].
  refine (T3 (lit "hi" ++ [10] ++ lit "you") 26000000 8%nat _ _ _); vm_compute; [reflexivity|lia|discriminate].
Defined.

(** A tab is not taken for the continuation of a paste: the line staged before
    it is sent at once, without the rest of the paste. *)
Lemma pasted_tab_sends :
  let a' := tui_run TuiSample.cwd TuiSample.sessions (PasteSample.burst (lit "if x:" ++ [10; 9] ++ lit "y")) TuiSample.start in
  ap_sent a' = [ASubmit (lit "if x:")] /\ cp_text (ap_cp a') = lit "y".
Proof. vm_compute. split; reflexivity. Qed.

(** A line that is a command when its line feed arrives is run, and the rest of
    the paste goes on from there. *)
Lemma pasted_command_runs :
  let a' := tui_run TuiSample.cwd TuiSample.sessions (PasteSample.burst (lit "quit" ++ [10] ++ lit "smoking")) TuiSample.start in
  ap_quit a' = true /\ ap_sent a' = [AQuit].
Proof. vm_compute. split; reflexivity. Qed.

Theorem staged_prompt_lost_witness :
  let enter := InKey (mk_key KeyEnter plain_modifiers) in
  let a' := tui_run TuiSample.cwd TuiSample.sessions
              [(0, 8%nat, enter); (1000000, 8%nat, InEvent AeReady); (21000000, 8%nat, InTick)] PasteSample.between in
  ap_sent a' = [ASubmit (lit "more")] /\ cp_text (ap_cp a') = []
  /\ exists notice, handle_action (mk_pump (Some 2) 2 []) (ASubmit (lit "more")) = (mk_pump (Some 2) 2 [], [PEvent (AeNotice notice)], Go None).
Proof.
  cbv zeta.
  assert (at_rest PasteSample.between) as Hr by (vm_compute; repeat split).
  pose proof (staged_prompt_lost TuiSample.cwd TuiSample.sessions PasteSample.between (lit "more") (lit "next")
    0 1000000 21000000 8%nat 8%nat 8%nat (mk_pump (Some 2) 2 []) 2 Hr eq_refl eq_refl) as T.
  destruct T as (T1 & _ & T3 & _ & T5); try (vm_compute; reflexivity || discriminate || lia).
  split; [exact T1|]. split; [exact T3|exact T5].
Defined.

Theorem history_comes_back_witness :
  let prompts := [lit "hi" ++ [10] ++ lit "you"] in
  let a' := fold_left (fun a p => record_prompt p a) prompts TuiSample.start in
  let next := cp_history (ap_cp (app_new [] AmDefault false (ap_files a'))) in
  next = [lit "hi"; lit "you"] /\ cp_history (ap_cp a') = prompts
  /\ cp_history (ap_cp (app_new [] AmDefault false
       (ap_files (fold_left (fun a p => record_prompt p a) [lit "hi"; lit "you"] TuiSample.start)))) = [lit "hi"; lit "you"].
Proof.
  cbv zeta.
  assert (Hc : forall ps : list str, bool_decide (Forall (Forall (fun c => 0 <= c < 128)) ps) = true -> Forall (Forall is_char) ps).
  { intros ps Hp. apply bool_decide_eq_true in Hp. eapply list.Forall_impl; [exact Hp|]. intros p Hq.
    eapply list.Forall_impl; [exact Hq|]. intros c Hr. left. cbv beta in Hr. lia. }
  assert (sc_history_path = Some (lit "/home/u/.sc/history.txt")) as Hp by (vm_compute; reflexivity).
  assert (ap_files TuiSample.start !! lit "/home/u/.sc/history.txt" = None) as Hf by (vm_compute; reflexivity).
  pose proof (history_comes_back [lit "hi" ++ [10] ++ lit "you"] TuiSample.start (lit "/home/u/.sc/history.txt") [] AmDefault false
    Hp (fun _ => eq_refl) Hf eq_refl (Hc [lit "hi" ++ [10] ++ lit "you"] eq_refl)) as [_ T2].
  pose proof (history_comes_back [lit "hi"; lit "you"] TuiSample.start (lit "/home/u/.sc/history.txt") [] AmDefault false
    Hp (fun _ => eq_refl) Hf eq_refl (Hc [lit "hi"; lit "you"] eq_refl)) as [T1 _].
  assert (single_line (lit "hi") /\ single_line (lit "you")) as [O1 O2].
  { split; (split; [apply (bool_decide_unpack _); vm_compute; exact I|vm_compute; discriminate]). }
  destruct (T2 (lit "hi") (lit "you") eq_refl O1 O2) as [E1 E2]; [vm_compute; discriminate..|].
  split; [exact E1|]. split; [exact E2|]. rewrite T1; [vm_compute; reflexivity|]. constructor; [exact O1|]. constructor; [exact O2|constructor].
Defined.
